(* ===== verification/_CoqProject ===== *)
-Q . S2P
Prelude.v
Sink.v
EventStore.v
EventStoreCorrect.v
EventStoreTheorems.v
EventStoreExamples.v
Utf8.v
JsonGrammar.v
Scanner.v
JsonLex.v
JsonFacts.v
JsonAdmission.v
JsonAdmissionSound.v
JsonAdmissionTheorems.v
RawJson.v
RawJsonSim.v
RawJsonTheorems.v
RequestId.v
RequestIdTheorems.v
JsonRpc.v
Codec.v
CodecAdmission.v
CodecFraming.v
CodecRoundTrip.v
JsonExamples.v
CodecExamples.v
RateLimit.v
PartitionStoreFacts.v
SlidingWindow.v
SlidingWindowTheorems.v
SlidingMiddleware.v
Float64.v
TokenBucket.v
TokenBucketRate.v
TokenMiddleware.v
TokenMiddlewareTheorems.v
RateLimitExamples.v
SseParser.v
SseDecode.v
SseTheorems.v
SseExamples.v
ClientCache.v
ClientCacheTheorems.v
ClientCacheExamples.v
DocketQueue.v
DocketFormat.v
DocketFacts.v
DocketSystem.v
DocketTheorems.v
DocketWorker.v
DocketLocks.v
DocketExamples.v
HttpHeaders.v
HttpHeaderValues.v
HttpHeaderIntegers.v
HttpHeaderPlans.v
HttpHeaderMirrors.v
HttpHeaderSchemas.v
HttpHeaderExamples.v
UriTemplate.v
UriTemplateParse.v
UriTemplateExpand.v
UriTemplateRoundTrip.v
UriTemplateExamples.v
SessionState.v
ResponseCache.v
ResponseMiddleware.v
ResponseCacheFacts.v
ResponseIsolation.v
ResponseExamples.v
Duration.v
AbsoluteUri.v
AbsoluteUriTheorems.v
CoreLimits.v
CoreLimitsTheorems.v
SecurityPartition.v
SecurityPartitionTheorems.v
SecurityPartitionBooks.v
Ingress.v
IngressTheorems.v
