(* ===== verification/Prelude.v ===== *)
(** Verification of FastMCP Rust: the components that decide what the program
    accepts, stores, limits and forgets.

    * The program

    FastMCP is a framework for Model Context Protocol servers and clients.  Bytes
    arrive through a transport; [codec.rs] cuts them into newline-terminated
    frames and admits each frame with a bounded JSON scanner; [jsonrpc.rs] scans
    it a second time before typed decoding, identifies requests and answers
    malformed input.  Tool parameters travel in HTTP headers beside the body
    ([http_headers.rs]), and resources are named by URI templates that are expanded
    by one side and matched by the other ([uri_template.rs]).  On the server,
    middlewares such as the rate limiters of [rate_limiting.rs] and the response
    cache of [caching.rs] decide whether a request is handled; the cache keeps
    sessions apart by the revision of their state ([state.rs]).  The core crate
    admits work against limits that cannot be loosened ([lib.rs]) and keeps the
    records, quotas and revalidations of one principal out of reach of another
    ([partition.rs]), whose identity is made of the facts a provider verified
    ([ingress.rs]).  [docket.rs] queues tasks, and [event_store.rs] keeps the events
    of a stream so that a client that reconnects can replay them.  On the client, [sse.rs] cuts a response stream into
    messages and [cache.rs] keeps results for as long as the server says.

    * Files and the code they model (paths under crates/)

    - [Prelude]: machine integers ([u64], [usize], saturating and checked
      arithmetic), the state and error monad [M] of the operations (results
      [Ok], [Err], [Panic] and [OutOfFuel], so that a panic or exhausted fuel is
      a value a theorem has to exclude), its weakest preconditions and tactics.
    - [Sink]: the two bounded [io::Write] implementations behind one class.
    - [EventStore], with [EventStoreCorrect], [EventStoreTheorems],
      [EventStoreExamples]:
      fastmcp-transport/src/event_store.rs, every operation.
    - [Utf8], [JsonGrammar], [JsonLex], [JsonFacts]: UTF-8, and the
      RFC 8259 grammar as inductive relations between bytes and trees, the
      reference both scanners are measured against.
    - [Scanner]: the primitives the two scanners have in common, over the class
      [Cursor].
    - [JsonAdmission] (definitions), [JsonAdmissionSound], [JsonAdmissionTheorems]:
      [JsonAdmission] of fastmcp-transport/src/codec.rs.
    - [RawJson] (module [Raw]), [RawJsonSim], [RawJsonTheorems]:
      [RawJsonScanner], [admit_raw_json_document] and the path redaction of
      fastmcp-protocol/src/jsonrpc.rs.
    - [RequestId], [RequestIdTheorems], [JsonRpc]: identifiers, their
      correlation, message validation and the disposition of malformed input of
      the same file.
    - [Codec], [CodecAdmission], [CodecFraming], [CodecRoundTrip]: frames and
      framing of fastmcp-transport/src/codec.rs.
    - [RateLimit], [PartitionStoreFacts]: the keys, the errors and the partition
      store of fastmcp-server/src/rate_limiting.rs (with the parts of
      fastmcp-core/src/error.rs, fastmcp-core/src/crypto.rs and
      fastmcp-server/src/middleware.rs they use); [SlidingWindow],
      [SlidingWindowTheorems], [SlidingMiddleware]: the sliding-window limiter and
      its middleware; [Float64]: binary64; [TokenBucket],
      [TokenBucketRate], [TokenMiddleware], [TokenMiddlewareTheorems]: the token
      bucket and its middleware.
    - [SseParser] (module [Sse]), [SseDecode], [SseTheorems]:
      fastmcp-client/src/sse.rs.
    - [ClientCache], [ClientCacheTheorems]:
      fastmcp-client/src/cache.rs, with the time-to-live conversion of
      fastmcp-protocol/src/result.rs and the result and notification kinds of
      fastmcp-protocol/src/messages.rs.
    - [DocketQueue] (module [Docket]), [DocketFormat], [DocketFacts],
      [DocketSystem], [DocketTheorems], [DocketWorker], [DocketLocks]:
      fastmcp-server/src/docket.rs, the in-memory task queue with its client and
      worker (the task states are those of fastmcp-protocol/src/types.rs).
    - [HttpHeaders] (module [Headers]), [HttpHeaderValues], [HttpHeaderIntegers],
      [HttpHeaderPlans], [HttpHeaderMirrors], [HttpHeaderSchemas]:
      fastmcp-protocol/src/http_headers.rs, the encoding of values, the plans
      compiled from schemas, the projection of arguments to headers and their
      validation against a body.
    - [UriTemplate] (module [Template]), [UriTemplateParse], [UriTemplateExpand],
      [UriTemplateRoundTrip]:
      fastmcp-protocol/src/uri_template.rs.
    - [SessionState] (module [Session]): fastmcp-core/src/state.rs.
    - [ResponseCache] (module [RCache]): the bounded writer, the keys and the
      least-recently-used store of fastmcp-server/src/caching.rs, with the integers
      of fastmcp-protocol/src/common_types.rs; [ResponseMiddleware] (module
      [RMiddleware]): its policies, partitions and handlers, with what they read of
      fastmcp-core/src/context.rs and auth.rs; [ResponseCacheFacts],
      [ResponseIsolation]: the proofs.
    - [Duration] (module [Durations]): fastmcp-core/src/duration.rs.
    - [AbsoluteUri] (module [Ipv6], the parser of IPv6 addresses of the standard
      library, and module [Uri]), [AbsoluteUriTheorems]: the absolute URIs of
      fastmcp-core/src/uri.rs.
    - [CoreLimits] (modules [Limits], with [Builder], [SealedKeys], [Admission] and
      [Exchange]), [CoreLimitsTheorems]: the module [limits] of
      fastmcp-core/src/lib.rs: the catalog of limits, the digests of admission
      keys, the admission controller and the budget of a logical exchange.
    - [SecurityPartition] (module [Partition]), [SecurityPartitionTheorems],
      [SecurityPartitionBooks]: fastmcp-core/src/partition.rs.
    - [Ingress], [IngressTheorems]: fastmcp-core/src/ingress.rs, with the keyed hash
      of fastmcp-core/src/crypto.rs.
    - [JsonExamples], [CodecExamples], [RateLimitExamples], [SseExamples],
      [ClientCacheExamples], [DocketExamples], [HttpHeaderExamples],
      [UriTemplateExamples], [ResponseExamples]: closed runs, and the properties at
      them.

    A struct is a [Record] with the names of its fields, an enum an
    [Inductive] with the names of its variants, a method a definition with its
    name (with the type's name in front where two types share it); loops have
    definitions of their own.

    * What the theorems show

    - JSON admission: each scanner accepts exactly the documents of the grammar
      within its limits, without duplicate names, and describes them truthfully;
      the two agree but for byte-order marks and the required shape; error paths
      disclose no unbounded or unescaped text.
    - Framing: [decode] refines reading the stream line by line, chunk
      boundaries are irrelevant, memory is bounded, and of messages that serde
      writes and reads back, another codec decodes what one has encoded exactly
      when its admission accepts it.
    - Identifiers: two identifiers correlate exactly when they denote the same
      integer or string; malformed input is answered only at server ingress.
    - Event store: every reachable store is within all its limits, events are
      identified by their ids, and storing, paging and expiring events are exact
      functions of the list of events.
    - Rate limiting: the sliding window decides by exact counting and never
      admits more than its maximum in a window; the token bucket never admits
      more than capacity plus rate times time, with the rounding of [f64] bounded
      explicitly; a middleware keeps to these bounds for the limiters of a key
      across evictions and for the overflow limiter, so a key altogether to twice
      the bound; neither middleware trips an assertion of the partition store.
    - Event-stream parser: fed in any chunks it dispatches the messages of the
      whole stream, refuses a stream at the byte that first breaks a limit, with
      that limit, and holds a bounded buffer.
    - Client cache: budgets, exact byte accounting, insertion and lookup, and the
      fencing of fetches that an invalidation overtook.
    - Docket: over every interleaving of clients, workers and timeouts, attempts
      are bounded, no task that its submission has queued is lost and claims follow
      priority and the order of queueing until a task is retried; a worker alone
      works the queue off; which pairs of operations can block each other for ever
      on the two locks.
    - Parameter headers: values survive encoding, decoding panics on exactly one
      text, a plan binds exactly the annotated parameters, what one side projects
      the other accepts, and a body is accepted exactly when its headers mirror it.
    - URI templates: parsing accepts exactly the printed forms of well-formed
      templates; expansion is that of RFC 6570, written apart from the code, within
      the limits and but for two points on exploded pairs where the code departs
      from its appendix A; matching inverts expansion for the templates and values
      it is promised for.
    - Session state: equal admission revisions mean equal contents, over any
      mutations through any handle.
    - Response cache: the store refines a list in order of use; with other threads
      between any two steps, a cached answer only reaches the session revision and
      identity it was stored for, or SHA-256 has a collision, and is only stored
      while its session is at the admitted revision and its request live; an
      invalidation removes every page of a result set and nothing else.
    - Durations: the parser accepts exactly the sequences of numbers with units
      whose sum is positive and fits 64 bits, white space inside numbers included.
    - Absolute URIs: admission accepts exactly the URIs of RFC 3986 within the limit,
      reads their components as the grammar does, and its errors name the byte they
      are about.
    - Limits: over every interleaving of operations on clones and handles, an
      admission controller answers as a ledger of charges and its counters are the
      sums of what is held; an exchange budget admits exactly what its limits,
      deadline and context allow; validation accepts exactly the documented bounds,
      and the meet of two snapshots admits what both admit.
    - Security partitions: a lookup finds exactly what was last stored under the
      facts and owner of the caller, or SHA-256 has collided; quota, flights and
      replays are decided by the books of what is held; any minute holds fewer than
      twice the configured attempts, when their clock readings are in order; which
      keys panic on the bound of the hash.
    - Ingress: verified facts are admitted exactly within their bounds, and the
      identity of a descriptor tells all of them, with the claims as a set; which
      admitted facts make its derivation panic; a sealed reference is verified by
      what was sealed and by nothing else, or the keyed hash has collided.

    * Bounds, fuel and parameters

    Loops that are not structural take fuel, and the theorems prove that the
    amount the definitions pass is enough: the scanners get three units per byte
    and a constant (each call of a parsing function that does not consume a byte
    is followed by one that does), string and frame loops the number of bytes
    left and one, lossy decoding the length of its input, the eviction loops the
    number of entries and one, the walk over a JSON value the number of nodes it
    admits and one.  [usize] has 64 bits.

    An operation that reads a clock takes the reading as an argument: one reading
    per operation of the event store, a monotone sequence of readings in the
    sliding window; the token-bucket middleware handles requests in the order of
    the instants they sampled, over less than 2^64 seconds.  The steps of the docket
    are its critical sections, which are whole operations but for a submission: it
    draws its number from an atomic counter, records its task and queues it in three
    steps.  There are fewer than 2^64 submissions and less than 2^31 retries of a
    task; the loop of its worker is a function of what each turn observes.  The handlers of the response cache run among other threads, whose
    steps are arbitrary but for keeping the cache sound ([rely] of
    [ResponseIsolation]); an operation of its store reads the clock once, where the
    code reads it for each entry it may evict, and the allocator is a function of
    the size asked for, so that what it grants once it grants again.  A finite [f64] is the integer it is a multiple of 2^-1074
    by.  Admission and partition controllers are followed for up to 2^64 - 2 and
    2^64 - 1 operations, after which their identifiers run out; what a context
    reports at a check of an exchange budget is an argument of the check.
    Code outside the repository is a parameter with its documented behaviour as
    hypotheses: typed decoding and encoding of [serde_json] (class [Serde] and the
    encoders; they stand for the derived and hand-written implementations of
    [Deserialize] and [Serialize] of the messages too, but for those of identifiers,
    which are modelled), SHA-256, HMAC, the
    iteration order of hash maps, the client-id extractor, the bytes a result
    encodes to, the timestamps of [chrono], the handlers of a worker, the base64
    engine, the schema engine, the allocator, the last instant of the clock.

    * Not modelled

    Mutexes, but for the locks of the docket (an operation runs to its end under
    its lock) and the accesses of the response cache; locks poisoned by a panic of
    another thread; logging, the Redis backend of the docket but for its pure
    helpers, the derives of serde and the raw-parameter sidecars of jsonrpc.rs; the
    socket and process I/O of the transports, server and client; OAuth and OIDC,
    which rest on cryptography and HTTP outside the repository; the attribute
    macros, the console and the command line.  The router, the sessions, the proxy
    and the task manager of the server and the connections of the client are
    asynchronous code over the runtime crate, with user handlers in between; the
    canonical URLs of the core crate are those of the url crate. *)
From stdpp Require Import base list gmap strings sorting.
From Stdlib Require Import ZArith Lia.

Open Scope Z_scope.

(** * Machine integers *)

(** [usize] and [u64] on the 64-bit targets the workspace builds for. *)
Definition usize_max : Z := 2 ^ 64 - 1.
Definition u64_max : Z := 2 ^ 64 - 1.

Definition checked_add (a b : Z) : option Z :=
  if a + b <=? usize_max then Some (a + b) else None.
Definition checked_sub (a b : Z) : option Z :=
  if b <=? a then Some (a - b) else None.
Definition saturating_add (a b : Z) : Z := Z.min (a + b) usize_max.
Definition saturating_sub (a b : Z) : Z := Z.max (a - b) 0.
Definition wrapping_add64 (a b : Z) : Z := (a + b) mod 2 ^ 64.

(** The length of a slice, [Vec] or [VecDeque] as a [usize]. *)
Definition zlen {A} (l : list A) : Z := Z.of_nat (length l).

(** * Results and the state-and-error monad

    A fallible Rust method on [&mut self] is a function from the receiver's
    state to an outcome and the state it leaves behind: state written before
    an early [return Err(..)] stays written.  [Panic] is a Rust panic and
    [OutOfFuel] the exhaustion of a loop bound of the model. *)
Inductive outcome (E A : Type) : Type :=
| Ok (a : A)
| Err (e : E)
| Panic
| OutOfFuel.
Arguments Ok {E A} a.
Arguments Err {E A} e.
Arguments Panic {E A}.
Arguments OutOfFuel {E A}.

Definition M (S E A : Type) : Type := S → outcome E A * S.

Definition ret {S E A} (a : A) : M S E A := λ s, (Ok a, s).
Definition fail {S E A} (e : E) : M S E A := λ s, (Err e, s).
Definition panic {S E A} : M S E A := λ s, (Panic, s).
Definition out_of_fuel {S E A} : M S E A := λ s, (OutOfFuel, s).
Definition get {S E} : M S E S := λ s, (Ok s, s).
Definition gets {S E A} (f : S → A) : M S E A := λ s, (Ok (f s), s).
Definition modify {S E} (f : S → S) : M S E unit := λ s, (Ok tt, f s).

Definition bind {S E A B} (m : M S E A) (k : A → M S E B) : M S E B :=
  λ s, match m s with
       | (Ok a, s') => k a s'
       | (Err e, s') => (Err e, s')
       | (Panic, s') => (Panic, s')
       | (OutOfFuel, s') => (OutOfFuel, s')
       end.

(** [Option::ok_or(e)?] *)
Definition ok_or {S E A} (o : option A) (e : E) : M S E A :=
  match o with Some a => ret a | None => fail e end.

Declare Scope mcp_scope.
Delimit Scope mcp_scope with mcp.
Notation "'let!' x ':=' m 'in' k" := (bind m (λ x, k))
  (at level 10, x pattern, m at level 100, k at level 200) : mcp_scope.
Notation "m ';!' k" := (bind m (λ _, k))
  (at level 100, k at level 200, right associativity) : mcp_scope.
Open Scope mcp_scope.

(** The outcome monad, for functions without a receiver state, and
    [Result::map_err]. *)
Definition obind {E A B} (o : outcome E A) (k : A → outcome E B) : outcome E B :=
  match o with
  | Ok a => k a
  | Err e => Err e
  | Panic => Panic
  | OutOfFuel => OutOfFuel
  end.

Definition map_err {E F A} (f : E → F) (o : outcome E A) : outcome F A :=
  match o with
  | Ok a => Ok a
  | Err e => Err (f e)
  | Panic => Panic
  | OutOfFuel => OutOfFuel
  end.

Notation "'let?' x ':=' o 'in' k" := (obind o (λ x, k))
  (at level 10, x pattern, o at level 100, k at level 200) : mcp_scope.

(** A result or an error: neither a panic nor an exhausted bound. *)
Definition settled {E A} (o : outcome E A) : Prop :=
  match o with Ok _ | Err _ => True | _ => False end.

Lemma settled_obind {E A B} (o : outcome E A) (k : A → outcome E B) :
  settled o → (∀ a, o = Ok a → settled (k a)) → settled (obind o k).
Proof. destruct o; simpl; auto. Qed.

Lemma settled_map_err {E F A} (f : E → F) (o : outcome E A) : settled o → settled (map_err f o).
Proof. by destruct o. Qed.

(** Run a function without state inside a stateful one. *)
Definition lift {S E A} (o : outcome E A) : M S E A := λ s, (o, s).

(** * Weakest preconditions

    [wp m Q R s]: started in [s], [m] neither panics nor runs out of fuel, a
    result satisfies [Q] and an error satisfies [R], each with the state the
    run leaves. *)
Definition wp {S E A} (m : M S E A) (Q : A → S → Prop) (R : E → S → Prop) (s : S) : Prop :=
  match m s with
  | (Ok a, s') => Q a s'
  | (Err e, s') => R e s'
  | _ => False
  end.

Section wp_rules.
Context {S E : Type}.
Implicit Types (s : S).

Lemma wp_ret {A} (a : A) Q (R : E → S → Prop) s : wp (ret a) Q R s ↔ Q a s.
Proof. done. Qed.

Lemma wp_fail {A} (e : E) (Q : A → S → Prop) R s : wp (fail e) Q R s ↔ R e s.
Proof. done. Qed.

Lemma wp_gets {A} (f : S → A) Q (R : E → S → Prop) s : wp (gets f) Q R s ↔ Q (f s) s.
Proof. done. Qed.

Lemma wp_get Q (R : E → S → Prop) s : wp get Q R s ↔ Q s s.
Proof. done. Qed.

Lemma wp_modify (f : S → S) Q (R : E → S → Prop) s : wp (modify f) Q R s ↔ Q tt (f s).
Proof. done. Qed.

Lemma wp_bind {A B} (m : M S E A) (k : A → M S E B) Q R s :
  wp (bind m k) Q R s ↔ wp m (λ a s', wp (k a) Q R s') R s.
Proof. unfold wp, bind. by destruct (m s) as [[] ?]. Qed.

Lemma wp_ok_or {A} (o : option A) (e : E) Q R s :
  wp (ok_or o e) Q R s ↔ match o with Some a => Q a s | None => R e s end.
Proof. by destruct o. Qed.

Lemma wp_mono {A} (m : M S E A) (Q Q' : A → S → Prop) (R R' : E → S → Prop) s :
  wp m Q R s →
  (∀ a s', Q a s' → Q' a s') → (∀ e s', R e s' → R' e s') →
  wp m Q' R' s.
Proof. unfold wp. destruct (m s) as [[] ?]; naive_solver. Qed.

Lemma wp_and {A} (m : M S E A) (Q Q' : A → S → Prop) (R R' : E → S → Prop) s :
  wp m Q R s → wp m Q' R' s → wp m (λ a s', Q a s' ∧ Q' a s') (λ e s', R e s' ∧ R' e s') s.
Proof. unfold wp. by destruct (m s) as [[] ?]. Qed.

Lemma wp_if {A} (b : bool) (m1 m2 : M S E A) Q R s :
  wp (if b then m1 else m2) Q R s ↔ if b then wp m1 Q R s else wp m2 Q R s.
Proof. by destruct b. Qed.

(** What a successful run establishes. *)
Lemma wp_ok {A} (m : M S E A) Q R s a s' : wp m Q R s → m s = (Ok a, s') → Q a s'.
Proof. unfold wp. intros H Hm. by rewrite Hm in H. Qed.

Lemma bind_ok {A B} (m : M S E A) (k : A → M S E B) s a s' :
  m s = (Ok a, s') → bind m k s = k a s'.
Proof. unfold bind. by intros ->. Qed.

Lemma bind_ok_inv {A B} (m : M S E A) (k : A → M S E B) s b s' :
  bind m k s = (Ok b, s') → ∃ a s1, m s = (Ok a, s1) ∧ k a s1 = (Ok b, s').
Proof. unfold bind. destruct (m s) as [[] ?]; naive_solver. Qed.
End wp_rules.

Create Rewrite HintDb wp.
#[export] Hint Rewrite @wp_ret @wp_fail @wp_gets @wp_get @wp_modify @wp_bind @wp_ok_or @wp_if : wp.

(** * Shared tactics and lemmas *)

(** Turn the boolean comparisons of the source into propositions. *)
Ltac zbool :=
  repeat match goal with
  | H : (_ <=? _) = true |- _ => apply Z.leb_le in H
  | H : (_ <=? _) = false |- _ => apply Z.leb_gt in H
  | H : (_ <? _) = true |- _ => apply Z.ltb_lt in H
  | H : (_ <? _) = false |- _ => apply Z.ltb_ge in H
  | H : (_ =? _) = true |- _ => apply Z.eqb_eq in H
  | H : (_ =? _) = false |- _ => apply Z.eqb_neq in H
  | H : (_ && _) = true |- _ => apply andb_true_iff in H as [? ?]
  | H : (_ || _) = false |- _ => apply orb_false_iff in H as [? ?]
  | H : negb _ = true |- _ => apply negb_true_iff in H
  | H : negb _ = false |- _ => apply negb_false_iff in H
  end.

(** Split on the first [if] or [match] of a hypothesis or of the goal, keeping
    the equation. *)
Ltac case_if_in H :=
  match type of H with
  | context [if ?b then _ else _] => let E := fresh "E" in destruct b eqn:E
  end.
Ltac case_goal_if :=
  match goal with
  | |- context [if ?b then _ else _] => let E := fresh "E" in destruct b eqn:E
  end.

(** Arithmetic on the lengths of concatenations. *)
Ltac length_lia :=
  repeat (progress (rewrite ?length_app in *; cbn [length] in *)); lia.

Lemma checked_add_Some a b c : checked_add a b = Some c ↔ c = a + b ∧ a + b <= usize_max.
Proof. unfold checked_add. case_goal_if; zbool; naive_solver lia. Qed.

Lemma checked_sub_Some a b c : checked_sub a b = Some c ↔ c = a - b ∧ b <= a.
Proof. unfold checked_sub. case_goal_if; zbool; naive_solver lia. Qed.

Lemma zlen_nil {A} : zlen (@nil A) = 0.
Proof. done. Qed.
Lemma zlen_cons {A} (x : A) l : zlen (x :: l) = 1 + zlen l.
Proof. unfold zlen. simpl. lia. Qed.
Lemma zlen_app {A} (k l : list A) : zlen (k ++ l) = zlen k + zlen l.
Proof. unfold zlen. rewrite length_app. lia. Qed.
Lemma zlen_nonneg {A} (l : list A) : 0 <= zlen l.
Proof. unfold zlen. lia. Qed.

Create Rewrite HintDb zlen.
#[export] Hint Rewrite @zlen_nil @zlen_cons @zlen_app : zlen.

(** [Iterator::try_fold(0usize, checked_add)] over the values [f x]. *)
Fixpoint try_sum (l : list Z) (acc : Z) : option Z :=
  match l with
  | [] => Some acc
  | x :: l => match checked_add acc x with
              | Some acc => try_sum l acc
              | None => None
              end
  end.

Definition sum (l : list Z) : Z := foldr Z.add 0 l.

Lemma sum_cons x l : sum (x :: l) = x + sum l.
Proof. done. Qed.

Lemma sum_app k l : sum (k ++ l) = sum k + sum l.
Proof. unfold sum. induction k; simpl; lia. Qed.

Lemma sum_nonneg l : Forall (λ x, 0 <= x) l → 0 <= sum l.
Proof. unfold sum. induction 1; simpl; lia. Qed.

Lemma sum_fmap_cons {A} (w : A → Z) x l : sum (w <$> x :: l) = w x + sum (w <$> l).
Proof. done. Qed.

Lemma sum_insert {A} (w : A → Z) (l : list A) i x y :
  l !! i = Some x → sum (w <$> <[i := y]> l) = sum (w <$> l) - w x + w y.
Proof.
  revert i. induction l as [|z l IH]; intros [|i] H; [done..| |].
  - injection H as ->. change (<[0%nat := y]> (x :: l)) with (y :: l). rewrite !sum_fmap_cons. lia.
  - change (<[S i := y]> (z :: l)) with (z :: <[i := y]> l). rewrite !sum_fmap_cons, (IH i) by done. lia.
Qed.

Lemma sum_fmap_nonneg {A} (w : A → Z) l : (∀ y, 0 <= w y) → 0 <= sum (w <$> l).
Proof. intros Hw. apply sum_nonneg, Forall_fmap, Forall_true. intros; apply Hw. Qed.

Lemma sum_elem {A} (w : A → Z) (l : list A) i x : (∀ y, 0 <= w y) → l !! i = Some x → w x <= sum (w <$> l).
Proof.
  intros Hw. revert i. induction l as [|z l IH]; intros [|i] H; [done..| |]; rewrite sum_fmap_cons.
  - injection H as ->. pose proof (sum_fmap_nonneg w l Hw). lia.
  - specialize (IH _ H). specialize (Hw z). lia.
Qed.

Lemma sum_perm k l : k ≡ₚ l → sum k = sum l.
Proof. unfold sum. induction 1; simpl; lia. Qed.

(** Over non-negative values the fold overflows exactly when the total does, so
    the order of the values does not matter. *)
Lemma try_sum_spec l acc :
  Forall (λ x, 0 <= x) l → acc <= usize_max →
  try_sum l acc = if acc + sum l <=? usize_max then Some (acc + sum l) else None.
Proof.
  intros Hl. revert acc. induction Hl as [|x l Hx Hl IH]; intros acc Ha; simpl.
  { unfold sum; simpl. rewrite Z.add_0_r. case_goal_if; zbool; [done|lia]. }
  apply sum_nonneg in Hl.
  unfold checked_add. change (sum (x :: l)) with (x + sum l).
  destruct (acc + x <=? usize_max) eqn:E; zbool.
  - rewrite IH by done. by rewrite Z.add_assoc.
  - case_goal_if; zbool; [lia|done].
Qed.

(** * Lists *)

Lemma filter_all {A} (P : A → Prop) `{∀ x, Decision (P x)} l : Forall P l → filter P l = l.
Proof. induction 1; [done|]. rewrite filter_cons_True by done. by f_equal. Qed.

Lemma elem_of_drop_1 {A} (x : A) n l : x ∈ drop n l → x ∈ l.
Proof. intros H. rewrite <- (take_drop n l). apply elem_of_app. by right. Qed.

Lemma elem_of_take_1 {A} (x : A) n l : x ∈ take n l → x ∈ l.
Proof. intros H. rewrite <- (take_drop n l). apply elem_of_app. by left. Qed.

Lemma last_elem_of {A} (x : A) l : last l = Some x → x ∈ l.
Proof. intros [l' ->]%last_Some. apply elem_of_app. right. by left. Qed.

(** The longest prefix whose elements satisfy [f]. *)
Fixpoint take_while {A} (f : A → bool) (l : list A) : list A :=
  match l with
  | x :: l => if f x then x :: take_while f l else []
  | [] => []
  end.

Definition head_not {A} (f : A → bool) (l : list A) : Prop :=
  match l with x :: _ => f x = false | [] => True end.

Lemma take_while_Forall {A} (f : A → bool) l : Forall (λ x, f x = true) (take_while f l).
Proof. induction l as [|x l IH]; simpl; [done|]. destruct (f x) eqn:E; auto. Qed.

Lemma take_while_split {A} (f : A → bool) l :
  l = take_while f l ++ drop (length (take_while f l)) l ∧
  head_not f (drop (length (take_while f l)) l).
Proof.
  induction l as [|x l [IH1 IH2]]; simpl; [done|]. destruct (f x) eqn:E; simpl; [|done].
  split; [by f_equal|done].
Qed.

Lemma take_while_app {A} (f : A → bool) a b :
  Forall (λ x, f x = true) a → head_not f b → take_while f (a ++ b) = a.
Proof.
  intros Ha Hb. induction Ha as [|x a Hx Ha IH]; simpl.
  - destruct b as [|y b]; simpl; [done|]. simpl in Hb. by rewrite Hb.
  - by rewrite Hx, IH.
Qed.

(** * Hash maps

    A [HashMap] is a [gmap]; where the code iterates over one, the order is
    whatever the hasher gives: some permutation of the bindings. *)
Class MapOrder (K V : Type) `{Countable K} : Type := {
  map_order : gmap K V → list (K * V);
  map_order_perm m : map_order m ≡ₚ map_to_list m;
}.

(** One order that exists, for closed evaluations. *)
Definition canonical_order (K V : Type) `{Countable K} : MapOrder K V :=
  {| map_order := map_to_list; map_order_perm m := reflexivity _ |}.

Lemma elem_of_map_order {K V} `{MapOrder K V} (m : gmap K V) k v :
  (k, v) ∈ map_order m ↔ m !! k = Some v.
Proof. by rewrite map_order_perm, elem_of_map_to_list. Qed.
