(* ===== verification/Sink.v ===== *)
(** Byte sinks: the [std::io::Write] implementations that bound what
    [serde_json::to_writer] may emit.  [PayloadByteCounter] belongs to
    [crates/fastmcp-transport/src/event_store.rs] and [BoundedEncodeBuffer] to
    [crates/fastmcp-transport/src/codec.rs]; the class [SinkLaws] is what both
    promise to their clients. *)
From stdpp Require Import base list gmap strings.
From Stdlib Require Import ZArith Lia.
From S2P Require Import Prelude.

(** [write] of the trait, with the three observations the clients rely on:
    bytes taken so far, the configured bound, whether a write was refused for
    exceeding it. *)
Class Sink (W : Type) : Type := {
  write : list Z → M W unit Z;
  sink_written : W → Z;
  sink_limit : W → Z;
  sink_rejected : W → bool;
}.

Class SinkLaws (W : Type) `{Sink W} : Prop := {
  write_fits b w :
    0 <= sink_written w → sink_limit w < usize_max →
    sink_written w + zlen b <= sink_limit w →
    ∃ w', write b w = (Ok (zlen b), w') ∧
      sink_written w' = sink_written w + zlen b ∧
      sink_limit w' = sink_limit w ∧ sink_rejected w' = sink_rejected w;
  write_refuses b w :
    0 <= sink_written w → sink_limit w < usize_max →
    sink_limit w < sink_written w + zlen b →
    ∃ w', write b w = (Err tt, w') ∧ sink_rejected w' = true;
}.

(** How a [Serialize] value drives a writer: the slices it writes, in order,
    and whether it completes after them. *)
Record serialization : Type := {
  ser_chunks : list (list Z);
  ser_completes : bool;
}.

Definition ser_bytes (x : serialization) : list Z := concat (ser_chunks x).

(** [serde_json::to_writer]: every slice through [write_all], stopping at the
    writer's first error. *)
Fixpoint write_all_chunks {W} `{Sink W} (cs : list (list Z)) : M W unit unit :=
  match cs with
  | [] => ret tt
  | c :: cs => write c ;! write_all_chunks cs
  end.

Definition to_writer {W} `{Sink W} (x : serialization) : M W unit unit :=
  write_all_chunks (ser_chunks x) ;!
  if ser_completes x then ret tt else fail tt.

Module PayloadByteCounter.
Record t : Type := mk { bytes : Z; max_bytes : Z; exceeded : bool }.

Definition new (max_bytes : Z) : t := mk 0 max_bytes false.

Definition write (buffer : list Z) : M t unit Z := λ w,
  match checked_add (bytes w) (zlen buffer) with
  | None => (Err tt, mk (bytes w) (max_bytes w) true)
  | Some next_bytes =>
      if max_bytes w <? next_bytes
      then (Err tt, mk (bytes w) (max_bytes w) true)
      else (Ok (zlen buffer), mk next_bytes (max_bytes w) (exceeded w))
  end.

#[export] Instance sink : Sink t := {|
  Sink.write := write;
  sink_written := bytes;
  sink_limit := max_bytes;
  sink_rejected := exceeded;
|}.
End PayloadByteCounter.
#[export] Existing Instance PayloadByteCounter.sink.

Module BoundedEncodeBuffer.
Record t : Type := mk {
  bytes : list Z; max_message_size : Z; rejected_size : option Z }.

Definition new (max_message_size : Z) : t := mk [] max_message_size None.

Definition write (buffer : list Z) : M t unit Z := λ w,
  let next_size := saturating_add (zlen (bytes w)) (zlen buffer) in
  if max_message_size w <? next_size
  then (Err tt, mk (bytes w) (max_message_size w) (Some next_size))
  else (Ok (zlen buffer), mk (bytes w ++ buffer) (max_message_size w) (rejected_size w)).

#[export] Instance sink : Sink t := {|
  Sink.write := write;
  sink_written := λ w, zlen (bytes w);
  sink_limit := max_message_size;
  sink_rejected := λ w, bool_decide (is_Some (rejected_size w));
|}.
End BoundedEncodeBuffer.
#[export] Existing Instance BoundedEncodeBuffer.sink.

#[export] Instance payload_byte_counter_laws : SinkLaws PayloadByteCounter.t.
Proof.
  split; intros b [n mx ex]; cbn; unfold PayloadByteCounter.write, checked_add; cbn.
  - intros. rewrite (proj2 (Z.leb_le _ _)) by lia.
    rewrite (proj2 (Z.ltb_ge _ _)) by lia. eauto.
  - intros. destruct (n + zlen b <=? usize_max); [|eauto].
    rewrite (proj2 (Z.ltb_lt _ _)) by lia. eauto.
Qed.

#[export] Instance bounded_encode_buffer_laws : SinkLaws BoundedEncodeBuffer.t.
Proof.
  split; intros b [bs mx rj]; cbn; unfold BoundedEncodeBuffer.write, saturating_add; cbn.
  - intros. rewrite (proj2 (Z.ltb_ge _ _)) by lia.
    eexists. split; [done|]. cbn. by rewrite zlen_app.
  - intros. rewrite (proj2 (Z.ltb_lt _ _)) by lia. eauto.
Qed.

Section to_writer.
Context {W : Type} `{SinkLaws W}.
Implicit Types w : W.

Lemma write_all_chunks_fits cs w :
  0 <= sink_written w → sink_limit w < usize_max →
  sink_written w + zlen (concat cs) <= sink_limit w →
  ∃ w', write_all_chunks cs w = (Ok tt, w') ∧
    sink_written w' = sink_written w + zlen (concat cs) ∧ sink_rejected w' = sink_rejected w.
Proof.
  revert w. induction cs as [|c cs IH]; intros w H0' Hl Hfit; simpl.
  { exists w. rewrite zlen_nil. split_and!; [done|lia|done]. }
  simpl in Hfit. rewrite zlen_app in Hfit |- *.
  pose proof (zlen_nonneg c). pose proof (zlen_nonneg (concat cs)).
  destruct (write_fits c w) as (w1 & Hw & Hn & Hm & Hr); [lia..|].
  rewrite (bind_ok _ _ _ _ _ Hw).
  destruct (IH w1) as (w2 & -> & Hn2 & Hr2); [lia..|].
  exists w2. split_and!; [done|lia|congruence].
Qed.

Lemma write_all_chunks_refuses cs w :
  0 <= sink_written w <= sink_limit w → sink_limit w < usize_max →
  sink_limit w < sink_written w + zlen (concat cs) →
  ∃ w', write_all_chunks cs w = (Err tt, w') ∧ sink_rejected w' = true.
Proof.
  revert w. induction cs as [|c cs IH]; intros w H0' Hl Hover; simpl in *.
  { rewrite zlen_nil in Hover. lia. }
  rewrite zlen_app in Hover. pose proof (zlen_nonneg c).
  destruct (Z.le_gt_cases (sink_written w + zlen c) (sink_limit w)).
  - destruct (write_fits c w) as (w1 & Hw & Hn & Hm & Hr); [lia..|].
    rewrite (bind_ok _ _ _ _ _ Hw). apply IH; lia.
  - destruct (write_refuses c w) as (w1 & Hw & Hr); [lia..|].
    exists w1. unfold bind. by rewrite Hw.
Qed.

(** A bounded sink takes the whole encoding or reports the refusal. *)
Lemma to_writer_spec (x : serialization) w :
  sink_written w = 0 → 0 <= sink_limit w < usize_max → sink_rejected w = false →
  ∃ w', to_writer x w =
      (if (zlen (ser_bytes x) <=? sink_limit w) && ser_completes x
       then Ok tt else Err tt, w') ∧
    sink_rejected w' = negb (zlen (ser_bytes x) <=? sink_limit w) ∧
    (zlen (ser_bytes x) <= sink_limit w → sink_written w' = zlen (ser_bytes x)).
Proof.
  intros Hw Hl Hr. unfold to_writer, ser_bytes.
  destruct (Z.leb_spec (zlen (concat (ser_chunks x))) (sink_limit w)) as [Hle|Hgt].
  - destruct (write_all_chunks_fits (ser_chunks x) w) as (w' & Hx & Hn & Hr'); [lia..|].
    rewrite (bind_ok _ _ _ _ _ Hx). exists w'.
    split_and!; [by destruct (ser_completes x)|by rewrite Hr', Hr|lia].
  - destruct (write_all_chunks_refuses (ser_chunks x) w) as (w' & Hx & Hr'); [lia..|].
    exists w'. unfold bind. rewrite Hx. split_and!; [done|by rewrite Hr'|lia].
Qed.
End to_writer.

(** The encode buffer holds exactly what was written to it. *)
Lemma encode_buffer_content cs (w w' : BoundedEncodeBuffer.t) u :
  write_all_chunks cs w = (Ok u, w') →
  BoundedEncodeBuffer.bytes w' = BoundedEncodeBuffer.bytes w ++ concat cs.
Proof.
  revert w. induction cs as [|c cs IH]; intros w; simpl.
  { intros [= _ ->]. by rewrite app_nil_r. }
  intros (n & w1 & Hw & Hk)%bind_ok_inv. apply IH in Hk. rewrite Hk.
  destruct w as [bs mx rj]. cbn in Hw. unfold BoundedEncodeBuffer.write in Hw. cbn in Hw.
  case_match; simplify_eq. cbn. by rewrite <- app_assoc.
Qed.
