(* ===== verification/EventStore.v ===== *)
(** The SSE event store, [crates/fastmcp-transport/src/event_store.rs]: bounded
    per-stream event retention, TTL expiry and cursor-based replay. *)
From stdpp Require Import base list gmap strings pretty fin_maps sorting.
From Stdlib Require Import ZArith Lia.
From S2P Require Import Prelude Sink.

(** * Data *)

Definition str_len (s : string) : Z := Z.of_nat (String.length s).

Inductive EventStoreError : Type :=
| InvalidZeroLimit (field : string)
| StreamIdTooLong (max_bytes : Z)
| EventPayloadTooLarge (max_bytes : Z)
| StreamLimitReached (max_streams : Z)
| AggregatePayloadLimitExceeded (max_bytes : Z)
| ReplayCursorTooLong (max_bytes : Z)
| ReplayCursorNotRetained
| ReplayEventPayloadTooLarge (max_bytes : Z)
| PayloadMeasurementFailed.

#[export] Instance EventStoreError_eq_dec : EqDecision EventStoreError.
Proof. solve_decision. Defined.

(** Instants and durations are nanoseconds of the monotonic clock. *)
Record EventEntry (V : Type) : Type := {
  id : string;
  stream_id : string;
  data : option V;
  created_at : Z;
}.
Arguments id {V} _.
Arguments stream_id {V} _.
Arguments data {V} _.
Arguments created_at {V} _.

Record ReplayBatch (V : Type) : Type := {
  batch_events : list (EventEntry V);
  next_after_id : option string;
  batch_payload_bytes : Z;
  complete : bool;
}.
Arguments batch_events {V} _.
Arguments next_after_id {V} _.
Arguments batch_payload_bytes {V} _.
Arguments complete {V} _.

Record EventStoreConfig : Type := {
  max_events_per_stream : Z;
  max_streams : Z;
  max_stream_id_bytes : Z;
  max_event_payload_bytes : Z;
  max_total_event_payload_bytes : Z;
  max_replay_events : Z;
  max_replay_payload_bytes : Z;
  max_replay_cursor_bytes : Z;
  ttl : option Z;
}.

Definition secs (n : Z) : Z := n * 1000000000.

Definition EventStoreConfig_default : EventStoreConfig := {|
  max_events_per_stream := 100;
  max_streams := 1024;
  max_stream_id_bytes := 256;
  max_event_payload_bytes := 1024 * 1024;
  max_total_event_payload_bytes := 64 * 1024 * 1024;
  max_replay_events := 64;
  max_replay_payload_bytes := 1024 * 1024;
  max_replay_cursor_bytes := 256;
  ttl := Some (secs 3600);
|}.

Definition EventStoreConfig_no_expiry : EventStoreConfig := {|
  max_events_per_stream := max_events_per_stream EventStoreConfig_default;
  max_streams := max_streams EventStoreConfig_default;
  max_stream_id_bytes := max_stream_id_bytes EventStoreConfig_default;
  max_event_payload_bytes := max_event_payload_bytes EventStoreConfig_default;
  max_total_event_payload_bytes := max_total_event_payload_bytes EventStoreConfig_default;
  max_replay_events := max_replay_events EventStoreConfig_default;
  max_replay_payload_bytes := max_replay_payload_bytes EventStoreConfig_default;
  max_replay_cursor_bytes := max_replay_cursor_bytes EventStoreConfig_default;
  ttl := None;
|}.

(** The loop of [EventStoreConfig::validate]: the first zero limit is reported. *)
Fixpoint first_zero_limit (l : list (string * Z)) : option string :=
  match l with
  | [] => None
  | (field, limit) :: l => if limit =? 0 then Some field else first_zero_limit l
  end.

Definition EventStoreConfig_validate (c : EventStoreConfig) : EventStoreError + unit :=
  match first_zero_limit
    [("max_events_per_stream", max_events_per_stream c);
     ("max_streams", max_streams c);
     ("max_stream_id_bytes", max_stream_id_bytes c);
     ("max_event_payload_bytes", max_event_payload_bytes c);
     ("max_total_event_payload_bytes", max_total_event_payload_bytes c);
     ("max_replay_events", max_replay_events c);
     ("max_replay_payload_bytes", max_replay_payload_bytes c);
     ("max_replay_cursor_bytes", max_replay_cursor_bytes c)]%string with
  | Some field => inl (InvalidZeroLimit field)
  | None => inr tt
  end.

Record StoredEvent (V : Type) : Type := { entry : EventEntry V; payload_bytes : Z }.
Arguments entry {V} _.
Arguments payload_bytes {V} _.

(** [index] maps an event id to its position in [events] (oldest first). *)
Record StreamEvents (V : Type) : Type := {
  events : list (StoredEvent V);
  index : gmap string nat;
}.
Arguments events {V} _.
Arguments index {V} _.

Record EventStore (V : Type) : Type := {
  config : EventStoreConfig;
  streams : gmap string (StreamEvents V);
  event_counter : N;
}.
Arguments config {V} _.
Arguments streams {V} _.
Arguments event_counter {V} _.

Record EventStoreStats : Type := {
  stream_count : Z;
  total_events : Z;
  total_event_payload_bytes : Z;
  stats_config : EventStoreConfig;
}.

Section operations.
Context {V : Type} `{HashOrder : !MapOrder string (StreamEvents V)}.
(** [serde_json]'s encoding of a payload. *)
Variable ser : V → serialization.

(** * One event *)

Definition EventEntry_new (id stream_id : string) (data : option V) (now : Z) : EventEntry V :=
  {| id := id; stream_id := stream_id; data := data; created_at := now |}.

(** [self.created_at.elapsed() > ttl]; [elapsed] saturates at zero. *)
Definition EventEntry_is_expired (ttl : option Z) (now : Z) (e : EventEntry V) : bool :=
  match ttl with
  | Some ttl => ttl <? Z.max 0 (now - created_at e)
  | None => false
  end.

Definition ReplayBatch_empty : ReplayBatch V :=
  {| batch_events := []; next_after_id := None; batch_payload_bytes := 0; complete := true |}.

(** * One stream *)

Definition StreamEvents_new : StreamEvents V := {| events := []; index := ∅ |}.

Definition StreamEvents_rebuild_index (se : StreamEvents V) : StreamEvents V :=
  {| events := events se;
     index := foldl (λ m p, <[id (entry p.2) := p.1]> m) ∅ (imap (λ i e, (i, e)) (events se)) |}.

Definition StreamEvents_prospective_evicted_payload_bytes
    (max_events : Z) (se : StreamEvents V) : option Z :=
  match checked_add (zlen (events se)) 1 with
  | None => None
  | Some n =>
      let remove_count := saturating_sub n max_events in
      try_sum (payload_bytes <$> take (Z.to_nat remove_count) (events se)) 0
  end.

(** The eviction loop of [push]: [while self.events.len() >= max_events]. *)
Fixpoint StreamEvents_push_loop (fuel : nat) (max_events : Z)
    : M (StreamEvents V) EventStoreError unit := λ se,
  if max_events <=? zlen (events se) then
    match fuel with
    | O => (OutOfFuel, se)
    | S fuel =>
        let se1 :=
          match events se with
          | [] => se
          | oldest :: rest =>
              {| events := rest; index := delete (id (entry oldest)) (index se) |}
          end in
        StreamEvents_push_loop fuel max_events (StreamEvents_rebuild_index se1)
    end
  else (Ok tt, se).

Definition StreamEvents_push (e : EventEntry V) (bytes max_events : Z)
    : M (StreamEvents V) EventStoreError unit := λ se,
  if max_events =? 0 then (Err (InvalidZeroLimit "max_events_per_stream"), se) else
  (StreamEvents_push_loop (length (events se)) max_events ;!
   modify (λ se,
     {| events := events se ++ [{| entry := e; payload_bytes := bytes |}];
        index := <[id e := length (events se)]> (index se) |})) se.

(** The loop of [remove_expired]: pops while the front has expired; the flag
    says whether anything was removed. *)
Fixpoint StreamEvents_pop_expired (ttl : option Z) (now : Z)
    (evs : list (StoredEvent V)) (idx : gmap string nat) (removed : bool)
    : list (StoredEvent V) * gmap string nat * bool :=
  match evs with
  | front :: rest =>
      if EventEntry_is_expired ttl now (entry front)
      then StreamEvents_pop_expired ttl now rest (delete (id (entry front)) idx) true
      else (evs, idx, removed)
  | [] => (evs, idx, removed)
  end.

Definition StreamEvents_remove_expired (ttl : option Z) (now : Z) (se : StreamEvents V)
    : StreamEvents V :=
  match ttl with
  | None => se
  | Some _ =>
      let '(evs, idx, removed) :=
        StreamEvents_pop_expired ttl now (events se) (index se) false in
      let se' := {| events := evs; index := idx |} in
      if removed then StreamEvents_rebuild_index se' else se'
  end.

Definition StreamEvents_total_payload_bytes (se : StreamEvents V) : option Z :=
  try_sum (payload_bytes <$> events se) 0.

Definition StreamEvents_events_after (after_id : option string) (se : StreamEvents V)
    : list (EventEntry V) :=
  match after_id with
  | None => entry <$> events se
  | Some aid =>
      match index se !! aid with
      | Some idx => entry <$> drop (idx + 1) (events se)
      | None => []
      end
  end.

(** The [for] loop of [replay_bounded] over the events still to visit. *)
Fixpoint StreamEvents_replay_loop (max_events max_payload_bytes : Z)
    (todo : list (StoredEvent V))
    (acc : list (EventEntry V)) (next_after : option string) (bytes : Z)
    : EventStoreError + ReplayBatch V :=
  match todo with
  | [] => inr {| batch_events := acc; next_after_id := next_after;
                 batch_payload_bytes := bytes; complete := true |}
  | event :: todo =>
      if zlen acc =? max_events then
        inr {| batch_events := acc; next_after_id := next_after;
               batch_payload_bytes := bytes; complete := false |}
      else
        match checked_add bytes (payload_bytes event) with
        | None => inl (ReplayEventPayloadTooLarge max_payload_bytes)
        | Some next_bytes =>
            if max_payload_bytes <? next_bytes then
              match acc with
              | [] => inl (ReplayEventPayloadTooLarge max_payload_bytes)
              | _ => inr {| batch_events := acc; next_after_id := next_after;
                            batch_payload_bytes := bytes; complete := false |}
              end
            else
              StreamEvents_replay_loop max_events max_payload_bytes todo
                (acc ++ [entry event]) (Some (id (entry event))) next_bytes
        end
  end.

Definition StreamEvents_replay_bounded (after_id : option string)
    (max_events max_payload_bytes : Z) (se : StreamEvents V)
    : EventStoreError + ReplayBatch V :=
  match after_id with
  | Some aid =>
      match index se !! aid with
      | Some idx =>
          StreamEvents_replay_loop max_events max_payload_bytes
            (drop (idx + 1) (events se)) [] after_id 0
      | None => inl ReplayCursorNotRetained
      end
  | None =>
      StreamEvents_replay_loop max_events max_payload_bytes (events se) [] after_id 0
  end.

Definition StreamEvents_contains (event_id : string) (se : StreamEvents V) : bool :=
  bool_decide (is_Some (index se !! event_id)).

(** * The store *)

Definition EventStore_from_validated_config (c : EventStoreConfig) : EventStore V :=
  {| config := c; streams := ∅; event_counter := 0 |}.

Definition EventStore_with_config (c : EventStoreConfig) : EventStoreError + EventStore V :=
  match EventStoreConfig_validate c with
  | inl e => inl e
  | inr _ => inr (EventStore_from_validated_config c)
  end.

Definition EventStore_new : EventStore V :=
  EventStore_from_validated_config EventStoreConfig_default.

Definition set_streams (f : gmap string (StreamEvents V) → gmap string (StreamEvents V))
    (st : EventStore V) : EventStore V :=
  {| config := config st; streams := f (streams st); event_counter := event_counter st |}.

(** [fetch_add] wraps at [2^64]; [millis] is the system clock. *)
Definition EventStore_generate_event_id (millis : N) : M (EventStore V) EventStoreError string :=
  λ st,
  (Ok (pretty millis +:+ "-" +:+ pretty (event_counter st)),
   {| config := config st; streams := streams st;
      event_counter := (event_counter st + 1) mod 2 ^ 64 |}).

Definition EventStore_cleanup_streams (ttl : option Z) (now : Z)
    (m : gmap string (StreamEvents V)) : gmap string (StreamEvents V) :=
  let m1 := match ttl with
            | Some _ => StreamEvents_remove_expired ttl now <$> m
            | None => m
            end in
  filter (λ p, events p.2 ≠ []) m1.

(** [try_fold] over the values, each stream's own sum included. *)
Fixpoint total_of_streams (l : list (string * StreamEvents V)) (acc : Z) : option Z :=
  match l with
  | [] => Some acc
  | (_, se) :: l =>
      match StreamEvents_total_payload_bytes se with
      | None => None
      | Some n =>
          match checked_add acc n with
          | None => None
          | Some acc => total_of_streams l acc
          end
      end
  end.

Definition EventStore_total_payload_bytes (m : gmap string (StreamEvents V)) : option Z :=
  total_of_streams (map_order m) 0.

(** The cleanup every locked operation starts with. *)
Definition EventStore_cleanup_expired (now : Z) : M (EventStore V) EventStoreError unit :=
  modify (λ st, set_streams (EventStore_cleanup_streams (ttl (config st)) now) st).

Definition measure_event_payload (data : option V) (max_bytes : Z) : EventStoreError + Z :=
  match data with
  | None => inr 0
  | Some v =>
      match to_writer (ser v) (PayloadByteCounter.new max_bytes) with
      | (Ok _, counter) => inr (PayloadByteCounter.bytes counter)
      | (_, counter) =>
          if PayloadByteCounter.exceeded counter
          then inl (EventPayloadTooLarge max_bytes)
          else inl PayloadMeasurementFailed
      end
  end.

(** The admission checks of [store_event] after cleanup, in order. *)
Definition EventStore_admit (sid : string) (bytes : Z)
    (c : EventStoreConfig) (m : gmap string (StreamEvents V)) : EventStoreError + unit :=
  let too_much := AggregatePayloadLimitExceeded (max_total_event_payload_bytes c) in
  if bool_decide (m !! sid = None) && (max_streams c <=? Z.of_nat (size m))
  then inl (StreamLimitReached (max_streams c)) else
  match EventStore_total_payload_bytes m with
  | None => inl too_much
  | Some total =>
      match (match m !! sid with
             | Some se => StreamEvents_prospective_evicted_payload_bytes
                            (max_events_per_stream c) se
             | None => Some 0
             end) with
      | None => inl too_much
      | Some evicted =>
          match checked_sub total evicted ≫= (λ r, checked_add r bytes) with
          | None => inl too_much
          | Some retained =>
              if max_total_event_payload_bytes c <? retained then inl too_much else inr tt
          end
      end
  end.

(** [streams.entry(sid).or_insert_with(..)] followed by [push]. *)
Definition EventStore_push_event (sid : string) (e : EventEntry V) (bytes : Z)
    : M (EventStore V) EventStoreError unit := λ st,
  let se := default StreamEvents_new (streams st !! sid) in
  let '(r, se') := StreamEvents_push e bytes (max_events_per_stream (config st)) se in
  (r, set_streams <[sid := se']> st).

Definition lift_sum {S E A} (x : E + A) : M S E A :=
  match x with inl e => fail e | inr a => ret a end.

(** [now] is the clock read by the cleanup, [created] by [EventEntry::new] and
    [millis] the system clock of the event id. *)
Definition EventStore_store_event (now created : Z) (millis : N)
    (sid : string) (data : option V) : M (EventStore V) EventStoreError string :=
  let! c := gets config in
  if max_stream_id_bytes c <? str_len sid then fail (StreamIdTooLong (max_stream_id_bytes c)) else
  let! bytes := lift_sum (measure_event_payload data (max_event_payload_bytes c)) in
  EventStore_cleanup_expired now ;!
  let! m := gets streams in
  lift_sum (EventStore_admit sid bytes c m) ;!
  let! event_id := EventStore_generate_event_id millis in
  EventStore_push_event sid (EventEntry_new event_id sid data created) bytes ;!
  ret event_id.

Definition EventStore_store_priming_event (now created : Z) (millis : N) (sid : string)
    : M (EventStore V) EventStoreError string :=
  EventStore_store_event now created millis sid None.

Definition EventStore_get_events_after (now : Z) (sid : string) (after_id : option string)
    : M (EventStore V) EventStoreError (list (EventEntry V)) :=
  EventStore_cleanup_expired now ;!
  gets (λ st, match streams st !! sid with
              | Some se => StreamEvents_events_after after_id se
              | None => []
              end).

Definition EventStore_replay_bounded (now : Z) (sid : string) (after_id : option string)
    : M (EventStore V) EventStoreError (ReplayBatch V) :=
  let! c := gets config in
  if max_stream_id_bytes c <? str_len sid then fail (StreamIdTooLong (max_stream_id_bytes c)) else
  if match after_id with Some aid => max_replay_cursor_bytes c <? str_len aid | None => false end
  then fail (ReplayCursorTooLong (max_replay_cursor_bytes c)) else
  EventStore_cleanup_expired now ;!
  let! m := gets streams in
  match m !! sid, after_id with
  | Some se, _ =>
      lift_sum (StreamEvents_replay_bounded after_id
                  (max_replay_events c) (max_replay_payload_bytes c) se)
  | None, Some _ => fail ReplayCursorNotRetained
  | None, None => ret ReplayBatch_empty
  end.

(** [iter().find_map(..)] / the [for] loop of [find_stream_for_event]. *)
Fixpoint find_containing (event_id : string) (l : list (string * StreamEvents V))
    : option (string * StreamEvents V) :=
  match l with
  | [] => None
  | (sid, se) :: l =>
      if StreamEvents_contains event_id se then Some (sid, se)
      else find_containing event_id l
  end.

(** The stream found and the events handed to the callback, in order. *)
Definition EventStore_replay_events_after (now : Z) (last_event_id : string)
    : M (EventStore V) EventStoreError (option (string * list (EventEntry V))) :=
  EventStore_cleanup_expired now ;!
  gets (λ st,
    (λ p, (p.1, StreamEvents_events_after (Some last_event_id) p.2)) <$>
      find_containing last_event_id (map_order (streams st))).

Definition EventStore_find_stream_for_event (now : Z) (event_id : string)
    : M (EventStore V) EventStoreError (option string) :=
  EventStore_cleanup_expired now ;!
  gets (λ st, fst <$> find_containing event_id (map_order (streams st))).

Definition EventStore_clear_stream (sid : string) : M (EventStore V) EventStoreError unit :=
  modify (set_streams (delete sid)).

Definition EventStore_stream_count (now : Z) : M (EventStore V) EventStoreError Z :=
  EventStore_cleanup_expired now ;! gets (λ st, Z.of_nat (size (streams st))).

Definition event_total (m : gmap string (StreamEvents V)) : Z :=
  sum ((λ p, zlen (events p.2)) <$> map_order m).

Definition EventStore_event_count (now : Z) : M (EventStore V) EventStoreError Z :=
  EventStore_cleanup_expired now ;! gets (λ st, event_total (streams st)).

Definition EventStore_stats (now : Z) : M (EventStore V) EventStoreError EventStoreStats :=
  EventStore_cleanup_expired now ;!
  gets (λ st,
    {| stream_count := Z.of_nat (size (streams st));
       total_events := event_total (streams st);
       total_event_payload_bytes :=
         default (max_total_event_payload_bytes (config st))
           (EventStore_total_payload_bytes (streams st));
       stats_config := config st |}).

End operations.
