(* ===== verification/EventStoreCorrect.v ===== *)
(** One stream of the event store: the id index is exact, eviction and expiry
    drop a prefix, replay pages are the events after the cursor.

    The event store as a whole: reachable states stay inside every configured
    bound, event ids are unique, and storing then replaying returns the events. *)
From stdpp Require Import base list gmap strings pretty fin_maps sorting.
From Stdlib Require Import ZArith Lia Ascii.
From S2P Require Import Prelude Sink EventStore.
Section stream.
Context {V : Type}.
Implicit Types (se : StreamEvents V) (evs : list (StoredEvent V)).

Definition event_id (ev : StoredEvent V) : string := id (entry ev).

(** The index holds exactly the retained ids, each at its position. *)
Definition index_exact se : Prop :=
  ∀ aid i, index se !! aid = Some i ↔ ∃ ev, events se !! i = Some ev ∧ event_id ev = aid.

Definition stream_payload se : Z := sum (payload_bytes <$> events se).

(** ** The index *)

Lemma index_exact_NoDup se : index_exact se → NoDup (event_id <$> events se).
Proof.
  intros Hx. apply NoDup_alt. intros i j aid Hi Hj.
  apply list_lookup_fmap_Some in Hi as (ev1 & -> & Hi).
  apply list_lookup_fmap_Some in Hj as (ev2 & Heq & Hj).
  assert (index se !! event_id ev1 = Some i) as H1 by (apply Hx; eauto).
  assert (index se !! event_id ev1 = Some j) as H2 by (apply Hx; eauto).
  congruence.
Qed.

Lemma foldl_index_lookup evs k (m : gmap string nat) aid i :
  NoDup (event_id <$> evs) →
  foldl (λ m p, <[id (entry p.2) := p.1]> m) m (imap (λ j e, (k + j, e)%nat) evs) !! aid = Some i ↔
  (∃ j ev, i = (k + j)%nat ∧ evs !! j = Some ev ∧ event_id ev = aid) ∨
  (aid ∉ event_id <$> evs ∧ m !! aid = Some i).
Proof.
  revert k m. induction evs as [|e evs IH]; intros k m Hnd; simpl.
  { split; [|naive_solver]. intros H. right. split; [apply not_elem_of_nil|done]. }
  rewrite fmap_cons in Hnd. apply NoDup_cons in Hnd as [Hne Hnd].
  replace (imap _ evs) with (imap (λ j x, (S k + j, x)%nat) evs)
    by (apply imap_ext; intros; unfold compose; f_equal; lia).
  rewrite IH by done. fold (event_id e). rewrite not_elem_of_cons. split.
  - intros [(j & ev & -> & Hj & Hid)|[Hni Hm]].
    { left. exists (S j), ev. split_and!; [lia|done|done]. }
    apply lookup_insert_Some in Hm as [[<- <-]|[Hneq Hm]].
    + left. exists 0%nat, e. split_and!; [lia|done|done].
    + right. done.
  - intros [(j & ev & -> & Hj & Hid)|[[Hne' Hni] Hm]].
    + destruct j as [|j]; simplify_eq/=.
      * right. rewrite Nat.add_0_r. split; [done|]. apply lookup_insert_eq.
      * left. exists j, ev. split_and!; [lia|done|done].
    + right. by rewrite lookup_insert_ne.
Qed.

Lemma rebuild_index_exact se :
  NoDup (event_id <$> events se) → index_exact (StreamEvents_rebuild_index se).
Proof.
  intros Hnd aid i. cbn.
  rewrite (foldl_index_lookup _ 0) by done. split.
  - intros [(j & ev & -> & Hj & Hid)|[_ H]]; [eauto|by rewrite lookup_empty in H].
  - intros (ev & Hi & Hid). left. eauto.
Qed.

(** ** Eviction *)

Lemma push_loop_spec fuel max_events se :
  1 <= max_events → (length (events se) ≤ fuel)%nat → index_exact se →
  ∃ se', StreamEvents_push_loop fuel max_events se = (Ok tt, se') ∧
    events se' = drop (length (events se) + 1 - Z.to_nat max_events) (events se) ∧
    index_exact se'.
Proof.
  intros Hmax. revert se. induction fuel as [|fuel IH]; intros se Hfuel Hx; simpl.
  - rewrite (proj2 (Z.leb_gt _ _)) by (unfold zlen; lia).
    exists se. split_and!; [done| |done]. destruct (events se); [by rewrite drop_nil|simpl in *; lia].
  - destruct (Z.leb_spec max_events (zlen (events se))) as [Hle|Hgt]; cycle 1.
    { exists se. split_and!; [done| |done].
      replace (_ - _)%nat with 0%nat by (unfold zlen in *; lia). by rewrite drop_0. }
    pose proof (index_exact_NoDup se Hx) as Hnd. unfold zlen in Hle.
    destruct (events se) as [|oldest rest] eqn:Hev; [simpl in Hle; lia|].
    rewrite fmap_cons in Hnd. apply NoDup_cons in Hnd as [_ Hnd]. simpl in Hfuel, Hle.
    edestruct (IH (StreamEvents_rebuild_index
      {| events := rest; index := delete (id (entry oldest)) (index se) |}))
      as (se' & -> & Hev' & Hx').
    { simpl. lia. }
    { by apply rebuild_index_exact. }
    exists se'. split_and!; [done| |done]. rewrite Hev'. cbn [events StreamEvents_rebuild_index length].
    by replace (S (length rest) + 1 - Z.to_nat max_events)%nat
      with (S (length rest + 1 - Z.to_nat max_events)) by lia.
Qed.

Lemma push_spec (e : EventEntry V) bytes max_events se :
  1 <= max_events → index_exact se → id e ∉ event_id <$> events se →
  ∃ se', StreamEvents_push e bytes max_events se = (Ok tt, se') ∧
    events se' = drop (length (events se) + 1 - Z.to_nat max_events) (events se)
                 ++ [{| entry := e; payload_bytes := bytes |}] ∧
    index_exact se'.
Proof.
  intros Hmax Hx Hfresh. unfold StreamEvents_push.
  rewrite (proj2 (Z.eqb_neq _ _)) by lia.
  destruct (push_loop_spec (length (events se)) max_events se)
    as (se1 & Hloop & Hev & Hx1); [done|lia|done|].
  rewrite (bind_ok _ _ _ _ _ Hloop). eexists. split_and!; [done|by rewrite <- Hev|].
  intros aid i. simpl. rewrite lookup_insert_Some. setoid_rewrite lookup_snoc_Some. split.
  - intros [[<- <-]|[Hne Hi]].
    + eexists. by split; [right|].
    + apply Hx1 in Hi as (ev & Hi & Hid). exists ev. split; [left|done].
      split; [by apply lookup_lt_Some in Hi|done].
  - intros (ev & [[Hlt Hi]|[-> <-]] & Hid); [|by left].
    right. split; [|apply Hx1; eauto].
    intros Heq. apply Hfresh. rewrite Heq, <- Hid, list_elem_of_fmap.
    exists ev. split; [done|]. rewrite Hev in Hi.
    rewrite lookup_drop in Hi. by eapply list_elem_of_lookup_2.
Qed.

(** ** Expiry *)

(** Reference: drop the expired prefix. *)
Fixpoint drop_expired (ttl : option Z) (now : Z) evs : list (StoredEvent V) :=
  match evs with
  | ev :: rest => if EventEntry_is_expired ttl now (entry ev)
                  then drop_expired ttl now rest else evs
  | [] => []
  end.

Lemma drop_expired_suffix ttl now evs : ∃ n, drop_expired ttl now evs = drop n evs.
Proof.
  induction evs as [|ev evs [n IH]]; simpl; [by exists 0%nat|].
  destruct (EventEntry_is_expired _ _ _); [by exists (S n)|by exists 0%nat].
Qed.

Lemma drop_expired_same ttl now evs :
  length (drop_expired ttl now evs) = length evs → drop_expired ttl now evs = evs.
Proof.
  destruct (drop_expired_suffix ttl now evs) as [n ->]. rewrite length_drop. intros H.
  destruct (Nat.eq_dec n 0) as [->|]; [apply drop_0|].
  destruct evs; [by rewrite drop_nil|simpl in H; lia].
Qed.

Lemma pop_expired_spec ttl now evs idx removed :
  ∃ idx', StreamEvents_pop_expired ttl now evs idx removed =
    (drop_expired ttl now evs, idx',
     removed || negb (length (drop_expired ttl now evs) =? length evs)%nat) ∧
    (drop_expired ttl now evs = evs → idx' = idx).
Proof.
  revert idx removed. induction evs as [|ev evs IH]; intros idx removed; simpl.
  { exists idx. by rewrite orb_false_r. }
  destruct (EventEntry_is_expired ttl now (entry ev)) eqn:He.
  - destruct (IH (delete (id (entry ev)) idx) true) as (idx' & -> & _). exists idx'.
    assert (length (drop_expired ttl now evs) ≠ S (length evs)) as Hne.
    { destruct (drop_expired_suffix ttl now evs) as [n ->]. rewrite length_drop. lia. }
    split; [|intros Heq; by rewrite Heq in Hne].
    apply Nat.eqb_neq in Hne. rewrite Hne. by rewrite orb_true_r.
  - exists idx. split; [|done]. simpl. by rewrite Nat.eqb_refl, orb_false_r.
Qed.

Lemma drop_expired_None now evs : drop_expired None now evs = evs.
Proof. by destruct evs. Qed.

Lemma remove_expired_events ttl now se :
  events (StreamEvents_remove_expired ttl now se) = drop_expired ttl now (events se).
Proof.
  unfold StreamEvents_remove_expired. destruct ttl as [t|]; [|by rewrite drop_expired_None].
  destruct (pop_expired_spec (Some t) now (events se) (index se) false) as (idx' & -> & _).
  by destruct (_ || _).
Qed.

Lemma NoDup_drop_ids n evs : NoDup (event_id <$> evs) → NoDup (event_id <$> drop n evs).
Proof. rewrite fmap_drop. intros H. rewrite <- (take_drop n) in H. by apply NoDup_app in H as (_ & _ & ?). Qed.

Lemma remove_expired_exact ttl now se :
  index_exact se → index_exact (StreamEvents_remove_expired ttl now se).
Proof.
  intros Hx. unfold StreamEvents_remove_expired. destruct ttl as [t|]; [|done].
  destruct (pop_expired_spec (Some t) now (events se) (index se) false)
    as (idx' & -> & Hidx). simpl.
  destruct (Nat.eqb_spec (length (drop_expired (Some t) now (events se))) (length (events se)))
    as [Heq%drop_expired_same|Hneq]; simpl.
  - rewrite Hidx, Heq by done. by destruct se.
  - apply rebuild_index_exact. simpl.
    destruct (drop_expired_suffix (Some t) now (events se)) as [n ->].
    by apply NoDup_drop_ids, index_exact_NoDup.
Qed.

(** ** Cursors *)

(** Reference: what a client that saw [after_id] last has not seen. *)
Definition after_cursor (after_id : option string) evs : option (list (StoredEvent V)) :=
  match after_id with
  | None => Some evs
  | Some aid => (λ p, drop (p.1 + 1) evs) <$> list_find (λ ev, event_id ev = aid) evs
  end.

Lemma index_exact_find se aid :
  index_exact se → index se !! aid = fst <$> list_find (λ ev, event_id ev = aid) (events se).
Proof.
  intros Hx. destruct (list_find _ (events se)) as [[i ev]|] eqn:Hf; simpl.
  - apply list_find_Some in Hf as (Hi & Hid & _). apply Hx. eauto.
  - destruct (index se !! aid) as [i|] eqn:Hi; [|done].
    apply Hx in Hi as (ev & Hi & Hid). rewrite list_find_None, Forall_forall in Hf.
    by destruct (Hf ev (list_elem_of_lookup_2 _ _ _ Hi)).
Qed.

Lemma events_after_spec after_id se :
  index_exact se →
  StreamEvents_events_after after_id se =
    entry <$> default [] (after_cursor after_id (events se)).
Proof.
  intros Hx. destruct after_id as [aid|]; [|done]. simpl.
  rewrite (index_exact_find _ _ Hx). by destruct (list_find _ _) as [[]|].
Qed.

(** ** Replay pages *)

(** Reference: how many of the events still to send fit one page. *)
Fixpoint page_len (slots budget : Z) evs : nat :=
  match evs with
  | [] => 0
  | ev :: rest =>
      if (slots <=? 0) || (budget <? payload_bytes ev) then 0
      else S (page_len (slots - 1) (budget - payload_bytes ev) rest)
  end.

Lemma page_len_le slots budget evs : (page_len slots budget evs ≤ length evs)%nat.
Proof.
  revert slots budget. induction evs as [|ev evs IH]; intros slots budget; simpl; [done|].
  case_match; [lia|]. specialize (IH (slots - 1) (budget - payload_bytes ev)). lia.
Qed.

Lemma page_len_slots slots budget evs :
  0 <= slots → Z.of_nat (page_len slots budget evs) <= slots.
Proof.
  revert slots budget. induction evs as [|ev evs IH]; intros slots budget Hs; simpl; [lia|].
  destruct (_ || _) eqn:E; zbool; [lia|].
  specialize (IH (slots - 1) (budget - payload_bytes ev)). lia.
Qed.

Lemma page_len_budget slots budget evs :
  0 <= budget → sum (payload_bytes <$> take (page_len slots budget evs) evs) <= budget.
Proof.
  revert slots budget. induction evs as [|ev evs IH]; intros slots budget Hb; simpl; [done|].
  destruct (_ || _) eqn:E; zbool; [done|]. cbn.
  specialize (IH (slots - 1) (budget - payload_bytes ev)). unfold sum in *. lia.
Qed.

(** A page that stops early has no room left for the next event. *)
Lemma page_len_maximal slots budget evs ev :
  evs !! page_len slots budget evs = Some ev →
  slots <= Z.of_nat (page_len slots budget evs) ∨
  budget < sum (payload_bytes <$> take (page_len slots budget evs) evs) + payload_bytes ev.
Proof.
  revert slots budget. induction evs as [|ev' evs IH]; intros slots budget; simpl; [done|].
  destruct (_ || _) eqn:E.
  - intros [= <-]. apply orb_true_iff in E as [E|E]; zbool; [left|right]; cbn; lia.
  - cbn. intros H. apply IH in H as [H|H]; [left|right]; unfold sum in *; lia.
Qed.

Definition last_id (dflt : option string) evs : option string :=
  match last evs with Some ev => Some (event_id ev) | None => dflt end.

Lemma last_id_cons d ev evs : last_id d (ev :: evs) = last_id (Some (event_id ev)) evs.
Proof. unfold last_id. rewrite last_cons. by destruct (last evs). Qed.

Lemma replay_loop_spec max_events max_payload evs acc nxt bytes :
  Forall (λ ev, 0 <= payload_bytes ev) evs →
  bytes + sum (payload_bytes <$> evs) <= usize_max →
  0 < max_events → zlen acc <= max_events →
  StreamEvents_replay_loop max_events max_payload evs acc nxt bytes =
  let n := page_len (max_events - zlen acc) (max_payload - bytes) evs in
  if bool_decide (acc = [] ∧ n = 0%nat ∧ evs ≠ [])
  then inl (ReplayEventPayloadTooLarge max_payload)
  else inr {| batch_events := acc ++ (entry <$> take n evs);
              next_after_id := last_id nxt (take n evs);
              batch_payload_bytes := bytes + sum (payload_bytes <$> take n evs);
              complete := (n =? length evs)%nat |}.
Proof.
  intros Hnn. revert acc nxt bytes.
  induction Hnn as [|ev evs Hp Hnn IH]; intros acc nxt bytes Hsum Hmax Hacc; cbn zeta.
  { simpl. rewrite bool_decide_false by naive_solver.
    by rewrite app_nil_r, Z.add_0_r. }
  assert (0 <= sum (payload_bytes <$> evs)) as Hrest
    by (apply sum_nonneg, Forall_fmap; done).
  rewrite fmap_cons in Hsum. rewrite sum_cons in Hsum.
  cbn [StreamEvents_replay_loop page_len].
  destruct (Z.eqb_spec (zlen acc) max_events) as [Hfull|Hroom].
  { rewrite (proj2 (Z.leb_le _ _)) by lia. simpl.
    rewrite bool_decide_false by (intros [-> _]; rewrite zlen_nil in Hfull; lia).
    by rewrite app_nil_r, Z.add_0_r. }
  unfold checked_add. rewrite (proj2 (Z.leb_le (bytes + _) _)) by lia.
  rewrite (proj2 (Z.leb_gt _ 0)) by lia. simpl orb.
  replace (max_payload - bytes <? payload_bytes ev)
    with (max_payload <? bytes + payload_bytes ev)
    by (apply eq_true_iff_eq; rewrite !Z.ltb_lt; lia).
  destruct (max_payload <? bytes + payload_bytes ev) eqn:Hbig; zbool.
  { destruct acc; simpl; [done|].
    by rewrite app_nil_r, Z.add_0_r. }
  rewrite IH by (rewrite ?zlen_app, ?zlen_cons, ?zlen_nil; lia). cbn zeta.
  rewrite zlen_app, zlen_cons, zlen_nil.
  replace (max_events - (zlen acc + (1 + 0))) with (max_events - zlen acc - 1) by lia.
  replace (max_payload - (bytes + payload_bytes ev))
    with (max_payload - bytes - payload_bytes ev) by lia.
  rewrite !bool_decide_false by (destruct acc; naive_solver).
  cbn [take]. rewrite last_id_cons, fmap_cons, <- app_assoc.
  f_equal. f_equal. rewrite fmap_cons, sum_cons. lia.
Qed.

(** ** Draining a stream page by page *)

(** A client that replays until a page is complete, each time from the cursor
    the previous page returned. *)
Fixpoint drain (fuel : nat) (max_events max_payload : Z) (cursor : option string) se
    : EventStoreError + list (EventEntry V) :=
  match StreamEvents_replay_bounded cursor max_events max_payload se with
  | inl e => inl e
  | inr b =>
      if complete b then inr (batch_events b) else
      match fuel with
      | O => inl ReplayCursorNotRetained
      | S fuel =>
          match drain fuel max_events max_payload (next_after_id b) se with
          | inl e => inl e
          | inr more => inr (batch_events b ++ more)
          end
      end
  end.

(** Replaying from a cursor is the page of the events after it. *)
Lemma replay_bounded_spec cursor max_events max_payload se :
  index_exact se → Forall (λ ev, 0 <= payload_bytes ev) (events se) →
  stream_payload se <= usize_max → 0 < max_events →
  StreamEvents_replay_bounded cursor max_events max_payload se =
  match after_cursor cursor (events se) with
  | None => inl ReplayCursorNotRetained
  | Some todo =>
      let n := page_len max_events max_payload todo in
      if bool_decide (n = 0%nat ∧ todo ≠ [])
      then inl (ReplayEventPayloadTooLarge max_payload)
      else inr {| batch_events := entry <$> take n todo;
                  next_after_id := last_id cursor (take n todo);
                  batch_payload_bytes := sum (payload_bytes <$> take n todo);
                  complete := (n =? length todo)%nat |}
  end.
Proof.
  intros Hx Hnn Hsum Hmax.
  assert (∀ k, StreamEvents_replay_loop max_events max_payload (drop k (events se)) [] cursor 0 =
    let n := page_len max_events max_payload (drop k (events se)) in
    if bool_decide (n = 0%nat ∧ drop k (events se) ≠ [])
    then inl (ReplayEventPayloadTooLarge max_payload)
    else inr {| batch_events := entry <$> take n (drop k (events se));
                next_after_id := last_id cursor (take n (drop k (events se)));
                batch_payload_bytes := sum (payload_bytes <$> take n (drop k (events se)));
                complete := (n =? length (drop k (events se)))%nat |}) as Hloop.
  { intros k. rewrite replay_loop_spec; cbn zeta.
    - rewrite zlen_nil, !Z.sub_0_r, !Z.add_0_l.
      erewrite bool_decide_ext; [done|]. naive_solver.
    - by apply Forall_drop.
    - unfold stream_payload in Hsum. rewrite <- (take_drop k (events se)), fmap_app, sum_app in Hsum.
      assert (0 <= sum (payload_bytes <$> take k (events se))); [|lia].
      apply sum_nonneg, Forall_fmap, Forall_take. done.
    - done.
    - rewrite zlen_nil. lia. }
  unfold StreamEvents_replay_bounded. destruct cursor as [aid|]; simpl.
  - rewrite (index_exact_find _ _ Hx). destruct (list_find _ _) as [[i ev]|]; [|done]. apply Hloop.
  - apply (Hloop 0%nat).
Qed.

Lemma after_cursor_drop cursor evs todo :
  after_cursor cursor evs = Some todo → ∃ k, todo = drop k evs.
Proof.
  destruct cursor as [aid|]; simpl; [|intros [= <-]; by exists 0%nat].
  intros ([i ev] & _ & ->)%fmap_Some. by exists (i + 1)%nat.
Qed.

Lemma after_cursor_id evs i ev :
  NoDup (event_id <$> evs) → evs !! i = Some ev →
  after_cursor (Some (event_id ev)) evs = Some (drop (S i) evs).
Proof.
  intros Hnd Hi. simpl.
  assert (list_find (λ ev', event_id ev' = event_id ev) evs = Some (i, ev)) as ->.
  { apply list_find_Some. split_and!; [done..|]. intros j ev' Hj Hlt Heq.
    assert (i = j); [|lia].
    eapply NoDup_lookup; [done| |]; rewrite list_lookup_fmap; [by rewrite Hi|].
    rewrite Hj. simpl. by f_equal. }
  simpl. by rewrite Nat.add_1_r.
Qed.

(** The cursor a page returns resumes exactly where the page stopped. *)
Lemma after_cursor_next cursor evs todo n :
  NoDup (event_id <$> evs) → after_cursor cursor evs = Some todo →
  (0 < n ≤ length todo)%nat →
  after_cursor (last_id cursor (take n todo)) evs = Some (drop n todo).
Proof.
  intros Hnd Hc Hn. destruct (after_cursor_drop _ _ _ Hc) as [k ->].
  destruct (lookup_lt_is_Some_2 (drop k evs) (n - 1)) as [ev Hev]; [lia|].
  assert (last (take n (drop k evs)) = Some ev) as Hlast.
  { rewrite last_lookup, length_take, lookup_take_lt by lia.
    by replace (pred (n `min` length (drop k evs))) with (n - 1)%nat by lia. }
  unfold last_id. rewrite Hlast. rewrite lookup_drop in Hev.
  rewrite (after_cursor_id _ _ _ Hnd Hev), drop_drop. do 2 f_equal. lia.
Qed.

Lemma page_len_progress slots budget ev evs :
  0 < slots → payload_bytes ev <= budget → page_len slots budget (ev :: evs) ≠ 0%nat.
Proof. intros. simpl. rewrite (proj2 (Z.leb_gt _ _)), (proj2 (Z.ltb_ge _ _)) by lia. done. Qed.

Lemma drain_spec fuel max_events max_payload cursor se todo :
  index_exact se → Forall (λ ev, 0 <= payload_bytes ev <= max_payload) (events se) →
  stream_payload se <= usize_max → 0 < max_events →
  after_cursor cursor (events se) = Some todo → (length todo ≤ fuel)%nat →
  drain fuel max_events max_payload cursor se = inr (entry <$> todo).
Proof.
  intros Hx Hp Hsum Hmax. revert cursor todo.
  assert (Forall (λ ev, 0 <= payload_bytes ev) (events se)) as Hnn
    by (eapply Forall_impl; [exact Hp|]; simpl; lia).
  induction fuel as [|fuel IH]; intros cursor todo Hc Hlen.
  all: cbn [drain]; rewrite (replay_bounded_spec _ _ _ _ Hx Hnn Hsum Hmax), Hc; cbn zeta.
  { destruct todo; [done|simpl in Hlen; lia]. }
  set (n := page_len max_events max_payload todo).
  assert (n ≤ length todo)%nat as Hn by apply page_len_le.
  assert (todo ≠ [] → n ≠ 0%nat) as Hprog.
  { intros Hne. destruct todo as [|ev rest]; [done|]. apply page_len_progress; [done|].
    destruct (after_cursor_drop _ _ _ Hc) as [k Hk].
    apply (Forall_drop _ k) in Hp. rewrite <- Hk in Hp. by inversion Hp as [|?? [_ ?]]. }
  rewrite bool_decide_false by naive_solver. cbn [complete].
  destruct (Nat.eqb_spec n (length todo)) as [->|Hne]; cbn [batch_events next_after_id].
  { by rewrite take_ge. }
  assert (n ≠ 0%nat) by (apply Hprog; intros ->; simpl in *; lia).
  rewrite (IH _ (drop n todo)); cycle 1.
  { apply after_cursor_next; [by apply index_exact_NoDup|done|lia]. }
  { rewrite length_drop. lia. }
  by rewrite <- fmap_app, take_drop.
Qed.
End stream.

(** * Event ids *)

Definition event_id_of (millis k : N) : string := pretty millis +:+ "-" +:+ pretty k.

Fixpoint dash_free (s : string) : Prop :=
  match s with
  | EmptyString => True
  | String c s => c ≠ "-"%char ∧ dash_free s
  end.

Lemma pretty_N_go_dash_free x s : dash_free s → dash_free (pretty_N_go x s).
Proof.
  revert s. induction (N.lt_wf_0 x) as [x _ IH]; intros s Hs.
  destruct (decide (x = 0%N)) as [->|Hx]; [by rewrite pretty_N_go_0|].
  rewrite pretty_N_go_step by lia. apply IH; [apply N.div_lt; lia|]. split; [|done].
  unfold pretty_N_char. by repeat case_match.
Qed.

Lemma pretty_N_dash_free (x : N) : dash_free (pretty x).
Proof.
  unfold pretty, pretty_N. case_decide; [by split|]. by apply pretty_N_go_dash_free.
Qed.

Lemma dash_split a b x y :
  dash_free a → dash_free b → a +:+ "-" +:+ x = b +:+ "-" +:+ y → x = y.
Proof.
  revert b. induction a as [|c a IH]; intros [|d b] Ha Hb Heq; simpl in *; simplify_eq/=.
  - done.
  - by destruct Hb.
  - by destruct Ha.
  - destruct Ha, Hb. by eapply IH.
Qed.

Lemma event_id_of_inj m1 k1 m2 k2 : event_id_of m1 k1 = event_id_of m2 k2 → k1 = k2.
Proof.
  intros Heq%dash_split; [|apply pretty_N_dash_free..]. by apply (inj pretty).
Qed.

Section store.
Context {V : Type} `{HashOrder : !MapOrder string (StreamEvents V)}.
Variable ser : V → serialization.
Implicit Types (st : EventStore V) (se : StreamEvents V) (m : gmap string (StreamEvents V)).

(** * Totals over the streams *)

Definition payload_total m : Z := sum ((λ p, stream_payload p.2) <$> map_to_list m).

Lemma payload_total_insert m k se :
  m !! k = None → payload_total (<[k:=se]> m) = stream_payload se + payload_total m.
Proof.
  intros Hk. unfold payload_total.
  assert ((λ p, stream_payload p.2) <$> map_to_list (<[k:=se]> m) ≡ₚ
          (λ p, stream_payload p.2) <$> (k, se) :: map_to_list m) as Hp
    by (by rewrite map_to_list_insert).
  by rewrite (sum_perm _ _ Hp).
Qed.

Lemma payload_total_delete m k se :
  m !! k = Some se → payload_total m = stream_payload se + payload_total (delete k m).
Proof.
  intros Hk. rewrite <- (payload_total_insert _ k) by apply lookup_delete_eq.
  by rewrite insert_delete_id.
Qed.

Definition nonneg_payloads m : Prop :=
  ∀ k se, m !! k = Some se → Forall (λ ev, 0 <= payload_bytes ev) (events se).

Lemma stream_payload_nonneg se :
  Forall (λ ev, 0 <= payload_bytes ev) (events se) → 0 <= stream_payload se.
Proof. intros H. by apply sum_nonneg, Forall_fmap. Qed.

Lemma payload_total_omap (g : StreamEvents V → option (StreamEvents V)) m :
  nonneg_payloads m →
  (∀ k se se', m !! k = Some se → g se = Some se' → stream_payload se' <= stream_payload se) →
  payload_total (omap g m) <= payload_total m.
Proof.
  induction m as [|k se m Hk IH] using map_ind; intros Hnn Hg.
  { by rewrite omap_empty. }
  assert (payload_total (omap g m) <= payload_total m) as Hm.
  { apply IH.
    - intros k' se' Hk'. apply (Hnn k'). rewrite lookup_insert_ne; [done|]. congruence.
    - intros k' se1 se2 Hk' Hse. eapply (Hg k'); [|done].
      rewrite lookup_insert_ne; [done|]. congruence. }
  rewrite payload_total_insert by done.
  destruct (g se) as [se'|] eqn:Hse.
  - rewrite (omap_insert_Some _ _ _ _ se') by done.
    rewrite payload_total_insert by (by rewrite lookup_omap, Hk).
    specialize (Hg k se se' (lookup_insert_eq _ _ _) Hse). lia.
  - rewrite omap_insert_None by done. rewrite delete_id by (by rewrite lookup_omap, Hk).
    pose proof (stream_payload_nonneg se (Hnn k se (lookup_insert_eq _ _ _))). lia.
Qed.

Lemma payload_total_nonneg m : nonneg_payloads m → 0 <= payload_total m.
Proof.
  intros Hnn. apply sum_nonneg, Forall_fmap, Forall_forall.
  intros [k se] Hin%elem_of_map_to_list. by eapply stream_payload_nonneg, Hnn.
Qed.

Lemma stream_payload_le_total m k se :
  nonneg_payloads m → m !! k = Some se → stream_payload se <= payload_total m.
Proof.
  intros Hnn Hk. rewrite (payload_total_delete _ _ _ Hk).
  assert (0 <= payload_total (delete k m)); [|lia].
  apply payload_total_nonneg. intros k' se' [_ H]%lookup_delete_Some. eauto.
Qed.

Lemma total_of_streams_spec l acc :
  Forall (λ p : string * StreamEvents V, Forall (λ ev, 0 <= payload_bytes ev) (events p.2)) l →
  0 <= acc → acc + sum ((λ p, stream_payload p.2) <$> l) <= usize_max →
  total_of_streams l acc = Some (acc + sum ((λ p, stream_payload p.2) <$> l)).
Proof.
  intros Hl. revert acc. induction Hl as [|[k se] l Hse Hl IH]; intros acc Ha Hmax.
  { cbn. by rewrite Z.add_0_r. }
  rewrite fmap_cons, sum_cons in *. simpl in Hse, Hmax |- *.
  assert (0 <= sum ((λ p, stream_payload p.2) <$> l)).
  { apply sum_nonneg, Forall_fmap. eapply Forall_impl; [exact Hl|].
    intros p. apply stream_payload_nonneg. }
  pose proof (stream_payload_nonneg se Hse).
  unfold StreamEvents_total_payload_bytes.
  rewrite try_sum_spec; [|by apply Forall_fmap|unfold usize_max; lia].
  rewrite !Z.add_0_l. fold (stream_payload se). rewrite (proj2 (Z.leb_le _ _)) by lia.
  unfold checked_add. rewrite (proj2 (Z.leb_le _ _)) by lia.
  rewrite IH by lia. by rewrite Z.add_assoc.
Qed.

(** The fold overflows for no iteration order while the total fits a [usize]. *)
Lemma total_payload_bytes_spec m :
  nonneg_payloads m → payload_total m <= usize_max →
  EventStore_total_payload_bytes m = Some (payload_total m).
Proof.
  intros Hnn Hmax. unfold EventStore_total_payload_bytes, payload_total in *.
  assert (sum ((λ p, stream_payload p.2) <$> map_to_list m) =
          sum ((λ p, stream_payload p.2) <$> map_order m)) as Hperm
    by (apply sum_perm; by rewrite map_order_perm).
  rewrite Hperm in *.
  rewrite total_of_streams_spec; [by rewrite Z.add_0_l| |done|lia].
  apply Forall_forall. intros [k se] Hin%elem_of_map_order. by eapply Hnn.
Qed.

(** * Cleanup *)

Definition retained (ttl : option Z) (now : Z) se : option (StreamEvents V) :=
  let se' := StreamEvents_remove_expired ttl now se in
  match events se' with [] => None | _ => Some se' end.

Lemma cleanup_streams_omap ttl now m :
  EventStore_cleanup_streams ttl now m = omap (retained ttl now) m.
Proof.
  apply map_eq. intros k. unfold EventStore_cleanup_streams. rewrite lookup_omap.
  assert ((match ttl with Some _ => StreamEvents_remove_expired ttl now <$> m | None => m end) !! k
    = StreamEvents_remove_expired ttl now <$> m !! k) as Hk.
  { destruct ttl; [apply lookup_fmap|]. by destruct (m !! k). }
  unfold retained. rewrite map_lookup_filter, Hk.
  destruct (m !! k) as [se|]; simpl; [|done].
  destruct (events _) eqn:He; unfold guard; case_decide; naive_solver.
Qed.

(** * The invariant *)

Definition config_wf (c : EventStoreConfig) : Prop :=
  0 < max_events_per_stream c < usize_max ∧ 0 < max_streams c ∧ 0 < max_stream_id_bytes c ∧
  0 < max_event_payload_bytes c ∧ 0 < max_total_event_payload_bytes c <= usize_max ∧
  0 < max_replay_events c ∧ 0 < max_replay_payload_bytes c ∧ 0 < max_replay_cursor_bytes c.

Record stream_wf (c : EventStoreConfig) (sid : string) (se : StreamEvents V) : Prop := {
  stream_wf_nonempty : events se ≠ [];
  stream_wf_len : zlen (events se) <= max_events_per_stream c;
  stream_wf_index : index_exact se;
  stream_wf_payload :
    Forall (λ ev, 0 <= payload_bytes ev <= max_event_payload_bytes c) (events se);
  stream_wf_sid : Forall (λ ev, stream_id (entry ev) = sid) (events se);
  stream_wf_sid_len : str_len sid <= max_stream_id_bytes c;
}.

Record store_wf (st : EventStore V) : Prop := {
  wf_config : config_wf (config st);
  wf_streams : Z.of_nat (size (streams st)) <= max_streams (config st);
  wf_stream sid se : streams st !! sid = Some se → stream_wf (config st) sid se;
  wf_total : payload_total (streams st) <= max_total_event_payload_bytes (config st);
  wf_ids sid se ev : streams st !! sid = Some se → ev ∈ events se →
    ∃ millis k, event_id ev = event_id_of millis k ∧ (k < event_counter st)%N;
  wf_unique sid1 sid2 se1 se2 ev1 ev2 :
    streams st !! sid1 = Some se1 → ev1 ∈ events se1 →
    streams st !! sid2 = Some se2 → ev2 ∈ events se2 →
    event_id ev1 = event_id ev2 → sid1 = sid2;
}.

Lemma store_wf_nonneg st : store_wf st → nonneg_payloads (streams st).
Proof.
  intros Hwf k se Hk. eapply Forall_impl; [by eapply stream_wf_payload, wf_stream|].
  simpl. lia.
Qed.

Lemma retained_events ttl now se se' :
  retained ttl now se = Some se' →
  events se' ≠ [] ∧ events se' = drop_expired ttl now (events se) ∧
  (index_exact se → index_exact se').
Proof.
  unfold retained. destruct (events _) eqn:He; [done|]. intros [= <-].
  split_and!; [congruence|apply remove_expired_events|apply remove_expired_exact].
Qed.

Lemma retained_drop ttl now se se' :
  retained ttl now se = Some se' → ∃ n, events se' = drop n (events se).
Proof. intros (_ & -> & _)%retained_events. apply drop_expired_suffix. Qed.

Lemma retained_wf ttl now c sid se se' :
  stream_wf c sid se → retained ttl now se = Some se' → stream_wf c sid se'.
Proof.
  intros [] Hr. destruct (retained_events _ _ _ _ Hr) as (Hne & _ & Hx).
  destruct (retained_drop _ _ _ _ Hr) as [n Hn].
  split; rewrite ?Hn; auto using Forall_drop.
  - congruence.
  - unfold zlen in *. rewrite length_drop. lia.
Qed.

Lemma stream_payload_drop se se' n :
  Forall (λ ev, 0 <= payload_bytes ev) (events se) → events se' = drop n (events se) →
  stream_payload se' <= stream_payload se.
Proof.
  intros Hnn Hn. unfold stream_payload. rewrite Hn.
  rewrite <- (take_drop n (events se)) at 2. rewrite fmap_app, sum_app.
  assert (0 <= sum (payload_bytes <$> take n (events se))); [|lia].
  by apply sum_nonneg, Forall_fmap, Forall_take.
Qed.

Lemma size_omap_le {A B} (g : A → option B) (m' : gmap string A) : (size (omap g m') ≤ size m')%nat.
Proof.
  rewrite <- !size_dom. apply subseteq_size. intros k.
  rewrite !elem_of_dom, lookup_omap. by intros [? (? & -> & _)%bind_Some].
Qed.

(** Keeping a subset of each stream's newest events preserves the invariant. *)
Lemma store_wf_omap (g : StreamEvents V → option (StreamEvents V)) st :
  store_wf st →
  (∀ sid se se', stream_wf (config st) sid se → g se = Some se' →
     stream_wf (config st) sid se' ∧ ∃ n, events se' = drop n (events se)) →
  store_wf (set_streams (omap g) st).
Proof.
  intros Hwf Hg.
  assert (∀ sid se', omap g (streams st) !! sid = Some se' →
    ∃ se n, streams st !! sid = Some se ∧ g se = Some se' ∧ events se' = drop n (events se)) as Hlk.
  { intros sid se'. rewrite lookup_omap. intros (se & Hse & Hs)%bind_Some.
    destruct (Hg sid se se') as [_ [n Hn]]; [by eapply wf_stream|done|]. eauto. }
  split; simpl.
  - by apply wf_config.
  - pose proof (wf_streams _ Hwf). pose proof (size_omap_le g (streams st)). lia.
  - intros sid se' (se & n & Hse & Hs & _)%Hlk. eapply Hg; [|done]. by eapply wf_stream.
  - etrans; [|by apply (wf_total _ Hwf)]. apply payload_total_omap; [by apply store_wf_nonneg|].
    intros k se se' Hk Hs. destruct (Hg k se se') as [_ [n Hn]]; [by eapply wf_stream|done|].
    eapply stream_payload_drop; [|done]. by eapply store_wf_nonneg.
  - intros sid se' ev (se & n & Hse & _ & Hn)%Hlk Hev. rewrite Hn in Hev.
    by eapply (wf_ids _ Hwf), elem_of_drop_1.
  - intros sid1 sid2 se1 se2 ev1 ev2 (se1' & n1 & Hs1 & _ & Hn1)%Hlk He1
      (se2' & n2 & Hs2 & _ & Hn2)%Hlk He2. rewrite Hn1 in He1. rewrite Hn2 in He2.
    eapply (wf_unique _ Hwf); eauto using elem_of_drop_1.
Qed.

Lemma store_wf_cleanup now st :
  store_wf st → store_wf (set_streams (EventStore_cleanup_streams (ttl (config st)) now) st).
Proof.
  intros Hwf. unfold set_streams. rewrite cleanup_streams_omap.
  apply store_wf_omap; [done|]. intros. split; [by eapply retained_wf|by eapply retained_drop].
Qed.

Lemma store_wf_clear sid st : store_wf st → store_wf (set_streams (delete sid) st).
Proof.
  intros Hwf. assert (∀ k se, delete sid (streams st) !! k = Some se → streams st !! k = Some se)
    as Hlk by (intros k se [_ ?]%lookup_delete_Some; done).
  split; simpl; eauto using wf_config, wf_stream, wf_ids.
  - pose proof (wf_streams _ Hwf). pose proof (map_size_delete sid (streams st)).
    destruct (streams st !! sid); simpl in *; lia.
  - pose proof (wf_total _ Hwf). destruct (streams st !! sid) as [se|] eqn:Hs.
    + rewrite (payload_total_delete _ _ _ Hs) in *.
      pose proof (stream_payload_nonneg se (store_wf_nonneg _ Hwf _ _ Hs)). lia.
    + by rewrite delete_id.
  - intros sid1 sid2 se1 se2 ev1 ev2 H1 ? H2 ??. eapply (wf_unique _ Hwf sid1 sid2); eauto.
Qed.

(** * Admission *)

Lemma counter_write_bound cs (w w' : PayloadByteCounter.t) r :
  write_all_chunks cs w = (r, w') →
  0 <= PayloadByteCounter.bytes w <= PayloadByteCounter.max_bytes w →
  0 <= PayloadByteCounter.bytes w' <= PayloadByteCounter.max_bytes w ∧
  PayloadByteCounter.max_bytes w' = PayloadByteCounter.max_bytes w.
Proof.
  revert w. induction cs as [|b cs IH]; intros [n mx ex]; simpl; [by intros [= <- <-]|].
  unfold bind. cbn. unfold PayloadByteCounter.write, checked_add. cbn.
  pose proof (zlen_nonneg b).
  destruct (n + zlen b <=? usize_max) eqn:E; [|intros [= <- <-]; cbn; lia].
  destruct (mx <? n + zlen b) eqn:E2; zbool; [intros [= <- <-]; cbn; lia|].
  intros Hw Hn. apply IH in Hw; cbn in *; lia.
Qed.

Lemma measure_bounds data mx n :
  0 <= mx → measure_event_payload ser data mx = inr n → 0 <= n <= mx.
Proof.
  intros Hmx. unfold measure_event_payload, to_writer. destruct data as [v|]; [|intros [= <-]; lia].
  unfold bind. destruct (write_all_chunks _ _) as [r w'] eqn:Hw.
  apply counter_write_bound in Hw as [? _]; [|cbn; lia]. cbn in *.
  destruct r; [destruct (ser_completes _)|..]; cbn; repeat case_match; intros; simplify_eq; lia.
Qed.

(** How many of the oldest events one insertion pushes out. *)
Definition evict_count (c : EventStoreConfig) (evs : list (StoredEvent V)) : nat :=
  length evs + 1 - Z.to_nat (max_events_per_stream c).

Definition stream_events (sid : string) m : list (StoredEvent V) :=
  from_option events [] (m !! sid).

Definition evicted_bytes (c : EventStoreConfig) m (sid : string) : Z :=
  sum (payload_bytes <$> take (evict_count c (stream_events sid m)) (stream_events sid m)).

Lemma prospective_spec c sid se :
  config_wf c → stream_wf c sid se → stream_payload se <= usize_max →
  StreamEvents_prospective_evicted_payload_bytes (max_events_per_stream c) se =
  Some (sum (payload_bytes <$> take (evict_count c (events se)) (events se))).
Proof.
  intros Hc Hse Hsum. unfold StreamEvents_prospective_evicted_payload_bytes, checked_add.
  pose proof (stream_wf_len _ _ _ Hse). destruct Hc as [Hc _].
  rewrite (proj2 (Z.leb_le _ _)) by lia.
  replace (Z.to_nat (saturating_sub _ _)) with (evict_count c (events se))
    by (unfold evict_count, saturating_sub, zlen in *; lia).
  assert (Forall (λ ev, 0 <= payload_bytes ev) (events se)) as Hnn
    by (eapply Forall_impl; [by eapply stream_wf_payload|simpl; lia]).
  rewrite try_sum_spec, !Z.add_0_l;
    [|by apply Forall_fmap, Forall_take|unfold usize_max; lia].
  rewrite (proj2 (Z.leb_le _ _)); [done|].
  unfold stream_payload in Hsum. set (n := evict_count _ _).
  rewrite <- (take_drop n (events se)), fmap_app, sum_app in Hsum.
  assert (0 <= sum (payload_bytes <$> drop n (events se))); [|lia].
  by apply sum_nonneg, Forall_fmap, Forall_drop.
Qed.

Lemma admit_spec st sid bytes :
  store_wf st → 0 <= bytes →
  let c := config st in let m := streams st in
  EventStore_admit sid bytes c m =
  if bool_decide (m !! sid = None) && (max_streams c <=? Z.of_nat (size m))
  then inl (StreamLimitReached (max_streams c))
  else if max_total_event_payload_bytes c <? payload_total m - evicted_bytes c m sid + bytes
  then inl (AggregatePayloadLimitExceeded (max_total_event_payload_bytes c))
  else inr tt.
Proof.
  intros Hwf Hb c m. unfold EventStore_admit. destruct (_ && _) eqn:E; [done|].
  pose proof (wf_config _ Hwf) as Hc. pose proof (wf_total _ Hwf) as Ht.
  pose proof (store_wf_nonneg _ Hwf) as Hnn.
  assert (max_total_event_payload_bytes c <= usize_max) as Hu by apply Hc.
  rewrite total_payload_bytes_spec by (fold m c in Ht; lia || done).
  assert (0 <= evicted_bytes c m sid <= payload_total m ∧
    match m !! sid with
    | Some se => StreamEvents_prospective_evicted_payload_bytes (max_events_per_stream c) se
    | None => Some 0
    end = Some (evicted_bytes c m sid)) as [Hev ->].
  { unfold evicted_bytes, stream_events. destruct (m !! sid) as [se|] eqn:Hs; simpl.
    - pose proof (stream_payload_le_total _ _ _ Hnn Hs) as Hle. fold m c in Ht, Hle.
      rewrite prospective_spec with (sid := sid);
        [|done|by apply (wf_stream _ Hwf)|lia].
      set (n := evict_count c (events se)). split; [|done].
      pose proof (Hnn _ _ Hs) as Hp. split; [by apply sum_nonneg, Forall_fmap, Forall_take|].
      etrans; [|exact Hle]. unfold stream_payload.
      rewrite <- (take_drop n (events se)) at 2. rewrite fmap_app, sum_app.
      assert (0 <= sum (payload_bytes <$> drop n (events se))); [|lia].
      by apply sum_nonneg, Forall_fmap, Forall_drop.
    - rewrite take_nil. split; [|done]. change (0 <= 0 <= payload_total m). split; [done|].
      by apply payload_total_nonneg. }
  unfold checked_sub. rewrite (proj2 (Z.leb_le _ _)) by lia. simpl.
  unfold checked_add. destruct (_ <=? usize_max) eqn:E2; [done|]. zbool.
  by rewrite (proj2 (Z.ltb_lt _ _)) by lia.
Qed.

(** * Storing *)

(** The state after the event id has been drawn. *)
Definition bump_counter st : EventStore V :=
  {| config := config st; streams := streams st;
     event_counter := (event_counter st + 1) mod 2 ^ 64 |}.

Definition next_id (millis : N) st : string := event_id_of millis (event_counter st).

Lemma next_id_fresh st sid se ev millis :
  store_wf st → streams st !! sid = Some se → ev ∈ events se →
  event_id ev ≠ next_id millis st.
Proof.
  intros Hwf Hs Hev Heq. destruct (wf_ids _ Hwf _ _ _ Hs Hev) as (ms & k & Hid & Hk).
  rewrite Hid in Heq. apply event_id_of_inj in Heq. lia.
Qed.

Lemma evict_count_len c (evs : list (StoredEvent V)) :
  config_wf c →
  Z.of_nat (length (drop (evict_count c evs) evs)) + 1 <= max_events_per_stream c.
Proof. intros [Hc _]. rewrite length_drop. unfold evict_count. lia. Qed.

(** The stream after the new event has been pushed. *)
Lemma push_event_spec millis created sid data bytes st :
  store_wf st →
  let e := EventEntry_new (next_id millis st) sid data created in
  let old := stream_events sid (streams st) in
  ∃ se', EventStore_push_event sid e bytes (bump_counter st) =
      (Ok tt, set_streams <[sid := se']> (bump_counter st)) ∧
    events se' = drop (evict_count (config st) old) old
                 ++ [{| entry := e; payload_bytes := bytes |}] ∧
    index_exact se'.
Proof.
  intros Hwf e old. unfold EventStore_push_event. cbn [streams bump_counter config].
  set (se := default StreamEvents_new (streams st !! sid)).
  assert (events se = old) as Hold
    by (unfold se, old, stream_events; by destruct (streams st !! sid)).
  destruct (wf_config _ Hwf) as [Hc _].
  destruct (push_spec e bytes (max_events_per_stream (config st)) se) as (se' & Hp & Hev & Hx).
  - lia.
  - unfold se. destruct (streams st !! sid) eqn:Hs; [by eapply stream_wf_index, wf_stream|].
    intros aid i. simpl. rewrite lookup_empty. naive_solver.
  - rewrite Hold. unfold old, stream_events. destruct (streams st !! sid) as [se0|] eqn:Hs; simpl;
      [|apply not_elem_of_nil].
    intros (ev & Hid & Hev)%list_elem_of_fmap. by eapply (next_id_fresh st sid se0 ev millis).
  - exists se'. rewrite Hp. rewrite Hold in Hev. done.
Qed.

Lemma payload_total_push sid se' millis created data bytes st :
  let e := EventEntry_new (next_id millis st) sid data created in
  let old := stream_events sid (streams st) in
  events se' = drop (evict_count (config st) old) old
               ++ [{| entry := e; payload_bytes := bytes |}] →
  payload_total (<[sid := se']> (streams st)) =
    payload_total (streams st) - evicted_bytes (config st) (streams st) sid + bytes.
Proof.
  intros e old Hev.
  assert (stream_payload se' = sum (payload_bytes <$> drop (evict_count (config st) old) old) + bytes)
    as Hp by (unfold stream_payload; rewrite Hev, fmap_app, sum_app; cbn; lia).
  rewrite <- insert_delete_eq, payload_total_insert by apply lookup_delete_eq.
  rewrite Hp. unfold evicted_bytes. fold old.
  destruct (streams st !! sid) as [se|] eqn:Hs.
  - rewrite (payload_total_delete _ _ _ Hs).
    assert (events se = old) as Hold by (unfold old, stream_events; by rewrite Hs).
    unfold stream_payload. rewrite Hold.
    rewrite <- (take_drop (evict_count (config st) old) old) at 3.
    rewrite fmap_app, sum_app. lia.
  - assert (old = []) as -> by (unfold old, stream_events; by rewrite Hs).
    rewrite delete_id, take_nil, drop_nil by done. cbn. lia.
Qed.

Lemma elem_of_pushed st sid se' se1 sid1 (new : StoredEvent V) ev :
  let old := stream_events sid (streams st) in
  events se' = drop (evict_count (config st) old) old ++ [new] →
  <[sid := se']> (streams st) !! sid1 = Some se1 → ev ∈ events se1 →
  (sid1 = sid ∧ ev = new) ∨ ∃ se0, streams st !! sid1 = Some se0 ∧ ev ∈ events se0.
Proof.
  intros old Hev [[<- <-]|[Hne Hs]]%lookup_insert_Some Hin; [|eauto].
  rewrite Hev in Hin. apply elem_of_app in Hin as [Hin%elem_of_drop_1|Hin%list_elem_of_singleton];
    [|by left].
  right. unfold old, stream_events in Hin.
  destruct (streams st !! sid) as [se|] eqn:Hs; simpl in Hin; [eauto|by apply not_elem_of_nil in Hin].
Qed.

Lemma store_wf_push millis created sid data bytes st :
  store_wf st →
  (event_counter st + 1 < 2 ^ 64)%N → str_len sid <= max_stream_id_bytes (config st) →
  0 <= bytes <= max_event_payload_bytes (config st) →
  EventStore_admit sid bytes (config st) (streams st) = inr tt →
  ∀ se', let e := EventEntry_new (next_id millis st) sid data created in
  let old := stream_events sid (streams st) in
  events se' = drop (evict_count (config st) old) old
               ++ [{| entry := e; payload_bytes := bytes |}] →
  index_exact se' →
  store_wf (set_streams <[sid := se']> (bump_counter st)).
Proof.
  intros Hwf Hctr Hsid Hb Hadm se' e old Hev Hx.
  rewrite admit_spec in Hadm by (done || lia). cbn zeta in Hadm.
  destruct (_ && _) eqn:E1; [done|]. case_if_in Hadm; [done|]. zbool.
  pose proof (wf_config _ Hwf) as Hc.
  assert (Hold : ∀ P : StoredEvent V → Prop,
    (∀ se, streams st !! sid = Some se → Forall P (events se)) → Forall P old).
  { intros P HP. unfold old, stream_events. destruct (streams st !! sid); simpl; eauto. }
  split; cbn [config streams event_counter set_streams bump_counter].
  - done.
  - rewrite map_size_insert. pose proof (wf_streams _ Hwf).
    destruct (streams st !! sid); [unfold Datatypes.id; lia|]. rewrite bool_decide_true in E1 by done.
    simpl in E1. zbool. simpl. lia.
  - intros sid1 se1 [[<- <-]|[_ Hs]]%lookup_insert_Some; [|by apply wf_stream].
    split; rewrite ?Hev; auto.
    + by destruct (drop _ _).
    + unfold zlen. rewrite length_app. pose proof (evict_count_len _ old Hc). simpl. lia.
    + apply Forall_app. split; [|by apply Forall_singleton].
      apply Forall_drop, Hold. intros se Hs. by eapply stream_wf_payload, wf_stream.
    + apply Forall_app. split; [|by apply Forall_singleton].
      apply Forall_drop, Hold. intros se Hs. by eapply stream_wf_sid, wf_stream.
  - erewrite payload_total_push by done. lia.
  - intros sid1 se1 ev Hs Hin. rewrite N.mod_small by done.
    destruct (elem_of_pushed _ _ _ _ _ _ _ Hev Hs Hin) as [[-> ->]|(se0 & Hs0 & Hin0)].
    + exists millis, (event_counter st). split; [done|lia].
    + destruct (wf_ids _ Hwf _ _ _ Hs0 Hin0) as (ms & k & ? & ?). exists ms, k. split; [done|lia].
  - intros sid1 sid2 se1 se2 ev1 ev2 Hs1 Hin1 Hs2 Hin2 Heq.
    destruct (elem_of_pushed _ _ _ _ _ _ _ Hev Hs1 Hin1) as [[-> ->]|(se1' & Hs1' & Hin1')],
      (elem_of_pushed _ _ _ _ _ _ _ Hev Hs2 Hin2) as [[-> ->]|(se2' & Hs2' & Hin2')].
    + done.
    + by destruct (next_id_fresh _ _ _ _ millis Hwf Hs2' Hin2').
    + by destruct (next_id_fresh _ _ _ _ millis Hwf Hs1' Hin1').
    + by eapply (wf_unique _ Hwf).
Qed.
End store.
