(* ===== verification/EventStoreTheorems.v ===== *)
(** Properties of the event store ([EventStore.v]) over every reachable state:
    bounds, unique ids, exact store/replay behaviour, expiry, paging. *)
From stdpp Require Import base list gmap strings pretty fin_maps sorting.
From Stdlib Require Import ZArith Lia.
From S2P Require Import Prelude Sink EventStore EventStoreCorrect.

Section theorems.
Context {V : Type} `{HashOrder : !MapOrder string (StreamEvents V)}.
Variable ser : V → serialization.
Implicit Types (st : EventStore V) (se : StreamEvents V) (evs : list (StoredEvent V)).

(** * Runs

    A run of the store: each operation reads a clock that never goes back; the
    second component is the last reading.  Fewer than [2^64] events are drawn,
    the range of the id counter. *)
Inductive step : EventStore V * Z → EventStore V * Z → Prop :=
| step_store st t now created millis sid data r st' :
    t <= now → now <= created → (event_counter st + 1 < 2 ^ 64)%N →
    EventStore_store_event ser now created millis sid data st = (r, st') →
    step (st, t) (st', created)
| step_get st t now sid after_id r st' :
    t <= now → EventStore_get_events_after now sid after_id st = (r, st') →
    step (st, t) (st', now)
| step_replay st t now sid after_id r st' :
    t <= now → EventStore_replay_bounded now sid after_id st = (r, st') →
    step (st, t) (st', now)
| step_replay_after st t now last_id r st' :
    t <= now → EventStore_replay_events_after now last_id st = (r, st') →
    step (st, t) (st', now)
| step_find st t now eid r st' :
    t <= now → EventStore_find_stream_for_event now eid st = (r, st') →
    step (st, t) (st', now)
| step_clear st t sid r st' :
    EventStore_clear_stream sid st = (r, st') → step (st, t) (st', t)
| step_cleanup st t now r st' :
    t <= now → EventStore_cleanup_expired now st = (r, st') → step (st, t) (st', now)
| step_stats st t now r st' :
    t <= now → EventStore_stats now st = (r, st') → step (st, t) (st', now).

(** Reachable from [EventStore::with_config]. *)
Definition reachable (c : EventStoreConfig) (x : EventStore V * Z) : Prop :=
  ∃ st0 t0, EventStore_with_config c = inr st0 ∧ rtc step (st0, t0) x.

(** Streams are in creation order and no event is younger than the clock. *)
Definition created (ev : StoredEvent V) : Z := created_at (entry ev).
Definition time_wf (x : EventStore V * Z) : Prop :=
  ∀ sid se, streams x.1 !! sid = Some se →
    StronglySorted (λ a b, created a <= created b) (events se) ∧
    Forall (λ ev, created ev <= x.2) (events se).

(** ** What each operation does to the state *)

Definition cleaned (now : Z) st : EventStore V :=
  set_streams (EventStore_cleanup_streams (ttl (config st)) now) st.

Lemma get_events_after_eq now sid after_id st :
  EventStore_get_events_after now sid after_id st =
  (Ok (match streams (cleaned now st) !! sid with
       | Some se => StreamEvents_events_after after_id se
       | None => []
       end), cleaned now st).
Proof. done. Qed.

Lemma replay_bounded_state now sid after_id st r st' :
  EventStore_replay_bounded now sid after_id st = (r, st') → st' = st ∨ st' = cleaned now st.
Proof.
  unfold EventStore_replay_bounded. unfold bind, gets. simpl.
  destruct (_ <? _); [intros [= _ <-]; by left|].
  destruct (match after_id with Some _ => _ | None => _ end); [intros [= _ <-]; by left|].
  simpl. intros H. right. unfold cleaned, lift_sum in *.
  repeat case_match; by inversion H.
Qed.

(** Every branch of [store_event]. *)
Lemma store_event_eq now created millis sid data st :
  EventStore_store_event ser now created millis sid data st =
  let c := config st in
  let st1 := cleaned now st in
  if max_stream_id_bytes c <? str_len sid
  then (Err (StreamIdTooLong (max_stream_id_bytes c)), st) else
  match measure_event_payload ser data (max_event_payload_bytes c) with
  | inl e => (Err e, st)
  | inr bytes =>
      match EventStore_admit sid bytes c (streams st1) with
      | inl e => (Err e, st1)
      | inr _ =>
          (EventStore_push_event sid (EventEntry_new (next_id millis st) sid data created) bytes ;!
           ret (next_id millis st)) (bump_counter st1)
      end
  end.
Proof.
  unfold EventStore_store_event. cbn zeta. unfold bind at 1, gets at 1. simpl.
  destruct (_ <? _); [done|]. unfold bind at 1.
  destruct (measure_event_payload _ _ _); [done|]. simpl.
  unfold bind at 1 2 3 4. simpl. by destruct (EventStore_admit _ _ _ _).
Qed.

Lemma cleaned_wf now st : store_wf st → store_wf (cleaned now st).
Proof. apply store_wf_cleanup. Qed.

Lemma wf_stream_payload st sid se :
  store_wf st → streams st !! sid = Some se → stream_payload se <= usize_max.
Proof.
  intros Hwf Hs. pose proof (stream_payload_le_total _ _ _ (store_wf_nonneg _ Hwf) Hs).
  pose proof (wf_total _ Hwf). destruct (wf_config _ Hwf) as (_&_&_&_&?&_). lia.
Qed.

(** A successful or failed store from a well-formed state. *)
Lemma store_event_run now created millis sid data st r st' :
  store_wf st → (event_counter st + 1 < 2 ^ 64)%N →
  EventStore_store_event ser now created millis sid data st = (r, st') →
  store_wf st' ∧
  ((∃ e, r = Err e ∧ (st' = st ∨ st' = cleaned now st)) ∨
   (∃ se' bytes, r = Ok (next_id millis st) ∧
     measure_event_payload ser data (max_event_payload_bytes (config st)) = inr bytes ∧
     st' = set_streams <[sid := se']> (bump_counter (cleaned now st)) ∧
     let old := stream_events sid (streams (cleaned now st)) in
     events se' = drop (evict_count (config st) old) old ++
       [{| entry := EventEntry_new (next_id millis st) sid data created;
           payload_bytes := bytes |}] ∧
     index_exact se')).
Proof.
  intros Hwf Hctr. pose proof (cleaned_wf now st Hwf) as Hwf1. rewrite store_event_eq. cbn zeta.
  destruct (_ <? str_len sid) eqn:Hlen; [intros [= <- <-]; naive_solver|]. zbool.
  destruct (measure_event_payload _ _ _) as [e|bytes] eqn:Hm; [intros [= <- <-]; naive_solver|].
  destruct (EventStore_admit _ _ _ _) as [e|[]] eqn:Hadm; [intros [= <- <-]; naive_solver|].
  apply measure_bounds in Hm as Hb; [|by destruct (wf_config _ Hwf) as (_&_&_&?&_); lia].
  destruct (push_event_spec millis created sid data bytes (cleaned now st) Hwf1)
    as (se' & Hp & Hev & Hx).
  change (next_id millis (cleaned now st)) with (next_id millis st) in *.
  rewrite (bind_ok _ _ _ _ _ Hp). intros [= <- <-]. split; [|right; eauto 10].
  by eapply (store_wf_push millis created sid data bytes).
Qed.

(** ** Invariants of every run *)

(** The limits are [usize] values; a [VecDeque] never holds [usize::MAX] items. *)
Definition config_words (c : EventStoreConfig) : Prop :=
  0 <= max_events_per_stream c < usize_max ∧ 0 <= max_streams c ∧
  0 <= max_stream_id_bytes c ∧ 0 <= max_event_payload_bytes c ∧
  0 <= max_total_event_payload_bytes c <= usize_max ∧
  0 <= max_replay_events c ∧ 0 <= max_replay_payload_bytes c ∧
  0 <= max_replay_cursor_bytes c.

Lemma first_zero_limit_None l :
  first_zero_limit l = None → Forall (λ p : string * Z, p.2 ≠ 0) l.
Proof.
  induction l as [|[f z] l IH]; simpl; [constructor|].
  destruct (Z.eqb_spec z 0); [done|]. intros H. constructor; auto.
Qed.

Lemma validate_ok c :
  config_words c → EventStoreConfig_validate c = inr tt → config_wf c.
Proof.
  intros Hw. unfold EventStoreConfig_validate. case_match eqn:Hz; [done|]. intros _.
  apply first_zero_limit_None in Hz. unfold config_words in Hw.
  rewrite !Forall_cons in Hz. simpl in Hz. unfold config_wf. lia.
Qed.

Lemma initial_wf c st :
  config_words c → EventStore_with_config c = inr st → store_wf st ∧ streams st = ∅ ∧ config st = c.
Proof.
  intros Hw. unfold EventStore_with_config. case_match eqn:Hv; [done|]. intros [= <-].
  destruct u. pose proof (validate_ok c Hw Hv) as Hc. split; [|done].
  assert (0 <= max_streams c ∧ 0 <= max_total_event_payload_bytes c) as [? ?]
    by (unfold config_wf in Hc; lia).
  split; simpl; try (intros *; rewrite lookup_empty); try done.
Qed.

Lemma cleaned_lookup now st sid se' :
  streams (cleaned now st) !! sid = Some se' →
  ∃ se n, streams st !! sid = Some se ∧ events se' = drop n (events se).
Proof.
  unfold cleaned, set_streams. cbn [streams]. rewrite cleanup_streams_omap, lookup_omap.
  intros (se & Hs & Hr)%bind_Some. destruct (retained_drop _ _ _ _ Hr) as [n Hn]. eauto.
Qed.

Lemma StronglySorted_drop {A} (R : A → A → Prop) n l :
  StronglySorted R l → StronglySorted R (drop n l).
Proof. revert n. induction l; intros [|n]; simpl; [done..|]. intros [? _]%StronglySorted_inv. auto. Qed.

Lemma StronglySorted_snoc {A} (R : A → A → Prop) l x :
  StronglySorted R l → Forall (λ y, R y x) l → StronglySorted R (l ++ [x]).
Proof.
  induction 1 as [|y l Hs IH Hy]; simpl; [by repeat constructor|].
  intros [? ?]%Forall_cons. constructor; [auto|]. apply Forall_app. split; [done|].
  by apply Forall_singleton.
Qed.

Lemma time_wf_mono st t t' : time_wf (st, t) → t <= t' → time_wf (st, t').
Proof.
  intros Hw Ht sid se Hs. destruct (Hw sid se Hs) as [? Hf]. split; [done|].
  eapply Forall_impl; [exact Hf|]. simpl. lia.
Qed.

Lemma time_wf_cleaned now st t : time_wf (st, t) → time_wf (cleaned now st, t).
Proof.
  intros Hw sid se' (se & n & Hs & Hn)%cleaned_lookup. destruct (Hw _ _ Hs).
  simpl in *. rewrite Hn. auto using StronglySorted_drop, Forall_drop.
Qed.

Lemma time_wf_push st t sid se' (new : StoredEvent V) :
  time_wf (st, t) → t <= created new →
  let old := stream_events sid (streams st) in
  events se' = drop (evict_count (config st) old) old ++ [new] →
  time_wf (set_streams <[sid := se']> (bump_counter st), created new).
Proof.
  intros Hw Ht old Hev sid1 se1.
  assert (StronglySorted (λ a b, created a <= created b) old ∧
          Forall (λ ev, created ev <= t) old) as [Hs Hf].
  { unfold old, stream_events. destruct (streams st !! sid) eqn:E; simpl; [by apply (Hw sid)|].
    split; constructor. }
  assert (Forall (λ ev, created ev <= created new) old) as Hf'
    by (eapply Forall_impl; [exact Hf|]; simpl; lia).
  cbn. intros [[<- <-]|[_ Hlk]]%lookup_insert_Some; simpl.
  - rewrite Hev. split.
    + apply StronglySorted_snoc; [by apply StronglySorted_drop|by apply Forall_drop].
    + apply Forall_app. split; [by apply Forall_drop|by apply Forall_singleton].
  - exact (time_wf_mono st t (created new) Hw Ht _ _ Hlk).
Qed.

(** The joint invariant of a run, preserved by every operation. *)
Definition run_wf (x : EventStore V * Z) : Prop := store_wf x.1 ∧ time_wf x.

Lemma run_wf_cleaned st t now : run_wf (st, t) → t <= now → run_wf (cleaned now st, now).
Proof.
  intros [Hw Ht] Hle. split; [by apply cleaned_wf|]. eapply time_wf_cleaned, time_wf_mono; eauto.
Qed.

Lemma run_wf_same st t now : run_wf (st, t) → t <= now → run_wf (st, now).
Proof. intros [Hw Ht] Hle. split; [done|by eapply time_wf_mono]. Qed.

Lemma step_run_wf x y : step x y → run_wf x → run_wf y ∧ config y.1 = config x.1.
Proof.
  destruct 1 as [st t now cr millis sid data r st' Ht Hc Hctr Hrun|st t now sid a r st' Ht Hrun
    |st t now sid a r st' Ht Hrun|st t now l r st' Ht Hrun|st t now e r st' Ht Hrun
    |st t sid r st' Hrun|st t now r st' Ht Hrun|st t now r st' Ht Hrun]; intros Hw;
    try (injection Hrun as <- <-; split; [by eapply run_wf_cleaned|done]).
  - destruct Hw as [Hw Htw].
    destruct (store_event_run _ _ _ _ _ _ _ _ Hw Hctr Hrun)
      as [Hw' [(e & -> & [->| ->])|(se' & bytes & -> & _ & -> & Hev & _)]].
    + split; [|done]. eapply run_wf_same; [by split|lia].
    + split; [|done]. eapply run_wf_same; [eapply run_wf_cleaned; [by split|done]|lia].
    + split; [|done]. split; [done|].
      assert (time_wf (cleaned now st, now)) as Hc1
        by (eapply time_wf_cleaned, time_wf_mono; eauto).
      exact (time_wf_push (cleaned now st) now sid se'
        {| entry := EventEntry_new (next_id millis st) sid data cr; payload_bytes := bytes |}
        Hc1 Hc Hev).
  - apply replay_bounded_state in Hrun as [->| ->];
      (split; [|done]); [by eapply run_wf_same|by eapply run_wf_cleaned].
  - injection Hrun as <- <-. split; [|done]. destruct Hw as [Hw Htw]. split; [by apply store_wf_clear|].
    intros sid' se Hs. cbn in Hs. apply lookup_delete_Some in Hs as [_ Hs]. exact (Htw _ _ Hs).
Qed.

Lemma rtc_run_wf x y : rtc step x y → run_wf x → run_wf y ∧ config y.1 = config x.1.
Proof.
  induction 1 as [|x y z Hs _ IH]; intros Hw; [done|].
  destruct (step_run_wf _ _ Hs Hw) as [Hy Hc]. destruct (IH Hy) as [? ->]. done.
Qed.

Lemma reachable_run_wf c x : config_words c → reachable c x → run_wf x ∧ config x.1 = c.
Proof.
  intros Hw (st0 & t0 & Hinit & Hrun). destruct (initial_wf c st0 Hw Hinit) as (Hwf & Hs & Hc).
  apply rtc_run_wf in Hrun as [? Hcfg]; [by rewrite Hcfg|].
  split; [done|]. intros sid se Hlk. simpl in Hlk. by rewrite Hs, lookup_empty in Hlk.
Qed.

(** ** Expiry *)

Definition live (ttl : option Z) (now : Z) evs : list (StoredEvent V) :=
  filter (λ ev, EventEntry_is_expired ttl now (entry ev) = false) evs.

(** In creation order the unexpired events are a suffix. *)
Lemma drop_expired_sorted ttl now evs :
  StronglySorted (λ a b, created a <= created b) evs → drop_expired ttl now evs = live ttl now evs.
Proof.
  unfold live. induction 1 as [|ev evs Hs IH Hev]; simpl; [done|].
  destruct (EventEntry_is_expired ttl now (entry ev)) eqn:E.
  - rewrite filter_cons_False by congruence. done.
  - rewrite filter_cons_True by done. f_equal. symmetry. apply filter_all. eapply Forall_impl; [exact Hev|]. simpl. intros ev' Hle.
    unfold EventEntry_is_expired in *. destruct ttl as [t|]; [|done].
    unfold created in Hle. zbool. apply Z.ltb_ge. lia.
Qed.

Lemma cleaned_stream_events now st sid :
  stream_events sid (streams (cleaned now st)) =
  drop_expired (ttl (config st)) now (stream_events sid (streams st)).
Proof.
  unfold stream_events, cleaned, set_streams. cbn [streams].
  rewrite cleanup_streams_omap, lookup_omap.
  destruct (streams st !! sid) as [se|]; simpl; [|done].
  unfold retained. rewrite <- remove_expired_events. by destruct (events _) eqn:E.
Qed.

Lemma cleaned_stream_live now st t sid :
  time_wf (st, t) →
  stream_events sid (streams (cleaned now st)) =
  live (ttl (config st)) now (stream_events sid (streams st)).
Proof.
  intros Ht. rewrite cleaned_stream_events. apply drop_expired_sorted. unfold stream_events.
  destruct (streams st !! sid) as [se|] eqn:Hs; simpl; [by apply (Ht sid)|constructor].
Qed.

Lemma drop_expired_idem ttl now evs :
  drop_expired ttl now (drop_expired ttl now evs) = drop_expired ttl now evs.
Proof.
  induction evs as [|ev evs IH]; simpl; [done|].
  destruct (EventEntry_is_expired ttl now (entry ev)) eqn:E; [done|]. simpl. by rewrite E.
Qed.

Lemma remove_expired_id ttl now se :
  drop_expired ttl now (events se) = events se → StreamEvents_remove_expired ttl now se = se.
Proof.
  intros Heq. unfold StreamEvents_remove_expired. destruct ttl as [d|]; [|done].
  destruct (pop_expired_spec (Some d) now (events se) (index se) false) as (idx' & -> & Hidx).
  rewrite Heq, Nat.eqb_refl, Hidx by done. by destruct se.
Qed.

Lemma cleaned_idem now st : cleaned now (cleaned now st) = cleaned now st.
Proof.
  unfold cleaned, set_streams. cbn. f_equal. rewrite !cleanup_streams_omap. apply map_eq.
  intros sid. rewrite !lookup_omap. destruct (streams st !! sid) as [se|]; simpl; [|done].
  destruct (retained (ttl (config st)) now se) as [se'|] eqn:Hr; simpl; [|done].
  destruct (retained_events _ _ _ _ Hr) as (Hne & Hev & _).
  unfold retained. rewrite remove_expired_id by (by rewrite Hev, drop_expired_idem).
  by destruct (events se').
Qed.

(** ** Looking an event up over the whole store *)

Lemma contains_spec eid se :
  index_exact se → StreamEvents_contains eid se = true ↔ ∃ ev, ev ∈ events se ∧ event_id ev = eid.
Proof.
  intros Hx. unfold StreamEvents_contains. rewrite bool_decide_eq_true. split.
  - intros [i (ev & Hi & Hid)%Hx]. exists ev. split; [by eapply list_elem_of_lookup_2|done].
  - intros (ev & [i Hi]%list_elem_of_lookup & Hid). exists i. apply Hx. eauto.
Qed.

Lemma find_containing_spec eid l sid se :
  find_containing eid l = Some (sid, se) → (sid, se) ∈ l ∧ StreamEvents_contains eid se = true.
Proof.
  induction l as [|[sid' se'] l IH]; simpl; [done|].
  destruct (StreamEvents_contains eid se') eqn:E.
  - intros [= <- <-]. split; [by left|done].
  - intros [? ?]%IH. split; [by right|done].
Qed.

Lemma find_containing_None eid l :
  find_containing eid l = None → ∀ sid se, (sid, se) ∈ l → StreamEvents_contains eid se = false.
Proof.
  induction l as [|[sid' se'] l IH]; simpl; intros Hf sid se Hin; [by apply not_elem_of_nil in Hin|].
  destruct (StreamEvents_contains eid se') eqn:E; [done|].
  apply elem_of_cons in Hin as [[= -> ->]|Hin]; [done|by eapply IH].
Qed.

(** Whatever order the map is walked in, the stream found is the one that
    retains the event. *)
Lemma find_containing_unique st eid sid se :
  store_wf st → streams st !! sid = Some se →
  (∃ ev, ev ∈ events se ∧ event_id ev = eid) →
  find_containing eid (map_order (streams st)) = Some (sid, se).
Proof.
  intros Hwf Hs Hev. destruct (find_containing _ _) as [[sid' se']|] eqn:Hf.
  - apply find_containing_spec in Hf as [Hin%elem_of_map_order Hc].
    apply contains_spec in Hc as (ev' & Hin' & Hid'); [|by eapply stream_wf_index, wf_stream].
    destruct Hev as (ev & Hin0 & Hid0).
    assert (sid' = sid) as -> by (eapply (wf_unique _ Hwf sid' sid); eauto; congruence).
    rewrite Hs in Hin. by simplify_eq.
  - eapply find_containing_None in Hf; [|by apply elem_of_map_order].
    apply not_true_iff_false in Hf. destruct Hf. apply contains_spec; [|done].
    by eapply stream_wf_index, wf_stream.
Qed.

(** ** Paging over the store *)

Fixpoint replay_all (fuel : nat) (now : Z) (sid : string) (cursor : option string)
    : M (EventStore V) EventStoreError (list (EventEntry V)) :=
  let! b := EventStore_replay_bounded now sid cursor in
  if complete b then ret (batch_events b) else
  match fuel with
  | O => out_of_fuel
  | S fuel =>
      let! more := replay_all fuel now sid (next_after_id b) in
      ret (batch_events b ++ more)
  end.

(** The page of the named stream after cleanup, for an admitted request. *)
Lemma replay_bounded_eq now sid cursor st se :
  str_len sid <= max_stream_id_bytes (config st) →
  (∀ aid, cursor = Some aid → str_len aid <= max_replay_cursor_bytes (config st)) →
  streams (cleaned now st) !! sid = Some se →
  EventStore_replay_bounded now sid cursor st =
  (match StreamEvents_replay_bounded cursor (max_replay_events (config st))
           (max_replay_payload_bytes (config st)) se with
   | inl e => Err e
   | inr b => Ok b
   end, cleaned now st).
Proof.
  intros Hsid Hcur Hs. unfold EventStore_replay_bounded. unfold bind, gets. simpl.
  rewrite (proj2 (Z.ltb_ge _ _)) by done.
  assert (match cursor with
          | Some aid => max_replay_cursor_bytes (config st) <? str_len aid
          | None => false
          end = false) as -> by (destruct cursor; [by apply Z.ltb_ge, Hcur|done]).
  unfold cleaned in Hs. simpl in *. rewrite Hs. by destruct (StreamEvents_replay_bounded _ _ _ _).
Qed.

Lemma drain_replay_all fuel now sid cursor st se l :
  str_len sid <= max_stream_id_bytes (config st) →
  (∀ aid, cursor = Some aid → str_len aid <= max_replay_cursor_bytes (config st)) →
  Forall (λ ev, str_len (event_id ev) <= max_replay_cursor_bytes (config st)) (events se) →
  store_wf st → streams (cleaned now st) !! sid = Some se → stream_payload se <= usize_max →
  drain fuel (max_replay_events (config st)) (max_replay_payload_bytes (config st)) cursor se = inr l →
  replay_all fuel now sid cursor st = (Ok l, cleaned now st).
Proof.
  intros Hsid Hcur Hids Hwf Hs Hsum. revert st cursor l Hsid Hcur Hids Hwf Hs.
  induction fuel as [|fuel IH]; intros st cursor l Hsid Hcur Hids Hwf Hs; simpl;
    unfold bind; rewrite (replay_bounded_eq _ _ _ _ _ Hsid Hcur Hs);
    destruct (StreamEvents_replay_bounded _ _ _ _) as [e|b] eqn:Hb; try done;
    destruct (complete b); try done; try (by intros [= <-]).
  destruct (drain fuel _ _ (next_after_id b) se) as [e|more] eqn:Hd; [done|]. intros [= <-].
  pose proof (cleaned_wf now st Hwf) as Hwf'. pose proof (wf_stream _ Hwf' _ _ Hs) as Hse.
  rewrite (IH (cleaned now st) (next_after_id b) more); try done.
  - by rewrite cleaned_idem.
  - intros aid Haid. rewrite replay_bounded_spec in Hb;
      [|by apply Hse|eapply Forall_impl; [by apply Hse|simpl; lia]|done
       |by destruct (wf_config _ Hwf) as (_&_&_&_&_&?&_)].
    destruct (after_cursor cursor (events se)) as [todo|] eqn:Hc; [|done].
    cbn zeta in Hb. case_if_in Hb; [done|]. injection Hb as <-. simpl in Haid.
    unfold last_id in Haid. destruct (last (take _ todo)) as [ev|] eqn:Hl; [|by apply Hcur].
    injection Haid as <-. rewrite Forall_forall in Hids. apply Hids.
    apply last_elem_of, elem_of_take_1 in Hl.
    destruct (after_cursor_drop _ _ _ Hc) as [k ->]. by eapply elem_of_drop_1.
  - by rewrite cleaned_idem.
Qed.

(** * Properties *)

(** C33: in every reachable state the store is inside all of its configured
    bounds: at most [max_streams] streams, none empty, each with at most
    [max_events_per_stream] events and an identifier of at most
    [max_stream_id_bytes] bytes, every payload within
    [max_event_payload_bytes], and the aggregate the code recomputes never
    overflows and is at most [max_total_event_payload_bytes]. *)
Theorem reachable_bounded (c : EventStoreConfig) st t :
  config_words c → reachable c (st, t) →
  Z.of_nat (size (streams st)) <= max_streams c ∧
  (∃ total, EventStore_total_payload_bytes (streams st) = Some total ∧
     total <= max_total_event_payload_bytes c) ∧
  ∀ sid se, streams st !! sid = Some se →
    str_len sid <= max_stream_id_bytes c ∧
    0 < zlen (events se) <= max_events_per_stream c ∧
    Forall (λ ev, payload_bytes ev <= max_event_payload_bytes c) (events se).
Proof.
  intros Hw Hr. destruct (reachable_run_wf c _ Hw Hr) as [[Hwf _] Hc]. simpl in Hwf, Hc. subst c.
  split; [by apply wf_streams|]. split.
  - exists (payload_total (streams st)). split; [|by apply wf_total].
    apply total_payload_bytes_spec; [by apply store_wf_nonneg|].
    pose proof (wf_total _ Hwf). pose proof (wf_config _ Hwf) as Hc. unfold config_wf in Hc. lia.
  - intros sid se Hs. destruct (wf_stream _ Hwf _ _ Hs) as [Hne Hl _ Hp _ Hsid].
    split_and!; [done| |done|eapply Forall_impl; [exact Hp|simpl; lia]].
    destruct (events se); [done|]. rewrite zlen_cons. pose proof (zlen_nonneg l). lia.
Qed.

(** Event ids identify events: in every reachable state the per-stream
    index holds exactly the positions of the retained ids, and two retained
    events with the same id are the same event of the same stream. *)
Theorem reachable_ids_identify (c : EventStoreConfig) st t :
  config_words c → reachable c (st, t) →
  (∀ sid se, streams st !! sid = Some se → index_exact se) ∧
  ∀ sid1 sid2 se1 se2 i j ev1 ev2,
    streams st !! sid1 = Some se1 → events se1 !! i = Some ev1 →
    streams st !! sid2 = Some se2 → events se2 !! j = Some ev2 →
    event_id ev1 = event_id ev2 → sid1 = sid2 ∧ i = j.
Proof.
  intros Hw Hr. destruct (reachable_run_wf c _ Hw Hr) as [[Hwf _] _]. simpl in Hwf.
  split; [intros; by eapply stream_wf_index, wf_stream|].
  intros sid1 sid2 se1 se2 i j ev1 ev2 H1 Hi H2 Hj Heq.
  assert (sid1 = sid2) as ->
    by (eapply (wf_unique _ Hwf sid1 sid2); eauto using list_elem_of_lookup_2).
  split; [done|]. rewrite H1 in H2. simplify_eq.
  pose proof (stream_wf_index _ _ _ (wf_stream _ Hwf _ _ H1)) as Hx.
  assert (index se2 !! event_id ev1 = Some i) as H3 by (apply Hx; eauto).
  assert (index se2 !! event_id ev1 = Some j) as H4 by (apply Hx; eauto).
  congruence.
Qed.

(** C5: [store_event] on every branch, from any reachable state: it neither
    panics nor loops; on an error no event is added (the state is the old one,
    or the old one after expiry); on success the id returned is
    [millis-counter], the counter advances by one, the named stream is its
    unexpired events with exactly the oldest dropped that the per-stream limit
    forces out, followed by the new event, and every other stream only loses
    what has expired. *)
Theorem store_event_correct (c : EventStoreConfig) st t now cr millis sid data :
  config_words c → reachable c (st, t) → (event_counter st + 1 < 2 ^ 64)%N →
  match EventStore_store_event ser now cr millis sid data st with
  | (Ok eid, st') =>
      eid = (pretty millis +:+ "-" +:+ pretty (event_counter st))%string ∧
      event_counter st' = (event_counter st + 1)%N ∧
      (∃ bytes, measure_event_payload ser data (max_event_payload_bytes c) = inr bytes ∧
       let kept := live (ttl c) now (stream_events sid (streams st)) in
       stream_events sid (streams st') =
         drop (length kept + 1 - Z.to_nat (max_events_per_stream c)) kept ++
         [{| entry := EventEntry_new eid sid data cr; payload_bytes := bytes |}]) ∧
      ∀ sid', sid' ≠ sid →
        stream_events sid' (streams st') = live (ttl c) now (stream_events sid' (streams st))
  | (Err e, st') =>
      event_counter st' = event_counter st ∧
      ∀ sid', stream_events sid' (streams st') = stream_events sid' (streams st) ∨
              stream_events sid' (streams st') = live (ttl c) now (stream_events sid' (streams st))
  | _ => False
  end.
Proof.
  intros Hw Hr Hctr. destruct (reachable_run_wf c _ Hw Hr) as [[Hwf Ht] Hc].
  simpl in Hwf, Hc. subst c. pose proof (cleaned_stream_live now st t) as Hcl.
  destruct (EventStore_store_event _ _ _ _ _ _ _) as [r st'] eqn:Hrun.
  destruct (store_event_run _ _ _ _ _ _ _ _ Hwf Hctr Hrun)
    as [_ [(e & -> & [->| ->])|(se' & bytes & -> & Hm & -> & Hev & _)]].
  - split; [done|]. by left.
  - split; [done|]. right. by apply Hcl.
  - split; [done|]. split; [by apply N.mod_small|]. split.
    + exists bytes. split; [done|]. cbn zeta. rewrite <- (Hcl sid Ht).
      unfold stream_events at 1. cbn. by rewrite lookup_insert_eq.
    + intros sid' Hne. rewrite <- (Hcl sid' Ht). unfold stream_events. cbn.
      by rewrite lookup_insert_ne.
Qed.

(** [get_events_after] returns exactly the unexpired events of the named
    stream that follow the cursor, in order; an unknown or expired cursor gives
    none, and no cursor gives all. *)
Theorem get_events_after_correct (c : EventStoreConfig) st t now sid after_id :
  config_words c → reachable c (st, t) →
  ∃ st', EventStore_get_events_after now sid after_id st =
    (Ok (entry <$> default [] (after_cursor after_id
           (live (ttl c) now (stream_events sid (streams st))))), st').
Proof.
  intros Hw Hr. destruct (reachable_run_wf c _ Hw Hr) as [[Hwf Ht] Hc].
  simpl in Hwf, Hc. subst c. exists (cleaned now st).
  rewrite get_events_after_eq, <- (cleaned_stream_live now st t sid Ht).
  unfold stream_events. destruct (streams (cleaned now st) !! sid) as [se|] eqn:Hs; simpl.
  - rewrite events_after_spec; [done|].
    exact (stream_wf_index _ _ _ (wf_stream _ (cleaned_wf now st Hwf) _ _ Hs)).
  - by destruct after_id.
Qed.

(** One replay page of an admitted request.  The events are a prefix of the
    unexpired events after the cursor, at most [max_replay_events] of them with
    at most [max_replay_payload_bytes] of payload, all of the named stream; a
    page marked complete is everything, and one that is not is maximal: the
    next event does not fit.  The only errors are a cursor that is not retained
    and a first event too large for an empty page. *)
Theorem replay_page_correct (c : EventStoreConfig) st t now sid cursor :
  config_words c → reachable c (st, t) →
  str_len sid <= max_stream_id_bytes c →
  (∀ aid, cursor = Some aid → str_len aid <= max_replay_cursor_bytes c) →
  match EventStore_replay_bounded now sid cursor st,
        after_cursor cursor (live (ttl c) now (stream_events sid (streams st))) with
  | (Err e, _), None => e = ReplayCursorNotRetained
  | (Err e, _), Some todo =>
      e = ReplayEventPayloadTooLarge (max_replay_payload_bytes c) ∧
      ∃ ev, head todo = Some ev ∧ max_replay_payload_bytes c < payload_bytes ev
  | (Ok b, _), Some todo =>
      ∃ n, batch_events b = entry <$> take n todo ∧
        batch_payload_bytes b = sum (payload_bytes <$> take n todo) ∧
        zlen (batch_events b) <= max_replay_events c ∧
        batch_payload_bytes b <= max_replay_payload_bytes c ∧
        Forall (λ e, stream_id e = sid) (batch_events b) ∧
        (complete b = true ↔ take n todo = todo) ∧
        ∀ ev, todo !! n = Some ev →
          max_replay_events c <= zlen (batch_events b) ∨
          max_replay_payload_bytes c < batch_payload_bytes b + payload_bytes ev
  | _, _ => False
  end.
Proof.
  intros Hw Hr Hsid Hcur. destruct (reachable_run_wf c _ Hw Hr) as [[Hwf Ht] Hc].
  simpl in Hwf, Hc. subst c. pose proof (cleaned_wf now st Hwf) as Hwf'.
  rewrite <- (cleaned_stream_live now st t sid Ht).
  destruct (wf_config _ Hwf) as (_ & _ & _ & _ & Htot & Hme & Hmp & _).
  unfold stream_events. destruct (streams (cleaned now st) !! sid) as [se|] eqn:Hs; simpl.
  2:{ unfold EventStore_replay_bounded, bind, gets. simpl.
      rewrite (proj2 (Z.ltb_ge _ _)) by done. unfold cleaned in Hs. simpl in Hs.
      destruct cursor as [aid|]; simpl.
      - rewrite (proj2 (Z.ltb_ge _ _)) by (by apply Hcur). simpl. by rewrite Hs.
      - rewrite Hs. exists 0%nat. simpl. unfold zlen. simpl. split_and!; try done; lia. }
  rewrite (replay_bounded_eq _ _ _ _ _ Hsid Hcur Hs).
  pose proof (wf_stream _ Hwf' _ _ Hs) as [_ _ Hx Hp Hst _].
  assert (Forall (λ ev, 0 <= payload_bytes ev) (events se)) as Hnn
    by (eapply Forall_impl; [exact Hp|simpl; lia]).
  rewrite replay_bounded_spec; [|done|done| |done]; cycle 1.
  { by eapply wf_stream_payload. }
  destruct (after_cursor cursor (events se)) as [todo|] eqn:Hac; [|done]. cbn zeta.
  set (n := page_len _ _ todo). destruct (bool_decide _) eqn:Hd.
  - apply bool_decide_eq_true in Hd as [Hn Hne]. split; [done|].
    destruct todo as [|ev todo]; [done|]. exists ev. split; [done|].
    destruct (Z.lt_ge_cases (max_replay_payload_bytes (config st)) (payload_bytes ev)); [done|].
    by destruct (page_len_progress (max_replay_events (config st))
                   (max_replay_payload_bytes (config st)) ev todo).
  - exists n. cbn [batch_events batch_payload_bytes complete].
    assert (n ≤ length todo)%nat as Hn by apply page_len_le.
    assert (zlen (entry <$> take n todo) = Z.of_nat n) as Hz
      by (unfold zlen; rewrite length_fmap, length_take; lia).
    rewrite Hz. split_and!; [done..| | | | |].
    + apply page_len_slots. lia.
    + apply page_len_budget. lia.
    + destruct (after_cursor_drop _ _ _ Hac) as [k ->].
      by apply Forall_fmap, Forall_take, Forall_drop.
    + rewrite Nat.eqb_eq. split; [intros ->; by apply take_ge|].
      intros Heq. apply (f_equal length) in Heq. rewrite length_take in Heq. lia.
    + apply page_len_maximal.
Qed.

(** C34: paging is lossless.  A client that keeps replaying from the cursor of
    the previous page receives, at a fixed instant and provided every retained
    payload fits a page and every id fits the cursor limit, exactly the
    unexpired events after its first cursor, each once and in order, in at most
    one page per event. *)
Theorem replay_all_correct (c : EventStoreConfig) st t now sid cursor todo :
  config_words c → reachable c (st, t) →
  str_len sid <= max_stream_id_bytes c →
  (∀ aid, cursor = Some aid → str_len aid <= max_replay_cursor_bytes c) →
  Forall (λ ev, payload_bytes ev <= max_replay_payload_bytes c ∧
                str_len (event_id ev) <= max_replay_cursor_bytes c)
    (live (ttl c) now (stream_events sid (streams st))) →
  live (ttl c) now (stream_events sid (streams st)) ≠ [] →
  after_cursor cursor (live (ttl c) now (stream_events sid (streams st))) = Some todo →
  ∃ st', replay_all (length todo) now sid cursor st = (Ok (entry <$> todo), st').
Proof.
  intros Hw Hr Hsid Hcur. destruct (reachable_run_wf c _ Hw Hr) as [[Hwf Ht] Hc].
  simpl in Hwf, Hc. subst c. pose proof (cleaned_wf now st Hwf) as Hwf'.
  rewrite <- (cleaned_stream_live now st t sid Ht). unfold stream_events.
  destruct (streams (cleaned now st) !! sid) as [se|] eqn:Hs; simpl; [|done].
  intros [Hp Hid]%Forall_and _ Hac. exists (cleaned now st).
  destruct (wf_config _ Hwf) as (_ & _ & _ & _ & Htot & Hme & _).
  pose proof (wf_stream _ Hwf' _ _ Hs) as [_ _ Hx Hpw _ _].
  pose proof (wf_stream_payload _ _ _ Hwf' Hs) as Hsum.
  eapply drain_replay_all; try done. eapply drain_spec; try done.
  apply Forall_and. split; [eapply Forall_impl; [exact Hpw|simpl; lia]|done].
Qed.

(** looking an event up by id alone does not depend on the map's iteration
    order: [find_stream_for_event] names the stream that retains the event
    unexpired, if there is one, and [replay_events_after] hands over that
    stream's later events. *)
Theorem find_stream_correct (c : EventStoreConfig) st t now eid sid :
  config_words c → reachable c (st, t) →
  ((EventStore_find_stream_for_event now eid st).1 = Ok (Some sid) ↔
   ∃ ev, ev ∈ live (ttl c) now (stream_events sid (streams st)) ∧ event_id ev = eid) ∧
  ∀ l, (EventStore_replay_events_after now eid st).1 = Ok (Some (sid, l)) →
    l = entry <$> default [] (after_cursor (Some eid)
          (live (ttl c) now (stream_events sid (streams st)))).
Proof.
  intros Hw Hr. destruct (reachable_run_wf c _ Hw Hr) as [[Hwf Ht] Hc].
  simpl in Hwf, Hc. subst c. pose proof (cleaned_wf now st Hwf) as Hwf'.
  rewrite <- (cleaned_stream_live now st t sid Ht).
  change (EventStore_find_stream_for_event now eid st).1 with
    (@Ok EventStoreError _ (fst <$> find_containing eid (map_order (streams (cleaned now st))))).
  change (EventStore_replay_events_after now eid st).1 with
    (@Ok EventStoreError _ ((λ p, (p.1, StreamEvents_events_after (Some eid) p.2)) <$>
      find_containing eid (map_order (streams (cleaned now st))))).
  assert (∀ se, find_containing eid (map_order (streams (cleaned now st))) = Some (sid, se) →
    streams (cleaned now st) !! sid = Some se ∧ index_exact se ∧
    ∃ ev, ev ∈ events se ∧ event_id ev = eid) as Hfound.
  { intros se [Hin%elem_of_map_order Hct]%find_containing_spec.
    pose proof (stream_wf_index _ _ _ (wf_stream _ Hwf' _ _ Hin)) as Hx.
    split_and!; [done..|]. by apply contains_spec. }
  unfold stream_events. split; [split|].
  - intros [= Hf]. apply fmap_Some in Hf as ([sid' se] & Hf & ->).
    destruct (Hfound se Hf) as (-> & _ & Hev). done.
  - destruct (streams (cleaned now st) !! sid) as [se|] eqn:Hs; cbn [from_option].
    + intros Hev. by rewrite (find_containing_unique _ _ _ _ Hwf' Hs Hev).
    + intros (ev & Hin & _). by apply not_elem_of_nil in Hin.
  - intros l [= Hf]. apply fmap_Some in Hf as ([sid' se] & Hf & [= -> ->]).
    destruct (Hfound se Hf) as (-> & Hx & _). cbn [from_option]. by rewrite <- events_after_spec.
Qed.
End theorems.
