(* ===== verification/EventStoreExamples.v ===== *)
(** Closed runs of the event store: a store with room for two events per stream
    after four insertions, and each property of [EventStoreTheorems] at it. *)
From stdpp Require Import base list gmap strings pretty fin_maps sorting.
From Stdlib Require Import ZArith Lia.
From S2P Require Import Prelude Sink EventStore EventStoreCorrect.
From S2P Require Import EventStoreTheorems.

(** Payloads are their own encoding, written in one slice. *)
Definition ex_ser (v : list Z) : serialization :=
  {| ser_chunks := [v]; ser_completes := true |}.
Definition ex_order : MapOrder string (StreamEvents (list Z)) := canonical_order _ _.
#[local] Existing Instance ex_order.

Definition ex_config : EventStoreConfig := {|
  max_events_per_stream := 2;
  max_streams := 2;
  max_stream_id_bytes := 8;
  max_event_payload_bytes := 4;
  max_total_event_payload_bytes := 10;
  max_replay_events := 1;
  max_replay_payload_bytes := 4;
  max_replay_cursor_bytes := 16;
  ttl := Some 100;
|}.

Definition ex_run (st : EventStore (list Z)) (t : Z) (sid : string) (v : list Z) :=
  (EventStore_store_event ex_ser t t 7 sid (Some v) st).2.

Definition ex_st0 : EventStore (list Z) := EventStore_from_validated_config ex_config.
Definition ex_st1 := ex_run ex_st0 10 "a" [1].
Definition ex_st2 := ex_run ex_st1 20 "a" [2; 2].
Definition ex_st3 := ex_run ex_st2 30 "a" [3].
Definition ex_st4 := ex_run ex_st3 40 "b" [4; 4].

Example ex_retained :
  event_id <$> stream_events "a" (streams ex_st4) = ["7-1"; "7-2"]%string ∧
  event_id <$> stream_events "b" (streams ex_st4) = ["7-3"]%string.
Proof. by vm_compute. Qed.

Lemma ex_config_words : config_words ex_config.
Proof. unfold config_words, usize_max; simpl; lia. Qed.

Lemma ex_step st t t' sid v :
  t <= t' → (event_counter st + 1 < 2 ^ 64)%N → step ex_ser (st, t) (ex_run st t' sid v, t').
Proof. intros. eapply step_store; [done|done|done|apply surjective_pairing]. Qed.

Lemma ex_reachable : reachable ex_ser ex_config (ex_st4, 40).
Proof.
  exists ex_st0, 0. split; [done|].
  eapply rtc_l; [apply (ex_step _ _ 10 "a" [1]); vm_compute; first [reflexivity|discriminate]|].
  eapply rtc_l; [apply (ex_step _ _ 20 "a" [2; 2]); vm_compute; first [reflexivity|discriminate]|].
  eapply rtc_l; [apply (ex_step _ _ 30 "a" [3]); vm_compute; first [reflexivity|discriminate]|].
  eapply rtc_l; [apply (ex_step _ _ 40 "b" [4; 4]); vm_compute; first [reflexivity|discriminate]|].
  apply rtc_refl.
Qed.

Lemma reachable_bounded_witness :
  Z.of_nat (size (streams ex_st4)) <= 2 ∧
  ∃ total, EventStore_total_payload_bytes (streams ex_st4) = Some total ∧ total <= 10.
Proof.
  destruct (reachable_bounded ex_ser ex_config ex_st4 40 ex_config_words ex_reachable)
    as (H1 & H2 & _). exact (conj H1 H2).
Defined.

Lemma reachable_ids_identify_witness :
  ∃ se, streams ex_st4 !! "a"%string = Some se ∧ index_exact se.
Proof.
  eexists. split; [reflexivity|].
  apply (proj1 (reachable_ids_identify ex_ser ex_config ex_st4 40 ex_config_words ex_reachable)
           "a"%string).
  reflexivity.
Defined.

Lemma store_event_correct_witness :
  ∃ eid st', EventStore_store_event ex_ser 125 125 9 "a" (Some [5]) ex_st4 = (Ok eid, st') ∧
    stream_events "b" (streams st') = live (Some 100) 125 (stream_events "b" (streams ex_st4)).
Proof.
  pose proof (store_event_correct ex_ser ex_config ex_st4 40 125 125 9 "a" (Some [5])
    ex_config_words ex_reachable ltac:(vm_compute; reflexivity)) as H.
  destruct (EventStore_store_event ex_ser 125 125 9 "a" (Some [5]) ex_st4) as [r st'] eqn:E.
  destruct r as [eid|e| |].
  - exists eid, st'. split; [reflexivity|]. exact (proj2 (proj2 (proj2 H)) "b"%string ltac:(done)).
  - vm_compute in E. discriminate E.
  - destruct H.
  - destruct H.
Defined.

Lemma get_events_after_correct_witness :
  ∃ st', EventStore_get_events_after 125 "a" None ex_st4 =
    (Ok (entry <$> live (Some 100) 125 (stream_events "a" (streams ex_st4))), st').
Proof.
  exact (get_events_after_correct ex_ser ex_config ex_st4 40 125 "a" None
           ex_config_words ex_reachable).
Defined.

Lemma replay_page_correct_witness :
  ∃ b st' n, EventStore_replay_bounded 50 "a" None ex_st4 = (Ok b, st') ∧
    batch_events b = entry <$> take n (live (Some 100) 50 (stream_events "a" (streams ex_st4))).
Proof.
  pose proof (replay_page_correct ex_ser ex_config ex_st4 40 50 "a" None
    ex_config_words ex_reachable ltac:(vm_compute; first [reflexivity|discriminate]) ltac:(done)) as H.
  destruct (EventStore_replay_bounded 50 "a" None ex_st4) as [r st'] eqn:E.
  destruct r as [b|e| |].
  - destruct H as (n & Hn & _). exists b, st', n. exact (conj eq_refl Hn).
  - vm_compute in E. discriminate E.
  - destruct H.
  - destruct H.
Defined.

Lemma replay_all_correct_witness :
  ∃ st', replay_all 2 50 "a" None ex_st4 =
    (Ok (entry <$> live (Some 100) 50 (stream_events "a" (streams ex_st4))), st').
Proof.
  apply (replay_all_correct ex_ser ex_config ex_st4 40 50 "a" None
           (live (Some 100) 50 (stream_events "a" (streams ex_st4)))
           ex_config_words ex_reachable).
  - vm_compute. discriminate.
  - done.
  - vm_compute. repeat constructor; discriminate.
  - vm_compute. discriminate.
  - reflexivity.
Defined.

Lemma find_stream_correct_witness :
  (EventStore_find_stream_for_event 50 "7-2" ex_st4).1 = Ok (Some "a"%string).
Proof.
  apply (proj1 (find_stream_correct ex_ser ex_config ex_st4 40 50 "7-2" "a"
                  ex_config_words ex_reachable)).
  eexists. split; [vm_compute; right; left|reflexivity].
Defined.
