(* ===== verification/Utf8.v ===== *)
(** UTF-8 as the Rust standard library implements it: [char], [char::from_u32],
    [len_utf8], [String::push], [str::from_utf8] and [chars().next()].  Bytes
    and scalar values are integers; a [String] is the list of its characters. *)
From stdpp Require Import base list gmap strings.
From Stdlib Require Import ZArith Lia Ascii.
From S2P Require Import Prelude.

(** * Scalar values *)

Definition is_surrogate (c : Z) : bool := (55296 <=? c) && (c <=? 57343).
Definition is_scalarb (c : Z) : bool := (0 <=? c) && (c <=? 1114111) && negb (is_surrogate c).
Definition is_scalar (c : Z) : Prop := is_scalarb c = true.

(** [char::from_u32] *)
Definition from_u32 (c : Z) : option Z := if is_scalarb c then Some c else None.

(** [char::len_utf8] *)
Definition len_utf8 (c : Z) : nat :=
  if c <? 128 then 1 else if c <? 2048 then 2 else if c <? 65536 then 3 else 4.

(** The bytes [String::push] appends. *)
Definition encode_utf8 (c : Z) : list Z :=
  if c <? 128 then [c]
  else if c <? 2048 then [192 + c / 64; 128 + c mod 64]
  else if c <? 65536 then [224 + c / 4096; 128 + (c / 64) mod 64; 128 + c mod 64]
  else [240 + c / 262144; 128 + (c / 4096) mod 64; 128 + (c / 64) mod 64; 128 + c mod 64].

Definition is_cont (b : Z) : bool := (128 <=? b) && (b <=? 191).

(** The first character of a byte string, decoded strictly: no overlong form,
    no surrogate, nothing above [U+10FFFF]. *)
Definition decode_utf8 (bs : list Z) : option (Z * nat) :=
  match bs with
  | [] => None
  | b0 :: r =>
      if (0 <=? b0) && (b0 <? 128) then Some (b0, 1%nat)
      else if (192 <=? b0) && (b0 <? 224) then
        match r with
        | b1 :: _ =>
            let c := (b0 - 192) * 64 + (b1 - 128) in
            if is_cont b1 && (128 <=? c) then Some (c, 2%nat) else None
        | _ => None
        end
      else if (224 <=? b0) && (b0 <? 240) then
        match r with
        | b1 :: b2 :: _ =>
            let c := (b0 - 224) * 4096 + (b1 - 128) * 64 + (b2 - 128) in
            if is_cont b1 && is_cont b2 && (2048 <=? c) && negb (is_surrogate c)
            then Some (c, 3%nat) else None
        | _ => None
        end
      else if (240 <=? b0) && (b0 <? 248) then
        match r with
        | b1 :: b2 :: b3 :: _ =>
            let c := (b0 - 240) * 262144 + (b1 - 128) * 4096 + (b2 - 128) * 64 + (b3 - 128) in
            if is_cont b1 && is_cont b2 && is_cont b3 && (65536 <=? c) && (c <=? 1114111)
            then Some (c, 4%nat) else None
        | _ => None
        end
      else None
  end.

(** [std::str::from_utf8] succeeds *)
Fixpoint from_utf8_loop (fuel : nat) (bs : list Z) : bool :=
  match bs, fuel with
  | [], _ => true
  | _, O => false
  | _, S fuel =>
      match decode_utf8 bs with
      | Some (_, n) => from_utf8_loop fuel (drop n bs)
      | None => false
      end
  end.
Definition from_utf8 (bs : list Z) : bool := from_utf8_loop (length bs) bs.

(** [str::is_char_boundary] at the start of a suffix, from its first byte. *)
Definition starts_on_boundary (rest : list Z) : bool :=
  match rest with [] => true | b :: _ => negb (is_cont b) end.

(** A string literal of the source as its characters. *)
Fixpoint chars_of (s : string) : list Z :=
  match s with
  | EmptyString => []
  | String a s => Z.of_N (N_of_ascii a) :: chars_of s
  end.

(** * Facts *)

Lemma is_scalar_iff c :
  is_scalar c ↔ 0 <= c <= 1114111 ∧ ~ (55296 <= c <= 57343).
Proof.
  unfold is_scalar, is_scalarb, is_surrogate.
  rewrite !andb_true_iff, negb_true_iff, andb_false_iff, !Z.leb_le, !Z.leb_gt. lia.
Qed.

Lemma from_u32_Some c c' : from_u32 c = Some c' ↔ c' = c ∧ is_scalar c.
Proof. unfold from_u32, is_scalar. destruct (is_scalarb c); naive_solver. Qed.

(** [lia] with division and remainder by constants. *)
Ltac dlia := Z.to_euclidean_division_equations; lia.

Ltac utf8_bool :=
  zbool;
  repeat match goal with
  | H : is_cont _ = true |- _ => unfold is_cont in H
  | H : is_surrogate _ = true |- _ => unfold is_surrogate in H
  | H : is_surrogate _ = false |- _ => unfold is_surrogate in H; apply andb_false_iff in H;
      rewrite !Z.leb_gt in H
  end; zbool.

Lemma len_encode_utf8 c : length (encode_utf8 c) = len_utf8 c.
Proof. unfold encode_utf8, len_utf8. by repeat case_match. Qed.

Lemma encode_utf8_ne c : encode_utf8 c ≠ [].
Proof. unfold encode_utf8. by repeat case_match. Qed.

Lemma decode_utf8_sound bs c n :
  decode_utf8 bs = Some (c, n) →
  is_scalar c ∧ n = len_utf8 c ∧ ∃ rest, bs = encode_utf8 c ++ rest.
Proof.
  rewrite is_scalar_iff. unfold decode_utf8. destruct bs as [|b0 r]; [done|].
  destruct (_ && _) eqn:E1; zbool.
  { intros [= <- <-]. unfold len_utf8, encode_utf8.
    rewrite (proj2 (Z.ltb_lt b0 128)) by lia. split_and!; [lia..|done|]. by exists r. }
  assert (E1' : b0 < 0 ∨ 128 <= b0) by
    (apply andb_false_iff in E1 as [?|?]; zbool; lia). clear E1.
  case_goal_if; zbool.
  { destruct r as [|b1 r]; [done|]. cbn zeta. case_goal_if; [|done]. utf8_bool.
    intros [= <- <-]. unfold len_utf8, encode_utf8.
    rewrite (proj2 (Z.ltb_ge _ 128)), (proj2 (Z.ltb_lt _ 2048)) by lia.
    split_and!; [lia..|done|]. exists r. simpl. repeat f_equal; dlia. }
  case_goal_if; zbool.
  { destruct r as [|b1 [|b2 r]]; [done..|]. cbn zeta. case_goal_if; [|done].
    utf8_bool. intros [= <- <-]. unfold len_utf8, encode_utf8.
    rewrite (proj2 (Z.ltb_ge _ 128)), (proj2 (Z.ltb_ge _ 2048)), (proj2 (Z.ltb_lt _ 65536)) by lia.
    split_and!; [lia..|done|].
    exists r. simpl. repeat f_equal; dlia. }
  case_goal_if; zbool; [|done].
  destruct r as [|b1 [|b2 [|b3 r]]]; [done..|]. cbn zeta. case_goal_if; [|done].
  utf8_bool. intros [= <- <-]. unfold len_utf8, encode_utf8.
  rewrite (proj2 (Z.ltb_ge _ 128)), (proj2 (Z.ltb_ge _ 2048)), (proj2 (Z.ltb_ge _ 65536)) by lia.
  split_and!; [lia..|done|]. exists r. simpl. repeat f_equal; dlia.
Qed.

Ltac ltb_true := rewrite (proj2 (Z.ltb_lt _ _)) by dlia.
Ltac ltb_false := rewrite (proj2 (Z.ltb_ge _ _)) by dlia.

Lemma andb_intro (a b : bool) : a = true → b = true → a && b = true.
Proof. by intros -> ->. Qed.

(** Prove a conjunction of comparisons over divisions. *)
Ltac solve_cmp :=
  unfold is_cont, is_surrogate; repeat apply andb_intro;
  try (apply negb_true_iff, andb_false_iff; rewrite !Z.leb_gt; dlia);
  first [apply Z.leb_le | apply Z.ltb_lt]; dlia.
Ltac solve_ncmp := apply andb_false_iff; rewrite ?Z.leb_gt, ?Z.ltb_ge; dlia.

Ltac is_true b := replace b with true by (symmetry; solve_cmp).
Ltac is_false b := replace b with false by (symmetry; solve_ncmp).

Lemma decode_encode_utf8 c rest :
  is_scalar c → decode_utf8 (encode_utf8 c ++ rest) = Some (c, len_utf8 c).
Proof.
  rewrite is_scalar_iff. intros [Hr Hs]. unfold encode_utf8, len_utf8.
  destruct (c <? 128) eqn:E1; zbool; simpl.
  { by is_true ((0 <=? c) && (c <? 128)). }
  destruct (c <? 2048) eqn:E2; zbool; simpl.
  { is_false ((0 <=? 192 + c / 64) && (192 + c / 64 <? 128)).
    is_true ((192 <=? 192 + c / 64) && (192 + c / 64 <? 224)).
    replace ((192 + c / 64 - 192) * 64 + (128 + c mod 64 - 128)) with c by dlia.
    by is_true (is_cont (128 + c mod 64) && (128 <=? c)). }
  destruct (c <? 65536) eqn:E3; zbool; simpl.
  { is_false ((0 <=? 224 + c / 4096) && (224 + c / 4096 <? 128)).
    is_false ((192 <=? 224 + c / 4096) && (224 + c / 4096 <? 224)).
    is_true ((224 <=? 224 + c / 4096) && (224 + c / 4096 <? 240)).
    replace ((224 + c / 4096 - 224) * 4096 + (128 + (c / 64) mod 64 - 128) * 64 +
             (128 + c mod 64 - 128)) with c by dlia.
    case_goal_if; [done|]. exfalso. apply not_true_iff_false in E. apply E. solve_cmp. }
  is_false ((0 <=? 240 + c / 262144) && (240 + c / 262144 <? 128)).
  is_false ((192 <=? 240 + c / 262144) && (240 + c / 262144 <? 224)).
  is_false ((224 <=? 240 + c / 262144) && (240 + c / 262144 <? 240)).
  is_true ((240 <=? 240 + c / 262144) && (240 + c / 262144 <? 248)).
  replace ((240 + c / 262144 - 240) * 262144 + (128 + (c / 4096) mod 64 - 128) * 4096 +
           (128 + (c / 64) mod 64 - 128) * 64 + (128 + c mod 64 - 128)) with c by dlia.
  case_goal_if; [done|]. exfalso. apply not_true_iff_false in E. apply E. solve_cmp.
Qed.

(** The UTF-8 encoding of a character string. *)
Definition utf8_of (cs : list Z) : list Z := cs ≫= encode_utf8.

Definition valid_utf8 (bs : list Z) : Prop := ∃ cs, Forall is_scalar cs ∧ bs = utf8_of cs.

Lemma len_utf8_pos c : (1 ≤ len_utf8 c ≤ 4)%nat.
Proof. unfold len_utf8. repeat case_match; lia. Qed.

Lemma drop_encode_utf8 c rest : drop (len_utf8 c) (encode_utf8 c ++ rest) = rest.
Proof. by rewrite drop_app_length' by (symmetry; apply len_encode_utf8). Qed.

(** Well-formed byte strings, read from the left: [chars().next()] finds the
    first character and leaves a well-formed string. *)
Lemma valid_utf8_cons bs :
  valid_utf8 bs → bs ≠ [] →
  ∃ c rest, is_scalar c ∧ bs = encode_utf8 c ++ rest ∧ valid_utf8 rest ∧
    decode_utf8 bs = Some (c, len_utf8 c).
Proof.
  intros ([|c cs] & Hcs & ->); [done|]. intros _. apply Forall_cons in Hcs as [Hc Hcs].
  exists c, (utf8_of cs). simpl. split_and!; [done..| |].
  - by exists cs.
  - by apply decode_encode_utf8.
Qed.

Lemma encode_utf8_head c b rest rest' :
  is_scalar c → encode_utf8 c ++ rest = b :: rest' →
  if b <? 128 then c = b ∧ encode_utf8 c = [b] ∧ rest = rest'
  else 128 <= c ∧ 192 <= b < 248.
Proof.
  rewrite is_scalar_iff. unfold encode_utf8. intros [Hr Hs].
  repeat case_goal_if; simpl; intros [= ? ?]; zbool; try (split_and!; congruence || lia);
    dlia.
Qed.

Lemma valid_utf8_ascii b rest : b < 128 → valid_utf8 (b :: rest) → valid_utf8 rest.
Proof.
  intros Hb Hv. destruct (valid_utf8_cons _ Hv) as (c & r & Hc & Heq & Hr & _); [done|].
  symmetry in Heq. apply encode_utf8_head in Heq; [|done].
  rewrite (proj2 (Z.ltb_lt _ _)) in Heq by done. by destruct Heq as (_ & _ & <-).
Qed.

(** A suffix that is well-formed starts on a character boundary. *)
Lemma valid_utf8_boundary rest : valid_utf8 rest → starts_on_boundary rest = true.
Proof.
  intros Hv. destruct rest as [|b rest]; [done|].
  destruct (valid_utf8_cons _ Hv) as (c & r & Hc & Heq & _); [done|].
  symmetry in Heq. apply encode_utf8_head in Heq; [|done].
  simpl. unfold is_cont. apply negb_true_iff, andb_false_iff. rewrite !Z.leb_gt.
  case_if_in Heq; zbool; lia.
Qed.

Lemma from_utf8_loop_spec fuel bs :
  (length bs ≤ fuel)%nat → from_utf8_loop fuel bs = true ↔ valid_utf8 bs.
Proof.
  revert bs. induction fuel as [|fuel IH]; intros bs Hlen.
  { destruct bs; [|simpl in Hlen; lia]. split; [by exists []|done]. }
  destruct bs as [|b bs]; [split; [by exists []|done]|]. cbn [from_utf8_loop]. split.
  - destruct (decode_utf8 (b :: bs)) as [[c n]|] eqn:Hd; [|done].
    apply decode_utf8_sound in Hd as (Hc & -> & rest & Heq). rewrite Heq, drop_encode_utf8.
    pose proof (len_utf8_pos c).
    assert (length rest ≤ fuel)%nat.
    { apply (f_equal length) in Heq. rewrite length_app, len_encode_utf8 in Heq. simpl in *. lia. }
    rewrite IH by done. intros (cs & Hcs & ->). exists (c :: cs). split; [by constructor|done].
  - intros Hv. destruct (valid_utf8_cons _ Hv) as (c & rest & Hc & Heq & Hr & ->); [done|].
    rewrite Heq, drop_encode_utf8. apply IH; [|done]. pose proof (len_utf8_pos c).
    apply (f_equal length) in Heq. rewrite length_app, len_encode_utf8 in Heq. simpl in *. lia.
Qed.

Lemma from_utf8_spec bs : from_utf8 bs = true ↔ valid_utf8 bs.
Proof. by apply from_utf8_loop_spec. Qed.

(** Strings are made of bytes. *)
Definition is_byte (b : Z) : Prop := 0 <= b < 256.

Lemma valid_utf8_bytes v : valid_utf8 v → Forall is_byte v.
Proof.
  intros (cs & Hcs & ->). induction Hcs as [|c cs Hc Hcs IH]; simpl; [constructor|]. apply Forall_app. split; [|done].
  apply is_scalar_iff in Hc as [Hr _]. unfold encode_utf8, is_byte.
  repeat case_goal_if; zbool; repeat constructor; try lia; try (pose proof (Z.mod_pos_bound c 64)); dlia.
Qed.
