(* ===== verification/JsonGrammar.v ===== *)
(** The reference the JSON admission passes are measured against: the RFC 8259
    concrete syntax as inductive relations between bytes and syntax trees, and
    the quantities the passes bound as functions of the tree. *)
From stdpp Require Import base list gmap strings.
From Stdlib Require Import ZArith Lia.
From S2P Require Import Prelude Utf8.

(** * Lexical syntax *)

Definition is_ws (b : Z) : bool := (b =? 32) || (b =? 9) || (b =? 13) || (b =? 10).
Definition is_digit (b : Z) : bool := (48 <=? b) && (b <=? 57).
Definition ws (w : list Z) : Prop := Forall (λ b, is_ws b = true) w.
Definition digits (ds : list Z) : Prop := Forall (λ b, is_digit b = true) ds.

Definition hex_value (d : Z) : option Z :=
  if (48 <=? d) && (d <=? 57) then Some (d - 48)
  else if (97 <=? d) && (d <=? 102) then Some (d - 97 + 10)
  else if (65 <=? d) && (d <=? 70) then Some (d - 65 + 10)
  else None.

(** Four hexadecimal digits, most significant first. *)
Definition hex4 (q : list Z) (v : Z) : Prop :=
  ∃ a b c d va vb vc vd, q = [a; b; c; d] ∧
    hex_value a = Some va ∧ hex_value b = Some vb ∧
    hex_value c = Some vc ∧ hex_value d = Some vd ∧
    v = va * 4096 + vb * 256 + vc * 16 + vd.

Definition simple_escape (e : Z) : option Z :=
  if e =? 34 then Some 34
  else if e =? 92 then Some 92
  else if e =? 47 then Some 47
  else if e =? 98 then Some 8
  else if e =? 102 then Some 12
  else if e =? 110 then Some 10
  else if e =? 114 then Some 13
  else if e =? 116 then Some 9
  else None.

(** One character of a string: its bytes in the document, its scalar value. *)
Inductive str_unit : list Z → Z → Prop :=
| unit_plain c : is_scalar c → 32 <= c → c ≠ 34 → c ≠ 92 → str_unit (encode_utf8 c) c
| unit_escape e c : simple_escape e = Some c → str_unit [92; e] c
| unit_hex q v : hex4 q v → is_surrogate v = false → str_unit (92 :: 117 :: q) v
| unit_pair q1 q2 hi lo :
    hex4 q1 hi → hex4 q2 lo → 55296 <= hi <= 56319 → 56320 <= lo <= 57343 →
    str_unit (92 :: 117 :: q1 ++ 92 :: 117 :: q2)
             (65536 + (hi - 55296) * 1024 + (lo - 56320)).

Inductive str_body : list Z → list Z → Prop :=
| body_nil : str_body [] []
| body_cons u c b cs : str_unit u c → str_body b cs → str_body (u ++ b) (c :: cs).

Definition json_string (raw : list Z) (cs : list Z) : Prop :=
  ∃ b, raw = 34 :: b ++ [34] ∧ str_body b cs.

(** A number token, with the digits of its exponent. *)
Inductive int_part : list Z → Prop :=
| int_zero : int_part [48]
| int_nonzero d ds : 49 <= d <= 57 → digits ds → int_part (d :: ds).

Inductive frac_part : list Z → Prop :=
| frac_none : frac_part []
| frac_some ds : ds ≠ [] → digits ds → frac_part (46 :: ds).

Inductive exp_part : list Z → list Z → Prop :=
| exp_none : exp_part [] []
| exp_some e sg ds :
    e = 101 ∨ e = 69 → sg = [] ∨ sg = [43] ∨ sg = [45] → ds ≠ [] → digits ds →
    exp_part (e :: sg ++ ds) ds.

Inductive json_number : list Z → list Z → Prop :=
| number sg ip fp ep ds :
    sg = [] ∨ sg = [45] → int_part ip → frac_part fp → exp_part ep ds →
    json_number (sg ++ ip ++ fp ++ ep) ds.

(** * Syntax trees and documents *)

#[warning="-register-all"]
Inductive json : Type :=
| JNull
| JBool (b : bool)
| JNum (tok : list Z) (exponent : list Z)
| JStr (cs : list Z)
| JArr (js : list json)
| JObj (ms : list (list Z * json)).

Inductive denotes : json → list Z → Prop :=
| D_null : denotes JNull [110; 117; 108; 108]
| D_true : denotes (JBool true) [116; 114; 117; 101]
| D_false : denotes (JBool false) [102; 97; 108; 115; 101]
| D_num tok ds : json_number tok ds → denotes (JNum tok ds) tok
| D_str raw cs : json_string raw cs → denotes (JStr cs) raw
| D_arr_nil w : ws w → denotes (JArr []) (91 :: w ++ [93])
| D_arr js w body : ws w → elements js body → denotes (JArr js) (91 :: w ++ body ++ [93])
| D_obj_nil w : ws w → denotes (JObj []) (123 :: w ++ [125])
| D_obj ms w body : ws w → members ms body → denotes (JObj ms) (123 :: w ++ body ++ [125])
with elements : list json → list Z → Prop :=
| E_last j raw w : denotes j raw → ws w → elements [j] (raw ++ w)
| E_more j raw w1 w2 js body :
    denotes j raw → ws w1 → ws w2 → elements js body →
    elements (j :: js) (raw ++ w1 ++ 44 :: w2 ++ body)
with members : list (list Z * json) → list Z → Prop :=
| M_last name nraw w1 w2 j raw w3 :
    json_string nraw name → ws w1 → ws w2 → denotes j raw → ws w3 →
    members [(name, j)] (nraw ++ w1 ++ 58 :: w2 ++ raw ++ w3)
| M_more name nraw w1 w2 j raw w3 w4 ms body :
    json_string nraw name → ws w1 → ws w2 → denotes j raw → ws w3 → ws w4 →
    members ms body →
    members ((name, j) :: ms) (nraw ++ w1 ++ 58 :: w2 ++ raw ++ w3 ++ 44 :: w4 ++ body).

Scheme denotes_mut := Induction for denotes Sort Prop
with elements_mut := Induction for elements Sort Prop
with members_mut := Induction for members Sort Prop.
Combined Scheme json_mut from denotes_mut, elements_mut, members_mut.

(** A whole document: one value surrounded by whitespace. *)
Definition document (j : json) (bs : list Z) : Prop :=
  ∃ w1 raw w2, bs = w1 ++ raw ++ w2 ∧ ws w1 ∧ denotes j raw ∧ ws w2.

(** * Quantities *)

Definition chars_bytes (cs : list Z) : Z := sum ((λ c, Z.of_nat (len_utf8 c)) <$> cs).

#[global] Arguments chars_bytes : simpl never.

(** Levels of nested containers. *)
Fixpoint depth (j : json) : Z :=
  match j with
  | JArr js => 1 + foldr (λ j m, Z.max (depth j) m) 0 js
  | JObj ms => 1 + foldr (λ p m, Z.max (depth p.2) m) 0 ms
  | _ => 0
  end.

(** Object members and array elements. *)
Fixpoint entries (j : json) : Z :=
  match j with
  | JArr js => foldr (λ j n, 1 + entries j + n) 0 js
  | JObj ms => foldr (λ p n, 1 + entries p.2 + n) 0 ms
  | _ => 0
  end.

(** Bytes in number tokens. *)
Fixpoint num_bytes (j : json) : Z :=
  match j with
  | JNum tok _ => zlen tok
  | JArr js => foldr (λ j n, num_bytes j + n) 0 js
  | JObj ms => foldr (λ p n, num_bytes p.2 + n) 0 ms
  | _ => 0
  end.

(** UTF-8 bytes of the decoded strings and member names. *)
Fixpoint str_bytes (j : json) : Z :=
  match j with
  | JStr cs => chars_bytes cs
  | JArr js => foldr (λ j n, str_bytes j + n) 0 js
  | JObj ms => foldr (λ p n, chars_bytes p.1 + str_bytes p.2 + n) 0 ms
  | _ => 0
  end.

(** The value of an exponent. *)
Definition dec_value (ds : list Z) : Z := foldl (λ v d, v * 10 + (d - 48)) 0 ds.

(** Every number token has at most [max_len] bytes and an exponent of at most
    [max_exp]. *)
Fixpoint numbers_ok (max_len max_exp : Z) (j : json) : bool :=
  match j with
  | JNum tok ds => (zlen tok <=? max_len) && (dec_value ds <=? max_exp)
  | JArr js => forallb (numbers_ok max_len max_exp) js
  | JObj ms => forallb (λ p, numbers_ok max_len max_exp p.2) ms
  | _ => true
  end.

(** No object has two members with the same decoded name. *)
Fixpoint distinct (j : json) : bool :=
  match j with
  | JArr js => forallb distinct js
  | JObj ms => bool_decide (NoDup (fst <$> ms)) && forallb (λ p, distinct p.2) ms
  | _ => true
  end.

(** The resource policy of the admission passes. *)
Record limits : Type := {
  max_depth : Z;
  max_entries : Z;
  max_number_len : Z;
  max_number_bytes : Z;
  max_exponent : Z;
  max_string_bytes : Z;
}.

Definition within (L : limits) (j : json) : Prop :=
  depth j <= max_depth L ∧ entries j <= max_entries L ∧
  numbers_ok (max_number_len L) (max_exponent L) j = true ∧
  num_bytes j <= max_number_bytes L ∧ str_bytes j <= max_string_bytes L.
