(* ===== verification/Scanner.v ===== *)
(** The lexical layer the two JSON scanners share.  [JsonAdmission] in
    [crates/fastmcp-transport/src/codec.rs] and [RawJsonScanner] in
    [crates/fastmcp-protocol/src/jsonrpc.rs] each hold the input bytes and a
    position in them and repeat the same primitives over that cursor; the class
    [Cursor] is that interface, and the primitives are stated over it once.

    Weakest preconditions of the shared scanner primitives, in terms of the
    bytes left to read. *)
From stdpp Require Import base list gmap strings.
From Stdlib Require Import ZArith Lia.
From S2P Require Import Prelude Utf8 JsonGrammar.
(** A scanner state: the bytes of a [&str] and the position of the next one. *)
Class Cursor (S : Type) : Type := {
  cur_bytes : S → list Z;
  cur_pos : S → nat;
  set_pos : nat → S → S;
}.

Class CursorLaws (S : Type) `{Cursor S} : Prop := {
  cur_bytes_set_pos p s : cur_bytes (set_pos p s) = cur_bytes s;
  cur_pos_set_pos p s : cur_pos (set_pos p s) = p;
  set_pos_set_pos p q s : set_pos p (set_pos q s) = set_pos p s;
  set_pos_id s : set_pos (cur_pos s) s = s;
}.

(** [bytes.get(a..b)] *)
Definition slice (bs : list Z) (a b : nat) : option (list Z) :=
  if decide (b ≤ length bs)%nat then Some (take (b - a) (drop a bs)) else None.

Section primitives.
Context {S E : Type} `{Cursor S}.
(** The scanner's [InvalidSyntax]. *)
Variable bad : E.

Definition cur_rest (s : S) : list Z := drop (cur_pos s) (cur_bytes s).

Definition peek : M S E (option Z) := gets (λ s, cur_bytes s !! cur_pos s).

(** [self.position += n] *)
Definition advance (n : nat) : M S E unit := modify (λ s, set_pos (cur_pos s + n) s).

Definition consume (expected : Z) : M S E bool :=
  let! p := peek in
  if bool_decide (p = Some expected) then advance 1 ;! ret true else ret false.

(** The loop of [skip_whitespace], over the bytes at and after the position. *)
Fixpoint skip_ws (rest : list Z) (pos : nat) : nat :=
  match rest with
  | b :: rest => if is_ws b then skip_ws rest (pos + 1) else pos
  | [] => pos
  end.

Definition skip_whitespace : M S E unit :=
  modify (λ s, set_pos (skip_ws (cur_rest s) (cur_pos s)) s).

Fixpoint hex_fold (ds : list Z) (value : Z) : option Z :=
  match ds with
  | [] => Some value
  | d :: ds =>
      match hex_value d with
      | Some nibble => hex_fold ds (Z.lor (Z.land (Z.shiftl value 4) 65535) nibble)
      | None => None
      end
  end.

Definition parse_hex_quad : M S E Z :=
  let! pos := gets cur_pos in
  ok_or (checked_add (Z.of_nat pos) 4) bad ;!
  let! bs := gets cur_bytes in
  let! ds := ok_or (slice bs pos (pos + 4)) bad in
  let! value := ok_or (hex_fold ds 0) bad in
  modify (set_pos (pos + 4)) ;!
  ret value.

Definition parse_unicode_escape : M S E Z :=
  let! first := parse_hex_quad in
  if (55296 <=? first) && (first <=? 56319) then
    let! backslash := consume 92 in
    if negb backslash then fail bad else
    let! u := consume 117 in
    if negb u then fail bad else
    let! second := parse_hex_quad in
    if negb ((56320 <=? second) && (second <=? 57343)) then fail bad else
    ok_or (from_u32 (65536 + Z.shiftl (first - 55296) 10 + (second - 56320))) bad
  else if (56320 <=? first) && (first <=? 57343) then fail bad
  else ok_or (from_u32 first) bad.

Definition parse_literal (literal : list Z) : M S E unit :=
  let! pos := gets cur_pos in
  ok_or (checked_add (Z.of_nat pos) (zlen literal)) bad ;!
  let! bs := gets cur_bytes in
  if bool_decide (slice bs pos (pos + length literal) = Some literal)
  then modify (set_pos (pos + length literal))
  else fail bad.

(** [self.input[self.position..].chars().next()]: slicing off a character
    boundary panics. *)
Definition next_char : M S E Z := λ s,
  if starts_on_boundary (cur_rest s) then
    match decode_utf8 (cur_rest s) with
    | Some (c, _) => (Ok c, s)
    | None => (Err bad, s)
    end
  else (Panic, s).

(** [matches!(self.peek(), Some(b'0'..=b'9'))] *)
Definition peek_digit : M S E bool :=
  let! p := peek in
  ret (match p with Some b => is_digit b | None => false end).
End primitives.

(** [exponent_exceeds_limit] of both scanners: leading zeros do not count, and
    five significant digits are enough to exceed [limit]. *)
Fixpoint skip_zeroes (ds : list Z) : list Z :=
  match ds with
  | d :: ds' => if d =? 48 then skip_zeroes ds' else ds
  | [] => []
  end.

(** A Rust slice has at most [isize::MAX] bytes. *)
Definition isize_max : Z := 2 ^ 63 - 1.

Section facts.
Context {S E : Type} `{CursorLaws S}.
Variable bad : E.
Implicit Types (s : S).

(** [s] after reading [n] more bytes. *)
Definition adv (n : nat) s : S := set_pos (cur_pos s + n) s.

Lemma cur_rest_adv n s : cur_rest (adv n s) = drop n (cur_rest s).
Proof.
  unfold cur_rest, adv. rewrite cur_bytes_set_pos, cur_pos_set_pos, drop_drop. done.
Qed.

Lemma adv_0 s : adv 0 s = s.
Proof. unfold adv. rewrite Nat.add_0_r. apply set_pos_id. Qed.

Lemma adv_adv m n s : adv n (adv m s) = adv (m + n) s.
Proof. unfold adv. by rewrite cur_pos_set_pos, set_pos_set_pos, Nat.add_assoc. Qed.

Lemma cur_pos_adv n s : cur_pos (adv n s) = (cur_pos s + n)%nat.
Proof. apply cur_pos_set_pos. Qed.

Lemma cur_bytes_adv n s : cur_bytes (adv n s) = cur_bytes s.
Proof. apply cur_bytes_set_pos. Qed.

Lemma cur_rest_head s : cur_bytes s !! cur_pos s = head (cur_rest s).
Proof. unfold cur_rest. by rewrite head_lookup, lookup_drop, Nat.add_0_r. Qed.

(** The position is inside a slice. *)
Definition in_bounds s : Prop :=
  (cur_pos s ≤ length (cur_bytes s))%nat ∧ zlen (cur_bytes s) <= isize_max.

Lemma in_bounds_adv n s : in_bounds s → (n ≤ length (cur_rest s))%nat → in_bounds (adv n s).
Proof.
  unfold in_bounds, cur_rest. rewrite cur_pos_adv, cur_bytes_adv, length_drop. lia.
Qed.

(** ** Reading *)

Lemma wp_peek Q (R : E → S → Prop) s : wp peek Q R s ↔ Q (head (cur_rest s)) s.
Proof. unfold peek. by rewrite wp_gets, cur_rest_head. Qed.

Lemma wp_advance n Q (R : E → S → Prop) s : wp (advance n) Q R s ↔ Q tt (adv n s).
Proof. done. Qed.

Lemma wp_consume b Q (R : E → S → Prop) s :
  wp (consume b) Q R s ↔
  if bool_decide (head (cur_rest s) = Some b) then Q true (adv 1 s) else Q false s.
Proof.
  unfold consume. rewrite wp_bind, wp_peek. by case_bool_decide.
Qed.

Lemma skip_ws_spec rest pos : skip_ws rest pos = (pos + length (take_while is_ws rest))%nat.
Proof.
  revert pos. induction rest as [|b rest IH]; intros pos; simpl; [lia|].
  destruct (is_ws b); simpl; [rewrite IH; lia|lia].
Qed.

Lemma wp_skip_whitespace Q (R : E → S → Prop) s :
  wp skip_whitespace Q R s ↔ Q tt (adv (length (take_while is_ws (cur_rest s))) s).
Proof. unfold skip_whitespace. by rewrite wp_modify, skip_ws_spec. Qed.

Lemma wp_peek_digit Q (R : E → S → Prop) s :
  wp peek_digit Q R s ↔
  Q (match head (cur_rest s) with Some b => is_digit b | None => false end) s.
Proof. unfold peek_digit. by rewrite wp_bind, wp_peek, wp_ret. Qed.

Lemma wp_next_char Q (R : E → S → Prop) s :
  valid_utf8 (cur_rest s) → cur_rest s ≠ [] →
  (∀ c rest, is_scalar c → cur_rest s = encode_utf8 c ++ rest → Q c s) →
  wp (next_char bad) Q R s.
Proof.
  intros Hv Hne HQ. unfold wp, next_char. rewrite valid_utf8_boundary by done.
  destruct (valid_utf8_cons _ Hv Hne) as (c & rest & Hc & Heq & _ & ->). by eapply HQ.
Qed.

Lemma slice_rest s n :
  slice (cur_bytes s) (cur_pos s) (cur_pos s + n) =
  if decide (cur_pos s + n ≤ length (cur_bytes s))%nat then Some (take n (cur_rest s)) else None.
Proof.
  unfold slice, cur_rest. by replace (cur_pos s + n - cur_pos s)%nat with n by lia.
Qed.

Lemma checked_add_pos s n :
  in_bounds s → 0 <= n <= 8 → checked_add (Z.of_nat (cur_pos s)) n = Some (Z.of_nat (cur_pos s) + n).
Proof.
  intros [Hp Hl] Hn. unfold checked_add. rewrite (proj2 (Z.leb_le _ _)); [done|].
  unfold zlen, isize_max, usize_max in *. lia.
Qed.

Lemma wp_parse_literal lit Q (R : E → S → Prop) s :
  in_bounds s → zlen lit <= 8 →
  wp (parse_literal bad lit) Q R s ↔
  if bool_decide (take (length lit) (cur_rest s) = lit) then Q tt (adv (length lit) s) else R bad s.
Proof.
  intros Hb Hl. unfold parse_literal. pose proof (zlen_nonneg lit).
  rewrite wp_bind, wp_gets, wp_bind, wp_ok_or, checked_add_pos, wp_bind, wp_gets, slice_rest by
    (done || lia).
  assert (Hlen : length (cur_rest s) = (length (cur_bytes s) - cur_pos s)%nat)
    by (unfold cur_rest; apply length_drop).
  case_decide; repeat case_bool_decide; try done; try congruence.
  assert (length (take (length lit) (cur_rest s)) = length lit) as Hd by congruence.
  rewrite length_take in Hd. destruct Hb. lia.
Qed.

(** ** Hexadecimal escapes *)

Lemma hex_value_range d v : hex_value d = Some v → 0 <= v < 16.
Proof. unfold hex_value. repeat case_goal_if; intros [= <-]; zbool; lia. Qed.

Lemma lor_nibble v n :
  0 <= v < 4096 → 0 <= n < 16 → Z.lor (Z.land (Z.shiftl v 4) 65535) n = v * 16 + n.
Proof.
  intros Hv Hn. change 65535 with (Z.ones 16). rewrite Z.land_ones, Z.shiftl_mul_pow2 by lia.
  change (2 ^ 4) with 16. rewrite Z.mod_small by (change (2 ^ 16) with 65536; lia).
  assert (Z.land (v * 16) n = 0) as Hland.
  { change 16 with (2 ^ 4). rewrite <- Z.shiftl_mul_pow2 by lia.
    apply Z.bits_inj'. intros i Hi. rewrite Z.land_spec, Z.shiftl_spec, Z.bits_0 by lia.
    destruct (Z.lt_ge_cases i 4).
    - by rewrite Z.testbit_neg_r by lia.
    - rewrite (Z.bits_above_log2 n i) by
        (lia || (destruct (Z.eq_dec n 0) as [->|]; [simpl; lia|apply Z.log2_lt_pow2; [lia|]];
         apply (Z.lt_le_trans _ (2 ^ 4)); [simpl; lia|apply Z.pow_le_mono_r; lia])).
      apply andb_false_r. }
  pose proof (Z.add_lor_land (v * 16) n). lia.
Qed.

Lemma hex_fold_spec q v :
  length q = 4%nat → hex_fold q 0 = Some v ↔ hex4 q v.
Proof.
  intros Hlen. destruct q as [|a [|b [|c [|d [|]]]]]; try done. unfold hex4. simpl. split.
  - destruct (hex_value a) as [va|] eqn:Ea; [|done].
    destruct (hex_value b) as [vb|] eqn:Eb; [|done].
    destruct (hex_value c) as [vc|] eqn:Ec; [|done].
    destruct (hex_value d) as [vd|] eqn:Ed; [|done].
    apply hex_value_range in Ea as Ra, Eb as Rb, Ec as Rc, Ed as Rd.
    rewrite (lor_nibble 0 va), (lor_nibble _ vb), (lor_nibble _ vc), (lor_nibble _ vd) by lia.
    intros [= <-]. exists a, b, c, d, va, vb, vc, vd. split_and!; try done. lia.
  - intros (a' & b' & c' & d' & va & vb & vc & vd & [= -> -> -> ->] & Ea & Eb & Ec & Ed & ->).
    rewrite Ea, Eb, Ec, Ed. apply hex_value_range in Ea, Eb, Ec, Ed.
    rewrite (lor_nibble 0 va), (lor_nibble _ vb), (lor_nibble _ vc), (lor_nibble _ vd) by lia. f_equal. lia.
Qed.

Lemma hex4_range q v : hex4 q v → 0 <= v < 65536.
Proof.
  intros (a & b & c & d & va & vb & vc & vd & _ & Ea & Eb & Ec & Ed & ->).
  apply hex_value_range in Ea, Eb, Ec, Ed. lia.
Qed.

Lemma hex4_length q v : hex4 q v → length q = 4%nat.
Proof. by intros (? & ? & ? & ? & ? & ? & ? & ? & -> & _). Qed.

Lemma hex4_det q v v' : hex4 q v → hex4 q v' → v = v'.
Proof.
  intros H1 H2. pose proof (hex4_length _ _ H1) as Hl.
  apply (hex_fold_spec q v) in H1; [|done]. apply (hex_fold_spec q v') in H2; [|done]. congruence.
Qed.

(** The quad at the front of [l], if there is one. *)
Definition hex_at (l : list Z) : option Z :=
  if decide (4 ≤ length l)%nat then hex_fold (take 4 l) 0 else None.

Lemma hex_at_Some l v : hex_at l = Some v ↔ ∃ q, l = q ++ drop 4 l ∧ hex4 q v.
Proof.
  unfold hex_at. case_decide as Hd; split.
  - intros Hf. exists (take 4 l). split; [by rewrite take_drop|].
    apply hex_fold_spec; [rewrite length_take; lia|done].
  - intros (q & Heq & Hq). pose proof (hex4_length _ _ Hq) as Hl.
    rewrite Heq, take_app_length' by done. by apply hex_fold_spec.
  - done.
  - intros (q & Heq & Hq%hex4_length). apply (f_equal length) in Heq.
    rewrite length_app, length_drop in Heq. lia.
Qed.

Lemma wp_parse_hex_quad Q (R : E → S → Prop) s :
  in_bounds s →
  wp (parse_hex_quad bad) Q R s ↔
  match hex_at (cur_rest s) with Some v => Q v (adv 4 s) | None => R bad s end.
Proof.
  intros Hb. unfold parse_hex_quad, hex_at.
  rewrite wp_bind, wp_gets, wp_bind, wp_ok_or, checked_add_pos by (done || lia).
  rewrite wp_bind, wp_gets, wp_bind, wp_ok_or, slice_rest.
  assert (Hlen : length (cur_rest s) = (length (cur_bytes s) - cur_pos s)%nat)
    by (unfold cur_rest; apply length_drop).
  destruct Hb as [Hp _]. repeat case_decide; try lia; [|done].
  rewrite wp_bind, wp_ok_or. by destruct (hex_fold _ _).
Qed.

(** The escape after [\u] at the front of [l]: one quad, or the two of a
    surrogate pair; its scalar value and length. *)
Definition unicode_at (l : list Z) : option (Z * nat) :=
  match hex_at l with
  | None => None
  | Some hi =>
      if (55296 <=? hi) && (hi <=? 56319) then
        match drop 4 l with
        | b :: b' :: l' =>
            if (b =? 92) && (b' =? 117) then
              match hex_at l' with
              | Some lo =>
                  if (56320 <=? lo) && (lo <=? 57343)
                  then Some (65536 + (hi - 55296) * 1024 + (lo - 56320), 10%nat) else None
              | None => None
              end
            else None
        | _ => None
        end
      else if (56320 <=? hi) && (hi <=? 57343) then None
      else Some (hi, 4%nat)
  end.

Lemma hex_at_range l v : hex_at l = Some v → 0 <= v < 65536.
Proof. intros (q & _ & Hq)%hex_at_Some. by eapply hex4_range. Qed.

Lemma hex_at_length l v : hex_at l = Some v → (4 ≤ length l)%nat.
Proof. unfold hex_at. by case_decide. Qed.

Lemma from_u32_scalar c : is_scalar c → from_u32 c = Some c.
Proof. intros. by apply from_u32_Some. Qed.

Lemma wp_parse_unicode_escape Q (R : E → S → Prop) s :
  in_bounds s →
  (∀ c n, unicode_at (cur_rest s) = Some (c, n) → Q c (adv n s)) →
  (unicode_at (cur_rest s) = None → ∀ n, R bad (adv n s)) →
  wp (parse_unicode_escape bad) Q R s.
Proof.
  intros Hb HQ HR. unfold parse_unicode_escape, unicode_at in *.
  rewrite wp_bind, wp_parse_hex_quad by done.
  destruct (hex_at (cur_rest s)) as [v|] eqn:Hv; [|rewrite <- (adv_0 s); by apply HR].
  pose proof (hex_at_range _ _ Hv). pose proof (hex_at_length _ _ Hv).
  pose proof (cur_rest_adv 4 s) as H4.
  destruct ((55296 <=? v) && (v <=? 56319)) eqn:Ehi; cycle 1.
  { destruct ((56320 <=? v) && (v <=? 57343)) eqn:Elo; [by apply HR|].
    rewrite wp_ok_or, from_u32_scalar; [by apply HQ|]. apply is_scalar_iff.
    apply andb_false_iff in Ehi, Elo. rewrite Z.leb_gt, Z.leb_gt in Ehi, Elo. lia. }
  rewrite wp_bind, wp_consume, H4.
  destruct (drop 4 (cur_rest s)) as [|b tl]; [by apply HR|].
  destruct (Z.eqb_spec b 92) as [->|Hne]; cycle 1.
  { rewrite bool_decide_false by (simpl; congruence). simpl. apply HR. by destruct tl. }
  rewrite bool_decide_true by done. simpl negb. cbn match.
  pose proof (cur_rest_adv 1 (adv 4 s)) as H5. rewrite H4, adv_adv in H5. simpl in H5.
  rewrite adv_adv. change (4 + 1)%nat with 5%nat. rewrite wp_bind, wp_consume, H5. simpl.
  destruct tl as [|b tl]; [by apply HR|]. simpl in *.
  destruct (Z.eqb_spec b 117) as [->|Hne]; cycle 1.
  { rewrite bool_decide_false by congruence. simpl. by apply HR. }
  rewrite bool_decide_true by done. simpl negb. cbn match.
  pose proof (cur_rest_adv 1 (adv 5 s)) as H6. rewrite H5, adv_adv in H6. simpl in H6.
  rewrite wp_bind, adv_adv, wp_parse_hex_quad; cycle 1.
  { apply in_bounds_adv; [done|]. apply (f_equal length) in H4.
    rewrite cur_rest_adv, length_drop in H4. simpl in *. lia. }
  simpl Nat.add. rewrite H6, drop_0. destruct (hex_at tl) as [lo|] eqn:Hlo; [|by apply HR].
  pose proof (hex_at_range _ _ Hlo). rewrite adv_adv.
  destruct ((56320 <=? lo) && (lo <=? 57343)) eqn:Elo; simpl; [|by apply HR].
  zbool. rewrite wp_ok_or, Z.shiftl_mul_pow2 by lia. change (2 ^ 10) with 1024.
  rewrite from_u32_scalar; [by apply HQ|]. apply is_scalar_iff. lia.
Qed.
End facts.
