(* ===== verification/JsonLex.v ===== *)
(** String characters and numbers as functions of the bytes at hand, and that
    they decide the grammar of [JsonGrammar]. *)
From stdpp Require Import base list gmap strings.
From Stdlib Require Import ZArith Lia.
From S2P Require Import Prelude Utf8 JsonGrammar Scanner.

(** * String characters *)

(** The character at the front of [l] inside a string: its scalar value and
    length; [None] at the closing quote and where the bytes are no character. *)
Definition unit_at (l : list Z) : option (Z * nat) :=
  match l with
  | [] => None
  | b :: r =>
      if b =? 92 then
        match r with
        | [] => None
        | e :: r' =>
            match simple_escape e with
            | Some c => Some (c, 2%nat)
            | None => if e =? 117 then (λ p, (p.1, S (S p.2))) <$> unicode_at r' else None
            end
        end
      else if (b =? 34) || (b <=? 31) then None
      else if b <=? 127 then Some (b, 1%nat)
      else decode_utf8 l
  end.

Lemma take_app_same {A} (a b : list A) : take (length a) (a ++ b) = a.
Proof. by rewrite take_app_length. Qed.

Lemma unicode_at_sound l c n :
  unicode_at l = Some (c, n) → str_unit (92 :: 117 :: take n l) c ∧ (1 ≤ n ≤ length l)%nat.
Proof.
  unfold unicode_at. destruct (hex_at l) as [hi|] eqn:Hhi; [|done].
  pose proof (hex_at_length _ _ Hhi) as Hlen.
  apply hex_at_Some in Hhi as (q & Heq & Hq). pose proof (hex4_length _ _ Hq) as Hq4.
  destruct (_ && _) eqn:Ehi; zbool; cycle 1.
  { destruct ((56320 <=? hi) && _) eqn:Elo; [done|]. intros [= <- <-]. split; [|lia].
    rewrite Heq, <- Hq4, take_app_same. apply unit_hex; [done|]. unfold is_surrogate.
    apply andb_false_iff in Ehi, Elo. apply andb_false_iff. rewrite Z.leb_gt, Z.leb_gt in *. lia. }
  destruct (drop 4 l) as [|b [|b' l']] eqn:Hd; [done..|].
  destruct ((b =? 92) && _) eqn:Eb; [|done]. zbool. subst b b'.
  destruct (hex_at l') as [lo|] eqn:Hlo; [|done]. pose proof (hex_at_length _ _ Hlo) as Hlen'.
  apply hex_at_Some in Hlo as (q2 & Heq2 & Hq2). pose proof (hex4_length _ _ Hq2) as Hq24.
  destruct ((56320 <=? lo) && _) eqn:Elo; [|done]. zbool. intros [= <- <-].
  assert (length l = (4 + (2 + length l'))%nat)
    by (rewrite Heq, length_app, Hq4; simpl; lia).
  split; [|lia]. rewrite Heq, Heq2.
  replace (take 10 (q ++ 92 :: 117 :: q2 ++ drop 4 l')) with (q ++ 92 :: 117 :: q2).
  - by apply unit_pair.
  - rewrite take_app, Hq4, take_ge by lia. simpl. by rewrite <- Hq24, take_app_same.
Qed.

Lemma encode_utf8_92 c u : is_scalar c → c ≠ 92 → encode_utf8 c ≠ 92 :: u.
Proof.
  intros Hc Hne Heq. pose proof (encode_utf8_head c 92 [] u Hc) as Hh.
  rewrite app_nil_r in Hh. specialize (Hh Heq). simpl in Hh. naive_solver.
Qed.

Lemma hex_at_app q v r : hex4 q v → hex_at (q ++ r) = Some v ∧ drop 4 (q ++ r) = r.
Proof.
  intros Hq. pose proof (hex4_length _ _ Hq) as Hl.
  assert (drop 4 (q ++ r) = r) as Hd by (by rewrite drop_app_length').
  split; [|done]. apply hex_at_Some. exists q. by rewrite Hd.
Qed.

Lemma unicode_at_complete u c r :
  str_unit (92 :: 117 :: u) c → unicode_at (u ++ r) = Some (c, length u).
Proof.
  intros Hu. remember (92 :: 117 :: u) as raw eqn:Hraw.
  destruct Hu as [c Hc H1 H2 H3|e c He|q v Hq Hv|q1 q2 hi lo Hq1 Hq2 Hhi Hlo].
  - by apply encode_utf8_92 in Hraw.
  - injection Hraw as -> <-. done.
  - injection Hraw as ->. destruct (hex_at_app u v r Hq) as [Hh _]. unfold unicode_at. rewrite Hh.
    unfold is_surrogate in Hv. apply andb_false_iff in Hv. rewrite !Z.leb_gt in Hv.
    pose proof (hex4_range _ _ Hq). rewrite (hex4_length _ _ Hq).
    repeat case_goal_if; zbool; try lia; done.
  - injection Hraw as <-. rewrite <- app_assoc.
    destruct (hex_at_app q1 hi ((92 :: 117 :: q2) ++ r) Hq1) as [Hh Hd].
    unfold unicode_at. rewrite Hh, Hd. simpl.
    destruct (hex_at_app q2 lo r Hq2) as [-> _].
    rewrite !(proj2 (Z.leb_le _ _)) by lia. simpl.
    rewrite length_app, (hex4_length _ _ Hq1). simpl. by rewrite (hex4_length _ _ Hq2).
Qed.

Lemma unit_at_sound l c n :
  unit_at l = Some (c, n) → str_unit (take n l) c ∧ (1 ≤ n ≤ length l)%nat.
Proof.
  destruct l as [|b r]; [done|]. unfold unit_at.
  destruct (Z.eqb_spec b 92) as [->|Hb].
  { destruct r as [|e r']; [done|]. destruct (simple_escape e) as [c'|] eqn:He.
    { intros [= <- <-]. split; [|simpl; lia]. simpl. rewrite take_0. by apply unit_escape. }
    destruct (Z.eqb_spec e 117) as [->|]; [|done].
    intros ([c' n'] & Hu & [= -> ->])%fmap_Some.
    apply unicode_at_sound in Hu as [? ?]. split; [done|simpl; lia]. }
  destruct (_ || _) eqn:E; [done|]. zbool.
  destruct (b <=? 127) eqn:E127; zbool.
  { intros [= <- <-]. split; [|simpl; lia]. simpl. rewrite take_0.
    replace [b] with (encode_utf8 b)
      by (unfold encode_utf8; by rewrite (proj2 (Z.ltb_lt _ _)) by lia).
    apply unit_plain; [apply is_scalar_iff; lia|lia..]. }
  intros Hd. apply decode_utf8_sound in Hd as (Hc & -> & rest & Heq).
  pose proof Heq as Hh. symmetry in Hh. apply encode_utf8_head in Hh; [|done].
  rewrite (proj2 (Z.ltb_ge _ _)) in Hh by lia.
  rewrite Heq, <- len_encode_utf8, take_app_same, length_app.
  pose proof (len_utf8_pos c). rewrite len_encode_utf8. split; [|lia]. apply unit_plain; [done|lia..].
Qed.

Lemma unit_at_complete u c r : str_unit u c → unit_at (u ++ r) = Some (c, length u).
Proof.
  intros Hu. pose proof Hu as Hu'. destruct Hu as [c Hc H1 H2 H3|e c He|q v Hq Hv|q1 q2 hi lo].
  - destruct (encode_utf8 c ++ r) as [|b r'] eqn:Heq.
    { apply app_eq_nil in Heq as [? _]. by apply encode_utf8_ne in H. }
    pose proof (decode_encode_utf8 c r Hc) as Hd. rewrite Heq in Hd.
    rewrite len_encode_utf8. apply encode_utf8_head in Heq; [|done].
    unfold unit_at. case_if_in Heq; zbool.
    + destruct Heq as (-> & Henc & ->). rewrite (proj2 (Z.eqb_neq _ _)) by done.
      rewrite (proj2 (Z.eqb_neq b 34)), (proj2 (Z.leb_gt b 31)), (proj2 (Z.leb_le b 127)) by lia.
      simpl. by rewrite <- len_encode_utf8, Henc.
    + rewrite (proj2 (Z.eqb_neq _ _)), (proj2 (Z.eqb_neq _ _)), !(proj2 (Z.leb_gt _ _)) by lia.
      done.
  - unfold unit_at. simpl. by rewrite He.
  - unfold unit_at. simpl. by rewrite (unicode_at_complete _ _ _ Hu').
  - unfold unit_at. simpl. by rewrite (unicode_at_complete _ _ _ Hu').
Qed.

Lemma str_unit_not_quote u c r : str_unit u c → head (u ++ r) ≠ Some 34 ∧ (1 ≤ length u)%nat.
Proof.
  intros Hu. pose proof (unit_at_complete u c r Hu) as Hat. apply unit_at_sound in Hat as Hs.
  split; [|lia]. destruct (u ++ r) as [|b l]; [done|]. simpl. intros [= ->]. done.
Qed.

(** Reading a character leaves well-formed UTF-8. *)
Lemma valid_utf8_ascii_app u r : Forall (λ b, b < 128) u → valid_utf8 (u ++ r) → valid_utf8 r.
Proof. induction 1; simpl; eauto using valid_utf8_ascii. Qed.

Lemma valid_utf8_encode c r : is_scalar c → valid_utf8 (encode_utf8 c ++ r) → valid_utf8 r.
Proof.
  intros Hc Hv. destruct (valid_utf8_cons _ Hv) as (c' & r' & Hc' & Heq & Hr & Hd).
  { intros [? _]%app_eq_nil. by eapply encode_utf8_ne. }
  rewrite decode_encode_utf8 in Hd by done. injection Hd as <- _.
  by apply app_inv_head in Heq as ->.
Qed.

Lemma hex4_ascii q v : hex4 q v → Forall (λ b, b < 128) q.
Proof.
  assert (∀ d w, hex_value d = Some w → d < 128) as Hd
    by (intros d w; unfold hex_value; repeat case_goal_if; intros; zbool; lia || done).
  intros (a & b & c & d & va & vb & vc & vd & -> & Ea & Eb & Ec & Ed & _).
  repeat constructor; eauto.
Qed.

Lemma str_unit_valid u c r : str_unit u c → valid_utf8 (u ++ r) → valid_utf8 r.
Proof.
  destruct 1 as [c Hc H1 H2 H3|e c He|q v Hq Hv|q1 q2 hi lo Hq1 Hq2].
  - by apply valid_utf8_encode.
  - apply valid_utf8_ascii_app. repeat constructor.
    unfold simple_escape in He. repeat case_if_in He; zbool; try lia; done.
  - apply valid_utf8_ascii_app. repeat constructor. by eapply hex4_ascii.
  - apply valid_utf8_ascii_app. repeat constructor. apply Forall_app.
    split; [by eapply hex4_ascii|]. repeat constructor. by eapply hex4_ascii.
Qed.

(** * Numbers *)

Definition starts_with (f : Z → bool) (l : list Z) : bool :=
  match l with b :: _ => f b | [] => false end.

Definition int_at (l : list Z) : option nat :=
  match l with
  | b :: r =>
      if b =? 48 then if starts_with is_digit r then None else Some 1%nat
      else if is_digit b then Some (S (length (take_while is_digit r)))
      else None
  | [] => None
  end.

Definition frac_at (l : list Z) : option nat :=
  match l with
  | b :: r =>
      if b =? 46 then if starts_with is_digit r
                      then Some (S (length (take_while is_digit r))) else None
      else Some 0%nat
  | [] => Some 0%nat
  end.

Definition sign_at (l : list Z) : nat :=
  if starts_with (λ b, (b =? 43) || (b =? 45)) l then 1%nat else 0%nat.

Definition exp_at (l : list Z) : option (nat * list Z) :=
  match l with
  | b :: r =>
      if (b =? 101) || (b =? 69) then
        let ds := drop (sign_at r) r in
        if starts_with is_digit ds
        then Some (S (sign_at r) + length (take_while is_digit ds), take_while is_digit ds)%nat
        else None
      else Some (0%nat, [])
  | [] => Some (0%nat, [])
  end.

Definition minus_at (l : list Z) : nat := if starts_with (Z.eqb 45) l then 1%nat else 0%nat.

(** The number token at the front of [l]: its length and exponent digits. *)
Definition number_at (l : list Z) : option (nat * list Z) :=
  let m := minus_at l in
  match int_at (drop m l) with
  | None => None
  | Some i =>
      match frac_at (drop (m + i) l) with
      | None => None
      | Some f =>
          match exp_at (drop (m + i + f) l) with
          | None => None
          | Some (e, ds) => Some (m + i + f + e, ds)%nat
          end
      end
  end.

Lemma starts_with_ne f l : starts_with f l = true → take_while f l ≠ [].
Proof. destruct l as [|b l]; simpl; [done|]. by intros ->. Qed.

Lemma take_digits l : take (length (take_while is_digit l)) l = take_while is_digit l.
Proof.
  destruct (take_while_split is_digit l) as [Heq _]. rewrite Heq at 2. apply take_app_same.
Qed.

Lemma take_while_le {A} (f : A → bool) l : (length (take_while f l) ≤ length l)%nat.
Proof. induction l as [|x l IH]; simpl; [done|]. destruct (f x); simpl; lia. Qed.

Lemma int_at_sound l i : int_at l = Some i → int_part (take i l) ∧ (1 ≤ i ≤ length l)%nat.
Proof.
  destruct l as [|b r]; [done|]. unfold int_at.
  destruct (Z.eqb_spec b 48) as [->|Hb].
  { case_goal_if; [done|]. intros [= <-]. simpl. rewrite take_0. split; [constructor|lia]. }
  case_goal_if; [|done]. intros [= <-]. simpl. rewrite take_digits.
  pose proof (take_while_le is_digit r). unfold is_digit in E. zbool. split; [|lia].
  constructor; [lia|apply take_while_Forall].
Qed.

Lemma frac_at_sound l i : frac_at l = Some i → frac_part (take i l) ∧ (i ≤ length l)%nat.
Proof.
  destruct l as [|b r]; [intros [= <-]; split; [constructor|done]|]. unfold frac_at.
  destruct (Z.eqb_spec b 46) as [->|Hb]; cycle 1.
  { intros [= <-]. split; [constructor|lia]. }
  case_goal_if; [|done]. intros [= <-]. simpl. rewrite take_digits.
  pose proof (take_while_le is_digit r). split; [|lia].
  constructor; [by apply starts_with_ne|apply take_while_Forall].
Qed.

Lemma sign_at_spec l : let sg := take (sign_at l) l in
  (sg = [] ∨ sg = [43] ∨ sg = [45]) ∧ length sg = sign_at l.
Proof.
  unfold sign_at. destruct l as [|b l]; simpl; [auto|].
  destruct (_ || _) eqn:E; simpl; rewrite ?take_0; [|auto].
  apply orb_true_iff in E as [E|E]; zbool; subst b; auto.
Qed.

Lemma exp_at_sound l i ds : exp_at l = Some (i, ds) → exp_part (take i l) ds ∧ (i ≤ length l)%nat.
Proof.
  destruct l as [|b r]; [intros [= <- <-]; split; [constructor|done]|]. unfold exp_at.
  destruct (_ || _) eqn:Eb; cycle 1.
  { intros [= <- <-]. split; [constructor|lia]. }
  case_goal_if; [|done]. intros [= <- <-].
  destruct (sign_at_spec r) as [Hs Hl]. rewrite length_take in Hl.
  pose proof (take_while_le is_digit (drop (sign_at r) r)) as Hle. rewrite length_drop in Hle.
  split; [|simpl; lia]. simpl. rewrite <- take_take_drop, take_digits.
  constructor; [|done|by apply starts_with_ne|apply take_while_Forall].
  apply orb_true_iff in Eb as [Eb|Eb]; zbool; auto.
Qed.

Lemma number_at_sound l n ds :
  number_at l = Some (n, ds) → json_number (take n l) ds ∧ (1 ≤ n ≤ length l)%nat.
Proof.
  unfold number_at. set (m := minus_at l).
  assert (Hm : (take m l = [] ∨ take m l = [45]) ∧ (m ≤ length l)%nat).
  { subst m. unfold minus_at. destruct l as [|b l]; cbn [starts_with]; [auto|].
    destruct (Z.eqb_spec 45 b) as [<-|]; cbn; rewrite ?take_0; split; auto with lia. }
  destruct Hm as [Hm ?]. clearbody m. destruct (int_at (drop m l)) as [i|] eqn:Hi; [|done].
  destruct (frac_at (drop (m + i) l)) as [f|] eqn:Hf; [|done].
  destruct (exp_at (drop (m + i + f) l)) as [[e ds']|] eqn:He; [|done]. intros [= <- <-].
  apply int_at_sound in Hi as [Hi ?]. apply frac_at_sound in Hf as [Hf ?].
  apply exp_at_sound in He as [He ?]. rewrite length_drop in *. split; [|lia].
  rewrite <- !take_take_drop, <- !app_assoc. by constructor.
Qed.

(** What may follow a value inside a document. *)
Definition value_end (r : list Z) : Prop :=
  head_not (λ b, negb (is_ws b || (b =? 44) || (b =? 93) || (b =? 125))) r.

Lemma value_end_not b r : value_end (b :: r) →
  is_digit b = false ∧ b ≠ 46 ∧ b ≠ 101 ∧ b ≠ 69 ∧ b ≠ 34.
Proof.
  unfold value_end, head_not, is_ws, is_digit. rewrite negb_false_iff, !orb_true_iff, !Z.eqb_eq.
  intros Hb. rewrite andb_false_iff, !Z.leb_gt. lia.
Qed.

Lemma digit_range b : is_digit b = true ↔ 48 <= b <= 57.
Proof. unfold is_digit. rewrite andb_true_iff, !Z.leb_le. done. Qed.

Lemma digit_nonstop b : is_digit b = true → b ≠ 46 ∧ b ≠ 101 ∧ b ≠ 69 ∧ b ≠ 43 ∧ b ≠ 45.
Proof. rewrite digit_range. lia. Qed.

Lemma int_at_complete ip r :
  int_part ip → head_not is_digit r → int_at (ip ++ r) = Some (length ip).
Proof.
  intros Hi Hr. destruct Hi as [|d ds Hd Hds]; simpl.
  - unfold starts_with. destruct r as [|b r]; [done|]. simpl in Hr. by rewrite Hr.
  - rewrite (proj2 (Z.eqb_neq d 48)) by lia. rewrite (proj2 (digit_range d)) by lia.
    by rewrite take_while_app.
Qed.

Lemma starts_with_app f ds r : ds ≠ [] → Forall (λ b, f b = true) ds → starts_with f (ds ++ r) = true.
Proof. intros Hne Hf. destruct Hf; done. Qed.

Lemma frac_at_complete fp r :
  frac_part fp → head_not is_digit r → head_not (Z.eqb 46) r →
  frac_at (fp ++ r) = Some (length fp).
Proof.
  intros Hf Hr H46. destruct Hf as [|ds Hne Hds].
  - destruct r as [|b r]; [done|]. unfold head_not in H46. rewrite Z.eqb_sym in H46.
    unfold frac_at. cbn [app]. by rewrite H46.
  - simpl. rewrite starts_with_app, take_while_app by done. done.
Qed.

Lemma exp_at_complete ep ds r :
  exp_part ep ds → head_not is_digit r → head_not (λ b, (b =? 101) || (b =? 69)) r →
  exp_at (ep ++ r) = Some (length ep, ds).
Proof.
  intros He Hr H69. destruct He as [|e sg ds He Hsg Hne Hds].
  - destruct r as [|b r]; [done|]. unfold head_not in H69.
    unfold exp_at. cbn [app]. by rewrite H69.
  - assert (sign_at ((sg ++ ds) ++ r) = length sg) as Hs.
    { unfold sign_at. destruct Hsg as [->|[-> | ->]]; [|done..]. simpl.
      destruct Hds as [|d ds Hd Hds]; [done|]. simpl. apply digit_nonstop in Hd.
      rewrite (proj2 (Z.eqb_neq d 43)), (proj2 (Z.eqb_neq d 45)) by lia. done. }
    unfold exp_at. simpl. rewrite Hs, <- app_assoc, drop_app_length, starts_with_app by done.
    rewrite take_while_app, length_app by done.
    destruct He as [-> | ->]; done.
Qed.

Lemma number_at_complete raw ds r :
  json_number raw ds → value_end r → number_at (raw ++ r) = Some (length raw, ds).
Proof.
  intros Hn Hv. destruct Hn as [sg ip fp ep ds Hsg Hi Hf He].
  assert (Hr : head_not is_digit r ∧ head_not (Z.eqb 46) r ∧
               head_not (λ b, (b =? 101) || (b =? 69)) r).
  { destruct r as [|b r]; [done|]. apply value_end_not in Hv as (Hd & H46 & H101 & H69 & _).
    unfold head_not. rewrite !(proj2 (Z.eqb_neq _ _)) by congruence. done. }
  destruct Hr as (Hr1 & Hr2 & Hr3).
  assert (He1 : head_not is_digit (ep ++ r) ∧ head_not (Z.eqb 46) (ep ++ r)).
  { destruct He as [|e sg' ds [-> | ->]]; done. }
  assert (Hf1 : head_not is_digit (fp ++ ep ++ r)) by (destruct Hf; [apply He1|done]).
  unfold number_at.
  assert (Hm : minus_at ((sg ++ ip ++ fp ++ ep) ++ r) = length sg).
  { unfold minus_at. destruct Hsg as [-> | ->]; [|done]. destruct Hi as [|d ds' Hd]; [done|].
    cbn [app starts_with]. rewrite (proj2 (Z.eqb_neq 45 d)) by lia. done. }
  rewrite Hm, <- !app_assoc, drop_app_length, int_at_complete by done. cbn match.
  rewrite <- drop_drop, !drop_app_length, frac_at_complete by tauto. cbn match.
  rewrite <- !drop_drop, !drop_app_length, (exp_at_complete ep ds r) by done. do 2 f_equal. rewrite !length_app. lia.
Qed.

Lemma json_number_ascii raw ds : json_number raw ds → Forall (λ b, b < 128) raw.
Proof.
  assert (∀ l, digits l → Forall (λ b, b < 128) l) as Hd.
  { intros l Hl. eapply Forall_impl; [exact Hl|]. intros b Hb%digit_range. simpl. lia. }
  intros [sg ip fp ep ds' Hsg Hi Hf He]. rewrite !Forall_app. split_and!.
  - destruct Hsg as [-> | ->]; repeat constructor.
  - destruct Hi; repeat constructor; [lia|auto].
  - destruct Hf; repeat constructor. auto.
  - destruct He as [|e sg' ds' He Hs]; [done|]. constructor; [lia|]. apply Forall_app.
    split; [|auto]. destruct Hs as [->|[-> | ->]]; repeat constructor.
Qed.

(** ** Exponents *)

Lemma dec_value_acc ds v : foldl (λ v d, v * 10 + (d - 48)) v ds = v * 10 ^ zlen ds + dec_value ds.
Proof.
  unfold dec_value. revert v. induction ds as [|d ds IH]; intros v.
  { rewrite zlen_nil, Z.pow_0_r. simpl. lia. }
  simpl. rewrite IH, (IH (0 * 10 + _)). rewrite zlen_cons, Z.pow_add_r by (lia || apply zlen_nonneg).
  lia.
Qed.

Lemma dec_value_cons d ds : dec_value (d :: ds) = (d - 48) * 10 ^ zlen ds + dec_value ds.
Proof. unfold dec_value. simpl. rewrite dec_value_acc. done. Qed.

Lemma dec_value_nonneg ds : digits ds → 0 <= dec_value ds.
Proof.
  induction 1 as [|d ds Hd Hds IH]; [done|]. rewrite dec_value_cons. apply digit_range in Hd.
  pose proof (zlen_nonneg ds). pose proof (Z.pow_pos_nonneg 10 (zlen ds)). nia.
Qed.

Lemma skip_zeroes_value ds : dec_value (skip_zeroes ds) = dec_value ds.
Proof.
  induction ds as [|d ds IH]; [done|]. simpl. destruct (Z.eqb_spec d 48) as [->|]; [|done].
  rewrite IH, dec_value_cons. lia.
Qed.

Lemma skip_zeroes_digits ds : digits ds → digits (skip_zeroes ds).
Proof. induction 1; simpl; [constructor|]. case_goal_if; [done|]. by constructor. Qed.

Lemma skip_zeroes_head ds : head_not (Z.eqb 48) (skip_zeroes ds).
Proof.
  induction ds as [|d ds IH]; simpl; [done|]. case_goal_if; [done|].
  unfold head_not. by rewrite Z.eqb_sym.
Qed.

(** Skipping leading zeros and cutting at [k] significant digits decides the
    comparison with a limit below [10 ^ k]. *)
Lemma exponent_cut k limit ds :
  digits ds → 0 <= k → limit < 10 ^ k →
  (if k <? zlen (skip_zeroes ds) then true else limit <? dec_value (skip_zeroes ds))
  = (limit <? dec_value ds).
Proof.
  intros Hds Hk Hl. rewrite skip_zeroes_value. destruct (_ <? zlen _) eqn:E; [|done]. zbool.
  symmetry. apply Z.ltb_lt. rewrite <- skip_zeroes_value.
  pose proof (skip_zeroes_head ds) as Hh. apply skip_zeroes_digits in Hds.
  revert E Hh. destruct Hds as [|d l Hd Hds]; intros E Hh; [rewrite zlen_nil in E; lia|].
  unfold head_not in Hh. zbool. apply digit_range in Hd. rewrite zlen_cons in E.
  rewrite dec_value_cons. apply dec_value_nonneg in Hds.
  pose proof (Z.pow_le_mono_r 10 k (zlen l)). nia.
Qed.

(** ** Steps shared by the scanners' number parsers *)

Lemma bool_decide_Some_eqb (a b : Z) : bool_decide (Some a = Some b) = (a =? b).
Proof. destruct (Z.eqb_spec a b); [rewrite bool_decide_true|rewrite bool_decide_false]; congruence. Qed.

Section shared.
Context {S E : Type} `{CursorLaws S}.

Lemma wp_consume_minus (Q : bool → S → Prop) (R : E → S → Prop) s :
  (∀ b, Q b (adv (minus_at (cur_rest s)) s)) → wp (consume 45) Q R s.
Proof.
  intros HQ. rewrite wp_consume. unfold minus_at in HQ.
  destruct (cur_rest s) as [|b r]; cbn [head starts_with] in *.
  - specialize (HQ false). by rewrite adv_0 in HQ.
  - rewrite bool_decide_Some_eqb, Z.eqb_sym.
    destruct (45 =? b); [done|]. specialize (HQ false). by rewrite adv_0 in HQ.
Qed.

Lemma head_digit (s : S) :
  starts_with is_digit (cur_rest s) =
  match head (cur_rest s) with Some b => is_digit b | None => false end.
Proof. by destruct (cur_rest s). Qed.
End shared.
