(* ===== verification/JsonFacts.v ===== *)
(** Facts about the grammar the completeness proofs share: the counted
    quantities are not negative, and which bytes a value can start with.

    The grammar is unambiguous: a document has one reading. *)
From stdpp Require Import base list gmap strings.
From Stdlib Require Import ZArith Lia.
From S2P Require Import Prelude Utf8 JsonGrammar Scanner JsonLex.
Section nested.
Variable P : json → Prop.
Hypothesis HNull : P JNull.
Hypothesis HBool : ∀ b, P (JBool b).
Hypothesis HNum : ∀ t e, P (JNum t e).
Hypothesis HStr : ∀ cs, P (JStr cs).
Hypothesis HArr : ∀ js, Forall P js → P (JArr js).
Hypothesis HObj : ∀ ms, Forall (λ p, P p.2) ms → P (JObj ms).

Lemma json_nested_ind : ∀ j, P j.
Proof.
  fix IH 1. intros [| | | |js|ms]; [done..| |].
  - apply HArr. induction js; constructor; auto.
  - apply HObj. induction ms; constructor; auto.
Qed.
End nested.

Lemma chars_bytes_nonneg cs : 0 <= chars_bytes cs.
Proof. induction cs as [|c cs IH]; [done|]. change (0 <= Z.of_nat (len_utf8 c) + chars_bytes cs). lia. Qed.

Lemma entries_nonneg j : 0 <= entries j.
Proof.
  induction j as [| | | |js IH|ms IH] using json_nested_ind; try done;
    induction IH; simpl in *; lia.
Qed.

Lemma num_bytes_nonneg j : 0 <= num_bytes j.
Proof.
  induction j as [| |t e| |js IH|ms IH] using json_nested_ind; try done;
    [apply zlen_nonneg|..]; induction IH; simpl in *; lia.
Qed.

Lemma str_bytes_nonneg j : 0 <= str_bytes j.
Proof.
  induction j as [| | |cs|js IH|ms IH] using json_nested_ind; try done;
    [apply chars_bytes_nonneg|..]; induction IH as [|x l]; simpl in *; [done|lia|done|].
  pose proof (chars_bytes_nonneg x.1). lia.
Qed.

(** ** First bytes *)

(** The first byte of a value. *)
Definition value_start (b : Z) : bool :=
  (b =? 123) || (b =? 91) || (b =? 34) || (b =? 116) || (b =? 102) || (b =? 110) ||
  (b =? 45) || is_digit b.

Lemma value_start_not b : value_start b = true → is_ws b = false ∧ b ≠ 93 ∧ b ≠ 125.
Proof.
  unfold value_start, is_ws, is_digit.
  rewrite !orb_true_iff, !orb_false_iff, andb_true_iff, !Z.eqb_eq, !Z.eqb_neq, !Z.leb_le. lia.
Qed.

Lemma json_number_head raw ds :
  json_number raw ds → ∃ b r, raw = b :: r ∧ (b = 45 ∨ 48 <= b <= 57).
Proof.
  intros [sg ip fp ep ds' Hsg Hi Hf He]. destruct Hsg as [-> | ->].
  - destruct Hi as [|d l Hd]; simpl; do 2 eexists; (split; [done|lia]).
  - do 2 eexists. split; [done|lia].
Qed.

Lemma denotes_head j raw : denotes j raw → ∃ b r, raw = b :: r ∧ value_start b = true.
Proof.
  destruct 1 as [| | |tok ds Hn|raw cs Hs|w Hw|js w body Hw He|w Hw|ms w body Hw Hm];
    try (by eexists _, _).
  - apply json_number_head in Hn as (b & r & -> & Hb). exists b, r. split; [done|].
    unfold value_start. rewrite !orb_true_iff, !Z.eqb_eq, (digit_range b). tauto.
  - destruct Hs as (b & -> & _). by eexists _, _.
Qed.

Lemma elements_head js body : elements js body → ∃ b r, body = b :: r ∧ value_start b = true.
Proof.
  destruct 1 as [j raw w Hj|j raw w1 w2 js body Hj]; apply denotes_head in Hj as (b & r & -> & Hb);
    by eexists _, _.
Qed.

Lemma members_head ms body : members ms body → ∃ r, body = 34 :: r.
Proof. destruct 1 as [? ? ? ? ? ? ? (b & -> & _)|? ? ? ? ? ? ? ? ? ? (b & -> & _)]; by eexists. Qed.

(** ** What follows a value *)

Lemma value_end_ws w b rest : ws w → b = 44 ∨ b = 93 ∨ b = 125 → value_end (w ++ b :: rest).
Proof.
  intros Hw Hb. destruct Hw as [|x w Hx Hw]; unfold value_end; simpl.
  - by destruct Hb as [->|[-> | ->]].
  - by rewrite Hx.
Qed.

Lemma value_end_ws_nil w : ws w → value_end w.
Proof. intros Hw. destruct Hw as [|x w Hx Hw]; unfold value_end; simpl; [done|by rewrite Hx]. Qed.

Lemma app_take_eq {A} (a a' r r' : list A) : a ++ r = a' ++ r' → length a = length a' → a = a' ∧ r = r'.
Proof. intros Heq Hl. by apply app_inj_1. Qed.

Lemma ws_unique w w' r r' :
  ws w → ws w' → head_not is_ws r → head_not is_ws r' → w ++ r = w' ++ r' → w = w' ∧ r = r'.
Proof.
  intros Hw Hw' Hr Hr' Heq. apply app_inj_1; [|done].
  rewrite <- (take_while_app is_ws w r), <- (take_while_app is_ws w' r') by done. by rewrite Heq.
Qed.

Lemma str_body_unique b cs b' cs' r r' :
  str_body b cs → str_body b' cs' → b ++ 34 :: r = b' ++ 34 :: r' → b = b' ∧ cs = cs' ∧ r = r'.
Proof.
  intros Hb. revert b' cs'. induction Hb as [|u c b cs Hu Hb IH]; intros b' cs' Hb' Heq.
  - destruct Hb' as [|u' c' b' cs' Hu']; [naive_solver|]. rewrite <- app_assoc in Heq.
    destruct (str_unit_not_quote u' c' (b' ++ 34 :: r') Hu') as [Hq _]. by rewrite <- Heq in Hq.
  - rewrite <- app_assoc in Heq. destruct Hb' as [|u' c' b' cs' Hu' Hb'].
    + destruct (str_unit_not_quote u c (b ++ 34 :: r) Hu) as [Hq _]. by rewrite Heq in Hq.
    + rewrite <- app_assoc in Heq.
      pose proof (unit_at_complete u c (b ++ 34 :: r) Hu) as H1.
      rewrite Heq, (unit_at_complete u' c' _ Hu') in H1. injection H1 as -> Hl.
      apply app_inj_1 in Heq as [-> Heq]; [|done]. destruct (IH _ _ Hb' Heq) as (-> & -> & ->). done.
Qed.

Lemma json_string_unique raw cs raw' cs' r r' :
  json_string raw cs → json_string raw' cs' → raw ++ r = raw' ++ r' → raw = raw' ∧ cs = cs' ∧ r = r'.
Proof.
  intros (b & -> & Hb) (b' & -> & Hb') Heq. simpl in Heq. injection Heq as Heq.
  rewrite <- !app_assoc in Heq. simpl in Heq.
  by destruct (str_body_unique _ _ _ _ _ _ Hb Hb' Heq) as (-> & -> & ->).
Qed.

Lemma json_string_head raw cs : json_string raw cs → ∃ r, raw = 34 :: r.
Proof. intros (b & -> & _). by eexists. Qed.

Definition value_unique (j : json) (raw : list Z) : Prop := ∀ j' raw' r r',
  denotes j' raw' → value_end r → value_end r' → raw ++ r = raw' ++ r' →
  j = j' ∧ raw = raw' ∧ r = r'.
Definition elements_unique (js : list json) (body : list Z) : Prop := ∀ js' body' r r',
  elements js' body' → body ++ 93 :: r = body' ++ 93 :: r' → js = js' ∧ body = body' ∧ r = r'.
Definition members_unique (ms : list (list Z * json)) (body : list Z) : Prop := ∀ ms' body' r r',
  members ms' body' → body ++ 125 :: r = body' ++ 125 :: r' → ms = ms' ∧ body = body' ∧ r = r'.

(** The first byte tells which production a value comes from. *)
Lemma denotes_by_head j raw r b l :
  denotes j raw → raw ++ r = b :: l →
  match j with
  | JNull => b = 110 ∧ raw = [110; 117; 108; 108]
  | JBool true => b = 116 ∧ raw = [116; 114; 117; 101]
  | JBool false => b = 102 ∧ raw = [102; 97; 108; 115; 101]
  | JNum tok ds => (b = 45 ∨ 48 <= b <= 57) ∧ raw = tok ∧ json_number tok ds
  | JStr cs => b = 34 ∧ json_string raw cs
  | JArr js => b = 91 ∧ ∃ w, ws w ∧
      ((js = [] ∧ raw = 91 :: w ++ [93]) ∨ ∃ body, elements js body ∧ raw = 91 :: w ++ body ++ [93])
  | JObj ms => b = 123 ∧ ∃ w, ws w ∧
      ((ms = [] ∧ raw = 123 :: w ++ [125]) ∨ ∃ body, members ms body ∧ raw = 123 :: w ++ body ++ [125])
  end.
Proof.
  intros Hj Heq. destruct Hj as [| | |tok ds Hn|raw cs Hs|w Hw|js w body Hw He|w Hw|ms w body Hw Hm];
    try (simpl in Heq; injection Heq as <- _); try done; try (split; [done|eauto 8]).
  - destruct (json_number_head _ _ Hn) as (b' & r' & -> & Hb). simpl in Heq. injection Heq as <- _. done.
  - destruct (json_string_head _ _ Hs) as (r' & ->). simpl in Heq. injection Heq as <- _. done.
Qed.

(** Values that start alike come from the same production. *)
Lemma denotes_same_head j raw j' raw' r r' :
  denotes j raw → denotes j' raw' → raw ++ r = raw' ++ r' →
  match j, j' with
  | JNull, JNull | JNum _ _, JNum _ _ | JStr _, JStr _ | JArr _, JArr _ | JObj _, JObj _ => True
  | JBool b, JBool b' => b = b'
  | _, _ => False
  end.
Proof.
  intros Hj Hj' Heq. destruct (denotes_head _ _ Hj) as (b & l & -> & _). simpl in Heq.
  pose proof (denotes_by_head j (b :: l) r b (l ++ r) Hj eq_refl) as H1.
  pose proof (denotes_by_head j' raw' r' b (l ++ r) Hj' (eq_sym Heq)) as H2.
  destruct j as [|[]| | | |], j' as [|[]| | | |]; try done; simpl in *; lia.
Qed.

Lemma unique_scalar j raw : denotes j raw →
  match j with JArr _ | JObj _ => False | _ => True end → value_unique j raw.
Proof.
  intros Hj Hk j' raw' r r' Hj' Hr Hr' Heq. pose proof (denotes_same_head _ _ _ _ _ _ Hj Hj' Heq) as Hs.
  destruct (denotes_head _ _ Hj) as (b & l & Hb & _). rewrite Hb in Heq. simpl in Heq.
  pose proof (denotes_by_head j raw r b (l ++ r) Hj) as H1. rewrite Hb in H1. specialize (H1 eq_refl).
  pose proof (denotes_by_head j' raw' r' b (l ++ r) Hj' (eq_sym Heq)) as H2.
  change (b :: l ++ r) with ((b :: l) ++ r) in Heq. rewrite <- Hb in *.
  destruct j as [|x|tok ds|cs| |], j' as [|x'|tok' ds'|cs'| |]; try done.
  - destruct H1 as [_ ->], H2 as [_ ->]. apply app_inj_1 in Heq as [_ ->]; done.
  - subst x'. destruct x; destruct H1 as [_ ->], H2 as [_ ->]; apply app_inj_1 in Heq as [_ ->]; done.
  - destruct H1 as (_ & <- & Hn), H2 as (_ & <- & Hn').
    pose proof (number_at_complete raw ds r Hn Hr) as Ha.
    rewrite Heq, (number_at_complete raw' ds' r' Hn' Hr') in Ha. injection Ha as Hl ->.
    apply app_inj_1 in Heq as [-> ->]; done.
  - destruct H1 as [_ H1], H2 as [_ H2].
    by destruct (json_string_unique _ _ _ _ _ _ H1 H2 Heq) as (-> & -> & ->).
Qed.

(** After the opening bracket: the two readings skip the same whitespace. *)
Lemma open_unique o c w w' a a' r r' :
  ws w → ws w' → head_not is_ws (a ++ c :: r) → head_not is_ws (a' ++ c :: r') →
  (o :: w ++ a ++ [c]) ++ r = (o :: w' ++ a' ++ [c]) ++ r' →
  w = w' ∧ a ++ c :: r = a' ++ c :: r'.
Proof.
  intros Hw Hw' Ha Ha' Heq. simpl in Heq. injection Heq as Heq. rewrite <- !app_assoc in Heq.
  simpl in Heq. by apply ws_unique in Heq.
Qed.

Lemma head_not_elements js body r : elements js body → head_not is_ws (body ++ r) ∧ head (body ++ r) ≠ Some 93.
Proof.
  intros He. destruct (elements_head _ _ He) as (b & l & -> & Hb).
  apply value_start_not in Hb as (? & ? & _). simpl. split; [done|congruence].
Qed.

Lemma head_not_members ms body r : members ms body → head_not is_ws (body ++ r) ∧ head (body ++ r) ≠ Some 125.
Proof. intros Hm. by destruct (members_head _ _ Hm) as (l & ->). Qed.

Lemma denotes_array j raw raw' r r' js :
  denotes (JArr js) raw' → denotes j raw → raw' ++ r' = raw ++ r →
  ∃ js', j = JArr js' ∧ ∃ w, ws w ∧
    ((js' = [] ∧ raw = 91 :: w ++ [93]) ∨ ∃ body, elements js' body ∧ raw = 91 :: w ++ body ++ [93]).
Proof.
  intros Ha Hj Heq. pose proof (denotes_same_head _ _ _ _ _ _ Ha Hj Heq) as Hs.
  destruct j as [| | | |js'|]; try done. exists js'. split; [done|].
  destruct (denotes_head _ _ Hj) as (b & l & -> & _).
  by destruct (denotes_by_head _ _ r b (l ++ r) Hj eq_refl).
Qed.

Lemma denotes_object j raw raw' r r' ms :
  denotes (JObj ms) raw' → denotes j raw → raw' ++ r' = raw ++ r →
  ∃ ms', j = JObj ms' ∧ ∃ w, ws w ∧
    ((ms' = [] ∧ raw = 123 :: w ++ [125]) ∨ ∃ body, members ms' body ∧ raw = 123 :: w ++ body ++ [125]).
Proof.
  intros Ha Hj Heq. pose proof (denotes_same_head _ _ _ _ _ _ Ha Hj Heq) as Hs.
  destruct j as [| | | | |ms']; try done. exists ms'. split; [done|].
  destruct (denotes_head _ _ Hj) as (b & l & -> & _).
  by destruct (denotes_by_head _ _ r b (l ++ r) Hj eq_refl).
Qed.

Lemma unique_arr_nil w : ws w → value_unique (JArr []) (91 :: w ++ [93]).
Proof.
  intros Hw j' raw' r r' Hj' Hr Hr' Heq.
  destruct (denotes_array _ _ _ _ _ _ (D_arr_nil w Hw) Hj' Heq) as (js' & -> & w' & Hw' & [[-> ->]|(body & He & ->)]).
  - apply (open_unique 91 93 w w' [] []) in Heq as [-> Heq]; try done. by injection Heq as ->.
  - destruct (head_not_elements _ _ (93 :: r') He) as [H1 H2].
    apply (open_unique 91 93 w w' [] body) in Heq as [-> Heq]; try done. by rewrite <- Heq in H2.
Qed.

Lemma unique_arr js w body :
  ws w → elements js body → elements_unique js body → value_unique (JArr js) (91 :: w ++ body ++ [93]).
Proof.
  intros Hw He IH j' raw' r r' Hj' Hr Hr' Heq.
  destruct (denotes_array _ _ _ _ _ _ (D_arr js w body Hw He) Hj' Heq)
    as (js' & -> & w' & Hw' & [[-> ->]|(body' & He' & ->)]);
    destruct (head_not_elements _ _ (93 :: r) He) as [H1 H2].
  - apply (open_unique 91 93 w w' body []) in Heq as [-> Heq]; try done. by rewrite Heq in H2.
  - destruct (head_not_elements _ _ (93 :: r') He') as [H1' H2'].
    apply (open_unique 91 93 w w' body body') in Heq as [-> Heq]; try done.
    by destruct (IH _ _ _ _ He' Heq) as (-> & -> & ->).
Qed.

Lemma unique_obj_nil w : ws w → value_unique (JObj []) (123 :: w ++ [125]).
Proof.
  intros Hw j' raw' r r' Hj' Hr Hr' Heq.
  destruct (denotes_object _ _ _ _ _ _ (D_obj_nil w Hw) Hj' Heq) as (ms' & -> & w' & Hw' & [[-> ->]|(body & He & ->)]).
  - apply (open_unique 123 125 w w' [] []) in Heq as [-> Heq]; try done. by injection Heq as ->.
  - destruct (head_not_members _ _ (125 :: r') He) as [H1 H2].
    apply (open_unique 123 125 w w' [] body) in Heq as [-> Heq]; try done. by rewrite <- Heq in H2.
Qed.

Lemma unique_obj ms w body :
  ws w → members ms body → members_unique ms body → value_unique (JObj ms) (123 :: w ++ body ++ [125]).
Proof.
  intros Hw He IH j' raw' r r' Hj' Hr Hr' Heq.
  destruct (denotes_object _ _ _ _ _ _ (D_obj ms w body Hw He) Hj' Heq)
    as (ms' & -> & w' & Hw' & [[-> ->]|(body' & He' & ->)]);
    destruct (head_not_members _ _ (125 :: r) He) as [H1 H2].
  - apply (open_unique 123 125 w w' body []) in Heq as [-> Heq]; try done. by rewrite Heq in H2.
  - destruct (head_not_members _ _ (125 :: r') He') as [H1' H2'].
    apply (open_unique 123 125 w w' body body') in Heq as [-> Heq]; try done.
    by destruct (IH _ _ _ _ He' Heq) as (-> & -> & ->).
Qed.

Lemma denotes_not_ws j raw r : denotes j raw → head_not is_ws (raw ++ r).
Proof.
  intros Hj. destruct (denotes_head _ _ Hj) as (b & l & -> & Hb). by apply value_start_not in Hb as (? & _).
Qed.

Lemma unique_elements_last j raw w :
  denotes j raw → value_unique j raw → ws w → elements_unique [j] (raw ++ w).
Proof.
  intros Hj IH Hw js' body' r r' He Heq. rewrite <- app_assoc in Heq.
  destruct He as [j' raw' w' Hj' Hw'|j' raw' w1 w2 js body Hj' Hw1 Hw2 He];
    repeat (rewrite <- app_assoc in Heq; simpl in Heq).
  - eapply IH in Heq as (-> & -> & Heq); [|exact Hj'|apply value_end_ws; tauto..]. apply ws_unique in Heq as [-> Heq]; try done. by injection Heq as ->.
  - eapply IH in Heq as (-> & -> & Heq); [|exact Hj'|apply value_end_ws; tauto..]. apply ws_unique in Heq as [_ Heq]; done.
Qed.

Lemma unique_elements_more j raw w1 w2 js body :
  denotes j raw → value_unique j raw → ws w1 → ws w2 → elements js body → elements_unique js body →
  elements_unique (j :: js) (raw ++ w1 ++ 44 :: w2 ++ body).
Proof.
  intros Hj IH Hw1 Hw2 He IHe js' body' r r' He' Heq. repeat (rewrite <- app_assoc in Heq; simpl in Heq).
  destruct He' as [j' raw' w' Hj' Hw'|j' raw' w1' w2' js' body' Hj' Hw1' Hw2' He'];
    repeat (rewrite <- app_assoc in Heq; simpl in Heq).
  - eapply IH in Heq as (-> & -> & Heq); [|exact Hj'|apply value_end_ws; tauto..]. apply ws_unique in Heq as [_ Heq]; done.
  - eapply IH in Heq as (-> & -> & Heq); [|exact Hj'|apply value_end_ws; tauto..]. apply ws_unique in Heq as [-> Heq]; try done. injection Heq as Heq.
    apply ws_unique in Heq as [-> Heq]; try done; [|by eapply head_not_elements..].
    by destruct (IHe _ _ _ _ He' Heq) as (-> & -> & ->).
Qed.

(** A member up to the end of its value is read in one way. *)
Lemma member_unique name nraw w1 w2 j raw r name' nraw' w1' w2' j' raw' r' :
  json_string nraw name → ws w1 → ws w2 → denotes j raw → value_unique j raw → value_end r →
  json_string nraw' name' → ws w1' → ws w2' → denotes j' raw' → value_end r' →
  nraw ++ w1 ++ 58 :: w2 ++ raw ++ r = nraw' ++ w1' ++ 58 :: w2' ++ raw' ++ r' →
  name = name' ∧ nraw = nraw' ∧ w1 = w1' ∧ w2 = w2' ∧ j = j' ∧ raw = raw' ∧ r = r'.
Proof.
  intros Hn Hw1 Hw2 Hj IH Hr Hn' Hw1' Hw2' Hj' Hr' Heq.
  apply (json_string_unique _ _ _ _ _ _ Hn Hn') in Heq as (-> & -> & Heq).
  apply ws_unique in Heq as [-> Heq]; try done. injection Heq as Heq.
  apply ws_unique in Heq as [-> Heq]; try done; [|by eapply denotes_not_ws..].
  by destruct (IH _ _ _ _ Hj' Hr Hr' Heq) as (-> & -> & ->).
Qed.

Lemma unique_members_last name nraw w1 w2 j raw w3 :
  json_string nraw name → ws w1 → ws w2 → denotes j raw → value_unique j raw → ws w3 →
  members_unique [(name, j)] (nraw ++ w1 ++ 58 :: w2 ++ raw ++ w3).
Proof.
  intros Hn Hw1 Hw2 Hj IH Hw3 ms' body' r r' Hm Heq.
  destruct Hm as [name' nraw' w1' w2' j' raw' w3' Hn' Hw1' Hw2' Hj' Hw3'
                 |name' nraw' w1' w2' j' raw' w3' w4' ms' body' Hn' Hw1' Hw2' Hj' Hw3' Hw4' Hms'];
    repeat (rewrite <- app_assoc in Heq; simpl in Heq);
    (apply (member_unique name nraw w1 w2 j raw _ name' nraw' w1' w2' j' raw') in Heq
       as (-> & -> & -> & -> & -> & -> & Heq); try done; try (apply value_end_ws; tauto));
    apply ws_unique in Heq as [-> Heq]; try done.
  by injection Heq as ->.
Qed.

Lemma unique_members_more name nraw w1 w2 j raw w3 w4 ms body :
  json_string nraw name → ws w1 → ws w2 → denotes j raw → value_unique j raw → ws w3 → ws w4 →
  members ms body → members_unique ms body →
  members_unique ((name, j) :: ms) (nraw ++ w1 ++ 58 :: w2 ++ raw ++ w3 ++ 44 :: w4 ++ body).
Proof.
  intros Hn Hw1 Hw2 Hj IH Hw3 Hw4 Hms IHm ms' body' r r' Hm Heq.
  destruct Hm as [name' nraw' w1' w2' j' raw' w3' Hn' Hw1' Hw2' Hj' Hw3'
                 |name' nraw' w1' w2' j' raw' w3' w4' ms' body' Hn' Hw1' Hw2' Hj' Hw3' Hw4' Hms'];
    repeat (rewrite <- app_assoc in Heq; simpl in Heq);
    (apply (member_unique name nraw w1 w2 j raw _ name' nraw' w1' w2' j' raw') in Heq
       as (-> & -> & -> & -> & -> & -> & Heq); try done; try (apply value_end_ws; tauto));
    apply ws_unique in Heq as [-> Heq]; try done.
  injection Heq as Heq. apply ws_unique in Heq as [-> Heq]; try done; [|by eapply head_not_members..].
  by destruct (IHm _ _ _ _ Hms' Heq) as (-> & -> & ->).
Qed.

Lemma grammar_unique :
  (∀ j raw, denotes j raw → value_unique j raw) ∧
  (∀ js body, elements js body → elements_unique js body) ∧
  (∀ ms body, members ms body → members_unique ms body).
Proof.
  apply json_mut; intros.
  - by apply unique_scalar; [constructor|].
  - by apply unique_scalar; [constructor|].
  - by apply unique_scalar; [constructor|].
  - by apply unique_scalar; [constructor|].
  - by apply unique_scalar; [constructor|].
  - by apply unique_arr_nil.
  - by apply unique_arr.
  - by apply unique_obj_nil.
  - by apply unique_obj.
  - by apply unique_elements_last.
  - by apply unique_elements_more.
  - by apply unique_members_last.
  - by apply unique_members_more.
Qed.

Lemma denotes_unique j j' raw raw' r r' :
  denotes j raw → denotes j' raw' → value_end r → value_end r' → raw ++ r = raw' ++ r' →
  j = j' ∧ raw = raw' ∧ r = r'.
Proof. intros Hj. by apply (proj1 grammar_unique). Qed.

Lemma document_unique j j' bs : document j bs → document j' bs → j = j'.
Proof.
  intros (w1 & raw & w2 & -> & Hw1 & Hj & Hw2) (w1' & raw' & w2' & Heq & Hw1' & Hj' & Hw2').
  apply ws_unique in Heq as [-> Heq]; try done; [|by eapply denotes_not_ws..].
  by destruct (denotes_unique _ _ _ _ _ _ Hj Hj' (value_end_ws_nil _ Hw2) (value_end_ws_nil _ Hw2') Heq).
Qed.
