(* ===== verification/JsonAdmission.v ===== *)
(** The codec's bounded JSON admission pass, [JsonAdmission] of
    [crates/fastmcp-transport/src/codec.rs]: definitions. *)
From stdpp Require Import base list gmap strings.
From Stdlib Require Import ZArith Lia.
From S2P Require Import Prelude Utf8 JsonGrammar Scanner.

Inductive JsonAdmissionError : Type :=
| InvalidUtf8
| InvalidSyntax
| DuplicateObjectMember
| NestingTooDeep
| TooManyContainerEntries
| NumberTooLong
| TooManyNumberBytes
| ExponentTooLarge
| TooManyDecodedStringBytes.

#[export] Instance JsonAdmissionError_eq_dec : EqDecision JsonAdmissionError.
Proof. solve_decision. Defined.

Inductive InvalidMessageKind : Type := Request | Response.

#[export] Instance InvalidMessageKind_eq_dec : EqDecision InvalidMessageKind.
Proof. solve_decision. Defined.

Definition MAX_JSON_NESTING_DEPTH : Z := 64.
Definition MAX_JSON_CONTAINER_ENTRIES : Z := 100000.
Definition MAX_JSON_NUMBER_BYTES : Z := 4 * 1024.
Definition MAX_AGGREGATE_JSON_NUMBER_BYTES : Z := 256 * 1024.
Definition MAX_ABSOLUTE_JSON_EXPONENT : Z := 10000.

(** * The envelope seen so far *)

Record RawEnvelopeShape : Type := {
  root_is_object : bool;
  has_method : bool;
  has_params : bool;
  has_id : bool;
  has_result : bool;
  has_error : bool;
  has_unknown_member : bool;
  has_duplicate_id : bool;
  id_span : option (nat * nat);
}.

Definition RawEnvelopeShape_default : RawEnvelopeShape := {|
  root_is_object := false; has_method := false; has_params := false; has_id := false;
  has_result := false; has_error := false; has_unknown_member := false;
  has_duplicate_id := false; id_span := None |}.

Definition note_root (e : RawEnvelopeShape) : RawEnvelopeShape := {|
  root_is_object := true; has_method := has_method e; has_params := has_params e;
  has_id := has_id e; has_result := has_result e; has_error := has_error e;
  has_unknown_member := has_unknown_member e; has_duplicate_id := has_duplicate_id e;
  id_span := id_span e |}.

Definition note_member (name : list Z) (e : RawEnvelopeShape) : RawEnvelopeShape :=
  let named s := bool_decide (name = chars_of s) in
  {| root_is_object := root_is_object e;
     has_method := has_method e || named "method"%string;
     has_params := has_params e || named "params"%string;
     has_id := has_id e || named "id"%string;
     has_result := has_result e || named "result"%string;
     has_error := has_error e || named "error"%string;
     has_unknown_member := has_unknown_member e ||
       negb (named "jsonrpc"%string || named "method"%string || named "params"%string ||
             named "id"%string || named "result"%string || named "error"%string);
     has_duplicate_id := has_duplicate_id e;
     id_span := id_span e |}.

Definition note_value_span (name : list Z) (start end_ : nat) (e : RawEnvelopeShape)
    : RawEnvelopeShape :=
  if bool_decide (name = chars_of "id") then
    {| root_is_object := root_is_object e; has_method := has_method e;
       has_params := has_params e; has_id := has_id e; has_result := has_result e;
       has_error := has_error e; has_unknown_member := has_unknown_member e;
       has_duplicate_id := has_duplicate_id e; id_span := Some (start, end_) |}
  else e.

Definition note_duplicate_member (name : list Z) (e : RawEnvelopeShape) : RawEnvelopeShape :=
  if bool_decide (name = chars_of "id") then
    {| root_is_object := root_is_object e; has_method := has_method e;
       has_params := has_params e; has_id := has_id e; has_result := has_result e;
       has_error := has_error e; has_unknown_member := has_unknown_member e;
       has_duplicate_id := true; id_span := id_span e |}
  else e.

Definition complete_kind (e : RawEnvelopeShape) : InvalidMessageKind :=
  if has_result e || has_error e then Response else Request.

Definition partial_kind (forced_kind : option InvalidMessageKind) (e : RawEnvelopeShape)
    : InvalidMessageKind :=
  if has_result e || has_error e then Response
  else if has_method e || has_params e then Request
  else default Response forced_kind.

Record JsonAdmissionFailure : Type := {
  error : JsonAdmissionError;
  failure_envelope : RawEnvelopeShape;
}.

(** * The scanner *)

Record JsonAdmission : Type := {
  input : list Z;
  position : nat;
  container_entries : Z;
  number_bytes : Z;
  decoded_string_bytes : Z;
  decoded_string_byte_limit : Z;
  envelope : RawEnvelopeShape;
  duplicate_object_member : bool;
}.

Definition JsonAdmission_new (bs : list Z) (limit : Z) : JsonAdmission := {|
  input := bs; position := 0; container_entries := 0; number_bytes := 0;
  decoded_string_bytes := 0; decoded_string_byte_limit := limit;
  envelope := RawEnvelopeShape_default; duplicate_object_member := false |}.

#[export] Instance JsonAdmission_cursor : Cursor JsonAdmission := {|
  cur_bytes := input;
  cur_pos := position;
  set_pos p s := {|
    input := input s; position := p; container_entries := container_entries s;
    number_bytes := number_bytes s; decoded_string_bytes := decoded_string_bytes s;
    decoded_string_byte_limit := decoded_string_byte_limit s;
    envelope := envelope s; duplicate_object_member := duplicate_object_member s |}
|}.

Definition set_entries (n : Z) (s : JsonAdmission) : JsonAdmission := {|
  input := input s; position := position s; container_entries := n;
  number_bytes := number_bytes s; decoded_string_bytes := decoded_string_bytes s;
  decoded_string_byte_limit := decoded_string_byte_limit s;
  envelope := envelope s; duplicate_object_member := duplicate_object_member s |}.

Definition set_number_bytes (n : Z) (s : JsonAdmission) : JsonAdmission := {|
  input := input s; position := position s; container_entries := container_entries s;
  number_bytes := n; decoded_string_bytes := decoded_string_bytes s;
  decoded_string_byte_limit := decoded_string_byte_limit s;
  envelope := envelope s; duplicate_object_member := duplicate_object_member s |}.

Definition set_string_bytes (n : Z) (s : JsonAdmission) : JsonAdmission := {|
  input := input s; position := position s; container_entries := container_entries s;
  number_bytes := number_bytes s; decoded_string_bytes := n;
  decoded_string_byte_limit := decoded_string_byte_limit s;
  envelope := envelope s; duplicate_object_member := duplicate_object_member s |}.

Definition map_envelope (f : RawEnvelopeShape → RawEnvelopeShape) (s : JsonAdmission)
    : JsonAdmission := {|
  input := input s; position := position s; container_entries := container_entries s;
  number_bytes := number_bytes s; decoded_string_bytes := decoded_string_bytes s;
  decoded_string_byte_limit := decoded_string_byte_limit s;
  envelope := f (envelope s); duplicate_object_member := duplicate_object_member s |}.

Definition mark_duplicate (s : JsonAdmission) : JsonAdmission := {|
  input := input s; position := position s; container_entries := container_entries s;
  number_bytes := number_bytes s; decoded_string_bytes := decoded_string_bytes s;
  decoded_string_byte_limit := decoded_string_byte_limit s;
  envelope := envelope s; duplicate_object_member := true |}.

Abbreviation Scan := (M JsonAdmission JsonAdmissionError).

Definition enter_container (depth : Z) : Scan Z :=
  let! nested_depth := ok_or (checked_add depth 1) NestingTooDeep in
  if MAX_JSON_NESTING_DEPTH <? nested_depth then fail NestingTooDeep else ret nested_depth.

Definition charge_container_entry : Scan unit :=
  let! s := get in
  let! n := ok_or (checked_add (container_entries s) 1) TooManyContainerEntries in
  modify (set_entries n) ;!
  if MAX_JSON_CONTAINER_ENTRIES <? n then fail TooManyContainerEntries else ret tt.

Definition charge_decoded_string_bytes (bytes : Z) : Scan unit :=
  let! s := get in
  let! n := ok_or (checked_add (decoded_string_bytes s) bytes) TooManyDecodedStringBytes in
  modify (set_string_bytes n) ;!
  if decoded_string_byte_limit s <? n then fail TooManyDecodedStringBytes else ret tt.

(** [value.push(character)] on the captured name, if any. *)
Definition push_char (decoded : option (list Z)) (c : Z) : option (list Z) :=
  (λ v, v ++ [c]) <$> decoded.

Definition parse_escape (decoded : option (list Z)) : Scan (option (list Z)) :=
  let! p := peek in
  let! escape := ok_or p InvalidSyntax in
  advance 1 ;!
  let! character :=
    match simple_escape escape with
    | Some c => ret c
    | None => if escape =? 117 then parse_unicode_escape InvalidSyntax else fail InvalidSyntax
    end in
  charge_decoded_string_bytes (Z.of_nat (len_utf8 character)) ;!
  ret (push_char decoded character).

Fixpoint parse_string_loop (fuel : nat) (decoded : option (list Z)) : Scan (option (list Z)) :=
  match fuel with
  | O => out_of_fuel
  | S fuel =>
      let! p := peek in
      let! byte := ok_or p InvalidSyntax in
      if byte =? 34 then advance 1 ;! ret decoded
      else if byte =? 92 then
        advance 1 ;!
        let! decoded := parse_escape decoded in
        parse_string_loop fuel decoded
      else if byte <=? 31 then fail InvalidSyntax
      else if byte <=? 127 then
        advance 1 ;!
        charge_decoded_string_bytes 1 ;!
        parse_string_loop fuel (push_char decoded byte)
      else
        let! character := next_char InvalidSyntax in
        advance (len_utf8 character) ;!
        charge_decoded_string_bytes (Z.of_nat (len_utf8 character)) ;!
        parse_string_loop fuel (push_char decoded character)
  end.

(** Every iteration consumes a byte: one more than the bytes left suffices. *)
Definition parse_string (capture : bool) : Scan (option (list Z)) :=
  let! opened := consume 34 in
  if negb opened then fail InvalidSyntax else
  let! todo := gets cur_rest in
  parse_string_loop (S (length todo)) (if capture then Some [] else None).

Definition exponent_exceeds_limit (ds : list Z) : bool :=
  let significant := skip_zeroes ds in
  if 5 <? zlen significant then true
  else MAX_ABSOLUTE_JSON_EXPONENT <? foldl (λ v d, v * 10 + (d - 48)) 0 significant.

Definition ensure_number_token_within_limit (start : nat) : Scan unit :=
  let! pos := gets cur_pos in
  if MAX_JSON_NUMBER_BYTES <? Z.of_nat (pos - start) then fail NumberTooLong else ret tt.

(** The [while] loop over the bytes at and after the position. *)
Fixpoint consume_digits_loop (rest : list Z) (start : nat) : Scan unit :=
  match rest with
  | b :: rest =>
      if is_digit b then
        advance 1 ;! ensure_number_token_within_limit start ;! consume_digits_loop rest start
      else ret tt
  | [] => ret tt
  end.

Definition consume_number_digits (start : nat) : Scan unit :=
  let! todo := gets cur_rest in consume_digits_loop todo start.

Definition parse_int_part (start : nat) : Scan unit :=
  let! p := peek in
  match p with
  | Some b =>
      if b =? 48 then
        advance 1 ;! ensure_number_token_within_limit start ;!
        let! d := peek_digit in
        if d then fail InvalidSyntax else ret tt
      else if is_digit b then
        advance 1 ;! ensure_number_token_within_limit start ;! consume_number_digits start
      else fail InvalidSyntax
  | None => fail InvalidSyntax
  end.

Definition parse_frac_part (start : nat) : Scan unit :=
  let! dot := consume 46 in
  if dot then
    ensure_number_token_within_limit start ;!
    let! d := peek_digit in
    if negb d then fail InvalidSyntax else consume_number_digits start
  else ret tt.

(** The digits of the exponent, after [e] and the sign. *)
Definition parse_exponent (start : nat) : Scan unit :=
  let! d := peek_digit in
  if negb d then fail InvalidSyntax else
  let! exponent_start := gets cur_pos in
  consume_number_digits start ;!
  let! s := get in
  if exponent_exceeds_limit
       (take (position s - exponent_start) (drop exponent_start (input s)))
  then fail ExponentTooLarge else ret tt.

Definition parse_exp_part (start : nat) : Scan unit :=
  let! p := peek in
  if bool_decide (p = Some 101) || bool_decide (p = Some 69) then
    advance 1 ;! ensure_number_token_within_limit start ;!
    let! q := peek in
    if bool_decide (q = Some 43) || bool_decide (q = Some 45)
    then advance 1 ;! ensure_number_token_within_limit start ;! parse_exponent start
    else parse_exponent start
  else ret tt.

Definition parse_number : Scan unit :=
  let! start := gets cur_pos in
  consume 45 ;!
  ensure_number_token_within_limit start ;!
  parse_int_part start ;!
  parse_frac_part start ;!
  parse_exp_part start ;!
  let! s := get in
  let token_bytes := Z.of_nat (position s - start) in
  let! n := ok_or (checked_add (number_bytes s) token_bytes) TooManyNumberBytes in
  modify (set_number_bytes n) ;!
  if MAX_AGGREGATE_JSON_NUMBER_BYTES <? n then fail TooManyNumberBytes else ret tt.

(** What [parse_object] notes of a member name, before the colon. *)
Definition note_name (is_root duplicate : bool) (name : list Z) : Scan unit :=
  (if is_root then
     modify (map_envelope (note_member name)) ;!
     if duplicate then modify (map_envelope (note_duplicate_member name)) else ret tt
   else ret tt) ;!
  (if duplicate then modify mark_duplicate else ret tt).

(** One turn of the loop of [parse_object] up to the end of the value, which
    [value] reads. *)
Definition parse_member (value : Scan unit) (is_root : bool) (names : gset (list Z))
    : Scan (list Z) :=
  charge_container_entry ;!
  let! captured := parse_string true in
  let! name := ok_or captured InvalidSyntax in
  note_name is_root (bool_decide (name ∈ names)) name ;!
  skip_whitespace ;!
  let! colon := consume 58 in
  if negb colon then fail InvalidSyntax else
  skip_whitespace ;!
  let! value_start := gets cur_pos in
  value ;!
  let! value_end := gets cur_pos in
  (if is_root then modify (map_envelope (note_value_span name value_start value_end))
   else ret tt) ;!
  ret name.

(** A value, and the loops over members and elements.  The fuel bounds the
    number of calls; three per byte left, plus a constant, are enough. *)
Fixpoint parse_value (fuel : nat) (depth : Z) : Scan unit :=
  match fuel with
  | O => out_of_fuel
  | S fuel =>
      let! p := peek in
      match p with
      | Some b =>
          if b =? 123 then parse_object fuel depth
          else if b =? 91 then parse_array fuel depth
          else if b =? 34 then parse_string false ;! ret tt
          else if b =? 116 then parse_literal InvalidSyntax (chars_of "true")
          else if b =? 102 then parse_literal InvalidSyntax (chars_of "false")
          else if b =? 110 then parse_literal InvalidSyntax (chars_of "null")
          else if (b =? 45) || is_digit b then parse_number
          else fail InvalidSyntax
      | None => fail InvalidSyntax
      end
  end
with parse_object (fuel : nat) (depth : Z) : Scan unit :=
  match fuel with
  | O => out_of_fuel
  | S fuel =>
      let is_root := depth =? 0 in
      (if is_root then modify (map_envelope note_root) else ret tt) ;!
      let! nested_depth := enter_container depth in
      advance 1 ;!
      skip_whitespace ;!
      let! closed := consume 125 in
      if closed then ret tt else parse_members fuel is_root nested_depth ∅
  end
with parse_members (fuel : nat) (is_root : bool) (nested_depth : Z) (names : gset (list Z))
    : Scan unit :=
  match fuel with
  | O => out_of_fuel
  | S fuel =>
      let! name := parse_member (parse_value fuel nested_depth) is_root names in
      skip_whitespace ;!
      let! closed := consume 125 in
      if closed then ret tt else
      let! comma := consume 44 in
      if negb comma then fail InvalidSyntax else
      skip_whitespace ;!
      parse_members fuel is_root nested_depth ({[name]} ∪ names)
  end
with parse_array (fuel : nat) (depth : Z) : Scan unit :=
  match fuel with
  | O => out_of_fuel
  | S fuel =>
      let! nested_depth := enter_container depth in
      advance 1 ;!
      skip_whitespace ;!
      let! closed := consume 93 in
      if closed then ret tt else parse_elements fuel nested_depth
  end
with parse_elements (fuel : nat) (nested_depth : Z) : Scan unit :=
  match fuel with
  | O => out_of_fuel
  | S fuel =>
      charge_container_entry ;!
      parse_value fuel nested_depth ;!
      skip_whitespace ;!
      let! closed := consume 93 in
      if closed then ret tt else
      let! comma := consume 44 in
      if negb comma then fail InvalidSyntax else
      skip_whitespace ;!
      parse_elements fuel nested_depth
  end.

Definition parse_document : Scan unit :=
  skip_whitespace ;!
  let! bs := gets cur_bytes in
  parse_value (3 * length bs + 3) 0 ;!
  skip_whitespace ;!
  let! s := get in
  if bool_decide (position s = length (input s)) then ret tt else fail InvalidSyntax.

Definition JsonAdmission_admit (bs : list Z) (limit : Z) : outcome JsonAdmissionFailure RawEnvelopeShape :=
  match parse_document (JsonAdmission_new bs limit) with
  | (Ok _, s) =>
      if negb (duplicate_object_member s) then Ok (envelope s)
      else Err {| error := DuplicateObjectMember; failure_envelope := envelope s |}
  | (Err e, s) => Err {| error := e; failure_envelope := envelope s |}
  | (Panic, _) => Panic
  | (OutOfFuel, _) => OutOfFuel
  end.
