(* ===== verification/JsonAdmissionSound.v ===== *)
(** The codec's admission pass at the lexical level: strings and numbers are
    read exactly as the grammar says, within the limits.

    The codec's admission pass only accepts JSON documents within its limits,
    and its counters, duplicate flag and envelope describe the document. *)
From stdpp Require Import base list gmap strings.
From Stdlib Require Import ZArith Lia Btauto.
From S2P Require Import Prelude Utf8 JsonGrammar Scanner JsonLex JsonFacts JsonAdmission.
#[export] Instance JsonAdmission_cursor_laws : CursorLaws JsonAdmission.
Proof. split; [done..|]. by intros []. Qed.

(** [s] after reading [n] bytes and charging [e] container entries, [k] number
    bytes and [c] decoded string bytes; [d] tells whether a duplicate was seen. *)
Definition grow (n : nat) (e k c : Z) (d : bool) (env : RawEnvelopeShape) (s : JsonAdmission)
    : JsonAdmission := {|
  input := input s;
  position := position s + n;
  container_entries := container_entries s + e;
  number_bytes := number_bytes s + k;
  decoded_string_bytes := decoded_string_bytes s + c;
  decoded_string_byte_limit := decoded_string_byte_limit s;
  envelope := env;
  duplicate_object_member := duplicate_object_member s || d |}.

(** Equality of two states built from the same one. *)
Ltac grow_eq :=
  unfold grow, adv, set_entries, set_number_bytes, set_string_bytes, map_envelope, mark_duplicate;
  cbn; f_equal; repeat (rewrite ?length_app; simpl); try lia; try btauto; try done.

Lemma adv_grow n s : adv n s = grow n 0 0 0 false (envelope s) s.
Proof. grow_eq. Qed.

Lemma grow_grow n e k c d env n' e' k' c' d' env' s :
  grow n' e' k' c' d' env' (grow n e k c d env s) =
  grow (n + n') (e + e') (k + k') (c + c') (d || d') env' s.
Proof. grow_eq. Qed.

Lemma rest_grow n e k c d env s : cur_rest (grow n e k c d env s) = drop n (cur_rest s).
Proof. unfold cur_rest. simpl. by rewrite drop_drop. Qed.

(** What holds of the scanner between any two steps. *)
Record scan_ok (s : JsonAdmission) : Prop := {
  ok_bounds : in_bounds s;
  ok_utf8 : valid_utf8 (cur_rest s);
  ok_entries : 0 <= container_entries s <= MAX_JSON_CONTAINER_ENTRIES;
  ok_numbers : 0 <= number_bytes s <= MAX_AGGREGATE_JSON_NUMBER_BYTES;
  ok_strings : 0 <= decoded_string_bytes s <= decoded_string_byte_limit s;
  ok_strings_pos : decoded_string_bytes s <= Z.of_nat (position s);
}.

Lemma pos_bound s : scan_ok s → Z.of_nat (position s) <= isize_max.
Proof. intros [[Hp Hl] _ _ _ _ _]. unfold zlen in Hl. simpl in *. lia. Qed.

Lemma scan_ok_grow n e k c d env s :
  scan_ok s → (n ≤ length (cur_rest s))%nat → valid_utf8 (drop n (cur_rest s)) →
  0 <= e → container_entries s + e <= MAX_JSON_CONTAINER_ENTRIES →
  0 <= k → number_bytes s + k <= MAX_AGGREGATE_JSON_NUMBER_BYTES →
  0 <= c <= Z.of_nat n → decoded_string_bytes s + c <= decoded_string_byte_limit s →
  scan_ok (grow n e k c d env s).
Proof.
  intros [Hb Hu He Hk Hc Hcp] Hn Hv ??????.
  assert (in_bounds (adv n s)) as Hb' by (by apply in_bounds_adv).
  split; [done|by rewrite rest_grow|..]; simpl; lia.
Qed.

Lemma scan_ok_adv n s :
  scan_ok s → (n ≤ length (cur_rest s))%nat → valid_utf8 (drop n (cur_rest s)) →
  scan_ok (adv n s).
Proof. intros Hs ??. rewrite adv_grow. destruct (Hs). apply scan_ok_grow; try done; lia. Qed.

(** ** Charging *)

Lemma wp_charge_string n Q R s :
  scan_ok s → 0 <= n <= 8 →
  (decoded_string_bytes s + n <= decoded_string_byte_limit s →
     Q tt (set_string_bytes (decoded_string_bytes s + n) s)) →
  (decoded_string_byte_limit s < decoded_string_bytes s + n →
     R TooManyDecodedStringBytes (set_string_bytes (decoded_string_bytes s + n) s)) →
  wp (charge_decoded_string_bytes n) Q R s.
Proof.
  intros Hs Hn HQ HR. unfold charge_decoded_string_bytes, checked_add.
  pose proof (pos_bound s Hs). pose proof (ok_strings_pos _ Hs).
  autorewrite with wp. rewrite (proj2 (Z.leb_le _ _)) by (unfold isize_max, usize_max in *; lia).
  autorewrite with wp. case_goal_if; zbool; autorewrite with wp; auto.
Qed.

Lemma wp_charge_entry Q R s :
  scan_ok s →
  (container_entries s + 1 <= MAX_JSON_CONTAINER_ENTRIES →
     Q tt (set_entries (container_entries s + 1) s)) →
  (MAX_JSON_CONTAINER_ENTRIES < container_entries s + 1 →
     R TooManyContainerEntries (set_entries (container_entries s + 1) s)) →
  wp charge_container_entry Q R s.
Proof.
  intros Hs HQ HR. unfold charge_container_entry, checked_add.
  pose proof (ok_entries _ Hs). unfold MAX_JSON_CONTAINER_ENTRIES in *.
  autorewrite with wp. rewrite (proj2 (Z.leb_le _ _)) by (unfold usize_max; lia).
  autorewrite with wp. case_goal_if; zbool; autorewrite with wp; auto.
Qed.

(** ** Strings *)

(** [s] after one character of [n] bytes in a string. *)
Definition read_char (c : Z) (n : nat) (s : JsonAdmission) : JsonAdmission :=
  grow n 0 0 (Z.of_nat (len_utf8 c)) false (envelope s) s.

Lemma str_unit_len u c : str_unit u c → (len_utf8 c ≤ length u)%nat.
Proof.
  destruct 1 as [c Hc H1 H2 H3|e c He|q v Hq Hv|q1 q2 hi lo Hq1 Hq2]; simpl.
  - by rewrite len_encode_utf8.
  - unfold simple_escape in He. unfold len_utf8. repeat case_if_in He; simplify_eq; simpl; lia.
  - rewrite (hex4_length _ _ Hq). pose proof (len_utf8_pos v). lia.
  - rewrite length_app, (hex4_length _ _ Hq1). simpl.
    match goal with |- (len_utf8 ?x ≤ _)%nat => pose proof (len_utf8_pos x) end. lia.
Qed.

Lemma unit_at_facts l c n :
  unit_at l = Some (c, n) → valid_utf8 l →
  (1 ≤ n ≤ length l)%nat ∧ (len_utf8 c ≤ n)%nat ∧ valid_utf8 (drop n l).
Proof.
  intros [Hu Hn]%unit_at_sound Hv. split; [done|]. pose proof (str_unit_len _ _ Hu) as Hl.
  rewrite length_take in Hl. split; [lia|]. eapply str_unit_valid; [exact Hu|]. by rewrite take_drop.
Qed.

Lemma scan_ok_read_char c n s :
  scan_ok s → unit_at (cur_rest s) = Some (c, n) →
  decoded_string_bytes s + Z.of_nat (len_utf8 c) <= decoded_string_byte_limit s →
  scan_ok (read_char c n s).
Proof.
  intros Hs Hu Hl. destruct (unit_at_facts _ _ _ Hu (ok_utf8 _ Hs)) as (Hn & Hlen & Hv).
  destruct (Hs). apply scan_ok_grow; try done; lia.
Qed.

(** One turn of the loop, away from the closing quote. *)
Lemma wp_string_step fuel dec Q R s :
  scan_ok s → head (cur_rest s) ≠ Some 34 →
  (∀ c n, unit_at (cur_rest s) = Some (c, n) →
     decoded_string_bytes s + Z.of_nat (len_utf8 c) <= decoded_string_byte_limit s →
     wp (parse_string_loop fuel (push_char dec c)) Q R (read_char c n s)) →
  (∀ c n, unit_at (cur_rest s) = Some (c, n) →
     decoded_string_byte_limit s < decoded_string_bytes s + Z.of_nat (len_utf8 c) →
     ∀ s', R TooManyDecodedStringBytes s') →
  (unit_at (cur_rest s) = None → ∀ s', R InvalidSyntax s') →
  wp (parse_string_loop (S fuel) dec) Q R s.
Proof.
  intros Hs Hq HQ HR HN. cbn [parse_string_loop]. rewrite wp_bind, wp_peek, wp_bind, wp_ok_or.
  pose proof (ok_utf8 _ Hs) as Hv.
  assert (Hcharge : ∀ c n, unit_at (cur_rest s) = Some (c, n) →
    wp (charge_decoded_string_bytes (Z.of_nat (len_utf8 c)))
       (λ _, wp (parse_string_loop fuel (push_char dec c)) Q R) R (adv n s)).
  { intros c n Hu. destruct (unit_at_facts _ _ _ Hu Hv) as (Hn & Hlen & Hv').
    pose proof (len_utf8_pos c). apply wp_charge_string; [by apply scan_ok_adv; [|lia|]|lia|..].
    - intros Hl. replace (set_string_bytes _ _) with (read_char c n s)
        by (unfold read_char; grow_eq). by apply HQ.
    - intros Hl. by eapply HR. }
  destruct (cur_rest s) as [|b r] eqn:Hr; [by apply HN|]. cbn [head] in *.
  destruct (Z.eqb_spec b 34) as [->|Hb34]; [done|].
  unfold unit_at in Hcharge, HN.
  destruct (Z.eqb_spec b 92) as [->|Hb92].
  - unfold parse_escape. rewrite wp_bind, wp_advance, !wp_bind, wp_peek, wp_bind, wp_ok_or.
    assert (Hr1 : cur_rest (adv 1 s) = r) by (by rewrite cur_rest_adv, Hr). rewrite Hr1.
    destruct r as [|e r']; [by apply HN|]. cbn [head].
    rewrite wp_bind, wp_advance, adv_adv, wp_bind. simpl Nat.add.
    destruct (simple_escape e) as [c|] eqn:He.
    { rewrite wp_ret, wp_bind. eapply wp_mono; [by apply (Hcharge c 2%nat)|..]; [|done].
      intros [] s' Hw. by rewrite wp_ret. }
    destruct (e =? 117) eqn:E117; [|by apply HN].
    assert (Hr2 : cur_rest (adv 2 s) = r') by (by rewrite cur_rest_adv, Hr).
    apply wp_parse_unicode_escape.
    + apply in_bounds_adv; [apply Hs|rewrite Hr; simpl; lia].
    + rewrite Hr2. intros c n Hu. rewrite wp_bind, adv_adv. rewrite Hu in Hcharge.
      eapply wp_mono; [by apply (Hcharge c (2 + n)%nat)|..]; [|done].
      intros [] s' Hw. by rewrite wp_ret.
    + rewrite Hr2. intros Hu n. apply HN. by rewrite Hu.
  - rewrite (proj2 (Z.eqb_neq b 34)) in HN, Hcharge by done. simpl orb in *.
    destruct (b <=? 31) eqn:E31; [by apply HN|].
    destruct (b <=? 127) eqn:E127; zbool.
    + rewrite wp_bind, wp_advance, wp_bind.
      assert (Hl1 : len_utf8 b = 1%nat)
        by (unfold len_utf8; by rewrite (proj2 (Z.ltb_lt _ _)) by lia).
      specialize (Hcharge b 1%nat eq_refl). by rewrite Hl1 in Hcharge.
    + rewrite wp_bind. apply wp_next_char; [by rewrite Hr|by rewrite Hr|].
      intros c rest Hc Heq. rewrite Hr in Heq. rewrite wp_bind, wp_advance, wp_bind.
      apply Hcharge. rewrite Heq. by apply decode_encode_utf8.
Qed.

(** [s] after a string body of decoded characters [cs] and [n] bytes. *)
Definition read_string (cs : list Z) (n : nat) (s : JsonAdmission) : JsonAdmission :=
  grow n 0 0 (chars_bytes cs) false (envelope s) s.

Lemma chars_bytes_cons c cs : chars_bytes (c :: cs) = Z.of_nat (len_utf8 c) + chars_bytes cs.
Proof. done. Qed.


Lemma read_char_string c n cs m s :
  read_string cs m (read_char c n s) = read_string (c :: cs) (n + m) s.
Proof. unfold read_string, read_char. rewrite grow_grow, chars_bytes_cons. grow_eq. Qed.

Lemma push_char_app dec c cs :
  (λ v, v ++ cs) <$> push_char dec c = (λ v, v ++ c :: cs) <$> dec.
Proof. destruct dec; simpl; [|done]. by rewrite <- app_assoc. Qed.

Lemma push_nil (dec : option (list Z)) : (λ v, v ++ []) <$> dec = dec.
Proof. destruct dec; simpl; [|done]. by rewrite app_nil_r. Qed.

Lemma wp_string_close fuel dec Q R s :
  head (cur_rest s) = Some 34 → Q dec (adv 1 s) → wp (parse_string_loop (S fuel) dec) Q R s.
Proof. intros Hh HQ. cbn [parse_string_loop]. by rewrite wp_bind, wp_peek, wp_bind, wp_ok_or, Hh. Qed.

Lemma read_string_nil s : adv 1 s = read_string [] 1 s.
Proof. unfold read_string. rewrite adv_grow. grow_eq. Qed.

(** A string that is read is a string of the grammar. *)
Lemma wp_string_sound fuel dec s :
  scan_ok s → (length (cur_rest s) < fuel)%nat →
  wp (parse_string_loop fuel dec)
    (λ r s', ∃ b cs rest, cur_rest s = b ++ 34 :: rest ∧ str_body b cs ∧
       r = (λ v, v ++ cs) <$> dec ∧ s' = read_string cs (length b + 1) s ∧ scan_ok s')
    (λ _ _, True) s.
Proof.
  revert dec s. induction fuel as [|fuel IH]; intros dec s Hs Hf; [lia|].
  destruct (decide (head (cur_rest s) = Some 34)) as [Hh|Hh].
  - apply wp_string_close; [done|]. destruct (cur_rest s) as [|b r] eqn:Hr; [done|].
    injection Hh as ->. exists [], [], r. rewrite push_nil, read_string_nil.
    split_and!; try done; [constructor|]. rewrite <- read_string_nil.
    apply scan_ok_adv; [done|rewrite Hr; simpl; lia|]. rewrite Hr. simpl.
    pose proof (ok_utf8 _ Hs) as Hv. rewrite Hr in Hv. by apply valid_utf8_ascii in Hv.
  - apply wp_string_step; [done..| |done|done]. intros c n Hu Hl.
    destruct (unit_at_facts _ _ _ Hu (ok_utf8 _ Hs)) as (Hn & Hlen & Hv).
    eapply wp_mono; [apply IH|..]; [by apply scan_ok_read_char| | |done].
    + unfold read_char. rewrite rest_grow, length_drop. lia.
    + unfold read_char at 1. rewrite rest_grow.
      intros r s' (b & cs & rest & Hr & Hb & -> & -> & Hok).
      exists (take n (cur_rest s) ++ b), (c :: cs), rest.
      rewrite push_char_app, read_char_string in *. apply unit_at_sound in Hu as [Hu _].
      rewrite length_app, length_take_le by lia. rewrite <- app_assoc, <- Hr, take_drop.
      split_and!; try done; [by constructor|..]; by rewrite <- Nat.add_assoc.
Qed.

(** A string of the grammar within the limit is read. *)
Lemma wp_string_complete fuel dec b cs rest Q R s :
  scan_ok s → (length (cur_rest s) < fuel)%nat →
  cur_rest s = b ++ 34 :: rest → str_body b cs →
  decoded_string_bytes s + chars_bytes cs <= decoded_string_byte_limit s →
  Q ((λ v, v ++ cs) <$> dec) (read_string cs (length b + 1) s) →
  wp (parse_string_loop fuel dec) Q R s.
Proof.
  intros Hs Hf Hr Hb. revert fuel dec s Hs Hf Hr.
  induction Hb as [|u c b cs Hu Hb IH]; intros [|fuel] dec s Hs Hf Hr Hl HQ; try lia.
  - apply wp_string_close; [by rewrite Hr|]. rewrite push_nil in HQ. by rewrite read_string_nil.
  - rewrite chars_bytes_cons in Hl. rewrite <- app_assoc in Hr.
    pose proof (chars_bytes_nonneg cs).
    pose proof (str_unit_not_quote u c (b ++ 34 :: rest) Hu) as [Hq Hlen].
    pose proof (unit_at_complete u c (b ++ 34 :: rest) Hu) as Hat. rewrite <- Hr in Hq, Hat.
    assert (cur_rest (read_char c (length u) s) = b ++ 34 :: rest) as Hr'
      by (unfold read_char; rewrite rest_grow, Hr, drop_app_length; done).
    apply wp_string_step; [done..| | |]; rewrite Hat.
    + intros ? ? [= <- <-] Hl'. apply IH; [by apply scan_ok_read_char| |done|simpl; lia|].
      * rewrite Hr'. rewrite Hr, length_app in Hf. lia.
      * rewrite push_char_app, read_char_string.
        by rewrite length_app, <- Nat.add_assoc in HQ.
    + intros ? ? [= <- <-]. lia.
    + done.
Qed.

(** [s] after a whole string token of [n] bytes. *)
Lemma wp_parse_string_sound capture s :
  scan_ok s →
  wp (parse_string capture)
    (λ r s', ∃ raw cs rest, cur_rest s = raw ++ rest ∧ json_string raw cs ∧
       r = (if capture then Some cs else None) ∧
       s' = read_string cs (length raw) s ∧ scan_ok s')
    (λ _ _, True) s.
Proof.
  intros Hs. unfold parse_string. rewrite wp_bind, wp_consume. case_bool_decide as Hh; [|done].
  destruct (cur_rest s) as [|b r] eqn:Hr; [done|]. injection Hh as ->.
  cbn [negb]. rewrite wp_bind, wp_gets.
  assert (cur_rest (adv 1 s) = r) as Hr1 by (by rewrite cur_rest_adv, Hr).
  eapply wp_mono; [apply wp_string_sound|..]; [|lia| |done].
  - apply scan_ok_adv; [done|rewrite Hr; simpl; lia|]. pose proof (ok_utf8 _ Hs) as Hv.
    rewrite Hr in *. by apply (valid_utf8_ascii 34) in Hv.
  - rewrite Hr1. intros o s' (b & cs & rest & -> & Hb & -> & -> & Hok).
    assert (read_string cs (length b + 1) (adv 1 s) = read_string cs (length (34 :: b ++ [34])) s)
      as Heq by (unfold read_string; rewrite adv_grow, grow_grow; grow_eq).
    exists (34 :: b ++ [34]), cs, rest. rewrite <- Heq. split_and!; try done.
    + simpl. by rewrite <- app_assoc.
    + red. eauto.
    + by destruct capture.
Qed.

Lemma wp_parse_string_complete (capture : bool) raw cs rest Q R s :
  scan_ok s → cur_rest s = raw ++ rest → json_string raw cs →
  decoded_string_bytes s + chars_bytes cs <= decoded_string_byte_limit s →
  Q (if capture then Some cs else None) (read_string cs (length raw) s) →
  wp (parse_string capture) Q R s.
Proof.
  intros Hs Hr (b & -> & Hb) Hl HQ. simpl in Hr. rewrite <- app_assoc in Hr. simpl in Hr.
  unfold parse_string. rewrite wp_bind, wp_consume, Hr, bool_decide_true by done.
  cbn [negb]. rewrite wp_bind, wp_gets.
  assert (cur_rest (adv 1 s) = b ++ 34 :: rest) as Hr1 by (by rewrite cur_rest_adv, Hr).
  eapply wp_string_complete; [|lia|done|done|done|].
  - apply scan_ok_adv; [done|rewrite Hr; simpl; lia|]. pose proof (ok_utf8 _ Hs) as Hv.
    rewrite Hr in *. by apply (valid_utf8_ascii 34) in Hv.
  - replace (read_string _ _ (adv 1 s)) with (read_string cs (length (34 :: b ++ [34])) s)
      by (unfold read_string; rewrite adv_grow, grow_grow; grow_eq).
    by destruct capture.
Qed.

(** ** Numbers *)

Section numbers.
Variable start : nat.
Implicit Types (s : JsonAdmission) (R : JsonAdmissionError → JsonAdmission → Prop).

(** A number token that began at [start] may grow by [n] bytes. *)
Definition fits (s : JsonAdmission) (n : nat) : Prop :=
  Z.of_nat (position s + n - start) <= MAX_JSON_NUMBER_BYTES.

Lemma fits_adv s m n : fits (adv m s) n ↔ fits s (m + n).
Proof. unfold fits. simpl. by rewrite Nat.add_assoc. Qed.

Lemma fits_le s m n : fits s n → (m ≤ n)%nat → fits s m.
Proof. unfold fits. lia. Qed.

Lemma wp_ensure Q R s :
  (fits s 0 → Q tt s) → (¬ fits s 0 → R NumberTooLong s) →
  wp (ensure_number_token_within_limit start) Q R s.
Proof.
  unfold fits, ensure_number_token_within_limit. rewrite Nat.add_0_r. autorewrite with wp. simpl.
  intros HQ HR. case_goal_if; zbool; [apply HR|apply HQ]; lia.
Qed.

Lemma wp_advance_ensure {A} (k : Scan A) n Q R s :
  (fits s n → wp k Q R (adv n s)) → (¬ fits s n → ∀ s', R NumberTooLong s') →
  wp (advance n ;! ensure_number_token_within_limit start ;! k) Q R s.
Proof.
  intros HQ HR. rewrite wp_bind, wp_advance, wp_bind.
  apply wp_ensure; rewrite fits_adv, Nat.add_0_r; auto.
Qed.

Lemma wp_consume_digits Q R s :
  fits s 0 →
  (fits s (length (take_while is_digit (cur_rest s))) →
     Q tt (adv (length (take_while is_digit (cur_rest s))) s)) →
  (¬ fits s (length (take_while is_digit (cur_rest s))) → ∀ s', R NumberTooLong s') →
  wp (consume_number_digits start) Q R s.
Proof.
  unfold consume_number_digits. rewrite wp_bind, wp_gets. generalize (cur_rest s). intros rest.
  revert s. induction rest as [|b rest IH]; intros s Hf HQ HR;
    cbn [take_while length consume_digits_loop] in *.
  { rewrite adv_0 in HQ. by apply HQ. }
  destruct (is_digit b); cbn [length] in *; [|rewrite adv_0 in HQ; by apply HQ].
  apply wp_advance_ensure; [intros H1; apply IH; rewrite fits_adv, ?adv_adv; done|].
  intros H1. apply HR. unfold fits in *. lia.
Qed.

Lemma wp_int_part Q R s :
  fits s 0 →
  (∀ i, int_at (cur_rest s) = Some i → fits s i → Q tt (adv i s)) →
  ((∀ i, int_at (cur_rest s) = Some i → ¬ fits s i) → ∀ e s', R e s') →
  wp (parse_int_part start) Q R s.
Proof.
  intros Hf HQ HR. unfold parse_int_part. rewrite wp_bind, wp_peek.
  destruct (cur_rest s) as [|b r] eqn:Hr; [by apply HR|]. cbn [head].
  assert (Hr1 : cur_rest (adv 1 s) = r) by (by rewrite cur_rest_adv, Hr).
  assert (Hlong : ¬ fits s 1 → ∀ s', R NumberTooLong s').
  { intros Hn s'. apply HR. intros i [_ Hi]%int_at_sound. unfold fits in *. lia. }
  unfold int_at in HQ, HR. destruct (Z.eqb_spec b 48) as [->|Hb].
  - apply wp_advance_ensure; [|done]. intros H1. rewrite wp_bind, wp_peek_digit, <- head_digit, Hr1.
    destruct (starts_with is_digit r); [by apply HR|]. rewrite wp_ret. by apply HQ.
  - destruct (is_digit b); [|by apply HR]. apply wp_advance_ensure; [|done]. intros H1.
    apply wp_consume_digits; rewrite ?Hr1, ?fits_adv; [done|..].
    + intros H2. rewrite adv_adv. by apply HQ.
    + intros H2 s'. apply HR. by intros ? [= <-].
Qed.

Lemma wp_frac_part Q R s :
  fits s 0 →
  (∀ i, frac_at (cur_rest s) = Some i → fits s i → Q tt (adv i s)) →
  ((∀ i, frac_at (cur_rest s) = Some i → ¬ fits s i) → ∀ e s', R e s') →
  wp (parse_frac_part start) Q R s.
Proof.
  intros Hf HQ HR. unfold parse_frac_part. rewrite wp_bind, wp_consume.
  destruct (cur_rest s) as [|b r] eqn:Hr.
  { specialize (HQ 0%nat). rewrite adv_0 in HQ. by apply HQ. }
  cbn [head]. unfold frac_at in HQ, HR. destruct (Z.eqb_spec b 46) as [->|Hb]; cycle 1.
  { rewrite bool_decide_false by congruence. specialize (HQ 0%nat). rewrite adv_0 in HQ. by apply HQ. }
  rewrite bool_decide_true by done.
  assert (Hr1 : cur_rest (adv 1 s) = r) by (by rewrite cur_rest_adv, Hr).
  rewrite wp_bind. apply wp_ensure; rewrite fits_adv.
  - intros H1. rewrite wp_bind, wp_peek_digit, <- head_digit, Hr1.
    destruct (starts_with is_digit r); [|by apply HR]. cbn [negb].
    apply wp_consume_digits; rewrite ?Hr1, ?fits_adv; [done|..].
    + intros H2. rewrite adv_adv. by apply HQ.
    + intros H2 s'. apply HR. by intros ? [= <-].
  - intros H1. apply HR. destruct (starts_with _ _); intros ? [= <-] Hl. apply H1.
    eapply fits_le; [done|lia].
Qed.

Lemma exponent_exceeds_spec ds :
  digits ds → exponent_exceeds_limit ds = (MAX_ABSOLUTE_JSON_EXPONENT <? dec_value ds).
Proof. intros Hds. by apply exponent_cut. Qed.

Lemma wp_exponent Q R s :
  let ds := take_while is_digit (cur_rest s) in
  fits s 0 →
  (starts_with is_digit (cur_rest s) = true → fits s (length ds) →
     dec_value ds <= MAX_ABSOLUTE_JSON_EXPONENT → Q tt (adv (length ds) s)) →
  ((starts_with is_digit (cur_rest s) = true → fits s (length ds) →
     MAX_ABSOLUTE_JSON_EXPONENT < dec_value ds) → ∀ e s', R e s') →
  wp (parse_exponent start) Q R s.
Proof.
  intros ds Hf HQ HR. unfold parse_exponent. rewrite wp_bind, wp_peek_digit, <- head_digit.
  destruct (starts_with _ _); [|by apply HR]. cbn [negb]. rewrite wp_bind, wp_gets, wp_bind.
  apply wp_consume_digits; [done|..]; fold ds; intros Hl; [|intros s'; by apply HR].
  rewrite wp_bind, wp_get.
  assert (take (position (adv (length ds) s) - cur_pos s)
            (drop (cur_pos s) (input (adv (length ds) s))) = ds) as ->.
  { change (drop (cur_pos s) _) with (cur_rest s). simpl position.
    replace (_ - _)%nat with (length ds) by (simpl; lia). apply take_digits. }
  rewrite exponent_exceeds_spec by apply take_while_Forall.
  case_goal_if; zbool; autorewrite with wp; [by apply HR|by apply HQ].
Qed.

Lemma wp_exp_part Q R s :
  fits s 0 →
  (∀ i ds, exp_at (cur_rest s) = Some (i, ds) → fits s i →
     dec_value ds <= MAX_ABSOLUTE_JSON_EXPONENT → Q tt (adv i s)) →
  ((∀ i ds, exp_at (cur_rest s) = Some (i, ds) → fits s i →
     MAX_ABSOLUTE_JSON_EXPONENT < dec_value ds) → ∀ e s', R e s') →
  wp (parse_exp_part start) Q R s.
Proof.
  intros Hf HQ HR. unfold parse_exp_part. rewrite wp_bind, wp_peek.
  destruct (cur_rest s) as [|b r] eqn:Hr.
  { specialize (HQ 0%nat []). rewrite adv_0 in HQ. by apply HQ. }
  cbn [head]. unfold exp_at in HQ, HR. rewrite !bool_decide_Some_eqb.
  destruct (_ || _) eqn:Hb; cycle 1.
  { specialize (HQ 0%nat []). rewrite adv_0 in HQ. by apply HQ. }
  assert (Hr1 : cur_rest (adv 1 s) = r) by (by rewrite cur_rest_adv, Hr).
  assert (Hlong : ∀ n, (n ≤ S (sign_at r))%nat → ¬ fits s n → ∀ s', R NumberTooLong s').
  { intros n Hn Hnf s'. apply HR. destruct (starts_with _ _); intros ? ? [= <- <-] Hl.
    destruct Hnf. eapply fits_le; [done|lia]. }
  assert (Hdigits : fits s (S (sign_at r)) → wp (parse_exponent start) Q R (adv (S (sign_at r)) s)).
  { assert (Hr2 : cur_rest (adv (S (sign_at r)) s) = drop (sign_at r) r)
      by (by rewrite cur_rest_adv, Hr).
    intros H2. apply wp_exponent; rewrite ?Hr2, ?fits_adv, ?Nat.add_0_r, ?adv_adv; [done|..].
    - intros Hd. rewrite Hd in HQ. by apply HQ.
    - destruct (starts_with _ _); [|intros; by apply HR].
      intros Hex e s'. apply HR. intros ? ? [= <- <-]. by apply Hex. }
  apply wp_advance_ensure; [|apply Hlong; lia]. intros H1. rewrite wp_bind, wp_peek, Hr1.
  unfold sign_at in Hdigits, Hlong. destruct r as [|b' r']; cbn [head starts_with] in *; [auto|].
  rewrite !bool_decide_Some_eqb. destruct ((b' =? 43) || _); [|auto].
  apply wp_advance_ensure; rewrite ?fits_adv, ?adv_adv; [auto|]. intros ?. by eapply Hlong.
Qed.
End numbers.

(** A number token is read exactly when the grammar has one and it is within
    the limits. *)
Definition number_fits (s : JsonAdmission) (n : nat) (ds : list Z) : Prop :=
  number_at (cur_rest s) = Some (n, ds) ∧ Z.of_nat n <= MAX_JSON_NUMBER_BYTES ∧
  dec_value ds <= MAX_ABSOLUTE_JSON_EXPONENT ∧
  number_bytes s + Z.of_nat n <= MAX_AGGREGATE_JSON_NUMBER_BYTES.

Lemma wp_parse_number Q R s :
  0 <= number_bytes s <= MAX_AGGREGATE_JSON_NUMBER_BYTES →
  (∀ n ds, number_fits s n ds → Q tt (grow n 0 (Z.of_nat n) 0 false (envelope s) s)) →
  ((∀ n ds, ¬ number_fits s n ds) → ∀ e s', R e s') →
  wp parse_number Q R s.
Proof.
  intros Hs HQ HR. unfold parse_number. rewrite wp_bind, wp_gets, wp_bind.
  unfold number_fits, number_at in HQ, HR.
  set (m := minus_at (cur_rest s)) in *. set (start := cur_pos s).
  assert (m ≤ 1)%nat by (unfold m, minus_at; case_goal_if; lia).
  apply wp_consume_minus. intros _. fold m. clearbody m.
  assert (Hfits : ∀ n, fits start s n ↔ Z.of_nat n <= MAX_JSON_NUMBER_BYTES)
    by (intros n; unfold fits, start; by replace (position s + n - cur_pos s)%nat with n by (simpl; lia)).
  rewrite wp_bind. apply wp_ensure; rewrite fits_adv, Hfits, Nat.add_0_r; cycle 1.
  { unfold MAX_JSON_NUMBER_BYTES. lia. }
  intros Hf0. rewrite wp_bind.
  apply wp_int_part; rewrite ?fits_adv, ?Hfits, ?cur_rest_adv; [by rewrite Nat.add_0_r|..]; cycle 1.
  { intros Hno e s'. apply HR. intros n ds (Hn & Hl & _).
    destruct (int_at _) as [i|]; [|done]. specialize (Hno i eq_refl). rewrite fits_adv, Hfits in Hno.
    repeat case_match; simplify_eq. lia. }
  intros i Hi' Hi. rewrite Hi' in HQ, HR. rewrite adv_adv, wp_bind. rewrite fits_adv, Hfits in Hi.
  apply wp_frac_part; rewrite ?fits_adv, ?Hfits, ?cur_rest_adv; [by rewrite Nat.add_0_r|..]; cycle 1.
  { intros Hno e s'. apply HR. intros n ds (Hn & Hl & _).
    destruct (frac_at _) as [f|]; [|done]. specialize (Hno f eq_refl). rewrite fits_adv, Hfits in Hno.
    repeat case_match; simplify_eq. lia. }
  intros f Hf' Hf. rewrite Hf' in HQ, HR. rewrite adv_adv, wp_bind. rewrite fits_adv, Hfits in Hf.
  apply wp_exp_part; rewrite ?fits_adv, ?Hfits, ?cur_rest_adv; [by rewrite Nat.add_0_r|..]; cycle 1.
  { intros Hno e s'. apply HR. intros n ds (Hn & Hl & Hd & _).
    destruct (exp_at _) as [[x ds']|]; [|done]. simplify_eq. specialize (Hno _ _ eq_refl).
    rewrite fits_adv, Hfits in Hno. lia. }
  intros x ds Hx' Hx Hd. rewrite Hx' in HQ, HR. rewrite adv_adv. rewrite fits_adv, Hfits in Hx.
  set (n := (m + i + f + x)%nat) in *.
  rewrite wp_bind, wp_get, wp_bind, wp_ok_or. simpl position. simpl number_bytes.
  replace (Z.of_nat (position s + n - start)) with (Z.of_nat n) by (subst start; simpl; lia).
  unfold checked_add.
  rewrite (proj2 (Z.leb_le _ _)) by
    (unfold MAX_AGGREGATE_JSON_NUMBER_BYTES, MAX_JSON_NUMBER_BYTES, usize_max in *; lia).
  rewrite wp_bind, wp_modify. case_goal_if; zbool; autorewrite with wp.
  - apply HR. intros n' ds' (Hn & ? & ? & ?). simplify_eq. lia.
  - replace (set_number_bytes _ _) with (grow n 0 (Z.of_nat n) 0 false (envelope s) s) by grow_eq.
    by apply (HQ n ds).
Qed.

(** * Structural steps *)

Lemma scan_ok_map_envelope f s : scan_ok s → scan_ok (map_envelope f s).
Proof. by intros []. Qed.

Lemma scan_ok_mark_duplicate s : scan_ok s → scan_ok (mark_duplicate s).
Proof. by intros []. Qed.

Lemma scan_ok_set_entries s :
  scan_ok s → container_entries s + 1 <= MAX_JSON_CONTAINER_ENTRIES →
  scan_ok (set_entries (container_entries s + 1) s).
Proof. intros [] ?. split; try done. simpl. lia. Qed.

Lemma is_ws_ascii b : is_ws b = true → b < 128.
Proof. unfold is_ws. rewrite !orb_true_iff, !Z.eqb_eq. lia. Qed.

Lemma ws_ascii w : ws w → Forall (λ b, b < 128) w.
Proof. intros Hw. eapply Forall_impl; [exact Hw|]. simpl. intros b. apply is_ws_ascii. Qed.

(** Reading ASCII bytes keeps the invariant. *)
Lemma scan_ok_ascii w rest s :
  scan_ok s → cur_rest s = w ++ rest → Forall (λ b, b < 128) w →
  scan_ok (adv (length w) s) ∧ cur_rest (adv (length w) s) = rest.
Proof.
  intros Hs Hr Hw. rewrite cur_rest_adv, Hr, drop_app_length. split; [|done].
  apply scan_ok_adv; [done|rewrite Hr, length_app; lia|].
  rewrite Hr, drop_app_length. eapply valid_utf8_ascii_app; [done|]. rewrite <- Hr. apply Hs.
Qed.

Lemma wp_ws Q (R : JsonAdmissionError → JsonAdmission → Prop) s :
  scan_ok s →
  (∀ w rest, cur_rest s = w ++ rest → ws w → head_not is_ws rest →
     scan_ok (adv (length w) s) → cur_rest (adv (length w) s) = rest → Q tt (adv (length w) s)) →
  wp skip_whitespace Q R s.
Proof.
  intros Hs HQ. rewrite wp_skip_whitespace.
  destruct (take_while_split is_ws (cur_rest s)) as [Heq Hh].
  assert (ws (take_while is_ws (cur_rest s))) as Hw by apply take_while_Forall.
  destruct (scan_ok_ascii _ _ s Hs Heq) as [? ?]; [by apply ws_ascii|].
  by eapply HQ.
Qed.

Lemma wp_byte b Q (R : JsonAdmissionError → JsonAdmission → Prop) s :
  scan_ok s → b < 128 →
  (∀ rest, cur_rest s = b :: rest → scan_ok (adv 1 s) → cur_rest (adv 1 s) = rest →
     Q true (adv 1 s)) →
  (head (cur_rest s) ≠ Some b → Q false s) →
  wp (consume b) Q R s.
Proof.
  intros Hs Hb HQ HF. rewrite wp_consume. case_bool_decide as Hh; [|auto].
  destruct (cur_rest s) as [|b' r] eqn:Hr; [done|]. injection Hh as ->.
  destruct (scan_ok_ascii [b] r s Hs) as [? ?]; [done|by constructor|]. by eapply HQ.
Qed.

Lemma wp_enter d Q R s :
  0 <= d →
  (d + 1 <= MAX_JSON_NESTING_DEPTH → Q (d + 1) s) →
  (MAX_JSON_NESTING_DEPTH < d + 1 → R NestingTooDeep s) →
  wp (enter_container d) Q R s.
Proof.
  intros Hd HQ HR. unfold enter_container, checked_add, MAX_JSON_NESTING_DEPTH, usize_max in *.
  rewrite wp_bind, wp_ok_or. case_goal_if; zbool; [|apply HR; lia].
  case_goal_if; zbool; autorewrite with wp; auto.
Qed.

(** * What a run establishes *)

(** Whether an object with these members, seen after [names], has a duplicate
    name or a value that has one. *)
Fixpoint dup_members (names : gset (list Z)) (ms : list (list Z * json)) : bool :=
  match ms with
  | [] => false
  | (n, j) :: ms => bool_decide (n ∈ names) || negb (distinct j) || dup_members ({[n]} ∪ names) ms
  end.

Lemma dup_members_spec names ms :
  dup_members names ms =
  negb (bool_decide (NoDup ms.*1 ∧ Forall (λ n, n ∉ names) ms.*1) &&
        forallb (λ p, distinct p.2) ms).
Proof.
  revert names. induction ms as [|[n j] ms IH]; intros names; cbn [dup_members forallb].
  { rewrite bool_decide_true; [done|]. split; constructor. }
  rewrite IH. cbn [snd fmap list_fmap fst].
  destruct (distinct j); cbn [negb andb]; [|by rewrite andb_false_r, orb_true_r].
  rewrite orb_false_r, !negb_andb, orb_assoc. f_equal.
  rewrite <- !bool_decide_not, <- bool_decide_or. apply bool_decide_ext.
  rewrite NoDup_cons, Forall_cons, !Forall_forall. destruct (decide (n ∈ names)); [tauto|].
  assert ((∀ x, x ∈ ms.*1 → x ∉ {[n]} ∪ names) ↔ n ∉ ms.*1 ∧ ∀ x, x ∈ ms.*1 → x ∉ names)
    by set_solver. tauto.
Qed.

Lemma dup_members_distinct ms : dup_members ∅ ms = negb (distinct (JObj ms)).
Proof.
  rewrite dup_members_spec. cbn [distinct]. f_equal. f_equal. apply bool_decide_ext.
  rewrite Forall_forall. set_solver.
Qed.

(** The members of the root object with the positions of their values. *)
Abbreviation span := (list Z * (nat * nat))%type.

Definition span_ok (bs : list Z) (m : list Z * json) (sp : span) : Prop :=
  sp.1 = m.1 ∧ (sp.2.1 ≤ sp.2.2 ≤ length bs)%nat ∧
  denotes m.2 (take (sp.2.2 - sp.2.1) (drop sp.2.1 bs)).

Definition note_one (names : gset (list Z)) (n : list Z) (a b : nat) (e : RawEnvelopeShape)
    : RawEnvelopeShape :=
  let e := note_member n e in
  note_value_span n a b (if bool_decide (n ∈ names) then note_duplicate_member n e else e).

Fixpoint note_members (names : gset (list Z)) (sps : list span) (e : RawEnvelopeShape)
    : RawEnvelopeShape :=
  match sps with
  | [] => e
  | (n, (a, b)) :: sps => note_members ({[n]} ∪ names) sps (note_one names n a b e)
  end.

(** The envelope after a value read at depth [d]. *)
Definition root_envelope (d : Z) (j : json) (s : JsonAdmission) (env : RawEnvelopeShape) : Prop :=
  match j with
  | JObj ms =>
      if d =? 0
      then ∃ sps, Forall2 (span_ok (input s)) ms sps ∧ env = note_members ∅ sps (note_root (envelope s))
      else env = envelope s
  | _ => env = envelope s
  end.

Definition numbers_within : json → bool :=
  numbers_ok MAX_JSON_NUMBER_BYTES MAX_ABSOLUTE_JSON_EXPONENT.

(** [s] after reading [j] in [n] bytes. *)
Definition read_json (n : nat) (j : json) (dup : bool) (env : RawEnvelopeShape) (s : JsonAdmission)
    : JsonAdmission := grow n (entries j) (num_bytes j) (str_bytes j) dup env s.

Definition value_post (d : Z) (s s' : JsonAdmission) : Prop :=
  ∃ j raw rest env, cur_rest s = raw ++ rest ∧ denotes j raw ∧
    d + depth j <= MAX_JSON_NESTING_DEPTH ∧ numbers_within j = true ∧
    s' = read_json (length raw) j (negb (distinct j)) env s ∧ scan_ok s' ∧
    root_envelope d j s env.

Definition members_post (is_root : bool) (nd : Z) (names : gset (list Z)) (s s' : JsonAdmission)
    : Prop :=
  ∃ ms body rest env, cur_rest s = body ++ 125 :: rest ∧ members ms body ∧
    nd + depth (JObj ms) <= MAX_JSON_NESTING_DEPTH + 1 ∧ numbers_within (JObj ms) = true ∧
    s' = read_json (length body + 1) (JObj ms) (dup_members names ms) env s ∧ scan_ok s' ∧
    if is_root
    then ∃ sps, Forall2 (span_ok (input s)) ms sps ∧ env = note_members names sps (envelope s)
    else env = envelope s.

Definition member_post (is_root : bool) (nd : Z) (names : gset (list Z)) (s : JsonAdmission)
    (name : list Z) (s' : JsonAdmission) : Prop :=
  ∃ nraw w1 w2 j raw rest a b env,
    cur_rest s = (nraw ++ w1 ++ 58 :: w2 ++ raw) ++ rest ∧
    json_string nraw name ∧ ws w1 ∧ ws w2 ∧ denotes j raw ∧
    nd + depth j <= MAX_JSON_NESTING_DEPTH ∧ numbers_within j = true ∧
    s' = grow (length (nraw ++ w1 ++ 58 :: w2 ++ raw)) (1 + entries j) (num_bytes j)
           (chars_bytes name + str_bytes j) (bool_decide (name ∈ names) || negb (distinct j)) env s ∧
    scan_ok s' ∧ cur_rest s' = rest ∧ span_ok (input s) (name, j) (name, (a, b)) ∧
    env = if is_root then note_one names name a b (envelope s) else envelope s.

Definition elements_post (nd : Z) (s s' : JsonAdmission) : Prop :=
  ∃ js body rest, cur_rest s = body ++ 93 :: rest ∧ elements js body ∧
    nd + depth (JArr js) <= MAX_JSON_NESTING_DEPTH + 1 ∧ numbers_within (JArr js) = true ∧
    s' = read_json (length body + 1) (JArr js) (negb (distinct (JArr js))) (envelope s) s ∧
    scan_ok s'.

Abbreviation any_error := (λ (_ : JsonAdmissionError) (_ : JsonAdmission), True).

Definition value_sound (fuel : nat) : Prop := ∀ d s,
  scan_ok s → 0 <= d <= MAX_JSON_NESTING_DEPTH → (3 * length (cur_rest s) + 1 ≤ fuel)%nat →
  wp (parse_value fuel d) (λ _ s', value_post d s s') any_error s.
Definition object_sound (fuel : nat) : Prop := ∀ d s,
  scan_ok s → 0 <= d <= MAX_JSON_NESTING_DEPTH → head (cur_rest s) = Some 123 → (3 * length (cur_rest s) ≤ fuel)%nat →
  wp (parse_object fuel d) (λ _ s', value_post d s s') any_error s.
Definition array_sound (fuel : nat) : Prop := ∀ d s,
  scan_ok s → 0 <= d <= MAX_JSON_NESTING_DEPTH → head (cur_rest s) = Some 91 → (3 * length (cur_rest s) ≤ fuel)%nat →
  wp (parse_array fuel d) (λ _ s', value_post d s s') any_error s.
Definition members_sound (fuel : nat) : Prop := ∀ is_root nd names s,
  scan_ok s → 1 <= nd <= MAX_JSON_NESTING_DEPTH → (3 * length (cur_rest s) + 2 ≤ fuel)%nat →
  wp (parse_members fuel is_root nd names) (λ _ s', members_post is_root nd names s s') any_error s.
Definition elements_sound (fuel : nat) : Prop := ∀ nd s,
  scan_ok s → 1 <= nd <= MAX_JSON_NESTING_DEPTH → (3 * length (cur_rest s) + 2 ≤ fuel)%nat →
  wp (parse_elements fuel nd) (λ _ s', elements_post nd s s') any_error s.

(** * The calls of the parser *)

Ltac json_eq := unfold read_json, read_string; cbn [entries num_bytes str_bytes distinct foldr]; grow_eq.

Lemma wp_literal_sound d lit j s :
  scan_ok s → denotes j lit → zlen lit <= 8 → Forall (λ b, b < 128) lit →
  j = JNull ∨ (∃ b, j = JBool b) → d <= MAX_JSON_NESTING_DEPTH →
  wp (parse_literal InvalidSyntax lit) (λ _ s', value_post d s s') any_error s.
Proof.
  intros Hs Hj Hl Ha Hk Hd. rewrite wp_parse_literal by (done || apply Hs).
  case_bool_decide as Ht; [|done].
  assert (Hr : cur_rest s = lit ++ drop (length lit) (cur_rest s))
    by (rewrite <- Ht at 1; by rewrite take_drop).
  destruct (scan_ok_ascii _ _ _ Hs Hr Ha) as [Hok _].
  exists j, lit, (drop (length lit) (cur_rest s)), (envelope s).
  destruct Hk as [->|[b ->]]; split_and!; try done; try (simpl; lia); json_eq.
Qed.

Lemma wp_string_value_sound d s :
  scan_ok s → d <= MAX_JSON_NESTING_DEPTH →
  wp (parse_string false ;! ret tt) (λ _ s', value_post d s s') any_error s.
Proof.
  intros Hs Hd. rewrite wp_bind. eapply wp_mono; [by apply wp_parse_string_sound|..]; [|done].
  intros o s' (raw & cs & rest & Hr & Hraw & _ & -> & Hok). rewrite wp_ret.
  exists (JStr cs), raw, rest, (envelope s).
  split_and!; try done; [by constructor|simpl; lia].
Qed.

Lemma wp_number_value_sound d s :
  scan_ok s → d <= MAX_JSON_NESTING_DEPTH →
  wp parse_number (λ _ s', value_post d s s') any_error s.
Proof.
  intros Hs Hd. apply wp_parse_number; [apply Hs| |done].
  intros n ds (Hn & Hl & Hex & Hag). apply number_at_sound in Hn as [Hn Hlen].
  assert (length (take n (cur_rest s)) = n) as Hln by (rewrite length_take; lia).
  exists (JNum (take n (cur_rest s)) ds), (take n (cur_rest s)), (drop n (cur_rest s)), (envelope s).
  rewrite take_drop, Hln. split_and!; try done.
  - by constructor.
  - simpl. lia.
  - unfold numbers_within. cbn [numbers_ok]. unfold zlen. rewrite Hln.
    by rewrite !(proj2 (Z.leb_le _ _)).
  - unfold read_json. cbn [num_bytes]. unfold zlen. by rewrite Hln.
  - destruct (Hs). apply scan_ok_grow; try done; try lia.
    eapply valid_utf8_ascii_app; [by eapply json_number_ascii|]. by rewrite take_drop.
Qed.

Lemma value_step fuel : object_sound fuel → array_sound fuel → value_sound (S fuel).
Proof.
  intros Hobj Harr d s Hs Hd Hf. cbn [parse_value]. rewrite wp_bind, wp_peek.
  destruct (cur_rest s) as [|b r] eqn:Hr; [done|]. cbn [head]. rewrite <- Hr in Hf.
  destruct (Z.eqb_spec b 123) as [->|_]; [apply Hobj; try done; [by rewrite Hr|lia]|].
  destruct (Z.eqb_spec b 91) as [->|_]; [apply Harr; try done; [by rewrite Hr|lia]|].
  case_goal_if; [by apply wp_string_value_sound; [|lia]|].
  case_goal_if; [by apply (wp_literal_sound _ _ (JBool true)); [|apply D_true| |repeat constructor|eauto|lia]|].
  case_goal_if; [by apply (wp_literal_sound _ _ (JBool false)); [|apply D_false| |repeat constructor|eauto|lia]|].
  case_goal_if; [by apply (wp_literal_sound _ _ JNull); [|apply D_null| |repeat constructor|eauto|lia]|].
  case_goal_if; [by apply wp_number_value_sound; [|lia]|done].
Qed.

(** [s] as [parse_object] leaves it before the first byte. *)
Definition note_object (d : Z) (s : JsonAdmission) : JsonAdmission :=
  if d =? 0 then map_envelope note_root s else s.

Lemma wp_note_object {A} (k : Scan A) d Q R s :
  wp ((if d =? 0 then modify (map_envelope note_root) else ret tt) ;! k) Q R s ↔
  wp k Q R (note_object d s).
Proof. rewrite wp_bind. unfold note_object. by destruct (d =? 0). Qed.

Lemma note_object_facts d s :
  cur_rest (note_object d s) = cur_rest s ∧ (scan_ok s → scan_ok (note_object d s)) ∧
  input (note_object d s) = input s ∧
  envelope (note_object d s) = (if d =? 0 then note_root (envelope s) else envelope s) ∧
  ∀ n j dup env, read_json n j dup env (note_object d s) = read_json n j dup env s.
Proof.
  unfold note_object. destruct (d =? 0); split_and!; try done. apply scan_ok_map_envelope.
Qed.

Lemma read_json_adv n m j dup env s :
  read_json n j dup env (adv m s) = read_json (m + n) j dup env s.
Proof. unfold read_json. rewrite adv_grow, grow_grow. grow_eq. Qed.

Lemma object_step fuel : members_sound fuel → object_sound (S fuel).
Proof.
  intros Hmem d s Hs Hd Hh Hf. cbn [parse_object]. rewrite wp_note_object.
  destruct (note_object_facts d s) as (Hr1 & Hok1 & Hin1 & Henv1 & Hread). specialize (Hok1 Hs).
  set (s1 := note_object d s) in *. clearbody s1. rewrite <- Hr1 in Hh, Hf.
  destruct (cur_rest s1) as [|b r] eqn:Hr; [done|]. injection Hh as ->.
  rewrite wp_bind. apply wp_enter; [lia| |done]. intros Hnd. rewrite wp_bind, wp_advance.
  destruct (scan_ok_ascii [123] r s1) as [Hok2 Hr2]; [done..|by repeat constructor|].
  cbn [length] in Hok2, Hr2. rewrite wp_bind. apply wp_ws; [done|].
  rewrite Hr2. intros w rest -> Hw _ Hok3 Hr3. rewrite adv_adv in *. rewrite wp_bind.
  apply wp_byte; [done|lia|..].
  - intros rest' Hr4 Hok4 _. rewrite wp_ret. rewrite Hr3 in Hr4. revert Hr4. intros ->.
    assert (adv 1 (adv (1 + length w) s1) =
      read_json (length (123 :: w ++ [125])) (JObj []) false (envelope s1) s) as Heq.
    { rewrite <- Hread. json_eq. }
    exists (JObj []), (123 :: w ++ [125]), rest', (envelope s1). rewrite Heq in *.
    rewrite <- Hr1. split_and!; try done.
    + simpl. by rewrite <- app_assoc.
    + by constructor.
    + simpl. rewrite Henv1. destruct (d =? 0); [|done]. by exists [].
  - intros _. eapply wp_mono; [apply Hmem|..]; [done|lia| | |done].
    { rewrite Hr3. simpl in Hf. rewrite length_app in Hf. lia. }
    intros _ s' (ms & body & rest' & env & Hb & Hms & Hdep & Hnum & -> & Hok & Henv).
    rewrite Hr3 in Hb. revert Hb. intros ->.
    rewrite read_json_adv, Hread, dup_members_distinct in *.
    exists (JObj ms), (123 :: w ++ body ++ [125]), rest', env.
    rewrite <- Hr1. split_and!; try done.
    + simpl. by rewrite <- !app_assoc.
    + by constructor.
    + lia.
    + f_equal. simpl. rewrite !length_app. simpl. lia.
    + simpl. simpl in Henv. rewrite Hin1, Henv1 in Henv. by destruct (d =? 0).
Qed.

Lemma array_step fuel : elements_sound fuel → array_sound (S fuel).
Proof.
  intros Hel d s Hs Hd Hh Hf. cbn [parse_array].
  destruct (cur_rest s) as [|b r] eqn:Hr; [done|]. injection Hh as ->.
  rewrite wp_bind. apply wp_enter; [lia| |done]. intros Hnd. rewrite wp_bind, wp_advance.
  destruct (scan_ok_ascii [91] r s) as [Hok2 Hr2]; [done..|by repeat constructor|].
  cbn [length] in Hok2, Hr2. rewrite wp_bind. apply wp_ws; [done|].
  rewrite Hr2. intros w rest -> Hw _ Hok3 Hr3. rewrite adv_adv in *. rewrite wp_bind.
  apply wp_byte; [done|lia|..].
  - intros rest' Hr4 Hok4 _. rewrite wp_ret. rewrite Hr3 in Hr4. revert Hr4. intros ->.
    assert (adv 1 (adv (1 + length w) s) =
      read_json (length (91 :: w ++ [93])) (JArr []) false (envelope s) s) as Heq by json_eq.
    exists (JArr []), (91 :: w ++ [93]), rest', (envelope s). rewrite Heq in *.
    rewrite Hr. split_and!; try done.
    + simpl. by rewrite <- app_assoc.
    + by constructor.
  - intros _. eapply wp_mono; [apply Hel|..]; [done|lia| | |done].
    { rewrite Hr3. simpl in Hf. rewrite length_app in Hf. lia. }
    intros _ s' (js & body & rest' & Hb & Hjs & Hdep & Hnum & -> & Hok).
    rewrite Hr3 in Hb. revert Hb. intros ->. rewrite read_json_adv in *.
    exists (JArr js), (91 :: w ++ body ++ [93]), rest', (envelope s).
    rewrite Hr. split_and!; try done.
    + simpl. by rewrite <- !app_assoc.
    + by constructor.
    + lia.
    + f_equal. simpl. rewrite !length_app. simpl. lia.
Qed.

Lemma wp_note_name is_root dup name Q R s :
  wp (note_name is_root dup name) Q R s ↔
  Q tt (grow 0 0 0 0 dup
    (if is_root then (let e := note_member name (envelope s) in
                      if dup then note_duplicate_member name e else e) else envelope s) s).
Proof.
  assert (note_name is_root dup name s = (Ok tt, grow 0 0 0 0 dup
    (if is_root then (let e := note_member name (envelope s) in
                      if dup then note_duplicate_member name e else e) else envelope s) s)) as Hrun.
  { destruct is_root, dup, s; unfold note_name, bind, modify, ret; f_equal; grow_eq. }
  unfold wp. by rewrite Hrun.
Qed.

Lemma scan_ok_same n d env s : scan_ok s → n = 0%nat → scan_ok (grow n 0 0 0 d env s).
Proof.
  intros Hs ->. destruct (Hs). apply scan_ok_grow; try done; lia.
Qed.

Lemma root_envelope_nested d j s env : 1 <= d → root_envelope d j s env → env = envelope s.
Proof. intros Hd. unfold root_envelope. destruct j; try done. by rewrite (proj2 (Z.eqb_neq d 0)) by lia. Qed.

Lemma member_step fuel is_root nd names s :
  value_sound fuel → scan_ok s → 1 <= nd <= MAX_JSON_NESTING_DEPTH →
  (3 * length (cur_rest s) + 1 ≤ fuel)%nat →
  wp (parse_member (parse_value fuel nd) is_root names) (member_post is_root nd names s) any_error s.
Proof.
  intros Hval Hs Hnd Hf. unfold parse_member. rewrite wp_bind.
  apply wp_charge_entry; [done| |done]. intros He.
  pose proof (scan_ok_set_entries s Hs He) as Hs1.
  rewrite wp_bind. eapply wp_mono; [by apply wp_parse_string_sound|..]; [|done].
  intros o s2 (nraw & name & r1 & Hr1 & Hname & -> & Hs2e & Hs2).
  change (cur_rest s = nraw ++ r1) in Hr1.
  assert (Hr2 : cur_rest s2 = r1) by (subst s2; unfold read_string; rewrite rest_grow;
    change (drop (length nraw) (cur_rest s) = r1); by rewrite Hr1, drop_app_length).
  rewrite wp_bind, wp_ok_or, wp_bind, wp_note_name.
  match goal with |- wp _ _ _ ?st => set (s3 := st) end.
  assert (Hs3 : scan_ok s3) by (by apply scan_ok_same).
  assert (Hr3 : cur_rest s3 = r1) by (unfold s3; by rewrite rest_grow, drop_0).
  rewrite wp_bind. apply wp_ws; [done|]. rewrite Hr3.
  intros w1 r2 -> Hw1 _ Hs4 Hr4. rewrite wp_bind. apply wp_byte; [done|lia| |done].
  rewrite Hr4. intros r3 -> Hs5 Hr5. cbn [negb]. rewrite adv_adv in *.
  rewrite wp_bind. apply wp_ws; [done|]. rewrite Hr5. intros w2 r4 -> Hw2 _ Hs6 Hr6.
  rewrite adv_adv in *. rewrite wp_bind, wp_gets, wp_bind.
  set (s4 := adv (length w1 + 1 + length w2) s3) in *.
  eapply wp_mono; [apply (Hval nd s4)|..]; [done|lia| | |done].
  { rewrite Hr6. rewrite Hr1 in Hf. rewrite !length_app in Hf. simpl in Hf. rewrite length_app in Hf. lia. }
  intros _ s5 (j & raw & r5 & env & Hr7 & Hj & Hdep & Hnum & -> & Hok & Henv).
  apply root_envelope_nested in Henv; [|lia]. rewrite Hr6 in Hr7. revert Hr7. intros ->.
  rewrite wp_bind, wp_gets, wp_bind.
  set (sv := read_json _ _ _ _ _) in *. set (a := cur_pos s4). set (b := cur_pos sv).
  set (env' := if is_root then note_one names name a b (envelope s) else envelope s).
  set (body := nraw ++ w1 ++ 58 :: w2 ++ raw).
  assert (Hrest : cur_rest s = body ++ r5) by (rewrite Hr1; unfold body; by rewrite <- !app_assoc; simpl; rewrite <- app_assoc).
  set (fin := grow (length body) (1 + entries j) (num_bytes j)
    (chars_bytes name + str_bytes j) (bool_decide (name ∈ names) || negb (distinct j)) env' s).
  assert (Hfin : (if is_root then map_envelope (note_value_span name a b) sv else sv) = fin).
  { subst fin sv env s4 s3 s2 body env'. unfold note_one.
    destruct is_root; unfold read_json, read_string; grow_eq. }
  assert (Hok' : scan_ok fin).
  { rewrite <- Hfin. destruct is_root; [by apply scan_ok_map_envelope|done]. }
  assert (Hspan : span_ok (input s) (name, j) (name, (a, b))).
  { assert (drop a (input s) = raw ++ r5) as Hda.
    { transitivity (cur_rest s4); [|done]. by subst s4 s3 s2. }
    split; [done|]. simpl. rewrite Hda.
    assert (b = (a + length raw)%nat) as -> by done.
    replace (a + length raw - a)%nat with (length raw) by lia. rewrite take_app_length.
    split; [|done]. split; [lia|]. pose proof (f_equal length Hda) as Hlen.
    rewrite length_drop, length_app in Hlen.
    assert (a ≤ length (input s))%nat by (subst s2; apply (ok_bounds _ Hs6)). lia. }
  assert (Hpost : member_post is_root nd names s name fin).
  { exists nraw, w1, w2, j, raw, r5, a, b, env'. fold body. split_and!; try done.
    unfold fin. by rewrite rest_grow, Hrest, drop_app_length. }
  destruct is_root; autorewrite with wp; by rewrite Hfin.
Qed.

Lemma depth_obj_cons n j ms : depth (JObj ((n, j) :: ms)) = Z.max (1 + depth j) (depth (JObj ms)).
Proof. simpl. lia. Qed.
Lemma depth_arr_cons j js : depth (JArr (j :: js)) = Z.max (1 + depth j) (depth (JArr js)).
Proof. simpl. lia. Qed.
Lemma depth_nonneg j : 0 <= depth j.
Proof.
  destruct j as [| | | |js|ms]; try done.
  - induction js; [done|]. rewrite depth_arr_cons. lia.
  - induction ms as [|[n j] ms IH]; [done|]. rewrite depth_obj_cons. lia.
Qed.

Lemma members_step fuel : value_sound fuel → members_sound fuel → members_sound (S fuel).
Proof.
  intros Hval Hmem is_root nd names s Hs Hnd Hf. cbn [parse_members]. rewrite wp_bind.
  eapply wp_mono; [apply member_step|..]; [done..|lia| |done].
  intros name s1 (nraw & w1 & w2 & j & raw & r1 & a & b & env & Hr & Hname & Hw1 & Hw2 & Hj &
    Hdep & Hnum & Hs1e & Hs1 & Hr1 & Hspan & Henv).
  rewrite wp_bind. apply wp_ws; [done|]. rewrite Hr1. intros w3 r2 -> Hw3 _ Hs2 Hr2.
  rewrite wp_bind. apply wp_byte; [done|lia|..]; rewrite Hr2.
  - intros r3 -> Hs3 Hr3. rewrite wp_ret. rewrite adv_adv in *.
    exists [(name, j)], (nraw ++ w1 ++ 58 :: w2 ++ raw ++ w3), r3, env.
    assert (adv (length w3 + 1) s1 =
      read_json (length (nraw ++ w1 ++ 58 :: w2 ++ raw ++ w3) + 1) (JObj [(name, j)])
        (dup_members names [(name, j)]) env s) as Heq
      by (subst s1; cbn [dup_members]; rewrite orb_false_r; json_eq).
    rewrite Heq in *. split_and!; try done.
    + rewrite Hr. rewrite <- !app_assoc. simpl. by rewrite <- !app_assoc.
    + by constructor.
    + rewrite depth_obj_cons. cbn [depth foldr]. lia.
    + unfold numbers_within in *. simpl. by rewrite Hnum.
    + subst env. destruct is_root; [|done]. exists [(name, (a, b))].
      split; [by apply Forall2_cons|done].
  - intros _. rewrite wp_bind. apply wp_byte; [done|lia| |done]. rewrite Hr2.
    intros r3 -> Hs3 Hr3. cbn [negb]. rewrite adv_adv in *.
    rewrite wp_bind. apply wp_ws; [done|]. rewrite Hr3. intros w4 r4 -> Hw4 _ Hs4 Hr4.
    rewrite adv_adv in *. eapply wp_mono; [apply Hmem|..]; [done|done| | |done].
    { rewrite Hr4. rewrite Hr, !length_app in Hf. simpl in Hf. rewrite !length_app in Hf.
      simpl in Hf. lia. }
    intros _ s' (ms & body & rest & env' & Hb & Hms & Hdep' & Hnum' & -> & Hok & Henv').
    rewrite Hr4 in Hb. revert Hb. intros ->.
    set (body' := nraw ++ w1 ++ 58 :: w2 ++ raw ++ w3 ++ 44 :: w4 ++ body).
    exists ((name, j) :: ms), body', rest, env'.
    assert (read_json (length body + 1) (JObj ms) (dup_members ({[name]} ∪ names) ms) env'
        (adv (length w3 + 1 + length w4) s1) =
      read_json (length body' + 1) (JObj ((name, j) :: ms)) (dup_members names ((name, j) :: ms))
        env' s) as Heq by (subst s1 body'; cbn [dup_members]; json_eq).
    rewrite Heq in *. split_and!; try done.
    + rewrite Hr. unfold body'. repeat (rewrite <- !app_assoc; simpl). done.
    + by constructor.
    + rewrite depth_obj_cons. lia.
    + unfold numbers_within in *. simpl in *. by rewrite Hnum, Hnum'.
    + destruct is_root; [|by subst]. destruct Henv' as (sps & Hsp & ->).
      exists ((name, (a, b)) :: sps). subst s1 env. split; [by constructor|done].
Qed.

Lemma elements_step fuel : value_sound fuel → elements_sound fuel → elements_sound (S fuel).
Proof.
  intros Hval Hel nd s Hs Hnd Hf. cbn [parse_elements]. rewrite wp_bind.
  apply wp_charge_entry; [done| |done]. intros He.
  pose proof (scan_ok_set_entries s Hs He) as Hs1.
  change (cur_rest s) with (cur_rest (set_entries (container_entries s + 1) s)) in *.
  rewrite wp_bind. eapply wp_mono; [apply Hval|..]; [done|lia|lia| |done].
  intros _ s2 (j & raw & r1 & env & Hr & Hj & Hdep & Hnum & Hs2e & Hs2 & Henv).
  apply root_envelope_nested in Henv; [|lia]. simpl in Henv. subst env.
  assert (Hr1 : cur_rest s2 = r1)
    by (subst s2; unfold read_json; by rewrite rest_grow, Hr, drop_app_length).
  rewrite wp_bind. apply wp_ws; [done|]. rewrite Hr1. intros w3 r2 -> Hw3 _ Hs2' Hr2.
  rewrite wp_bind. apply wp_byte; [done|lia|..]; rewrite Hr2.
  - intros r3 -> Hs3 Hr3. rewrite wp_ret. rewrite adv_adv in *.
    exists [j], (raw ++ w3), r3.
    assert (adv (length w3 + 1) s2 =
      read_json (length (raw ++ w3) + 1) (JArr [j]) (negb (distinct (JArr [j]))) (envelope s) s)
      as Heq by (subst s2; cbn [distinct forallb]; rewrite andb_true_r; json_eq).
    rewrite Heq in *. split_and!; try done.
    + change (cur_rest s) with (cur_rest (set_entries (container_entries s + 1) s)).
      rewrite Hr. by rewrite <- !app_assoc.
    + by constructor.
    + rewrite depth_arr_cons. cbn [depth foldr]. lia.
    + unfold numbers_within in *. simpl. by rewrite Hnum.
  - intros _. rewrite wp_bind. apply wp_byte; [done|lia| |done]. rewrite Hr2.
    intros r3 -> Hs3 Hr3. cbn [negb]. rewrite adv_adv in *.
    rewrite wp_bind. apply wp_ws; [done|]. rewrite Hr3. intros w4 r4 -> Hw4 _ Hs4 Hr4.
    rewrite adv_adv in *. eapply wp_mono; [apply Hel|..]; [done|done| | |done].
    { rewrite Hr4. rewrite Hr, !length_app in Hf. simpl in Hf. rewrite !length_app in Hf. lia. }
    intros _ s' (js & body & rest & Hb & Hjs & Hdep' & Hnum' & -> & Hok).
    rewrite Hr4 in Hb. revert Hb. intros ->.
    set (body' := raw ++ w3 ++ 44 :: w4 ++ body). exists (j :: js), body', rest.
    match goal with |- context [?s' = read_json _ _ _ _ s] =>
      assert (s' = read_json (length body' + 1) (JArr (j :: js)) (negb (distinct (JArr (j :: js))))
        (envelope s) s) as Heq by (subst s2 body'; cbn [distinct forallb]; rewrite negb_andb; json_eq)
    end.
    rewrite Heq in *. split_and!; try done.
    + change (cur_rest s) with (cur_rest (set_entries (container_entries s + 1) s)).
      rewrite Hr. unfold body'. repeat (rewrite <- !app_assoc; simpl). done.
    + by constructor.
    + rewrite depth_arr_cons. lia.
    + unfold numbers_within in *. simpl in *. by rewrite Hnum, Hnum'.
Qed.

Lemma parser_sound fuel :
  value_sound fuel ∧ object_sound fuel ∧ members_sound fuel ∧ array_sound fuel ∧ elements_sound fuel.
Proof.
  induction fuel as [|fuel (Hv & Ho & Hm & Ha & He)].
  - split_and!; red; intros; try lia; destruct (cur_rest _); simpl in *; try lia; done.
  - split_and!; [by apply value_step|by apply object_step|by apply members_step
                |by apply array_step|by apply elements_step].
Qed.
