(* ===== verification/JsonAdmissionTheorems.v ===== *)
(** The codec's admission pass accepts every JSON document within its limits.

    What the codec's admission pass decides, and what the envelope it returns
    says about the document. *)
From stdpp Require Import base list gmap strings.
From Stdlib Require Import ZArith Lia Btauto.
From S2P Require Import Prelude Utf8 JsonGrammar Scanner JsonLex JsonFacts JsonAdmission JsonAdmissionSound.
Abbreviation no_error := (λ (_ : JsonAdmissionError) (_ : JsonAdmission), False).

(** The counters leave room for [e] entries, [k] number bytes and [c] string bytes. *)
Definition affords (e k c : Z) (s : JsonAdmission) : Prop :=
  container_entries s + e <= MAX_JSON_CONTAINER_ENTRIES ∧
  number_bytes s + k <= MAX_AGGREGATE_JSON_NUMBER_BYTES ∧
  decoded_string_bytes s + c <= decoded_string_byte_limit s.

Definition affords_json (j : json) (s : JsonAdmission) : Prop :=
  affords (entries j) (num_bytes j) (str_bytes j) s.

(** * Steps whose outcome the input forces *)

Lemma wp_ws_then w rest Q (R : JsonAdmissionError → JsonAdmission → Prop) s :
  scan_ok s → cur_rest s = w ++ rest → ws w → head_not is_ws rest →
  (scan_ok (adv (length w) s) → cur_rest (adv (length w) s) = rest → Q tt (adv (length w) s)) →
  wp skip_whitespace Q R s.
Proof.
  intros Hs Hr Hw Hh HQ. rewrite wp_skip_whitespace, Hr, take_while_app by done.
  destruct (scan_ok_ascii w rest s Hs Hr) as [? ?]; [by apply ws_ascii|auto].
Qed.

Lemma wp_byte_hit b rest Q (R : JsonAdmissionError → JsonAdmission → Prop) s :
  scan_ok s → b < 128 → cur_rest s = b :: rest →
  (scan_ok (adv 1 s) → cur_rest (adv 1 s) = rest → Q true (adv 1 s)) →
  wp (consume b) Q R s.
Proof.
  intros Hs Hb Hr HQ. apply wp_byte; [done..| |by rewrite Hr].
  rewrite Hr. intros ? [= <-]. done.
Qed.

Lemma wp_byte_miss b Q (R : JsonAdmissionError → JsonAdmission → Prop) s :
  head (cur_rest s) ≠ Some b → Q false s → wp (consume b) Q R s.
Proof. intros Hh HQ. rewrite wp_consume. by rewrite bool_decide_false. Qed.

(** * The parser *)

Definition value_complete (j : json) (raw : list Z) : Prop := ∀ fuel d rest s,
  scan_ok s → 0 <= d → d + depth j <= MAX_JSON_NESTING_DEPTH → numbers_within j = true →
  affords_json j s → cur_rest s = raw ++ rest → value_end rest →
  (3 * length (cur_rest s) + 1 ≤ fuel)%nat →
  wp (parse_value fuel d)
    (λ _ s', ∃ env, s' = read_json (length raw) j (negb (distinct j)) env s)
    no_error s.

Definition elements_complete (js : list json) (body : list Z) : Prop := ∀ fuel nd rest s,
  scan_ok s → 0 <= nd → nd + depth (JArr js) <= MAX_JSON_NESTING_DEPTH + 1 →
  numbers_within (JArr js) = true → affords_json (JArr js) s → cur_rest s = body ++ 93 :: rest →
  (3 * length (cur_rest s) + 2 ≤ fuel)%nat →
  wp (parse_elements fuel nd)
    (λ _ s', ∃ env, s' = read_json (length body + 1) (JArr js) (negb (distinct (JArr js))) env s)
    no_error s.

Definition members_complete (ms : list (list Z * json)) (body : list Z) : Prop :=
  ∀ fuel is_root nd names rest s,
  scan_ok s → 0 <= nd → nd + depth (JObj ms) <= MAX_JSON_NESTING_DEPTH + 1 →
  numbers_within (JObj ms) = true → affords_json (JObj ms) s → cur_rest s = body ++ 125 :: rest →
  (3 * length (cur_rest s) + 2 ≤ fuel)%nat →
  wp (parse_members fuel is_root nd names)
    (λ _ s', ∃ env, s' = read_json (length body + 1) (JObj ms) (dup_members names ms) env s)
    no_error s.

(** Reading a value keeps the invariant, by soundness. *)
Lemma value_complete_ok j raw fuel d rest s :
  value_complete j raw →
  scan_ok s → 0 <= d → d + depth j <= MAX_JSON_NESTING_DEPTH → numbers_within j = true →
  affords_json j s → cur_rest s = raw ++ rest → value_end rest →
  (3 * length (cur_rest s) + 1 ≤ fuel)%nat →
  wp (parse_value fuel d)
    (λ _ s', ∃ env, s' = read_json (length raw) j (negb (distinct j)) env s ∧ scan_ok s' ∧
       cur_rest s' = rest)
    no_error s.
Proof.
  intros Hc Hs Hd Hdep Hnum Haff Hr He Hf. pose proof (depth_nonneg j).
  destruct (parser_sound fuel) as [Hv _]. eapply wp_mono.
  - apply wp_and; [by eapply (Hc fuel d rest s)|apply (Hv d s); [done|lia|done]].
  - intros _ s' [[env ->] (? & ? & ? & ? & ? & ? & ? & ? & ? & Hok & ?)]. exists env.
    split_and!; try done. unfold read_json. by rewrite rest_grow, Hr, drop_app_length.
  - by intros ? ? [? ?].
Qed.

Lemma parse_string_ok (capture : bool) raw cs rest s :
  scan_ok s → cur_rest s = raw ++ rest → json_string raw cs →
  decoded_string_bytes s + chars_bytes cs <= decoded_string_byte_limit s →
  wp (parse_string capture)
    (λ r s', r = (if capture then Some cs else None) ∧ s' = read_string cs (length raw) s ∧
       scan_ok s' ∧ cur_rest s' = rest) no_error s.
Proof.
  intros Hs Hr Hraw Hl. eapply wp_mono.
  - apply wp_and; [|by apply (wp_parse_string_sound capture s)].
    eapply (wp_parse_string_complete capture raw cs rest (λ r s',
      r = (if capture then Some cs else None) ∧ s' = read_string cs (length raw) s) no_error); done.
  - intros r s' [[-> ->] (? & ? & ? & ? & ? & ? & ? & Hok)]. split_and!; try done.
    unfold read_string. by rewrite rest_grow, Hr, drop_app_length.
  - by intros ? ? [? ?].
Qed.

(** ** Scalars *)

Lemma complete_literal lit j fuel d rest s b r :
  scan_ok s → cur_rest s = lit ++ rest → lit = b :: r → zlen lit <= 8 →
  (b = 116 ∧ j = JBool true ∧ lit = chars_of "true") ∨
  (b = 102 ∧ j = JBool false ∧ lit = chars_of "false") ∨
  (b = 110 ∧ j = JNull ∧ lit = chars_of "null") →
  wp (parse_value (S fuel) d)
    (λ _ s', ∃ env, s' = read_json (length lit) j (negb (distinct j)) env s) no_error s.
Proof.
  intros Hs Hr Hlit Hlen Hk. cbn [parse_value]. rewrite wp_bind, wp_peek, Hr, Hlit. cbn [head app].
  destruct Hk as [(-> & -> & Hl)|[(-> & -> & Hl)|(-> & -> & Hl)]]; cbn [Z.eqb Pos.eqb];
    rewrite <- Hl, wp_parse_literal by (done || apply Hs);
    rewrite Hr, take_app_length, bool_decide_true by done;
    exists (envelope s); rewrite <- Hlit; json_eq.
Qed.

Lemma value_start_number b : b = 45 ∨ 48 <= b <= 57 →
  (b =? 123) = false ∧ (b =? 91) = false ∧ (b =? 34) = false ∧ (b =? 116) = false ∧
  (b =? 102) = false ∧ (b =? 110) = false ∧ (b =? 45) || is_digit b = true.
Proof.
  intros Hb. rewrite !Z.eqb_neq, orb_true_iff, Z.eqb_eq, digit_range. lia.
Qed.

Lemma complete_number tok ds : json_number tok ds → value_complete (JNum tok ds) tok.
Proof.
  intros Hn [|fuel] d rest s Hs Hd Hdep Hnum (_ & Hk & _) Hr He Hf; [lia|].
  destruct (json_number_head _ _ Hn) as (b & r & Htok & Hb).
  cbn [parse_value]. rewrite wp_bind, wp_peek, Hr, Htok. cbn [head app].
  apply value_start_number in Hb as (-> & -> & -> & -> & -> & -> & ->).
  unfold numbers_within in Hnum. cbn [numbers_ok num_bytes] in *. zbool.
  assert (Hfit : number_fits s (length tok) ds).
  { split_and!; try done. rewrite Hr. by apply number_at_complete. }
  apply wp_parse_number; [apply Hs| |].
  - intros n ds' (Hat & _). destruct Hfit as (Hat' & _). rewrite Hat in Hat'. simplify_eq.
    by exists (envelope s).
  - intros Hno. by destruct (Hno _ _ Hfit).
Qed.

Lemma complete_string raw cs : json_string raw cs → value_complete (JStr cs) raw.
Proof.
  intros Hraw [|fuel] d rest s Hs Hd Hdep Hnum (_ & _ & Hc) Hr He Hf; [lia|].
  cbn [parse_value]. rewrite wp_bind, wp_peek. pose proof Hraw as (b & -> & _). rewrite Hr. cbn [head app].
  cbn [Z.eqb Pos.eqb]. rewrite wp_bind.
  eapply wp_mono; [by apply (parse_string_ok false (34 :: b ++ [34]) cs rest s)|..]; [|done].
  intros r s' (_ & -> & _). rewrite wp_ret. by exists (envelope s).
Qed.

(** ** Containers *)

Lemma affords_adv n e k c s : affords e k c (adv n s) ↔ affords e k c s.
Proof. done. Qed.

Lemma affords_grow n e k c d env e' k' c' s :
  affords (e + e') (k + k') (c + c') s → affords e' k' c' (grow n e k c d env s).
Proof. unfold affords. simpl. lia. Qed.

Lemma affords_le e k c e' k' c' s :
  affords e k c s → e' <= e → k' <= k → c' <= c → affords e' k' c' s.
Proof. unfold affords. lia. Qed.

Lemma value_end_not_byte b rest : value_start b = true → head_not is_ws (b :: rest).
Proof. by intros [? _]%value_start_not. Qed.

Lemma complete_arr_nil w : ws w → value_complete (JArr []) (91 :: w ++ [93]).
Proof.
  intros Hw [|[|fuel]] d rest s Hs Hd Hdep Hnum Haff Hr He Hf; rewrite Hr in Hf; simpl in Hf; try lia.
  cbn [parse_value]. rewrite wp_bind, wp_peek, Hr. cbn [head app Z.eqb Pos.eqb parse_array].
  rewrite wp_bind. apply wp_enter; [done| |cbn [depth foldr] in Hdep; lia]. intros _.
  rewrite wp_bind, wp_advance. simpl in Hr. rewrite <- app_assoc in Hr.
  destruct (scan_ok_ascii [91] _ s Hs Hr) as [Hs1 Hr1]; [by repeat constructor|].
  rewrite wp_bind. eapply wp_ws_then; [done|exact Hr1|done|done|]. intros Hs2 Hr2.
  rewrite wp_bind. eapply wp_byte_hit; [done|lia|exact Hr2|]. intros _ _. rewrite wp_ret.
  exists (envelope s). rewrite !adv_adv. json_eq.
Qed.

Lemma complete_arr js w body :
  ws w → elements js body → elements_complete js body → value_complete (JArr js) (91 :: w ++ body ++ [93]).
Proof.
  intros Hw Hel IH [|[|fuel]] d rest s Hs Hd Hdep Hnum Haff Hr He Hf; rewrite Hr in Hf; simpl in Hf; try lia.
  cbn [parse_value]. rewrite wp_bind, wp_peek, Hr. cbn [head app Z.eqb Pos.eqb parse_array].
  rewrite wp_bind. apply wp_enter; [done| |]; cycle 1.
  { assert (1 <= depth (JArr js)) by (destruct js as [|j js]; [done|rewrite depth_arr_cons;
      pose proof (depth_nonneg j); lia]). lia. }
  intros _. rewrite wp_bind, wp_advance. simpl in Hr. rewrite <- !app_assoc in Hr.
  destruct (scan_ok_ascii [91] _ s Hs Hr) as [Hs1 Hr1]; [by repeat constructor|].
  destruct (elements_head _ _ Hel) as (b & r & Hb & Hst). pose proof (value_start_not _ Hst) as (Hnw & Hn93 & _).
  rewrite wp_bind. eapply wp_ws_then; [done|exact Hr1|done|by rewrite Hb|]. intros Hs2 Hr2.
  rewrite wp_bind. eapply wp_byte_miss; [rewrite Hr2, Hb; simpl; congruence|].
  eapply wp_mono; [eapply IH|..]; [done|lia|lia|done| |exact Hr2| | |done].
  - done.
  - rewrite Hr2. length_lia.
  - intros _ s' [env ->]. exists env. rewrite !read_json_adv. f_equal. length_lia.
Qed.

Lemma complete_elements_last j raw w :
  denotes j raw → value_complete j raw → ws w → elements_complete [j] (raw ++ w).
Proof.
  intros Hj IH Hw [|fuel] nd rest s Hs Hnd Hdep Hnum Haff Hr Hf; [lia|].
  unfold affords_json in Haff. cbn [entries num_bytes str_bytes foldr] in Haff.
  pose proof (entries_nonneg j). rewrite depth_arr_cons in Hdep. rewrite <- app_assoc in Hr.
  cbn [parse_elements]. rewrite wp_bind. apply wp_charge_entry; [done| |unfold affords in Haff; lia].
  intros He. pose proof (scan_ok_set_entries s Hs He) as Hs1.
  set (s1 := set_entries _ s) in *. rewrite wp_bind.
  eapply wp_mono; [eapply (value_complete_ok j raw fuel nd (w ++ 93 :: rest) s1)|..];
    [done|done|done|lia| | |done|by apply value_end_ws; [|tauto]|change (cur_rest s1) with (cur_rest s); lia| |done].
  { unfold numbers_within in *. simpl in Hnum. by rewrite andb_true_r in Hnum. }
  { unfold affords_json, affords, s1 in *. simpl. lia. }
  intros _ s2 (env & Hs2e & Hs2 & Hr2). rewrite wp_bind.
  eapply wp_ws_then; [done|done|done|done|]. intros Hs3 Hr3. rewrite wp_bind.
  eapply wp_byte_hit; [done|lia|exact Hr3|]. intros _ _. rewrite wp_ret. exists env.
  subst s2 s1. rewrite adv_adv. cbn [distinct forallb]. rewrite andb_true_r. json_eq.
Qed.

Lemma complete_elements_more j raw w1 w2 js body :
  denotes j raw → value_complete j raw → ws w1 → ws w2 → elements js body → elements_complete js body →
  elements_complete (j :: js) (raw ++ w1 ++ 44 :: w2 ++ body).
Proof.
  intros Hj IHj Hw1 Hw2 Hjs IH [|fuel] nd rest s Hs Hnd Hdep Hnum Haff Hr Hf; [lia|].
  unfold affords_json in Haff. cbn [entries num_bytes str_bytes foldr] in Haff.
  pose proof (entries_nonneg (JArr js)). pose proof (num_bytes_nonneg (JArr js)).
  pose proof (str_bytes_nonneg (JArr js)). pose proof (entries_nonneg j).
  rewrite depth_arr_cons in Hdep. unfold numbers_within in Hnum. simpl in Hnum. zbool.
  repeat (rewrite <- app_assoc in Hr; simpl in Hr). cbn [entries num_bytes str_bytes] in *.
  cbn [parse_elements]. rewrite wp_bind. apply wp_charge_entry; [done| |unfold affords in Haff; lia].
  intros He. pose proof (scan_ok_set_entries s Hs He) as Hs1.
  set (s1 := set_entries _ s) in *. rewrite wp_bind.
  eapply wp_mono; [eapply (value_complete_ok j raw fuel nd _ s1)|..];
    [done|done|done|lia|done| |exact Hr|by apply value_end_ws; [|tauto]
    |change (cur_rest s1) with (cur_rest s); lia| |done].
  { unfold affords_json, affords, s1 in *. simpl. lia. }
  intros _ s2 (env & Hs2e & Hs2 & Hr2). rewrite wp_bind.
  eapply wp_ws_then; [done|done|done|done|]. intros Hs3 Hr3. rewrite wp_bind.
  eapply wp_byte_miss; [by rewrite Hr3|]. rewrite wp_bind.
  eapply wp_byte_hit; [done|lia|exact Hr3|]. intros Hs4 Hr4. cbn [negb].
  destruct (elements_head _ _ Hjs) as (b & r & Hb & Hst). pose proof (value_start_not _ Hst) as (Hnw & _).
  rewrite wp_bind. eapply wp_ws_then; [done|exact Hr4|done|by rewrite Hb|]. intros Hs5 Hr5.
  eapply wp_mono; [eapply IH|..]; [done|done|lia|done| |exact Hr5| | |done].
  - unfold affords_json. rewrite !affords_adv. subst s2 s1. unfold affords in *. simpl. lia.
  - rewrite Hr5. rewrite Hr in Hf. length_lia.
  - intros _ s' [env' ->]. exists env'. rewrite !read_json_adv. subst s2 s1.
    cbn [distinct forallb]. rewrite negb_andb. json_eq.
Qed.

Lemma complete_obj_nil w : ws w → value_complete (JObj []) (123 :: w ++ [125]).
Proof.
  intros Hw [|[|fuel]] d rest s Hs Hd Hdep Hnum Haff Hr He Hf; rewrite Hr in Hf; simpl in Hf; try lia.
  cbn [parse_value]. rewrite wp_bind, wp_peek, Hr. cbn [head app Z.eqb Pos.eqb parse_object].
  rewrite wp_note_object.
  destruct (note_object_facts d s) as (Hr1 & Hok1 & _ & _ & Hread). specialize (Hok1 Hs).
  set (s1 := note_object d s) in *. clearbody s1. rewrite <- Hr1 in Hr.
  rewrite wp_bind. apply wp_enter; [done| |cbn [depth foldr] in Hdep; lia]. intros _.
  rewrite wp_bind, wp_advance. simpl in Hr. rewrite <- app_assoc in Hr.
  destruct (scan_ok_ascii [123] _ s1 Hok1 Hr) as [Hs2 Hr2]; [by repeat constructor|].
  rewrite wp_bind. eapply wp_ws_then; [done|exact Hr2|done|done|]. intros Hs3 Hr3.
  rewrite wp_bind. eapply wp_byte_hit; [done|lia|exact Hr3|]. intros _ _. rewrite wp_ret.
  exists (envelope s1). rewrite <- Hread, !adv_adv. json_eq.
Qed.

Lemma complete_obj ms w body :
  ws w → members ms body → members_complete ms body →
  value_complete (JObj ms) (123 :: w ++ body ++ [125]).
Proof.
  intros Hw Hms IH [|[|fuel]] d rest s Hs Hd Hdep Hnum Haff Hr He Hf; rewrite Hr in Hf; simpl in Hf; try lia.
  cbn [parse_value]. rewrite wp_bind, wp_peek, Hr. cbn [head app Z.eqb Pos.eqb parse_object].
  rewrite wp_note_object.
  destruct (note_object_facts d s) as (Hr1 & Hok1 & _ & _ & Hread). specialize (Hok1 Hs).
  assert (affords_json (JObj ms) (note_object d s)) as Haff1
    by (unfold note_object; by destruct (d =? 0)).
  set (s1 := note_object d s) in *. clearbody s1. rewrite <- Hr1 in Hr.
  rewrite wp_bind. apply wp_enter; [done| |]; cycle 1.
  { assert (1 <= depth (JObj ms)) by (destruct ms as [|[n j] ms]; [done|rewrite depth_obj_cons;
      pose proof (depth_nonneg j); lia]). lia. }
  intros _. rewrite wp_bind, wp_advance. simpl in Hr. rewrite <- !app_assoc in Hr.
  destruct (scan_ok_ascii [123] _ s1 Hok1 Hr) as [Hs2 Hr2]; [by repeat constructor|].
  destruct (members_head _ _ Hms) as (r & Hb).
  rewrite wp_bind. eapply wp_ws_then; [done|exact Hr2|done|by rewrite Hb|]. intros Hs3 Hr3.
  rewrite wp_bind. eapply wp_byte_miss; [by rewrite Hr3, Hb|].
  eapply wp_mono; [eapply IH|..]; [done|lia|lia|done|done|exact Hr3| | |done].
  - rewrite Hr3. length_lia.
  - intros _ s' [env ->]. exists env. rewrite !read_json_adv, Hread, dup_members_distinct.
    f_equal. length_lia.
Qed.

(** [s] after the member [name: j] of [n] bytes. *)
Definition read_member (n : nat) (names : gset (list Z)) (name : list Z) (j : json)
    (env : RawEnvelopeShape) (s : JsonAdmission) : JsonAdmission :=
  grow n (1 + entries j) (num_bytes j) (chars_bytes name + str_bytes j)
    (bool_decide (name ∈ names) || negb (distinct j)) env s.

Lemma complete_member fuel nd is_root names name nraw w1 w2 j raw rest s :
  json_string nraw name → ws w1 → ws w2 → denotes j raw → value_complete j raw →
  scan_ok s → 0 <= nd → nd + depth j <= MAX_JSON_NESTING_DEPTH → numbers_within j = true →
  affords (1 + entries j) (num_bytes j) (chars_bytes name + str_bytes j) s →
  cur_rest s = nraw ++ w1 ++ 58 :: w2 ++ raw ++ rest → value_end rest →
  (3 * length (cur_rest s) + 1 ≤ fuel)%nat →
  wp (parse_member (parse_value fuel nd) is_root names)
    (λ name' s', name' = name ∧ scan_ok s' ∧ cur_rest s' = rest ∧ ∃ env,
       s' = read_member (length (nraw ++ w1 ++ 58 :: w2 ++ raw)) names name j env s)
    no_error s.
Proof.
  intros Hname Hw1 Hw2 Hj IH Hs Hnd Hdep Hnum Haff Hr He Hf.
  pose proof (entries_nonneg j). pose proof (str_bytes_nonneg j).
  unfold parse_member. rewrite wp_bind.
  apply wp_charge_entry; [done| |unfold affords in Haff; lia].
  intros Hent. pose proof (scan_ok_set_entries s Hs Hent) as Hs1.
  set (s1 := set_entries _ s) in *. rewrite wp_bind.
  eapply wp_mono; [apply (parse_string_ok true nraw name (w1 ++ 58 :: w2 ++ raw ++ rest) s1)|..];
    [done..|unfold affords, s1 in *; simpl; lia| |done].
  intros o s2 (-> & Hs2e & Hs2 & Hr2). rewrite wp_bind, wp_ok_or, wp_bind, wp_note_name.
  match goal with |- wp _ _ _ ?st => set (s3 := st) end.
  assert (Hs3 : scan_ok s3) by (by apply scan_ok_same).
  assert (Hr3 : cur_rest s3 = w1 ++ 58 :: w2 ++ raw ++ rest)
    by (unfold s3; by rewrite rest_grow, drop_0).
  rewrite wp_bind. eapply wp_ws_then; [done|exact Hr3|done|done|]. intros Hs4 Hr4.
  rewrite wp_bind. eapply wp_byte_hit; [done|lia|exact Hr4|]. intros Hs5 Hr5. cbn [negb].
  destruct (denotes_head _ _ Hj) as (b & r & Hb & Hst). pose proof (value_start_not _ Hst) as (Hnw & _).
  rewrite wp_bind. eapply wp_ws_then; [done|exact Hr5|done|by rewrite Hb|]. intros Hs6 Hr6.
  rewrite wp_bind, wp_gets, wp_bind. rewrite !adv_adv in *.
  eapply wp_mono; [eapply (value_complete_ok j raw fuel nd rest)|..];
    [done|done|done|done|done| |exact Hr6|done| | |done].
  - subst s3 s2 s1. unfold affords_json, affords in *. simpl. lia.
  - rewrite Hr6. rewrite Hr in Hf. length_lia.
  - intros _ s7 (env & Hs7e & Hs7 & Hr7). rewrite wp_bind, wp_gets, wp_bind.
    destruct is_root; autorewrite with wp; split_and!; try done;
      [by apply scan_ok_map_envelope| |]; eexists; subst s7 s3 s2 s1; unfold read_member; json_eq.
Qed.

Lemma complete_members_last name nraw w1 w2 j raw w3 :
  json_string nraw name → ws w1 → ws w2 → denotes j raw → value_complete j raw → ws w3 →
  members_complete [(name, j)] (nraw ++ w1 ++ 58 :: w2 ++ raw ++ w3).
Proof.
  intros Hname Hw1 Hw2 Hj IH Hw3 [|fuel] is_root nd names rest s Hs Hnd Hdep Hnum Haff Hr Hf; [lia|].
  unfold affords_json in Haff. cbn [entries num_bytes str_bytes foldr fst snd] in Haff.
  rewrite depth_obj_cons in Hdep. unfold numbers_within in Hnum. simpl in Hnum. zbool.
  repeat (rewrite <- app_assoc in Hr; simpl in Hr).
  cbn [parse_members]. rewrite wp_bind.
  eapply wp_mono; [eapply (complete_member fuel nd is_root names name nraw w1 w2 j raw)|..];
    [done|done|done|done|done|done|done|lia|done| |exact Hr|by apply value_end_ws; [|tauto]|lia| |done].
  { unfold affords in *. lia. }
  intros ? s1 (-> & Hs1 & Hr1 & env & Hs1e). rewrite wp_bind.
  eapply wp_ws_then; [done|exact Hr1|done|done|]. intros Hs2 Hr2. rewrite wp_bind.
  eapply wp_byte_hit; [done|lia|exact Hr2|]. intros _ _. rewrite wp_ret. exists env.
  subst s1. cbn [dup_members]. rewrite orb_false_r. unfold read_member. json_eq.
Qed.

Lemma complete_members_more name nraw w1 w2 j raw w3 w4 ms body :
  json_string nraw name → ws w1 → ws w2 → denotes j raw → value_complete j raw → ws w3 → ws w4 →
  members ms body → members_complete ms body →
  members_complete ((name, j) :: ms) (nraw ++ w1 ++ 58 :: w2 ++ raw ++ w3 ++ 44 :: w4 ++ body).
Proof.
  intros Hname Hw1 Hw2 Hj IHj Hw3 Hw4 Hms IH [|fuel] is_root nd names rest s Hs Hnd Hdep Hnum Haff Hr Hf; [lia|].
  unfold affords_json in Haff. cbn [entries num_bytes str_bytes foldr fst snd] in Haff.
  pose proof (entries_nonneg (JObj ms)). pose proof (num_bytes_nonneg (JObj ms)).
  pose proof (str_bytes_nonneg (JObj ms)). cbn [entries num_bytes str_bytes] in *.
  rewrite depth_obj_cons in Hdep. unfold numbers_within in Hnum. simpl in Hnum. zbool.
  repeat (rewrite <- app_assoc in Hr; simpl in Hr).
  cbn [parse_members]. rewrite wp_bind.
  eapply wp_mono; [eapply (complete_member fuel nd is_root names name nraw w1 w2 j raw)|..];
    [done|done|done|done|done|done|done|lia|done| |exact Hr|by apply value_end_ws; [|tauto]|lia| |done].
  { unfold affords in *. lia. }
  intros ? s1 (-> & Hs1 & Hr1 & env & Hs1e). rewrite wp_bind.
  eapply wp_ws_then; [done|exact Hr1|done|done|]. intros Hs2 Hr2. rewrite wp_bind.
  eapply wp_byte_miss; [by rewrite Hr2|]. rewrite wp_bind.
  eapply wp_byte_hit; [done|lia|exact Hr2|]. intros Hs3 Hr3. cbn [negb].
  destruct (members_head _ _ Hms) as (r & Hb).
  rewrite wp_bind. eapply wp_ws_then; [done|exact Hr3|done|by rewrite Hb|]. intros Hs4 Hr4.
  eapply wp_mono; [eapply IH|..]; [done|done|lia|done| |exact Hr4| | |done].
  - unfold affords_json. rewrite !affords_adv. subst s1. unfold affords in *. simpl. lia.
  - rewrite Hr4. rewrite Hr in Hf. length_lia.
  - intros _ s' [env' ->]. exists env'. rewrite !read_json_adv. subst s1. unfold read_member.
    cbn [dup_members]. json_eq.
Qed.

Lemma parser_complete :
  (∀ j raw, denotes j raw → value_complete j raw) ∧
  (∀ js body, elements js body → elements_complete js body) ∧
  (∀ ms body, members ms body → members_complete ms body).
Proof.
  apply json_mut; intros.
  - intros [|fuel] d rest s ????????; [lia|]. by eapply complete_literal; auto.
  - intros [|fuel] d rest s ????????; [lia|]. by eapply complete_literal; auto.
  - intros [|fuel] d rest s ????????; [lia|]. by eapply complete_literal; auto.
  - by apply complete_number.
  - by apply complete_string.
  - by apply complete_arr_nil.
  - by apply complete_arr.
  - by apply complete_obj_nil.
  - by apply complete_obj.
  - by apply complete_elements_last.
  - by apply complete_elements_more.
  - by apply complete_members_last.
  - by apply complete_members_more.
Qed.

(** The codec's policy for a frame limit. *)
Definition codec_limits (limit : Z) : limits := {|
  max_depth := MAX_JSON_NESTING_DEPTH;
  max_entries := MAX_JSON_CONTAINER_ENTRIES;
  max_number_len := MAX_JSON_NUMBER_BYTES;
  max_number_bytes := MAX_AGGREGATE_JSON_NUMBER_BYTES;
  max_exponent := MAX_ABSOLUTE_JSON_EXPONENT;
  max_string_bytes := limit |}.

(** * A whole document *)

Lemma scan_ok_new bs limit :
  valid_utf8 bs → zlen bs <= isize_max → 0 <= limit → scan_ok (JsonAdmission_new bs limit).
Proof.
  intros Hv Hl Hlim. split; simpl; try done; try lia. split; [simpl; lia|done].
Qed.

Section document.
Context (bs : list Z) (limit : Z).
Context (Hutf8 : valid_utf8 bs) (Hlen : zlen bs <= isize_max) (Hlimit : 0 <= limit).

Lemma cur_rest_new : cur_rest (JsonAdmission_new bs limit) = bs.
Proof. unfold cur_rest. simpl. by rewrite drop_0. Qed.

(** What a completed scan establishes. *)
Definition document_post (s' : JsonAdmission) : Prop :=
  ∃ j s0 env, document j bs ∧ within (codec_limits limit) j ∧
    duplicate_object_member s' = negb (distinct j) ∧ envelope s' = env ∧
    input s0 = bs ∧ envelope s0 = RawEnvelopeShape_default ∧ root_envelope 0 j s0 env.

Lemma parse_document_sound :
  wp parse_document (λ _ s', document_post s') any_error (JsonAdmission_new bs limit).
Proof.
  pose proof (scan_ok_new bs limit Hutf8 Hlen Hlimit) as Hs. pose proof cur_rest_new as Hr.
  set (s := JsonAdmission_new bs limit) in *.
  unfold parse_document. rewrite wp_bind. apply wp_ws; [done|]. rewrite Hr.
  intros w1 r1 Hbs Hw1 _ Hs1 Hr1. rewrite wp_bind, wp_gets, wp_bind.
  destruct (parser_sound (3 * length (cur_bytes (adv (length w1) s)) + 3)) as [Hv _].
  eapply wp_mono; [apply Hv|..]; [done|done| | |done].
  { rewrite Hr1. simpl cur_bytes. rewrite Hbs. length_lia. }
  intros _ s2 (j & raw & r2 & env & Hraw & Hj & Hdep & Hnum & Hs2e & Hs2 & Henv).
  rewrite Hr1 in Hraw. revert Hraw. intros ->.
  assert (Hr2 : cur_rest s2 = r2) by (subst s2; unfold read_json;
    by rewrite rest_grow, Hr1, drop_app_length).
  rewrite wp_bind. apply wp_ws; [done|]. rewrite Hr2. intros w2 r3 -> Hw2 _ Hs3 Hr3.
  rewrite wp_bind, wp_get. case_bool_decide as Hend; [|done]. rewrite wp_ret.
  assert (r3 = []) as ->.
  { rewrite <- Hr3. unfold cur_rest. simpl in *. rewrite Hend. apply drop_all. }
  rewrite app_nil_r in Hbs. exists j, (adv (length w1) s), env.
  destruct Hs2 as [_ _ He Hk Hc _]. subst s2. simpl in *.
  split_and!; try done; [by exists w1, raw, w2|]. unfold within. simpl. split_and!; done || lia.
Qed.

Lemma parse_document_complete j :
  document j bs → within (codec_limits limit) j →
  wp parse_document (λ _ s', duplicate_object_member s' = negb (distinct j)) no_error
    (JsonAdmission_new bs limit).
Proof.
  intros (w1 & raw & w2 & Hbs & Hw1 & Hj & Hw2) (Hdep & Hent & Hnum & Hnb & Hsb).
  pose proof (scan_ok_new bs limit Hutf8 Hlen Hlimit) as Hs. pose proof cur_rest_new as Hr.
  set (s := JsonAdmission_new bs limit) in *. rewrite Hbs in Hr.
  destruct (denotes_head _ _ Hj) as (b & r & Hb & Hst). pose proof (value_start_not _ Hst) as (Hnw & _).
  unfold parse_document. rewrite wp_bind.
  eapply wp_ws_then; [done|exact Hr|done|by rewrite Hb|]. intros Hs1 Hr1.
  rewrite wp_bind, wp_gets, wp_bind.
  eapply wp_mono; [eapply (value_complete_ok j raw _ 0 w2)|..];
    [by apply parser_complete|done|done|done|done| |done|by apply value_end_ws_nil| | |done].
  { done. }
  { rewrite Hr1. simpl cur_bytes. rewrite Hbs. length_lia. }
  intros _ s2 (env & Hs2e & Hs2 & Hr2). rewrite wp_bind.
  eapply (wp_ws_then w2 []); [done|by rewrite app_nil_r|done|done|]. intros Hs3 Hr3.
  rewrite wp_bind, wp_get. rewrite bool_decide_true.
  - rewrite wp_ret. by subst s2.
  - destruct (ok_bounds _ Hs3) as [Hp _]. apply (f_equal length) in Hr3.
    unfold cur_rest in Hr3. rewrite length_drop in Hr3. simpl in *. lia.
Qed.
End document.

(** * The envelope *)

Definition id_name : list Z := chars_of "id".

(** The members called [id]. *)
Definition ids (sps : list span) : list span := filter (λ sp, sp.1 = id_name) sps.

Definition known_members : list (list Z) :=
  chars_of <$> ["jsonrpc"; "method"; "params"; "id"; "result"; "error"]%string.

Definition noted (s : string) (sps : list span) : bool := bool_decide (chars_of s ∈ sps.*1).
Definition unknown_noted (sps : list span) : bool :=
  bool_decide (Exists (λ n, n ∉ known_members) sps.*1).

Lemma noted_cons s n p sps :
  noted s ((n, p) :: sps) = bool_decide (n = chars_of s) || noted s sps.
Proof.
  unfold noted. rewrite <- bool_decide_or. apply bool_decide_ext. simpl.
  rewrite elem_of_cons. naive_solver.
Qed.

Lemma unknown_noted_cons n p sps :
  unknown_noted ((n, p) :: sps) = bool_decide (n ∉ known_members) || unknown_noted sps.
Proof.
  unfold unknown_noted. rewrite <- bool_decide_or. apply bool_decide_ext. simpl.
  by rewrite Exists_cons.
Qed.

Lemma note_one_flags names n a b e :
  let e' := note_one names n a b e in
  let named s := bool_decide (n = chars_of s) in
  root_is_object e' = root_is_object e ∧
  has_method e' = has_method e || named "method"%string ∧
  has_params e' = has_params e || named "params"%string ∧
  has_id e' = has_id e || named "id"%string ∧
  has_result e' = has_result e || named "result"%string ∧
  has_error e' = has_error e || named "error"%string ∧
  has_unknown_member e' = has_unknown_member e || bool_decide (n ∉ known_members) ∧
  has_duplicate_id e' = has_duplicate_id e || bool_decide (n = id_name ∧ n ∈ names) ∧
  id_span e' = if bool_decide (n = id_name) then Some (a, b) else id_span e.
Proof.
  assert (negb (bool_decide (n = chars_of "jsonrpc") || bool_decide (n = chars_of "method") ||
    bool_decide (n = chars_of "params") || bool_decide (n = chars_of "id") ||
    bool_decide (n = chars_of "result") || bool_decide (n = chars_of "error")) =
    bool_decide (n ∉ known_members)) as Hk.
  { rewrite <- !bool_decide_or, <- bool_decide_not. apply bool_decide_ext.
    unfold known_members. simpl. rewrite !elem_of_cons, elem_of_nil. tauto. }
  unfold note_one, note_value_span, note_duplicate_member, note_member, id_name.
  rewrite Hk, bool_decide_and.
  destruct (bool_decide (n = chars_of "id")), (bool_decide (n ∈ names)); simpl;
    rewrite ?orb_false_r, ?orb_true_r; split_and!; done.
Qed.

Lemma note_members_flags names sps e :
  let e' := note_members names sps e in
  root_is_object e' = root_is_object e ∧
  has_method e' = has_method e || noted "method" sps ∧
  has_params e' = has_params e || noted "params" sps ∧
  has_id e' = has_id e || noted "id" sps ∧
  has_result e' = has_result e || noted "result" sps ∧
  has_error e' = has_error e || noted "error" sps ∧
  has_unknown_member e' = has_unknown_member e || unknown_noted sps.
Proof.
  revert names e. induction sps as [|[n [a b]] sps IH]; intros names e.
  { unfold noted, unknown_noted. simpl. rewrite !orb_false_r. done. }
  cbn [note_members]. rewrite !noted_cons, unknown_noted_cons, !orb_assoc.
  destruct (note_one_flags names n a b e) as (<- & <- & <- & <- & <- & <- & <- & _). apply IH.
Qed.

Lemma ids_cons n p sps :
  ids ((n, p) :: sps) = if bool_decide (n = id_name) then (n, p) :: ids sps else ids sps.
Proof.
  unfold ids. case_bool_decide; [by rewrite filter_cons_True|by rewrite filter_cons_False].
Qed.

Lemma note_members_id names sps e :
  let e' := note_members names sps e in
  has_duplicate_id e' = has_duplicate_id e ||
    bool_decide (2 ≤ length (ids sps) + (if bool_decide (id_name ∈ names) then 1 else 0) ∧
                 1 ≤ length (ids sps))%nat ∧
  id_span e' = match last (ids sps) with Some sp => Some sp.2 | None => id_span e end.
Proof.
  revert names e. induction sps as [|[n [a b]] sps IH]; intros names e.
  { simpl. rewrite bool_decide_false by lia. by rewrite orb_false_r. }
  cbn [note_members]. destruct (IH ({[n]} ∪ names) (note_one names n a b e)) as [-> ->].
  destruct (note_one_flags names n a b e) as (_ & _ & _ & _ & _ & _ & _ & -> & ->).
  rewrite ids_cons. split.
  - rewrite <- orb_assoc. f_equal. rewrite <- bool_decide_or. apply bool_decide_ext.
    destruct (decide (n = id_name)) as [->|Hn].
    + rewrite (bool_decide_true (id_name = id_name)) by done.
      rewrite (bool_decide_true (id_name ∈ {[id_name]} ∪ names)) by set_solver. simpl.
      case_bool_decide; naive_solver lia.
    + rewrite (bool_decide_false (n = id_name)) by done.
      rewrite (bool_decide_ext (id_name ∈ {[n]} ∪ names) (id_name ∈ names)) by set_solver.
      naive_solver.
  - case_bool_decide; [|by destruct (last _)]. rewrite last_cons. by destruct (last _).
Qed.

(** What the envelope of an admitted document says about it. *)
Definition describes (bs : list Z) (j : json) (e : RawEnvelopeShape) : Prop :=
  match j with
  | JObj ms =>
      let has s := bool_decide (chars_of s ∈ ms.*1) in
      root_is_object e = true ∧
      has_method e = has "method"%string ∧ has_params e = has "params"%string ∧
      has_id e = has "id"%string ∧ has_result e = has "result"%string ∧
      has_error e = has "error"%string ∧
      (has_unknown_member e = true ↔ ∃ n, n ∈ ms.*1 ∧ n ∉ known_members) ∧
      (has_duplicate_id e = true ↔ (2 ≤ length (filter (λ m, m.1 = id_name) ms))%nat) ∧
      match id_span e with
      | Some (a, b) => ∃ v, (id_name, v) ∈ ms ∧ (a ≤ b ≤ length bs)%nat ∧
                       denotes v (take (b - a) (drop a bs))
      | None => id_name ∉ ms.*1
      end
  | _ => e = RawEnvelopeShape_default
  end.

Lemma spans_names bs ms sps : Forall2 (span_ok bs) ms sps → sps.*1 = ms.*1.
Proof. induction 1 as [|m sp ms sps (Hn & _)]; [done|]. rewrite !fmap_cons. by f_equal. Qed.

Lemma spans_ids bs ms sps :
  Forall2 (span_ok bs) ms sps → length (ids sps) = length (filter (λ m, m.1 = id_name) ms).
Proof.
  induction 1 as [|[n j] [n' p] ms sps (Hn & _) HF IH]; [done|]. simpl in Hn. subst n'.
  rewrite ids_cons. case_bool_decide.
  - rewrite filter_cons_True by done. simpl. lia.
  - by rewrite filter_cons_False.
Qed.

Lemma root_envelope_describes j s env :
  envelope s = RawEnvelopeShape_default → root_envelope 0 j s env → describes (input s) j env.
Proof.
  intros Hdef. unfold root_envelope. destruct j as [| | | |js|ms]; try (by intros ->; rewrite Hdef).
  simpl. intros (sps & Hsps & ->). rewrite Hdef.
  pose proof (spans_names _ _ _ Hsps) as Hnames. pose proof (spans_ids _ _ _ Hsps) as Hids.
  destruct (note_members_flags ∅ sps (note_root RawEnvelopeShape_default))
    as (-> & -> & -> & -> & -> & -> & ->).
  destruct (note_members_id ∅ sps (note_root RawEnvelopeShape_default)) as [-> ->].
  unfold noted, unknown_noted. rewrite Hnames, <- Hids. simpl. split_and!; try done.
  - rewrite bool_decide_eq_true, Exists_exists. naive_solver.
  - rewrite bool_decide_eq_true, bool_decide_false by set_solver. lia.
  - destruct (last (ids sps)) as [[n [a b]]|] eqn:Hlast; simpl.
    + apply last_elem_of in Hlast. apply list_elem_of_filter in Hlast as [Hn Hin]. simpl in Hn. subst n.
      apply list_elem_of_lookup in Hin as [i Hi].
      destruct (Forall2_lookup_r _ _ _ _ _ Hsps Hi) as ([n v] & Hm & Hn & Hab & Hv).
      simpl in *. subst n. exists v. split; [by eapply list_elem_of_lookup_2|done].
    + apply last_None in Hlast. rewrite Hlast in Hids. simpl in Hids. intros Hin.
      apply list_elem_of_fmap in Hin as ([n v] & Hn & Hin). simpl in Hn.
      assert (Hf : (n, v) ∈ filter (λ m : list Z * json, m.1 = id_name) ms)
        by (apply list_elem_of_filter; done).
      destruct (filter _ ms); [by apply elem_of_nil in Hf|done].
Qed.

(** * Refusals

    No step of the scan refuses a document for a repeated name; that is only
    decided once all of it has been read. *)

Definition never_duplicate {A} (m : Scan A) : Prop := ∀ s, (m s).1 ≠ Err DuplicateObjectMember.

Lemma nd_bind {A B} (m : Scan A) (k : A → Scan B) :
  never_duplicate m → (∀ a, never_duplicate (k a)) → never_duplicate (bind m k).
Proof.
  intros Hm Hk s. specialize (Hm s). unfold bind. destruct (m s) as [[a|e| |] s']; simpl in *; try done; [apply Hk|congruence].
Qed.
Lemma nd_ret {A} (a : A) : never_duplicate (ret a).
Proof. by intros s. Qed.
Lemma nd_gets {A} (f : JsonAdmission → A) : never_duplicate (gets f).
Proof. by intros s. Qed.
Lemma nd_get : never_duplicate get.
Proof. by intros s. Qed.
Lemma nd_modify f : never_duplicate (modify f).
Proof. by intros s. Qed.
Lemma nd_out_of_fuel {A} : never_duplicate (out_of_fuel (A := A)).
Proof. by intros s. Qed.
Lemma nd_fail {A} e : e ≠ DuplicateObjectMember → never_duplicate (fail (A := A) e).
Proof. intros He s. simpl. congruence. Qed.
Lemma nd_ok_or {A} (o : option A) e : e ≠ DuplicateObjectMember → never_duplicate (ok_or o e).
Proof. intros He s. destruct o; simpl; congruence. Qed.
Lemma nd_next_char : never_duplicate (next_char InvalidSyntax).
Proof. intros s. unfold next_char. case_goal_if; [|done]. by destruct (decode_utf8 _) as [[]|]. Qed.

Create HintDb refusal.
#[local] Hint Resolve nd_ret nd_gets nd_get nd_modify nd_out_of_fuel nd_fail nd_ok_or nd_next_char : refusal.
#[local] Hint Extern 0 (_ ≠ DuplicateObjectMember) => discriminate : refusal.
Ltac refusal := repeat first [progress intros | solve [eauto 2 with refusal nocore] | apply nd_bind |
  match goal with
  | |- never_duplicate (if ?b then _ else _) => destruct b
  | |- never_duplicate (match ?o with _ => _ end) => destruct o
  end].

Lemma nd_consume b : never_duplicate (consume b).
Proof. unfold consume, peek, advance. refusal. Qed.
Lemma nd_skip : never_duplicate skip_whitespace.
Proof. apply nd_modify. Qed.
#[local] Hint Resolve nd_consume nd_skip : refusal.

Lemma nd_unicode : never_duplicate (parse_unicode_escape InvalidSyntax).
Proof. unfold parse_unicode_escape, parse_hex_quad. refusal. Qed.
Lemma nd_literal l : never_duplicate (parse_literal InvalidSyntax l).
Proof. unfold parse_literal. refusal. Qed.
Lemma nd_charge_string n : never_duplicate (charge_decoded_string_bytes n).
Proof. unfold charge_decoded_string_bytes. refusal. Qed.
Lemma nd_charge_entry : never_duplicate charge_container_entry.
Proof. unfold charge_container_entry. refusal. Qed.
Lemma nd_enter d : never_duplicate (enter_container d).
Proof. unfold enter_container. refusal. Qed.
#[local] Hint Resolve nd_unicode nd_literal nd_charge_string nd_charge_entry nd_enter : refusal.

Lemma nd_string capture : never_duplicate (parse_string capture).
Proof.
  assert (Hloop : ∀ fuel d, never_duplicate (parse_string_loop fuel d)).
  { induction fuel as [|fuel IH]; intros d; cbn [parse_string_loop]; [refusal|].
    unfold parse_escape, peek, advance. refusal. }
  unfold parse_string. refusal.
Qed.

Lemma nd_digits start : never_duplicate (consume_number_digits start).
Proof.
  assert (Hloop : ∀ rest, never_duplicate (consume_digits_loop rest start)).
  { induction rest as [|b rest IH]; cbn [consume_digits_loop]; [refusal|].
    unfold ensure_number_token_within_limit, advance. refusal. }
  unfold consume_number_digits. refusal.
Qed.
#[local] Hint Resolve nd_string nd_digits : refusal.

Lemma nd_number : never_duplicate parse_number.
Proof.
  unfold parse_number, parse_int_part, parse_frac_part, parse_exp_part, parse_exponent, ensure_number_token_within_limit,
    peek_digit, peek, advance. refusal.
Qed.
#[local] Hint Resolve nd_number : refusal.

Lemma nd_parser fuel :
  (∀ d, never_duplicate (parse_value fuel d)) ∧ (∀ d, never_duplicate (parse_object fuel d)) ∧
  (∀ r d ns, never_duplicate (parse_members fuel r d ns)) ∧ (∀ d, never_duplicate (parse_array fuel d)) ∧
  (∀ d, never_duplicate (parse_elements fuel d)).
Proof.
  induction fuel as [|fuel (IHv & IHo & IHm & IHa & IHe)]; [split_and!; intros; apply nd_out_of_fuel|].
  split_and!; intros; cbn [parse_value parse_object parse_members parse_array parse_elements];
    unfold parse_member, note_name, peek, advance; refusal.
Qed.

Lemma nd_document : never_duplicate parse_document.
Proof. unfold parse_document. refusal. apply nd_parser. Qed.

(** * The theorems *)

Lemma admit_verdict bs limit :
  valid_utf8 bs → zlen bs <= isize_max → 0 <= limit →
  match JsonAdmission_admit bs limit with
  | Ok env =>
      ∃ j, document j bs ∧ within (codec_limits limit) j ∧ distinct j = true ∧ describes bs j env
  | Err f =>
      (error f = DuplicateObjectMember ∧
         ∃ j, document j bs ∧ within (codec_limits limit) j ∧ distinct j = false ∧
           describes bs j (failure_envelope f)) ∨
      (error f ≠ DuplicateObjectMember ∧ ∀ j, document j bs → ¬ within (codec_limits limit) j)
  | Panic | OutOfFuel => False
  end.
Proof.
  intros Hv Hl Hlim. pose proof (parse_document_sound bs limit Hv Hl Hlim) as Hsound.
  pose proof (parse_document_complete bs limit Hv Hl Hlim) as Hcomp.
  pose proof (nd_document (JsonAdmission_new bs limit)) as Hnd.
  unfold JsonAdmission_admit, wp in *. destruct (parse_document _) as [[[]|e| |] s]; try done.
  - destruct Hsound as (j & s0 & env & Hd & Hw & Hdup & <- & <- & Hdef & Henv).
    apply root_envelope_describes in Henv; [|done]. rewrite Hdup.
    destruct (distinct j) eqn:Hj; simpl; [by exists j|]. left. split; [done|]. by exists j.
  - right. split; [simpl in *; congruence|]. intros j Hd Hw. by apply (Hcomp j).
Qed.

(** C1: For any UTF-8 frame that fits in memory, [JsonAdmission::JsonAdmission_admit] always
    returns, and it decides JSON admissibility: it succeeds exactly on RFC 8259
    documents within the codec's limits (nesting, entries, number bytes,
    exponents, decoded string bytes) in which no object repeats a member name
    after decoding; when it fails, either the document is within the limits but
    repeats a name and the error is [DuplicateObjectMember], or no reading of
    the frame as a document is within the limits and the error is another one.
    In both of the first cases the envelope describes the document: which of the
    JSON-RPC members its root object has, whether it has others, whether [id] is
    repeated, and where the value of an [id] member is. *)
Theorem admit_correct bs limit :
  valid_utf8 bs → zlen bs <= isize_max → 0 <= limit →
  match JsonAdmission_admit bs limit with
  | Ok env =>
      ∃ j, document j bs ∧ within (codec_limits limit) j ∧ distinct j = true ∧ describes bs j env
  | Err f =>
      (error f = DuplicateObjectMember ∧
         ∃ j, document j bs ∧ within (codec_limits limit) j ∧ distinct j = false ∧
           describes bs j (failure_envelope f)) ∨
      (error f ≠ DuplicateObjectMember ∧ ∀ j, document j bs → ¬ within (codec_limits limit) j)
  | Panic | OutOfFuel => False
  end.
Proof. apply admit_verdict. Qed.

(** The verdict does not depend on how the document is read. *)
Lemma admit_iff bs limit :
  valid_utf8 bs → zlen bs <= isize_max → 0 <= limit →
  (∃ env, JsonAdmission_admit bs limit = Ok env) ↔
  (∃ j, document j bs ∧ within (codec_limits limit) j ∧ distinct j = true).
Proof.
  intros Hv Hl Hlim. pose proof (parse_document_sound bs limit Hv Hl Hlim) as Hsound.
  pose proof (parse_document_complete bs limit Hv Hl Hlim) as Hcomp.
  unfold JsonAdmission_admit, wp in *. split.
  - intros [env Hok]. destruct (parse_document _) as [[[]|e| |] s]; try done.
    destruct Hsound as (j & s0 & env' & Hd & Hw & Hdup & _). exists j. split_and!; try done.
    rewrite Hdup in Hok. by destruct (distinct j).
  - intros (j & Hd & Hw & Hj). specialize (Hcomp j Hd Hw).
    destruct (parse_document _) as [[[]|e| |] s]; try done. rewrite Hcomp, Hj. by eexists.
Qed.
