(* ===== verification/RawJson.v ===== *)
(** The protocol crate's raw JSON admission, [RawJsonScanner] and
    [admit_raw_json_document] of [crates/fastmcp-protocol/src/jsonrpc.rs]:
    definitions.  The module [Raw] keeps its names apart from those of the
    codec's scanner, which has the same methods. *)
From stdpp Require Import base list gmap strings.
From Stdlib Require Import ZArith Lia.
From S2P Require Import Prelude Utf8 JsonGrammar Scanner.

Module Raw.

Inductive RawJsonAdmissionError : Type :=
| DocumentTooLarge
| InvalidUtf8
| ByteOrderMark
| InvalidSyntax
| TopLevelBatch
| TopLevelNotObject
| DuplicateObjectMember
| NestingTooDeep
| TooManyContainerEntries
| NumberTooLong
| TooManyNumberBytes
| ExponentTooLarge
| TooManyDecodedStringBytes.

#[global] Instance RawJsonAdmissionError_eq_dec : EqDecision RawJsonAdmissionError.
Proof. solve_decision. Defined.

Definition MAX_RAW_JSON_NESTING_DEPTH : Z := 64.
Definition MAX_RAW_JSON_CONTAINER_ENTRIES : Z := 100000.
Definition MAX_RAW_JSON_NUMBER_BYTES : Z := 4 * 1024.
Definition MAX_RAW_JSON_AGGREGATE_NUMBER_BYTES : Z := 256 * 1024.
Definition MAX_RAW_JSON_EXPONENT : Z := 10000.
Definition MAX_RAW_JSON_PATH_SEGMENT_BYTES : nat := 64.
Definition MAX_RAW_JSON_PATH_SEGMENTS : nat := 16.

Inductive RawJsonTopLevel : Type := JsonRpcObject | SecurityDocumentObject | AnyValue.

#[global] Instance RawJsonTopLevel_eq_dec : EqDecision RawJsonTopLevel.
Proof. solve_decision. Defined.

Inductive RawJsonPathSegment : Type :=
| Member (name : list Z)
| Index (index : Z).

Record RawJsonAdmissionFailure : Type := {
  failure_error : RawJsonAdmissionError;
  failure_path : list Z;
}.

(** * The scanner *)

Record RawJsonScanner : Type := {
  bytes : list Z;
  position : nat;
  container_entries : Z;
  number_bytes : Z;
  decoded_string_bytes : Z;
  decoded_string_byte_limit : Z;
  path : list RawJsonPathSegment;
}.

Definition RawJsonScanner_new (bs : list Z) (limit : Z) : RawJsonScanner := {|
  bytes := bs; position := 0; container_entries := 0; number_bytes := 0;
  decoded_string_bytes := 0; decoded_string_byte_limit := limit; path := [] |}.

#[global] Instance RawJsonScanner_cursor : Cursor RawJsonScanner := {|
  cur_bytes := bytes;
  cur_pos := position;
  set_pos p s := {|
    bytes := bytes s; position := p; container_entries := container_entries s;
    number_bytes := number_bytes s; decoded_string_bytes := decoded_string_bytes s;
    decoded_string_byte_limit := decoded_string_byte_limit s; path := path s |}
|}.

Definition set_entries (n : Z) (s : RawJsonScanner) : RawJsonScanner := {|
  bytes := bytes s; position := position s; container_entries := n;
  number_bytes := number_bytes s; decoded_string_bytes := decoded_string_bytes s;
  decoded_string_byte_limit := decoded_string_byte_limit s; path := path s |}.

Definition set_number_bytes (n : Z) (s : RawJsonScanner) : RawJsonScanner := {|
  bytes := bytes s; position := position s; container_entries := container_entries s;
  number_bytes := n; decoded_string_bytes := decoded_string_bytes s;
  decoded_string_byte_limit := decoded_string_byte_limit s; path := path s |}.

Definition set_string_bytes (n : Z) (s : RawJsonScanner) : RawJsonScanner := {|
  bytes := bytes s; position := position s; container_entries := container_entries s;
  number_bytes := number_bytes s; decoded_string_bytes := n;
  decoded_string_byte_limit := decoded_string_byte_limit s; path := path s |}.

Definition set_path (p : list RawJsonPathSegment) (s : RawJsonScanner) : RawJsonScanner := {|
  bytes := bytes s; position := position s; container_entries := container_entries s;
  number_bytes := number_bytes s; decoded_string_bytes := decoded_string_bytes s;
  decoded_string_byte_limit := decoded_string_byte_limit s; path := p |}.

Abbreviation Scan := (M RawJsonScanner RawJsonAdmissionError).

(** [self.path.push(segment)] and [self.path.pop()] *)
Definition path_push (segment : RawJsonPathSegment) : Scan unit :=
  modify (λ s, set_path (path s ++ [segment]) s).
Definition path_pop : Scan unit :=
  modify (λ s, set_path (take (length (path s) - 1) (path s)) s).

Definition enter_container (depth : Z) : Scan Z :=
  let! nested_depth := ok_or (checked_add depth 1) NestingTooDeep in
  if MAX_RAW_JSON_NESTING_DEPTH <? nested_depth then fail NestingTooDeep else ret nested_depth.

Definition charge_container_entry : Scan unit :=
  let! s := get in
  let! n := ok_or (checked_add (container_entries s) 1) TooManyContainerEntries in
  modify (set_entries n) ;!
  if MAX_RAW_JSON_CONTAINER_ENTRIES <? n then fail TooManyContainerEntries else ret tt.

Definition charge_string_bytes (n : Z) : Scan unit :=
  let! s := get in
  let! n := ok_or (checked_add (decoded_string_bytes s) n) TooManyDecodedStringBytes in
  modify (set_string_bytes n) ;!
  if decoded_string_byte_limit s <? n then fail TooManyDecodedStringBytes else ret tt.

Definition parse_escape : Scan Z :=
  let! p := peek in
  let! escape := ok_or p InvalidSyntax in
  advance 1 ;!
  match simple_escape escape with
  | Some c => ret c
  | None => if escape =? 117 then parse_unicode_escape InvalidSyntax else fail InvalidSyntax
  end.

(** [value.push(character)] on the captured name, if any. *)
Definition push_char (decoded : option (list Z)) (c : Z) : option (list Z) :=
  (λ v, v ++ [c]) <$> decoded.

Fixpoint parse_string_loop (fuel : nat) (decoded : option (list Z)) : Scan (option (list Z)) :=
  match fuel with
  | O => out_of_fuel
  | S fuel =>
      let! p := peek in
      let! byte := ok_or p InvalidSyntax in
      if byte =? 34 then advance 1 ;! ret decoded
      else if byte =? 92 then
        advance 1 ;!
        let! character := parse_escape in
        charge_string_bytes (Z.of_nat (len_utf8 character)) ;!
        parse_string_loop fuel (push_char decoded character)
      else if byte <=? 31 then fail InvalidSyntax
      else if byte <=? 127 then
        advance 1 ;!
        charge_string_bytes 1 ;!
        parse_string_loop fuel (push_char decoded byte)
      else
        let! character := next_char InvalidSyntax in
        advance (len_utf8 character) ;!
        charge_string_bytes (Z.of_nat (len_utf8 character)) ;!
        parse_string_loop fuel (push_char decoded character)
  end.

Definition parse_string (capture : bool) : Scan (option (list Z)) :=
  let! opened := consume 34 in
  if negb opened then fail InvalidSyntax else
  let! todo := gets cur_rest in
  parse_string_loop (S (length todo)) (if capture then Some [] else None).

Definition exponent_exceeds_raw_limit (ds : list Z) : bool :=
  let significant := skip_zeroes ds in
  if 5 <? zlen significant then true
  else MAX_RAW_JSON_EXPONENT <? foldl (λ v d, v * 10 + (d - 48)) 0 significant.

(** The [while] loop of [consume_digits], over the bytes left. *)
Fixpoint digits_end (rest : list Z) (pos : nat) : nat :=
  match rest with
  | b :: rest => if is_digit b then digits_end rest (pos + 1) else pos
  | [] => pos
  end.

Definition consume_digits : Scan unit :=
  modify (λ s, set_pos (digits_end (cur_rest s) (cur_pos s)) s).

Definition parse_int_part : Scan unit :=
  let! p := peek in
  match p with
  | Some b =>
      if b =? 48 then
        advance 1 ;!
        let! d := peek_digit in
        if d then fail InvalidSyntax else ret tt
      else if is_digit b then advance 1 ;! consume_digits
      else fail InvalidSyntax
  | None => fail InvalidSyntax
  end.

Definition parse_frac_part : Scan unit :=
  let! dot := consume 46 in
  if dot then
    let! d := peek_digit in
    if negb d then fail InvalidSyntax else consume_digits
  else ret tt.

(** The digits of the exponent, after [e] and the sign. *)
Definition parse_exponent : Scan unit :=
  let! exponent_start := gets cur_pos in
  let! d := peek_digit in
  if negb d then fail InvalidSyntax else
  consume_digits ;!
  let! s := get in
  if exponent_exceeds_raw_limit
       (take (position s - exponent_start) (drop exponent_start (bytes s)))
  then fail ExponentTooLarge else ret tt.

Definition parse_exp_part : Scan unit :=
  let! p := peek in
  if bool_decide (p = Some 101) || bool_decide (p = Some 69) then
    advance 1 ;!
    let! q := peek in
    if bool_decide (q = Some 43) || bool_decide (q = Some 45)
    then advance 1 ;! parse_exponent
    else parse_exponent
  else ret tt.

Definition parse_number : Scan unit :=
  let! start := gets cur_pos in
  consume 45 ;!
  parse_int_part ;!
  parse_frac_part ;!
  parse_exp_part ;!
  let! s := get in
  let length := Z.of_nat (position s - start) in
  if MAX_RAW_JSON_NUMBER_BYTES <? length then fail NumberTooLong else
  let! n := ok_or (checked_add (number_bytes s) length) TooManyNumberBytes in
  modify (set_number_bytes n) ;!
  if MAX_RAW_JSON_AGGREGATE_NUMBER_BYTES <? n then fail TooManyNumberBytes else ret tt.

(** One turn of the loop of [parse_object] up to the end of the value, which
    [value] reads. *)
Definition parse_member (value : Scan unit) (names : gset (list Z)) : Scan (list Z) :=
  charge_container_entry ;!
  let! captured := parse_string true in
  let! name := ok_or captured InvalidSyntax in
  path_push (Member name) ;!
  if bool_decide (name ∈ names) then fail DuplicateObjectMember else
  skip_whitespace ;!
  let! colon := consume 58 in
  if negb colon then fail InvalidSyntax else
  skip_whitespace ;!
  value ;!
  path_pop ;!
  ret name.

(** A value, and the loops over members and elements; the fuel is the codec
    scanner's. *)
Fixpoint parse_value (fuel : nat) (depth : Z) : Scan unit :=
  match fuel with
  | O => out_of_fuel
  | S fuel =>
      let! p := peek in
      match p with
      | Some b =>
          if b =? 123 then parse_object fuel depth
          else if b =? 91 then parse_array fuel depth
          else if b =? 34 then parse_string false ;! ret tt
          else if b =? 116 then parse_literal InvalidSyntax (chars_of "true")
          else if b =? 102 then parse_literal InvalidSyntax (chars_of "false")
          else if b =? 110 then parse_literal InvalidSyntax (chars_of "null")
          else if (b =? 45) || is_digit b then parse_number
          else fail InvalidSyntax
      | None => fail InvalidSyntax
      end
  end
with parse_object (fuel : nat) (depth : Z) : Scan unit :=
  match fuel with
  | O => out_of_fuel
  | S fuel =>
      let! nested_depth := enter_container depth in
      advance 1 ;!
      skip_whitespace ;!
      let! closed := consume 125 in
      if closed then ret tt else parse_members fuel nested_depth ∅
  end
with parse_members (fuel : nat) (nested_depth : Z) (names : gset (list Z)) : Scan unit :=
  match fuel with
  | O => out_of_fuel
  | S fuel =>
      let! name := parse_member (parse_value fuel nested_depth) names in
      skip_whitespace ;!
      let! closed := consume 125 in
      if closed then ret tt else
      let! comma := consume 44 in
      if negb comma then fail InvalidSyntax else
      skip_whitespace ;!
      parse_members fuel nested_depth ({[name]} ∪ names)
  end
with parse_array (fuel : nat) (depth : Z) : Scan unit :=
  match fuel with
  | O => out_of_fuel
  | S fuel =>
      let! nested_depth := enter_container depth in
      advance 1 ;!
      skip_whitespace ;!
      let! closed := consume 93 in
      if closed then ret tt else parse_elements fuel nested_depth 0
  end
with parse_elements (fuel : nat) (nested_depth : Z) (index : Z) : Scan unit :=
  match fuel with
  | O => out_of_fuel
  | S fuel =>
      charge_container_entry ;!
      path_push (Index index) ;!
      parse_value fuel nested_depth ;!
      path_pop ;!
      skip_whitespace ;!
      let! closed := consume 93 in
      if closed then ret tt else
      let! comma := consume 44 in
      if negb comma then fail InvalidSyntax else
      skip_whitespace ;!
      parse_elements fuel nested_depth (saturating_add index 1)
  end.

(** * Redacted paths *)

(** [usize::to_string], at most twenty digits, as ASCII codes. *)
Fixpoint to_digits (fuel : nat) (n : Z) (acc : list Z) : list Z :=
  match fuel with
  | O => acc
  | S fuel =>
      let acc := (48 + n mod 10) :: acc in
      if n / 10 =? 0 then acc else to_digits fuel (n / 10) acc
  end.

Definition to_string (n : Z) : list Z := to_digits 20 n [].

Definition is_ascii_alphanumeric (c : Z) : bool :=
  ((48 <=? c) && (c <=? 57)) || ((65 <=? c) && (c <=? 90)) || ((97 <=? c) && (c <=? 122)).

Fixpoint redact_name (name : list Z) (retained : nat) : list Z :=
  match name with
  | [] => []
  | c :: name =>
      if decide (MAX_RAW_JSON_PATH_SEGMENT_BYTES ≤ retained)%nat then [126]
      else (if is_ascii_alphanumeric c || ((c =? 95) || (c =? 46) || (c =? 45)) then c else 42)
           :: redact_name name (S retained)
  end.

Definition redact_segment (segment : RawJsonPathSegment) : list Z :=
  47 :: match segment with
        | Member name => redact_name name 0
        | Index index => to_string index
        end.

Definition redact_raw_json_path (p : list RawJsonPathSegment) : list Z :=
  concat (redact_segment <$> take MAX_RAW_JSON_PATH_SEGMENTS p) ++
  (if decide (MAX_RAW_JSON_PATH_SEGMENTS < length p)%nat then [47; 126] else []).

Definition failure (s : RawJsonScanner) (e : RawJsonAdmissionError) : RawJsonAdmissionFailure :=
  {| failure_error := e; failure_path := redact_raw_json_path (path s) |}.

Definition at_root (e : RawJsonAdmissionError) : RawJsonAdmissionFailure :=
  {| failure_error := e; failure_path := [] |}.

(** * Documents *)

(** [bytes.windows(3).any(|window| window == [0xef, 0xbb, 0xbf])] *)
Fixpoint has_bom (bs : list Z) : bool :=
  match bs with
  | a :: ((b :: c :: _) as tl) => ((a =? 239) && (b =? 187) && (c =? 191)) || has_bom tl
  | _ => false
  end.

(** [if let Err(error) = scanned { return Err(scanner.failure(error)); }] *)
Definition with_path {A} (m : Scan A) : M RawJsonScanner RawJsonAdmissionFailure A := λ s,
  match m s with
  | (Ok a, s') => (Ok a, s')
  | (Err e, s') => (Err (failure s' e), s')
  | (Panic, s') => (Panic, s')
  | (OutOfFuel, s') => (OutOfFuel, s')
  end.

(** The scan of a document, from the scanner's creation on; [fuel] is for the
    object, and a value takes one call more. *)
Definition scan_document (fuel : nat) (top_level : RawJsonTopLevel)
    : M RawJsonScanner RawJsonAdmissionFailure unit :=
  skip_whitespace ;!
  let! first := peek in
  (match first with
   | Some b =>
       if b =? 123 then with_path (parse_object fuel 0)
       else if b =? 91 then
         match top_level with
         | JsonRpcObject => fail (at_root TopLevelBatch)
         | SecurityDocumentObject => fail (at_root TopLevelNotObject)
         | AnyValue => with_path (parse_value (S fuel) 0)
         end
       else
         match top_level with
         | AnyValue => with_path (parse_value (S fuel) 0)
         | _ => fail (at_root TopLevelNotObject)
         end
   | None => fail (at_root TopLevelNotObject)
   end) ;!
  skip_whitespace ;!
  let! s := get in
  if bool_decide (position s = length (bytes s)) then ret tt
  else fail (at_root InvalidSyntax).

Definition admit_raw_json_document (bs : list Z) (document_byte_limit : Z)
    (top_level : RawJsonTopLevel) : outcome RawJsonAdmissionFailure unit :=
  if document_byte_limit <? zlen bs then Err (at_root DocumentTooLarge)
  else if has_bom bs then Err (at_root ByteOrderMark)
  else if negb (from_utf8 bs) then Err (at_root InvalidUtf8)
  else (scan_document (3 * length bs + 2) top_level
          (RawJsonScanner_new bs document_byte_limit)).1.

Definition admit_raw_jsonrpc_document (bs : list Z) (document_byte_limit : Z)
    : outcome RawJsonAdmissionError unit :=
  match admit_raw_json_document bs document_byte_limit JsonRpcObject with
  | Ok u => Ok u
  | Err f => Err (failure_error f)
  | Panic => Panic
  | OutOfFuel => OutOfFuel
  end.

End Raw.
