(* ===== verification/RawJsonSim.v ===== *)
(** The two admission scanners agree.  A run of the protocol crate's scanner is
    related to the run of the codec's on the same bytes: it succeeds in the
    same place with the same counters, and where it refuses, the codec's
    refuses too or ends with a duplicate member on record (the one stops at a
    duplicate, the other remembers it and reads on). *)
From stdpp Require Import base list gmap strings.
From Stdlib Require Import ZArith Lia.
From S2P Require Import Prelude Utf8 JsonGrammar Scanner JsonLex JsonFacts.
From S2P Require Import JsonAdmission JsonAdmissionSound RawJson.

#[export] Instance RawJsonScanner_cursor_laws : CursorLaws Raw.RawJsonScanner.
Proof. split; [done..|]. by intros []. Qed.

(** Equal but for the path of the one and the envelope of the other. *)
Record sim (s : Raw.RawJsonScanner) (t : JsonAdmission) : Prop := {
  sim_bytes : Raw.bytes s = input t;
  sim_pos : Raw.position s = position t;
  sim_entries : Raw.container_entries s = container_entries t;
  sim_numbers : Raw.number_bytes s = number_bytes t;
  sim_strings : Raw.decoded_string_bytes s = decoded_string_bytes t;
  sim_limit : Raw.decoded_string_byte_limit s = decoded_string_byte_limit t;
  sim_duplicate : duplicate_object_member t = false;
  sim_bound : 0 <= number_bytes t <= MAX_AGGREGATE_JSON_NUMBER_BYTES;
}.

Definition rel_run {A} (r : outcome Raw.RawJsonAdmissionError A * Raw.RawJsonScanner)
    (c : outcome JsonAdmissionError A * JsonAdmission) : Prop :=
  match r, c with
  | (Ok a, s), (Ok b, t) => a = b ∧ sim s t
  | (Ok _, _), _ => False
  | (Err _, _), (Ok _, t) => duplicate_object_member t = true
  | (Err _, _), _ => True
  | (Panic, _), (o, _) => o = Panic
  | (OutOfFuel, _), (o, _) => o = OutOfFuel
  end.

Definition rel {A} (m : Raw.Scan A) (n : Scan A) : Prop := ∀ s t, sim s t → rel_run (m s) (n t).

(** A recorded duplicate stays on record. *)
Definition keeps {A} (n : Scan A) : Prop := ∀ t,
  duplicate_object_member t = true →
  match n t with (Ok _, t') => duplicate_object_member t' = true | _ => True end.

Section rules.
Context {A B : Type}.

Lemma keeps_bind (n : Scan A) (k : A → Scan B) : keeps n → (∀ a, keeps (k a)) → keeps (bind n k).
Proof.
  intros Hn Hk t Ht. unfold bind. specialize (Hn t Ht).
  destruct (n t) as [[a| | |] t']; try done. by apply Hk.
Qed.

Lemma keeps_ret (a : A) : keeps (ret a).
Proof. by intros t Ht. Qed.
Lemma keeps_fail e : keeps (fail (A := A) e).
Proof. by intros t Ht. Qed.
Lemma keeps_out_of_fuel : keeps (out_of_fuel (A := A)).
Proof. by intros t Ht. Qed.
Lemma keeps_gets (f : JsonAdmission → A) : keeps (gets f).
Proof. by intros t Ht. Qed.
Lemma keeps_ok_or (o : option A) e : keeps (ok_or o e).
Proof. by destruct o; intros t Ht. Qed.
Lemma keeps_if (b : bool) (m n : Scan A) : keeps m → keeps n → keeps (if b then m else n).
Proof. by destruct b. Qed.

Lemma rel_bind (m : Raw.Scan A) (n : Scan A) (k : A → Raw.Scan B) (l : A → Scan B) :
  rel m n → (∀ a, rel (k a) (l a)) → (∀ a, keeps (l a)) → rel (bind m k) (bind n l).
Proof.
  intros Hm Hk Hl s t Hst. unfold bind. specialize (Hm s t Hst). unfold rel_run in Hm.
  destruct (m s) as [[a| | |] s'], (n t) as [[b| | |] t']; try done.
  - destruct Hm as [-> Hst']. by apply Hk.
  - specialize (Hl b t' Hm). simpl. by destruct (l b t') as [[] ?].
Qed.

Lemma rel_ret (a : A) : rel (ret a) (ret a).
Proof. by intros s t Hst. Qed.
Lemma rel_fail e e' : rel (fail (A := A) e) (fail e').
Proof. by intros s t Hst. Qed.
Lemma rel_out_of_fuel : rel (out_of_fuel (A := A)) out_of_fuel.
Proof. by intros s t Hst. Qed.
Lemma rel_gets (f : Raw.RawJsonScanner → A) (g : JsonAdmission → A) :
  (∀ s t, sim s t → f s = g t) → rel (gets f) (gets g).
Proof. intros Hfg s t Hst. split; auto. Qed.
Lemma rel_ok_or (o : option A) e e' : rel (ok_or o e) (ok_or o e').
Proof. destruct o; by intros s t Hst. Qed.
Lemma rel_if (b : bool) (m1 m2 : Raw.Scan A) (n1 n2 : Scan A) :
  rel m1 n1 → rel m2 n2 → rel (if b then m1 else m2) (if b then n1 else n2).
Proof. by destruct b. Qed.
End rules.

Lemma keeps_modify f :
  (∀ t, duplicate_object_member t = true → duplicate_object_member (f t) = true) →
  keeps (modify f).
Proof. intros Hf t Ht. by apply Hf. Qed.

Lemma rel_modify f g : (∀ s t, sim s t → sim (f s) (g t)) → rel (modify f) (modify g).
Proof. intros Hfg s t Hst. split; auto. Qed.

(** A step of the one scanner that the other does not take. *)
Lemma rel_silent {A} f (m : Raw.Scan A) n :
  (∀ s t, sim s t → sim (f s) t) → rel m n → rel (modify f ;! m) n.
Proof. intros Hf Hm s t Hst. unfold bind, modify. by apply Hm, Hf. Qed.

Create HintDb sim.
#[export] Hint Resolve keeps_bind keeps_ret keeps_fail keeps_out_of_fuel keeps_gets keeps_ok_or
  keeps_if rel_ret rel_fail rel_out_of_fuel rel_ok_or rel_if : sim.

(** Peel the two runs in step. *)
Ltac keeps_auto := intros; repeat first
  [ assumption | solve [eauto 2 with sim nocore] | apply keeps_bind; intros | apply keeps_if
  | apply keeps_modify; by intros
  | match goal with |- keeps (match ?x with _ => _ end) => destruct x end ].
Ltac rel_auto := intros; repeat first
  [ assumption | solve [eauto 2 with sim nocore]
  | apply rel_bind; [|intros|intros; solve [keeps_auto]] | apply rel_if
  | match goal with |- rel (match ?x with _ => _ end) _ => destruct x end ].

(** * Shared primitives *)

Lemma sim_rest s t : sim s t → cur_rest s = cur_rest t.
Proof. intros [Hb Hp _ _ _ _ _ _]. unfold cur_rest. simpl. by rewrite Hb, Hp. Qed.

Lemma sim_set_pos p q s t : sim s t → p = q → sim (set_pos p s) (set_pos q t).
Proof. intros [] ->. by split. Qed.

Lemma rel_peek : rel peek peek.
Proof. apply rel_gets. intros s t []. simpl. congruence. Qed.
Lemma rel_pos : rel (gets cur_pos) (gets cur_pos).
Proof. apply rel_gets. by intros s t []. Qed.
Lemma rel_bytes : rel (gets cur_bytes) (gets cur_bytes).
Proof. apply rel_gets. by intros s t []. Qed.
Lemma rel_rest : rel (gets cur_rest) (gets cur_rest).
Proof. apply rel_gets. apply sim_rest. Qed.
Lemma rel_advance n : rel (advance n) (advance n).
Proof. apply rel_modify. intros s t Hst. apply sim_set_pos; [done|]. simpl. by destruct Hst as [_ -> _ _ _ _ _ _]. Qed.
Lemma rel_set_pos p : rel (modify (set_pos p)) (modify (set_pos p)).
Proof. apply rel_modify. intros s t Hst. by apply sim_set_pos. Qed.
Lemma rel_skip_whitespace : rel skip_whitespace skip_whitespace.
Proof.
  apply rel_modify. intros s t Hst. apply sim_set_pos; [done|].
  rewrite (sim_rest _ _ Hst). by destruct Hst as [_ Hp _ _ _ _ _ _]; simpl; rewrite Hp.
Qed.

Lemma keeps_advance n : keeps (advance n).
Proof. by apply keeps_modify. Qed.
Lemma keeps_peek : keeps peek.
Proof. by intros t Ht. Qed.
Lemma keeps_skip_whitespace : keeps skip_whitespace.
Proof. by apply keeps_modify. Qed.
#[export] Hint Resolve rel_peek rel_pos rel_bytes rel_rest rel_advance rel_set_pos rel_skip_whitespace
  keeps_advance keeps_peek keeps_skip_whitespace : sim.

Lemma keeps_consume b : keeps (consume b).
Proof. unfold consume. keeps_auto. Qed.
Lemma keeps_next_char : keeps (next_char InvalidSyntax).
Proof. intros t Ht. unfold next_char. repeat case_match; naive_solver. Qed.
Lemma keeps_parse_hex_quad : keeps (parse_hex_quad InvalidSyntax).
Proof. unfold parse_hex_quad. keeps_auto. Qed.
#[export] Hint Resolve keeps_consume keeps_next_char keeps_parse_hex_quad : sim.
Lemma keeps_parse_unicode_escape : keeps (parse_unicode_escape InvalidSyntax).
Proof. unfold parse_unicode_escape. keeps_auto. Qed.
Lemma keeps_parse_literal l : keeps (parse_literal InvalidSyntax l).
Proof. unfold parse_literal. keeps_auto. Qed.
#[export] Hint Resolve keeps_parse_unicode_escape keeps_parse_literal : sim.

Lemma rel_consume b : rel (consume b) (consume b).
Proof. unfold consume. rel_auto. Qed.
Lemma rel_next_char : rel (next_char Raw.InvalidSyntax) (next_char InvalidSyntax).
Proof.
  intros s t Hst. unfold next_char. rewrite (sim_rest _ _ Hst).
  destruct (starts_on_boundary _); [|done]. by destruct (decode_utf8 _) as [[]|].
Qed.
Lemma rel_parse_hex_quad : rel (parse_hex_quad Raw.InvalidSyntax) (parse_hex_quad InvalidSyntax).
Proof. unfold parse_hex_quad. rel_auto. Qed.
#[export] Hint Resolve rel_consume rel_next_char rel_parse_hex_quad : sim.
Lemma rel_parse_unicode_escape :
  rel (parse_unicode_escape Raw.InvalidSyntax) (parse_unicode_escape InvalidSyntax).
Proof. unfold parse_unicode_escape. rel_auto. Qed.
Lemma rel_parse_literal l : rel (parse_literal Raw.InvalidSyntax l) (parse_literal InvalidSyntax l).
Proof. unfold parse_literal. rel_auto. Qed.
#[export] Hint Resolve rel_parse_unicode_escape rel_parse_literal : sim.

(** * Counters *)

Lemma keeps_charge_entry : keeps charge_container_entry.
Proof.
  intros t Ht. unfold charge_container_entry, bind, get, ok_or, ret, modify.
  destruct (checked_add _ _); [|done]. by case_goal_if.
Qed.

Lemma keeps_charge_string n : keeps (charge_decoded_string_bytes n).
Proof.
  intros t Ht. unfold charge_decoded_string_bytes, bind, get, ok_or, ret, modify.
  destruct (checked_add _ _); [|done]. by case_goal_if.
Qed.

Lemma rel_charge_entry : rel Raw.charge_container_entry charge_container_entry.
Proof.
  intros s t Hst. unfold Raw.charge_container_entry, charge_container_entry, bind, get, ok_or, ret, modify.
  rewrite (sim_entries _ _ Hst). destruct (checked_add _ _) as [n|]; [|done].
  change Raw.MAX_RAW_JSON_CONTAINER_ENTRIES with MAX_JSON_CONTAINER_ENTRIES.
  case_goal_if; [done|]. split; [done|]. destruct Hst. by split.
Qed.

Lemma rel_charge_string n : rel (Raw.charge_string_bytes n) (charge_decoded_string_bytes n).
Proof.
  intros s t Hst. unfold Raw.charge_string_bytes, charge_decoded_string_bytes, bind, get, ok_or, ret, modify.
  rewrite (sim_strings _ _ Hst), (sim_limit _ _ Hst).
  destruct (checked_add _ _) as [m|]; [|done].
  case_goal_if; [done|]. split; [done|]. destruct Hst. by split.
Qed.

Lemma keeps_enter d : keeps (enter_container d).
Proof. unfold enter_container. keeps_auto. Qed.
Lemma rel_enter d : rel (Raw.enter_container d) (enter_container d).
Proof.
  unfold Raw.enter_container, enter_container.
  change Raw.MAX_RAW_JSON_NESTING_DEPTH with MAX_JSON_NESTING_DEPTH. rel_auto.
Qed.
#[export] Hint Resolve keeps_charge_entry keeps_charge_string rel_charge_entry rel_charge_string
  keeps_enter rel_enter : sim.

(** * Strings *)

Lemma keeps_parse_escape dec : keeps (parse_escape dec).
Proof. unfold parse_escape. keeps_auto. Qed.
#[export] Hint Resolve keeps_parse_escape : sim.

Lemma keeps_string_loop fuel dec : keeps (parse_string_loop fuel dec).
Proof. revert dec. induction fuel; cbn [parse_string_loop]; keeps_auto. Qed.
#[export] Hint Resolve keeps_string_loop : sim.

Lemma rel_assoc {A B C} (m : Raw.Scan C) (n : Scan A) (k : A → Scan B) (l : B → Scan C) :
  rel m (let! a := n in let! b := k a in l b) → rel m (let! b := (let! a := n in k a) in l b).
Proof.
  intros H s t Hst. specialize (H s t Hst). unfold bind in *. by destruct (n t) as [[] ?].
Qed.

Lemma rel_assoc_l {A B C} (m : Raw.Scan A) (k : A → Raw.Scan B) (l : B → Raw.Scan C) (n : Scan C) :
  rel (let! a := m in let! b := k a in l b) n → rel (let! b := (let! a := m in k a) in l b) n.
Proof.
  intros H s t Hst. specialize (H s t Hst). unfold bind in *. by destruct (m s) as [[] ?].
Qed.

(** The two scanners charge an escape at different places of the same sequence. *)
Lemma rel_escape {A} dec (k : option (list Z) → Raw.Scan A) (l : option (list Z) → Scan A) :
  (∀ d, rel (k d) (l d)) → (∀ d, keeps (l d)) →
  rel (let! c := Raw.parse_escape in
       Raw.charge_string_bytes (Z.of_nat (len_utf8 c)) ;! k (Raw.push_char dec c))
      (let! d := parse_escape dec in l d).
Proof.
  intros Hk Hl. unfold Raw.parse_escape, parse_escape.
  apply rel_assoc_l, rel_assoc, rel_bind; [auto with sim| |keeps_auto]. intros p.
  apply rel_assoc_l, rel_assoc, rel_bind; [auto with sim| |keeps_auto]. intros e.
  apply rel_assoc_l, rel_assoc, rel_bind; [auto with sim| |keeps_auto]. intros [].
  apply rel_assoc, rel_bind; [rel_auto| |keeps_auto]. intros c.
  apply rel_assoc, rel_bind; [auto with sim| |keeps_auto]. intros [].
  exact (Hk (push_char dec c)).
Qed.

Lemma rel_string_loop fuel dec : rel (Raw.parse_string_loop fuel dec) (parse_string_loop fuel dec).
Proof.
  revert dec. induction fuel as [|fuel IH]; intros dec;
    cbn [parse_string_loop Raw.parse_string_loop]; [auto with sim|].
  apply rel_bind; [auto with sim| |keeps_auto]. intros p.
  apply rel_bind; [auto with sim| |keeps_auto]. intros b.
  apply rel_if; [rel_auto|]. apply rel_if.
  - apply rel_bind; [auto with sim| |keeps_auto]. intros [].
    apply rel_escape; auto with sim.
  - unfold Raw.push_char, push_char. rel_auto.
Qed.
#[export] Hint Resolve rel_string_loop : sim.

Lemma keeps_parse_string c : keeps (parse_string c).
Proof. unfold parse_string. keeps_auto. Qed.
Lemma rel_parse_string c : rel (Raw.parse_string c) (parse_string c).
Proof. unfold Raw.parse_string, parse_string. rel_auto. Qed.
#[export] Hint Resolve keeps_parse_string rel_parse_string : sim.

(** * Numbers *)

Lemma digits_end_spec rest pos :
  Raw.digits_end rest pos = (pos + length (take_while is_digit rest))%nat.
Proof.
  revert pos. induction rest as [|b rest IH]; intros pos; simpl; [lia|].
  destruct (is_digit b); simpl; [rewrite IH; lia|lia].
Qed.

Section raw_numbers.
Implicit Types (s : Raw.RawJsonScanner)
  (R : Raw.RawJsonAdmissionError → Raw.RawJsonScanner → Prop).

Lemma wp_raw_digits Q R s :
  wp Raw.consume_digits Q R s ↔ Q tt (adv (length (take_while is_digit (cur_rest s))) s).
Proof. unfold Raw.consume_digits. by rewrite wp_modify, digits_end_spec. Qed.

Lemma wp_raw_int Q R s :
  (∀ i, int_at (cur_rest s) = Some i → Q tt (adv i s)) →
  (int_at (cur_rest s) = None → ∀ e s', R e s') →
  wp Raw.parse_int_part Q R s.
Proof.
  intros HQ HR. unfold Raw.parse_int_part. rewrite wp_bind, wp_peek.
  destruct (cur_rest s) as [|b r] eqn:Hr; [by apply HR|]. cbn [head].
  assert (Hr1 : cur_rest (adv 1 s) = r) by (by rewrite cur_rest_adv, Hr).
  unfold int_at in HQ, HR. destruct (b =? 48).
  - rewrite wp_bind, wp_advance, wp_bind, wp_peek_digit, <- head_digit, Hr1.
    destruct (starts_with is_digit r); [by apply HR|]. by apply HQ.
  - destruct (is_digit b); [|by apply HR]. rewrite wp_bind, wp_advance, wp_raw_digits, Hr1, adv_adv.
    by apply HQ.
Qed.

Lemma wp_raw_frac Q R s :
  (∀ i, frac_at (cur_rest s) = Some i → Q tt (adv i s)) →
  (frac_at (cur_rest s) = None → ∀ e s', R e s') →
  wp Raw.parse_frac_part Q R s.
Proof.
  intros HQ HR. unfold Raw.parse_frac_part. rewrite wp_bind, wp_consume.
  destruct (cur_rest s) as [|b r] eqn:Hr.
  { specialize (HQ 0%nat). rewrite adv_0 in HQ. by apply HQ. }
  cbn [head]. unfold frac_at in HQ, HR. rewrite bool_decide_Some_eqb. destruct (b =? 46); cycle 1.
  { specialize (HQ 0%nat). rewrite adv_0 in HQ. by apply HQ. }
  assert (Hr1 : cur_rest (adv 1 s) = r) by (by rewrite cur_rest_adv, Hr).
  rewrite wp_bind, wp_peek_digit, <- head_digit, Hr1.
  destruct (starts_with is_digit r); [|by apply HR]. cbn [negb].
  rewrite wp_raw_digits, Hr1, adv_adv. by apply HQ.
Qed.

Lemma wp_raw_exponent Q R s :
  let ds := take_while is_digit (cur_rest s) in
  (starts_with is_digit (cur_rest s) = true → dec_value ds <= MAX_ABSOLUTE_JSON_EXPONENT →
     Q tt (adv (length ds) s)) →
  ((starts_with is_digit (cur_rest s) = true → MAX_ABSOLUTE_JSON_EXPONENT < dec_value ds) →
     ∀ e s', R e s') →
  wp Raw.parse_exponent Q R s.
Proof.
  intros ds HQ HR. unfold Raw.parse_exponent.
  rewrite wp_bind, wp_gets, wp_bind, wp_peek_digit, <- head_digit.
  destruct (starts_with _ _); [|by apply HR]. cbn [negb]. rewrite wp_bind, wp_raw_digits. fold ds.
  rewrite wp_bind, wp_get.
  assert (take (Raw.position (adv (length ds) s) - cur_pos s)
            (drop (cur_pos s) (Raw.bytes (adv (length ds) s))) = ds) as ->.
  { change (drop (cur_pos s) _) with (cur_rest s). simpl Raw.position.
    replace (_ - _)%nat with (length ds) by (simpl; lia). apply take_digits. }
  change (Raw.exponent_exceeds_raw_limit ds) with (exponent_exceeds_limit ds).
  rewrite exponent_exceeds_spec by apply take_while_Forall.
  case_goal_if; zbool; autorewrite with wp; [by apply HR|by apply HQ].
Qed.

Lemma wp_raw_exp Q R s :
  (∀ i ds, exp_at (cur_rest s) = Some (i, ds) → dec_value ds <= MAX_ABSOLUTE_JSON_EXPONENT →
     Q tt (adv i s)) →
  ((∀ i ds, exp_at (cur_rest s) = Some (i, ds) → MAX_ABSOLUTE_JSON_EXPONENT < dec_value ds) →
     ∀ e s', R e s') →
  wp Raw.parse_exp_part Q R s.
Proof.
  intros HQ HR. unfold Raw.parse_exp_part. rewrite wp_bind, wp_peek.
  destruct (cur_rest s) as [|b r] eqn:Hr.
  { specialize (HQ 0%nat []). rewrite adv_0 in HQ. by apply HQ. }
  cbn [head]. unfold exp_at in HQ, HR. rewrite !bool_decide_Some_eqb.
  destruct (_ || _) eqn:Hb; cycle 1.
  { specialize (HQ 0%nat []). rewrite adv_0 in HQ. by apply HQ. }
  assert (Hr1 : cur_rest (adv 1 s) = r) by (by rewrite cur_rest_adv, Hr).
  assert (Hdigits : wp Raw.parse_exponent Q R (adv (S (sign_at r)) s)).
  { assert (Hr2 : cur_rest (adv (S (sign_at r)) s) = drop (sign_at r) r)
      by (by rewrite cur_rest_adv, Hr).
    apply wp_raw_exponent; rewrite Hr2, ?adv_adv.
    - intros Hd. rewrite Hd in HQ. by apply HQ.
    - destruct (starts_with _ _); [|intros; by apply HR].
      intros Hex e s'. apply HR. intros ? ? [= <- <-]. by apply Hex. }
  rewrite wp_bind, wp_advance, wp_bind, wp_peek, Hr1.
  unfold sign_at in Hdigits. destruct r as [|b' r']; cbn [head starts_with] in *; [done|].
  rewrite !bool_decide_Some_eqb. destruct ((b' =? 43) || _); [|done].
  by rewrite wp_bind, wp_advance, adv_adv.
Qed.

Definition raw_number_fits (s : Raw.RawJsonScanner) (n : nat) (ds : list Z) : Prop :=
  number_at (cur_rest s) = Some (n, ds) ∧ Z.of_nat n <= MAX_JSON_NUMBER_BYTES ∧
  dec_value ds <= MAX_ABSOLUTE_JSON_EXPONENT ∧
  Raw.number_bytes s + Z.of_nat n <= MAX_AGGREGATE_JSON_NUMBER_BYTES.

Lemma wp_raw_number Q R s :
  0 <= Raw.number_bytes s <= MAX_AGGREGATE_JSON_NUMBER_BYTES →
  (∀ n ds, raw_number_fits s n ds →
     Q tt (Raw.set_number_bytes (Raw.number_bytes s + Z.of_nat n) (adv n s))) →
  ((∀ n ds, ¬ raw_number_fits s n ds) → ∀ e s', R e s') →
  wp Raw.parse_number Q R s.
Proof.
  intros Hb HQ HR. unfold Raw.parse_number. rewrite wp_bind, wp_gets, wp_bind.
  unfold raw_number_fits, number_at in HQ, HR. set (m := minus_at (cur_rest s)) in *.
  apply wp_consume_minus. intros _. fold m. rewrite wp_bind.
  apply wp_raw_int; rewrite cur_rest_adv.
  2:{ intros Hno. apply HR. intros n ds (Hn & _). by rewrite Hno in Hn. }
  intros i Hi. rewrite Hi in HQ, HR. rewrite adv_adv, wp_bind.
  apply wp_raw_frac; rewrite cur_rest_adv.
  2:{ intros Hno. apply HR. intros n ds (Hn & _). by rewrite Hno in Hn. }
  intros f Hf. rewrite Hf in HQ, HR. rewrite adv_adv, wp_bind.
  apply wp_raw_exp; rewrite cur_rest_adv.
  2:{ intros Hno. apply HR. intros n ds (Hn & _ & Hd & _).
      destruct (exp_at _) as [[x ds']|]; [|done]. simplify_eq. specialize (Hno _ _ eq_refl). lia. }
  intros x ds Hx Hd. rewrite Hx in HQ, HR. rewrite adv_adv. set (n := (m + i + f + x)%nat) in *.
  rewrite wp_bind, wp_get. simpl Raw.position. simpl Raw.number_bytes.
  replace (Z.of_nat (Raw.position s + n - cur_pos s)) with (Z.of_nat n) by (simpl; lia).
  change Raw.MAX_RAW_JSON_NUMBER_BYTES with MAX_JSON_NUMBER_BYTES.
  change Raw.MAX_RAW_JSON_AGGREGATE_NUMBER_BYTES with MAX_AGGREGATE_JSON_NUMBER_BYTES.
  case_goal_if; zbool; [apply HR; intros ? ? (? & ? & _); simplify_eq; lia|].
  rewrite wp_bind, wp_ok_or. unfold checked_add. rewrite (proj2 (Z.leb_le _ _)) by
    (unfold MAX_AGGREGATE_JSON_NUMBER_BYTES, MAX_JSON_NUMBER_BYTES, usize_max in *; lia).
  rewrite wp_bind, wp_modify. case_goal_if; zbool; autorewrite with wp; [|by apply (HQ n ds)].
  apply HR. intros ? ? (? & ? & ? & ?). simplify_eq. lia.
Qed.
End raw_numbers.

Lemma rel_parse_number : rel Raw.parse_number parse_number.
Proof.
  intros s t Hst. pose proof (sim_bound _ _ Hst) as Hb. pose proof (sim_rest _ _ Hst) as Hr.
  pose proof (sim_numbers _ _ Hst) as Hn.
  assert (Hfits : ∀ n ds, raw_number_fits s n ds ↔ number_fits t n ds)
    by (intros n ds; unfold raw_number_fits, number_fits; by rewrite Hr, Hn).
  assert (Hcodec : wp parse_number
    (λ _ t', ∃ n ds, number_fits t n ds ∧ t' = grow n 0 (Z.of_nat n) 0 false (envelope t) t)
    (λ _ _, ∀ n ds, ¬ number_fits t n ds) t) by (apply wp_parse_number; eauto).
  assert (Hraw : wp Raw.parse_number
    (λ _ s', ∃ n ds, number_fits t n ds ∧
       s' = Raw.set_number_bytes (number_bytes t + Z.of_nat n) (adv n s))
    (λ _ _, ∀ n ds, ¬ number_fits t n ds) s).
  { apply wp_raw_number; rewrite ?Hn; [done| |].
    - intros n ds Hf%Hfits. eauto.
    - intros Hno _ _ n ds Hf%Hfits. by eapply Hno. }
  unfold wp, rel_run in *.
  destruct (Raw.parse_number s) as [[[]| | |] s'], (parse_number t) as [[[]| | |] t']; try done.
  - destruct Hcodec as (n & ds & [Hat Hf] & ->), Hraw as (n' & ds' & [Hat' _] & ->).
    rewrite Hat in Hat'. simplify_eq. split; [done|].
    destruct Hst. split; simpl; rewrite ?orb_false_r; try done; try congruence; lia.
  - destruct Hraw as (n & ds & Hf & _). by eapply Hcodec.
  - destruct Hcodec as (n & ds & Hf & _). by destruct (Hraw n ds).
Qed.

Lemma keeps_ensure start : keeps (ensure_number_token_within_limit start).
Proof. unfold ensure_number_token_within_limit. keeps_auto. Qed.
#[export] Hint Resolve keeps_ensure : sim.
Lemma keeps_digits_loop rest start : keeps (consume_digits_loop rest start).
Proof. induction rest; cbn [consume_digits_loop]; keeps_auto. Qed.
Lemma keeps_peek_digit : keeps peek_digit.
Proof. unfold peek_digit. keeps_auto. Qed.
Lemma keeps_get : keeps get.
Proof. by intros t Ht. Qed.
#[export] Hint Resolve keeps_digits_loop keeps_peek_digit keeps_get : sim.
Lemma keeps_parse_number : keeps parse_number.
Proof.
  unfold parse_number, parse_int_part, parse_frac_part, parse_exp_part, parse_exponent,
    consume_number_digits. keeps_auto.
Qed.
#[export] Hint Resolve keeps_parse_number rel_parse_number : sim.

(** * Values *)

Lemma keeps_note_name r d n : keeps (note_name r d n).
Proof. unfold note_name. keeps_auto. Qed.
#[export] Hint Resolve keeps_note_name : sim.

Lemma keeps_parse_member v r names : keeps v → keeps (parse_member v r names).
Proof. intros Hv. unfold parse_member. keeps_auto. Qed.
#[export] Hint Resolve keeps_parse_member : sim.

Lemma keeps_parser fuel :
  (∀ d, keeps (parse_value fuel d)) ∧ (∀ d, keeps (parse_object fuel d)) ∧
  (∀ r d names, keeps (parse_members fuel r d names)) ∧ (∀ d, keeps (parse_array fuel d)) ∧
  (∀ d, keeps (parse_elements fuel d)).
Proof.
  induction fuel as [|fuel (IHv & IHo & IHm & IHa & IHe)]; split_and!; intros;
    cbn [parse_value parse_object parse_members parse_array parse_elements]; keeps_auto.
Qed.

Lemma sim_set_path p s t : sim s t → sim (Raw.set_path p s) t.
Proof. intros []. by split. Qed.

Lemma sim_map_envelope f s t : sim s t → sim s (map_envelope f t).
Proof. intros []. by split. Qed.

(** A step only the codec's scanner takes, which leaves the runs related. *)
Lemma rel_silent_r {A} f (m : Raw.Scan A) (n : Scan A) :
  (∀ s t, sim s t → sim s (f t)) → rel m n → rel m (modify f ;! n).
Proof. intros Hf Hm s t Hst. unfold bind, modify. by apply Hm, Hf. Qed.

Lemma rel_duplicate {A} e r name (n : Scan A) :
  keeps n → rel (fail e) (note_name r true name ;! n).
Proof.
  intros Hn s t _. assert (∃ t', note_name r true name t = (Ok tt, t') ∧
    duplicate_object_member t' = true) as (t' & Heq & Hd)
    by (destruct r; eexists; split; reflexivity).
  rewrite (bind_ok _ _ _ _ _ Heq). specialize (Hn t' Hd). simpl. by destruct (n t') as [[] ?].
Qed.

Lemma rel_note_name {A} r name (m : Raw.Scan A) (n : Scan A) :
  rel m n → rel m (note_name r false name ;! n).
Proof.
  intros Hm s t Hst. unfold note_name. destruct r; unfold bind, modify, ret; [|by apply Hm].
  by apply Hm, sim_map_envelope.
Qed.

Lemma rel_parse_member (v : Raw.Scan unit) (w : Scan unit) r names :
  rel v w → keeps w → rel (Raw.parse_member v names) (parse_member w r names).
Proof.
  intros Hv Hw. unfold Raw.parse_member, parse_member.
  apply rel_bind; [auto with sim| |keeps_auto]. intros [].
  apply rel_bind; [auto with sim| |keeps_auto]. intros c.
  apply rel_bind; [auto with sim| |keeps_auto]. intros name.
  apply rel_silent; [intros s t; apply sim_set_path|].
  destruct (bool_decide (name ∈ names)); [apply rel_duplicate; keeps_auto|apply rel_note_name].
  apply rel_bind; [auto with sim| |keeps_auto]. intros [].
  apply rel_bind; [auto with sim| |keeps_auto]. intros b. apply rel_if; [auto with sim|].
  apply rel_bind; [auto with sim| |keeps_auto]. intros [].
  intros s t Hst. unfold bind at 3, gets at 1. revert s t Hst.
  intros s t Hst. set (a := cur_pos t). clearbody a. revert s t Hst.
  change (rel (v ;! Raw.path_pop ;! ret name)
    (w ;! let! b := gets cur_pos in
     (if r then modify (map_envelope (note_value_span name a b)) else ret tt) ;! ret name)).
  apply rel_bind; [done| |keeps_auto]. intros [].
  apply rel_silent; [intros s t; apply sim_set_path|].
  intros s t Hst. unfold bind, gets, modify, ret. destruct r; split; try done.
  by apply sim_map_envelope.
Qed.

Lemma rel_parse_elements_step (v : Raw.Scan unit) (w : Scan unit) (l : Raw.Scan unit) (m : Scan unit) i :
  rel v w → rel l m → keeps w → keeps m →
  rel (Raw.charge_container_entry ;! Raw.path_push (Raw.Index i) ;! v ;! Raw.path_pop ;! l)
      (charge_container_entry ;! w ;! m).
Proof.
  intros Hv Hl Hw Hm. apply rel_bind; [auto with sim| |keeps_auto]. intros [].
  apply rel_silent; [intros s t; apply sim_set_path|].
  apply rel_bind; [done| |keeps_auto]. intros [].
  apply rel_silent; [intros s t; apply sim_set_path|done].
Qed.

Lemma rel_parse_object fuel d :
  (∀ r d names, rel (Raw.parse_members fuel d names) (parse_members fuel r d names)) →
  rel (Raw.parse_object (S fuel) d) (parse_object (S fuel) d).
Proof.
  intros Hm. destruct (keeps_parser fuel) as (_ & _ & Hk & _).
  cbn [Raw.parse_object parse_object].
  assert (Hrest : rel
    (let! nd := Raw.enter_container d in
     advance 1 ;! skip_whitespace ;! let! closed := consume 125 in
     if closed then ret tt else Raw.parse_members fuel nd ∅)
    (let! nd := enter_container d in
     advance 1 ;! skip_whitespace ;! let! closed := consume 125 in
     if closed then ret tt else parse_members fuel (d =? 0) nd ∅)) by rel_auto.
  destruct (d =? 0); [|done]. apply rel_silent_r; [intros s t; apply sim_map_envelope|done].
Qed.

Lemma rel_parser fuel :
  (∀ d, rel (Raw.parse_value fuel d) (parse_value fuel d)) ∧
  (∀ d, rel (Raw.parse_object fuel d) (parse_object fuel d)) ∧
  (∀ r d names, rel (Raw.parse_members fuel d names) (parse_members fuel r d names)) ∧
  (∀ d, rel (Raw.parse_array fuel d) (parse_array fuel d)) ∧
  (∀ d i, rel (Raw.parse_elements fuel d i) (parse_elements fuel d)).
Proof.
  induction fuel as [|fuel (IHv & IHo & IHm & IHa & IHe)]; [split_and!; intros; apply rel_out_of_fuel|].
  destruct (keeps_parser fuel) as (Kv & Ko & Km & Ka & Ke).
  split_and!; intros.
  - cbn [Raw.parse_value parse_value]. rel_auto.
  - by apply rel_parse_object.
  - cbn [Raw.parse_members parse_members].
    apply rel_bind; [by apply rel_parse_member| |keeps_auto]. rel_auto.
  - cbn [Raw.parse_array parse_array]. rel_auto.
  - cbn [Raw.parse_elements parse_elements]. apply rel_parse_elements_step; [done| |done|keeps_auto].
    rel_auto.
Qed.
