(* ===== verification/RawJsonTheorems.v ===== *)
(** What the protocol crate's raw admission decides, and what its diagnostics
    disclose. *)
From stdpp Require Import base list gmap strings.
From Stdlib Require Import ZArith Lia.
From S2P Require Import Prelude Utf8 JsonGrammar Scanner JsonLex JsonFacts.
From S2P Require Import JsonAdmission JsonAdmissionSound JsonAdmissionTheorems RawJson RawJsonSim.

(** * The document scan *)

Lemma sim_new bs limit : sim (Raw.RawJsonScanner_new bs limit) (JsonAdmission_new bs limit).
Proof. by split. Qed.

(** The scan of one value with the end check, as the codec's [parse_document]. *)
Definition raw_document (fuel : nat) : Raw.Scan unit :=
  skip_whitespace ;!
  Raw.parse_value fuel 0 ;!
  skip_whitespace ;!
  let! s := get in
  if bool_decide (Raw.position s = length (Raw.bytes s)) then ret tt else fail Raw.InvalidSyntax.

Lemma rel_document bs limit :
  rel_run (raw_document (3 * length bs + 3) (Raw.RawJsonScanner_new bs limit))
          (parse_document (JsonAdmission_new bs limit)).
Proof.
  assert (Hrel : rel (raw_document (3 * length bs + 3))
    (skip_whitespace ;!
     parse_value (3 * length bs + 3) 0 ;!
     skip_whitespace ;!
     let! s := get in
     if bool_decide (position s = length (input s)) then ret tt else fail InvalidSyntax)).
  { destruct (rel_parser (3 * length bs + 3)) as [Hv _].
    destruct (keeps_parser (3 * length bs + 3)) as [Kv _].
    unfold raw_document. apply rel_bind; [auto with sim| |keeps_auto]. intros [].
    apply rel_bind; [done| |keeps_auto]. intros [].
    apply rel_bind; [auto with sim| |keeps_auto]. intros [].
    intros s t Hst. unfold bind, get. rewrite (sim_pos _ _ Hst), (sim_bytes _ _ Hst).
    by case_bool_decide. }
  apply (Hrel _ _ (sim_new bs limit)).
Qed.

(** [admit_raw_json_document] reads a document of an admitted shape as
    [raw_document] does. *)
Definition shape_ok (top : Raw.RawJsonTopLevel) (first : option Z) : bool :=
  bool_decide (first = Some 123) || bool_decide (top = Raw.AnyValue).

(** A run without the reason of its refusal. *)
Definition erase {S E A} (m : M S E A) : M S unit A := λ s,
  match m s with
  | (Ok a, s') => (Ok a, s')
  | (Err _, s') => (Err tt, s')
  | (Panic, s') => (Panic, s')
  | (OutOfFuel, s') => (OutOfFuel, s')
  end.

Lemma erase_bind {S E A B} (m : M S E A) (k : A → M S E B) s :
  erase (bind m k) s = bind (erase m) (λ a, erase (k a)) s.
Proof. unfold erase, bind. by destruct (m s) as [[] ?]. Qed.

Lemma erase_bind_ext {S E F A B} (m : M S E A) (n : M S F A) (k : A → M S E B) (l : A → M S F B) s :
  erase m s = erase n s → (∀ a s', erase m s = (Ok a, s') → erase (k a) s' = erase (l a) s') →
  erase (bind m k) s = erase (bind n l) s.
Proof.
  intros Hm Hk. rewrite !erase_bind. unfold bind. rewrite <- Hm.
  destruct (erase m s) as [[] ?]; auto.
Qed.

Lemma erase_with_path {A} (m : Raw.Scan A) s : erase (Raw.with_path m) s = erase m s.
Proof. unfold erase, Raw.with_path. by destruct (m s) as [[] ?]. Qed.

Lemma erase_peek {E A} (k : option Z → M Raw.RawJsonScanner E A) s :
  erase (let! p := peek in k p) s = erase (k (head (cur_rest s))) s.
Proof. unfold erase, bind, peek, gets. by rewrite cur_rest_head. Qed.

Lemma raw_value_object fuel s :
  head (cur_rest s) = Some 123 → Raw.parse_value (S fuel) 0 s = Raw.parse_object fuel 0 s.
Proof. intros Hh. cbn [Raw.parse_value]. unfold bind, peek, gets. by rewrite cur_rest_head, Hh. Qed.

(** The position after leading whitespace. *)
Definition skipped (s : Raw.RawJsonScanner) : Raw.RawJsonScanner :=
  set_pos (skip_ws (cur_rest s) (cur_pos s)) s.

Lemma scan_document_ok fuel top s :
  shape_ok top (head (cur_rest (skipped s))) = true →
  erase (Raw.scan_document fuel top) s = erase (raw_document (S fuel)) s.
Proof.
  intros Hshape. unfold Raw.scan_document, raw_document.
  apply erase_bind_ext; [done|]. intros [] s' Hs'.
  assert (s' = skipped s) as -> by (by injection Hs').
  transitivity (erase (E := Raw.RawJsonAdmissionFailure)
    (Raw.with_path (Raw.parse_value (S fuel) 0) ;! skip_whitespace ;!
     let! s := get in
     if bool_decide (Raw.position s = length (Raw.bytes s)) then ret tt
     else fail (Raw.at_root Raw.InvalidSyntax)) (skipped s)).
  - rewrite erase_peek. apply erase_bind_ext; [|done].
    unfold shape_ok in Hshape. rewrite erase_with_path.
    destruct (head (cur_rest (skipped s))) as [b|] eqn:Hf; cycle 1.
    { cbn [Raw.parse_value]. by rewrite erase_peek, Hf. }
    rewrite bool_decide_Some_eqb in Hshape. destruct (Z.eqb_spec b 123) as [->|Hb].
    + rewrite erase_with_path. unfold erase. by rewrite raw_value_object.
    + simpl in Hshape. apply bool_decide_eq_true in Hshape as ->.
      by destruct (b =? 91); rewrite erase_with_path.
  - apply erase_bind_ext; [apply erase_with_path|]. intros [] s' _.
    apply erase_bind_ext; [done|]. intros [] s'' _. unfold erase, bind, get. by case_bool_decide.
Qed.

Lemma scan_document_refused fuel top s :
  shape_ok top (head (cur_rest (skipped s))) = false → ∃ e s', Raw.scan_document fuel top s = (Err e, s').
Proof.
  intros Hshape. unfold Raw.scan_document, bind at 1, skip_whitespace at 1, modify. fold (skipped s).
  unfold bind at 1, peek, gets. rewrite cur_rest_head.
  unfold shape_ok in Hshape. destruct (head (cur_rest (skipped s))) as [b|]; [|by eexists _, _].
  rewrite bool_decide_Some_eqb in Hshape. zbool. apply bool_decide_eq_false in H0.
  rewrite (proj2 (Z.eqb_neq b 123)) by done.
  destruct (b =? 91), top; try done; by eexists _, _.
Qed.

(** * Byte-order marks *)

Lemma has_bom_spec bs :
  Raw.has_bom bs = true ↔ ∃ p r, bs = p ++ [239; 187; 191] ++ r.
Proof.
  split.
  - induction bs as [|a [|b [|c r]] IH]; try done. cbn [Raw.has_bom]. rewrite orb_true_iff.
    intros [H|H].
    + zbool. subst. by exists [], r.
    + destruct (IH H) as (p & r' & ->). by exists (a :: p), r'.
  - intros (p & r & ->). induction p as [|a p IH]; [done|]. simpl in *.
    destruct (p ++ 239 :: 187 :: 191 :: r) as [|b [|c l]]; try done. by rewrite IH, orb_true_r.
Qed.

(** * The verdict *)

Lemma head_skipped bs limit w raw rest :
  bs = w ++ raw ++ rest → ws w → head_not is_ws raw → raw ≠ [] →
  cur_rest (skipped (Raw.RawJsonScanner_new bs limit)) = raw ++ rest.
Proof.
  intros -> Hw Hh Hne. unfold skipped, cur_rest. simpl. rewrite drop_0, skip_ws_spec.
  rewrite take_while_app by (done || by destruct raw). cbn [Nat.add]. apply drop_app_length.
Qed.

Lemma denotes_object_head j raw :
  denotes j raw → head raw = Some 123 ↔ ∃ ms, j = JObj ms.
Proof.
  intros Hj. destruct Hj as [| | |tok ds Hn|raw cs Hs|w Hw|js w body Hw He|w Hw|ms w body Hw Hm];
    try (split; [done|by intros (? & ?)]); try (split; [by eauto|done]).
  - destruct (json_number_head _ _ Hn) as (b & r & -> & Hb). split; [intros [= ->]; lia|by intros (? & ?)].
  - destruct Hs as (b & -> & _). split; [done|by intros (? & ?)].
Qed.

Definition top_level_ok (top : Raw.RawJsonTopLevel) (j : json) : Prop :=
  top = Raw.AnyValue ∨ ∃ ms, j = JObj ms.

Lemma shape_document top bs limit j :
  document j bs →
  shape_ok top (head (cur_rest (skipped (Raw.RawJsonScanner_new bs limit)))) = true ↔ top_level_ok top j.
Proof.
  intros (w1 & raw & w2 & Hbs & Hw1 & Hj & Hw2).
  destruct (denotes_head _ _ Hj) as (b & r & Hb & Hst). pose proof (value_start_not _ Hst) as (Hnw & _).
  rewrite (head_skipped bs limit w1 raw w2) by (subst raw; done).
  unfold shape_ok, top_level_ok. rewrite orb_true_iff, !bool_decide_eq_true.
  rewrite <- (denotes_object_head j raw Hj). subst raw. simpl. tauto.
Qed.

Section admission.
Context (bs : list Z) (limit : Z) (top : Raw.RawJsonTopLevel).
Context (Hlen : zlen bs <= isize_max) (Hlimit : 0 <= limit).

Definition raw_admissible : Prop :=
  zlen bs <= limit ∧ (¬ ∃ p r, bs = p ++ [239; 187; 191] ++ r) ∧ valid_utf8 bs ∧
  ∃ j, document j bs ∧ within (codec_limits limit) j ∧ distinct j = true ∧ top_level_ok top j.

Lemma raw_admissible_iff :
  raw_admissible ↔ zlen bs <= limit ∧ Raw.has_bom bs = false ∧ from_utf8 bs = true ∧
    ∃ j, document j bs ∧ within (codec_limits limit) j ∧ distinct j = true ∧ top_level_ok top j.
Proof. unfold raw_admissible. by rewrite <- has_bom_spec, not_true_iff_false, <- from_utf8_spec. Qed.

(** The outcome of the scan, by what the codec's pass finds. *)
Lemma scan_document_verdict :
  valid_utf8 bs →
  match (Raw.scan_document (3 * length bs + 2) top (Raw.RawJsonScanner_new bs limit)).1 with
  | Ok _ => ∃ j, document j bs ∧ within (codec_limits limit) j ∧ distinct j = true ∧ top_level_ok top j
  | Err _ => ∀ j, document j bs → within (codec_limits limit) j → distinct j = true → ¬ top_level_ok top j
  | _ => False
  end.
Proof.
  intros Hv. set (s := Raw.RawJsonScanner_new bs limit).
  destruct (shape_ok top (head (cur_rest (skipped s)))) eqn:Hshape; cycle 1.
  { destruct (scan_document_refused (3 * length bs + 2) top s Hshape) as (e & s' & ->). simpl.
    intros j Hd _ _ Htop. apply (shape_document top bs limit j Hd) in Htop. unfold s in *. congruence. }
  pose proof (scan_document_ok (3 * length bs + 2) top s Hshape) as Hrun.
  replace (S (3 * length bs + 2)) with (3 * length bs + 3)%nat in Hrun by lia.
  pose proof (rel_document bs limit) as Hrel. fold s in Hrel.
  pose proof (parse_document_sound bs limit Hv Hlen Hlimit) as Hsound.
  pose proof (parse_document_complete bs limit Hv Hlen Hlimit) as Hcomp.
  unfold erase, wp, rel_run in *.
  destruct (Raw.scan_document _ top s) as [[[]| | |] s1],
    (raw_document _ s) as [[[]| | |] s2], (parse_document _) as [[[]| | |] t]; simplify_eq; try done; simpl.
  - destruct Hsound as (j & s0 & env & Hd & Hw & Hdup & _). destruct Hrel as [_ Hst].
    rewrite (sim_duplicate _ _ Hst) in Hdup. exists j. split_and!; try done; [by destruct (distinct j)|].
    by apply (shape_document top bs limit j Hd).
  - intros j Hd Hw Hj _. specialize (Hcomp j Hd Hw). rewrite Hj in Hcomp. simpl in Hcomp. congruence.
  - intros j Hd Hw _ _. by apply (Hcomp j Hd Hw).
Qed.
End admission.

Lemma raw_verdict bs limit top :
  zlen bs <= isize_max → 0 <= limit →
  match Raw.admit_raw_json_document bs limit top with
  | Ok _ => raw_admissible bs limit top
  | Err _ => ¬ raw_admissible bs limit top
  | Panic | OutOfFuel => False
  end.
Proof.
  intros Hlen Hlimit. pose proof (raw_admissible_iff bs limit top) as Hiff.
  pose proof (scan_document_verdict bs limit top Hlen Hlimit) as Hscan.
  rewrite <- from_utf8_spec in Hscan. unfold Raw.admit_raw_json_document.
  case_goal_if; zbool; [rewrite Hiff; lia|]. case_goal_if; [rewrite Hiff; by intros (_ & ? & _)|].
  destruct (from_utf8 bs) eqn:Hutf8; simpl; [|rewrite Hiff; by intros (_ & _ & ? & _)].
  specialize (Hscan eq_refl). destruct (_.1) as [[]| | |]; try done; rewrite Hiff; naive_solver.
Qed.

(** C4: [admit_raw_json_document] always returns, and accepts exactly the inputs
    of at most the given length that contain no UTF-8 byte-order mark anywhere,
    are well-formed UTF-8, and are an RFC 8259 document within the limits whose
    objects have distinct member names and whose top-level value is an object
    unless any value is allowed. *)
Theorem admit_raw_json_document_correct bs limit top :
  zlen bs <= isize_max → 0 <= limit →
  match Raw.admit_raw_json_document bs limit top with
  | Ok _ => raw_admissible bs limit top
  | Err _ => ¬ raw_admissible bs limit top
  | Panic | OutOfFuel => False
  end.
Proof. apply raw_verdict. Qed.

(** * Diagnostics *)

(** The characters a redacted path is made of. *)
Definition path_char (c : Z) : bool :=
  Raw.is_ascii_alphanumeric c || (c =? 95) || (c =? 46) || (c =? 45) ||
  (c =? 42) || (c =? 126) || (c =? 47).

Lemma redact_name_spec name k :
  (k ≤ Raw.MAX_RAW_JSON_PATH_SEGMENT_BYTES)%nat →
  Forall (λ c, path_char c = true) (Raw.redact_name name k) ∧
  (length (Raw.redact_name name k) ≤ Raw.MAX_RAW_JSON_PATH_SEGMENT_BYTES + 1 - k)%nat.
Proof.
  revert k. induction name as [|c name IH]; intros k Hk; cbn [Raw.redact_name]; [split; [done|cbn [length]; lia]|].
  case_decide; [split; [by apply Forall_singleton|cbn [length]; lia]|].
  destruct (IH (S k)) as [IH1 IH2]; [lia|]. split; [|cbn [length]; lia]. constructor; [|done].
  case_goal_if; [|done]. unfold path_char. rewrite !orb_true_iff in *. tauto.
Qed.

Lemma to_digits_spec fuel n acc :
  Forall (λ c, path_char c = true) acc → 0 <= n →
  Forall (λ c, path_char c = true) (Raw.to_digits fuel n acc) ∧
  (length (Raw.to_digits fuel n acc) ≤ fuel + length acc)%nat.
Proof.
  revert n acc. induction fuel as [|fuel IH]; intros n acc Ha Hn; cbn [Raw.to_digits]; [done|].
  assert (Hc : path_char (48 + n mod 10) = true).
  { unfold path_char, Raw.is_ascii_alphanumeric. pose proof (Z.mod_pos_bound n 10).
    rewrite (proj2 (Z.leb_le 48 _)), (proj2 (Z.leb_le _ 57)) by lia. done. }
  case_goal_if; [split; [by constructor|cbn [length]; lia]|].
  destruct (IH (n / 10) ((48 + n mod 10) :: acc)) as [? Hl]; [by constructor|by apply Z.div_pos|].
  split; [done|]. simpl in Hl. lia.
Qed.

Definition segment_ok (seg : Raw.RawJsonPathSegment) : Prop :=
  match seg with Raw.Member _ => True | Raw.Index i => 0 <= i <= usize_max end.

Lemma redact_segment_spec seg :
  segment_ok seg →
  Forall (λ c, path_char c = true) (Raw.redact_segment seg) ∧
  (length (Raw.redact_segment seg) ≤ Raw.MAX_RAW_JSON_PATH_SEGMENT_BYTES + 2)%nat.
Proof.
  intros Hs. destruct seg as [name|i]; unfold Raw.redact_segment; cbn [length].
  - destruct (redact_name_spec name 0) as [? ?]; [lia|]. split; [by constructor|lia].
  - destruct (to_digits_spec 20 i []) as [? Hl]; [done|apply Hs|]. split; [constructor; [reflexivity|assumption]|].
    unfold Raw.to_string, Raw.MAX_RAW_JSON_PATH_SEGMENT_BYTES. cbn [length] in Hl. lia.
Qed.

(** Whatever the document, the path of a refusal discloses at most sixteen
    steps of 66 characters and a two-character ellipsis, all of them letters,
    digits or one of [_ . - * ~ /]: no control character, quote or byte of a
    value can reach a log line through it. *)
Theorem redacted_path_bounded p :
  Forall segment_ok p →
  Forall (λ c, path_char c = true) (Raw.redact_raw_json_path p) ∧
  (length (Raw.redact_raw_json_path p) ≤ 16 * 66 + 2)%nat.
Proof.
  intros Hp. unfold Raw.redact_raw_json_path.
  assert (Forall segment_ok (take Raw.MAX_RAW_JSON_PATH_SEGMENTS p)) as Ht by by apply Forall_take.
  assert (length (take Raw.MAX_RAW_JSON_PATH_SEGMENTS p) ≤ 16)%nat as Hl
    by (rewrite length_take; apply Nat.le_min_l).
  revert Ht Hl. generalize (take Raw.MAX_RAW_JSON_PATH_SEGMENTS p). intros l Hl Hlen.
  assert (Forall (λ c, path_char c = true) (concat (Raw.redact_segment <$> l)) ∧
    (length (concat (Raw.redact_segment <$> l)) ≤ 66 * length l)%nat) as [Hc1 Hc2].
  { clear Hlen. induction Hl as [|seg l Hs Hl [IH1 IH2]]; [done|].
    destruct (redact_segment_spec seg Hs) as [H1 H2]. rewrite fmap_cons. cbn [concat].
    rewrite length_app. split; [by apply Forall_app|].
    unfold Raw.MAX_RAW_JSON_PATH_SEGMENT_BYTES in H2. cbn [length]. lia. }
  rewrite length_app, Forall_app. case_decide; rewrite ?Forall_cons; (split; [done|]);
    cbn [length]; lia.
Qed.
