(* ===== verification/RequestId.v ===== *)
(** JSON-RPC request identifiers and their correlation,
    [crates/fastmcp-protocol/src/jsonrpc.rs]: definitions. *)
From stdpp Require Import base list gmap strings.
From Stdlib Require Import ZArith Lia.
From S2P Require Import Prelude Utf8 JsonGrammar Scanner RawJson.

(** A Rust [String] is its characters. *)
Definition as_bytes (s : list Z) : list Z := concat (encode_utf8 <$> s).

Definition MAX_JSONRPC_STRING_ID_ENCODED_BYTES : Z := 256.

Definition i64_min : Z := - 2 ^ 63.
Definition i64_max : Z := 2 ^ 63 - 1.

Inductive RequestId : Type :=
| Number (n : Z)
| Integer (lexeme : list Z)
| String (value : list Z).

#[export] Instance RequestId_eq_dec : EqDecision RequestId.
Proof. solve_decision. Defined.

Inductive CorrelationKey : Type :=
| KeyString (s : list Z)
| KeyInteger (s : list Z).

#[export] Instance CorrelationKey_eq_dec : EqDecision CorrelationKey.
Proof. solve_decision. Defined.

(** * Lexemes *)

Definition char_encoded_len (c : Z) : Z :=
  if (c =? 34) || (c =? 92) || (c =? 8) || (c =? 12) || (c =? 10) || (c =? 13) || (c =? 9) then 2
  else if c <=? 31 then 6
  else Z.of_nat (len_utf8 c).

Definition encoded_json_string_len (value : list Z) : Z :=
  foldl (λ length c, saturating_add length (char_encoded_len c)) 2 value.

(** [str::parse::<i64>]: an optional sign, then at least one digit. *)
Definition parse_i64_digits (ds : list Z) : option Z :=
  if bool_decide (ds = []) then None
  else if forallb is_digit ds then Some (dec_value ds) else None.

Definition parse_i64 (s : list Z) : option Z :=
  let v := match s with
           | c :: ds =>
               if c =? 45 then Z.opp <$> parse_i64_digits ds
               else if c =? 43 then parse_i64_digits ds
               else parse_i64_digits s
           | [] => None
           end in
  match v with
  | Some v => if (i64_min <=? v) && (v <=? i64_max) then Some v else None
  | None => None
  end.

Definition byte_is (bs : list Z) (i : nat) (b : Z) : bool := bool_decide (bs !! i = Some b).
Definition digit_at (bs : list Z) (i : nat) : bool :=
  match bs !! i with Some b => is_digit b | None => false end.

(** [while matches!(bytes.get(index), Some(b'0'..=b'9')) { index += 1; }] *)
Fixpoint skip_digits (rest : list Z) (index : nat) : nat :=
  match rest with
  | b :: rest => if is_digit b then skip_digits rest (index + 1) else index
  | [] => index
  end.

(** The loop over the coefficient's bytes from the last: zeros count, the
    point is passed over, any other digit ends it. *)
Fixpoint trailing_zeroes (rev_coefficient : list Z) : nat :=
  match rev_coefficient with
  | d :: ds => if d =? 48 then S (trailing_zeroes ds)
               else if d =? 46 then trailing_zeroes ds else 0
  | [] => 0
  end.

Definition math_int_part (bs : list Z) (index : nat) : option nat :=
  if byte_is bs index 48 then
    if digit_at bs (index + 1) then None else Some (index + 1)%nat
  else if digit_at bs index then Some (skip_digits (drop (index + 1) bs) (index + 1))
  else None.

(** The index after the fraction and the number of its digits. *)
Definition math_frac_part (bs : list Z) (index : nat) : option (nat * nat) :=
  if byte_is bs index 46 then
    let fraction_start := (index + 1)%nat in
    let index := skip_digits (drop fraction_start bs) fraction_start in
    let fraction_digits := (index - fraction_start)%nat in
    if bool_decide (fraction_digits = 0%nat) then None else Some (index, fraction_digits)
  else Some (index, 0%nat).

Definition math_exponent (bs : list Z) (index : nat) : option Z :=
  if byte_is bs index 101 || byte_is bs index 69 then
    let index := (index + 1)%nat in
    let negative := byte_is bs index 45 in
    let exponent_start :=
      if negative then (index + 1)%nat
      else if byte_is bs index 43 then (index + 1)%nat else index in
    let index := skip_digits (drop exponent_start bs) exponent_start in
    if bool_decide (index = exponent_start) || negb (bool_decide (index = length bs)) then None
    else match parse_i64 (take (index - exponent_start) (drop exponent_start bs)) with
         | Some value =>
             if value <=? Raw.MAX_RAW_JSON_EXPONENT
             then Some (if negative then - value else value) else None
         | None => None
         end
  else if bool_decide (index = length bs) then Some 0 else None.

Definition is_mathematical_integer (lexeme : list Z) : bool :=
  if Raw.MAX_RAW_JSON_NUMBER_BYTES <? chars_bytes lexeme then false
  else
    let bs := as_bytes lexeme in
    let integer_start := if byte_is bs 0 45 then 1%nat else 0%nat in
    if bool_decide (integer_start = length bs) then false
    else match math_int_part bs integer_start with
         | None => false
         | Some index =>
             match math_frac_part bs index with
             | None => false
             | Some (coefficient_end, fraction_digits) =>
                 let coefficient :=
                   take (coefficient_end - integer_start) (drop integer_start bs) in
                 let zeroes := trailing_zeroes (rev coefficient) in
                 match math_exponent bs coefficient_end with
                 | None => false
                 | Some exponent =>
                     let scale := Z.of_nat fraction_digits - exponent in
                     (scale <=? 0) || (scale <=? Z.of_nat zeroes)
                 end
             end
         end.

(** [str::find] of a character class and [str::split_once]: the parts before
    and after the first match. *)
Fixpoint split_at_first (f : Z → bool) (s : list Z) : option (list Z * list Z) :=
  match s with
  | [] => None
  | c :: s =>
      if f c then Some ([], s)
      else match split_at_first f s with
           | Some (a, b) => Some (c :: a, b)
           | None => None
           end
  end.

Definition canonical_integer_lexeme (lexeme : list Z) : list Z :=
  let negative := bool_decide (head lexeme = Some 45) in
  let unsigned := if negative then tail lexeme else lexeme in
  let '(coefficient, exponent) :=
    match split_at_first (λ c, (c =? 101) || (c =? 69)) unsigned with
    | Some (c, e) => (c, default 0 (parse_i64 e))
    | None => (unsigned, 0)
    end in
  let '(whole, fraction) := default (coefficient, []) (split_at_first (Z.eqb 46) coefficient) in
  let digits := skip_zeroes (whole ++ fraction) in
  if bool_decide (digits = []) then [48]
  else
    let scale := zlen fraction - exponent in
    let digits :=
      if 0 <? scale
      then take (length digits - Z.to_nat scale) digits
      else digits ++ replicate (Z.to_nat (- scale)) 48 in
    if negative then 45 :: digits else digits.

(** [i64::to_string] *)
Definition i64_to_string (n : Z) : list Z :=
  if n <? 0 then 45 :: Raw.to_string (- n) else Raw.to_string n.

(** * The operations *)

Definition RequestId_validate (id : RequestId) : outcome string unit :=
  match id with
  | String value =>
      if MAX_JSONRPC_STRING_ID_ENCODED_BYTES <? encoded_json_string_len value
      then Err "JSON-RPC string id exceeds byte limit"%string else Ok tt
  | Integer lexeme =>
      if negb (is_mathematical_integer lexeme)
      then Err "JSON-RPC numeric id must be a mathematical integer"%string else Ok tt
  | Number _ => Ok tt
  end.

Definition correlation_key (id : RequestId) : outcome string CorrelationKey :=
  match RequestId_validate id with
  | Ok _ =>
      match id with
      | Number value => Ok (KeyInteger (i64_to_string value))
      | Integer lexeme => Ok (KeyInteger (canonical_integer_lexeme lexeme))
      | String value => Ok (KeyString value)
      end
  | Err e => Err e
  | Panic => Panic
  | OutOfFuel => OutOfFuel
  end.

Definition correlates_with (a b : RequestId) : bool :=
  match correlation_key a, correlation_key b with
  | Ok l, Ok r => bool_decide (l = r)
  | _, _ => false
  end.

(** The [serde_json::Value] an identifier is read from: a number with its
    lexeme, a string, or anything else. *)
Inductive id_value : Type :=
| VNumber (lexeme : list Z)
| VString (s : list Z)
| VOther.

Definition RequestId_deserialize (v : id_value) : outcome string RequestId :=
  match v with
  | VNumber lexeme =>
      let plain := negb (existsb (λ c, (c =? 46) || (c =? 101) || (c =? 69)) lexeme) &&
                   negb (bool_decide (lexeme = chars_of "-0")) in
      match (if plain then parse_i64 lexeme else None) with
      | Some value => Ok (Number value)
      | None =>
          if is_mathematical_integer lexeme then Ok (Integer lexeme)
          else Err "JSON-RPC numeric id must be a mathematical integer"%string
      end
  | VString value =>
      if MAX_JSONRPC_STRING_ID_ENCODED_BYTES <? encoded_json_string_len value
      then Err "JSON-RPC string id exceeds byte limit"%string
      else Ok (String value)
  | VOther => Err "JSON-RPC id must be a string or mathematical integer"%string
  end.
