(* ===== verification/RequestIdTheorems.v ===== *)
(** Request identifiers correlate by mathematical value. *)
From stdpp Require Import base list gmap strings.
From Stdlib Require Import ZArith Lia.
From S2P Require Import Prelude Utf8 JsonGrammar Scanner JsonLex RawJson RequestId.

(** * The value of a number lexeme *)

(** An exponent part and its value. *)
Inductive exp_value : list Z → Z → Prop :=
| exp_value_none : exp_value [] 0
| exp_value_some e sg ds :
    e = 101 ∨ e = 69 → sg = [] ∨ sg = [43] ∨ sg = [45] → ds ≠ [] → digits ds →
    exp_value (e :: sg ++ ds) (if bool_decide (sg = [45]) then - dec_value ds else dec_value ds).

(** The parts of a JSON number: sign, whole digits, fraction digits, exponent. *)
Inductive lexeme_parts : list Z → bool → list Z → list Z → Z → Prop :=
| parts_whole (neg : bool) ip ep x :
    int_part ip → exp_value ep x →
    lexeme_parts ((if neg then [45] else []) ++ ip ++ ep) neg ip [] x
| parts_fraction (neg : bool) ip fr ep x :
    int_part ip → fr ≠ [] → digits fr → exp_value ep x →
    lexeme_parts ((if neg then [45] else []) ++ ip ++ (46 :: fr) ++ ep) neg ip fr x.

(** The lexeme is a JSON number whose value is the integer [v]. *)
Definition lexeme_int (lex : list Z) (v : Z) : Prop :=
  ∃ neg ip fr x, lexeme_parts lex neg ip fr x ∧
    let scale := zlen fr - x in
    v * 10 ^ Z.max 0 scale =
    (if neg then - dec_value (ip ++ fr) else dec_value (ip ++ fr)) * 10 ^ Z.max 0 (- scale).

(** * Digits *)

Lemma digits_app a b : digits (a ++ b) ↔ digits a ∧ digits b.
Proof. apply Forall_app. Qed.

Lemma int_part_digits ip : int_part ip → digits ip ∧ ip ≠ [].
Proof.
  destruct 1 as [|d ds Hd Hds]; (split; [|done]); [by apply Forall_singleton|].
  apply Forall_cons. split; [apply digit_range; lia|done].
Qed.

Lemma dec_value_app a b : dec_value (a ++ b) = dec_value a * 10 ^ zlen b + dec_value b.
Proof. unfold dec_value at 1. rewrite foldl_app. by rewrite dec_value_acc. Qed.

Lemma dec_value_lt ds : digits ds → dec_value ds < 10 ^ zlen ds.
Proof.
  induction 1 as [|d ds Hd Hds IH]; [done|]. rewrite dec_value_cons, zlen_cons.
  apply digit_range in Hd. pose proof (zlen_nonneg ds). rewrite Z.pow_add_r by lia.
  pose proof (Z.pow_pos_nonneg 10 (zlen ds)). nia.
Qed.

Lemma dec_value_ge d ds : digits (d :: ds) → d ≠ 48 → 10 ^ zlen ds <= dec_value (d :: ds).
Proof.
  intros [Hd Hds]%Forall_cons Hne. rewrite dec_value_cons. apply digit_range in Hd.
  apply dec_value_nonneg in Hds. pose proof (Z.pow_pos_nonneg 10 (zlen ds) ltac:(lia) (zlen_nonneg ds)). nia.
Qed.

Lemma dec_value_zeroes n : dec_value (replicate n 48) = 0.
Proof.
  induction n as [|n IH]; [done|]. change (replicate (S n) 48) with (48 :: replicate n 48).
  rewrite dec_value_cons, IH. lia.
Qed.

(** Digit strings of one length are determined by their value. *)
Lemma dec_value_inj a b : digits a → digits b → length a = length b → dec_value a = dec_value b → a = b.
Proof.
  intros Ha. revert b. induction Ha as [|d a Hd Ha IH]; intros [|e b] Hb Hl Hv; try done.
  apply Forall_cons in Hb as [He Hb]. simpl in Hl. injection Hl as Hl.
  rewrite !dec_value_cons in Hv. assert (zlen a = zlen b) as Hz by (unfold zlen; lia). rewrite Hz in Hv.
  pose proof (dec_value_lt _ Ha). pose proof (dec_value_lt _ Hb). rewrite Hz in *.
  apply dec_value_nonneg in Ha as Ha0, Hb as Hb0. apply digit_range in Hd, He.
  assert (d = e) as -> by nia. f_equal. apply IH; [done..|lia].
Qed.

(** * Canonical decimals *)

Inductive canon : list Z → Z → Prop :=
| canon_zero : canon [48] 0
| canon_pos d ds : digits (d :: ds) → d ≠ 48 → canon (d :: ds) (dec_value (d :: ds))
| canon_neg d ds : digits (d :: ds) → d ≠ 48 → canon (45 :: d :: ds) (- dec_value (d :: ds)).

Lemma dec_value_pos d ds : digits (d :: ds) → d ≠ 48 → 0 < dec_value (d :: ds).
Proof.
  intros Hd Hne. pose proof (dec_value_ge d ds Hd Hne).
  pose proof (Z.pow_pos_nonneg 10 (zlen ds) ltac:(lia) (zlen_nonneg ds)). lia.
Qed.

Lemma nonzero_head_inj d ds e es :
  digits (d :: ds) → d ≠ 48 → digits (e :: es) → e ≠ 48 →
  dec_value (d :: ds) = dec_value (e :: es) → d :: ds = e :: es.
Proof.
  intros Hd Hdn He Hen Hv. apply dec_value_inj; [done..| |done].
  pose proof (dec_value_ge d ds Hd Hdn) as H1. pose proof (dec_value_ge e es He Hen) as H2.
  pose proof (dec_value_lt _ Hd) as H3. pose proof (dec_value_lt _ He) as H4.
  rewrite zlen_cons in *. simpl. f_equal.
  destruct (Z.lt_trichotomy (zlen ds) (zlen es)) as [Hlt|[Heq|Hgt]]; [|unfold zlen in Heq; lia|].
  - pose proof (Z.pow_le_mono_r 10 (1 + zlen ds) (zlen es)). lia.
  - pose proof (Z.pow_le_mono_r 10 (1 + zlen es) (zlen ds)). lia.
Qed.

Lemma canon_cases s v : canon s v →
  (v = 0 ∧ s = [48]) ∨
  ∃ d ds, digits (d :: ds) ∧ d ≠ 48 ∧
    ((0 < v ∧ s = d :: ds ∧ dec_value (d :: ds) = v) ∨
     (v < 0 ∧ s = 45 :: d :: ds ∧ dec_value (d :: ds) = - v)).
Proof.
  destruct 1 as [|d ds Hd Hdn|d ds Hd Hdn]; [auto|..]; right; exists d, ds;
    pose proof (dec_value_pos d ds Hd Hdn); (split_and!; [done..|]); [left|right]; split_and!; lia || done.
Qed.

Lemma canon_unique s s' v : canon s v → canon s' v → s = s'.
Proof.
  intros [[-> ->]|(d & ds & Hd & Hdn & [(H1 & -> & Hv)|(H1 & -> & Hv)])]%canon_cases
    [[? ->]|(e & es & He & Hen & [(H2 & -> & Hv')|(H2 & -> & Hv')])]%canon_cases; try lia; try done.
  - apply nonzero_head_inj; congruence.
  - f_equal. apply nonzero_head_inj; congruence.
Qed.

Lemma canon_value s v v' : canon s v → canon s v' → v = v'.
Proof.
  intros H1 H2. destruct H1 as [|d ds Hd Hdn|d ds Hd Hdn]; inversion H2; subst; try done.
  - apply Forall_cons in Hd as [Hd _]. apply digit_range in Hd. lia.
  - match goal with H : digits (45 :: _) |- _ => apply Forall_cons in H as [Hx _] end.
    apply digit_range in Hx. lia.
Qed.

(** ** Rendering *)

Lemma to_digits_dec fuel n acc :
  0 <= n < 10 ^ Z.of_nat fuel → digits acc →
  digits (Raw.to_digits fuel n acc) ∧
  dec_value (Raw.to_digits fuel n acc) = n * 10 ^ zlen acc + dec_value acc ∧
  (0 < n → head (Raw.to_digits fuel n acc) ≠ Some 48).
Proof.
  revert n acc. induction fuel as [|fuel IH]; intros n acc Hn Ha.
  { simpl in Hn. assert (n = 0) as -> by lia. simpl. split_and!; [done|lia|lia]. }
  cbn [Raw.to_digits]. pose proof (Z.mod_pos_bound n 10 ltac:(lia)) as Hmod.
  pose proof (Z.div_mod n 10 ltac:(lia)) as Hdiv.
  assert (Hacc : digits ((48 + n mod 10) :: acc)).
  { apply Forall_cons. split; [apply digit_range; lia|done]. }
  assert (Hval : dec_value ((48 + n mod 10) :: acc) = (n mod 10) * 10 ^ zlen acc + dec_value acc)
    by (rewrite dec_value_cons; f_equal; lia).
  destruct (Z.eqb_spec (n / 10) 0) as [Hz|Hz].
  - split_and!; [done|rewrite Hval; f_equal; lia|]. simpl. intros ? [= ?]. lia.
  - assert (0 <= n / 10) as Hpos by (apply Z.div_pos; lia).
    destruct (IH (n / 10) ((48 + n mod 10) :: acc)) as (H1 & H2 & H3); [|exact Hacc|].
    { split; [done|]. apply Z.div_lt_upper_bound; [lia|].
      rewrite Nat2Z.inj_succ, Z.pow_succ_r in Hn by lia. lia. }
    split_and!; [done| |intros _; apply H3; lia].
    rewrite H2, Hval, zlen_cons, Z.pow_add_r by (lia || apply zlen_nonneg). nia.
Qed.

Lemma to_string_canon n : 0 <= n < 10 ^ 20 → canon (Raw.to_string n) n.
Proof.
  intros Hn. destruct (Z.eq_dec n 0) as [->|Hnz]; [apply canon_zero|].
  unfold Raw.to_string. destruct (to_digits_dec 20 n []) as (H1 & H2 & H3); [done|constructor|].
  rewrite zlen_nil, Z.pow_0_r in H2. change (dec_value []) with 0 in H2.
  specialize (H3 ltac:(lia)). destruct (Raw.to_digits 20 n []) as [|d ds] eqn:E.
  { change (dec_value []) with 0 in H2. lia. }
  clear E. assert (dec_value (d :: ds) = n) as <- by lia. apply canon_pos; [done|].
  intros ->. by apply H3.
Qed.

Lemma i64_to_string_canon n : i64_min <= n <= i64_max → canon (i64_to_string n) n.
Proof.
  intros Hn. unfold i64_min, i64_max in Hn. unfold i64_to_string. case_goal_if; zbool.
  - destruct (canon_cases _ _ (to_string_canon (- n) ltac:(lia)))
      as [[? _]|(d & ds & Hd & Hdn & [(_ & -> & Hv)|(? & _)])]; try lia.
    replace n with (- dec_value (d :: ds)) by lia. by apply canon_neg.
  - apply to_string_canon. lia.
Qed.

(** * [canonical_integer_lexeme] *)

Lemma split_at_first_skip f a c b :
  Forall (λ x, f x = false) a → f c = true → split_at_first f (a ++ c :: b) = Some (a, b).
Proof. induction 1 as [|x a Hx Ha IH]; intros Hc; simpl; [by rewrite Hc|]. by rewrite Hx, IH. Qed.

Lemma split_at_first_none f a : Forall (λ x, f x = false) a → split_at_first f a = None.
Proof. induction 1 as [|x a Hx Ha IH]; simpl; [done|]. by rewrite Hx, IH. Qed.

Lemma digits_not f ds : (∀ b, is_digit b = true → f b = false) → digits ds → Forall (λ x, f x = false) ds.
Proof. intros Hf Hds. eapply Forall_impl; [exact Hds|]. exact Hf. Qed.

Lemma digit_not_e b : is_digit b = true → (b =? 101) || (b =? 69) = false.
Proof. intros Hb%digit_range. rewrite !(proj2 (Z.eqb_neq _ _)) by lia. done. Qed.

Lemma digit_not_point b : is_digit b = true → 46 =? b = false.
Proof. intros Hb%digit_range. by apply Z.eqb_neq; lia. Qed.

Lemma parse_digits ds :
  ds ≠ [] → digits ds → dec_value ds <= i64_max →
  parse_i64 ds = Some (dec_value ds) ∧ parse_i64 (45 :: ds) = Some (- dec_value ds) ∧
  parse_i64 (43 :: ds) = Some (dec_value ds).
Proof.
  intros Hne Hds Hv. pose proof (dec_value_nonneg ds Hds).
  assert (parse_i64_digits ds = Some (dec_value ds)) as Hp.
  { unfold parse_i64_digits. rewrite bool_decide_false by done.
    assert (forallb is_digit ds = true) as -> by (clear -Hds; induction Hds; simpl; [done|]; by rewrite H).
    done. }
  assert (Hr : ∀ v, i64_min <= v <= i64_max → (i64_min <=? v) && (v <=? i64_max) = true)
    by (intros v Hr; by rewrite !(proj2 (Z.leb_le _ _)) by lia).
  unfold i64_min, i64_max in *. split_and!.
  - unfold parse_i64. destruct Hds as [|d ds Hd Hds]; [done|]. apply digit_range in Hd.
    rewrite (proj2 (Z.eqb_neq d 45)), (proj2 (Z.eqb_neq d 43)), Hp by lia. by rewrite Hr by lia.
  - unfold parse_i64. cbn [Z.eqb Pos.eqb]. rewrite Hp. cbn [fmap option_fmap option_map]. by rewrite Hr by lia.
  - unfold parse_i64. cbn [Z.eqb Pos.eqb]. rewrite Hp. by rewrite Hr by lia.
Qed.

Lemma exp_value_split pre ep x :
  Forall (λ c, (c =? 101) || (c =? 69) = false) pre → exp_value ep x → Z.abs x <= i64_max →
  (match split_at_first (λ c, (c =? 101) || (c =? 69)) (pre ++ ep) with
   | Some (c, e) => (c, default 0 (parse_i64 e))
   | None => (pre ++ ep, 0)
   end) = (pre, x).
Proof.
  intros Hpre Hx Hb. destruct Hx as [|e sg ds He Hsg Hne Hds].
  { rewrite app_nil_r. by rewrite split_at_first_none. }
  rewrite split_at_first_skip by (try done; destruct He as [-> | ->]; done).
  apply dec_value_nonneg in Hds as H0.
  assert (dec_value ds <= i64_max) as Hle by (case_bool_decide; lia).
  destruct (parse_digits ds Hne Hds Hle) as (H1 & H2 & H3).
  destruct Hsg as [->|[-> | ->]]; simpl app; [rewrite H1|rewrite H3|rewrite H2]; done.
Qed.

(** The digits kept of a nonzero coefficient. *)
Definition rescale (ds : list Z) (scale : Z) : list Z :=
  if 0 <? scale then take (length ds - Z.to_nat scale) ds else ds ++ replicate (Z.to_nat (- scale)) 48.

Lemma rescale_canon d ds scale v :
  digits (d :: ds) → d ≠ 48 →
  v * 10 ^ Z.max 0 scale = dec_value (d :: ds) * 10 ^ Z.max 0 (- scale) →
  ∃ es, rescale (d :: ds) scale = d :: es ∧ digits (d :: es) ∧ dec_value (d :: es) = v.
Proof.
  intros Hd Hdn Hv. unfold rescale. case_goal_if; zbool.
  - rewrite (Z.max_r 0 scale), (Z.max_l 0 (- scale)), Z.pow_0_r, Z.mul_1_r in Hv by lia.
    set (n := Z.to_nat scale). set (k := (length (d :: ds) - n)%nat).
    pose proof (dec_value_lt _ Hd) as Hlt. pose proof (dec_value_pos d ds Hd Hdn) as Hpos.
    assert (0 < v) by (pose proof (Z.pow_pos_nonneg 10 scale); nia).
    assert (Hk : (1 ≤ k)%nat).
    { destruct (decide (1 ≤ k)%nat) as [|Hk]; [done|].
      assert (zlen (d :: ds) <= scale) as Hle by (unfold zlen, k, n in *; lia).
      pose proof (Z.pow_le_mono_r 10 _ _ ltac:(lia) Hle). nia. }
    assert (Hsplit : dec_value (d :: ds) = dec_value (take k (d :: ds)) * 10 ^ scale + dec_value (drop k (d :: ds))).
    { rewrite <- (take_drop k (d :: ds)) at 1. rewrite dec_value_app. do 3 f_equal.
      unfold zlen. rewrite length_drop. unfold k, n in *. lia. }
    assert (Hdrop : digits (drop k (d :: ds))) by (by apply Forall_drop).
    assert (Htake : digits (take k (d :: ds))) by (by apply Forall_take).
    pose proof (dec_value_lt _ Hdrop) as Hlt'. pose proof (dec_value_nonneg _ Hdrop).
    assert (zlen (drop k (d :: ds)) = scale) as Hz
      by (unfold zlen; rewrite length_drop; unfold k, n in *; lia).
    rewrite Hz in Hlt'. assert (dec_value (take k (d :: ds)) = v) by nia.
    destruct k as [|k]; [lia|]. by exists (take k ds).
  - rewrite (Z.max_l 0 scale), (Z.max_r 0 (- scale)), Z.pow_0_r, Z.mul_1_r in Hv by lia.
    exists (ds ++ replicate (Z.to_nat (- scale)) 48). split_and!; [done|..].
    + apply (digits_app (d :: ds)). split; [done|]. by apply Forall_replicate.
    + change (d :: ds ++ ?l) with ((d :: ds) ++ l). rewrite dec_value_app, dec_value_zeroes.
      unfold zlen at 1. rewrite length_replicate, Z2Nat.id by lia. lia.
Qed.

Lemma skip_zeroes_nil ds : skip_zeroes ds = [] → dec_value ds = 0.
Proof. intros H. by rewrite <- skip_zeroes_value, H. Qed.

(** The canonical lexeme is the canonical decimal of the value. *)
Lemma canonical_lexeme_canon lex neg ip fr x v :
  lexeme_parts lex neg ip fr x → Z.abs x <= i64_max →
  v * 10 ^ Z.max 0 (zlen fr - x) =
    (if neg then - dec_value (ip ++ fr) else dec_value (ip ++ fr)) * 10 ^ Z.max 0 (- (zlen fr - x)) →
  canon (canonical_integer_lexeme lex) v.
Proof.
  intros Hp Hx Hv. unfold canonical_integer_lexeme.
  assert (Hip : digits ip ∧ ip ≠ []) by (destruct Hp; by apply int_part_digits).
  assert (Hfr : digits fr) by (destruct Hp; [constructor|done]). destruct Hip as [Hip Hne].
  assert (Hneg : bool_decide (head lex = Some 45) = neg ∧
    ∃ fp ep, (if neg then tail lex else lex) = (ip ++ fp) ++ ep ∧ exp_value ep x ∧
      (fp = [] ∧ fr = [] ∨ fp = 46 :: fr)).
  { assert (Hhead : ∀ l, head (ip ++ l) ≠ Some 45).
    { intros l. destruct Hip as [|d ip Hd Hip]; [done|]. apply digit_range in Hd. simpl. intros [= ->]. lia. }
    destruct Hp as [[] ip ep x ? ?|[] ip fr ep x ? ? ? ?]; cbn [app tail head];
      (split; [by (apply bool_decide_eq_true || apply bool_decide_eq_false)|]);
      [exists [], ep|exists [], ep|exists (46 :: fr), ep|exists (46 :: fr), ep];
      (split; [|split; [done|auto]]); rewrite ?app_nil_r, <- ?app_assoc; done. }
  destruct Hneg as [-> (fp & ep & -> & Hep & Hfp)].
  rewrite (exp_value_split (ip ++ fp) ep x); [|apply Forall_app; split|done|done]; cycle 1.
  { by apply (digits_not (λ c, (c =? 101) || (c =? 69)) ip digit_not_e). }
  { destruct Hfp as [[-> _]| ->]; [done|]. apply Forall_cons. split; [done|].
    by apply (digits_not (λ c, (c =? 101) || (c =? 69)) fr digit_not_e). }
  assert (default (ip ++ fp, []) (split_at_first (Z.eqb 46) (ip ++ fp)) = (ip, fr)) as ->.
  { pose proof (digits_not _ _ digit_not_point Hip) as Hno. destruct Hfp as [[-> ->]| ->].
    - rewrite app_nil_r. by rewrite split_at_first_none.
    - by rewrite split_at_first_skip. }
  cbv zeta. fold (rescale (skip_zeroes (ip ++ fr)) (zlen fr - x)).
  assert (Hds : digits (skip_zeroes (ip ++ fr))) by (apply skip_zeroes_digits, digits_app; done).
  pose proof (skip_zeroes_head (ip ++ fr)) as Hh. rewrite <- skip_zeroes_value in Hv.
  destruct (skip_zeroes (ip ++ fr)) as [|d ds].
  - change (dec_value []) with 0 in Hv. rewrite bool_decide_true by done.
    assert (v = 0) as ->; [|apply canon_zero].
    pose proof (Z.pow_pos_nonneg 10 (Z.max 0 (zlen fr - x))). destruct neg; nia.
  - rewrite bool_decide_false by done. unfold head_not in Hh. zbool.
    destruct neg.
    + destruct (rescale_canon d ds (zlen fr - x) (- v) Hds) as (es & -> & Hes & He); [done|lia|].
      replace v with (- dec_value (d :: es)) by lia. by apply canon_neg.
    + destruct (rescale_canon d ds (zlen fr - x) v Hds) as (es & -> & Hes & <-); [done|lia|].
      by apply canon_pos.
Qed.

(** * [is_mathematical_integer] *)

Lemma lookup_head_drop (bs : list Z) i : bs !! i = head (drop i bs).
Proof. by rewrite head_lookup, lookup_drop, Nat.add_0_r. Qed.

Lemma byte_is_drop bs i b : byte_is bs i b = starts_with (Z.eqb b) (drop i bs).
Proof.
  unfold byte_is. rewrite lookup_head_drop.
  destruct (drop i bs) as [|c l]; [done|]. cbn [head starts_with]. rewrite bool_decide_Some_eqb. apply Z.eqb_sym.
Qed.

Lemma digit_at_drop bs i : digit_at bs i = starts_with is_digit (drop i bs).
Proof.
  unfold digit_at. rewrite lookup_head_drop. by destruct (drop i bs).
Qed.

Lemma skip_digits_spec rest i : skip_digits rest i = (i + length (take_while is_digit rest))%nat.
Proof.
  revert i. induction rest as [|b rest IH]; intros i; simpl; [lia|].
  destruct (is_digit b); simpl; [rewrite IH; lia|lia].
Qed.

Lemma math_int_part_spec bs i : math_int_part bs i = Nat.add i <$> int_at (drop i bs).
Proof.
  unfold math_int_part. rewrite byte_is_drop, !digit_at_drop, skip_digits_spec.
  replace (drop (i + 1) bs) with (tail (drop i bs)) by (rewrite <- drop_drop; by destruct (drop i bs)).
  destruct (drop i bs) as [|b r]; [done|]. unfold int_at. cbn [starts_with tail].
  rewrite (Z.eqb_sym 48 b). destruct (b =? 48); [by destruct (starts_with _ _)|].
  destruct (is_digit b); [|done]. simpl. f_equal. lia.
Qed.

Lemma math_frac_part_spec bs i :
  math_frac_part bs i = (λ n, ((i + n)%nat, (n - 1)%nat)) <$> frac_at (drop i bs).
Proof.
  unfold math_frac_part. rewrite byte_is_drop, skip_digits_spec.
  replace (drop (i + 1) bs) with (tail (drop i bs)) by (rewrite <- drop_drop; by destruct (drop i bs)).
  destruct (drop i bs) as [|b r]; cbn [starts_with]; [simpl; by rewrite Nat.add_0_r|].
  unfold frac_at. cbn [tail]. rewrite (Z.eqb_sym 46 b).
  destruct (b =? 46); [|simpl; by rewrite Nat.add_0_r].
  replace (i + 1 + length (take_while is_digit r) - (i + 1))%nat with (length (take_while is_digit r)) by lia.
  destruct (starts_with is_digit r) eqn:E.
  - apply starts_with_ne in E. rewrite bool_decide_false by (by destruct (take_while _ _)).
    simpl. do 2 f_equal; lia.
  - rewrite bool_decide_true; [done|]. destruct r as [|c r]; [done|]. simpl in *. by rewrite E.
Qed.

Lemma exp_value_cons b r x :
  exp_value (b :: r) x ↔
  (b = 101 ∨ b = 69) ∧ let ds := drop (sign_at r) r in
  ds ≠ [] ∧ digits ds ∧ x = if starts_with (Z.eqb 45) r then - dec_value ds else dec_value ds.
Proof.
  split.
  - inversion 1 as [|e sg ds He Hsg Hne Hds]; subst. split; [done|].
    assert (Hd0 : ∀ c, 45 = c ∨ 43 = c → starts_with (Z.eqb c) ds = false).
    { intros c Hc. destruct Hds as [|d ds Hd]; [done|]. apply digit_range in Hd. cbn [starts_with].
      apply Z.eqb_neq. lia. }
    destruct Hsg as [->|[-> | ->]]; cbn [app].
    + assert (sign_at ds = 0%nat) as ->.
      { unfold sign_at. destruct Hds as [|d ds Hd]; [done|]. apply digit_range in Hd. cbn [starts_with].
        rewrite !(proj2 (Z.eqb_neq _ _)) by lia. done. }
      rewrite drop_0, Hd0 by auto. done.
    + unfold sign_at. simpl. by rewrite drop_0.
    + unfold sign_at. simpl. by rewrite drop_0.
  - intros (Hb & Hne & Hds & ->). destruct (sign_at_spec r) as [Hsg Hl].
    set (ds := drop (sign_at r) r) in *.
    replace (b :: r) with (b :: take (sign_at r) r ++ ds) by (unfold ds; by rewrite take_drop).
    replace (if starts_with (Z.eqb 45) r then - dec_value ds else dec_value ds)
      with (if bool_decide (take (sign_at r) r = [45]) then - dec_value ds else dec_value ds); [by constructor|].
    unfold sign_at in *. destruct r as [|c r]; [done|]. cbn [starts_with] in *.
    destruct (Z.eqb_spec c 43) as [->|H43]; [done|]. destruct (Z.eqb_spec c 45) as [->|H45]; cbn [orb take].
    + done.
    + by rewrite (proj2 (Z.eqb_neq 45 c)) by congruence.
Qed.

Lemma sign_index bs i :
  (if byte_is bs i 45 then (i + 1)%nat else if byte_is bs i 43 then (i + 1)%nat else i) =
  (i + sign_at (drop i bs))%nat.
Proof.
  rewrite !byte_is_drop. unfold sign_at. destruct (drop i bs) as [|c r]; cbn [starts_with]; [lia|].
  rewrite (Z.eqb_sym 45), (Z.eqb_sym 43). destruct (c =? 45), (c =? 43); simpl; lia.
Qed.

Lemma take_while_all {A} (f : A → bool) l :
  length (take_while f l) = length l ↔ Forall (λ x, f x = true) l.
Proof.
  split.
  - intros Hl. destruct (take_while_split f l) as [Heq _].
    rewrite Hl, drop_all, app_nil_r in Heq. rewrite Heq. apply take_while_Forall.
  - intros Hf. rewrite <- (app_nil_r l) at 1. by rewrite take_while_app.
Qed.

Lemma math_exponent_spec bs i x :
  (i ≤ length bs)%nat →
  math_exponent bs i = Some x ↔ exp_value (drop i bs) x ∧ Z.abs x <= Raw.MAX_RAW_JSON_EXPONENT.
Proof.
  intros Hi. unfold math_exponent.
  assert (Hlen : length (drop i bs) = (length bs - i)%nat) by apply length_drop.
  rewrite (byte_is_drop bs i 101), (byte_is_drop bs i 69).
  assert (Hd : drop (i + 1) bs = tail (drop i bs)) by (rewrite <- drop_drop; by destruct (drop i bs)).
  destruct (drop i bs) as [|b r].
  { rewrite (bool_decide_true (i = length bs)) by (simpl in Hlen; lia). simpl. split.
    - intros [= <-]. split; [constructor|done].
    - intros [He _]. by inversion He. }
  cbn [starts_with tail] in *. rewrite exp_value_cons, (Z.eqb_sym 101), (Z.eqb_sym 69).
  destruct ((b =? 101) || (b =? 69)) eqn:Eb; cycle 1.
  { zbool. rewrite (bool_decide_false (i = length bs)) by (simpl in Hlen; lia). split; [done|intros [[? _] _]; lia]. }
  assert (Hb : b = 101 ∨ b = 69) by (apply orb_true_iff in Eb; rewrite !Z.eqb_eq in Eb; done).
  rewrite sign_index, Hd. set (j := (i + 1 + sign_at r)%nat).
  assert (Hj : drop j bs = drop (sign_at r) r) by (unfold j; by rewrite <- drop_drop, Hd).
  rewrite Hj, skip_digits_spec, byte_is_drop, Hd. set (ds := drop (sign_at r) r) in *.
  assert (Hds : length ds = (length bs - j)%nat) by (rewrite <- Hj; apply length_drop).
  replace (j + length (take_while is_digit ds) - j)%nat with (length (take_while is_digit ds)) by lia.
  rewrite take_digits. pose proof (take_while_le is_digit ds).
  destruct (decide (ds ≠ [])) as [Hne|Hnil]; cycle 1.
  { assert (ds = []) as -> by (by destruct ds; [|destruct Hnil]).
    rewrite bool_decide_true by (simpl; lia). split; [done|by intros [[_ [? _]] _]]. }
  assert (Hjl : (j < length bs)%nat) by (destruct ds; [done|simpl in Hds; lia]).
  destruct (decide (length (take_while is_digit ds) = length ds)) as [Hl|Hl]; cycle 1.
  { rewrite (bool_decide_false (_ = length bs)) by lia. rewrite orb_true_r. split; [done|].
    intros [[_ [_ [Hall _]]] _]. by apply take_while_all in Hall. }
  apply take_while_all in Hl as Hall. rewrite (bool_decide_true (_ = length bs)) by lia.
  rewrite bool_decide_false by (destruct ds; [done|simpl in *; lia]). cbn [orb negb].
  assert (take_while is_digit ds = ds) as ->
    by (rewrite <- (app_nil_r ds) at 1; by rewrite take_while_app).
  pose proof (dec_value_nonneg ds Hall) as Hnn. unfold Raw.MAX_RAW_JSON_EXPONENT.
  destruct (Z.leb_spec (dec_value ds) i64_max) as [Hle|Hgt].
  - destruct (parse_digits ds Hne Hall Hle) as (-> & _ & _).
    destruct (dec_value ds <=? 10000) eqn:E; zbool; split.
    + intros [= <-]. split_and!; try done. destruct (starts_with _ _); lia.
    + intros [(_ & _ & _ & ->) _]. done.
    + done.
    + intros [(_ & _ & _ & ->) Hx]. destruct (starts_with _ _); lia.
  - assert (parse_i64 ds = None) as ->.
    { unfold parse_i64. destruct Hall as [|d ds' Hdig Hall]; [done|]. apply digit_range in Hdig as Hd'.
      rewrite (proj2 (Z.eqb_neq d 45)), (proj2 (Z.eqb_neq d 43)) by lia.
      unfold parse_i64_digits. rewrite bool_decide_false by done.
      case_goal_if; [|done]. rewrite (proj2 (Z.leb_gt (dec_value (d :: ds')) i64_max)) by lia.
      by rewrite andb_false_r. }
    split; [done|]. intros [(_ & _ & _ & ->) Hx]. unfold i64_max in Hgt. destruct (starts_with _ _); lia.
Qed.

(** ** Bytes and characters *)

Lemma as_bytes_ascii s : Forall (λ c, c < 128) s → as_bytes s = s.
Proof.
  induction 1 as [|c s Hc Hs IH]; [done|]. unfold as_bytes in *. cbn [fmap list_fmap concat]. rewrite IH.
  unfold encode_utf8. by rewrite (proj2 (Z.ltb_lt _ _)).
Qed.

Lemma as_bytes_ascii_inv s : Forall is_scalar s → Forall (λ b, b < 128) (as_bytes s) → Forall (λ c, c < 128) s.
Proof.
  induction 1 as [|c s Hc Hs IH]; [done|]. unfold as_bytes in *. cbn [fmap list_fmap concat].
  rewrite Forall_app. intros [H1 H2]. constructor; [|auto].
  destruct (encode_utf8 c) as [|b l] eqn:E; [by apply encode_utf8_ne in E|].
  pose proof (encode_utf8_head c b [] l Hc) as Hh. rewrite app_nil_r in Hh. specialize (Hh E).
  apply Forall_cons in H1 as [Hb _]. case_if_in Hh; zbool; lia.
Qed.

Lemma chars_bytes_as_bytes s : chars_bytes s = zlen (as_bytes s).
Proof.
  induction s as [|c s IH]; [done|]. unfold as_bytes in *. cbn [fmap list_fmap concat].
  rewrite zlen_app. unfold zlen at 1. rewrite len_encode_utf8, <- IH. done.
Qed.

(** ** Trailing zeros *)

Lemma trailing_zeroes_point a b : trailing_zeroes (a ++ 46 :: b) = trailing_zeroes (a ++ b).
Proof. induction a as [|x a IH]; [done|]. cbn [app trailing_zeroes]. by rewrite IH. Qed.

Lemma dec_value_snoc ds d : dec_value (ds ++ [d]) = dec_value ds * 10 + (d - 48).
Proof. unfold dec_value. by rewrite foldl_snoc. Qed.

Lemma trailing_zeroes_value ds :
  digits ds → ∃ q, dec_value ds = q * 10 ^ Z.of_nat (trailing_zeroes (rev ds)) ∧
    (dec_value ds ≠ 0 → q mod 10 ≠ 0).
Proof.
  induction ds as [|d ds IH] using rev_ind; intros Hds.
  { exists 0. split; [done|]. intros H. by destruct H. }
  apply digits_app in Hds as [Hds Hd]. apply Forall_singleton, digit_range in Hd.
  rewrite rev_app_distr, dec_value_snoc. cbn [rev app trailing_zeroes].
  destruct (Z.eqb_spec d 48) as [->|Hd48].
  - destruct (IH Hds) as (q & Hq & Hn). exists q. rewrite Nat2Z.inj_succ, Z.pow_succ_r by lia.
    split; [lia|]. intros H. apply Hn. lia.
  - rewrite (proj2 (Z.eqb_neq d 46)) by lia. exists (dec_value ds * 10 + (d - 48)).
    change (Z.of_nat 0) with 0. rewrite Z.pow_0_r. split; [lia|]. intros _.
    rewrite Z.add_comm, Z.mod_add, Z.mod_small by lia. lia.
Qed.

(** A power of ten divides a nonzero decimal when its trailing zeros allow. *)
Lemma trailing_zeroes_divides ds n :
  digits ds → 0 <= n → dec_value ds ≠ 0 →
  (10 ^ n | dec_value ds) ↔ n <= Z.of_nat (trailing_zeroes (rev ds)).
Proof.
  intros Hds Hn Hnz. destruct (trailing_zeroes_value ds Hds) as (q & Hq & Hmod).
  specialize (Hmod Hnz). set (k := Z.of_nat (trailing_zeroes (rev ds))) in *.
  assert (0 <= k) by (unfold k; lia). split.
  - intros [m Hm]. destruct (Z.le_gt_cases n k) as [|Hgt]; [done|]. exfalso. apply Hmod.
    rewrite Hm in Hq. replace n with (k + 1 + (n - k - 1)) in Hq by lia.
    rewrite !Z.pow_add_r, Z.pow_1_r in Hq by lia.
    assert (q = m * 10 ^ (n - k - 1) * 10) as ->
      by (pose proof (Z.pow_pos_nonneg 10 k); nia).
    apply Z.mod_mul. lia.
  - intros Hle. rewrite Hq. replace k with (n + (k - n)) by lia. rewrite Z.pow_add_r by lia.
    exists (q * 10 ^ (k - n)). lia.
Qed.

(** ** The decision *)

Lemma exp_value_ascii ep x : exp_value ep x → Forall (λ b, b < 128) ep.
Proof.
  assert (∀ l, digits l → Forall (λ b, b < 128) l) as Hd.
  { intros l Hl. eapply Forall_impl; [exact Hl|]. intros b Hb%digit_range. simpl. lia. }
  destruct 1 as [|e sg ds He Hsg Hne Hds]; [done|]. apply Forall_cons. split; [lia|].
  apply Forall_app. split; [|auto]. destruct Hsg as [->|[-> | ->]]; by repeat constructor.
Qed.

Lemma lexeme_parts_ascii lex neg ip fr x : lexeme_parts lex neg ip fr x → Forall (λ b, b < 128) lex.
Proof.
  assert (∀ l, digits l → Forall (λ b, b < 128) l) as Hd.
  { intros l Hl. eapply Forall_impl; [exact Hl|]. intros b Hb%digit_range. simpl. lia. }
  destruct 1 as [neg ip ep x Hi He|neg ip fr ep x Hi Hne Hfr He];
    apply int_part_digits in Hi as [Hi _]; apply exp_value_ascii in He; rewrite !Forall_app;
    (split; [destruct neg; by repeat constructor|]); (split; [auto|]); [done|].
  split; [|done]. apply Forall_cons. split; [lia|auto].
Qed.

(** The condition [is_mathematical_integer] decides. *)
Definition math_parts (lex : list Z) : Prop :=
  ∃ neg ip fr x, lexeme_parts lex neg ip fr x ∧ Z.abs x <= Raw.MAX_RAW_JSON_EXPONENT ∧
    zlen fr - x <= Z.of_nat (trailing_zeroes (rev (ip ++ fr))).

Lemma scale_test s z : 0 <= z → (s <=? 0) || (s <=? z) = (s <=? z).
Proof. intros. destruct (s <=? 0) eqn:E; [|done]. zbool. symmetry. apply Z.leb_le. lia. Qed.

(** The decision, as a function of the bytes. *)
Lemma is_math_unfold lex :
  is_mathematical_integer lex =
  (if Raw.MAX_RAW_JSON_NUMBER_BYTES <? zlen (as_bytes lex) then false
   else let bs := as_bytes lex in let m := minus_at bs in
     match int_at (drop m bs) with
     | None => false
     | Some i =>
         match frac_at (drop (m + i) bs) with
         | None => false
         | Some f =>
             match math_exponent bs (m + i + f) with
             | None => false
             | Some x =>
                 Z.of_nat (f - 1) - x <=?
                 Z.of_nat (trailing_zeroes (rev (take (i + f) (drop m bs))))
             end
         end
     end).
Proof.
  unfold is_mathematical_integer. rewrite chars_bytes_as_bytes, byte_is_drop, drop_0.
  case_goal_if; [done|]. fold (minus_at (as_bytes lex)). set (bs := as_bytes lex). set (m := minus_at bs).
  cbv zeta. rewrite math_int_part_spec. case_bool_decide as Hm.
  { by rewrite Hm, drop_all. }
  destruct (int_at (drop m bs)) as [i|]; [|done]. cbn [fmap option_fmap option_map].
  rewrite math_frac_part_spec. destruct (frac_at _) as [f|]; [|done]. cbn [fmap option_fmap option_map].
  destruct (math_exponent _ _) as [x|]; [|done]. rewrite scale_test by lia.
  by replace (m + i + f - m)%nat with (i + f)%nat by lia.
Qed.

Lemma minus_at_split bs :
  bs = (if starts_with (Z.eqb 45) bs then [45] else []) ++ drop (minus_at bs) bs.
Proof.
  unfold minus_at. destruct bs as [|b bs]; [done|]. cbn [starts_with].
  destruct (Z.eqb_spec 45 b) as [<-|]; [simpl; by rewrite drop_0|done].
Qed.

Lemma is_math_sound lex :
  Forall is_scalar lex → is_mathematical_integer lex = true →
  zlen lex <= Raw.MAX_RAW_JSON_NUMBER_BYTES ∧ math_parts lex.
Proof.
  intros Hsc. rewrite is_math_unfold. case_goal_if; [done|]. cbv zeta.
  set (bs := as_bytes lex) in *. pose proof (minus_at_split bs) as Hbs. set (m := minus_at bs) in *.
  destruct (int_at (drop m bs)) as [i|] eqn:Hi; [|done].
  destruct (frac_at (drop (m + i) bs)) as [f|] eqn:Hf; [|done].
  destruct (math_exponent bs (m + i + f)) as [x|] eqn:Hx; [|done]. intros Hz. zbool.
  apply int_at_sound in Hi as [Hi Hil]. apply frac_at_sound in Hf as [Hf Hfl].
  rewrite length_drop in Hil, Hfl. apply math_exponent_spec in Hx as [Hx Hxb]; [|lia].
  rewrite <- drop_drop in Hf. rewrite <- !drop_drop in Hx. rewrite <- take_take_drop in Hz.
  set (ip := take i (drop m bs)) in *. set (fp := take f (drop i (drop m bs))) in *.
  set (ep := drop f (drop i (drop m bs))) in *.
  assert (Hsplit : drop m bs = ip ++ fp ++ ep) by (unfold ip, fp, ep; by rewrite !take_drop).
  rewrite Hsplit in Hbs.
  assert (Hfl' : length fp = f) by (unfold fp; rewrite length_take, !length_drop; lia).
  assert (Hparts : ∃ fr, lexeme_parts bs (starts_with (Z.eqb 45) bs) ip fr x ∧
    length fr = (f - 1)%nat ∧ trailing_zeroes (rev (ip ++ fp)) = trailing_zeroes (rev (ip ++ fr))).
  { destruct Hf as [|fr Hne Hfr].
    - exists []. simpl in Hfl'. subst f. split_and!; [|done|done]. rewrite Hbs at 1. by constructor.
    - exists fr. simpl in Hfl'. split_and!; [|lia|].
      + rewrite Hbs at 1. by constructor.
      + rewrite !rev_app_distr. simpl. rewrite <- app_assoc. apply trailing_zeroes_point. }
  destruct Hparts as (fr & Hp & Hfr & Htz).
  assert (Heq : bs = lex).
  { apply as_bytes_ascii, (as_bytes_ascii_inv lex Hsc), (lexeme_parts_ascii _ _ _ _ _ Hp). }
  split; [by rewrite <- Heq|]. exists (starts_with (Z.eqb 45) bs), ip, fr, x.
  split_and!; [by rewrite <- Heq|done|]. rewrite <- Htz. unfold zlen. by rewrite Hfr.
Qed.

(** The pieces of a lexeme, where the scan finds them. *)
Lemma parts_split lex neg ip fr x :
  lexeme_parts lex neg ip fr x →
  ∃ fp ep, let sg := if neg then [45] else [] in
    lex = sg ++ ip ++ fp ++ ep ∧ exp_value ep x ∧
    (length fp - 1)%nat = length fr ∧ fr = tail fp ∧
    trailing_zeroes (rev (ip ++ fp)) = trailing_zeroes (rev (ip ++ fr)) ∧
    neg = starts_with (Z.eqb 45) lex ∧ minus_at lex = length sg ∧
    int_at (ip ++ fp ++ ep) = Some (length ip) ∧ frac_at (fp ++ ep) = Some (length fp).
Proof.
  intros Hp. set (sg := if neg then [45] else []).
  assert (Hsplit : ∃ fp ep, lex = sg ++ ip ++ fp ++ ep ∧ int_part ip ∧
    frac_part fp ∧ exp_value ep x ∧ (length fp - 1)%nat = length fr ∧ fr = tail fp ∧
    trailing_zeroes (rev (ip ++ fp)) = trailing_zeroes (rev (ip ++ fr))).
  { unfold sg. destruct Hp as [neg ip ep x Hi He|neg ip fr ep x Hi Hne Hfr He].
    - exists [], ep. split_and!; try done. constructor.
    - exists (46 :: fr), ep. split_and!; try done; [by constructor|simpl; lia|].
      rewrite !rev_app_distr. simpl. rewrite <- app_assoc. apply trailing_zeroes_point. }
  destruct Hsplit as (fp & ep & Hlex & Hi & Hf & He & Hfl & Hfr & Htz).
  assert (He1 : head_not is_digit ep ∧ head_not (Z.eqb 46) ep)
    by (destruct He as [|e sg' ds [-> | ->]]; done).
  assert (Hf1 : head_not is_digit (fp ++ ep)) by (destruct Hf; [apply He1|done]).
  assert (Hneg : neg = starts_with (Z.eqb 45) lex).
  { rewrite Hlex. unfold sg. destruct neg; [done|]. destruct Hi as [|d ds' Hd]; [done|].
    cbn [app starts_with]. by rewrite (proj2 (Z.eqb_neq 45 d)) by lia. }
  exists fp, ep. split_and!; try done.
  - unfold minus_at, sg. rewrite <- Hneg. by destruct neg.
  - by apply int_at_complete.
  - apply frac_at_complete; tauto.
Qed.

Lemma exp_value_fun ep x x' : exp_value ep x → exp_value ep x' → x = x'.
Proof.
  destruct ep as [|b r]; [by inversion 1; inversion 1|].
  rewrite !exp_value_cons. intros (_ & _ & _ & ->) (_ & _ & _ & ->). done.
Qed.

Lemma lexeme_parts_fun lex neg ip fr x neg' ip' fr' x' :
  lexeme_parts lex neg ip fr x → lexeme_parts lex neg' ip' fr' x' →
  neg = neg' ∧ ip = ip' ∧ fr = fr' ∧ x = x'.
Proof.
  intros (fp & ep & H1 & He & _ & -> & _ & -> & Hm & Hi & Hf)%parts_split
    (fp' & ep' & H1' & He' & _ & -> & _ & -> & Hm' & Hi' & Hf')%parts_split.
  set (neg := starts_with (Z.eqb 45) lex) in *. rewrite H1 in H1'. apply app_inv_head in H1'.
  rewrite H1', Hi' in Hi. injection Hi as Hi. apply app_inj_1 in H1' as [-> H1']; [|done].
  rewrite H1', Hf' in Hf. injection Hf as Hf. apply app_inj_1 in H1' as [-> ->]; [|done].
  split_and!; try done. by eapply exp_value_fun.
Qed.

Lemma is_math_complete lex :
  zlen lex <= Raw.MAX_RAW_JSON_NUMBER_BYTES → math_parts lex → is_mathematical_integer lex = true.
Proof.
  intros Hlen (neg & ip & fr & x & Hp & Hx & Hz).
  rewrite is_math_unfold, (as_bytes_ascii lex) by (by eapply lexeme_parts_ascii).
  rewrite (proj2 (Z.ltb_ge _ _)) by done. cbv zeta.
  destruct (parts_split _ _ _ _ _ Hp) as (fp & ep & Hlex & He & Hfl & _ & Htz & _ & Hm & Hi & Hf).
  set (sg := if neg then [45] else []) in *. rewrite Hm. rewrite Hlex at 1.
  rewrite drop_app_length, Hi. cbn match.
  rewrite Hlex at 1. rewrite <- drop_drop, !drop_app_length, Hf. cbn match.
  assert (math_exponent lex (length sg + length ip + length fp) = Some x) as ->.
  { apply math_exponent_spec; [rewrite Hlex, !length_app; lia|].
    rewrite Hlex, <- !drop_drop, !drop_app_length. done. }
  rewrite Hlex at 1. rewrite drop_app_length, app_assoc, <- length_app, take_app_length, Htz, Hfl.
  by apply Z.leb_le.
Qed.

(** ** Values *)

Definition parts_value (neg : bool) (ip fr : list Z) (x v : Z) : Prop :=
  v * 10 ^ Z.max 0 (zlen fr - x) =
  (if neg then - dec_value (ip ++ fr) else dec_value (ip ++ fr)) * 10 ^ Z.max 0 (- (zlen fr - x)).

Lemma parts_digits lex neg ip fr x : lexeme_parts lex neg ip fr x → digits (ip ++ fr).
Proof.
  destruct 1 as [neg ip ep x Hi|neg ip fr ep x Hi]; apply int_part_digits in Hi as [Hi _];
    apply digits_app; split; done || constructor.
Qed.

(** A nonzero coefficient has an integer value exactly when its trailing zeros
    cover the scale. *)
Lemma parts_value_nonzero neg ip fr x :
  digits (ip ++ fr) → dec_value (ip ++ fr) ≠ 0 →
  (∃ v, parts_value neg ip fr x v) ↔ zlen fr - x <= Z.of_nat (trailing_zeroes (rev (ip ++ fr))).
Proof.
  intros Hds Hnz. unfold parts_value. set (scale := zlen fr - x).
  set (mag := dec_value (ip ++ fr)) in *. set (k := Z.of_nat _).
  assert (Hdiv : 0 <= scale → (∃ v, v * 10 ^ scale = (if neg then - mag else mag)) ↔ scale <= k).
  { intros Hs. unfold k. rewrite <- (trailing_zeroes_divides (ip ++ fr) scale Hds Hs Hnz). fold mag. split.
    - intros [v Hv]. exists (if neg then - v else v). destruct neg; lia.
    - intros [q Hq]. exists (if neg then - q else q). destruct neg; lia. }
  destruct (Z.le_gt_cases scale 0) as [Hle|Hgt].
  - split; [unfold k; lia|]. intros _. rewrite (Z.max_l 0 scale), Z.pow_0_r by lia.
    eexists. by rewrite Z.mul_1_r.
  - fold k. rewrite <- Hdiv by lia. rewrite (Z.max_r 0 scale), (Z.max_l 0 (- scale)), Z.pow_0_r by lia.
    by setoid_rewrite Z.mul_1_r.
Qed.

Lemma parts_value_zero neg ip fr x : dec_value (ip ++ fr) = 0 → parts_value neg ip fr x 0.
Proof. unfold parts_value. intros ->. by destruct neg. Qed.

Lemma parts_value_zero_inv neg ip fr x v :
  parts_value neg ip fr x v → v ≠ 0 → dec_value (ip ++ fr) ≠ 0.
Proof.
  unfold parts_value. intros Hv Hnz H0. rewrite H0 in Hv.
  pose proof (Z.pow_pos_nonneg 10 (Z.max 0 (zlen fr - x))). destruct neg; nia.
Qed.

Lemma math_parts_value lex : math_parts lex →
  ∃ neg ip fr x v, lexeme_parts lex neg ip fr x ∧ Z.abs x <= Raw.MAX_RAW_JSON_EXPONENT ∧
    parts_value neg ip fr x v.
Proof.
  intros (neg & ip & fr & x & Hp & Hx & Hz). exists neg, ip, fr, x.
  destruct (decide (dec_value (ip ++ fr) = 0)) as [H0|Hnz].
  - exists 0. split_and!; [done..|by apply parts_value_zero].
  - apply (parts_value_nonzero neg ip fr x (parts_digits _ _ _ _ _ Hp) Hnz) in Hz as [v Hv]. by exists v.
Qed.

(** What [is_mathematical_integer] accepts is a JSON number of at most 4096
    bytes with an exponent of at most 10000 in absolute value whose exact value
    is an integer; and it accepts every such number whose value is not zero. *)
Theorem is_mathematical_integer_correct lex :
  Forall is_scalar lex →
  (is_mathematical_integer lex = true →
     zlen lex <= Raw.MAX_RAW_JSON_NUMBER_BYTES ∧
     ∃ neg ip fr x v, lexeme_parts lex neg ip fr x ∧ Z.abs x <= Raw.MAX_RAW_JSON_EXPONENT ∧
       parts_value neg ip fr x v) ∧
  (∀ neg ip fr x v,
     lexeme_parts lex neg ip fr x → parts_value neg ip fr x v → v ≠ 0 →
     zlen lex <= Raw.MAX_RAW_JSON_NUMBER_BYTES → Z.abs x <= Raw.MAX_RAW_JSON_EXPONENT →
     is_mathematical_integer lex = true).
Proof.
  intros Hsc. split.
  - intros [Hl Hm]%is_math_sound; [|done]. split; [done|]. by apply math_parts_value.
  - intros neg ip fr x v Hp Hv Hnz Hl Hx. apply is_math_complete; [done|].
    exists neg, ip, fr, x. split_and!; [done..|].
    apply (parts_value_nonzero neg ip fr x); [by eapply parts_digits| |by exists v].
    by eapply parts_value_zero_inv.
Qed.

(** Zero is refused in some spellings: [0e-2] is a JSON number whose value is
    the integer 0, but it has one trailing zero for a scale of two. *)
Theorem is_mathematical_integer_misses_zero :
  is_mathematical_integer (chars_of "0e-2") = false ∧
  lexeme_parts (chars_of "0e-2") false [48] [] (-2) ∧ parts_value false [48] [] (-2) 0.
Proof.
  split; [done|]. split; [|done].
  apply (parts_whole false [48] [101; 45; 50] (-2)); [constructor|].
  apply (exp_value_some 101 [45] [50]); [auto..|done|by repeat constructor].
Qed.

(** * Correlation *)

(** What an identifier stands for: an integer or a string. *)
Inductive id_means : RequestId → Z + list Z → Prop :=
| means_number n : id_means (Number n) (inl n)
| means_integer lex neg ip fr x v :
    lexeme_parts lex neg ip fr x → parts_value neg ip fr x v → id_means (Integer lex) (inl v)
| means_string s : id_means (String s) (inr s).

(** Values a Rust [RequestId] can have. *)
Definition id_typed (id : RequestId) : Prop :=
  match id with
  | Number n => i64_min <= n <= i64_max
  | Integer s | String s => Forall is_scalar s
  end.

Lemma correlation_key_means id :
  id_typed id → RequestId_validate id = Ok tt →
  ∃ m, id_means id m ∧ (∀ m', id_means id m' → m' = m) ∧
    match m with
    | inl v => ∃ k, correlation_key id = Ok (KeyInteger k) ∧ canon k v
    | inr s => correlation_key id = Ok (KeyString s)
    end.
Proof.
  intros Ht Hv. unfold correlation_key. rewrite Hv. destruct id as [n|lex|s].
  - exists (inl n). split_and!; [constructor|by inversion 1|].
    eexists. split; [done|]. by apply i64_to_string_canon.
  - unfold RequestId_validate in Hv. case_if_in Hv; [done|]. apply negb_false_iff in E.
    apply is_math_sound in E as [_ Hm]; [|done].
    destruct (math_parts_value lex Hm) as (neg & ip & fr & x & v & Hp & Hx & Hpv).
    exists (inl v). split_and!; [by econstructor| |].
    + inversion 1 as [|? neg' ip' fr' x' v' Hp' Hpv'|]; subst.
      destruct (lexeme_parts_fun _ _ _ _ _ _ _ _ _ Hp Hp') as (-> & -> & -> & ->).
      unfold parts_value in *. f_equal. pose proof (Z.pow_pos_nonneg 10 (Z.max 0 (zlen fr' - x'))). nia.
    + eexists. split; [done|]. eapply canonical_lexeme_canon; [exact Hp| |exact Hpv].
      unfold Raw.MAX_RAW_JSON_EXPONENT, i64_max in *. lia.
  - exists (inr s). split_and!; [constructor|by inversion 1|done].
Qed.

(** C6: Two valid identifiers correlate exactly when they stand for the same
    thing: the same mathematical integer however it is spelt ([1.50e1], [15]
    and the 64-bit 15 alike), or the same string; an integer never correlates
    with a string. *)
Theorem correlates_with_iff a b :
  id_typed a → id_typed b → RequestId_validate a = Ok tt → RequestId_validate b = Ok tt →
  correlates_with a b = true ↔ ∃ m, id_means a m ∧ id_means b m.
Proof.
  intros Ha Hb Hva Hvb.
  destruct (correlation_key_means a Ha Hva) as (ma & Hma & Hua & Hka).
  destruct (correlation_key_means b Hb Hvb) as (mb & Hmb & Hub & Hkb).
  assert (Hiff : (∃ m, id_means a m ∧ id_means b m) ↔ ma = mb).
  { split; [intros (m & H1%Hua & H2%Hub); congruence|intros ->; eauto]. }
  rewrite Hiff. unfold correlates_with.
  destruct ma as [va|sa], mb as [vb|sb].
  - destruct Hka as (ka & -> & Hca), Hkb as (kb & -> & Hcb). rewrite bool_decide_eq_true. split.
    + intros [= ->]. f_equal. by eapply canon_value.
    + intros [= ->]. do 2 f_equal. by eapply canon_unique.
  - destruct Hka as (ka & -> & _). rewrite Hkb. by rewrite bool_decide_eq_true.
  - destruct Hkb as (kb & -> & _). rewrite Hka. by rewrite bool_decide_eq_true.
  - rewrite Hka, Hkb, bool_decide_eq_true. naive_solver.
Qed.

(** C40: An identifier that decodes is valid: whatever number or string arrives,
    [RequestId::deserialize] either refuses it or yields an identifier that
    passes [validate], and so has a correlation key. *)
Theorem deserialized_id_valid v id :
  RequestId_deserialize v = Ok id → RequestId_validate id = Ok tt ∧ ∃ k, correlation_key id = Ok k.
Proof.
  intros H. assert (Hv : RequestId_validate id = Ok tt).
  { unfold RequestId_deserialize in H. unfold RequestId_validate.
    repeat case_match; simplify_eq; zbool; try done; congruence || lia. }
  split; [done|]. unfold correlation_key. rewrite Hv. destruct id; by eexists.
Qed.
