(* ===== verification/JsonRpc.v ===== *)
(** JSON-RPC messages, [crates/fastmcp-protocol/src/jsonrpc.rs]: requests,
    responses, their validation, and the disposition of malformed input. *)
From stdpp Require Import base list gmap strings.
From Stdlib Require Import ZArith Lia.
From S2P Require Import Prelude Utf8 JsonGrammar Scanner RawJson RequestId.

Definition JSONRPC_VERSION : list Z := chars_of "2.0".

(** [jsonrpc must be exactly "2.0"] *)
Definition version_message : string :=
  let quote := String.String (Ascii.ascii_of_nat 34) EmptyString in
  ("jsonrpc must be exactly " ++ quote ++ "2.0" ++ quote)%string.

Section messages.
(** [serde_json::Value] *)
Context {Value : Type}.

Record JsonRpcRequest : Type := {
  request_jsonrpc : list Z;
  method : list Z;
  params : option Value;
  request_id : option RequestId;
}.

Record JsonRpcError : Type := {
  code : Z;
  message : list Z;
  data : option Value;
}.

Record JsonRpcResponse : Type := {
  response_jsonrpc : list Z;
  result : option Value;
  response_error : option JsonRpcError;
  response_id : option RequestId;
}.

Inductive JsonRpcMessage : Type :=
| MRequest (r : JsonRpcRequest)
| MResponse (r : JsonRpcResponse).

Definition JsonRpcRequest_new (method : list Z) (params : option Value) (id : RequestId)
    : JsonRpcRequest :=
  {| request_jsonrpc := JSONRPC_VERSION; method := method; params := params;
     request_id := Some id |}.

Definition JsonRpcRequest_notification (method : list Z) (params : option Value) : JsonRpcRequest :=
  {| request_jsonrpc := JSONRPC_VERSION; method := method; params := params;
     request_id := None |}.

Definition is_notification (r : JsonRpcRequest) : bool := bool_decide (request_id r = None).

Definition validate_id (id : option RequestId) : outcome string unit :=
  match id with Some id => RequestId_validate id | None => Ok tt end.

Definition JsonRpcRequest_validate (r : JsonRpcRequest) : outcome string unit :=
  if negb (bool_decide (request_jsonrpc r = JSONRPC_VERSION))
  then Err version_message
  else validate_id (request_id r).

Definition is_some {A} (o : option A) : bool := match o with Some _ => true | None => false end.

Definition JsonRpcResponse_success (id : RequestId) (v : Value) : JsonRpcResponse :=
  {| response_jsonrpc := JSONRPC_VERSION; result := Some v; response_error := None;
     response_id := Some id |}.

Definition JsonRpcResponse_error (id : option RequestId) (e : JsonRpcError) : JsonRpcResponse :=
  {| response_jsonrpc := JSONRPC_VERSION; result := None; response_error := Some e;
     response_id := id |}.

Definition JsonRpcResponse_validate (r : JsonRpcResponse) : outcome string unit :=
  if negb (bool_decide (response_jsonrpc r = JSONRPC_VERSION))
  then Err version_message
  else if Bool.eqb (is_some (result r)) (is_some (response_error r))
  then Err "JSON-RPC response must contain exactly one of result or error"%string
  else if is_some (result r) && negb (is_some (response_id r))
  then Err "JSON-RPC success response must contain an id"%string
  else validate_id (response_id r).

Definition JsonRpcMessage_validate (m : JsonRpcMessage) : outcome string unit :=
  match m with
  | MRequest r => JsonRpcRequest_validate r
  | MResponse r => JsonRpcResponse_validate r
  end.

(** * Malformed input *)

Inductive JsonRpcEndpointRole : Type := ServerIngress | ClientIngress.
Inductive JsonRpcMessageDirection : Type := ClientToServer | ServerToClient.
Inductive ClientIngressFailureScope : Type := OwningExchange | SharedChannel.

Record UncorrelatedJsonRpcErrorResponse : Type := {
  uncorrelated_jsonrpc : list Z;
  uncorrelated_error : JsonRpcError;
}.

Inductive RawJsonRpcDisposition : Type :=
| CorrelatedError (r : JsonRpcResponse)
| UncorrelatedError (r : UncorrelatedJsonRpcErrorResponse)
| ClientOwningFailure
| ClientSharedChannelFailure
| NoAction.

Definition parse_or_invalid_request (message : list Z) (code : Z) : UncorrelatedJsonRpcErrorResponse :=
  {| uncorrelated_jsonrpc := JSONRPC_VERSION;
     uncorrelated_error := {| code := code; message := message; data := None |} |}.

Definition dispose_raw_jsonrpc_failure (role : JsonRpcEndpointRole)
    (direction : JsonRpcMessageDirection) (readable_id : option RequestId)
    (failure_scope : ClientIngressFailureScope) : RawJsonRpcDisposition :=
  match role, direction with
  | ServerIngress, ClientToServer =>
      match readable_id with
      | Some id =>
          CorrelatedError (JsonRpcResponse_error (Some id)
            {| code := -32600; message := chars_of "Invalid Request"; data := None |})
      | None => UncorrelatedError (parse_or_invalid_request (chars_of "Parse error") (-32700))
      end
  | ClientIngress, ServerToClient =>
      match failure_scope with
      | OwningExchange => ClientOwningFailure
      | SharedChannel => ClientSharedChannelFailure
      end
  | _, _ => NoAction
  end.

(** * Strict decoding *)

Inductive JsonRpcAdmissionError : Type :=
| RawError (e : Raw.RawJsonAdmissionError)
| InvalidEnvelope.

(** [serde_json::from_slice] at the two envelope types. *)
Context (from_slice_request : list Z → option JsonRpcRequest).
Context (from_slice_response : list Z → option JsonRpcResponse).

Definition decode_strict_jsonrpc_message (bs : list Z) (document_byte_limit : Z)
    : outcome JsonRpcAdmissionError JsonRpcMessage :=
  match Raw.admit_raw_jsonrpc_document bs document_byte_limit with
  | Err e => Err (RawError e)
  | Panic => Panic
  | OutOfFuel => OutOfFuel
  | Ok _ =>
      match from_slice_request bs with
      | Some r => Ok (MRequest r)
      | None =>
          match from_slice_response bs with
          | Some r => Ok (MResponse r)
          | None => Err InvalidEnvelope
          end
      end
  end.
End messages.
Arguments JsonRpcRequest : clear implicits.
Arguments JsonRpcResponse : clear implicits.
Arguments JsonRpcError : clear implicits.
Arguments JsonRpcMessage : clear implicits.
Arguments RawJsonRpcDisposition : clear implicits.

(** * Properties *)

Section theorems.
Context {Value : Type}.

(** An error response that only makes sense to the peer that sent the request. *)
Definition emits_response (d : RawJsonRpcDisposition Value) : bool :=
  match d with CorrelatedError _ | UncorrelatedError _ => true | _ => false end.

(** A response is valid exactly when it has the protocol version, carries a
    result or an error but not both, names the request it answers if it is a
    success, and any identifier it names is itself valid. *)
Theorem response_validate_iff (r : JsonRpcResponse Value) :
  JsonRpcResponse_validate r = Ok tt ↔
  response_jsonrpc r = JSONRPC_VERSION ∧
  ((∃ v, result r = Some v) ∧ response_error r = None ∧ (∃ id, response_id r = Some id) ∨
   result r = None ∧ ∃ e, response_error r = Some e) ∧
  (∀ id, response_id r = Some id → RequestId_validate id = Ok tt).
Proof.
  unfold JsonRpcResponse_validate, validate_id. destruct r as [ver res err id]. simpl.
  case_bool_decide; simpl; [|naive_solver].
  destruct res, err, id; simpl; naive_solver.
Qed.

(** Malformed input makes an endpoint answer only where a server receives
    client traffic: a client never answers, so two peers cannot answer each
    other's errors.  The answer carries the identifier that could be read, and
    as an ordinary response only then; it is always a valid response when the
    identifier is. *)
Theorem disposition_never_loops role direction id scope :
  let d := dispose_raw_jsonrpc_failure (Value := Value) role direction id scope in
  (emits_response d = true ↔ role = ServerIngress ∧ direction = ClientToServer) ∧
  (∀ r, d = CorrelatedError r →
     response_id r = id ∧ id ≠ None ∧ result r = None ∧
     (validate_id id = Ok tt → JsonRpcResponse_validate r = Ok tt)).
Proof.
  destruct role, direction, id, scope; simpl; (split; [naive_solver|]); intros resp Hr;
    simplify_eq; split_and!; try done.
Qed.
End theorems.
