(* ===== verification/Codec.v ===== *)
(** The transport codec, [Codec] of [crates/fastmcp-transport/src/codec.rs]:
    encoding, admission of one frame, and newline framing. *)
From stdpp Require Import base list gmap strings.
From Stdlib Require Import ZArith Lia.
From S2P Require Import Prelude Utf8 JsonGrammar Scanner Sink JsonAdmission RawJson RequestId JsonRpc.

Record Codec : Type := {
  buffer : list Z;
  max_message_size : Z;
}.

Definition Codec_new : Codec := {| buffer := []; max_message_size := 10 * 1024 * 1024 |}.

Definition set_buffer (b : list Z) (c : Codec) : Codec :=
  {| buffer := b; max_message_size := max_message_size c |}.

(** [Codec::clear] *)
Definition clear (c : Codec) : Codec := set_buffer [] c.

(** [slice.strip_suffix(b"\r").unwrap_or(slice)] *)
Definition strip_cr (l : list Z) : list Z :=
  if bool_decide (last l = Some 13) then take (length l - 1) l else l.

Definition set_max_message_size (size : Z) (c : Codec) : Codec :=
  let c := {| buffer := buffer c; max_message_size := size |} in
  if size <? zlen (strip_cr (buffer c)) then clear c else c.

Definition JsonAdmissionError_display (e : JsonAdmissionError) : string :=
  match e with
  | InvalidUtf8 => "invalid UTF-8 in JSON frame"
  | InvalidSyntax => "invalid JSON syntax during bounded admission"
  | DuplicateObjectMember => "duplicate JSON object member"
  | NestingTooDeep => "JSON nesting limit exceeded"
  | TooManyContainerEntries => "JSON container-entry limit exceeded"
  | NumberTooLong => "JSON number-token limit exceeded"
  | TooManyNumberBytes => "aggregate JSON number-byte limit exceeded"
  | ExponentTooLarge => "JSON exponent limit exceeded"
  | TooManyDecodedStringBytes => "decoded JSON string-byte limit exceeded"
  end%string.

Definition RawJsonAdmissionError_display (e : Raw.RawJsonAdmissionError) : string :=
  match e with
  | Raw.DocumentTooLarge => "JSON document exceeds the configured byte limit"
  | Raw.InvalidUtf8 => "JSON document is not strict UTF-8"
  | Raw.ByteOrderMark => "JSON document contains a UTF-8 byte-order mark"
  | Raw.InvalidSyntax => "invalid JSON syntax during raw admission"
  | Raw.TopLevelBatch => "JSON-RPC batch arrays are not supported"
  | Raw.TopLevelNotObject => "JSON-RPC top-level value must be an object"
  | Raw.DuplicateObjectMember => "duplicate JSON object member"
  | Raw.NestingTooDeep => "JSON nesting limit exceeded"
  | Raw.TooManyContainerEntries => "JSON container-entry limit exceeded"
  | Raw.NumberTooLong => "JSON number-token limit exceeded"
  | Raw.TooManyNumberBytes => "aggregate JSON number-byte limit exceeded"
  | Raw.ExponentTooLarge => "JSON exponent limit exceeded"
  | Raw.TooManyDecodedStringBytes => "decoded JSON string-byte limit exceeded"
  end%string.

(** What the codec uses of [serde_json]: its error type with
    [Error::custom], the typed [from_slice] decoders, the [Serialize]
    implementations as the slices they write, and the error [to_writer] gives
    when a value does not serialize or its writer fails. *)
Class Serde (Value SerdeError : Type) : Type := {
  custom : string → SerdeError;
  from_slice_id : list Z → SerdeError + RequestId;
  from_slice_request : list Z → SerdeError + JsonRpcRequest Value;
  from_slice_response : list Z → SerdeError + JsonRpcResponse Value;
  serialize_request : JsonRpcRequest Value → serialization;
  serialize_response : JsonRpcResponse Value → serialization;
  write_error : serialization → SerdeError;
}.

Section codec.
Context {Value SerdeError : Type} `{Serde Value SerdeError}.

Inductive CodecError : Type :=
| Json (e : SerdeError)
| InvalidMessage (kind : InvalidMessageKind) (request_id : option RequestId) (source : SerdeError)
| MessageTooLarge (size : Z).

(** [CodecError::request_id] *)
Definition CodecError_request_id (e : CodecError) : option RequestId :=
  match e with
  | InvalidMessage Request (Some id) _ => Some id
  | _ => None
  end.

Definition of_serde {A} (r : SerdeError + A) : outcome SerdeError A :=
  match r with inl e => Err e | inr a => Ok a end.

Definition json_admission_codec_error (e : JsonAdmissionError) : CodecError :=
  Json (custom (JsonAdmissionError_display e)).

Definition invalid_message_codec_error (kind : InvalidMessageKind) (request_id : option RequestId)
    (message : string) : CodecError :=
  InvalidMessage kind request_id (custom message).

Definition typed_message_codec_error (e : SerdeError) (kind : InvalidMessageKind)
    (request_id : option RequestId) : CodecError :=
  InvalidMessage kind request_id e.

(** * Encoding *)

Definition encode_value (c : Codec) (x : serialization) : outcome CodecError (list Z) :=
  let '(o, output) := to_writer x (BoundedEncodeBuffer.new (max_message_size c)) in
  match o with
  | Ok _ => Ok (BoundedEncodeBuffer.bytes output ++ [10])
  | Err _ =>
      match BoundedEncodeBuffer.rejected_size output with
      | Some size => Err (MessageTooLarge size)
      | None => Err (Json (write_error x))
      end
  | Panic => Panic
  | OutOfFuel => OutOfFuel
  end.

Definition encode_request (c : Codec) (r : JsonRpcRequest Value) : outcome CodecError (list Z) :=
  let? _ := map_err (λ m, Json (custom m)) (JsonRpcRequest_validate r) in
  encode_value c (serialize_request r).

Definition encode_response (c : Codec) (r : JsonRpcResponse Value) : outcome CodecError (list Z) :=
  let? _ := map_err (λ m, Json (custom m)) (JsonRpcResponse_validate r) in
  encode_value c (serialize_response r).

(** * One frame *)

(** [frame.get(start..end)]: [None] past the end or when reversed. *)
Definition get_range (frame : list Z) (start end_ : nat) : option (list Z) :=
  if decide (start ≤ end_ ≤ length frame)%nat
  then Some (take (end_ - start) (drop start frame)) else None.

Definition decode_raw_request_id (frame : list Z) (envelope : RawEnvelopeShape)
    : outcome SerdeError (option RequestId) :=
  if negb (has_id envelope) then Ok None
  else if has_duplicate_id envelope then Err (custom "duplicate JSON-RPC id member"%string)
  else match id_span envelope with
       | None => Err (custom "JSON-RPC id value was not completely admitted"%string)
       | Some (start, end_) =>
           match get_range frame start end_ with
           | None => Err (custom "invalid JSON-RPC id token span"%string)
           | Some token =>
               if bool_decide (head token = Some 34) &&
                  (MAX_JSONRPC_STRING_ID_ENCODED_BYTES <? zlen token)
               then Err (custom "JSON-RPC string id exceeds raw encoded byte limit"%string)
               else let? id := of_serde (from_slice_id token) in Ok (Some id)
           end
       end.

Record EnvelopeAdmission : Type := {
  kind : InvalidMessageKind;
  admitted_id : option RequestId;
}.

(** [.ok().flatten()] *)
Definition ok_flatten {E A} (o : outcome E (option A)) : option A :=
  match o with Ok x => x | _ => None end.

(** The rejection [admit_complete_frame] makes of a failed bounded admission. *)
Definition admission_failure (frame : list Z) (forced_kind : option InvalidMessageKind)
    (failure : JsonAdmissionFailure) : CodecError :=
  if bool_decide (error failure = InvalidSyntax) then json_admission_codec_error (error failure)
  else
    let kind := partial_kind forced_kind (failure_envelope failure) in
    let request_id := match kind with
                      | Request => ok_flatten (decode_raw_request_id frame (failure_envelope failure))
                      | Response => None
                      end in
    invalid_message_codec_error kind request_id (JsonAdmissionError_display (error failure)).

(** The checks on the admitted envelope, up to the second admission pass. *)
Definition check_envelope (frame : list Z) (forced_kind : option InvalidMessageKind)
    (envelope : RawEnvelopeShape) : outcome CodecError EnvelopeAdmission :=
  let k := complete_kind envelope in
  let? decoded_id := map_err (InvalidMessage k None) (decode_raw_request_id frame envelope) in
  let request_id := match k with Request => decoded_id | Response => None end in
  if negb (root_is_object envelope) then
    Err (invalid_message_codec_error (default Request forced_kind) None
      "JSON-RPC top-level value must be an object")
  else if has_unknown_member envelope then
    Err (invalid_message_codec_error k request_id "unknown JSON-RPC top-level envelope member")
  else if bool_decide (k = Response) && (has_method envelope || has_params envelope) then
    Err (invalid_message_codec_error Response None
      "conflicting JSON-RPC request and response envelope members")
  else if bool_decide (forced_kind = Some Request) && bool_decide (k = Response) then
    Err (invalid_message_codec_error Response None
      "expected a JSON-RPC request, received a response envelope")
  else Ok {| kind := k; admitted_id := request_id |}.

Definition admit_complete_frame (c : Codec) (frame : list Z)
    (forced_kind : option InvalidMessageKind) : outcome CodecError EnvelopeAdmission :=
  if max_message_size c <? zlen frame then Err (MessageTooLarge (zlen frame))
  else if negb (from_utf8 frame) then Err (json_admission_codec_error InvalidUtf8)
  else
    let? envelope := map_err (admission_failure frame forced_kind)
                       (JsonAdmission_admit frame (max_message_size c)) in
    let? admission := check_envelope frame forced_kind envelope in
    let? _ := map_err (λ e, Json (custom (RawJsonAdmissionError_display e)))
                (Raw.admit_raw_jsonrpc_document frame (max_message_size c)) in
    Ok admission.

Definition decode_complete_message (c : Codec) (frame : list Z)
    : outcome CodecError (JsonRpcMessage Value) :=
  let? admission := admit_complete_frame c frame None in
  match kind admission with
  | Request =>
      let? r := map_err (λ e, typed_message_codec_error e Request (admitted_id admission))
                  (of_serde (from_slice_request frame)) in
      Ok (MRequest r)
  | Response =>
      let? r := map_err (λ e, typed_message_codec_error e Response None)
                  (of_serde (from_slice_response frame)) in
      Ok (MResponse r)
  end.

(** The [debug_assert_eq!] on the kind is the first test. *)
Definition decode_complete_request (c : Codec) (frame : list Z)
    : outcome CodecError (JsonRpcRequest Value) :=
  let? admission := admit_complete_frame c frame (Some Request) in
  if negb (bool_decide (kind admission = Request)) then Panic
  else map_err (λ e, typed_message_codec_error e Request (admitted_id admission))
         (of_serde (from_slice_request frame)).

(** * Framing *)

(** [remaining.iter().position(|byte| *byte == b'\n')] and the slices around it. *)
Fixpoint split_newline (l : list Z) : option (list Z * list Z) :=
  match l with
  | [] => None
  | b :: l =>
      if b =? 10 then Some ([], l)
      else match split_newline l with
           | Some (fragment, rest) => Some (b :: fragment, rest)
           | None => None
           end
  end.

(** [fragment.last().or_else(|| self.buffer.last()).is_some_and(|b| *b == b'\r')] *)
Definition has_trailing_cr (fragment buffered : list Z) : bool :=
  match last fragment with
  | Some b => b =? 13
  | None => match last buffered with Some b => b =? 13 | None => false end
  end.

Definition frame_size (fragment buffered : list Z) : Z :=
  saturating_sub (saturating_add (zlen buffered) (zlen fragment))
    (if has_trailing_cr fragment buffered then 1 else 0).

(** The frame a newline completes, decoded unless it is empty. *)
Definition decode_line (fragment : list Z)
    : M Codec CodecError (option (outcome CodecError (JsonRpcMessage Value))) :=
  let! c := get in
  let decode frame :=
    let! c := get in
    ret (if bool_decide (frame = []) then None else Some (decode_complete_message c frame)) in
  if bool_decide (buffer c = []) then decode (strip_cr fragment)
  else
    modify (λ c, set_buffer (buffer c ++ fragment) c) ;!
    let! c := get in
    decode (strip_cr (buffer c)).

Fixpoint decode_loop (fuel : nat) (remaining : list Z) (messages : list (JsonRpcMessage Value))
    : M Codec CodecError (list (JsonRpcMessage Value)) :=
  match fuel with
  | O => out_of_fuel
  | S fuel =>
      let! c := get in
      match split_newline remaining with
      | Some (fragment, rest) =>
          let frame_len := frame_size fragment (buffer c) in
          if max_message_size c <? frame_len then
            modify clear ;! fail (MessageTooLarge frame_len)
          else
            let! decoded := decode_line fragment in
            let! messages :=
              match decoded with
              | Some (Ok m) => ret (messages ++ [m])
              | Some (Err e) => modify clear ;! fail e
              | Some Panic => panic
              | Some OutOfFuel => out_of_fuel
              | None => ret messages
              end in
            modify clear ;!
            decode_loop fuel rest messages
      | None =>
          let projected_frame_size := frame_size remaining (buffer c) in
          if max_message_size c <? projected_frame_size then
            modify clear ;! fail (MessageTooLarge projected_frame_size)
          else
            modify (λ c, set_buffer (buffer c ++ remaining) c) ;!
            ret messages
      end
  end.

(** Every turn consumes a newline: one more than the bytes suffices. *)
Definition decode (data : list Z) : M Codec CodecError (list (JsonRpcMessage Value)) :=
  decode_loop (S (length data)) data [].
End codec.
Arguments CodecError : clear implicits.
