(* ===== verification/CodecAdmission.v ===== *)
(** What the codec admits as one frame, and what its rejections disclose. *)
From stdpp Require Import base list gmap strings.
From Stdlib Require Import ZArith Lia.
From S2P Require Import Prelude Utf8 JsonGrammar Scanner JsonFacts Sink.
From S2P Require Import JsonAdmission JsonAdmissionTheorems RawJson RawJsonTheorems.
From S2P Require Import RequestId JsonRpc Codec.

(** A frame a codec can be given: it fits in memory. *)
Definition codec_typed (c : Codec) : Prop := 0 <= max_message_size c <= usize_max.

(** * The two admission passes *)

Lemma admit_describes frame limit env :
  valid_utf8 frame → zlen frame <= isize_max → 0 <= limit → JsonAdmission_admit frame limit = Ok env →
  ∃ j, document j frame ∧ within (codec_limits limit) j ∧ distinct j = true ∧ describes frame j env.
Proof.
  intros Hv Hl Hlim Hok. pose proof (admit_verdict frame limit Hv Hl Hlim) as H. by rewrite Hok in H.
Qed.

Lemma describes_root frame j env :
  describes frame j env → root_is_object env = true → ∃ ms, j = JObj ms.
Proof. unfold describes. destruct j; try (by intros ->); eauto. Qed.

Lemma second_pass frame limit env :
  zlen frame <= limit → valid_utf8 frame → zlen frame <= isize_max →
  JsonAdmission_admit frame limit = Ok env → root_is_object env = true →
  Raw.admit_raw_jsonrpc_document frame limit =
    if Raw.has_bom frame then Err Raw.ByteOrderMark else Ok tt.
Proof.
  intros Hlim Hv Hl Hok Hroot. pose proof (zlen_nonneg frame).
  destruct (admit_describes frame limit env Hv Hl ltac:(lia) Hok) as (j & Hd & Hw & Hj & Henv).
  destruct (describes_root _ _ _ Henv Hroot) as [ms ->].
  pose proof (raw_verdict frame limit Raw.JsonRpcObject Hl ltac:(lia)) as Hraw.
  unfold Raw.admit_raw_jsonrpc_document. destruct (Raw.has_bom frame) eqn:Hbom.
  - unfold Raw.admit_raw_json_document. rewrite (proj2 (Z.ltb_ge _ _)), Hbom by lia. done.
  - destruct (Raw.admit_raw_json_document _ _ _) as [[]|e| |]; try done. exfalso. apply Hraw.
    apply raw_admissible_iff. split_and!; [lia|done|by apply from_utf8_spec|].
    exists (JObj ms). split_and!; try done. right. eauto.
Qed.

(** The codec scans an accepted envelope a second time with the protocol
    crate's scanner; on every frame its own pass has admitted as an object, that
    second pass can only object to a byte-order mark. *)
Theorem second_pass_only_rejects_bom frame limit env :
  zlen frame <= limit → valid_utf8 frame → zlen frame <= isize_max →
  JsonAdmission_admit frame limit = Ok env → root_is_object env = true →
  Raw.admit_raw_jsonrpc_document frame limit =
    if Raw.has_bom frame then Err Raw.ByteOrderMark else Ok tt.
Proof. apply second_pass. Qed.

(** * Envelopes *)

(** The members decide the direction of a message. *)
Definition is_response (ms : list (list Z * json)) : Prop :=
  chars_of "result" ∈ ms.*1 ∨ chars_of "error" ∈ ms.*1.

Definition envelope_ok (forced : option InvalidMessageKind) (ms : list (list Z * json)) : Prop :=
  (∀ n, n ∈ ms.*1 → n ∈ known_members) ∧
  (is_response ms →
     chars_of "method" ∉ ms.*1 ∧ chars_of "params" ∉ ms.*1 ∧ forced ≠ Some Request).

(** The bytes of the frame that are the value of an [id] member. *)
Definition id_token (frame : list Z) (ms : list (list Z * json)) (token : list Z) : Prop :=
  ∃ v a b, (id_name, v) ∈ ms ∧ (a ≤ b ≤ length frame)%nat ∧
    token = take (b - a) (drop a frame) ∧ denotes v token.

Lemma complete_kind_response frame ms env :
  describes frame (JObj ms) env → complete_kind env = Response ↔ is_response ms.
Proof.
  intros (_ & _ & _ & _ & Hr & He & _). unfold complete_kind, is_response. rewrite Hr, He.
  case_goal_if; [apply orb_true_iff in E|apply orb_false_iff in E];
    rewrite ?bool_decide_eq_true, ?bool_decide_eq_false in E; naive_solver.
Qed.

Lemma distinct_filter (ms : list (list Z * json)) n :
  NoDup ms.*1 → (length (filter (λ m, m.1 = n) ms) ≤ 1)%nat.
Proof.
  induction ms as [|[m j] ms IH]; [simpl; lia|]. rewrite fmap_cons. intros [Hm Hnd]%NoDup_cons.
  destruct (decide (m = n)) as [->|Hne]; [|rewrite filter_cons_False by done; auto].
  rewrite filter_cons_True by done. simpl.
  destruct (filter _ ms) as [|[m' j'] l] eqn:Hf; [simpl; lia|]. exfalso. apply Hm.
  assert ((m', j') ∈ filter (λ m : list Z * json, m.1 = n) ms) as [Hn Hin]%list_elem_of_filter
    by (rewrite Hf; by left).
  simpl in Hn. subst m'. apply list_elem_of_fmap. by exists (n, j').
Qed.

Section serde.
Context {Value SerdeError : Type} `{Serde Value SerdeError}.

(** A token short enough to be an identifier. *)
Definition short_id (token : list Z) : Prop :=
  head token = Some 34 → zlen token <= MAX_JSONRPC_STRING_ID_ENCODED_BYTES.

Lemma decode_raw_request_id_Some frame env id :
  decode_raw_request_id frame env = Ok (Some id) →
  has_duplicate_id env = false ∧ ∃ a b, id_span env = Some (a, b) ∧ (a ≤ b ≤ length frame)%nat ∧
    let token := take (b - a) (drop a frame) in
    short_id token ∧ from_slice_id token = inr id.
Proof.
  unfold decode_raw_request_id, get_range. case_goal_if; [done|]. case_goal_if; [done|].
  destruct (id_span env) as [[a b]|]; [|done]. case_decide; [|done]. case_goal_if; [done|].
  unfold of_serde. destruct (from_slice_id _) as [|id'] eqn:Hid; [done|]. intros [= <-].
  split; [done|]. exists a, b. split_and!; try lia; try done.
  intros Hq. apply andb_false_iff in E1. rewrite bool_decide_eq_false in E1.
  destruct E1 as [|E1]; [done|]. by apply Z.ltb_ge in E1.
Qed.

Lemma check_envelope_Ok frame forced env adm :
  check_envelope frame forced env = Ok adm →
  root_is_object env = true ∧ has_unknown_member env = false ∧
  (complete_kind env = Response →
     has_method env = false ∧ has_params env = false ∧ forced ≠ Some Request) ∧
  kind adm = complete_kind env ∧
  (∀ id, admitted_id adm = Some id →
     complete_kind env = Request ∧ decode_raw_request_id frame env = Ok (Some id)).
Proof.
  unfold check_envelope. destruct (decode_raw_request_id frame env) as [did| | |]; try done. simpl.
  repeat (case_goal_if; [done|]). intros [= <-]. zbool. simpl. split_and!; try done.
  - intros Hk. rewrite Hk in *. rewrite !bool_decide_true in E1 by done. simpl in E1. zbool.
    apply andb_false_iff in E2. rewrite !bool_decide_eq_false in E2. naive_solver.
  - intros id Hid. destruct (complete_kind env); [by subst|done].
Qed.

(** C32: Every frame the codec admits is, within its size limit and without a
    byte-order mark, one JSON object within the resource limits whose members
    are distinct and all JSON-RPC ones; it is classified as a response exactly
    when it has a [result] or [error] member, and then it has neither [method]
    nor [params] and was not required to be a request.  An identifier is
    reported only for a request, and it is the decoding of the bytes of the
    [id] member, at most 256 of them if it is a string. *)
Theorem admit_complete_frame_sound c frame forced adm :
  zlen frame <= isize_max → admit_complete_frame c frame forced = Ok adm →
  zlen frame <= max_message_size c ∧ Raw.has_bom frame = false ∧
  ∃ ms, document (JObj ms) frame ∧ within (codec_limits (max_message_size c)) (JObj ms) ∧
    distinct (JObj ms) = true ∧ envelope_ok forced ms ∧
    (kind adm = Response ↔ is_response ms) ∧
    (∀ id, admitted_id adm = Some id →
       ¬ is_response ms ∧ ∃ token, id_token frame ms token ∧ short_id token ∧
         from_slice_id token = inr id).
Proof.
  intros Hl. unfold admit_complete_frame. case_goal_if; [done|]. zbool.
  destruct (from_utf8 frame) eqn:Hutf8; [|done]. cbn [negb]. apply from_utf8_spec in Hutf8.
  pose proof (zlen_nonneg frame).
  destruct (JsonAdmission_admit frame (max_message_size c)) as [env| | |] eqn:Hadmit; try done.
  cbn [map_err obind].
  destruct (check_envelope frame forced env) as [adm'| | |] eqn:Hcheck; try done. cbn [obind].
  apply check_envelope_Ok in Hcheck as (Hroot & Hunk & Hresp & Hkind & Hid).
  rewrite (second_pass frame _ env) by done. destruct (Raw.has_bom frame); [done|].
  cbn [map_err obind]. intros [= <-]. split_and!; [done..|].
  destruct (admit_describes frame (max_message_size c) env Hutf8 Hl ltac:(lia) Hadmit) as (j & Hd & Hw & Hj & Henv).
  destruct (describes_root _ _ _ Henv Hroot) as [ms ->]. exists ms.
  pose proof (complete_kind_response _ _ _ Henv) as Hk. rewrite Hkind.
  destruct Henv as (_ & Hm & Hp & _ & _ & _ & Hu & Hdup & Hspan).
  split_and!; try done.
  - split.
    + intros n Hn. destruct (decide (n ∈ known_members)) as [|Hno]; [done|].
      rewrite (proj2 Hu) in Hunk; [done|]. by exists n.
    + intros Hr%Hk. destruct (Hresp Hr) as (H1 & H2 & H3). rewrite Hm in H1. rewrite Hp in H2.
      apply bool_decide_eq_false in H1, H2. done.
  - intros id [Hreq Hdec]%Hid. split; [rewrite <- Hk, Hreq; done|].
    apply decode_raw_request_id_Some in Hdec as (_ & a & b & Hs & Hab & Hshort & Hfrom).
    rewrite Hs in Hspan. destruct Hspan as (v & Hv & _ & Hden).
    exists (take (b - a) (drop a frame)). split_and!; try done. by exists v, a, b.
Qed.

Lemma admit_complete_frame_ok c frame forced ms :
  zlen frame <= isize_max → zlen frame <= max_message_size c →
  valid_utf8 frame → Raw.has_bom frame = false →
  document (JObj ms) frame → within (codec_limits (max_message_size c)) (JObj ms) →
  distinct (JObj ms) = true → envelope_ok forced ms →
  (∀ token, id_token frame ms token → short_id token ∧ ∃ id, from_slice_id token = inr id) →
  ∃ adm, admit_complete_frame c frame forced = Ok adm ∧ (kind adm = Response ↔ is_response ms) ∧
    (admitted_id adm = None → is_response ms ∨ id_name ∉ ms.*1).
Proof.
  intros Hl Hmax Hutf8 Hbom Hd Hw Hj [Hknown Hresp] Hid. pose proof (zlen_nonneg frame).
  destruct (proj2 (admit_iff frame (max_message_size c) Hutf8 Hl ltac:(lia))) as [env Hadmit]; [by eauto|].
  destruct (admit_describes frame (max_message_size c) env Hutf8 Hl ltac:(lia) Hadmit) as (j & Hd' & _ & _ & Henv).
  rewrite (document_unique j (JObj ms) frame Hd' Hd) in Henv.
  pose proof (complete_kind_response _ _ _ Henv) as Hk.
  destruct Henv as (Hroot & Hm & Hp & Hhas & _ & _ & Hu & Hdup & Hspan).
  assert (Hdupf : has_duplicate_id env = false).
  { apply not_true_is_false. rewrite Hdup. intros H2. cbn [distinct] in Hj. zbool.
    apply bool_decide_eq_true in H1. by apply (distinct_filter ms id_name) in H1; lia. }
  assert (Hdec : ∃ did, decode_raw_request_id frame env = Ok did ∧
    (did = None → id_name ∉ ms.*1)).
  { unfold decode_raw_request_id. rewrite Hhas, Hdupf. case_bool_decide as Hin; simpl; cycle 1.
    { by exists None. }
    destruct (id_span env) as [[a b]|]; [|done]. destruct Hspan as (v & Hv & Hab & Hden).
    unfold get_range. rewrite decide_True by done.
    destruct (Hid (take (b - a) (drop a frame))) as [Hshort [id Hfrom]]; [by exists v, a, b|].
    assert (bool_decide (head (take (b - a) (drop a frame)) = Some 34) &&
      (MAX_JSONRPC_STRING_ID_ENCODED_BYTES <? zlen (take (b - a) (drop a frame))) = false) as ->.
    { apply andb_false_iff. destruct (decide (head (take (b - a) (drop a frame)) = Some 34)) as [Hq|Hq].
      - right. apply Z.ltb_ge. by apply Hshort.
      - left. by apply bool_decide_eq_false. }
    rewrite Hfrom. simpl. by exists (Some id). }
  destruct Hdec as (did & Hdec & Hnone).
  assert (Hunk : has_unknown_member env = false).
  { apply not_true_is_false. rewrite Hu. intros (n & Hn & Hno). by apply Hno, Hknown. }
  exists {| kind := complete_kind env;
            admitted_id := match complete_kind env with Request => did | Response => None end |}.
  split_and!; [|exact Hk|].
  - unfold admit_complete_frame. rewrite (proj2 (Z.ltb_ge _ _)), (proj2 (from_utf8_spec _)) by done.
    cbn [negb]. rewrite Hadmit. cbn [map_err obind]. unfold check_envelope. rewrite Hdec. cbn [map_err obind].
    rewrite Hroot, Hunk, (second_pass frame _ env), Hbom by done. cbn [negb].
    destruct (complete_kind env) eqn:Hck.
    + rewrite !(bool_decide_false (Request = Response)) by done. rewrite andb_false_r. done.
    + destruct Hresp as (H1 & H2 & H3); [by apply Hk|].
      rewrite Hm, Hp, !(bool_decide_false (chars_of _ ∈ _)), (bool_decide_false (forced = _)) by done.
      done.
  - simpl. destruct (complete_kind env); [auto|]. intros _. left. by apply Hk.
Qed.

(** Conversely the codec admits every such frame whose [id] value, however
    spelt, is short enough and decodes as an identifier. *)
Theorem admit_complete_frame_complete c frame forced ms :
  zlen frame <= isize_max → zlen frame <= max_message_size c →
  valid_utf8 frame → Raw.has_bom frame = false →
  document (JObj ms) frame → within (codec_limits (max_message_size c)) (JObj ms) →
  distinct (JObj ms) = true → envelope_ok forced ms →
  (∀ token, id_token frame ms token → short_id token ∧ ∃ id, from_slice_id token = inr id) →
  ∃ adm, admit_complete_frame c frame forced = Ok adm ∧ (kind adm = Response ↔ is_response ms) ∧
    (admitted_id adm = None → is_response ms ∨ id_name ∉ ms.*1).
Proof. apply admit_complete_frame_ok. Qed.

(** ** Identifiers in rejections *)

(** The identifier is the decoding of a span of the frame; and when the frame
    is an object within the limits, of the value of its only [id] member, in an
    envelope that is no response. *)
Definition id_readable (c : Codec) (frame : list Z) (id : RequestId) : Prop :=
  ∃ a b, let token := take (b - a) (drop a frame) in
    (a ≤ b ≤ length frame)%nat ∧ short_id token ∧ from_slice_id token = inr id ∧
    ∀ ms, document (JObj ms) frame → within (codec_limits (max_message_size c)) (JObj ms) →
      ¬ is_response ms ∧ id_token frame ms token ∧
      length (filter (λ m, m.1 = id_name) ms) = 1%nat.

Lemma id_readable_env c frame env id :
  decode_raw_request_id frame env = Ok (Some id) → has_result env || has_error env = false →
  (∀ ms, document (JObj ms) frame → within (codec_limits (max_message_size c)) (JObj ms) →
     describes frame (JObj ms) env) →
  id_readable c frame id.
Proof.
  intros (Hdup & a & b & Hspan & Hab & Hshort & Hfrom)%decode_raw_request_id_Some Hre Hdesc.
  exists a, b. split; [done|]. split; [done|]. split; [done|]. intros ms Hd Hw.
  destruct (Hdesc ms Hd Hw) as (_ & _ & _ & _ & Hr & He & _ & Hcnt & Hs).
  rewrite Hspan in Hs. destruct Hs as (v & Hv & _ & Hden). split_and!.
  - unfold is_response. rewrite Hr, He in Hre. zbool.
    rewrite bool_decide_eq_false in *. naive_solver.
  - by exists v, a, b.
  - assert (¬ 2 ≤ length (filter (λ m : list Z * json, m.1 = id_name) ms))%nat
      by (rewrite <- Hcnt, Hdup; done).
    assert ((id_name, v) ∈ filter (λ m : list Z * json, m.1 = id_name) ms) as Hin
      by (by apply list_elem_of_filter).
    destruct (filter _ ms); [by apply elem_of_nil in Hin|]. simpl in *. lia.
Qed.

Lemma partial_kind_request forced env :
  partial_kind forced env = Request → has_result env || has_error env = false.
Proof. unfold partial_kind. by destruct (_ || _). Qed.

Lemma complete_kind_request env :
  complete_kind env = Request → has_result env || has_error env = false.
Proof. unfold complete_kind. by destruct (_ || _). Qed.

Lemma admission_failure_id c frame forced f id :
  valid_utf8 frame → zlen frame <= isize_max → 0 <= max_message_size c →
  JsonAdmission_admit frame (max_message_size c) = Err f →
  CodecError_request_id (admission_failure frame forced f) = Some id → id_readable c frame id.
Proof.
  intros Hv Hl Hm Hf. unfold admission_failure. case_goal_if; [done|].
  destruct (partial_kind forced (failure_envelope f)) eqn:Hk; [|done]. simpl.
  destruct (decode_raw_request_id frame (failure_envelope f)) as [[id'|]| | |] eqn:Hdec; try done.
  simpl. intros [= <-]. eapply id_readable_env; [done|by eapply partial_kind_request|].
  intros ms Hd Hw. pose proof (admit_verdict frame (max_message_size c) Hv Hl Hm) as Hver.
  rewrite Hf in Hver. destruct Hver as [(_ & j & Hd' & _ & _ & Hdesc)|[_ Hno]]; [|by destruct (Hno _ Hd)].
  by rewrite (document_unique j (JObj ms) frame Hd' Hd) in Hdesc.
Qed.

Lemma check_envelope_id frame forced env e id :
  check_envelope frame forced env = Err e → CodecError_request_id e = Some id →
  complete_kind env = Request ∧ decode_raw_request_id frame env = Ok (Some id).
Proof.
  unfold check_envelope. destruct (decode_raw_request_id frame env) as [did| | |]; try done; simpl.
  - case_goal_if; [intros [= <-]; simpl; by destruct (default _ _)|].
    destruct (complete_kind env); simpl; repeat case_goal_if; intros [= <-]; try done.
    simpl. destruct did; naive_solver.
  - intros [= <-]. simpl. by destruct (complete_kind env).
Qed.

(** When a frame is refused, the error names a request identifier only if
    one was readable in it: the bytes decoded are part of the frame and at most
    256 if a string, and when the frame is an object within the limits (it was
    refused for repeating a member, for its members or by the typed decoder),
    they are the value of its one [id] member and it has neither a [result] nor
    an [error] member, so nothing answers a response. *)
Theorem rejected_id_readable c frame e id :
  zlen frame <= isize_max →
  decode_complete_message c frame = Err e → CodecError_request_id e = Some id →
  id_readable c frame id.
Proof.
  intros Hl. unfold decode_complete_message, admit_complete_frame.
  case_goal_if; [intros [= <-]; done|]. zbool. pose proof (zlen_nonneg frame).
  destruct (from_utf8 frame) eqn:Hutf8; cbn [negb obind]; [|intros [= <-]; done].
  apply from_utf8_spec in Hutf8.
  destruct (JsonAdmission_admit frame (max_message_size c)) as [env|f| |] eqn:Hadmit; cbn [map_err obind]; try done.
  2:{ intros [= <-]. eapply admission_failure_id; try done. lia. }
  destruct (admit_describes frame (max_message_size c) env Hutf8 Hl ltac:(lia) Hadmit)
    as (j & Hd & _ & _ & Henv).
  assert (Hdesc : ∀ ms, document (JObj ms) frame → within (codec_limits (max_message_size c)) (JObj ms) →
    describes frame (JObj ms) env)
    by (intros ms Hd' _; by rewrite (document_unique j (JObj ms) frame Hd Hd') in Henv).
  destruct (check_envelope frame None env) as [adm|e'| |] eqn:Hcheck; cbn [obind]; try done.
  2:{ intros [= <-] Hid. destruct (check_envelope_id _ _ _ _ _ Hcheck Hid) as [Hk Hdec].
      eapply id_readable_env; [done|by apply complete_kind_request|done]. }
  apply check_envelope_Ok in Hcheck as (_ & _ & _ & Hkind & Hid).
  destruct (Raw.admit_raw_jsonrpc_document _ _); cbn [map_err obind]; try done; [|intros [= <-]; done].
  rewrite Hkind. destruct (complete_kind env) eqn:Hk.
  - unfold of_serde. destruct (from_slice_request frame); cbn [map_err obind]; [|done]. intros [= <-].
    simpl. destruct (admitted_id adm) as [id'|] eqn:Ha; [|done]. intros [= <-].
    destruct (Hid _ eq_refl) as [_ Hdec].
    eapply id_readable_env; [done|by apply complete_kind_request|done].
  - unfold of_serde. destruct (from_slice_response frame); cbn [map_err obind]; [|done]. by intros [= <-].
Qed.
End serde.
