(* ===== verification/CodecFraming.v ===== *)
(** Newline framing: the codec's buffered [decode] refines the reading of the
    whole byte stream line by line, whatever the chunks it arrives in. *)
From stdpp Require Import base list gmap strings.
From Stdlib Require Import ZArith Lia.
From S2P Require Import Prelude Utf8 JsonGrammar Scanner Sink.
From S2P Require Import JsonAdmission JsonAdmissionTheorems RawJson RawJsonTheorems.
From S2P Require Import RequestId JsonRpc Codec CodecAdmission.

(** * Lines *)

(** The complete lines of a stream, without their newline, and what follows
    the last. *)
Fixpoint split_lines (bs : list Z) : list (list Z) * list Z :=
  match bs with
  | [] => ([], [])
  | b :: bs =>
      let '(ls, tl) := split_lines bs in
      if b =? 10 then ([] :: ls, tl)
      else match ls with
           | [] => ([], b :: tl)
           | l :: ls => ((b :: l) :: ls, tl)
           end
  end.

Definition no_newline (l : list Z) : Prop := Forall (λ b, b ≠ 10) l.

Lemma split_lines_line l bs :
  no_newline l →
  split_lines (l ++ 10 :: bs) = (l :: (split_lines bs).1, (split_lines bs).2).
Proof.
  induction 1 as [|b l Hb Hl IH]; simpl.
  - by destruct (split_lines bs).
  - rewrite IH. by rewrite (proj2 (Z.eqb_neq _ _)).
Qed.

Lemma split_lines_tail l : no_newline l → split_lines l = ([], l).
Proof.
  induction 1 as [|b l Hb Hl IH]; simpl; [done|]. rewrite IH. by rewrite (proj2 (Z.eqb_neq _ _)).
Qed.

Lemma split_lines_no_newline bs : no_newline (split_lines bs).2.
Proof.
  induction bs as [|b bs IH]; simpl; [constructor|]. destruct (split_lines bs) as [ls tl]. simpl in *.
  destruct (Z.eqb_spec b 10); [done|]. destruct ls; simpl; [by constructor|done].
Qed.

Lemma split_lines_app a b :
  split_lines (a ++ b) =
  ((split_lines a).1 ++ (split_lines ((split_lines a).2 ++ b)).1, (split_lines ((split_lines a).2 ++ b)).2).
Proof.
  induction a as [|x a IH]; simpl; [by destruct (split_lines b)|].
  rewrite IH. destruct (split_lines a) as [ls tl]. simpl.
  destruct (x =? 10) eqn:E; simpl; [done|]. destruct ls as [|l ls]; simpl; [|done].
  rewrite E. destruct (split_lines (tl ++ b)) as [[|l ls] tl']; done.
Qed.

Lemma split_lines_tail_length bs : zlen (split_lines bs).2 <= zlen bs.
Proof.
  induction bs as [|b bs IH]; simpl; [done|]. destruct (split_lines bs) as [ls tl]. simpl in *.
  destruct (b =? 10); [simpl; rewrite zlen_cons; lia|]. destruct ls; simpl; rewrite !zlen_cons in *; lia.
Qed.

Lemma split_lines_length bs l : l ∈ (split_lines bs).1 → zlen l <= zlen bs.
Proof.
  revert l. induction bs as [|b bs IH]; intros l; simpl; [by intros ?%elem_of_nil|].
  destruct (split_lines bs) as [ls tl]. simpl in *. rewrite zlen_cons. pose proof (zlen_nonneg bs).
  destruct (b =? 10); simpl.
  - intros [->|Hin]%elem_of_cons; [rewrite zlen_nil; lia|]. apply IH in Hin. lia.
  - destruct ls as [|l' ls]; simpl; [by intros ?%elem_of_nil|].
    intros [->|Hin]%elem_of_cons.
    + rewrite zlen_cons. specialize (IH l' ltac:(by left)). lia.
    + specialize (IH l ltac:(by right)). lia.
Qed.

Lemma split_newline_Some l fragment rest :
  split_newline l = Some (fragment, rest) → l = fragment ++ 10 :: rest ∧ no_newline fragment.
Proof.
  revert fragment. induction l as [|b l IH]; intros fragment; [done|]. simpl.
  destruct (Z.eqb_spec b 10) as [->|Hb]; [intros [= <- <-]; split; [done|constructor]|].
  destruct (split_newline l) as [[f r]|]; [|done]. intros [= <- <-].
  destruct (IH f eq_refl) as [-> Hf]. split; [done|by constructor].
Qed.

Lemma split_newline_None l : split_newline l = None → no_newline l.
Proof.
  induction l as [|b l IH]; [constructor|]. simpl. destruct (Z.eqb_spec b 10); [done|].
  destruct (split_newline l) as [[]|]; [done|]. intros _. constructor; [done|by apply IH].
Qed.

(** * Frame sizes *)

Lemma zlen_strip_cr l :
  zlen (strip_cr l) = zlen l - (if bool_decide (last l = Some 13) then 1 else 0).
Proof.
  unfold strip_cr. case_bool_decide as Hl; [|lia]. destruct l; [done|].
  unfold zlen. rewrite length_take. simpl. lia.
Qed.

Lemma has_trailing_cr_spec fragment buffered :
  has_trailing_cr fragment buffered = bool_decide (last (buffered ++ fragment) = Some 13).
Proof.
  unfold has_trailing_cr. rewrite last_app.
  destruct (last fragment) as [b|]; [|destruct (last buffered) as [b|]; [|done]];
    destruct (Z.eqb_spec b 13) as [->|]; symmetry;
    (by apply bool_decide_eq_true) || (apply bool_decide_eq_false; congruence).
Qed.

Lemma frame_size_spec fragment buffered :
  zlen buffered + zlen fragment <= usize_max →
  frame_size fragment buffered = zlen (strip_cr (buffered ++ fragment)).
Proof.
  intros Hl. unfold frame_size, saturating_sub, saturating_add.
  rewrite zlen_strip_cr, has_trailing_cr_spec, zlen_app, Z.min_l by done.
  pose proof (zlen_nonneg buffered). pose proof (zlen_nonneg fragment). case_bool_decide as Hc; [|lia].
  assert (0 < zlen (buffered ++ fragment)) as Hpos
    by (destruct (buffered ++ fragment); [done|rewrite zlen_cons; pose proof (zlen_nonneg l); lia]).
  rewrite zlen_app in Hpos. lia.
Qed.

(** More bytes never make a frame shorter. *)
Lemma zlen_strip_cr_mono a b : zlen (strip_cr a) <= zlen (strip_cr (a ++ b)).
Proof.
  destruct b as [|x b]; [by rewrite app_nil_r|]. rewrite !zlen_strip_cr, zlen_app, zlen_cons. pose proof (zlen_nonneg b). repeat case_bool_decide; lia.
Qed.

Section framing.
Context {Value SerdeError : Type} `{Serde Value SerdeError}.

(** * The reference: a stream read line by line *)

Definition decode_frame (c : Codec) (line : list Z)
    : outcome (CodecError SerdeError) (list (JsonRpcMessage Value)) :=
  let frame := strip_cr line in
  if max_message_size c <? zlen frame then Err (MessageTooLarge (zlen frame))
  else if bool_decide (frame = []) then Ok []
  else let? m := decode_complete_message c frame in Ok [m].

Fixpoint decode_frames (c : Codec) (ls : list (list Z))
    : outcome (CodecError SerdeError) (list (JsonRpcMessage Value)) :=
  match ls with
  | [] => Ok []
  | l :: ls =>
      let? m := decode_frame c l in
      let? ms := decode_frames c ls in
      Ok (m ++ ms)
  end.

(** The messages of the complete lines, and the incomplete line kept; any
    refusal drops what is buffered. *)
Definition read_stream (c : Codec) (bs : list Z)
    : outcome (CodecError SerdeError) (list (JsonRpcMessage Value)) * Codec :=
  let '(ls, tl) := split_lines bs in
  match decode_frames c ls with
  | Ok ms =>
      if max_message_size c <? zlen (strip_cr tl)
      then (Err (MessageTooLarge (zlen (strip_cr tl))), clear c)
      else (Ok ms, set_buffer tl c)
  | o => (o, clear c)
  end.

(** ** Totality of one frame *)

Lemma settled_of_serde {A} (r : SerdeError + A) : settled (of_serde r).
Proof. by destruct r. Qed.

Lemma settled_raw_id frame env : settled (decode_raw_request_id frame env).
Proof.
  unfold decode_raw_request_id. repeat (case_goal_if; [done|]). destruct (id_span env) as [[a b]|]; [|done].
  destruct (get_range _ _ _); [|done]. case_goal_if; [done|].
  apply settled_obind; [apply settled_of_serde|done].
Qed.

Lemma settled_admit_frame c frame forced :
  zlen frame <= isize_max → settled (admit_complete_frame c frame forced).
Proof.
  intros Hl. unfold admit_complete_frame. case_goal_if; [done|]. zbool.
  destruct (from_utf8 frame) eqn:Hutf8; [|done]. simpl. apply from_utf8_spec in Hutf8.
  pose proof (zlen_nonneg frame). assert (0 <= max_message_size c) as Hm by lia.
  pose proof (admit_verdict frame _ Hutf8 Hl Hm) as Hv.
  apply settled_obind; [apply settled_map_err; by destruct (JsonAdmission_admit _ _)|]. intros env _.
  apply settled_obind.
  - unfold check_envelope. apply settled_obind; [apply settled_map_err, settled_raw_id|].
    intros did _. by repeat case_goal_if.
  - intros adm _. apply settled_obind; [apply settled_map_err|done].
    pose proof (raw_verdict frame _ Raw.JsonRpcObject Hl Hm) as Hr.
    unfold Raw.admit_raw_jsonrpc_document. by destruct (Raw.admit_raw_json_document _ _ _).
Qed.

Lemma settled_message c frame : zlen frame <= isize_max → settled (decode_complete_message c frame).
Proof.
  intros Hl. unfold decode_complete_message. apply settled_obind; [by apply settled_admit_frame|].
  intros adm _. destruct (kind adm); (apply settled_obind;
    [apply settled_map_err, settled_of_serde|done]).
Qed.

(** ** The loop *)

Lemma decode_complete_message_buffer c b frame :
  decode_complete_message (set_buffer b c) frame = decode_complete_message c frame.
Proof. done. Qed.

Lemma decode_frames_buffer c b ls : decode_frames (set_buffer b c) ls = decode_frames c ls.
Proof. induction ls as [|l ls IH]; [done|]. simpl. by rewrite IH. Qed.

(** The frame a newline completes. *)
Lemma decode_line_spec fragment c :
  ∃ b, decode_line fragment c =
    (Ok (if bool_decide (strip_cr (buffer c ++ fragment) = []) then None
         else Some (decode_complete_message c (strip_cr (buffer c ++ fragment)))), set_buffer b c).
Proof.
  unfold decode_line, bind, get, ret, modify. case_bool_decide as Hb.
  - rewrite Hb. exists (buffer c). by destruct c.
  - by exists (buffer c ++ fragment).
Qed.

Lemma decode_loop_spec fuel remaining messages c :
  (length remaining < fuel)%nat → no_newline (buffer c) →
  zlen (buffer c) + zlen remaining <= isize_max →
  decode_loop fuel remaining messages c =
  match read_stream c (buffer c ++ remaining) with
  | (Ok ms, c') => (Ok (messages ++ ms), c')
  | r => r
  end.
Proof.
  revert remaining messages c. induction fuel as [|fuel IH]; intros rem ms c Hf Hb Hl; [lia|].
  assert (isize_max <= usize_max) as Hsz by done.
  cbn [decode_loop]. unfold bind at 1, get. unfold read_stream.
  destruct (split_newline rem) as [[fragment rest]|] eqn:Hn.
  - apply split_newline_Some in Hn as [-> Hfrag].
    rewrite zlen_app, zlen_cons in Hl. pose proof (zlen_nonneg rest). pose proof (zlen_nonneg fragment).
    rewrite frame_size_spec by lia. rewrite app_assoc.
    assert (no_newline (buffer c ++ fragment)) as Hline by (by apply Forall_app).
    rewrite split_lines_line by done. cbn [decode_frames]. unfold decode_frame.
    set (frame := strip_cr (buffer c ++ fragment)). destruct (max_message_size c <? zlen frame) eqn:Hsize; [done|].
    destruct (decode_line_spec fragment c) as [b Hdec]. fold frame in Hdec.
    assert (Hrest : ∀ acc, decode_loop fuel rest acc (clear c) =
      match read_stream c rest with (Ok ms, c') => (Ok (acc ++ ms), c') | r => r end).
    { intros acc. rewrite IH; [|rewrite length_app in Hf; simpl in Hf; lia|constructor|].
      - unfold read_stream, clear. simpl. destruct (split_lines rest) as [ls tl].
        rewrite decode_frames_buffer. done.
      - simpl. rewrite zlen_nil. pose proof (zlen_nonneg (buffer c)). lia. }
    unfold bind at 1. rewrite Hdec. unfold read_stream in Hrest.
    destruct (split_lines rest) as [ls tl]. cbn [fst snd].
    assert (zlen frame <= isize_max) as Hfl.
    { unfold frame. pose proof (zlen_strip_cr (buffer c ++ fragment)) as Hs. rewrite zlen_app in Hs.
      case_bool_decide; lia. }
    case_bool_decide as Hempty.
    + unfold bind at 1, ret, bind at 1, modify. cbn [obind app].
      change (clear (set_buffer b c)) with (clear c). rewrite Hrest.
      destruct (decode_frames c ls); [|done..]. cbn [obind]. by case_goal_if.
    + pose proof (settled_message c frame Hfl) as Hset.
      destruct (decode_complete_message c frame) as [m|e| |]; try done.
      unfold bind at 1, ret, bind at 1, modify. cbn [obind app].
      change (clear (set_buffer b c)) with (clear c). rewrite Hrest.
      destruct (decode_frames c ls); [|done..]. cbn [obind]. case_goal_if; [done|].
      by rewrite <- app_assoc.
  - apply split_newline_None in Hn. rewrite frame_size_spec by lia.
    rewrite split_lines_tail by (by apply Forall_app). cbn [decode_frames].
    destruct (max_message_size c <? _); [done|]. unfold bind, modify, ret. by rewrite app_nil_r.
Qed.

Lemma decode_stream data c :
  no_newline (buffer c) → zlen (buffer c) + zlen data <= isize_max →
  decode data c = read_stream c (buffer c ++ data).
Proof.
  intros Hb Hl. unfold decode. rewrite decode_loop_spec by (done || lia).
  by destruct (read_stream _ _) as [[] ?].
Qed.

(** * Invariant *)

(** The buffer holds part of one line, within the limit but for a trailing
    carriage return. *)
Definition codec_ok (c : Codec) : Prop :=
  no_newline (buffer c) ∧ zlen (strip_cr (buffer c)) <= max_message_size c.

Lemma clear_ok c : 0 <= max_message_size c → codec_ok (clear c).
Proof. intros Hm. split; [constructor|done]. Qed.

Lemma read_stream_ok c bs : 0 <= max_message_size c → codec_ok (read_stream c bs).2.
Proof.
  intros Hm. unfold read_stream. pose proof (split_lines_no_newline bs) as Hn.
  destruct (split_lines bs) as [ls tl]. simpl in Hn.
  destruct (decode_frames c ls); [|by apply clear_ok..].
  case_goal_if; [by apply clear_ok|]. zbool. done.
Qed.

(** However it is used, a codec buffers at most one incomplete line, of at
    most the configured size and a carriage return: a new codec, one whose limit
    changes, a cleared one, and one after [decode] of any data with any outcome
    all satisfy this; and a failed [decode] leaves nothing buffered. *)
Theorem codec_buffer_bounded c data size :
  codec_ok c → 0 <= max_message_size c → 0 <= size →
  zlen (buffer c) + zlen data <= isize_max →
  codec_ok Codec_new ∧ codec_ok (clear c) ∧ codec_ok (set_max_message_size size c) ∧
  codec_ok (decode data c).2 ∧ zlen (buffer (decode data c).2) <= max_message_size c + 1 ∧
  (∀ e, (decode data c).1 = Err e → buffer (decode data c).2 = []).
Proof.
  intros [Hn Hs] Hm Hsz Hl. split_and!.
  - split; [constructor|done].
  - by apply clear_ok.
  - unfold set_max_message_size. simpl. case_goal_if; zbool; [by apply clear_ok|done].
  - rewrite decode_stream by done. by apply read_stream_ok.
  - rewrite decode_stream by done. destruct (read_stream_ok c (buffer c ++ data) Hm) as [_ Hb].
    assert (max_message_size (read_stream c (buffer c ++ data)).2 = max_message_size c) as Heq.
    { unfold read_stream. destruct (split_lines _) as [ls tl]. destruct (decode_frames c ls); try done.
      by case_goal_if. }
    rewrite Heq, zlen_strip_cr in Hb. case_bool_decide; lia.
  - intros e. rewrite decode_stream by done. unfold read_stream. destruct (split_lines _) as [ls tl].
    destruct (decode_frames c ls); try done. by case_goal_if.
Qed.

(** C3: [decode] refines the reading of the stream line by line: with what the
    codec has buffered in front of the new data, the complete lines are taken in
    order, a trailing carriage return is dropped, empty ones are skipped, each
    other is decoded as one frame, and the incomplete last line is kept; the
    first oversized or refused frame is the result, with nothing left buffered.
    It always returns. *)
Theorem decode_refines_stream data c :
  codec_ok c → zlen (buffer c) + zlen data <= isize_max →
  decode data c = read_stream c (buffer c ++ data) ∧ settled (decode data c).1.
Proof.
  intros [Hn _] Hl. split; [by apply decode_stream|]. rewrite decode_stream by done. unfold read_stream.
  assert (Hsum : ∀ l, l ∈ (split_lines (buffer c ++ data)).1 → zlen l <= zlen (buffer c ++ data)).
  { intros l Hin. by apply split_lines_length. }
  rewrite zlen_app in Hsum. destruct (split_lines _) as [ls tl]. simpl in Hsum.
  assert (Hset : settled (decode_frames c ls)).
  { induction ls as [|l ls IH]; [done|]. cbn [decode_frames]. apply settled_obind.
    - unfold decode_frame. repeat (case_goal_if; [done|]). apply settled_obind; [|done].
      apply settled_message. pose proof (zlen_strip_cr l). specialize (Hsum l ltac:(by left)).
      case_bool_decide; lia.
    - intros m _. apply settled_obind; [|done]. apply IH. intros l' Hl'. apply Hsum. by right. }
  destruct (decode_frames c ls); try done. by case_goal_if.
Qed.

(** * Chunks *)

(** Feed chunks one call at a time, stopping at the first error. *)
Fixpoint feed (chunks : list (list Z)) : M Codec (CodecError SerdeError) (list (JsonRpcMessage Value)) :=
  match chunks with
  | [] => ret []
  | d :: ds =>
      let! ms := decode d in
      let! rest := feed ds in
      ret (ms ++ rest)
  end.

Lemma decode_frames_app c a b :
  decode_frames c (a ++ b) =
  let? x := decode_frames c a in let? y := decode_frames c b in Ok (x ++ y).
Proof.
  induction a as [|l a IH]; simpl; [by destruct (decode_frames c b)|].
  destruct (decode_frame c l) as [m| | |]; simpl; [|done..]. rewrite IH.
  destruct (decode_frames c a) as [x| | |]; simpl; [|done..].
  destruct (decode_frames c b); simpl; [|done..]. by rewrite app_assoc.
Qed.

(** An oversized incomplete line stays an error, whatever follows. *)
Lemma oversized_line c tl b :
  no_newline tl → max_message_size c < zlen (strip_cr tl) →
  ∀ ms c', read_stream c (tl ++ b) ≠ (Ok ms, c').
Proof.
  intros Hn Hs ms c'. unfold read_stream.
  destruct (split_newline b) as [[f r]|] eqn:Hb.
  - apply split_newline_Some in Hb as [-> Hf]. rewrite app_assoc, split_lines_line by (by apply Forall_app).
    cbn [decode_frames]. unfold decode_frame. pose proof (zlen_strip_cr_mono tl f).
    rewrite (proj2 (Z.ltb_lt _ _)) by lia. done.
  - apply split_newline_None in Hb. rewrite split_lines_tail by (by apply Forall_app).
    cbn [decode_frames]. pose proof (zlen_strip_cr_mono tl b). by rewrite (proj2 (Z.ltb_lt _ _)) by lia.
Qed.

Lemma read_stream_split c a b ms c' :
  read_stream c (a ++ b) = (Ok ms, c') ↔
  ∃ ms1 ms2 c1, read_stream c a = (Ok ms1, c1) ∧ read_stream c1 (buffer c1 ++ b) = (Ok ms2, c') ∧
    ms = ms1 ++ ms2.
Proof.
  destruct (split_lines a) as [ls tl] eqn:Ha.
  assert (Hn : no_newline tl) by (pose proof (split_lines_no_newline a) as Hx; by rewrite Ha in Hx).
  assert (Hab : read_stream c (a ++ b) =
    match decode_frames c ls with
    | Ok ms1 => match read_stream c (tl ++ b) with (Ok ms2, c') => (Ok (ms1 ++ ms2), c') | r => r end
    | o => (o, clear c)
    end).
  { unfold read_stream. rewrite split_lines_app, Ha. simpl.
    destruct (split_lines (tl ++ b)) as [ls2 tl2]. simpl. rewrite decode_frames_app.
    destruct (decode_frames c ls); simpl; [|done..]. destruct (decode_frames c ls2); simpl; [|done..].
    by case_goal_if. }
  rewrite Hab. unfold read_stream at 2. rewrite Ha.
  assert (Hbuf : ∀ x, read_stream (set_buffer tl c) x = read_stream c x).
  { intros x. unfold read_stream. destruct (split_lines x). by rewrite decode_frames_buffer. }
  destruct (decode_frames c ls) as [ms1| | |]; [|naive_solver..].
  destruct (max_message_size c <? zlen (strip_cr tl)) eqn:Hsize; zbool.
  - split; [|naive_solver]. pose proof (oversized_line c tl b Hn Hsize) as Hno.
    destruct (read_stream c (tl ++ b)) as [[ms2| | |] c2]; try done. by destruct (Hno ms2 c2).
  - split.
    + destruct (read_stream c (tl ++ b)) as [[ms2| | |] c2] eqn:H2; try done. intros [= <- <-].
      exists ms1, ms2, (set_buffer tl c). simpl. by rewrite Hbuf.
    + intros (x & y & c1 & [= <- <-] & H2 & ->). simpl in H2. rewrite Hbuf in H2. by rewrite H2.
Qed.

Lemma read_stream_buffer c bs ms c' :
  read_stream c bs = (Ok ms, c') → no_newline (buffer c') ∧ zlen (buffer c') <= zlen bs.
Proof.
  unfold read_stream. pose proof (split_lines_no_newline bs) as Hn. pose proof (split_lines_tail_length bs) as Hl.
  destruct (split_lines bs) as [ls tl]. destruct (decode_frames c ls); try done.
  case_goal_if; [done|]. intros [= _ <-]. done.
Qed.

Lemma read_stream_Ok_codec c bs ms c' :
  0 <= max_message_size c → read_stream c bs = (Ok ms, c') →
  codec_ok c' ∧ zlen (buffer c') <= zlen bs.
Proof.
  intros Hm Hr. pose proof (read_stream_ok c bs Hm) as Hok. rewrite Hr in Hok.
  by apply read_stream_buffer in Hr as [_ Hl].
Qed.

Lemma feed_stream chunks c ms c' :
  codec_ok c → zlen (buffer c) + zlen (concat chunks) <= isize_max →
  feed chunks c = (Ok ms, c') ↔ read_stream c (buffer c ++ concat chunks) = (Ok ms, c').
Proof.
  revert c ms c'. induction chunks as [|d ds IH]; intros c ms c' [Hn Hs] Hl; cbn [concat feed].
  { rewrite app_nil_r. unfold read_stream. rewrite split_lines_tail by done. cbn [decode_frames].
    rewrite (proj2 (Z.ltb_ge _ _)) by done. unfold ret. by destruct c. }
  simpl in Hl. rewrite zlen_app in Hl. pose proof (zlen_nonneg (concat ds)) as Hds.
  pose proof (zlen_nonneg (strip_cr (buffer c))) as Hz.
  assert (Hd : decode d c = read_stream c (buffer c ++ d)) by (apply decode_stream; [done|lia]).
  assert (Hnext : ∀ ms1 c1, read_stream c (buffer c ++ d) = (Ok ms1, c1) →
    codec_ok c1 ∧ zlen (buffer c1) + zlen (concat ds) <= isize_max).
  { intros ms1 c1 [Hok Hl1]%read_stream_Ok_codec; [|lia]. rewrite zlen_app in Hl1. split; [done|lia]. }
  rewrite app_assoc, read_stream_split. split.
  - intros (ms1 & c1 & H1 & (ms2 & c2 & H2 & [= <- <-])%bind_ok_inv)%bind_ok_inv.
    rewrite Hd in H1. destruct (Hnext _ _ H1) as [Hok Hl1]. exists ms1, ms2, c1. split_and!; [done| |done].
    by apply IH.
  - intros (ms1 & ms2 & c1 & H1 & H2 & ->). destruct (Hnext _ _ H1) as [Hok Hl1].
    apply IH in H2; [|done..]. rewrite <- Hd in H1. erewrite bind_ok by done.
    by erewrite bind_ok by done.
Qed.

(** Chunk boundaries do not matter: feeding a stream to [decode] in any
    chunks yields messages without an error exactly when decoding it in one
    piece does, and then the same messages in the same order and the same
    codec at the end. *)
Theorem decode_chunking_irrelevant chunks c ms c' :
  codec_ok c → zlen (buffer c) + zlen (concat chunks) <= isize_max →
  feed chunks c = (Ok ms, c') ↔ decode (concat chunks) c = (Ok ms, c').
Proof.
  intros Hok Hl. rewrite feed_stream by done. destruct Hok as [Hn _]. by rewrite decode_stream.
Qed.
End framing.
