(* ===== verification/CodecRoundTrip.v ===== *)
(** Encoding, and the round trip of messages through two codecs. *)
From stdpp Require Import base list gmap strings.
From Stdlib Require Import ZArith Lia.
From S2P Require Import Prelude Utf8 JsonGrammar Scanner Sink.
From S2P Require Import JsonAdmission JsonAdmissionTheorems RawJson RawJsonTheorems.
From S2P Require Import RequestId JsonRpc Codec CodecAdmission CodecFraming.

Section round_trip.
Context {Value SerdeError : Type} `{Serde Value SerdeError}.

(** * Encoding *)

Lemma to_writer_bytes (x : serialization) limit u w :
  to_writer x (BoundedEncodeBuffer.new limit) = (Ok u, w) →
  BoundedEncodeBuffer.bytes w = ser_bytes x.
Proof.
  unfold to_writer. intros (u1 & w1 & Hw & Hk)%bind_ok_inv. apply encode_buffer_content in Hw.
  destruct (ser_completes x); [|done]. injection Hk as _ <-. by rewrite Hw.
Qed.

Lemma encode_value_Ok c x wire :
  0 <= max_message_size c < usize_max →
  encode_value c x = Ok wire ↔
  ser_completes x = true ∧ zlen (ser_bytes x) <= max_message_size c ∧ wire = ser_bytes x ++ [10].
Proof.
  intros Hm. unfold encode_value.
  destruct (to_writer_spec x (BoundedEncodeBuffer.new (max_message_size c))) as (w & Hw & Hr & _);
    [done|done|done|]. rewrite Hw. cbn in Hr. cbn [sink_limit BoundedEncodeBuffer.sink] in *.
  cbn [BoundedEncodeBuffer.max_message_size BoundedEncodeBuffer.new] in *.
  case_goal_if; zbool.
  - rewrite (to_writer_bytes x (max_message_size c) tt w) by done.
    naive_solver.
  - split; [by destruct (BoundedEncodeBuffer.rejected_size w)|].
    intros (Hc & Hs & _). rewrite Hc, andb_true_r in E. zbool. lia.
Qed.

Lemma encode_value_Err c x e :
  0 <= max_message_size c < usize_max → encode_value c x = Err e →
  (∃ n, e = MessageTooLarge n ∧ max_message_size c < zlen (ser_bytes x)) ∨
  (e = Json (write_error x) ∧ zlen (ser_bytes x) <= max_message_size c ∧ ser_completes x = false).
Proof.
  intros Hm. unfold encode_value.
  destruct (to_writer_spec x (BoundedEncodeBuffer.new (max_message_size c))) as (w & Hw & Hr & _);
    [done|done|done|]. rewrite Hw. cbn in Hr. cbn [sink_limit BoundedEncodeBuffer.sink] in *.
  cbn [BoundedEncodeBuffer.max_message_size BoundedEncodeBuffer.new] in *.
  destruct (Z.leb_spec (zlen (ser_bytes x)) (max_message_size c)); simpl in *;
    destruct (ser_completes x); try done;
    destruct (BoundedEncodeBuffer.rejected_size w); try done; intros [= <-]; eauto.
Qed.

Definition serialize_message (m : JsonRpcMessage Value) : serialization :=
  match m with MRequest r => serialize_request r | MResponse r => serialize_response r end.

Definition encode_message (c : Codec) (m : JsonRpcMessage Value)
    : outcome (CodecError SerdeError) (list Z) :=
  match m with MRequest r => encode_request c r | MResponse r => encode_response c r end.

Lemma encode_message_Ok c m wire :
  0 <= max_message_size c < usize_max → encode_message c m = Ok wire →
  zlen (ser_bytes (serialize_message m)) <= max_message_size c ∧
  wire = ser_bytes (serialize_message m) ++ [10].
Proof.
  intros Hm He. assert (encode_value c (serialize_message m) = Ok wire) as Hx.
  { destruct m as [r|r]; revert He; simpl; [unfold encode_request|unfold encode_response].
    - by destruct (JsonRpcRequest_validate r).
    - by destruct (JsonRpcResponse_validate r). }
  apply encode_value_Ok in Hx; [|done]. naive_solver.
Qed.

Lemma settled_validate (m : JsonRpcMessage Value) : settled (JsonRpcMessage_validate m).
Proof.
  assert (Hid : ∀ o, settled (validate_id o)).
  { intros [[| |]|]; simpl; try done; unfold RequestId_validate; by repeat case_goal_if. }
  destruct m; simpl; [unfold JsonRpcRequest_validate|unfold JsonRpcResponse_validate];
    repeat (case_goal_if; [done|]); apply Hid.
Qed.

Lemma settled_encode_value c x : 0 <= max_message_size c < usize_max → settled (encode_value c x).
Proof.
  intros Hm. unfold encode_value.
  destruct (to_writer_spec x (BoundedEncodeBuffer.new (max_message_size c))) as (w & -> & _);
    [done|done|done|].
  case_goal_if; [done|]. by destruct (BoundedEncodeBuffer.rejected_size w).
Qed.

(** A message is encoded exactly when it is valid, its serialization
    completes and fits the size limit: the wire bytes are then the serialization
    and one newline.  Otherwise the error says which of the three failed; in
    particular the size error appears exactly when a valid message is too long. *)
Theorem encode_message_correct c m :
  0 <= max_message_size c < usize_max →
  let x := serialize_message m in
  match encode_message c m with
  | Ok wire => JsonRpcMessage_validate m = Ok tt ∧ ser_completes x = true ∧
      zlen (ser_bytes x) <= max_message_size c ∧ wire = ser_bytes x ++ [10]
  | Err (MessageTooLarge _) => JsonRpcMessage_validate m = Ok tt ∧ max_message_size c < zlen (ser_bytes x)
  | Err (Json e) =>
      (∃ why, JsonRpcMessage_validate m = Err why ∧ e = custom why) ∨
      (JsonRpcMessage_validate m = Ok tt ∧ zlen (ser_bytes x) <= max_message_size c ∧
       ser_completes x = false ∧ e = write_error x)
  | _ => False
  end.
Proof.
  intros Hm x.
  pose proof (settled_validate m) as Hv. pose proof (settled_encode_value c x Hm) as Hsx.
  assert (He : encode_message c m =
    let? _ := map_err (λ e, Json (custom e)) (JsonRpcMessage_validate m) in encode_value c x) by (by destruct m).
  rewrite He. destruct (JsonRpcMessage_validate m) as [[]|why| |]; try done; cbn [map_err obind]; [|eauto].
  destruct (encode_value c x) as [wire|e| |] eqn:Hx; try done.
  - apply encode_value_Ok in Hx; [|done]. naive_solver.
  - apply encode_value_Err in Hx as [(n & -> & Hn)|(-> & Hs & Hc)]; [done|naive_solver|done].
Qed.

(** * The round trip *)

Definition text_of (m : JsonRpcMessage Value) : list Z := ser_bytes (serialize_message m).

(** What is assumed of [serde_json] for a message it writes: the text is UTF-8,
    an object on one line, and typed decoding of the text gives the message back. *)
Definition serde_round_trips (m : JsonRpcMessage Value) : Prop :=
  let p := text_of m in
  valid_utf8 p ∧ no_newline p ∧ head p = Some 123 ∧ last p = Some 125 ∧
  match m with
  | MRequest r => from_slice_request p = inr r
  | MResponse r => from_slice_response p = inr r
  end.

(** The two passes of the codec let the text through, as what the message is. *)
Definition accepted (c : Codec) (m : JsonRpcMessage Value) : Prop :=
  ∃ adm, admit_complete_frame c (text_of m) None = Ok adm ∧ (kind adm = Response ↔ ∃ r, m = MResponse r).

(** A sufficient condition, in terms of the text: no byte-order mark (U+FEFF in a
    string is one), an object within the limits with distinct members that are all
    JSON-RPC ones and make it a response exactly when it is one, and an [id] that
    is short and reads as an identifier. *)
Definition admissible (c : Codec) (m : JsonRpcMessage Value) : Prop :=
  let p := text_of m in
  Raw.has_bom p = false ∧
  ∃ ms, document (JObj ms) p ∧ within (codec_limits (max_message_size c)) (JObj ms) ∧
    distinct (JObj ms) = true ∧ envelope_ok None ms ∧ (is_response ms ↔ ∃ r, m = MResponse r) ∧
    (∀ token, id_token p ms token → short_id token ∧ ∃ id, from_slice_id token = inr id).

Definition sized (c : Codec) (m : JsonRpcMessage Value) : Prop :=
  zlen (text_of m) <= max_message_size c ∧ zlen (text_of m) <= isize_max.

Lemma admissible_accepted c m : serde_round_trips m → sized c m → admissible c m → accepted c m.
Proof.
  intros (Hu & _) [Hm Hl] (Hbom & ms & Hd & Hw & Hj & He & Hresp & Hid).
  destruct (admit_complete_frame_ok c (text_of m) None ms Hl Hm Hu Hbom Hd Hw Hj He Hid) as (adm & Hadm & Hkind & _).
  exists adm. split; [done|]. by rewrite Hkind.
Qed.

(** A text decodes to its message exactly when it is accepted. *)
Lemma decode_text_iff c m :
  serde_round_trips m → decode_complete_message c (text_of m) = Ok m ↔ accepted c m.
Proof.
  intros (_ & _ & _ & _ & Hback). unfold decode_complete_message, accepted.
  destruct (admit_complete_frame c (text_of m) None) as [adm|e| |]; cbn [obind];
    [|split; [done|by intros (? & ? & _)]..].
  split.
  - intros Hdec. exists adm. split; [done|]. destruct (kind adm).
    + destruct (from_slice_request (text_of m)); [done|]. injection Hdec as <-. split; [done|]. by intros [? ?].
    + destruct (from_slice_response (text_of m)); [done|]. injection Hdec as <-. split; [by eexists|done].
  - intros (adm' & [= <-] & Hkind). destruct m as [r|r], (kind adm); rewrite ?Hback; try done.
    + by destruct (proj1 Hkind eq_refl).
    + by discriminate (proj2 Hkind (ex_intro _ r eq_refl)).
Qed.

Lemma decode_frame_text c m :
  serde_round_trips m → sized c m →
  decode_frame c (text_of m) = let? x := decode_complete_message c (text_of m) in Ok [x].
Proof.
  intros (_ & _ & Hh & Hlast & _) [Hm _]. unfold decode_frame, strip_cr.
  rewrite Hlast, (bool_decide_false (Some 125 = _)) by done.
  rewrite (proj2 (Z.ltb_ge _ _)) by done. by rewrite bool_decide_false by (by intros Hnil; rewrite Hnil in Hh).
Qed.

Lemma decode_frames_texts c msgs :
  Forall serde_round_trips msgs → Forall (sized c) msgs →
  decode_frames c (text_of <$> msgs) = Ok msgs ↔ Forall (accepted c) msgs.
Proof.
  intros Hs. induction Hs as [|m ms Hm Hms IH]; intros Hz; [done|]. apply Forall_cons in Hz as [Hz Hzs].
  rewrite Forall_cons, <- (IH Hzs), <- (decode_text_iff c m Hm). cbn [fmap list_fmap decode_frames].
  rewrite decode_frame_text by done. destruct (decode_complete_message c (text_of m)) as [x|e| |]; cbn [obind]; [|naive_solver..].
  unfold fmap. destruct (decode_frames c (list_fmap _ _ _ ms)) as [xs|e| |]; cbn [obind app]; naive_solver.
Qed.

Lemma split_lines_wires (ps : list (list Z)) :
  Forall no_newline ps → split_lines (concat ((λ p, p ++ [10]) <$> ps)) = (ps, []).
Proof.
  induction 1 as [|p ps Hp Hps IH]; [done|]. cbn [fmap list_fmap concat].
  rewrite <- app_assoc. simpl. by rewrite split_lines_line, IH.
Qed.

Lemma wires_bounded (ps : list (list Z)) n :
  zlen (concat ((λ p, p ++ [10]) <$> ps)) <= n → Forall (λ p, zlen p <= n) ps.
Proof.
  induction ps as [|p ps IH]; [constructor|]. cbn [fmap list_fmap concat]. rewrite !zlen_app.
  change (zlen [10]) with 1. unfold fmap in IH. set (r := concat _) in *. intros Hl.
  pose proof (zlen_nonneg p). pose proof (zlen_nonneg r). constructor; [lia|apply IH; lia].
Qed.

(** C2: Messages survive the trip, as far as the codec lets them.  Take messages
    whose serialization by [serde_json] is one line of UTF-8 that typed decoding
    reads back.  The wires [encode_message] produces for them, concatenated and
    cut into any chunks, are decoded by a codec with the same limit and an empty
    buffer into exactly these messages in this order, with nothing left buffered,
    if and only if the codec's own admission accepts every one of them; and it
    accepts a message without U+FEFF whose text is within the resource limits,
    has the members of its kind, each once, and a short, readable identifier. *)
Theorem encode_decode_roundtrip c msgs wires chunks :
  0 <= max_message_size c < usize_max → buffer c = [] →
  Forall serde_round_trips msgs → Forall2 (λ m w, encode_message c m = Ok w) msgs wires →
  concat chunks = concat wires → zlen (concat wires) <= isize_max →
  (feed chunks c = (Ok msgs, c) ↔ Forall (accepted c) msgs) ∧
  Forall (λ m, admissible c m → accepted c m) msgs.
Proof.
  intros Hm Hb Hf Henc Hcut Hl.
  assert (Hw : wires = (λ p, p ++ [10]) <$> (text_of <$> msgs) ∧
    Forall (λ m, zlen (text_of m) <= max_message_size c) msgs).
  { clear -Henc Hm. induction Henc as [|m w ms ws Hmw Hms [-> IH]]; [done|].
    apply encode_message_Ok in Hmw as [Hs ->]; [|done]. split; [done|by constructor]. }
  destruct Hw as [-> Hs]. pose proof Hl as Hl'. apply wires_bounded in Hl'. rewrite Forall_fmap in Hl'.
  assert (Hz : Forall (sized c) msgs) by (apply Forall_and; split; done).
  split; [|rewrite Forall_forall in *; intros m Hin; apply admissible_accepted; auto].
  rewrite feed_stream.
  2:{ unfold codec_ok. rewrite Hb. split; [by apply Forall_nil|by destruct Hm]. }
  2:{ rewrite Hb, Hcut. done. }
  rewrite Hb, Hcut, <- (decode_frames_texts c msgs Hf Hz). cbn [app]. unfold read_stream. rewrite split_lines_wires.
  2:{ apply Forall_fmap. eapply Forall_impl; [exact Hf|]. by intros m (_ & Hn & _). }
  rewrite (proj2 (Z.ltb_ge _ _)) by (by destruct Hm).
  destruct (decode_frames c (text_of <$> msgs)) as [xs|e| |]; [|split; [done|discriminate]..].
  split; [by intros [= ->]|]. intros [= ->]. rewrite <- Hb. by destruct c.
Qed.
End round_trip.
