(* ===== verification/JsonExamples.v ===== *)
(** Closed runs of the scanners and of identifier correlation. *)
From stdpp Require Import base list gmap strings.
From Stdlib Require Import ZArith Lia.
From S2P Require Import Prelude Utf8 JsonGrammar Scanner JsonAdmission JsonAdmissionTheorems.
From S2P Require Import RawJson RawJsonTheorems RequestId RequestIdTheorems.

(** Text with apostrophes for quotation marks. *)
Definition quoted (s : string) : list Z := (λ c, if c =? 39 then 34 else c) <$> chars_of s.

Definition ex_ping : list Z := quoted "{'jsonrpc':'2.0','id':7,'method':'ping'}".
Definition ex_twice : list Z := quoted "{'id':7,'\u0069d':8}".

(** A member name is repeated even when it is spelt with an escape. *)
Example ex_twice_refused :
  match JsonAdmission_admit ex_twice 4096 with Err f => error f = DuplicateObjectMember | _ => False end ∧
  Raw.admit_raw_jsonrpc_document ex_twice 4096 = Err Raw.DuplicateObjectMember.
Proof. by vm_compute. Qed.

Lemma ex_ping_utf8 : valid_utf8 ex_ping.
Proof. apply from_utf8_spec. by vm_compute. Qed.

Lemma ex_ping_admitted : ∃ env, JsonAdmission_admit ex_ping 4096 = Ok env.
Proof. eexists. vm_compute. reflexivity. Qed.

Lemma admit_correct_witness :
  ∃ env j, JsonAdmission_admit ex_ping 4096 = Ok env ∧ document j ex_ping ∧ distinct j = true ∧ describes ex_ping j env.
Proof.
  pose proof (admit_correct ex_ping 4096 ex_ping_utf8 ltac:(by vm_compute) ltac:(by vm_compute)) as H.
  destruct ex_ping_admitted as [env Heq]. rewrite Heq in H.
  destruct H as (j & Hd & _ & Hj & He). exists env, j. split_and!; assumption.
Defined.

Lemma ex_ping_raw : Raw.admit_raw_json_document ex_ping 4096 Raw.JsonRpcObject = Ok tt.
Proof. vm_compute. reflexivity. Qed.

Lemma ex_ping_raw_short : ∃ e, Raw.admit_raw_json_document ex_ping 4 Raw.JsonRpcObject = Err e.
Proof. eexists. vm_compute. reflexivity. Qed.

Lemma admit_raw_json_document_correct_witness :
  raw_admissible ex_ping 4096 Raw.JsonRpcObject ∧ ¬ raw_admissible ex_ping 4 Raw.JsonRpcObject.
Proof.
  assert (Hl : zlen ex_ping <= isize_max) by (by vm_compute). split.
  - pose proof (admit_raw_json_document_correct ex_ping 4096 Raw.JsonRpcObject Hl ltac:(by vm_compute)) as H.
    rewrite ex_ping_raw in H. exact H.
  - pose proof (admit_raw_json_document_correct ex_ping 4 Raw.JsonRpcObject Hl ltac:(by vm_compute)) as H.
    destruct ex_ping_raw_short as [e He]. rewrite He in H. exact H.
Defined.

Definition ex_path : list Raw.RawJsonPathSegment :=
  [Raw.Member (chars_of "params"); Raw.Index 3; Raw.Member (chars_of "api key")].

Lemma redacted_path_bounded_witness : (length (Raw.redact_raw_json_path ex_path) ≤ 16 * 66 + 2)%nat.
Proof.
  apply (redacted_path_bounded ex_path). repeat constructor; by vm_compute.
Defined.

Lemma is_mathematical_integer_correct_witness :
  ∃ neg ip fr x v, lexeme_parts (chars_of "120e-1") neg ip fr x ∧ parts_value neg ip fr x v.
Proof.
  destruct (is_mathematical_integer_correct (chars_of "120e-1")) as [H _].
  { repeat constructor; by vm_compute. }
  destruct (H ltac:(by vm_compute)) as (_ & neg & ip & fr & x & v & Hp & _ & Hv).
  by exists neg, ip, fr, x, v.
Defined.

Lemma correlates_with_iff_witness :
  ∃ m, id_means (Integer (chars_of "1.2e1")) m ∧ id_means (Number 12) m.
Proof.
  apply (correlates_with_iff (Integer (chars_of "1.2e1")) (Number 12)).
  - repeat constructor; by vm_compute.
  - split; by vm_compute.
  - by vm_compute.
  - by vm_compute.
  - by vm_compute.
Defined.

Lemma deserialized_id_valid_witness : ∃ k, correlation_key (Integer (chars_of "1e2")) = Ok k.
Proof. apply (deserialized_id_valid (VNumber (chars_of "1e2"))). by vm_compute. Defined.
