(* ===== verification/CodecExamples.v ===== *)
(** Closed runs of the codec, with a [serde_json] that knows one request and
    one response. *)
From stdpp Require Import base list gmap strings.
From Stdlib Require Import ZArith Lia.
From S2P Require Import Prelude Utf8 JsonGrammar Scanner Sink.
From S2P Require Import JsonAdmission JsonAdmissionTheorems RawJson RawJsonTheorems.
From S2P Require Import RequestId JsonRpc Codec CodecAdmission CodecFraming CodecRoundTrip JsonExamples.

(** * Identifiers the scan did not finish reading *)

(** A request with two [id] members around [n] nested arrays. *)
Definition ex_two_ids (n : nat) : list Z :=
  quoted "{'id':7,'method':'m','params':" ++ replicate n 91 ++ replicate n 93 ++ quoted ",'id':8}".

Lemma ex_deep_refused : ∃ f, JsonAdmission_admit (ex_two_ids 64) 4096 = Err f ∧ error f = NestingTooDeep ∧
  partial_kind None (failure_envelope f) = Request ∧ has_id (failure_envelope f) = true ∧
  has_duplicate_id (failure_envelope f) = false ∧
  ∃ a b, id_span (failure_envelope f) = Some (a, b) ∧ get_range (ex_two_ids 64) a b = Some [55].
Proof.
  eexists. split; [vm_compute; reflexivity|]. do 4 (split; [done|]). eexists _, _. split; [done|].
  vm_compute. reflexivity.
Qed.

Lemma ex_shallow_refused : ∃ f, JsonAdmission_admit (ex_two_ids 63) 4096 = Err f ∧ error f = DuplicateObjectMember ∧
  has_id (failure_envelope f) = true ∧ has_duplicate_id (failure_envelope f) = true.
Proof. eexists. split; [vm_compute; reflexivity|]. done. Qed.

(** The codec withholds an identifier that is repeated, but only as far as
    it has read: of two frames with the same two [id] members, the one that is
    refused for its depth before the second [id] is reached is reported with
    the first, the shallow one with none. *)
Theorem duplicate_id_reported {Value SerdeError} `{Serde Value SerdeError} c :
  max_message_size c = 4096 → from_slice_id [55] = inr (Number 7) →
  (∃ e, decode_complete_message (Value := Value) c (ex_two_ids 64) = Err e ∧
     CodecError_request_id e = Some (Number 7)) ∧
  (∃ e, decode_complete_message (Value := Value) c (ex_two_ids 63) = Err e ∧
     CodecError_request_id e = None).
Proof.
  intros Hm Hid. unfold decode_complete_message, admit_complete_frame. rewrite Hm. split.
  - destruct ex_deep_refused as (f & Ha & He & Hk & Hhas & Hdup & a & b & Hs & Hr).
    change (4096 <? zlen (ex_two_ids 64)) with false. change (negb (from_utf8 (ex_two_ids 64))) with false.
    cbv iota. rewrite Ha. cbn [map_err obind]. eexists. split; [reflexivity|].
    unfold admission_failure, decode_raw_request_id. rewrite He, Hk, Hhas, Hdup, Hs, Hr. simpl. by rewrite Hid.
  - destruct ex_shallow_refused as (f & Ha & He & Hhas & Hdup).
    change (4096 <? zlen (ex_two_ids 63)) with false. change (negb (from_utf8 (ex_two_ids 63))) with false.
    cbv iota. rewrite Ha. cbn [map_err obind]. eexists. split; [reflexivity|].
    unfold admission_failure, decode_raw_request_id. rewrite He, Hhas, Hdup. by destruct (partial_kind _ _).
Qed.

(** * A concrete [serde_json] *)

Definition ex_pong : list Z := quoted "{'jsonrpc':'2.0','result':{},'id':7}".
Definition ex_request : JsonRpcRequest unit := JsonRpcRequest_new (chars_of "ping") None (Number 7).
Definition ex_response : JsonRpcResponse unit := JsonRpcResponse_success (Number 7) tt.

#[local] Instance ex_serde : Serde unit string := {|
  custom := λ m, m;
  from_slice_id := λ t, inr (if bool_decide (t = [55]) then Number 7 else RequestId.String t);
  from_slice_request := λ p, if bool_decide (p = ex_ping) then inr ex_request else inl "not a request"%string;
  from_slice_response := λ p, if bool_decide (p = ex_pong) then inr ex_response else inl "not a response"%string;
  serialize_request := λ r, {| ser_chunks :=
    [quoted "{'jsonrpc':'2.0','id':7,'method':'"; method r; quoted "'}"]; ser_completes := true |};
  serialize_response := λ _, {| ser_chunks := [ex_pong]; ser_completes := true |};
  write_error := λ _, "write"%string;
|}.

Definition ex_codec : Codec := set_max_message_size 64 Codec_new.

(** Cut in the middle of a frame, with a CRLF and an empty line. *)
Definition ex_chunks : list (list Z) :=
  [take 10 ex_ping; drop 10 ex_ping ++ [13]; [10; 10] ++ ex_pong; [10]; [123]].

Example ex_feed :
  feed ex_chunks ex_codec = (Ok [MRequest ex_request; MResponse ex_response], set_buffer [123] ex_codec).
Proof. vm_compute. reflexivity. Qed.

Lemma ex_codec_ok : codec_ok ex_codec.
Proof. split; [constructor|by vm_compute]. Qed.

Definition ex_data : list Z := ex_ping ++ [10; 123].

Lemma ex_data_fits : zlen (buffer ex_codec) + zlen ex_data <= isize_max.
Proof. by vm_compute. Qed.

Lemma codec_buffer_bounded_witness : codec_ok (decode ex_data ex_codec).2.
Proof.
  destruct (codec_buffer_bounded ex_codec ex_data 7 ex_codec_ok ltac:(by vm_compute) ltac:(by vm_compute)
    ex_data_fits) as (_ & _ & _ & H & _). exact H.
Defined.

Lemma decode_refines_stream_witness :
  decode ex_data ex_codec = read_stream ex_codec (buffer ex_codec ++ ex_data).
Proof. exact (proj1 (decode_refines_stream ex_data ex_codec ex_codec_ok ex_data_fits)). Defined.

Lemma ex_chunks_fit : zlen (buffer ex_codec) + zlen (concat ex_chunks) <= isize_max.
Proof. by vm_compute. Qed.

Lemma decode_chunking_irrelevant_witness :
  decode (concat ex_chunks) ex_codec =
    (Ok [MRequest ex_request; MResponse ex_response], set_buffer [123] ex_codec).
Proof.
  exact (proj1 (decode_chunking_irrelevant ex_chunks ex_codec _ _ ex_codec_ok ex_chunks_fit) ex_feed).
Defined.

(** ** Faithful messages *)

Lemma admitted_members p limit env :
  valid_utf8 p → zlen p <= isize_max → 0 <= limit → JsonAdmission_admit p limit = Ok env →
  root_is_object env = true → has_unknown_member env = false → zlen p <= 256 →
  (has_result env || has_error env = true → has_method env = false ∧ has_params env = false) →
  ∃ ms, document (JObj ms) p ∧ within (codec_limits limit) (JObj ms) ∧ distinct (JObj ms) = true ∧
    envelope_ok None ms ∧ (is_response ms ↔ has_result env || has_error env = true) ∧
    (∀ token, id_token p ms token → short_id token ∧ ∃ id, from_slice_id token = inr id).
Proof.
  intros Hu Hl Hlim Hok Hroot Hunk Hsmall Hdir.
  destruct (admit_describes p limit env Hu Hl Hlim Hok) as (j & Hd & Hw & Hj & He).
  destruct (describes_root _ _ _ He Hroot) as [ms ->]. exists ms.
  destruct He as (_ & Hm & Hp & _ & Hr & Herr & Hun & _).
  assert (Hresp : is_response ms ↔ has_result env || has_error env = true).
  { rewrite Hr, Herr, orb_true_iff, !bool_decide_eq_true. done. }
  split_and!; try done.
  - split.
    + intros n Hn. destruct (decide (n ∈ known_members)) as [|Hno]; [done|].
      rewrite (proj2 Hun) in Hunk; [done|]. by exists n.
    + intros [H1 H2]%Hresp%Hdir. rewrite Hm in H1. rewrite Hp in H2.
      by apply bool_decide_eq_false in H1, H2.
  - intros token (v & a & b & _ & Hab & -> & _). split; [|by eexists].
    intros _. etrans; [|exact Hsmall]. unfold zlen in *. rewrite length_take, length_drop. lia.
Qed.

Lemma ex_pong_admitted : ∃ env, JsonAdmission_admit ex_pong 64 = Ok env ∧ root_is_object env = true ∧
  has_unknown_member env = false ∧ has_result env || has_error env = true ∧
  has_method env = false ∧ has_params env = false.
Proof. eexists. split; [vm_compute; reflexivity|]. done. Qed.

Lemma ex_ping_admitted_64 : ∃ env, JsonAdmission_admit ex_ping 64 = Ok env ∧ root_is_object env = true ∧
  has_unknown_member env = false ∧ has_result env || has_error env = false.
Proof. eexists. split; [vm_compute; reflexivity|]. done. Qed.

Lemma ex_no_newline p : forallb (λ b, negb (b =? 10)) p = true → no_newline p.
Proof.
  intros H%Is_true_true%forallb_True. eapply Forall_impl; [exact H|]. simpl. by intros b Hb ->.
Qed.

Lemma ex_request_bytes : ser_bytes (serialize_message (MRequest ex_request)) = ex_ping.
Proof. vm_compute. reflexivity. Qed.

Lemma ex_response_bytes : ser_bytes (serialize_message (MResponse ex_response)) = ex_pong.
Proof. vm_compute. reflexivity. Qed.

Lemma ex_pong_utf8 : valid_utf8 ex_pong.
Proof. apply from_utf8_spec. vm_compute. reflexivity. Qed.

Lemma ex_round_trips : Forall serde_round_trips [MRequest ex_request; MResponse ex_response].
Proof.
  apply Forall_cons. split; [|apply Forall_cons; split; [|by apply Forall_nil]]; unfold serde_round_trips, text_of;
    rewrite ?ex_request_bytes, ?ex_response_bytes; (split_and!; [..|vm_compute; reflexivity]).
  all: first [exact ex_ping_utf8|exact ex_pong_utf8|apply ex_no_newline; vm_compute; reflexivity|vm_compute; reflexivity].
Qed.

Lemma ex_admissible_request : admissible ex_codec (MRequest ex_request).
Proof.
  unfold admissible, text_of. rewrite ex_request_bytes. destruct ex_ping_admitted_64 as (env & Ha & Hr & Hu & Hre).
  destruct (admitted_members ex_ping 64 env ex_ping_utf8) as (ms & Hd & Hw & Hj & He & Hx & Hid);
    [by vm_compute|by vm_compute|assumption..|by vm_compute|by rewrite Hre|].
  split; [vm_compute; reflexivity|]. exists ms. split_and!; try assumption.
  rewrite Hx, Hre. split; [done|by intros [??]].
Qed.

Lemma ex_admissible_response : admissible ex_codec (MResponse ex_response).
Proof.
  unfold admissible, text_of. rewrite ex_response_bytes.
  destruct ex_pong_admitted as (env & Ha & Hr & Hu & Hre & Hm & Hp).
  destruct (admitted_members ex_pong 64 env ex_pong_utf8) as (ms & Hd & Hw & Hj & He & Hx & Hid);
    [by vm_compute|by vm_compute|assumption..|by vm_compute|by split|].
  split; [vm_compute; reflexivity|]. exists ms. split_and!; try assumption.
  rewrite Hx, Hre. split; [intros _; by eexists|done].
Qed.

Lemma encode_decode_roundtrip_witness :
  feed [take 10 ex_ping; drop 10 ex_ping ++ [10] ++ ex_pong; [10]] ex_codec =
    (Ok [MRequest ex_request; MResponse ex_response], ex_codec).
Proof.
  destruct (encode_decode_roundtrip ex_codec [MRequest ex_request; MResponse ex_response]
    [ex_ping ++ [10]; ex_pong ++ [10]] [take 10 ex_ping; drop 10 ex_ping ++ [10] ++ ex_pong; [10]]) as [Hiff Hacc].
  - by split; vm_compute.
  - reflexivity.
  - exact ex_round_trips.
  - constructor; [vm_compute; reflexivity|]. constructor; [vm_compute; reflexivity|]. constructor.
  - vm_compute; reflexivity.
  - by vm_compute.
  - apply Hiff. apply Forall_cons in Hacc as [H1 [H2 _]%Forall_cons].
    apply Forall_cons. split; [exact (H1 ex_admissible_request)|].
    apply Forall_cons. split; [exact (H2 ex_admissible_response)|by apply Forall_nil].
Defined.

Lemma encode_message_correct_witness : ∃ wire, encode_message ex_codec (MRequest ex_request) = Ok wire ∧
  wire = ex_ping ++ [10].
Proof.
  pose proof (encode_message_correct ex_codec (MRequest ex_request) ltac:(by split; vm_compute)) as H.
  destruct (encode_message ex_codec (MRequest ex_request)) as [wire| | |] eqn:He;
    [|vm_compute in He; discriminate He..].
  destruct H as (_ & _ & _ & ->). eexists. split; [reflexivity|]. vm_compute. reflexivity.
Defined.

(** ** Admission *)

Lemma second_pass_only_rejects_bom_witness : Raw.admit_raw_jsonrpc_document ex_ping 64 = Ok tt.
Proof.
  destruct ex_ping_admitted_64 as (env & Ha & Hr & _).
  exact (second_pass_only_rejects_bom ex_ping 64 env ltac:(by vm_compute) ex_ping_utf8 ltac:(by vm_compute) Ha Hr).
Defined.

Lemma ex_ping_frame : ∃ adm, admit_complete_frame ex_codec ex_ping None = Ok adm ∧
  admitted_id adm = Some (Number 7).
Proof. eexists. split; [vm_compute; reflexivity|]. done. Qed.

Lemma admit_complete_frame_sound_witness : ∃ ms, document (JObj ms) ex_ping ∧ ¬ is_response ms.
Proof.
  destruct ex_ping_frame as (adm & Ha & Hid).
  destruct (admit_complete_frame_sound ex_codec ex_ping None adm ltac:(by vm_compute) Ha)
    as (_ & _ & ms & Hd & _ & _ & _ & _ & H). exists ms. split; [exact Hd|]. exact (proj1 (H _ Hid)).
Defined.

Lemma admit_complete_frame_complete_witness : ∃ adm, admit_complete_frame ex_codec ex_ping None = Ok adm.
Proof.
  destruct ex_ping_admitted_64 as (env & Ha & Hr & Hu & Hre).
  destruct (admitted_members ex_ping 64 env) as (ms & Hd & Hw & Hj & He & Hx & Hid);
    [exact ex_ping_utf8|by vm_compute|by vm_compute|assumption..|by vm_compute|by rewrite Hre|].
  destruct (admit_complete_frame_complete ex_codec ex_ping None ms ltac:(by vm_compute) ltac:(by vm_compute)
    ex_ping_utf8 ltac:(by vm_compute) Hd Hw Hj He Hid) as (adm & Hadm & _).
  exists adm. exact Hadm.
Defined.

(** A request with an unknown member is refused with its identifier. *)
Definition ex_extra : list Z := quoted "{'id':7,'method':'ping','x':1}".

Lemma ex_extra_refused : ∃ e, decode_complete_message ex_codec ex_extra = Err e ∧
  CodecError_request_id e = Some (Number 7).
Proof. eexists. split; [vm_compute; reflexivity|]. done. Qed.

Lemma rejected_id_readable_witness : id_readable ex_codec ex_extra (Number 7).
Proof.
  destruct ex_extra_refused as (e & He & Hid).
  exact (rejected_id_readable ex_codec ex_extra e (Number 7) ltac:(by vm_compute) He Hid).
Defined.
Lemma duplicate_id_reported_witness :
  ∃ e, decode_complete_message (Value := unit) (set_max_message_size 4096 Codec_new) (ex_two_ids 64) = Err e ∧
    CodecError_request_id e = Some (Number 7).
Proof.
  exact (proj1 (duplicate_id_reported (set_max_message_size 4096 Codec_new) eq_refl eq_refl)).
Defined.
