(* ===== verification/RateLimit.v ===== *)
(** Rate limiting, [crates/fastmcp-server/src/rate_limiting.rs]: the clock, the
    errors, the partition keys and the bounded partition store both middlewares
    share. *)
From stdpp Require Import base list gmap strings sorting.
From Stdlib Require Import ZArith Lia.
From S2P Require Import Prelude Utf8 RequestId JsonRpc.

(** * The clock *)

(** [std::time::Instant::now()]: the readings of the process, one after the
    other, in nanoseconds, and the earliest instant the platform represents. *)
Class Clock : Type := {
  instant : nat → Z;
  instant_min : Z;
}.

(** Instants never go back. *)
Class ClockLaws `{Clock} : Prop := {
  instant_mono n : instant n <= instant (S n);
  instant_min_le n : instant_min <= instant n;
}.

Definition NANOS : Z := 1000000000.

(** [Duration::from_secs] *)
Definition from_secs (s : Z) : Z := s * NANOS.

(** [Instant::checked_sub] *)
Definition instant_checked_sub `{Clock} (t d : Z) : option Z :=
  if instant_min <=? t - d then Some (t - d) else None.

(** [Instant::checked_duration_since] *)
Definition checked_duration_since (now earlier : Z) : option Z :=
  if earlier <=? now then Some (now - earlier) else None.

(** * Errors: [crates/fastmcp-core/src/error.rs] *)

Inductive McpErrorCode : Type :=
| ParseError
| InvalidRequest
| MethodNotFound
| InvalidParams
| InternalError
| ToolExecutionError
| ResourceNotFound
| ResourceForbidden
| PromptNotFound
| RequestCancelled
| Custom (code : Z).

Definition McpErrorCode_to_i32 (code : McpErrorCode) : Z :=
  match code with
  | ParseError => -32700
  | InvalidRequest => -32600
  | MethodNotFound => -32601
  | InvalidParams => -32602
  | InternalError => -32603
  | ToolExecutionError => -32000
  | ResourceNotFound => -32001
  | ResourceForbidden => -32002
  | PromptNotFound => -32003
  | RequestCancelled => -32004
  | Custom code => code
  end.

(** The object [rate_limit_retry_error] attaches. *)
Record RetryData : Type := {
  data_method : list Z;
  data_request_id : option RequestId;
  data_retry_after_ms : Z;
}.

Record McpError : Type := {
  error_code : McpErrorCode;
  error_message : string;
  error_data : option RetryData;
}.

Definition McpError_new (code : McpErrorCode) (message : string) : McpError :=
  {| error_code := code; error_message := message; error_data := None |}.

Definition McpError_with_data (code : McpErrorCode) (message : string) (data : RetryData) : McpError :=
  {| error_code := code; error_message := message; error_data := Some data |}.

Definition request_cancelled : McpError := McpError_new RequestCancelled "Request cancelled".

Definition RATE_LIMIT_ERROR_CODE : Z := -32005.
Definition RATE_LIMIT_EXCEEDED_MESSAGE : string := "Rate limit exceeded".

Definition rate_limit_error (message : string) : McpError :=
  McpError_new (Custom RATE_LIMIT_ERROR_CODE) message.

Definition rate_limit_retry_error {Value} (request : JsonRpcRequest Value) (retry_after_ms : Z)
    : McpError :=
  McpError_with_data (Custom RATE_LIMIT_ERROR_CODE) RATE_LIMIT_EXCEEDED_MESSAGE
    {| data_method := method request; data_request_id := request_id request;
       data_retry_after_ms := retry_after_ms |}.

Inductive RateLimitAdmission : Type :=
| Allowed
| Rejected (retry_after_ms : Z).

Definition is_allowed (a : RateLimitAdmission) : bool :=
  match a with Allowed => true | Rejected _ => false end.

Inductive MiddlewareDecision (Value : Type) : Type :=
| Continue
| Respond (v : Value).
Arguments Continue {Value}.
Arguments Respond {Value}.

(** * Partition keys *)

Definition MAX_CLIENT_ID_BYTES : Z := 4096.
Definition MAX_CLIENT_PARTITIONS : Z := 4096.
Definition MAX_NAMED_CLIENT_PARTITIONS : Z := MAX_CLIENT_PARTITIONS - 1.
Definition CLIENT_PARTITION_IDLE_TTL : Z := from_secs 60.
Definition MAX_RATE_LIMIT_METHOD_BYTES : Z := 512.
Definition SHA256_DIGEST_BYTES : Z := 32.

Definition DEFAULT_CLIENT_ID : list Z := chars_of "fastmcp-default-rate-limit-partition".
Definition RATE_LIMIT_METHOD_PARTITION_DOMAIN : list Z :=
  chars_of "fastmcp-rate-limit-method-partition-v1" ++ [0].
Definition MAX_RATE_LIMIT_PARTITION_INPUT_BYTES : Z :=
  zlen RATE_LIMIT_METHOD_PARTITION_DOMAIN + SHA256_DIGEST_BYTES + 8 + MAX_RATE_LIMIT_METHOD_BYTES.

(** [Sha256Digest], its bytes. *)
Definition Sha256Digest : Type := list Z.

(** [u64::to_be_bytes] *)
Definition to_be_bytes (n : Z) : list Z :=
  (λ i, Z.land (Z.shiftr n (8 * i)) 255) <$> [7; 6; 5; 4; 3; 2; 1; 0].

(** The numbers of 64 bits have texts of their own. *)
Lemma to_be_bytes_inj a b : 0 <= a < 2 ^ 64 → 0 <= b < 2 ^ 64 → to_be_bytes a = to_be_bytes b → a = b.
Proof.
  intros Ha Hb H. apply Z.bits_inj'. intros n Hn. destruct (decide (n < 64)) as [Hlt|Hge].
  - assert (Hby : ∀ i, i ∈ [7; 6; 5; 4; 3; 2; 1; 0] → Z.land (Z.shiftr a (8 * i)) 255 = Z.land (Z.shiftr b (8 * i)) 255).
    { unfold to_be_bytes in H. simpl in H. injection H as H7 H6 H5 H4 H3 H2 H1 H0. intros i Hi.
      repeat (apply elem_of_cons in Hi as [->|Hi]; [assumption|]). by apply elem_of_nil in Hi. }
    specialize (Hby (n / 8)). assert (Hq : 0 <= n / 8 < 8) by dlia.
    assert (Hi : n / 8 ∈ [7; 6; 5; 4; 3; 2; 1; 0]).
    { rewrite !elem_of_cons. lia. }
    specialize (Hby Hi). assert (Hbit : ∀ x, Z.testbit x n = Z.testbit (Z.land (Z.shiftr x (8 * (n / 8))) 255) (n mod 8)).
    { intros x. change 255 with (Z.ones 8). rewrite Z.land_spec, Z.shiftr_spec, Z.ones_spec_low by dlia.
      rewrite andb_true_r. f_equal. dlia. }
    by rewrite !Hbit, Hby.
  - rewrite !Z.bits_above_log2; try done; try lia.
    + destruct (decide (b = 0)) as [->|]; [simpl; lia|]. apply Z.log2_lt_pow2; [lia|].
      eapply Z.lt_le_trans; [apply Hb|]. apply Z.pow_le_mono_r; lia.
    + destruct (decide (a = 0)) as [->|]; [simpl; lia|]. apply Z.log2_lt_pow2; [lia|].
      eapply Z.lt_le_trans; [apply Ha|]. apply Z.pow_le_mono_r; lia.
Qed.

Section partition_keys.
(** The SHA-256 function of the [sha2] crate. *)
Context (sha256 : list Z → Sha256Digest).

(** [sha256_bounded] of [crates/fastmcp-core/src/crypto.rs] *)
Definition sha256_bounded (input : list Z) (max_input_bytes : Z) : outcome unit Sha256Digest :=
  if max_input_bytes <? zlen input then Err tt else Ok (sha256 input).

Definition limit_exceeded {A} (_ : A) : McpError := rate_limit_error RATE_LIMIT_EXCEEDED_MESSAGE.

Definition default_client_partition : outcome McpError Sha256Digest :=
  map_err limit_exceeded (sha256_bounded DEFAULT_CLIENT_ID MAX_CLIENT_ID_BYTES).

(** What [rate_limit_method_partition] hashes. *)
Definition partition_input (client_partition : Sha256Digest) (method : list Z) : list Z :=
  RATE_LIMIT_METHOD_PARTITION_DOMAIN ++ client_partition ++ to_be_bytes (zlen method) ++ method.

(** [method] is the bytes of the method name. *)
Definition rate_limit_method_partition (client_partition : Sha256Digest) (method : list Z)
    : outcome McpError Sha256Digest :=
  if MAX_RATE_LIMIT_METHOD_BYTES <? zlen method then Err (limit_exceeded tt)
  else
    let? method_len :=
      (if zlen method <=? u64_max then Ok (zlen method) else Err (limit_exceeded tt)) in
    let input := RATE_LIMIT_METHOD_PARTITION_DOMAIN ++ client_partition ++
                 to_be_bytes method_len ++ method in
    map_err limit_exceeded (sha256_bounded input MAX_RATE_LIMIT_PARTITION_INPUT_BYTES).

(** [client_partition_key] of both middlewares; the extractor is the caller's,
    here applied to the context and the request. *)
Definition client_partition_key (extracted : option (list Z)) : outcome McpError Sha256Digest :=
  match extracted with
  | Some id => map_err limit_exceeded (sha256_bounded (as_bytes id) MAX_CLIENT_ID_BYTES)
  | None => default_client_partition
  end.

Definition request_partition_key {Value} (extractor : option (JsonRpcRequest Value → option (list Z)))
    (request : JsonRpcRequest Value) : outcome McpError Sha256Digest :=
  let extracted := match extractor with Some f => f request | None => None end in
  let? client := client_partition_key extracted in
  rate_limit_method_partition client (as_bytes (method request)).
End partition_keys.

(** * The partition store *)

Record ClientPartition (L : Type) : Type := {
  limiter : L;
  last_seen : Z;
}.
Arguments Build_ClientPartition {L}.
Arguments limiter {L}.
Arguments last_seen {L}.

(** [BTreeSet] is a set; its iteration order is that of [recency_order]. *)
Record PartitionStore (L : Type) : Type := {
  entries : gmap Sha256Digest (ClientPartition L);
  recency : gset (Z * Sha256Digest);
}.
Arguments Build_PartitionStore {L}.
Arguments entries {L}.
Arguments recency {L}.

Definition PartitionStore_new {L} : PartitionStore L := {| entries := ∅; recency := ∅ |}.

(** The derived order on byte arrays. *)
Fixpoint bytes_leb (a b : list Z) : bool :=
  match a, b with
  | [], _ => true
  | _ :: _, [] => false
  | x :: a, y :: b => (x <? y) || ((x =? y) && bytes_leb a b)
  end.

Definition recency_leb (a b : Z * Sha256Digest) : bool :=
  (a.1 <? b.1) || ((a.1 =? b.1) && bytes_leb a.2 b.2).

Definition recency_le (a b : Z * Sha256Digest) : Prop := recency_leb a b = true.

#[export] Instance recency_le_dec : RelDecision recency_le.
Proof. intros a b. unfold recency_le. apply _. Defined.

(** The elements of the set in increasing order. *)
Definition recency_order (s : gset (Z * Sha256Digest)) : list (Z * Sha256Digest) :=
  merge_sort recency_le (elements s).

(** What the mutexes of a middleware guard, and how often the clock was read.
    The sliding-window middleware has no global limiter. *)
Record Shared (L : Type) : Type := {
  limiters : PartitionStore L;
  overflow_limiter : L;
  global_limiter : option L;
  ticks : nat;
}.
Arguments Build_Shared {L}.
Arguments limiters {L}.
Arguments overflow_limiter {L}.
Arguments global_limiter {L}.
Arguments ticks {L}.

Section store.
Context `{Clock} {L E : Type}.

Definition set_limiters (p : PartitionStore L) (s : Shared L) : Shared L :=
  {| limiters := p; overflow_limiter := overflow_limiter s;
     global_limiter := global_limiter s; ticks := ticks s |}.

Definition set_overflow (l : L) (s : Shared L) : Shared L :=
  {| limiters := limiters s; overflow_limiter := l;
     global_limiter := global_limiter s; ticks := ticks s |}.

Definition set_global (l : L) (s : Shared L) : Shared L :=
  {| limiters := limiters s; overflow_limiter := overflow_limiter s;
     global_limiter := Some l; ticks := ticks s |}.

(** [Instant::now()] *)
Definition now : M (Shared L) E Z := λ s,
  (Ok (instant (ticks s)),
   {| limiters := limiters s; overflow_limiter := overflow_limiter s;
      global_limiter := global_limiter s; ticks := S (ticks s) |}).

Definition debug_assert (b : bool) : M (Shared L) E unit := if b then ret tt else panic.

Definition modify_entries (f : gmap Sha256Digest (ClientPartition L) → gmap Sha256Digest (ClientPartition L))
    : M (Shared L) E unit :=
  modify (λ s, set_limiters {| entries := f (entries (limiters s)); recency := recency (limiters s) |} s).

(** [BTreeSet::remove] and [BTreeSet::insert], with whether the set changed. *)
Definition recency_remove (x : Z * Sha256Digest) : M (Shared L) E bool := λ s,
  (Ok (bool_decide (x ∈ recency (limiters s))),
   set_limiters {| entries := entries (limiters s); recency := recency (limiters s) ∖ {[x]} |} s).

Definition recency_insert (x : Z * Sha256Digest) : M (Shared L) E bool := λ s,
  (Ok (bool_decide (x ∉ recency (limiters s))),
   set_limiters {| entries := entries (limiters s); recency := {[x]} ∪ recency (limiters s) |} s).

(** An operation on [&L] changes the limiter behind its own mutex. *)
Definition use_existing_at {T} (key : Sha256Digest) (now : Z)
    (operation : L → M (Shared L) E (T * L)) : M (Shared L) E (option T) :=
  let! s := get in
  match entries (limiters s) !! key with
  | None => ret None
  | Some entry =>
      let old_last_seen := last_seen entry in
      let! r := operation (limiter entry) in
      let new_last_seen := Z.max now old_last_seen in
      modify_entries <[key := {| limiter := r.2; last_seen := new_last_seen |}]> ;!
      let! removed := recency_remove (old_last_seen, key) in
      let! inserted := recency_insert (new_last_seen, key) in
      debug_assert removed ;!
      debug_assert inserted ;!
      ret (Some r.1)
  end.

Definition use_existing {T} (key : Sha256Digest) (operation : L → M (Shared L) E (T * L))
    : M (Shared L) E (option T) :=
  let! t := now in use_existing_at key t operation.

Definition insert_at (key : Sha256Digest) (l : L) (last_seen : Z) : M (Shared L) E unit :=
  let! s := get in
  let previous := entries (limiters s) !! key in
  modify_entries <[key := {| limiter := l; last_seen := last_seen |}]> ;!
  debug_assert (bool_decide (previous = None)) ;!
  let! inserted := recency_insert (last_seen, key) in
  debug_assert inserted.

Definition insert (key : Sha256Digest) (l : L) : M (Shared L) E unit :=
  let! t := now in insert_at key l t.

(** The loop of [reclaim_oldest_if] over the recency index. *)
Fixpoint reclaim_candidate (t idle_ttl : Z) (is_reset : L → M (Shared L) E (bool * L))
    (index : list (Z * Sha256Digest)) : M (Shared L) E (option (Z * Sha256Digest)) :=
  match index with
  | [] => ret None
  | (last_seen, key) :: index =>
      match checked_duration_since t last_seen with
      | None => ret None
      | Some idle_for =>
          if idle_for <? idle_ttl then ret None
          else
            let! s := get in
            match entries (limiters s) !! key with
            | None => reclaim_candidate t idle_ttl is_reset index
            | Some entry =>
                let! r := is_reset (limiter entry) in
                modify_entries <[key := {| limiter := r.2; last_seen := RateLimit.last_seen entry |}]> ;!
                if r.1 : bool then ret (Some (last_seen, key))
                else reclaim_candidate t idle_ttl is_reset index
            end
      end
  end.

Definition reclaim_oldest_if (t idle_ttl : Z) (is_reset : L → M (Shared L) E (bool * L))
    : M (Shared L) E bool :=
  let! s := get in
  let! candidate := reclaim_candidate t idle_ttl is_reset (recency_order (recency (limiters s))) in
  match candidate with
  | None => ret false
  | Some (last_seen, key) =>
      let! removed_recency := recency_remove (last_seen, key) in
      let! s := get in
      let removed_entry := entries (limiters s) !! key in
      modify_entries (delete key) ;!
      debug_assert removed_recency ;!
      debug_assert (bool_decide (is_Some removed_entry)) ;!
      ret true
  end.

Definition PartitionStore_len (p : PartitionStore L) : Z := Z.of_nat (size (entries p)).
End store.
