(* ===== verification/PartitionStoreFacts.v ===== *)
(** The partition store keeps its recency index exact and never trips its
    assertions; what it does to the limiters is stated through an invariant of
    theirs. *)
From stdpp Require Import base list gmap strings sorting.
From Stdlib Require Import ZArith Lia.
From S2P Require Import Prelude Utf8 RequestId JsonRpc RateLimit.

(** The recency index lists exactly the partitions, each with its time. *)
Definition store_ok {L} (p : PartitionStore L) : Prop :=
  ∀ t k, (t, k) ∈ recency p ↔ ∃ e, entries p !! k = Some e ∧ last_seen e = t.

Definition set_ticks {L} (n : nat) (s : Shared L) : Shared L :=
  {| limiters := limiters s; overflow_limiter := overflow_limiter s;
     global_limiter := global_limiter s; ticks := n |}.

(** [s'] is [s] but for its partition store and a later clock. *)
Definition store_only {L} (s s' : Shared L) : Prop :=
  overflow_limiter s' = overflow_limiter s ∧ global_limiter s' = global_limiter s ∧
  (ticks s ≤ ticks s')%nat.

#[export] Instance store_only_preorder {L} : PreOrder (@store_only L).
Proof. split; [by intros s|]. intros a b c (? & ? & ?) (? & ? & ?). split_and!; [congruence..|lia]. Qed.

Definition store_dom {L} (s : Shared L) : gset Sha256Digest := dom (entries (limiters s)).

(** ** Order *)

Lemma bytes_leb_total a b : bytes_leb a b = true ∨ bytes_leb b a = true.
Proof.
  revert b. induction a as [|x a IH]; intros [|y b]; simpl; auto.
  destruct (Z.ltb_spec x y); [auto|]. destruct (Z.ltb_spec y x); [auto|].
  assert (x = y) as -> by lia. rewrite Z.eqb_refl. simpl. destruct (IH b) as [->| ->]; auto.
Qed.

Lemma bytes_leb_trans a b c : bytes_leb a b = true → bytes_leb b c = true → bytes_leb a c = true.
Proof.
  revert b c. induction a as [|x a IH]; intros [|y b] [|z c]; simpl; try done.
  rewrite !orb_true_iff, !andb_true_iff, !Z.ltb_lt, !Z.eqb_eq.
  intros [?|[-> ?]] [?|[-> ?]]; try (left; lia). right. eauto.
Qed.

#[export] Instance recency_le_total : Total recency_le.
Proof.
  intros [t a] [u b]. unfold recency_le, recency_leb. simpl.
  rewrite !orb_true_iff, !andb_true_iff, !Z.ltb_lt, !Z.eqb_eq. pose proof (bytes_leb_total a b).
  destruct (Z.lt_trichotomy t u) as [|[|]]; naive_solver.
Qed.

#[export] Instance recency_le_trans : Transitive recency_le.
Proof.
  intros [t a] [u b] [v c]. unfold recency_le, recency_leb. simpl.
  rewrite !orb_true_iff, !andb_true_iff, !Z.ltb_lt, !Z.eqb_eq. pose proof (bytes_leb_trans a b c).
  intros [?|[-> ?]] [?|[-> ?]]; try (left; lia). right. auto.
Qed.

Lemma elem_of_recency_order x s : x ∈ recency_order s ↔ x ∈ s.
Proof. unfold recency_order. rewrite merge_sort_Permutation. apply elem_of_elements. Qed.

Lemma recency_order_sorted s : StronglySorted (λ a b, a.1 <= b.1) (recency_order s).
Proof.
  assert (Hs : StronglySorted recency_le (recency_order s)) by apply (StronglySorted_merge_sort recency_le).
  induction Hs as [|x l Hl IH Hx]; constructor; [done|]. eapply Forall_impl; [exact Hx|].
  intros y. unfold recency_le, recency_leb. rewrite orb_true_iff, andb_true_iff, Z.ltb_lt, Z.eqb_eq. lia.
Qed.

Lemma recency_order_NoDup s : NoDup (recency_order s).
Proof. unfold recency_order. rewrite merge_sort_Permutation. apply NoDup_elements. Qed.

(** ** Updates of one entry *)

Lemma store_ok_new {L} : store_ok (@PartitionStore_new L).
Proof. intros t k. simpl. split; [set_solver|]. intros (e & He & _). by rewrite lookup_empty in He. Qed.

(** An entry moves in the index when its time changes. *)
Lemma store_ok_touch {L} (p : PartitionStore L) k e l t :
  store_ok p → entries p !! k = Some e →
  store_ok {| entries := <[k := {| limiter := l; last_seen := t |}]> (entries p);
              recency := {[(t, k)]} ∪ (recency p ∖ {[(last_seen e, k)]}) |}.
Proof.
  intros Hok He u k'. simpl. rewrite elem_of_union, elem_of_difference, !elem_of_singleton, (Hok u k').
  destruct (decide (k' = k)) as [->|Hne].
  - rewrite lookup_insert_eq. naive_solver.
  - rewrite lookup_insert_ne by done. naive_solver.
Qed.

Lemma store_ok_same_time {L} (p : PartitionStore L) k e l :
  store_ok p → entries p !! k = Some e →
  store_ok {| entries := <[k := {| limiter := l; last_seen := last_seen e |}]> (entries p);
              recency := recency p |}.
Proof.
  intros Hok He u k'. simpl. rewrite (Hok u k'). destruct (decide (k' = k)) as [->|Hne].
  - rewrite lookup_insert_eq. naive_solver.
  - by rewrite lookup_insert_ne.
Qed.

Lemma store_ok_insert {L} (p : PartitionStore L) k l t :
  store_ok p → entries p !! k = None →
  store_ok {| entries := <[k := {| limiter := l; last_seen := t |}]> (entries p);
              recency := {[(t, k)]} ∪ recency p |}.
Proof.
  intros Hok He u k'. simpl. rewrite elem_of_union, elem_of_singleton, (Hok u k').
  destruct (decide (k' = k)) as [->|Hne].
  - rewrite lookup_insert_eq. naive_solver.
  - rewrite lookup_insert_ne by done. naive_solver.
Qed.

Lemma store_ok_delete {L} (p : PartitionStore L) k e :
  store_ok p → entries p !! k = Some e →
  store_ok {| entries := delete k (entries p); recency := recency p ∖ {[(last_seen e, k)]} |}.
Proof.
  intros Hok He u k'. simpl. rewrite elem_of_difference, elem_of_singleton, (Hok u k').
  destruct (decide (k' = k)) as [->|Hne].
  - rewrite lookup_delete_eq. naive_solver.
  - rewrite lookup_delete_ne by done. naive_solver.
Qed.

Section operations.
Context `{Clock} {L E : Type}.
Implicit Types s : Shared L.

(** An invariant of the limiter of a key at a clock, and what it means that one
    was reset. *)
Context (P : Sha256Digest → L → nat → Prop) (R : Sha256Digest → nat → Prop).
Context (P_mono : ∀ k l n n', P k l n → (n ≤ n')%nat → P k l n').
Context (R_mono : ∀ k n n', R k n → (n ≤ n')%nat → R k n').

Definition limiters_ok s : Prop :=
  ∀ k e, entries (limiters s) !! k = Some e → P k (limiter e) (ticks s).

Lemma limiters_ok_ticks s n : limiters_ok s → (ticks s ≤ n)%nat → limiters_ok (set_ticks n s).
Proof. intros Hs Hn k e He. eapply P_mono; [by apply Hs|done]. Qed.

Lemma limiters_ok_insert s n k l t r :
  limiters_ok s → (ticks s ≤ n)%nat → P k l n →
  limiters_ok (set_ticks n (set_limiters {| entries :=
    <[k := {| limiter := l; last_seen := t |}]> (entries (limiters s)); recency := r |} s)).
Proof.
  intros Hs Hn Hl k' e. simpl. destruct (decide (k' = k)) as [->|Hne].
  - rewrite lookup_insert_eq. intros [= <-]. done.
  - rewrite lookup_insert_ne by done. intros He. eapply P_mono; [by apply Hs|done].
Qed.

(** [use_existing_at] on a partition that exists, where the operation only
    reads the clock. *)
Lemma use_existing_at_spec {T} key t (op : L → M (Shared L) E (T * L)) s e x l n :
  store_ok (limiters s) → entries (limiters s) !! key = Some e →
  op (limiter e) s = (Ok (x, l), set_ticks n s) →
  let t' := Z.max t (last_seen e) in
  use_existing_at key t op s =
    (Ok (Some x), set_ticks n (set_limiters
      {| entries := <[key := {| limiter := l; last_seen := t' |}]> (entries (limiters s));
         recency := {[(t', key)]} ∪ (recency (limiters s) ∖ {[(last_seen e, key)]}) |} s)).
Proof.
  intros Hok He Hop t'. unfold use_existing_at, bind at 1, get. rewrite He.
  rewrite (bind_ok _ _ _ _ _ Hop). unfold bind, modify_entries, modify, recency_remove, recency_insert.
  simpl. rewrite (bool_decide_true (_ ∈ recency _)) by (apply Hok; eauto).
  rewrite (bool_decide_true (_ ∉ _)); [done|].
  rewrite elem_of_difference, elem_of_singleton. intros [(e' & He' & Ht)%Hok Hne].
  rewrite He in He'. injection He' as <-. apply Hne. by f_equal.
Qed.

Lemma use_existing_at_None {T} key t (op : L → M (Shared L) E (T * L)) s :
  entries (limiters s) !! key = None → use_existing_at key t op s = (Ok None, s).
Proof. intros He. unfold use_existing_at, bind, get. by rewrite He. Qed.

Lemma insert_at_spec key l t s :
  store_ok (limiters s) → entries (limiters s) !! key = None →
  insert_at (E := E) key l t s =
    (Ok tt, set_limiters {| entries := <[key := {| limiter := l; last_seen := t |}]> (entries (limiters s));
                            recency := {[(t, key)]} ∪ recency (limiters s) |} s).
Proof.
  intros Hok He. unfold insert_at, bind, get, modify_entries, modify, recency_insert, debug_assert. simpl.
  rewrite He, (bool_decide_true (None = None)) by done. simpl.
  rewrite (bool_decide_true (_ ∉ _)); [done|]. rewrite (Hok t key). naive_solver.
Qed.

(** ** Reclamation *)

(** [N k n]: the limiter of [k] was found not reset at clock [n]. *)
Context (N : Sha256Digest → nat → Prop).

Definition refused (t idle_ttl : Z) (s s' : Shared L) (x : Z * Sha256Digest) : Prop :=
  x.1 + idle_ttl <= t → ∃ n, (ticks s ≤ n ≤ ticks s')%nat ∧ N x.2 n.

(** What a test of one limiter does. *)
Definition tests_reset (is_reset : L → M (Shared L) E (bool * L)) : Prop :=
  ∀ k l s, P k l (ticks s) →
    ∃ b l' n, is_reset l s = (Ok (b, l'), set_ticks n s) ∧ (ticks s ≤ n)%nat ∧ P k l' n ∧
      if b : bool then R k n else ∃ m, (ticks s ≤ m ≤ n)%nat ∧ N k m.

(** The partitions stay, their limiters keep the invariant. *)
Definition same_partitions s s' : Prop :=
  store_only s s' ∧ store_ok (limiters s') ∧ limiters_ok s' ∧
  recency (limiters s') = recency (limiters s) ∧ store_dom s' = store_dom s.

Lemma same_partitions_tested s k e l n :
  store_ok (limiters s) → limiters_ok s → entries (limiters s) !! k = Some e →
  (ticks s ≤ n)%nat → P k l n →
  same_partitions s (set_ticks n (set_limiters {| entries :=
    <[k := {| limiter := l; last_seen := last_seen e |}]> (entries (limiters s));
    recency := recency (limiters s) |} s)).
Proof.
  intros Hok Hl He Hn HP. split_and!; [by split_and!|by apply store_ok_same_time|
    by apply limiters_ok_insert|done|].
  unfold store_dom. simpl. apply set_eq. intros k'. rewrite dom_insert, elem_of_union, elem_of_singleton.
  split; [|by right]. intros [->|]; [|done]. by apply elem_of_dom_2 in He.
Qed.

Lemma same_partitions_trans a b c : same_partitions a b → same_partitions b c → same_partitions a c.
Proof. intros (? & _ & _ & ? & ?) (? & ? & ? & ? & ?). split_and!; [by etrans|done|done|congruence..]. Qed.

Lemma refused_mono t ttl s s1 s2 s' x :
  refused t ttl s1 s2 x → (ticks s ≤ ticks s1)%nat → (ticks s2 ≤ ticks s')%nat → refused t ttl s s' x.
Proof. intros Hr H1 H2 Hx. destruct (Hr Hx) as (n & Hn & HN). exists n. split; [lia|done]. Qed.

Lemma reclaim_candidate_spec t ttl is_reset index s :
  tests_reset is_reset → 0 <= ttl → store_ok (limiters s) → limiters_ok s →
  StronglySorted (λ a b, a.1 <= b.1) index → (∀ x, x ∈ index → x ∈ recency (limiters s)) →
  ∃ c s', reclaim_candidate t ttl is_reset index s = (Ok c, s') ∧ same_partitions s s' ∧
    match c with
    | Some x => x ∈ index ∧ x.1 + ttl <= t ∧ R x.2 (ticks s') ∧
        (∀ y, y ∈ index → y.1 < x.1 → refused t ttl s s' y)
    | None => ∀ y, y ∈ index → refused t ttl s s' y
    end.
Proof.
  intros Htest Httl. revert s. induction index as [|[u k] index IH]; intros s Hok Hl Hsort Hin; cbn [reclaim_candidate].
  { exists None, s. split_and!; try done. by intros y ?%elem_of_nil. }
  apply StronglySorted_inv in Hsort as [Hsort Hle].
  assert (Hskip : t < u + ttl → ∀ y, y ∈ (u, k) :: index → refused t ttl s s y).
  { intros Hu y Hy Hidle. exfalso. apply elem_of_cons in Hy as [->|Hy]; simpl in *; [lia|].
    rewrite Forall_forall in Hle. specialize (Hle y Hy). simpl in Hle. lia. }
  unfold checked_duration_since. destruct (Z.leb_spec u t); cycle 1.
  { exists None, s. split_and!; try done. apply Hskip. lia. }
  destruct (Z.ltb_spec (t - u) ttl); [exists None, s; split_and!; try done; apply Hskip; lia|].
  destruct (proj1 (Hok u k) (Hin _ ltac:(by left))) as (e & He & Hseen).
  unfold bind at 1, get. rewrite He.
  destruct (Htest k (limiter e) s (Hl k e He)) as (b & l & n & Hrun & Hn & HP & Hb).
  rewrite (bind_ok _ _ _ _ _ Hrun). unfold bind at 1, modify_entries, modify.
  pose proof (same_partitions_tested s k e l n Hok Hl He Hn HP) as Hsame.
  cbn [fst snd]. set (s1 := set_ticks n _) in Hsame. change (set_limiters _ _) with s1.
  destruct b.
  - exists (Some (u, k)), s1. split_and!; try done; [by left|simpl; lia|].
    intros y Hy Hlt. apply elem_of_cons in Hy as [->|Hy]; simpl in *; [lia|].
    rewrite Forall_forall in Hle. specialize (Hle y Hy). simpl in Hle. lia.
  - pose proof Hsame as (Honly & Hok1 & Hl1 & Hrec & _).
    destruct (IH s1 Hok1 Hl1 Hsort) as (c & s' & Hrun' & Hsame' & Hc).
    { intros x Hx. rewrite Hrec. apply Hin. by right. }
    pose proof Hsame' as ((_ & _ & Hticks) & _).
    assert (Hnow : refused t ttl s s' (u, k)).
    { intros _. destruct Hb as (m & Hm & HN). exists m. split; [simpl in Hticks; lia|done]. }
    exists c, s'. split; [done|]. split; [by eapply same_partitions_trans|].
    destruct c as [x|].
    + destruct Hc as (Hx & Hidle & HR & Hold). split_and!; try done; [by right|].
      intros y Hy Hlt. apply elem_of_cons in Hy as [->|Hy]; [done|].
      eapply refused_mono; [by apply Hold|done|done].
    + intros y Hy. apply elem_of_cons in Hy as [->|Hy]; [done|].
      eapply refused_mono; [by apply Hc|done|done].
Qed.

(** The whole reclamation: either it frees the least recently seen partition
    that is idle and reset, or none is. *)
Lemma reclaim_oldest_if_spec t ttl is_reset s :
  tests_reset is_reset → 0 <= ttl → store_ok (limiters s) → limiters_ok s →
  ∃ b s', reclaim_oldest_if t ttl is_reset s = (Ok b, s') ∧
    store_only s s' ∧ store_ok (limiters s') ∧ limiters_ok s' ∧
    if b : bool then
      ∃ u k, (u, k) ∈ recency (limiters s) ∧ u + ttl <= t ∧ R k (ticks s') ∧
        store_dom s' = store_dom s ∖ {[k]} ∧
        (∀ y, y ∈ recency (limiters s) → y.1 < u → refused t ttl s s' y)
    else store_dom s' = store_dom s ∧ ∀ y, y ∈ recency (limiters s) → refused t ttl s s' y.
Proof.
  intros Htest Httl Hok Hl. unfold reclaim_oldest_if, bind at 1, get.
  destruct (reclaim_candidate_spec t ttl is_reset (recency_order (recency (limiters s))) s)
    as (c & s1 & Hrun & (Honly & Hok1 & Hl1 & Hrec & Hdom) & Hc); try done.
  { apply recency_order_sorted. }
  { intros x. by rewrite elem_of_recency_order. }
  rewrite (bind_ok _ _ _ _ _ Hrun). destruct c as [[u k]|]; cycle 1.
  { exists false, s1. split_and!; try done. intros y Hy. apply Hc. by rewrite elem_of_recency_order. }
  destruct Hc as (Hx & Hidle & HR & Hold). rewrite elem_of_recency_order in Hx.
  assert (Hx1 : (u, k) ∈ recency (limiters s1)) by (by rewrite Hrec).
  destruct (proj1 (Hok1 u k) Hx1) as (e & He & <-).
  unfold bind, recency_remove, get, modify_entries, modify, debug_assert, ret. simpl.
  rewrite (bool_decide_true (_ ∈ _)), He, (bool_decide_true (is_Some _)) by (done || by eexists).
  eexists true, _. split; [done|]. simpl. split_and!.
  - by destruct Honly as (? & ? & ?).
  - by apply store_ok_delete.
  - intros k' e'. simpl. intros [_ He']%lookup_delete_Some. by apply Hl1.
  - exists (last_seen e), k. split_and!; try done.
    + unfold store_dom in *. simpl. by rewrite dom_delete_L, Hdom.
    + intros y Hy Hlt. apply Hold; [by rewrite elem_of_recency_order|done].
Qed.
End operations.

(** ** Partition keys *)

Lemma settled_sha256 sha256 input max : settled (sha256_bounded sha256 input max).
Proof. unfold sha256_bounded. by case_goal_if. Qed.

Lemma settled_partition_key {Value} sha256 extractor (request : JsonRpcRequest Value) :
  settled (request_partition_key sha256 extractor request).
Proof.
  unfold request_partition_key. apply settled_obind.
  - unfold client_partition_key, default_client_partition. case_match; apply settled_map_err, settled_sha256.
  - intros client _. unfold rate_limit_method_partition. case_goal_if; [done|].
    apply settled_obind; [by case_goal_if|]. intros len _. apply settled_map_err, settled_sha256.
Qed.
