(* ===== verification/SlidingWindow.v ===== *)
(** [SlidingWindowRateLimiter] and [SlidingWindowRateLimitingMiddleware] of
    [crates/fastmcp-server/src/rate_limiting.rs]: definitions. *)
From stdpp Require Import base list gmap strings sorting.
From Stdlib Require Import ZArith Lia.
From S2P Require Import Prelude Utf8 RequestId JsonRpc RateLimit.

Record SlidingWindowRateLimiter : Type := {
  max_requests : Z;
  window_seconds : Z;
  requests : list Z;
}.

Definition SlidingWindowRateLimiter_new (max_requests window_seconds : Z) : SlidingWindowRateLimiter :=
  {| max_requests := max_requests; window_seconds := window_seconds; requests := [] |}.

Definition set_requests (r : list Z) (l : SlidingWindowRateLimiter) : SlidingWindowRateLimiter :=
  {| max_requests := max_requests l; window_seconds := window_seconds l; requests := r |}.

(** [while let Some(&oldest) = requests.front() { if oldest < cutoff ... }] *)
Fixpoint pop_older (cutoff : Z) (r : list Z) : list Z :=
  match r with
  | [] => []
  | oldest :: rest => if oldest <? cutoff then pop_older cutoff rest else r
  end.

Section sliding_window.
Context `{Clock}.

(** The requests left in the window at [t]. *)
Definition prune (l : SlidingWindowRateLimiter) (t : Z) : list Z :=
  match instant_checked_sub t (from_secs (window_seconds l)) with
  | Some cutoff => pop_older cutoff (requests l)
  | None => requests l
  end.

Definition retry_after (l : SlidingWindowRateLimiter) (r : list Z) (t : Z) : Z :=
  match head r with
  | None => u64_max
  | Some oldest =>
      let elapsed := Z.max (t - oldest) 0 in
      let window := from_secs (window_seconds l) in
      if window <=? elapsed then 1
      else
        let millis := (window - elapsed) / 1000000 in
        saturating_add (if millis <=? u64_max then millis else u64_max) 1
  end.

(** [is_allowed_with_retry] from the reading of the clock on. *)
Definition is_allowed_with_retry_at (l : SlidingWindowRateLimiter) (t : Z)
    : RateLimitAdmission * SlidingWindowRateLimiter :=
  let r := prune l t in
  if zlen r <? max_requests l then (Allowed, set_requests (r ++ [t]) l)
  else (Rejected (retry_after l r t), set_requests r l).

Context {E : Type}.
Abbreviation W := (M (Shared SlidingWindowRateLimiter) E).

Definition is_allowed_with_retry (l : SlidingWindowRateLimiter)
    : W (RateLimitAdmission * SlidingWindowRateLimiter) :=
  if window_seconds l =? 0 then ret (Rejected u64_max, l)
  else let! t := now in ret (is_allowed_with_retry_at l t).

Definition current_requests (l : SlidingWindowRateLimiter) : W (Z * SlidingWindowRateLimiter) :=
  if window_seconds l =? 0 then ret (0, l)
  else
    let! t := now in
    let r := prune l t in
    ret (zlen r, set_requests r l).
End sliding_window.

(** * The middleware *)

Record SlidingWindowRateLimitingMiddleware (Value : Type) : Type := {
  mw_max_requests : Z;
  mw_window_seconds : Z;
  mw_get_client_id : option (JsonRpcRequest Value → option (list Z));
  mw_partition_idle_ttl : Z;
}.
Arguments mw_max_requests {Value}.
Arguments mw_window_seconds {Value}.
Arguments mw_get_client_id {Value}.
Arguments mw_partition_idle_ttl {Value}.

Section middleware.
Context `{Clock} {Value : Type} (sha256 : list Z → Sha256Digest).
Abbreviation W := (M (Shared SlidingWindowRateLimiter) McpError).

Definition Sliding_new (max_requests window_seconds : Z)
    : SlidingWindowRateLimitingMiddleware Value * PartitionStore SlidingWindowRateLimiter *
      SlidingWindowRateLimiter :=
  ({| mw_max_requests := max_requests; mw_window_seconds := window_seconds;
      mw_get_client_id := None; mw_partition_idle_ttl := CLIENT_PARTITION_IDLE_TTL |},
   PartitionStore_new, SlidingWindowRateLimiter_new max_requests window_seconds).

(** [window_minutes.checked_mul(60).unwrap_or(0)] *)
Definition Sliding_per_minute (max_requests window_minutes : Z) :=
  Sliding_new max_requests (if window_minutes * 60 <=? u64_max then window_minutes * 60 else 0).

Definition client_id_extractor (extractor : JsonRpcRequest Value → option (list Z))
    (mw : SlidingWindowRateLimitingMiddleware Value) : SlidingWindowRateLimitingMiddleware Value :=
  {| mw_max_requests := mw_max_requests mw; mw_window_seconds := mw_window_seconds mw;
     mw_get_client_id := Some extractor; mw_partition_idle_ttl := mw_partition_idle_ttl mw |}.

Context (mw : SlidingWindowRateLimitingMiddleware Value).

(** [|limiter| limiter.current_requests() == 0] *)
Definition window_is_reset (l : SlidingWindowRateLimiter) : W (bool * SlidingWindowRateLimiter) :=
  let! r := current_requests l in ret (r.1 =? 0, r.2).

(** [limiters.len() >= MAX && !limiters.reclaim_oldest_if(..)] *)
Definition is_full : W bool :=
  let! s := get in
  if MAX_NAMED_CLIENT_PARTITIONS <=? PartitionStore_len (limiters s) then
    let! t := now in
    let! reclaimed := reclaim_oldest_if t (mw_partition_idle_ttl mw) window_is_reset in
    ret (negb reclaimed)
  else ret false.

Definition is_request_allowed_with_retry (partition : Sha256Digest) : W RateLimitAdmission :=
  let! used := use_existing partition is_allowed_with_retry in
  match used with
  | Some admission => ret admission
  | None =>
      let! full := is_full in
      if full : bool then
        let! s := get in
        let! r := is_allowed_with_retry (overflow_limiter s) in
        modify (set_overflow r.2) ;!
        ret r.1
      else
        let fresh := SlidingWindowRateLimiter_new (mw_max_requests mw) (mw_window_seconds mw) in
        let! r := is_allowed_with_retry fresh in
        insert partition r.2 ;!
        ret r.1
  end.

(** [on_request], with what the two [ctx.ensure_live()] calls found. *)
Definition on_request (live_before live_after : bool) (request : JsonRpcRequest Value)
    : W (MiddlewareDecision Value) :=
  if negb live_before then fail request_cancelled
  else if (mw_max_requests mw =? 0) || (mw_window_seconds mw =? 0)
  then fail (rate_limit_error RATE_LIMIT_EXCEEDED_MESSAGE)
  else
    let! partition := lift (request_partition_key sha256 (mw_get_client_id mw) request) in
    let! admission := is_request_allowed_with_retry partition in
    if negb live_after then fail request_cancelled
    else match admission with
         | Allowed => ret Continue
         | Rejected retry_after_ms => fail (rate_limit_retry_error request retry_after_ms)
         end.
End middleware.
