(* ===== verification/SlidingWindowTheorems.v ===== *)
(** One sliding-window limiter against the log of what it admitted.

    One sliding-window limiter: it decides by the exact count over its history,
    and its retry hints suffice. *)
From stdpp Require Import base list gmap strings sorting.
From Stdlib Require Import ZArith Lia.
From S2P Require Import Prelude Utf8 RequestId JsonRpc RateLimit SlidingWindow.
(** * The specification: a log of admissions *)

(** The admissions at or after [t]. *)
Definition since (t : Z) (log : list Z) : list Z := filter (λ x, t <= x) log.

(** The admissions in a closed interval. *)
Definition during (a b : Z) (log : list Z) : list Z := filter (λ x, a <= x <= b) log.

(** No interval of the length of the window holds more than [max]. *)
Definition windows_ok (window max : Z) (log : list Z) : Prop :=
  ∀ a, zlen (during a (a + window) log) <= max.

(** The log of a limiter up to [t], and how its deque stands to it: it holds
    the admissions since some cutoff that is at or before the current one. *)
Record tracks `{Clock} (l : SlidingWindowRateLimiter) (log : list Z) (t : Z) : Prop := {
  tracks_since : ∃ u, u <= t ∧ requests l = since (u - from_secs (window_seconds l)) log;
  tracks_sorted : StronglySorted Z.le log;
  tracks_range : Forall (λ x, instant_min <= x <= t) log;
  tracks_windows : windows_ok (from_secs (window_seconds l)) (max_requests l) log;
}.

Lemma since_all t log : Forall (λ x, t <= x) log → since t log = log.
Proof. induction 1; [done|]. unfold since. rewrite filter_cons_True by done. by f_equal. Qed.

Lemma since_none t log : Forall (λ x, x < t) log → since t log = [].
Proof. induction 1; [done|]. unfold since. rewrite filter_cons_False by lia. done. Qed.

Lemma since_nil t log : zlen (since t log) = 0 → Forall (λ x, x < t) log.
Proof.
  induction log as [|x log IH]; [constructor|]. unfold since in *. rewrite filter_cons. case_decide.
  - rewrite zlen_cons. pose proof (zlen_nonneg (filter (λ x, t <= x) log)). lia.
  - intros Hz. constructor; [lia|by apply IH].
Qed.

Lemma since_since t u log : u <= t → since t (since u log) = since t log.
Proof.
  intros Hu. unfold since. rewrite list_filter_filter. apply list_filter_iff. intros x. lia.
Qed.

Lemma since_app t a b : since t (a ++ b) = since t a ++ since t b.
Proof. apply filter_app. Qed.

Lemma since_sorted t log : StronglySorted Z.le log → StronglySorted Z.le (since t log).
Proof.
  induction 1 as [|x log Hs IH Hx]; [constructor|]. unfold since in *. rewrite filter_cons.
  case_decide; [|done]. constructor; [done|]. apply Forall_forall. intros y [_ Hy]%list_elem_of_filter.
  rewrite Forall_forall in Hx. by apply Hx.
Qed.

Lemma pop_older_since t r : StronglySorted Z.le r → pop_older t r = since t r.
Proof.
  induction 1 as [|x r Hs IH Hx]; [done|]. cbn [pop_older]. destruct (Z.ltb_spec x t) as [Hlt|Hge].
  - unfold since. rewrite filter_cons_False by lia. exact IH.
  - rewrite since_all; [done|]. constructor; [done|]. eapply Forall_impl; [exact Hx|]. simpl. lia.
Qed.

Section tracking.
Context `{ClockLaws}.

Lemma tracks_prune l log t t' :
  tracks l log t → t <= t' → prune l t' = since (t' - from_secs (window_seconds l)) log.
Proof.
  intros [(u & Hu & Hr) Hs Hrange _] Ht. unfold prune, instant_checked_sub. rewrite Hr.
  set (w := from_secs _). destruct (Z.leb_spec instant_min (t' - w)).
  - rewrite pop_older_since by by apply since_sorted. apply since_since. lia.
  - rewrite !since_all; [done|..]; (eapply Forall_impl; [exact Hrange|]; simpl; lia).
Qed.

Lemma during_since a b u log : u <= a → zlen (during a b log) <= zlen (since u log).
Proof.
  unfold zlen. intros Hu. induction log as [|x log IH]; [done|]. unfold during, since in *. rewrite !filter_cons.
  repeat case_decide; simpl in *; lia.
Qed.

Lemma since_during a b log : Forall (λ x, x <= b) log → since a log = during a b log.
Proof.
  induction 1 as [|x log Hx Hlog IH]; [done|]. unfold since, during in *. rewrite !filter_cons, IH.
  repeat case_decide; done || lia.
Qed.

Lemma during_app a b l1 l2 : during a b (l1 ++ l2) = during a b l1 ++ during a b l2.
Proof. apply filter_app. Qed.

(** What a limiter does at a later time, and that it still tracks its log. *)
Lemma tracks_step l log t t' :
  tracks l log t → t <= t' → instant_min <= t' → 0 <= window_seconds l →
  let w := from_secs (window_seconds l) in
  let '(a, l') := is_allowed_with_retry_at l t' in
  is_allowed a = (zlen (since (t' - w) log) <? max_requests l) ∧
  max_requests l' = max_requests l ∧ window_seconds l' = window_seconds l ∧
  tracks l' (if is_allowed a then log ++ [t'] else log) t'.
Proof.
  intros Htr Ht Hmin Hw w. pose proof Htr as [_ Hs Hrange Hwin].
  unfold is_allowed_with_retry_at. rewrite (tracks_prune l log t t') by done. fold w.
  assert (Hw0 : 0 <= w) by (unfold w, from_secs, NANOS; lia).
  assert (Hrange' : Forall (λ x, instant_min <= x <= t') log)
    by (eapply Forall_impl; [exact Hrange|]; simpl; lia).
  destruct (Z.ltb_spec (zlen (since (t' - w) log)) (max_requests l)) as [Hlt|Hge]; simpl.
  - split_and!; try done. split; simpl; fold w.
    + exists t'. split; [done|]. rewrite since_app. f_equal. unfold since.
      by rewrite filter_cons_True by lia.
    + apply StronglySorted_app. split_and!; [|done|by repeat constructor].
      intros x y Hx ->%list_elem_of_singleton. rewrite Forall_forall in Hrange'. by apply Hrange'.
    + apply Forall_app. split; [done|]. constructor; [lia|done].
    + intros a. rewrite during_app, zlen_app. destruct (decide (a <= t' <= a + w)) as [Hin|Hout].
      * pose proof (during_since a (a + w) (t' - w) log ltac:(lia)).
        unfold during at 2. rewrite filter_cons_True, filter_nil, zlen_cons, zlen_nil by done. lia.
      * unfold during at 2. rewrite filter_cons_False, filter_nil, zlen_nil by done.
        specialize (Hwin a). fold w in Hwin. lia.
  - split_and!; try done. split; simpl; fold w; try done. exists t'. done.
Qed.

Lemma tracks_mono l log t t' : tracks l log t → t <= t' → tracks l log t'.
Proof.
  intros [(u & Hu & Hr) Hs Hrange Hwin] Ht. split; try done.
  - exists u. split; [lia|done].
  - eapply Forall_impl; [exact Hrange|]. simpl. lia.
Qed.

Lemma tracks_pruned l log t t' :
  tracks l log t → t <= t' → tracks (set_requests (prune l t') l) log t'.
Proof.
  intros Htr Ht. pose proof (tracks_prune l log t t' Htr Ht) as Hp.
  destruct (tracks_mono l log t t' Htr Ht) as [_ Hs Hrange Hwin]. split; try done.
  exists t'. split; [done|]. exact Hp.
Qed.

(** A new limiter may take over a log of which nothing is left in the window. *)
Lemma tracks_new max window log t :
  StronglySorted Z.le log → Forall (λ x, instant_min <= x <= t) log →
  windows_ok (from_secs window) max log → Forall (λ x, x < t - from_secs window) log →
  tracks (SlidingWindowRateLimiter_new max window) log t.
Proof.
  intros Hs Hr Hw Hold. split; try done. exists t. split; [done|]. by rewrite since_none.
Qed.

Lemma tracks_empty max window t : 0 <= max → tracks (SlidingWindowRateLimiter_new max window) [] t.
Proof.
  intros Hm. apply tracks_new; [constructor..| |constructor]. intros a. unfold during. by rewrite filter_nil.
Qed.

(** The deque never outgrows the limit. *)
Lemma tracks_length l log t t' :
  tracks l log t → t <= t' → 0 <= window_seconds l → zlen (prune l t') <= max_requests l.
Proof.
  intros Htr Ht Hw. rewrite (tracks_prune l log t t') by done. destruct Htr as [_ _ Hrange Hwin].
  etrans; [|apply (Hwin (t' - from_secs (window_seconds l)))].
  rewrite (since_during _ (t' - from_secs (window_seconds l) + from_secs (window_seconds l))); [done|].
  eapply Forall_impl; [exact Hrange|]. simpl. lia.
Qed.
End tracking.

(** The reference: every past admission is remembered, and a request is
    admitted when fewer than [max] of them are in the closed window before it.
    The result is the final log and the decisions. *)
Fixpoint reference_run (window max : Z) (log ts : list Z) : list Z * list bool :=
  match ts with
  | [] => (log, [])
  | t :: ts =>
      let ok := zlen (since (t - window) log) <? max in
      let '(log', oks) := reference_run window max (if ok then log ++ [t] else log) ts in
      (log', ok :: oks)
  end.

Section limiter.
Context `{ClockLaws}.

(** The limiter, asked at each of the times. *)
Fixpoint limiter_run (l : SlidingWindowRateLimiter) (ts : list Z) : list bool :=
  match ts with
  | [] => []
  | t :: ts => let '(a, l') := is_allowed_with_retry_at l t in is_allowed a :: limiter_run l' ts
  end.

Lemma limiter_run_tracks l log t ts :
  tracks l log t → 0 <= window_seconds l → StronglySorted Z.le (t :: ts) → instant_min <= t →
  limiter_run l ts = (reference_run (from_secs (window_seconds l)) (max_requests l) log ts).2 ∧
  windows_ok (from_secs (window_seconds l)) (max_requests l)
    (reference_run (from_secs (window_seconds l)) (max_requests l) log ts).1.
Proof.
  revert l log t. induction ts as [|t' ts IH]; intros l log t Htr Hw Hs Hmin.
  { split; [done|]. by destruct Htr. }
  apply StronglySorted_inv in Hs as [Hs Ht]. apply Forall_cons in Ht as [Ht _].
  cbn [limiter_run reference_run]. pose proof (tracks_step l log t t' Htr Ht ltac:(lia) Hw) as Hstep.
  destruct (is_allowed_with_retry_at l t') as [a l'] eqn:Hal. destruct Hstep as (Ha & Hm & Hws & Htr').
  rewrite <- Ha. destruct (IH l' _ t' Htr') as [H1 H2]; [lia|done|lia|].
  rewrite Hm, Hws in H1, H2. destruct (reference_run _ _ _ ts) as [log' oks]. simpl in *.
  split; [by rewrite H1|done].
Qed.

(** C37: A sliding-window limiter, which keeps only a pruned deque, decides every
    request of every nondecreasing sequence of times as the reference does that
    counts over the whole history; so no closed interval of the length of the
    window, wherever it starts, ever contains more than the maximum of admitted
    requests. *)
Theorem sliding_window_exact max window t ts :
  0 <= max → 0 <= window → StronglySorted Z.le (t :: ts) → instant_min <= t →
  let r := reference_run (from_secs window) max [] ts in
  limiter_run (SlidingWindowRateLimiter_new max window) ts = r.2 ∧
  windows_ok (from_secs window) max r.1.
Proof.
  intros Hm Hw Hs Hmin. apply (limiter_run_tracks (SlidingWindowRateLimiter_new max window) [] t); [by apply tracks_empty|done..].
Qed.

(** The retry hint suffices: when a limiter refuses, with a limit above zero
    and a window whose milliseconds fit 64 bits, then once the hinted
    milliseconds have passed without another admission it admits; and it refuses
    again at any time before the oldest admission leaves the window. *)
Theorem sliding_retry_suffices l log t t1 ms l' :
  tracks l log t → t <= t1 → instant_min <= t1 →
  0 < max_requests l → 0 <= window_seconds l → window_seconds l * 1000 < u64_max →
  is_allowed_with_retry_at l t1 = (Rejected ms, l') →
  (∀ t2, t1 + ms * 1000000 <= t2 → is_allowed (is_allowed_with_retry_at l' t2).1 = true) ∧
  (∀ t2 oldest, t1 <= t2 → head (requests l') = Some oldest →
     t2 <= oldest + from_secs (window_seconds l) →
     is_allowed (is_allowed_with_retry_at l' t2).1 = false).
Proof.
  intros Htr Ht Hmin Hmax Hw Hbig Hrej.
  pose proof (tracks_step l log t t1 Htr Ht Hmin Hw) as Hstep. rewrite Hrej in Hstep. simpl in Hstep.
  destruct Hstep as (Hcount & Hm & Hws & Htr').
  unfold is_allowed_with_retry_at in Hrej. cbv zeta in Hrej. pose proof (tracks_prune l log t t1 Htr Ht) as Hprune.
  set (w := from_secs (window_seconds l)) in *. set (r := prune l t1) in *.
  destruct (zlen r <? max_requests l) eqn:Hlen; [discriminate Hrej|]. injection Hrej as <- <-. zbool.
  pose proof (tracks_length l log t t1 Htr Ht Hw) as Hle. fold r in Hle.
  assert (Hrest : ∀ t2, t1 <= t2 → is_allowed (is_allowed_with_retry_at (set_requests r l) t2).1 =
    (zlen (since (t2 - w) r) <? max_requests l)).
  { intros t2 Ht2. pose proof (tracks_step _ _ _ t2 Htr' Ht2 ltac:(lia) ltac:(simpl; lia)) as H2.
    simpl in H2. fold w in H2. destruct (is_allowed_with_retry_at _ t2) as [a l2]. destruct H2 as [Ha _]. cbn [fst]. rewrite Ha.
    rewrite Hprune, since_since by lia. done. }
  assert (Hsorted : StronglySorted Z.le r) by (rewrite Hprune; apply since_sorted; by destruct Htr).
  assert (Hr : Forall (λ x, t1 - w <= x <= t1) r).
  { rewrite Hprune. apply Forall_forall. intros x [Hx1 Hx2]%list_elem_of_filter.
    destruct (tracks_mono l log t t1 Htr Ht) as [_ _ Hrange _]. rewrite Forall_forall in Hrange.
    specialize (Hrange x Hx2). lia. }
  destruct r as [|oldest rest] eqn:Er; [rewrite zlen_nil in *; lia|].
  apply Forall_cons in Hr as [Hold _]. split.
  - intros t2 Ht2. assert (0 < retry_after l (oldest :: rest) t1 ∧
      oldest + w < t1 + retry_after l (oldest :: rest) t1 * 1000000) as [Hpos Hgone].
    { unfold retry_after. cbn [head]. fold w. rewrite Z.max_l by lia.
      destruct (Z.leb_spec w (t1 - oldest)); [lia|].
      assert (0 <= (w - (t1 - oldest)) / 1000000 < u64_max) as Hms.
      { split; [apply Z.div_pos; lia|]. apply Z.div_lt_upper_bound; [lia|]. unfold w, from_secs, NANOS. lia. }
      rewrite (proj2 (Z.leb_le _ _)) by lia. unfold saturating_add. rewrite Z.min_l by (unfold usize_max, u64_max in *; lia).
      pose proof (Z.mul_succ_div_gt (w - (t1 - oldest)) 1000000 ltac:(lia)). lia. }
    rewrite Hrest by lia. apply Z.ltb_lt. unfold since. rewrite filter_cons_False by lia.
    pose proof (length_filter (λ x, t2 - w <= x) rest) as Hf. rewrite zlen_cons in Hle. unfold zlen in *. lia.
  - intros t2 o Ht2 [= <-] Hin. rewrite Hrest by done. apply Z.ltb_ge. rewrite since_all; [lia|].
    apply StronglySorted_inv in Hsorted as [_ Hge]. constructor; [lia|].
    eapply Forall_impl; [exact Hge|]. simpl. lia.
Qed.
End limiter.
