(* ===== verification/SlidingMiddleware.v ===== *)
(** The sliding-window middleware over all its partitions: eviction never
    resets an active limit. *)
From stdpp Require Import base list gmap strings sorting.
From Stdlib Require Import ZArith Lia.
From S2P Require Import Prelude Utf8 RequestId JsonRpc RateLimit PartitionStoreFacts.
From S2P Require Import SlidingWindow SlidingWindowTheorems.

(** * Histories *)

(** An admitted request: its partition, whether a dedicated limiter admitted it
    or the shared overflow one, and when. *)
Record Admission : Type := {
  adm_key : Sha256Digest;
  adm_dedicated : bool;
  adm_time : Z;
}.

Definition dedicated_log (k : Sha256Digest) (h : list Admission) : list Z :=
  adm_time <$> filter (λ a, adm_key a = k ∧ adm_dedicated a = true) h.

(** All admissions of a key, by its own limiters or by the shared one. *)
Definition key_log (k : Sha256Digest) (h : list Admission) : list Z := adm_time <$> filter (λ a, adm_key a = k) h.

Definition overflow_log (h : list Admission) : list Z :=
  adm_time <$> filter (λ a, adm_dedicated a = false) h.

(** What an answer adds to the history: the partition exists afterwards exactly
    when a dedicated limiter answered, and that limiter's last entry is the
    time of the admission. *)
Definition observe (key : Sha256Digest) (a : RateLimitAdmission) (s : Shared SlidingWindowRateLimiter)
    : list Admission :=
  if is_allowed a then
    let '(dedicated, l) := match entries (limiters s) !! key with
                           | Some e => (true, limiter e)
                           | None => (false, overflow_limiter s)
                           end in
    [{| adm_key := key; adm_dedicated := dedicated; adm_time := default 0 (last (requests l)) |}]
  else [].

Lemma dedicated_log_app k h1 h2 : dedicated_log k (h1 ++ h2) = dedicated_log k h1 ++ dedicated_log k h2.
Proof. unfold dedicated_log. by rewrite filter_app, fmap_app. Qed.

Lemma overflow_log_app h1 h2 : overflow_log (h1 ++ h2) = overflow_log h1 ++ overflow_log h2.
Proof. unfold overflow_log. by rewrite filter_app, fmap_app. Qed.

Section middleware.
Context `{ClockLaws} {Value : Type} (mw : SlidingWindowRateLimitingMiddleware Value).
Context (Hmax : 0 < mw_max_requests mw) (Hwin : 0 < mw_window_seconds mw).
Context (Httl : 0 <= mw_partition_idle_ttl mw).
Implicit Types (s : Shared SlidingWindowRateLimiter) (h : list Admission).

Definition window : Z := from_secs (mw_window_seconds mw).

Definition fresh_limiter : SlidingWindowRateLimiter :=
  SlidingWindowRateLimiter_new (mw_max_requests mw) (mw_window_seconds mw).

(** The states a middleware goes through, with the history of its admissions:
    it starts empty, time passes, and it answers requests. *)
Inductive served : Shared SlidingWindowRateLimiter → list Admission → Prop :=
| served_new n :
    served {| limiters := PartitionStore_new; overflow_limiter := fresh_limiter;
              global_limiter := None; ticks := n |} []
| served_wait s h n : served s h → (ticks s ≤ n)%nat → served (set_ticks n s) h
| served_request s h key a s' :
    served s h → is_request_allowed_with_retry mw key s = (Ok a, s') →
    served s' (h ++ observe key a s').

(** * The invariant *)

Definition configured (l : SlidingWindowRateLimiter) : Prop :=
  max_requests l = mw_max_requests mw ∧ window_seconds l = mw_window_seconds mw.

Definition follows (l : SlidingWindowRateLimiter) (log : list Z) (n : nat) : Prop :=
  configured l ∧ tracks l log (instant n).

(** Nothing of a log is left in the window. *)
Definition expired (log : list Z) (n : nat) : Prop := Forall (λ x, x < instant n - window) log.

(** A log without a limiter. *)
Record log_ok (log : list Z) (n : nat) : Prop := {
  log_sorted : StronglySorted Z.le log;
  log_range : Forall (λ x, instant_min <= x <= instant n) log;
  log_windows : windows_ok window (mw_max_requests mw) log;
}.

Record inv s h : Prop := {
  inv_store : store_ok (limiters s);
  inv_limiters : limiters_ok (λ k l n, follows l (dedicated_log k h) n) s;
  inv_absent k : k ∉ store_dom s → log_ok (dedicated_log k h) (ticks s) ∧ expired (dedicated_log k h) (ticks s);
  inv_overflow : follows (overflow_limiter s) (overflow_log h) (ticks s);
  inv_size : PartitionStore_len (limiters s) <= MAX_NAMED_CLIENT_PARTITIONS;
}.

Lemma instant_le n n' : (n ≤ n')%nat → instant n <= instant n'.
Proof. induction 1; [done|]. etrans; [done|]. apply instant_mono. Qed.

Lemma follows_mono l log n n' : follows l log n → (n ≤ n')%nat → follows l log n'.
Proof. intros [Hc Ht] Hn. split; [done|]. eapply tracks_mono; [done|]. by apply instant_le. Qed.

Lemma expired_mono log n n' : expired log n → (n ≤ n')%nat → expired log n'.
Proof. intros He Hn. apply instant_le in Hn. eapply Forall_impl; [exact He|]. simpl. lia. Qed.

Lemma log_ok_mono log n n' : log_ok log n → (n ≤ n')%nat → log_ok log n'.
Proof.
  intros [Hs Hr Hw] Hn. apply instant_le in Hn. split; try done.
  eapply Forall_impl; [exact Hr|]. simpl. lia.
Qed.

Lemma follows_log l log n : follows l log n → log_ok log n.
Proof. intros [[Hm Hs] [_ Hsort Hr Hw]]. split; try done. unfold window. by rewrite <- Hs, <- Hm. Qed.

(** ** The limiter's answers *)

Lemma follows_step l log n :
  follows l log n →
  let '(a, l') := is_allowed_with_retry_at l (instant n) in
  is_allowed a = (zlen (since (instant n - window) log) <? mw_max_requests mw) ∧
  follows l' (if is_allowed a then log ++ [instant n] else log) n ∧
  (is_allowed a = true → last (requests l') = Some (instant n)).
Proof.
  intros [[Hm Hs] Ht].
  pose proof (tracks_step l log (instant n) (instant n) Ht (Z.le_refl _) (instant_min_le n)
    ltac:(rewrite Hs; lia)) as Hstep.
  assert (Hlast : is_allowed (is_allowed_with_retry_at l (instant n)).1 = true →
    last (requests (is_allowed_with_retry_at l (instant n)).2) = Some (instant n)).
  { unfold is_allowed_with_retry_at. cbv zeta. case_goal_if; [|done]. intros _. simpl. by rewrite last_snoc. }
  destruct (is_allowed_with_retry_at l (instant n)) as [a l']. destruct Hstep as (Ha & Hm' & Hs' & Ht').
  rewrite Hm, Hs in *. by split_and!.
Qed.

Lemma run_is_allowed {E} l s :
  configured l →
  is_allowed_with_retry (E := E) l s =
    (Ok (is_allowed_with_retry_at l (instant (ticks s))), set_ticks (S (ticks s)) s).
Proof.
  intros [_ Hs]. unfold is_allowed_with_retry. rewrite Hs, (proj2 (Z.eqb_neq _ _)) by lia. done.
Qed.

(** ** Keys and logs *)

Lemma observe_entry key a s e t :
  entries (limiters s) !! key = Some e → (is_allowed a = true → last (requests (limiter e)) = Some t) →
  observe key a s = if is_allowed a then [{| adm_key := key; adm_dedicated := true; adm_time := t |}] else [].
Proof. intros He Hlast. unfold observe. rewrite He. destruct (is_allowed a); [|done]. by rewrite Hlast. Qed.

Lemma observe_overflow key a s t :
  entries (limiters s) !! key = None → (is_allowed a = true → last (requests (overflow_limiter s)) = Some t) →
  observe key a s = if is_allowed a then [{| adm_key := key; adm_dedicated := false; adm_time := t |}] else [].
Proof. intros He Hlast. unfold observe. rewrite He. destruct (is_allowed a); [|done]. by rewrite Hlast. Qed.

Lemma dedicated_log_one k key (b : bool) t :
  dedicated_log k (if b then [{| adm_key := key; adm_dedicated := true; adm_time := t |}] else []) =
  if b && bool_decide (key = k) then [t] else [].
Proof.
  destruct b; [|done]. unfold dedicated_log. rewrite filter_cons. simpl.
  case_decide as Hd; case_bool_decide; simpl; try done; naive_solver.
Qed.

Lemma dedicated_log_overflow k key (b : bool) t :
  dedicated_log k (if b then [{| adm_key := key; adm_dedicated := false; adm_time := t |}] else []) = [].
Proof.
  destruct b; [|done]. unfold dedicated_log. rewrite filter_cons. simpl. case_decide; naive_solver.
Qed.

Lemma overflow_log_one key (b : bool) t :
  overflow_log (if b then [{| adm_key := key; adm_dedicated := false; adm_time := t |}] else []) =
  if b then [t] else [].
Proof. by destruct b. Qed.

Lemma overflow_log_dedicated key (b : bool) t :
  overflow_log (if b then [{| adm_key := key; adm_dedicated := true; adm_time := t |}] else []) = [].
Proof. by destruct b. Qed.

(** ** Reclamation *)

Lemma window_is_reset_spec h :
  tests_reset (E := McpError) (λ k l n, follows l (dedicated_log k h) n) (λ k n, expired (dedicated_log k h) n)
    (λ k n, ¬ expired (dedicated_log k h) n) window_is_reset.
Proof.
  intros k l s [[Hm Hs] Ht]. unfold window_is_reset, current_requests.
  rewrite Hs, (proj2 (Z.eqb_neq _ _)) by lia. unfold bind, now, ret. simpl.
  pose proof (tracks_prune l _ _ (instant (ticks s)) Ht (Z.le_refl _)) as Hp. rewrite Hs in Hp.
  fold window in Hp. eexists _, _, (S (ticks s)). split; [done|]. split; [lia|].
  assert (Hf : follows (set_requests (prune l (instant (ticks s))) l) (dedicated_log k h) (S (ticks s))).
  { apply (follows_mono _ _ (ticks s)); [|lia]. split; [done|]. by apply (tracks_pruned l _ (instant (ticks s))). }
  split; [done|]. rewrite Hp. destruct (Z.eqb_spec (zlen (since (instant (ticks s) - window) (dedicated_log k h))) 0) as [Hz|Hnz].
  - apply (expired_mono _ (ticks s)); [|lia]. by apply since_nil.
  - exists (ticks s). split; [lia|]. intros He. apply Hnz. by rewrite since_none.
Qed.

(** ** Each way to answer *)

Definition event (key : Sha256Digest) (dedicated b : bool) (t : Z) : list Admission :=
  if b then [{| adm_key := key; adm_dedicated := dedicated; adm_time := t |}] else [].

Lemma inv_wait s h n : inv s h → (ticks s ≤ n)%nat → inv (set_ticks n s) h.
Proof.
  intros [Hok Hl Ha Ho Hsz] Hn. split; try done.
  - intros k e He. eapply follows_mono; [by apply Hl|done].
  - intros k Hk. destruct (Ha k Hk). split; [by eapply log_ok_mono|by eapply expired_mono].
  - by eapply follows_mono.
Qed.

(** A dedicated limiter answered. *)
Lemma inv_touch s h key l t r n b x :
  inv s h → (ticks s ≤ n)%nat →
  let p := {| entries := <[key := {| limiter := l; last_seen := t |}]> (entries (limiters s)); recency := r |} in
  store_ok p → PartitionStore_len p <= MAX_NAMED_CLIENT_PARTITIONS →
  follows l (if b : bool then dedicated_log key h ++ [x] else dedicated_log key h) n →
  inv (set_ticks n (set_limiters p s)) (h ++ event key true b x).
Proof.
  intros Hinv Hn p Hp Hsz Hl. pose proof (inv_wait s h n Hinv Hn) as [_ Hls Ha Ho _].
  assert (Hlog : ∀ k, dedicated_log k (h ++ event key true b x) =
    if bool_decide (key = k) && b then dedicated_log k h ++ [x] else dedicated_log k h).
  { intros k. rewrite dedicated_log_app. unfold event. rewrite dedicated_log_one, andb_comm.
    case_goal_if; [done|]. by rewrite app_nil_r. }
  split; try done.
  - intros k e. simpl. rewrite Hlog. destruct (decide (key = k)) as [<-|Hne].
    + rewrite lookup_insert_eq, bool_decide_true by done. intros [= <-]. simpl. by destruct b.
    + rewrite lookup_insert_ne, bool_decide_false by done. apply Hls.
  - intros k Hk. unfold store_dom in Hk. simpl in Hk. rewrite dom_insert in Hk.
    rewrite Hlog, bool_decide_false by set_solver. apply Ha. set_solver.
  - simpl. rewrite overflow_log_app. unfold event. rewrite overflow_log_dedicated, app_nil_r. exact Ho.
Qed.

(** The overflow limiter answered. *)
Lemma inv_overflowed s h key l n b x :
  inv s h → (ticks s ≤ n)%nat →
  follows l (if b : bool then overflow_log h ++ [x] else overflow_log h) n →
  inv (set_overflow l (set_ticks n s)) (h ++ event key false b x).
Proof.
  intros Hinv Hn Hl. pose proof (inv_wait s h n Hinv Hn) as [Hok Hls Ha Ho Hsz].
  assert (Hlog : ∀ k, dedicated_log k (h ++ event key false b x) = dedicated_log k h).
  { intros k. rewrite dedicated_log_app. unfold event. by rewrite dedicated_log_overflow, app_nil_r. }
  split; try done.
  - intros k e He. rewrite Hlog. by apply Hls.
  - intros k Hk. rewrite Hlog. by apply Ha.
  - simpl. rewrite overflow_log_app. unfold event. rewrite overflow_log_one.
    destruct b; [done|]. by rewrite app_nil_r.
Qed.

(** What an answer means. *)
Record answers s h (key : Sha256Digest) a s' : Prop := {
  ans_run : is_request_allowed_with_retry mw key s = (Ok a, s');
  ans_inv : inv s' (h ++ observe key a s');
  ans_decision : ∃ n, (ticks s ≤ n < ticks s')%nat ∧
    is_allowed a = (zlen (since (instant n - window)
      (if decide (key ∈ store_dom s') then dedicated_log key h else overflow_log h)) <? mw_max_requests mw);
}.

Lemma answers_existing s h key e :
  inv s h → entries (limiters s) !! key = Some e → ∃ a s', answers s h key a s'.
Proof.
  intros Hinv He. pose proof Hinv as [Hok Hl Ha Ho Hsz].
  set (n := ticks s). pose proof (follows_mono _ _ _ (S n) (Hl key e He) ltac:(lia)) as Hf.
  pose proof (follows_step _ _ _ Hf) as Hstep.
  destruct (is_allowed_with_retry_at (limiter e) (instant (S n))) as [a l] eqn:Hal.
  destruct Hstep as (Hdec & Hf' & Hlast).
  pose proof (use_existing_at_spec (E := McpError) key (instant n) is_allowed_with_retry (set_ticks (S n) s) e a l
    (S (S n)) Hok He) as Huse.
  rewrite run_is_allowed in Huse by apply Hf. simpl in Huse. rewrite Hal in Huse. specialize (Huse eq_refl).
  eexists a, _. split.
  - unfold is_request_allowed_with_retry, use_existing, bind at 1, bind at 1, now. fold n.
    change (Build_Shared _ _ _ _) with (set_ticks (S n) s). rewrite Huse. reflexivity.
  - erewrite observe_entry; [|simpl; apply lookup_insert_eq|exact Hlast].
    apply (inv_touch (set_ticks (S n) s)); simpl; [by apply inv_wait; [|subst n; lia]|lia| | |].
    + by apply store_ok_touch.
    + unfold PartitionStore_len in *. simpl. rewrite map_size_insert, He. done.
    + eapply follows_mono; [exact Hf'|lia].
  - exists (S n). simpl. split; [lia|]. rewrite decide_True; [done|].
    unfold store_dom. simpl. set_solver.
Qed.

Lemma is_full_spec s h key :
  inv s h → key ∉ store_dom s →
  ∃ full s1, is_full mw s = (Ok full, s1) ∧ inv s1 h ∧ key ∉ store_dom s1 ∧ (ticks s ≤ ticks s1)%nat ∧
    (full = false → PartitionStore_len (limiters s1) < MAX_NAMED_CLIENT_PARTITIONS).
Proof.
  intros Hinv Hkey. unfold is_full, bind at 1, get.
  destruct (Z.leb_spec MAX_NAMED_CLIENT_PARTITIONS (PartitionStore_len (limiters s))) as [Hfull|]; cycle 1.
  { exists false, s. done. }
  unfold bind at 1, now. change (Build_Shared _ _ _ _) with (set_ticks (S (ticks s)) s).
  pose proof (inv_wait s h (S (ticks s)) Hinv ltac:(lia)) as Hinv1. pose proof Hinv1 as [Hok Hl Ha Ho Hsz].
  assert (Hmono0 : ∀ k l n n', follows l (dedicated_log k h) n → (n ≤ n')%nat → follows l (dedicated_log k h) n')
    by (intros; by eapply follows_mono).
  destruct (reclaim_oldest_if_spec (E := McpError) (λ k l n, follows l (dedicated_log k h) n)
    (λ k n, expired (dedicated_log k h) n) Hmono0 (λ k n, ¬ expired (dedicated_log k h) n) (instant (ticks s)) (mw_partition_idle_ttl mw) window_is_reset (set_ticks (S (ticks s)) s)
    (window_is_reset_spec h) Httl Hok Hl) as (b & s' & Hrun & (Hov & _ & Hn) & Hok' & Hl' & Hb).
  rewrite (bind_ok _ _ _ _ _ Hrun). exists (negb b), s'. split; [done|].
  assert (Ho' : follows (overflow_limiter s') (overflow_log h) (ticks s')) by (rewrite Hov; by eapply follows_mono).
  assert (Hmono : ∀ k, k ∉ store_dom s →
    log_ok (dedicated_log k h) (ticks s') ∧ expired (dedicated_log k h) (ticks s')).
  { intros k Hk. destruct (Ha k Hk). split; [by eapply log_ok_mono|by eapply expired_mono]. }
  assert (Hlen : ∀ s, PartitionStore_len (limiters s) = Z.of_nat (size (store_dom s))).
  { intros s0. unfold PartitionStore_len, store_dom. by rewrite size_dom. }
  simpl in Hn. destruct b; cbn [negb].
  - destruct Hb as (u & k & Hin & _ & HR & Hdom & _).
    assert (Hk : k ∈ store_dom s).
    { apply Hok in Hin as (e & He & _). by apply elem_of_dom_2 in He. }
    assert (Hsmaller : (size (store_dom s') < size (store_dom s))%nat)
      by (rewrite Hdom; apply subset_size; set_solver).
    change (PartitionStore_len (limiters s) <= MAX_NAMED_CLIENT_PARTITIONS) in Hsz.
    split_and!; [|rewrite Hdom; set_solver|lia|intros _; rewrite Hlen in *; lia].
    split; [done|done| |done|rewrite Hlen in *; lia].
    intros k' Hk'. rewrite Hdom in Hk'. destruct (decide (k' = k)) as [->|Hne]; [|apply Hmono; set_solver].
    split; [|done]. unfold store_dom in Hk. apply elem_of_dom in Hk as [e He]. eapply log_ok_mono; [|exact Hn].
    by apply (follows_log (limiter e)), (Hl k e).
  - destruct Hb as [Hdom _]. split_and!; [|by rewrite Hdom|lia|done].
    split; [done|done|by rewrite Hdom|done|]. rewrite Hlen, Hdom, <- Hlen. done.
Qed.

Lemma answers_absent s h key :
  inv s h → key ∉ store_dom s → ∃ a s', answers s h key a s'.
Proof.
  intros Hinv Hkey. assert (He : entries (limiters s) !! key = None) by (by apply not_elem_of_dom).
  destruct (is_full_spec (set_ticks (S (ticks s)) s) h key) as (full & s1 & Hrun & Hinv1 & Hkey1 & Hn & Hroom);
    [apply inv_wait; [done|lia]|done|].
  assert (He1 : entries (limiters s1) !! key = None) by (by apply not_elem_of_dom).
  assert (Hgo : is_request_allowed_with_retry mw key s =
    (if full then
       let! s := get in
       let! r := is_allowed_with_retry (overflow_limiter s) in
       modify (set_overflow r.2) ;! ret r.1
     else
       let! r := is_allowed_with_retry fresh_limiter in
       insert key r.2 ;! ret r.1) s1).
  { unfold is_request_allowed_with_retry, use_existing, bind at 1, bind at 1, now.
    change (Build_Shared _ _ _ _) with (set_ticks (S (ticks s)) s).
    rewrite use_existing_at_None by done. by rewrite (bind_ok _ _ _ _ _ Hrun). }
  simpl in Hn. pose proof Hinv1 as [Hok1 Hl1 Ha1 Ho1 Hsz1]. destruct full.
  - pose proof (follows_step _ _ _ Ho1) as Hstep. unfold bind at 1, get in Hgo.
    unfold bind at 1 in Hgo. rewrite run_is_allowed in Hgo by apply Ho1.
    destruct (is_allowed_with_retry_at (overflow_limiter s1) (instant (ticks s1))) as [a l].
    destruct Hstep as (Hdec & Hf & Hlast). unfold bind, modify, ret in Hgo. cbn [fst snd] in Hgo.
    eexists a, _. split; [exact Hgo| |].
    + erewrite observe_overflow; [|done|exact Hlast].
      apply inv_overflowed; [done|lia|]. eapply follows_mono; [exact Hf|lia].
    + exists (ticks s1). simpl. split; [lia|]. by rewrite decide_False.
  - destruct (Ha1 key Hkey1) as [[Hs Hr Hw] Hexp].
    assert (Hf0 : follows fresh_limiter (dedicated_log key h) (ticks s1))
      by (split; [done|by apply tracks_new]).
    pose proof (follows_step _ _ _ Hf0) as Hstep.
    unfold bind at 1 in Hgo. rewrite run_is_allowed in Hgo by done.
    destruct (is_allowed_with_retry_at fresh_limiter (instant (ticks s1))) as [a l].
    destruct Hstep as (Hdec & Hf & Hlast). cbn [fst snd] in Hgo.
    unfold insert, bind at 1, bind at 1, now in Hgo.
    change (Build_Shared _ _ _ _) with (set_ticks (S (S (ticks s1))) s1) in Hgo.
    rewrite insert_at_spec in Hgo by done. unfold ret in Hgo.
    eexists a, _. split; [exact Hgo| |].
    + erewrite observe_entry; [|simpl; apply lookup_insert_eq|exact Hlast].
      apply (inv_touch s1 h key l _ _ (S (S (ticks s1)))); [done|lia|by apply store_ok_insert| |].
      * specialize (Hroom eq_refl). unfold PartitionStore_len in *. simpl. rewrite map_size_insert, He1. lia.
      * eapply follows_mono; [exact Hf|lia].
    + exists (ticks s1). simpl. split; [lia|]. rewrite decide_True; [done|].
      unfold store_dom. simpl. set_solver.
Qed.

Lemma answers_total s h key : inv s h → ∃ a s', answers s h key a s'.
Proof.
  intros Hinv. destruct (entries (limiters s) !! key) as [e|] eqn:He.
  - by eapply answers_existing.
  - apply answers_absent; [done|]. by apply not_elem_of_dom.
Qed.

Lemma served_inv s h : served s h → inv s h.
Proof.
  induction 1 as [n|s h n Hs IH Hn|s h key a s' Hs IH Hrun].
  - split; simpl; [apply store_ok_new| | | |done].
    + intros k e. simpl. by rewrite lookup_empty.
    + intros k _. split; [|constructor]. split; [constructor..|].
      intros t. change (0 <= mw_max_requests mw). lia.
    + split; [done|]. apply tracks_empty. lia.
  - by apply inv_wait.
  - destruct (answers_total s h key IH) as (a' & s1 & [Hrun' Hinv _]). rewrite Hrun in Hrun'.
    by injection Hrun' as <- <-.
Qed.

(** * Theorems *)

(** An admission of a key is one of its dedicated limiters or of the shared one. *)
Lemma key_log_split k h t u :
  zlen (during t u (key_log k h)) <= zlen (during t u (dedicated_log k h)) + zlen (during t u (overflow_log h)).
Proof.
  unfold key_log, dedicated_log, overflow_log, during.
  induction h as [|a h IH]; [done|]. destruct a as [key ded time].
  rewrite !filter_cons. cbn [adm_key adm_dedicated].
  destruct ded; repeat case_decide; try tauto; cbn [fmap list_fmap adm_time]; rewrite ?filter_cons;
    repeat case_decide; try tauto; unfold fmap in *; rewrite ?zlen_cons; lia.
Qed.

(** C10: However requests of whatever keys arrive, with partitions evicted and
    created again, no interval of the length of the window contains more than
    the maximum of requests that a key's dedicated limiters admitted, nor more
    than the maximum that the overflow limiter admitted over all keys.  A key that
    is served by the overflow limiter and gets a partition afterwards can exceed
    the maximum, but never twice the maximum, in one such interval.  There are
    never more than 4095 partitions, and the recency index lists exactly them. *)
Theorem sliding_partitions_bounded s h :
  served s h →
  (∀ k, windows_ok window (mw_max_requests mw) (dedicated_log k h)) ∧
  (∀ k, windows_ok window (2 * mw_max_requests mw) (key_log k h)) ∧
  windows_ok window (mw_max_requests mw) (overflow_log h) ∧
  Z.of_nat (size (entries (limiters s))) <= 4095 ∧ store_ok (limiters s).
Proof.
  intros [Hok Hl Ha Ho Hsz]%served_inv. apply follows_log in Ho as [_ _ Ho].
  assert (Hded : ∀ k, windows_ok window (mw_max_requests mw) (dedicated_log k h)).
  { intros k. destruct (entries (limiters s) !! k) as [e|] eqn:He.
    - by apply Hl, follows_log in He as [_ _ Hw].
    - destruct (Ha k) as [[_ _ Hw] _]; [by apply not_elem_of_dom|done]. }
  split_and!; [done| |done..]. intros k t. pose proof (key_log_split k h t (t + window)).
  specialize (Hded k t). specialize (Ho t). lia.
Qed.

(** The middleware always answers, never tripping an assertion, and by the
    exact count: at a reading of the clock made during the call, a request is
    admitted exactly when fewer than the maximum of its partition's admissions
    are in the window; the admissions that count are those of the key if it has
    a partition, and those of the overflow limiter otherwise. *)
Theorem sliding_middleware_decides s h key :
  served s h →
  ∃ a s' n, is_request_allowed_with_retry mw key s = (Ok a, s') ∧ (ticks s ≤ n < ticks s')%nat ∧
    is_allowed a = (zlen (since (instant n - window)
      (if decide (key ∈ store_dom s') then dedicated_log key h else overflow_log h)) <? mw_max_requests mw).
Proof.
  intros Hs%served_inv. destruct (answers_total s h key Hs) as (a & s' & [Hrun _ (n & Hn & Hd)]). eauto 10.
Qed.

(** At capacity, reclamation frees one partition: one that is idle for the
    configured time and of whose admissions none is left in the window, and of
    those the least recently seen; every idle partition seen before it still had
    an admission in the window when it was looked at.  If it frees none, that
    was so of every idle partition, and the partitions are unchanged. *)
Theorem reclaim_frees_reset_lru s h t :
  served s h →
  ∃ b s', reclaim_oldest_if (E := McpError) t (mw_partition_idle_ttl mw) window_is_reset s = (Ok b, s') ∧
    let busy x := x.1 + mw_partition_idle_ttl mw <= t →
      ∃ n, (ticks s ≤ n ≤ ticks s')%nat ∧ ¬ expired (dedicated_log x.2 h) n in
    if b : bool then
      ∃ u k, (u, k) ∈ recency (limiters s) ∧ u + mw_partition_idle_ttl mw <= t ∧
        expired (dedicated_log k h) (ticks s') ∧ store_dom s' = store_dom s ∖ {[k]} ∧
        (∀ y, y ∈ recency (limiters s) → y.1 < u → busy y)
    else store_dom s' = store_dom s ∧ ∀ y, y ∈ recency (limiters s) → busy y.
Proof.
  intros [Hok Hl Ha Ho Hsz]%served_inv.
  destruct (reclaim_oldest_if_spec (E := McpError) (λ k l n, follows l (dedicated_log k h) n)
    (λ k n, expired (dedicated_log k h) n) (λ k l n n', follows_mono l _ n n')
    (λ k n, ¬ expired (dedicated_log k h) n) t (mw_partition_idle_ttl mw) window_is_reset s
    (window_is_reset_spec h) Httl Hok Hl) as (b & s' & Hrun & _ & _ & _ & Hb).
  by exists b, s'.
Qed.

(** [on_request] answers every request without a panic: a cancelled context
    or an inadmissible key is refused before any state changes; otherwise the
    partition of the key decides, a refusal carries the method, the identifier
    and the retry hint under code -32005, and a cancellation noticed afterwards
    still leaves the admission counted. *)
Theorem sliding_on_request_correct sha256 live_before live_after request s h :
  served s h →
  let '(o, s') := on_request sha256 mw live_before live_after request s in
  if live_before : bool then
    match request_partition_key sha256 (mw_get_client_id mw) request with
    | Ok key => ∃ a,
        is_request_allowed_with_retry mw key s = (Ok a, s') ∧ served s' (h ++ observe key a s') ∧
        o = if live_after : bool then
              match a with Allowed => Ok Continue | Rejected ms => Err (rate_limit_retry_error request ms) end
            else Err request_cancelled
    | Err e => o = Err e ∧ s' = s
    | _ => False
    end
  else o = Err request_cancelled ∧ s' = s.
Proof.
  intros Hs. pose proof (served_inv s h Hs) as Hinv. unfold on_request. destruct live_before; [|done]. simpl.
  rewrite !(proj2 (Z.eqb_neq _ _)) by lia. simpl. unfold bind at 1, lift.
  pose proof (settled_partition_key sha256 (mw_get_client_id mw) request) as Hkey.
  destruct (request_partition_key sha256 (mw_get_client_id mw) request) as [key|e| |]; try done.
  destruct (answers_total s h key Hinv) as (a & s' & [Hrun _ _]).
  rewrite (bind_ok _ _ _ _ _ Hrun). pose proof (served_request s h key a s' Hs Hrun) as Hs'.
  destruct live_after; [|by exists a]. destruct a; by eexists.
Qed.
End middleware.

(** * Partition keys *)

Lemma length_to_be_bytes n : length (to_be_bytes n) = 8%nat.
Proof. done. Qed.

(** A request's partition is the digest of its client's digest and its
    method and of nothing else, so the request identifier cannot change it; the
    hashed text determines both, as digests have a fixed length; and only a
    method above 512 bytes is refused. *)
Theorem partition_key_correct sha256 client (m : list Z) :
  zlen client = SHA256_DIGEST_BYTES →
  rate_limit_method_partition sha256 client m =
    (if 512 <? zlen m then Err (rate_limit_error RATE_LIMIT_EXCEEDED_MESSAGE)
     else Ok (sha256 (partition_input client m))) ∧
  ∀ client' m', zlen client' = SHA256_DIGEST_BYTES →
    partition_input client m = partition_input client' m' → client = client' ∧ m = m'.
Proof.
  intros Hc. split.
  - unfold rate_limit_method_partition. change MAX_RATE_LIMIT_METHOD_BYTES with 512.
    destruct (Z.ltb_spec 512 (zlen m)); [done|]. rewrite (proj2 (Z.leb_le (zlen m) u64_max)) by (unfold u64_max; lia).
    cbn [obind]. unfold sha256_bounded. rewrite (proj2 (Z.ltb_ge _ _)); [done|].
    rewrite !zlen_app, Hc. unfold MAX_RATE_LIMIT_PARTITION_INPUT_BYTES, MAX_RATE_LIMIT_METHOD_BYTES.
    change (zlen (to_be_bytes (zlen m))) with 8. lia.
  - intros client' m' Hc' Heq. unfold partition_input in Heq. apply app_inv_head in Heq.
    apply app_inj_1 in Heq as [<- Heq]; [|unfold zlen in *; lia]. split; [done|].
    by apply app_inj_1 in Heq as [_ Heq].
Qed.
