(* ===== verification/Float64.v ===== *)
(** [f64]: the binary64 operations the rate limiter uses.  Every finite value is
    an integer multiple of [2^-1074], so a finite [f64] is that integer, and an
    operation rounds its exact result to the nearest representable one, ties to
    even, overflowing to infinity.  The sign of zero is not represented: no
    comparison sees it.

    Rounding errors of the operations the token bucket uses. *)
From stdpp Require Import base list.
From Stdlib Require Import ZArith Lia.
From S2P Require Import Prelude.
Inductive f64 : Type :=
| Fin (k : Z)
| Infinite (negative : bool)
| NaN.

Module F64.
(** One, in units of [2^-1074]. *)
Definition one : Z := 2 ^ 1074.

(** The largest finite value. *)
Definition max_fin : Z := (2 ^ 53 - 1) * 2 ^ 2045.

(** The integer nearest to [n / d], ties to even. *)
Definition nearest (n d : Z) : Z :=
  let q := n / d in
  let r := n mod d in
  if 2 * r <? d then q
  else if d <? 2 * r then q + 1
  else if Z.even q then q else q + 1.

(** The exponent of the last of 53 significant bits. *)
Definition ulp_log (q : Z) : Z := Z.max 0 (Z.log2 q - 52).

Definition round_nonneg (n d : Z) : Z :=
  let e := ulp_log (n / d) in
  nearest n (d * 2 ^ e) * 2 ^ e.

(** [n / d] units, rounded; [d] is positive. *)
Definition round (n d : Z) : f64 :=
  let k := round_nonneg (Z.abs n) d in
  if max_fin <? k then Infinite (n <? 0)
  else Fin (if n <? 0 then - k else k).

Definition opp (x : f64) : f64 :=
  match x with Fin k => Fin (- k) | Infinite s => Infinite (negb s) | NaN => NaN end.

Definition add (x y : f64) : f64 :=
  match x, y with
  | Fin a, Fin b => round (a + b) 1
  | Infinite s, Infinite s' => if Bool.eqb s s' then Infinite s else NaN
  | Infinite s, Fin _ | Fin _, Infinite s => Infinite s
  | _, _ => NaN
  end.

Definition sub (x y : f64) : f64 := add x (opp y).

Definition negative (x : f64) : bool :=
  match x with Fin k => k <? 0 | Infinite s => s | NaN => false end.

Definition mul (x y : f64) : f64 :=
  match x, y with
  | Fin a, Fin b => round (a * b) one
  | NaN, _ | _, NaN => NaN
  | Fin k, Infinite _ | Infinite _, Fin k =>
      if k =? 0 then NaN else Infinite (xorb (negative x) (negative y))
  | Infinite s, Infinite s' => Infinite (xorb s s')
  end.

Definition div (x y : f64) : f64 :=
  match x, y with
  | NaN, _ | _, NaN => NaN
  | Infinite _, Infinite _ => NaN
  | Infinite s, Fin b => Infinite (xorb s (b <? 0))
  | Fin _, Infinite _ => Fin 0
  | Fin a, Fin b =>
      if b =? 0 then (if a =? 0 then NaN else Infinite (a <? 0))
      else round (Z.sgn b * a * one) (Z.abs b)
  end.

Definition leb (x y : f64) : bool :=
  match x, y with
  | NaN, _ | _, NaN => false
  | Fin a, Fin b => a <=? b
  | Infinite s, Infinite s' => s || negb s'
  | Infinite s, Fin _ => s
  | Fin _, Infinite s => negb s
  end.

Definition ltb (x y : f64) : bool :=
  match x, y with
  | NaN, _ | _, NaN => false
  | _, _ => negb (leb y x)
  end.

Definition is_finite (x : f64) : bool := match x with Fin _ => true | _ => false end.

(** [f64::min]: a NaN gives way to the other. *)
Definition min (x y : f64) : f64 :=
  match x, y with
  | NaN, _ => y
  | _, NaN => x
  | _, _ => if leb x y then x else y
  end.

(** [n as f64] for an unsigned [n]. *)
Definition of_uint (n : Z) : f64 := round (n * one) 1.

(** [x as usize] or [x as u64]: truncated and saturated at [max]. *)
Definition to_uint (max : Z) (x : f64) : Z :=
  match x with
  | Fin k => Z.min max (Z.max 0 (k / one))
  | Infinite s => if s then 0 else max
  | NaN => 0
  end.

(** [f64::ceil] *)
Definition ceil (x : f64) : f64 :=
  match x with Fin k => Fin (- (- k / one) * one) | _ => x end.
End F64.

(** [Duration::as_secs_f64] of a duration in nanoseconds. *)
Definition as_secs_f64 (d : Z) : f64 :=
  F64.add (F64.of_uint (d / 1000000000))
    (F64.div (F64.of_uint (d mod 1000000000)) (F64.of_uint 1000000000)).

(** * Rounding *)

Section rounding.
Import F64.

(** The finite values: the last significant bit divides them. *)
Definition representable (k : Z) : Prop :=
  0 <= k <= max_fin ∧ (2 ^ ulp_log k | k).

Lemma nearest_bounds n d : 0 < d → n / d <= nearest n d <= n / d + 1.
Proof. intros Hd. unfold nearest. repeat case_goal_if; lia. Qed.

Lemma nearest_exact j d : 0 < d → nearest (j * d) d = j.
Proof.
  intros Hd. unfold nearest. rewrite Z.div_mul, Z.mod_mul by lia. by rewrite (proj2 (Z.ltb_lt _ _)) by lia.
Qed.

Lemma nearest_le n d j : 0 < d → n <= j * d → nearest n d <= j.
Proof.
  intros Hd Hn. destruct (Z.eq_dec n (j * d)) as [->|Hne]; [by rewrite nearest_exact|].
  pose proof (nearest_bounds n d Hd). assert (n / d < j) by (apply Z.div_lt_upper_bound; lia). lia.
Qed.

Lemma nearest_ge n d j : 0 < d → j * d <= n → j <= nearest n d.
Proof.
  intros Hd Hn. pose proof (nearest_bounds n d Hd). assert (j <= n / d) by (apply Z.div_le_lower_bound; lia). lia.
Qed.

Lemma ulp_log_mono a b : 0 <= a <= b → ulp_log a <= ulp_log b.
Proof. intros Hab. unfold ulp_log. pose proof (Z.log2_le_mono a b). lia. Qed.

Lemma ulp_pos q : 0 < 2 ^ ulp_log q.
Proof. apply Z.pow_pos_nonneg; unfold ulp_log; lia. Qed.

Lemma pow2_pos e : 0 <= e → 0 < 2 ^ e.
Proof. intros. apply Z.pow_pos_nonneg; lia. Qed.

(** Below [2^53] every integer is representable; above, 53 bits are left of the
    quotient. *)
Lemma ulp_log_cases q :
  0 <= q → (ulp_log q = 0 ∧ q < 2 ^ 53) ∨
           (0 < ulp_log q ∧ 2 ^ 52 * 2 ^ ulp_log q <= q < 2 ^ 53 * 2 ^ ulp_log q).
Proof.
  intros Hq. unfold ulp_log. destruct (Z.le_gt_cases (Z.log2 q) 52) as [Hl|Hl].
  - left. rewrite Z.max_l by lia. split; [done|]. apply Z.log2_lt_cancel. rewrite Z.log2_pow2 by lia. lia.
  - right. rewrite Z.max_r by lia. assert (0 < q) as Hpos.
    { destruct (Z.eq_dec q 0) as [->|]; [done|lia]. }
    pose proof (Z.log2_spec q Hpos) as Hs. split; [lia|].
    rewrite <- !Z.pow_add_r by lia. replace (52 + (Z.log2 q - 52)) with (Z.log2 q) by lia.
    replace (53 + (Z.log2 q - 52)) with (Z.succ (Z.log2 q)) by lia. done.
Qed.

Lemma ulp_log_scaled m e : 0 <= e → 2 ^ 52 <= m < 2 ^ 53 → ulp_log (m * 2 ^ e) = e.
Proof.
  intros He Hm. unfold ulp_log. rewrite Z.log2_mul_pow2 by lia.
  rewrite (Z.log2_unique m 52) by lia. lia.
Qed.

Lemma ulp_log_small k : 0 <= k < 2 ^ 53 → ulp_log k = 0.
Proof. intros Hk. destruct (ulp_log_cases k) as [[-> _]|[Hp Hb]]; [lia|done|].
  pose proof (Z.pow_le_mono_r 2 1 (ulp_log k) ltac:(lia) ltac:(lia)). lia.
Qed.

(** What rounding does to the quotient, in terms of its exponent. *)
Lemma round_nonneg_cases n d :
  0 <= n → 0 < d →
  let e := ulp_log (n / d) in
  ∃ m, round_nonneg n d = m * 2 ^ e ∧ m = nearest n (d * 2 ^ e) ∧ 0 <= m <= 2 ^ 53 ∧
    (0 < e → 2 ^ 52 <= m).
Proof.
  intros Hn Hd e. exists (nearest n (d * 2 ^ e)). split; [done|]. split; [done|].
  assert (0 < 2 ^ e) as Hpe by apply ulp_pos.
  pose proof (nearest_bounds n (d * 2 ^ e) ltac:(nia)) as Hb.
  rewrite <- Z.div_div in Hb by lia. assert (0 <= n / d) as Hq by (apply Z.div_pos; lia).
  destruct (ulp_log_cases (n / d) Hq) as [[He Hlt]|[He Hr]]; fold e in He.
  - replace (n / d / 2 ^ e) with (n / d) in Hb by (by rewrite He, Z.div_1_r). lia.
  - fold e in Hr. assert (2 ^ 52 <= n / d / 2 ^ e) by (apply Z.div_le_lower_bound; lia).
    assert (n / d / 2 ^ e < 2 ^ 53) by (apply Z.div_lt_upper_bound; lia). lia.
Qed.

Lemma round_nonneg_rep n d :
  0 <= n → 0 < d → 0 <= round_nonneg n d ∧ (2 ^ ulp_log (round_nonneg n d) | round_nonneg n d).
Proof.
  intros Hn Hd. destruct (round_nonneg_cases n d Hn Hd) as (m & -> & _ & Hm & H52).
  set (e := ulp_log (n / d)) in *. assert (0 <= e) by (unfold e, ulp_log; lia).
  pose proof (pow2_pos e ltac:(lia)). split; [nia|].
  destruct (Z.eq_dec m (2 ^ 53)) as [->|Hne].
  - replace (2 ^ 53 * 2 ^ e) with (2 ^ 52 * 2 ^ (e + 1)) by (rewrite Z.pow_add_r by lia; lia).
    rewrite ulp_log_scaled by lia. by apply Z.divide_factor_r.
  - destruct (Z.eq_dec e 0) as [->|He].
    + rewrite Z.mul_1_r, ulp_log_small by lia. apply Z.divide_1_l.
    + rewrite ulp_log_scaled by lia. by apply Z.divide_factor_r.
Qed.

Lemma round_nonneg_exact k d : 0 < d → representable k → round_nonneg (k * d) d = k.
Proof.
  intros Hd [Hk [c Hc]]. unfold round_nonneg. rewrite Z.div_mul by lia.
  pose proof (ulp_pos k). set (e := ulp_log k) in *.
  replace (k * d) with (c * (d * 2 ^ e)) by (rewrite Hc; lia). rewrite nearest_exact by nia. by rewrite Hc.
Qed.

Lemma round_nonneg_le n d r :
  0 <= n → 0 < d → representable r → n <= r * d → round_nonneg n d <= r.
Proof.
  intros Hn Hd [Hr [c Hc]] Hle. unfold round_nonneg. set (e := ulp_log (n / d)).
  assert (0 <= n / d <= r) as Hq by (split; [apply Z.div_pos; lia|apply Z.div_le_upper_bound; lia]).
  pose proof (ulp_log_mono _ _ Hq) as He. fold e in He. assert (0 <= e) by (unfold e, ulp_log; lia).
  pose proof (pow2_pos e ltac:(lia)).
  assert (∃ j, r = j * 2 ^ e) as [j Hj].
  { exists (c * 2 ^ (ulp_log r - e)). rewrite <- Z.mul_assoc, <- Z.pow_add_r by lia.
    by replace (ulp_log r - e + e) with (ulp_log r) by lia. }
  assert (nearest n (d * 2 ^ e) <= j) by (apply nearest_le; nia). nia.
Qed.

Lemma round_nonneg_ge n d r :
  0 <= n → 0 < d → representable r → r * d <= n → r <= round_nonneg n d.
Proof.
  intros Hn Hd [Hr [c Hc]] Hle. destruct (round_nonneg_cases n d Hn Hd) as (m & -> & Hm & Hb & H52).
  set (e := ulp_log (n / d)) in *. assert (r <= n / d) as Hq by (apply Z.div_le_lower_bound; lia).
  pose proof (ulp_log_mono r (n / d) ltac:(lia)) as He. fold e in He.
  assert (0 <= ulp_log r) by (unfold ulp_log; lia). pose proof (pow2_pos e ltac:(lia)).
  destruct (Z.eq_dec (ulp_log r) e) as [Heq|Hne].
  - rewrite Heq in Hc. assert (c <= m) by (subst m; apply nearest_ge; nia). nia.
  - destruct (ulp_log_cases r ltac:(lia)) as [[_ Hlt]|[_ [_ Hlt]]].
    + pose proof (Z.pow_le_mono_r 2 1 e ltac:(lia) ltac:(lia)). specialize (H52 ltac:(lia)). lia.
    + assert (2 ^ 53 * 2 ^ ulp_log r <= 2 ^ 52 * 2 ^ e).
      { rewrite <- !Z.pow_add_r by lia. apply Z.pow_le_mono_r; lia. }
      specialize (H52 ltac:(lia)). nia.
Qed.

(** ** Operations on nonnegative values *)

Lemma representable_0 : representable 0.
Proof. split; [by vm_compute|]. apply Z.divide_0_r. Qed.

Lemma representable_uint n : 0 <= n < 2 ^ 53 → representable (n * one).
Proof.
  intros Hn. unfold one. split.
  - split; [pose proof (pow2_pos 1074); lia|]. unfold max_fin.
    transitivity ((2 ^ 53 - 1) * 2 ^ 1074).
    + apply Z.mul_le_mono_nonneg_r; [apply Z.pow_nonneg|]; lia.
    + apply Z.mul_le_mono_nonneg_l; [lia|]. apply Z.pow_le_mono_r; lia.
  - destruct (Z.eq_dec n 0) as [->|Hne]; [apply Z.divide_0_r|].
    assert (Z.log2 n <= 52) by (apply Z.lt_succ_r, Z.log2_lt_pow2; lia).
    unfold ulp_log. rewrite Z.log2_mul_pow2 by lia. pose proof (Z.log2_nonneg n).
    rewrite Z.max_r by lia. replace (n * 2 ^ 1074) with
      (n * 2 ^ (1074 - (1074 + Z.log2 n - 52)) * 2 ^ (1074 + Z.log2 n - 52)).
    + apply Z.divide_factor_r.
    + rewrite <- Z.mul_assoc, <- Z.pow_add_r by lia. f_equal. f_equal. lia.
Qed.

Lemma round_exact k d : 0 < d → representable k → round (k * d) d = Fin k.
Proof.
  intros Hd Hk. pose proof Hk as [[H0 Hmax] _]. unfold round.
  rewrite Z.abs_eq by nia. rewrite round_nonneg_exact by done.
  rewrite (proj2 (Z.ltb_ge _ _)) by done. by rewrite (proj2 (Z.ltb_ge (k * d) 0)) by nia.
Qed.

Lemma of_uint_exact n : 0 <= n < 2 ^ 53 → of_uint n = Fin (n * one).
Proof.
  intros Hn. unfold of_uint. rewrite <- (Z.mul_1_r (n * one)) at 1. apply round_exact; [lia|].
  by apply representable_uint.
Qed.

(** Rounding a nonnegative number gives a representable one or infinity. *)
Lemma round_nonneg_result n d :
  0 <= n → 0 < d → round n d = Infinite false ∨ ∃ k, round n d = Fin k ∧ k = round_nonneg n d ∧ representable k.
Proof.
  intros Hn Hd. unfold round. rewrite Z.abs_eq by done. rewrite (proj2 (Z.ltb_ge n 0)) by done.
  destruct (round_nonneg_rep n d Hn Hd). destruct (Z.ltb_spec max_fin (round_nonneg n d)); [by left|].
  right. eexists. split; [done|]. split; [done|]. by split.
Qed.

Lemma add_exact a b : representable (a + b) → add (Fin a) (Fin b) = Fin (a + b).
Proof. intros H. unfold add. rewrite <- (Z.mul_1_r (a + b)) at 1. by apply round_exact. Qed.

Lemma sub_exact a b : representable (a - b) → sub (Fin a) (Fin b) = Fin (a - b).
Proof. intros H. unfold sub, opp. by rewrite add_exact by (by rewrite Z.add_opp_r). Qed.

(** A nonnegative number: what the limiter's operations yield. *)
Definition nonneg (x : f64) : Prop :=
  match x with Fin k => representable k | Infinite s => s = false | NaN => False end.

Lemma round_nonneg_nonneg n d : 0 <= n → 0 < d → nonneg (round n d).
Proof. intros Hn Hd. by destruct (round_nonneg_result n d Hn Hd) as [->|(k & -> & _ & Hk)]. Qed.

Lemma add_nonneg x y : nonneg x → nonneg y → nonneg (add x y).
Proof.
  destruct x as [a|[]|], y as [b|[]|]; simpl; try done. intros [Ha _] [Hb _].
  apply round_nonneg_nonneg; lia.
Qed.

(** Adding to a representable number never goes below it. *)
Lemma add_ge a y :
  representable a → nonneg y → ∃ z, add (Fin a) y = z ∧ leb (Fin a) z = true.
Proof.
  intros Ha Hy. eexists. split; [done|]. destruct y as [b|[]|]; simpl in *; try done.
  pose proof Ha as [[Ha0 _] _]. pose proof Hy as [[Hb0 _] _].
  destruct (round_nonneg_result (a + b) 1 ltac:(lia) ltac:(lia)) as [->|(k & -> & -> & _)]; simpl; [done|].
  apply Z.leb_le, round_nonneg_ge; lia || done.
Qed.

Lemma mul_nonneg x y : nonneg x → nonneg y → nonneg (mul x y) ∨ mul x y = NaN.
Proof.
  assert (Hone : 0 < one) by (apply pow2_pos; lia).
  destruct x as [a|[]|], y as [b|[]|]; try done; intros Hx Hy.
  - left. destruct Hx as [Hx _], Hy as [Hy _]. apply round_nonneg_nonneg; [apply Z.mul_nonneg_nonneg; [apply Hx|apply Hy]|exact Hone].
  - destruct Hx as [Hx _]. simpl. destruct (Z.eqb_spec a 0); [by right|left]. simpl. by rewrite (proj2 (Z.ltb_ge _ _)) by lia.
  - destruct Hy as [Hy _]. simpl. destruct (Z.eqb_spec b 0); [by right|left]. simpl. by rewrite (proj2 (Z.ltb_ge _ _)) by lia.
  - by left.
Qed.

Lemma min_nonneg x k : (nonneg x ∨ x = NaN) → representable k →
  ∃ k', min x (Fin k) = Fin k' ∧ representable k' ∧ k' <= k.
Proof.
  intros [Hx| ->] Hk; [|by exists k]. destruct x as [a|[]|]; simpl in *; try done; [|by exists k].
  destruct (Z.leb_spec a k); [by exists a|by exists k].
Qed.
End rounding.

Import F64.

Lemma one_pos : 0 < one.
Proof. apply pow2_pos. lia. Qed.

Lemma nearest_error n d : 0 < d → 2 * Z.abs (nearest n d * d - n) <= d.
Proof.
  intros Hd. unfold nearest. pose proof (Z.div_mod n d ltac:(lia)). pose proof (Z.mod_pos_bound n d Hd).
  repeat case_goal_if; zbool; nia.
Qed.

(** The error is at most half a unit, or half the last bit of the result. *)
Lemma round_nonneg_error n d :
  0 <= n → 0 < d → 2 ^ 53 * (round_nonneg n d * d) <= (2 ^ 53 + 1) * n + 2 ^ 53 * d.
Proof.
  intros Hn Hd. unfold round_nonneg. set (e := ulp_log (n / d)).
  assert (0 < 2 ^ e) as Hpe by apply ulp_pos.
  pose proof (nearest_error n (d * 2 ^ e) ltac:(nia)) as Herr. set (m := nearest _ _) in *.
  assert (2 * (m * (d * 2 ^ e) - n) <= d * 2 ^ e) as He by lia.
  assert (0 <= n / d) as Hq by (apply Z.div_pos; lia). pose proof (Z.mul_div_le n d Hd) as Hqd.
  destruct (ulp_log_cases (n / d) Hq) as [[He0 Hlt]|[He0 [Hr _]]]; fold e in He0.
  - replace (2 ^ e) with 1 in * by (by rewrite He0). nia.
  - fold e in Hr. assert (2 ^ 52 * (d * 2 ^ e) <= n) by nia. nia.
Qed.

(** Without a subnormal result the error is relative. *)
Lemma round_nonneg_rel n d :
  0 <= n → 0 < d → d * 2 ^ 53 <= n ∨ n = 0 → 2 ^ 53 * (round_nonneg n d * d) <= (2 ^ 53 + 1) * n.
Proof.
  intros Hn Hd [Hbig| ->]; cycle 1.
  { rewrite <- (Z.mul_0_l d) at 1. rewrite round_nonneg_exact by (done || apply representable_0). lia. }
  unfold round_nonneg. set (e := ulp_log (n / d)).
  assert (0 < 2 ^ e) as Hpe by apply ulp_pos.
  pose proof (nearest_error n (d * 2 ^ e) ltac:(nia)) as Herr. set (m := nearest _ _) in *.
  assert (2 * (m * (d * 2 ^ e) - n) <= d * 2 ^ e) as He by lia.
  assert (2 ^ 53 <= n / d) as Hq by (apply Z.div_le_lower_bound; lia). pose proof (Z.mul_div_le n d Hd) as Hqd.
  destruct (ulp_log_cases (n / d) ltac:(lia)) as [[_ Hlt]|[_ [Hr _]]]; [lia|].
  fold e in Hr. assert (2 ^ 52 * (d * 2 ^ e) <= n) by nia. nia.
Qed.

(** A finite nonnegative value that is at most [n / d] times a factor. *)
Lemma of_uint_bound n :
  0 <= n < 2 ^ 64 → ∃ k, of_uint n = Fin k ∧ representable k ∧ 2 ^ 53 * k <= (2 ^ 53 + 1) * (n * one).
Proof.
  intros Hn. pose proof one_pos as Hone. unfold of_uint.
  assert (Hk : 2 ^ 53 * (round_nonneg (n * one) 1 * 1) <= (2 ^ 53 + 1) * (n * one)).
  { apply round_nonneg_rel; [nia|lia|]. destruct (Z.eq_dec n 0) as [->|]; [by right|left].
    assert (2 ^ 53 <= one) by (apply Z.pow_le_mono_r; lia). nia. }
  destruct (round_nonneg_result (n * one) 1) as [Hinf|(k & -> & -> & Hrep)]; [nia|lia| |].
  - exfalso. unfold round in Hinf. rewrite Z.abs_eq in Hinf by nia.
    destruct (Z.ltb_spec max_fin (round_nonneg (n * one) 1)) as [Hlt|]; [|done].
    assert (2 ^ 53 * max_fin < (2 ^ 53 + 1) * (2 ^ 64 * one)) by nia.
    assert ((2 ^ 53 + 1) * (2 ^ 64 * one) <= 2 ^ 53 * max_fin); [|lia].
    unfold max_fin, one. vm_compute. discriminate.
  - eexists. split; [done|]. split; [done|]. lia.
Qed.

Lemma representable_pow53 : representable (2 ^ 53).
Proof. split; [split; vm_compute; discriminate|]. exists (2 ^ 52). vm_compute. reflexivity. Qed.

Lemma round_Fin n d :
  0 <= n → 0 < d → round_nonneg n d <= max_fin → round n d = Fin (round_nonneg n d).
Proof.
  intros Hn Hd Hle. unfold round. rewrite Z.abs_eq by done.
  by rewrite (proj2 (Z.ltb_ge _ _)), (proj2 (Z.ltb_ge n 0)).
Qed.

Lemma round_nonneg_representable n d :
  0 <= n → 0 < d → round_nonneg n d <= max_fin → representable (round_nonneg n d).
Proof. intros Hn Hd Hle. destruct (round_nonneg_rep n d Hn Hd). split; [lia|done]. Qed.

Lemma one_big : 2 ^ 53 * 1000000000 <= one.
Proof. vm_compute. discriminate. Qed.

Lemma max_fin_big : 2 ^ 200 * one <= max_fin.
Proof. vm_compute. discriminate. Qed.

(** The fraction of a second. *)
Lemma nanos_bound n :
  0 <= n < 1000000000 →
  ∃ b, div (of_uint n) (of_uint 1000000000) = Fin b ∧ representable b ∧
    2 ^ 53 * (1000000000 * b) <= (2 ^ 53 + 1) * (n * one) ∧ (0 < n → 2 ^ 53 <= b).
Proof.
  intros Hn. pose proof one_pos as Hone. pose proof one_big as Hbig. pose proof max_fin_big as Hmax.
  rewrite !of_uint_exact by lia. unfold div. rewrite (proj2 (Z.eqb_neq _ _)) by nia.
  rewrite Z.sgn_pos, Z.abs_eq, Z.mul_1_l by nia.
  set (N := n * one * one). set (D := 1000000000 * one).
  assert (HN : 0 <= N) by (unfold N; nia). assert (HD : 0 < D) by (unfold D; lia).
  assert (Hrel : 2 ^ 53 * (round_nonneg N D * D) <= (2 ^ 53 + 1) * N).
  { apply round_nonneg_rel; [done..|]. destruct (Z.eq_dec n 0) as [->|]; [by right|left].
    unfold N, D. apply Z.mul_le_mono_nonneg_r with (p := one) in Hbig; [|lia]. nia. }
  assert (Hb : 2 ^ 53 * (1000000000 * round_nonneg N D) <= (2 ^ 53 + 1) * (n * one)).
  { unfold N, D in *. apply (Z.mul_le_mono_pos_r _ _ one Hone). lia. }
  assert (Hfin : round_nonneg N D <= max_fin) by nia.
  exists (round_nonneg N D). rewrite round_Fin by done. split; [done|].
  split; [by apply round_nonneg_representable|]. split; [done|]. intros Hpos.
  apply round_nonneg_ge; [done|done|apply representable_pow53|]. unfold N, D.
  apply Z.mul_le_mono_nonneg_r with (p := one) in Hbig; [|lia]. nia.
Qed.

Lemma as_secs_bound d :
  0 <= d < 2 ^ 64 * 1000000000 →
  ∃ a, as_secs_f64 d = Fin a ∧ representable a ∧
    2 ^ 106 * (1000000000 * a) <= (2 ^ 53 + 1) * (2 ^ 53 + 1) * (d * one).
Proof.
  intros Hd. pose proof one_pos as Hone. pose proof max_fin_big as Hmax.
  pose proof (Z.div_mod d 1000000000 ltac:(lia)) as Hdm.
  pose proof (Z.mod_pos_bound d 1000000000 ltac:(lia)) as Hmod.
  assert (Hs : 0 <= d / 1000000000 < 2 ^ 64) by (split; [apply Z.div_pos|apply Z.div_lt_upper_bound]; lia).
  unfold as_secs_f64. set (s := d / 1000000000) in *. set (n := d mod 1000000000) in *.
  destruct (of_uint_bound s Hs) as (k & Hk & Hkr & Hkb).
  destruct (nanos_bound n Hmod) as (b & -> & Hbr & Hbb & Hbig).
  assert (Hk53 : 0 < s → 2 ^ 53 <= k).
  { intros Hpos. unfold of_uint in Hk. destruct (round_nonneg_result (s * one) 1) as [Hi|(k' & Hk' & -> & _)];
      [nia|lia|by rewrite Hi in Hk|]. rewrite Hk' in Hk. injection Hk as <-.
    apply round_nonneg_ge; [nia|lia|apply representable_pow53|]. pose proof one_big. nia. }
  rewrite Hk. destruct Hkr as [Hk0 _], Hbr as [Hb0 _]. unfold add.
  assert (Hrel : 2 ^ 53 * (round_nonneg (k + b) 1 * 1) <= (2 ^ 53 + 1) * (k + b)).
  { apply round_nonneg_rel; [lia|lia|]. destruct (Z.eq_dec s 0) as [Hs0|]; [|left; lia].
    destruct (Z.eq_dec n 0) as [Hn0|]; [right|left; lia]. rewrite Hs0, Hn0 in *. nia. }
  assert (Hsum : 2 ^ 53 * (1000000000 * (k + b)) <= (2 ^ 53 + 1) * (d * one)) by nia.
  assert (Hfin : round_nonneg (k + b) 1 <= max_fin) by nia.
  eexists. rewrite round_Fin by (lia || done). split; [done|].
  split; [apply round_nonneg_representable; lia|]. nia.
Qed.
