(* ===== verification/TokenBucket.v ===== *)
(** [TokenBucketRateLimiter] and [RateLimitingMiddleware] of
    [crates/fastmcp-server/src/rate_limiting.rs]: definitions.  Every operation
    gets the instant its caller sampled. *)
From stdpp Require Import base list gmap strings sorting.
From Stdlib Require Import ZArith Lia.
From S2P Require Import Prelude Utf8 RequestId JsonRpc RateLimit Float64.

Definition MAX_EXACT_TOKEN_CAPACITY : Z := 2 ^ 53 - 1.

Definition sanitized_rate (rate : f64) : f64 :=
  if F64.is_finite rate && F64.ltb (Fin 0) rate then rate else Fin 0.

Definition default_burst_capacity (rate : f64) : Z :=
  if F64.leb rate (Fin 0) then 0
  else
    let doubled := F64.mul rate (F64.of_uint 2) in
    if negb (F64.is_finite doubled) || F64.ltb (F64.of_uint MAX_EXACT_TOKEN_CAPACITY) doubled then 0
    else Z.max (F64.to_uint usize_max doubled) 1.

Definition retry_after_millis (deficit refill_rate : f64) : Z :=
  if negb (F64.is_finite deficit) || negb (F64.is_finite refill_rate) ||
     F64.leb deficit (Fin 0) || F64.leb refill_rate (Fin 0)
  then u64_max
  else
    let millis := F64.mul (F64.div deficit refill_rate) (F64.of_uint 1000) in
    if negb (F64.is_finite millis) || F64.leb (F64.of_uint u64_max) millis then u64_max
    else Z.max (F64.to_uint u64_max (F64.ceil millis)) 1.

Record TokenBucketRateLimiter : Type := {
  capacity : Z;
  refill_rate : f64;
  tokens : f64;
  last_refill : Z;
}.

Definition TokenBucket_new_at (cap : Z) (rate : f64) (now : Z) : TokenBucketRateLimiter :=
  let rate := sanitized_rate rate in
  let cap := if F64.ltb (Fin 0) rate && (cap <=? MAX_EXACT_TOKEN_CAPACITY) then cap else 0 in
  {| capacity := cap; refill_rate := rate; tokens := F64.of_uint cap; last_refill := now |}.

(** The common part of the two operations: the tokens at [now]. *)
Definition refill (l : TokenBucketRateLimiter) (now : Z) : TokenBucketRateLimiter :=
  let now := Z.max now (last_refill l) in
  let elapsed := as_secs_f64 (now - last_refill l) in
  {| capacity := capacity l; refill_rate := refill_rate l;
     tokens := F64.min (F64.add (tokens l) (F64.mul elapsed (refill_rate l))) (F64.of_uint (capacity l));
     last_refill := now |}.

Definition set_tokens (t : f64) (l : TokenBucketRateLimiter) : TokenBucketRateLimiter :=
  {| capacity := capacity l; refill_rate := refill_rate l; tokens := t; last_refill := last_refill l |}.

Definition try_consume_with_retry_at (needed now : Z) (l : TokenBucketRateLimiter)
    : RateLimitAdmission * TokenBucketRateLimiter :=
  let l := refill l now in
  let tokens_needed := F64.of_uint needed in
  if F64.leb tokens_needed (tokens l)
  then (Allowed, set_tokens (F64.sub (tokens l) tokens_needed) l)
  else (Rejected (retry_after_millis (F64.sub tokens_needed (tokens l)) (refill_rate l)), l).

Definition available_tokens_at (now : Z) (l : TokenBucketRateLimiter) : f64 * TokenBucketRateLimiter :=
  let l := refill l now in (tokens l, l).

(** * The middleware *)

Record RateLimitingMiddleware (Value : Type) : Type := {
  max_requests_per_second : f64;
  burst_capacity : Z;
  get_client_id : option (JsonRpcRequest Value → option (list Z));
  global_limit : bool;
  partition_idle_ttl : Z;
}.
Arguments max_requests_per_second {Value}.
Arguments burst_capacity {Value}.
Arguments get_client_id {Value}.
Arguments global_limit {Value}.
Arguments partition_idle_ttl {Value}.

Section middleware.
Context {Value : Type} (sha256 : list Z → Sha256Digest).
Abbreviation Buckets := (Shared TokenBucketRateLimiter).
Abbreviation Middleware := (RateLimitingMiddleware Value).

(** The constructor and builder methods read the clock once each, at [now]. *)
Definition RateLimiting_new (rate : f64) (now : Z) : Middleware * Buckets :=
  let rate := sanitized_rate rate in
  let burst := default_burst_capacity rate in
  ({| max_requests_per_second := rate; burst_capacity := burst; get_client_id := None;
      global_limit := false; partition_idle_ttl := CLIENT_PARTITION_IDLE_TTL |},
   {| limiters := PartitionStore_new; overflow_limiter := TokenBucket_new_at burst rate now;
      global_limiter := None; ticks := 0 |}).

Definition with_burst_capacity (cap now : Z) (m : Middleware * Buckets) : Middleware * Buckets :=
  let '(mw, s) := m in
  let cap := if cap <=? MAX_EXACT_TOKEN_CAPACITY then cap else 0 in
  let s := set_overflow (TokenBucket_new_at cap (max_requests_per_second mw) now) s in
  ({| max_requests_per_second := max_requests_per_second mw; burst_capacity := cap;
      get_client_id := get_client_id mw; global_limit := global_limit mw;
      partition_idle_ttl := partition_idle_ttl mw |},
   if global_limit mw then set_global (TokenBucket_new_at cap (max_requests_per_second mw) now) s else s).

Definition with_client_id_extractor (f : JsonRpcRequest Value → option (list Z))
    (m : Middleware * Buckets) : Middleware * Buckets :=
  let '(mw, s) := m in
  ({| max_requests_per_second := max_requests_per_second mw; burst_capacity := burst_capacity mw;
      get_client_id := Some f; global_limit := global_limit mw;
      partition_idle_ttl := partition_idle_ttl mw |}, s).

Definition global (now : Z) (m : Middleware * Buckets) : Middleware * Buckets :=
  let '(mw, s) := m in
  ({| max_requests_per_second := max_requests_per_second mw; burst_capacity := burst_capacity mw;
      get_client_id := get_client_id mw; global_limit := true;
      partition_idle_ttl := partition_idle_ttl mw |},
   set_global (TokenBucket_new_at (burst_capacity mw) (max_requests_per_second mw) now) s).

Context (mw : Middleware).
Abbreviation W := (M Buckets McpError).

Definition consume_one (now : Z) (l : TokenBucketRateLimiter)
    : W (RateLimitAdmission * TokenBucketRateLimiter) :=
  ret (try_consume_with_retry_at 1 now l).

(** [|limiter| limiter.available_tokens_at(now) >= limiter.capacity as f64] *)
Definition bucket_is_reset (now : Z) (l : TokenBucketRateLimiter) : W (bool * TokenBucketRateLimiter) :=
  let '(available, l') := available_tokens_at now l in
  ret (F64.leb (F64.of_uint (capacity l)) available, l').

Definition no_room (now : Z) : W bool :=
  let! s := get in
  if MAX_NAMED_CLIENT_PARTITIONS <=? PartitionStore_len (limiters s) then
    let! reclaimed := reclaim_oldest_if now (partition_idle_ttl mw) (bucket_is_reset now) in
    ret (negb reclaimed)
  else ret false.

Definition get_or_create_limiter_with_retry_at (partition : Sha256Digest) (now : Z) : W RateLimitAdmission :=
  let! used := use_existing_at partition now (consume_one now) in
  match used with
  | Some admission => ret admission
  | None =>
      let! full := no_room now in
      if full : bool then
        let! s := get in
        let! r := consume_one now (overflow_limiter s) in
        modify (set_overflow r.2) ;!
        ret r.1
      else
        let fresh := TokenBucket_new_at (burst_capacity mw) (max_requests_per_second mw) now in
        let! r := consume_one now fresh in
        insert_at partition r.2 now ;!
        ret r.1
  end.

Definition consume_global (now : Z) : W RateLimitAdmission :=
  let! s := get in
  match global_limiter s with
  | Some l =>
      let! r := consume_one now l in
      modify (set_global r.2) ;!
      ret r.1
  | None => ret (Rejected u64_max)
  end.

(** [on_request_at], with what the two [ctx.ensure_live()] calls found. *)
Definition on_request_at (live_before live_after : bool) (request : JsonRpcRequest Value) (now : Z)
    : W (MiddlewareDecision Value) :=
  if negb live_before then fail request_cancelled
  else if F64.leb (max_requests_per_second mw) (Fin 0) || (burst_capacity mw =? 0)
  then fail (rate_limit_error RATE_LIMIT_EXCEEDED_MESSAGE)
  else
    let! admission :=
      if global_limit mw then consume_global now
      else
        let! partition := lift (request_partition_key sha256 (get_client_id mw) request) in
        get_or_create_limiter_with_retry_at partition now in
    if negb live_after then fail request_cancelled
    else match admission with
         | Allowed => ret Continue
         | Rejected retry_after_ms => fail (rate_limit_retry_error request retry_after_ms)
         end.
End middleware.
