(* ===== verification/TokenBucketRate.v ===== *)
(** One token bucket: its invariant, and what refilling and consuming do to the
    number of tokens.

    Over time: bounds, exact bursts and the sustained rate, in the presence of
    rounding, and how many requests of one token a bucket admits. *)
From stdpp Require Import base list gmap strings sorting.
From Stdlib Require Import ZArith Lia.
From S2P Require Import Prelude RateLimit Float64 TokenBucket.
Import F64.

(** An [f64] an argument can hold. *)
Definition f64_valid (x : f64) : Prop :=
  match x with Fin k => representable (Z.abs k) | _ => True end.

(** [r] is the rate and [k] the tokens, in units of [2^-1074]. *)
Record bucket (l : TokenBucketRateLimiter) (r k : Z) : Prop := {
  bucket_capacity : 0 <= capacity l <= MAX_EXACT_TOKEN_CAPACITY;
  bucket_rate : refill_rate l = Fin r;
  bucket_rate_rep : representable r;
  bucket_tokens : tokens l = Fin k;
  bucket_tokens_rep : representable k;
  bucket_full : k <= capacity l * one;
}.

Lemma sanitized_rate_Fin rate : f64_valid rate → ∃ r, sanitized_rate rate = Fin r ∧ representable r.
Proof.
  intros Hv. unfold sanitized_rate. destruct rate as [k|[]|]; simpl in *; try (exists 0; split; [done|apply representable_0]).
  destruct (Z.leb_spec k 0); simpl; [exists 0; split; [done|apply representable_0]|].
  exists k. split; [done|]. by rewrite Z.abs_eq in Hv by lia.
Qed.

(** A new bucket is full. *)
Lemma bucket_new cap rate now :
  f64_valid rate → 0 <= cap →
  let l := TokenBucket_new_at cap rate now in
  ∃ r, sanitized_rate rate = Fin r ∧ bucket l r (capacity l * one) ∧ last_refill l = now ∧
    capacity l = (if (0 <? r) && (cap <=? MAX_EXACT_TOKEN_CAPACITY) then cap else 0).
Proof.
  intros Hv Hcap l. destruct (sanitized_rate_Fin rate Hv) as (r & Hr & Hrep).
  exists r. split; [done|].
  assert (Hc : capacity l = if (0 <? r) && (cap <=? MAX_EXACT_TOKEN_CAPACITY) then cap else 0).
  { unfold l, TokenBucket_new_at. rewrite Hr. simpl. by rewrite Z.leb_antisym, negb_involutive. }
  assert (Hle : 0 <= capacity l <= MAX_EXACT_TOKEN_CAPACITY).
  { rewrite Hc. unfold MAX_EXACT_TOKEN_CAPACITY in *. case_goal_if; zbool; lia. }
  unfold MAX_EXACT_TOKEN_CAPACITY in Hle.
  split_and!; try done. split; try done.
  - change (tokens l) with (of_uint (capacity l)). apply of_uint_exact. lia.
  - apply representable_uint. lia.
Qed.

Section bucket.
Context (l : TokenBucketRateLimiter) (r k : Z) (Hb : bucket l r k).

Lemma capacity_Fin : of_uint (capacity l) = Fin (capacity l * one) ∧ representable (capacity l * one).
Proof.
  destruct Hb as [Hc _ _ _ _ _]. unfold MAX_EXACT_TOKEN_CAPACITY in Hc.
  split; [apply of_uint_exact|apply representable_uint]; lia.
Qed.

(** Refilling keeps the invariant, loses no token, and does nothing when no
    time has passed. *)
Lemma refill_bucket now :
  ∃ k', bucket (refill l now) r k' ∧ k <= k' ∧ (now <= last_refill l → k' = k).
Proof.
  destruct capacity_Fin as [Hcap Hcrep]. destruct Hb as [Hc Hr Hrrep Ht Htrep Hfull].
  set (el := as_secs_f64 (Z.max now (last_refill l) - last_refill l)).
  assert (Hel : nonneg el).
  { unfold el, as_secs_f64. set (d := Z.max now (last_refill l) - last_refill l).
    assert (0 <= d) by (unfold d; lia). pose proof one_pos.
    apply add_nonneg; [apply round_nonneg_nonneg; [|lia]; apply Z.mul_nonneg_nonneg; [apply Z.div_pos|]; lia|].
    destruct (nanos_bound (d mod 1000000000)) as (b & -> & Hbr & _); [apply Z.mod_pos_bound; lia|done]. }
  assert (Hx : nonneg (mul el (Fin r)) ∨ mul el (Fin r) = NaN) by (by apply mul_nonneg).
  assert (Hsum : (nonneg (add (Fin k) (mul el (Fin r))) ∨ add (Fin k) (mul el (Fin r)) = NaN) ∧
    (leb (Fin k) (add (Fin k) (mul el (Fin r))) = true ∨ add (Fin k) (mul el (Fin r)) = NaN)).
  { destruct Hx as [Hx|Hx]; rewrite ?Hx; [|by split; right]. split; left; [by apply add_nonneg|].
    by destruct (add_ge k (mul el (Fin r)) Htrep Hx) as (z & -> & Hz). }
  destruct Hsum as [Hs1 Hs2].
  destruct (min_nonneg (add (Fin k) (mul el (Fin r))) (capacity l * one) Hs1 Hcrep) as (k' & Hk' & Hrep & Hle).
  exists k'. split_and!.
  - split; simpl; try done. by rewrite Ht, Hr, Hcap.
  - destruct (add (Fin k) (mul el (Fin r))) as [z|[]|]; destruct Hs2 as [Hs2|Hs2]; try done;
      cbn [leb min] in *; [|injection Hk'; lia..].
    apply Z.leb_le in Hs2. destruct (z <=? capacity l * one); injection Hk'; lia.
  - intros Hnow. assert (Hel0 : el = Fin 0).
    { unfold el. rewrite Z.max_r, Z.sub_diag by lia. vm_compute. reflexivity. }
    assert (Hz : mul el (Fin r) = Fin 0) by (rewrite Hel0; unfold mul; rewrite Z.mul_0_l; vm_compute; reflexivity).
    rewrite Hz, add_exact, Z.add_0_r in Hk' by (by rewrite Z.add_0_r). simpl in Hk'.
    rewrite (proj2 (Z.leb_le _ _)) in Hk' by done. by injection Hk'.
Qed.

(** Taking a whole token is exact, as long as the capacity is below [2^53]. *)
Lemma take_one_exact : one <= k → sub (Fin k) (of_uint 1) = Fin (k - one) ∧ representable (k - one).
Proof.
  intros Hk. destruct Hb as [Hc _ _ _ [Hkr Hdiv] Hfull]. unfold MAX_EXACT_TOKEN_CAPACITY in Hc.
  pose proof one_pos. assert (Hrep : representable (k - one)).
  { split; [lia|]. assert (Hu : ulp_log k <= 1074).
    { unfold ulp_log. assert (Z.log2 k < 53 + 1074) by (apply Z.log2_lt_pow2; [lia|];
        rewrite Z.pow_add_r by lia; change (2 ^ 1074) with one; nia). lia. }
    assert (Hm : ulp_log (k - one) <= ulp_log k) by (apply ulp_log_mono; lia).
    assert (0 <= ulp_log (k - one)) by (unfold ulp_log; lia).
    assert (Hpow : ∀ a b, 0 <= a <= b → (2 ^ a | 2 ^ b)).
    { intros a b Hab. exists (2 ^ (b - a)). rewrite <- Z.pow_add_r by lia. f_equal. lia. }
    apply Z.divide_sub_r.
    - eapply Z.divide_trans; [|exact Hdiv]. by apply Hpow.
    - apply Hpow. lia. }
  rewrite of_uint_exact, Z.mul_1_l by lia. split; [|done]. by apply sub_exact.
Qed.
End bucket.

Import F64.

(** What an attempt to take [needed] tokens does. *)
Lemma consume_bucket l r k needed now :
  bucket l r k → 0 <= needed <= usize_max →
  let '(a, l') := try_consume_with_retry_at needed now l in
  ∃ k1 k2 j, bucket (refill l now) r k1 ∧ of_uint needed = Fin j ∧ representable j ∧
    bucket l' r k2 ∧ capacity l' = capacity l ∧ last_refill l' = Z.max now (last_refill l) ∧
    is_allowed a = (j <=? k1) ∧ (is_allowed a = false → k2 = k1) ∧ k2 <= k1.
Proof.
  intros Hb Hn. destruct (refill_bucket l r k Hb now) as (k1 & Hb1 & Hle & _).
  destruct (of_uint_bound needed) as (j & Hj & Hjrep & _); [unfold usize_max in Hn; lia|].
  pose proof Hb1 as [Hc Hr Hrrep Ht Htrep Hfull].
  unfold try_consume_with_retry_at. rewrite Ht, Hj. cbn [leb]. pose proof Htrep as [Hk0 _]. pose proof Hjrep as [Hj0 _].
  destruct (Z.leb_spec j k1) as [Hjk|Hjk].
  - assert (Hkj : 0 <= k1 - j) by lia. assert (Hone : 0 < 1) by lia.
    assert (Hr1 : round_nonneg (k1 - j) 1 <= k1) by (apply round_nonneg_le; [exact Hkj|exact Hone|exact Htrep|lia]).
    assert (Hmax : round_nonneg (k1 - j) 1 <= max_fin) by exact (Z.le_trans _ _ _ Hr1 (proj2 Hk0)).
    assert (Hsub : sub (Fin k1) (Fin j) = Fin (round_nonneg (k1 - j) 1)).
    { unfold sub, opp, add. rewrite Z.add_opp_r. by apply round_Fin. }
    exists k1, (round_nonneg (k1 - j) 1), j. rewrite Hsub. rewrite <- Z.leb_le in Hjk.
    split_and!; try done.
    split; simpl; try done; [by apply round_nonneg_representable|exact (Z.le_trans _ _ _ Hr1 Hfull)].
  - exists k1, k1, j. apply Z.leb_gt in Hjk. by split_and!.
Qed.

(** However a token bucket is used, at whatever instants and for whatever
    amounts, its tokens are a nonnegative finite number of at most its capacity:
    a new bucket is full, a refill or a request that is refused removes nothing,
    and a request is admitted exactly when the refilled bucket has the tokens. *)
Theorem token_bucket_bounded cap rate t0 l r k needed now :
  f64_valid rate → 0 <= cap → bucket l r k → 0 <= needed <= usize_max →
  (∃ r0, bucket (TokenBucket_new_at cap rate t0) r0 (capacity (TokenBucket_new_at cap rate t0) * one)) ∧
  (∃ k1, bucket (available_tokens_at now l).2 r k1 ∧ (available_tokens_at now l).1 = Fin k1 ∧ k <= k1 ∧
     let '(a, l') := try_consume_with_retry_at needed now l in
     ∃ j k2, of_uint needed = Fin j ∧ is_allowed a = (j <=? k1) ∧ bucket l' r k2 ∧ k2 <= k1 ∧
       (is_allowed a = false → k2 = k1)).
Proof.
  intros Hv Hcap Hb Hn. split.
  { destruct (bucket_new cap rate t0 Hv Hcap) as (r0 & _ & Hnew & _). by exists r0. }
  destruct (refill_bucket l r k Hb now) as (k1 & Hb1 & Hle & _).
  exists k1. split; [done|]. split; [by apply bucket_tokens with (r := r)|]. split; [done|].
  pose proof (consume_bucket l r k needed now Hb Hn) as Hc.
  destruct (try_consume_with_retry_at needed now l) as [a l'].
  destruct Hc as (k1' & k2 & j & Hb1' & Hj & _ & Hb2 & _ & _ & Ha & Hrej & Hk2).
  assert (k1' = k1) as ->.
  { pose proof (bucket_tokens _ _ _ Hb1) as H1. rewrite (bucket_tokens _ _ _ Hb1') in H1. by injection H1. }
  by exists j, k2.
Qed.

(** ** Requests of one token *)

Lemma of_uint_1 : of_uint 1 = Fin one.
Proof. rewrite of_uint_exact, Z.mul_1_l by lia. reflexivity. Qed.

Lemma consume_one_bucket l r k now :
  bucket l r k →
  let '(a, l') := try_consume_with_retry_at 1 now l in
  ∃ k1, bucket (refill l now) r k1 ∧ is_allowed a = (one <=? k1) ∧
    bucket l' r (if is_allowed a then k1 - one else k1) ∧
    capacity l' = capacity l ∧ last_refill l' = Z.max now (last_refill l).
Proof.
  intros Hb. destruct (refill_bucket l r k Hb now) as (k1 & Hb1 & _ & _).
  pose proof Hb1 as [Hc Hr Hrrep Ht Htrep Hfull].
  unfold try_consume_with_retry_at. rewrite Ht, of_uint_1. cbn [leb].
  destruct (one <=? k1) eqn:Hle.
  - rewrite Z.leb_le in Hle. destruct (take_one_exact _ r k1 Hb1 Hle) as [Hsub Hrep]. rewrite of_uint_1 in Hsub.
    rewrite Hsub. exists k1. rewrite <- Z.leb_le in Hle. pose proof one_pos.
    split_and!; [exact Hb1|exact (eq_sym Hle)| |reflexivity|reflexivity].
    split; [exact Hc|exact Hr|exact Hrrep|reflexivity|exact Hrep|]. cbn in Hfull |- *. lia.
  - exists k1. split_and!; [exact Hb1|exact (eq_sym Hle)|exact Hb1|reflexivity|reflexivity].
Qed.

(** The decisions on a sequence of one-token requests, and the final bucket. *)
Fixpoint bucket_run (l : TokenBucketRateLimiter) (nows : list Z) : list bool * TokenBucketRateLimiter :=
  match nows with
  | [] => ([], l)
  | now :: nows =>
      let '(a, l') := try_consume_with_retry_at 1 now l in
      let '(oks, l'') := bucket_run l' nows in
      (is_allowed a :: oks, l'')
  end.

Lemma bucket_run_still l r c nows :
  bucket l r (Z.of_nat c * one) → Forall (λ t, t <= last_refill l) nows →
  (bucket_run l nows).1 =
    replicate (length nows `min` c) true ++ replicate (length nows - c) false.
Proof.
  revert l c. induction nows as [|t nows IH]; intros l c Hb Ht; [done|].
  apply Forall_cons in Ht as [Ht Hts]. cbn [bucket_run length].
  destruct (refill_bucket l r _ Hb t) as (k' & Hb' & _ & Hsame). rewrite (Hsame Ht) in Hb'.
  pose proof (consume_one_bucket l r _ t Hb) as Hc.
  destruct (try_consume_with_retry_at 1 t l) as [a l']. destruct Hc as (k1 & Hb1 & Ha & Hb2 & _ & Hlast).
  assert (k1 = Z.of_nat c * one) as ->.
  { pose proof (bucket_tokens _ _ _ Hb1) as H1. rewrite (bucket_tokens _ _ _ Hb') in H1. by injection H1. }
  pose proof one_pos as Hone.
  assert (Hlast' : Forall (λ t, t <= last_refill l') nows) by (by rewrite Hlast, Z.max_r).
  destruct c as [|c].
  - rewrite Ha, (proj2 (Z.leb_gt _ _)) in Hb2 by lia. rewrite Ha, (proj2 (Z.leb_gt _ _)) by lia.
    specialize (IH l' 0%nat Hb2 Hlast'). destruct (bucket_run l' nows) as [oks l'']. simpl in *.
    rewrite IH. by rewrite Nat.min_0_r, Nat.sub_0_r.
  - rewrite Ha, (proj2 (Z.leb_le _ _)) in Hb2 by lia. rewrite Ha, (proj2 (Z.leb_le _ _)) by lia.
    replace (Z.of_nat (S c) * one - one) with (Z.of_nat c * one) in Hb2 by lia.
    specialize (IH l' c Hb2 Hlast'). destruct (bucket_run l' nows) as [oks l'']. simpl in *. by rewrite IH.
Qed.

(** A burst is exact: of any number of requests at the instant a bucket was
    created, or at instants sampled before it, exactly the first [capacity] are
    admitted.  The capacity is the configured one when the rate is positive and
    every whole number of tokens is exact, and none otherwise. *)
Theorem token_burst_exact cap rate now nows :
  f64_valid rate → 0 <= cap → Forall (λ t, t <= now) nows →
  let l := TokenBucket_new_at cap rate now in
  let c := Z.to_nat (capacity l) in
  (bucket_run l nows).1 = replicate (length nows `min` c) true ++ replicate (length nows - c) false ∧
  capacity l = (if ltb (Fin 0) (sanitized_rate rate) && (cap <? 2 ^ 53) then cap else 0).
Proof.
  intros Hv Hcap Ht l c. destruct (bucket_new cap rate now Hv Hcap) as (r & Hr & Hb & Hlast & Hc).
  fold l in Hb, Hlast, Hc. pose proof (bucket_capacity _ _ _ Hb). split.
  - apply (bucket_run_still l r); [unfold c; by rewrite Z2Nat.id by lia|by rewrite Hlast].
  - rewrite Hc, Hr. cbn [ltb leb]. replace (negb (r <=? 0)) with (0 <? r) by (rewrite Z.leb_antisym; apply negb_involutive_reverse). unfold MAX_EXACT_TOKEN_CAPACITY.
    destruct (0 <? r); [|done]. simpl. destruct (Z.leb_spec cap (2 ^ 53 - 1)), (Z.ltb_spec cap (2 ^ 53)); done || lia.
Qed.

(** ** The default capacity *)

Lemma representable_double r : representable r → 2 * r <= max_fin → representable (2 * r).
Proof.
  intros [[Hr _] [c Hc]] Hmax. split; [split; [lia|exact Hmax]|].
  destruct (Z.eq_dec r 0) as [->|Hne]; [apply Z.divide_0_r|].
  assert (Hlog : Z.log2 (2 * r) = Z.succ (Z.log2 r)) by (apply Z.log2_double; lia).
  assert (Hu : ulp_log (2 * r) = ulp_log r ∨ ulp_log (2 * r) = ulp_log r + 1) by (unfold ulp_log; lia).
  assert (0 <= ulp_log r) by (unfold ulp_log; lia).
  destruct Hu as [->| ->]; [exists (2 * c); lia|]. exists c. rewrite Z.pow_add_r by lia. lia.
Qed.

Lemma representable_max : representable max_fin.
Proof. split; [split; vm_compute; discriminate|]. exists (2 ^ 53 - 1). vm_compute. reflexivity. Qed.

(** The default burst capacity is twice the rate, exactly: the doubling does
    not round, a fraction is cut off but at least one token is left, and a rate
    that is not positive or whose double is not an exactly counted number of
    tokens gives none. *)
Theorem default_burst_capacity_correct r :
  representable (Z.abs r) →
  default_burst_capacity (Fin r) =
    (if (0 <? r) && (2 * r <=? (2 ^ 53 - 1) * one) then Z.max (2 * r / one) 1 else 0).
Proof.
  intros Hrep. unfold default_burst_capacity. cbn [leb].
  destruct (Z.leb_spec r 0) as [Hr|Hr]; [by rewrite (proj2 (Z.ltb_ge 0 r)) by lia|].
  rewrite (proj2 (Z.ltb_lt 0 r)), andb_true_l by lia. rewrite Z.abs_eq in Hrep by lia.
  pose proof one_pos as Hone. assert (Hpos : 0 <= 2 * r * one) by nia.
  assert (Hcap : of_uint MAX_EXACT_TOKEN_CAPACITY = Fin ((2 ^ 53 - 1) * one)) by (apply of_uint_exact; unfold MAX_EXACT_TOKEN_CAPACITY; lia).
  assert (Hlim : representable ((2 ^ 53 - 1) * one)) by (apply representable_uint; lia).
  pose proof (proj1 Hlim) as [_ Hlim0].
  rewrite Hcap, (of_uint_exact 2) by lia. cbn [mul]. replace (r * (2 * one)) with (2 * r * one) by ring.
  set (limit := (2 ^ 53 - 1) * one) in *.
  destruct (Z.leb_spec (2 * r) limit) as [Hle|Hlt].
  - rewrite round_exact; [|exact Hone|apply representable_double; [exact Hrep|exact (Z.le_trans _ _ _ Hle Hlim0)]].
    cbn [is_finite negb orb ltb leb to_uint]. rewrite (proj2 (Z.leb_le _ _) Hle). cbn [negb].
    rewrite (Z.max_r 0) by (apply Z.div_pos; lia). rewrite Z.min_r; [reflexivity|].
    assert (2 * r / one <= 2 ^ 53 - 1) by (apply Z.div_le_upper_bound; [exact Hone|unfold limit in Hle; lia]).
    unfold usize_max. lia.
  - destruct (round_nonneg_result (2 * r * one) one Hpos Hone) as [->|(k & -> & Hk & Hkr)]; [reflexivity|].
    cbn [is_finite negb orb ltb leb].
    assert (Hk2 : limit < k).
    { destruct (Z.le_gt_cases (2 * r) max_fin) as [Hfin|Hbig].
      - rewrite Hk, round_nonneg_exact; [exact Hlt|exact Hone|by apply representable_double].
      - assert (max_fin <= k).
        { rewrite Hk. apply round_nonneg_ge; [exact Hpos|exact Hone|exact representable_max|].
          apply Z.mul_le_mono_nonneg_r; lia. }
        pose proof max_fin_big. unfold limit. lia. }
    rewrite (proj2 (Z.leb_gt _ _) Hk2). reflexivity.
Qed.

Import F64.

(** [n] and [d] rounded: the result, or more than anything finite. *)
Lemma round_cases n d (c : Z) :
  0 <= n → 0 < d → c <= max_fin →
  (round n d = Infinite false ∧ c <= round_nonneg n d) ∨
  (round n d = Fin (round_nonneg n d) ∧ representable (round_nonneg n d)).
Proof.
  intros Hn Hd Hc. destruct (Z.le_gt_cases (round_nonneg n d) max_fin) as [H|H].
  - right. split; [by apply round_Fin|by apply round_nonneg_representable].
  - left. split; [|lia]. unfold round. rewrite Z.abs_eq by done.
    by rewrite (proj2 (Z.ltb_lt _ _)), (proj2 (Z.ltb_ge n 0)).
Qed.

(** A rounded sum of nonnegative numbers, cut at [c], exceeds the sum by at most
    [c / 2^52] and a unit. *)
Lemma capped_sum_error k x c k' :
  0 <= k → 0 <= x → k' <= c → k' <= round_nonneg (k + x) 1 → 2 ^ 52 * k' <= 2 ^ 52 * (k + x) + c + 2 ^ 52.
Proof.
  intros Hk Hx Hc Hs. pose proof (round_nonneg_error (k + x) 1 ltac:(lia) ltac:(lia)) as He. lia.
Qed.

(** A product of a duration and a rate. *)
Lemma elapsed_gain a r d x :
  0 <= a → 0 <= r → 0 <= d → x = round_nonneg (a * r) one →
  2 ^ 106 * (1000000000 * a) <= (2 ^ 53 + 1) * (2 ^ 53 + 1) * (d * one) →
  2 ^ 159 * 1000000000 * x <= (2 ^ 53 + 1) ^ 3 * (d * r) + 2 ^ 159 * 1000000000.
Proof.
  intros Ha Hr Hd -> Hel. pose proof one_pos as Hone.
  pose proof (round_nonneg_error (a * r) one ltac:(nia) Hone) as He.
  set (X := round_nonneg (a * r) one) in *.
  apply (Z.mul_le_mono_pos_r _ _ one Hone).
  apply (Z.mul_le_mono_nonneg_r _ _ r Hr) in Hel.
  change ((2 ^ 53 + 1) ^ 3) with ((2 ^ 53 + 1) * ((2 ^ 53 + 1) * (2 ^ 53 + 1))).
  lia.
Qed.

(** The rate bound in one step. *)
Definition rate_scale : Z := 2 ^ 159 * 1000000000.
Definition rate_slack : Z := (2 ^ 53 + 1) ^ 3.

Lemma refill_gain l r k k' now :
  bucket l r k → bucket (refill l now) r k' → now - last_refill l < 2 ^ 64 * 1000000000 →
  2 ^ 52 * (rate_scale * k') <=
    2 ^ 52 * (rate_scale * k + rate_slack * ((Z.max now (last_refill l) - last_refill l) * r) + 2 * rate_scale) +
    rate_scale * (capacity l * one).
Proof.
  intros Hb Hb' Hd. destruct (capacity_Fin l r k Hb) as [Hcap [Hcmax _]].
  pose proof (bucket_rate _ _ _ Hb) as Hr. pose proof (bucket_rate_rep _ _ _ Hb) as [Hr0 _].
  pose proof (bucket_tokens_rep _ _ _ Hb) as [Hk0 _]. pose proof (bucket_full _ _ _ Hb') as Hfull.
  pose proof (bucket_tokens _ _ _ Hb') as Ht'. cbn [refill tokens capacity] in Ht', Hfull.
  rewrite (bucket_tokens _ _ _ Hb), Hr, Hcap in Ht'.
  set (d := Z.max now (last_refill l) - last_refill l) in *. set (c := capacity l * one) in *.
  destruct (as_secs_bound d) as (a & Ha & [Ha0 _] & Hab); [lia|]. rewrite Ha in Ht'.
  assert (Hd0 : 0 <= d) by lia. assert (Har : 0 <= a * r) by nia. pose proof one_pos as Hone.
  set (x := round_nonneg (a * r) one).
  pose proof (elapsed_gain a r d x (proj1 Ha0) (proj1 Hr0) Hd0 eq_refl Hab) as Hgain.
  assert (Hx0 : 0 <= x) by apply (round_nonneg_rep (a * r) one Har Hone).
  assert (Hkx : 0 <= k + x) by lia. assert (H1 : 0 < 1) by lia.
  assert (Hle : k' <= round_nonneg (k + x) 1 ∨ k' <= x).
  { cbn [mul] in Ht'. destruct (round_cases (a * r) one c Har Hone (proj2 Hcmax)) as [[_ Hi]|[Hf _]];
      [right; lia|left]. rewrite Hf in Ht'. cbn [add] in Ht'. fold x in Ht'.
    destruct (round_cases (k + x) 1 c Hkx H1 (proj2 Hcmax)) as [[_ Hi]|[Hg _]]; [lia|].
    rewrite Hg in Ht'. cbn [min leb] in Ht'.
    destruct (Z.leb_spec (round_nonneg (k + x) 1) c); injection Ht'; lia. }
  unfold rate_scale, rate_slack in *. set (e := (2 ^ 53 + 1) ^ 3 * (d * r)) in *.
  assert (Hs : 2 ^ 52 * k' <= 2 ^ 52 * (k + x) + c + 2 ^ 52).
  { destruct Hle as [Hle|Hle]; [apply capped_sum_error; [apply Hk0|done..]|lia]. }
  lia.
Qed.

(** The number of requests admitted. *)
Fixpoint admitted (oks : list bool) : Z :=
  match oks with [] => 0 | ok :: oks => (if ok : bool then 1 else 0) + admitted oks end.

Lemma bucket_run_last l r k nows :
  bucket l r k → last_refill (bucket_run l nows).2 = foldl Z.max (last_refill l) nows.
Proof.
  revert l k. induction nows as [|t nows IH]; intros l k Hb; [done|]. cbn [bucket_run foldl].
  pose proof (consume_one_bucket l r k t Hb) as Hc.
  destruct (try_consume_with_retry_at 1 t l) as [a l1]. destruct Hc as (k1 & _ & _ & Hb2 & _ & Hlast).
  specialize (IH l1 _ Hb2). destruct (bucket_run l1 nows) as [oks l2]. cbn [snd] in *.
  by rewrite IH, Hlast, Z.max_comm.
Qed.

Lemma bucket_run_rate l r k nows :
  bucket l r k → Forall (λ t, t - last_refill l < 2 ^ 64 * 1000000000) nows →
  let '(oks, l') := bucket_run l nows in
  last_refill l <= last_refill l' ∧ ∃ k', bucket l' r k' ∧
  2 ^ 52 * (rate_scale * (admitted oks * one + k')) <=
    2 ^ 52 * (rate_scale * k + rate_slack * ((last_refill l' - last_refill l) * r)) +
    Z.of_nat (length nows) * (rate_scale * (2 ^ 53 + capacity l * one)).
Proof.
  revert l k. induction nows as [|t nows IH]; intros l k Hb Ht.
  { cbn [bucket_run]. split; [lia|]. exists k. split; [done|]. cbn [admitted length]. lia. }
  apply Forall_cons in Ht as [Ht Hts]. cbn [bucket_run length].
  pose proof (consume_one_bucket l r k t Hb) as Hc.
  destruct (try_consume_with_retry_at 1 t l) as [a l1]. destruct Hc as (k1 & Hb1 & _ & Hb2 & Hcap & Hlast).
  pose proof (refill_gain l r k k1 t Hb Hb1 Ht) as Hgain. rewrite <- Hlast in Hgain.
  assert (Hl1 : last_refill l <= last_refill l1) by lia.
  specialize (IH l1 _ Hb2). destruct (bucket_run l1 nows) as [oks l2].
  destruct IH as (Hl2 & k' & Hb' & IH); [eapply Forall_impl; [exact Hts|]; intros s Hs; cbn in Hs; lia|].
  split; [lia|]. exists k'. split; [done|]. rewrite Hcap in IH.
  unfold rate_scale, rate_slack in *. rewrite Nat2Z.inj_succ.
  set (N := Z.of_nat (length nows)) in *. set (c := capacity l * one) in *.
  set (g1 := (last_refill l1 - last_refill l) * r) in *. set (g2 := (last_refill l2 - last_refill l1) * r) in *.
  replace ((last_refill l2 - last_refill l) * r) with (g1 + g2) by (unfold g1, g2; ring).
  cbn [admitted]. destruct (is_allowed a); lia.
Qed.

(** C38: The rate is enforced: whatever a client does, of [n] requests over a time
    [T] a new bucket admits at most [capacity + rate * T * (1 + 2^-53)^3 + n *
    (capacity * 2^-52 + 2^-1073)], where [T] is the time from the creation of the
    bucket to the last request and the deviations from [capacity + rate * T] are
    the rounding errors of the binary64 arithmetic.  (The inequality is multiplied
    by [2^211 * 10^9], tokens are in units of [2^-1074], times in nanoseconds.) *)
Theorem token_rate_bound cap rate t0 nows :
  f64_valid rate → 0 <= cap → Forall (λ t, t - t0 < 2 ^ 64 * 1000000000) nows →
  let l := TokenBucket_new_at cap rate t0 in
  let '(oks, l') := bucket_run l nows in
  ∃ r, sanitized_rate rate = Fin r ∧
    last_refill l' = foldl Z.max t0 nows ∧
    2 ^ 211 * 1000000000 * (admitted oks * one) <=
      2 ^ 211 * 1000000000 * (capacity l * one) +
      2 ^ 52 * (2 ^ 53 + 1) ^ 3 * ((last_refill l' - t0) * r) +
      Z.of_nat (length nows) * (2 ^ 159 * 1000000000 * (capacity l * one + 2 ^ 53)).
Proof.
  intros Hv Hcap Ht l. destruct (bucket_new cap rate t0 Hv Hcap) as (r & Hr & Hb & Hlast & _). fold l in Hb, Hlast.
  rewrite <- Hlast in Ht. pose proof (bucket_run_rate l r _ nows Hb Ht) as H.
  pose proof (bucket_run_last l r _ nows Hb) as Hl'.
  destruct (bucket_run l nows) as [oks l']. destruct H as (_ & k' & Hb' & H).
  exists r. split; [exact Hr|]. split; [by rewrite <- Hlast|].
  pose proof (bucket_tokens_rep _ _ _ Hb') as [Hk' _]. unfold rate_scale, rate_slack in H. rewrite Hlast in H. lia.
Qed.
