(* ===== verification/TokenMiddleware.v ===== *)
(** The token-bucket middleware over all its partitions: evicting and creating
    partitions again never raises a client's rate. *)
From stdpp Require Import base list gmap strings sorting.
From Stdlib Require Import ZArith Lia.
From S2P Require Import Prelude Utf8 RequestId JsonRpc RateLimit PartitionStoreFacts Float64.
From S2P Require Import TokenBucket TokenBucketRate.
Import F64.

(** [Duration::MAX], rounded up. *)
Definition duration_limit : Z := 2 ^ 64 * 1000000000.

Lemma refill_idempotent l r k now : bucket l r k → refill (refill l now) now = refill l now.
Proof.
  intros Hb. destruct (refill_bucket l r k Hb now) as (k1 & Hb1 & _).
  destruct (refill_bucket _ r k1 Hb1 now) as (k2 & Hb2 & _ & Hsame).
  rewrite Hsame in Hb2 by (simpl; lia). pose proof (bucket_tokens _ _ _ Hb1) as H1.
  pose proof (bucket_tokens _ _ _ Hb2) as H2. rewrite <- H1 in H2.
  set (l1 := refill l now) in *. unfold refill in H2 |- *. cbn [tokens] in H2. rewrite H2.
  rewrite Z.max_r by (subst l1; simpl; lia). by destruct l1.
Qed.

Lemma take_last l r k t :
  bucket l r k → last_refill (try_consume_with_retry_at 1 t l).2 = Z.max t (last_refill l).
Proof.
  intros Hb. pose proof (consume_one_bucket l r k t Hb) as H. destruct (try_consume_with_retry_at 1 t l) as [ad l'].
  destruct H as (_ & _ & _ & _ & _ & Hlast). exact Hlast.
Qed.

(** A bucket that holds its capacity. *)
Definition full (l : TokenBucketRateLimiter) : bool := leb (of_uint (capacity l)) (tokens l).

Lemma full_refill l r k now : bucket l r k → full l = true → bucket (refill l now) r (capacity l * one).
Proof.
  intros Hb Hf. destruct (refill_bucket l r k Hb now) as (k1 & Hb1 & Hle & _).
  unfold full in Hf. rewrite (proj1 (capacity_Fin l r k Hb)), (bucket_tokens _ _ _ Hb) in Hf.
  apply Z.leb_le in Hf. pose proof (bucket_full _ _ _ Hb1) as Hmax.
  change (capacity (refill l now)) with (capacity l) in Hmax.
  replace (capacity l * one) with k1 by lia. done.
Qed.

Section lives.
Context {Value : Type} (mw : RateLimitingMiddleware Value).
Context (Hrate : f64_valid (max_requests_per_second mw)) (Hburst : 0 <= burst_capacity mw).
Context (Httl : 0 <= partition_idle_ttl mw).

Definition fresh (t : Z) : TokenBucketRateLimiter :=
  TokenBucket_new_at (burst_capacity mw) (max_requests_per_second mw) t.

Definition cap : Z := capacity (fresh 0).
Definition rate : f64 := sanitized_rate (max_requests_per_second mw).

(** The life of a bucket that is never replaced: it is created full, looked at,
    and asked for tokens at increasing times.  [n] bounds the number of steps,
    the log has the requests with their times and the answers. *)
Inductive life : nat → list (Z * bool) → TokenBucketRateLimiter → Prop :=
| life_new t : life 0 [] (fresh t)
| life_wait n log l : life n log l → life (S n) log l
| life_look n log l t :
    life n log l → t - last_refill l < duration_limit → life (S n) log (refill l t)
| life_take n log l t :
    life n log l → last_refill l <= t → t - last_refill l < duration_limit →
    life (S n) (log ++ [(t, is_allowed (try_consume_with_retry_at 1 t l).1)])
      (try_consume_with_retry_at 1 t l).2.

Lemma life_more n n' log l : life n log l → (n ≤ n')%nat → life n' log l.
Proof. intros Hl. induction 1; [done|by constructor]. Qed.

Lemma life_bucket n log l :
  life n log l → ∃ r k, rate = Fin r ∧ bucket l r k ∧ capacity l = cap ∧ refill_rate l = rate.
Proof.
  destruct (sanitized_rate_Fin _ Hrate) as (r & Hr & Hrep).
  induction 1 as [t|n log l Hl IH|n log l t Hl IH Ht|n log l t Hl IH Ht Hd].
  - destruct (bucket_new (burst_capacity mw) _ t Hrate Hburst) as (r' & Hr' & Hb & _).
    exists r'. eexists. split_and!; [exact Hr'|exact Hb|reflexivity|reflexivity].
  - done.
  - destruct IH as (r' & k & ? & Hb & ? & ?). destruct (refill_bucket l r' k Hb t) as (k' & Hb' & _). by exists r', k'.
  - destruct IH as (r' & k & Hrate' & Hb & Hc & Hrr). pose proof (consume_one_bucket l r' k t Hb) as H.
    destruct (try_consume_with_retry_at 1 t l) as [a l']. destruct H as (k1 & _ & _ & Hb' & Hc' & _).
    exists r'. eexists. split_and!; [done|exact Hb'|cbn [snd]; congruence|]. cbn [snd]. rewrite (bucket_rate _ _ _ Hb'). by symmetry.
Qed.

Lemma admitted_app a b : admitted (a ++ b) = admitted a + admitted b.
Proof. induction a as [|ok a IH]; cbn [admitted app]; lia. Qed.

(** How many of the requests from one at time [a] on were admitted. *)
Lemma life_suffix n log l r k :
  life n log l → bucket l r k → ∀ pre a ok mid, log = pre ++ (a, ok) :: mid →
  a <= last_refill l ∧
  2 ^ 52 * (rate_scale * (admitted (ok :: mid.*2) * one + k)) <=
    2 ^ 52 * (rate_scale * (cap * one) + rate_slack * ((last_refill l - a) * r)) +
    Z.of_nat n * (rate_scale * (2 ^ 53 + cap * one)).
Proof.
  intros Hl. revert k. induction Hl as [t|n log l Hl IH|n log l t Hl IH Ht|n log l t Hl IH Ht Hd];
    intros k Hb pre a ok mid Hlog.
  - by destruct pre.
  - destruct (IH k Hb _ _ _ _ Hlog) as [Ha Hle]. split; [done|].
    pose proof (bucket_capacity _ _ _ Hb). destruct (life_bucket _ _ _ Hl) as (_ & _ & _ & _ & Hc & _).
    rewrite Hc in *. pose proof one_pos. rewrite Nat2Z.inj_succ. unfold rate_scale in *. nia.
  - destruct (life_bucket _ _ _ Hl) as (r0 & k0 & Hr0 & Hb0 & Hc & Hrr).
    assert (r0 = r) as ->.
    { pose proof (bucket_rate _ _ _ Hb) as H1. change (refill_rate (refill l t)) with (refill_rate l) in H1.
      rewrite (bucket_rate _ _ _ Hb0) in H1. by injection H1. }
    destruct (IH k0 Hb0 _ _ _ _ Hlog) as [Ha Hle]. pose proof (refill_gain l r k0 k t Hb0 Hb Ht) as Hg.
    change (last_refill (refill l t)) with (Z.max t (last_refill l)). split; [lia|].
    rewrite Hc in Hg. rewrite Nat2Z.inj_succ. set (lr := Z.max t (last_refill l)) in *.
    replace ((lr - a) * r) with ((lr - last_refill l) * r + (last_refill l - a) * r) by ring.
    unfold rate_scale, rate_slack in *. lia.
  - destruct (life_bucket _ _ _ Hl) as (r0 & k0 & Hr0 & Hb0 & Hc & Hrr).
    pose proof (consume_one_bucket l r0 k0 t Hb0) as Hcons.
    destruct (try_consume_with_retry_at 1 t l) as [ad l']. cbn [fst snd] in *.
    destruct Hcons as (k1 & Hb1 & Hok & Hb2 & Hc2 & Hlast).
    assert (r0 = r ∧ k = if is_allowed ad then k1 - one else k1) as [-> Hk].
    { pose proof (bucket_rate _ _ _ Hb) as H1. rewrite (bucket_rate _ _ _ Hb2) in H1.
      pose proof (bucket_tokens _ _ _ Hb) as H2. rewrite (bucket_tokens _ _ _ Hb2) in H2.
      by injection H1; injection H2. }
    rewrite Hlast, Z.max_l by done. rewrite Nat2Z.inj_succ. pose proof one_pos as Hone.
    pose proof (bucket_full _ _ _ Hb1) as Hfull. change (capacity (refill l t)) with (capacity l) in Hfull.
    pose proof (bucket_capacity _ _ _ Hb0) as Hcap. rewrite Hc in Hfull, Hcap.
    destruct mid as [|[b ok'] mid _] using rev_ind.
    + apply app_inj_tail in Hlog as [-> [= <- <-]]. split; [lia|]. rewrite Z.sub_diag, Z.mul_0_l.
      cbn [admitted fmap list_fmap]. unfold rate_scale in *. destruct (is_allowed ad); nia.
    + change (pre ++ (a, ok) :: mid ++ [(b, ok')]) with (pre ++ ((a, ok) :: mid) ++ [(b, ok')]) in Hlog.
      rewrite (assoc_L (++)) in Hlog. apply app_inj_tail in Hlog as [-> [= <- <-]].
      destruct (IH k0 Hb0 pre a ok mid eq_refl) as [Ha Hle]. split; [lia|].
      pose proof (refill_gain l r k0 k1 t Hb0 Hb1 Hd) as Hg. rewrite Z.max_l, Hc in Hg by done.
      rewrite fmap_app, app_comm_cons, admitted_app. cbn [admitted fmap list_fmap snd].
      replace ((t - a) * r) with ((t - last_refill l) * r + (last_refill l - a) * r) by ring.
      cbn [admitted] in Hle. set (A := admitted (mid.*2)) in *.
      unfold rate_scale, rate_slack in *. destruct (is_allowed ad); lia.
Qed.

Lemma life_prefix n log1 log2 l b ok :
  life n ((log1 ++ [(b, ok)]) ++ log2) l →
  ∃ l1, life n (log1 ++ [(b, ok)]) l1 ∧ last_refill l1 = b.
Proof.
  remember ((log1 ++ [(b, ok)]) ++ log2) as log eqn:Hlog. intros Hl. revert log2 Hlog.
  induction Hl as [t|n log l Hl IH|n log l t Hl IH Ht|n log l t Hl IH Ht Hd]; intros log2 Hlog.
  - destruct log1; discriminate.
  - destruct (IH log2 Hlog) as (l1 & Hl1 & Hb). exists l1. split; [by constructor|done].
  - destruct (IH log2 Hlog) as (l1 & Hl1 & Hb). exists l1. split; [by constructor|done].
  - destruct log2 as [|x log2 _] using rev_ind.
    + rewrite app_nil_r in Hlog. rewrite <- Hlog. apply app_inj_tail in Hlog as [_ Hlast].
      eexists. split; [exact (life_take _ _ _ _ Hl Ht Hd)|]. destruct (life_bucket _ _ _ Hl) as (r & k & _ & Hb & _).
      rewrite (take_last l r k t Hb), Z.max_l by exact Ht. exact (f_equal fst Hlast).
    + rewrite (assoc_L (++)) in Hlog. apply app_inj_tail in Hlog as [-> _].
      destruct (IH log2 eq_refl) as (l1 & Hl1 & Hb). exists l1. split; [by constructor|done].
Qed.

(** The rate over an interval of the log, from a request at [a] to one at [b]:
    at most [cap + rate * (b - a)], up to rounding in each of [n] steps. *)
Definition rate_ok (n : nat) (log : list (Z * bool)) : Prop :=
  ∀ r pre seg post a b oka okb,
    rate = Fin r → log = pre ++ seg ++ post → head seg = Some (a, oka) → last seg = Some (b, okb) →
    2 ^ 211 * 1000000000 * (admitted seg.*2 * one) <=
      2 ^ 211 * 1000000000 * (cap * one) + 2 ^ 52 * (2 ^ 53 + 1) ^ 3 * ((b - a) * r) +
      Z.of_nat n * (2 ^ 159 * 1000000000 * (cap * one + 2 ^ 53)).

Lemma life_rate n log l : life n log l → rate_ok n log.
Proof.
  intros Hl r pre seg post a b oka okb Hr -> Ha Hb. apply last_Some in Hb as [seg' ->].
  rewrite !(assoc_L (++)) in Hl. apply life_prefix in Hl as (l1 & Hl & Hlast).
  destruct (life_bucket _ _ _ Hl) as (r' & k & Hr' & Hbk & _). rewrite Hr in Hr'. injection Hr' as <-.
  assert (∃ mid, seg' ++ [(b, okb)] = (a, oka) :: mid) as [mid Hmid].
  { destruct (seg' ++ [(b, okb)]) as [|x mid]; [done|]. injection Ha as ->. eauto. }
  rewrite <- (assoc_L (++)), Hmid in Hl. destruct (life_suffix _ _ _ _ _ Hl Hbk _ _ _ _ eq_refl) as [_ Hle].
  rewrite Hmid. rewrite Hlast in Hle. pose proof (bucket_tokens_rep _ _ _ Hbk) as [Hk _].
  unfold rate_scale, rate_slack in Hle. cbn [fmap list_fmap snd]. lia.
Qed.
End lives.
