(* ===== verification/TokenMiddlewareTheorems.v ===== *)
(** The token-bucket middleware as a whole: the partition store refines one
    bucket per key that is never evicted. *)
From stdpp Require Import base list gmap strings sorting.
From Stdlib Require Import ZArith Lia.
From S2P Require Import Prelude Utf8 RequestId JsonRpc RateLimit PartitionStoreFacts Float64.
From S2P Require Import TokenBucket TokenBucketRate TokenMiddleware.

(** * Histories *)

(** An answered request: its key, whether the key's own bucket answered or the
    shared overflow one, the instant the request sampled, and the answer. *)
Record Answer : Type := {
  ans_key : Sha256Digest;
  ans_dedicated : bool;
  ans_time : Z;
  ans_ok : bool;
}.

Definition answer_entry (a : Answer) : Z * bool := (ans_time a, ans_ok a).

Definition bucket_log (k : Sha256Digest) (h : list Answer) : list (Z * bool) :=
  answer_entry <$> filter (λ a, ans_key a = k ∧ ans_dedicated a = true) h.

Definition shared_log (h : list Answer) : list (Z * bool) :=
  answer_entry <$> filter (λ a, ans_dedicated a = false) h.

Lemma bucket_log_app k h1 h2 : bucket_log k (h1 ++ h2) = bucket_log k h1 ++ bucket_log k h2.
Proof. unfold bucket_log. by rewrite filter_app, fmap_app. Qed.

Lemma shared_log_app h1 h2 : shared_log (h1 ++ h2) = shared_log h1 ++ shared_log h2.
Proof. unfold shared_log. by rewrite filter_app, fmap_app. Qed.

Lemma bucket_log_one k a :
  bucket_log k [a] = if bool_decide (ans_key a = k) && ans_dedicated a then [answer_entry a] else [].
Proof.
  unfold bucket_log. rewrite filter_cons, filter_nil. case_decide as Hd; case_bool_decide; destruct (ans_dedicated a);
    naive_solver.
Qed.

Lemma shared_log_one a : shared_log [a] = if ans_dedicated a then [] else [answer_entry a].
Proof. unfold shared_log. rewrite filter_cons, filter_nil. by destruct (ans_dedicated a). Qed.

Section middleware.
Context {Value : Type} (mw : RateLimitingMiddleware Value).
Context (Hrate : f64_valid (max_requests_per_second mw)) (Hburst : 0 <= burst_capacity mw).
Context (Httl : 0 <= partition_idle_ttl mw).
Abbreviation Buckets := (Shared TokenBucketRateLimiter).
Implicit Types (s : Buckets) (h : list Answer).

Definition answer_of (key : Sha256Digest) (t : Z) (a : RateLimitAdmission) (s : Buckets) : Answer :=
  {| ans_key := key; ans_dedicated := bool_decide (key ∈ store_dom s); ans_time := t; ans_ok := is_allowed a |}.

(** The states of a middleware created at [t0] whose last request sampled [t]:
    requests are handled in the order of the instants they sampled. *)
Inductive token_served (t0 : Z) : Z → Buckets → list Answer → Prop :=
| token_served_new g :
    token_served t0 t0 {| limiters := PartitionStore_new; overflow_limiter := fresh mw t0;
                    global_limiter := g; ticks := 0 |} []
| token_served_request t s h key t' a s' :
    token_served t0 t s h → t <= t' → t' - t0 < duration_limit →
    get_or_create_limiter_with_retry_at mw key t' s = (Ok a, s') →
    token_served t0 t' s' (h ++ [answer_of key t' a s']).

(** * The invariant *)

(** A bucket with its life, between the two times. *)
Record alive (t0 t : Z) (n : nat) (log : list (Z * bool)) (l : TokenBucketRateLimiter) : Prop := {
  alive_life : life mw n log l;
  alive_range : t0 <= last_refill l <= t;
}.

Lemma alive_more t0 t t' n n' log l : alive t0 t n log l → t <= t' → (n ≤ n')%nat → alive t0 t' n' log l.
Proof. intros [Hl Hr] Ht Hn. split; [by eapply life_more|lia]. Qed.

Lemma alive_bucket t0 t n log l :
  alive t0 t n log l → ∃ r k, bucket l r k ∧ capacity l = cap mw ∧ refill_rate l = rate mw.
Proof. intros [Hl _]. destruct (life_bucket mw Hrate Hburst _ _ _ Hl) as (r & k & _ & Hb & Hc & Hr). eauto. Qed.

Lemma alive_look t0 t t' n log l :
  alive t0 t n log l → t <= t' → t' - t0 < duration_limit → alive t0 t' (S n) log (refill l t').
Proof.
  intros [Hl Hr] Ht Hd. split; [apply life_look; [done|lia]|]. simpl. lia.
Qed.

Lemma alive_take t0 t t' n log l :
  alive t0 t n log l → t <= t' → t' - t0 < duration_limit →
  alive t0 t' (S n) (log ++ [(t', is_allowed (try_consume_with_retry_at 1 t' l).1)])
    (try_consume_with_retry_at 1 t' l).2.
Proof.
  intros Ha Ht Hd. destruct (alive_bucket _ _ _ _ _ Ha) as (r & k & Hb & _). destruct Ha as [Hl Hr].
  split; [apply life_take; [done|lia|lia]|]. rewrite (take_last l r k t' Hb). lia.
Qed.

(** A full bucket of the past behaves like a new one. *)
Lemma full_like_fresh t0 t n log l t' :
  alive t0 t n log l → full l = true → t <= t' →
  try_consume_with_retry_at 1 t' (fresh mw t') = try_consume_with_retry_at 1 t' l.
Proof.
  intros Ha Hf Ht. destruct (alive_bucket _ _ _ _ _ Ha) as (r & k & Hb & Hc & Hr).
  assert (Heq : fresh mw t' = refill l t').
  { pose proof (full_refill l r k t' Hb Hf) as Hb'. destruct Ha as [_ Hlast].
    pose proof (bucket_tokens _ _ _ Hb') as Htok. rewrite <- (proj1 (capacity_Fin l r k Hb)) in Htok.
    unfold refill in Htok |- *. cbn [tokens] in Htok. rewrite Htok, Hr, Hc, Z.max_l by lia. reflexivity. }
  unfold try_consume_with_retry_at. by rewrite Heq, (refill_idempotent l r k t' Hb).
Qed.

Record token_inv (t0 t : Z) (n : nat) s h : Prop := {
  token_inv_store : store_ok (limiters s);
  token_inv_limiters k e :
    entries (limiters s) !! k = Some e → alive t0 t n (bucket_log k h) (limiter e);
  token_inv_absent k : k ∉ store_dom s →
    bucket_log k h = [] ∨ ∃ l, alive t0 t n (bucket_log k h) l ∧ full l = true;
  token_inv_overflow : alive t0 t n (shared_log h) (overflow_limiter s);
  token_inv_size : PartitionStore_len (limiters s) <= MAX_NAMED_CLIENT_PARTITIONS;
}.

Lemma token_inv_new t0 g :
  token_inv t0 t0 0 {| limiters := PartitionStore_new; overflow_limiter := fresh mw t0;
                 global_limiter := g; ticks := 0 |} [].
Proof.
  split; simpl; [apply store_ok_new| |by left| |done].
  - intros k e. by rewrite lookup_empty.
  - split; [apply life_new|simpl; lia].
Qed.

(** ** Logs after an answer *)

Lemma bucket_log_other k key t a s h :
  k ≠ key → bucket_log k (h ++ [answer_of key t a s]) = bucket_log k h.
Proof.
  intros Hne. rewrite bucket_log_app, bucket_log_one, bool_decide_false, app_nil_r; [done|].
  simpl. congruence.
Qed.

Lemma bucket_log_dedicated key t a s h :
  key ∈ store_dom s →
  bucket_log key (h ++ [answer_of key t a s]) = bucket_log key h ++ [(t, is_allowed a)] ∧
  shared_log (h ++ [answer_of key t a s]) = shared_log h.
Proof.
  intros Hk. rewrite bucket_log_app, shared_log_app, bucket_log_one, shared_log_one. simpl.
  by rewrite !bool_decide_true, app_nil_r by done.
Qed.

Lemma bucket_log_overflow k key t a s h :
  key ∉ store_dom s →
  bucket_log k (h ++ [answer_of key t a s]) = bucket_log k h ∧
  shared_log (h ++ [answer_of key t a s]) = shared_log h ++ [(t, is_allowed a)].
Proof.
  intros Hk. rewrite bucket_log_app, shared_log_app, bucket_log_one, shared_log_one. simpl.
  by rewrite (bool_decide_false (key ∈ _)), andb_false_r, app_nil_r by done.
Qed.

Lemma store_dom_touched key e r n s :
  key ∈ store_dom (set_ticks n (set_limiters {| entries := <[key := e]> (entries (limiters s)); recency := r |} s)).
Proof. unfold store_dom. simpl. apply elem_of_dom_2 with e. by apply lookup_insert_eq. Qed.

(** The bucket of a key takes the place it has or gets. *)
Lemma token_inv_touched t0 t t' n n' s h key a l u r :
  token_inv t0 t n s h → t <= t' → (n ≤ n')%nat →
  let s' := set_limiters {| entries := <[key := {| limiter := l; last_seen := u |}]> (entries (limiters s));
                            recency := r |} s in
  store_ok (limiters s') → PartitionStore_len (limiters s') <= MAX_NAMED_CLIENT_PARTITIONS →
  alive t0 t' n' (bucket_log key h ++ [(t', is_allowed a)]) l →
  token_inv t0 t' n' s' (h ++ [answer_of key t' a s']).
Proof.
  intros [Hok Hl Ha Ho Hsz] Ht Hn s' Hok' Hsz' Hnew.
  assert (Hin : key ∈ store_dom s') by (unfold store_dom; simpl; set_solver).
  destruct (bucket_log_dedicated key t' a s' h Hin) as [Hlog Hshared].
  split; rewrite ?Hshared; [done| | |by eapply alive_more|done].
  - intros k e. simpl. destruct (decide (k = key)) as [->|Hne].
    + rewrite lookup_insert_eq. intros [= <-]. by rewrite Hlog.
    + rewrite lookup_insert_ne by done. intros He. rewrite bucket_log_other by done.
      eapply alive_more; [by apply Hl|done|done].
  - intros k Hk. assert (k ≠ key ∧ k ∉ store_dom s) as [Hne Hk'] by (unfold store_dom in *; simpl in Hk; set_solver).
    rewrite bucket_log_other by done. destruct (Ha k Hk') as [Hnil|(l' & Hl' & Hf)]; [by left|right].
    exists l'. split; [by eapply alive_more|done].
Qed.

Lemma token_inv_overflowed t0 t t' n n' s h key a l :
  token_inv t0 t n s h → t <= t' → (n ≤ n')%nat → key ∉ store_dom s →
  alive t0 t' n' (shared_log h ++ [(t', is_allowed a)]) l →
  token_inv t0 t' n' (set_overflow l s) (h ++ [answer_of key t' a (set_overflow l s)]).
Proof.
  intros [Hok Hl Ha Ho Hsz] Ht Hn Hkey Hnew.
  assert (Hlog : ∀ k, bucket_log k (h ++ [answer_of key t' a (set_overflow l s)]) = bucket_log k h)
    by (intros k; by apply bucket_log_overflow).
  destruct (bucket_log_overflow key key t' a (set_overflow l s) h Hkey) as [_ Hshared].
  split; rewrite ?Hshared; [done| | |done|done].
  - intros k e He. rewrite Hlog. eapply alive_more; [by apply Hl|done|done].
  - intros k Hk. rewrite Hlog. destruct (Ha k Hk) as [Hnil|(l' & Hl' & Hf)]; [by left|right].
    exists l'. split; [by eapply alive_more|done].
Qed.

(** ** Reclamation *)

Lemma bucket_is_reset_spec t0 t t' n h :
  t <= t' → t' - t0 < duration_limit →
  tests_reset (E := McpError) (λ k l _, ∃ l0, alive t0 t n (bucket_log k h) l0 ∧ (l = l0 ∨ l = refill l0 t'))
    (λ k _, ∃ l, alive t0 t' (S n) (bucket_log k h) l ∧ full l = true) (λ _ _, True) (bucket_is_reset t').
Proof.
  intros Ht Hd k l s (l0 & Ha & Hl). destruct (alive_bucket _ _ _ _ _ Ha) as (r & k0 & Hb & _).
  assert (Hr : refill l t' = refill l0 t').
  { destruct Hl as [->| ->]; [done|by eapply refill_idempotent]. }
  unfold bucket_is_reset, available_tokens_at. rewrite Hr.
  eexists _, (refill l0 t'), (ticks s). split; [by destruct s|]. split; [done|]. split; [by exists l0; auto|].
  assert (Hc : capacity l = capacity (refill l0 t')) by (rewrite <- Hr; done). rewrite Hc.
  change (F64.leb (F64.of_uint (capacity (refill l0 t'))) (tokens (refill l0 t'))) with (full (refill l0 t')).
  destruct (full (refill l0 t')) eqn:Hf; [|by exists (ticks s)].
  exists (refill l0 t'). split; [by eapply alive_look|done].
Qed.

(** Making room keeps every key's log alive, with one more step. *)
Lemma no_room_spec t0 t t' n s h key :
  token_inv t0 t n s h → t <= t' → t' - t0 < duration_limit → key ∉ store_dom s →
  ∃ full s1, no_room mw t' s = (Ok full, s1) ∧ token_inv t0 t' (S n) s1 h ∧ key ∉ store_dom s1 ∧
    overflow_limiter s1 = overflow_limiter s ∧
    (full = false → PartitionStore_len (limiters s1) < MAX_NAMED_CLIENT_PARTITIONS).
Proof.
  intros Hinv Ht Hd Hkey. pose proof Hinv as [Hok Hl Ha Ho Hsz]. unfold no_room, bind at 1, get.
  destruct (Z.leb_spec MAX_NAMED_CLIENT_PARTITIONS (PartitionStore_len (limiters s))) as [Hfull|]; cycle 1.
  { exists false, s. split_and!; try done. split; [done| | | |done].
    - intros k e He. eapply alive_more; [by apply Hl|done|lia].
    - intros k Hk. destruct (Ha k Hk) as [?|(l & ? & ?)]; [by left|right]. exists l.
      split; [eapply alive_more; [done..|lia]|done].
    - eapply alive_more; [done..|lia]. }
  pose (P := λ (k : Sha256Digest) l (_ : nat), ∃ l0, alive t0 t n (bucket_log k h) l0 ∧ (l = l0 ∨ l = refill l0 t')).
  assert (HlP : limiters_ok P s) by (intros k e He; exists (limiter e); auto).
  destruct (reclaim_oldest_if_spec (E := McpError) P _ (λ k l _ _ Hp _, Hp) (λ _ _, True) t' (partition_idle_ttl mw)
    (bucket_is_reset t') s (bucket_is_reset_spec t0 t t' n h Ht Hd) Httl Hok HlP)
    as (b & s1 & Hrun & (Hov & _ & _) & Hok1 & Hl1 & Hb).
  rewrite (bind_ok _ _ _ _ _ Hrun). exists (negb b), s1. split; [done|].
  assert (Hlen : ∀ s, PartitionStore_len (limiters s) = Z.of_nat (size (store_dom s))).
  { intros s0. unfold PartitionStore_len, store_dom. by rewrite size_dom. }
  assert (Hlive : ∀ k e, entries (limiters s1) !! k = Some e → alive t0 t' (S n) (bucket_log k h) (limiter e)).
  { intros k e He. destruct (Hl1 k e He) as (l0 & Ha0 & [Hl0|Hl0]); rewrite Hl0;
      [eapply alive_more; [done..|lia]|by eapply alive_look]. }
  assert (Hgone : ∀ k, k ∉ store_dom s → bucket_log k h = [] ∨ ∃ l, alive t0 t' (S n) (bucket_log k h) l ∧ full l = true).
  { intros k Hk. destruct (Ha k Hk) as [?|(l & ? & ?)]; [by left|right]. exists l.
    split; [eapply alive_more; [done..|lia]|done]. }
  assert (Ho1 : alive t0 t' (S n) (shared_log h) (overflow_limiter s1)) by (rewrite Hov; eapply alive_more; [done..|lia]).
  change (PartitionStore_len (limiters s) <= MAX_NAMED_CLIENT_PARTITIONS) in Hsz.
  destruct b; cbn [negb].
  - destruct Hb as (u & k & Hin & _ & HR & Hdom & _).
    assert (Hk : k ∈ store_dom s) by (apply Hok in Hin as (e & He & _); by apply elem_of_dom_2 in He).
    assert (Hsmaller : (size (store_dom s1) < size (store_dom s))%nat)
      by (rewrite Hdom; apply subset_size; set_solver).
    split_and!; [|rewrite Hdom; set_solver|done|intros _; rewrite Hlen in *; lia].
    split; [done|done| |done|rewrite Hlen in *; lia].
    intros k' Hk'. rewrite Hdom in Hk'. destruct (decide (k' = k)) as [->|Hne]; [by right|apply Hgone; set_solver].
  - destruct Hb as [Hdom _]. split_and!; [|by rewrite Hdom|done|done].
    split; [done|done|by rewrite Hdom|done|]. by rewrite Hlen, Hdom, <- Hlen.
Qed.

(** ** One request *)

Record answered t0 t' n s h (key : Sha256Digest) a s' : Prop := {
  tok_run : get_or_create_limiter_with_retry_at mw key t' s = (Ok a, s');
  tok_inv : token_inv t0 t' (S n) s' (h ++ [answer_of key t' a s']);
  tok_life : ∃ l, life mw n (if decide (key ∈ store_dom s') then bucket_log key h else shared_log h) l ∧
    a = (try_consume_with_retry_at 1 t' l).1;
}.

Lemma consume_one_run t l (s : Buckets) : consume_one t l s = (Ok (try_consume_with_retry_at 1 t l), s).
Proof. reflexivity. Qed.

Lemma answered_existing t0 t t' n s h key e :
  token_inv t0 t n s h → t <= t' → t' - t0 < duration_limit → entries (limiters s) !! key = Some e →
  ∃ a s', answered t0 t' n s h key a s'.
Proof.
  intros Hinv Ht Hd He. pose proof Hinv as [Hok Hl Ha Ho Hsz].
  pose proof (alive_take _ _ t' _ _ _ (Hl key e He) Ht Hd) as Hnew.
  destruct (try_consume_with_retry_at 1 t' (limiter e)) as [a l] eqn:Htry. cbn [fst snd] in Hnew.
  pose proof (use_existing_at_spec (E := McpError) key t' (consume_one t') s e a l (ticks s) Hok He) as Huse.
  rewrite consume_one_run, Htry in Huse. specialize (Huse ltac:(by destruct s)).
  eexists a, _. split.
  - unfold get_or_create_limiter_with_retry_at. rewrite (bind_ok _ _ _ _ _ Huse). reflexivity.
  - apply (token_inv_touched t0 t t' n (S n) s h key a l); [done|done|lia| | |done].
    + by apply store_ok_touch.
    + unfold PartitionStore_len in *. simpl. rewrite map_size_insert, He. done.
  - exists (limiter e). rewrite decide_True by apply store_dom_touched. rewrite Htry.
    split; [exact (alive_life _ _ _ _ _ (Hl key e He))|reflexivity].
Qed.

Lemma answered_absent t0 t t' n s h key :
  token_inv t0 t n s h → t <= t' → t' - t0 < duration_limit → key ∉ store_dom s →
  ∃ a s', answered t0 t' n s h key a s'.
Proof.
  intros Hinv Ht Hd Hkey. assert (He : entries (limiters s) !! key = None) by (by apply not_elem_of_dom).
  destruct (no_room_spec t0 t t' n s h key Hinv Ht Hd Hkey) as (fl & s1 & Hrun & Hinv1 & Hkey1 & Hov & Hroom).
  assert (He1 : entries (limiters s1) !! key = None) by (by apply not_elem_of_dom).
  assert (Hgo : get_or_create_limiter_with_retry_at mw key t' s =
    (if fl then
       let! s := get in
       let! r := consume_one t' (overflow_limiter s) in
       modify (set_overflow r.2) ;! ret r.1
     else
       let! r := consume_one t' (fresh mw t') in
       insert_at key r.2 t' ;! ret r.1) s1).
  { unfold get_or_create_limiter_with_retry_at.
    rewrite (bind_ok _ _ _ _ _ (use_existing_at_None key t' _ s He)). by rewrite (bind_ok _ _ _ _ _ Hrun). }
  destruct fl.
  - unfold bind at 1, get in Hgo. rewrite (bind_ok _ _ _ _ _ (consume_one_run _ _ _)) in Hgo.
    pose proof (alive_take _ _ t' _ _ _ (token_inv_overflow _ _ _ _ _ Hinv) Ht Hd) as Hnew. rewrite <- Hov in Hnew.
    destruct (try_consume_with_retry_at 1 t' (overflow_limiter s1)) as [a l] eqn:Htry. cbn [fst snd] in Hnew, Hgo.
    eexists a, _. split; [exact Hgo|by apply (token_inv_overflowed t0 t' t' (S n) (S n))|].
    exists (overflow_limiter s1). rewrite decide_False by exact Hkey1. rewrite Htry. split; [|reflexivity].
    rewrite Hov. exact (alive_life _ _ _ _ _ (token_inv_overflow _ _ _ _ _ Hinv)).
  - rewrite (bind_ok _ _ _ _ _ (consume_one_run _ _ _)) in Hgo.
    assert (∃ l0, alive t0 t' n (bucket_log key h) l0 ∧
      try_consume_with_retry_at 1 t' (fresh mw t') = try_consume_with_retry_at 1 t' l0) as (l0 & Hl0 & Htry).
    { destruct (token_inv_absent _ _ _ _ _ Hinv key Hkey) as [->|(l & Hl & Hf)].
      - assert (t0 <= t) as Ht0 by (destruct (token_inv_overflow _ _ _ _ _ Hinv) as [_ ?]; lia).
        exists (fresh mw t'). split; [|reflexivity]. split; [eapply life_more; [apply life_new|lia]|simpl; lia].
      - exists l. split; [eapply alive_more; [done..|lia]|exact (full_like_fresh t0 t n _ l t' Hl Hf Ht)]. }
    rewrite Htry in Hgo. pose proof (alive_take _ _ t' _ _ _ Hl0 (Z.le_refl _) Hd) as Hnew.
    destruct (try_consume_with_retry_at 1 t' l0) as [a l] eqn:Htry0. cbn [fst snd] in Hgo, Hnew.
    pose proof (token_inv_store _ _ _ _ _ Hinv1) as Hok1.
    rewrite (bind_ok _ _ _ _ _ (insert_at_spec key l t' s1 Hok1 He1)) in Hgo.
    eexists a, _. split; [exact Hgo| |].
    + apply (token_inv_touched t0 t' t' (S n) (S n) s1 h key a l t'); [done|lia|done|by apply store_ok_insert| |done].
      specialize (Hroom eq_refl). unfold PartitionStore_len in *. simpl. rewrite map_size_insert, He1. lia.
    + exists l0. rewrite decide_True by apply store_dom_touched. rewrite Htry0.
      split; [exact (alive_life _ _ _ _ _ Hl0)|reflexivity].
Qed.

Lemma answered_total t0 t t' n s h key :
  token_inv t0 t n s h → t <= t' → t' - t0 < duration_limit → ∃ a s', answered t0 t' n s h key a s'.
Proof.
  intros Hinv Ht Hd. destruct (entries (limiters s) !! key) as [e|] eqn:He.
  - by eapply answered_existing.
  - eapply answered_absent; [done..|]. by apply not_elem_of_dom.
Qed.

Lemma token_served_inv t0 t s h : token_served t0 t s h → token_inv t0 t (length h) s h.
Proof.
  induction 1 as [g|t s h key t' a s' Hs IH Ht Hd Hrun]; [apply token_inv_new|].
  destruct (answered_total t0 t t' _ s h key IH Ht Hd) as (a' & s1 & [Hrun' Hinv _]). rewrite Hrun in Hrun'.
  injection Hrun' as <- <-. by rewrite length_app, Nat.add_1_r.
Qed.

(** * Theorems *)

(** The bound of [rate_ok] for [span] nanoseconds, in the units of [rate_ok]. *)
Definition rate_budget (n : nat) (r span : Z) : Z :=
  2 ^ 211 * 1000000000 * (cap mw * F64.one) + 2 ^ 52 * (2 ^ 53 + 1) ^ 3 * (span * r) +
  Z.of_nat n * (2 ^ 159 * 1000000000 * (cap mw * F64.one + 2 ^ 53)).

Lemma cap_nonneg : 0 <= cap mw.
Proof.
  destruct (bucket_new (burst_capacity mw) _ 0 Hrate Hburst) as (r & _ & Hb & _). apply (bucket_capacity _ _ _ Hb).
Qed.

(** Any stretch of a log whose requests lie between two instants. *)
Lemma rate_stretch n log pre seg post r a b :
  rate_ok mw n log → rate mw = Fin r → 0 <= r → log = pre ++ seg ++ post → a <= b →
  Forall (λ x, a <= x.1 <= b) seg →
  2 ^ 211 * 1000000000 * (admitted seg.*2 * F64.one) <= rate_budget n r (b - a).
Proof.
  intros Hok Hr H0 Hlog Hab Hseg. pose proof cap_nonneg. unfold rate_budget.
  destruct seg as [|[t ok] seg].
  { change (admitted ([] : list (Z * bool)).*2) with 0. unfold F64.one in *. nia. }
  destruct (last ((t, ok) :: seg)) as [[t' ok']|] eqn:El; [|by apply last_None in El].
  specialize (Hok r pre _ post t t' ok ok' Hr Hlog eq_refl El).
  rewrite Forall_forall in Hseg. apply last_Some_elem_of in El. pose proof (Hseg _ El) as H1.
  pose proof (Hseg (t, ok) ltac:(by left)) as H2. simpl in H1, H2.
  assert ((t' - t) * r <= (b - a) * r) by (apply Z.mul_le_mono_nonneg_r; lia). lia.
Qed.

(** How many requests of a key were admitted, by whatever bucket. *)
Definition key_admitted (k : Sha256Digest) (h : list Answer) : Z :=
  admitted (ans_ok <$> filter (λ x, ans_key x = k) h).

Lemma key_admitted_split k h : key_admitted k h <= admitted (bucket_log k h).*2 + admitted (shared_log h).*2.
Proof.
  unfold key_admitted, bucket_log, shared_log. induction h as [|[key ded t ok] h IH]; [done|].
  rewrite !filter_cons. cbn [ans_key ans_dedicated].
  destruct ded; repeat case_decide; try tauto; unfold fmap in *; cbn [list_fmap answer_entry snd admitted];
    destruct ok; cbn [ans_ok]; lia.
Qed.

(** C9: As long as requests are handled in the order of the instants they
    sampled, and whatever partitions are evicted and created again: between any
    two requests of a key, at [a] and [b], the dedicated buckets of the key admit at
    most [capacity + rate * (b - a)] requests, up to rounding, and so does the
    shared overflow bucket over all its keys.  The requests of a key between two
    instants are admitted by either, so altogether by at most twice that.  There
    are never more than 4095 partitions, and the recency index lists exactly
    them. *)
Theorem token_partitions_bounded t0 t s h :
  token_served t0 t s h →
  (∀ k, rate_ok mw (length h) (bucket_log k h)) ∧ rate_ok mw (length h) (shared_log h) ∧
  (∀ k r pre seg post a b, rate mw = Fin r → h = pre ++ seg ++ post → a <= b →
     Forall (λ x, a <= ans_time x <= b) seg →
     2 ^ 211 * 1000000000 * (key_admitted k seg * F64.one) <= 2 * rate_budget (length h) r (b - a)) ∧
  Z.of_nat (size (entries (limiters s))) <= 4095 ∧ store_ok (limiters s).
Proof.
  intros [Hok Hl Ha Ho Hsz]%token_served_inv.
  assert (Hk : ∀ k, rate_ok mw (length h) (bucket_log k h)).
  { intros k. destruct (entries (limiters s) !! k) as [e|] eqn:He; [by eapply life_rate, alive_life, Hl|].
    destruct (Ha k) as [->|(l & Hlv & _)]; [by apply not_elem_of_dom| |by eapply life_rate, alive_life].
    intros r pre seg post a b oka okb _ Hnil Hhd. exfalso. symmetry in Hnil.
    apply app_eq_nil in Hnil as [_ [-> _]%app_eq_nil]. done. }
  assert (Hs : rate_ok mw (length h) (shared_log h)) by (by eapply life_rate, alive_life).
  split_and!; [done|done| |done|done]. intros k r pre seg post a b Hr Hh Hab Hseg.
  destruct (sanitized_rate_Fin _ Hrate) as (r' & Hr' & [H0 _] & _). assert (r' = r) as -> by (unfold rate in Hr; congruence).
  assert (Hin : ∀ P : Answer → Prop, ∀ `{∀ x, Decision (P x)},
    Forall (λ x, a <= x.1 <= b) (answer_entry <$> filter P seg)).
  { intros P ?. apply Forall_fmap, Forall_forall. intros x [_ Hx]%list_elem_of_filter. rewrite Forall_forall in Hseg. by apply Hseg. }
  pose proof (rate_stretch _ _ (bucket_log k pre) (bucket_log k seg) (bucket_log k post) r a b (Hk k) Hr H0
    ltac:(by rewrite Hh, !bucket_log_app) Hab ltac:(apply Hin)) as H1.
  pose proof (rate_stretch _ _ (shared_log pre) (shared_log seg) (shared_log post) r a b Hs Hr H0
    ltac:(by rewrite Hh, !shared_log_app) Hab ltac:(apply Hin)) as H2.
  pose proof (key_admitted_split k seg). unfold F64.one in *. lia.
Qed.

(** The middleware always answers, without tripping an assertion, and as if
    no partition was ever evicted: there is a bucket that was created once and
    since then only looked at and asked for tokens, with the history of the
    key's answers (of the overflow bucket's, if the key has no partition), and
    the answer, its retry hint included, is the one it gives. *)
Theorem token_eviction_unobservable t0 t t' s h key :
  token_served t0 t s h → t <= t' → t' - t0 < duration_limit →
  ∃ a s' l, get_or_create_limiter_with_retry_at mw key t' s = (Ok a, s') ∧
    life mw (length h) (if decide (key ∈ store_dom s') then bucket_log key h else shared_log h) l ∧
    a = (try_consume_with_retry_at 1 t' l).1.
Proof.
  intros Hs%token_served_inv Ht Hd.
  destruct (answered_total t0 t t' _ s h key Hs Ht Hd) as (a & s' & [Hrun _ (l & Hl & Ha)]).
  exists a, s', l. split; [exact Hrun|]. split; [exact Hl|exact Ha].
Qed.

(** [on_request_at] answers every request without a panic: a cancelled
    context, a rate or a capacity of zero, or an inadmissible key is refused
    before any state changes; under a global limit the one global bucket decides
    and nothing else changes; otherwise the partition of the key does.  A refusal
    carries the method, the identifier and the retry hint under code -32005, and
    a cancellation noticed afterwards still leaves the request counted. *)
Theorem token_on_request_correct sha256 live_before live_after request t0 t t' s h :
  token_served t0 t s h → t <= t' → t' - t0 < duration_limit →
  let reply a := if live_after : bool then
      match a with Allowed => Ok Continue | Rejected ms => Err (rate_limit_retry_error request ms) end
    else Err request_cancelled in
  let '(o, s') := on_request_at sha256 mw live_before live_after request t' s in
  let refused e := o = Err e ∧ s' = s in
  if negb live_before then refused request_cancelled
  else if F64.leb (max_requests_per_second mw) (Fin 0) || (burst_capacity mw =? 0)
  then refused (rate_limit_error RATE_LIMIT_EXCEEDED_MESSAGE)
  else if global_limit mw then
    match global_limiter s with
    | Some l => let '(a, l') := try_consume_with_retry_at 1 t' l in o = reply a ∧ s' = set_global l' s
    | None => o = reply (Rejected u64_max) ∧ s' = s
    end
  else match request_partition_key sha256 (get_client_id mw) request with
       | Ok key => ∃ a, get_or_create_limiter_with_retry_at mw key t' s = (Ok a, s') ∧
           token_served t0 t' s' (h ++ [answer_of key t' a s']) ∧ o = reply a
       | Err e => refused e
       | _ => False
       end.
Proof.
  intros Hs Ht Hd reply. pose proof (token_served_inv t0 t s h Hs) as Hinv.
  assert (Hreply : ∀ (m : M Buckets McpError RateLimitAdmission) a s', m s = (Ok a, s') →
    (let! admission := m in
     if negb live_after then fail request_cancelled
     else match admission with
          | Allowed => ret Continue
          | Rejected retry_after_ms => fail (rate_limit_retry_error request retry_after_ms)
          end) s = (reply a, s')).
  { intros m a s' Hm. rewrite (bind_ok _ _ _ _ _ Hm). unfold reply. destruct live_after; [|done]. by destruct a. }
  unfold on_request_at. destruct live_before; [|by split]. cbn [negb].
  destruct (F64.leb _ _ || _); [by split|]. destruct (global_limit mw).
  - destruct (global_limiter s) as [l|] eqn:Hg.
    + destruct (try_consume_with_retry_at 1 t' l) as [a l'] eqn:Htry.
      rewrite (Hreply _ a (set_global l' s)); [by split|].
      unfold consume_global, bind at 1, get. rewrite Hg, (bind_ok _ _ _ _ _ (consume_one_run _ _ _)), Htry. done.
    + rewrite (Hreply _ (Rejected u64_max) s); [by split|]. unfold consume_global, bind at 1, get. by rewrite Hg.
  - pose proof (settled_partition_key sha256 (get_client_id mw) request) as Hkey.
    destruct (request_partition_key sha256 (get_client_id mw) request) as [key|e| |]; [|by split|done|done].
    destruct (answered_total t0 t t' _ s h key Hinv Ht Hd) as (a & s' & [Hrun _ _]).
    rewrite (Hreply _ a s'); [|exact Hrun]. exists a. split; [exact Hrun|]. split; [|done].
    exact (token_served_request t0 t s h key t' a s' Hs Ht Hd Hrun).
Qed.
End middleware.
