(* ===== verification/RateLimitExamples.v ===== *)
(** Rate limiting on concrete inputs. *)
From stdpp Require Import base list gmap strings sorting.
From Stdlib Require Import ZArith Lia.
From S2P Require Import Prelude Utf8 RequestId JsonRpc RateLimit PartitionStoreFacts.
From S2P Require Import SlidingWindow SlidingWindowTheorems SlidingMiddleware.
From S2P Require Import Float64 TokenBucket TokenBucketRate.
From S2P Require Import TokenMiddleware TokenMiddlewareTheorems.

#[local] Ltac zdec := vm_compute; first [reflexivity | discriminate].

(** A clock that ticks once a second. *)
#[local] Instance ex_clock : Clock := {| instant n := from_secs (Z.of_nat n); instant_min := 0 |}.

#[local] Instance ex_clock_laws : ClockLaws.
Proof. split; intros n; unfold instant, instant_min; simpl; unfold from_secs, NANOS; lia. Qed.

(** ** Sliding windows *)

Definition ex_times : list Z := from_secs <$> [0; 0; 1; 10; 11; 11].

Lemma ex_times_sorted : StronglySorted Z.le (0 :: ex_times).
Proof. repeat constructor; vm_compute; discriminate. Qed.

(** Two requests in ten seconds: the first is still in the closed window at ten. *)
Lemma sliding_window_exact_witness :
  limiter_run (SlidingWindowRateLimiter_new 2 10) ex_times = [true; true; false; false; true; true].
Proof.
  destruct (sliding_window_exact (H := ex_clock) 2 10 0 ex_times ltac:(lia) ltac:(lia) ex_times_sorted ltac:(zdec)) as [H _].
  rewrite H. vm_compute. reflexivity.
Defined.

Definition ex_limiter : SlidingWindowRateLimiter := set_requests [0; 0] (SlidingWindowRateLimiter_new 2 10).

Lemma ex_limiter_tracks : tracks ex_limiter [0; 0] 0.
Proof.
  split.
  - exists 0. split; [lia|]. vm_compute. reflexivity.
  - repeat constructor; lia.
  - repeat constructor; vm_compute; discriminate.
  - intros a. unfold during, zlen. pose proof (length_filter (λ x, a <= x <= a + from_secs (window_seconds ex_limiter)) [0; 0]) as Hl.
    simpl in Hl |- *. lia.
Qed.

Lemma sliding_retry_suffices_witness :
  is_allowed (is_allowed_with_retry_at ex_limiter (from_secs 11)).1 = true.
Proof.
  destruct (sliding_retry_suffices (H := ex_clock) ex_limiter [0; 0] 0 (from_secs 3) 7001 ex_limiter ex_limiter_tracks
    ltac:(vm_compute; discriminate) ltac:(vm_compute; discriminate) ltac:(vm_compute; reflexivity)
    ltac:(vm_compute; discriminate) ltac:(vm_compute; reflexivity) ltac:(vm_compute; reflexivity)) as [H _].
  apply H. vm_compute. discriminate.
Defined.

Definition ex_sliding : SlidingWindowRateLimitingMiddleware unit := (Sliding_new 1 10).1.1.
Definition ex_key : Sha256Digest := [7].

Definition ex_sliding_new : Shared SlidingWindowRateLimiter :=
  {| limiters := PartitionStore_new; overflow_limiter := fresh_limiter ex_sliding;
     global_limiter := None; ticks := 0 |}.

Definition ex_sliding_first : RateLimitAdmission * Shared SlidingWindowRateLimiter :=
  match is_request_allowed_with_retry ex_sliding ex_key ex_sliding_new with
  | (Ok a, s) => (a, s)
  | (_, s) => (Rejected 0, s)
  end.

Definition ex_history : list Admission := observe ex_key ex_sliding_first.1 ex_sliding_first.2.

Lemma ex_sliding_served : served ex_sliding ex_sliding_first.2 ([] ++ ex_history).
Proof. apply (served_request _ ex_sliding_new); [apply served_new|]. vm_compute. reflexivity. Qed.

Lemma sliding_partitions_bounded_witness :
  windows_ok (window ex_sliding) 1 (dedicated_log ex_key ex_history) ∧ dedicated_log ex_key ex_history = [from_secs 1].
Proof.
  split; [|vm_compute; reflexivity].
  exact (proj1 (sliding_partitions_bounded ex_sliding ltac:(zdec) ltac:(zdec) ltac:(zdec)
    _ _ ex_sliding_served) ex_key).
Defined.

(** The second request of the key is refused. *)
Lemma sliding_middleware_decides_witness :
  ∃ a s', is_request_allowed_with_retry ex_sliding ex_key ex_sliding_first.2 = (Ok a, s') ∧ is_allowed a = false.
Proof.
  destruct (sliding_middleware_decides ex_sliding ltac:(zdec) ltac:(zdec) ltac:(zdec)
    _ _ ex_key ex_sliding_served) as (a & s' & n & Hrun & _).
  exists a, s'. split; [exact Hrun|]. vm_compute in Hrun. injection Hrun as <- _. reflexivity.
Defined.

Lemma reclaim_frees_reset_lru_witness :
  ∃ s', reclaim_oldest_if (E := McpError) (from_secs 100) (mw_partition_idle_ttl ex_sliding) window_is_reset
    ex_sliding_first.2 = (Ok false, s') ∧ store_dom s' = store_dom ex_sliding_first.2.
Proof.
  destruct (reclaim_frees_reset_lru ex_sliding ltac:(zdec) ltac:(zdec) ltac:(zdec)
    _ _ (from_secs 100) ex_sliding_served) as (b & s' & Hrun & Hb).
  assert (b = false) as -> by (vm_compute in Hrun; by injection Hrun).
  exists s'. split; [exact Hrun|exact (proj1 Hb)].
Defined.

Definition ex_sha256 (input : list Z) : Sha256Digest := replicate 32 (zlen input `mod` 256).

Definition ex_call : JsonRpcRequest unit := JsonRpcRequest_new (chars_of "tools/call") None (Number 1).

Lemma sliding_on_request_correct_witness :
  ∃ key a s', request_partition_key ex_sha256 (mw_get_client_id ex_sliding) ex_call = Ok key ∧
    is_request_allowed_with_retry ex_sliding key ex_sliding_first.2 = (Ok a, s') ∧ a = Allowed ∧
    on_request ex_sha256 ex_sliding true true ex_call ex_sliding_first.2 = (Ok Continue, s').
Proof.
  pose proof (sliding_on_request_correct ex_sliding ltac:(zdec) ltac:(zdec) ltac:(zdec)
    ex_sha256 true true ex_call _ _ ex_sliding_served) as H.
  destruct (on_request ex_sha256 ex_sliding true true ex_call ex_sliding_first.2) as [o s'].
  destruct (request_partition_key ex_sha256 (mw_get_client_id ex_sliding) ex_call) as [key|e| |] eqn:Hkey;
    [|vm_compute in Hkey; discriminate Hkey..].
  destruct H as (a & Hrun & _ & Ho). exists key, a, s'. split; [reflexivity|]. split; [exact Hrun|].
  vm_compute in Hkey. injection Hkey as <-.
  assert (a = Allowed) as -> by (vm_compute in Hrun; by injection Hrun). rewrite Ho. split; reflexivity.
Defined.

Lemma partition_key_correct_witness :
  rate_limit_method_partition ex_sha256 (replicate 32 0) (chars_of "ping") =
    Ok (ex_sha256 (partition_input (replicate 32 0) (chars_of "ping"))).
Proof.
  destruct (partition_key_correct ex_sha256 (replicate 32 0) (chars_of "ping") ltac:(zdec)) as [H _].
  rewrite H. vm_compute. reflexivity.
Defined.

(** ** Token buckets *)

Definition ten : f64 := Fin (10 * F64.one).

Lemma ten_valid : f64_valid ten.
Proof. exact (representable_uint 10 ltac:(lia)). Qed.

Definition ex_bucket : TokenBucketRateLimiter := TokenBucket_new_at 2 ten 0.

Lemma ex_bucket_ok : bucket ex_bucket (10 * F64.one) (2 * F64.one).
Proof.
  destruct (bucket_new 2 ten 0 ten_valid ltac:(lia)) as (r & Hr & Hb & _ & Hc).
  assert (r = 10 * F64.one) as -> by (vm_compute in Hr; injection Hr as <-; vm_compute; reflexivity).
  replace (2 * F64.one) with (capacity ex_bucket * F64.one) by (f_equal; vm_compute; reflexivity). exact Hb.
Qed.

Lemma token_bucket_bounded_witness :
  ∃ k1, (available_tokens_at 5 ex_bucket).1 = Fin k1 ∧ k1 <= 2 * F64.one.
Proof.
  destruct (token_bucket_bounded 2 ten 0 ex_bucket _ _ 1 5 ten_valid ltac:(lia) ex_bucket_ok
    ltac:(split; vm_compute; discriminate)) as [_ (k1 & Hb & Hk & _)].
  exists k1. split; [exact Hk|]. exact (bucket_full _ _ _ Hb).
Defined.

Lemma token_burst_exact_witness : (bucket_run ex_bucket [0; 0; 0; 0]).1 = [true; true; false; false].
Proof.
  destruct (token_burst_exact 2 ten 0 [0; 0; 0; 0] ten_valid ltac:(lia) ltac:(repeat constructor; lia)) as [H Hc].
  exact H.
Defined.

(** Ten requests per second for one second, from a bucket of two: the bound is
    twelve, up to rounding. *)
Lemma token_rate_bound_witness :
  2 ^ 211 * 1000000000 * (admitted (bucket_run ex_bucket (replicate 20 0 ++ replicate 20 NANOS)).1 * F64.one) <=
    2 ^ 211 * 1000000000 * (12 * F64.one) + 2 ^ 211 * 1000000000 * (F64.one / 2 ^ 40).
Proof.
  pose proof (token_rate_bound 2 ten 0 (replicate 20 0 ++ replicate 20 NANOS) ten_valid ltac:(lia)
    ltac:(apply Forall_app; split; apply Forall_replicate; vm_compute; reflexivity)) as H.
  cbv zeta in H. fold ex_bucket in H. destruct (bucket_run ex_bucket (replicate 20 0 ++ replicate 20 NANOS)) as [oks l'].
  destruct H as (r & Hr & Hlast & H).
  assert (r = 10 * F64.one) as -> by (vm_compute in Hr; injection Hr as <-; vm_compute; reflexivity).
  rewrite Hlast in H. eapply Z.le_trans; [exact H|]. vm_compute. discriminate.
Defined.

Lemma default_burst_capacity_correct_witness : default_burst_capacity ten = 20.
Proof.
  unfold ten. rewrite (default_burst_capacity_correct (10 * F64.one) ten_valid). vm_compute. reflexivity.
Defined.

Definition ex_token : RateLimitingMiddleware unit := (with_burst_capacity 2 0 (RateLimiting_new ten 0)).1.

Lemma ex_token_valid : f64_valid (max_requests_per_second ex_token).
Proof. exact ten_valid. Qed.

Definition ex_token_new : Shared TokenBucketRateLimiter :=
  {| limiters := PartitionStore_new; overflow_limiter := fresh ex_token 0; global_limiter := None; ticks := 0 |}.

Definition ex_token_first : RateLimitAdmission * Shared TokenBucketRateLimiter :=
  match get_or_create_limiter_with_retry_at ex_token ex_key 0 ex_token_new with
  | (Ok a, s) => (a, s)
  | (_, s) => (Rejected 0, s)
  end.

Definition ex_answers : list Answer := [answer_of ex_key 0 ex_token_first.1 ex_token_first.2].

Lemma ex_token_served : token_served ex_token 0 0 ex_token_first.2 ([] ++ ex_answers).
Proof.
  apply (token_served_request _ _ 0 ex_token_new); [apply token_served_new|lia|vm_compute; reflexivity|].
  vm_compute. reflexivity.
Qed.

Lemma token_partitions_bounded_witness :
  rate_ok ex_token 1 (bucket_log ex_key ex_answers) ∧ bucket_log ex_key ex_answers = [(0, true)].
Proof.
  split; [|vm_compute; reflexivity].
  exact (proj1 (token_partitions_bounded ex_token ex_token_valid ltac:(zdec) ltac:(zdec)
    _ _ _ _ ex_token_served) ex_key).
Defined.

Lemma token_eviction_unobservable_witness :
  ∃ a s', get_or_create_limiter_with_retry_at ex_token ex_key 0 ex_token_first.2 = (Ok a, s') ∧ is_allowed a = true.
Proof.
  destruct (token_eviction_unobservable ex_token ex_token_valid ltac:(zdec) ltac:(zdec)
    _ _ 0 _ _ ex_key ex_token_served ltac:(lia) ltac:(vm_compute; reflexivity)) as (a & s' & l & Hrun & _).
  exists a, s'. split; [exact Hrun|]. vm_compute in Hrun. injection Hrun as <- _. reflexivity.
Defined.

Lemma token_on_request_correct_witness :
  ∃ key a s', request_partition_key ex_sha256 (get_client_id ex_token) ex_call = Ok key ∧
    get_or_create_limiter_with_retry_at ex_token key 0 ex_token_first.2 = (Ok a, s') ∧ a = Allowed ∧
    on_request_at ex_sha256 ex_token true true ex_call 0 ex_token_first.2 = (Ok Continue, s').
Proof.
  pose proof (token_on_request_correct ex_token ex_token_valid ltac:(zdec) ltac:(zdec)
    ex_sha256 true true ex_call _ _ 0 _ _ ex_token_served ltac:(lia) ltac:(zdec)) as H.
  change (F64.leb (max_requests_per_second ex_token) (Fin 0) || (burst_capacity ex_token =? 0)) with false in H.
  change (global_limit ex_token) with false in H.
  destruct (on_request_at ex_sha256 ex_token true true ex_call 0 ex_token_first.2) as [o s'].
  destruct (request_partition_key ex_sha256 (get_client_id ex_token) ex_call) as [key|e| |] eqn:Hkey;
    [|vm_compute in Hkey; discriminate Hkey..].
  destruct H as (a & Hrun & _ & Ho). exists key, a, s'. split; [reflexivity|]. split; [exact Hrun|].
  vm_compute in Hkey. injection Hkey as <-.
  assert (a = Allowed) as -> by (vm_compute in Hrun; by injection Hrun). rewrite Ho. split; reflexivity.
Defined.
