(* ===== verification/SseParser.v ===== *)
(** The client's bounded event-stream parser,
    [crates/fastmcp-client/src/sse.rs]: definitions.  Bytes are integers, a
    [String] is the list of its characters. *)
From stdpp Require Import base list gmap strings.
From Stdlib Require Import ZArith Lia.
From S2P Require Import Prelude Utf8 RequestId.

(** * [String::from_utf8_lossy] *)

(** The number of bytes of an ill-formed sequence at the start of [bs] that one
    replacement character stands for: the longest prefix that a well-formed
    sequence could begin with, and at least a byte. *)
Definition ill_formed_len (bs : list Z) : nat :=
  match bs with
  | b0 :: b1 :: r =>
      let cont_third := match r with b2 :: _ => is_cont b2 | [] => false end in
      let second lo hi := (lo <=? b1) && (b1 <=? hi) in
      if (224 <=? b0) && (b0 <=? 239) then
        if second (if b0 =? 224 then 160 else 128) (if b0 =? 237 then 159 else 191) then 2%nat else 1%nat
      else if (240 <=? b0) && (b0 <=? 244) then
        if second (if b0 =? 240 then 144 else 128) (if b0 =? 244 then 143 else 191) then
          if cont_third then 3%nat else 2%nat
        else 1%nat
      else 1%nat
  | _ => 1%nat
  end.

Definition REPLACEMENT_CHARACTER : Z := 65533.

Fixpoint from_utf8_lossy_loop (fuel : nat) (bs : list Z) : list Z :=
  match bs, fuel with
  | [], _ | _, O => []
  | _, S fuel =>
      match decode_utf8 bs with
      | Some (c, n) => c :: from_utf8_lossy_loop fuel (drop n bs)
      | None => REPLACEMENT_CHARACTER :: from_utf8_lossy_loop fuel (drop (ill_formed_len bs) bs)
      end
  end.
Definition from_utf8_lossy (bs : list Z) : list Z := from_utf8_lossy_loop (length bs) bs.

(** [str::len] *)
Definition str_len (s : list Z) : Z := zlen (as_bytes s).

Module Sse.

(** * Limits *)

Definition UTF8_BOM : list Z := [239; 187; 191].

Record SseLimits : Type := {
  line_bytes : Z;
  event_bytes : Z;
  max_keepalive_lines : Z;
  max_data_lines : Z;
}.

Definition with_data_lines (line event keepalive data : Z) : option SseLimits :=
  if (line =? 0) || (event =? 0) || (keepalive =? 0) || (data =? 0) then None
  else Some {| line_bytes := line; event_bytes := event;
               max_keepalive_lines := keepalive; max_data_lines := data |}.

Definition SseLimits_new (line event keepalive : Z) : option SseLimits :=
  with_data_lines line event keepalive usize_max.

Record SseEndOfStream : Type := {
  discarded_pending_event : bool;
  discarded_partial_line : bool;
}.

Inductive SseParseError : Type :=
| LineTooLong (limit_bytes : Z)
| EventTooLarge (limit_bytes : Z)
| KeepaliveFlood (limit_lines : Z)
| TooManyDataLines (limit_lines : Z)
| Poisoned.

Inductive SsePushError (E : Type) : Type :=
| Parse (error : SseParseError)
| Consumer (error : E).
Arguments Parse {E}.
Arguments Consumer {E}.

(** * The parser *)

Record BoundedSseParser : Type := {
  limits : SseLimits;
  raw_line : list Z;
  pending_cr : bool;
  bom_window_open : bool;
  data : list Z;
  event_raw_bytes : Z;
  event_data_lines : Z;
  keepalive_lines : Z;
  poisoned : bool;
}.

Definition BoundedSseParser_new (l : SseLimits) : BoundedSseParser :=
  {| limits := l; raw_line := []; pending_cr := false; bom_window_open := true; data := [];
     event_raw_bytes := 0; event_data_lines := 0; keepalive_lines := 0; poisoned := false |}.

Definition buffered_bytes (p : BoundedSseParser) : Z := zlen (raw_line p) + str_len (data p).

Definition set_raw_line (r : list Z) (p : BoundedSseParser) : BoundedSseParser :=
  {| limits := limits p; raw_line := r; pending_cr := pending_cr p;
     bom_window_open := bom_window_open p; data := data p; event_raw_bytes := event_raw_bytes p;
     event_data_lines := event_data_lines p; keepalive_lines := keepalive_lines p;
     poisoned := poisoned p |}.

Definition set_pending_cr (b : bool) (p : BoundedSseParser) : BoundedSseParser :=
  {| limits := limits p; raw_line := raw_line p; pending_cr := b;
     bom_window_open := bom_window_open p; data := data p; event_raw_bytes := event_raw_bytes p;
     event_data_lines := event_data_lines p; keepalive_lines := keepalive_lines p;
     poisoned := poisoned p |}.

Definition close_bom_window (p : BoundedSseParser) : BoundedSseParser :=
  {| limits := limits p; raw_line := raw_line p; pending_cr := pending_cr p;
     bom_window_open := false; data := data p; event_raw_bytes := event_raw_bytes p;
     event_data_lines := event_data_lines p; keepalive_lines := keepalive_lines p;
     poisoned := poisoned p |}.

(** The fields of the event under assembly, and the count of idle lines. *)
Definition set_event (d : list Z) (raw lines keepalive : Z) (p : BoundedSseParser) : BoundedSseParser :=
  {| limits := limits p; raw_line := raw_line p; pending_cr := pending_cr p;
     bom_window_open := bom_window_open p; data := d; event_raw_bytes := raw;
     event_data_lines := lines; keepalive_lines := keepalive; poisoned := poisoned p |}.

(** [poison], apart from the error it hands through *)
Definition poison (p : BoundedSseParser) : BoundedSseParser :=
  {| limits := limits p; raw_line := []; pending_cr := pending_cr p;
     bom_window_open := bom_window_open p; data := []; event_raw_bytes := 0;
     event_data_lines := 0; keepalive_lines := 0; poisoned := true |}.

(** [str::split_once(':')] *)
Fixpoint split_once_colon (s : list Z) : option (list Z * list Z) :=
  match s with
  | [] => None
  | c :: s =>
      if c =? 58 then Some ([], s)
      else match split_once_colon s with Some (a, b) => Some (c :: a, b) | None => None end
  end.

(** [value.strip_prefix(' ').unwrap_or(value)] *)
Definition strip_space (s : list Z) : list Z :=
  match s with c :: r => if c =? 32 then r else s | [] => s end.

Definition field_of (line : list Z) : list Z * list Z :=
  match split_once_colon line with
  | Some (field, value) => (field, strip_space value)
  | None => (line, [])
  end.

(** [if payload.ends_with('\n') { payload.pop(); }] *)
Definition pop_newline (s : list Z) : list Z :=
  match last s with Some c => if c =? 10 then removelast s else s | None => s end.

Section parser.
(** The consumer of payloads: a closure with its own state, that may refuse. *)
Context {A E : Type} (accept : list Z → A → option E * A).
Abbreviation S := (BoundedSseParser * A)%type.

Definition modify_parser {F} (f : BoundedSseParser → BoundedSseParser) : M S F unit :=
  modify (λ s, (f s.1, s.2)).

Definition count_non_dispatching_line : M S (SsePushError E) unit :=
  modify_parser (λ p, set_event (data p) (event_raw_bytes p) (event_data_lines p)
                        (saturating_add (keepalive_lines p) 1) p) ;!
  let! s := get in
  let p := s.1 in
  if max_keepalive_lines (limits p) <? keepalive_lines p
  then fail (Parse (KeepaliveFlood (max_keepalive_lines (limits p))))
  else ret tt.

Definition refuse {T} (e : SseParseError) : M S (SsePushError E) T :=
  modify_parser poison ;! fail (Parse e).

Definition process_line_with (line : list Z) (raw_len : Z) : M S (SsePushError E) bool :=
  let! s := get in
  let p := s.1 in
  if bool_decide (line = []) then
    if bool_decide (data p = []) then count_non_dispatching_line ;! ret false
    else
      let payload := pop_newline (data p) in
      modify_parser (set_event [] 0 0 0) ;!
      let! s := get in
      let '(refused, a) := accept payload s.2 in
      modify (λ s, (s.1, a)) ;!
      match refused with
      | Some e => modify_parser poison ;! fail (Consumer e)
      | None => ret false
      end
  else if bool_decide (head line = Some 58) then count_non_dispatching_line ;! ret true
  else
    let '(field, value) := field_of line in
    if bool_decide (field = chars_of "data") then
      let decoded_after := saturating_add (saturating_add (str_len (data p)) (str_len value)) 1 in
      let raw_after := saturating_add (event_raw_bytes p) raw_len in
      if (event_bytes (limits p) <? decoded_after) || (event_bytes (limits p) <? raw_after)
      then refuse (EventTooLarge (event_bytes (limits p)))
      else
        let lines_after := saturating_add (event_data_lines p) 1 in
        if max_data_lines (limits p) <? lines_after
        then refuse (TooManyDataLines (max_data_lines (limits p)))
        else
          modify_parser (set_event (data p ++ value ++ [10]) raw_after lines_after 0) ;!
          ret false
    else count_non_dispatching_line ;! ret false.

Definition complete_line_with : M S (SsePushError E) bool :=
  let! s := get in
  let p := s.1 in
  let raw := raw_line p in
  let raw := if bom_window_open p && bool_decide (take 3 raw = UTF8_BOM) then drop 3 raw else raw in
  modify_parser (λ p, close_bom_window (set_raw_line [] p)) ;!
  let raw_len := zlen raw in
  let line := from_utf8_lossy raw in
  if line_bytes (limits p) <? str_len line then refuse (LineTooLong (line_bytes (limits p)))
  else
    λ s, match process_line_with line raw_len s with
         | (Err (Parse error), s) => refuse error s
         | r => r
         end.

(** The loop of [push_with] over the bytes of a chunk. *)
Fixpoint push_loop (chunk : list Z) (comment_activity : bool) : M S (SsePushError E) bool :=
  match chunk with
  | [] => ret comment_activity
  | byte :: chunk =>
      let! s := get in
      let p := s.1 in
      modify_parser (set_pending_cr false) ;!
      if pending_cr p && (byte =? 10) then push_loop chunk comment_activity
      else if byte =? 13 then
        let! activity := complete_line_with in
        modify_parser (set_pending_cr true) ;!
        push_loop chunk (comment_activity || activity)
      else if byte =? 10 then
        let! activity := complete_line_with in
        push_loop chunk (comment_activity || activity)
      else if line_bytes (limits p) <=? zlen (raw_line p)
      then refuse (LineTooLong (line_bytes (limits p)))
      else modify_parser (λ p, set_raw_line (raw_line p ++ [byte]) p) ;! push_loop chunk comment_activity
  end.

Definition push_with (chunk : list Z) : M S (SsePushError E) bool :=
  let! s := get in
  if poisoned s.1 then fail (Parse Poisoned) else push_loop chunk false.
End parser.

(** [push]: the payloads are collected, and lost on a refusal. *)
Definition push (chunk : list Z) (p : BoundedSseParser)
    : outcome SseParseError (list (list Z)) * BoundedSseParser :=
  match push_with (λ payload (dispatched : list (list Z)), (None : option unit, dispatched ++ [payload]))
          chunk (p, []) with
  | (Ok _, (p, dispatched)) => (Ok dispatched, p)
  | (Err (Parse error), (p, _)) => (Err error, p)
  | (Err (Consumer _), (p, _)) => (Panic, p)
  | (Panic, (p, _)) => (Panic, p)
  | (OutOfFuel, (p, _)) => (OutOfFuel, p)
  end.

Definition finish (p : BoundedSseParser) : outcome SseParseError SseEndOfStream :=
  if poisoned p then Err Poisoned
  else Ok {| discarded_pending_event := negb (bool_decide (data p = []));
             discarded_partial_line := negb (bool_decide (raw_line p = [])) |}.
End Sse.
