(* ===== verification/SseDecode.v ===== *)
(** The reference the event-stream parser is held to: the streaming UTF-8
    decoder of the Encoding Standard over the whole stream.  Decoding line by
    line with [String::from_utf8_lossy] gives the same text. *)
From stdpp Require Import base list gmap strings.
From Stdlib Require Import ZArith Lia.
From S2P Require Import Prelude Utf8 RequestId SseParser.

(** * The streaming decoder *)

(** Between two bytes: at the start of a character, or with [n] bytes of one to
    come, its value so far, and the range the next byte must be in. *)
Inductive dstate : Type :=
| Start
| More (n : nat) (cp lo hi : Z).

(** A byte at the start of a character: the new state and what is emitted. *)
Definition decode_lead (b : Z) : dstate * list Z :=
  if (0 <=? b) && (b <? 128) then (Start, [b])
  else if (194 <=? b) && (b <=? 223) then (More 1 (b - 192) 128 191, [])
  else if (224 <=? b) && (b <=? 239) then
    (More 2 (b - 224) (if b =? 224 then 160 else 128) (if b =? 237 then 159 else 191), [])
  else if (240 <=? b) && (b <=? 244) then
    (More 3 (b - 240) (if b =? 240 then 144 else 128) (if b =? 244 then 143 else 191), [])
  else (Start, [REPLACEMENT_CHARACTER]).

(** A byte out of range ends the character it interrupts and is read again. *)
Definition decode_byte (st : dstate) (b : Z) : dstate * list Z :=
  match st with
  | Start => decode_lead b
  | More n cp lo hi =>
      if (lo <=? b) && (b <=? hi) then
        let cp := cp * 64 + (b - 128) in
        match n with
        | O | 1%nat => (Start, [cp])
        | S n => (More n cp 128 191, [])
        end
      else let '(st, out) := decode_lead b in (st, REPLACEMENT_CHARACTER :: out)
  end.

Definition decode_end (st : dstate) : list Z :=
  match st with Start => [] | More _ _ _ _ => [REPLACEMENT_CHARACTER] end.

Fixpoint decode_stream (st : dstate) (bs : list Z) : list Z :=
  match bs with
  | [] => decode_end st
  | b :: bs => let '(st, out) := decode_byte st b in out ++ decode_stream st bs
  end.

(** ** Against [from_utf8_lossy] *)

Definition lossy_first (bs : list Z) : Z * nat :=
  match decode_utf8 bs with
  | Some (c, n) => (c, n)
  | None => (REPLACEMENT_CHARACTER, ill_formed_len bs)
  end.

(** Evaluate the comparisons that the hypotheses decide. *)
Ltac zcmp :=
  repeat match goal with
  | |- context [Z.leb ?a ?b] =>
      first [rewrite (proj2 (Z.leb_le a b)) by lia | rewrite (proj2 (Z.leb_gt a b)) by lia]
  | |- context [Z.ltb ?a ?b] =>
      first [rewrite (proj2 (Z.ltb_lt a b)) by lia | rewrite (proj2 (Z.ltb_ge a b)) by lia]
  end; cbn [andb negb orb app drop].

(** An interrupted character. *)
Lemma decode_interrupted n cp lo hi bs :
  match bs with b :: _ => ~ (lo <= b <= hi) | [] => True end →
  decode_stream (More n cp lo hi) bs = REPLACEMENT_CHARACTER :: decode_stream Start bs.
Proof.
  destruct bs as [|b bs]; [done|]. intros Hb. cbn [decode_stream decode_byte].
  replace ((lo <=? b) && (b <=? hi)) with false by (symmetry; apply andb_false_iff; rewrite !Z.leb_gt; lia).
  by destruct (decode_lead b).
Qed.

Lemma decode_continued n cp lo hi b bs :
  lo <= b <= hi →
  decode_stream (More (S n) cp lo hi) (b :: bs) =
    match n with
    | O => (cp * 64 + (b - 128)) :: decode_stream Start bs
    | _ => decode_stream (More n (cp * 64 + (b - 128)) 128 191) bs
    end.
Proof.
  intros Hb. cbn [decode_stream decode_byte].
  replace ((lo <=? b) && (b <=? hi)) with true by (symmetry; apply andb_true_iff; rewrite !Z.leb_le; lia).
  by destruct n.
Qed.

(** The lead byte decides the rest of the case analysis. *)
Lemma lossy_first_two b0 bs :
  192 <= b0 <= 223 →
  let '(c, n) := lossy_first (b0 :: bs) in
  decode_stream Start (b0 :: bs) = c :: decode_stream Start (drop n (b0 :: bs)).
Proof.
  intros Hb. unfold lossy_first, decode_utf8, ill_formed_len. cbn [decode_stream decode_byte]. unfold decode_lead, is_cont.
  destruct bs as [|b1 bs]; [destruct (Z.le_gt_cases 194 b0); by zcmp|].
  zcmp. destruct (decide (128 <= b1 <= 191)) as [H1|H1]; destruct (Z.le_gt_cases 194 b0) as [Hlo|Hlo]; zcmp.
  - by rewrite decode_continued by lia.
  - done.
  - destruct (Z.le_gt_cases 128 b1); zcmp; rewrite decode_interrupted by lia; done.
  - destruct (Z.le_gt_cases 128 b1); zcmp; done.
Qed.

Definition second_lo (b0 : Z) : Z := if b0 =? 224 then 160 else if b0 =? 240 then 144 else 128.
Definition second_hi (b0 : Z) : Z := if b0 =? 237 then 159 else if b0 =? 244 then 143 else 191.

Lemma second_range b0 : 128 <= second_lo b0 ∧ second_hi b0 <= 191.
Proof. unfold second_lo, second_hi. repeat case_goal_if; lia. Qed.

(** The checks of the strict decoder are the ranges of the second byte. *)
Lemma strict_three b0 b1 b2 :
  224 <= b0 <= 239 →
  (is_cont b1 && is_cont b2 && (2048 <=? (b0 - 224) * 4096 + (b1 - 128) * 64 + (b2 - 128)) &&
   negb (is_surrogate ((b0 - 224) * 4096 + (b1 - 128) * 64 + (b2 - 128)))) =
  ((second_lo b0 <=? b1) && (b1 <=? second_hi b0) && is_cont b2).
Proof.
  intros Hb. unfold is_cont, is_surrogate, second_lo, second_hi. apply eq_true_iff_eq.
  rewrite !andb_true_iff, negb_true_iff, andb_false_iff, !Z.leb_le, !Z.leb_gt.
  repeat case_goal_if; zbool; subst; lia.
Qed.

Lemma strict_four b0 b1 b2 b3 :
  240 <= b0 <= 247 →
  (is_cont b1 && is_cont b2 && is_cont b3 &&
   (65536 <=? (b0 - 240) * 262144 + (b1 - 128) * 4096 + (b2 - 128) * 64 + (b3 - 128)) &&
   ((b0 - 240) * 262144 + (b1 - 128) * 4096 + (b2 - 128) * 64 + (b3 - 128) <=? 1114111)) =
  ((b0 <=? 244) && (second_lo b0 <=? b1) && (b1 <=? second_hi b0) && is_cont b2 && is_cont b3).
Proof.
  intros Hb. unfold is_cont, second_lo, second_hi. apply eq_true_iff_eq.
  rewrite !andb_true_iff, !Z.leb_le. repeat case_goal_if; zbool; subst; lia.
Qed.

Lemma is_cont_iff b : is_cont b = true ↔ 128 <= b <= 191.
Proof. unfold is_cont. rewrite andb_true_iff, !Z.leb_le. lia. Qed.

Lemma is_cont_false b : is_cont b = false ↔ ~ 128 <= b <= 191.
Proof. rewrite <- is_cont_iff. by destruct (is_cont b). Qed.

Lemma lead_three b0 : 224 <= b0 <= 239 → decode_lead b0 = (More 2 (b0 - 224) (second_lo b0) (second_hi b0), []).
Proof.
  intros Hb. unfold decode_lead, second_lo, second_hi. zcmp.
  by rewrite (proj2 (Z.eqb_neq b0 240)), (proj2 (Z.eqb_neq b0 244)) by lia.
Qed.

Lemma lead_four b0 : 240 <= b0 <= 244 → decode_lead b0 = (More 3 (b0 - 240) (second_lo b0) (second_hi b0), []).
Proof.
  intros Hb. unfold decode_lead, second_lo, second_hi. zcmp.
  by rewrite (proj2 (Z.eqb_neq b0 224)), (proj2 (Z.eqb_neq b0 237)) by lia.
Qed.

Lemma ill_three b0 b1 bs :
  224 <= b0 <= 239 →
  ill_formed_len (b0 :: b1 :: bs) = if (second_lo b0 <=? b1) && (b1 <=? second_hi b0) then 2%nat else 1%nat.
Proof.
  intros Hb. unfold ill_formed_len, second_lo, second_hi. zcmp.
  by rewrite (proj2 (Z.eqb_neq b0 240)), (proj2 (Z.eqb_neq b0 244)) by lia.
Qed.

Lemma ill_four b0 b1 bs :
  240 <= b0 <= 244 →
  ill_formed_len (b0 :: b1 :: bs) =
    if (second_lo b0 <=? b1) && (b1 <=? second_hi b0)
    then if match bs with b2 :: _ => is_cont b2 | [] => false end then 3%nat else 2%nat
    else 1%nat.
Proof.
  intros Hb. unfold ill_formed_len, second_lo, second_hi. zcmp.
  by rewrite (proj2 (Z.eqb_neq b0 224)), (proj2 (Z.eqb_neq b0 237)) by lia.
Qed.

Lemma lossy_first_three b0 bs :
  224 <= b0 <= 239 →
  let '(c, n) := lossy_first (b0 :: bs) in
  decode_stream Start (b0 :: bs) = c :: decode_stream Start (drop n (b0 :: bs)).
Proof.
  intros Hb. pose proof (second_range b0) as Hr. unfold lossy_first, decode_utf8.
  cbn [decode_stream decode_byte]. rewrite lead_three by done. zcmp.
  destruct bs as [|b1 bs]; [done|]. rewrite ill_three by done.
  assert (Hbad : (second_lo b0 <=? b1) && (b1 <=? second_hi b0) = false → ¬ second_lo b0 <= b1 <= second_hi b0).
  { rewrite andb_false_iff, !Z.leb_gt. lia. }
  destruct bs as [|b2 bs].
  - destruct (_ && _) eqn:H1; cbn [drop]; [|by rewrite decode_interrupted by auto]. zbool.
    rewrite decode_continued by lia. by rewrite decode_interrupted.
  - cbv zeta. rewrite strict_three by done. destruct (_ && (b1 <=? _)) eqn:H1; cbn [andb drop];
      [|by rewrite decode_interrupted by auto]. zbool. rewrite decode_continued by lia.
    destruct (is_cont b2) eqn:H2.
    + apply is_cont_iff in H2. rewrite decode_continued by lia. cbn [drop]. f_equal. lia.
    + apply is_cont_false in H2. by rewrite decode_interrupted.
Qed.

Lemma lossy_first_four b0 bs :
  240 <= b0 <= 244 →
  let '(c, n) := lossy_first (b0 :: bs) in
  decode_stream Start (b0 :: bs) = c :: decode_stream Start (drop n (b0 :: bs)).
Proof.
  intros Hb. pose proof (second_range b0) as Hr. unfold lossy_first, decode_utf8.
  cbn [decode_stream decode_byte]. rewrite lead_four by done. zcmp.
  destruct bs as [|b1 bs]; [done|]. rewrite ill_four by done.
  assert (Hbad : (second_lo b0 <=? b1) && (b1 <=? second_hi b0) = false → ¬ second_lo b0 <= b1 <= second_hi b0).
  { rewrite andb_false_iff, !Z.leb_gt. lia. }
  destruct bs as [|b2 [|b3 bs]].
  - destruct (_ && _) eqn:H1; cbn [drop]; [|by rewrite decode_interrupted by auto]. zbool.
    rewrite decode_continued by lia. by rewrite decode_interrupted.
  - destruct (_ && _) eqn:H1; cbn [drop]; [|by rewrite decode_interrupted by auto]. zbool.
    rewrite decode_continued by lia. destruct (is_cont b2) eqn:H2; cbn [drop].
    + apply is_cont_iff in H2. rewrite decode_continued by lia. by rewrite decode_interrupted.
    + apply is_cont_false in H2. by rewrite decode_interrupted.
  - cbv zeta. rewrite strict_four by lia. rewrite (proj2 (Z.leb_le b0 244)) by lia.
    cbn [andb]. destruct (_ && (b1 <=? _)) eqn:H1; cbn [andb drop];
      [|by rewrite decode_interrupted by auto]. zbool. rewrite decode_continued by lia.
    destruct (is_cont b2) eqn:H2; cbn [andb drop].
    + apply is_cont_iff in H2. rewrite decode_continued by lia. destruct (is_cont b3) eqn:H3; cbn [drop].
      * apply is_cont_iff in H3. rewrite decode_continued by lia. f_equal. lia.
      * apply is_cont_false in H3. by rewrite decode_interrupted.
    + apply is_cont_false in H2. by rewrite decode_interrupted.
Qed.

Lemma lossy_first_step b0 bs :
  let '(c, n) := lossy_first (b0 :: bs) in
  decode_stream Start (b0 :: bs) = c :: decode_stream Start (drop n (b0 :: bs)) ∧ (0 < n)%nat.
Proof.
  assert (Hpos : (0 < (lossy_first (b0 :: bs)).2)%nat).
  { unfold lossy_first. destruct (decode_utf8 (b0 :: bs)) as [[c n]|] eqn:Hd; cbn [snd].
    - apply decode_utf8_sound in Hd as (_ & -> & _). pose proof (len_utf8_pos c). lia.
    - unfold ill_formed_len. repeat case_match; lia. }
  destruct (decide (192 <= b0 <= 223)) as [H2|H2]; [|destruct (decide (224 <= b0 <= 239)) as [H3|H3];
    [|destruct (decide (240 <= b0 <= 244)) as [H4|H4]]].
  - pose proof (lossy_first_two b0 bs H2) as H. by destruct (lossy_first (b0 :: bs)).
  - pose proof (lossy_first_three b0 bs H3) as H. by destruct (lossy_first (b0 :: bs)).
  - pose proof (lossy_first_four b0 bs H4) as H. by destruct (lossy_first (b0 :: bs)).
  - destruct (decide (0 <= b0 < 128)) as [H1|H1].
    { unfold lossy_first, decode_utf8. cbn [decode_stream decode_byte]. unfold decode_lead. zcmp. split; [done|lia]. }
    assert (Hd : decode_utf8 (b0 :: bs) = None).
    { unfold decode_utf8. replace ((0 <=? b0) && (b0 <? 128)) with false by (symmetry; solve_ncmp).
      replace ((192 <=? b0) && (b0 <? 224)) with false by (symmetry; solve_ncmp).
      replace ((224 <=? b0) && (b0 <? 240)) with false by (symmetry; solve_ncmp).
      destruct ((240 <=? b0) && (b0 <? 248)) eqn:H5; [|done]. zbool.
      destruct bs as [|b1 [|b2 [|b3 bs]]]; [done..|]. cbv zeta. rewrite strict_four by lia.
      by rewrite (proj2 (Z.leb_gt b0 244)) by lia. }
    assert (Hill : ill_formed_len (b0 :: bs) = 1%nat).
    { destruct bs as [|b1 bs]; [done|]. unfold ill_formed_len.
      replace ((224 <=? b0) && (b0 <=? 239)) with false by (symmetry; solve_ncmp).
      by replace ((240 <=? b0) && (b0 <=? 244)) with false by (symmetry; solve_ncmp). }
    unfold lossy_first. rewrite Hd, Hill. split; [|lia]. cbn [decode_stream decode_byte drop]. unfold decode_lead.
    replace ((0 <=? b0) && (b0 <? 128)) with false by (symmetry; solve_ncmp).
    replace ((194 <=? b0) && (b0 <=? 223)) with false by (symmetry; solve_ncmp).
    replace ((224 <=? b0) && (b0 <=? 239)) with false by (symmetry; solve_ncmp).
    by replace ((240 <=? b0) && (b0 <=? 244)) with false by (symmetry; solve_ncmp).
Qed.

Lemma from_utf8_lossy_loop_spec fuel bs :
  (length bs ≤ fuel)%nat → from_utf8_lossy_loop fuel bs = decode_stream Start bs.
Proof.
  revert bs. induction fuel as [|fuel IH]; intros [|b bs] Hlen; [done|simpl in Hlen; lia|done|].
  cbn [from_utf8_lossy_loop]. pose proof (lossy_first_step b bs) as Hs. unfold lossy_first in Hs.
  destruct (decode_utf8 (b :: bs)) as [[c n]|]; destruct Hs as [-> Hn]; f_equal; apply IH;
    rewrite length_drop; simpl in *; lia.
Qed.

Lemma from_utf8_lossy_spec bs : from_utf8_lossy bs = decode_stream Start bs.
Proof. by apply from_utf8_lossy_loop_spec. Qed.

(** * Lines *)

(** The state of splitting a text at CRLF, LF and CR: the complete lines, the
    rest, and whether the last terminator was a CR. *)
Record splitting : Type := { complete : list (list Z); rest : list Z; after_cr : bool }.

Definition split_step (s : splitting) (c : Z) : splitting :=
  if after_cr s && (c =? 10) then {| complete := complete s; rest := rest s; after_cr := false |}
  else if c =? 13 then {| complete := complete s ++ [rest s]; rest := []; after_cr := true |}
  else if c =? 10 then {| complete := complete s ++ [rest s]; rest := []; after_cr := false |}
  else {| complete := complete s; rest := rest s ++ [c]; after_cr := false |}.

Definition split_start : splitting := {| complete := []; rest := []; after_cr := false |}.

Definition split_from (s : splitting) (text : list Z) : splitting := foldl split_step s text.
Definition split_lines (text : list Z) : splitting := split_from split_start text.

(** ** Decoding commutes with splitting *)

Definition plain (c : Z) : Prop := c ≠ 10 ∧ c ≠ 13.

Lemma split_plain ls cur cr cs :
  cs ≠ [] → Forall plain cs →
  split_from {| complete := ls; rest := cur; after_cr := cr |} cs =
    {| complete := ls; rest := cur ++ cs; after_cr := false |}.
Proof.
  intros Hne H. revert cur cr Hne. induction H as [|c cs [H10 H13] H IH]; intros cur cr Hne; [done|].
  assert (Hstep : split_step {| complete := ls; rest := cur; after_cr := cr |} c =
    {| complete := ls; rest := cur ++ [c]; after_cr := false |}).
  { unfold split_step. simpl. by rewrite (proj2 (Z.eqb_neq c 10)), (proj2 (Z.eqb_neq c 13)), andb_false_r by done. }
  unfold split_from in *. cbn [foldl]. rewrite Hstep. destruct cs as [|c' cs]; [done|].
  rewrite IH by done. by rewrite <- (assoc_L (++)).
Qed.

(** What the state promises of the character it will emit. *)
Definition pending_ok (st : dstate) : Prop :=
  match st with
  | Start => True
  | More n cp lo hi => (1 ≤ n)%nat ∧ 0 <= cp ∧ 128 <= lo ∧
      128 <= cp * 64 ^ Z.of_nat n + (lo - 128) * 64 ^ (Z.of_nat n - 1)
  end.

Lemma decode_lead_ok b : pending_ok (decode_lead b).1 ∧
  (plain b → Forall plain (decode_lead b).2).
Proof.
  unfold decode_lead. repeat case_goal_if; zbool; subst; cbn [fst snd pending_ok];
    (split; [try done; split_and!; simpl; lia|]); intros Hp; repeat constructor; try done; apply Hp.
Qed.

Lemma decode_byte_ok st b : pending_ok st →
  pending_ok (decode_byte st b).1 ∧ (plain b → Forall plain (decode_byte st b).2).
Proof.
  intros Hst. destruct st as [|n cp lo hi]; [apply decode_lead_ok|].
  destruct Hst as (Hn & Hcp & Hlo & Hbig). unfold decode_byte.
  destruct ((lo <=? b) && (b <=? hi)) eqn:Hr; zbool.
  - destruct n as [|[|n]]; [lia| |].
    + simpl in *. split; [done|]. intros _. constructor; [|done]. unfold plain. lia.
    + cbn [fst snd pending_ok]. split; [|done].
      assert (Hp : 0 < 64 ^ Z.of_nat n) by (apply Z.pow_pos_nonneg; lia).
      replace (Z.of_nat (S (S n))) with (2 + Z.of_nat n) in Hbig by lia.
      replace (2 + Z.of_nat n - 1) with (1 + Z.of_nat n) in Hbig by lia.
      replace (Z.of_nat (S n)) with (1 + Z.of_nat n) by lia. rewrite !Z.pow_add_r in * by lia.
      split_and!; [lia..|]. change (64 ^ 2) with (64 * 64) in Hbig. change (64 ^ 1) with 64 in *. nia.
  - destruct (decode_lead_ok b) as [H1 H2]. destruct (decode_lead b) as [st' out]. cbn [fst snd] in *.
    split; [done|]. intros Hp. constructor; [done|auto].
Qed.

(** Reading one more byte: a terminator ends the line, and what it interrupts. *)
Lemma decode_terminator st b bs :
  pending_ok st → b = 10 ∨ b = 13 →
  decode_stream st (b :: bs) = decode_end st ++ b :: decode_stream Start bs.
Proof.
  intros Hst Hb. assert (Hlead : decode_lead b = (Start, [b])) by (by destruct Hb as [->| ->]).
  destruct st as [|n cp lo hi]; cbn [decode_stream decode_byte]; rewrite ?Hlead; [done|].
  destruct Hst as (_ & _ & Hlo & _).
  replace ((lo <=? b) && (b <=? hi)) with false by (symmetry; apply andb_false_iff; rewrite !Z.leb_gt; lia). done.
Qed.

Lemma decode_end_plain st : Forall plain (decode_end st).
Proof. by destruct st; repeat constructor. Qed.

(** The line read so far: its raw bytes, the characters it emitted and the
    state it left. *)
Definition decoded (raw out : list Z) (st : dstate) : Prop :=
  pending_ok st ∧ Forall plain out ∧ (raw = [] → st = Start) ∧ ∀ bs, decode_stream Start (raw ++ bs) = out ++ decode_stream st bs.

Lemma decoded_nil : decoded [] [] Start.
Proof. by split_and!. Qed.

Lemma decoded_byte raw out st b :
  decoded raw out st → plain b →
  decoded (raw ++ [b]) (out ++ (decode_byte st b).2) (decode_byte st b).1.
Proof.
  intros (Hst & Hout & _ & Hd) Hb. destruct (decode_byte_ok st b Hst) as [H1 H2].
  split_and!; [done|apply Forall_app; auto|by destruct raw|].
  intros bs. rewrite <- !(assoc_L (++)), Hd. cbn [app decode_stream]. by destruct (decode_byte st b).
Qed.

Lemma split_from_cons s c cs : split_from s (c :: cs) = split_from (split_step s c) cs.
Proof. done. Qed.

Lemma split_from_app s a b : split_from s (a ++ b) = split_from (split_from s a) b.
Proof. apply foldl_app. Qed.

Lemma split_plain_app ls cur cr cs text :
  Forall plain cs → (cr = false ∨ cs ≠ []) →
  split_from {| complete := ls; rest := cur; after_cr := cr |} (cs ++ text) =
  split_from {| complete := ls; rest := cur ++ cs; after_cr := false |} text.
Proof.
  intros Hcs Hcr. destruct cs as [|c cs].
  - destruct Hcr as [->|?]; [|done]. by rewrite app_nil_r.
  - by rewrite split_from_app, split_plain.
Qed.

Definition in_char (st : dstate) : Prop := match st with Start => False | More _ _ _ _ => True end.

Lemma decode_byte_silent st b : (decode_byte st b).2 = [] → in_char (decode_byte st b).1.
Proof.
  assert (Hl : (decode_lead b).2 = [] → in_char (decode_lead b).1).
  { unfold decode_lead. repeat case_goal_if; done. }
  destruct st as [|n cp lo hi]; [done|]. unfold decode_byte.
  case_goal_if; [by destruct n as [|[|n]]|by destruct (decode_lead b)].
Qed.

Lemma split_step_plain ls cur cr b :
  plain b → split_step {| complete := ls; rest := cur; after_cr := cr |} b =
    {| complete := ls; rest := cur ++ [b]; after_cr := false |}.
Proof.
  intros [H10 H13]. unfold split_step. simpl.
  by rewrite (proj2 (Z.eqb_neq b 10)), (proj2 (Z.eqb_neq b 13)), andb_false_r by done.
Qed.

Lemma split_step_end ls cur cr b :
  b = 10 ∨ b = 13 → cr = false ∨ b = 13 →
  split_step {| complete := ls; rest := cur; after_cr := cr |} b =
    {| complete := ls ++ [cur]; rest := []; after_cr := b =? 13 |}.
Proof. intros [->| ->] [Hcr|Hb]; subst; try done; by destruct cr. Qed.

(** Splitting the decoded stream and decoding the split stream agree on the
    complete lines.  The two differ after a CR while a character is incomplete,
    which its first byte ends and its emission does. *)
Lemma split_decode ls cur cr cr' bs out st :
  decoded cur out st → (cr = true → cur = []) → (cr' = cr ∨ in_char st ∧ cr = false) →
  complete (split_from {| complete := from_utf8_lossy <$> ls; rest := out; after_cr := cr' |} (decode_stream st bs)) =
  from_utf8_lossy <$> complete (split_from {| complete := ls; rest := cur; after_cr := cr |} bs).
Proof.
  revert ls cur cr cr' out st. induction bs as [|b bs IH]; intros ls cur cr cr' out st Hd Hcr Hcr'.
  { pose proof (decode_end_plain st) as Hp. cbn [decode_stream].
    destruct (decode_end st) as [|c cs]; [done|]. by rewrite split_plain. }
  rewrite split_from_cons. pose proof Hd as (Hst & Hout & Hnil & Hdec).
  destruct (decide (b = 10 ∨ b = 13)) as [Hb|Hb]; cycle 1.
  - assert (Hp : plain b) by (unfold plain; lia). pose proof (decoded_byte _ _ _ _ Hd Hp) as Hd'.
    destruct (decode_byte_ok st b Hst) as [_ Hplain]. specialize (Hplain Hp).
    rewrite split_step_plain by done. cbn [decode_stream]. pose proof (decode_byte_silent st b) as Hsil.
    destruct (decode_byte st b) as [st' new]. cbn [fst snd] in *.
    destruct new as [|c new]; cbn [app].
    + rewrite app_nil_r in Hd'. apply IH; [done|done|]. right. auto.
    + rewrite (app_comm_cons new). rewrite split_plain_app by auto. apply IH; [done|done|by left].
  - rewrite decode_terminator by done.
    assert (Hline : from_utf8_lossy cur = out ++ decode_end st).
    { rewrite from_utf8_lossy_spec, <- (app_nil_r cur), Hdec. done. }
    assert (Hend : ∀ crt, crt = false ∨ b = 13 → cr = false ∨ b = 13 →
      complete (split_from (split_step {| complete := from_utf8_lossy <$> ls; rest := out ++ decode_end st; after_cr := crt |} b)
        (decode_stream Start bs)) =
      from_utf8_lossy <$> complete (split_from (split_step {| complete := ls; rest := cur; after_cr := cr |} b) bs)).
    { intros crt H1 H2. rewrite !split_step_end by done. rewrite <- Hline.
      change [from_utf8_lossy cur] with (from_utf8_lossy <$> [cur]). rewrite <- fmap_app.
      apply IH; [apply decoded_nil|done|by left]. }
    destruct st as [|n cp lo hi]; cbn [decode_end app] in *.
    + destruct Hcr' as [->|[[] _]]. rewrite split_from_cons. rewrite app_nil_r in Hend.
      destruct (decide (cr = false ∨ b = 13)) as [Hc|Hc]; [by apply Hend|].
      assert (cr = true ∧ b = 10) as [-> ->] by (destruct cr; naive_solver).
      unfold split_step. simpl. apply IH; [done|done|by left].
    + assert (cr = false) as -> by (destruct cr; [specialize (Hnil (Hcr eq_refl)); done|done]).
      change (REPLACEMENT_CHARACTER :: b :: decode_stream Start bs) with
        ([REPLACEMENT_CHARACTER] ++ b :: decode_stream Start bs).
      rewrite split_plain_app; [|by repeat constructor|by right]. rewrite split_from_cons.
      apply Hend; by left.
Qed.

Lemma split_lines_decode bs :
  complete (split_lines (decode_stream Start bs)) = from_utf8_lossy <$> complete (split_lines bs).
Proof. apply (split_decode [] [] false false); [apply decoded_nil|done|by left]. Qed.
