(* ===== verification/SseTheorems.v ===== *)
(** The reference for the event-stream parser: the events of a whole stream, and
    the budgets a stream must keep to.

    The event-stream parser against its reference. *)
From stdpp Require Import base list gmap strings.
From Stdlib Require Import ZArith Lia.
From S2P Require Import Prelude Utf8 RequestId SseParser SseDecode.
Import Sse.

(** * Events *)

(** At most one byte-order mark is removed, at the start. *)
Definition strip_bom (bs : list Z) : list Z := if bool_decide (take 3 bs = UTF8_BOM) then drop 3 bs else bs.

(** The value of a line that is a [data] field. *)
Definition data_value (line : list Z) : option (list Z) :=
  if bool_decide (line = []) || bool_decide (head line = Some 58) then None
  else let '(field, value) := field_of line in
       if bool_decide (field = chars_of "data") then Some value else None.

(** Blocks of lines that a blank line ends, and the lines after the last one. *)
Definition block_step (s : list (list (list Z)) * list (list Z)) (line : list Z) :=
  if bool_decide (line = []) then (s.1 ++ [s.2], []) else (s.1, s.2 ++ [line]).

Definition blocks (lines : list (list Z)) : list (list (list Z)) * list (list Z) :=
  foldl block_step ([], []) lines.

(** The payload of a block: its data values, joined by line feeds. *)
Definition join_values (v : list Z) (vs : list (list Z)) : list Z := v ++ concat ((cons 10) <$> vs).

Definition block_payload (block : list (list Z)) : option (list Z) :=
  match omap data_value block with [] => None | v :: vs => Some (join_values v vs) end.

Definition events_of (lines : list (list Z)) : list (list Z) := omap block_payload (blocks lines).1.

(** The messages of a stream: decode all of it, split it into lines, take the
    payloads of the complete blocks. *)
Definition event_stream (bs : list Z) : list (list Z) :=
  events_of (complete (split_lines (decode_stream Start (strip_bom bs)))).

(** * Budgets *)

(** The lines are raw here, without the mark. *)
Definition strip_first (ls : list (list Z)) : list (list Z) :=
  match ls with [] => [] | l :: ls => strip_bom l :: ls end.

Definition raw_value (raw : list Z) : option (list Z) := data_value (from_utf8_lossy raw).

Definition pending (ls : list (list Z)) : list (list Z) := (blocks ls).2.
Definition pending_values (ls : list (list Z)) : list (list Z) := omap raw_value (pending ls).

Definition pending_raw (ls : list (list Z)) : Z :=
  sum ((λ raw, match raw_value raw with Some _ => zlen raw | None => 0 end) <$> pending ls).
Definition pending_decoded (ls : list (list Z)) : Z := sum ((λ v, str_len v + 1) <$> pending_values ls).

(** The lines at the end that neither hold data nor dispatch an event; the
    argument is reversed. *)
Fixpoint idle_rev (rls : list (list Z)) : Z :=
  match rls with
  | [] => 0
  | raw :: rls =>
      if bool_decide (is_Some (raw_value raw)) then 0
      else if bool_decide (raw = []) && negb (bool_decide (pending_values (reverse rls) = [])) then 0
      else 1 + idle_rev rls
  end.
Definition idle_lines (ls : list (list Z)) : Z := idle_rev (reverse ls).

Record budgets (l : SseLimits) (ls : list (list Z)) : Prop := {
  budget_raw : pending_raw ls <= event_bytes l;
  budget_decoded : pending_decoded ls <= event_bytes l;
  budget_lines : zlen (pending_values ls) <= max_data_lines l;
  budget_idle : idle_lines ls <= max_keepalive_lines l;
}.

(** Every complete line fits once decoded. *)
Definition lines_fit (l : SseLimits) (ls : list (list Z)) : Prop :=
  Forall (λ raw, str_len (from_utf8_lossy raw) <= line_bytes l) ls.

(** The budget that an error names is the one the lines exceed, and the error
    carries its value; of two exceeded at once, the size of the event is named. *)
Definition exceeded (l : SseLimits) (ls : list (list Z)) (e : SseParseError) : Prop :=
  match e with
  | EventTooLarge n => n = event_bytes l ∧ event_bytes l < Z.max (pending_raw ls) (pending_decoded ls)
  | TooManyDataLines n =>
      n = max_data_lines l ∧ max_data_lines l < zlen (pending_values ls) ∧
      Z.max (pending_raw ls) (pending_decoded ls) <= event_bytes l
  | KeepaliveFlood n => n = max_keepalive_lines l ∧ max_keepalive_lines l < idle_lines ls
  | _ => False
  end.

(** The limit that an error names is broken when [q] of the stream is read: its
    open line or a decoded line is too long, or its lines exceed a budget. *)
Definition violated (l : SseLimits) (q : list Z) (e : SseParseError) : Prop :=
  let ls := strip_first (complete (split_lines q)) in
  match e with
  | LineTooLong n => n = line_bytes l ∧ (line_bytes l < zlen (rest (split_lines q)) ∨ ¬ lines_fit l ls)
  | _ => zlen (rest (split_lines q)) <= line_bytes l ∧ lines_fit l ls ∧ exceeded l ls e
  end.

(** A stream that keeps to the limits, at every point of it. *)
Definition within (l : SseLimits) (bs : list Z) : Prop :=
  ∀ q, q `prefix_of` bs →
    zlen (rest (split_lines q)) <= line_bytes l ∧
    Forall (λ raw, str_len (from_utf8_lossy raw) <= line_bytes l) (strip_first (complete (split_lines q))) ∧
    budgets l (strip_first (complete (split_lines q))).

(** Limits that no saturating counter of the parser can hide. *)
Record limits_ok (l : SseLimits) : Prop := {
  ok_line : 0 < line_bytes l < usize_max;
  ok_event : 0 < event_bytes l < usize_max;
  ok_keepalive : 0 < max_keepalive_lines l < usize_max;
  ok_data : 0 < max_data_lines l <= usize_max;
}.

(** * Facts *)

Lemma from_utf8_lossy_nil raw : from_utf8_lossy raw = [] ↔ raw = [].
Proof.
  split; [|by intros ->]. destruct raw as [|b bs]; [done|]. rewrite from_utf8_lossy_spec.
  pose proof (lossy_first_step b bs) as H. destruct (lossy_first (b :: bs)). destruct H as [-> _]. done.
Qed.

Lemma raw_value_nil : raw_value [] = None.
Proof. done. Qed.

Lemma blocks_snoc ls x : blocks (ls ++ [x]) = block_step (blocks ls) x.
Proof. unfold blocks. by rewrite foldl_app. Qed.

Lemma blocks_decode (ls : list (list Z)) :
  blocks (from_utf8_lossy <$> ls) = ((λ b : list (list Z), from_utf8_lossy <$> b) <$> (blocks ls).1, from_utf8_lossy <$> pending ls).
Proof.
  induction ls as [|x ls IH] using rev_ind; [done|].
  unfold pending in *. rewrite fmap_app. change (from_utf8_lossy <$> [x]) with [from_utf8_lossy x].
  rewrite blocks_snoc, blocks_snoc, IH. unfold block_step. cbn [fst snd].
  destruct (decide (x = [])) as [->|Hx]; [rewrite !bool_decide_true by done; cbn [fst snd]; by rewrite fmap_app|].
  rewrite !bool_decide_false by (by rewrite ?from_utf8_lossy_nil). cbn [fst snd]. by rewrite fmap_app.
Qed.

Lemma pending_blank ls : pending (ls ++ [[]]) = [].
Proof. unfold pending. by rewrite blocks_snoc. Qed.

Lemma pending_line ls x : x ≠ [] → pending (ls ++ [x]) = pending ls ++ [x].
Proof. intros Hx. unfold pending. rewrite blocks_snoc. unfold block_step. by rewrite bool_decide_false. Qed.

Lemma idle_snoc ls x :
  idle_lines (ls ++ [x]) =
    if bool_decide (is_Some (raw_value x)) then 0
    else if bool_decide (x = []) && negb (bool_decide (pending_values ls = [])) then 0
    else 1 + idle_lines ls.
Proof. unfold idle_lines. rewrite reverse_snoc. cbn [idle_rev]. by rewrite reverse_involutive. Qed.

Lemma idle_nonneg ls : 0 <= idle_lines ls.
Proof. unfold idle_lines. induction (reverse ls) as [|x r IH]; cbn [idle_rev]; [lia|]. repeat case_goal_if; lia. Qed.

(** The events after one more line. *)
Lemma events_blank (ls : list (list Z)) :
  events_of (from_utf8_lossy <$> (ls ++ [[]])) =
    events_of (from_utf8_lossy <$> ls) ++
    match pending_values ls with [] => [] | v :: vs => [join_values v vs] end.
Proof.
  unfold events_of. rewrite !blocks_decode, blocks_snoc. unfold block_step. cbn [fst bool_decide decide_rel].
  rewrite bool_decide_true by done. cbn [fst]. rewrite fmap_app, omap_app. f_equal.
  change (omap block_payload ((λ b : list (list Z), from_utf8_lossy <$> b) <$> [(blocks ls).2])) with
    (omap block_payload [from_utf8_lossy <$> pending ls]).
  assert (Hv : omap data_value (from_utf8_lossy <$> pending ls) = pending_values ls).
  { unfold pending_values. induction (pending ls) as [|x xs IH]; [done|]. cbn. unfold raw_value. by rewrite IH. }
  cbn. unfold block_payload. rewrite Hv. by destruct (pending_values ls).
Qed.

Lemma events_line (ls : list (list Z)) x : x ≠ [] → events_of (from_utf8_lossy <$> (ls ++ [x])) = events_of (from_utf8_lossy <$> ls).
Proof.
  intros Hx. unfold events_of. rewrite !blocks_decode, blocks_snoc. unfold block_step. by rewrite bool_decide_false.
Qed.

(** ** The byte-order mark *)

Lemma split_from_complete ls cur cr bs :
  complete (split_from {| complete := ls; rest := cur; after_cr := cr |} bs) =
  ls ++ complete (split_from {| complete := []; rest := cur; after_cr := cr |} bs).
Proof.
  revert ls cur cr. induction bs as [|b bs IH]; intros ls cur cr; [by rewrite app_nil_r|].
  rewrite !split_from_cons. unfold split_step. cbn [complete rest after_cr].
  repeat case_goal_if; rewrite IH; [done| | |done]; cbn [app]; rewrite (IH [cur]), <- (assoc_L (++)); done.
Qed.

Lemma split_first_line cur bs l ls :
  complete (split_from {| complete := []; rest := cur; after_cr := false |} bs) = l :: ls →
  ∃ t, cur ++ bs = l ++ t ∧ ∀ pre,
    complete (split_from {| complete := []; rest := pre ++ cur; after_cr := false |} bs) = (pre ++ l) :: ls.
Proof.
  revert cur. induction bs as [|b bs IH]; intros cur; [done|].
  rewrite split_from_cons. unfold split_step at 1. cbn [complete rest after_cr andb].
  destruct (b =? 13) eqn:H13; [|destruct (b =? 10) eqn:H10].
  - rewrite split_from_complete. intros [= <- <-]. exists (b :: bs). split; [done|]. intros pre.
    rewrite split_from_cons. unfold split_step. cbn [complete rest after_cr andb]. rewrite H13. by rewrite split_from_complete.
  - rewrite split_from_complete. intros [= <- <-]. exists (b :: bs). split; [done|]. intros pre.
    rewrite split_from_cons. unfold split_step. cbn [complete rest after_cr andb]. rewrite H13, H10. by rewrite split_from_complete.
  - intros H. destruct (IH _ H) as (t & Ht & Hpre). exists t. rewrite <- (assoc_L (++)) in Ht. split; [done|].
    intros pre. rewrite split_from_cons. unfold split_step. cbn [complete rest after_cr andb]. rewrite H13, H10.
    rewrite <- (assoc_L (++)). apply Hpre.
Qed.

Lemma split_no_line cur bs pre :
  complete (split_from {| complete := []; rest := cur; after_cr := false |} bs) = [] →
  complete (split_from {| complete := []; rest := pre ++ cur; after_cr := false |} bs) = [].
Proof.
  revert cur. induction bs as [|b bs IH]; intros cur; [done|]. rewrite !split_from_cons. unfold split_step.
  cbn [complete rest after_cr andb]. repeat case_goal_if; cbn [app]; rewrite ?(split_from_complete [cur]); [done..|].
  rewrite <- (assoc_L (++)). apply IH.
Qed.

(** Removing the mark from the stream or from its first line is the same. *)
Lemma strip_bom_lines bs : complete (split_lines (strip_bom bs)) = strip_first (complete (split_lines bs)).
Proof.
  unfold strip_bom. case_bool_decide as Hb.
  - rewrite <- (take_drop 3 bs) at 2. rewrite Hb. unfold split_lines at 2. rewrite split_from_app.
    change (split_from split_start UTF8_BOM) with {| complete := []; rest := UTF8_BOM ++ []; after_cr := false |}.
    unfold split_lines, split_start. set (t := drop 3 bs).
    destruct (complete (split_from {| complete := []; rest := []; after_cr := false |} t)) as [|l ls] eqn:Hl.
    + by rewrite split_no_line.
    + destruct (split_first_line [] t l ls Hl) as (_ & _ & Hpre). rewrite Hpre. done.
  - destruct (complete (split_lines bs)) as [|l ls] eqn:Hl; [done|]. cbn [strip_first]. f_equal.
    destruct (split_first_line [] bs l ls Hl) as (t & Ht & _). cbn [app] in Ht. unfold strip_bom.
    rewrite bool_decide_false; [done|]. intros Hl3. apply Hb. rewrite Ht.
    assert (3 ≤ length l)%nat by (apply (f_equal length) in Hl3; rewrite length_take in Hl3; unfold UTF8_BOM in Hl3; cbn [length] in Hl3; lia).
    by rewrite take_app_le.
Qed.

Lemma event_stream_lines bs :
  event_stream bs = events_of (from_utf8_lossy <$> strip_first (complete (split_lines bs))).
Proof. unfold event_stream. by rewrite split_lines_decode, strip_bom_lines. Qed.

Lemma strip_first_snoc ls x :
  strip_first (ls ++ [x]) = strip_first ls ++ [if bool_decide (ls = []) then strip_bom x else x].
Proof. by destruct ls. Qed.

Import Sse.

(** The parser's fields after the complete lines [ls] of a stream; [pre] was
    delivered by earlier calls. *)
Record assembled (l : SseLimits) (pre ls : list (list Z)) (p : BoundedSseParser) (out : list (list Z)) : Prop := {
  as_limits : limits p = l;
  as_data : data p = concat ((λ v, v ++ [10]) <$> pending_values ls);
  as_raw : event_raw_bytes p = pending_raw ls;
  as_lines : event_data_lines p = zlen (pending_values ls);
  as_idle : keepalive_lines p = idle_lines ls;
  as_live : poisoned p = false;
  as_out : pre ++ out = events_of (from_utf8_lossy <$> ls);
}.

(** ** Values and buffers *)

Lemma str_len_app a b : str_len (a ++ b) = str_len a + str_len b.
Proof. unfold str_len, as_bytes. by rewrite fmap_app, concat_app, zlen_app. Qed.

Lemma str_len_nonneg s : 0 <= str_len s.
Proof. apply zlen_nonneg. Qed.

Lemma str_len_data vs : str_len (concat ((λ v, v ++ [10]) <$> vs)) = sum ((λ v, str_len v + 1) <$> vs).
Proof.
  induction vs as [|v vs IH]; [done|]. cbn [fmap list_fmap concat]. rewrite !str_len_app, IH, sum_cons.
  change (str_len [10]) with 1. lia.
Qed.

Lemma data_nil vs : concat ((λ v, v ++ [10]) <$> vs) = [] ↔ vs = [].
Proof. split; [|by intros ->]. destruct vs as [|v vs]; [done|]. by destruct v. Qed.

Lemma pop_data v vs : pop_newline (concat ((λ v, v ++ [10]) <$> (v :: vs))) = join_values v vs.
Proof.
  assert (H : concat ((λ v, v ++ [10]) <$> (v :: vs)) = join_values v vs ++ [10]).
  { revert v. induction vs as [|w vs IH]; intros v; [unfold join_values; cbn; by rewrite !app_nil_r|].
    cbn [fmap list_fmap concat] in *. rewrite IH. unfold join_values. cbn [fmap list_fmap concat].
    by rewrite <- !(assoc_L (++)). }
  rewrite H. unfold pop_newline. rewrite last_snoc. cbn [Z.eqb]. apply removelast_last.
Qed.

Lemma pending_values_line ls x : x ≠ [] → pending_values (ls ++ [x]) =
  pending_values ls ++ match raw_value x with Some v => [v] | None => [] end.
Proof. intros Hx. unfold pending_values. rewrite pending_line, omap_app by done. cbn. by destruct (raw_value x). Qed.

Lemma pending_raw_line ls x : x ≠ [] → pending_raw (ls ++ [x]) =
  pending_raw ls + match raw_value x with Some _ => zlen x | None => 0 end.
Proof.
  intros Hx. unfold pending_raw. rewrite pending_line, fmap_app, sum_app by done. cbn. rewrite Z.add_0_r.
  by destruct (raw_value x).
Qed.

Lemma pending_values_blank ls : pending_values (ls ++ [[]]) = [] ∧ pending_raw (ls ++ [[]]) = 0.
Proof. unfold pending_values, pending_raw. by rewrite pending_blank. Qed.

Lemma count_le_decoded ls : zlen (pending_values ls) <= pending_decoded ls.
Proof.
  unfold pending_decoded. induction (pending_values ls) as [|v vs IH]; [done|].
  cbn [fmap list_fmap]. rewrite sum_cons, zlen_cons. pose proof (str_len_nonneg v). lia.
Qed.

Lemma pending_raw_nonneg ls : 0 <= pending_raw ls.
Proof. apply sum_nonneg, Forall_fmap, Forall_true. intros x. simpl. case_match; [apply zlen_nonneg|lia]. Qed.

Lemma pending_raw_none ls : pending_values ls = [] → pending_raw ls = 0.
Proof.
  unfold pending_values, pending_raw. induction (pending ls) as [|x xs IH]; [done|]. cbn.
  destruct (raw_value x) eqn:Hx; [done|]. intros H. exact (IH H).
Qed.

Lemma saturating_lt lim a : lim < usize_max → lim <? Z.min a usize_max = (lim <? a).
Proof. intros H. destruct (Z.ltb_spec lim (Z.min a usize_max)), (Z.ltb_spec lim a); done || lia. Qed.

Section parser.
Context {E : Type} (l : SseLimits) (Hl : limits_ok l) (pre : list (list Z)).
Abbreviation out_t := (list (list Z)).

(** The consumer of [push]. *)
Definition collect (payload : list Z) (out : out_t) : option E * out_t := (None, out ++ [payload]).

(** What processing a line does: it assembles the line, or it exceeds a budget
    and leaves a parser that is about to be poisoned. *)
Definition line_result (ls : list (list Z)) (x : list Z) (p : BoundedSseParser) (out : out_t)
    (r : outcome (SsePushError E) bool * (BoundedSseParser * out_t)) : Prop :=
  (budgets l (ls ++ [x]) ∧ ∃ act p' out', r = (Ok act, (p', out')) ∧ assembled l pre (ls ++ [x]) p' out' ∧
     raw_line p' = raw_line p ∧ pending_cr p' = pending_cr p ∧ bom_window_open p' = bom_window_open p) ∨
  (¬ budgets l (ls ++ [x]) ∧ ∃ e p', r = (Err (Parse e), (p', out)) ∧ exceeded l (ls ++ [x]) e ∧ limits p' = l).

(** A line without data, that does not dispatch. *)
Lemma count_line ls x p out b :
  assembled l pre ls p out → budgets l ls → raw_value x = None →
  (x = [] → pending_values ls = []) →
  line_result ls x p out ((count_non_dispatching_line (E := E) ;! ret b) (p, out)).
Proof.
  intros [Hlim Hdata Hraw Hlines Hidle Hlive Hout] [Hbr Hbd Hbl Hbi] Hx Hblank.
  destruct Hl as [_ _ [Hk0 Hk] _]. pose proof (idle_nonneg ls) as Hi0.
  assert (Hi : idle_lines (ls ++ [x]) = 1 + idle_lines ls).
  { rewrite idle_snoc, Hx. rewrite bool_decide_false by (by intros [? ?]).
    destruct (decide (x = [])) as [->|Hne]; [|by rewrite bool_decide_false].
    by rewrite Hblank, !bool_decide_true by done. }
  assert (Hv : pending_values (ls ++ [x]) = pending_values ls ∧ pending_raw (ls ++ [x]) = pending_raw ls ∧
               events_of (from_utf8_lossy <$> (ls ++ [x])) = events_of (from_utf8_lossy <$> ls)).
  { destruct (decide (x = [])) as [->|Hne].
    - destruct (pending_values_blank ls) as [-> ->]. rewrite events_blank, Hblank by done. rewrite app_nil_r.
      split_and!; [done|by rewrite pending_raw_none by auto|done].
    - rewrite pending_values_line, pending_raw_line, events_line, Hx, app_nil_r by done. split_and!; [done|lia|done]. }
  destruct Hv as (Hv & Hr & He).
  unfold count_non_dispatching_line, modify_parser, bind, modify, get, ret. cbn [fst snd set_event limits keepalive_lines].
  rewrite Hlim, Hidle. unfold saturating_add. rewrite saturating_lt by done.
  assert (Hbud : budgets l (ls ++ [x]) ↔ idle_lines ls + 1 <= max_keepalive_lines l).
  { split; [intros [_ _ _ H]; lia|]. intros H. split; [by rewrite Hr|unfold pending_decoded; by rewrite Hv|by rewrite Hv|lia]. }
  destruct (Z.ltb_spec (max_keepalive_lines l) (idle_lines ls + 1)) as [Hlt|Hge].
  - right. split; [rewrite Hbud; lia|]. eexists _, _. split; [done|]. split; [|exact Hlim].
    split; [done|]. rewrite Hi. lia.
  - left. split; [by rewrite Hbud|]. eexists _, _, _. split; [done|]. split; [|done].
    split; cbn [set_event limits data event_raw_bytes event_data_lines keepalive_lines poisoned]; rewrite ?Hv, ?Hr, ?He; try done.
    rewrite Hi, Z.min_l by lia. lia.
Qed.

Lemma dispatch_line ls p out v vs :
  assembled l pre ls p out → pending_values ls = v :: vs →
  budgets l (ls ++ [[]]) ∧
  assembled l pre (ls ++ [[]]) (set_event [] 0 0 0 p) (out ++ [pop_newline (data p)]).
Proof.
  intros [Hlim Hdata Hraw Hlines Hidle Hlive Hout] Hvs. destruct (pending_values_blank ls) as [Hv Hr].
  assert (Hi : idle_lines (ls ++ [[]]) = 0).
  { rewrite idle_snoc, raw_value_nil, Hvs. rewrite !bool_decide_false by (done || by intros [? ?]).
    by rewrite bool_decide_true. }
  destruct Hl. split.
  - split; rewrite ?Hr, ?Hi; [lia| | |lia]; [unfold pending_decoded|]; rewrite Hv.
    + change (0 <= event_bytes l). lia.
    + change (0 <= max_data_lines l). lia.
  - split; cbn [set_event limits data event_raw_bytes event_data_lines keepalive_lines poisoned];
      rewrite ?Hv, ?Hr, ?Hi; try done.
    rewrite events_blank, Hvs, Hdata, Hvs, pop_data, <- Hout. by rewrite (assoc_L (++)).
Qed.

Lemma data_line ls x p out v :
  assembled l pre ls p out → budgets l ls → x ≠ [] → raw_value x = Some v →
  let decoded_after := saturating_add (saturating_add (str_len (data p)) (str_len v)) 1 in
  let raw_after := saturating_add (event_raw_bytes p) (zlen x) in
  let lines_after := saturating_add (event_data_lines p) 1 in
  (event_bytes (limits p) <? decoded_after) || (event_bytes (limits p) <? raw_after) =
    (event_bytes l <? Z.max (pending_raw (ls ++ [x])) (pending_decoded (ls ++ [x]))) ∧
  (decoded_after <= event_bytes l → (max_data_lines (limits p) <? lines_after) =
    (max_data_lines l <? zlen (pending_values (ls ++ [x])))) ∧
  idle_lines (ls ++ [x]) = 0 ∧ event_bytes l <? decoded_after = (event_bytes l <? pending_decoded (ls ++ [x])).
Proof.
  intros [Hlim Hdata Hraw Hlines Hidle Hlive Hout] [Hbr Hbd Hbl Hbi] Hx Hv dec raw lines.
  destruct Hl as [_ [He0 He] [Hk0 Hk] [Hd0 Hd]].
  pose proof (count_le_decoded ls) as Hcnt. pose proof (zlen_nonneg x). pose proof (str_len_nonneg v).
  pose proof (pending_raw_nonneg ls). pose proof (zlen_nonneg (pending_values ls)).
  assert (Hdlen : str_len (data p) = pending_decoded ls) by (rewrite Hdata; apply str_len_data).
  unfold dec, raw, lines, saturating_add. rewrite Hlim, Hraw, Hlines, Hdlen.
  assert (Hpd : pending_decoded (ls ++ [x]) = pending_decoded ls + str_len v + 1).
  { unfold pending_decoded. rewrite pending_values_line, Hv, fmap_app, sum_app by done. cbn. lia. }
  assert (Hpr : pending_raw (ls ++ [x]) = pending_raw ls + zlen x) by (by rewrite pending_raw_line, Hv).
  assert (Hpl : zlen (pending_values (ls ++ [x])) = zlen (pending_values ls) + 1)
    by (rewrite pending_values_line, Hv, zlen_app by done; done).
  rewrite Hpd, Hpr, Hpl. split_and!.
  - apply eq_true_iff_eq. rewrite orb_true_iff, !Z.ltb_lt. lia.
  - intros Hfit. apply eq_true_iff_eq. rewrite !Z.ltb_lt. lia.
  - rewrite idle_snoc, Hv. by rewrite bool_decide_true by eauto.
  - apply eq_true_iff_eq. rewrite !Z.ltb_lt. lia.
Qed.

Lemma assembled_data ls x p out v :
  assembled l pre ls p out → budgets l (ls ++ [x]) → x ≠ [] → raw_value x = Some v →
  assembled l pre (ls ++ [x])
    (set_event (data p ++ v ++ [10]) (saturating_add (event_raw_bytes p) (zlen x))
       (saturating_add (event_data_lines p) 1) 0 p) out.
Proof.
  intros [Hlim Hdata Hraw Hlines Hidle Hlive Hout] [Hbr Hbd Hbl Hbi] Hx Hv.
  destruct Hl as [_ [He0 He] [Hk0 Hk] [Hd0 Hd]].
  rewrite pending_raw_line, Hv in Hbr by done. rewrite pending_values_line, Hv, zlen_app in Hbl by done.
  change (zlen [v]) with 1 in Hbl.
  split; cbn [set_event limits data event_raw_bytes event_data_lines keepalive_lines poisoned];
    rewrite ?pending_values_line, ?pending_raw_line, ?Hv by done; try done.
  - rewrite Hdata, fmap_app, concat_app. cbn. by rewrite app_nil_r.
  - unfold saturating_add. rewrite Hraw. lia.
  - unfold saturating_add. rewrite Hlines, zlen_app. change (zlen [v]) with 1. lia.
  - rewrite idle_snoc, Hv. by rewrite bool_decide_true by eauto.
  - by rewrite events_line.
Qed.

Lemma process_line_spec ls x p out :
  assembled l pre ls p out → budgets l ls →
  line_result ls x p out (process_line_with collect (from_utf8_lossy x) (zlen x) (p, out)).
Proof.
  intros Has Hb. unfold process_line_with, bind at 1, get. cbn [fst].
  destruct (decide (x = [])) as [->|Hx].
  { rewrite bool_decide_true by done. destruct (pending_values ls) as [|v vs] eqn:Hvs.
    - rewrite bool_decide_true by (rewrite (as_data _ _ _ _ _ Has), Hvs; done). by apply count_line.
    - rewrite bool_decide_false by (rewrite (as_data _ _ _ _ _ Has), Hvs, data_nil; done).
      destruct (dispatch_line ls p out v vs Has Hvs) as [Hb' Has']. left. split; [done|].
      eexists _, _, _. split; [reflexivity|]. by split. }
  assert (Hne : from_utf8_lossy x ≠ []) by (by rewrite from_utf8_lossy_nil).
  rewrite bool_decide_false by done.
  destruct (decide (head (from_utf8_lossy x) = Some 58)) as [Hc|Hc].
  { rewrite bool_decide_true by done. apply count_line; [done|done| |done].
    unfold raw_value, data_value. by rewrite (bool_decide_true (head _ = _)), orb_true_r. }
  rewrite bool_decide_false by done.
  assert (Hval : raw_value x = let '(f, v) := field_of (from_utf8_lossy x) in
    if bool_decide (f = chars_of "data") then Some v else None).
  { unfold raw_value, data_value. by rewrite !bool_decide_false. }
  destruct (field_of (from_utf8_lossy x)) as [f v].
  destruct (bool_decide (f = chars_of "data")); [|by apply count_line].
  destruct (data_line ls x p out v Has Hb Hx Hval) as (Hsize & Hcount & Hi & Hdec). cbv zeta in Hsize, Hcount, Hdec |- *.
  set (dec := saturating_add (saturating_add _ _) 1) in *. set (raw := saturating_add (event_raw_bytes p) _) in *.
  set (lines := saturating_add (event_data_lines p) 1) in *.
  assert (Hlp : limits (poison p) = l) by apply (as_limits _ _ _ _ _ Has). rewrite Hsize.
  destruct (Z.ltb_spec (event_bytes l) (Z.max (pending_raw (ls ++ [x])) (pending_decoded (ls ++ [x])))) as [Hbig|Hfit].
  { right. split; [intros []; lia|]. eexists _, _. split; [reflexivity|]. by rewrite (as_limits _ _ _ _ _ Has). }
  rewrite (proj2 (Z.ltb_ge _ (pending_decoded _))), Z.ltb_ge in Hdec by lia. rewrite (Hcount Hdec).
  destruct (Z.ltb_spec (max_data_lines l) (zlen (pending_values (ls ++ [x])))) as [Hmany|Hfew].
  { right. split; [intros []; lia|]. eexists _, _. split; [reflexivity|]. by rewrite (as_limits _ _ _ _ _ Has). }
  left. assert (Hb' : budgets l (ls ++ [x])) by (destruct Hl; split; lia). split; [done|].
  eexists _, _, _. split; [reflexivity|]. split; [|done]. by apply assembled_data.
Qed.

(** ** Bytes *)

Record reads (bs : list Z) (p : BoundedSseParser) (out : out_t) : Prop := {
  rd_assembled : assembled l pre (strip_first (complete (split_lines bs))) p out;
  rd_raw : raw_line p = rest (split_lines bs);
  rd_cr : pending_cr p = after_cr (split_lines bs);
  rd_bom : bom_window_open p = bool_decide (complete (split_lines bs) = []);
}.

(** The condition at one point of the stream. *)
Definition keeps (q : list Z) : Prop :=
  zlen (rest (split_lines q)) <= line_bytes l ∧
  Forall (λ raw, str_len (from_utf8_lossy raw) <= line_bytes l) (strip_first (complete (split_lines q))) ∧
  budgets l (strip_first (complete (split_lines q))).

Lemma within_snoc bs b : within l (bs ++ [b]) ↔ within l bs ∧ keeps (bs ++ [b]).
Proof.
  split.
  - intros H. split; [|by apply H]. intros q Hq. apply H. by apply prefix_app_r.
  - intros [H1 H2] q [t Ht]. destruct t as [|c t _] using rev_ind.
    + rewrite app_nil_r in Ht. by subst q.
    + rewrite (assoc_L (++)) in Ht. apply app_inj_tail in Ht as [-> _]. apply H1. by exists t.
Qed.

Lemma within_app bs t : within l (bs ++ t) → within l bs.
Proof. intros H q Hq. apply H. by apply prefix_app_r. Qed.

(** A refused stream holds no input. *)
Record released (p : BoundedSseParser) : Prop := {
  rel_poisoned : poisoned p = true;
  rel_empty : raw_line p = [] ∧ data p = [];
}.

(** [complete_line_with] once the mark is removed. *)
Definition complete_line_run (x : list Z) (p : BoundedSseParser) (out : out_t)
    : outcome (SsePushError E) bool * (BoundedSseParser * out_t) :=
  let p1 := close_bom_window (set_raw_line [] p) in
  if line_bytes (limits p) <? str_len (from_utf8_lossy x)
  then (Err (Parse (LineTooLong (line_bytes (limits p)))), (poison p1, out))
  else match process_line_with collect (from_utf8_lossy x) (zlen x) (p1, out) with
       | (Err (Parse e), s) => (Err (Parse e), (poison s.1, s.2))
       | r => r
       end.

Lemma complete_line_eq p out :
  complete_line_run (if bom_window_open p then strip_bom (raw_line p) else raw_line p) p out =
  complete_line_with collect (p, out).
Proof.
  unfold complete_line_run, complete_line_with, bind at 1, get, modify_parser, bind at 1, modify, strip_bom. cbn [fst snd].
  destruct (bom_window_open p); cbn [andb]; by case_goal_if.
Qed.

(** Why the line [x] after the lines [ls] is refused. *)
Definition line_refused (ls : list (list Z)) (x : list Z) (e : SseParseError) : Prop :=
  if bool_decide (line_bytes l < str_len (from_utf8_lossy x)) then e = LineTooLong (line_bytes l)
  else exceeded l (ls ++ [x]) e.

Lemma complete_line_spec cs p out :
  assembled l pre (strip_first cs) p out → budgets l (strip_first cs) → bom_window_open p = bool_decide (cs = []) →
  let x := if bool_decide (cs = []) then strip_bom (raw_line p) else raw_line p in
  let fits := str_len (from_utf8_lossy x) <= line_bytes l ∧ budgets l (strip_first cs ++ [x]) in
  let r := complete_line_with (E := E) collect (p, out) in
  (fits ∧ ∃ act p' out', r = (Ok act, (p', out')) ∧ assembled l pre (strip_first cs ++ [x]) p' out' ∧
     raw_line p' = [] ∧ pending_cr p' = pending_cr p ∧ bom_window_open p' = false) ∨
  (¬ fits ∧ ∃ e p', r = (Err (Parse e), (p', out)) ∧ line_refused (strip_first cs) x e ∧ released p').
Proof.
  intros Has Hb Hbom x fits r.
  assert (Hrun : r = complete_line_run x p out).
  { unfold r, x. rewrite <- complete_line_eq. rewrite Hbom. unfold strip_bom. by destruct (bool_decide (cs = [])). }
  rewrite Hrun. clear r Hrun. unfold complete_line_run.
  set (p1 := close_bom_window (set_raw_line [] p)).
  assert (Has1 : assembled l pre (strip_first cs) p1 out) by (by destruct Has).
  pose proof (as_limits _ _ _ _ _ Has) as Hlim.
  destruct (Z.ltb_spec (line_bytes (limits p)) (str_len (from_utf8_lossy x))) as [Hlong|Hshort].
  { right. rewrite Hlim in *. split; [intros [H _]; lia|]. eexists _, _. split; [reflexivity|]. split; [|by split].
    unfold line_refused. by rewrite bool_decide_true. }
  rewrite Hlim in Hshort.
  destruct (process_line_spec (strip_first cs) x p1 out Has1 Hb)
    as [(Hfit & act & p' & out' & -> & Has' & Hr & Hc & Hbo)|(Hno & e & p' & -> & He & _)].
  - left. split; [done|]. exists act, p', out'. by split_and!.
  - right. split; [by intros [_ ?]|]. exists e, (poison p'). split; [reflexivity|]. split; [|by split].
    unfold line_refused. by rewrite bool_decide_false by lia.
Qed.

(** A refused line breaks the limit named. *)
Lemma line_refused_violated q cs cur cr e :
  split_lines q = {| complete := cs ++ [cur]; rest := []; after_cr := cr |} →
  lines_fit l (strip_first cs) →
  line_refused (strip_first cs) (if bool_decide (cs = []) then strip_bom cur else cur) e →
  violated l q e.
Proof.
  intros Hq Hfit. unfold line_refused, violated. rewrite Hq. cbn [complete rest]. rewrite strip_first_snoc.
  set (x := if bool_decide (cs = []) then strip_bom cur else cur). case_bool_decide as Hlen.
  - intros ->. split; [done|]. right. intros Hall. apply Forall_app in Hall as [_ Hall].
    apply Forall_cons in Hall as [Hx _]. lia.
  - intros He. assert (Hall : lines_fit l (strip_first cs ++ [x])).
    { apply Forall_app. split; [done|]. repeat constructor. lia. }
    destruct Hl as [[Hl0 _] _ _ _].
    destruct e; try done; (split; [change (0 <= line_bytes l); lia|done]).
Qed.

(** One byte. *)
Lemma push_loop_cons b chunk act p out :
  push_loop (E := E) collect (b :: chunk) act (p, out) =
  let p1 := set_pending_cr false p in
  let ended cr := bind (complete_line_with collect) (λ activity,
    modify_parser (if cr : bool then set_pending_cr true else id) ;!
    push_loop collect chunk (act || activity)) (p1, out) in
  if pending_cr p && (b =? 10) then push_loop collect chunk act (p1, out)
  else if b =? 13 then ended true
  else if b =? 10 then ended false
  else if line_bytes (limits p) <=? zlen (raw_line p)
  then (Err (Parse (LineTooLong (line_bytes (limits p)))), (poison p1, out))
  else push_loop collect chunk act (set_raw_line (raw_line p ++ [b]) p1, out).
Proof.
  cbn [push_loop]. unfold bind at 1, get, modify_parser at 1, bind at 1, modify. cbn [fst snd].
  destruct (pending_cr p && (b =? 10)); [done|]. destruct (b =? 13); [done|]. destruct (b =? 10).
  - unfold bind, modify_parser, modify. by destruct (complete_line_with collect (set_pending_cr false p, out)) as [[a|e| |] [p' o']].
  - destruct (line_bytes (limits p) <=? zlen (raw_line p)); done.
Qed.

Lemma push_byte_spec bs b chunk act p out :
  reads bs p out → within l bs →
  (within l (bs ++ [b]) ∧ ∃ act' p' out', push_loop (E := E) collect (b :: chunk) act (p, out) =
     push_loop collect chunk act' (p', out') ∧ reads (bs ++ [b]) p' out') ∨
  (¬ within l (bs ++ [b]) ∧ ∃ e p', push_loop (E := E) collect (b :: chunk) act (p, out) = (Err (Parse e), (p', out)) ∧
     violated l (bs ++ [b]) e ∧ released p').
Proof.
  intros [Has Hraw Hcr Hbom] Hw. pose proof (Hw bs ltac:(done)) as (Hrest & Hlines & Hbud).
  assert (Hsplit : split_lines (bs ++ [b]) = split_step (split_lines bs) b) by apply foldl_snoc.
  assert (Hkeeps : within l (bs ++ [b]) ↔ keeps (bs ++ [b])) by (rewrite within_snoc; naive_solver).
  rewrite Hkeeps. unfold keeps. rewrite push_loop_cons, Hsplit. cbv zeta.
  pose proof (as_limits _ _ _ _ _ Has) as Hlim. set (p1 := set_pending_cr false p).
  assert (Has1 : assembled l pre (strip_first (complete (split_lines bs))) p1 out) by (by destruct Has).
  rewrite Hcr, Hlim, Hraw. destruct (split_lines bs) as [cs cur cr] eqn:Hs. cbn [complete rest after_cr] in *.
  assert (Hended : ∀ c : bool,
    let fits := zlen (A := Z) [] <= line_bytes l ∧ Forall (λ raw, str_len (from_utf8_lossy raw) <= line_bytes l) (strip_first (cs ++ [cur])) ∧
      budgets l (strip_first (cs ++ [cur])) in
    let r := bind (complete_line_with collect) (λ activity, modify_parser (if c then set_pending_cr true else id) ;!
      push_loop collect chunk (act || activity)) (p1, out) in
    split_step {| complete := cs; rest := cur; after_cr := cr |} b = {| complete := cs ++ [cur]; rest := []; after_cr := c |} →
    (fits ∧ ∃ act' p' out', r = push_loop (E := E) collect chunk act' (p', out') ∧ reads (bs ++ [b]) p' out') ∨
    (¬ fits ∧ ∃ e p', r = (Err (Parse e), (p', out)) ∧ violated l (bs ++ [b]) e ∧ released p')).
  { intros c fits r Hstep. unfold fits. rewrite strip_first_snoc. clear fits.
    destruct (complete_line_spec cs p1 out Has1 Hbud Hbom)
      as [([Hlen Hb] & a & p' & out' & Hrun & Has' & Hr' & Hc' & Hbo')|(Hno & e & p' & Hrun & He & Hrel)];
      change (raw_line p1) with (raw_line p) in *; rewrite Hraw in *.
    - left. split.
      { split; [destruct Hl; rewrite zlen_nil; lia|]. split; [apply Forall_app; split; [done|by repeat constructor]|done]. }
      unfold r. rewrite (bind_ok _ _ _ _ _ Hrun). unfold modify_parser, bind, modify. cbn [fst snd].
      eexists _, _, _. split; [reflexivity|]. split; rewrite Hsplit, Hstep; cbn [complete rest after_cr].
      + rewrite strip_first_snoc. destruct c; by destruct Has'.
      + by destruct c.
      + destruct c; [done|]. cbn. rewrite Hc'. done.
      + rewrite bool_decide_false by (by destruct cs). by destruct c.
    - right. split; [|exists e, p'; split; [unfold r, bind; by rewrite Hrun|]; split; [|done];
        eapply line_refused_violated; [by rewrite Hsplit, Hstep|done|exact He]].
      intros (_ & Hf & Hb). apply Hno. split; [|done]. apply Forall_app in Hf as [_ Hf]. by apply Forall_cons in Hf as [Hf _]. }
  unfold split_step in *. cbn [complete rest after_cr] in *.
  destruct (cr && (b =? 10)) eqn:Hskip.
  { left. cbn [complete rest]. split; [done|]. exists act, p1, out. split; [done|].
    split; rewrite Hsplit; done. }
  destruct (b =? 13) eqn:H13; [by apply (Hended true)|]. destruct (b =? 10) eqn:H10; [by apply (Hended false)|].
  cbn [complete rest]. rewrite zlen_app. change (zlen [b]) with 1.
  destruct (Z.leb_spec (line_bytes l) (zlen cur)) as [Hlong|Hshort].
  - right. split; [intros [H _]; lia|]. eexists _, _. split; [reflexivity|]. split; [|by split].
    split; [done|]. left. rewrite Hsplit. cbn [rest]. rewrite zlen_app. change (zlen [b]) with 1. lia.
  - left. split; [split; [lia|done]|]. eexists _, _, _. split; [reflexivity|].
    split; rewrite Hsplit; cbn [complete rest after_cr]; [by destruct Has1|done|done|done].
Qed.

(** ** Chunks *)

Lemma events_prefix ls t : events_of (from_utf8_lossy <$> ls) `prefix_of` events_of (from_utf8_lossy <$> (ls ++ t)).
Proof.
  induction t as [|x t IH] using rev_ind; [by rewrite app_nil_r|]. rewrite (assoc_L (++)). etrans; [exact IH|].
  destruct (decide (x = [])) as [->|Hx]; [rewrite events_blank; by eexists|by rewrite events_line].
Qed.

Lemma event_stream_prefix bs t : event_stream bs `prefix_of` event_stream (bs ++ t).
Proof.
  rewrite !event_stream_lines. unfold split_lines. rewrite split_from_app.
  destruct (split_from split_start bs) as [cs cur cr]. rewrite split_from_complete. cbn [complete].
  set (new := complete (split_from _ t)). destruct cs as [|c cs]; [apply prefix_nil|].
  cbn [app strip_first]. rewrite app_comm_cons. apply events_prefix.
Qed.

(** The error is that of the first byte of [chunk] that breaks a limit. *)
Definition first_violated (bs chunk : list Z) (e : SseParseError) : Prop :=
  ∃ q b t, chunk = q ++ b :: t ∧ within l (bs ++ q) ∧ violated l (bs ++ q ++ [b]) e.

Lemma first_violated_later bs c chunk e :
  first_violated (bs ++ c) chunk e → first_violated bs (c ++ chunk) e.
Proof.
  intros (q & b & t & -> & Hw & Hv). exists (c ++ q), b, t. rewrite <- !(assoc_L (++)) in *. done.
Qed.

Lemma first_violated_more bs chunk c e : first_violated bs chunk e → first_violated bs (chunk ++ c) e.
Proof. intros (q & b & t & -> & Hw & Hv). exists q, b, (t ++ c). by rewrite <- (assoc_L (++)). Qed.

Lemma sse_push_loop_spec bs chunk act p out :
  reads bs p out → within l bs →
  (within l (bs ++ chunk) ∧ ∃ act' p' out', push_loop (E := E) collect chunk act (p, out) = (Ok act', (p', out')) ∧
     reads (bs ++ chunk) p' out') ∨
  (¬ within l (bs ++ chunk) ∧ ∃ e p' out', push_loop (E := E) collect chunk act (p, out) = (Err (Parse e), (p', out')) ∧
     first_violated bs chunk e ∧ released p' ∧ (pre ++ out') `prefix_of` event_stream (bs ++ chunk)).
Proof.
  revert bs act p out. induction chunk as [|b chunk IH]; intros bs act p out Hr Hw.
  { rewrite app_nil_r. left. split; [done|]. by exists act, p, out. }
  replace (bs ++ b :: chunk) with ((bs ++ [b]) ++ chunk) by (by rewrite <- (assoc_L (++))).
  destruct (push_byte_spec bs b chunk act p out Hr Hw)
    as [(Hw' & act' & p' & out' & -> & Hr')|(Hno & e & p' & -> & He & Hrel)].
  { destruct (IH _ act' _ _ Hr' Hw') as [?|(Hno & e & p2 & out2 & Hrun & He & Hrest)]; [by left|]. right.
    split; [done|]. exists e, p2, out2. split_and!; [done|by apply (first_violated_later bs [b])|apply Hrest..]. }
  right. split; [intros H; by apply within_app in H|]. exists e, p', out. split_and!; try done.
  { exists [], b, chunk. by rewrite app_nil_r. }
  destruct Hr as [Has _ _ _]. rewrite (as_out _ _ _ _ _ Has), <- event_stream_lines.
  rewrite <- (assoc_L (++)). apply event_stream_prefix.
Qed.
End parser.

Lemma reads_new l : reads l [] [] (BoundedSseParser_new l) [].
Proof. constructor; [constructor|..]; reflexivity. Qed.

(** A whole stream, fed in chunks; it ends with the first refusal. *)
Fixpoint push_all (chunks : list (list Z)) (p : BoundedSseParser)
    : outcome SseParseError (list (list Z)) * BoundedSseParser :=
  match chunks with
  | [] => (Ok [], p)
  | chunk :: chunks =>
      match push chunk p with
      | (Ok out, p') =>
          match push_all chunks p' with (Ok out', p'') => (Ok (out ++ out'), p'') | r => r end
      | r => r
      end
  end.

Section stream.
Context (l : SseLimits) (Hl : limits_ok l).

Lemma within_nil : within l [].
Proof.
  intros q Hq. apply prefix_nil_inv in Hq as ->. destruct Hl. split_and!; [change (0 <= line_bytes l); lia|constructor|].
  split; [change (0 <= event_bytes l)|change (0 <= event_bytes l)|change (0 <= max_data_lines l)|
    change (0 <= max_keepalive_lines l)]; lia.
Qed.

(** The parser between two calls, [pre] being delivered. *)
Definition feeds (bs : list Z) (pre : list (list Z)) (p : BoundedSseParser) : Prop := reads l pre bs p [].

Lemma sse_push_spec bs chunk pre p :
  feeds bs pre p → within l bs →
  (within l (bs ++ chunk) ∧ ∃ out p', push chunk p = (Ok out, p') ∧ feeds (bs ++ chunk) (pre ++ out) p') ∨
  (¬ within l (bs ++ chunk) ∧ ∃ e p', push chunk p = (Err e, p') ∧ first_violated l bs chunk e ∧ released p').
Proof.
  intros Hr Hw. destruct (sse_push_loop_spec (E := unit) l Hl pre bs chunk false p [] Hr Hw)
    as [(Hw' & act & p' & out & Hrun & Hr')|(Hno & e & p' & out & Hrun & He & Hrel & _)].
  - left. split; [done|]. exists out, p'. unfold push, push_with, bind, get. cbn [fst].
    rewrite (as_live _ _ _ _ _ (rd_assembled _ _ _ _ _ Hr)).
    change (λ payload (dispatched : list (list Z)), (None : option unit, dispatched ++ [payload])) with (collect (E := unit)).
    rewrite Hrun. split; [done|]. destruct Hr' as [[] ? ? ?]. split; [|done..]. split; try done. by rewrite app_nil_r.
  - right. split; [done|]. exists e, p'. unfold push, push_with, bind, get. cbn [fst].
    rewrite (as_live _ _ _ _ _ (rd_assembled _ _ _ _ _ Hr)).
    change (λ payload (dispatched : list (list Z)), (None : option unit, dispatched ++ [payload])) with (collect (E := unit)).
    by rewrite Hrun.
Qed.

Lemma push_all_spec chunks bs pre p :
  feeds bs pre p → within l bs →
  (within l (bs ++ concat chunks) ∧ ∃ out p', push_all chunks p = (Ok out, p') ∧ feeds (bs ++ concat chunks) (pre ++ out) p') ∨
  (¬ within l (bs ++ concat chunks) ∧ ∃ e p', push_all chunks p = (Err e, p') ∧
     first_violated l bs (concat chunks) e ∧ released p').
Proof.
  revert bs pre p. induction chunks as [|c cs IH]; intros bs pre p Hr Hw; cbn [push_all concat].
  { left. rewrite app_nil_r. split; [done|]. exists [], p. by rewrite app_nil_r. }
  destruct (sse_push_spec bs c pre p Hr Hw) as [(Hw' & out & p' & -> & Hr')|(Hno & e & p' & -> & He & Hrel)]; cycle 1.
  { right. split; [rewrite (assoc_L (++)); intros H; by apply within_app in H|]. exists e, p'.
    split; [done|]. split; [by apply first_violated_more|done]. }
  destruct (IH _ _ _ Hr' Hw') as [(Hw2 & out2 & p2 & -> & Hr2)|(Hno & e & p2 & -> & He & Hrel)];
    rewrite (assoc_L (++)); [left|right].
  - split; [done|]. exists (out ++ out2), p2. by rewrite (assoc_L (++)).
  - split; [done|]. exists e, p2. split; [done|]. split; [by apply first_violated_later|done].
Qed.

(** * Theorems *)

(** C7: The event-stream parser refines the standard: a stream that keeps to the
    limits at every point is accepted however it is cut into chunks, and the
    payloads handed out are the messages of the whole stream, which is decoded by
    one streaming UTF-8 decoder with replacement, split into lines at CRLF, LF and
    CR, and cut at blank lines; what the end of the stream discards is reported
    truthfully. *)
Theorem sse_stream_correct chunks :
  let bs := concat chunks in
  within l bs →
  ∃ p, push_all chunks (BoundedSseParser_new l) = (Ok (event_stream bs), p) ∧
    finish p = Ok {| discarded_pending_event := negb (bool_decide (pending_values (strip_first (complete (split_lines bs))) = []));
                     discarded_partial_line := negb (bool_decide (rest (split_lines bs) = [])) |}.
Proof.
  intros bs Hw. destruct (push_all_spec chunks [] [] (BoundedSseParser_new l) (reads_new l) within_nil)
    as [(_ & out & p & Hrun & Hr)|(Hno & _)]; [|done].
  cbn [app] in Hr. fold bs in Hr. destruct Hr as [Has Hraw _ _]. pose proof Has as [_ Hdata _ _ _ Hlive Hout].
  exists p. rewrite Hrun, event_stream_lines, <- Hout, app_nil_r. split; [done|].
  unfold finish. rewrite Hlive, Hraw, Hdata. do 2 f_equal. f_equal. apply bool_decide_ext. apply data_nil.
Qed.

(** C36: A stream that breaks a limit is refused, however it is cut, and for its
    first violation: there is a byte up to which the stream keeps to the limits
    and with which it breaks the limit the error names, whose value the error
    carries (the open line or a decoded line too long, the event too large, raw or
    decoded, too many data lines in an event that is not too large, too many idle
    lines in a row).  The parser then holds no input and refuses everything else
    as poisoned. *)
Theorem sse_stream_refused chunks more :
  ¬ within l (concat chunks) →
  ∃ e p, push_all chunks (BoundedSseParser_new l) = (Err e, p) ∧
    (∃ q b t, concat chunks = q ++ b :: t ∧ within l q ∧ violated l (q ++ [b]) e) ∧ buffered_bytes p = 0 ∧
    push more p = (Err Poisoned, p) ∧ finish p = Err Poisoned.
Proof.
  intros Hno. destruct (push_all_spec chunks [] [] (BoundedSseParser_new l) (reads_new l) within_nil)
    as [(Hw & _)|(_ & e & p & Hrun & He & [Hpo [Hr Hd]])]; [done|].
  exists e, p. split_and!; [done|done| | |].
  - unfold buffered_bytes. by rewrite Hr, Hd.
  - unfold push, push_with, bind, get. cbn [fst]. by rewrite Hpo.
  - unfold finish. by rewrite Hpo.
Qed.

(** What the parser buffers is bounded, at every point of every stream and
    however it is cut: never more than a line and an event. *)
Theorem sse_buffer_bounded chunks :
  let '(_, p) := push_all chunks (BoundedSseParser_new l) in
  0 <= buffered_bytes p <= line_bytes l + event_bytes l.
Proof.
  destruct (push_all_spec chunks [] [] (BoundedSseParser_new l) (reads_new l) within_nil)
    as [(Hw & out & p & -> & Hr)|(_ & e & p & -> & He & [Hpo [Hr Hd]])]; unfold buffered_bytes.
  - cbn [app] in Hr. destruct (Hw (concat chunks)) as (Hrest & _ & [_ Hdec _ _]); [done|].
    destruct Hr as [Has Hraw _ _]. rewrite Hraw, (as_data _ _ _ _ _ Has), str_len_data.
    pose proof (zlen_nonneg (rest (split_lines (concat chunks)))).
    unfold pending_decoded in Hdec. cbn [app] in *. split; [|lia].
    pose proof (sum_nonneg ((λ v, str_len v + 1) <$> pending_values (strip_first (complete (split_lines (concat chunks)))))) as Hs.
    assert (Hnn : Forall (λ x, 0 <= x) ((λ v, str_len v + 1) <$> pending_values (strip_first (complete (split_lines (concat chunks)))))).
    { apply Forall_fmap, Forall_true. intros v. simpl. pose proof (str_len_nonneg v). lia. }
    specialize (Hs Hnn). lia.
  - rewrite Hr, Hd. destruct Hl. change (0 <= 0 <= line_bytes l + event_bytes l). lia.
Qed.
End stream.
