(* ===== verification/SseExamples.v ===== *)
(** Event streams on concrete inputs. *)
From stdpp Require Import base list gmap strings.
From Stdlib Require Import ZArith Lia.
From S2P Require Import Prelude Utf8 RequestId SseParser SseDecode SseTheorems.
Import Sse.

Definition ex_limits : SseLimits :=
  {| line_bytes := 32; event_bytes := 64; max_keepalive_lines := 2; max_data_lines := 3 |}.

Lemma ex_limits_ok : limits_ok ex_limits.
Proof. split; vm_compute; split; done || discriminate. Qed.

(** A stream is within the limits exactly when the parser accepts it. *)
Lemma within_run chunks out p :
  push_all chunks (BoundedSseParser_new ex_limits) = (Ok out, p) → within ex_limits (concat chunks).
Proof.
  intros Hrun. destruct (push_all_spec ex_limits ex_limits_ok chunks [] [] _ (reads_new ex_limits) (within_nil _ ex_limits_ok))
    as [[Hw _]|(_ & e & p' & He & _)]; [done|]. by rewrite He in Hrun.
Qed.

Lemma not_within_run chunks e p :
  push_all chunks (BoundedSseParser_new ex_limits) = (Err e, p) → ¬ within ex_limits (concat chunks).
Proof.
  intros Hrun Hw. destruct (push_all_spec ex_limits ex_limits_ok chunks [] [] _ (reads_new ex_limits) (within_nil _ ex_limits_ok))
    as [(_ & out & p' & He & _)|[Hno _]]; [|done]. by rewrite He in Hrun.
Qed.

Definition LF : list Z := [10].
Definition CRLF : list Z := [13; 10].

(** A mark, a comment, two data lines with an ill-formed byte, cut inside the
    terminator and inside the line; then an empty payload and an open event. *)
Definition ex_stream : list (list Z) :=
  [UTF8_BOM ++ chars_of ":hi" ++ [13]; LF ++ chars_of "data: a" ++ [226; 130]; LF ++ chars_of "da";
   chars_of "ta:b" ++ CRLF ++ CRLF ++ chars_of "data" ++ LF ++ LF; chars_of "data:x" ++ LF ++ chars_of "da"].

Lemma sse_stream_correct_witness :
  ∃ p, push_all ex_stream (BoundedSseParser_new ex_limits) = (Ok [[97; 65533; 10; 98]; []], p) ∧
    finish p = Ok {| discarded_pending_event := true; discarded_partial_line := true |}.
Proof.
  destruct (sse_stream_correct ex_limits ex_limits_ok ex_stream) as (p & Hrun & Hfin).
  { eapply within_run. vm_compute. reflexivity. }
  exists p. rewrite Hrun, Hfin. split; vm_compute; reflexivity.
Defined.

(** Three comments in a row are a flood. *)
Definition ex_flood : list (list Z) := [chars_of ":a" ++ LF ++ chars_of ":b" ++ LF; chars_of ":c" ++ LF].

Lemma sse_stream_refused_witness :
  ∃ e p, push_all ex_flood (BoundedSseParser_new ex_limits) = (Err e, p) ∧ e = KeepaliveFlood 2 ∧
    (∃ q b t, concat ex_flood = q ++ b :: t ∧ within ex_limits q ∧ violated ex_limits (q ++ [b]) e) ∧
    push (chars_of "x") p = (Err Poisoned, p).
Proof.
  destruct (sse_stream_refused ex_limits ex_limits_ok ex_flood (chars_of "x")) as (e & p & Hrun & He & _ & Hmore & _).
  { eapply not_within_run. vm_compute. reflexivity. }
  exists e, p. split; [exact Hrun|]. split; [|by split].
  apply (f_equal fst) in Hrun. vm_compute in Hrun. by injection Hrun as <-.
Defined.

Lemma sse_buffer_bounded_witness :
  0 <= buffered_bytes (push_all ex_stream (BoundedSseParser_new ex_limits)).2 <= 96.
Proof.
  pose proof (sse_buffer_bounded ex_limits ex_limits_ok ex_stream) as H.
  destruct (push_all ex_stream (BoundedSseParser_new ex_limits)) as [o p]. exact H.
Defined.
