(* ===== verification/ClientCache.v ===== *)
(** The client's cache of final complete results,
    [crates/fastmcp-client/src/cache.rs], with the cache hints of
    [crates/fastmcp-protocol/src/result.rs]: definitions. *)
From stdpp Require Import base list gmap strings.
From Stdlib Require Import ZArith Lia.
From S2P Require Import Prelude Utf8 RequestId SseParser.

(** * Time to live: [crates/fastmcp-protocol/src/result.rs] *)

Inductive CacheTtlConversionError : Type :=
| Negative
| RuntimeOutOfRange.

(** [str::split_once] at a set of characters *)
Fixpoint split_once (stop : Z → bool) (s : list Z) : option (list Z * list Z) :=
  match s with
  | [] => None
  | c :: s =>
      if stop c then Some ([], s)
      else match split_once stop s with Some (a, b) => Some (c :: a, b) | None => None end
  end.

Definition is_exponent_mark (c : Z) : bool := (c =? 101) || (c =? 69).
Definition nonzero_digit (c : Z) : bool := (49 <=? c) && (c <=? 57).
Definition decimal_digit (c : Z) : bool := (48 <=? c) && (c <=? 57).

Definition strip_minus (s : list Z) : option (list Z) :=
  match s with c :: r => if c =? 45 then Some r else None | [] => None end.

(** The value of a string of digits. *)
Definition digits_value (ds : list Z) : Z := foldl (λ acc d, acc * 10 + (d - 48)) 0 ds.

(** [str::parse] for an integer of the given range: an optional sign, then at
    least one digit. *)
Definition parse_int (lo hi : Z) (s : list Z) : option Z :=
  let '(negative, ds) := match s with
    | c :: r => if c =? 45 then (true, r) else if c =? 43 then (false, r) else (false, s)
    | [] => (false, s)
    end in
  if bool_decide (ds = []) || negb (forallb decimal_digit ds) then None
  else
    let v := if negative : bool then - digits_value ds else digits_value ds in
    if (lo <=? v) && (v <=? hi) then Some v else None.

(** [str::trim_start_matches('0')] *)
Fixpoint trim_zeroes (s : list Z) : list Z :=
  match s with c :: r => if c =? 48 then trim_zeroes r else s | [] => [] end.

Definition i128_min : Z := - 2 ^ 127.
Definition i128_max : Z := 2 ^ 127 - 1.

Definition cache_ttl_is_negative (lexeme : list Z) : bool :=
  match strip_minus lexeme with
  | None => false
  | Some absolute =>
      let mantissa := match split_once is_exponent_mark absolute with Some (m, _) => m | None => absolute end in
      existsb nonzero_digit mantissa
  end.

(** The digits without the decimal point and exponent. *)
Definition ttl_integer_digits (digits : list Z) (decimal_shift : Z)
    : outcome CacheTtlConversionError (list Z) :=
  if 0 <=? decimal_shift then
    if usize_max <? decimal_shift then Err RuntimeOutOfRange
    else match checked_add (zlen digits) decimal_shift with
         | None => Err RuntimeOutOfRange
         | Some length =>
             if 20 <? length then Err RuntimeOutOfRange
             else Ok (digits ++ replicate (Z.to_nat decimal_shift) 48)
         end
  else
    if usize_max <? - decimal_shift then Err RuntimeOutOfRange
    else match checked_sub (zlen digits) (- decimal_shift) with
         | None => Err RuntimeOutOfRange
         | Some length =>
             if negb (forallb (Z.eqb 48) (drop (Z.to_nat length) digits)) then Err RuntimeOutOfRange
             else Ok (take (Z.to_nat length) digits)
         end.

(** [lexeme] is the spelling of a JSON integer. *)
Definition cache_ttl_runtime_millis (lexeme : list Z) : outcome CacheTtlConversionError Z :=
  let unsigned := default lexeme (strip_minus lexeme) in
  let '(mantissa, exponent) :=
    match split_once is_exponent_mark unsigned with
    | Some (mantissa, exponent) => (mantissa, exponent)
    | None => (unsigned, [48])
    end in
  match parse_int i128_min i128_max exponent with
  | None => Err RuntimeOutOfRange
  | Some exponent =>
      let '(whole, fraction) := default (mantissa, []) (split_once (Z.eqb 46) mantissa) in
      let digits := whole ++ fraction in
      if negb (existsb nonzero_digit digits) then Ok 0
      else
        let decimal_shift := exponent - zlen fraction in
        if decimal_shift <? i128_min then Err RuntimeOutOfRange
        else
          let? integer_digits := ttl_integer_digits digits decimal_shift in
          let normalized := trim_zeroes integer_digits in
          if bool_decide (normalized = []) then Ok 0
          else if 20 <? zlen normalized then Err RuntimeOutOfRange
          else match parse_int 0 u64_max normalized with Some v => Ok v | None => Err RuntimeOutOfRange end
  end.

(** A [CacheTtl] is the spelling it retains. *)
Definition CacheTtl : Type := list Z.

Definition try_as_millis (ttl : CacheTtl) : outcome CacheTtlConversionError Z := cache_ttl_runtime_millis ttl.

Definition CacheTtl_try_from (lexeme : list Z) : outcome CacheTtlConversionError CacheTtl :=
  if cache_ttl_is_negative lexeme then Err Negative else Ok lexeme.

Inductive CacheScope : Type := Public | Private.

(** * Results: [crates/fastmcp-protocol/src/messages.rs] *)

Record CacheHints : Type := { ttl_ms : CacheTtl; cache_scope : CacheScope }.

(** The variants, with the members the cache reads and the others in [P]. *)
Inductive FinalCoreResult (P : Type) : Type :=
| Discover (hints : CacheHints) (rest : P)
| Completion (rest : P)
| ToolsList (hints : CacheHints) (rest : P)
| ToolsCall (rest : P)
| ToolsCallTask (rest : P)
| ToolsCallInputRequired (rest : P)
| ResourcesList (hints : CacheHints) (rest : P)
| ResourceTemplatesList (hints : CacheHints) (rest : P)
| ResourcesRead (hints : CacheHints) (rest : P)
| ResourcesReadInputRequired (rest : P)
| PromptsList (hints : CacheHints) (rest : P)
| PromptsGet (rest : P)
| PromptsGetInputRequired (rest : P)
| SubscriptionsListen (rest : P).
Arguments Discover {P}.
Arguments Completion {P}.
Arguments ToolsList {P}.
Arguments ToolsCall {P}.
Arguments ToolsCallTask {P}.
Arguments ToolsCallInputRequired {P}.
Arguments ResourcesList {P}.
Arguments ResourceTemplatesList {P}.
Arguments ResourcesRead {P}.
Arguments ResourcesReadInputRequired {P}.
Arguments PromptsList {P}.
Arguments PromptsGet {P}.
Arguments PromptsGetInputRequired {P}.
Arguments SubscriptionsListen {P}.

Inductive CoreResult (P : Type) : Type :=
| Legacy (result : P)
| Final (result : FinalCoreResult P).
Arguments Legacy {P}.
Arguments Final {P}.

Definition final_cache_hints {P} (result : CoreResult P) : option (CacheTtl * CacheScope) :=
  match result with
  | Legacy _ => None
  | Final result =>
      match result with
      | Discover h _ | ToolsList h _ | ResourcesList h _ | ResourceTemplatesList h _
      | ResourcesRead h _ | PromptsList h _ => Some (ttl_ms h, cache_scope h)
      | Completion _ | ToolsCall _ | ToolsCallTask _ | ToolsCallInputRequired _
      | ResourcesReadInputRequired _ | PromptsGet _ | PromptsGetInputRequired _
      | SubscriptionsListen _ => None
      end
  end.

(** The notifications of a final server; only the URI is read. *)
Inductive ServerNotification : Type :=
| Cancelled
| Progress
| Message
| ResourceUpdated (uri : list Z)
| ResourcesListChanged
| ToolsListChanged
| PromptsListChanged
| SubscriptionsAcknowledged.

(** * Keys *)

Inductive FinalCacheResultSet : Type :=
| ServerDiscovery
| Tools
| Resources
| ResourceTemplates
| Prompts
| Resource (uri : list Z).

#[export] Instance FinalCacheResultSet_eq_dec : EqDecision FinalCacheResultSet.
Proof. solve_decision. Defined.

#[export] Instance FinalCacheResultSet_countable : Countable FinalCacheResultSet.
Proof.
  refine (inj_countable'
    (λ r, match r with
          | ServerDiscovery => inl 0 | Tools => inl 1 | Resources => inl 2
          | ResourceTemplates => inl 3 | Prompts => inl 4 | Resource uri => inr uri
          end)
    (λ c, match c with
          | inl 0 => ServerDiscovery | inl 1 => Tools | inl 2 => Resources
          | inl 3 => ResourceTemplates | inl _ => Prompts | inr uri => Resource uri
          end) _).
  by intros [].
Defined.

Record FinalCacheKey : Type := {
  endpoint_configuration : list Z;
  protocol_version : list Z;
  normalized_capabilities : list Z;
  extension_settings : list Z;
  key_method : list Z;
  semantic_projection : list Z;
  cursor : option (list Z);
  policy_revision : Z;
  extension_revision : Z;
  representation_policy_revision : Z;
  limits_policy_revision : Z;
  partition : list Z;
  result_set : FinalCacheResultSet;
}.

#[export] Instance FinalCacheKey_eq_dec : EqDecision FinalCacheKey.
Proof. solve_decision. Defined.

#[export] Instance FinalCacheKey_countable : Countable FinalCacheKey.
Proof.
  refine (inj_countable'
    (λ k, (endpoint_configuration k, protocol_version k, normalized_capabilities k, extension_settings k,
           key_method k, semantic_projection k, cursor k, policy_revision k, extension_revision k,
           representation_policy_revision k, limits_policy_revision k, partition k, result_set k))
    (λ '(a, b, c, d, e, f, g, h, i, j, k, l, m), Build_FinalCacheKey a b c d e f g h i j k l m) _).
  by intros [].
Defined.

Definition key_estimated_bytes (k : FinalCacheKey) : Z :=
  let result_set_bytes := match result_set k with
                          | Resource uri => saturating_add 1 (str_len uri)
                          | _ => 1
                          end in
  foldl saturating_add (str_len (endpoint_configuration k))
    [str_len (protocol_version k); str_len (normalized_capabilities k); str_len (extension_settings k);
     str_len (key_method k); str_len (semantic_projection k);
     match cursor k with Some c => str_len c | None => 0 end;
     str_len (partition k); result_set_bytes; 8 * 4].

(** * Generations *)

Inductive FinalCacheGenerationSet : Type :=
| GServerDiscovery
| GTools
| GResources
| GResourceTemplates
| GPrompts
| GResource.

#[export] Instance FinalCacheGenerationSet_eq_dec : EqDecision FinalCacheGenerationSet.
Proof. solve_decision. Defined.

#[export] Instance FinalCacheGenerationSet_countable : Countable FinalCacheGenerationSet.
Proof.
  refine (inj_countable'
    (λ g, match g with
          | GServerDiscovery => 0 | GTools => 1 | GResources => 2
          | GResourceTemplates => 3 | GPrompts => 4 | GResource => 5
          end)
    (λ n, match n with
          | 0 => GServerDiscovery | 1 => GTools | 2 => GResources
          | 3 => GResourceTemplates | 4 => GPrompts | _ => GResource
          end) _).
  by intros [].
Defined.

Definition generation_set (r : FinalCacheResultSet) : FinalCacheGenerationSet :=
  match r with
  | ServerDiscovery => GServerDiscovery
  | Tools => GTools
  | Resources => GResources
  | ResourceTemplates => GResourceTemplates
  | Prompts => GPrompts
  | Resource _ => GResource
  end.

Record FinalCacheGeneration : Type := {
  gen_epoch : Z;
  gen_revision : Z;
  gen_set : FinalCacheGenerationSet;
}.

#[export] Instance FinalCacheGeneration_eq_dec : EqDecision FinalCacheGeneration.
Proof. solve_decision. Defined.

Inductive FinalCacheMiss : Type := Disabled | Absent | Stale | Invalidated.

Inductive FinalCacheInsert : Type :=
| Stored
| NotCacheable
| ImmediatelyStale
| InvalidatedDuringFetch
| ExpiryOutOfRange
| Oversized.

(** * The cache *)

Record FinalCacheStats : Type := {
  hits : Z;
  misses : Z;
  stale : Z;
  fills : Z;
  invalidations : Z;
  evictions : Z;
}.

Definition FinalCacheStats_default : FinalCacheStats :=
  {| hits := 0; misses := 0; stale := 0; fills := 0; invalidations := 0; evictions := 0 |}.

(** [saturating_add] on [u64] *)
Definition bump (n : Z) : Z := Z.min (n + 1) u64_max.

Definition add_hit (s : FinalCacheStats) : FinalCacheStats :=
  {| hits := bump (hits s); misses := misses s; stale := stale s; fills := fills s;
     invalidations := invalidations s; evictions := evictions s |}.
Definition add_miss (is_stale : bool) (s : FinalCacheStats) : FinalCacheStats :=
  {| hits := hits s; misses := bump (misses s); stale := if is_stale then bump (stale s) else stale s;
     fills := fills s; invalidations := invalidations s; evictions := evictions s |}.
Definition add_fill (s : FinalCacheStats) : FinalCacheStats :=
  {| hits := hits s; misses := misses s; stale := stale s; fills := bump (fills s);
     invalidations := invalidations s; evictions := evictions s |}.
Definition add_invalidation (s : FinalCacheStats) : FinalCacheStats :=
  {| hits := hits s; misses := misses s; stale := stale s; fills := fills s;
     invalidations := bump (invalidations s); evictions := evictions s |}.
Definition add_eviction (s : FinalCacheStats) : FinalCacheStats :=
  {| hits := hits s; misses := misses s; stale := stale s; fills := fills s;
     invalidations := invalidations s; evictions := bump (evictions s) |}.

Definition DEFAULT_FINAL_CACHE_CAPACITY : Z := 128.
Definition MAX_FINAL_CACHE_CAPACITY : Z := 10000.
Definition DEFAULT_FINAL_CACHE_MAX_BYTES : Z := 128 * 1024 * 1024.
Definition MAX_FINAL_CACHE_MAX_BYTES : Z := 128 * 1024 * 1024.

Record FinalCacheEntry (P : Type) : Type := {
  entry_result : CoreResult P;
  entry_scope : CacheScope;
  entry_generation : FinalCacheGeneration;
  receipt : Z;
  expires_at : Z;
  encoded_bytes : Z;
}.
Arguments entry_result {P}.
Arguments entry_scope {P}.
Arguments entry_generation {P}.
Arguments receipt {P}.
Arguments expires_at {P}.
Arguments encoded_bytes {P}.

Record FinalResultCache (P : Type) : Type := {
  enabled : bool;
  cache_capacity : Z;
  max_bytes : Z;
  retained_bytes : Z;
  cached : gmap FinalCacheKey (FinalCacheEntry P);
  generations : gmap FinalCacheGenerationSet Z;
  epoch : Z;
  epoch_exhausted : bool;
  stats : FinalCacheStats;
}.
Arguments enabled {P}.
Arguments cache_capacity {P}.
Arguments max_bytes {P}.
Arguments retained_bytes {P}.
Arguments cached {P}.
Arguments generations {P}.
Arguments epoch {P}.
Arguments epoch_exhausted {P}.
Arguments stats {P}.

Record FinalCachePage (P : Type) : Type := {
  page_result : CoreResult P;
  page_generation : FinalCacheGeneration;
  page_scope : CacheScope;
}.
Arguments page_result {P}.
Arguments page_generation {P}.
Arguments page_scope {P}.

Inductive FinalCacheLookup (T : Type) : Type :=
| Fresh (page : T)
| Miss (miss : FinalCacheMiss).
Arguments Fresh {T}.
Arguments Miss {T}.

Section cache.
(** Instants are nanoseconds; [instant_max] is the last the platform has.  The
    encoder of results gives the length of the encoding, or fails. *)
Context {P : Type} (instant_max : Z) (encode : CoreResult P → option (list Z)).
Context {order : MapOrder FinalCacheKey (FinalCacheEntry P)}.
Abbreviation Cache := (FinalResultCache P).

Definition with_limits (capacity max_bytes : Z) : Cache :=
  {| enabled := true; cache_capacity := Z.min (Z.max capacity 1) MAX_FINAL_CACHE_CAPACITY;
     max_bytes := Z.min (Z.max max_bytes 1) MAX_FINAL_CACHE_MAX_BYTES; retained_bytes := 0;
     cached := ∅; generations := ∅; epoch := 0; epoch_exhausted := false; stats := FinalCacheStats_default |}.

Definition FinalResultCache_new (capacity : Z) : Cache := with_limits capacity DEFAULT_FINAL_CACHE_MAX_BYTES.

Definition set_stats (f : FinalCacheStats → FinalCacheStats) (c : Cache) : Cache :=
  {| enabled := enabled c; cache_capacity := cache_capacity c; max_bytes := max_bytes c;
     retained_bytes := retained_bytes c; cached := cached c; generations := generations c;
     epoch := epoch c; epoch_exhausted := epoch_exhausted c; stats := f (stats c) |}.

Definition set_entries (m : gmap FinalCacheKey (FinalCacheEntry P)) (bytes : Z) (c : Cache) : Cache :=
  {| enabled := enabled c; cache_capacity := cache_capacity c; max_bytes := max_bytes c;
     retained_bytes := bytes; cached := m; generations := generations c;
     epoch := epoch c; epoch_exhausted := epoch_exhausted c; stats := stats c |}.

Definition set_generations (g : gmap FinalCacheGenerationSet Z) (c : Cache) : Cache :=
  {| enabled := enabled c; cache_capacity := cache_capacity c; max_bytes := max_bytes c;
     retained_bytes := retained_bytes c; cached := cached c; generations := g;
     epoch := epoch c; epoch_exhausted := epoch_exhausted c; stats := stats c |}.

Definition cache_clear (c : Cache) : Cache :=
  let c := set_entries ∅ 0 c in
  if epoch c + 1 <=? u64_max then
    {| enabled := enabled c; cache_capacity := cache_capacity c; max_bytes := max_bytes c;
       retained_bytes := retained_bytes c; cached := cached c; generations := generations c;
       epoch := epoch c + 1; epoch_exhausted := epoch_exhausted c; stats := stats c |}
  else
    {| enabled := false; cache_capacity := cache_capacity c; max_bytes := max_bytes c;
       retained_bytes := retained_bytes c; cached := cached c; generations := generations c;
       epoch := epoch c; epoch_exhausted := true; stats := stats c |}.

Definition set_enabled (b : bool) (c : Cache) : Cache :=
  let c := if bool_decide (enabled c = b) then c else cache_clear c in
  {| enabled := b && negb (epoch_exhausted c); cache_capacity := cache_capacity c; max_bytes := max_bytes c;
     retained_bytes := retained_bytes c; cached := cached c; generations := generations c;
     epoch := epoch c; epoch_exhausted := epoch_exhausted c; stats := stats c |}.

(** [generation]: the revision of a result set *)
Definition revision_of (c : Cache) (r : FinalCacheResultSet) : Z :=
  default 0 (generations c !! generation_set r).

Definition begin_fetch (c : Cache) (r : FinalCacheResultSet) : FinalCacheGeneration :=
  {| gen_epoch := epoch c; gen_revision := revision_of c r; gen_set := generation_set r |}.

(** [self.entries.remove(key)], with the bytes it gives back *)
Definition remove_entry (key : FinalCacheKey) (c : Cache) : Cache :=
  match cached c !! key with
  | Some e => set_entries (delete key (cached c)) (saturating_sub (retained_bytes c) (encoded_bytes e)) c
  | None => c
  end.

Definition lookup_page_at (key : FinalCacheKey) (now : Z) (c : Cache)
    : FinalCacheLookup (FinalCachePage P) * Cache :=
  if negb (enabled c) then (Miss Disabled, set_stats (add_miss false) c)
  else match cached c !! key with
  | None => (Miss Absent, set_stats (add_miss false) c)
  | Some e =>
      let miss :=
        if bool_decide (entry_generation e = begin_fetch c (result_set key)) then
          if expires_at e <=? now then Some Stale else None
        else Some Invalidated in
      match miss with
      | Some m => (Miss m, set_stats (add_miss match m with Stale => true | _ => false end) (remove_entry key c))
      | None =>
          (Fresh {| page_result := entry_result e; page_generation := entry_generation e;
                    page_scope := entry_scope e |}, set_stats add_hit c)
      end
  end.

Definition lookup_at (key : FinalCacheKey) (now : Z) (c : Cache) : FinalCacheLookup (CoreResult P) * Cache :=
  match lookup_page_at key now c with
  | (Fresh page, c) => (Fresh (page_result page), c)
  | (Miss m, c) => (Miss m, c)
  end.

(** [Iterator::min_by_key]: the first of the entries with the least receipt *)
Fixpoint min_by_receipt (l : list (FinalCacheKey * FinalCacheEntry P)) : option (FinalCacheKey * FinalCacheEntry P) :=
  match l with
  | [] => None
  | x :: l =>
      match min_by_receipt l with
      | Some y => if receipt x.2 <=? receipt y.2 then Some x else Some y
      | None => Some x
      end
  end.

Definition evict_oldest (c : Cache) : bool * Cache :=
  match min_by_receipt (map_order (cached c)) with
  | None => (false, c)
  | Some (oldest, _) => (true, set_stats add_eviction (remove_entry oldest c))
  end.

(** The [while] loop of [insert_if_current_at]: whether there is room. *)
Fixpoint make_room (fuel : nat) (bytes : Z) : M Cache Empty_set bool := λ c,
  if (cache_capacity c <=? Z.of_nat (size (cached c))) || (saturating_sub (max_bytes c) bytes <? retained_bytes c) then
    match fuel with
    | O => (OutOfFuel, c)
    | S fuel =>
        match evict_oldest c with
        | (false, c) => (Ok false, c)
        | (true, c) => make_room fuel bytes c
        end
    end
  else (Ok true, c).

(** [Instant::checked_add] of milliseconds *)
Definition checked_expiry (t ms : Z) : option Z :=
  if t + ms * 1000000 <=? instant_max then Some (t + ms * 1000000) else None.

(** Everything after the checks on the result. *)
Definition store_entry (key : FinalCacheKey) (e : FinalCacheEntry P) : M Cache Empty_set FinalCacheInsert :=
  modify (remove_entry key) ;!
  let! c := get in
  let! room := make_room (S (size (cached c))) (encoded_bytes e) in
  if room : bool then
    modify (λ c, set_stats add_fill
      (set_entries (<[key := e]> (cached c)) (saturating_add (retained_bytes c) (encoded_bytes e)) c)) ;!
    ret Stored
  else ret Oversized.

Definition insert_if_current_at (key : FinalCacheKey) (captured : FinalCacheGeneration)
    (result : CoreResult P) (received : Z) : M Cache Empty_set FinalCacheInsert :=
  let! c := get in
  if negb (enabled c) || negb (bool_decide (captured = begin_fetch c (result_set key)))
  then ret InvalidatedDuringFetch
  else match final_cache_hints result with
  | None => ret NotCacheable
  | Some (ttl, scope) =>
      match try_as_millis ttl with
      | Ok ttl_ms =>
          if ttl_ms =? 0 then ret ImmediatelyStale
          else match checked_expiry received ttl_ms with
          | None => ret ExpiryOutOfRange
          | Some expires =>
              match encode result with
              | None => ret Oversized
              | Some encoded =>
                  let bytes := saturating_add (key_estimated_bytes key) (zlen encoded) in
                  if max_bytes c <? bytes then ret Oversized
                  else store_entry key
                    {| entry_result := result; entry_scope := scope; entry_generation := captured;
                       receipt := received; expires_at := expires; encoded_bytes := bytes |}
              end
          end
      | _ => ret ExpiryOutOfRange
      end
  end.

Definition entry_total (m : gmap FinalCacheKey (FinalCacheEntry P)) : Z :=
  foldl (λ total e, saturating_add total (encoded_bytes e)) 0 (snd <$> map_order m).

Definition recount_retained_bytes (c : Cache) : Cache := set_entries (cached c) (entry_total (cached c)) c.

Definition retains (r : FinalCacheResultSet) (key : FinalCacheKey) : bool :=
  match r with
  | Resource _ => match result_set key with Resource _ => false | _ => true end
  | _ => negb (bool_decide (result_set key = r))
  end.

Definition invalidate_result_set (r : FinalCacheResultSet) (c : Cache) : Cache :=
  let current := revision_of c r in
  if current + 1 <=? u64_max then
    let c := set_generations (<[generation_set r := current + 1]> (generations c)) c in
    let c := set_entries (filter (λ kv, retains r kv.1 = true) (cached c)) (retained_bytes c) c in
    set_stats add_invalidation (recount_retained_bytes c)
  else
    set_stats add_invalidation (set_generations ∅ (cache_clear c)).

Definition invalidate_notification (n : ServerNotification) (c : Cache) : Cache :=
  match n with
  | ToolsListChanged => invalidate_result_set Tools c
  | ResourcesListChanged =>
      invalidate_result_set (Resource []) (invalidate_result_set ResourceTemplates (invalidate_result_set Resources c))
  | PromptsListChanged => invalidate_result_set Prompts c
  | ResourceUpdated uri => invalidate_result_set (Resource uri) c
  | Cancelled | Progress | Message | SubscriptionsAcknowledged => c
  end.
End cache.
