(* ===== verification/ClientCacheTheorems.v ===== *)
(** The client cache: accounting of bytes, eviction, and the invariant.

    The client cache as a whole: its invariant, insertion and lookup, and the
    fencing of fetches that an invalidation overtook. *)
From stdpp Require Import base list gmap strings.
From Stdlib Require Import ZArith Lia.
From S2P Require Import Prelude Utf8 RequestId SseParser ClientCache.
Section cache.
Context {P : Type} (instant_max : Z) (encode : CoreResult P → option (list Z)).
Context {order : MapOrder FinalCacheKey (FinalCacheEntry P)}.
Abbreviation Cache := (FinalResultCache P).
Abbreviation Entries := (gmap FinalCacheKey (FinalCacheEntry P)).
Implicit Types (c : Cache) (m : Entries) (k key : FinalCacheKey) (e : FinalCacheEntry P).

(** * Bytes *)

Definition bytes_of (m : Entries) : Z := sum ((λ kv, encoded_bytes kv.2) <$> map_to_list m).

Definition sizes_ok (m : Entries) : Prop := ∀ k e, m !! k = Some e → 0 <= encoded_bytes e.

Lemma bytes_of_empty : bytes_of ∅ = 0.
Proof. unfold bytes_of. by rewrite map_to_list_empty. Qed.

Lemma bytes_of_insert m k e : m !! k = None → bytes_of (<[k := e]> m) = encoded_bytes e + bytes_of m.
Proof. intros Hk. unfold bytes_of. by rewrite (sum_perm _ _ (fmap_Permutation _ _ _ (map_to_list_insert m k e Hk))). Qed.

Lemma bytes_of_delete m k e : m !! k = Some e → bytes_of m = encoded_bytes e + bytes_of (delete k m).
Proof.
  intros Hk. rewrite <- (insert_delete_id m k e Hk) at 1. apply bytes_of_insert. apply lookup_delete_eq.
Qed.

Lemma bytes_of_nonneg m : sizes_ok m → 0 <= bytes_of m.
Proof.
  intros Hm. apply sum_nonneg, Forall_fmap, Forall_forall. intros [k e] Hin.
  apply elem_of_map_to_list in Hin. simpl. by eapply Hm.
Qed.

Lemma sizes_ok_delete m k : sizes_ok m → sizes_ok (delete k m).
Proof. intros Hm k' e' [_ He]%lookup_delete_Some. by eapply Hm. Qed.

Lemma sizes_ok_subseteq m m' : m' ⊆ m → sizes_ok m → sizes_ok m'.
Proof. intros Hs Hm k e He. eapply Hm, lookup_weaken; eauto. Qed.

(** The saturating fold is exact below the limit. *)
Lemma saturating_fold l acc :
  Forall (λ x, 0 <= x) l → 0 <= acc → acc + sum l <= usize_max →
  foldl saturating_add acc l = acc + sum l.
Proof.
  intros Hl. revert acc. induction Hl as [|x l Hx Hl IH]; intros acc Hacc Hle; [cbn; lia|].
  rewrite sum_cons in *. pose proof (sum_nonneg l Hl). cbn [foldl].
  unfold saturating_add at 2. rewrite Z.min_l by lia. rewrite IH by lia. lia.
Qed.

Lemma foldl_fmap_acc {A} (f : A → Z) l acc :
  foldl (λ t x, saturating_add t (f x)) acc l = foldl saturating_add acc (f <$> l).
Proof. revert acc. induction l as [|x l IH]; intros acc; [done|]. cbn. by rewrite IH. Qed.

Lemma entry_total_exact m : sizes_ok m → bytes_of m <= usize_max → entry_total m = bytes_of m.
Proof.
  intros Hm Hle. unfold entry_total. rewrite foldl_fmap_acc.
  assert (Hp : (encoded_bytes <$> (snd <$> map_order m)) ≡ₚ ((λ kv, encoded_bytes kv.2) <$> map_to_list m)).
  { rewrite <- list_fmap_compose. by rewrite map_order_perm. }
  assert (Hnn : Forall (λ x, 0 <= x) (encoded_bytes <$> (snd <$> map_order m))).
  { rewrite Hp. apply Forall_fmap, Forall_forall. intros [k e] Hin. apply elem_of_map_to_list in Hin. simpl. by eapply Hm. }
  pose proof (sum_perm _ _ Hp) as Hs. fold (bytes_of m) in Hs. rewrite saturating_fold; [lia|done|lia|lia].
Qed.

(** * The invariant *)

Record cache_ok (c : Cache) : Prop := {
  ok_capacity : 1 <= cache_capacity c <= MAX_FINAL_CACHE_CAPACITY;
  ok_max : 1 <= max_bytes c <= MAX_FINAL_CACHE_MAX_BYTES;
  ok_size : Z.of_nat (size (cached c)) <= cache_capacity c;
  ok_sizes : sizes_ok (cached c);
  ok_bytes : retained_bytes c = bytes_of (cached c) ∧ bytes_of (cached c) <= max_bytes c;
  ok_current k e : cached c !! k = Some e → entry_generation e = begin_fetch c (result_set k);
  ok_epoch : 0 <= epoch c <= u64_max;
  ok_revisions g v : generations c !! g = Some v → 0 <= v <= u64_max;
  ok_exhausted : epoch_exhausted c = true → enabled c = false;
}.

Lemma cache_ok_new capacity max : cache_ok (with_limits capacity max).
Proof.
  split; cbn [with_limits cache_capacity max_bytes retained_bytes cached generations epoch epoch_exhausted enabled];
    unfold MAX_FINAL_CACHE_CAPACITY, MAX_FINAL_CACHE_MAX_BYTES; try done; try lia.
  - rewrite map_size_empty. lia.
  - rewrite bytes_of_empty. lia.
Qed.

Lemma cache_ok_stats f c : cache_ok c → cache_ok (set_stats f c).
Proof. by intros []. Qed.

Lemma bytes_of_mono m m' : m ⊆ m' → sizes_ok m' → bytes_of m <= bytes_of m'.
Proof.
  revert m. induction m' as [|k e m' Hk IH] using map_ind; intros m Hs Hm.
  { apply map_subseteq_size in Hs as Hz. rewrite map_size_empty in Hz.
    assert (m = ∅) as -> by (apply map_size_empty_inv; lia). done. }
  assert (Hm' : sizes_ok m').
  { intros k' e' He'. eapply (Hm k'). rewrite lookup_insert_ne; [done|]. intros ->. by rewrite Hk in He'. }
  assert (He : 0 <= encoded_bytes e) by (eapply (Hm k), lookup_insert_eq).
  rewrite bytes_of_insert by done. destruct (m !! k) as [e0|] eqn:Hmk.
  - rewrite (bytes_of_delete m k e0 Hmk).
    assert (e0 = e) as -> by (eapply lookup_weaken in Hmk; [|exact Hs]; rewrite lookup_insert_eq in Hmk; by injection Hmk).
    assert (bytes_of (delete k m) <= bytes_of m'); [|lia]. apply IH; [|done].
    apply map_subseteq_spec. intros k' e' [Hne He']%lookup_delete_Some.
    eapply lookup_weaken in He'; [|exact Hs]. by rewrite lookup_insert_ne in He'.
  - assert (bytes_of m <= bytes_of m'); [|lia]. apply IH; [|done].
    apply map_subseteq_spec. intros k' e' He'. pose proof (lookup_weaken _ _ _ _ He' Hs) as He2.
    destruct (decide (k' = k)) as [->|Hne]; [by rewrite Hmk in He'|]. by rewrite lookup_insert_ne in He2.
Qed.

(** Fewer entries. *)
Lemma cache_ok_subset m c :
  cache_ok c → m ⊆ cached c → cache_ok (set_entries m (bytes_of m) c).
Proof.
  intros [H1 H2 H3 H4 [H5 H6] H7 H8 H9 H10] Hs. pose proof (bytes_of_mono _ _ Hs H4) as Hb.
  split; cbn [set_entries cache_capacity max_bytes retained_bytes cached generations epoch epoch_exhausted enabled]; try done.
  - apply map_subseteq_size in Hs. lia.
  - by eapply sizes_ok_subseteq.
  - lia.
  - intros k e He. apply H7. by eapply lookup_weaken.
Qed.

Lemma remove_entry_eq k c :
  cache_ok c → remove_entry k c = set_entries (delete k (cached c)) (bytes_of (delete k (cached c))) c.
Proof.
  intros [H1 H2 H3 H4 [H5 H6] H7 H8 H9 H10]. unfold remove_entry. destruct (cached c !! k) as [e|] eqn:He.
  - pose proof (bytes_of_delete _ _ _ He) as Hd. pose proof (bytes_of_nonneg _ (sizes_ok_delete _ k H4)).
    unfold saturating_sub. rewrite Z.max_l by lia. f_equal. lia.
  - rewrite delete_id by done. rewrite <- H5. by destruct c.
Qed.

Lemma remove_entry_ok k c : cache_ok c → cache_ok (remove_entry k c).
Proof. intros Hc. rewrite remove_entry_eq by done. apply cache_ok_subset; [done|]. apply delete_subseteq. Qed.

Lemma remove_entry_cached k c : cached (remove_entry k c) = delete k (cached c).
Proof. unfold remove_entry. destruct (cached c !! k) eqn:He; [done|]. by rewrite delete_id. Qed.

(** * Eviction *)

Lemma min_by_receipt_spec (l : list (FinalCacheKey * FinalCacheEntry P)) x :
  min_by_receipt l = Some x → x ∈ l ∧ ∀ y, y ∈ l → receipt x.2 <= receipt y.2.
Proof.
  revert x. induction l as [|y l IH]; intros x; [done|]. cbn [min_by_receipt].
  destruct (min_by_receipt l) as [z|] eqn:Hm.
  - destruct (IH z eq_refl) as [Hz Hle]. destruct (Z.leb_spec (receipt y.2) (receipt z.2)); intros [= <-];
      (split; [set_solver|]); intros w [->|Hw]%elem_of_cons; try lia; specialize (Hle w Hw); lia.
  - intros [= <-]. destruct l as [|w l]; [|exfalso; cbn in Hm; repeat case_match; done].
    split; [set_solver|]. intros w [->|Hw]%elem_of_cons; [lia|set_solver].
Qed.

Lemma min_by_receipt_None (l : list (FinalCacheKey * FinalCacheEntry P)) : min_by_receipt l = None → l = [].
Proof. destruct l; [done|]. cbn. repeat case_match; done. Qed.

(** [c'] is [c] after evictions: entries are gone, the oldest ones, and the rest
    of the state is the same but for the statistics. *)
Record evicted (c c' : Cache) : Prop := {
  ev_subset : cached c' ⊆ cached c;
  ev_oldest k e k' e' : cached c !! k = Some e → cached c' !! k = None → cached c' !! k' = Some e' →
    receipt e <= receipt e';
  ev_same : cache_capacity c' = cache_capacity c ∧ max_bytes c' = max_bytes c ∧ generations c' = generations c ∧
    epoch c' = epoch c ∧ epoch_exhausted c' = epoch_exhausted c ∧ enabled c' = enabled c;
}.

Lemma evicted_refl c : evicted c c.
Proof. split; [done|congruence|done]. Qed.

Lemma evict_oldest_spec c :
  cache_ok c → cached c ≠ ∅ →
  ∃ c', evict_oldest c = (true, c') ∧ cache_ok c' ∧ (size (cached c') < size (cached c))%nat ∧
    ∃ k e, cached c !! k = Some e ∧ cached c' = delete k (cached c) ∧
      (∀ k' e', cached c !! k' = Some e' → receipt e <= receipt e') ∧ evicted c c'.
Proof.
  intros Hc Hne. unfold evict_oldest. destruct (min_by_receipt (map_order (cached c))) as [[k e]|] eqn:Hm; cycle 1.
  { apply min_by_receipt_None in Hm. exfalso. apply Hne. apply map_empty. intros k.
    destruct (cached c !! k) as [e|] eqn:He; [|done]. apply elem_of_map_order in He. rewrite Hm in He. set_solver. }
  apply min_by_receipt_spec in Hm as [Hin Hmin]. rewrite elem_of_map_order in Hin.
  assert (Hmin' : ∀ k' e', cached c !! k' = Some e' → receipt e <= receipt e').
  { intros k' e' He'. apply (Hmin (k', e')). by rewrite elem_of_map_order. }
  assert (Hcd : cached (set_stats add_eviction (remove_entry k c)) = delete k (cached c)) by apply remove_entry_cached.
  eexists. split; [done|]. split; [by apply cache_ok_stats, remove_entry_ok|]. rewrite Hcd. split.
  { rewrite map_size_delete, Hin. assert (size (cached c) ≠ 0%nat) by (by apply map_size_ne_0_lookup; exists k; exists e). lia. }
  exists k, e. split_and!; try done. split; rewrite ?Hcd.
  - apply delete_subseteq.
  - intros k1 e1 k2 e2 H1 [H2|H2]%lookup_delete_None [Hne2 H3]%lookup_delete_Some; [|congruence].
    subst k1. rewrite Hin in H1. injection H1 as <-. by eapply Hmin'.
  - unfold remove_entry. by destruct (cached c !! k).
Qed.

Definition fits_one (bytes : Z) (c : Cache) : Prop :=
  Z.of_nat (size (cached c)) < cache_capacity c ∧ retained_bytes c + bytes <= max_bytes c.

(** The loop ends with room, in at most as many rounds as there are entries. *)
Lemma make_room_spec fuel bytes c :
  cache_ok c → 0 <= bytes <= max_bytes c → (size (cached c) < fuel)%nat →
  ∃ c', make_room fuel bytes c = (Ok true, c') ∧ cache_ok c' ∧ evicted c c' ∧ fits_one bytes c' ∧
    (fits_one bytes c → c' = c).
Proof.
  intros Hc Hb. revert c Hc Hb. induction fuel as [|fuel IH]; intros c Hc Hb Hf; [lia|]. cbn [make_room].
  pose proof Hc as [H1 H2 H3 H4 [H5 H6] H7 H8 H9 H10].
  assert (Hdec : (cache_capacity c <=? Z.of_nat (size (cached c))) || (saturating_sub (max_bytes c) bytes <? retained_bytes c) = false
    ↔ fits_one bytes c).
  { unfold fits_one, saturating_sub. rewrite orb_false_iff, Z.leb_gt, Z.ltb_ge, Z.max_l by lia. lia. }
  destruct (_ || _) eqn:Hfull; cycle 1.
  { exists c. split_and!; try done; [apply evicted_refl|by apply Hdec]. }
  assert (Hno : ¬ fits_one bytes c) by (intros H; apply Hdec in H; discriminate).
  assert (Hne : cached c ≠ ∅).
  { intros He. apply Hno. unfold fits_one. rewrite H5, He, map_size_empty, bytes_of_empty. lia. }
  destruct (evict_oldest_spec c Hc Hne) as (c1 & Hev & Hc1 & Hlt & k & e & Hke & Hcd & Hmin & Hev1).
  rewrite Hev. pose proof Hev1 as [Hsub1 Hold1 (Hs1 & Hs2 & Hs3 & Hs4 & Hs5 & Hs6)].
  destruct (IH c1 Hc1) as (c' & Hrun & Hc' & [Hsub Hold Hs] & Hfit & _); [by rewrite Hs2|lia|].
  exists c'. split_and!; try done. split.
  - by transitivity (cached c1).
  - intros k1 e1 k2 e2 Hk1 Hn Hk2. destruct (decide (k1 = k)) as [->|Hne1].
    + rewrite Hke in Hk1. injection Hk1 as <-. apply (Hmin k2). by eapply lookup_weaken, Hsub1; eapply lookup_weaken.
    + apply (Hold k1 e1 k2 e2); [by rewrite Hcd, lookup_delete_ne|done|done].
  - destruct Hs as (? & ? & ? & ? & ? & ?). split_and!; congruence.
Qed.
End cache.

Section cache.
Context {P : Type} (instant_max : Z) (encode : CoreResult P → option (list Z)).
Context {order : MapOrder FinalCacheKey (FinalCacheEntry P)}.
Abbreviation Cache := (FinalResultCache P).
Implicit Types (c : Cache) (k key : FinalCacheKey) (r : FinalCacheResultSet).

(** * Insertion *)

Lemma saturating_fold_nonneg l acc : Forall (λ x, 0 <= x) l → 0 <= acc → 0 <= foldl saturating_add acc l.
Proof.
  intros Hl. revert acc. induction Hl as [|x l Hx Hl IH]; intros acc Ha; [done|]. cbn [foldl]. apply IH.
  unfold saturating_add, usize_max. lia.
Qed.

Lemma key_bytes_nonneg key : 0 <= key_estimated_bytes key.
Proof.
  assert (Hs : ∀ s, 0 <= str_len s) by (intros; apply zlen_nonneg).
  unfold key_estimated_bytes. apply saturating_fold_nonneg; [|apply Hs].
  repeat constructor; try apply Hs; [by destruct (cursor key)| |done].
  destruct (result_set key); try done. unfold saturating_add, usize_max. specialize (Hs uri). lia.
Qed.

(** What [insert_if_current_at] answers. *)
Definition insert_answer c key (captured : FinalCacheGeneration) (result : CoreResult P) (t : Z) : FinalCacheInsert :=
  if negb (enabled c) || negb (bool_decide (captured = begin_fetch c (result_set key))) then InvalidatedDuringFetch
  else match final_cache_hints result with
  | None => NotCacheable
  | Some (ttl, _) =>
      match try_as_millis ttl with
      | Ok 0 => ImmediatelyStale
      | Ok ms =>
          match checked_expiry instant_max t ms, encode result with
          | None, _ => ExpiryOutOfRange
          | Some _, None => Oversized
          | Some _, Some bs =>
              if max_bytes c <? saturating_add (key_estimated_bytes key) (zlen bs) then Oversized else Stored
          end
      | _ => ExpiryOutOfRange
      end
  end.

Lemma store_entry_spec key (e : FinalCacheEntry P) c :
  cache_ok c → entry_generation e = begin_fetch c (result_set key) → 0 <= encoded_bytes e <= max_bytes c →
  ∃ c1 c', store_entry key e c = (Ok Stored, c') ∧ cache_ok c' ∧ evicted (remove_entry key c) c1 ∧
    cached c' = <[key := e]> (cached c1) ∧
    begin_fetch c' = begin_fetch c ∧ enabled c' = enabled c ∧ epoch_exhausted c' = epoch_exhausted c ∧
    (fits_one (encoded_bytes e) (remove_entry key c) → c1 = remove_entry key c).
Proof.
  intros Hc Hgen He. pose proof (remove_entry_ok key c Hc) as Hc0. set (c0 := remove_entry key c) in *.
  assert (Hsame0 : max_bytes c0 = max_bytes c ∧ begin_fetch c0 = begin_fetch c ∧ enabled c0 = enabled c ∧
    epoch_exhausted c0 = epoch_exhausted c) by (unfold c0, remove_entry; by destruct (cached c !! key)).
  destruct Hsame0 as (Hm0 & Hb0 & He0 & Hx0).
  destruct (make_room_spec (S (size (cached c0))) (encoded_bytes e) c0 Hc0) as (c1 & Hrun & Hc1 & Hev & Hfit & Hid);
    [by rewrite Hm0|lia|].
  pose proof Hev as [Hsub _ (Hs1 & Hs2 & Hs3 & Hs4 & Hs5 & Hs6)].
  pose proof Hc1 as [H1 H2 H3 H4 [H5 H6] H7 H8 H9 H10]. destruct Hfit as [Hf1 Hf2].
  assert (Hk1 : cached c1 !! key = None).
  { destruct (cached c1 !! key) as [e1|] eqn:Hk; [|done]. eapply lookup_weaken in Hk; [|exact Hsub].
    unfold c0 in Hk. by rewrite remove_entry_cached, lookup_delete_eq in Hk. }
  eexists c1, _. split.
  { unfold store_entry, bind at 1, modify. fold c0. unfold bind at 1, get. rewrite (bind_ok _ _ _ _ _ Hrun). reflexivity. }
  assert (Hbytes : saturating_add (retained_bytes c1) (encoded_bytes e) = bytes_of (<[key := e]> (cached c1))).
  { rewrite bytes_of_insert by done. unfold saturating_add. unfold MAX_FINAL_CACHE_MAX_BYTES, usize_max in *. lia. }
  rewrite Hbytes. set (m := <[key := e]> (cached c1)) in *.
  assert (Hbf : begin_fetch (set_stats add_fill (set_entries m (bytes_of m) c1)) = begin_fetch c).
  { rewrite <- Hb0. unfold begin_fetch, revision_of. simpl. by rewrite Hs3, Hs4. }
  split_and!; try done; [|simpl; congruence..]. apply cache_ok_stats. split; simpl; try done.
  - unfold m. rewrite map_size_insert, Hk1. lia.
  - intros k' e' Hk'. destruct (decide (k' = key)) as [->|Hne].
    + unfold m in Hk'. rewrite lookup_insert_eq in Hk'. injection Hk' as <-. lia.
    + unfold m in Hk'. rewrite lookup_insert_ne in Hk' by done. by eapply H4.
  - split; [done|]. unfold m. rewrite bytes_of_insert by done. lia.
  - intros k' e' Hk'. change (entry_generation e' = begin_fetch c1 (result_set k')).
    destruct (decide (k' = key)) as [->|Hne]; unfold m in Hk'.
    + rewrite lookup_insert_eq in Hk'. injection Hk' as <-. rewrite Hgen, <- Hb0.
      unfold begin_fetch, revision_of. by rewrite Hs3, Hs4.
    + rewrite lookup_insert_ne in Hk' by done. by apply H7.
Qed.

(** The entry a stored result becomes. *)
Definition is_entry key (captured : FinalCacheGeneration) (result : CoreResult P) (t : Z) (e : FinalCacheEntry P) : Prop :=
  entry_result e = result ∧ entry_generation e = captured ∧ receipt e = t ∧
  ∃ ttl ms, final_cache_hints result = Some (ttl, entry_scope e) ∧ try_as_millis ttl = Ok ms ∧ ms ≠ 0 ∧
    expires_at e = t + ms * 1000000.

Lemma insert_spec c key captured result t :
  cache_ok c →
  let a := insert_answer c key captured result t in
  ∃ c', insert_if_current_at instant_max encode key captured result t c = (Ok a, c') ∧ cache_ok c' ∧
    begin_fetch c' = begin_fetch c ∧ enabled c' = enabled c ∧ epoch_exhausted c' = epoch_exhausted c ∧
    (a ≠ Stored → c' = c) ∧
    (a = Stored → captured = begin_fetch c (result_set key) ∧ enabled c = true ∧
       ∃ e c1, is_entry key captured result t e ∧ evicted (remove_entry key c) c1 ∧ cached c' = <[key := e]> (cached c1) ∧
         (fits_one (encoded_bytes e) (remove_entry key c) → c1 = remove_entry key c)).
Proof.
  intros Hc a. unfold a, insert_answer, insert_if_current_at, bind at 1, get.
  assert (Hno : ∀ x, x ≠ Stored → ∃ c', ret x c = (@Ok Empty_set _ x, c') ∧ cache_ok c' ∧
    begin_fetch c' = begin_fetch c ∧ enabled c' = enabled c ∧ epoch_exhausted c' = epoch_exhausted c ∧
    (x ≠ Stored → c' = c) ∧
    (x = Stored → captured = begin_fetch c (result_set key) ∧ enabled c = true ∧
       ∃ e c1, is_entry key captured result t e ∧ evicted (remove_entry key c) c1 ∧ cached c' = <[key := e]> (cached c1) ∧
         (fits_one (encoded_bytes e) (remove_entry key c) → c1 = remove_entry key c))).
  { intros x Hx. exists c. by split_and!. }
  destruct (negb (enabled c) || negb (bool_decide (captured = begin_fetch c (result_set key)))) eqn:Hcur; [by apply Hno|].
  apply orb_false_iff in Hcur as [Hen Hcur]. apply negb_false_iff in Hen, Hcur. apply bool_decide_eq_true in Hcur.
  destruct (final_cache_hints result) as [[ttl scope]|] eqn:Hh; [|by apply Hno].
  destruct (try_as_millis ttl) as [ms| | |] eqn:Hms; [|by apply Hno..].
  destruct (Z.eqb_spec ms 0) as [->|Hms0]; [by apply Hno|].
  assert (Hz : ∀ A (x y : A), match ms with 0 => x | _ => y end = y) by (intros; by destruct ms).
  rewrite Hz. unfold checked_expiry. destruct (t + ms * 1000000 <=? instant_max); [|by apply Hno].
  destruct (encode result) as [bs|]; [|by apply Hno]. set (bytes := saturating_add _ _).
  destruct (Z.ltb_spec (max_bytes c) bytes); [by apply Hno|].
  set (e := {| entry_result := result; entry_scope := scope; entry_generation := captured; receipt := t;
               expires_at := t + ms * 1000000; encoded_bytes := bytes |}).
  assert (Hb0 : 0 <= bytes).
  { unfold bytes, saturating_add, usize_max. pose proof (key_bytes_nonneg key). pose proof (zlen_nonneg bs). lia. }
  destruct (store_entry_spec key e c Hc Hcur ltac:(simpl; lia))
    as (c1 & c' & Hrun & Hc' & Hev & Hcd & Hbf & Hen' & Hex & Hid).
  exists c'. split_and!; try done. intros _. split_and!; try done. exists e, c1. split_and!; try done.
  split_and!; try done. by exists ttl, ms.
Qed.

(** * Operations *)

Inductive cache_op : Type :=
| OpLookup (key : FinalCacheKey) (now : Z)
| OpInsert (key : FinalCacheKey) (captured : FinalCacheGeneration) (result : CoreResult P) (t : Z)
| OpInvalidate (r : FinalCacheResultSet)
| OpNotify (n : ServerNotification)
| OpClear
| OpEnable (b : bool).

Definition apply_op (c : Cache) (op : cache_op) : Cache :=
  match op with
  | OpLookup key now => (lookup_page_at key now c).2
  | OpInsert key captured result t => (insert_if_current_at instant_max encode key captured result t c).2
  | OpInvalidate r => invalidate_result_set r c
  | OpNotify n => invalidate_notification n c
  | OpClear => cache_clear c
  | OpEnable b => set_enabled b c
  end.

Definition run_ops (c : Cache) (ops : list cache_op) : Cache := foldl apply_op c ops.

(** ** Generations advance *)

(** Later: a higher epoch, or the same with no lower revision, or a cache that
    is closed for good. *)
Definition later c c' : Prop :=
  (epoch_exhausted c = true → epoch_exhausted c' = true) ∧
  (epoch_exhausted c' = true ∨ epoch c < epoch c' ∨
   epoch c = epoch c' ∧ ∀ r, revision_of c r <= revision_of c' r).

#[local] Instance later_preorder : PreOrder later.
Proof.
  split; [intros c; split; [done|]; right; right; done|].
  intros a b c [Ha Hab] [Hb Hbc]. split; [auto|]. destruct Hbc as [?|[?|[? Hr]]]; [by left|..].
  - destruct Hab as [?|[?|[? _]]]; [left; auto|right; left; lia..].
  - destruct Hab as [?|[?|[? Hr']]]; [left; auto|right; left; lia|right; right].
    split; [lia|]. intros r. etrans; [apply Hr'|apply Hr].
Qed.

(** Strictly later for one result set. *)
Definition advanced c c' r : Prop :=
  (epoch_exhausted c = true → epoch_exhausted c' = true) ∧
  (epoch_exhausted c' = true ∨ epoch c < epoch c' ∨ epoch c = epoch c' ∧ revision_of c r < revision_of c' r).

Lemma advanced_later c c1 c2 c' r : later c c1 → advanced c1 c2 r → later c2 c' → advanced c c' r.
Proof.
  intros [H1 H1'] [H2 H2'] [H3 H3']. split; [auto|].
  destruct H3' as [?|[?|[? Hr3]]]; [by left| |].
  - destruct H2' as [?|[?|[? _]]]; [left; auto|..]; (destruct H1' as [?|[?|[? _]]]; [left; auto|right; left; lia..]).
  - specialize (Hr3 r). destruct H2' as [?|[?|[? ?]]]; [left; auto|..];
      (destruct H1' as [?|[?|[? Hr1]]]; [left; auto|try (right; left; lia)..]).
    + right. right. specialize (Hr1 r). lia.
Qed.

Lemma same_later c c' :
  begin_fetch c' = begin_fetch c → epoch_exhausted c' = epoch_exhausted c → later c c'.
Proof.
  intros Hb He. split; [by rewrite He|]. right. right.
  pose proof (f_equal (λ f, gen_epoch (f Tools)) Hb) as Hep. simpl in Hep. split; [done|]. intros r.
  pose proof (f_equal (λ f, gen_revision (f r)) Hb) as Hr. simpl in Hr. lia.
Qed.

Lemma clear_spec c :
  cache_ok c → cache_ok (cache_clear c) ∧ ∀ g,
    (epoch_exhausted c = true → epoch_exhausted (set_generations g (cache_clear c)) = true) ∧
    (epoch_exhausted (set_generations g (cache_clear c)) = true ∨
     epoch c < epoch (set_generations g (cache_clear c))).
Proof.
  intros [H1 H2 H3 H4 [H5 H6] H7 H8 H9 H10]. pose proof (@bytes_of_empty P) as Hz. unfold cache_clear. simpl.
  destruct (Z.leb_spec (epoch c + 1) u64_max).
  - split; [|intros g; simpl; split; [done|right; lia]].
    split; cbn [cache_capacity max_bytes retained_bytes cached generations epoch epoch_exhausted enabled set_entries];
      try done; rewrite ?map_size_empty; lia.
  - split; [|intros g; simpl; split; [done|by left]].
    split; cbn [cache_capacity max_bytes retained_bytes cached generations epoch epoch_exhausted enabled set_entries];
      try done; rewrite ?map_size_empty; lia.
Qed.

Lemma revision_nonneg c r : cache_ok c → 0 <= revision_of c r <= u64_max.
Proof.
  intros Hc. unfold revision_of. destruct (generations c !! generation_set r) eqn:Hg; [|simpl; unfold u64_max; lia].
  by eapply (ok_revisions _ Hc).
Qed.

Lemma cached_clear c : cached (cache_clear c) = ∅.
Proof. unfold cache_clear. by case_goal_if. Qed.

Lemma retains_spec r k : retains r k = true ↔ generation_set (result_set k) ≠ generation_set r.
Proof.
  destruct r; cbn [retains]; rewrite ?negb_true_iff, ?bool_decide_eq_false; destruct (result_set k); naive_solver.
Qed.

(** Invalidation: the entries of the result set are gone, the others stay, and
    its generation has advanced. *)
Lemma invalidate_spec r c :
  cache_ok c →
  let c' := invalidate_result_set r c in
  cache_ok c' ∧ later c c' ∧ (∀ r', generation_set r' = generation_set r → advanced c c' r') ∧
  (∀ k e, cached c' !! k = Some e → cached c !! k = Some e ∧ generation_set (result_set k) ≠ generation_set r) ∧
  (revision_of c r < u64_max → ∀ k e, cached c !! k = Some e → generation_set (result_set k) ≠ generation_set r →
     cached c' !! k = Some e).
Proof.
  intros Hc c'. pose proof Hc as [H1 H2 H3 H4 [H5 H6] H7 H8 H9 H10]. pose proof (revision_nonneg c r Hc) as Hrev.
  unfold c', invalidate_result_set. destruct (Z.leb_spec (revision_of c r + 1) u64_max) as [Hle|Hgt]; cycle 1.
  { destruct (clear_spec c Hc) as [Hcl Hadv]. specialize (Hadv ∅). split_and!.
    - apply cache_ok_stats. clear -Hcl. destruct Hcl as [? ? ? ? ? Hcur ? ? ?]. split; try done.
      intros k e. change (cached _) with (cached (cache_clear c)). by rewrite cached_clear, lookup_empty.
    - destruct Hadv as [Hx [Hx'|Hx']]; (split; [done|]); [by left|right; by left].
    - intros r' _. destruct Hadv as [Hx [Hx'|Hx']]; (split; [done|]); [by left|right; by left].
    - intros k e. change (cached _) with (cached (cache_clear c)) at 1. by rewrite cached_clear, lookup_empty.
    - lia. }
  set (m := filter (λ kv : FinalCacheKey * FinalCacheEntry P, retains r kv.1 = true) (cached c)).
  assert (Hm : ∀ k e, m !! k = Some e ↔ cached c !! k = Some e ∧ generation_set (result_set k) ≠ generation_set r).
  { intros k e. unfold m. rewrite map_lookup_filter_Some, retains_spec. done. }
  assert (Hsub : m ⊆ cached c) by (apply map_subseteq_spec; intros k e He; by apply Hm in He as [He _]).
  assert (Hbytes : entry_total m = bytes_of m).
  { apply entry_total_exact; [by eapply sizes_ok_subseteq|]. pose proof (bytes_of_mono _ _ Hsub H4).
    unfold MAX_FINAL_CACHE_MAX_BYTES, usize_max in *. lia. }
  assert (Heq : recount_retained_bytes (set_entries m (retained_bytes c) (set_generations
      (<[generation_set r := revision_of c r + 1]> (generations c)) c)) =
    set_generations (<[generation_set r := revision_of c r + 1]> (generations c)) (set_entries m (bytes_of m) c)).
  { unfold recount_retained_bytes. cbn [cached set_entries]. rewrite Hbytes. reflexivity. }
  change (retained_bytes (set_generations _ c)) with (retained_bytes c).
  change (cached (set_generations _ c)) with (cached c). fold m. rewrite Heq.
  set (c2 := set_generations _ _).
  assert (Hrev2 : ∀ r', revision_of c2 r' = if decide (generation_set r' = generation_set r) then revision_of c r + 1 else revision_of c r').
  { intros r'. unfold revision_of, c2. simpl. destruct (decide (generation_set r' = generation_set r)) as [->|Hne];
      [by rewrite lookup_insert_eq|by rewrite lookup_insert_ne by done]. }
  split_and!.
  - apply cache_ok_stats. pose proof (cache_ok_subset m c Hc Hsub) as [G1 G2 G3 G4 G5 G6 G7 G8 G9]. split; try done.
    + intros k e He. apply Hm in He as [He Hne]. rewrite (H7 k e He). unfold begin_fetch. f_equal.
      by rewrite Hrev2, decide_False.
    + intros g v. unfold c2. simpl. destruct (decide (g = generation_set r)) as [->|Hne].
      * rewrite lookup_insert_eq. intros [= <-]. lia.
      * rewrite lookup_insert_ne by done. apply H9.
  - split; [done|]. right. right. split; [done|]. intros r'. change (revision_of c r' <= revision_of c2 r'). rewrite Hrev2.
    case_decide as Hd; [|lia]. unfold revision_of in *. rewrite Hd. lia.
  - intros r' Hr'. split; [done|]. right. right. split; [done|]. change (revision_of c r' < revision_of c2 r').
    rewrite Hrev2, decide_True by done. unfold revision_of in *. rewrite Hr'. lia.
  - intros k e. apply Hm.
  - intros _ k e He Hne. by apply Hm.
Qed.

Lemma lookup_spec key now c :
  cache_ok c →
  let '(a, c') := lookup_page_at key now c in
  cache_ok c' ∧ begin_fetch c' = begin_fetch c ∧ epoch_exhausted c' = epoch_exhausted c ∧
  a = (if enabled c then
         match cached c !! key with
         | None => Miss Absent
         | Some e => if expires_at e <=? now then Miss Stale
                     else Fresh {| page_result := entry_result e; page_generation := entry_generation e;
                                   page_scope := entry_scope e |}
         end
       else Miss Disabled) ∧
  cached c' = match a with Miss Stale => delete key (cached c) | _ => cached c end.
Proof.
  intros Hc. unfold lookup_page_at. destruct (enabled c); cbn [negb]; [|split_and!; by try apply cache_ok_stats].
  destruct (cached c !! key) as [e|] eqn:He; [|split_and!; by try apply cache_ok_stats].
  rewrite bool_decide_true by (by apply (ok_current _ Hc)).
  destruct (expires_at e <=? now); [|split_and!; by try apply cache_ok_stats].
  split_and!; try done; [by apply cache_ok_stats, remove_entry_ok|..|apply remove_entry_cached];
    unfold remove_entry; by rewrite He.
Qed.

Lemma enable_spec b c :
  cache_ok c → cache_ok (set_enabled b c) ∧ later c (set_enabled b c) ∧
  (enabled c ≠ b → ∀ r, advanced c (set_enabled b c) r).
Proof.
  intros Hc. destruct (clear_spec c Hc) as [Hcl Hadv]. specialize (Hadv (generations c)).
  assert (Hg : generations (cache_clear c) = generations c) by (unfold cache_clear; by case_goal_if).
  unfold set_enabled. case_bool_decide as Hb.
  - split_and!; [|by apply same_later|done]. destruct Hc. split; simpl; try done. intros Hx. rewrite Hx. by rewrite andb_false_r.
  - destruct Hadv as [Hx Hx']. split_and!.
    + destruct Hcl. split; simpl; try done. intros Hex. rewrite Hex. by rewrite andb_false_r.
    + split; [done|]. destruct Hx' as [?|?]; [by left|right; by left].
    + intros _ r. split; [done|]. destruct Hx' as [?|?]; [by left|right; by left].
Qed.

Lemma clear_later c : cache_ok c → later c (cache_clear c) ∧ ∀ r, advanced c (cache_clear c) r.
Proof.
  intros Hc. destruct (clear_spec c Hc) as [_ Hadv]. specialize (Hadv (generations (cache_clear c))).
  destruct Hadv as [Hx Hx']. split; [|intros r]; (split; [done|]); (destruct Hx' as [?|?]; [by left|right; by left]).
Qed.

(** The result sets a notification selects. *)
Definition selects (n : ServerNotification) (g : FinalCacheGenerationSet) : bool :=
  match n, g with
  | ToolsListChanged, GTools | PromptsListChanged, GPrompts | ResourceUpdated _, GResource
  | ResourcesListChanged, (GResources | GResourceTemplates | GResource) => true
  | _, _ => false
  end.

Lemma notify_spec n c :
  cache_ok c →
  let c' := invalidate_notification n c in
  cache_ok c' ∧ later c c' ∧ (∀ r, selects n (generation_set r) = true → advanced c c' r) ∧
  (∀ k e, cached c' !! k = Some e → cached c !! k = Some e ∧ selects n (generation_set (result_set k)) = false).
Proof.
  intros Hc. assert (Hrefl : later c c) by reflexivity.
  assert (Hone : ∀ r g, generation_set r = g → (∀ g', selects n g' = true ↔ g' = g) →
    cache_ok (invalidate_result_set r c) ∧ later c (invalidate_result_set r c) ∧
    (∀ r', selects n (generation_set r') = true → advanced c (invalidate_result_set r c) r') ∧
    (∀ k e, cached (invalidate_result_set r c) !! k = Some e →
       cached c !! k = Some e ∧ selects n (generation_set (result_set k)) = false)).
  { intros r g <- Hsel. destruct (invalidate_spec r c Hc) as (H1 & H2 & H3 & H4 & _). split_and!; try done.
    - intros r' Hr'. apply H3. by apply Hsel.
    - intros k e He. destruct (H4 k e He) as [He' Hne]. split; [done|]. apply not_true_is_false. by rewrite Hsel. }
  destruct n; cbn [invalidate_notification]; try (split_and!; by try destruct r).
  - apply (Hone _ GResource); [done|]. by intros [].
  - destruct (invalidate_spec Resources c Hc) as (A1 & A2 & A3 & A4 & _).
    destruct (invalidate_spec ResourceTemplates _ A1) as (B1 & B2 & B3 & B4 & _).
    destruct (invalidate_spec (Resource []) _ B1) as (C1 & C2 & C3 & C4 & _).
    split_and!; [done|by etrans; [|etrans]|..].
    + intros r Hr. destruct (generation_set r) eqn:Hg; try done.
      * eapply advanced_later; [reflexivity|by apply A3|by etrans].
      * eapply advanced_later; [exact A2|by apply B3|done].
      * eapply advanced_later; [by etrans|by apply C3|reflexivity].
    + intros k e He. destruct (C4 k e He) as [He1 N1]. destruct (B4 k e He1) as [He2 N2].
      destruct (A4 k e He2) as [He3 N3]. split; [done|]. by destruct (generation_set (result_set k)).
  - apply (Hone _ GTools); [done|]. by intros [].
  - apply (Hone _ GPrompts); [done|]. by intros [].
Qed.

Lemma apply_op_spec c op : cache_ok c → cache_ok (apply_op c op) ∧ later c (apply_op c op).
Proof.
  intros Hc. destruct op as [key now|key g result t|r|n| |b]; cbn [apply_op].
  - pose proof (lookup_spec key now c Hc) as H. destruct (lookup_page_at key now c) as [a c'].
    destruct H as (H1 & H2 & H3 & _). split; [done|by apply same_later].
  - destruct (insert_spec c key g result t Hc) as (c' & -> & H1 & H2 & _ & H3 & _). split; [done|by apply same_later].
  - destruct (invalidate_spec r c Hc) as (H1 & H2 & _). done.
  - destruct (notify_spec n c Hc) as (H1 & H2 & _). done.
  - destruct (clear_spec c Hc) as [H1 _]. split; [done|by apply clear_later].
  - destruct (enable_spec b c Hc) as (H1 & H2 & _). done.
Qed.

Lemma run_ops_spec ops c : cache_ok c → cache_ok (run_ops c ops) ∧ later c (run_ops c ops).
Proof.
  intros Hc. induction ops as [|op ops IH] using rev_ind; [by split|]. unfold run_ops in *. rewrite foldl_app.
  destruct IH as [H1 H2]. destruct (apply_op_spec _ op H1) as [H3 H4]. split; [done|by etrans].
Qed.

(** Whether an operation makes earlier fetches of a result set void. *)
Definition fences c (r : FinalCacheResultSet) (op : cache_op) : bool :=
  match op with
  | OpLookup _ _ | OpInsert _ _ _ _ => false
  | OpInvalidate r' => bool_decide (generation_set r' = generation_set r)
  | OpNotify n => selects n (generation_set r)
  | OpClear => true
  | OpEnable b => negb (bool_decide (enabled c = b))
  end.

Lemma fences_advanced c r op : cache_ok c → fences c r op = true → advanced c (apply_op c op) r.
Proof.
  intros Hc. destruct op as [key now|key g result t|r'|n| |b]; cbn [fences apply_op]; try done.
  - intros Hr%bool_decide_eq_true. destruct (invalidate_spec r' c Hc) as (_ & _ & H & _). by apply H.
  - intros Hn. destruct (notify_spec n c Hc) as (_ & _ & H & _). by apply H.
  - intros _. by apply clear_later.
  - intros Hb%negb_true_iff%bool_decide_eq_false. by apply enable_spec.
Qed.

Lemma advanced_refuses c c' r : cache_ok c' → advanced c c' r →
  enabled c' = false ∨ begin_fetch c r ≠ begin_fetch c' r.
Proof.
  intros Hc' [_ [Hx|[Hx|[_ Hx]]]]; [left; by apply Hc'|right; intros H..].
  - pose proof (f_equal gen_epoch H) as He. simpl in He. lia.
  - pose proof (f_equal gen_revision H) as He. simpl in He. lia.
Qed.

(** * Theorems *)

Context (capacity limit : Z).
Abbreviation reached ops := (run_ops (with_limits capacity limit) ops).

(** C35: Whatever is done to a cache, it never holds more entries than its
    capacity nor more bytes than its budget, both within the published ceilings,
    and counts its bytes exactly; and every entry it holds is of the current
    generation of its result set, so a lookup answers from the entry of the exact
    key and its expiry alone. *)
Theorem cache_invariant ops key now :
  let c := reached ops in
  Z.of_nat (size (cached c)) <= cache_capacity c <= 10000 ∧
  retained_bytes c = bytes_of (cached c) ∧ bytes_of (cached c) <= max_bytes c <= 134217728 ∧
  (∀ k e, cached c !! k = Some e → entry_generation e = begin_fetch c (result_set k)) ∧
  (lookup_page_at key now c).1 =
    (if enabled c then
       match cached c !! key with
       | None => Miss Absent
       | Some e => if expires_at e <=? now then Miss Stale
                   else Fresh {| page_result := entry_result e; page_generation := entry_generation e;
                                 page_scope := entry_scope e |}
       end
     else Miss Disabled).
Proof.
  intros c. destruct (run_ops_spec ops (with_limits capacity limit) (cache_ok_new _ _)) as [Hc _]. fold c in Hc.
  pose proof Hc as [H1 H2 H3 H4 [H5 H6] H7 H8 H9 H10]. unfold MAX_FINAL_CACHE_CAPACITY, MAX_FINAL_CACHE_MAX_BYTES in *.
  split_and!; try done; try lia.
  pose proof (lookup_spec key now c Hc) as H. destruct (lookup_page_at key now c) as [a c']. by destruct H as (_ & _ & _ & -> & _).
Qed.

(** C8: A fetch that was overtaken is never cached: if, after the generation of a
    request was captured, its result set was invalidated, by itself or by a
    notification, or the cache was cleared, or switched off or on, then whatever
    else happened before and after, the result is refused and the cache is
    unchanged; also when revision or epoch counters are exhausted. *)
Theorem cache_fences_overtaken_fetch ops pre op post key result t :
  let c0 := reached ops in
  let c1 := run_ops c0 pre in
  let c2 := run_ops (apply_op c1 op) post in
  fences c1 (result_set key) op = true →
  insert_if_current_at instant_max encode key (begin_fetch c0 (result_set key)) result t c2 =
    (Ok InvalidatedDuringFetch, c2).
Proof.
  intros c0 c1 c2 Hf. destruct (run_ops_spec ops (with_limits capacity limit) (cache_ok_new _ _)) as [Hc0 _]. fold c0 in Hc0.
  destruct (run_ops_spec pre c0 Hc0) as [Hc1 L1]. fold c1 in Hc1, L1.
  destruct (apply_op_spec c1 op Hc1) as [Hc' _]. destruct (run_ops_spec post _ Hc') as [Hc2 L2]. fold c2 in Hc2, L2.
  pose proof (fences_advanced c1 _ op Hc1 Hf) as Hadv.
  pose proof (advanced_later _ _ _ _ _ L1 Hadv L2) as Hall.
  destruct (advanced_refuses c0 c2 _ Hc2 Hall) as [Hen|Hne]; unfold insert_if_current_at, bind, get.
  - by rewrite Hen.
  - rewrite bool_decide_false by done. by rewrite orb_true_r.
Qed.

(** Inserting always ends and answers by the rules: a refused result leaves
    the cache as it was; a stored one is found under its key, with its generation
    and scope, until its time to live has passed and not after, and replaces what
    the key held; other entries are untouched unless evicted, and those evicted
    were received no later than any that stay. *)
Theorem cache_insert_lookup ops key captured result t :
  let c := reached ops in
  let a := insert_answer c key captured result t in
  ∃ c', insert_if_current_at instant_max encode key captured result t c = (Ok a, c') ∧
    (a ≠ Stored → c' = c) ∧
    (a = Stored → ∃ e c1, is_entry key captured result t e ∧
       (∀ now, (lookup_at key now c').1 = if expires_at e <=? now then Miss Stale else Fresh result) ∧
       evicted (remove_entry key c) c1 ∧ cached c' = <[key := e]> (cached c1) ∧
       (fits_one (encoded_bytes e) (remove_entry key c) → c1 = remove_entry key c)).
Proof.
  intros c a. destruct (run_ops_spec ops (with_limits capacity limit) (cache_ok_new _ _)) as [Hc _]. fold c in Hc.
  destruct (insert_spec c key captured result t Hc) as (c' & Hrun & Hc' & _ & Hen & _ & Hno & Hyes). exists c'.
  split; [exact Hrun|]. split; [exact Hno|]. intros Ha. destruct (Hyes Ha) as (_ & Hen' & e & c1 & He & Hev & Hcd & Hid).
  exists e, c1. split_and!; try done. intros now. unfold lookup_at.
  pose proof (lookup_spec key now c' Hc') as H. destruct (lookup_page_at key now c') as [x c''].
  destruct H as (_ & _ & _ & -> & _). rewrite Hen, Hen', Hcd, lookup_insert_eq.
  destruct (expires_at e <=? now); [done|]. simpl. by destruct He as (-> & _).
Qed.

(** The eviction loop ends: with room for an entry within the budget, after
    at most as many rounds as there are entries, having evicted only the oldest
    ones, and none when there was room. *)
Theorem cache_eviction_terminates ops bytes fuel :
  let c := reached ops in
  0 <= bytes <= max_bytes c → (size (cached c) < fuel)%nat →
  ∃ c', make_room fuel bytes c = (Ok true, c') ∧ evicted c c' ∧ fits_one bytes c' ∧ (fits_one bytes c → c' = c).
Proof.
  intros c Hb Hf. destruct (run_ops_spec ops (with_limits capacity limit) (cache_ok_new _ _)) as [Hc _]. fold c in Hc.
  destruct (make_room_spec fuel bytes c Hc Hb Hf) as (c' & H1 & _ & H2 & H3 & H4). by exists c'.
Qed.

(** After a notification no entry of a result set it selects is left, so a
    lookup of one never answers, and no entry is added or changed. *)
Theorem cache_notification_invalidates ops n key now :
  let c := reached ops in
  let c' := invalidate_notification n c in
  (selects n (generation_set (result_set key)) = true → ∀ page, (lookup_page_at key now c').1 ≠ Fresh page) ∧
  (∀ k e, cached c' !! k = Some e → cached c !! k = Some e).
Proof.
  intros c c'. destruct (run_ops_spec ops (with_limits capacity limit) (cache_ok_new _ _)) as [Hc _]. fold c in Hc.
  destruct (notify_spec n c Hc) as (Hc' & _ & _ & Hk). fold c' in Hc', Hk. split; [|intros k e He; by apply Hk].
  intros Hsel page. pose proof (lookup_spec key now c' Hc') as H. destruct (lookup_page_at key now c') as [a c''].
  destruct H as (_ & _ & _ & -> & _). simpl. destruct (enabled c'); [|done].
  destruct (cached c' !! key) as [e|] eqn:He; [|done]. destruct (Hk key e He) as [_ Hs]. by rewrite Hs in Hsel.
Qed.
End cache.
