(* ===== verification/ClientCacheExamples.v ===== *)
(** The client cache on concrete inputs. *)
From stdpp Require Import base list gmap strings.
From Stdlib Require Import ZArith Lia.
From S2P Require Import Prelude Utf8 JsonGrammar Scanner JsonLex RawJson RequestId RequestIdTheorems.
From S2P Require Import SseParser ClientCache ClientCacheTheorems.

#[local] Instance ex_order : MapOrder FinalCacheKey (FinalCacheEntry unit) := canonical_order _ _.

(** * Time to live *)

Example ttl_spellings :
  cache_ttl_runtime_millis (chars_of "1.0e3") = Ok 1000 ∧
  cache_ttl_runtime_millis (chars_of "18446744073709551615") = Ok u64_max ∧
  cache_ttl_runtime_millis (chars_of "18446744073709551616") = Err RuntimeOutOfRange ∧
  cache_ttl_runtime_millis (chars_of "600e-1") = Ok 60 ∧
  CacheTtl_try_from (chars_of "-1") = Err Negative ∧ CacheTtl_try_from (chars_of "-0") = Ok (chars_of "-0").
Proof. vm_compute. done. Qed.

(** The number [0.000000000000000000001e21] is the integer 1, yet its time to live
    is refused as exceeding 64 bits: leading zeros count towards the limit of
    twenty digits when no digit is cut off. *)
Definition ttl_one : list Z := chars_of "0.000000000000000000001e21".

Theorem ttl_leading_zeroes_refused :
  lexeme_int ttl_one 1 ∧ cache_ttl_runtime_millis ttl_one = Err RuntimeOutOfRange.
Proof.
  split; [|vm_compute; reflexivity].
  exists false, [48], (replicate 20 48 ++ [49]), 21. split; [|vm_compute; reflexivity].
  apply (parts_fraction false [48] (replicate 20 48 ++ [49]) (chars_of "e21") 21); [constructor|done| |].
  - unfold digits. repeat constructor.
  - apply (exp_value_some 101 [] [50; 49]); [auto|auto|done|by repeat constructor].
Qed.

(** * The cache *)

Definition ex_cache_key (r : FinalCacheResultSet) (page : list Z) : FinalCacheKey :=
  {| endpoint_configuration := chars_of "stdio"; protocol_version := chars_of "2026-07-28";
     normalized_capabilities := []; extension_settings := []; key_method := chars_of "tools/list";
     semantic_projection := []; cursor := Some page; policy_revision := 0; extension_revision := 0;
     representation_policy_revision := 0; limits_policy_revision := 0; partition := []; result_set := r |}.

Definition ex_tools : CoreResult unit :=
  Final (ToolsList {| ttl_ms := chars_of "6e4"; cache_scope := Private |} tt).
Definition ex_encode (r : CoreResult unit) : option (list Z) := Some (chars_of "{}").
Definition ex_generation : FinalCacheGeneration := {| gen_epoch := 0; gen_revision := 0; gen_set := GTools |}.

Definition ex_insert (page : string) (t : Z) : cache_op (P := unit) :=
  OpInsert (ex_cache_key Tools (chars_of page)) ex_generation ex_tools t.

(** Two slots, three inserts: the one received first is evicted. *)
Definition ex_ops : list (cache_op (P := unit)) := [ex_insert "a" 5; ex_insert "b" 3; ex_insert "c" 7].

Example oldest_evicted :
  let c := run_ops (2 ^ 62) ex_encode (with_limits 2 1000) ex_ops in
  (λ p, (lookup_at (ex_cache_key Tools (chars_of p)) 9 c).1) <$> ["a"; "b"; "c"]%string =
    [Fresh ex_tools; Miss Absent; Fresh ex_tools] ∧ evictions (stats c) = 1.
Proof. vm_compute. done. Qed.

(** A tools notification arrives while a page is fetched. *)
Lemma cache_fences_overtaken_fetch_witness :
  let c := run_ops (2 ^ 62) ex_encode (with_limits 2 1000) [ex_insert "a" 5; OpNotify ToolsListChanged] in
  insert_if_current_at (2 ^ 62) ex_encode (ex_cache_key Tools (chars_of "b")) ex_generation ex_tools 9 c =
    (Ok InvalidatedDuringFetch, c).
Proof.
  exact (cache_fences_overtaken_fetch (2 ^ 62) ex_encode 2 1000 [] [ex_insert "a" 5] (OpNotify ToolsListChanged) []
    (ex_cache_key Tools (chars_of "b")) ex_tools 9 ltac:(vm_compute; reflexivity)).
Defined.

(** A third entry makes one of two go. *)
Lemma cache_eviction_terminates_witness :
  ∃ c', make_room 3 100 (run_ops (2 ^ 62) ex_encode (with_limits 2 1000) [ex_insert "a" 5; ex_insert "b" 3]) = (Ok true, c') ∧
    (size (cached c') < 2)%nat.
Proof.
  destruct (cache_eviction_terminates (2 ^ 62) ex_encode 2 1000 [ex_insert "a" 5; ex_insert "b" 3] 100 3)
    as (c' & Hrun & Hev & [Hfit _] & _); [split; vm_compute; discriminate|vm_compute; lia|].
  exists c'. split; [exact Hrun|]. destruct Hev as [_ _ (Hcap & _)].
  rewrite Hcap in Hfit. change (Z.of_nat (size (cached c')) < 2) in Hfit. lia.
Defined.
