(* ===== verification/DocketQueue.v ===== *)
(** The docket, [crates/fastmcp-server/src/docket.rs]: the in-memory task queue,
    its client and its worker, and the two pure helpers of the Redis backend;
    definitions.  An operation of the backend runs under the locks it takes, but for
    [enqueue], which takes and drops them twice; it gets the instants it reads; a lock is poisoned only by a panic, after which no run is
    continued here. *)
From stdpp Require Import base list gmap strings pretty.
From Stdlib Require Import ZArith Lia Ascii.
From Stdlib Require String.
From S2P Require Import Prelude.

Module Docket.

(** * Standard library *)

(** [Iterator::position] *)
Fixpoint position {A} (f : A → bool) (l : list A) : option nat :=
  match l with
  | [] => None
  | x :: l => if f x then Some 0%nat else S <$> position f l
  end.

(** [VecDeque::insert] *)
Definition insert_at_index {A} (pos : nat) (x : A) (l : list A) : list A :=
  take pos l ++ x :: drop pos l.

(** Digits in a base of at most sixteen, most significant first, without leading
    zeros ([0] has one digit). *)
Definition digit (n : Z) : ascii :=
  ascii_of_nat (Z.to_nat (if n <? 10 then 48 + n else 87 + n)).

Fixpoint digits_go (fuel : nat) (base n : Z) (acc : list ascii) : list ascii :=
  match fuel with
  | O => acc
  | S fuel =>
      let acc := digit (n mod base) :: acc in
      if n / base =? 0 then acc else digits_go fuel base (n / base) acc
  end.

(** Padding with zeros on the left to a width, as [{:08x}] and [{:010}] do. *)
Definition padded (width fuel : nat) (base n : Z) : list ascii :=
  let ds := digits_go fuel base n [] in
  replicate (width - length ds) (digit 0) ++ ds.

Definition u32_max : Z := 2 ^ 32 - 1.
Definition i32_max : Z := 2 ^ 31 - 1.
Definition i64_max : Z := 2 ^ 63 - 1.
Definition i64_min : Z := - 2 ^ 63.

(** [i64::saturating_mul] *)
Definition saturating_mul_i64 (a b : Z) : Z := Z.max i64_min (Z.min (a * b) i64_max).

(** What the docket uses of [chrono]: instants are nanoseconds since the epoch. *)
Class Chrono : Type := {
  to_rfc3339 : Z → string;
  parse_from_rfc3339 : string → option Z;
  duration_from_std : Z → option Z;
}.

(** * Configuration *)

Record RedisSettings : Type := {
  url : string;
  pool_size : Z;
  connect_timeout : Z;
}.

Inductive DocketBackendType : Type :=
| Memory
| Redis (s : RedisSettings).

(** Durations are nanoseconds. *)
Record DocketSettings : Type := {
  backend : DocketBackendType;
  queue_prefix : string;
  visibility_timeout : Z;
  default_task_timeout : Z;
  settings_max_retries : Z;
  retry_delay : Z;
  poll_interval : Z;
}.

Definition from_secs (s : Z) : Z := s * 10 ^ 9.
Definition from_millis (ms : Z) : Z := ms * 10 ^ 6.

Definition DocketSettings_default : DocketSettings := {|
  backend := Memory;
  queue_prefix := "fastmcp:docket";
  visibility_timeout := from_secs 30;
  default_task_timeout := from_secs 300;
  settings_max_retries := 3;
  retry_delay := from_secs 1;
  poll_interval := from_millis 100;
|}.

(** * Tasks *)

Definition TaskId : Type := string.

Inductive TaskStatus : Type := Pending | Running | Completed | Failed | Cancelled.

#[export] Instance TaskStatus_eq_dec : EqDecision TaskStatus.
Proof. solve_decision. Defined.

Definition is_terminal (s : TaskStatus) : bool :=
  match s with Completed | Failed | Cancelled => true | Pending | Running => false end.

(** [{:?}] *)
Definition TaskStatus_debug (s : TaskStatus) : string :=
  match s with
  | Pending => "Pending" | Running => "Running" | Completed => "Completed"
  | Failed => "Failed" | Cancelled => "Cancelled"
  end.

Inductive DocketError : Type :=
| NotFound (msg : string)
| Connection (msg : string)
| Serialization (msg : string)
| Handler (msg : string)
| Backend (msg : string)
| CancelledError.

Definition DocketError_to_string (e : DocketError) : string :=
  match e with
  | NotFound msg => "Task not found: " +:+ msg
  | Connection msg => "Connection error: " +:+ msg
  | Serialization msg => "Serialization error: " +:+ msg
  | Handler msg => "Handler error: " +:+ msg
  | Backend msg => "Backend error: " +:+ msg
  | CancelledError => "Operation cancelled"
  end.

(** [V] is [serde_json::Value]. *)
Record DocketTask (V : Type) : Type := {
  id : TaskId;
  task_type : string;
  params : V;
  priority : Z;
  retry_count : Z;
  max_retries : Z;
  created_at : string;
  claimed_at : option string;
  status : TaskStatus;
  error : option string;
  result : option V;
}.
Arguments id {V}. Arguments task_type {V}. Arguments params {V}. Arguments priority {V}.
Arguments retry_count {V}. Arguments max_retries {V}. Arguments created_at {V}.
Arguments claimed_at {V}. Arguments status {V}. Arguments error {V}. Arguments result {V}.

Record SubmitOptions : Type := {
  options_priority : Z;
  options_max_retries : option Z;
  delay : option Z;
}.

Definition SubmitOptions_default : SubmitOptions :=
  {| options_priority := 0; options_max_retries := None; delay := None |}.

Record QueueStats : Type := {
  stat_pending : Z; stat_in_progress : Z; stat_completed : Z; stat_failed : Z; stat_cancelled : Z;
}.

Definition QueueStats_default : QueueStats :=
  {| stat_pending := 0; stat_in_progress := 0; stat_completed := 0; stat_failed := 0; stat_cancelled := 0 |}.

Record MemoryDocketBackend (V : Type) : Type := {
  tasks : gmap TaskId (DocketTask V);
  pending : list TaskId;
  settings : DocketSettings;
}.
Arguments tasks {V}. Arguments pending {V}. Arguments settings {V}.

Section backend.
Context {V : Type} `{Chrono} {order : MapOrder TaskId (DocketTask V)}.
Abbreviation Task := (DocketTask V).
Abbreviation B := (MemoryDocketBackend V).
Abbreviation Op := (M B DocketError).

Definition DocketTask_new (now : Z) (i : TaskId) (ty : string) (p : V) (prio retries : Z) : Task :=
  {| id := i; task_type := ty; params := p; priority := prio; retry_count := 0;
     max_retries := retries; created_at := to_rfc3339 now; claimed_at := None;
     status := Pending; error := None; result := None |}.

Definition MemoryDocketBackend_new (s : DocketSettings) : B :=
  {| tasks := ∅; pending := []; settings := s |}.

Definition with_status (s : TaskStatus) (t : Task) : Task :=
  {| id := id t; task_type := task_type t; params := params t; priority := priority t;
     retry_count := retry_count t; max_retries := max_retries t; created_at := created_at t;
     claimed_at := claimed_at t; status := s; error := error t; result := result t |}.
Definition with_claimed_at (c : option string) (t : Task) : Task :=
  {| id := id t; task_type := task_type t; params := params t; priority := priority t;
     retry_count := retry_count t; max_retries := max_retries t; created_at := created_at t;
     claimed_at := c; status := status t; error := error t; result := result t |}.
Definition with_error (e : option string) (t : Task) : Task :=
  {| id := id t; task_type := task_type t; params := params t; priority := priority t;
     retry_count := retry_count t; max_retries := max_retries t; created_at := created_at t;
     claimed_at := claimed_at t; status := status t; error := e; result := result t |}.
Definition with_result (r : option V) (t : Task) : Task :=
  {| id := id t; task_type := task_type t; params := params t; priority := priority t;
     retry_count := retry_count t; max_retries := max_retries t; created_at := created_at t;
     claimed_at := claimed_at t; status := status t; error := error t; result := r |}.
Definition with_retry_count (n : Z) (t : Task) : Task :=
  {| id := id t; task_type := task_type t; params := params t; priority := priority t;
     retry_count := n; max_retries := max_retries t; created_at := created_at t;
     claimed_at := claimed_at t; status := status t; error := error t; result := result t |}.

Definition map_tasks (f : gmap TaskId Task → gmap TaskId Task) (b : B) : B :=
  {| tasks := f (tasks b); pending := pending b; settings := settings b |}.
Definition map_pending (f : list TaskId → list TaskId) (b : B) : B :=
  {| tasks := tasks b; pending := f (pending b); settings := settings b |}.

(** * The backend's operations *)

(** [tasks.get(id).is_none_or(|t| t.priority < priority)] *)
Definition yields_to (m : gmap TaskId Task) (prio : Z) (i : TaskId) : bool :=
  match m !! i with None => true | Some t => priority t <? prio end.

(** The two critical sections of [enqueue]; other operations may run between
    them. *)
Definition record_task (task : Task) : Op unit := modify (map_tasks <[id task := task]>).

Definition queue_task (task_id : TaskId) (prio : Z) : Op unit :=
  modify (λ b, map_pending (λ q,
    insert_at_index (default (length q) (position (yields_to (tasks b) prio) q)) task_id q) b).

Definition enqueue (task : Task) : Op unit :=
  record_task task ;! queue_task (id task) (priority task).

(** [tasks.get(id).is_some_and(|t| t.status == Pending && task_types.contains(..))] *)
Definition claimable (m : gmap TaskId Task) (task_types : list string) (i : TaskId) : bool :=
  match m !! i with
  | None => false
  | Some t => bool_decide (status t = Pending) && bool_decide (task_type t ∈ task_types)
  end.

Definition dequeue (now : Z) (task_types : list string) : Op (option Task) :=
  let! b := get in
  match position (claimable (tasks b) task_types) (pending b) with
  | None => ret None
  | Some pos =>
      match pending b !! pos with
      | None => panic
      | Some task_id =>
          modify (map_pending (delete pos)) ;!
          match tasks b !! task_id with
          | None => ret None
          | Some t =>
              let t := with_claimed_at (Some (to_rfc3339 now)) (with_status Running t) in
              modify (map_tasks <[task_id := t]>) ;!
              ret (Some t)
          end
      end
  end.

Definition ack (task_id : TaskId) (r : V) : Op unit :=
  let! b := get in
  let! t := ok_or (tasks b !! task_id) (NotFound task_id) in
  modify (map_tasks <[task_id := with_result (Some r) (with_status Completed t)]>).

(** [retry_count += 1], which panics on overflow when overflow is checked. *)
Definition bump (t : Task) : Op Task :=
  if retry_count t + 1 <=? u32_max then ret (with_retry_count (retry_count t + 1) t) else panic.

Definition nack (task_id : TaskId) (e : string) : Op unit :=
  let! b := get in
  let! t := ok_or (tasks b !! task_id) (NotFound task_id) in
  let! t := bump t in
  let t := with_error (Some e) t in
  if max_retries t <=? retry_count t then
    modify (map_tasks <[task_id := with_status Failed t]>)
  else
    modify (map_tasks <[task_id := with_claimed_at None (with_status Pending t)]>) ;!
    modify (map_pending (λ q, q ++ [task_id])).

Definition get_task (task_id : TaskId) : Op (option Task) := gets (λ b, tasks b !! task_id).

Definition list_tasks (s : option TaskStatus) (limit : nat) : Op (list Task) :=
  gets (λ b, take limit (filter (λ t, s = None ∨ s = Some (status t)) ((map_order (tasks b)).*2))).

Definition cancel (task_id : TaskId) (reason : option string) : Op unit :=
  let! b := get in
  let! t := ok_or (tasks b !! task_id) (NotFound task_id) in
  if is_terminal (status t) then
    fail (Backend ("Cannot cancel task in terminal state: " +:+ TaskStatus_debug (status t)))
  else
    modify (map_tasks <[task_id := with_error reason (with_status Cancelled t)]>) ;!
    modify (map_pending (filter (λ i, i ≠ task_id))).

Definition count_status (s : QueueStats) (t : Task) : QueueStats :=
  let '(p, r, c, f, x) := (stat_pending s, stat_in_progress s, stat_completed s, stat_failed s, stat_cancelled s) in
  match status t with
  | Pending => Build_QueueStats (p + 1) r c f x
  | Running => Build_QueueStats p (r + 1) c f x
  | Completed => Build_QueueStats p r (c + 1) f x
  | Failed => Build_QueueStats p r c (f + 1) x
  | Cancelled => Build_QueueStats p r c f (x + 1)
  end.

Definition stats : Op QueueStats :=
  gets (λ b, foldl count_status QueueStats_default ((map_order (tasks b)).*2)).

(** [Duration::from_std(visibility_timeout).unwrap_or_else(|_| seconds(30))] *)
Definition stale_after (s : DocketSettings) : Z :=
  default (from_secs 30) (duration_from_std (visibility_timeout s)).

(** The tests of the loop of [requeue_stale]: running, claimed at an instant that
    parses, and claimed too long ago. *)
Definition is_stale (now timeout : Z) (t : Task) : bool :=
  bool_decide (status t = Running) &&
  match claimed_at t ≫= parse_from_rfc3339 with
  | Some claimed => timeout <? now - claimed
  | None => false
  end.

(** The loop of [requeue_stale] over the values of the map. *)
Fixpoint requeue_loop (now timeout : Z) (todo : list (TaskId * Task)) (requeued : Z) : Op Z :=
  match todo with
  | [] => ret requeued
  | (key, t) :: todo =>
      if negb (is_stale now timeout t) then requeue_loop now timeout todo requeued
      else
        let! t := bump (with_claimed_at None (with_status Pending t)) in
        if max_retries t <=? retry_count t then
          modify (map_tasks <[key := with_error (Some "Exceeded visibility timeout"%string)
                                        (with_status Failed t)]>) ;!
          requeue_loop now timeout todo requeued
        else
          modify (map_tasks <[key := t]>) ;!
          modify (map_pending (λ q, q ++ [id t])) ;!
          requeue_loop now timeout todo (requeued + 1)
  end.

Definition requeue_stale (now : Z) : Op Z :=
  let! b := get in
  requeue_loop now (stale_after (settings b)) (map_order (tasks b)) 0.

(** * The Redis backend's helpers *)

(** [{prio_key:010}:{created_ms:013}:{id}]; [now] is the clock of a creation time
    that does not parse. *)
Definition encode_member (now : Z) (t : Task) : string :=
  let created_ms := default now (parse_from_rfc3339 (created_at t)) / 10 ^ 6 in
  let prio_key := i32_max - priority t in
  String.string_of_list_ascii (padded 10 19 10 prio_key) +:+ ":" +:+
  String.string_of_list_ascii (padded 13 19 10 created_ms) +:+ ":" +:+ id t.

Definition retry_delay_ms (s : DocketSettings) (retries : Z) : Z :=
  let base := Z.min (retry_delay s / 10 ^ 6) i64_max in
  if base <=? 0 then 0
  else
    let exp := Z.min (saturating_sub retries 1) 30 in
    saturating_mul_i64 base (2 ^ exp).
End backend.

(** * The client and the worker *)

Record t (V : Type) : Type := {
  docket_backend : MemoryDocketBackend V;
  docket_settings : DocketSettings;
  task_counter : Z;
}.
Arguments docket_backend {V}. Arguments docket_settings {V}. Arguments task_counter {V}.

Section docket.
Context {V : Type} `{Chrono} {order : MapOrder TaskId (DocketTask V)}.
Abbreviation Task := (DocketTask V).
Abbreviation D := (t V).

(** [Docket::new] when it chooses the memory backend, which it builds without the
    [redis] feature. *)
Definition new (s : DocketSettings) : outcome DocketError D :=
  match backend s with
  | Memory => Ok {| docket_backend := MemoryDocketBackend_new s; docket_settings := s; task_counter := 0 |}
  | Redis _ => Err (Backend "Redis backend requires 'redis' feature")
  end.

(** Run an operation of the backend. *)
Definition on_backend {A} (op : M (MemoryDocketBackend V) DocketError A) : M D DocketError A :=
  λ d, let '(o, b) := op (docket_backend d) in
       (o, {| docket_backend := b; docket_settings := docket_settings d; task_counter := task_counter d |}).

(** [format!("docket-{counter:08x}")] *)
Definition docket_id (counter : Z) : TaskId :=
  "docket-" +:+ String.string_of_list_ascii (padded 8 16 16 counter).

(** [submit_with_options] up to the call of the backend: an atomic [fetch_add] of
    the counter, and the task it names. *)
Definition draw_task (now : Z) (ty : string) (p : V) (options : SubmitOptions) : M D DocketError Task :=
  let! d := get in
  modify (λ d, {| docket_backend := docket_backend d; docket_settings := docket_settings d;
                  task_counter := wrapping_add64 (task_counter d) 1 |}) ;!
  let task_id := docket_id (task_counter d) in
  let retries := default (settings_max_retries (docket_settings d)) (options_max_retries options) in
  ret (DocketTask_new now task_id ty p (options_priority options) retries).

Definition submit_with_options (now : Z) (ty : string) (p : V) (options : SubmitOptions)
    : M D DocketError TaskId :=
  let! task := draw_task now ty p options in
  on_backend (enqueue task) ;!
  ret (id task).

Definition submit (now : Z) (ty : string) (p : V) : M D DocketError TaskId :=
  submit_with_options now ty p SubmitOptions_default.

(** The handlers a worker subscribed; the keys are its task types.  A handler is
    user code: here, what its future resolves to. *)
Abbreviation Handlers := (gmap string (Task → V + DocketError)).

Definition subscribed_types (hs : Handlers) : list string := (map_to_list hs).*1.

(** [process_one] up to the call of the handler: the task to handle, if any. *)
Definition process_claim (cancel_requested : bool) (now : Z) (hs : Handlers)
    : M D DocketError (option Task) :=
  if cancel_requested then fail CancelledError
  else on_backend (dequeue now (subscribed_types hs)).

(** [process_one] after the handler has returned. *)
Definition process_settle (task_id : TaskId) (r : V + DocketError) : M D DocketError unit :=
  match r with
  | inl data => on_backend (ack task_id data)
  | inr e => on_backend (nack task_id (DocketError_to_string e))
  end.

Definition process_one (cancel_requested : bool) (now : Z) (hs : Handlers) : M D DocketError bool :=
  let! claimed := process_claim cancel_requested now hs in
  match claimed with
  | None => ret false
  | Some task =>
      match hs !! task_type task with
      | None => on_backend (nack (id task) "No handler for task type") ;! ret true
      | Some handler => process_settle (id task) (handler task) ;! ret true
      end
  end.

(** One turn of the loop of [Worker::run], and what it observes: whether [stop]
    was called, whether cancellation was requested at its two tests, the instants
    it reads. *)
Record Turn : Type := {
  stopped : bool;
  cancelled_before : bool;
  cancelled_after : bool;
  stale_now : Z;
  claim_now : Z;
}.

(** [Worker::run] over the turns of its loop; it waits for more when they end. *)
Fixpoint run (hs : Handlers) (turns : list Turn) : M D DocketError unit :=
  match turns with
  | [] => out_of_fuel
  | turn :: turns =>
      if stopped turn then ret tt
      else if cancelled_before turn then ret tt
      else λ d,
        match on_backend (requeue_stale (stale_now turn)) d with
        | (Panic, d) => (Panic, d)
        | (OutOfFuel, d) => (OutOfFuel, d)
        | (_, d) =>
            match process_one (cancelled_after turn) (claim_now turn) hs d with
            | (Ok _, d) => run hs turns d
            | (Err CancelledError, d) => (Ok tt, d)
            | (Err _, d) => run hs turns d
            | (Panic, d) => (Panic, d)
            | (OutOfFuel, d) => (OutOfFuel, d)
            end
        end
  end.
End docket.
End Docket.
