(* ===== verification/DocketFormat.v ===== *)
(** Padded numbers of the docket: they determine the number, and numbers of the
    same width compare as strings the way they compare as numbers.  So task ids
    are unique, and the members of a Redis queue sort by priority and age. *)
From stdpp Require Import base list gmap strings.
From Stdlib Require Import ZArith Lia Ascii.
From Stdlib Require String.
From S2P Require Import Prelude DocketQueue.

Module DocketFormat.
Import Docket.

Definition digit_value (a : ascii) : Z :=
  let n := Z.of_nat (nat_of_ascii a) in if n <? 58 then n - 48 else n - 87.

Definition is_digit_of (base : Z) (a : ascii) : Prop :=
  0 <= digit_value a < base ∧ a = digit (digit_value a).

Lemma digit_value_digit n : 0 <= n < 16 → digit_value (digit n) = n.
Proof.
  intros Hn. unfold digit_value, digit. rewrite nat_ascii_embedding by (case_goal_if; lia).
  destruct (n <? 10) eqn:E; zbool; rewrite Z2Nat.id by lia; case_goal_if; zbool; lia.
Qed.

Lemma is_digit_of_digit base n : base <= 16 → 0 <= n < base → is_digit_of base (digit n).
Proof. intros Hb Hn. unfold is_digit_of. rewrite digit_value_digit by lia. split; [lia|done]. Qed.

(** Digits are ordered in the character set as their values are. *)
Lemma digit_compare a b : 0 <= a < 16 → 0 <= b < 16 → Ascii.compare (digit a) (digit b) = (a ?= b).
Proof.
  intros Ha Hb. unfold Ascii.compare, digit.
  assert (Hn : ∀ n, 0 <= n < 16 → N_of_ascii (ascii_of_nat (Z.to_nat (if n <? 10 then 48 + n else 87 + n)))
                 = Z.to_N (if n <? 10 then 48 + n else 87 + n)).
  { intros n Hr. unfold ascii_of_nat. destruct (n <? 10) eqn:E; zbool; rewrite N_ascii_embedding; lia. }
  rewrite !Hn by done. clear Hn.
  destruct (a <? 10) eqn:Ea, (b <? 10) eqn:Eb; zbool; rewrite Z2N.inj_compare by lia;
    destruct (Z.compare_spec a b); try (subst; apply Z.compare_refl); try lia;
    try (apply Z.compare_lt_iff; lia); try (apply Z.compare_gt_iff; lia).
Qed.

Section base.
Context (base : Z) (Hbase : 1 < base <= 16).

Definition value_from (n : Z) (ds : list ascii) : Z :=
  foldl (λ v a, v * base + digit_value a) n ds.

Lemma digits_go_digits fuel n acc :
  0 <= n → Forall (is_digit_of base) acc → Forall (is_digit_of base) (digits_go fuel base n acc).
Proof.
  revert n acc. induction fuel as [|fuel IH]; intros n acc Hn Hacc; simpl; [done|].
  assert (is_digit_of base (digit (n mod base))) by (apply is_digit_of_digit; [lia|apply Z.mod_pos_bound; lia]).
  case_goal_if; [by constructor|]. apply IH; [apply Z.div_pos; lia|by constructor].
Qed.

Lemma value_digits_go fuel n acc :
  0 <= n < base ^ Z.of_nat (S fuel) → value_from 0 (digits_go (S fuel) base n acc) = value_from n acc.
Proof.
  revert n acc. induction fuel as [|fuel IH]; intros n acc Hn; cbn [digits_go].
  - change (Z.of_nat 1) with 1 in Hn. rewrite Z.pow_1_r in Hn. rewrite (Z.div_small n base) by lia. simpl.
    rewrite digit_value_digit; rewrite Z.mod_small by lia; [done|lia].
  - destruct (n / base =? 0) eqn:E; zbool.
    + simpl. rewrite digit_value_digit by (pose proof (Z.mod_pos_bound n base); lia). f_equal.
      rewrite (Z.div_mod n base) at 2 by lia. rewrite E. lia.
    + rewrite (Nat2Z.inj_succ (S fuel)), Z.pow_succ_r in Hn by lia.
      change (value_from 0 (digits_go (S fuel) base (n / base) (digit (n mod base) :: acc)) = value_from n acc).
      rewrite IH; [|split; [apply Z.div_pos; lia|apply Z.div_lt_upper_bound; lia]].
      simpl. rewrite digit_value_digit by (pose proof (Z.mod_pos_bound n base); lia). f_equal.
      rewrite (Z.div_mod n base) at 3 by lia. lia.
Qed.

Lemma length_digits_go fuel w n acc :
  0 <= n < base ^ Z.of_nat w → (0 < w)%nat → (length (digits_go fuel base n acc) ≤ length acc + w)%nat.
Proof.
  revert w n acc. induction fuel as [|fuel IH]; intros w n acc Hn Hw; cbn [digits_go]; [lia|].
  destruct (n / base =? 0) eqn:E; zbool; [simpl; lia|].
  destruct w as [|[|w]]; [lia| |].
  - change (Z.of_nat 1) with 1 in Hn. rewrite Z.pow_1_r in Hn. rewrite Z.div_small in E; lia.
  - rewrite (Nat2Z.inj_succ (S w)), Z.pow_succ_r in Hn by lia.
    pose proof (IH (S w) (n / base) (digit (n mod base) :: acc)) as Hl. simpl in Hl. rewrite Hl; [lia| |lia].
    split; [apply Z.div_pos; lia|apply Z.div_lt_upper_bound; lia].
Qed.

(** A padded number: its digits, its width and its value. *)
Lemma padded_digits width fuel n : 0 <= n → Forall (is_digit_of base) (padded width fuel base n).
Proof.
  intros Hn. unfold padded. apply Forall_app. split; [|by apply digits_go_digits].
  apply Forall_replicate, is_digit_of_digit; lia.
Qed.

Lemma padded_width width fuel n :
  0 <= n < base ^ Z.of_nat width → (0 < width)%nat → length (padded width fuel base n) = width.
Proof.
  intros Hn Hw. unfold padded. rewrite length_app, length_replicate.
  pose proof (length_digits_go fuel width n [] Hn Hw) as Hl. simpl in Hl. lia.
Qed.

Lemma padded_value width fuel n :
  0 <= n < base ^ Z.of_nat (S fuel) → value_from 0 (padded width (S fuel) base n) = n.
Proof.
  intros Hn. unfold padded, value_from. rewrite foldl_app.
  assert (Hz : ∀ k, foldl (λ v a, v * base + digit_value a) 0 (replicate k (digit 0)) = 0).
  { induction k as [|k IH]; [done|]. simpl. by rewrite digit_value_digit by lia. }
  rewrite Hz. apply value_digits_go. lia.
Qed.

(** Equally long digit strings compare as their values. *)
Lemma value_from_lt ds1 : ∀ ds2 n1 n2,
  length ds1 = length ds2 → Forall (is_digit_of base) ds1 → Forall (is_digit_of base) ds2 →
  n1 < n2 → value_from n1 ds1 < value_from n2 ds2.
Proof.
  induction ds1 as [|a ds1 IH]; intros [|b ds2] n1 n2 Hl H1 H2 Hn; simplify_eq/=; [done|].
  inversion_clear H1 as [|? ? [Ha _] H1']. inversion_clear H2 as [|? ? [Hb _] H2'].
  apply IH; [done..|nia].
Qed.

Lemma compare_digits ds1 : ∀ ds2 n,
  length ds1 = length ds2 → Forall (is_digit_of base) ds1 → Forall (is_digit_of base) ds2 →
  String.compare (String.string_of_list_ascii ds1) (String.string_of_list_ascii ds2)
  = (value_from n ds1 ?= value_from n ds2).
Proof.
  induction ds1 as [|a ds1 IH]; intros [|b ds2] n Hl H1 H2; simplify_eq/=; [by rewrite Z.compare_refl|].
  inversion_clear H1 as [|? ? [Ha Ea] H1']. inversion_clear H2 as [|? ? [Hb Eb] H2'].
  rewrite Ea, Eb at 1. rewrite digit_compare by lia.
  destruct (Z.compare_spec (digit_value a) (digit_value b)) as [E|E|E].
  - rewrite E. by apply IH.
  - symmetry. apply Z.compare_lt_iff. by apply value_from_lt; [..|nia].
  - symmetry. apply Z.compare_gt_iff. by apply value_from_lt; [..|nia].
Qed.
End base.

Lemma string_compare_app s1 : ∀ s2 t1 t2,
  String.length s1 = String.length s2 →
  String.compare (s1 +:+ t1) (s2 +:+ t2)
  = match String.compare s1 s2 with Eq => String.compare t1 t2 | c => c end.
Proof.
  induction s1 as [|a s1 IH]; intros [|b s2] t1 t2 Hl; simplify_eq/=; [done|].
  change (String.append ?x ?y) with (x +:+ y). rewrite IH by done. by destruct (Ascii.compare a b).
Qed.

Lemma length_string_of ds : String.length (String.string_of_list_ascii ds) = length ds.
Proof. induction ds as [|a ds IH]; simpl; [done|by rewrite IH]. Qed.

(** * Task ids *)

Lemma docket_id_inj k1 k2 :
  0 <= k1 < 2 ^ 64 → 0 <= k2 < 2 ^ 64 → docket_id k1 = docket_id k2 → k1 = k2.
Proof.
  intros H1 H2 Heq. unfold docket_id in Heq. apply (inj (String.append "docket-")) in Heq.
  apply (f_equal String.list_ascii_of_string) in Heq.
  rewrite !String.list_ascii_of_string_of_list_ascii in Heq.
  apply (f_equal (value_from 16 0)) in Heq. by rewrite !padded_value in Heq by lia.
Qed.

(** * Queue members *)

Lemma compare_padded width fuel a b :
  (0 < width)%nat → 0 <= a < 10 ^ Z.of_nat width → 0 <= b < 10 ^ Z.of_nat width →
  (width <= S fuel)%nat →
  String.compare (String.string_of_list_ascii (padded width (S fuel) 10 a))
                 (String.string_of_list_ascii (padded width (S fuel) 10 b)) = (a ?= b).
Proof.
  intros Hw Ha Hb Hf.
  assert (Hpow : 10 ^ Z.of_nat width <= 10 ^ Z.of_nat (S fuel)) by (apply Z.pow_le_mono_r; lia).
  rewrite (compare_digits 10 ltac:(lia) _ _ 0).
  - by rewrite !padded_value by lia.
  - by rewrite !padded_width by lia.
  - apply padded_digits; lia.
  - apply padded_digits; lia.
Qed.

Lemma length_padded_string width fuel n :
  (0 < width)%nat → 0 <= n < 10 ^ Z.of_nat width →
  String.length (String.string_of_list_ascii (padded width fuel 10 n)) = width.
Proof. intros. rewrite length_string_of. by apply padded_width; [lia| |]. Qed.

Section members.
Context {V : Type} `{Chrono}.
Implicit Types (u v : DocketTask V).

(** The members of a Redis queue, compared byte by byte as Redis compares
    equal scores, are in the order of the queue: higher priority first, then
    earlier creation to the millisecond, then the id.  (Priorities are [i32]s,
    creation times lie between 1970 and 2286.) *)
Theorem encode_member_order now u v cu cv :
  - 2 ^ 31 <= priority u < 2 ^ 31 → - 2 ^ 31 <= priority v < 2 ^ 31 →
  parse_from_rfc3339 (created_at u) = Some cu → parse_from_rfc3339 (created_at v) = Some cv →
  0 <= cu < 10 ^ 19 → 0 <= cv < 10 ^ 19 →
  String.compare (encode_member now u) (encode_member now v)
  = match priority v ?= priority u with
    | Eq => match cu / 10 ^ 6 ?= cv / 10 ^ 6 with Eq => String.compare (id u) (id v) | c => c end
    | c => c
    end.
Proof.
  intros Hpu Hpv Hcu Hcv Hu Hv. unfold encode_member. rewrite Hcu, Hcv. simpl default.
  assert (Hms : ∀ c, 0 <= c < 10 ^ 19 → 0 <= c / 10 ^ 6 < 10 ^ 13).
  { intros c Hc. split; [apply Z.div_pos; lia|apply Z.div_lt_upper_bound; lia]. }
  pose proof (Hms cu Hu). pose proof (Hms cv Hv). unfold i32_max.
  rewrite string_compare_app by (by rewrite !length_padded_string by lia).
  rewrite compare_padded by lia.
  replace (2 ^ 31 - 1 - priority u ?= 2 ^ 31 - 1 - priority v) with (priority v ?= priority u).
  2:{ destruct (Z.compare_spec (priority v) (priority u)); symmetry;
        [apply Z.compare_eq_iff|apply Z.compare_lt_iff|apply Z.compare_gt_iff]; lia. }
  destruct (priority v ?= priority u); [|done|done].
  rewrite string_compare_app by done. simpl (String.compare ":" ":").
  rewrite string_compare_app by (by rewrite !length_padded_string by lia).
  rewrite compare_padded by lia. destruct (_ ?= _); [|done|done].
  by rewrite string_compare_app.
Qed.

(** The backoff of the Redis backend doubles with every retry, from the configured
    delay, up to thirty doublings or the largest [i64]. *)
Lemma retry_delay_ms_doubles s n :
  0 <= retry_delay s → 1 <= n →
  retry_delay_ms s n
  = Z.min (Z.min (retry_delay s / 10 ^ 6) i64_max * 2 ^ Z.min (n - 1) 30) i64_max.
Proof.
  intros Hd Hn. unfold retry_delay_ms, saturating_mul_i64, saturating_sub.
  pose proof (Z.div_pos (retry_delay s) (10 ^ 6) Hd ltac:(lia)) as Hq.
  replace (Z.max (n - 1) 0) with (n - 1) by lia.
  set (base := Z.min (retry_delay s / 10 ^ 6) i64_max) in *. set (f := 2 ^ Z.min (n - 1) 30).
  assert (0 < f) by (apply Z.pow_pos_nonneg; lia).
  assert (0 <= base) by (unfold base, i64_max; lia).
  unfold i64_min. case_goal_if; zbool; [assert (base = 0) as -> by lia; unfold i64_max; lia|].
  assert (0 <= base * f) by nia. unfold i64_max. lia.
Qed.

Lemma retry_delay_ms_mono s n n' :
  0 <= retry_delay s → 1 <= n <= n' → retry_delay_ms s n <= retry_delay_ms s n'.
Proof.
  intros Hd Hn. rewrite !retry_delay_ms_doubles by lia. apply Z.min_le_compat_r, Z.mul_le_mono_nonneg_l.
  - pose proof (Z.div_pos (retry_delay s) (10 ^ 6) Hd ltac:(lia)). unfold i64_max. lia.
  - apply Z.pow_le_mono_r; lia.
Qed.
End members.
End DocketFormat.
