(* ===== verification/DocketFacts.v ===== *)
(** The docket as a system: clients submit and cancel, workers claim tasks and
    later settle or abandon them, the stale ones are given back, in any order.
    What every reachable state satisfies. *)
From stdpp Require Import base list gmap strings sorting.
From Stdlib Require Import ZArith Lia.
From S2P Require Import Prelude DocketQueue DocketFormat.

Module DocketFacts.
Import Docket DocketFormat.

(** * Lists *)

Lemma position_Some {A} (f : A → bool) l n :
  position f l = Some n →
  ∃ x, l !! n = Some x ∧ f x = true ∧ Forall (λ y, f y = false) (take n l).
Proof.
  revert n. induction l as [|x l IH]; intros n Hp; simpl in *; [done|].
  destruct (f x) eqn:E; simplify_eq/=; [eauto|].
  destruct (position f l) as [m|]; simplify_eq/=. destruct (IH m eq_refl) as (y & ? & ? & ?). eauto.
Qed.

Lemma position_None {A} (f : A → bool) l : position f l = None → Forall (λ y, f y = false) l.
Proof.
  induction l as [|x l IH]; simpl; [done|]. destruct (f x) eqn:E; [done|].
  destruct (position f l); [done|]. auto.
Qed.

Lemma sorted_sublist {A} (R : relation A) k l :
  sublist k l → StronglySorted R l → StronglySorted R k.
Proof.
  induction 1 as [|x k l Hs IH|x k l Hs IH]; intros Hl; [done| |].
  - inversion_clear Hl as [|? ? Hl' Hx]. constructor; [by apply IH|].
    apply Forall_forall. intros y Hy. rewrite Forall_forall in Hx. apply Hx. by eapply elem_of_sublist.
  - inversion_clear Hl. by apply IH.
Qed.

Lemma sorted_impl {A} (R R' : relation A) l :
  (∀ x y, x ∈ l → y ∈ l → R x y → R' x y) → StronglySorted R l → StronglySorted R' l.
Proof.
  intros HR Hl. induction Hl as [|x l Hl IH Hx]; constructor.
  - apply IH. intros y z ? ?. apply HR; by right.
  - rewrite Forall_forall in *. intros y Hy. apply HR; [by left|by right|by apply Hx].
Qed.

Lemma elem_of_delete_other {A} (x y : A) n (l : list A) :
  l !! n = Some y → x ≠ y → x ∈ l → x ∈ delete n l.
Proof.
  revert n. induction l as [|z l IH]; intros n Hn Hxy Hx; [by apply elem_of_nil in Hx|].
  destruct n as [|n]; simplify_eq/=; apply elem_of_cons in Hx as [->|Hx]; [done|done|by left|].
  right. eauto.
Qed.

(** How often a task occurs in a list of claims. *)
Definition count (i : TaskId) (l : list TaskId) : Z := zlen (filter (.= i) l).

Lemma count_cons i j l : count i (j :: l) = (if decide (j = i) then 1 else 0) + count i l.
Proof.
  unfold count. destruct (decide (j = i)) as [->|Hne].
  - rewrite filter_cons_True by done. by rewrite zlen_cons.
  - by rewrite filter_cons_False by done.
Qed.

Lemma count_nonneg i l : 0 <= count i l.
Proof. apply zlen_nonneg. Qed.

Lemma count_not_elem i l : i ∉ l → count i l = 0.
Proof.
  induction l as [|j l IH]; [done|]. intros Hi. rewrite count_cons, IH by set_solver.
  by rewrite decide_False by set_solver.
Qed.

Lemma count_elem i l : i ∈ l → 1 <= count i l.
Proof.
  induction l as [|j l IH]; [set_solver|]. rewrite count_cons. pose proof (count_nonneg i l).
  intros [->|Hi]%elem_of_cons; [rewrite decide_True by done; lia|]. specialize (IH Hi). case_decide; lia.
Qed.

Lemma count_perm i k l : k ≡ₚ l → count i k = count i l.
Proof. intros Hp. unfold count, zlen. by rewrite Hp. Qed.

(** * The invariant *)

Section invariant.
Context {V : Type}.
Abbreviation Task := (DocketTask V).
Implicit Types (m : gmap TaskId Task) (u : Task) (i j : TaskId).

Definition one_if (s1 s2 : TaskStatus) : Z := if decide (s1 = s2) then 1 else 0.

(** The submissions: how many ids were drawn, the tasks that are drawn and not
    recorded yet, those that are recorded and not queued yet, and the ids that were
    queued, in this order. *)
Record Submissions : Type := {
  counter : Z;
  drawn : list Task;
  waiting : list Task;
  queued : list TaskId;
}.

(** Queued before, by the log of the queueings. *)
Definition earlier (log : list TaskId) (a b : TaskId) : Prop :=
  ∃ l1 l2 l3, log = l1 ++ a :: l2 ++ b :: l3.

Lemma earlier_more log i a b : earlier log a b → earlier (log ++ [i]) a b.
Proof.
  intros (l1 & l2 & l3 & ->). exists l1, l2, (l3 ++ [i]). by rewrite <- app_assoc, <- app_comm_cons, <- app_assoc.
Qed.

Lemma earlier_last log i a : a ∈ log → earlier (log ++ [i]) a i.
Proof. intros (l1 & l2 & ->)%list_elem_of_split. exists l1, l2, []. by rewrite <- app_assoc. Qed.

(** An entry [b] of the queue that was never given back stands behind none of
    lower priority, and behind none of its own priority that was queued later
    unless that one was given back. *)
Definition queue_order (log : list TaskId) m (a b : TaskId) : Prop :=
  ∀ ta tb, m !! a = Some ta → m !! b = Some tb → retry_count tb = 0 →
  priority tb <= priority ta ∧
  (priority tb = priority ta → retry_count ta = 0 → earlier log a b).

(** A task [u] under its key [i], with the queue, the claims that were ever made
    and those that are not settled yet. *)
Record task_ok (counter : Z) (queue claims unsettled : list TaskId) i u : Prop := {
  ok_id : id u = i;
  ok_key : ∃ k, i = docket_id k ∧ 0 <= k < counter;
  ok_retries : 0 <= max_retries u < 2 ^ 31;
  ok_count : 0 <= retry_count u;
  ok_queued : status u = Pending → i ∈ queue;
  ok_left : status u = Pending → retry_count u = 0 ∨ retry_count u < max_retries u;
  ok_paid : count i claims + one_if (status u) Pending <= retry_count u + 1;
  ok_attempts : count i claims <= Z.max 1 (max_retries u);
  ok_given_back : retry_count u + count i unsettled + one_if (status u) Running <= 2 * count i claims;
}.

(** A task as it is drawn. *)
Record fresh (n : Z) (t : Task) : Prop := {
  fresh_key : ∃ k, id t = docket_id k ∧ 0 <= k < n;
  fresh_status : status t = Pending;
  fresh_count : retry_count t = 0;
  fresh_retries : 0 <= max_retries t < 2 ^ 31;
}.

Record backend_ok (g : Submissions) (claims unsettled : list TaskId) (b : MemoryDocketBackend V) : Prop := {
  ok_counter : 0 <= counter g < 2 ^ 64;
  ok_tasks i u : tasks b !! i = Some u → task_ok (counter g) ((id <$> waiting g) ++ pending b) claims unsettled i u;
  ok_drawn t : t ∈ drawn g → fresh (counter g) t ∧ tasks b !! id t = None;
  ok_drawn_once : NoDup (id <$> drawn g);
  ok_waiting t : t ∈ waiting g → id t ∉ queued g ∧ ∃ u, tasks b !! id t = Some u ∧ priority u = priority t;
  ok_waiting_once : NoDup (id <$> waiting g);
  ok_log i : i ∈ queued g → is_Some (tasks b !! i);
  ok_log_once : NoDup (queued g);
  ok_pending i : i ∈ pending b → i ∈ queued g;
  ok_claims i : i ∈ claims → i ∈ queued g;
  ok_unsettled i : i ∈ unsettled → i ∈ claims;
  ok_order : StronglySorted (queue_order (queued g) (tasks b)) (pending b);
}.

Lemma pending_task g claims unsettled b i :
  backend_ok g claims unsettled b → i ∈ pending b → is_Some (tasks b !! i).
Proof. intros Hb Hi. by apply (ok_log _ _ _ _ Hb), (ok_pending _ _ _ _ Hb). Qed.

Lemma claimed_task g claims unsettled b i :
  backend_ok g claims unsettled b → i ∈ claims → is_Some (tasks b !! i).
Proof. intros Hb Hi. by apply (ok_log _ _ _ _ Hb), (ok_claims _ _ _ _ Hb). Qed.

(** No claim is made of an id that is not queued yet. *)
Lemma unqueued_unclaimed g claims unsettled b i :
  backend_ok g claims unsettled b → i ∉ queued g → count i claims = 0 ∧ count i unsettled = 0 ∧ i ∉ pending b.
Proof.
  intros Hb Hi. assert (Hc : i ∉ claims) by (intros Hc; by apply Hi, (ok_claims _ _ _ _ Hb)).
  split_and!; [by apply count_not_elem| |].
  - apply count_not_elem. intros Hu. by apply Hc, (ok_unsettled _ _ _ _ Hb).
  - intros Hq. by apply Hi, (ok_pending _ _ _ _ Hb).
Qed.

(** Replacing one task. *)
Lemma queue_order_insert log m i u u' a b :
  m !! i = Some u → priority u' = priority u → retry_count u <= retry_count u' → 0 <= retry_count u →
  queue_order log m a b → queue_order log (<[i := u']> m) a b.
Proof.
  intros Hi Hp Hr H0 HR ta tb.
  rewrite !lookup_insert_Some. intros [[-> <-]|[Hia Ha]] [[-> <-]|[Hib Hb]] Hz.
  - destruct (HR u u) as [? HR']; [done..|lia|]. split; [lia|]. intros. apply HR'; lia.
  - destruct (HR u tb) as [? HR']; [done..|]. split; [lia|]. intros. apply HR'; lia.
  - destruct (HR ta u) as [? HR']; [done|done|lia|]. split; [lia|]. intros. apply HR'; lia.
  - by apply HR.
Qed.

Lemma task_ok_other counter counter' queue queue' claims claims' unsettled unsettled' i u :
  task_ok counter queue claims unsettled i u →
  counter <= counter' → (i ∈ queue → i ∈ queue') →
  count i claims' = count i claims → count i unsettled' <= count i unsettled →
  task_ok counter' queue' claims' unsettled' i u.
Proof.
  intros [? (k & ? & ?) ? ? Hq ? ? ? ?] Hc Hqq Hcl Hun. split; rewrite ?Hcl; auto; [|lia].
  exists k. split; [done|lia].
Qed.

(** A step that replaces one task and changes the queue and the claims. *)
Lemma backend_ok_update g claims claims' unsettled unsettled' b b' i u u' :
  backend_ok g claims unsettled b →
  tasks b !! i = Some u → tasks b' = <[i := u']> (tasks b) →
  priority u' = priority u → retry_count u <= retry_count u' →
  (sublist (pending b') (pending b) ∨ pending b' = pending b ++ [i] ∧ 0 < retry_count u') →
  (∀ j, j ≠ i → j ∈ pending b → j ∈ pending b') →
  (∀ j, j ≠ i → count j claims' = count j claims ∧ count j unsettled' <= count j unsettled) →
  (∀ j, j ∈ pending b' ∨ j ∈ claims' → j ∈ queued g) → (∀ j, j ∈ unsettled' → j ∈ claims') →
  task_ok (counter g) ((id <$> waiting g) ++ pending b') claims' unsettled' i u' →
  backend_ok g claims' unsettled' b'.
Proof.
  intros Hb Hi Ht Hp Hr Hq Hqo Hco Hlog Hun Hok. destruct (ok_tasks _ _ _ _ Hb i u Hi) as [? ? ? H0 _ _ _ _ _].
  split; [apply (ok_counter _ _ _ _ Hb)| | |apply (ok_drawn_once _ _ _ _ Hb)| |apply (ok_waiting_once _ _ _ _ Hb)| |
    apply (ok_log_once _ _ _ _ Hb)|auto|auto|done|].
  - intros j w. rewrite Ht, lookup_insert_Some. intros [[<- <-]|[Hne Hj]]; [done|].
    destruct (Hco j) as [? ?]; [done|].
    eapply task_ok_other; [by apply (ok_tasks _ _ _ _ Hb)|done| |done|done]. rewrite !elem_of_app. naive_solver.
  - intros t [Hf Hn]%(ok_drawn _ _ _ _ Hb). split; [done|]. rewrite Ht, lookup_insert_ne; [done|]. intros ->. by rewrite Hi in Hn.
  - intros t [Hf (w & Hw & Hpw)]%(ok_waiting _ _ _ _ Hb). split; [done|]. rewrite Ht.
    destruct (decide (i = id t)) as [Heq|Hne]; [|rewrite lookup_insert_ne by done; eauto].
    rewrite <- Heq in *. rewrite lookup_insert_eq. exists u'. split; [done|]. rewrite Hi in Hw. congruence.
  - intros j Hj. rewrite Ht. apply lookup_insert_is_Some'. right. by apply (ok_log _ _ _ _ Hb).
  - assert (Hs : StronglySorted (queue_order (queued g) (tasks b')) (pending b)).
    { eapply sorted_impl; [|apply (ok_order _ _ _ _ Hb)]. intros x y _ _. rewrite Ht.
      by eapply queue_order_insert. }
    destruct Hq as [Hq|[-> Hpos]]; [by eapply sorted_sublist|].
    apply StronglySorted_app_2; [|done|by repeat constructor].
    intros x y _ ->%list_elem_of_singleton ta tb _. rewrite Ht, lookup_insert_eq. intros [= <-] ?. lia.
Qed.
End invariant.
Arguments Submissions : clear implicits.
End DocketFacts.
