(* ===== verification/DocketSystem.v ===== *)
(** What the operations of the docket do from a state that satisfies the
    invariant, and that they keep it. *)
From stdpp Require Import base list gmap strings sorting.
From Stdlib Require Import ZArith Lia.
From S2P Require Import Prelude DocketQueue DocketFormat DocketFacts.

Module DocketSystem.
Import Docket DocketFormat DocketFacts.

Section operations.
Context {V : Type} `{Chrono} {order : MapOrder TaskId (DocketTask V)}.
Abbreviation Task := (DocketTask V).
Abbreviation B := (MemoryDocketBackend V).
Implicit Types (m : gmap TaskId Task) (u : Task) (i j : TaskId) (b : B) (claims unsettled : list TaskId).

Lemma one_if_bounds s1 s2 : 0 <= one_if s1 s2 <= 1.
Proof. unfold one_if. case_decide; lia. Qed.

(** * Submitting *)

Lemma queue_task_run i prio b :
  ∃ q1 q2, pending b = q1 ++ q2 ∧
    queue_task i prio b = (Ok tt, {| tasks := tasks b; pending := q1 ++ i :: q2; settings := settings b |}) ∧
    Forall (λ j, yields_to (tasks b) prio j = false) q1 ∧
    match q2 with j :: _ => yields_to (tasks b) prio j = true | [] => True end.
Proof.
  set (f := yields_to (tasks b) prio).
  destruct (position f (pending b)) as [n|] eqn:E.
  - destruct (position_Some _ _ _ E) as (x & Hx & Hf & Hall).
    exists (take n (pending b)), (drop n (pending b)). split_and!; [by rewrite take_drop| |done|].
    + unfold queue_task, modify, map_pending, insert_at_index. simpl. fold f. by rewrite E.
    + by rewrite (drop_S _ x) by done.
  - exists (pending b), []. split_and!; [by rewrite app_nil_r| |by apply position_None|done].
    unfold queue_task, modify, map_pending, insert_at_index. simpl. fold f. rewrite E. simpl.
    by rewrite firstn_all, drop_all.
Qed.

(** Drawing a task: its id is new. *)
Definition draw (t : Task) (g : Submissions V) : Submissions V :=
  {| counter := counter g + 1; drawn := t :: drawn g; waiting := waiting g; queued := queued g |}.

Lemma task_key g claims unsettled b i u :
  backend_ok g claims unsettled b → tasks b !! i = Some u → ∃ k, i = docket_id k ∧ 0 <= k < counter g.
Proof. intros Hb Hi. apply (ok_key _ _ _ _ _ _ (ok_tasks _ _ _ _ Hb i u Hi)). Qed.

Lemma draw_ok g claims unsettled b now ty p prio retries :
  backend_ok g claims unsettled b → counter g + 1 < 2 ^ 64 → 0 <= retries < 2 ^ 31 →
  backend_ok (draw (DocketTask_new now (docket_id (counter g)) ty p prio retries) g) claims unsettled b.
Proof.
  intros Hb Hc Hret. pose proof (ok_counter _ _ _ _ Hb) as Hc0.
  set (t := DocketTask_new _ _ _ _ _ _). pose proof Hb as [_ Ht Hd Hd1 Hw Hw1 Hl Hl1 Hp Hcl Hu Ho]. split; simpl; try done.
  - lia.
  - intros i u Hi. eapply task_ok_other; [by apply Ht|lia|done|done|done].
  - intros t' [->|Hin]%elem_of_cons.
    + split; [split; simpl; try done; exists (counter g); split; [done|lia]|]. simpl.
      destruct (tasks b !! docket_id (counter g)) as [w|] eqn:E; [|done].
      destruct (task_key _ _ _ _ _ _ Hb E) as (k & Hk & ?). apply docket_id_inj in Hk; lia.
    + destruct (Hd t' Hin) as [[(k & Hk & ?) ? ? ?] ?]. split; [|done]. split; try done. exists k. split; [done|lia].
  - apply NoDup_cons. split; [|done]. intros (t' & Heq & Hin)%list_elem_of_fmap.
    destruct (Hd t' Hin) as [[(k & Hk & ?) _ _ _] _]. simpl in Heq. rewrite Hk in Heq. apply docket_id_inj in Heq; lia.
Qed.

(** The first critical section of a submission records the task. *)
Definition record (t : Task) (rest : list Task) (g : Submissions V) : Submissions V :=
  {| counter := counter g; drawn := rest; waiting := t :: waiting g; queued := queued g |}.

Lemma record_ok g claims unsettled b t rest :
  backend_ok g claims unsettled b → drawn g ≡ₚ t :: rest →
  record_task t b = (Ok tt, map_tasks <[id t := t]> b) ∧
  backend_ok (record t rest g) claims unsettled (map_tasks <[id t := t]> b).
Proof.
  intros Hb Hperm. split; [done|]. pose proof Hb as [Hc Ht Hd Hd1 Hw Hw1 Hl Hl1 Hp Hcl Hu Ho].
  destruct (Hd t) as [[Hkey Hst Hz Hret] Hnew]; [rewrite Hperm; by left|].
  assert (Hnq : id t ∉ queued g) by (intros Hq; apply Hl in Hq as [? Hq]; congruence).
  destruct (unqueued_unclaimed _ _ _ _ _ Hb Hnq) as (Hcc & Hcu & Hnp).
  assert (Hother : ∀ j u, tasks b !! j = Some u → <[id t := t]> (tasks b) !! j = Some u).
  { intros j u Hj. rewrite lookup_insert_ne; [done|]. intros <-. congruence. }
  rewrite Hperm, fmap_cons in Hd1. apply NoDup_cons in Hd1 as [Hd1 Hd2].
  split; simpl; try done.
  - intros j u. rewrite lookup_insert_Some. intros [[<- <-]|[Hne Hj]].
    + split; rewrite ?Hcc, ?Hcu, ?Hst, ?Hz; try done; [by left|by left|].
      change (one_if Pending Running) with 0. lia.
    + eapply task_ok_other; [by apply Ht|done| |done|done]. set_solver.
  - intros t' Hin. destruct (Hd t') as [Hf Hn]; [rewrite Hperm; by right|]. split; [done|].
    rewrite lookup_insert_ne; [done|]. intros Heq. apply Hd1. rewrite Heq. apply list_elem_of_fmap. by exists t'.
  - intros t' [->|Hin]%elem_of_cons; [split; [done|]; exists t; by rewrite lookup_insert_eq|].
    destruct (Hw t' Hin) as [? (u & Hu' & Hpu)]. split; [done|]. exists u. split; [by apply Hother|done].
  - apply NoDup_cons. split; [|done]. intros (t' & Heq & Hin)%list_elem_of_fmap.
    destruct (Hw t' Hin) as [_ (u & Hu' & _)]. congruence.
  - intros j [u Hj]%Hl. exists u. by apply Hother.
  - eapply sorted_impl; [|exact Ho]. intros x y Hx Hy HR ta tb.
    destruct (pending_task _ _ _ _ _ Hb Hx) as [ux Hux], (pending_task _ _ _ _ _ Hb Hy) as [uy Huy].
    rewrite (Hother _ _ Hux), (Hother _ _ Huy), <- Hux, <- Huy. apply HR.
Qed.

(** A task goes behind those of its priority or higher, so the queue stays in
    order. *)
Lemma queue_task_order log m i u q1 q2 :
  m !! i = Some u → (∀ j, j ∈ q1 ++ q2 → j ∈ log ∧ is_Some (m !! j)) →
  Forall (λ j, yields_to m (priority u) j = false) q1 →
  match q2 with j :: _ => yields_to m (priority u) j = true | [] => True end →
  StronglySorted (queue_order log m) (q1 ++ q2) → StronglySorted (queue_order (log ++ [i]) m) (q1 ++ i :: q2).
Proof.
  intros Hi Hall Hq1 Hq2 (Hx & Hs1 & Hs2)%StronglySorted_app.
  assert (Hm : ∀ x y, queue_order log m x y → queue_order (log ++ [i]) m x y).
  { intros x y HR ta tb Ha Hb Hz. destruct (HR ta tb Ha Hb Hz) as [? HR']. split; [done|]. intros. by apply earlier_more, HR'. }
  apply StronglySorted_app. split_and!.
  - intros x y Hxq [->|Hy]%elem_of_cons; [|by apply Hm, Hx].
    intros ta tb Ha. rewrite Hi. intros [= <-] _.
    rewrite Forall_forall in Hq1. specialize (Hq1 x Hxq). unfold yields_to in Hq1. rewrite Ha in Hq1. zbool.
    split; [lia|]. intros _ _. apply earlier_last, Hall. set_solver.
  - eapply sorted_impl; [|exact Hs1]. auto.
  - constructor; [eapply sorted_impl; [|exact Hs2]; auto|].
    apply Forall_forall. intros y Hy ta tb. rewrite Hi. intros [= <-] Hty Hz.
    cut (priority tb < priority u); [intros; split; lia|].
    destruct q2 as [|h q2]; [by apply elem_of_nil in Hy|]. unfold yields_to in Hq2.
    destruct (Hall h) as [_ [th Hth]]; [set_solver|]. rewrite Hth in Hq2. zbool.
    apply elem_of_cons in Hy as [->|Hy]; [congruence|]. inversion_clear Hs2 as [|? ? _ Hh]. rewrite Forall_forall in Hh.
    destruct (Hh y Hy th tb) as [? _]; [done..|lia].
Qed.

(** The second critical section of a submission queues the task. *)
Definition queue (t : Task) (rest : list Task) (g : Submissions V) : Submissions V :=
  {| counter := counter g; drawn := drawn g; waiting := rest; queued := queued g ++ [id t] |}.

Lemma queue_ok g claims unsettled b t rest :
  backend_ok g claims unsettled b → waiting g ≡ₚ t :: rest →
  ∃ b', queue_task (id t) (priority t) b = (Ok tt, b') ∧ tasks b' = tasks b ∧ settings b' = settings b ∧
    backend_ok (queue t rest g) claims unsettled b'.
Proof.
  intros Hb Hperm. pose proof Hb as [Hc Ht Hd Hd1 Hw Hw1 Hl Hl1 Hp Hcl Hu Ho].
  destruct (Hw t) as [Hnl (u & Hi & Hpu)]; [rewrite Hperm; by left|].
  destruct (queue_task_run (id t) (priority t) b) as (q1 & q2 & Hq & Hrun & Hq1 & Hq2).
  eexists. split; [exact Hrun|]. split_and!; [done..|].
  rewrite Hperm, fmap_cons in Hw1. apply NoDup_cons in Hw1 as [Hw1 Hw2].
  assert (Hids : ∀ j, j ∈ (id <$> waiting g) → j = id t ∨ j ∈ (id <$> rest)).
  { intros j. rewrite Hperm, fmap_cons. by intros ?%elem_of_cons. }
  split; simpl; try done.
  - intros j w Hj. eapply task_ok_other; [by apply Ht|done| |done|done]. rewrite Hq. intros Hin.
    apply elem_of_app in Hin as [[->|?]%Hids|?]; set_solver.
  - intros t' Hin. destruct (Hw t') as [Hn Hs]; [rewrite Hperm; by right|]. split; [|done].
    intros [?|Heq%list_elem_of_singleton]%elem_of_app; [done|]. apply Hw1. rewrite <- Heq. apply list_elem_of_fmap. by exists t'.
  - intros j [?| ->%list_elem_of_singleton]%elem_of_app; [by apply Hl|by exists u].
  - apply NoDup_app. split_and!; [done| |apply NoDup_singleton]. by intros j Hj ->%list_elem_of_singleton.
  - intros j Hj. rewrite elem_of_app, list_elem_of_singleton.
    destruct (decide (j = id t)) as [->|Hne]; [by right|]. left. apply Hp. rewrite Hq. set_solver.
  - intros j Hj. apply elem_of_app. left. by apply Hcl.
  - eapply queue_task_order; [exact Hi| |rewrite Hpu; exact Hq1|rewrite Hpu; exact Hq2|by rewrite <- Hq].
    intros j Hj. rewrite <- Hq in Hj. split; [by apply Hp|by eapply pending_task].
Qed.

(** * Claiming *)

Definition claimed (now : Z) (u : Task) : Task :=
  with_claimed_at (Some (to_rfc3339 now)) (with_status Running u).

Lemma dequeue_run g claims unsettled b now types :
  backend_ok g claims unsettled b →
  (dequeue now types b = (Ok None, b) ∧
   ∀ i u, tasks b !! i = Some u → i ∉ (id <$> waiting g) → status u = Pending → task_type u ∈ types → False) ∨
  (∃ pos i u, pending b !! pos = Some i ∧ tasks b !! i = Some u ∧
    status u = Pending ∧ task_type u ∈ types ∧
    dequeue now types b = (Ok (Some (claimed now u)),
      {| tasks := <[i := claimed now u]> (tasks b); pending := delete pos (pending b); settings := settings b |}) ∧
    Forall (λ j, claimable (tasks b) types j = false) (take pos (pending b))).
Proof.
  intros Hb. unfold dequeue, bind, get. destruct (position _ (pending b)) as [pos|] eqn:E.
  - right. destruct (position_Some _ _ _ E) as (i & Hi & Hf & Hall). rewrite Hi.
    unfold claimable in Hf. destruct (tasks b !! i) as [u|] eqn:Hu; [|done].
    apply andb_true_iff in Hf as [?%bool_decide_eq_true ?%bool_decide_eq_true].
    by exists pos, i, u.
  - left. split; [done|]. intros i u Hi Hw Hs Hty. apply position_None in E. rewrite Forall_forall in E.
    specialize (E i). unfold claimable in E. rewrite Hi in E. rewrite !bool_decide_true in E by done.
    pose proof (ok_queued _ _ _ _ _ _ (ok_tasks _ _ _ _ Hb i u Hi) Hs) as [?|?]%elem_of_app; [done|]. by discriminate E.
Qed.

Lemma dequeue_ok g claims unsettled b now pos i u :
  backend_ok g claims unsettled b →
  pending b !! pos = Some i → tasks b !! i = Some u → status u = Pending →
  backend_ok g (i :: claims) (i :: unsettled)
    {| tasks := <[i := claimed now u]> (tasks b); pending := delete pos (pending b); settings := settings b |}.
Proof.
  intros Hb Hpos Hi Hs. destruct (ok_tasks _ _ _ _ Hb i u Hi) as [? ? ? ? Hq Hl Hpd Ha Hg].
  eapply (backend_ok_update _ _ _ _ _ _ _ i u); [done|done|done|done|done| | | | | |]; simpl.
  - left. apply sublist_delete.
  - intros j Hj. by eapply elem_of_delete_other.
  - intros j Hj. rewrite !count_cons, decide_False by done. lia.
  - assert (Hiq : i ∈ queued g) by (apply (ok_pending _ _ _ _ Hb); by eapply list_elem_of_lookup_2).
    intros j [Hj|[->|Hj]%elem_of_cons]; [|done|by apply (ok_claims _ _ _ _ Hb)].
    apply (ok_pending _ _ _ _ Hb). eapply elem_of_sublist; [exact Hj|apply sublist_delete].
  - intros j. pose proof (ok_unsettled _ _ _ _ Hb j). set_solver.
  - unfold one_if in *. rewrite Hs in *. simpl in *.
    split; simpl; try done; rewrite ?count_cons, ?(decide_True (P := i = i)) by done;
      change (one_if Running Pending) with 0; change (one_if Running Running) with 1; try lia.
    destruct (Hl eq_refl); lia.
Qed.

(** * Settling *)

(** What [nack] and [requeue_stale] make of a task whose attempt failed. *)
Definition after_failure (e : option string) (u : Task) : Task :=
  let u := with_error e (with_retry_count (retry_count u + 1) u) in
  if max_retries u <=? retry_count u then with_status Failed u
  else with_claimed_at None (with_status Pending u).

Definition retried (u : Task) : bool := negb (max_retries u <=? retry_count u + 1).

Lemma ack_run i u r b :
  tasks b !! i = Some u →
  ack i r b = (Ok tt, {| tasks := <[i := with_result (Some r) (with_status Completed u)]> (tasks b);
                         pending := pending b; settings := settings b |}).
Proof. intros Hi. unfold ack, bind, get. by rewrite Hi. Qed.

Lemma nack_run i u e b :
  tasks b !! i = Some u → retry_count u + 1 <= u32_max →
  nack i e b = (Ok tt, {| tasks := <[i := after_failure (Some e) u]> (tasks b);
                          pending := if retried u then pending b ++ [i] else pending b;
                          settings := settings b |}).
Proof.
  intros Hi Hr. unfold nack, bind, get, bump, after_failure, retried. rewrite Hi. simpl.
  rewrite (proj2 (Z.leb_le _ _) Hr). simpl. by destruct (max_retries u <=? retry_count u + 1).
Qed.

(** An attempt is over: its task is given back, failed or completed. *)
Lemma settled_ok g claims unsettled unsettled' b b' i u u' :
  backend_ok g claims unsettled b → tasks b !! i = Some u →
  tasks b' = <[i := u']> (tasks b) →
  priority u' = priority u → id u' = id u → max_retries u' = max_retries u →
  retry_count u <= retry_count u' → status u' ≠ Running →
  retry_count u' + count i unsettled' <= retry_count u + count i unsettled + one_if (status u) Running →
  (status u' = Pending → retry_count u < retry_count u' < max_retries u') →
  (sublist (pending b') (pending b) ∧ status u' ≠ Pending ∨ pending b' = pending b ++ [i] ∧ 0 < retry_count u') →
  (∀ j, j ≠ i → j ∈ pending b → j ∈ pending b') →
  (∀ j, j ≠ i → count j unsettled' <= count j unsettled) → (∀ j, j ∈ unsettled' → j ∈ unsettled) →
  backend_ok g claims unsettled' b'.
Proof.
  intros Hb Hi Ht Hp Hid Hmx Hr Hnr Hun Hpe Hq Hqo Hco Hsub.
  destruct (ok_tasks _ _ _ _ Hb i u Hi) as [Hii ? ? ? Hqd Hl Hpd Ha Hg].
  eapply (backend_ok_update _ _ _ _ _ _ _ i u u'); [done|done|done|done|done| |done|auto| | |].
  - destruct Hq as [[? _]|?]; auto.
  - intros j [Hj|Hj]; [|by apply (ok_claims _ _ _ _ Hb)].
    destruct Hq as [[Hq _]|[Hq Hpos]]; [apply (ok_pending _ _ _ _ Hb); by eapply elem_of_sublist|].
    rewrite Hq in Hj. apply elem_of_app in Hj as [?| ->%list_elem_of_singleton]; [by apply (ok_pending _ _ _ _ Hb)|].
    apply (ok_claims _ _ _ _ Hb). destruct (decide (i ∈ claims)) as [|Hno]; [done|]. exfalso.
    apply count_not_elem in Hno. pose proof (count_nonneg i unsettled'). lia.
  - intros j Hj. by apply (ok_unsettled _ _ _ _ Hb), Hsub.
  - pose proof (one_if_bounds (status u) Pending). pose proof (one_if_bounds (status u) Running).
    split; rewrite ?Hid, ?Hmx; try done; try lia.
    + intros Hs. destruct Hq as [[_ Hq]|[-> _]]; [done|set_solver].
    + intros Hs. specialize (Hpe Hs). lia.
    + unfold one_if at 1. case_decide as Hs; [specialize (Hpe Hs)|]; lia.
    + unfold one_if. rewrite decide_False by done. lia.
Qed.

(** What a failed attempt does to a task, whoever reports it. *)
Definition failed_from (u u' : Task) : Prop :=
  priority u' = priority u ∧ id u' = id u ∧ max_retries u' = max_retries u ∧
  retry_count u' = retry_count u + 1 ∧ status u' = if retried u then Pending else Failed.

Lemma after_failure_from e u : failed_from u (after_failure e u).
Proof.
  unfold failed_from, after_failure, retried. simpl. by destruct (max_retries u <=? retry_count u + 1).
Qed.

(** A failed attempt by a claim that is unsettled, or of a running task. *)
Lemma failure_ok g claims unsettled unsettled' b b' i u u' :
  backend_ok g claims unsettled b → tasks b !! i = Some u → failed_from u u' →
  tasks b' = <[i := u']> (tasks b) →
  pending b' = (if retried u then pending b ++ [i] else pending b) →
  count i unsettled' + 1 <= count i unsettled + one_if (status u) Running →
  (∀ j, j ≠ i → count j unsettled' <= count j unsettled) → (∀ j, j ∈ unsettled' → j ∈ unsettled) →
  backend_ok g claims unsettled' b'.
Proof.
  intros Hb Hi (Hp & Hid & Hmx & Hr & Hs) Ht Hq Hun Hco Hsub.
  pose proof (ok_count _ _ _ _ _ _ (ok_tasks _ _ _ _ Hb i u Hi)).
  eapply (settled_ok _ _ _ _ _ _ _ u); [done..| | | | | | |done|done].
  - lia.
  - rewrite Hs. by destruct (retried u).
  - lia.
  - rewrite Hs, Hmx, Hr. unfold retried. destruct (_ <=? _) eqn:E; [done|]. zbool. simpl. lia.
  - rewrite Hq, Hs. destruct (retried u); [right; split; [done|lia]|left; done].
  - intros j Hj. rewrite Hq. destruct (retried u); set_solver.
Qed.

(** The count cannot overflow before the attempts are used up. *)
Lemma failure_bound g claims unsettled b i u :
  backend_ok g claims unsettled b → tasks b !! i = Some u →
  1 <= count i unsettled + one_if (status u) Running → retry_count u + 1 <= u32_max.
Proof.
  intros Hb Hi Hc. destruct (ok_tasks _ _ _ _ Hb i u Hi). unfold u32_max. lia.
Qed.

(** * Cancelling *)

Lemma cancel_run i reason b :
  cancel i reason b =
  match tasks b !! i with
  | None => (Err (NotFound i), b)
  | Some u =>
      if is_terminal (status u)
      then (Err (Backend ("Cannot cancel task in terminal state: " +:+ TaskStatus_debug (status u))), b)
      else (Ok tt, {| tasks := <[i := with_error reason (with_status Cancelled u)]> (tasks b);
                      pending := filter (λ j, j ≠ i) (pending b); settings := settings b |})
  end.
Proof.
  unfold cancel, bind, get. destruct (tasks b !! i) as [u|]; [simpl|done]. by destruct (is_terminal _).
Qed.

Lemma cancel_ok g claims unsettled b i reason o b' :
  backend_ok g claims unsettled b → cancel i reason b = (o, b') →
  backend_ok g claims unsettled b'.
Proof.
  intros Hb. rewrite cancel_run. destruct (tasks b !! i) as [u|] eqn:Hi; [|congruence].
  destruct (is_terminal _); [congruence|]. intros [= <- <-]. pose proof (one_if_bounds (status u) Running).
  eapply (settled_ok _ _ _ _ _ _ i u); [done|done|done|done|done|done|done|done|simpl; lia|done| | |lia|done]; simpl.
  - left. split; [apply sublist_filter|done].
  - intros j Hj Hq. by apply list_elem_of_filter.
Qed.

(** * Giving back *)

Definition expired (u : Task) : Task :=
  let u := with_retry_count (retry_count u + 1) (with_claimed_at None (with_status Pending u)) in
  if max_retries u <=? retry_count u
  then with_error (Some "Exceeded visibility timeout"%string) (with_status Failed u) else u.

Lemma expired_from u : failed_from u (expired u).
Proof.
  unfold failed_from, expired, retried. simpl. by destruct (max_retries u <=? retry_count u + 1).
Qed.

(** What [requeue_stale] leaves of a task. *)
Definition requeued (now timeout : Z) (u : Task) : Task := if is_stale now timeout u then expired u else u.

(** The tasks that it puts back in the queue. *)
Definition given_back (now timeout : Z) (l : list (TaskId * Task)) : list (TaskId * Task) :=
  filter (λ kv, is_stale now timeout kv.2 && retried kv.2 = true) l.

Lemma given_back_one now timeout key u :
  given_back now timeout [(key, u)] = if is_stale now timeout u && retried u then [(key, u)] else [].
Proof.
  unfold given_back. destruct (is_stale now timeout u && retried u) eqn:E.
  - by rewrite filter_cons_True.
  - rewrite filter_cons_False; [done|]. cbn [snd]. by rewrite E.
Qed.

Lemma requeue_step g claims unsettled b now timeout key u todo n :
  backend_ok g claims unsettled b → tasks b !! key = Some u →
  ∃ b', requeue_loop now timeout ((key, u) :: todo) n b
      = requeue_loop now timeout todo (n + zlen (given_back now timeout [(key, u)])) b' ∧
    backend_ok g claims unsettled b' ∧
    tasks b' = <[key := requeued now timeout u]> (tasks b) ∧
    pending b' = pending b ++ (given_back now timeout [(key, u)]).*1 ∧ settings b' = settings b.
Proof.
  intros Hb Hk. rewrite given_back_one. unfold requeued. cbn [requeue_loop].
  destruct (is_stale now timeout u) eqn:Hst; cbn [negb andb]; cycle 1.
  { exists b. rewrite insert_id by done. simpl. by rewrite app_nil_r, Z.add_0_r. }
  assert (Hone : one_if (status u) Running = 1).
  { unfold is_stale in Hst. by apply andb_true_iff in Hst as [->%bool_decide_eq_true _]. }
  assert (Hle : retry_count u + 1 <= u32_max).
  { eapply failure_bound; [done..|]. pose proof (count_nonneg key unsettled). lia. }
  pose proof (ok_id _ _ _ _ _ _ (ok_tasks _ _ _ _ Hb key u Hk)) as Hid.
  exists {| tasks := <[key := expired u]> (tasks b);
            pending := if retried u then pending b ++ [key] else pending b; settings := settings b |}.
  split_and!; [| |done| |done].
  - unfold bump, bind. cbn [retry_count with_claimed_at with_status]. rewrite (proj2 (Z.leb_le _ _) Hle).
    unfold ret. cbn. rewrite Hid. unfold expired, retried. cbn.
    destruct (max_retries u <=? retry_count u + 1) eqn:E; cbn; [by rewrite Z.add_0_r|done].
  - eapply (failure_ok _ _ _ _ _ _ key u (expired u)); [done|done|apply expired_from|done|done|lia|lia|done].
  - cbn [pending]. destruct (retried u); [done|by rewrite app_nil_r].
Qed.

Lemma requeue_loop_run g claims unsettled now timeout todo : ∀ b n,
  backend_ok g claims unsettled b → NoDup todo.*1 →
  (∀ k u, (k, u) ∈ todo → tasks b !! k = Some u) →
  ∃ b', requeue_loop now timeout todo n b = (Ok (n + zlen (given_back now timeout todo)), b') ∧
    backend_ok g claims unsettled b' ∧
    tasks b' = list_to_map (prod_map (λ k, k) (requeued now timeout) <$> todo) ∪ tasks b ∧
    pending b' = pending b ++ (given_back now timeout todo).*1 ∧ settings b' = settings b.
Proof.
  induction todo as [|[key u] todo IH]; intros b n Hb Hnd Htodo.
  { exists b. unfold given_back. simpl. rewrite Z.add_0_r, app_nil_r, (left_id_L ∅ (∪)). done. }
  destruct (requeue_step g claims unsettled b now timeout key u todo n) as (b1 & -> & Hb1 & Ht1 & Hp1 & Hs1);
    [done|apply Htodo; by left|].
  inversion_clear Hnd as [|? ? Hkey Hnd'].
  destruct (IH b1 (n + zlen (given_back now timeout [(key, u)])) Hb1 Hnd') as (b' & -> & Hb' & Ht' & Hp' & Hs').
  { intros k w Hkw. rewrite Ht1, lookup_insert_ne; [apply Htodo; by right|]. intros ->. apply Hkey.
    apply list_elem_of_fmap. by exists (k, w). }
  assert (Hgb : given_back now timeout ((key, u) :: todo)
              = given_back now timeout [(key, u)] ++ given_back now timeout todo)
    by (unfold given_back; by rewrite <- filter_app).
  exists b'. rewrite Hgb. split_and!; [|done| | |congruence].
  - by rewrite zlen_app, Z.add_assoc.
  - rewrite Ht', Ht1. simpl. apply map_eq. intros k. rewrite !lookup_union.
    destruct (decide (key = k)) as [<-|Hne]; [|by rewrite !lookup_insert_ne by done].
    rewrite !lookup_insert_eq. rewrite (proj1 (not_elem_of_list_to_map _ _)); [by destruct (tasks b !! key)|].
    rewrite <- list_fmap_compose. exact Hkey.
  - by rewrite Hp', Hp1, fmap_app, app_assoc.
Qed.

Lemma requeue_stale_run g claims unsettled now b :
  backend_ok g claims unsettled b →
  let timeout := stale_after (settings b) in
  let back := given_back now timeout (map_order (tasks b)) in
  ∃ b', requeue_stale now b = (Ok (zlen back), b') ∧
    backend_ok g claims unsettled b' ∧
    tasks b' = requeued now timeout <$> tasks b ∧
    pending b' = pending b ++ back.*1 ∧ settings b' = settings b.
Proof.
  intros Hb timeout back.
  destruct (requeue_loop_run g claims unsettled now timeout (map_order (tasks b)) b 0)
    as (b' & Hrun & Hb' & Ht & Hp & Hs); [done| |intros; by apply elem_of_map_order|].
  { rewrite map_order_perm. apply NoDup_fst_map_to_list. }
  exists b'. split_and!; [exact Hrun|done| |done|done].
  rewrite Ht. apply map_eq. intros k. rewrite lookup_union, lookup_fmap.
  assert (Hperm : (prod_map (λ k, k) (requeued now timeout) <$> map_order (tasks b))
                  ≡ₚ map_to_list (requeued now timeout <$> tasks b)).
  { rewrite map_order_perm. by rewrite map_to_list_fmap. }
  assert (Hnd : NoDup (prod_map (λ k, k) (requeued now timeout) <$> map_order (tasks b)).*1)
    by (rewrite Hperm; apply NoDup_fst_map_to_list).
  rewrite (list_to_map_proper _ _ Hnd Hperm), list_to_map_to_list, lookup_fmap.
  by destruct (tasks b !! k).
Qed.

(** * Statistics *)

(** The statistics count each status, whatever the order of the map. *)
Lemma count_status_fold l q :
  let r := foldl (count_status (V := V)) q l in
  let n s := zlen (filter (λ u, status u = s) l) in
  stat_pending r = stat_pending q + n Pending ∧ stat_in_progress r = stat_in_progress q + n Running ∧
  stat_completed r = stat_completed q + n Completed ∧ stat_failed r = stat_failed q + n Failed ∧
  stat_cancelled r = stat_cancelled q + n Cancelled.
Proof.
  revert q. induction l as [|u l IH]; intros q; [unfold zlen; simpl; lia|]. cbn [foldl].
  destruct (IH (count_status q u)) as (-> & -> & -> & -> & ->). unfold count_status.
  destruct (status u) eqn:E; cbn [stat_pending stat_in_progress stat_completed stat_failed stat_cancelled];
    repeat first [rewrite filter_cons_True by done | rewrite filter_cons_False by congruence];
    rewrite ?zlen_cons; lia.
Qed.

Lemma stats_correct b :
  let n s := zlen (filter (λ u, status u = s) (map_to_list (tasks b)).*2) in
  stats b = (Ok {| stat_pending := n Pending; stat_in_progress := n Running; stat_completed := n Completed;
                   stat_failed := n Failed; stat_cancelled := n Cancelled |}, b).
Proof.
  intros n. unfold stats, gets. do 2 f_equal.
  destruct (count_status_fold (map_order (tasks b)).*2 QueueStats_default) as (E1 & E2 & E3 & E4 & E5).
  assert (Hn : ∀ s, zlen (filter (λ u, status u = s) (map_order (tasks b)).*2) = n s).
  { intros s. unfold n, zlen. by rewrite map_order_perm. }
  rewrite Hn in E1, E2, E3, E4, E5. destruct (foldl _ _ _). simpl in *. by subst.
Qed.
End operations.
End DocketSystem.
