(* ===== verification/DocketTheorems.v ===== *)
(** The docket as a whole: attempts are bounded, no task is lost, claims follow
    priority and age, and a worker works the queue off. *)
From stdpp Require Import base list gmap strings sorting relations.
From Stdlib Require Import ZArith Lia.
From S2P Require Import Prelude DocketQueue DocketFormat DocketFacts DocketSystem.

Module DocketTheorems.
Import Docket DocketFormat DocketFacts DocketSystem.

(** A docket with the submissions on their way to the queue ([counter] is the
    docket's), the claims workers ever made on it, and those they have neither
    settled nor abandoned. *)
Record System (V : Type) : Type := {
  docket : Docket.t V;
  submissions : Submissions V;
  claims : list TaskId;
  unsettled : list TaskId;
}.
Arguments docket {V}. Arguments submissions {V}. Arguments claims {V}. Arguments unsettled {V}.

Section system.
Context {V : Type} `{Chrono} {order : MapOrder TaskId (DocketTask V)}.
Abbreviation Task := (DocketTask V).
Abbreviation D := (Docket.t V).
Implicit Types (s : System V) (d : D) (u : Task) (i : TaskId) (hs : gmap string (Task → V + DocketError)).

(** One step of a client, a worker or the clock.  A submission takes three: it
    draws its id, records its task and queues it; other steps may come between
    them.  A worker that stops working abandons its claim; submissions are fewer
    than [2^64], and no task asks for [2^31] retries. *)
Inductive step : System V → System V → Prop :=
| step_draw s now ty p o t d :
    task_counter (docket s) + 1 < 2 ^ 64 →
    0 <= default (settings_max_retries (docket_settings (docket s))) (options_max_retries o) < 2 ^ 31 →
    draw_task now ty p o (docket s) = (Ok t, d) →
    step s {| docket := d; submissions := draw t (submissions s); claims := claims s; unsettled := unsettled s |}
| step_record s t rest d :
    drawn (submissions s) ≡ₚ t :: rest →
    on_backend (record_task t) (docket s) = (Ok tt, d) →
    step s {| docket := d; submissions := record t rest (submissions s); claims := claims s; unsettled := unsettled s |}
| step_queue s t rest d :
    waiting (submissions s) ≡ₚ t :: rest →
    on_backend (queue_task (id t) (priority t)) (docket s) = (Ok tt, d) →
    step s {| docket := d; submissions := queue t rest (submissions s); claims := claims s; unsettled := unsettled s |}
| step_claim s stop now hs u d :
    process_claim stop now hs (docket s) = (Ok (Some u), d) →
    step s {| docket := d; submissions := submissions s; claims := id u :: claims s; unsettled := id u :: unsettled s |}
| step_settle s i r o rest d :
    unsettled s ≡ₚ i :: rest →
    process_settle i r (docket s) = (o, d) →
    step s {| docket := d; submissions := submissions s; claims := claims s; unsettled := rest |}
| step_abandon s i rest :
    unsettled s ≡ₚ i :: rest →
    step s {| docket := docket s; submissions := submissions s; claims := claims s; unsettled := rest |}
| step_cancel s i reason o d :
    on_backend (cancel i reason) (docket s) = (o, d) →
    step s {| docket := d; submissions := submissions s; claims := claims s; unsettled := unsettled s |}
| step_requeue s now o d :
    on_backend (requeue_stale now) (docket s) = (o, d) →
    step s {| docket := d; submissions := submissions s; claims := claims s; unsettled := unsettled s |}.

(** What can be reached from a new docket. *)
Definition no_submissions : Submissions V := {| counter := 0; drawn := []; waiting := []; queued := [] |}.
Definition start d : System V := {| docket := d; submissions := no_submissions; claims := []; unsettled := [] |}.
Definition reachable s : Prop := ∃ settings d, new settings = Ok d ∧ rtc step (start d) s.

Definition tasks_of d : gmap TaskId Task := tasks (docket_backend d).
Definition sys_ok s : Prop :=
  counter (submissions s) = task_counter (docket s) ∧
  backend_ok (submissions s) (claims s) (unsettled s) (docket_backend (docket s)).

(** The tasks that are recorded and not in the queue yet. *)
Definition half_submitted s : list TaskId := id <$> waiting (submissions s).

(** * Reachable states satisfy the invariant *)

Definition set_backend (b : MemoryDocketBackend V) d : D :=
  {| docket_backend := b; docket_settings := docket_settings d; task_counter := task_counter d |}.

Lemma on_backend_run {A} (op : M (MemoryDocketBackend V) DocketError A) d o b :
  op (docket_backend d) = (o, b) → on_backend op d = (o, set_backend b d).
Proof. intros Hop. unfold on_backend. by rewrite Hop. Qed.

Lemma elem_of_subscribed hs ty : ty ∈ subscribed_types hs ↔ is_Some (hs !! ty).
Proof.
  unfold subscribed_types. rewrite list_elem_of_fmap. split.
  - intros ([k h] & -> & Hk). apply elem_of_map_to_list in Hk. by exists h.
  - intros [h Hh]. exists (ty, h). split; [done|]. by apply elem_of_map_to_list.
Qed.

Lemma sys_ok_new settings d : new settings = Ok d → sys_ok (start d).
Proof.
  unfold new. destruct (backend settings); intros [= <-]. split; [done|].
  split; simpl; try done; try apply NoDup_nil_2; try (intros i Hi; by apply elem_of_nil in Hi). constructor.
Qed.

Lemma draw_run s now ty p o :
  sys_ok s → task_counter (docket s) + 1 < 2 ^ 64 →
  0 <= default (settings_max_retries (docket_settings (docket s))) (options_max_retries o) < 2 ^ 31 →
  ∃ t d, draw_task now ty p o (docket s) = (Ok t, d) ∧ id t = docket_id (task_counter (docket s)) ∧
    sys_ok {| docket := d; submissions := draw t (submissions s); claims := claims s; unsettled := unsettled s |}.
Proof.
  intros [Hcnt Hs] Hc Hr. pose proof (ok_counter _ _ _ _ Hs) as Hc0. rewrite Hcnt in Hc0.
  eexists _, _. split; [done|]. split; [done|]. split; simpl.
  - rewrite Hcnt. unfold wrapping_add64. by rewrite Z.mod_small by lia.
  - rewrite <- Hcnt in *. by apply draw_ok.
Qed.

Lemma record_run s t rest :
  sys_ok s → drawn (submissions s) ≡ₚ t :: rest →
  ∃ d, on_backend (record_task t) (docket s) = (Ok tt, d) ∧
    sys_ok {| docket := d; submissions := record t rest (submissions s); claims := claims s; unsettled := unsettled s |}.
Proof.
  intros [Hcnt Hs] Hperm. destruct (record_ok _ _ _ _ t rest Hs Hperm) as [Hrun Hok].
  eexists. split; [by apply on_backend_run|]. by split.
Qed.

Lemma queue_run s t rest :
  sys_ok s → waiting (submissions s) ≡ₚ t :: rest →
  ∃ d, on_backend (queue_task (id t) (priority t)) (docket s) = (Ok tt, d) ∧
    sys_ok {| docket := d; submissions := queue t rest (submissions s); claims := claims s; unsettled := unsettled s |}.
Proof.
  intros [Hcnt Hs] Hperm. destruct (queue_ok _ _ _ _ t rest Hs Hperm) as (b & Hrun & _ & _ & Hok).
  eexists. split; [by apply on_backend_run|]. by split.
Qed.

(** The steps of a submission nobody interrupts are those of [submit_with_options]. *)
Lemma submit_steps s now ty p o :
  sys_ok s → task_counter (docket s) + 1 < 2 ^ 64 →
  0 <= default (settings_max_retries (docket_settings (docket s))) (options_max_retries o) < 2 ^ 31 →
  let g := submissions s in
  let i := docket_id (task_counter (docket s)) in
  ∃ d, submit_with_options now ty p o (docket s) = (Ok i, d) ∧
    rtc step s {| docket := d;
      submissions := {| counter := counter g + 1; drawn := drawn g; waiting := waiting g; queued := queued g ++ [i] |};
      claims := claims s; unsettled := unsettled s |}.
Proof.
  intros Hs Hc Hr g i. destruct (draw_run s now ty p o Hs Hc Hr) as (t & d1 & Hrun1 & Hid & Hs1).
  destruct (record_run _ t (drawn g) Hs1) as (d2 & Hrun2 & Hs2); [done|].
  destruct (queue_run _ t (waiting g) Hs2) as (d3 & Hrun3 & Hs3); [done|]. simpl in Hrun2, Hrun3.
  exists d3. split.
  - unfold submit_with_options. rewrite (bind_ok _ _ _ _ _ Hrun1).
    assert (Hrun : on_backend (enqueue t) d1 = (Ok tt, d3)).
    { unfold on_backend, enqueue, bind, record_task, modify in *. simpl in Hrun2. injection Hrun2 as <-. exact Hrun3. }
    rewrite (bind_ok _ _ _ _ _ Hrun). unfold i. by rewrite <- Hid.
  - eapply rtc_l; [by eapply step_draw|]. eapply rtc_l; [by eapply (step_record _ t (drawn g))|]. simpl.
    eapply rtc_l; [by eapply (step_queue _ t (waiting g))|]. simpl. unfold queue, record, draw. simpl. rewrite Hid. apply rtc_refl.
Qed.

(** A claim: nothing to do, or one task in the queue that no claimable one stands
    before. *)
Lemma claim_run s now hs :
  sys_ok s →
  (process_claim false now hs (docket s) = (Ok None, docket s) ∧
   ∀ i u, tasks_of (docket s) !! i = Some u → i ∉ half_submitted s → status u = Pending → hs !! task_type u = None) ∨
  (∃ pos i u d, pending (docket_backend (docket s)) !! pos = Some i ∧
    tasks_of (docket s) !! i = Some u ∧ status u = Pending ∧ is_Some (hs !! task_type u) ∧
    process_claim false now hs (docket s) = (Ok (Some (claimed now u)), d) ∧
    d = set_backend {| tasks := <[i := claimed now u]> (tasks_of (docket s));
                       pending := delete pos (pending (docket_backend (docket s)));
                       settings := settings (docket_backend (docket s)) |} (docket s) ∧
    Forall (λ j, claimable (tasks_of (docket s)) (subscribed_types hs) j = false)
      (take pos (pending (docket_backend (docket s)))) ∧
    sys_ok {| docket := d; submissions := submissions s; claims := i :: claims s; unsettled := i :: unsettled s |}).
Proof.
  intros [Hcnt Hs]. unfold process_claim, tasks_of.
  destruct (dequeue_run _ _ _ _ now (subscribed_types hs) Hs)
    as [[Hrun Hno]|(pos & i & u & Hpos & Hi & Hst & Hty & Hrun & Hall)].
  - left. rewrite (on_backend_run _ _ _ _ Hrun). split; [by destruct (docket s)|].
    intros i u Hi Hw Hst. destruct (hs !! task_type u) eqn:E; [|done]. exfalso.
    apply (Hno i u); [done..|]. apply elem_of_subscribed. by rewrite E.
  - right. exists pos, i, u. eexists. split_and!; [done|done|done|by apply elem_of_subscribed| |done|done|].
    + by rewrite (on_backend_run _ _ _ _ Hrun).
    + split; [done|]. by apply (dequeue_ok _ _ _ _ now pos i u Hs).
Qed.

(** What the end of an attempt makes of the task. *)
Definition settled_task (r : V + DocketError) u : Task :=
  match r with
  | inl data => with_result (Some data) (with_status Completed u)
  | inr e => after_failure (Some (DocketError_to_string e)) u
  end.

Lemma settle_run s i r rest :
  sys_ok s → unsettled s ≡ₚ i :: rest →
  ∃ u b, tasks_of (docket s) !! i = Some u ∧
    process_settle i r (docket s) = (Ok tt, set_backend b (docket s)) ∧
    tasks b = <[i := settled_task r u]> (tasks_of (docket s)) ∧
    settings b = settings (docket_backend (docket s)) ∧
    sys_ok {| docket := set_backend b (docket s); submissions := submissions s; claims := claims s; unsettled := rest |}.
Proof.
  intros [Hctr Hs] Hun. assert (Hin : i ∈ unsettled s) by (rewrite Hun; by left).
  destruct (claimed_task _ _ _ _ i Hs) as [u Hu]; [by apply (ok_unsettled _ _ _ _ Hs)|].
  assert (Hsub : ∀ j, j ∈ rest → j ∈ unsettled s) by (intros j ?; rewrite Hun; by right).
  assert (Hcnt : ∀ j, count j (unsettled s) = (if decide (i = j) then 1 else 0) + count j rest)
    by (intros j; by rewrite (count_perm j _ _ Hun), count_cons).
  assert (Hoth : ∀ j, j ≠ i → count j rest <= count j (unsettled s))
    by (intros j Hj; rewrite Hcnt, decide_False by done; lia).
  specialize (Hcnt i). rewrite decide_True in Hcnt by done.
  pose proof (count_nonneg i rest). pose proof (one_if_bounds (status u) Running).
  exists u. unfold process_settle. destruct r as [data|e].
  - eexists. split_and!; [done|by apply on_backend_run, ack_run|done|done|]. split; [done|].
    eapply (settled_ok _ _ _ _ _ _ i u); [exact Hs|done|done|done|done|done|done|done|simpl; lia|done| |done|done|done].
    left. done.
  - assert (Hle : retry_count u + 1 <= u32_max) by (eapply failure_bound; [exact Hs|done|lia]).
    eexists. split_and!; [done|by apply on_backend_run, nack_run|done|done|]. split; [done|].
    by eapply (failure_ok _ _ _ _ _ _ i u); [exact Hs|done|apply after_failure_from|done|done|simpl; lia|..].
Qed.

Lemma requeue_run s now :
  sys_ok s →
  let timeout := stale_after (settings (docket_backend (docket s))) in
  let back := given_back now timeout (map_order (tasks_of (docket s))) in
  ∃ b, on_backend (requeue_stale now) (docket s) = (Ok (zlen back), set_backend b (docket s)) ∧
    tasks b = requeued now timeout <$> tasks_of (docket s) ∧
    pending b = pending (docket_backend (docket s)) ++ back.*1 ∧
    settings b = settings (docket_backend (docket s)) ∧
    sys_ok {| docket := set_backend b (docket s); submissions := submissions s; claims := claims s; unsettled := unsettled s |}.
Proof.
  intros [Hcnt Hs] timeout back.
  destruct (requeue_stale_run _ _ _ now _ Hs) as (b & Hrun & Hok & Ht & Hp & Hst).
  exists b. split_and!; [by apply on_backend_run|done|done|done|by split].
Qed.

Lemma sys_ok_step s s' : sys_ok s → step s s' → sys_ok s'.
Proof.
  intros Hs. destruct 1 as [s now ty p o t d Hc Hr Hrun|s t rest d Hperm Hrun|s t rest d Hperm Hrun|s stop now hs u d Hrun
    |s i r o rest d Hun Hrun|s i rest Hun|s i reason o d Hrun|s now o d Hrun].
  - destruct (draw_run s now ty p o Hs Hc Hr) as (t' & d' & Hrun' & _ & Hok). congruence.
  - destruct (record_run s t rest Hs Hperm) as (d' & Hrun' & Hok). congruence.
  - destruct (queue_run s t rest Hs Hperm) as (d' & Hrun' & Hok). congruence.
  - destruct stop; [done|].
    destruct (claim_run s now hs Hs) as [[Hn _]|(pos & i & w & d' & _ & Hi & _ & _ & Hrun' & _ & _ & Hok)];
      [congruence|]. rewrite Hrun' in Hrun. simplify_eq. destruct Hs as [_ Hs].
    change (id (claimed now w)) with (id w). by rewrite (ok_id _ _ _ _ _ _ (ok_tasks _ _ _ _ Hs i w Hi)).
  - destruct (settle_run s i r rest Hs Hun) as (u & b & _ & Hrun' & _ & _ & Hok). congruence.
  - assert (Hcnt : ∀ j, count j rest <= count j (unsettled s)).
    { intros j. rewrite (count_perm j _ _ Hun), count_cons. case_decide; lia. }
    destruct Hs as [Hctr Hs]. split; [done|]. destruct Hs as [? Ht ? ? ? ? ? ? ? ? Hu ?]. split; simpl; try done.
    + intros j w Hj. eapply task_ok_other; [by apply Ht|done|done|done|apply Hcnt].
    + intros j Hj. apply Hu. rewrite Hun. by right.
  - unfold on_backend in Hrun. destruct (cancel i reason _) as [o' b] eqn:E. simplify_eq.
    destruct Hs as [Hctr Hs]. split; [done|]. by apply (cancel_ok _ _ _ _ i reason o b Hs).
  - destruct (requeue_run s now Hs) as (b & Hrun' & _ & _ & _ & Hok). congruence.
Qed.

Lemma reachable_ok s : reachable s → sys_ok s.
Proof.
  intros (settings & d & Hn & Hr). apply sys_ok_new in Hn.
  revert Hn. induction Hr as [|s1 s2 s3 Hstep Hr IH]; [done|]. intros. by apply IH, (sys_ok_step s1).
Qed.
(** * Properties *)

(** Whatever clients, workers and clocks do, in any order, a task is claimed
    at most [max 1 max_retries] times, every claim after the first is paid for by
    an increment of the retry count, and a pending task always has an attempt
    left. *)
Theorem docket_attempts_bounded s i u :
  reachable s → tasks_of (docket s) !! i = Some u →
  count i (claims s) <= Z.max 1 (max_retries u) ∧
  count i (claims s) <= retry_count u + 1 ∧
  (status u = Pending → count i (claims s) < Z.max 1 (max_retries u)).
Proof.
  intros [_ Hs]%reachable_ok Hi. destruct (ok_tasks _ _ _ _ Hs i u Hi) as [? ? ? ? _ Hl Hp ? _].
  pose proof (one_if_bounds (status u) Pending). split_and!; [done|lia|]. intros Hst.
  rewrite Hst in Hp. change (one_if Pending Pending) with 1 in Hp. destruct (Hl Hst); lia.
Qed.

(** C11: in every reachable docket a claim neither panics nor loses a task, with
    submissions interrupted between drawing the id, recording the task and queueing
    it.  It finds nothing exactly when no pending task has a subscribed type, but
    for tasks whose submission has not queued them yet, and then changes nothing;
    otherwise it marks one such task as running, and only that one changes.  No
    queued pending task of a subscribed type that was never given back has a higher
    priority than the claimed one, nor, if the claimed one was never given back
    either, the same priority and an earlier place in the order in which the
    submissions queued their tasks, which holds each task once. *)
Theorem docket_claim_correct s now hs :
  reachable s →
  NoDup (queued (submissions s)) ∧
  match process_claim false now hs (docket s) with
  | (Ok None, d) =>
      d = docket s ∧
      ∀ i u, tasks_of (docket s) !! i = Some u → i ∉ half_submitted s → status u = Pending → hs !! task_type u = None
  | (Ok (Some v), d) =>
      ∃ u, tasks_of (docket s) !! id v = Some u ∧ id v ∉ half_submitted s ∧ status u = Pending ∧
        is_Some (hs !! task_type u) ∧ v = claimed now u ∧ tasks_of d = <[id v := v]> (tasks_of (docket s)) ∧
        ∀ j w, tasks_of (docket s) !! j = Some w → j ∉ half_submitted s → j ≠ id v → status w = Pending →
          is_Some (hs !! task_type w) → retry_count w = 0 →
          priority w <= priority u ∧
          (priority w = priority u → retry_count u = 0 → earlier (queued (submissions s)) (id v) j)
  | _ => False
  end.
Proof.
  intros Hs%reachable_ok. split; [apply (ok_log_once _ _ _ _ (proj2 Hs))|]. destruct (claim_run s now hs Hs)
    as [[-> Hno]|(pos & i & u & d & Hpos & Hi & Hst & Hty & -> & -> & Hall & _)]; [done|]. destruct Hs as [_ Hs].
  pose proof (ok_id _ _ _ _ _ _ (ok_tasks _ _ _ _ Hs i u Hi)) as Hid.
  exists u. change (id (claimed now u)) with (id u). rewrite Hid. split_and!; [done| |done..|].
  { intros (t & -> & Ht)%list_elem_of_fmap. destruct (ok_waiting _ _ _ _ Hs t Ht) as [Hn _].
    apply Hn, (ok_pending _ _ _ _ Hs). by eapply list_elem_of_lookup_2. }
  intros j w Hj Hhalf Hne Hw Htw Hz.
  pose proof (ok_queued _ _ _ _ _ _ (ok_tasks _ _ _ _ Hs j w Hj) Hw) as [?|Hq]%elem_of_app; [done|].
  pose proof (ok_order _ _ _ _ Hs) as Hsort.
  rewrite <- (take_drop_middle _ _ _ Hpos) in Hq, Hsort.
  apply elem_of_app in Hq as [Hq|[->|Hq]%elem_of_cons]; [|done|].
  - rewrite Forall_forall in Hall. specialize (Hall j Hq). unfold claimable in Hall. rewrite Hj in Hall.
    rewrite !bool_decide_true in Hall; [done|by apply elem_of_subscribed|done].
  - apply StronglySorted_app_1_r in Hsort. inversion_clear Hsort as [|? ? _ Hf].
    rewrite Forall_forall in Hf. by apply (Hf j Hq u w).
Qed.

(** A worker that still holds a claim can always report how the attempt ended,
    without a panic of the retry count: success completes the task with its
    result, failure records the error and queues the task again while attempts
    are left.  No other task changes. *)
Theorem docket_settle_correct s i r :
  reachable s → i ∈ unsettled s →
  ∃ u d, tasks_of (docket s) !! i = Some u ∧ process_settle i r (docket s) = (Ok tt, d) ∧
    tasks_of d = <[i := settled_task r u]> (tasks_of (docket s)) ∧
    (status (settled_task r u) = Pending →
     i ∈ pending (docket_backend d) ∧ retry_count u + 1 < max_retries u).
Proof.
  intros Hs%reachable_ok [rest Hun]%elem_of_Permutation.
  destruct (settle_run s i r rest Hs Hun) as (u & b & Hi & Hrun & Ht & _ & Hok).
  exists u, (set_backend b (docket s)). split_and!; [done..|]. intros Hp.
  assert (Hi' : tasks b !! i = Some (settled_task r u)) by (by rewrite Ht, lookup_insert_eq).
  split.
  { destruct Hs as [_ Hs], Hok as [_ Hok]. simpl in Hok.
    pose proof (ok_queued _ _ _ _ _ _ (ok_tasks _ _ _ _ Hok i _ Hi') Hp) as [Hw|?]%elem_of_app; [|done]. exfalso.
    apply list_elem_of_fmap in Hw as (t & -> & Htw). destruct (ok_waiting _ _ _ _ Hs t Htw) as [Hn _].
    apply Hn, (ok_claims _ _ _ _ Hs), (ok_unsettled _ _ _ _ Hs). rewrite Hun. by left. }
  destruct r as [data|e]; simpl in Hp; [done|].
  unfold after_failure in Hp. simpl in Hp. destruct (_ <=? _) eqn:E; [done|]. zbool. lia.
Qed.

(** Giving back stale tasks never panics and touches exactly the running tasks
    claimed longer ago than the visibility timeout: each is failed when its
    attempts are used up and queued behind the others when not; the answer counts
    the latter. *)
Theorem docket_requeue_correct s now :
  reachable s →
  let timeout := stale_after (settings (docket_backend (docket s))) in
  ∃ n d back, on_backend (requeue_stale now) (docket s) = (Ok n, d) ∧
    tasks_of d = requeued now timeout <$> tasks_of (docket s) ∧
    pending (docket_backend d) = pending (docket_backend (docket s)) ++ back ∧
    n = zlen back ∧ NoDup back ∧
    ∀ i, i ∈ back ↔ ∃ u, tasks_of (docket s) !! i = Some u ∧
                      is_stale now timeout u = true ∧ retry_count u + 1 < max_retries u.
Proof.
  intros Hs%reachable_ok timeout.
  destruct (requeue_run s now Hs) as (b & Hrun & Ht & Hp & _ & _).
  eexists _, _, _. split_and!; [exact Hrun|exact Ht|exact Hp| | |].
  - unfold zlen. by rewrite length_fmap.
  - eapply sublist_NoDup; [|apply fmap_sublist, sublist_filter].
    rewrite map_order_perm. apply NoDup_fst_map_to_list.
  - intros i. rewrite list_elem_of_fmap. split.
    + intros ([k u] & -> & [Hf Hk]%list_elem_of_filter). apply elem_of_map_order in Hk. exists u.
      simpl in Hf. apply andb_true_iff in Hf as [? Hr]. unfold retried in Hr. zbool. split_and!; [done|done|lia].
    + intros (u & Hi & Hst & Hr). exists (i, u). split; [done|]. apply list_elem_of_filter.
      split; [|by apply elem_of_map_order]. simpl. fold timeout. rewrite Hst. unfold retried. simpl.
      apply negb_true_iff, Z.leb_gt. lia.
Qed.
End system.
End DocketTheorems.
