(* ===== verification/DocketWorker.v ===== *)
(** A worker alone with the docket works the queue off: the loop of
    [Worker::run], and how long it takes. *)
From stdpp Require Import base list gmap strings.
From Stdlib Require Import ZArith Lia.
From S2P Require Import Prelude DocketQueue DocketFormat DocketFacts DocketSystem DocketTheorems.

Module DocketWorker.
Import Docket DocketFacts DocketSystem DocketTheorems.

Section worker.
Context {V : Type} `{Chrono} {order : MapOrder TaskId (DocketTask V)}.
Abbreviation Task := (DocketTask V).
Context (hs : gmap string (Task → V + DocketError)).
Implicit Types (s : System V) (u v : Task) (i : TaskId) (m : gmap TaskId Task).

(** * Attempts that are left *)

Definition subscribed u : Prop := status u = Pending ∧ is_Some (hs !! task_type u).

#[export] Instance subscribed_dec u : Decision (subscribed u).
Proof. unfold subscribed. apply _. Defined.

Definition attempts u : Z := if decide (subscribed u) then Z.max 1 (max_retries u - retry_count u) else 0.

Definition attempts_left m : Z := sum ((λ kv, attempts kv.2) <$> map_to_list m).

Lemma attempts_nonneg u : 0 <= attempts u.
Proof. unfold attempts. case_decide; lia. Qed.

Lemma attempts_left_nonneg m : 0 <= attempts_left m.
Proof. apply sum_nonneg, Forall_fmap, Forall_true. intros. apply attempts_nonneg. Qed.

Lemma attempts_left_delete m i u :
  m !! i = Some u → attempts_left m = attempts u + attempts_left (delete i m).
Proof.
  intros Hi. unfold attempts_left.
  by rewrite (sum_perm _ _ (fmap_Permutation _ _ _ (Permutation_sym (map_to_list_delete m i u Hi)))).
Qed.

Lemma attempts_left_insert m i u v :
  m !! i = Some u → attempts_left (<[i := v]> m) = attempts_left m - attempts u + attempts v.
Proof.
  intros Hi. rewrite (attempts_left_delete m i u Hi).
  rewrite (attempts_left_delete (<[i := v]> m) i v) by apply lookup_insert_eq.
  rewrite delete_insert_eq. lia.
Qed.

Lemma attempts_left_zero m i u : attempts_left m <= 0 → m !! i = Some u → ¬ subscribed u.
Proof.
  intros Hz Hi Hu. rewrite (attempts_left_delete m i u Hi) in Hz.
  pose proof (attempts_left_nonneg (delete i m)). unfold attempts in Hz. rewrite decide_True in Hz by done. lia.
Qed.

(** * One turn *)

(** The task an attempt leaves, from what its handler said. *)
Definition attempted (now : Z) (h : Task → V + DocketError) u : Task :=
  settled_task (h (claimed now u)) (claimed now u).

Lemma process_one_run s now :
  sys_ok s → half_submitted s = [] →
  (process_one false now hs (docket s) = (Ok false, docket s) ∧
   ∀ i u, tasks_of (docket s) !! i = Some u → ¬ subscribed u) ∨
  (∃ i u h d, tasks_of (docket s) !! i = Some u ∧ status u = Pending ∧ hs !! task_type u = Some h ∧
    process_one false now hs (docket s) = (Ok true, d) ∧
    tasks_of d = <[i := attempted now h u]> (tasks_of (docket s)) ∧
    sys_ok {| docket := d; submissions := submissions s; claims := i :: claims s; unsettled := unsettled s |}).
Proof.
  intros Hs Hhalf. unfold process_one, bind.
  destruct (claim_run s now hs Hs) as [[-> Hno]|(pos & i & u & d & _ & Hi & Hst & [h Hh] & -> & Hd & _ & Hok)].
  { left. split; [done|]. intros i u Hi [Hst [h Hh]]. rewrite (Hno i u Hi) in Hh; [done| |done].
    rewrite Hhalf. apply not_elem_of_nil. }
  right. change (task_type (claimed now u)) with (task_type u). rewrite Hh.
  change (id (claimed now u)) with (id u). rewrite (ok_id _ _ _ _ _ _ (ok_tasks _ _ _ _ (proj2 Hs) i u Hi)).
  destruct (settle_run _ i (h (claimed now u)) (unsettled s) Hok) as (v & b & Hv & Hrun & Ht & _ & Hok'); [done|].
  simpl in Hv, Hrun, Ht. rewrite Hrun. exists i, u, h, (set_backend b d).
  assert (v = claimed now u) as ->.
  { rewrite Hd in Hv. unfold tasks_of in Hv. simpl in Hv. rewrite lookup_insert_eq in Hv. congruence. }
  split_and!; [done..| |exact Hok'].
  unfold tasks_of at 1. simpl. rewrite Ht, Hd. unfold tasks_of. simpl. by rewrite insert_insert_eq.
Qed.

(** An attempt uses up an attempt. *)
Lemma attempted_less now h u :
  status u = Pending → hs !! task_type u = Some h →
  attempts (attempted now h u) + 1 <= attempts u ∧ status (attempted now h u) ≠ Running.
Proof.
  intros Hst Hh. unfold attempts at 2. rewrite decide_True by (split; [done|by rewrite Hh]).
  unfold attempted, settled_task. destruct (h (claimed now u)) as [data|e].
  - split; [|done]. unfold attempts. rewrite decide_False by (by intros [? _]). lia.
  - unfold after_failure. simpl. destruct (max_retries u <=? retry_count u + 1) eqn:E; zbool.
    + split; [|done]. unfold attempts. rewrite decide_False by (by intros [? _]). lia.
    + split; [|done]. unfold attempts. simpl. case_decide; lia.
Qed.

(** Without running tasks nothing is stale. *)
Lemma requeue_idle s now :
  sys_ok s → (∀ i u, tasks_of (docket s) !! i = Some u → status u ≠ Running) →
  on_backend (requeue_stale now) (docket s) = (Ok 0, docket s).
Proof.
  intros Hs Hno. destruct (requeue_run s now Hs) as (b & -> & Ht & Hp & Hst & _).
  set (timeout := stale_after _) in *.
  assert (Hns : ∀ i u, tasks_of (docket s) !! i = Some u → is_stale now timeout u = false).
  { intros i u Hi. unfold is_stale. by rewrite bool_decide_false by (by apply (Hno i)). }
  assert (Hgb : given_back now timeout (map_order (tasks_of (docket s))) = []).
  { unfold given_back.
    destruct (filter _ _) as [|kv l] eqn:E; [done|].
    assert (Hin : kv ∈ kv :: l) by (by left). rewrite <- E in Hin. apply list_elem_of_filter in Hin as [Hf Hin].
    destruct kv as [k u]. apply elem_of_map_order in Hin. simpl in Hf. by rewrite (Hns k u Hin) in Hf. }
  rewrite Hgb in *. f_equal. destruct (docket s) as [b0 ? ?] eqn:Ed. unfold set_backend. simpl in *. f_equal.
  destruct b as [m q st], b0 as [m0 q0 st0]. unfold tasks_of in *. simpl in *. rewrite app_nil_r in Hp. subst. f_equal.
  rewrite <- (map_fmap_id m0) at 2. apply map_fmap_ext. intros i u Hi. unfold requeued. by rewrite (Hns i u Hi).
Qed.

(** * The loop *)

(** The same job: what an attempt never changes. *)
Definition same_job u v : Prop :=
  id v = id u ∧ task_type v = task_type u ∧ params v = params u ∧ priority v = priority u ∧
  max_retries v = max_retries u ∧ created_at v = created_at u.

(** How a task may end that was pending with a handler. *)
Definition finished (h : Task → V + DocketError) u v : Prop :=
  same_job u v ∧
  ((∃ a data, same_job u a ∧ h a = inl data ∧ status v = Completed ∧ result v = Some data) ∨
   (∃ a e, same_job u a ∧ h a = inr e ∧ status v = Failed ∧
      error v = Some (DocketError_to_string e) ∧ max_retries v <= retry_count v)).

(** What the worker makes of any task. *)
Definition ended u v : Prop :=
  match status u, hs !! task_type u with
  | Pending, Some h => finished h u v
  | _, _ => v = u
  end.

(** A turn in which the worker goes on. *)
Definition going (turn : Turn) : Prop :=
  stopped turn = false ∧ cancelled_before turn = false ∧ cancelled_after turn = false.

Lemma run_turn s turn turns :
  sys_ok s → going turn → (∀ i u, tasks_of (docket s) !! i = Some u → status u ≠ Running) →
  run hs (turn :: turns) (docket s) =
  match process_one false (claim_now turn) hs (docket s) with
  | (Ok _, d) => run hs turns d
  | (Err CancelledError, d) => (Ok tt, d)
  | (Err _, d) => run hs turns d
  | (Panic, d) => (Panic, d)
  | (OutOfFuel, d) => (OutOfFuel, d)
  end.
Proof.
  intros Hs (Hst & Hcb & Hca) Hno. cbn [run]. rewrite Hst, Hcb, Hca.
  by rewrite (requeue_idle s (stale_now turn) Hs Hno).
Qed.

(** A later attempt of the same job ends the job. *)
Lemma finished_attempted now h u v :
  hs !! task_type u = Some h →
  ended (attempted now h u) v → finished h u v.
Proof.
  intros Hh. assert (Hjob : same_job u (attempted now h u)).
  { unfold attempted, settled_task. destruct (h _); [done|]. unfold after_failure. simpl. by destruct (_ <=? _). }
  destruct Hjob as (J1 & J2 & J3 & J4 & J5 & J6).
  assert (Htrans : ∀ w, same_job (attempted now h u) w → same_job u w).
  { intros w (K1 & K2 & K3 & K4 & K5 & K6). repeat split; congruence. }
  unfold ended. rewrite J2, Hh. destruct (decide (status (attempted now h u) = Pending)) as [Hp|Hp].
  - rewrite Hp. intros [Hj [(a & data & Ha & ?)|(a & e & Ha & ?)]]; (split; [by apply Htrans|]).
    + left. exists a, data. split; [by apply Htrans|done].
    + right. exists a, e. split; [by apply Htrans|done].
  - intros Hv. assert (v = attempted now h u) as -> by (by destruct (status (attempted now h u))). clear Hv.
    split; [done|]. unfold attempted, settled_task in *. destruct (h (claimed now u)) as [data|e] eqn:E.
    + left. by exists (claimed now u), data.
    + right. exists (claimed now u), e. unfold after_failure in *. simpl in *.
      destruct (max_retries u <=? retry_count u + 1) eqn:El; zbool; done.
Qed.

Lemma run_drains work stop : ∀ s,
  sys_ok s → half_submitted s = [] → (∀ i u, tasks_of (docket s) !! i = Some u → status u ≠ Running) →
  Forall going work → stopped stop = true → attempts_left (tasks_of (docket s)) <= zlen work →
  ∃ d, run hs (work ++ [stop]) (docket s) = (Ok tt, d) ∧
    ∀ i u, tasks_of (docket s) !! i = Some u → ∃ v, tasks_of d !! i = Some v ∧ ended u v.
Proof.
  assert (Hidle : ∀ u, ¬ subscribed u → ended u u).
  { intros u Hu. unfold ended. destruct (status u) eqn:Es; try done. destruct (hs !! task_type u) eqn:Eh; [|done].
    exfalso. apply Hu. split; [done|by rewrite Eh]. }
  induction work as [|turn work IH]; intros s Hs Hhalf Hno Hgo Hstop Hleft.
  { exists (docket s). simpl. rewrite Hstop. split; [done|]. intros i u Hi. exists u. split; [done|].
    apply Hidle. eapply attempts_left_zero; [exact Hleft|done]. }
  inversion_clear Hgo as [|? ? Hturn Hgo']. rewrite <- app_comm_cons.
  rewrite (run_turn s turn (work ++ [stop]) Hs Hturn Hno). rewrite zlen_cons in Hleft.
  destruct (process_one_run s (claim_now turn) Hs Hhalf)
    as [[-> Hnone]|(i & u & h & d & Hi & Hst & Hh & -> & Ht & Hok)].
  - apply (IH s); [done..|]. cut (attempts_left (tasks_of (docket s)) = 0); [pose proof (zlen_nonneg work); lia|].
    unfold attempts_left. assert (Hall : Forall (λ x, x = 0) ((λ kv, attempts kv.2) <$> map_to_list (tasks_of (docket s)))).
    { apply Forall_fmap, Forall_forall. intros [k u] Hk. apply elem_of_map_to_list in Hk. simpl. unfold attempts.
      by rewrite decide_False by (by apply (Hnone k)). }
    clear -Hall. unfold sum. induction Hall as [|x l -> Hl IHl]; simpl; [done|]. lia.
  - destruct (attempted_less (claim_now turn) h u Hst Hh) as [Hless Hnr].
    destruct (IH {| docket := d; submissions := submissions s; claims := i :: claims s; unsettled := unsettled s |})
      as (d' & Hrun & Hend); [done|done| |done|done| |].
    + simpl. intros j w. rewrite Ht, lookup_insert_Some. intros [[<- <-]|[_ Hj]]; [done|by apply (Hno j)].
    + simpl. rewrite Ht, (attempts_left_insert _ i u) by done. lia.
    + exists d'. split; [exact Hrun|]. simpl in Hend. rewrite Ht in Hend. intros j w Hj.
      destruct (decide (i = j)) as [<-|Hne].
      * destruct (Hend i _ (lookup_insert_eq _ _ _)) as (v & Hv & Hev). exists v. split; [done|].
        assert (w = u) as -> by congruence. unfold ended. rewrite Hst, Hh.
        by apply (finished_attempted (claim_now turn)).
      * apply Hend. by rewrite lookup_insert_ne.
Qed.

(** C12: a worker that is alone with the docket, no submission being half done,
    works the queue off.  However often handlers fail, the loop of [run] needs at most as many turns as the pending
    tasks it subscribed to have attempts left; when it then stops, each of them is
    completed with a result its handler returned, or failed with the error of its
    handler after the last attempt, and no other task has changed. *)
Theorem docket_run_drains s work stop :
  reachable s → half_submitted s = [] → (∀ i u, tasks_of (docket s) !! i = Some u → status u ≠ Running) →
  Forall going work → stopped stop = true → attempts_left (tasks_of (docket s)) <= zlen work →
  ∃ d, run hs (work ++ [stop]) (docket s) = (Ok tt, d) ∧
    ∀ i u, tasks_of (docket s) !! i = Some u → ∃ v, tasks_of d !! i = Some v ∧ ended u v.
Proof. intros Hs%reachable_ok. by apply run_drains. Qed.
End worker.
End DocketWorker.
