(* ===== verification/DocketLocks.v ===== *)
(** The two locks of the in-memory docket, [crates/fastmcp-server/src/docket.rs]:
    in which order its operations take them, and when threads block each other
    for ever. *)
From stdpp Require Import base list relations.

Module DocketLocks.

Inductive Lock : Type := Tasks | PendingQueue.
Inductive Mode : Type := Read | Write.
Inductive Action : Type := Acquire (l : Lock) (m : Mode) | Release (l : Lock).

#[export] Instance Lock_eq_dec : EqDecision Lock.
Proof. solve_decision. Defined.
#[export] Instance Mode_eq_dec : EqDecision Mode.
Proof. solve_decision. Defined.

(** The operations of [MemoryDocketBackend]. *)
Inductive Operation : Type :=
| enqueue | dequeue | ack | nack | get_task | list_tasks | cancel | stats | requeue_stale.

#[export] Instance Operation_eq_dec : EqDecision Operation.
Proof. solve_decision. Defined.

(** The guards an operation takes and drops; a guard is dropped at the end of its
    block, in the reverse order of the declarations. *)
Definition locking (o : Operation) : list Action :=
  match o with
  | enqueue => [Acquire Tasks Write; Release Tasks;
                Acquire PendingQueue Write; Acquire Tasks Read; Release Tasks; Release PendingQueue]
  | dequeue => [Acquire PendingQueue Write; Acquire Tasks Write; Release Tasks; Release PendingQueue]
  | ack => [Acquire Tasks Write; Release Tasks]
  | nack | cancel | requeue_stale =>
      [Acquire Tasks Write; Acquire PendingQueue Write; Release PendingQueue; Release Tasks]
  | get_task | list_tasks | stats => [Acquire Tasks Read; Release Tasks]
  end.

(** A thread: the guards it holds and what it still does with the locks. *)
Record Thread : Type := { held : list (Lock * Mode); todo : list Action }.

Definition thread_of (os : list Operation) : Thread := {| held := []; todo := os ≫= locking |}.

(** [RwLock]: readers share the lock, a writer has it alone. *)
Definition compatible (l : Lock) (m : Mode) (g : Lock * Mode) : Prop :=
  g.1 ≠ l ∨ m = Read ∧ g.2 = Read.

Definition available (l : Lock) (m : Mode) (ts : list Thread) : Prop :=
  Forall (λ th, Forall (compatible l m) (held th)) ts.

#[export] Instance available_dec l m ts : Decision (available l m ts).
Proof. unfold available, compatible. apply _. Defined.

Definition enabled (a : Action) (ts : list Thread) : Prop :=
  match a with Acquire l m => available l m ts | Release _ => True end.

#[export] Instance enabled_dec a ts : Decision (enabled a ts).
Proof. destruct a; simpl; apply _. Defined.

Definition perform (a : Action) (th : Thread) : Thread :=
  match a with
  | Acquire l m => {| held := (l, m) :: held th; todo := tail (todo th) |}
  | Release l => {| held := filter (λ g, g.1 ≠ l) (held th); todo := tail (todo th) |}
  end.

(** One thread goes on. *)
Inductive step : list Thread → list Thread → Prop :=
| step_thread ts k th a :
    ts !! k = Some th → head (todo th) = Some a →
    enabled a ts →
    step ts (<[k := perform a th]> ts).

(** Threads that have work to do and none of which can go on, ever. *)
Definition deadlocked (ts : list Thread) : Prop :=
  (∃ th, th ∈ ts ∧ todo th ≠ []) ∧ ∀ ts', ¬ step ts ts'.

(** * Taking the locks in one order *)

(** The order a thread takes the locks in: [first] before [second], and nothing
    but a release while it holds [second]. *)
Inductive in_order (first second : Lock) : list (Lock * Mode) → list Action → Prop :=
| order_done : in_order first second [] []
| order_single l m r :
    in_order first second [] r → in_order first second [] (Acquire l m :: Release l :: r)
| order_single_held l m r :
    in_order first second [] r → in_order first second [(l, m)] (Release l :: r)
| order_both m1 m2 r :
    in_order first second [] r →
    in_order first second []
      (Acquire first m1 :: Acquire second m2 :: Release second :: Release first :: r)
| order_first m1 m2 r :
    in_order first second [] r →
    in_order first second [(first, m1)] (Acquire second m2 :: Release second :: Release first :: r)
| order_second m1 m2 r :
    in_order first second [] r →
    in_order first second [(second, m2); (first, m1)] (Release second :: Release first :: r).

Definition ordered (first second : Lock) (th : Thread) : Prop := in_order first second (held th) (todo th).

(** The operations that never take the second lock of the order first while they
    take both. *)
Definition tasks_first (o : Operation) : bool := negb (bool_decide (o = enqueue ∨ o = dequeue)).
Definition pending_first (o : Operation) : bool :=
  negb (bool_decide (o = nack ∨ o = cancel ∨ o = requeue_stale)).

Lemma thread_pending_first os :
  Forall (λ o, pending_first o = true) os → ordered PendingQueue Tasks (thread_of os).
Proof.
  intros Hos. unfold ordered, thread_of. simpl. induction Hos as [|o os Ho Hos IH]; simpl; [constructor|].
  destruct o; simpl; try discriminate Ho; repeat constructor; done.
Qed.

Lemma thread_tasks_first os :
  Forall (λ o, tasks_first o = true) os → ordered Tasks PendingQueue (thread_of os).
Proof.
  intros Hos. unfold ordered, thread_of. simpl. induction Hos as [|o os Ho Hos IH]; simpl; [constructor|].
  destruct o; simpl; try discriminate Ho; repeat constructor; done.
Qed.

Section order.
Context (first second : Lock) (Hne : first ≠ second).

Lemma ordered_perform th a :
  ordered first second th → head (todo th) = Some a → ordered first second (perform a th).
Proof.
  destruct th as [h p]. unfold ordered. simpl. intros Ho Ha.
  inversion Ho; subst; simplify_eq/=;
    repeat first [rewrite filter_cons_False by naive_solver | rewrite filter_cons_True by naive_solver];
    first [done | by apply order_single_held | by apply order_first | by apply order_second].
Qed.

Lemma ordered_steps ts ts' :
  Forall (ordered first second) ts → rtc step ts ts' → Forall (ordered first second) ts'.
Proof.
  intros Hts Hr. induction Hr as [|ts ts1 ts' Hs Hr IH]; [done|]. apply IH.
  destruct Hs as [ts k th a Hk Ha _]. apply Forall_insert; [done|].
  apply ordered_perform; [|done]. by eapply Forall_lookup_1.
Qed.

(** Some thread can always go on: one that holds the second lock, else one that
    holds the first, else any. *)
Lemma ordered_progress ts :
  Forall (ordered first second) ts → (∃ th, th ∈ ts ∧ todo th ≠ []) → ∃ ts', step ts ts'.
Proof.
  intros Hts (th & Hin & Htodo).
  assert (Hgo : ∀ x a, x ∈ ts → head (todo x) = Some a → enabled a ts → ∃ ts', step ts ts').
  { intros x a [k Hk]%list_elem_of_lookup Ha Hav. eexists. by eapply step_thread. }
  assert (Hrel : ∀ x, x ∈ ts → (∃ l r, todo x = Release l :: r) → ∃ ts', step ts ts').
  { intros x Hx (l & r & Hr). eapply (Hgo x (Release l)); [done|by rewrite Hr|done]. }
  destruct (decide (Exists (λ x, Exists (λ g, g.1 = second) (held x)) ts)) as [(x & Hx & Hg)%Exists_exists|Hns].
  { rewrite Forall_forall in Hts. specialize (Hts x Hx). apply (Hrel x Hx). unfold ordered in Hts.
    destruct x as [h p]. simpl in *. inversion Hts; subst; simpl; eauto; rewrite ?Exists_cons, ?Exists_nil in Hg; naive_solver. }
  apply not_Exists_Forall in Hns; [|apply _].
  assert (Hsec : ∀ m, available second m ts).
  { intros m. eapply Forall_impl; [exact Hns|]. intros x Hx. apply not_Exists_Forall in Hx; [|apply _].
    eapply Forall_impl; [exact Hx|]. intros g Hg. by left. }
  destruct (decide (Exists (λ x, held x ≠ []) ts)) as [(x & Hx & Hh)%Exists_exists|Hnh].
  { rewrite Forall_forall in Hts. specialize (Hts x Hx). unfold ordered in Hts. destruct x as [h p]. simpl in *.
    inversion Hts; subst; simpl; try done; try (apply (Hrel _ Hx); simpl; by eauto).
    apply (Hgo _ (Acquire second m2) Hx); [done|apply Hsec]. }
  apply not_Exists_Forall in Hnh; [|apply _].
  assert (Hall : ∀ l m, available l m ts).
  { intros l m. eapply Forall_impl; [exact Hnh|]. intros x Hx. apply dec_stable in Hx. by rewrite Hx. }
  destruct (todo th) as [|a r] eqn:Er; [done|].
  apply (Hgo th a); [done|by rewrite Er|]. destruct a; [apply Hall|done].
Qed.

Lemma ordered_never_deadlocks ts ts' :
  Forall (ordered first second) ts → rtc step ts ts' → ¬ deadlocked ts'.
Proof.
  intros Hts Hr [Hwork Hno]. destruct (ordered_progress ts') as [ts'' Hs]; [by eapply ordered_steps|done|].
  by apply (Hno ts'').
Qed.
End order.

(** * Schedules *)

(** Let thread [k] go on, if it can. *)
Definition advance (k : nat) (ts : list Thread) : option (list Thread) :=
  th ← ts !! k; a ← head (todo th);
  if decide (enabled a ts) then Some (<[k := perform a th]> ts) else None.

Fixpoint schedule (ks : list nat) (ts : list Thread) : option (list Thread) :=
  match ks with [] => Some ts | k :: ks => advance k ts ≫= schedule ks end.

Lemma advance_step k ts ts' : advance k ts = Some ts' → step ts ts'.
Proof.
  unfold advance. destruct (ts !! k) as [th|] eqn:Hk; simpl; [|done].
  destruct (head (todo th)) as [a|] eqn:Ha; simpl; [|done]. case_decide; [|done]. intros [= <-]. by econstructor.
Qed.

Lemma step_advance ts ts' : step ts ts' → ∃ k, (k < length ts)%nat ∧ is_Some (advance k ts).
Proof.
  destruct 1 as [ts k th a Hk Ha Hav]. exists k. split; [by eapply lookup_lt_Some|].
  unfold advance. rewrite Hk. simpl. rewrite Ha. simpl. rewrite decide_True by done. by eexists.
Qed.

Lemma schedule_steps ks ts ts' : schedule ks ts = Some ts' → rtc step ts ts'.
Proof.
  revert ts. induction ks as [|k ks IH]; simpl; intros ts Hs; [by simplify_eq|].
  destruct (advance k ts) as [ts1|] eqn:E; simpl in Hs; [|done].
  eapply rtc_l; [by eapply advance_step|auto].
Qed.

(** Where the two orders meet: the one thread has the tasks and waits for the
    queue, the other the queue and waits for the tasks. *)
Definition meeting (o : Operation) : list nat :=
  match o with enqueue => [1; 1; 1; 0]%nat | _ => [1; 0]%nat end.

Lemma meeting_deadlocks o1 o2 :
  pending_first o1 = false → tasks_first o2 = false →
  ∃ ts, rtc step [thread_of [o1]; thread_of [o2]] ts ∧ deadlocked ts.
Proof.
  intros H1 H2.
  assert (Hs : ∃ ts, schedule (meeting o2) [thread_of [o1]; thread_of [o2]] = Some ts ∧
    length ts = 2%nat ∧ advance 0 ts = None ∧ advance 1 ts = None ∧ todo <$> ts !! 0%nat ≠ Some []).
  { destruct o1; try discriminate H1; destruct o2; try discriminate H2;
      eexists; (split; [reflexivity|]); by split_and!. }
  destruct Hs as (ts & Hs & Hl & H0 & H1' & Hw). exists ts. split; [by eapply schedule_steps|]. split.
  - destruct ts as [|th ts]; [done|]. exists th. split; [by left|]. simpl in Hw. congruence.
  - intros ts' (k & Hk & Ha)%step_advance. rewrite Hl in Hk.
    destruct k as [|[|k]]; [rewrite H0 in Ha|rewrite H1' in Ha|lia]; by destruct Ha.
Qed.

(** C13: the backend takes its two locks in opposite orders.  Threads that only run
    operations taking the queue's lock first, or only operations taking the tasks'
    first, never block each other for ever, however many they are.  But every pair
    of one operation of each kind (a worker that reports a failure, a cancellation
    or a requeue of stale tasks against a submission or a claim) can reach a state
    in which neither ever goes on. *)
Theorem docket_lock_orders :
  (∀ programs ts,
     Forall (Forall (λ o, pending_first o = true)) programs ∨
     Forall (Forall (λ o, tasks_first o = true)) programs →
     rtc step (thread_of <$> programs) ts → ¬ deadlocked ts) ∧
  (∀ o1 o2, o1 ∈ [nack; cancel; requeue_stale] → o2 ∈ [enqueue; dequeue] →
     ∃ ts, rtc step [thread_of [o1]; thread_of [o2]] ts ∧ deadlocked ts).
Proof.
  split.
  - intros programs ts [Hp|Hp] Hr.
    + apply (ordered_never_deadlocks PendingQueue Tasks ltac:(done) (thread_of <$> programs)); [|done].
      apply Forall_fmap. eapply Forall_impl; [exact Hp|]. apply thread_pending_first.
    + apply (ordered_never_deadlocks Tasks PendingQueue ltac:(done) (thread_of <$> programs)); [|done].
      apply Forall_fmap. eapply Forall_impl; [exact Hp|]. apply thread_tasks_first.
  - intros o1 o2 H1 H2. apply meeting_deadlocks; [destruct o1|destruct o2]; set_solver.
Qed.
End DocketLocks.
