(* ===== verification/DocketExamples.v ===== *)
(** Closed runs of the docket, the properties at them, and two runs that show what
    a late report does. *)
From stdpp Require Import base list gmap strings relations.
From Stdlib Require Import ZArith Lia Ascii.
From Stdlib Require String.
From S2P Require Import Prelude DocketQueue DocketFormat DocketFacts DocketSystem DocketTheorems DocketWorker.

Module DocketExamples.
Import Docket DocketFormat DocketFacts DocketSystem DocketTheorems DocketWorker.

(** Timestamps as padded decimal numbers. *)
#[local] Instance ex_chrono : Chrono := {|
  to_rfc3339 t := String.string_of_list_ascii (padded 20 20 10 t);
  parse_from_rfc3339 s := Some (value_from 10 0 (String.list_ascii_of_string s));
  duration_from_std d := Some d;
|}.
#[local] Instance ex_order : MapOrder TaskId (DocketTask nat) := canonical_order _ _.

Abbreviation D := (Docket.t nat).

Definition ex_new : D :=
  {| docket_backend := MemoryDocketBackend_new DocketSettings_default;
     docket_settings := DocketSettings_default; task_counter := 0 |}.

Definition prio (p : Z) : SubmitOptions :=
  {| options_priority := p; options_max_retries := Some 2; delay := None |}.

(** Handlers: ["double"] doubles its parameter, ["odd"] refuses even ones. *)
Definition ex_handlers : gmap string (DocketTask nat → nat + DocketError) :=
  {[ "double"%string := λ u, inl (2 * params u)%nat;
     "odd"%string := λ u, if Nat.odd (params u) then inl (params u) else inr (Handler "even") ]}.

(** * States *)

Definition after {A} (m : M D DocketError A) (d : D) : D := (m d).2.

Definition ex_one : D := after (submit_with_options 0 "double" 4%nat (prio 0)) ex_new.
Definition ex_two : D := after (submit_with_options 1 "odd" 6%nat (prio 5)) ex_one.
Definition ex_claimed : D := after (process_claim false 2 ex_handlers) ex_two.

(** A docket with [n] tasks submitted one after the other, and the claims of [l]. *)
Definition sys (d : D) (n : nat) (l : list TaskId) : System nat :=
  {| docket := d;
     submissions := {| counter := Z.of_nat n; drawn := []; waiting := []; queued := docket_id <$> seqZ 0 (Z.of_nat n) |};
     claims := l; unsettled := l |}.

Lemma ex_one_ok : sys_ok (sys ex_new 0 []) ∧ rtc step (sys ex_new 0 []) (sys ex_one 1 []).
Proof.
  assert (Hok : sys_ok (sys ex_new 0 [])) by (by apply (sys_ok_new DocketSettings_default)). split; [done|].
  by destruct (submit_steps (sys ex_new 0 []) 0 "double" 4%nat (prio 0) Hok) as (d & [= <-] & Hsteps).
Qed.

Lemma ex_two_steps : rtc step (start ex_new) (sys ex_two 2 []).
Proof.
  destruct ex_one_ok as [_ Hone]. etrans; [exact Hone|].
  assert (Hok : sys_ok (sys ex_one 1 [])).
  { apply reachable_ok. exists DocketSettings_default, ex_new. by split. }
  by destruct (submit_steps (sys ex_one 1 []) 1 "odd" 6%nat (prio 5) Hok) as (d & [= <-] & Hsteps).
Qed.

Lemma ex_two_reachable : reachable (sys ex_two 2 []).
Proof. exists DocketSettings_default, ex_new. split; [done|]. exact ex_two_steps. Qed.

Lemma ex_claimed_reachable : reachable (sys ex_claimed 2 [docket_id 1]).
Proof.
  exists DocketSettings_default, ex_new. split; [done|].
  eapply rtc_r; [exact ex_two_steps|].
  by apply (step_claim (sys ex_two 2 []) false 2 ex_handlers (claimed 2 (DocketTask_new 1 (docket_id 1) "odd" 6%nat 5 2)));
    vm_compute.
Qed.

(** * The properties *)

Lemma docket_attempts_bounded_witness :
  ∃ u, tasks_of ex_claimed !! docket_id 1 = Some u ∧ count (docket_id 1) [docket_id 1] <= Z.max 1 (max_retries u).
Proof.
  eexists. split; [reflexivity|].
  apply (docket_attempts_bounded (sys ex_claimed 2 [docket_id 1]) (docket_id 1) _ ex_claimed_reachable eq_refl).
Defined.

Lemma docket_claim_correct_witness :
  NoDup [docket_id 0; docket_id 1] ∧
  match process_claim false 2 ex_handlers ex_two with
  | (Ok None, d) => d = ex_two ∧
      ∀ i u, tasks_of ex_two !! i = Some u → i ∉ [] → status u = Pending → ex_handlers !! task_type u = None
  | (Ok (Some v), d) =>
      ∃ u, tasks_of ex_two !! id v = Some u ∧ id v ∉ [] ∧ status u = Pending ∧ is_Some (ex_handlers !! task_type u) ∧
        v = claimed 2 u ∧ tasks_of d = <[id v := v]> (tasks_of ex_two) ∧
        ∀ j w, tasks_of ex_two !! j = Some w → j ∉ [] → j ≠ id v → status w = Pending →
          is_Some (ex_handlers !! task_type w) → retry_count w = 0 →
          priority w <= priority u ∧
          (priority w = priority u → retry_count u = 0 → earlier [docket_id 0; docket_id 1] (id v) j)
  | _ => False
  end.
Proof. exact (docket_claim_correct (sys ex_two 2 []) 2 ex_handlers ex_two_reachable). Defined.

Example ex_claim_is_highest :
  match process_claim false 2 ex_handlers ex_two with (Ok (Some v), _) => id v = docket_id 1 | _ => False end.
Proof. vm_compute. reflexivity. Qed.

Lemma docket_settle_correct_witness :
  ∃ u d, tasks_of ex_claimed !! docket_id 1 = Some u ∧
    process_settle (docket_id 1) (inr (Handler "even")) ex_claimed = (Ok tt, d) ∧
    tasks_of d = <[docket_id 1 := settled_task (inr (Handler "even")) u]> (tasks_of ex_claimed) ∧
    (status (settled_task (inr (Handler "even")) u) = Pending →
     docket_id 1 ∈ pending (docket_backend d) ∧ retry_count u + 1 < max_retries u).
Proof.
  apply (docket_settle_correct (sys ex_claimed 2 [docket_id 1]) (docket_id 1) (inr (Handler "even")) ex_claimed_reachable).
  by left.
Defined.

Lemma docket_requeue_correct_witness :
  ∃ n d back, on_backend (requeue_stale (from_secs 60)) ex_claimed = (Ok n, d) ∧
    tasks_of d = requeued (from_secs 60) (from_secs 30) <$> tasks_of ex_claimed ∧
    pending (docket_backend d) = pending (docket_backend ex_claimed) ++ back ∧ n = zlen back ∧ NoDup back ∧
    ∀ i, i ∈ back ↔ ∃ u, tasks_of ex_claimed !! i = Some u ∧
                      is_stale (from_secs 60) (from_secs 30) u = true ∧ retry_count u + 1 < max_retries u.
Proof. exact (docket_requeue_correct (sys ex_claimed 2 [docket_id 1]) (from_secs 60) ex_claimed_reachable). Defined.

Definition ex_turn (stop : bool) (now : Z) : Turn :=
  {| stopped := stop; cancelled_before := false; cancelled_after := false; stale_now := now; claim_now := now |}.

Lemma docket_run_drains_witness :
  ∃ d, run ex_handlers ((ex_turn false <$> [1; 2; 3; 4]) ++ [ex_turn true 5]) ex_two = (Ok tt, d) ∧
    ∀ i u, tasks_of ex_two !! i = Some u → ∃ v, tasks_of d !! i = Some v ∧ ended ex_handlers u v.
Proof.
  apply (docket_run_drains ex_handlers (sys ex_two 2 []) (ex_turn false <$> [1; 2; 3; 4]) (ex_turn true 5) ex_two_reachable).
  - reflexivity.
  - intros i u Hi. apply elem_of_map_to_list in Hi. revert Hi.
    change (map_to_list (tasks_of (docket (sys ex_two 2 []))))
      with (map_to_list (tasks_of ex_two)).
    assert (Hall : Forall (λ kv, status kv.2 ≠ Running) (map_to_list (tasks_of ex_two))) by (vm_compute; repeat constructor; discriminate).
    intros Hi. rewrite Forall_forall in Hall. exact (Hall (i, u) Hi).
  - repeat constructor.
  - reflexivity.
  - vm_compute. discriminate.
Defined.

Lemma encode_member_order_witness :
  let u := DocketTask_new (V := nat) (from_secs 1) "a" "double" 1%nat 5 3 in
  let v := DocketTask_new (V := nat) (from_secs 2) "b" "double" 1%nat 5 3 in
  String.compare (encode_member 0 u) (encode_member 0 v) = Lt.
Proof.
  intros u v. rewrite (encode_member_order 0 u v (from_secs 1) (from_secs 2)); first reflexivity.
  all: vm_compute; repeat split; try reflexivity; discriminate.
Defined.

(** * Interrupted submissions *)

Definition outcome_of {A} (m : M D DocketError A) (d : D) : option A := match m d with (Ok a, _) => Some a | _ => None end.
Definition ex_task : DocketTask nat := DocketTask_new 0 (docket_id 0) "double" 4%nat 0 2.
Definition ex_recorded : D := after (on_backend (record_task ex_task)) (after (draw_task 0 "double" 4%nat (prio 0)) ex_new).

(** Between the two critical sections of its submission a task is listed as
    pending and no worker finds it; when it is queued, one does. *)
Example pending_but_not_found :
  outcome_of (draw_task 0 "double" 4%nat (prio 0)) ex_new = Some ex_task ∧
  status <$> tasks_of ex_recorded !! docket_id 0 = Some Pending ∧
  outcome_of (process_claim false 1 ex_handlers) ex_recorded = Some None ∧
  id <$> mjoin (outcome_of (process_claim false 1 ex_handlers) (after (on_backend (queue_task (docket_id 0) 0)) ex_recorded)) =
    Some (docket_id 0).
Proof. vm_compute. done. Qed.

(** Cancelled between them, it is queued all the same, and stays in the queue. *)
Example cancelled_task_queued :
  let d := after (on_backend (queue_task (docket_id 0) 0)) (after (on_backend (cancel (docket_id 0) None)) ex_recorded) in
  status <$> tasks_of d !! docket_id 0 = Some Cancelled ∧ pending (docket_backend d) = [docket_id 0] ∧
  outcome_of (process_claim false 1 ex_handlers) d = Some None.
Proof. vm_compute. done. Qed.

(** * Late reports and retries *)

Definition status_of (i : TaskId) (d : D) : option TaskStatus := status <$> tasks_of d !! i.

(** A worker that finishes after its task was cancelled completes it all the
    same. *)
Example late_success_overrides_cancel :
  let d := after (on_backend (cancel (docket_id 1) None)) ex_claimed in
  status_of (docket_id 1) d = Some Cancelled ∧
  status_of (docket_id 1) (after (process_settle (docket_id 1) (inl 0%nat)) d) = Some Completed.
Proof. vm_compute. done. Qed.

(** A worker whose task was given back, and completed by another worker in the
    meantime, can report a failure and put the completed task back in the queue. *)
Example late_failure_revives_completed :
  let d0 := after (submit 0 "double" 4%nat) ex_new in
  let d1 := after (process_claim false 0 ex_handlers) d0 in
  let d2 := after (on_backend (requeue_stale (from_secs 60))) d1 in
  let d3 := after (process_one false (from_secs 60) ex_handlers) d2 in
  let d4 := after (process_settle (docket_id 0) (inr (Handler "late"))) d3 in
  status_of (docket_id 0) d3 = Some Completed ∧ status_of (docket_id 0) d4 = Some Pending ∧
  pending (docket_backend d4) = [docket_id 0].
Proof. vm_compute. done. Qed.

(** A retried task stands behind tasks of lower priority. *)
Example retry_loses_priority :
  let d := after (process_settle (docket_id 1) (inr (Handler "even"))) ex_claimed in
  pending (docket_backend d) = [docket_id 0; docket_id 1] ∧
  priority <$> tasks_of d !! docket_id 0 = Some 0 ∧ priority <$> tasks_of d !! docket_id 1 = Some 5.
Proof. vm_compute. done. Qed.
End DocketExamples.
