(* ===== verification/HttpHeaders.v ===== *)
(** MCP header values and parameter mirrors,
    [crates/fastmcp-protocol/src/http_headers.rs]: definitions.  A [String] is
    the list of its bytes: every operation of this file works on bytes. *)
From stdpp Require Import base list gmap strings.
From Stdlib Require Import ZArith Lia.
From S2P Require Import Prelude Utf8 JsonGrammar RawJson RequestId.

Module Headers.

(** * Constants *)

Definition MAX_PARAMETER_HEADERS : Z := 64.
Definition MAX_PARAMETER_HEADER_NAME_BYTES : Z := 128.
Definition MAX_PARAMETER_HEADER_PATH_BYTES : Z := 16 * 1024.
Definition MAX_MCP_HEADER_VALUE_BYTES : Z := 8 * 1024.
Definition div_ceil (a b : Z) : Z := (a + b - 1) / b.
Definition MAX_MCP_ENCODED_HEADER_VALUE_BYTES : Z := 4 * div_ceil MAX_MCP_HEADER_VALUE_BYTES 3 + 10.
Definition MAX_PARAMETER_HEADER_BLOCK_BYTES : Z := 64 * 1024.
Definition MAX_PARAMETER_HEADER_INTEGER : Z := 9007199254740991.
Definition MAX_INTEGER_LEXEME_BYTES : Z := 1024.
Definition MAX_SCHEMA_VALIDATION_DEPTH : Z := 64.
Definition MAX_SCHEMA_ADMISSION_NODES : Z := 4096.

Definition PREFIX : list Z := chars_of "Mcp-Param-".
Definition SENTINEL_PREFIX : list Z := chars_of "=?base64?".
Definition SENTINEL_SUFFIX : list Z := chars_of "?=".

Inductive McpHeaderError : Type :=
| InvalidSchema | InvalidAnnotation | UnreachableAnnotation | DuplicateAnnotation
| InvalidParameter | InvalidHeaderValue | HeaderMismatch | LimitExceeded.

#[export] Instance McpHeaderError_eq_dec : EqDecision McpHeaderError.
Proof. solve_decision. Defined.

Abbreviation Res := (outcome McpHeaderError).

(** * Standard library and [base64] *)

(** [str::starts_with] and [str::ends_with] *)
Definition has_prefix (p s : list Z) : bool := bool_decide (take (length p) s = p).
Definition has_suffix (p s : list Z) : bool :=
  bool_decide (length p ≤ length s)%nat && bool_decide (drop (length s - length p) s = p).

(** [&s[from..to]] on ASCII text *)
Definition slice (s : list Z) (from to : Z) : Res (list Z) :=
  if (from <=? to) && (to <=? zlen s)
  then Ok (take (Z.to_nat (to - from)) (drop (Z.to_nat from) s)) else Panic.

(** [trim_matches([' ', '\t'])] *)
Definition is_ows (b : Z) : bool := (b =? 32) || (b =? 9).
Fixpoint trim_start (s : list Z) : list Z :=
  match s with b :: r => if is_ows b then trim_start r else s | [] => [] end.
Definition trim_matches (s : list Z) : list Z := rev (trim_start (rev (trim_start s))).

Definition to_ascii_lowercase (b : Z) : Z := if (65 <=? b) && (b <=? 90) then b + 32 else b.
Definition eq_ignore_ascii_case (a b : list Z) : bool :=
  bool_decide (to_ascii_lowercase <$> a = to_ascii_lowercase <$> b).

(** The [STANDARD] engine of the crate [base64]. *)
Class Base64 : Type := {
  base64_encode : list Z → list Z;
  base64_decode : list Z → option (list Z);
}.

(** * Header values *)

Definition is_field_value_byte (b : Z) : bool := (b =? 9) || (32 <=? b) && (b <=? 126).
Definition is_tchar (b : Z) : bool :=
  Raw.is_ascii_alphanumeric b || bool_decide (b ∈ chars_of "!#$%&'*+-.^_`|~").

Definition is_sentinel (value : list Z) : bool :=
  has_prefix SENTINEL_PREFIX value && has_suffix SENTINEL_SUFFIX value.

Definition plain (value : list Z) : bool :=
  forallb is_field_value_byte value &&
  negb (match head value with Some b => is_ows b | None => false end) &&
  negb (match last value with Some b => is_ows b | None => false end) &&
  negb (is_sentinel value).

Section values.
Context `{Base64}.

Definition encode_mcp_header_value (value : list Z) : Res (list Z) :=
  if MAX_MCP_HEADER_VALUE_BYTES <? zlen value then Err LimitExceeded
  else if plain value then Ok value
  else Ok (SENTINEL_PREFIX ++ base64_encode value ++ SENTINEL_SUFFIX).

Definition decode_mcp_header_value (value : list Z) : Res (list Z) :=
  if MAX_MCP_ENCODED_HEADER_VALUE_BYTES <? zlen value then Err LimitExceeded
  else if negb (forallb is_field_value_byte value) then Err InvalidHeaderValue
  else
    let value := trim_matches value in
    if is_sentinel value then
      let? encoded := slice value (zlen SENTINEL_PREFIX) (zlen value - zlen SENTINEL_SUFFIX) in
      match base64_decode encoded with
      | None => Err InvalidHeaderValue
      | Some decoded =>
          if MAX_MCP_HEADER_VALUE_BYTES <? zlen decoded then Err LimitExceeded
          else if from_utf8 decoded then Ok decoded else Err InvalidHeaderValue
      end
    else if MAX_MCP_HEADER_VALUE_BYTES <? zlen value then Err LimitExceeded
    else Ok value.
End values.

(** * Integers *)

Definition i32_max : Z := 2 ^ 31 - 1.
Definition checked_i32 (n : Z) : option Z := if (- 2 ^ 31 <=? n) && (n <=? i32_max) then Some n else None.
Definition checked_i64 (n : Z) : option Z := if (i64_min <=? n) && (n <=? i64_max) then Some n else None.

(** Digits are kept as their values. *)
Definition digit_values (ds : list Z) : list Z := (λ b, b - 48) <$> ds.

(** The whole digits at the cursor, and what follows them. *)
Definition whole_part (rest : list Z) : option (list Z * list Z) :=
  match rest with
  | [] => None
  | first :: r =>
      if first =? 48 then
        match r with
        | b :: _ => if is_digit b then None else Some ([0], r)
        | [] => Some ([0], r)
        end
      else if (49 <=? first) && (first <=? 57) then
        let ds := take_while is_digit rest in
        Some (digit_values ds, drop (length ds) rest)
      else None
  end.

(** The fraction digits, and what follows them. *)
Definition fraction_part (rest : list Z) : option (list Z * list Z) :=
  match rest with
  | 46 :: r =>
      let ds := take_while is_digit r in
      if bool_decide (ds = []) then None else Some (digit_values ds, drop (length ds) r)
  | _ => Some ([], rest)
  end.

Fixpoint exponent_value (ds : list Z) (exponent : Z) : option Z :=
  match ds with
  | [] => Some exponent
  | b :: ds =>
      n ← checked_i32 (exponent * 10); n ← checked_i32 (n + (b - 48)); exponent_value ds n
  end.

(** The exponent, and what follows it. *)
Definition exponent_part (rest : list Z) : option (Z * list Z) :=
  match rest with
  | e :: r =>
      if (e =? 101) || (e =? 69) then
        let subtract := bool_decide (head r = Some 45) in
        let r := match r with b :: r' => if (b =? 43) || (b =? 45) then r' else r | [] => r end in
        let ds := take_while is_digit r in
        exponent ← exponent_value ds 0;
        if bool_decide (ds = []) then None else
        exponent ← (if subtract then checked_i32 (- exponent) else Some exponent);
        Some (exponent, drop (length ds) r)
      else Some (0, rest)
  | [] => Some (0, rest)
  end.

Fixpoint skip_zero_digits (ds : list Z) : list Z :=
  match ds with d :: r => if d =? 0 then skip_zero_digits r else ds | [] => [] end.

(** Dropping [- scale] trailing zeros, when they are zeros and not everything. *)
Definition unscaled (ds : list Z) (scale : Z) : option (list Z) :=
  if scale <? 0 then
    neg ← checked_i32 (- scale);
    let remove := Z.to_nat neg in
    if bool_decide (length ds ≤ remove)%nat || existsb (λ d, negb (d =? 0)) (drop (length ds - remove) ds)
    then None
    else Some (take (length ds - remove) ds)
  else Some ds.

Fixpoint accumulate (ds : list Z) (value : Z) : option Z :=
  match ds with
  | [] => Some value
  | d :: ds => n ← checked_i64 (value * 10); n ← checked_i64 (n + d); accumulate ds n
  end.

Fixpoint times_ten (zeros : nat) (value : Z) : option Z :=
  match zeros with O => Some value | S z => n ← checked_i64 (value * 10); times_ten z n end.

Definition safe_integer (source : list Z) : option Z :=
  if bool_decide (source = []) || (MAX_INTEGER_LEXEME_BYTES <? zlen source) then None else
  let negative := bool_decide (head source = Some 45) in
  let rest := if negative then tail source else source in
  '(whole, rest) ← whole_part rest;
  '(fr, rest) ← fraction_part rest;
  '(exponent, rest) ← exponent_part rest;
  if negb (bool_decide (rest = [])) then None else
  match skip_zero_digits (whole ++ fr) with
  | [] => Some 0
  | ds =>
      scale ← checked_i32 (exponent - zlen fr);
      ds ← unscaled ds scale;
      let zeros := Z.to_nat (Z.max scale 0) in
      if 16 <? zlen ds + Z.of_nat zeros then None else
      value ← accumulate ds 0;
      value ← times_ten zeros value;
      if MAX_PARAMETER_HEADER_INTEGER <? value then None
      else Some (if negative then - value else value)
  end.

(** * Values, plans and mirrors *)

(** [serde_json::Value]; a number is the text it displays, an object its members
    in iteration order. *)
#[warning="-register-all"]
Inductive Value : Type :=
| VNull
| VBool (b : bool)
| VNumber (text : list Z)
| VString (s : list Z)
| VArray (vs : list Value)
| VObject (ms : list (list Z * Value)).

Definition as_object (v : Value) : option (list (list Z * Value)) :=
  match v with VObject ms => Some ms | _ => None end.

(** [Map::get] *)
Fixpoint get_member (key : list Z) (ms : list (list Z * Value)) : option Value :=
  match ms with
  | [] => None
  | (k, v) :: ms => if bool_decide (k = key) then Some v else get_member key ms
  end.

Inductive ParameterHeaderType : Type := PString | PInteger | PBoolean.

Record ParameterHeaderBinding : Type := {
  path : list (list Z);
  name : list Z;
  kind : ParameterHeaderType;
}.

Fixpoint value_at (value : option Value) (p : list (list Z)) : option Value :=
  match p with
  | [] => value
  | key :: p => v ← value; ms ← as_object v; value_at (get_member key ms) p
  end.

Definition primitive_value (k : ParameterHeaderType) (v : Value) : Res (list Z) :=
  match k, v with
  | PString, VString s => if zlen s <=? MAX_MCP_HEADER_VALUE_BYTES then Ok s else Err LimitExceeded
  | PBoolean, VBool b => Ok (if b then chars_of "true" else chars_of "false")
  | PInteger, VNumber text =>
      if MAX_INTEGER_LEXEME_BYTES <? zlen text then Err LimitExceeded
      else match safe_integer text with
           | Some n => Ok (i64_to_string n)
           | None => Err InvalidParameter
           end
  | _, _ => Err InvalidParameter
  end.

(** The value a binding mirrors: present and not null. *)
Definition mirrored (arguments : option Value) (b : ParameterHeaderBinding) : option Value :=
  match value_at arguments (path b) with Some VNull => None | o => o end.

Definition not_object (arguments : option Value) : bool :=
  match arguments with Some (VObject _) | None => false | Some _ => true end.

Section mirrors.
Context `{Base64}.

Fixpoint project_loop (bindings : list ParameterHeaderBinding) (arguments : option Value) (bytes : Z)
    : Res (list (list Z * list Z)) :=
  match bindings with
  | [] => Ok []
  | b :: bindings =>
      match mirrored arguments b with
      | None => project_loop bindings arguments bytes
      | Some v =>
          let? p := primitive_value (kind b) v in
          let? encoded := encode_mcp_header_value p in
          match checked_add bytes (zlen (name b)) ≫= (λ n, checked_add n (zlen encoded)) with
          | None => Err LimitExceeded
          | Some bytes =>
              if MAX_PARAMETER_HEADER_BLOCK_BYTES <? bytes then Err LimitExceeded
              else
                let? fields := project_loop bindings arguments bytes in
                Ok ((name b, encoded) :: fields)
          end
      end
  end.

Definition project (bindings : list ParameterHeaderBinding) (arguments : option Value)
    : Res (list (list Z * list Z)) :=
  if not_object arguments then Err InvalidParameter else project_loop bindings arguments 0.

(** The comparison of a mirror with the body, by kind. *)
Definition mirrors (k : ParameterHeaderType) (decoded expected : list Z) : bool :=
  match k with
  | PInteger => match safe_integer decoded with
                | Some n => bool_decide (i64_to_string n = expected)
                | None => false
                end
  | _ => bool_decide (decoded = expected)
  end.

Definition named (n : list Z) (headers : list (list Z * list Z)) : list (list Z * list Z) :=
  filter (λ h, eq_ignore_ascii_case h.1 n = true) headers.

Fixpoint validate_loop (bindings : list ParameterHeaderBinding) (arguments : option Value)
    (headers : list (list Z * list Z)) (total : Z) : Res unit :=
  match bindings with
  | [] => Ok tt
  | b :: bindings =>
      match named (name b) headers, mirrored arguments b with
      | _ :: _ :: _, _ => Err HeaderMismatch
      | [], None => validate_loop bindings arguments headers total
      | [h], Some v =>
          match checked_add total (zlen h.1) ≫= (λ n, checked_add n (zlen h.2)) with
          | None => Err LimitExceeded
          | Some total =>
              if MAX_PARAMETER_HEADER_BLOCK_BYTES <? total then Err LimitExceeded
              else
                let? decoded := decode_mcp_header_value h.2 in
                let? expected := primitive_value (kind b) v in
                if mirrors (kind b) decoded expected
                then validate_loop bindings arguments headers total
                else Err HeaderMismatch
          end
      | _, _ => Err HeaderMismatch
      end
  end.

Definition validate (bindings : list ParameterHeaderBinding) (arguments : option Value)
    (headers : list (list Z * list Z)) : Res unit :=
  if not_object arguments then Err InvalidParameter
  else if 1024 <? zlen headers then Err LimitExceeded
  else validate_loop bindings arguments headers 0.
End mirrors.

(** * Compiling a schema *)

Record Compiler : Type := {
  bindings : list ParameterHeaderBinding;
  nodes : Z;
  path_bytes : Z;
}.
Definition Compiler_new : Compiler := {| bindings := []; nodes := 0; path_bytes := 0 |}.
Abbreviation C := (M Compiler McpHeaderError).

(** [for x in l { f(x)?; }] *)
Fixpoint for_each {A} (f : A → C unit) (l : list A) : C unit :=
  match l with [] => ret tt | x :: l => f x ;! for_each f l end.

Definition kind_of (v : option Value) : option ParameterHeaderType :=
  match v with
  | Some (VString s) =>
      if bool_decide (s = chars_of "string") then Some PString
      else if bool_decide (s = chars_of "integer") then Some PInteger
      else if bool_decide (s = chars_of "boolean") then Some PBoolean
      else None
  | _ => None
  end.

(** What [visit] does with an annotation. *)
Definition annotate (ms : list (list Z * Value)) (p : list (list Z)) (reachable : bool)
    (annotation : Value) : C unit :=
  if negb reachable || bool_decide (p = []) then fail UnreachableAnnotation else
  match annotation with
  | VString suffix =>
      if bool_decide (suffix = []) || negb (forallb is_tchar suffix) then fail InvalidAnnotation else
      let! c := get in
      if (MAX_PARAMETER_HEADER_NAME_BYTES - zlen PREFIX <? zlen suffix) ||
         (MAX_PARAMETER_HEADERS <=? zlen (bindings c)) then fail LimitExceeded else
      let! k := ok_or (kind_of (get_member (chars_of "type") ms)) InvalidAnnotation in
      let n := PREFIX ++ suffix in
      if existsb (λ b, eq_ignore_ascii_case (name b) n) (bindings c) then fail DuplicateAnnotation else
      let! bytes := ok_or (try_sum (zlen <$> p) (path_bytes c)) LimitExceeded in
      modify (λ c, {| bindings := bindings c; nodes := nodes c; path_bytes := bytes |}) ;!
      if MAX_PARAMETER_HEADER_PATH_BYTES <? bytes then fail LimitExceeded else
      modify (λ c, {| bindings := bindings c ++ [{| path := p; name := n; kind := k |}];
                      nodes := nodes c; path_bytes := path_bytes c |})
  | _ => fail InvalidAnnotation
  end.

(** Which schemas a keyword holds. *)
Inductive Position : Type := Properties | NamedSchemas | ListedSchemas | OneSchema | NoSchema.

Definition position_of (keyword : list Z) : Position :=
  if bool_decide (keyword = chars_of "properties") then Properties
  else if bool_decide (keyword ∈ chars_of <$>
    ["$defs"; "definitions"; "patternProperties"; "dependentSchemas"; "dependencies"]%string) then NamedSchemas
  else if bool_decide (keyword ∈ chars_of <$> ["allOf"; "anyOf"; "oneOf"; "prefixItems"]%string) then ListedSchemas
  else if bool_decide (keyword ∈ chars_of <$>
    ["items"; "contains"; "additionalProperties"; "unevaluatedProperties"; "unevaluatedItems";
     "propertyNames"; "not"; "if"; "then"; "else"; "contentSchema"]%string) then OneSchema
  else NoSchema.

(** The fuel bounds the depth, which [visit] itself bounds first. *)
Fixpoint visit (fuel : nat) (schema : Value) (p : list (list Z)) (reachable : bool) (depth : Z) : C unit :=
  match fuel with
  | O => out_of_fuel
  | S fuel =>
      modify (λ c, {| bindings := bindings c; nodes := nodes c + 1; path_bytes := path_bytes c |}) ;!
      let! c := get in
      if (MAX_SCHEMA_ADMISSION_NODES <? nodes c) || (MAX_SCHEMA_VALIDATION_DEPTH <? depth)
      then fail LimitExceeded else
      match as_object schema with
      | None => ret tt
      | Some ms =>
          match get_member (chars_of "x-mcp-header") ms with
          | None => ret tt
          | Some annotation => annotate ms p reachable annotation
          end ;!
          for_each (λ kv,
            match position_of kv.1, kv.2 with
            | Properties, VObject ps =>
                for_each (λ nc,
                  if MAX_PARAMETER_HEADER_PATH_BYTES <? zlen nc.1 then fail LimitExceeded
                  else visit fuel nc.2 (p ++ [nc.1]) reachable (depth + 1)) ps
            | NamedSchemas, VObject ps => for_each (λ nc, visit fuel nc.2 p false (depth + 1)) ps
            | ListedSchemas, VArray vs => for_each (λ child, visit fuel child p false (depth + 1)) vs
            | OneSchema, value => visit fuel value p false (depth + 1)
            | _, _ => ret tt
            end) ms
      end
  end.

(** [ToolParameterHeaderPlan::compile], from the source of an admitted schema. *)
Definition compile (schema : Value) : Res (list ParameterHeaderBinding) :=
  match visit (Z.to_nat MAX_SCHEMA_VALIDATION_DEPTH + 2) schema [] true 0 Compiler_new with
  | (Ok _, c) => Ok (bindings c)
  | (Err e, _) => Err e
  | (Panic, _) => Panic
  | (OutOfFuel, _) => OutOfFuel
  end.
End Headers.
