(* ===== verification/HttpHeaderValues.v ===== *)
(** Header values survive the wire: what one side encodes has only harmless bytes
    and the other side decodes to the same value; and which values do not. *)
From stdpp Require Import base list gmap strings.
From Stdlib Require Import ZArith Lia.
From S2P Require Import Prelude Utf8 JsonGrammar RawJson RequestId HttpHeaders.

Module HeaderValues.
Import Headers.

(** What is documented of the [STANDARD] engine: the alphabet, the padding to
    groups of four, and that decoding inverts encoding. *)
Definition is_base64_byte (b : Z) : bool :=
  Raw.is_ascii_alphanumeric b || (b =? 43) || (b =? 47) || (b =? 61).

Class Base64Laws `{Base64} : Prop := {
  base64_alphabet v : Forall is_byte v → Forall (λ b, is_base64_byte b = true) (base64_encode v);
  base64_length v : Forall is_byte v → zlen (base64_encode v) = 4 * div_ceil (zlen v) 3;
  base64_round_trip v : Forall is_byte v → base64_decode (base64_encode v) = Some v;
}.

(** * Trimming *)

Definition ows (s : list Z) : Prop := Forall (λ b, is_ows b = true) s.
Definition last_not (s : list Z) : Prop := head_not is_ows (rev s).

Lemma trim_start_app o s : ows o → trim_start (o ++ s) = trim_start s.
Proof. induction 1 as [|b o Hb Ho IH]; simpl; [done|]. by rewrite Hb. Qed.

Lemma trim_start_id s : head_not is_ows s → trim_start s = s.
Proof. destruct s as [|b s]; simpl; [done|]. by intros ->. Qed.

Lemma trim_matches_app o1 s o2 :
  ows o1 → ows o2 → head_not is_ows s → last_not s → trim_matches (o1 ++ s ++ o2) = s.
Proof.
  intros H1 H2 Hh Hl. unfold trim_matches. rewrite trim_start_app by done.
  destruct s as [|b s].
  - pose proof (trim_start_app o2 [] H2) as Ht. rewrite app_nil_r in Ht. simpl. rewrite Ht. done.
  - rewrite (trim_start_id ((b :: s) ++ o2)) by exact Hh. rewrite rev_app_distr, trim_start_app by (by apply Forall_rev).
    rewrite trim_start_id by exact Hl. apply rev_involutive.
Qed.

Lemma last_not_app p s : s ≠ [] → last_not s → last_not (p ++ s).
Proof.
  intros Hne. unfold last_not. rewrite rev_app_distr. destruct (rev s) as [|b r] eqn:E; [|done].
  apply (f_equal (@rev Z)) in E. rewrite rev_involutive in E. done.
Qed.

(** * The sentinel *)

Lemma has_prefix_app p s : has_prefix p (p ++ s) = true.
Proof. unfold has_prefix. by rewrite take_app_length, bool_decide_true. Qed.

Lemma has_suffix_app p s : has_suffix p (s ++ p) = true.
Proof.
  unfold has_suffix. rewrite length_app. replace (length s + length p - length p)%nat with (length s) by lia.
  rewrite drop_app_length, !bool_decide_true by (done || lia). done.
Qed.

Lemma is_sentinel_wrap e : is_sentinel (SENTINEL_PREFIX ++ e ++ SENTINEL_SUFFIX) = true.
Proof. unfold is_sentinel. rewrite has_prefix_app. by rewrite app_assoc, has_suffix_app. Qed.

Lemma slice_wrap e :
  let value := SENTINEL_PREFIX ++ e ++ SENTINEL_SUFFIX in
  slice value (zlen SENTINEL_PREFIX) (zlen value - zlen SENTINEL_SUFFIX) = Ok e.
Proof.
  intros value. unfold slice, value. rewrite !zlen_app. pose proof (zlen_nonneg e).
  pose proof (zlen_nonneg SENTINEL_PREFIX). pose proof (zlen_nonneg SENTINEL_SUFFIX).
  rewrite (proj2 (Z.leb_le _ _)), (proj2 (Z.leb_le _ _)) by lia. simpl andb. cbn match.
  replace (Z.to_nat (zlen SENTINEL_PREFIX)) with (length SENTINEL_PREFIX) by (unfold zlen; lia).
  rewrite drop_app_length.
  replace (Z.to_nat _) with (length e) by (unfold zlen; lia). by rewrite take_app_length.
Qed.

(** A value that looks like a sentinel has room for the two ends unless they
    overlap. *)
Lemma is_sentinel_short value :
  is_sentinel value = true → zlen value < 11 → value = chars_of "=?base64?=".
Proof.
  unfold is_sentinel, has_prefix, has_suffix, zlen. intros [Hp Hs]%andb_true_iff Hl.
  apply bool_decide_eq_true in Hp. apply andb_true_iff in Hs as [_ Hs%bool_decide_eq_true].
  change (length SENTINEL_PREFIX) with 9%nat in Hp. rewrite <- (take_drop 9 value), Hp in Hs, Hl |- *.
  destruct (drop 9 value) as [|b [|b' rest]]; [by vm_compute in Hs| |].
  - change (drop _ _) with [63; b] in Hs. injection Hs as ->. reflexivity.
  - rewrite length_app in Hl. change (length SENTINEL_PREFIX) with 9%nat in Hl. cbn [length] in Hl. lia.
Qed.

(** * Encoding and decoding *)

Lemma forallb_field l : forallb is_field_value_byte l = true ↔ Forall (λ b, is_field_value_byte b = true) l.
Proof.
  induction l as [|b l IH]; simpl; [by split|]. rewrite andb_true_iff, IH. split; [intros []; by constructor|].
  by inversion_clear 1.
Qed.

Lemma base64_byte_field b : is_base64_byte b = true → is_field_value_byte b = true ∧ is_ows b = false.
Proof.
  unfold is_base64_byte, is_field_value_byte, is_ows, Raw.is_ascii_alphanumeric.
  rewrite !orb_true_iff, !andb_true_iff, orb_false_iff, !Z.leb_le, !Z.eqb_eq, !Z.eqb_neq. lia.
Qed.

Lemma ows_field b : is_ows b = true → is_field_value_byte b = true.
Proof. unfold is_ows, is_field_value_byte. rewrite !orb_true_iff, andb_true_iff, !Z.eqb_eq, !Z.leb_le. lia. Qed.

Section values.
Context `{Base64Laws}.

Lemma plain_spec v :
  plain v = true →
  Forall (λ b, is_field_value_byte b = true) v ∧ head_not is_ows v ∧ last_not v ∧ is_sentinel v = false.
Proof.
  unfold plain. rewrite !andb_true_iff, !negb_true_iff, forallb_field. intros [[[Hf Hh] Hl] Hs].
  split_and!; [done| | |done].
  - by destruct v.
  - unfold last_not. destruct v as [|b v' _] using rev_ind; [done|]. rewrite last_snoc in Hl.
    by rewrite rev_app_distr.
Qed.

(** What is sent: only field bytes, no white space at the ends. *)
Lemma encode_spec v :
  Forall is_byte v → zlen v <= MAX_MCP_HEADER_VALUE_BYTES →
  ∃ e, encode_mcp_header_value v = Ok e ∧ Forall (λ b, is_field_value_byte b = true) e ∧
    head_not is_ows e ∧ last_not e ∧
    zlen e = (if plain v then zlen v else 4 * div_ceil (zlen v) 3 + 11).
Proof.
  intros Hb Hl. unfold encode_mcp_header_value. rewrite (proj2 (Z.ltb_ge _ _)) by done.
  destruct (plain v) eqn:Hp.
  - apply plain_spec in Hp as (? & ? & ? & ?). by exists v.
  - eexists. split; [done|]. split_and!.
    + apply Forall_app. split; [by repeat constructor|]. apply Forall_app. split; [|by repeat constructor].
      eapply Forall_impl; [by apply base64_alphabet|]. intros b Hbb. by apply base64_byte_field.
    + done.
    + rewrite app_assoc. by apply last_not_app.
    + rewrite !zlen_app, base64_length by done. change (zlen SENTINEL_PREFIX) with 9. change (zlen SENTINEL_SUFFIX) with 2.
      lia.
Qed.

Lemma decode_encoded v e o1 o2 :
  valid_utf8 v → encode_mcp_header_value v = Ok e → ows o1 → ows o2 →
  zlen (o1 ++ e ++ o2) <= MAX_MCP_ENCODED_HEADER_VALUE_BYTES →
  decode_mcp_header_value (o1 ++ e ++ o2) = Ok v.
Proof.
  intros Hu He H1 H2 Hl. pose proof (valid_utf8_bytes v Hu) as Hb.
  assert (Hv : zlen v <= MAX_MCP_HEADER_VALUE_BYTES).
  { unfold encode_mcp_header_value in He. case_if_in He; [done|]. by zbool. }
  destruct (encode_spec v Hb Hv) as (e' & He' & Hf & Hh & Hla & _). rewrite He in He'. injection He' as <-.
  unfold decode_mcp_header_value. rewrite (proj2 (Z.ltb_ge _ _)) by done.
  assert (Hof : ∀ o, ows o → Forall (λ b, is_field_value_byte b = true) o).
  { intros o Ho. eapply Forall_impl; [exact Ho|]. apply ows_field. }
  rewrite (proj2 (forallb_field _)) by (rewrite !Forall_app; auto). cbn [negb].
  rewrite trim_matches_app by done. unfold encode_mcp_header_value in He.
  rewrite (proj2 (Z.ltb_ge _ _)) in He by done. destruct (plain v) eqn:Hp.
  - assert (e = v) as -> by congruence. apply plain_spec in Hp as (_ & _ & _ & ->). by rewrite (proj2 (Z.ltb_ge _ _)) by done.
  - assert (e = SENTINEL_PREFIX ++ base64_encode v ++ SENTINEL_SUFFIX) as -> by congruence.
    rewrite is_sentinel_wrap, slice_wrap. cbn [obind]. rewrite base64_round_trip by done.
    rewrite (proj2 (Z.ltb_ge _ _)) by done. by rewrite (proj2 (from_utf8_spec v)).
Qed.

(** A string of at most 8192 bytes is always encoded, into visible ASCII, space
    and tab only (so that no header can be injected) and without white space at
    the ends; what is encoded, with any white space around it, decodes to the same
    string as long as the field keeps to the receiver's limit, which it does for
    every string of at most 8190 bytes and for every one sent as it is. *)
Theorem header_value_round_trip v :
  valid_utf8 v → zlen v <= MAX_MCP_HEADER_VALUE_BYTES →
  ∃ e, encode_mcp_header_value v = Ok e ∧
    Forall (λ b, is_field_value_byte b = true) e ∧ head_not is_ows e ∧ last_not e ∧
    (∀ o1 o2, ows o1 → ows o2 → zlen (o1 ++ e ++ o2) <= MAX_MCP_ENCODED_HEADER_VALUE_BYTES →
       decode_mcp_header_value (o1 ++ e ++ o2) = Ok v) ∧
    (zlen v <= 8190 ∨ plain v = true → zlen e <= MAX_MCP_ENCODED_HEADER_VALUE_BYTES).
Proof.
  intros Hu Hl. destruct (encode_spec v (valid_utf8_bytes v Hu) Hl) as (e & He & Hf & Hh & Hla & Hlen).
  exists e. split_and!; [done..| |].
  - intros. by apply decode_encoded.
  - rewrite Hlen. change MAX_MCP_ENCODED_HEADER_VALUE_BYTES with 10934. unfold MAX_MCP_HEADER_VALUE_BYTES in Hl.
    destruct (plain v); [lia|]. intros [Hs|?]; [|done]. unfold div_ceil. dlia.
Qed.

(** The receiver refuses what the sender makes of longer strings it has to wrap:
    the limit leaves room for ten bytes of sentinel, which has eleven. *)
Lemma long_value_refused v e :
  valid_utf8 v → 8190 < zlen v <= MAX_MCP_HEADER_VALUE_BYTES → plain v = false →
  encode_mcp_header_value v = Ok e → decode_mcp_header_value e = Err LimitExceeded.
Proof.
  intros Hu Hl Hp He. destruct (encode_spec v (valid_utf8_bytes v Hu)) as (e' & He' & _ & _ & _ & Hlen); [lia|].
  rewrite He in He'. injection He' as <-. rewrite Hp in Hlen. unfold decode_mcp_header_value.
  rewrite (proj2 (Z.ltb_lt _ _)); [done|]. change MAX_MCP_ENCODED_HEADER_VALUE_BYTES with 10934.
  unfold MAX_MCP_HEADER_VALUE_BYTES in Hl. rewrite Hlen. unfold div_ceil. dlia.
Qed.

(** C39: decoding a field received from the network ends with a value or an error,
    with one exception: it panics exactly when the field, without the white space
    around it, is the text in which the two ends of the sentinel overlap. *)
Theorem header_decode_panics_iff v :
  ¬ settled (decode_mcp_header_value v) ↔
  zlen v <= MAX_MCP_ENCODED_HEADER_VALUE_BYTES ∧ Forall (λ b, is_field_value_byte b = true) v ∧
  trim_matches v = chars_of "=?base64?=".
Proof.
  unfold decode_mcp_header_value. destruct (_ <? zlen v) eqn:E1; zbool.
  { split; [by intros []|]. intros [? _]. lia. }
  destruct (forallb is_field_value_byte v) eqn:E2; cbn [negb].
  2:{ split; [by intros []|]. intros (_ & Hf & _). apply forallb_field in Hf. congruence. }
  apply forallb_field in E2. set (w := trim_matches v).
  destruct (is_sentinel w) eqn:E3.
  - destruct (Z.lt_ge_cases (zlen w) 11) as [Hs|Hs].
    + pose proof (is_sentinel_short w E3 Hs) as Hw. rewrite Hw. split; [done|]. intros _ Hx. exact Hx.
    + split.
      * intros Hn. exfalso. apply Hn. unfold slice. change (zlen SENTINEL_PREFIX) with 9.
        change (zlen SENTINEL_SUFFIX) with 2. rewrite (proj2 (Z.leb_le _ _)), (proj2 (Z.leb_le _ _)) by lia.
        cbn [andb obind]. destruct (base64_decode _); [|done]. by repeat case_goal_if.
      * intros (_ & _ & Hw). rewrite Hw in Hs. vm_compute in Hs. congruence.
  - split; [intros []; by case_goal_if|]. intros (_ & _ & Hw). rewrite Hw in E3. by vm_compute in E3.
Qed.
End values.
End HeaderValues.
