(* ===== verification/HttpHeaderIntegers.v ===== *)
(** The integers of parameter headers: [safe_integer] computes the exact value of
    a JSON number, within the range that every JSON implementation represents. *)
From stdpp Require Import base list gmap strings.
From Stdlib Require Import ZArith Lia.
From S2P Require Import Prelude Utf8 JsonGrammar Scanner JsonLex RawJson RequestId RequestIdTheorems.
From S2P Require Import HttpHeaders.

Module HeaderIntegers.
Import Headers.

(** * Digits *)

Definition num (ds : list Z) : Z := foldl (λ v d, v * 10 + d) 0 ds.
Definition small (d : Z) : Prop := 0 <= d <= 9.

Lemma num_from ds a : foldl (λ v d, v * 10 + d) a ds = a * 10 ^ zlen ds + num ds.
Proof.
  revert a. induction ds as [|d ds IH]; intros a; [unfold num, zlen; simpl; lia|].
  unfold num. cbn [foldl]. rewrite (IH (a * 10 + d)), (IH (0 * 10 + d)), zlen_cons, Z.pow_add_r by
    (pose proof (zlen_nonneg ds); lia). lia.
Qed.

Lemma num_cons d ds : num (d :: ds) = d * 10 ^ zlen ds + num ds.
Proof. unfold num at 1. cbn [foldl]. rewrite num_from. lia. Qed.

Lemma num_app a b : num (a ++ b) = num a * 10 ^ zlen b + num b.
Proof. unfold num at 1. rewrite foldl_app. fold (num a). apply num_from. Qed.

Lemma num_bound ds : Forall small ds → 0 <= num ds < 10 ^ zlen ds.
Proof.
  induction 1 as [|d ds [H1 H2] Hds IH]; [done|]. rewrite num_cons, zlen_cons, Z.pow_add_r by
    (pose proof (zlen_nonneg ds); lia). nia.
Qed.

Lemma num_digit_values ds : num (digit_values ds) = dec_value ds.
Proof. unfold num, digit_values, dec_value. by rewrite foldl_fmap. Qed.

Lemma digit_values_small ds : digits ds → Forall small (digit_values ds).
Proof.
  intros Hds. apply Forall_fmap. eapply Forall_impl; [exact Hds|]. intros b Hb. apply digit_range in Hb.
  unfold small. simpl. lia.
Qed.

Lemma skip_zero_digits_spec ds :
  Forall small ds → num (skip_zero_digits ds) = num ds ∧ Forall small (skip_zero_digits ds) ∧
    zlen (skip_zero_digits ds) <= zlen ds ∧
    match skip_zero_digits ds with [] => num ds = 0 | d :: r => 10 ^ zlen r <= num (d :: r) end.
Proof.
  induction 1 as [|d ds [H1 H2] Hds IH]; [done|]. cbn [skip_zero_digits].
  destruct (Z.eqb_spec d 0) as [->|Hd].
  - destruct IH as (Hn & Hs & Hl & Hm). rewrite num_cons, zlen_cons, Z.mul_0_l. rewrite Hn.
    split_and!; [done|done|lia|done].
  - split_and!; [done|by constructor|done|]. rewrite num_cons. pose proof (num_bound ds Hds). nia.
Qed.

Lemma num_zeroes ds : Forall small ds → existsb (λ d, negb (d =? 0)) ds = false ↔ num ds = 0.
Proof.
  induction 1 as [|d ds [H1 H2] Hds IH]; [done|]. simpl. rewrite num_cons, orb_false_iff, IH, negb_false_iff, Z.eqb_eq.
  pose proof (num_bound ds Hds). pose proof (Z.pow_pos_nonneg 10 (zlen ds)). pose proof (zlen_nonneg ds).
  split; [intros [-> ->]; lia|]. intros He. split; nia.
Qed.

(** * Checked arithmetic that succeeds *)

Lemma checked_i64_ok n : 0 <= n <= i64_max → checked_i64 n = Some n.
Proof. intros Hn. unfold checked_i64, i64_min. by rewrite !(proj2 (Z.leb_le _ _)) by lia. Qed.

Lemma accumulate_ok ds : ∀ a,
  Forall small ds → 0 <= a → a * 10 ^ zlen ds + num ds <= i64_max →
  accumulate ds a = Some (a * 10 ^ zlen ds + num ds).
Proof.
  induction ds as [|d ds IH]; intros a Hs Ha Hle; [simpl; f_equal; unfold num, zlen; simpl; lia|].
  inversion_clear Hs as [|? ? [H1 H2] Hds]. pose proof (num_bound ds Hds).
  pose proof (Z.pow_pos_nonneg 10 (zlen ds) ltac:(lia) (zlen_nonneg ds)).
  rewrite num_cons, zlen_cons, Z.pow_add_r in * by (pose proof (zlen_nonneg ds); lia).
  cbn [accumulate]. rewrite checked_i64_ok by nia. cbn. rewrite checked_i64_ok by nia. cbn.
  rewrite IH by (done || nia). f_equal. lia.
Qed.

Lemma times_ten_ok z : ∀ a,
  0 <= a → a * 10 ^ Z.of_nat z <= i64_max → times_ten z a = Some (a * 10 ^ Z.of_nat z).
Proof.
  induction z as [|z IH]; intros a Ha Hle; [simpl; f_equal; lia|].
  rewrite Nat2Z.inj_succ, Z.pow_succ_r in * by lia. pose proof (Z.pow_pos_nonneg 10 (Z.of_nat z)).
  cbn [times_ten]. rewrite checked_i64_ok by nia. cbn. rewrite IH by nia. f_equal. lia.
Qed.

Lemma checked_i32_Some n m : checked_i32 n = Some m ↔ m = n ∧ - 2 ^ 31 <= n <= i32_max.
Proof.
  unfold checked_i32. destruct ((_ <=? n) && (n <=? _)) eqn:E; zbool; [naive_solver lia|].
  split; [done|]. intros [_ ?]. apply andb_false_iff in E as [?|?]; zbool; lia.
Qed.

(** * The value *)

(** The end of [safe_integer]: from the digits, the length of the fraction and the
    exponent to the value. *)
Definition finish (negative : bool) (ds : list Z) (fraction exponent : Z) : option Z :=
  match skip_zero_digits ds with
  | [] => Some 0
  | ds =>
      scale ← checked_i32 (exponent - fraction);
      ds ← unscaled ds scale;
      let zeros := Z.to_nat (Z.max scale 0) in
      if 16 <? zlen ds + Z.of_nat zeros then None else
      value ← accumulate ds 0;
      value ← times_ten zeros value;
      if MAX_PARAMETER_HEADER_INTEGER <? value then None
      else Some (if negative then - value else value)
  end.

(** The value of [n * 10^s], when it is an integer. *)
Definition scaled (n s v : Z) : Prop := v * 10 ^ Z.max 0 (- s) = n * 10 ^ Z.max 0 s.

Lemma scaled_neg n s v : 0 <= s → scaled n (- s) v ↔ v * 10 ^ s = n.
Proof.
  intros Hs. unfold scaled. rewrite Z.opp_involutive, (Z.max_r 0 s), (Z.max_l 0 (- s)), Z.pow_0_r by lia. lia.
Qed.

Lemma scaled_pos n s v : 0 <= s → scaled n s v ↔ v = n * 10 ^ s.
Proof.
  intros Hs. unfold scaled. rewrite (Z.max_l 0 (- s)), (Z.max_r 0 s), Z.pow_0_r by lia. lia.
Qed.

(** Fewer digits than the scale: not an integer. *)
Lemma scaled_small n s v : 0 < n < 10 ^ s → ¬ v * 10 ^ s = n.
Proof. intros Hn Hv. destruct (Z.le_gt_cases v 0); nia. Qed.

(** The last step: digits without leading zeros and zeros to append. *)
Definition magnitude (ds : list Z) (zeros : nat) : option Z :=
  if 16 <? zlen ds + Z.of_nat zeros then None else
  value ← accumulate ds 0;
  value ← times_ten zeros value;
  if MAX_PARAMETER_HEADER_INTEGER <? value then None else Some value.

Lemma magnitude_spec d r z v :
  Forall small (d :: r) → 10 ^ zlen r <= num (d :: r) →
  magnitude (d :: r) z = Some v ↔ v = num (d :: r) * 10 ^ Z.of_nat z ∧ v <= MAX_PARAMETER_HEADER_INTEGER.
Proof.
  intros Hs Hlow. pose proof (num_bound _ Hs) as Hb. set (n := num (d :: r)) in *.
  assert (Hz : 0 < 10 ^ Z.of_nat z) by (apply Z.pow_pos_nonneg; lia).
  unfold magnitude. destruct (16 <? _) eqn:E; zbool.
  - split; [done|]. intros [-> Hle]. exfalso. rewrite zlen_cons in E.
    assert (10 ^ 16 <= 10 ^ (zlen r + Z.of_nat z)) by (apply Z.pow_le_mono_r; lia).
    rewrite Z.pow_add_r in * by (pose proof (zlen_nonneg r); lia). unfold MAX_PARAMETER_HEADER_INTEGER in Hle. nia.
  - assert (Hmax : n * 10 ^ Z.of_nat z < 10 ^ 16).
    { assert (10 ^ (zlen (d :: r) + Z.of_nat z) <= 10 ^ 16) by (apply Z.pow_le_mono_r; lia).
      rewrite Z.pow_add_r in * by (pose proof (zlen_nonneg (d :: r)); lia). nia. }
    rewrite accumulate_ok; [|done|lia|fold n; unfold i64_max; nia]. fold n. rewrite Z.mul_0_l, Z.add_0_l.
    cbn [mbind option_bind]. rewrite times_ten_ok by (unfold i64_max; lia). cbn [mbind option_bind]. case_goal_if; zbool; naive_solver lia.
Qed.

Lemma finish_unfold negative ds fraction exponent :
  finish negative ds fraction exponent =
  match skip_zero_digits ds with
  | [] => Some 0
  | ds =>
      scale ← checked_i32 (exponent - fraction);
      ds ← unscaled ds scale;
      (λ v : Z, if negative then - v else v) <$> magnitude ds (Z.to_nat (Z.max scale 0))
  end.
Proof.
  unfold finish, magnitude. destruct (skip_zero_digits ds) as [|d r]; [done|].
  destruct (checked_i32 _) as [s|]; [|done]. cbn. destruct (unscaled _ _) as [w|]; [|done]. cbn.
  destruct (16 <? _); [done|]. destruct (accumulate w 0) as [a|]; [|done]. cbn.
  destruct (times_ten _ a) as [b|]; [|done]. cbn. by destruct (_ <? b).
Qed.

(** Dropping the zeros a negative scale takes away. *)
Lemma unscaled_spec d r s :
  Forall small (d :: r) → 10 ^ zlen r <= num (d :: r) → 0 < s <= i32_max →
  match unscaled (d :: r) (- s) with
  | Some ds => ∃ d' r', ds = d' :: r' ∧ Forall small ds ∧ 10 ^ zlen r' <= num ds ∧ num ds * 10 ^ s = num (d :: r)
  | None => ∀ v, ¬ v * 10 ^ s = num (d :: r)
  end.
Proof.
  intros Hs Hlow Hr. unfold unscaled. rewrite (proj2 (Z.ltb_lt _ _)) by lia. rewrite Z.opp_involutive.
  rewrite (proj2 (checked_i32_Some s s)) by (split; [done|lia]). cbn [mbind option_bind].
  pose proof (num_bound _ Hs) as Hb. set (ds := d :: r) in *. remember (length ds - Z.to_nat s)%nat as k eqn:Hk.
  case_bool_decide as Hlen; cbn [orb].
  - intros v. apply scaled_small. split; [pose proof (Z.pow_pos_nonneg 10 (zlen r) ltac:(lia) (zlen_nonneg r)); lia|].
    eapply Z.lt_le_trans; [apply Hb|]. apply Z.pow_le_mono_r; [lia|]. unfold zlen. lia.
  - assert (Hsplit : ds = take k ds ++ drop k ds) by (by rewrite take_drop).
    assert (Hlast : zlen (drop k ds) = s) by (unfold zlen; rewrite length_drop; lia).
    assert (Hss : Forall small (take k ds) ∧ Forall small (drop k ds)) by (by apply Forall_app; rewrite take_drop).
    destruct Hss as [Hs1 Hs2]. pose proof (num_bound _ Hs2) as Hb2. rewrite Hlast in Hb2.
    assert (Hnum : num ds = num (take k ds) * 10 ^ s + num (drop k ds))
      by (rewrite Hsplit at 1; by rewrite num_app, Hlast).
    destruct (existsb _ _) eqn:E.
    + assert (num (drop k ds) ≠ 0) by (intros H0; apply num_zeroes in H0; [congruence|done]).
      intros v Hv. rewrite Hnum in Hv. apply (scaled_small (num (drop k ds)) s (v - num (take k ds))); lia.
    + apply num_zeroes in E; [|done]. rewrite E, Z.add_0_r in Hnum.
      destruct k as [|k']; [lia|].
      exists d, (take k' r). split; [done|]. split; [exact Hs1|]. split; [|by rewrite Hnum].
      change (d :: take k' r) with (take (S k') ds).
      assert (Hzl : zlen r = zlen (take k' r) + s).
      { unfold ds in Hsplit. cbn [take drop app] in Hsplit. injection Hsplit as Hsplit.
        rewrite Hsplit at 1. rewrite zlen_app. unfold ds in Hlast. cbn [drop] in Hlast. lia. }
      rewrite Hzl, Z.pow_add_r in Hlow by (pose proof (zlen_nonneg (take k' r)); lia).
      rewrite Hnum in Hlow. apply Z.mul_le_mono_pos_r in Hlow; [done|apply Z.pow_pos_nonneg; lia].
Qed.

Definition signed (negative : bool) (v : Z) : Z := if negative then - v else v.

Lemma scaled_signed negative n s v : scaled (signed negative n) s v ↔ scaled n s (signed negative v).
Proof. unfold scaled, signed. destruct negative; [lia|done]. Qed.

Lemma signed_fmap negative (o : option Z) v : signed negative <$> o = Some v ↔ o = Some (signed negative v).
Proof.
  rewrite fmap_Some. unfold signed. split.
  - intros (w & -> & ->). f_equal. destruct negative; lia.
  - intros ->. eexists. split; [done|]. destruct negative; lia.
Qed.

(** The digits without leading zeros, scaled, as far as they are an integer in
    range. *)
Lemma finish_nonzero d r s v :
  Forall small (d :: r) → 10 ^ zlen r <= num (d :: r) → zlen (d :: r) <= 1024 → s <= i32_max →
  (scale ← checked_i32 s; ds ← unscaled (d :: r) scale; magnitude ds (Z.to_nat (Z.max scale 0))) = Some v ↔
  scaled (num (d :: r)) s v ∧ v <= MAX_PARAMETER_HEADER_INTEGER.
Proof.
  intros Hs Hlow Hlen Hsm. pose proof (num_bound _ Hs) as Hb.
  assert (Hn : 0 < num (d :: r))
    by (pose proof (Z.pow_pos_nonneg 10 (zlen r) ltac:(lia) (zlen_nonneg r)); lia).
  destruct (Z.lt_ge_cases s (- i32_max)) as [Hlow'|Hlow'].
  { split.
    - intros Hv. exfalso. destruct (checked_i32 s) as [w|] eqn:E; [|done]. apply checked_i32_Some in E as [-> E].
      cbn [mbind option_bind] in Hv. unfold unscaled in Hv.
      rewrite (proj2 (Z.ltb_lt _ _)) in Hv by (unfold i32_max in *; lia).
      destruct (checked_i32 (- s)) as [w|] eqn:E'; [|done]. apply checked_i32_Some in E' as [_ E']. lia.
    - intros [Hv _]. exfalso. rewrite <- (Z.opp_involutive s) in Hv.
      rewrite scaled_neg in Hv by (unfold i32_max in *; lia). apply (scaled_small (num (d :: r)) (- s) v); [|done].
      split; [done|]. eapply Z.lt_le_trans; [apply Hb|]. apply Z.pow_le_mono_r; [lia|]. unfold i32_max in *. lia. }
  rewrite (proj2 (checked_i32_Some s s)) by (split; [done|unfold i32_max in *; lia]). cbn [mbind option_bind].
  destruct (Z.lt_ge_cases s 0) as [Hneg|Hpos].
  - pose proof (unscaled_spec d r (- s) Hs Hlow ltac:(lia)) as Hu. rewrite Z.opp_involutive in Hu.
    assert (Hsc : scaled (num (d :: r)) s v ↔ v * 10 ^ (- s) = num (d :: r)).
    { rewrite <- scaled_neg by lia. by rewrite Z.opp_involutive. }
    rewrite Hsc.
    destruct (unscaled (d :: r) s) as [ds|]; cbn [mbind option_bind].
    + destruct Hu as (d' & r' & -> & Hs' & Hlow'' & Hnum). rewrite Z.max_r by lia. rewrite magnitude_spec by done.
      cbn [Z.to_nat Z.of_nat]. rewrite Z.pow_0_r, Z.mul_1_r.
      assert (0 < 10 ^ (- s)) by (apply Z.pow_pos_nonneg; lia).
      split; intros [Hv Hm]; (split; [|done]); [by rewrite Hv|].
      rewrite <- Hnum in Hv. by apply Z.mul_reg_r in Hv; [|lia].
    + split; [done|]. intros [Hv _]. by apply Hu in Hv.
  - unfold unscaled. rewrite (proj2 (Z.ltb_ge _ _)) by lia. cbn [mbind option_bind].
    rewrite magnitude_spec by done. rewrite Z.max_l, Z2Nat.id by lia. by rewrite scaled_pos by lia.
Qed.

Lemma finish_spec negative ds f x v :
  Forall small ds → zlen ds <= 1024 → 0 <= f → Z.abs x <= i32_max →
  finish negative ds f x = Some v ↔
  scaled (signed negative (num ds)) (x - f) v ∧ Z.abs v <= MAX_PARAMETER_HEADER_INTEGER.
Proof.
  intros Hs Hlen Hf Hx. rewrite finish_unfold, scaled_signed.
  destruct (skip_zero_digits_spec ds Hs) as (Hn & Hs' & Hl & Hm).
  destruct (skip_zero_digits ds) as [|d r].
  - rewrite Hm. unfold scaled, signed. rewrite Z.mul_0_l.
    pose proof (Z.pow_pos_nonneg 10 (Z.max 0 (- (x - f))) ltac:(lia) ltac:(lia)).
    split.
    + intros [= <-]. split; [by destruct negative|done].
    + intros [Hv _]. f_equal. destruct negative; nia.
  - rewrite <- Hn. change (λ v0 : Z, if negative then - v0 else v0) with (signed negative).
    transitivity ((scale ← checked_i32 (x - f); w ← unscaled (d :: r) scale;
                   magnitude w (Z.to_nat (Z.max scale 0))) = Some (signed negative v)).
    + destruct (checked_i32 (x - f)) as [s|]; cbn [mbind option_bind]; [|by split].
      destruct (unscaled (d :: r) s) as [w|]; cbn [mbind option_bind]; [|by split]. apply signed_fmap.
    + rewrite finish_nonzero by (done || lia). split; intros [Hv Hb]; (split; [done|]).
      * pose proof (num_bound _ Hs'). unfold scaled in Hv.
        pose proof (Z.pow_pos_nonneg 10 (Z.max 0 (- (x - f))) ltac:(lia) ltac:(lia)).
        pose proof (Z.pow_pos_nonneg 10 (Z.max 0 (x - f)) ltac:(lia) ltac:(lia)).
        assert (0 <= signed negative v) by nia. unfold signed in *. destruct negative; lia.
      * unfold signed. destruct negative; lia.
Qed.

(** * The parts of a lexeme *)

Lemma whole_part_sound rest w r :
  whole_part rest = Some (w, r) → ∃ ip, int_part ip ∧ rest = ip ++ r ∧ w = digit_values ip.
Proof.
  destruct rest as [|b rest]; [done|]. cbn [whole_part]. destruct (Z.eqb_spec b 48) as [->|Hb].
  - intros Hw. exists [48]. destruct rest as [|c rest]; [|destruct (is_digit c); [done|]];
      injection Hw as <- <-; (split; [constructor|done]).
  - destruct ((49 <=? b) && (b <=? 57)) eqn:E; [|done]. zbool. intros [= <- <-].
    assert (Hbd : is_digit b = true) by (unfold is_digit; apply andb_true_iff; rewrite !Z.leb_le; lia).
    rewrite Hbd. exists (b :: take_while is_digit rest). split; [constructor; [done|apply take_while_Forall]|].
    destruct (take_while_split is_digit rest) as [Heq _]. split; [|done]. cbn [length drop app]. by rewrite <- Heq.
Qed.

Lemma whole_part_complete ip r :
  int_part ip → head_not is_digit r → whole_part (ip ++ r) = Some (digit_values ip, r).
Proof.
  intros [|d ds Hd Hds] Hr; cbn [app whole_part].
  - destruct r as [|c r]; [done|]. simpl in Hr. by rewrite Hr.
  - rewrite (proj2 (Z.eqb_neq d 48)), (proj2 (Z.leb_le 49 d)), (proj2 (Z.leb_le d 57)) by lia. cbn [andb].
    assert (Hbd : is_digit d = true) by (unfold is_digit; apply andb_true_iff; rewrite !Z.leb_le; lia).
    cbn [take_while]. rewrite Hbd, take_while_app by done. cbn [length drop]. by rewrite drop_app_length.
Qed.

(** A fraction and its digits. *)
Inductive fraction : list Z → list Z → Prop :=
| fraction_none : fraction [] []
| fraction_some ds : ds ≠ [] → digits ds → fraction (46 :: ds) ds.

Lemma fraction_part_sound rest w r :
  fraction_part rest = Some (w, r) → ∃ fp fr, fraction fp fr ∧ rest = fp ++ r ∧ w = digit_values fr.
Proof.
  intros Hf. destruct (decide (head rest = Some 46)) as [Hh|Hh].
  - destruct rest as [|b rest]; [done|]. injection Hh as ->. cbn [fraction_part] in Hf.
    case_bool_decide as Hd; [done|]. injection Hf as <- <-.
    exists (46 :: take_while is_digit rest), (take_while is_digit rest).
    split; [constructor; [done|apply take_while_Forall]|]. destruct (take_while_split is_digit rest) as [Heq _].
    split; [|done]. cbn [app]. by rewrite <- Heq.
  - exists [], []. assert (fraction_part rest = Some ([], rest)) as Heq.
    { destruct rest as [|b rest]; [done|]. unfold fraction_part. repeat case_match; congruence || done. }
    rewrite Heq in Hf. injection Hf as <- <-. split; [constructor|done].
Qed.

Lemma fraction_part_complete fp fr r :
  fraction fp fr → head_not is_digit r → head_not (Z.eqb 46) r →
  fraction_part (fp ++ r) = Some (digit_values fr, r).
Proof.
  intros [|ds Hne Hds] Hr H46; cbn [app].
  - destruct r as [|b r]; [done|]. cbn [head_not] in H46. apply Z.eqb_neq in H46.
    unfold fraction_part. repeat case_match; congruence || done.
  - cbn [fraction_part]. rewrite take_while_app by done. by rewrite bool_decide_false, drop_app_length.
Qed.

Lemma exponent_value_spec ds : ∀ a n,
  digits ds → 0 <= a <= i32_max →
  exponent_value ds a = Some n ↔ n = a * 10 ^ zlen ds + dec_value ds ∧ n <= i32_max.
Proof.
  induction ds as [|b ds IH]; intros a n Hds Ha.
  { unfold dec_value, zlen. simpl. split; [intros [= <-]; lia|intros [-> _]; f_equal; lia]. }
  inversion_clear Hds as [|? ? Hb Hds']. apply digit_range in Hb. cbn [exponent_value].
  assert (Hdec : dec_value (b :: ds) = (b - 48) * 10 ^ zlen ds + dec_value ds).
  { change (b :: ds) with ([b] ++ ds). rewrite dec_value_app. unfold dec_value at 1. simpl. lia. }
  rewrite Hdec, zlen_cons, Z.pow_add_r by (pose proof (zlen_nonneg ds); lia).
  pose proof (Z.pow_pos_nonneg 10 (zlen ds) ltac:(lia) (zlen_nonneg ds)).
  assert (0 <= dec_value ds). { rewrite <- num_digit_values. apply num_bound. by apply digit_values_small. }
  destruct (checked_i32 (a * 10)) as [c|] eqn:E; cbn [mbind option_bind].
  - apply checked_i32_Some in E as [-> E]. destruct (checked_i32 (a * 10 + (b - 48))) as [c|] eqn:E'; cbn [mbind option_bind].
    + apply checked_i32_Some in E' as [-> E']. rewrite IH by (done || lia).
      split; intros [-> ?]; (split; [lia|done]).
    + split; [done|]. intros [-> Hle]. exfalso. apply eq_None_not_Some in E'. apply E'. eexists.
      apply checked_i32_Some. split; [done|]. nia.
  - split; [done|]. intros [-> Hle]. exfalso. apply eq_None_not_Some in E. apply E. eexists.
    apply checked_i32_Some. split; [done|]. nia.
Qed.

Lemma exponent_part_spec rest x :
  exponent_part rest = Some (x, []) ↔ exp_value rest x ∧ Z.abs x <= i32_max.
Proof.
  destruct rest as [|e r].
  { cbn. split; [intros [= <-]; split; [constructor|done]|]. intros [He _]. by inversion He. }
  rewrite exp_value_cons. cbn [exponent_part].
  destruct ((e =? 101) || (e =? 69)) eqn:E.
  2:{ apply orb_false_iff in E as [? ?]. zbool. split; [done|]. intros [[[?|?] _] _]; lia. }
  apply orb_true_iff in E. rewrite !Z.eqb_eq in E.
  assert (Hr : match r with b :: r' => if (b =? 43) || (b =? 45) then r' else r | [] => r end = drop (sign_at r) r).
  { unfold sign_at. destruct r as [|b r]; [done|]. cbn [starts_with]. rewrite (Z.eqb_sym b 43), (Z.eqb_sym b 45).
    by repeat (destruct (_ =? _); cbn [orb drop]). }
  assert (Hneg : bool_decide (head r = Some 45) = starts_with (Z.eqb 45) r).
  { destruct r as [|b r]; [done|]. cbn [head starts_with]. case_bool_decide as Hb.
    - injection Hb as ->. done.
    - symmetry. apply Z.eqb_neq. congruence. }
  rewrite Hr, Hneg. clear Hr Hneg. set (ds := drop (sign_at r) r). destruct (take_while_split is_digit ds) as [Hsplit _].
  destruct (decide (digits ds)) as [Hds|Hds].
  - assert (Htw : take_while is_digit ds = ds) by (rewrite <- (app_nil_r ds) at 1; by apply take_while_app).
    rewrite Htw, drop_all.
    destruct (exponent_value ds 0) as [n|] eqn:En; cbn [mbind option_bind].
    + apply exponent_value_spec in En as [Hn Hle]; [|done|done]. rewrite Z.mul_0_l, Z.add_0_l in Hn. subst n.
      assert (0 <= dec_value ds). { rewrite <- num_digit_values. apply num_bound. by apply digit_values_small. }
      case_bool_decide as Hne; [split; [done|]; by intros [(_ & ? & _) _]|]. destruct (starts_with (Z.eqb 45) r); cbn [mbind option_bind].
      * assert (checked_i32 (- dec_value ds) = Some (- dec_value ds)) as ->
          by (apply checked_i32_Some; split; [done|unfold i32_max in *; lia]). cbn [mbind option_bind].
        split; [intros [= <-]; split_and!; [done..|lia]|]. intros [(_ & _ & _ & ->) _]. done.
      * split; [intros [= <-]; split_and!; [done..|lia]|]. intros [(_ & _ & _ & ->) _]. done.
    + split; [done|]. intros [(_ & _ & _ & Hx) Hle]. exfalso.
      assert (exponent_value ds 0 = Some (dec_value ds)); [|congruence]. apply exponent_value_spec; [done|done|].
      split; [lia|]. destruct (starts_with _ r); lia.
  - split; [|naive_solver]. intros Hs. exfalso. apply Hds. rewrite Hsplit.
    assert (drop (length (take_while is_digit ds)) ds = []) as ->; [|rewrite app_nil_r; apply take_while_Forall].
    destruct (exponent_value _ 0); [|done]. cbn [mbind option_bind] in Hs. case_bool_decide; [done|].
    destruct (if starts_with _ r then _ else _); [|done]. cbn [mbind option_bind] in Hs. congruence.
Qed.

(** The lexeme as its sign, whole digits, fraction and exponent. *)
Lemma lexeme_parts_iff src neg ip fr x :
  lexeme_parts src neg ip fr x ↔
  ∃ fp ep, src = (if neg then [45] else []) ++ ip ++ fp ++ ep ∧ int_part ip ∧ fraction fp fr ∧ exp_value ep x.
Proof.
  split.
  - intros [neg' ip' ep x' Hi He|neg' ip' fr' ep x' Hi Hne Hds He].
    + exists [], ep. split_and!; [done|done|constructor|done].
    + exists (46 :: fr'), ep. split_and!; [done|done|by constructor|done].
  - intros (fp & ep & -> & Hi & [|ds Hne Hds] & He); by constructor.
Qed.

Lemma lexeme_parts_length src neg ip fr x : lexeme_parts src neg ip fr x → zlen (ip ++ fr) <= zlen src.
Proof.
  intros (fp & ep & -> & _ & Hf & _)%lexeme_parts_iff. rewrite !zlen_app.
  pose proof (zlen_nonneg (if neg then [45] else [])). pose proof (zlen_nonneg ep).
  destruct Hf; rewrite ?zlen_cons; lia.
Qed.

Lemma safe_integer_parts src neg ip fr x :
  lexeme_parts src neg ip fr x → zlen src <= MAX_INTEGER_LEXEME_BYTES → Z.abs x <= i32_max →
  safe_integer src = finish neg (digit_values (ip ++ fr)) (zlen fr) x.
Proof.
  intros (fp & ep & Hsrc & Hi & Hf & He)%lexeme_parts_iff Hlen Hx. unfold safe_integer.
  assert (Hhead : src ≠ [] ∧ bool_decide (head src = Some 45) = neg ∧
                  (if neg then tail src else src) = ip ++ fp ++ ep).
  { rewrite Hsrc. destruct neg; [done|]. destruct Hi as [|d ds Hd]; [done|]. split_and!; [done| |done].
    apply bool_decide_false. intros [= ->]. lia. }
  destruct Hhead as (Hne & -> & Hrest). rewrite (bool_decide_false _ Hne), (proj2 (Z.ltb_ge _ _)) by done. cbn [orb].
  rewrite Hrest. assert (He1 : head_not is_digit ep ∧ head_not (Z.eqb 46) ep)
    by (destruct He as [|e sg ds [-> | ->]]; done).
  rewrite whole_part_complete by (done || (destruct Hf; [apply He1|done])). cbn [mbind option_bind].
  rewrite (fraction_part_complete fp fr) by (done || apply He1). cbn [mbind option_bind].
  rewrite (proj2 (exponent_part_spec ep x)) by done. cbn [mbind option_bind].
  rewrite bool_decide_true by done. cbn [negb]. unfold finish.
  replace (zlen (digit_values fr)) with (zlen fr) by (unfold zlen, digit_values; by rewrite length_fmap).
  unfold digit_values. by rewrite fmap_app.
Qed.

Lemma safe_integer_scanned src v :
  safe_integer src = Some v →
  zlen src <= MAX_INTEGER_LEXEME_BYTES ∧ ∃ neg ip fr x, lexeme_parts src neg ip fr x ∧ Z.abs x <= i32_max.
Proof.
  unfold safe_integer. case_bool_decide as Hne; [done|]. cbn [orb]. destruct (_ <? zlen src) eqn:El; [done|]. zbool.
  set (neg := bool_decide (head src = Some 45)). set (rest := if neg then tail src else src).
  intros Hs. split; [done|].
  destruct (whole_part rest) as [[w r1]|] eqn:Ew; [|done]. cbn [mbind option_bind] in Hs.
  destruct (fraction_part r1) as [[f r2]|] eqn:Ef; [|done]. cbn [mbind option_bind] in Hs.
  destruct (exponent_part r2) as [[x r3]|] eqn:Ex; [|done]. cbn [mbind option_bind] in Hs.
  case_bool_decide as Hr3; [|done]. subst r3. apply exponent_part_spec in Ex as [He Hx].
  apply whole_part_sound in Ew as (ip & Hi & Hrest & _). apply fraction_part_sound in Ef as (fp & fr & Hf & -> & _).
  exists neg, ip, fr, x. split; [|done]. apply lexeme_parts_iff. exists fp, r2. split_and!; [|done..].
  rewrite <- Hrest. unfold rest, neg. case_bool_decide as Hh; [|done]. destruct src as [|b src]; [done|].
  by injection Hh as ->.
Qed.

Lemma scaled_parts neg ip fr x v : scaled (signed neg (dec_value (ip ++ fr))) (x - zlen fr) v ↔ parts_value neg ip fr x v.
Proof.
  unfold scaled, parts_value, signed. replace (- (x - zlen fr)) with (zlen fr - x) by lia.
  by replace (- (zlen fr - x)) with (x - zlen fr) by lia.
Qed.

(** A nonzero integer in range has no use for a huge exponent. *)
Lemma exponent_in_range src neg ip fr x v :
  lexeme_parts src neg ip fr x → zlen src <= MAX_INTEGER_LEXEME_BYTES → parts_value neg ip fr x v →
  v ≠ 0 → Z.abs v <= MAX_PARAMETER_HEADER_INTEGER → Z.abs x <= i32_max.
Proof.
  intros Hp Hlen Hv Hnz Hmax. pose proof (lexeme_parts_length _ _ _ _ _ Hp) as Hl.
  pose proof (num_bound _ (digit_values_small _ (parts_digits _ _ _ _ _ Hp))) as Hb. rewrite num_digit_values in Hb.
  replace (zlen (digit_values (ip ++ fr))) with (zlen (ip ++ fr)) in Hb
    by (unfold zlen, digit_values; by rewrite length_fmap).
  pose proof (parts_value_zero_inv _ _ _ _ _ Hv Hnz) as Hd. rewrite zlen_app in *.
  pose proof (zlen_nonneg ip). pose proof (zlen_nonneg fr). unfold MAX_INTEGER_LEXEME_BYTES in Hlen.
  apply scaled_parts in Hv. set (n := dec_value (ip ++ fr)) in *.
  destruct (Z.le_gt_cases (Z.abs x) i32_max) as [|Hx]; [done|]. exfalso. unfold i32_max in Hx.
  destruct (Z.le_gt_cases 0 x) as [Hx0|Hx0].
  - rewrite scaled_pos in Hv by lia. assert (10 ^ 16 <= 10 ^ (x - zlen fr)) by (apply Z.pow_le_mono_r; lia).
    unfold MAX_PARAMETER_HEADER_INTEGER in Hmax.
    assert (10 ^ 16 <= n * 10 ^ (x - zlen fr)) by nia. unfold signed in Hv. destruct neg; lia.
  - rewrite <- (Z.opp_involutive (x - zlen fr)) in Hv. rewrite scaled_neg in Hv by lia.
    assert (10 ^ (zlen ip + zlen fr) <= 10 ^ (- (x - zlen fr))) by (apply Z.pow_le_mono_r; lia).
    unfold signed in Hv. destruct neg; destruct (Z.lt_trichotomy v 0) as [?|[?|?]]; nia.
Qed.

(** [safe_integer] is exact: it answers [v] just when the text is a JSON number
    of at most 1024 bytes whose mathematical value is the integer [v], within
    [2^53 - 1] in absolute value.  The spelling does not matter, fractions and
    exponents included; only zero with an exponent beyond [i32] is refused. *)
Theorem safe_integer_exact src v :
  safe_integer src = Some v ↔
  zlen src <= MAX_INTEGER_LEXEME_BYTES ∧ Z.abs v <= MAX_PARAMETER_HEADER_INTEGER ∧
  ∃ neg ip fr x, lexeme_parts src neg ip fr x ∧ parts_value neg ip fr x v ∧ (v = 0 → Z.abs x <= i32_max).
Proof.
  assert (Hfin : ∀ neg ip fr x, lexeme_parts src neg ip fr x → zlen src <= MAX_INTEGER_LEXEME_BYTES →
    Z.abs x <= i32_max →
    safe_integer src = Some v ↔ parts_value neg ip fr x v ∧ Z.abs v <= MAX_PARAMETER_HEADER_INTEGER).
  { intros neg ip fr x Hp Hlen Hx. rewrite (safe_integer_parts _ _ _ _ _ Hp Hlen Hx).
    pose proof (lexeme_parts_length _ _ _ _ _ Hp). unfold MAX_INTEGER_LEXEME_BYTES in Hlen.
    rewrite finish_spec; [by rewrite num_digit_values, scaled_parts| | |apply zlen_nonneg|done].
    - apply digit_values_small. by eapply parts_digits.
    - replace (zlen (digit_values (ip ++ fr))) with (zlen (ip ++ fr)) by (unfold zlen, digit_values; by rewrite length_fmap).
      lia. }
  split.
  - intros Hs. destruct (safe_integer_scanned _ _ Hs) as (Hlen & neg & ip & fr & x & Hp & Hx).
    apply (Hfin neg ip fr x) in Hs as [Hv Hm]; [|done..]. split_and!; [done..|]. by exists neg, ip, fr, x.
  - intros (Hlen & Hm & neg & ip & fr & x & Hp & Hv & Hz). apply (Hfin neg ip fr x); [done|done| |done].
    destruct (decide (v = 0)) as [H0|H0]; [by apply Hz|by eapply exponent_in_range].
Qed.
End HeaderIntegers.
