(* ===== verification/HttpHeaderPlans.v ===== *)
(** Compiling a tool's schema into its plan of parameter headers: which
    annotations become bindings, which refuse the schema, and the bounds of the
    plan. *)
From stdpp Require Import base list gmap strings.
From Stdlib Require Import ZArith Lia.
From S2P Require Import Prelude Utf8 JsonGrammar RawJson RequestId HttpHeaders.

Module HeaderPlans.
Import Headers.

(** * Schema positions *)

(** A direct subschema, with the property's name when it is one. *)
Inductive sub : Value → option (list Z) → Value → Prop :=
| sub_property ms k ps n c :
    (k, VObject ps) ∈ ms → position_of k = Properties → (n, c) ∈ ps → sub (VObject ms) (Some n) c
| sub_named ms k ps n c :
    (k, VObject ps) ∈ ms → position_of k = NamedSchemas → (n, c) ∈ ps → sub (VObject ms) None c
| sub_listed ms k vs c :
    (k, VArray vs) ∈ ms → position_of k = ListedSchemas → c ∈ vs → sub (VObject ms) None c
| sub_one ms k c :
    (k, c) ∈ ms → position_of k = OneSchema → sub (VObject ms) None c.

(** A schema somewhere in a schema: the names of the properties on the way, and
    whether the way leads through properties only. *)
Inductive at_path : Value → list (list Z) → bool → Value → Prop :=
| at_here s : at_path s [] true s
| at_property s n c p r t : sub s (Some n) c → at_path c p r t → at_path s (n :: p) r t
| at_other s c p r t : sub s None c → at_path c p r t → at_path s p false t.

Definition annotation (s : Value) : option Value :=
  ms ← as_object s; get_member (chars_of "x-mcp-header") ms.

(** The binding an annotated schema at a path calls for. *)
Definition binding_for (s : Value) (p : list (list Z)) (b : ParameterHeaderBinding) : Prop :=
  ∃ ms suffix k, s = VObject ms ∧ annotation s = Some (VString suffix) ∧
    kind_of (get_member (chars_of "type") ms) = Some k ∧
    b = {| path := p; name := PREFIX ++ suffix; kind := k |}.

(** * What a plan keeps to *)

Definition lowered (b : ParameterHeaderBinding) : list Z := to_ascii_lowercase <$> name b.
Definition path_size (b : ParameterHeaderBinding) : Z := sum (zlen <$> path b).

Record binding_ok (b : ParameterHeaderBinding) : Prop := {
  ok_path : path b ≠ [];
  ok_name : ∃ suffix, name b = PREFIX ++ suffix ∧ suffix ≠ [] ∧ Forall (λ c, is_tchar c = true) suffix;
  ok_name_bytes : zlen (name b) <= MAX_PARAMETER_HEADER_NAME_BYTES;
}.

Record plan_ok (bs : list ParameterHeaderBinding) : Prop := {
  ok_bindings : Forall binding_ok bs;
  ok_number : zlen bs <= MAX_PARAMETER_HEADERS;
  ok_distinct : NoDup (lowered <$> bs);
  ok_path_bytes : sum (path_size <$> bs) <= MAX_PARAMETER_HEADER_PATH_BYTES;
}.

Definition compiler_ok (c : Compiler) : Prop :=
  plan_ok (bindings c) ∧ path_bytes c = sum (path_size <$> bindings c).

(** * The visit *)

(** What a visit appends. *)
Definition extends (c c' : Compiler) (new : list ParameterHeaderBinding) : Prop :=
  bindings c' = bindings c ++ new ∧ compiler_ok c'.

(** [new] is what the annotations of [s], found at path [p], call for. *)
Record collects (s : Value) (p : list (list Z)) (r : bool) (new : list ParameterHeaderBinding) : Prop := {
  collected b : b ∈ new → r = true ∧ ∃ q t, at_path s q true t ∧ binding_for t (p ++ q) b;
  none_missed q r' t a : at_path s q r' t → annotation t = Some a →
    r && r' = true ∧ p ++ q ≠ [] ∧ ∃ b, b ∈ new ∧ binding_for t (p ++ q) b;
}.

Abbreviation wpc m Q := (wp m Q (λ _ _, True)).

Lemma wp_for_each {A} (f : A → C unit) (Q : A → list ParameterHeaderBinding → Prop) l : ∀ c,
  compiler_ok c →
  (∀ x c, x ∈ l → compiler_ok c → wpc (f x) (λ _ c', ∃ new, extends c c' new ∧ Q x new) c) →
  wpc (for_each f l) (λ _ c', ∃ news, extends c c' (concat news) ∧ Forall2 Q l news) c.
Proof.
  induction l as [|x l IH]; intros c Hc Hf; cbn [for_each].
  { apply wp_ret. exists []. split; [|constructor]. by split; [rewrite app_nil_r|]. }
  apply wp_bind. eapply wp_mono; [apply Hf; [by left|done]| |done].
  intros [] c1 (new & [Hb Hc1] & Hq). simpl.
  eapply wp_mono; [apply IH; [done|]| |done].
  { intros y c' Hy. apply Hf. by right. }
  intros [] c2 (news & [Hb2 Hc2] & Hall). exists (new :: news). split; [|by constructor].
  split; [|done]. by rewrite Hb2, Hb, <- app_assoc.
Qed.

Lemma existsb_name n bs :
  existsb (λ b, eq_ignore_ascii_case (name b) n) bs = false → to_ascii_lowercase <$> n ∉ lowered <$> bs.
Proof.
  intros He (b & Hb & Hin)%list_elem_of_fmap. apply not_true_iff_false in He. apply He.
  apply existsb_exists. exists b. split; [by apply list_elem_of_In|]. unfold eq_ignore_ascii_case.
  by apply bool_decide_eq_true.
Qed.

Lemma annotate_wp ms p r a c :
  compiler_ok c → annotation (VObject ms) = Some a →
  wpc (annotate ms p r a) (λ _ c', ∃ b, extends c c' [b] ∧ r = true ∧ p ≠ [] ∧ binding_for (VObject ms) p b) c.
Proof.
  intros [Hok Hpb] Ha. unfold annotate. destruct (negb r || bool_decide (p = [])) eqn:E1; [done|].
  apply orb_false_iff in E1 as [Hr%negb_false_iff Hp%bool_decide_eq_false].
  destruct a as [| | |suffix| |]; try done.
  destruct (bool_decide (suffix = []) || _) eqn:E2; [done|].
  apply orb_false_iff in E2 as [Hne%bool_decide_eq_false Ht%negb_false_iff].
  apply wp_bind, wp_get. destruct (_ || _) eqn:E3; [done|]. apply orb_false_iff in E3 as [E3 E4]. zbool.
  apply wp_bind, wp_ok_or. destruct (kind_of _) as [k|] eqn:Ek; [|done].
  destruct (existsb _ _) eqn:E5; [done|]. apply existsb_name in E5.
  apply wp_bind, wp_ok_or. destruct (try_sum _ _) as [bytes|] eqn:E6; [|done].
  apply wp_bind, wp_modify. destruct (_ <? bytes) eqn:E7; [done|]. zbool. apply wp_modify.
  rewrite try_sum_spec in E6.
  2:{ apply Forall_fmap, Forall_true. intros. apply zlen_nonneg. }
  2:{ destruct Hok as [_ _ _ Hs]. rewrite Hpb. unfold MAX_PARAMETER_HEADER_PATH_BYTES, usize_max in *. lia. }
  case_if_in E6; [|done]. injection E6 as <-.
  set (b := {| path := p; name := PREFIX ++ suffix; kind := k |}). exists b.
  assert (Hb : binding_ok b).
  { split; [done| |].
    - exists suffix. split_and!; [done..|]. apply Forall_forall. intros x Hx. rewrite forallb_forall in Ht.
      by apply Ht, list_elem_of_In.
    - cbn [name b]. rewrite zlen_app. lia. }
  split_and!; [|done..|].
  - split; [done|]. destruct Hok as [H1 H2 H3 H4]. split; cbn [bindings path_bytes].
    + split; [| |rewrite fmap_app; apply NoDup_app; split_and!|].
      * apply Forall_app. split; [done|by apply Forall_singleton].
      * rewrite zlen_app. change (zlen [b]) with 1. lia.
      * done.
      * intros x Hx ->%list_elem_of_singleton. done.
      * apply NoDup_singleton.
      * rewrite fmap_app, sum_app. change (sum (path_size <$> [b])) with (sum (zlen <$> p) + 0). lia.
    + rewrite fmap_app, sum_app. change (sum (path_size <$> [b])) with (sum (zlen <$> p) + 0). lia.
  - by exists ms, suffix, k.
Qed.

Lemma Forall2_elem_l {A B} (P : A → B → Prop) l k x :
  Forall2 P l k → x ∈ l → ∃ y, y ∈ k ∧ P x y.
Proof.
  intros Hf [i Hi]%list_elem_of_lookup. destruct (Forall2_lookup_l _ _ _ _ _ Hf Hi) as (y & Hy & HP).
  exists y. split; [by eapply list_elem_of_lookup_2|done].
Qed.

Lemma Forall2_elem_r {A B} (P : A → B → Prop) l k y :
  Forall2 P l k → y ∈ k → ∃ x, x ∈ l ∧ P x y.
Proof. intros Hf%Forall2_flip Hy. by apply (Forall2_elem_l _ _ _ y Hf). Qed.

Lemma elem_of_concat {A} (x : A) ls : x ∈ concat ls ↔ ∃ l, x ∈ l ∧ l ∈ ls.
Proof. induction ls as [|l ls IH]; simpl; [set_solver|]. rewrite elem_of_app, IH. set_solver. Qed.

(** What one member of a schema contributes. *)
Definition member_collects (p : list (list Z)) (r : bool) (kv : list Z * Value)
    (new : list ParameterHeaderBinding) : Prop :=
  match position_of kv.1, kv.2 with
  | Properties, VObject ps => ∃ news, new = concat news ∧ Forall2 (λ nc, collects nc.2 (p ++ [nc.1]) r) ps news
  | NamedSchemas, VObject ps => ∃ news, new = concat news ∧ Forall2 (λ nc, collects nc.2 p false) ps news
  | ListedSchemas, VArray vs => ∃ news, new = concat news ∧ Forall2 (λ v, collects v p false) vs news
  | OneSchema, v => collects v p false new
  | _, _ => new = []
  end.

(** Every contribution of a member comes from a subschema of it ... *)
Lemma member_collects_sound ms p r kv new b :
  kv ∈ ms → member_collects p r kv new → b ∈ new →
  ∃ n c new', sub (VObject ms) (Some n) c ∧ collects c (p ++ [n]) r new' ∧ b ∈ new'.
Proof.
  destruct kv as [k v]. unfold member_collects. cbn [fst snd]. intros Hin.
  assert (Hhidden : ∀ c new', collects c p false new' → b ∈ new' → False)
    by (intros c new' [Hc _] Hb; by destruct (Hc b Hb)).
  destruct (position_of k) eqn:Ek; destruct v; try (intros -> Hb; by apply elem_of_nil in Hb);
    try (intros Hc Hb; exfalso; by eapply Hhidden).
  - intros (news & -> & Hf) (new' & Hb & Hn)%elem_of_concat.
    destruct (Forall2_elem_r _ _ _ _ Hf Hn) as ([n c] & Hc & HQ). exists n, c, new'. split_and!; [|done..].
    by eapply sub_property.
  - intros (news & -> & Hf) (new' & Hb & Hn)%elem_of_concat.
    destruct (Forall2_elem_r _ _ _ _ Hf Hn) as ([n c] & Hc & HQ). exfalso. by eapply Hhidden.
  - intros (news & -> & Hf) (new' & Hb & Hn)%elem_of_concat.
    destruct (Forall2_elem_r _ _ _ _ Hf Hn) as (c & Hc & HQ). exfalso. by eapply Hhidden.
Qed.

(** ... and every subschema contributes. *)
Lemma member_collects_complete ms p r news o c :
  sub (VObject ms) o c → Forall2 (member_collects p r) ms news →
  ∃ new, (∀ b, b ∈ new → b ∈ concat news) ∧
    match o with Some n => collects c (p ++ [n]) r new | None => collects c p false new end.
Proof.
  intros Hsub Hf.
  inversion Hsub as [ms' k ps n c' Hk Hpos Hc|ms' k ps n c' Hk Hpos Hc|ms' k vs c' Hk Hpos Hc|ms' k c' Hk Hpos]; subst;
    destruct (Forall2_elem_l _ _ _ _ Hf Hk) as (new & Hnew & HQ); unfold member_collects in HQ; cbn [fst snd] in HQ;
    rewrite Hpos in HQ.
  - destruct HQ as (l & -> & Hl). destruct (Forall2_elem_l _ _ _ _ Hl Hc) as (new' & Hn & HQ).
    exists new'. split; [|done]. intros b Hb. apply elem_of_concat. exists (concat l). split; [|done].
    apply elem_of_concat. by exists new'.
  - destruct HQ as (l & -> & Hl). destruct (Forall2_elem_l _ _ _ _ Hl Hc) as (new' & Hn & HQ).
    exists new'. split; [|done]. intros b Hb. apply elem_of_concat. exists (concat l). split; [|done].
    apply elem_of_concat. by exists new'.
  - destruct HQ as (l & -> & Hl). destruct (Forall2_elem_l _ _ _ _ Hl Hc) as (new' & Hn & HQ).
    exists new'. split; [|done]. intros b Hb. apply elem_of_concat. exists (concat l). split; [|done].
    apply elem_of_concat. by exists new'.
  - exists new. split; [|done]. intros b Hb. apply elem_of_concat. by exists new.
Qed.

Lemma collects_object ms p r new0 news :
  match annotation (VObject ms) with
  | None => new0 = []
  | Some _ => ∃ b, new0 = [b] ∧ r = true ∧ p ≠ [] ∧ binding_for (VObject ms) p b
  end →
  Forall2 (member_collects p r) ms news → collects (VObject ms) p r (new0 ++ concat news).
Proof.
  intros H0 Hf. split.
  - intros b [Hb|(new & Hb & Hn)%elem_of_concat]%elem_of_app.
    + destruct (annotation (VObject ms)) as [a|] eqn:Ha; [|subst; by apply elem_of_nil in Hb].
      destruct H0 as (b' & -> & Hr & Hp & Hfor). apply list_elem_of_singleton in Hb as ->. split; [done|].
      exists [], (VObject ms). split; [constructor|]. by rewrite app_nil_r.
    + destruct (Forall2_elem_r _ _ _ _ Hf Hn) as (kv & Hkv & HQ).
      destruct (member_collects_sound _ _ _ _ _ _ Hkv HQ Hb) as (n & c & new' & Hsub & [Hc _] & Hb').
      destruct (Hc b Hb') as (Hr & q & t & Hat & Hfor). split; [done|]. exists (n :: q), t.
      split; [by eapply at_property|]. by rewrite <- app_assoc in Hfor.
  - intros q r' t a Hat Ha.
    inversion Hat as [s|s n c p' r'' t' Hsub Hat'|s c p' r'' t' Hsub Hat']; subst.
    + rewrite Ha in H0. destruct H0 as (b & -> & -> & Hp & Hfor). rewrite app_nil_r. split_and!; [done|done|].
      exists b. split; [by left|done].
    + destruct (member_collects_complete _ _ _ _ _ _ Hsub Hf) as (new & Hin & [_ Hm]).
      destruct (Hm _ _ _ _ Hat' Ha) as (Hr & Hne & b & Hb & Hfor). rewrite <- app_assoc in Hne, Hfor. simpl in *.
      split_and!; [done|done|]. exists b. split; [|done]. apply elem_of_app. auto.
    + destruct (member_collects_complete _ _ _ _ _ _ Hsub Hf) as (new & Hin & [_ Hm]).
      by destruct (Hm _ _ _ _ Hat' Ha) as (Hr & _).
Qed.

Lemma collects_other s p r : as_object s = None → collects s p r [].
Proof.
  intros Ho. split.
  - intros b Hb. by apply elem_of_nil in Hb.
  - intros q r' t a Hat Ha. exfalso. destruct Hat as [s|s n c p' r'' t' Hsub _|s c p' r'' t' Hsub _].
    + unfold annotation in Ha. by rewrite Ho in Ha.
    + by destruct Hsub.
    + by destruct Hsub.
Qed.

(** The walk of one member, given the visit of the schemas it holds. *)
Lemma member_wp (f : Value → list (list Z) → bool → C unit) p r kv c3 :
  compiler_ok c3 →
  (∀ s p r c, compiler_ok c → wpc (f s p r) (λ _ c', ∃ new, extends c c' new ∧ collects s p r new) c) →
  wpc (match position_of kv.1, kv.2 with
       | Properties, VObject ps =>
           for_each (λ nc,
             if MAX_PARAMETER_HEADER_PATH_BYTES <? zlen nc.1 then fail LimitExceeded
             else f nc.2 (p ++ [nc.1]) r) ps
       | NamedSchemas, VObject ps => for_each (λ nc, f nc.2 p false) ps
       | ListedSchemas, VArray vs => for_each (λ child, f child p false) vs
       | OneSchema, value => f value p false
       | _, _ => ret tt
       end) (λ _ c', ∃ new, extends c3 c' new ∧ member_collects p r kv new) c3.
Proof.
  destruct kv as [k v]. intros Hc3 Hone. unfold member_collects. cbn [fst snd].
  assert (Hnil : wpc (ret tt : C unit) (λ _ c', ∃ new, extends c3 c' new ∧ new = []) c3)
    by (apply wp_ret; exists []; split; [split; [by rewrite app_nil_r|done]|done]).
  assert (Hmany : ∀ {A} (f : A → C unit) (Q : A → list ParameterHeaderBinding → Prop) l,
    (∀ x c, x ∈ l → compiler_ok c → wpc (f x) (λ _ c', ∃ new, extends c c' new ∧ Q x new) c) →
    wpc (for_each f l) (λ _ c', ∃ new, extends c3 c' new ∧ ∃ news, new = concat news ∧ Forall2 Q l news) c3).
  { intros A g Q l Hf. eapply wp_mono; [by apply wp_for_each| |done].
    intros [] c' (news & Hext & Hall). exists (concat news). split; [done|]. by exists news. }
  destruct (position_of k); destruct v; try exact Hnil; try (by apply Hone);
    apply Hmany; intros x c' _ Hc'; try (by apply Hone).
  destruct (_ <? _); [done|by apply Hone].
Qed.

Lemma visit_wp fuel : ∀ s p r depth c,
  compiler_ok c → 0 <= depth → depth + Z.of_nat fuel = 66 → (0 < fuel)%nat →
  wpc (visit fuel s p r depth) (λ _ c', ∃ new, extends c c' new ∧ collects s p r new) c.
Proof.
  induction fuel as [|fuel IH]; intros s p r depth c Hc Hd Hfuel Hpos; [lia|]. cbn [visit].
  apply wp_bind, wp_modify. apply wp_bind, wp_get. destruct (_ || _) eqn:E; [done|].
  apply orb_false_iff in E as [_ E]. zbool. unfold MAX_SCHEMA_VALIDATION_DEPTH in E.
  set (c1 := {| bindings := bindings c; nodes := nodes c + 1; path_bytes := path_bytes c |}).
  assert (Hc1 : compiler_ok c1) by exact Hc.
  destruct (as_object s) as [ms|] eqn:Hs.
  2:{ apply wp_ret. exists []. split; [|by apply collects_other]. split; [by rewrite app_nil_r|done]. }
  destruct s as [| | | | |ms']; try done. injection Hs as ->.
  apply wp_bind. eapply (wp_mono _ (λ _ c', ∃ new0, extends c1 c' new0 ∧
    match annotation (VObject ms) with
    | None => new0 = []
    | Some _ => ∃ b, new0 = [b] ∧ r = true ∧ p ≠ [] ∧ binding_for (VObject ms) p b
    end) _ (λ _ _, True)); [| |done].
  { change (get_member (chars_of "x-mcp-header") ms) with (annotation (VObject ms)).
    destruct (annotation (VObject ms)) as [a|] eqn:Ha.
    - eapply wp_mono; [by apply annotate_wp| |done]. intros [] c' (b & Hext & Hrest). exists [b]. split; [done|].
      by exists b.
    - apply wp_ret. exists []. split; [|done]. split; [by rewrite app_nil_r|done]. }
  intros [] c2 (new0 & [Hb2 Hc2] & Hann). simpl.
  eapply wp_mono; [apply (wp_for_each _ (member_collects p r)); [done|]| |done].
  2:{ intros [] c3 (news & [Hb3 Hc3] & Hf). exists (new0 ++ concat news). split; [|by apply collects_object].
      split; [|done]. rewrite Hb3, Hb2. by rewrite <- app_assoc. }
  intros kv c3 _ Hc3. apply (member_wp (λ s p r, visit fuel s p r (depth + 1))); [done|]. intros. apply IH; [done|lia..].
Qed.

Lemma compile_wp schema :
  match compile schema with
  | Ok bs => plan_ok bs ∧ collects schema [] true bs
  | Err _ => True
  | _ => False
  end.
Proof.
  assert (H0 : compiler_ok Compiler_new) by (split; [split; [constructor|done|constructor|done]|done]).
  unfold compile. assert (Hfuel : Z.of_nat (Z.to_nat MAX_SCHEMA_VALIDATION_DEPTH + 2) = 66) by reflexivity.
  revert Hfuel. generalize (Z.to_nat MAX_SCHEMA_VALIDATION_DEPTH + 2)%nat. intros fuel Hfuel.
  pose proof (visit_wp fuel schema [] true 0 Compiler_new H0 ltac:(lia) ltac:(lia) ltac:(lia)) as Hv.
  unfold wp in Hv. destruct (visit fuel schema [] true 0 Compiler_new) as [[a|e| |] c]; [|done..].
  destruct Hv as (new & [Hb [Hok _]] & Hc). simpl in Hb. by rewrite Hb in *.
Qed.

(** Compiling always ends, with an error or with a plan of at most 64 bindings
    with distinct names (whatever their case) of allowed characters and bounded
    length and paths.  The plan is exactly what the schema says: one binding, of
    the annotated type and path, for every annotation that is reached through
    properties only, and a schema with an annotation anywhere else, or at its
    root, has no plan. *)
Theorem header_plan_correct schema :
  match compile schema with
  | Ok bs =>
      plan_ok bs ∧
      (∀ b, b ∈ bs → ∃ t, at_path schema (path b) true t ∧ binding_for t (path b) b) ∧
      (∀ p r t a, at_path schema p r t → annotation t = Some a →
         r = true ∧ p ≠ [] ∧ ∃ b, b ∈ bs ∧ binding_for t p b)
  | Err _ => True
  | _ => False
  end.
Proof.
  pose proof (compile_wp schema) as Hw. destruct (compile schema) as [bs|e| |]; [|done..].
  destruct Hw as [Hok [Hsound Hcomplete]]. split_and!; [done| |].
  - intros b Hin. destruct (Hsound b Hin) as (_ & q & t & Hat & Hfor). simpl in Hfor.
    assert (path b = q) as -> by (by destruct Hfor as (? & ? & ? & _ & _ & _ & ->)). eauto.
  - intros p r t a Hat Ha. destruct (Hcomplete p r t a Hat Ha) as (? & ? & ?). done.
Qed.
End HeaderPlans.
