(* ===== verification/HttpHeaderMirrors.v ===== *)
(** Mirrors of tool arguments: what [validate] accepts, what [project] sends, and
    that the receiver of a projection accepts it. *)
From stdpp Require Import base list gmap strings.
From Stdlib Require Import ZArith Lia.
From S2P Require Import Prelude Utf8 JsonGrammar JsonLex RawJson RequestId RequestIdTheorems HttpHeaders HttpHeaderValues HttpHeaderIntegers HttpHeaderPlans.

Module HeaderMirrors.
Import Headers HeaderValues HeaderIntegers HeaderPlans.

(** * Rendered integers *)

Definition ascii (b : Z) : Prop := 0 <= b < 128.

Lemma ascii_utf8 v : Forall ascii v → valid_utf8 v.
Proof.
  intros Hv. exists v. induction Hv as [|b v Hb Hv [IH1 IH2]]; [by split|]. unfold ascii in Hb. split.
  - constructor; [|done]. apply is_scalar_iff. lia.
  - simpl. unfold encode_utf8 at 1. rewrite (proj2 (Z.ltb_lt _ _)) by lia. simpl. by f_equal.
Qed.

Lemma digits_ascii ds : digits ds → Forall ascii ds.
Proof. intros Hd. eapply Forall_impl; [exact Hd|]. intros b Hb%digit_range. unfold ascii. lia. Qed.

(** The parts of a canonical integer text. *)
Lemma canon_parts s n : canon s n →
  ∃ neg ip, lexeme_parts s neg ip [] 0 ∧ signed neg (dec_value ip) = n ∧ digits ip ∧
    s = (if neg then [45] else []) ++ ip ∧ (n = 0 → ip = [48]) ∧ (n ≠ 0 → 10 ^ (zlen ip - 1) <= Z.abs n).
Proof.
  assert (Hgen : ∀ neg ip, int_part ip → lexeme_parts ((if neg : bool then [45] else []) ++ ip) neg ip [] 0).
  { intros neg ip Hi. apply lexeme_parts_iff. exists [], []. rewrite !app_nil_r. split_and!; [done..| |]; constructor. }
  assert (Hint : ∀ d ds, digits (d :: ds) → d ≠ 48 → int_part (d :: ds) ∧ 10 ^ (zlen (d :: ds) - 1) <= dec_value (d :: ds)).
  { intros d ds Hd Hne. split.
    - inversion_clear Hd as [|? ? Hd1 Hd2]. apply digit_range in Hd1. constructor; [lia|done].
    - rewrite zlen_cons. replace (1 + zlen ds - 1) with (zlen ds) by lia. by apply dec_value_ge. }
  intros [|d ds Hd Hne|d ds Hd Hne].
  - exists false, [48]. split_and!; [apply (Hgen false); constructor|done|by repeat constructor|done|done|done].
  - destruct (Hint d ds Hd Hne) as [Hi Hv]. pose proof (dec_value_pos d ds Hd Hne).
    exists false, (d :: ds). split_and!; [by apply (Hgen false)|done|done|done|lia|lia].
  - destruct (Hint d ds Hd Hne) as [Hi Hv]. pose proof (dec_value_pos d ds Hd Hne).
    exists true, (d :: ds). split_and!; [by apply (Hgen true)|done|done|done|lia|lia].
Qed.

Definition in_range (n : Z) : Prop := Z.abs n <= MAX_PARAMETER_HEADER_INTEGER.

Lemma rendered n : in_range n →
  canon (i64_to_string n) n ∧ Forall ascii (i64_to_string n) ∧ zlen (i64_to_string n) <= 17 ∧
  safe_integer (i64_to_string n) = Some n.
Proof.
  intros Hn. unfold in_range, MAX_PARAMETER_HEADER_INTEGER in Hn.
  assert (Hc : canon (i64_to_string n) n) by (apply i64_to_string_canon; unfold i64_min, i64_max; lia).
  destruct (canon_parts _ _ Hc) as (neg & ip & Hp & Hv & Hd & Hs & H0 & Hnz).
  assert (Hl : zlen ip <= 16).
  { destruct (Z.eq_dec n 0) as [H|H]; [by rewrite (H0 H)|]. specialize (Hnz H).
    destruct (Z.le_gt_cases (zlen ip) 16) as [|Hgt]; [done|exfalso].
    assert (10 ^ 16 <= 10 ^ (zlen ip - 1)) by (apply Z.pow_le_mono_r; lia). lia. }
  assert (Hlen : zlen (i64_to_string n) <= 17).
  { rewrite Hs, zlen_app. destruct neg; [change (zlen [45]) with 1|change (zlen []) with 0]; lia. }
  split_and!; [done| |done|].
  - rewrite Hs. apply Forall_app. split; [destruct neg; by repeat constructor|by apply digits_ascii].
  - rewrite (safe_integer_parts _ _ _ _ _ Hp) by (unfold MAX_INTEGER_LEXEME_BYTES, i32_max; lia).
    rewrite app_nil_r. apply finish_spec; [by apply digit_values_small| |done|done|].
    + unfold zlen, digit_values. rewrite length_fmap. unfold zlen in Hl. lia.
    + rewrite num_digit_values, Hv. split; [|done]. change (0 - zlen []) with 0. rewrite scaled_pos by lia. lia.
Qed.

Lemma safe_integer_in_range s n : safe_integer s = Some n → in_range n.
Proof.
  intros Hs. destruct (safe_integer_scanned _ _ Hs) as (Hlen & neg & ip & fr & x & Hp & Hx).
  rewrite (safe_integer_parts _ _ _ _ _ Hp Hlen Hx) in Hs.
  apply finish_spec in Hs as [_ Hr]; [done| | |apply zlen_nonneg|done].
  - apply digit_values_small. by eapply parts_digits.
  - pose proof (lexeme_parts_length _ _ _ _ _ Hp). unfold MAX_INTEGER_LEXEME_BYTES in Hlen.
    unfold zlen, digit_values in *. rewrite length_fmap. lia.
Qed.

Lemma rendered_inj n m : in_range n → in_range m → i64_to_string n = i64_to_string m → n = m.
Proof.
  intros Hn Hm E. destruct (rendered n Hn) as [Hc _]. destruct (rendered m Hm) as [Hc' _]. rewrite E in Hc.
  by eapply canon_value.
Qed.

(** * What [validate] accepts *)

Definition field_bytes (h : list Z * list Z) : Z := zlen h.1 + zlen h.2.

(** A decoded header says the same as the argument; numbers by their value. *)
Definition says (k : ParameterHeaderType) (v : Value) (decoded : list Z) : Prop :=
  match k, v with
  | PString, VString s => decoded = s
  | PBoolean, VBool b => decoded = if b then chars_of "true" else chars_of "false"
  | PInteger, VNumber text => ∃ n, safe_integer decoded = Some n ∧ safe_integer text = Some n
  | _, _ => False
  end.

Section mirrors.
Context `{Base64Laws}.

(** The headers agree with the arguments on one binding. *)
Definition mirror_ok (arguments : option Value) (headers : list (list Z * list Z))
    (b : ParameterHeaderBinding) : Prop :=
  match mirrored arguments b with
  | None => named (name b) headers = []
  | Some v => ∃ h decoded, named (name b) headers = [h] ∧
      decode_mcp_header_value h.2 = Ok decoded ∧ says (kind b) v decoded
  end.

Definition mirror_bytes (headers : list (list Z * list Z)) (b : ParameterHeaderBinding) : Z :=
  sum (field_bytes <$> named (name b) headers).

Lemma decoded_bounded s d : decode_mcp_header_value s = Ok d → zlen d <= MAX_MCP_HEADER_VALUE_BYTES.
Proof.
  unfold decode_mcp_header_value. intros Hd. case_if_in Hd; [done|]. case_if_in Hd; [done|].
  destruct (is_sentinel _).
  - destruct (slice _ _ _); [|done..]. cbn [obind] in Hd. destruct (base64_decode _); [|done].
    case_if_in Hd; [done|]. zbool. case_if_in Hd; [|done]. by injection Hd as <-.
  - case_if_in Hd; [done|]. zbool. by injection Hd as <-.
Qed.

Lemma says_spec k v d :
  zlen d <= MAX_MCP_HEADER_VALUE_BYTES →
  says k v d ↔ ∃ e, primitive_value k v = Ok e ∧ mirrors k d e = true.
Proof.
  intros Hd. destruct k, v; cbn [says primitive_value]; try (split; [done|]; by intros (? & ? & _)).
  - split.
    + intros ->. exists s. rewrite (proj2 (Z.leb_le _ _)) by done. split; [done|]. by apply bool_decide_true.
    + intros (e & He & Hm). case_if_in He; [|done]. injection He as <-. by apply bool_decide_eq_true in Hm.
  - split.
    + intros (n & Hn & Ht). exists (i64_to_string n). rewrite Ht.
      destruct (safe_integer_scanned _ _ Ht) as [Hlen _]. rewrite (proj2 (Z.ltb_ge _ _)) by done. split; [done|].
      cbn [mirrors]. rewrite Hn. by apply bool_decide_true.
    + intros (e & He & Hm). case_if_in He; [done|]. destruct (safe_integer text) as [m|] eqn:Ht; [|done].
      injection He as <-. cbn [mirrors] in Hm. destruct (safe_integer d) as [n|] eqn:Hn; [|done].
      apply bool_decide_eq_true in Hm. exists n. split; [done|]. f_equal.
      symmetry. eapply rendered_inj; [by eapply safe_integer_in_range..|done].
  - split.
    + intros ->. eexists. split; [done|]. by apply bool_decide_true.
    + intros (e & He & Hm). injection He as <-. by apply bool_decide_eq_true in Hm.
Qed.

Lemma field_bytes_nonneg h : 0 <= field_bytes h.
Proof. unfold field_bytes. pose proof (zlen_nonneg h.1). pose proof (zlen_nonneg h.2). lia. Qed.

Lemma sum_nonneg_fmap {A} (f : A → Z) l : (∀ x, 0 <= f x) → 0 <= sum (f <$> l).
Proof. intros Hf. induction l as [|x l IH]; [done|]. rewrite fmap_cons. change (0 <= f x + sum (f <$> l)). specialize (Hf x). lia. Qed.

Lemma mirror_bytes_nonneg headers b : 0 <= mirror_bytes headers b.
Proof. apply sum_nonneg_fmap, field_bytes_nonneg. Qed.

(** Counting one more field against the limit. *)
Lemma counted {A} total h (K : Z → Res A) :
  0 <= total <= MAX_PARAMETER_HEADER_BLOCK_BYTES →
  match checked_add total (zlen h.1) ≫= (λ n, checked_add n (zlen h.2)) with
  | None => Err LimitExceeded
  | Some t => if MAX_PARAMETER_HEADER_BLOCK_BYTES <? t then Err LimitExceeded else K t
  end = (if MAX_PARAMETER_HEADER_BLOCK_BYTES <? total + field_bytes h then Err LimitExceeded
         else K (total + field_bytes h)).
Proof.
  intros Ht. unfold checked_add, field_bytes, MAX_PARAMETER_HEADER_BLOCK_BYTES, usize_max in *.
  pose proof (zlen_nonneg h.1). pose proof (zlen_nonneg h.2).
  destruct (_ <=? _) eqn:E; cbn [mbind option_bind]; zbool.
  - destruct (_ <=? _) eqn:E'; zbool; [by rewrite Z.add_assoc|]. by rewrite (proj2 (Z.ltb_lt _ _)) by lia.
  - by rewrite (proj2 (Z.ltb_lt _ _)) by lia.
Qed.

#[local] Instance sum_Proper : Proper ((≡ₚ) ==> eq) sum.
Proof. exact sum_perm. Qed.

Lemma validate_loop_iff arguments headers bs : ∀ total,
  0 <= total <= MAX_PARAMETER_HEADER_BLOCK_BYTES →
  validate_loop bs arguments headers total = Ok tt ↔
  total + sum (mirror_bytes headers <$> bs) <= MAX_PARAMETER_HEADER_BLOCK_BYTES ∧
  Forall (mirror_ok arguments headers) bs.
Proof.
  induction bs as [|b bs IH]; intros total Ht; cbn [validate_loop].
  { split; [intros _; split; [simpl; lia|constructor]|done]. }
  rewrite fmap_cons, sum_cons, Forall_cons.
  assert (Hrest : 0 <= sum (mirror_bytes headers <$> bs)) by apply sum_nonneg_fmap, mirror_bytes_nonneg.
  unfold mirror_bytes at 1, mirror_ok at 1.
  destruct (named (name b) headers) as [|h [|h' hs]] eqn:En; destruct (mirrored arguments b) as [v|] eqn:Em.
  - split; [done|]. by intros (_ & (? & ? & ? & _) & _).
  - rewrite IH by done. change (sum (field_bytes <$> [])) with 0. rewrite Z.add_0_l. naive_solver.
  - rewrite counted by done. change (sum (field_bytes <$> [h])) with (field_bytes h + 0). rewrite Z.add_0_r, Z.add_assoc.
    pose proof (field_bytes_nonneg h). destruct (_ <? total + field_bytes h) eqn:El; zbool.
    { split; [done|]. intros [? _]. lia. }
    destruct (decode_mcp_header_value h.2) as [d|e| |] eqn:Ed; cbn [obind];
      try (split; [done|]; intros (_ & (h' & d' & [= <-] & ? & _) & _); congruence).
    pose proof (says_spec (kind b) v d (decoded_bounded _ _ Ed)) as Hs.
    assert (Hex : (∃ h0 d0, [h] = [h0] ∧ decode_mcp_header_value h0.2 = Ok d0 ∧ says (kind b) v d0) ↔ says (kind b) v d).
    { split; [|intros ?; by exists h, d]. intros (h0 & d0 & [= <-] & Hd0 & ?). congruence. }
    rewrite Hex, Hs. destruct (primitive_value (kind b) v) as [e|e| |] eqn:Ep; cbn [obind];
      try (split; [done|]; by intros (_ & (? & ? & _) & _)).
    destruct (mirrors (kind b) d e) eqn:Emi.
    + rewrite IH by lia. split; [intros [? ?]; split_and!; [done|by exists e|done]|naive_solver].
    + split; [done|]. intros (_ & (e' & [= <-] & ?) & _). congruence.
  - split; [done|]. by intros (_ & ? & _).
  - split; [done|]. by intros (_ & (? & ? & ? & _) & _).
  - split; [done|]. by intros (_ & ? & _).
Qed.

(** C31: [validate] accepts a request just when its arguments are an object or
    absent, its headers number at most 1024, the mirrors take at most 64 KiB, and
    for every binding of the plan: an argument that is absent or null has no
    header of that name in any case, and any other argument has exactly one,
    which decodes to the same string or boolean or to a number of the same exact
    integer value. *)
Theorem validate_accepts_iff bs arguments headers :
  validate bs arguments headers = Ok tt ↔
  not_object arguments = false ∧ zlen headers <= 1024 ∧
  sum (mirror_bytes headers <$> bs) <= MAX_PARAMETER_HEADER_BLOCK_BYTES ∧
  Forall (mirror_ok arguments headers) bs.
Proof.
  unfold validate. destruct (not_object arguments); [split; [done|]; by intros []|].
  destruct (1024 <? zlen headers) eqn:E; zbool; [split; [done|]; intros (_ & ? & _); lia|].
  rewrite validate_loop_iff by (by vm_compute). naive_solver.
Qed.

(** * What [project] sends *)

(** The field of a binding whose argument is present. *)
Definition sends (arguments : option Value) (b : ParameterHeaderBinding) (f : list Z * list Z) : Prop :=
  f.1 = name b ∧ ∃ v p, mirrored arguments b = Some v ∧ primitive_value (kind b) v = Ok p ∧
    encode_mcp_header_value p = Ok f.2.

Definition present (arguments : option Value) (b : ParameterHeaderBinding) : Prop := is_Some (mirrored arguments b).
#[local] Instance present_dec arguments b : Decision (present arguments b).
Proof. unfold present. apply _. Defined.

Lemma project_loop_Ok arguments bs : ∀ bytes fields,
  0 <= bytes <= MAX_PARAMETER_HEADER_BLOCK_BYTES → project_loop bs arguments bytes = Ok fields →
  Forall2 (sends arguments) (filter (present arguments) bs) fields ∧
  bytes + sum (field_bytes <$> fields) <= MAX_PARAMETER_HEADER_BLOCK_BYTES.
Proof.
  induction bs as [|b bs IH]; intros bytes fields Hb Hp; cbn [project_loop] in Hp.
  { injection Hp as <-. split; [constructor|simpl; lia]. }
  rewrite filter_cons. destruct (mirrored arguments b) as [v|] eqn:Em.
  - rewrite decide_True by (by exists v). destruct (primitive_value (kind b) v) as [p| | |] eqn:Ep; [|done..].
    cbn [obind] in Hp. destruct (encode_mcp_header_value p) as [e| | |] eqn:Ee; [|done..]. cbn [obind] in Hp.
    rewrite (counted bytes (name b, e)) in Hp by done. pose proof (field_bytes_nonneg (name b, e)).
    case_if_in Hp; [done|]. zbool. destruct (project_loop bs arguments _) as [fs| | |] eqn:El; [|done..].
    cbn [obind] in Hp. injection Hp as <-. apply IH in El as [Hf Hsum]; [|lia]. split.
    + constructor; [|done]. split; [done|]. by exists v, p.
    + rewrite fmap_cons, sum_cons. lia.
  - rewrite decide_False by (intros [? ?]; congruence). by apply IH.
Qed.

(** A field on the way: header names may change case. *)
Definition transit (f h : list Z * list Z) : Prop := eq_ignore_ascii_case h.1 f.1 = true ∧ h.2 = f.2.

Lemma same_name_iff a b : eq_ignore_ascii_case a b = true ↔ to_ascii_lowercase <$> a = to_ascii_lowercase <$> b.
Proof. apply bool_decide_eq_true. Qed.

Lemma transit_bytes f h : transit f h → field_bytes h = field_bytes f.
Proof.
  intros [Hn%same_name_iff Hv]. unfold field_bytes. rewrite Hv. f_equal.
  apply (f_equal length) in Hn. rewrite !length_fmap in Hn. unfold zlen. by rewrite Hn.
Qed.

Lemma named_none n received :
  Forall (λ h, to_ascii_lowercase <$> h.1 ≠ to_ascii_lowercase <$> n) received → named n received = [].
Proof.
  induction 1 as [|h hs Hh _ IH]; [done|]. unfold named. rewrite filter_cons, decide_False; [exact IH|].
  by rewrite same_name_iff.
Qed.

(** What the receiver finds under the name of a binding. *)
Definition received_ok (arguments : option Value) (received : list (list Z * list Z)) (b : ParameterHeaderBinding) : Prop :=
  match mirrored arguments b with
  | None => named (name b) received = []
  | Some v => ∃ h p, named (name b) received = [h] ∧ primitive_value (kind b) v = Ok p ∧
      encode_mcp_header_value p = Ok h.2
  end.

(** Only bindings send fields, under their own names. *)
Lemma received_names arguments bs fields received n :
  Forall2 (sends arguments) (filter (present arguments) bs) fields → Forall2 transit fields received →
  to_ascii_lowercase <$> n ∉ lowered <$> bs →
  named n received = [].
Proof.
  intros Hf Ht Hn. apply named_none, Forall_forall. intros h Hh E. apply Hn.
  destruct (Forall2_elem_r _ _ _ _ Ht Hh) as (f & Hff & Htr). destruct (Forall2_elem_r _ _ _ _ Hf Hff) as (b & Hb & Hs).
  apply list_elem_of_fmap. exists b. split; [|by apply list_elem_of_filter in Hb as [_ Hb]].
  destruct Htr as [Hc%same_name_iff _]. destruct Hs as [Hs _]. unfold lowered. by rewrite <- Hs, <- Hc, E.
Qed.

Lemma received_fields arguments bs : ∀ fields received,
  NoDup (lowered <$> bs) →
  Forall2 (sends arguments) (filter (present arguments) bs) fields → Forall2 transit fields received →
  Forall (received_ok arguments received) bs ∧
  sum (mirror_bytes received <$> bs) = sum (field_bytes <$> fields).
Proof.
  induction bs as [|b bs IH]; intros fields received Hnd Hf Ht.
  { inversion Hf; subst. by inversion Ht. }
  rewrite fmap_cons in Hnd. apply NoDup_cons in Hnd as [Hnew Hnd]. rewrite filter_cons in Hf.
  rewrite fmap_cons, sum_cons, Forall_cons. unfold received_ok at 1, mirror_bytes at 1.
  destruct (mirrored arguments b) as [v|] eqn:Em.
  - rewrite decide_True in Hf by (by exists v).
    inversion Hf as [|b' f bs' fs Hs Hfs]; subst. inversion Ht as [|f' h fs' hs Hth Hths]; subst.
    destruct (IH fs hs Hnd Hfs Hths) as [Hall Hsum].
    assert (Hlow : to_ascii_lowercase <$> h.1 = lowered b).
    { destruct Hth as [Hn%same_name_iff _]. destruct Hs as [Hs _]. by rewrite Hn, Hs. }
    assert (Hown : named (name b) (h :: hs) = [h]).
    { unfold named. rewrite filter_cons, decide_True by (by apply same_name_iff). f_equal.
      by eapply (received_names arguments bs). }
    assert (Hother : ∀ b', b' ∈ bs → named (name b') (h :: hs) = named (name b') hs).
    { intros b' Hb'. unfold named. rewrite filter_cons, decide_False; [done|]. rewrite same_name_iff, Hlow.
      intros E. apply Hnew. apply list_elem_of_fmap. by exists b'. }
    rewrite Hown. split; [split|].
    + destruct Hs as (_ & v' & p & Hv & Hp & He). rewrite Em in Hv. injection Hv as <-.
      exists h, p. split_and!; [done..|]. by destruct Hth as [_ ->].
    + rewrite Forall_forall in Hall |- *. intros b' Hb'. specialize (Hall b' Hb').
      unfold received_ok in *. by rewrite Hother.
    + change (sum (field_bytes <$> [h])) with (field_bytes h + 0).
      rewrite Z.add_0_r, fmap_cons, sum_cons, <- Hsum, <- (transit_bytes _ _ Hth). f_equal. f_equal.
      apply list_fmap_ext. intros i b' Hb'%list_elem_of_lookup_2. unfold mirror_bytes. by rewrite Hother.
  - rewrite decide_False in Hf by (intros [? ?]; congruence). destruct (IH fields received Hnd Hf Ht) as [Hall Hsum].
    rewrite (received_names arguments bs fields received) by done. split; [done|]. exact Hsum.
Qed.

(** * From one to the other *)

(** The arguments a plan mirrors are sent within the receiver's limit: strings
    are UTF-8, as every [String] is, and those that have to be wrapped take at
    most 8190 bytes. *)
Definition sendable (bs : list ParameterHeaderBinding) (arguments : option Value) : Prop :=
  ∀ b s, b ∈ bs → mirrored arguments b = Some (VString s) → valid_utf8 s ∧ (zlen s <= 8190 ∨ plain s = true).

(** What is sent for an argument says the same as the argument. *)
Lemma sent_says k v p e :
  (∀ s, v = VString s → valid_utf8 s ∧ (zlen s <= 8190 ∨ plain s = true)) →
  primitive_value k v = Ok p → encode_mcp_header_value p = Ok e →
  ∃ d, decode_mcp_header_value e = Ok d ∧ says k v d.
Proof.
  intros Hsend Hp He.
  assert (Hgen : valid_utf8 p → (zlen p <= 8190 ∨ plain p = true) → decode_mcp_header_value e = Ok p).
  { intros Hu Hs. pose proof (valid_utf8_bytes p Hu) as Hb.
    assert (Hl : zlen p <= MAX_MCP_HEADER_VALUE_BYTES).
    { unfold encode_mcp_header_value in He. case_if_in He; [done|]. by zbool. }
    destruct (encode_spec p Hb Hl) as (e' & He' & _ & _ & _ & Hlen). rewrite He in He'. injection He' as <-.
    pose proof (decode_encoded p e [] [] Hu He) as Hd. rewrite app_nil_r in Hd. apply Hd; [constructor..|].
    simpl. rewrite Hlen. change MAX_MCP_ENCODED_HEADER_VALUE_BYTES with 10934.
    unfold MAX_MCP_HEADER_VALUE_BYTES in Hl. destruct (plain p); [lia|]. destruct Hs; [unfold div_ceil; dlia|done]. }
  destruct k, v; try done; cbn [primitive_value] in Hp.
  - case_if_in Hp; [|done]. injection Hp as <-. destruct (Hsend s eq_refl). exists s. split; [by apply Hgen|done].
  - case_if_in Hp; [done|]. destruct (safe_integer text) as [n|] eqn:Ht; [|done]. injection Hp as <-.
    destruct (rendered n (safe_integer_in_range _ _ Ht)) as (_ & Ha & Hl & Hn).
    exists (i64_to_string n). split; [apply Hgen; [by apply ascii_utf8|lia]|]. by exists n.
  - injection Hp as <-. eexists. split; [apply Hgen|done].
    + apply ascii_utf8. destruct b; by repeat constructor.
    + left. by destruct b.
Qed.

Lemma named_perm n l k : l ≡ₚ k → named n l ≡ₚ named n k.
Proof. apply filter_Permutation. Qed.

(** The receiver of a projection accepts it.  The fields of a projection may
    arrive in any order, with their names in any case and among other headers, as
    long as none of those has the name of a binding and all headers together
    number at most 1024: then [validate] accepts them for the same arguments. *)
Theorem projection_accepted bs arguments fields received others headers :
  plan_ok bs → sendable bs arguments → project bs arguments = Ok fields →
  Forall2 transit fields received → headers ≡ₚ received ++ others →
  (∀ h b, h ∈ others → b ∈ bs → eq_ignore_ascii_case h.1 (name b) = false) →
  zlen headers <= 1024 →
  validate bs arguments headers = Ok tt.
Proof.
  intros [_ _ Hnd _] Hsend Hp Ht Hperm Hothers Hn. unfold project in Hp. unfold validate.
  case_if_in Hp; [done|]. rewrite (proj2 (Z.ltb_ge _ _)) by done.
  apply project_loop_Ok in Hp as [Hf Hsum]; [|by vm_compute].
  destruct (received_fields arguments bs fields received Hnd Hf Ht) as [Hall Hbytes].
  assert (Hnamed : ∀ b, b ∈ bs → named (name b) headers ≡ₚ named (name b) received).
  { intros b Hb. rewrite (named_perm _ _ _ Hperm). unfold named. rewrite filter_app.
    fold (named (name b) received) (named (name b) others). rewrite (named_none _ others), app_nil_r; [done|].
    apply Forall_forall. intros h Hh. rewrite <- same_name_iff. by rewrite (Hothers h b). }
  apply validate_loop_iff; [by vm_compute|]. split.
  - rewrite Z.add_0_l in *. replace (sum (mirror_bytes headers <$> bs)) with (sum (mirror_bytes received <$> bs)); [lia|].
    f_equal. apply list_fmap_ext. intros i b Hb%list_elem_of_lookup_2. unfold mirror_bytes.
    by rewrite (Hnamed b Hb).
  - rewrite Forall_forall in Hall |- *. intros b Hb. specialize (Hall b Hb). specialize (Hnamed b Hb).
    unfold received_ok in Hall. unfold mirror_ok. destruct (mirrored arguments b) as [v|] eqn:Em.
    + destruct Hall as (h & p & Hh & Hv & He). rewrite Hh in Hnamed. apply Permutation_singleton_r in Hnamed.
      destruct (sent_says (kind b) v p h.2) as (d & Hd & Hsays); [|done..|by exists h, d].
      intros s ->. by apply (Hsend b).
    + rewrite Hall in Hnamed. by apply Permutation_nil_r in Hnamed.
Qed.
End mirrors.
End HeaderMirrors.
