(* ===== verification/HttpHeaderSchemas.v ===== *)
(** Admission of a tool's annotated schema, [AdmittedToolHeaderSchema] of
    [crates/fastmcp-protocol/src/http_headers.rs]: the bounds on the source, the
    copy without annotations for the schema engine, and the plan. *)
From stdpp Require Import base list gmap strings.
From Stdlib Require Import ZArith Lia.
From S2P Require Import Prelude Utf8 JsonGrammar RawJson RequestId HttpHeaders HttpHeaderPlans.

Module HeaderSchemas.
Import Headers HeaderPlans.

Definition MAX_TOOL_HEADER_SCHEMA_BYTES : Z := 1024 * 1024.

(** * The bounds *)

(** [MAX_SCHEMA_ADMISSION_NODES - nodes - pending.len()] *)
Definition room (nodes pending : Z) : Res Z :=
  match checked_sub MAX_SCHEMA_ADMISSION_NODES nodes ≫= (λ n, checked_sub n pending) with
  | Some n => Ok n
  | None => Panic
  end.

(** [pending] is a stack: its top comes first. *)
Fixpoint bound_loop (fuel : nat) (pending : list (Value * Z)) (nodes bytes : Z) : Res unit :=
  match pending with
  | [] => Ok tt
  | (value, depth) :: pending =>
      match fuel with
      | O => OutOfFuel
      | S fuel =>
          let nodes := nodes + 1 in
          let next pending bytes :=
            if MAX_TOOL_HEADER_SCHEMA_BYTES <? bytes then Err LimitExceeded
            else bound_loop fuel pending nodes bytes in
          if (MAX_SCHEMA_ADMISSION_NODES <? nodes) || (MAX_SCHEMA_VALIDATION_DEPTH <? depth)
          then Err LimitExceeded
          else
            match value with
            | VObject ms =>
                let? free := room nodes (zlen pending) in
                if free <? zlen ms then Err LimitExceeded
                else match try_sum ((λ kv, zlen kv.1) <$> ms) bytes with
                     | None => Err LimitExceeded
                     | Some bytes => next (rev ((λ kv, (kv.2, depth + 1)) <$> ms) ++ pending) bytes
                     end
            | VArray vs =>
                let? free := room nodes (zlen pending) in
                if free <? zlen vs then Err LimitExceeded
                else next (rev ((λ v, (v, depth + 1)) <$> vs) ++ pending) bytes
            | VString s =>
                match checked_add bytes (zlen s) with
                | None => Err LimitExceeded
                | Some bytes => next pending bytes
                end
            | VNumber text =>
                match checked_add bytes (zlen text) with
                | None => Err LimitExceeded
                | Some measured =>
                    if MAX_TOOL_HEADER_SCHEMA_BYTES <? measured then Err LimitExceeded
                    else next pending measured
                end
            | VBool _ | VNull => next pending bytes
            end
      end
  end.

(** Every turn counts a node, and none passes the limit. *)
Definition bound_schema_source (source : Value) : Res unit :=
  bound_loop (Z.to_nat MAX_SCHEMA_ADMISSION_NODES + 1) [(source, 0)] 0 0.

(** * The copy without annotations *)

Definition HEADER_KEYWORD : list Z := chars_of "x-mcp-header".

(** Which schemas a keyword holds, for the copy. *)
Definition separated_position (keyword : list Z) : Position :=
  if bool_decide (keyword ∈ chars_of <$> ["properties"; "$defs"; "patternProperties"; "dependentSchemas"]%string)
  then NamedSchemas
  else if bool_decide (keyword ∈ chars_of <$> ["allOf"; "anyOf"; "oneOf"; "prefixItems"]%string) then ListedSchemas
  else if bool_decide (keyword ∈ chars_of <$>
    ["items"; "contains"; "additionalProperties"; "unevaluatedProperties"; "unevaluatedItems";
     "propertyNames"; "not"; "if"; "then"; "else"; "contentSchema"]%string) then OneSchema
  else NoSchema.

Fixpoint separate_header_annotations (schema : Value) : Value :=
  match schema with
  | VObject ms =>
      VObject ((fix members ms :=
        match ms with
        | [] => []
        | (keyword, value) :: ms =>
            if bool_decide (keyword = HEADER_KEYWORD) then members ms
            else
              (keyword,
               match separated_position keyword, value with
               | NamedSchemas, VObject children =>
                   VObject ((λ nc, (nc.1, separate_header_annotations nc.2)) <$> children)
               | ListedSchemas, VArray children => VArray (separate_header_annotations <$> children)
               | OneSchema, value => separate_header_annotations value
               | _, value => value
               end) :: members ms
        end) ms)
  | _ => schema
  end.

(** * Admission *)

Record AdmittedToolHeaderSchema : Type := {
  source : Value;
  validation : Value;
  plan : list ParameterHeaderBinding;
}.

(** The schema engine, [admit_final_schema], says which schemas it takes. *)
Definition admit_schema (admit_final_schema : Value → bool) (source : Value) : Res AdmittedToolHeaderSchema :=
  let? _ := bound_schema_source source in
  let validation := separate_header_annotations source in
  if negb (admit_final_schema validation) then Err InvalidSchema
  else
    let? plan := compile source in
    Ok {| source := source; validation := validation; plan := plan |}.

(** * What the bounds measure *)

Fixpoint node_count (v : Value) : Z :=
  match v with
  | VArray vs => 1 + sum (node_count <$> vs)
  | VObject ms => 1 + sum ((λ kv, node_count kv.2) <$> ms)
  | _ => 1
  end.

Fixpoint height (v : Value) : Z :=
  match v with
  | VArray vs => foldr Z.max 0 ((λ c, 1 + height c) <$> vs)
  | VObject ms => foldr Z.max 0 ((λ kv, 1 + height kv.2) <$> ms)
  | _ => 0
  end.

(** The bytes of names, strings and numbers. *)
Fixpoint text_bytes (v : Value) : Z :=
  match v with
  | VString s | VNumber s => zlen s
  | VArray vs => sum (text_bytes <$> vs)
  | VObject ms => sum ((λ kv, zlen kv.1 + text_bytes kv.2) <$> ms)
  | _ => 0
  end.

(** Induction through the containers. *)
Lemma value_ind' (P : Value → Prop) :
  P VNull → (∀ b, P (VBool b)) → (∀ t, P (VNumber t)) → (∀ s, P (VString s)) →
  (∀ vs, Forall P vs → P (VArray vs)) → (∀ ms, Forall (λ kv, P kv.2) ms → P (VObject ms)) → ∀ v, P v.
Proof.
  intros H1 H2 H3 H4 H5 H6. refine (fix go v := match v with VArray vs => H5 vs _ | VObject ms => H6 ms _ | _ => _ end);
    [done..| |].
  - induction vs; constructor; auto.
  - induction ms as [|[k w] ms IH]; constructor; simpl; auto.
Qed.

Lemma node_count_pos v : 1 <= node_count v.
Proof.
  induction v as [| | | |vs IH|ms IH] using value_ind'; simpl; try lia.
  - enough (0 <= sum (node_count <$> vs)) by lia. apply sum_nonneg, Forall_fmap. eapply Forall_impl; [exact IH|].
    intros x Hx. simpl in *. lia.
  - enough (0 <= sum ((λ kv, node_count kv.2) <$> ms)) by lia. apply sum_nonneg, Forall_fmap.
    eapply Forall_impl; [exact IH|]. intros x Hx. simpl in *. lia.
Qed.

Lemma text_bytes_nonneg v : 0 <= text_bytes v.
Proof.
  induction v as [| | | |vs IH|ms IH] using value_ind'; simpl; try lia; try apply zlen_nonneg.
  - by apply sum_nonneg, Forall_fmap.
  - apply sum_nonneg, Forall_fmap. eapply Forall_impl; [exact IH|]. intros [k x] Hx. simpl in *.
    pose proof (zlen_nonneg k). lia.
Qed.

(** What a stack of values amounts to. *)
Definition stack_nodes (ps : list (Value * Z)) : Z := sum ((λ p, node_count p.1) <$> ps).
Definition stack_bytes (ps : list (Value * Z)) : Z := sum ((λ p, text_bytes p.1) <$> ps).
Definition within (ps : list (Value * Z)) (nodes bytes : Z) : Prop :=
  nodes + stack_nodes ps <= MAX_SCHEMA_ADMISSION_NODES ∧
  Forall (λ p, p.2 + height p.1 <= MAX_SCHEMA_VALIDATION_DEPTH) ps ∧
  bytes + stack_bytes ps <= MAX_TOOL_HEADER_SCHEMA_BYTES.

#[local] Instance within_dec ps nodes bytes : Decision (within ps nodes bytes).
Proof. unfold within. apply _. Defined.

#[local] Instance sum_Proper : Proper ((≡ₚ) ==> eq) sum.
Proof. exact sum_perm. Qed.

Lemma within_perm ps qs nodes bytes : ps ≡ₚ qs → within ps nodes bytes ↔ within qs nodes bytes.
Proof.
  intros Hp. unfold within, stack_nodes, stack_bytes.
  rewrite (sum_perm _ _ (fmap_Permutation (λ p, node_count p.1) _ _ Hp)),
    (sum_perm _ _ (fmap_Permutation (λ p, text_bytes p.1) _ _ Hp)).
  rewrite !Forall_forall. by setoid_rewrite Hp.
Qed.

Lemma within_bounds_app ps qs nodes bytes :
  within (ps ++ qs) nodes bytes ↔
  nodes + stack_nodes ps + stack_nodes qs <= MAX_SCHEMA_ADMISSION_NODES ∧
  Forall (λ p, p.2 + height p.1 <= MAX_SCHEMA_VALIDATION_DEPTH) ps ∧
  Forall (λ p, p.2 + height p.1 <= MAX_SCHEMA_VALIDATION_DEPTH) qs ∧
  bytes + stack_bytes ps + stack_bytes qs <= MAX_TOOL_HEADER_SCHEMA_BYTES.
Proof.
  unfold within, stack_nodes, stack_bytes. rewrite !fmap_app, !sum_app, Forall_app, !Z.add_assoc. tauto.
Qed.

(** One value of the stack against its children. *)
Lemma within_children v depth children names ps nodes bytes :
  0 <= depth <= MAX_SCHEMA_VALIDATION_DEPTH →
  node_count v = 1 + stack_nodes children → text_bytes v = names + stack_bytes children →
  (∀ b, 0 <= b → depth + height v <= b ↔ depth <= b ∧ Forall (λ p, p.2 + height p.1 <= b) children) →
  within ((v, depth) :: ps) nodes bytes ↔ within (children ++ ps) (nodes + 1) (bytes + names).
Proof.
  intros Hd Hn Ht Hh. rewrite within_bounds_app. unfold within, stack_nodes, stack_bytes in *.
  rewrite !fmap_cons, !sum_cons, Forall_cons. cbn [fst snd]. rewrite Hn, Ht, Hh by done. naive_solver lia.
Qed.

Lemma height_nonneg v : 0 <= height v.
Proof.
  assert (Hmax : ∀ l, 0 <= foldr Z.max 0 l) by (induction l; simpl; lia). destruct v; simpl; try apply Hmax; lia.
Qed.

Lemma stack_nodes_zlen ps : zlen ps <= stack_nodes ps.
Proof.
  unfold stack_nodes. induction ps as [|p ps IH]; [done|]. rewrite fmap_cons, sum_cons, zlen_cons.
  pose proof (node_count_pos p.1). lia.
Qed.

Lemma stack_bytes_nonneg ps : 0 <= stack_bytes ps.
Proof. apply sum_nonneg, Forall_fmap, Forall_true. intros p. apply text_bytes_nonneg. Qed.

Definition verdict (ps : list (Value * Z)) (nodes bytes : Z) : Res unit :=
  if decide (within ps nodes bytes) then Ok tt else Err LimitExceeded.

Lemma verdict_iff ps qs n n' b b' : (within ps n b ↔ within qs n' b') → verdict ps n b = verdict qs n' b'.
Proof. intros E. unfold verdict. destruct (decide (within ps n b)), (decide (within qs n' b')); tauto. Qed.

Lemma verdict_refused ps n b : ¬ within ps n b → verdict ps n b = Err LimitExceeded.
Proof. intros E. unfold verdict. by rewrite decide_False. Qed.

(** The children of a value, each one level deeper, and the bytes of its own. *)
Definition children (v : Value) (depth : Z) : list (Value * Z) :=
  match v with
  | VArray vs => (λ c, (c, depth + 1)) <$> vs
  | VObject ms => (λ kv, (kv.2, depth + 1)) <$> ms
  | _ => []
  end.
Definition own_bytes (v : Value) : Z :=
  match v with
  | VString s | VNumber s => zlen s
  | VObject ms => sum ((λ kv, zlen kv.1) <$> ms)
  | _ => 0
  end.

Lemma own_bytes_nonneg v : 0 <= own_bytes v.
Proof.
  destruct v; simpl; try lia; try apply zlen_nonneg. apply sum_nonneg, Forall_fmap, Forall_true. intros. apply zlen_nonneg.
Qed.

Lemma sum_fmap_add {A} (f g : A → Z) l : sum ((λ x, f x + g x) <$> l) = sum (f <$> l) + sum (g <$> l).
Proof. induction l as [|x l IH]; [done|]. rewrite !fmap_cons, !sum_cons, IH. lia. Qed.

Lemma within_value v depth ps nodes bytes :
  0 <= depth <= MAX_SCHEMA_VALIDATION_DEPTH →
  within ((v, depth) :: ps) nodes bytes ↔ within (children v depth ++ ps) (nodes + 1) (bytes + own_bytes v).
Proof.
  intros Hd. apply within_children; [done|..].
  - unfold stack_nodes. destruct v; try done; cbn [node_count children]; by rewrite <- list_fmap_compose.
  - unfold stack_bytes. destruct v; cbn [text_bytes own_bytes children]; try (simpl; lia);
      rewrite <- list_fmap_compose; [done|]. apply sum_fmap_add.
  - intros b Hb. assert (Hmax : ∀ l, depth + foldr Z.max 0 l <= b ↔ depth <= b ∧ Forall (λ x, depth + x <= b) l).
    { intros l. induction l as [|x l IH]; simpl; [rewrite Forall_nil; naive_solver lia|]. rewrite Forall_cons.
      destruct IH as [IH1 IH2]. split; [intros; destruct IH1; [lia|]; split_and!; [done|lia|done]|].
      intros (? & ? & ?). assert (depth + foldr Z.max 0 l <= b) by (by apply IH2). lia. }
    destruct v; cbn [height children]; try (rewrite Forall_nil; naive_solver lia);
      rewrite Hmax, !Forall_fmap; apply and_iff_compat_l, Forall_iff; intros x; simpl; lia.
Qed.

Lemma refused_bytes ps nodes bytes : MAX_TOOL_HEADER_SCHEMA_BYTES < bytes → verdict ps nodes bytes = Err LimitExceeded.
Proof. intros Hb. apply verdict_refused. intros (_ & _ & Hw). pose proof (stack_bytes_nonneg ps). lia. Qed.

Lemma refused_nodes ps nodes bytes :
  MAX_SCHEMA_ADMISSION_NODES < nodes + zlen ps → verdict ps nodes bytes = Err LimitExceeded.
Proof. intros Hn. apply verdict_refused. intros (Hw & _). pose proof (stack_nodes_zlen ps). lia. Qed.

Lemma room_ok nodes n :
  0 <= n → nodes + n <= MAX_SCHEMA_ADMISSION_NODES → room nodes n = Ok (MAX_SCHEMA_ADMISSION_NODES - nodes - n).
Proof.
  intros Hn Hle. unfold room, checked_sub. rewrite (proj2 (Z.leb_le _ _)) by lia. cbn [mbind option_bind].
  by rewrite (proj2 (Z.leb_le _ _)) by lia.
Qed.

(** Counting the bytes of a value, whatever way the code adds them up. *)
Lemma counted_bytes {A} (o : option Z) bytes own (K : Z → Res A) :
  0 <= bytes <= MAX_TOOL_HEADER_SCHEMA_BYTES → 0 <= own →
  o = (if bytes + own <=? usize_max then Some (bytes + own) else None) →
  match o with
  | None => Err LimitExceeded
  | Some b => if MAX_TOOL_HEADER_SCHEMA_BYTES <? b then Err LimitExceeded else K b
  end = if MAX_TOOL_HEADER_SCHEMA_BYTES <? bytes + own then Err LimitExceeded else K (bytes + own).
Proof.
  intros Hb Ho ->. destruct (_ <=? usize_max) eqn:E; zbool; [done|].
  rewrite (proj2 (Z.ltb_lt _ _)); [done|]. unfold MAX_TOOL_HEADER_SCHEMA_BYTES, usize_max in *. lia.
Qed.

Lemma bound_loop_spec fuel : ∀ ps nodes bytes,
  0 <= nodes → nodes + zlen ps <= MAX_SCHEMA_ADMISSION_NODES → 0 <= bytes <= MAX_TOOL_HEADER_SCHEMA_BYTES →
  Forall (λ p, 0 <= p.2) ps → MAX_SCHEMA_ADMISSION_NODES < nodes + Z.of_nat fuel →
  bound_loop fuel ps nodes bytes = verdict ps nodes bytes.
Proof.
  induction fuel as [|fuel IH]; intros [|[v depth] ps] nodes bytes Hn Hlen Hb Hps Hfuel;
    rewrite ?zlen_cons, ?zlen_nil in Hlen.
  1,3: unfold verdict; rewrite decide_True; [done|]; split_and!; [|constructor|];
    [change (stack_nodes []) with 0|change (stack_bytes []) with 0]; lia.
  { pose proof (zlen_nonneg ps). lia. }
  pose proof (zlen_nonneg ps).
  apply Forall_cons in Hps as [Hdepth Hps]. cbn [snd] in Hdepth.
  cbn [bound_loop]. rewrite (proj2 (Z.ltb_ge _ _)) by lia. cbn [orb].
  destruct (_ <? depth) eqn:Ed; zbool.
  { symmetry. apply verdict_refused. intros (_ & Hf & _). apply Forall_cons in Hf as [Hf _]. simpl in Hf.
    pose proof (height_nonneg v). lia. }
  rewrite (verdict_iff _ _ _ _ _ _ (within_value v depth ps nodes bytes ltac:(lia))).
  pose proof (own_bytes_nonneg v) as Hown.
  assert (Hnext : ∀ cs own, cs ≡ₚ children v depth → own = own_bytes v →
    nodes + 1 + zlen (children v depth ++ ps) <= MAX_SCHEMA_ADMISSION_NODES →
    (if MAX_TOOL_HEADER_SCHEMA_BYTES <? bytes + own then Err LimitExceeded
     else bound_loop fuel (cs ++ ps) (nodes + 1) (bytes + own)) =
    verdict (children v depth ++ ps) (nodes + 1) (bytes + own_bytes v)).
  { intros cs own Hp -> Hroom. destruct (_ <? bytes + own_bytes v) eqn:E; zbool; [by rewrite refused_bytes|].
    rewrite IH; [by apply verdict_iff, within_perm; rewrite Hp|lia| |lia| |lia].
    - replace (zlen (cs ++ ps)) with (zlen (children v depth ++ ps)) by (unfold zlen; by rewrite Hp). lia.
    - rewrite Hp. apply Forall_app. split; [|done].
      destruct v; try constructor; apply Forall_fmap, Forall_true; simpl; lia. }
  destruct v as [|b|t|s|vs|ms]; cbn [own_bytes] in *.
  - specialize (Hnext [] 0). rewrite Z.add_0_r in Hnext |- *. apply Hnext; [done|done|simpl; lia].
  - specialize (Hnext [] 0). rewrite Z.add_0_r in Hnext |- *. apply Hnext; [done|done|simpl; lia].
  - rewrite (counted_bytes (checked_add bytes (zlen t)) bytes (zlen t)) by done.
    destruct (_ <? bytes + zlen t) eqn:E; zbool; [by rewrite refused_bytes|].
    rewrite <- (Hnext [] (zlen t)); [|done|done|simpl; lia]. rewrite (proj2 (Z.ltb_ge _ _)) by lia. done.
  - rewrite (counted_bytes (checked_add bytes (zlen s)) bytes (zlen s)) by done. apply (Hnext []); [done|done|simpl; lia].
  - rewrite room_ok by lia. cbn [obind]. destruct (_ <? zlen vs) eqn:E; zbool.
    { rewrite refused_nodes; [done|]. rewrite zlen_app. unfold children, zlen in *. rewrite length_fmap. lia. }
    specialize (Hnext (rev (children (VArray vs) depth)) 0). rewrite Z.add_0_r in Hnext |- *.
    apply Hnext; [by rewrite <- Permutation_rev|done|]. rewrite zlen_app. unfold children, zlen in *. rewrite length_fmap. lia.
  - rewrite room_ok by lia. cbn [obind]. destruct (_ <? zlen ms) eqn:E; zbool.
    { rewrite refused_nodes; [done|]. rewrite zlen_app. unfold children, zlen in *. rewrite length_fmap. lia. }
    rewrite (counted_bytes _ bytes (sum ((λ kv, zlen kv.1) <$> ms))); [|done|done|].
    2:{ apply try_sum_spec; [apply Forall_fmap, Forall_true; intros; apply zlen_nonneg|].
        unfold MAX_TOOL_HEADER_SCHEMA_BYTES, usize_max in *. lia. }
    apply Hnext; [by rewrite <- Permutation_rev|done|]. rewrite zlen_app. unfold children, zlen in *. rewrite length_fmap. lia.
Qed.

(** The walk over a schema source ends and never panics, and takes the source
    exactly when it has at most 4096 values, nested at most 64 deep, and names,
    strings and numbers of at most one mebibyte in all. *)
Theorem bound_schema_source_exact v :
  bound_schema_source v =
  if (node_count v <=? MAX_SCHEMA_ADMISSION_NODES) && (height v <=? MAX_SCHEMA_VALIDATION_DEPTH) &&
     (text_bytes v <=? MAX_TOOL_HEADER_SCHEMA_BYTES)
  then Ok tt else Err LimitExceeded.
Proof.
  unfold bound_schema_source. rewrite bound_loop_spec; [|done|done|done|by repeat constructor|].
  2:{ unfold MAX_SCHEMA_ADMISSION_NODES. lia. }
  assert (Hw : within [(v, 0)] 0 0 ↔ node_count v <= MAX_SCHEMA_ADMISSION_NODES ∧
    height v <= MAX_SCHEMA_VALIDATION_DEPTH ∧ text_bytes v <= MAX_TOOL_HEADER_SCHEMA_BYTES).
  { unfold within, stack_nodes, stack_bytes. rewrite Forall_singleton. simpl. naive_solver lia. }
  unfold verdict.
  destruct (Z.leb_spec (node_count v) MAX_SCHEMA_ADMISSION_NODES), (Z.leb_spec (height v) MAX_SCHEMA_VALIDATION_DEPTH),
    (Z.leb_spec (text_bytes v) MAX_TOOL_HEADER_SCHEMA_BYTES); cbn [andb];
    solve [rewrite decide_True; [done|apply Hw; lia]|rewrite decide_False; [done|rewrite Hw; lia]].
Qed.

(** * The separated copy *)

(** What becomes of the value of a keyword. *)
Definition separated (k : list Z) (v : Value) : Value :=
  match separated_position k, v with
  | NamedSchemas, VObject children => VObject ((λ nc, (nc.1, separate_header_annotations nc.2)) <$> children)
  | ListedSchemas, VArray children => VArray (separate_header_annotations <$> children)
  | OneSchema, value => separate_header_annotations value
  | _, value => value
  end.

Lemma separate_object ms :
  separate_header_annotations (VObject ms) =
  VObject ((λ kv, (kv.1, separated kv.1 kv.2)) <$> filter (λ kv, kv.1 ≠ HEADER_KEYWORD) ms).
Proof.
  simpl. f_equal. induction ms as [|[k v] ms IH]; [done|]. rewrite filter_cons. cbn [fst].
  case_bool_decide as Hk.
  - rewrite decide_False by tauto. exact IH.
  - rewrite decide_True by done. rewrite fmap_cons. f_equal. exact IH.
Qed.

Lemma separate_member (ms : list (list Z * Value)) k w :
  (k, w) ∈ (λ kv, (kv.1, separated kv.1 kv.2)) <$> filter (λ kv, kv.1 ≠ HEADER_KEYWORD) ms →
  k ≠ HEADER_KEYWORD ∧ ∃ v, (k, v) ∈ ms ∧ w = separated k v.
Proof.
  intros ([k' v] & [= -> ->] & [Hk Hin]%list_elem_of_filter)%list_elem_of_fmap. split; [done|]. by exists v.
Qed.

Lemma get_member_elem key ms v : get_member key ms = Some v → (key, v) ∈ ms.
Proof.
  induction ms as [|[k w] ms IH]; simpl; [done|]. case_bool_decide as Hk; [|by right; apply IH].
  intros [= ->]. subst. by left.
Qed.

Lemma get_member_none key ms : get_member key ms = None → Forall (λ kv, kv.1 ≠ key) ms.
Proof.
  induction ms as [|[k w] ms IH]; simpl; [constructor|]. case_bool_decide as Hk; [done|].
  intros Hn. constructor; [done|]. by apply IH.
Qed.

Lemma separate_unannotated s : annotation (separate_header_annotations s) = None.
Proof.
  destruct s as [| | | | |ms]; try done. rewrite separate_object. unfold annotation. cbn [as_object mbind option_bind].
  destruct (get_member _ _) as [w|] eqn:E; [|done]. apply get_member_elem, separate_member in E as [Hk _]. by destruct Hk.
Qed.

(** The keywords of the two walks agree, but for two that only the plan's knows. *)
Lemma separated_positions k :
  match position_of k with
  | Properties => separated_position k = NamedSchemas
  | NamedSchemas => separated_position k = NamedSchemas ∨ separated_position k = NoSchema
  | o => separated_position k = o
  end.
Proof.
  unfold position_of. case_bool_decide as H1; [by subst|].
  case_bool_decide as H2.
  { repeat (apply elem_of_cons in H2 as [->|H2]; [by vm_compute; auto|]). by apply elem_of_nil in H2. }
  case_bool_decide as H3.
  { repeat (apply elem_of_cons in H3 as [->|H3]; [by vm_compute|]). by apply elem_of_nil in H3. }
  case_bool_decide as H4.
  { repeat (apply elem_of_cons in H4 as [->|H4]; [by vm_compute|]). by apply elem_of_nil in H4. }
  unfold separated_position. rewrite bool_decide_false, (bool_decide_false _ H3), (bool_decide_false _ H4); [done|].
  intros [->|Hx]%elem_of_cons; [done|]. apply H2. 
  repeat (apply elem_of_cons in Hx as [->|Hx]; [rewrite !fmap_cons, !elem_of_cons; tauto|]). by apply elem_of_nil in Hx.
Qed.

(** A subschema of the copy is the copy of one of the source, or one of the source
    that the copy's walk does not know. *)
Lemma sub_separated s o c :
  sub (separate_header_annotations s) o c →
  ∃ c', sub s o c' ∧ (c = separate_header_annotations c' ∨ (c = c' ∧ o = None)).
Proof.
  destruct s as [| | | | |ms]; try (by inversion 1). rewrite separate_object. intros Hsub.
  inversion Hsub as [ms' k ps n c' Hk Hpos Hc|ms' k ps n c' Hk Hpos Hc|ms' k vs c' Hk Hpos Hc|ms' k c' Hk Hpos]; subst;
    apply separate_member in Hk as (_ & v & Hin & Hv); pose proof (separated_positions k) as Hp; rewrite Hpos in Hp;
    unfold separated in Hv.
  - rewrite Hp in Hv. destruct v as [| | | | |children]; try done. injection Hv as ->.
    apply list_elem_of_fmap in Hc as ([n' c'] & [= -> ->] & Hc). exists c'. split; [by eapply sub_property|by left].
  - destruct Hp as [Hp|Hp]; rewrite Hp in Hv.
    + destruct v as [| | | | |children]; try done. injection Hv as ->.
      apply list_elem_of_fmap in Hc as ([n' c'] & [= -> ->] & Hc). exists c'. split; [by eapply sub_named|by left].
    + subst v. exists c. split; [by eapply sub_named|by right].
  - rewrite Hp in Hv. destruct v as [| | | |children|]; try done. injection Hv as ->.
    apply list_elem_of_fmap in Hc as (c' & -> & Hc). exists c'. split; [by eapply sub_listed|by left].
  - rewrite Hp in Hv. exists v. split; [by eapply sub_one|by left].
Qed.

Lemma at_path_separated s' p r t : at_path s' p r t → ∀ s, s' = separate_header_annotations s →
  ∃ t', at_path s p r t' ∧ (t = separate_header_annotations t' ∨ (t = t' ∧ r = false)).
Proof.
  induction 1 as [s'|s' n c p r t Hsub Hat IH|s' c p r t Hsub Hat IH]; intros s ->.
  - exists s. split; [constructor|by left].
  - apply sub_separated in Hsub as (c' & Hsub & [->|[_ ?]]); [|done].
    destruct (IH c' eq_refl) as (t' & Hat' & Ht). exists t'. split; [by eapply at_property|done].
  - apply sub_separated in Hsub as (c' & Hsub & [->|[-> _]]).
    + destruct (IH c' eq_refl) as (t' & Hat' & Ht). exists t'. split; [by eapply at_other|]. naive_solver.
    + exists t. split; [by eapply at_other|by right].
Qed.

(** The copy of a schema without annotations is the schema. *)
Definition unannotated (s : Value) : Prop := ∀ p r t, at_path s p r t → annotation t = None.
Definition kept (s : Value) : Prop := unannotated s → separate_header_annotations s = s.

Lemma unannotated_sub s o c : unannotated s → sub s o c → unannotated c.
Proof.
  intros Hs Hsub p r t Hat. destruct o as [n|].
  - apply (Hs (n :: p) r). by eapply at_property.
  - apply (Hs p false). by eapply at_other.
Qed.

Lemma fmap_kept {A} (f : A → A) (l : list A) : (∀ x, x ∈ l → f x = x) → f <$> l = l.
Proof.
  induction l as [|x l IH]; intros Hf; [done|]. rewrite fmap_cons, IH by (intros; apply Hf; by right).
  by rewrite Hf by left.
Qed.

(** A member stays as it is when the schemas it holds do. *)
Lemma separated_kept ms k v :
  unannotated (VObject ms) → (k, v) ∈ ms →
  kept v → (∀ cs, v = VObject cs → Forall (λ nc, kept nc.2) cs) → (∀ vs, v = VArray vs → Forall kept vs) →
  separated k v = v.
Proof.
  intros Hs Hin Hv Ho Ha. unfold separated.
  assert (Hpos : ∀ pos, separated_position k = pos → position_of k = pos ∨ pos = NoSchema ∨
    (pos = NamedSchemas ∧ position_of k = Properties)).
  { intros pos <-. pose proof (separated_positions k) as Hp. destruct (position_of k); rewrite ?Hp; auto.
    destruct Hp as [-> | ->]; auto. }
  destruct (separated_position k) eqn:Ek; try done.
  - destruct v as [| | | | |cs]; try done. f_equal. specialize (Ho cs eq_refl). rewrite Forall_forall in Ho.
    apply fmap_kept. intros [n c] Hc. cbn [fst snd]. f_equal. apply (Ho _ Hc).
    destruct (Hpos _ eq_refl) as [Hp|[?|[_ Hp]]]; [|done|].
    + eapply unannotated_sub; [exact Hs|]. by eapply sub_named.
    + eapply unannotated_sub; [exact Hs|]. by eapply sub_property.
  - destruct v as [| | | |vs|]; try done. f_equal. specialize (Ha vs eq_refl). rewrite Forall_forall in Ha.
    apply fmap_kept. intros c Hc. apply (Ha _ Hc). destruct (Hpos _ eq_refl) as [Hp|[?|[? _]]]; [|done..].
    eapply unannotated_sub; [exact Hs|]. by eapply sub_listed.
  - apply Hv. destruct (Hpos _ eq_refl) as [Hp|[?|[? _]]]; [|done..].
    eapply unannotated_sub; [exact Hs|]. by eapply sub_one.
Qed.

Lemma separate_same s : kept s.
Proof.
  enough (kept s ∧ (∀ cs, s = VObject cs → Forall (λ nc, kept nc.2) cs) ∧ (∀ vs, s = VArray vs → Forall kept vs)) as [? _] by done.
  induction s as [| | | |vs IH|ms IH] using value_ind'; split_and!; try done.
  - intros vs' [= <-]. eapply Forall_impl; [exact IH|]. naive_solver.
  - intros Hs. rewrite separate_object. f_equal.
    assert (Hnone : Forall (λ kv, kv.1 ≠ HEADER_KEYWORD) ms) by (apply get_member_none, (Hs [] true (VObject ms)), at_here).
    rewrite (filter_all (λ kv, kv.1 ≠ HEADER_KEYWORD) ms Hnone). rewrite Forall_forall in IH.
    apply fmap_kept. intros [k v] Hin. cbn [fst snd]. f_equal. destruct (IH _ Hin) as (H1 & H2 & H3).
    by eapply separated_kept.
  - intros cs [= <-]. eapply Forall_impl; [exact IH|]. naive_solver.
Qed.

(** Admission of a tool's schema ends and never panics.  What it takes is within
    the bounds; the plan keeps to its own; the engine took a copy that has no
    annotation at any place where a schema may stand, and that is the source
    itself when the source has none. *)
Theorem tool_schema_admitted admit_final_schema s :
  match admit_schema admit_final_schema s with
  | Ok a =>
      source a = s ∧ bound_schema_source s = Ok tt ∧ compile s = Ok (plan a) ∧ plan_ok (plan a) ∧
      admit_final_schema (validation a) = true ∧ unannotated (validation a) ∧
      (unannotated s → validation a = s)
  | Err _ => True
  | _ => False
  end.
Proof.
  unfold admit_schema. pose proof (compile_wp s) as Hc. 
  assert (Hb : match bound_schema_source s with Ok _ | Err _ => True | _ => False end).
  { unfold bound_schema_source. rewrite bound_loop_spec; [|done|done|done|by repeat constructor|].
    - unfold verdict. by case_decide.
    - unfold MAX_SCHEMA_ADMISSION_NODES. lia. }
  destruct (bound_schema_source s) as [[]|e| |]; try done. cbn [obind].
  destruct (admit_final_schema _) eqn:Ea; [|done]. cbn [negb].
  destruct (compile s) as [bs|e| |]; try done. cbn [obind source plan validation]. destruct Hc as [Hok [_ Hall]].
  split_and!; try done; [|apply separate_same].
  intros p r t Hat. destruct (at_path_separated _ _ _ _ Hat s eq_refl) as (t' & Hat' & [->|[-> ->]]).
  - apply separate_unannotated.
  - destruct (annotation t') as [a|] eqn:Et; [|done]. by destruct (Hall _ _ _ _ Hat' Et) as [? _].
Qed.
End HeaderSchemas.
