(* ===== verification/HttpHeaderExamples.v ===== *)
(** The standard base64 alphabet keeps to the laws, and the header theorems at
    work on concrete fields. *)
From stdpp Require Import base list gmap strings.
From Stdlib Require Import ZArith Lia.
From S2P Require Import Prelude Utf8 JsonGrammar RawJson RequestId HttpHeaders HttpHeaderValues HttpHeaderIntegers HttpHeaderPlans HttpHeaderMirrors.

Module HeaderExamples.
Import Headers HeaderValues HeaderPlans HeaderMirrors.

(** * Standard base64, with padding *)

Definition char64 (n : Z) : Z :=
  if n <? 26 then 65 + n else if n <? 52 then 71 + n else if n <? 62 then n - 4 else if n =? 62 then 43 else 47.

Definition value64 (c : Z) : option Z :=
  if (65 <=? c) && (c <=? 90) then Some (c - 65)
  else if (97 <=? c) && (c <=? 122) then Some (c - 71)
  else if (48 <=? c) && (c <=? 57) then Some (c + 4)
  else if c =? 43 then Some 62 else if c =? 47 then Some 63 else None.

Fixpoint encode64 (v : list Z) : list Z :=
  match v with
  | a :: b :: c :: r =>
      char64 (a / 4) :: char64 (a mod 4 * 16 + b / 16) :: char64 (b mod 16 * 4 + c / 64) :: char64 (c mod 64) :: encode64 r
  | [a; b] => [char64 (a / 4); char64 (a mod 4 * 16 + b / 16); char64 (b mod 16 * 4); 61]
  | [a] => [char64 (a / 4); char64 (a mod 4 * 16); 61; 61]
  | [] => []
  end.

Fixpoint decode64 (s : list Z) : option (list Z) :=
  match s with
  | [] => Some []
  | w :: x :: y :: z :: r =>
      w ← value64 w; x ← value64 x;
      if (y =? 61) && (z =? 61) then
        if bool_decide (r = []) && (x mod 16 =? 0) then Some [w * 4 + x / 16] else None
      else
        y ← value64 y;
        if z =? 61 then
          if bool_decide (r = []) && (y mod 4 =? 0) then Some [w * 4 + x / 16; x mod 16 * 16 + y / 4] else None
        else
          z ← value64 z; r ← decode64 r;
          Some (w * 4 + x / 16 :: x mod 16 * 16 + y / 4 :: y mod 4 * 64 + z :: r)
  | _ => None
  end.

#[export] Instance standard64 : Base64 := {| base64_encode := encode64; base64_decode := decode64 |}.

Lemma three_ind (P : list Z → Prop) :
  P [] → (∀ a, P [a]) → (∀ a b, P [a; b]) → (∀ a b c r, P r → P (a :: b :: c :: r)) → ∀ v, P v.
Proof.
  intros H0 H1 H2 H3 v. enough (P v ∧ (∀ a, P (a :: v)) ∧ (∀ a b, P (a :: b :: v))) as (? & _ & _) by done.
  induction v as [|c v (IH1 & IH2 & IH3)]; [done|]. split_and!; [by apply IH2|done|]. intros a b. by apply H3.
Qed.

(** A fact about the digits holds when it holds of each of the 64. *)
Lemma below_64 (f : Z → bool) : forallb f (seqZ 0 64) = true → ∀ n, 0 <= n < 64 → f n = true.
Proof. rewrite forallb_forall. intros Hf n Hn. apply Hf, list_elem_of_In, elem_of_seqZ. lia. Qed.

Lemma value64_char64 n : 0 <= n < 64 → value64 (char64 n) = Some n.
Proof.
  intros Hn. apply (bool_decide_eq_true_1 _). revert n Hn.
  by apply (below_64 (λ n, bool_decide (value64 (char64 n) = Some n))).
Qed.

Lemma char64_alphabet n : 0 <= n < 64 → is_base64_byte (char64 n) = true ∧ (char64 n =? 61) = false.
Proof.
  rewrite <- negb_true_iff. intros Hn. apply andb_true_iff. revert n Hn.
  by apply (below_64 (λ n, is_base64_byte (char64 n) && negb (char64 n =? 61))).
Qed.

(** The digits of a group. *)
Lemma group_digits a b c : is_byte a → is_byte b → is_byte c →
  0 <= a / 4 < 64 ∧ 0 <= a mod 4 * 16 + b / 16 < 64 ∧ 0 <= b mod 16 * 4 + c / 64 < 64 ∧ 0 <= c mod 64 < 64.
Proof. unfold is_byte. intros. dlia. Qed.

#[export] Instance standard64_laws : Base64Laws.
Proof.
  split; intros v; induction v as [|a|a b|a b c r IH] using three_ind; intros Hv; try done;
    repeat match goal with H : Forall is_byte (_ :: _) |- _ => apply Forall_cons in H as [? H] end.
  - destruct (group_digits a 0 0) as (? & ? & _); [done..|]. change (0 / 16) with 0 in *. rewrite Z.add_0_r in *.
    repeat constructor; by apply char64_alphabet.
  - destruct (group_digits a b 0) as (? & ? & ? & _); [done..|]. change (0 / 64) with 0 in *. rewrite Z.add_0_r in *.
    repeat constructor; by apply char64_alphabet.
  - destruct (group_digits a b c) as (? & ? & ? & ?); [done..|]. cbn [base64_encode standard64 encode64] in *.
    repeat (constructor; [by apply char64_alphabet|]). by apply IH.
  - cbn [base64_encode standard64 encode64] in *. rewrite !zlen_cons, IH by done. unfold div_ceil.
    pose proof (zlen_nonneg r). dlia.
  - destruct (group_digits a 0 0) as (? & ? & _); [done..|]. change (0 / 16) with 0 in *. rewrite Z.add_0_r in *.
    cbn [base64_decode base64_encode standard64 encode64 decode64]. rewrite !value64_char64 by done.
    cbn [mbind option_bind Z.eqb Pos.eqb andb]. rewrite bool_decide_true by done. unfold is_byte in *.
    rewrite (proj2 (Z.eqb_eq _ _)) by dlia. cbn [andb]. do 2 f_equal. dlia.
  - destruct (group_digits a b 0) as (? & ? & ? & _); [done..|]. change (0 / 64) with 0 in *. rewrite Z.add_0_r in *.
    cbn [base64_decode base64_encode standard64 encode64 decode64]. rewrite !value64_char64 by done.
    destruct (char64_alphabet (b mod 16 * 4)) as [_ E]; [done|]. rewrite E.
    cbn [mbind option_bind Z.eqb Pos.eqb andb]. rewrite bool_decide_true by done. unfold is_byte in *.
    rewrite (proj2 (Z.eqb_eq _ _)) by dlia. cbn [andb]. do 2 f_equal; [dlia|f_equal; dlia].
  - destruct (group_digits a b c) as (? & ? & ? & ?); [done..|].
    cbn [base64_decode base64_encode standard64 encode64 decode64] in *. rewrite !value64_char64 by done.
    destruct (char64_alphabet (b mod 16 * 4 + c / 64)) as [_ E]; [done|]. rewrite E.
    destruct (char64_alphabet (c mod 64)) as [_ E']; [done|]. rewrite E', IH by done.
    cbn [mbind option_bind andb]. unfold is_byte in *. f_equal. f_equal; [dlia|f_equal; [dlia|f_equal; dlia]].
Qed.

(** * Values *)

(** Line breaks never reach the wire. *)
Definition two_lines : list Z := chars_of "a" ++ [13; 10] ++ chars_of "b".

Lemma header_value_round_trip_witness :
  ∃ e, encode_mcp_header_value two_lines = Ok e ∧ Forall (λ b, is_field_value_byte b = true) e ∧
    decode_mcp_header_value ([32] ++ e ++ [9]) = Ok two_lines.
Proof.
  destruct (header_value_round_trip two_lines) as (e & He & Hf & _ & _ & Hd & Hl).
  - apply from_utf8_spec. by vm_compute.
  - by vm_compute.
  - exists e. split_and!; [done..|]. apply Hd; [by repeat constructor..|].
    injection He as <-. by vm_compute.
Defined.

Example two_lines_sent : encode_mcp_header_value two_lines = Ok (chars_of "=?base64?YQ0KYg==?=").
Proof. vm_compute. reflexivity. Qed.

Example overlapping_ends : decode_mcp_header_value (chars_of " =?base64?= ") = Panic.
Proof. vm_compute. reflexivity. Qed.

(** The longest strings that have to be wrapped are encoded and then refused. *)
Definition long_value : list Z := replicate (Z.to_nat 8191) 10.
Example long_value_encoded :
  match encode_mcp_header_value long_value with
  | Ok e => decode_mcp_header_value e = Err LimitExceeded
  | _ => False
  end.
Proof. vm_compute. reflexivity. Qed.

(** * Integers *)

Example integer_spellings :
  safe_integer <$> (chars_of <$> ["15"; "15.0"; "1.5e1"; "150E-1"; "9007199254740991"; "-0"]%string) =
  [Some 15; Some 15; Some 15; Some 15; Some 9007199254740991; Some 0].
Proof. vm_compute. reflexivity. Qed.

Example integers_refused :
  safe_integer <$> (chars_of <$> [""; "015"; "1.5"; "1e"; "+1"; "9007199254740992"; "1e400"; "0e9999999999"]%string) =
  replicate 8 None.
Proof. vm_compute. reflexivity. Qed.

(** * A plan at work *)

Definition key (s : string) : list Z := chars_of s.
Definition property (ty header : string) : Value :=
  VObject [(key "type", VString (key ty)); (key "x-mcp-header", VString (key header))].
Definition schema : Value :=
  VObject [(key "type", VString (key "object"));
           (key "properties", VObject [
              (key "region", property "string" "Region");
              (key "limits", VObject [(key "properties", VObject [(key "rows", property "integer" "Rows")])]);
              (key "dry", property "boolean" "Dry-Run")])].

Definition plan : list ParameterHeaderBinding :=
  [ {| path := [key "region"]; name := key "Mcp-Param-Region"; kind := PString |};
    {| path := [key "limits"; key "rows"]; name := key "Mcp-Param-Rows"; kind := PInteger |};
    {| path := [key "dry"]; name := key "Mcp-Param-Dry-Run"; kind := PBoolean |} ].

Example schema_compiles : compile schema = Ok plan.
Proof. vm_compute. reflexivity. Qed.

Example hidden_annotation :
  compile (VObject [(key "anyOf", VArray [VObject [(key "properties",
    VObject [(key "x", property "string" "X")])]])]) = Err UnreachableAnnotation.
Proof. vm_compute. reflexivity. Qed.

Definition arguments : option Value :=
  Some (VObject [(key "region", VString [195; 169]);
                 (key "limits", VObject [(key "rows", VNumber (key "1.5e1"))]);
                 (key "dry", VNull)]).

Definition fields : list (list Z * list Z) :=
  [(key "Mcp-Param-Region", key "=?base64?w6k=?="); (key "Mcp-Param-Rows", key "15")].
Definition received : list (list Z * list Z) :=
  [(key "mcp-param-region", key "=?base64?w6k=?="); (key "mcp-param-rows", key "15")].
Definition others : list (list Z * list Z) := [(key "host", key "example.org")].

Lemma projection_accepted_witness :
  validate plan arguments (others ++ received) = Ok tt.
Proof.
  apply (projection_accepted plan arguments fields received others).
  - pose proof (compile_wp schema) as Hok. rewrite schema_compiles in Hok. apply Hok.
  - intros b s Hb Hm. assert (s = [195; 169]) as ->.
    { repeat (apply elem_of_cons in Hb as [->|Hb]; [vm_compute in Hm; congruence|]). by apply elem_of_nil in Hb. }
    split; [apply from_utf8_spec; by vm_compute|left; by vm_compute].
  - vm_compute. reflexivity.
  - repeat constructor.
  - apply Permutation_app_comm.
  - intros h b ->%list_elem_of_singleton Hb.
    repeat (apply elem_of_cons in Hb as [->|Hb]; [vm_compute; reflexivity|]). by apply elem_of_nil in Hb.
  - by vm_compute.
Defined.
End HeaderExamples.
