(* ===== verification/UriTemplate.v ===== *)
(** RFC 6570 URI templates, [crates/fastmcp-protocol/src/uri_template.rs]: parsing,
    bounded expansion and reverse matching.  A [String] is the list of its UTF-8
    bytes; slices are taken at ASCII bytes or where a character ends, so they fall
    on character boundaries. *)
From stdpp Require Import base list gmap strings.
From Stdlib Require Import ZArith Lia.
From S2P Require Import Prelude Utf8 JsonGrammar RawJson.

Module Template.

(** * Constants and data *)

Definition MAX_URI_TEMPLATE_BYTES : Z := 16 * 1024.
Definition MAX_URI_TEMPLATE_PARTS : Z := 256.
Definition MAX_URI_TEMPLATE_EXPRESSIONS : Z := 128.
Definition MAX_URI_TEMPLATE_VARIABLES_PER_EXPRESSION : Z := 64.
Definition MAX_URI_TEMPLATE_VARIABLE_NAME_BYTES : Z := 512.
Definition MAX_URI_TEMPLATE_PREFIX_LENGTH : Z := 9999.
Definition MAX_URI_TEMPLATE_VALUE_BYTES : Z := 16 * 1024.
Definition MAX_URI_TEMPLATE_COMPOSITE_ITEMS : Z := 1024.
Definition MAX_URI_TEMPLATE_EXPANSION_OUTPUT_BYTES : Z := 64 * 1024.
Definition MAX_URI_TEMPLATE_MATCH_INPUT_BYTES : Z := MAX_URI_TEMPLATE_EXPANSION_OUTPUT_BYTES.

Inductive TemplateValue : Type :=
| Scalar (value : list Z)
| List (values : list (option (list Z)))
| Associative (values : list (list Z * option (list Z))).

Abbreviation TemplateValues := (gmap (list Z) TemplateValue).

Record UriTemplateExpansionLimits : Type := {
  max_output_bytes : Z;
  max_composite_items : Z;
  max_value_bytes : Z;
}.

Inductive UriTemplateOperator : Type :=
| Simple | Reserved | Fragment | Label | Path | PathParameter | Query | QueryContinuation.

Inductive UriTemplateModifier : Type := Prefix (length : Z) | Explode.

Record UriTemplateVariable : Type := {
  name : list Z;
  modifier : option UriTemplateModifier;
}.

Record UriTemplateExpression : Type := {
  operator : UriTemplateOperator;
  variables : list UriTemplateVariable;
}.

Inductive UriTemplatePart : Type :=
| Literal (literal : list Z)
| Expression (expression : UriTemplateExpression).

Record UriTemplate : Type := {
  source : list Z;
  parts : list UriTemplatePart;
}.

Inductive UriTemplateMatchRejection : Type :=
| MultipleVariables | AdjacentCaptures | DuplicateVariable (variable : list Z)
| LossyPrefix (variable : list Z) | ExplodedComposite (variable : list Z)
| AmbiguousBoundary | UnboundedReservedCapture.

Inductive UriTemplateError : Type :=
| SourceTooLong (actual maximum : Z)
| TooManyParts (maximum : Z)
| TooManyExpressions (maximum : Z)
| TooManyVariables (maximum : Z)
| VariableNameTooLong (actual maximum : Z)
| InvalidLiteral (offset : Z)
| UnclosedExpression (offset : Z)
| NestedExpression (offset : Z)
| UnexpectedCloseBrace (offset : Z)
| EmptyExpression (offset : Z)
| UnsupportedOperator (operator : Z) (offset : Z)
| InvalidVariable (offset : Z)
| InvalidPrefix (offset : Z)
| InvalidExpansionLimit (field : string) (actual maximum : Z)
| ValueTooLong (actual maximum : Z)
| TooManyCompositeItems (actual maximum : Z)
| ExpansionTooLarge (actual maximum : Z)
| PrefixAppliedToComposite (variable : list Z)
| DuplicateAssociativeKey (key : list Z)
| NonReversibleTemplate (reason : UriTemplateMatchRejection)
| NonScalarMatchValue (variable : list Z)
| AmbiguousEmptyScalar (variable : list Z)
| MatchInputTooLong (actual maximum : Z)
| PreescapedReservedMatchValue (variable : list Z).

Abbreviation Res := (outcome UriTemplateError).

#[export] Instance UriTemplateOperator_eq_dec : EqDecision UriTemplateOperator.
Proof. solve_decision. Defined.
#[export] Instance UriTemplateModifier_eq_dec : EqDecision UriTemplateModifier.
Proof. solve_decision. Defined.
#[export] Instance TemplateValue_eq_dec : EqDecision TemplateValue.
Proof. solve_decision. Defined.

(** [UriTemplateExpansionLimits::new] and its default *)
Definition UriTemplateExpansionLimits_new (output composite value : Z) : Res UriTemplateExpansionLimits :=
  if (output =? 0) || (MAX_URI_TEMPLATE_EXPANSION_OUTPUT_BYTES <? output)
  then Err (InvalidExpansionLimit "max_output_bytes" output MAX_URI_TEMPLATE_EXPANSION_OUTPUT_BYTES)
  else if (composite =? 0) || (MAX_URI_TEMPLATE_COMPOSITE_ITEMS <? composite)
  then Err (InvalidExpansionLimit "max_composite_items" composite MAX_URI_TEMPLATE_COMPOSITE_ITEMS)
  else if (value =? 0) || (MAX_URI_TEMPLATE_VALUE_BYTES <? value)
  then Err (InvalidExpansionLimit "max_value_bytes" value MAX_URI_TEMPLATE_VALUE_BYTES)
  else Ok {| max_output_bytes := output; max_composite_items := composite; max_value_bytes := value |}.

Definition default_limits : UriTemplateExpansionLimits :=
  {| max_output_bytes := MAX_URI_TEMPLATE_EXPANSION_OUTPUT_BYTES;
     max_composite_items := MAX_URI_TEMPLATE_COMPOSITE_ITEMS;
     max_value_bytes := MAX_URI_TEMPLATE_VALUE_BYTES |}.

(** * Operators *)

Record OperatorProperties : Type := {
  first : list Z;
  separator : list Z;
  named : bool;
  if_empty : list Z;
  allow_reserved : bool;
}.

Definition properties (o : UriTemplateOperator) : OperatorProperties :=
  let new f s n e r := {| first := chars_of f; separator := chars_of s; named := n;
                          if_empty := chars_of e; allow_reserved := r |} in
  match o with
  | Simple => new "" "," false "" false
  | Reserved => new "" "," false "" true
  | Fragment => new "#" "," false "" true
  | Label => new "." "." false "" false
  | Path => new "/" "/" false "" false
  | PathParameter => new ";" ";" true "" false
  | Query => new "?" "&" true "=" false
  | QueryContinuation => new "&" "&" true "=" false
  end%string.

Definition is_form_style (p : OperatorProperties) : bool :=
  bool_decide (first p = chars_of "?") || bool_decide (first p = chars_of "&").

(** * Characters and text *)

Definition is_ascii_hexdigit (b : Z) : bool := bool_decide (is_Some (hex_value b)).
Definition is_ascii_alphanumeric (b : Z) : bool := Raw.is_ascii_alphanumeric b.

(** [%], and two hexadecimal digits after it *)
Definition is_triplet (percent high low : Z) : bool :=
  (percent =? 37) && is_ascii_hexdigit high && is_ascii_hexdigit low.

(** [iter().position(|byte| *byte == b)] *)
Fixpoint position (b : Z) (l : list Z) : option nat :=
  match l with
  | [] => None
  | x :: l => if x =? b then Some O else S <$> position b l
  end.

(** [str::split(char)] and [str::split_once(char)] *)
Fixpoint split (b : Z) (l : list Z) : list (list Z) :=
  match l with
  | [] => [[]]
  | x :: l =>
      if x =? b then [] :: split b l
      else match split b l with [] => [[x]] | s :: ss => (x :: s) :: ss end
  end.
Definition split_once (b : Z) (l : list Z) : option (list Z * list Z) :=
  (λ i, (take i l, drop (S i) l)) <$> position b l.

(** [str::strip_prefix] and [str::strip_suffix('*')] *)
Definition strip_prefix (p s : list Z) : option (list Z) :=
  if bool_decide (take (length p) s = p) then Some (drop (length p) s) else None.
Definition strip_star (s : list Z) : option (list Z) :=
  match last s with Some 42 => Some (removelast s) | _ => None end.

(** [str::find] *)
Fixpoint find (p s : list Z) : option nat :=
  match strip_prefix p s, s with
  | Some _, _ => Some O
  | None, [] => None
  | None, _ :: s => S <$> find p s
  end.

(** [str::parse::<usize>] on digits *)
Definition parse_usize (ds : list Z) : option Z :=
  if bool_decide (ds = []) || negb (forallb is_digit ds) || (usize_max <? dec_value ds) then None
  else Some (dec_value ds).

(** * Parsing *)

Definition is_valid_literal_character (c : Z) : bool :=
  existsb (λ r, (r.1 <=? c) && (c <=? r.2))
    [(160, 55295); (57344, 63743); (63744, 64975); (65008, 65519); (65536, 131069); (131072, 196605);
     (196608, 262141); (262144, 327677); (327680, 393213); (393216, 458749); (458752, 524285);
     (524288, 589821); (589824, 655357); (655360, 720893); (720896, 786429); (786432, 851965);
     (851968, 917501); (921600, 983037); (983040, 1048573); (1048576, 1114109)].

Definition is_valid_literal_byte (b : Z) : bool :=
  (b =? 33) || (35 <=? b) && (b <=? 36) || (b =? 38) || (40 <=? b) && (b <=? 59) || (b =? 61) ||
  (63 <=? b) && (b <=? 91) || (b =? 93) || (b =? 95) || (97 <=? b) && (b <=? 122) || (b =? 126).

(** [invalid_literal_offset]; [index] is where [literal] begins. *)
Fixpoint invalid_literal_offset (literal : list Z) (index : Z) : option Z :=
  match literal with
  | [] => None
  | byte :: r =>
      if byte <? 128 then
        if byte =? 37 then
          match r with
          | high :: low :: r' =>
              if is_ascii_hexdigit high && is_ascii_hexdigit low then invalid_literal_offset r' (index + 3)
              else Some index
          | _ => Some index
          end
        else if is_valid_literal_byte byte then invalid_literal_offset r (index + 1)
        else Some index
      else
        match decode_utf8 literal with
        | None => Some index
        | Some (c, n) =>
            if is_valid_literal_character c then
              match n, r with
              | 2%nat, _ :: r2 => invalid_literal_offset r2 (index + 2)
              | 3%nat, _ :: _ :: r3 => invalid_literal_offset r3 (index + 3)
              | 4%nat, _ :: _ :: _ :: r4 => invalid_literal_offset r4 (index + 4)
              | _, _ => Some index
              end
            else Some index
        end
  end.

Definition push_part (ps : list UriTemplatePart) (p : UriTemplatePart) : Res (list UriTemplatePart) :=
  if zlen ps =? MAX_URI_TEMPLATE_PARTS then Err (TooManyParts MAX_URI_TEMPLATE_PARTS) else Ok (ps ++ [p]).

Definition push_literal (ps : list UriTemplatePart) (literal : list Z) (offset : Z) : Res (list UriTemplatePart) :=
  if bool_decide (literal = []) then Ok ps
  else match invalid_literal_offset literal 0 with
       | Some relative_offset => Err (InvalidLiteral (offset + relative_offset))
       | None => push_part ps (Literal literal)
       end.

Definition is_valid_prefix (prefix : list Z) : bool :=
  (zlen prefix <=? 4) &&
  match head prefix with Some b => (49 <=? b) && (b <=? 57) | None => false end &&
  forallb is_digit prefix &&
  match parse_usize prefix with Some n => n <=? MAX_URI_TEMPLATE_PREFIX_LENGTH | None => false end.

Fixpoint name_bytes_valid (segment : list Z) : bool :=
  match segment with
  | [] => true
  | b :: r =>
      if is_ascii_alphanumeric b || (b =? 95) then name_bytes_valid r
      else match r with
           | high :: low :: r' => if is_triplet b high low then name_bytes_valid r' else false
           | _ => false
           end
  end.
Definition is_valid_variable_name_segment (segment : list Z) : bool :=
  negb (bool_decide (segment = [])) && name_bytes_valid segment.
Definition is_valid_variable_name (n : list Z) : bool :=
  negb (bool_decide (n = [])) && forallb is_valid_variable_name_segment (split 46 n).

Definition parse_variable (src : list Z) (source_offset : Z) : Res UriTemplateVariable :=
  if bool_decide (src = []) then Err (InvalidVariable source_offset)
  else
    let? (n, m) :=
      match strip_star src with
      | Some n =>
          if bool_decide (n = []) || bool_decide (58 ∈ n) then Err (InvalidVariable source_offset)
          else Ok (n, Some Explode)
      | None =>
          match split_once 58 src with
          | Some (n, prefix) =>
              let prefix_offset := source_offset + zlen n in
              if negb (is_valid_prefix prefix) then Err (InvalidPrefix prefix_offset)
              else match parse_usize prefix with
                   | None => Err (InvalidPrefix prefix_offset)
                   | Some length => Ok (n, Some (Prefix length))
                   end
          | None => Ok (src, None)
          end
      end in
    if MAX_URI_TEMPLATE_VARIABLE_NAME_BYTES <? zlen n
    then Err (VariableNameTooLong (zlen n) MAX_URI_TEMPLATE_VARIABLE_NAME_BYTES)
    else if negb (is_valid_variable_name n) then Err (InvalidVariable source_offset)
    else Ok {| name := n; modifier := m |}.

Fixpoint parse_variables (sources : list (list Z)) (variable_offset : Z) (vs : list UriTemplateVariable)
    : Res (list UriTemplateVariable) :=
  match sources with
  | [] => Ok vs
  | src :: sources =>
      if zlen vs =? MAX_URI_TEMPLATE_VARIABLES_PER_EXPRESSION
      then Err (TooManyVariables MAX_URI_TEMPLATE_VARIABLES_PER_EXPRESSION)
      else
        let? v := parse_variable src variable_offset in
        parse_variables sources (variable_offset + (zlen src + 1)) (vs ++ [v])
  end.

(** The operator a first byte stands for, and how many bytes it takes. *)
Definition operator_of (b : Z) (source_offset : Z) : Res (UriTemplateOperator * nat) :=
  if b =? 43 then Ok (Reserved, 1%nat)
  else if b =? 35 then Ok (Fragment, 1%nat)
  else if b =? 46 then Ok (Label, 1%nat)
  else if b =? 47 then Ok (Path, 1%nat)
  else if b =? 59 then Ok (PathParameter, 1%nat)
  else if b =? 63 then Ok (Query, 1%nat)
  else if b =? 38 then Ok (QueryContinuation, 1%nat)
  else if bool_decide (b ∈ chars_of "=,!@|") then Err (UnsupportedOperator b source_offset)
  else Ok (Simple, 0%nat).

Definition parse_expression (src : list Z) (source_offset : Z) : Res UriTemplateExpression :=
  match src with
  | [] => Err (EmptyExpression source_offset)
  | b :: _ =>
      let? (o, variable_start) := operator_of b source_offset in
      let variables_source := drop variable_start src in
      let offset := source_offset + Z.of_nat variable_start in
      if bool_decide (variables_source = []) then Err (EmptyExpression offset)
      else
        let? vs := parse_variables (split 44 variables_source) offset [] in
        Ok {| operator := o; variables := vs |}
  end.

(** The loop of [UriTemplate::parse]; every turn moves [index] on. *)
Fixpoint parse_loop (fuel : nat) (src : list Z) (index literal_start : nat) (expressions : Z)
    (ps : list UriTemplatePart) : Res (list UriTemplatePart) :=
  match src !! index with
  | None => push_literal ps (drop literal_start src) (Z.of_nat literal_start)
  | Some b =>
      match fuel with
      | O => OutOfFuel
      | S fuel =>
          if b =? 123 then
            let? ps := push_literal ps (take (index - literal_start) (drop literal_start src)) (Z.of_nat literal_start) in
            let expression_start := S index in
            match position 125 (drop expression_start src) with
            | None => Err (UnclosedExpression (Z.of_nat index))
            | Some relative_end =>
                let expression_end := (expression_start + relative_end)%nat in
                let inner := take relative_end (drop expression_start src) in
                match position 123 inner with
                | Some relative_nested => Err (NestedExpression (Z.of_nat (expression_start + relative_nested)))
                | None =>
                    if expressions =? MAX_URI_TEMPLATE_EXPRESSIONS
                    then Err (TooManyExpressions MAX_URI_TEMPLATE_EXPRESSIONS)
                    else
                      let? e := parse_expression inner (Z.of_nat expression_start) in
                      let? ps := push_part ps (Expression e) in
                      parse_loop fuel src (S expression_end) (S expression_end) (expressions + 1) ps
                end
            end
          else if b =? 125 then Err (UnexpectedCloseBrace (Z.of_nat index))
          else parse_loop fuel src (S index) literal_start expressions ps
      end
  end.

Definition parse (src : list Z) : Res UriTemplate :=
  if MAX_URI_TEMPLATE_BYTES <? zlen src then Err (SourceTooLong (zlen src) MAX_URI_TEMPLATE_BYTES)
  else
    let? ps := parse_loop (length src) src 0 0 0 [] in
    Ok {| source := src; parts := ps |}.

(** * Expansion *)

Definition is_unreserved (b : Z) : bool :=
  is_ascii_alphanumeric b || (b =? 45) || (b =? 46) || (b =? 95) || (b =? 126).
Definition is_reserved (b : Z) : bool := bool_decide (b ∈ chars_of ":/?#[]@!$&'()*+,;=").

(** The output, whether the current expression has written a value
    ([ExpressionWriter]), and the composite members seen ([ExpansionState]). *)
Record Expansion : Type := {
  output : list Z;
  wrote_value : bool;
  composite_items : Z;
}.
Definition Expansion_new : Expansion := {| output := []; wrote_value := false; composite_items := 0 |}.
Abbreviation X := (M Expansion UriTemplateError).

Definition push_str (fragment : list Z) (x : Expansion) : Expansion :=
  {| output := output x ++ fragment; wrote_value := wrote_value x; composite_items := composite_items x |}.
Definition set_wrote_value (b : bool) (x : Expansion) : Expansion :=
  {| output := output x; wrote_value := b; composite_items := composite_items x |}.
Definition set_composite_items (n : Z) (x : Expansion) : Expansion :=
  {| output := output x; wrote_value := wrote_value x; composite_items := n |}.

Section expansion.
Context (limits : UriTemplateExpansionLimits).

Definition inspect_composite (count : Z) : X unit :=
  let! x := get in
  let actual := saturating_add (composite_items x) count in
  if max_composite_items limits <? actual then fail (TooManyCompositeItems actual (max_composite_items limits))
  else modify (set_composite_items actual).

Definition append_output (fragment : list Z) : X unit :=
  let! x := get in
  let actual := saturating_add (zlen (output x)) (zlen fragment) in
  if max_output_bytes limits <? actual then fail (ExpansionTooLarge actual (max_output_bytes limits))
  else modify (push_str fragment).

Definition append_byte (byte : Z) : X unit :=
  let! x := get in
  let actual := saturating_add (zlen (output x)) 1 in
  if max_output_bytes limits <? actual then fail (ExpansionTooLarge actual (max_output_bytes limits))
  else modify (push_str [byte]).

Definition HEX : list Z := chars_of "0123456789ABCDEF".

Definition append_percent_triplet (byte : Z) : X unit :=
  let! x := get in
  let actual := saturating_add (zlen (output x)) 3 in
  if max_output_bytes limits <? actual then fail (ExpansionTooLarge actual (max_output_bytes limits))
  else match HEX !! Z.to_nat (Z.shiftr byte 4), HEX !! Z.to_nat (Z.land byte 15) with
       | Some high, Some low => modify (push_str [37; high; low])
       | _, _ => panic
       end.

Fixpoint append_percent_encoded (src : list Z) (reserved preserve_pct_encoded : bool) : X unit :=
  match src with
  | [] => ret tt
  | byte :: r =>
      let next :=
        (if is_unreserved byte || reserved && is_reserved byte then append_byte byte
         else append_percent_triplet byte) ;!
        append_percent_encoded r reserved preserve_pct_encoded in
      match r with
      | high :: low :: r' =>
          if preserve_pct_encoded && is_triplet byte high low
          then append_output [byte; high; low] ;! append_percent_encoded r' reserved preserve_pct_encoded
          else next
      | _ => next
      end
  end.

Definition append_encoded_literal (literal : list Z) : X unit := append_percent_encoded literal true true.
Definition append_variable_name (n : list Z) : X unit := append_percent_encoded n false true.
Definition append_encoded_value (value : list Z) (reserved : bool) : X unit :=
  append_percent_encoded value reserved reserved.

Definition begin_value (p : OperatorProperties) : X unit :=
  let! x := get in
  append_output (if wrote_value x then separator p else first p) ;!
  modify (set_wrote_value true).

Definition write_value (p : OperatorProperties) (n value : list Z) (logically_empty : bool) : X unit :=
  begin_value p ;!
  (if named p then append_variable_name n ;! append_output (if logically_empty then if_empty p else chars_of "=")
   else ret tt) ;!
  append_encoded_value value (allow_reserved p).

Definition write_associative_pair (p : OperatorProperties) (key value : list Z) : X unit :=
  begin_value p ;!
  if named p then
    append_encoded_value key (allow_reserved p) ;!
    append_output (if bool_decide (value = []) then if_empty p else chars_of "=") ;!
    append_encoded_value value (allow_reserved p)
  else
    append_encoded_value key (allow_reserved p) ;!
    (if negb (bool_decide (value = [])) || is_form_style p then append_output (chars_of "=") else ret tt) ;!
    append_encoded_value value (allow_reserved p).

Definition check_value_bound (value : list Z) : X unit :=
  if max_value_bytes limits <? zlen value then fail (ValueTooLong (zlen value) (max_value_bytes limits)) else ret tt.

Definition decode_pct_encoded_octet (src : list Z) : option Z :=
  match src with
  | percent :: high :: low :: _ =>
      if percent =? 37 then h ← hex_value high; l ← hex_value low; Some (Z.lor (Z.shiftl h 4) l) else None
  | _ => None
  end.

Definition utf8_sequence_width (b : Z) : nat :=
  if (194 <=? b) && (b <=? 223) then 2%nat
  else if (224 <=? b) && (b <=? 239) then 3%nat
  else if (240 <=? b) && (b <=? 244) then 4%nat else 1%nat.

(** The octets of the first [n] triplets. *)
Fixpoint decode_octets (n : nat) (src : list Z) : option (list Z) :=
  match n with
  | O => Some []
  | S n => b ← decode_pct_encoded_octet src; bs ← decode_octets n (drop 3 src); Some (b :: bs)
  end.

Definition pct_encoded_character_width (src : list Z) : nat :=
  let utf8_octets := match decode_pct_encoded_octet src with Some b => utf8_sequence_width b | None => 1%nat end in
  if bool_decide (2 ≤ utf8_octets ≤ 4)%nat && bool_decide (utf8_octets * 3 ≤ length src)%nat then
    match decode_octets utf8_octets src with
    | None => 3%nat
    | Some decoded =>
        if from_utf8 decoded && bool_decide (snd <$> decode_utf8 decoded = Some (length decoded))
        then (utf8_octets * 3)%nat else 3%nat
    end
  else 3%nat.

(** [prefix_end], from [value] on with [maximum_characters] to go. *)
Fixpoint prefix_end (value : list Z) (maximum_characters : nat) : nat :=
  match maximum_characters, value with
  | O, _ | _, [] => 0
  | S m, b :: r =>
      let width :=
        match r with
        | high :: low :: _ =>
            if is_triplet b high low then Some (pct_encoded_character_width value) else snd <$> decode_utf8 value
        | _ => snd <$> decode_utf8 value
        end in
      match width with
      | None => 0
      | Some w => w + prefix_end (drop w value) m
      end
  end%nat.

Definition scalar_prefix (value : list Z) (v : UriTemplateVariable) : X (list Z) :=
  check_value_bound value ;!
  ret (match modifier v with
       | Some (Prefix length) => take (prefix_end value (Z.to_nat length)) value
       | _ => value
       end).

Definition reject_prefix_on_composite (v : UriTemplateVariable) : X unit :=
  match modifier v with
  | Some (Prefix _) => fail (PrefixAppliedToComposite (name v))
  | _ => ret tt
  end.

(** [for x in l { f(x)?; }] *)
Fixpoint for_each {A} (f : A → X unit) (l : list A) : X unit :=
  match l with [] => ret tt | x :: l => f x ;! for_each f l end.

(** [values.iter().flatten()], and the pairs whose value is defined *)
Definition defined_items (values : list (option (list Z))) : list (list Z) := omap id values.
Definition defined_pairs (values : list (list Z * option (list Z))) : list (list Z * list Z) :=
  omap (λ kv, (λ v, (kv.1, v)) <$> kv.2) values.

(** A compact composite: its encoded members, after commas but for the first. *)
Fixpoint write_members {A} (write : A → X unit) (l : list A) (is_first : bool) : X unit :=
  match l with
  | [] => ret tt
  | x :: l => (if is_first then ret tt else append_output (chars_of ",")) ;! write x ;! write_members write l false
  end.

(** The checks of the pairs of an associative value. *)
Fixpoint check_pairs (values : list (list Z * option (list Z))) (unique_keys : gset (list Z)) : X unit :=
  match values with
  | [] => ret tt
  | (key, value) :: values =>
      if bool_decide (key ∈ unique_keys) then fail (DuplicateAssociativeKey key)
      else
        check_value_bound key ;!
        match value with Some v => check_value_bound v | None => ret tt end ;!
        check_pairs values ({[ key ]} ∪ unique_keys)
  end.

(** The head of a compact composite. *)
Definition begin_composite (p : OperatorProperties) (v : UriTemplateVariable) : X unit :=
  begin_value p ;!
  if named p then append_variable_name (name v) ;! append_output (chars_of "=") else ret tt.

Definition expand_variable (p : OperatorProperties) (v : UriTemplateVariable) (value : TemplateValue) : X unit :=
  match value with
  | Scalar value =>
      let! value := scalar_prefix value v in
      write_value p (name v) value (bool_decide (value = []))
  | List values =>
      if bool_decide (values = []) then ret tt
      else
        inspect_composite (zlen values) ;!
        for_each check_value_bound (defined_items values) ;!
        if bool_decide (defined_items values = []) then ret tt
        else
          reject_prefix_on_composite v ;!
          if bool_decide (modifier v = Some Explode) then
            for_each (λ value, write_value p (name v) value (bool_decide (value = []))) (defined_items values)
          else
            begin_composite p v ;!
            write_members (λ value, append_encoded_value value (allow_reserved p)) (defined_items values) true
  | Associative values =>
      if bool_decide (values = []) then ret tt
      else
        inspect_composite (zlen values) ;!
        check_pairs values ∅ ;!
        if bool_decide (defined_pairs values = []) then ret tt
        else
          reject_prefix_on_composite v ;!
          if bool_decide (modifier v = Some Explode) then
            for_each (λ kv, write_associative_pair p kv.1 kv.2) (defined_pairs values)
          else
            begin_composite p v ;!
            write_members (λ kv,
              append_encoded_value kv.1 (allow_reserved p) ;!
              append_output (chars_of ",") ;!
              append_encoded_value kv.2 (allow_reserved p)) (defined_pairs values) true
  end.

Definition expand_expression (e : UriTemplateExpression) (values : TemplateValues) : X unit :=
  modify (set_wrote_value false) ;!
  for_each (λ v, match values !! name v with
                 | None => ret tt
                 | Some value => expand_variable (properties (operator e)) v value
                 end) (variables e).

Definition expand_part (values : TemplateValues) (p : UriTemplatePart) : X unit :=
  match p with
  | Literal literal => append_encoded_literal literal
  | Expression e => expand_expression e values
  end.
End expansion.

(** What a run has written. *)
Definition run_output (m : X unit) : Res (list Z) :=
  match m Expansion_new with
  | (Ok _, x) => Ok (output x)
  | (Err e, _) => Err e
  | (Panic, _) => Panic
  | (OutOfFuel, _) => OutOfFuel
  end.

Definition expand_with_limits (t : UriTemplate) (values : TemplateValues) (limits : UriTemplateExpansionLimits)
    : Res (list Z) :=
  run_output (for_each (expand_part limits values) (parts t)).

Definition UriTemplate_expand (t : UriTemplate) (values : TemplateValues) : Res (list Z) :=
  expand_with_limits t values default_limits.

(** * Reverse matching *)

Inductive ReversibleBoundary : Type := BLiteral (value : list Z) | ExpressionPrefix (value : list Z).

Record ReversibleTemplateVariable : Type := {
  rname : list Z;
  encoded_name : list Z;
}.

Record ReversibleTemplateExpression : Type := {
  roperator : UriTemplateOperator;
  rvariables : list ReversibleTemplateVariable;
  next_boundary : option ReversibleBoundary;
}.

Inductive ReversibleTemplatePart : Type :=
| RLiteral (literal : list Z)
| RExpression (expression : ReversibleTemplateExpression).

Record ReversibleResourceTemplate : Type := {
  template : UriTemplate;
  rparts : list ReversibleTemplatePart;
}.

Definition as_str (b : ReversibleBoundary) : list Z :=
  match b with BLiteral value | ExpressionPrefix value => value end.
Definition permits_absent_following_expression (b : ReversibleBoundary) : bool :=
  match b with ExpressionPrefix _ => true | BLiteral _ => false end.

Definition encode_literal (literal : list Z) : Res (list Z) :=
  run_output (append_encoded_literal default_limits literal).
Definition encode_name (n : list Z) : Res (list Z) := run_output (append_variable_name default_limits n).

Definition validate_reversible_expression (o : UriTemplateOperator) (boundary : option ReversibleBoundary) : Res unit :=
  match o, boundary with
  | (Reserved | Fragment), Some _ => Err (NonReversibleTemplate UnboundedReservedCapture)
  | (Reserved | Fragment), None => Ok tt
  | _, None => Ok tt
  | _, Some b =>
      match head (as_str b) with
      | Some byte => if is_reserved byte then Ok tt else Err (NonReversibleTemplate AmbiguousBoundary)
      | None => Err (NonReversibleTemplate AmbiguousBoundary)
      end
  end.

Definition reversible_adjacent_expression_boundary (e next : UriTemplateExpression) : Res ReversibleBoundary :=
  match operator next with
  | Simple | Reserved => Err (NonReversibleTemplate AdjacentCaptures)
  | Fragment => Ok (ExpressionPrefix (chars_of "#"))
  | Label => Ok (ExpressionPrefix (chars_of "."))
  | Path =>
      if bool_decide (operator e = Path) then Err (NonReversibleTemplate AmbiguousBoundary)
      else Ok (ExpressionPrefix (chars_of "/"))
  | PathParameter => Ok (ExpressionPrefix (chars_of ";"))
  | Query => Ok (ExpressionPrefix (chars_of "?"))
  | QueryContinuation => Ok (ExpressionPrefix (chars_of "&"))
  end.

(** The variables of an expression and the names seen with them. *)
Fixpoint compile_variables (vs : list UriTemplateVariable) (variable_names : gset (list Z))
    : Res (list ReversibleTemplateVariable * gset (list Z)) :=
  match vs with
  | [] => Ok ([], variable_names)
  | v :: vs =>
      match modifier v with
      | Some (Prefix _) => Err (NonReversibleTemplate (LossyPrefix (name v)))
      | _ =>
          if bool_decide (name v ∈ variable_names) then Err (NonReversibleTemplate (DuplicateVariable (name v)))
          else
            let? encoded := encode_name (name v) in
            let? (rvs, names) := compile_variables vs ({[ name v ]} ∪ variable_names) in
            Ok ({| rname := name v; encoded_name := encoded |} :: rvs, names)
      end
  end.

Definition boundary_of (e : UriTemplateExpression) (next : option UriTemplatePart) : Res (option ReversibleBoundary) :=
  match next with
  | Some (Literal literal) => let? encoded := encode_literal literal in Ok (Some (BLiteral encoded))
  | Some (Expression next) => let? b := reversible_adjacent_expression_boundary e next in Ok (Some b)
  | None => Ok None
  end.

Definition compile_expression (e : UriTemplateExpression) (next : option UriTemplatePart) (variable_names : gset (list Z))
    : Res (ReversibleTemplateExpression * gset (list Z)) :=
  if bool_decide (variables e = []) ||
     negb (zlen (variables e) =? 1) && negb (named (properties (operator e)))
  then Err (NonReversibleTemplate MultipleVariables)
  else
    let? (rvs, names) := compile_variables (variables e) variable_names in
    let? boundary := boundary_of e next in
    let? _ := validate_reversible_expression (operator e) boundary in
    Ok ({| roperator := operator e; rvariables := rvs; next_boundary := boundary |}, names).

Fixpoint compile_parts (ps : list UriTemplatePart) (variable_names : gset (list Z)) : Res (list ReversibleTemplatePart) :=
  match ps with
  | [] => Ok []
  | Literal literal :: ps =>
      let? encoded := encode_literal literal in
      let? rps := compile_parts ps variable_names in
      Ok (RLiteral encoded :: rps)
  | Expression e :: ps =>
      let? (re, names) := compile_expression e (head ps) variable_names in
      let? rps := compile_parts ps names in
      Ok (RExpression re :: rps)
  end.

Definition from_template (t : UriTemplate) : Res ReversibleResourceTemplate :=
  let? rps := compile_parts (parts t) ∅ in
  Ok {| template := t; rparts := rps |}.

Fixpoint contains_pct_encoded_triplet (value : list Z) : bool :=
  match value with
  | a :: (b :: c :: _) as r => is_triplet a b c || contains_pct_encoded_triplet r
  | _ => false
  end.

(** What [ReversibleResourceTemplate::expand] refuses in one variable. *)
Definition check_variable (o : UriTemplateOperator) (values : TemplateValues) (v : ReversibleTemplateVariable) : Res unit :=
  match values !! rname v with
  | None => Ok tt
  | Some (Scalar value) =>
      if bool_decide (value = []) && (bool_decide (o = Simple) || bool_decide (o = Reserved))
      then Err (AmbiguousEmptyScalar (rname v))
      else if (bool_decide (o = Reserved) || bool_decide (o = Fragment)) && contains_pct_encoded_triplet value
      then Err (PreescapedReservedMatchValue (rname v))
      else Ok tt
  | Some _ => Err (NonScalarMatchValue (rname v))
  end.

Fixpoint check_variables (o : UriTemplateOperator) (values : TemplateValues) (vs : list ReversibleTemplateVariable)
    : Res unit :=
  match vs with
  | [] => Ok tt
  | v :: vs => let? _ := check_variable o values v in check_variables o values vs
  end.

Fixpoint check_parts (values : TemplateValues) (ps : list ReversibleTemplatePart) : Res unit :=
  match ps with
  | [] => Ok tt
  | RLiteral _ :: ps => check_parts values ps
  | RExpression e :: ps =>
      let? _ := check_variables (roperator e) values (rvariables e) in check_parts values ps
  end.

Definition Reversible_expand (t : ReversibleResourceTemplate) (values : TemplateValues) : Res (list Z) :=
  let? _ := check_parts values (rparts t) in
  UriTemplate_expand (template t) values.

(** ** Captures *)

Fixpoint decode_triplets (bytes : list Z) : option (list Z) :=
  match bytes with
  | [] => Some []
  | b :: r =>
      if b =? 37 then
        match r with
        | high :: low :: r' =>
            h ← hex_value high; l ← hex_value low; d ← decode_triplets r'; Some (Z.lor (Z.shiftl h 4) l :: d)
        | _ => None
        end
      else d ← decode_triplets r; Some (b :: d)
  end.
Definition decode_percent_triplets_once (capture : list Z) : option (list Z) :=
  decoded ← decode_triplets capture; if from_utf8 decoded then Some decoded else None.

Definition reverse_capture_to_boundary (remainder : list Z) (boundary : option ReversibleBoundary)
    : option (list Z * nat) :=
  match boundary with
  | Some b =>
      match find (as_str b) remainder with
      | Some offset => Some (take offset remainder, offset)
      | None => if permits_absent_following_expression b then Some (remainder, length remainder) else None
      end
  | None => Some (remainder, length remainder)
  end.

Definition reverse_match_unprefixed (remainder : list Z) (boundary : option ReversibleBoundary)
    : option (option (list Z) * nat) :=
  '(capture, consumed) ← reverse_capture_to_boundary remainder boundary;
  if bool_decide (capture = []) then Some (None, O)
  else value ← decode_percent_triplets_once capture; Some (Some value, consumed).

Definition reverse_match_prefixed (remainder prefix : list Z) (boundary : option ReversibleBoundary)
    : option (option (list Z) * nat) :=
  match strip_prefix prefix remainder with
  | None => Some (None, O)
  | Some after_prefix =>
      match reverse_capture_to_boundary after_prefix boundary with
      | None => Some (None, O)
      | Some (capture, consumed) =>
          value ← decode_percent_triplets_once capture; Some (Some value, (length prefix + consumed)%nat)
      end
  end.

(** The value after a name, and how many bytes of [=] precede it. *)
Definition after_equals (after_name : list Z) (requires_equals : bool) : option (list Z * nat) :=
  match strip_prefix (chars_of "=") after_name with
  | Some rest => Some (rest, 1%nat)
  | None =>
      if requires_equals then if bool_decide (after_name = []) then Some (after_name, O) else None
      else if bool_decide (after_name = []) || bool_decide (head after_name = Some 59)
      then Some (after_name, O) else None
  end.

Definition reverse_match_named (remainder marker : list Z) (v : ReversibleTemplateVariable) (requires_equals : bool)
    (boundary : option ReversibleBoundary) : option (option (list Z) * nat) :=
  let prefix := marker ++ encoded_name v in
  match strip_prefix prefix remainder ≫= (λ after_name, after_equals after_name requires_equals) with
  | None => Some (None, O)
  | Some (rest, equals_len) =>
      match reverse_capture_to_boundary rest boundary with
      | None => Some (None, O)
      | Some (capture, consumed) =>
          value ← decode_percent_triplets_once capture; Some (Some value, (length prefix + equals_len + consumed)%nat)
      end
  end.

Definition reversible_named_capture_len (remainder sep : list Z) (boundary : option ReversibleBoundary) : nat :=
  let capture_len := length remainder in
  let capture_len := match find sep remainder with Some offset => Nat.min capture_len offset | None => capture_len end in
  match boundary ≫= (λ b, find (as_str b) remainder) with
  | Some offset => Nat.min capture_len offset
  | None => capture_len
  end.

(** [str::get(from..)] *)
Definition get_from (s : list Z) (from : nat) : option (list Z) :=
  if bool_decide (from ≤ length s)%nat && starts_on_boundary (drop from s) then Some (drop from s) else None.

(** What one variable of several does: the match fails, the variable is passed
    over, or it captures a value and moves on by so many bytes. *)
Inductive capture_step : Type := Fails | Skips | Captures (value : list Z) (bytes : nat).

Definition match_named_variable (p : OperatorProperties) (requires_equals : bool) (boundary : option ReversibleBoundary)
    (marker remainder : list Z) (v : ReversibleTemplateVariable) : capture_step :=
  match strip_prefix marker remainder ≫= strip_prefix (encoded_name v) with
  | None => Skips
  | Some after_name =>
      let capture rest equals_len :=
        let capture_len := reversible_named_capture_len rest (separator p) boundary in
        if negb (starts_on_boundary (drop capture_len rest)) then Fails
        else match decode_percent_triplets_once (take capture_len rest) with
             | None => Fails
             | Some value =>
                 Captures value (length marker + length (encoded_name v) + equals_len + capture_len)
             end in
      match strip_prefix (chars_of "=") after_name with
      | Some rest => capture rest 1%nat
      | None =>
          if requires_equals then Fails
          else if bool_decide (after_name = []) || bool_decide (is_Some (strip_prefix (separator p) after_name))
          then capture after_name 0%nat
          else Skips
      end
  end.

Fixpoint match_named_loop (p : OperatorProperties) (requires_equals : bool) (boundary : option ReversibleBoundary)
    (vs : list ReversibleTemplateVariable) (remainder : list Z) (offset : nat) (wrote : bool)
    : option (list (list Z * list Z) * nat) :=
  match vs with
  | [] => Some ([], offset)
  | v :: vs =>
      here ← get_from remainder offset;
      match match_named_variable p requires_equals boundary (if wrote then separator p else first p) here v with
      | Fails => None
      | Skips => match_named_loop p requires_equals boundary vs remainder offset wrote
      | Captures value bytes =>
          '(captures, o) ← match_named_loop p requires_equals boundary vs remainder (offset + bytes) true;
          Some ((rname v, value) :: captures, o)
      end
  end.

Definition is_query (o : UriTemplateOperator) : bool :=
  match o with Query | QueryContinuation => true | _ => false end.

Definition reverse_match_named_expression (e : ReversibleTemplateExpression) (remainder : list Z)
    : option (list (list Z * list Z) * nat) :=
  match_named_loop (properties (roperator e)) (is_query (roperator e)) (next_boundary e) (rvariables e) remainder 0 false.

Definition reverse_match_expression (e : ReversibleTemplateExpression) (remainder : list Z)
    : option (list (list Z * list Z) * nat) :=
  match rvariables e with
  | [] => None
  | [v] =>
      let b := next_boundary e in
      '(capture, consumed) ←
        match roperator e with
        | Simple => reverse_match_unprefixed remainder b
        | Reserved => reverse_match_unprefixed remainder None
        | Fragment => reverse_match_prefixed remainder (chars_of "#") b
        | Label => reverse_match_prefixed remainder (chars_of ".") b
        | Path => reverse_match_prefixed remainder (chars_of "/") b
        | PathParameter => reverse_match_named remainder (chars_of ";") v false b
        | Query => reverse_match_named remainder (chars_of "?") v true b
        | QueryContinuation => reverse_match_named remainder (chars_of "&") v true b
        end;
      Some (match capture with Some c => [(rname v, c)] | None => [] end, consumed)
  | _ => reverse_match_named_expression e remainder
  end.

Definition insert_captures (captures : list (list Z * list Z)) (values : TemplateValues) : TemplateValues :=
  foldl (λ vs c, <[c.1 := Scalar c.2]> vs) values captures.

(** The loop of [match_uri]: where the parts end and what they capture. *)
Fixpoint match_parts (ps : list ReversibleTemplatePart) (uri : list Z) (offset : nat) (values : TemplateValues)
    : option (nat * TemplateValues) :=
  match ps with
  | [] => Some (offset, values)
  | RLiteral literal :: ps =>
      remainder ← get_from uri offset;
      rest ← strip_prefix literal remainder;
      match_parts ps uri (length uri - length rest) values
  | RExpression e :: ps =>
      remainder ← get_from uri offset;
      '(captures, consumed) ← reverse_match_expression e remainder;
      match_parts ps uri (offset + consumed) (insert_captures captures values)
  end.

Definition match_uri (t : ReversibleResourceTemplate) (uri : list Z) : Res (option TemplateValues) :=
  if MAX_URI_TEMPLATE_MATCH_INPUT_BYTES <? zlen uri
  then Err (MatchInputTooLong (zlen uri) MAX_URI_TEMPLATE_MATCH_INPUT_BYTES)
  else
    match match_parts (rparts t) uri 0 ∅ with
    | None => Ok None
    | Some (offset, values) =>
        if negb (bool_decide (offset = length uri)) then Ok None
        else
          let? expanded := Reversible_expand t values in
          if bool_decide (expanded = uri) then Ok (Some values) else Ok None
    end.
End Template.
