(* ===== verification/UriTemplateParse.v ===== *)
(** URI templates are parsed exactly: what parses is what the grammar of RFC 6570
    and the limits allow, and the parts print to the text they were read from. *)
From stdpp Require Import base list gmap strings.
From Stdlib Require Import ZArith Lia.
From S2P Require Import Prelude Utf8 JsonGrammar JsonLex RawJson RequestId RequestIdTheorems UriTemplate.

Module TemplateParse.
Import Template.

(** * Printing *)

Fixpoint join (b : Z) (ss : list (list Z)) : list Z :=
  match ss with
  | [] => []
  | [s] => s
  | s :: ss => s ++ b :: join b ss
  end.

Definition print_modifier (m : option UriTemplateModifier) : list Z :=
  match m with
  | None => []
  | Some Explode => [42]
  | Some (Prefix n) => 58 :: Raw.to_string n
  end.
Definition print_variable (v : UriTemplateVariable) : list Z := name v ++ print_modifier (modifier v).

Definition print_operator (o : UriTemplateOperator) : list Z :=
  match o with
  | Simple => [] | Reserved => [43] | Fragment => [35] | Label => [46] | Path => [47]
  | PathParameter => [59] | Query => [63] | QueryContinuation => [38]
  end.
Definition print_expression (e : UriTemplateExpression) : list Z :=
  print_operator (operator e) ++ join 44 (print_variable <$> variables e).

Definition print_part (p : UriTemplatePart) : list Z :=
  match p with Literal l => l | Expression e => 123 :: print_expression e ++ [125] end.
Definition print (ps : list UriTemplatePart) : list Z := ps ≫= print_part.

(** * The grammar *)

(** Literal text: triplets, allowed ASCII bytes and allowed characters. *)
Inductive literal_text : list Z → Prop :=
| literal_nil : literal_text []
| literal_triplet h l r :
    is_ascii_hexdigit h = true → is_ascii_hexdigit l = true → literal_text r → literal_text (37 :: h :: l :: r)
| literal_byte b r : 0 <= b < 128 → is_valid_literal_byte b = true → literal_text r → literal_text (b :: r)
| literal_char c r :
    is_scalar c → 128 <= c → is_valid_literal_character c = true → literal_text r → literal_text (encode_utf8 c ++ r).

(** Characters of names: letters, digits, [_] and triplets. *)
Inductive name_text : list Z → Prop :=
| name_nil : name_text []
| name_byte b r : is_ascii_alphanumeric b || (b =? 95) = true → name_text r → name_text (b :: r)
| name_triplet h l r :
    is_ascii_hexdigit h = true → is_ascii_hexdigit l = true → name_text r → name_text (37 :: h :: l :: r).

(** Segments of such characters between dots. *)
Definition name_ok (n : list Z) : Prop :=
  ∃ segments, segments ≠ [] ∧ n = join 46 segments ∧ Forall (λ s, s ≠ [] ∧ name_text s) segments.

Definition modifier_ok (m : option UriTemplateModifier) : Prop :=
  match m with Some (Prefix n) => 1 <= n <= MAX_URI_TEMPLATE_PREFIX_LENGTH | _ => True end.

Record variable_ok (v : UriTemplateVariable) : Prop := {
  ok_name : name_ok (name v);
  ok_name_bytes : zlen (name v) <= MAX_URI_TEMPLATE_VARIABLE_NAME_BYTES;
  ok_modifier : modifier_ok (modifier v);
}.

Record expression_ok (e : UriTemplateExpression) : Prop := {
  ok_some_variable : variables e ≠ [];
  ok_variables : Forall variable_ok (variables e);
  ok_variable_number : zlen (variables e) <= MAX_URI_TEMPLATE_VARIABLES_PER_EXPRESSION;
}.

Definition part_ok (p : UriTemplatePart) : Prop :=
  match p with Literal l => l ≠ [] ∧ literal_text l | Expression e => expression_ok e end.

Definition is_expression (p : UriTemplatePart) : bool := match p with Expression _ => true | Literal _ => false end.

(** Literals are as long as they can be. *)
Fixpoint maximal (ps : list UriTemplatePart) : Prop :=
  match ps with
  | [] => True
  | p :: r =>
      match p, r with Literal _, Literal _ :: _ => False | _, _ => True end ∧ maximal r
  end.

Definition expression_count (ps : list UriTemplatePart) : Z := zlen (filter (λ p, is_expression p = true) ps).

Record parts_ok (ps : list UriTemplatePart) : Prop := {
  ok_each : Forall part_ok ps;
  ok_maximal : maximal ps;
  ok_part_number : zlen ps <= MAX_URI_TEMPLATE_PARTS;
  ok_expression_number : expression_count ps <= MAX_URI_TEMPLATE_EXPRESSIONS;
}.

(** * Splitting and searching *)

Lemma position_found b l i : position b l = Some i ↔ ∃ r, l = take i l ++ b :: r ∧ b ∉ take i l ∧ length (take i l) = i.
Proof.
  revert i. induction l as [|x l IH]; intros i; simpl.
  { split; [done|]. intros (r & Hr & _). by destruct i. }
  destruct (Z.eqb_spec x b) as [->|Hx].
  - split.
    + intros [= <-]. exists l. split_and!; [done|apply not_elem_of_nil|done].
    + destruct i as [|i]; [done|]. simpl. intros (_ & _ & Hn & _). exfalso. apply Hn. by left.
  - destruct i as [|i].
    + split; [by destruct (position b l)|]. simpl. intros (r & [= ? _] & _). done.
    + simpl. rewrite fmap_Some. split.
      * intros (j & Hj & [= ->]). apply IH in Hj as (r & Hr & Hn & Hl). exists r. split_and!; [by f_equal| |by f_equal].
        by rewrite not_elem_of_cons.
      * intros (r & [= Hr] & Hn & [= Hl]). apply not_elem_of_cons in Hn as [_ Hn]. exists i. split; [|done].
        apply IH. by exists r.
Qed.

Lemma position_app b l r : b ∉ l → position b (l ++ b :: r) = Some (length l).
Proof.
  intros Hn. apply position_found. exists r. by rewrite take_app_length.
Qed.

Lemma position_absent b l : position b l = None ↔ b ∉ l.
Proof.
  induction l as [|x l IH]; simpl; [split; [intros _; apply not_elem_of_nil|done]|]. rewrite not_elem_of_cons.
  destruct (Z.eqb_spec x b) as [->|Hx]; [split; [done|]; naive_solver|]. rewrite fmap_None, IH. naive_solver.
Qed.

Lemma split_ne b l : split b l ≠ [].
Proof. destruct l as [|x l]; simpl; [done|]. destruct (x =? b); [done|]. by destruct (split b l). Qed.

Lemma join_cons b s ss : ss ≠ [] → join b (s :: ss) = s ++ b :: join b ss.
Proof. by destruct ss. Qed.

Lemma join_split b l : join b (split b l) = l.
Proof.
  induction l as [|x l IH]; [done|]. simpl. pose proof (split_ne b l) as Hne. destruct (Z.eqb_spec x b) as [->|Hx].
  - rewrite join_cons by done. simpl. by rewrite IH.
  - destruct (split b l) as [|s ss]; [done|]. destruct ss as [|s' ss].
    + simpl in *. by rewrite IH.
    + rewrite join_cons in IH |- * by done. simpl. by rewrite <- IH.
Qed.

Lemma split_not_in b l : Forall (λ s, b ∉ s) (split b l).
Proof.
  induction l as [|x l IH]; simpl; [constructor; [apply not_elem_of_nil|constructor]|].
  destruct (Z.eqb_spec x b) as [->|Hx]; [constructor; [apply not_elem_of_nil|done]|].
  pose proof (split_ne b l). destruct (split b l) as [|s ss]; [done|]. apply Forall_cons in IH as [Hs Hss].
  constructor; [|done]. rewrite not_elem_of_cons. naive_solver.
Qed.

Lemma split_join b ss : ss ≠ [] → Forall (λ s, b ∉ s) ss → split b (join b ss) = ss.
Proof.
  assert (Hone : ∀ s r, b ∉ s → split b (s ++ b :: r) = s :: split b r).
  { induction s as [|x s IH]; intros r Hn; simpl; [by rewrite Z.eqb_refl|].
    apply not_elem_of_cons in Hn as [Hx Hn]. rewrite (proj2 (Z.eqb_neq _ _)) by done. by rewrite IH. }
  assert (Hlast : ∀ s, b ∉ s → split b s = [s]).
  { induction s as [|x s IH]; intros Hn; [done|]. simpl. apply not_elem_of_cons in Hn as [Hx Hn].
    rewrite (proj2 (Z.eqb_neq _ _)) by done. by rewrite IH. }
  induction ss as [|s ss IH]; intros Hne Hf; [done|]. apply Forall_cons in Hf as [Hs Hf]. destruct ss as [|s' ss].
  - by apply Hlast.
  - rewrite join_cons, Hone, IH by done. done.
Qed.

(** * Names and variables *)

(** The bytes of names. *)
Definition is_name_byte (b : Z) : bool := is_ascii_alphanumeric b || (b =? 95) || (b =? 37) || (b =? 46).

Lemma hexdigit_alphanumeric b : is_ascii_hexdigit b = true → is_ascii_alphanumeric b = true.
Proof.
  unfold is_ascii_hexdigit, hex_value, is_ascii_alphanumeric, Raw.is_ascii_alphanumeric. rewrite bool_decide_eq_true.
  intros [v Hv]. rewrite !orb_true_iff, !andb_true_iff, !Z.leb_le.
  repeat (case_if_in Hv; zbool; [lia|]). done.
Qed.

Lemma is_triplet_iff p h l :
  is_triplet p h l = true ↔ p = 37 ∧ is_ascii_hexdigit h = true ∧ is_ascii_hexdigit l = true.
Proof. unfold is_triplet. rewrite !andb_true_iff, Z.eqb_eq. tauto. Qed.

Lemma name_bytes_valid_iff s : name_bytes_valid s = true ↔ name_text s.
Proof.
  split.
  - remember (length s) as n eqn:Hn. assert (Hle : (length s ≤ n)%nat) by lia. clear Hn. revert s Hle.
    induction n as [|n IH]; intros [|b r] Hle; simpl in *; [intros; constructor|lia|intros; constructor|].
    destruct (is_ascii_alphanumeric b || (b =? 95)) eqn:Eb.
    + intros Hr. apply name_byte; [done|]. apply IH; [lia|done].
    + destruct r as [|h [|l r]]; try done. destruct (is_triplet b h l) eqn:Et; [|done].
      apply is_triplet_iff in Et as (-> & Hh & Hl). intros Hr. apply name_triplet; [done..|]. apply IH; simpl in *; [lia|done].
  - induction 1 as [|b r Hb Hr IH|h l r Hh Hl Hr IH]; simpl; [done|by rewrite Hb|]. unfold is_triplet. by rewrite Hh, Hl.
Qed.

Lemma name_text_bytes s : name_text s → Forall (λ b, is_name_byte b = true) s ∧ 46 ∉ s.
Proof.
  assert (Halpha : ∀ b, is_ascii_alphanumeric b = true → b ≠ 46).
  { intros b Hb ->. by vm_compute in Hb. }
  induction 1 as [|b r Hb Hr [IH1 IH2]|h l r Hh Hl Hr [IH1 IH2]].
  - split; [constructor|apply not_elem_of_nil].
  - split.
    + constructor; [|done]. unfold is_name_byte. by rewrite Hb.
    + rewrite not_elem_of_cons. split; [|done]. apply orb_true_iff in Hb as [Hb|Hb%Z.eqb_eq]; [|lia].
      intros <-. by apply (Halpha 46).
  - apply hexdigit_alphanumeric in Hh, Hl. split.
    + repeat (constructor; [unfold is_name_byte; rewrite ?Hh, ?Hl; done|]). done.
    + rewrite !not_elem_of_cons. split_and!; [done| | |done]; intros <-; by apply (Halpha 46).
Qed.

Lemma join_Forall (P : Z → Prop) b ss : P b → Forall (Forall P) ss → Forall P (join b ss).
Proof.
  intros Hb. induction 1 as [|s ss Hs Hss IH]; [constructor|]. destruct ss as [|s' ss]; [done|].
  rewrite join_cons by done. apply Forall_app. split; [done|]. by constructor.
Qed.

Lemma name_ok_bytes n : name_ok n → Forall (λ b, is_name_byte b = true) n ∧ n ≠ [].
Proof.
  intros (ss & Hne & -> & Hf). split.
  - apply join_Forall; [done|]. eapply Forall_impl; [exact Hf|]. intros s [_ Hs]. by apply name_text_bytes.
  - destruct ss as [|s ss]; [done|]. apply Forall_cons in Hf as [[Hs _] _]. destruct ss; [done|].
    rewrite join_cons by done. by destruct s.
Qed.

Lemma is_valid_variable_name_iff n : is_valid_variable_name n = true ↔ name_ok n.
Proof.
  unfold is_valid_variable_name, is_valid_variable_name_segment.
  rewrite andb_true_iff, negb_true_iff, bool_decide_eq_false, forallb_forall. split.
  - intros [Hne Hf]. exists (split 46 n). split_and!; [apply split_ne|by rewrite join_split|].
    apply Forall_forall. intros s Hs. apply list_elem_of_In, Hf, andb_true_iff in Hs as [Hs1 Hs2].
    apply negb_true_iff, bool_decide_eq_false in Hs1. by apply name_bytes_valid_iff in Hs2.
  - intros Hok. split; [by apply name_ok_bytes|]. destruct Hok as (ss & Hne & -> & Hf).
    rewrite split_join; [|done|].
    + intros s Hs%list_elem_of_In. rewrite Forall_forall in Hf. destruct (Hf s Hs) as [H1 H2].
      rewrite bool_decide_false by done. simpl. by apply name_bytes_valid_iff.
    + eapply Forall_impl; [exact Hf|]. intros s [_ Hs]. by apply name_text_bytes.
Qed.

Lemma name_byte_not b n : is_name_byte b = false → Forall (λ c, is_name_byte c = true) n → b ∉ n.
Proof. intros Hb Hf Hin. rewrite Forall_forall in Hf. specialize (Hf b Hin). congruence. Qed.

Lemma strip_star_Some s n : strip_star s = Some n ↔ s = n ++ [42].
Proof.
  unfold strip_star. destruct s as [|x s _] using rev_ind; [split; [done|]; by destruct n|].
  rewrite last_snoc, removelast_last. split.
  - intros Hs. assert (x = 42) as -> by (destruct x as [|p|]; try done; repeat (destruct p; try done)). congruence.
  - by intros [-> ->]%app_inj_tail.
Qed.

Lemma split_once_Some b s n p : split_once b s = Some (n, p) ↔ s = n ++ b :: p ∧ b ∉ n.
Proof.
  unfold split_once. rewrite fmap_Some. split.
  - intros (i & Hi & [= -> ->]). apply position_found in Hi as (r & Hr & Hn & Hl). split; [|done].
    assert (Hd : drop i s = b :: r) by (apply (app_inv_head (take i s)); by rewrite take_drop).
    rewrite Hr at 1. f_equal. f_equal. by rewrite <- Nat.add_1_r, <- drop_drop, Hd.
  - intros [-> Hn]. exists (length n). split; [by apply position_app|].
    by rewrite take_app_length, <- Nat.add_1_r, <- drop_drop, drop_app_length.
Qed.

Lemma split_once_None b s : split_once b s = None ↔ b ∉ s.
Proof. unfold split_once. by rewrite fmap_None, position_absent. Qed.

(** Prefix lengths are read back from their shortest spelling. *)
Lemma prefix_iff p n :
  is_valid_prefix p = true ∧ parse_usize p = Some n ↔ 1 <= n <= MAX_URI_TEMPLATE_PREFIX_LENGTH ∧ p = Raw.to_string n.
Proof.
  assert (Hdigits : forallb is_digit p = true ↔ digits p).
  { rewrite forallb_forall. unfold digits. rewrite Forall_forall. by setoid_rewrite list_elem_of_In. }
  assert (Hval : digits p → p ≠ [] → zlen p <= 4 → parse_usize p = Some (dec_value p) ∧ dec_value p <= 9999).
  { intros Hd Hne Hl. pose proof (dec_value_lt p Hd). assert (10 ^ zlen p <= 10 ^ 4) by (apply Z.pow_le_mono_r; lia).
    split; [|lia]. unfold parse_usize. rewrite bool_decide_false, (proj2 Hdigits), (proj2 (Z.ltb_ge _ _)); [done| |done|done].
    unfold usize_max. lia. }
  unfold is_valid_prefix. rewrite !andb_true_iff, Z.leb_le, Hdigits. split.
  - intros [[[[Hl Hh] Hd] Hp] Hn]. destruct p as [|d ds]; [done|]. simpl in Hh. zbool.
    destruct (Hval Hd ltac:(done) Hl) as [Hv Hm]. rewrite Hv in Hn. injection Hn as <-.
    assert (Hc : canon (d :: ds) (dec_value (d :: ds))) by (apply canon_pos; [done|lia]).
    assert (Hpos : 0 < dec_value (d :: ds)) by (apply dec_value_pos; [done|lia]).
    split; [unfold MAX_URI_TEMPLATE_PREFIX_LENGTH; lia|].
    eapply canon_unique; [exact Hc|]. apply to_string_canon. lia.
  - unfold MAX_URI_TEMPLATE_PREFIX_LENGTH. intros [Hn Hp]. pose proof (to_string_canon n ltac:(lia)) as Hc. rewrite <- Hp in Hc.
    destruct (canon_cases _ _ Hc) as [[? _]|(d & ds & Hd & Hne & [(Hpos & -> & Hv)|(? & _)])]; try lia.
    assert (Hl : zlen (d :: ds) <= 4).
    { pose proof (dec_value_ge d ds Hd Hne). rewrite zlen_cons. destruct (Z.le_gt_cases (zlen ds) 3); [lia|exfalso].
      assert (10 ^ 4 <= 10 ^ zlen ds) by (apply Z.pow_le_mono_r; lia). lia. }
    destruct (Hval Hd ltac:(done) Hl) as [Hu Hm]. rewrite Hu. split; [split_and!; [done| |done|]|by rewrite <- Hv].
    + simpl. inversion_clear Hd as [|? ? Hd1 _]. apply digit_range in Hd1. rewrite andb_true_iff, !Z.leb_le. lia.
    + by apply Z.leb_le.
Qed.

Lemma name_ok_not b n : is_name_byte b = false → name_ok n → b ∉ n.
Proof. intros Hb Hn. apply name_byte_not; [done|]. by apply name_ok_bytes. Qed.

Lemma strip_star_none s : 42 ∉ s → strip_star s = None.
Proof.
  intros Hn. destruct (strip_star s) as [n|] eqn:Es; [|done]. apply strip_star_Some in Es as ->. exfalso. apply Hn.
  apply elem_of_app. right. by left.
Qed.

(** The end of [parse_variable]: the name is checked. *)
Lemma parse_name_iff off n m v :
  (if MAX_URI_TEMPLATE_VARIABLE_NAME_BYTES <? zlen n
   then Err (VariableNameTooLong (zlen n) MAX_URI_TEMPLATE_VARIABLE_NAME_BYTES)
   else if negb (is_valid_variable_name n) then Err (InvalidVariable off)
   else Ok {| name := n; modifier := m |}) = Ok v ↔
  v = {| name := n; modifier := m |} ∧ name_ok n ∧ zlen n <= MAX_URI_TEMPLATE_VARIABLE_NAME_BYTES.
Proof.
  rewrite <- is_valid_variable_name_iff. destruct (_ <? zlen n) eqn:El; zbool; [split; [done|]; intros; lia|].
  destruct (is_valid_variable_name n); simpl; [|split; [done|]; naive_solver].
  split; [by intros [= <-]|]. by intros [-> _].
Qed.

Lemma parse_variable_sound s off v : parse_variable s off = Ok v → s = print_variable v ∧ variable_ok v.
Proof.
  unfold parse_variable. intros Hp. case_if_in Hp; [done|]. destruct (strip_star s) as [n|] eqn:Es.
  - apply strip_star_Some in Es as ->. case_if_in Hp; [done|]. cbn [obind] in Hp.
    apply parse_name_iff in Hp as (-> & Hn & Hl). by split.
  - destruct (split_once 58 s) as [[n p]|] eqn:Ep.
    + apply split_once_Some in Ep as [-> _]. destruct (is_valid_prefix p) eqn:Ev; [|done]. cbn [negb] in Hp.
      destruct (parse_usize p) as [l|] eqn:Eu; [|done]. cbn [obind] in Hp.
      apply parse_name_iff in Hp as (-> & Hn & Hl).
      destruct (proj1 (prefix_iff p l) (conj Ev Eu)) as [Hr ->]. by split.
    + cbn [obind] in Hp. apply parse_name_iff in Hp as (-> & Hn & Hl). split; [|by split].
      unfold print_variable. simpl. by rewrite app_nil_r.
Qed.

Lemma to_string_digits n : 1 <= n <= MAX_URI_TEMPLATE_PREFIX_LENGTH → digits (Raw.to_string n).
Proof.
  unfold MAX_URI_TEMPLATE_PREFIX_LENGTH. intros Hn.
  destruct (canon_cases _ _ (to_string_canon n ltac:(lia))) as [[? _]|(d & ds & Hd & _ & [(_ & -> & _)|(? & _)])]; [lia|done|lia].
Qed.

Lemma parse_variable_complete off v : variable_ok v → parse_variable (print_variable v) off = Ok v.
Proof.
  intros [Hn Hl Hm]. destruct v as [n m]. simpl in *. destruct (name_ok_bytes n Hn) as [Hb Hne].
  unfold print_variable, parse_variable. simpl.
  rewrite bool_decide_false by (by destruct n). destruct m as [[l|]|]; simpl in *.
  - pose proof (to_string_digits l Hm) as Hd. rewrite strip_star_none.
    2:{ rewrite elem_of_app, elem_of_cons. intros [Hin|[?|Hin]]; [by apply (name_ok_not 42) in Hin|done|].
        unfold digits in Hd. rewrite Forall_forall in Hd. by specialize (Hd _ Hin). }
    rewrite (proj2 (split_once_Some 58 _ n (Raw.to_string l))) by (split; [done|by apply name_ok_not]).
    destruct (proj2 (prefix_iff (Raw.to_string l) l)) as [Hv Hu]; [done|]. rewrite Hv, Hu. cbn [negb obind].
    by apply parse_name_iff.
  - rewrite (proj2 (strip_star_Some (n ++ [42]) n)) by done. rewrite (bool_decide_false _ Hne), bool_decide_false by (by apply name_ok_not).
    cbn [orb obind]. by apply parse_name_iff.
  - rewrite app_nil_r. rewrite strip_star_none by (by apply name_ok_not).
    rewrite (proj2 (split_once_None 58 n)) by (by apply name_ok_not). cbn [obind]. by apply parse_name_iff.
Qed.

(** The bytes of a printed variable. *)
Definition is_variable_byte (b : Z) : bool := is_name_byte b || (b =? 42) || (b =? 58).

Lemma print_variable_bytes v : variable_ok v → Forall (λ b, is_variable_byte b = true) (print_variable v).
Proof.
  intros [Hn _ Hm]. apply name_ok_bytes in Hn as [Hb _]. unfold print_variable. apply Forall_app. split.
  - eapply Forall_impl; [exact Hb|]. intros b Hb'. unfold is_variable_byte. by rewrite Hb'.
  - destruct (modifier v) as [[l|]|]; simpl in *; [|by repeat constructor|constructor].
    constructor; [done|]. eapply Forall_impl; [by apply to_string_digits|]. intros b Hd. unfold is_variable_byte, is_name_byte.
    unfold is_ascii_alphanumeric, Raw.is_ascii_alphanumeric. unfold is_digit in Hd. by rewrite Hd.
Qed.

(** * Expressions *)

Lemma parse_variables_sound ss : ∀ off vs vs',
  zlen vs <= MAX_URI_TEMPLATE_VARIABLES_PER_EXPRESSION → parse_variables ss off vs = Ok vs' →
  ∃ new, vs' = vs ++ new ∧ ss = print_variable <$> new ∧ Forall variable_ok new ∧
    zlen vs' <= MAX_URI_TEMPLATE_VARIABLES_PER_EXPRESSION.
Proof.
  induction ss as [|s ss IH]; intros off vs vs' Hl Hp; simpl in Hp.
  { injection Hp as <-. exists []. rewrite app_nil_r. by split_and!. }
  case_if_in Hp; [done|]. zbool. destruct (parse_variable s off) as [v| | |] eqn:Ev; [|done..]. cbn [obind] in Hp.
  apply parse_variable_sound in Ev as [-> Hv]. apply IH in Hp as (new & -> & -> & Hf & Hn).
  - exists (v :: new). rewrite <- app_assoc. split_and!; [done..|by constructor|by rewrite <- app_assoc in Hn].
  - rewrite zlen_app. change (zlen [v]) with 1. lia.
Qed.

Lemma parse_variables_complete new : ∀ off vs,
  Forall variable_ok new → zlen (vs ++ new) <= MAX_URI_TEMPLATE_VARIABLES_PER_EXPRESSION →
  parse_variables (print_variable <$> new) off vs = Ok (vs ++ new).
Proof.
  induction new as [|v new IH]; intros off vs Hf Hl; [by rewrite app_nil_r|]. apply Forall_cons in Hf as [Hv Hf].
  rewrite fmap_cons. cbn [parse_variables]. rewrite zlen_app, zlen_cons in Hl. pose proof (zlen_nonneg new).
  rewrite (proj2 (Z.eqb_neq _ _)) by lia. rewrite parse_variable_complete by done. cbn [obind].
  rewrite IH, <- app_assoc; [done|done|]. rewrite <- app_assoc, zlen_app. simpl. rewrite zlen_cons. lia.
Qed.

Lemma operator_of_sound b off o n : operator_of b off = Ok (o, n) → [b] = print_operator o ∧ n = 1%nat ∨ o = Simple ∧ n = 0%nat.
Proof.
  unfold operator_of. intros Ho. repeat (case_if_in Ho; zbool; [subst; injection Ho as <- <-; auto|]).
  case_if_in Ho; [done|]. injection Ho as <- <-. auto.
Qed.

Lemma operator_of_name b off :
  is_ascii_alphanumeric b || (b =? 95) || (b =? 37) = true → operator_of b off = Ok (Simple, 0%nat).
Proof.
  unfold is_ascii_alphanumeric, Raw.is_ascii_alphanumeric. rewrite !orb_true_iff, !andb_true_iff, !Z.leb_le, !Z.eqb_eq.
  intros Hb. unfold operator_of. repeat (rewrite (proj2 (Z.eqb_neq _ _)) by lia).
  rewrite bool_decide_false; [done|]. change (chars_of "=,!@|") with [61; 44; 33; 64; 124]. intros Hin.
  repeat (apply elem_of_cons in Hin as [->|Hin]; [lia|]). by apply elem_of_nil in Hin.
Qed.

Lemma name_ok_head n : name_ok n → ∃ b r, n = b :: r ∧ is_ascii_alphanumeric b || (b =? 95) || (b =? 37) = true.
Proof.
  intros (ss & Hne & -> & Hf). destruct ss as [|s ss]; [done|]. apply Forall_cons in Hf as [[Hs Ht] _].
  assert (Hh : ∃ b r, s = b :: r ∧ is_ascii_alphanumeric b || (b =? 95) || (b =? 37) = true).
  { destruct Ht as [|b r Hb Ht|h l r Hh Hl Ht]; [done|exists b, r; by rewrite Hb|by exists 37, (h :: l :: r)]. }
  destruct Hh as (b & r & -> & Hb). destruct ss as [|s' ss]; [by exists b, r|].
  rewrite join_cons by done. by exists b, (r ++ 46 :: join 46 (s' :: ss)).
Qed.

Lemma join_head b s ss x r : s = x :: r → ∃ r', join b (s :: ss) = x :: r'.
Proof. intros ->. destruct ss; [by exists r|]. rewrite join_cons by done. simpl. eauto. Qed.

Lemma parse_expression_sound s off e : parse_expression s off = Ok e → s = print_expression e ∧ expression_ok e.
Proof.
  unfold parse_expression. destruct s as [|b s]; [done|]. intros Hp.
  destruct (operator_of b off) as [[o n]| | |] eqn:Eo; [|done..]. cbn [obind] in Hp. case_bool_decide as Hne; [done|].
  destruct (parse_variables _ _ _) as [vs| | |] eqn:Ev; [|done..]. cbn [obind] in Hp. injection Hp as <-.
  apply parse_variables_sound in Ev as (new & -> & Hs & Hf & Hl); [|done]. simpl in *.
  apply (f_equal (join 44)) in Hs. rewrite join_split in Hs. split.
  - unfold print_expression. simpl. rewrite <- Hs.
    apply operator_of_sound in Eo as [[<- ->]|[-> ->]]; done.
  - split; simpl; [|done|done]. intros ->. done.
Qed.

Lemma print_variables_comma vs : Forall variable_ok vs → Forall (λ s, 44 ∉ s) (print_variable <$> vs).
Proof.
  intros Hf. apply Forall_fmap. eapply Forall_impl; [exact Hf|]. intros v Hv%print_variable_bytes Hin.
  rewrite Forall_forall in Hv. by specialize (Hv _ Hin).
Qed.

Lemma parse_expression_complete off e : expression_ok e → parse_expression (print_expression e) off = Ok e.
Proof.
  destruct e as [o vs]. intros [Hne Hf Hl]. simpl in *. unfold print_expression. simpl.
  destruct vs as [|v vs]; [done|]. assert (Hv : variable_ok v) by (by inversion Hf).
  destruct (name_ok_head (name v)) as (b & r & Hn & Hb); [apply Hv|].
  destruct (join_head 44 (print_variable v) (print_variable <$> vs) b (r ++ print_modifier (modifier v))) as [r' Hj].
  { unfold print_variable. by rewrite Hn. }
  assert (Hvars : ∀ off, (if bool_decide (join 44 (print_variable <$> v :: vs) = []) then Err (EmptyExpression off)
    else let? vs := parse_variables (split 44 (join 44 (print_variable <$> v :: vs))) off [] in
         Ok {| operator := o; variables := vs |}) = Ok {| operator := o; variables := v :: vs |}).
  { intros off'. rewrite fmap_cons, bool_decide_false by (by rewrite Hj).
    rewrite split_join; [|done|by apply (print_variables_comma (v :: vs))].
    change (print_variable v :: (print_variable <$> vs)) with (print_variable <$> v :: vs).
    by rewrite parse_variables_complete. }
  destruct o; cbn [print_operator app parse_expression]; try (by cbn [operator_of Z.eqb Pos.eqb obind drop]; apply Hvars).
  rewrite fmap_cons in *. rewrite Hj. cbn [parse_expression]. rewrite operator_of_name by done. cbn [obind drop].
  rewrite <- Hj. apply Hvars.
Qed.

(** No brace in an expression. *)
Lemma print_expression_braces e b : expression_ok e → b = 123 ∨ b = 125 → b ∉ print_expression e.
Proof.
  intros [_ Hf _] Hb. unfold print_expression. rewrite elem_of_app. intros [Hin|Hin].
  - destruct (operator e); simpl in Hin; rewrite ?elem_of_nil, ?list_elem_of_singleton in Hin; lia.
  - assert (Hj : Forall (λ c, is_variable_byte c || (c =? 44) = true) (join 44 (print_variable <$> variables e))).
    { apply join_Forall; [done|]. apply Forall_fmap. eapply Forall_impl; [exact Hf|]. intros v Hv%print_variable_bytes.
      eapply Forall_impl; [exact Hv|]. intros c Hc. simpl in Hc. by rewrite Hc. }
    rewrite Forall_forall in Hj. specialize (Hj _ Hin). by destruct Hb as [-> | ->].
Qed.

(** * Literals *)

Lemma literal_byte_range b : is_valid_literal_byte b = true → 33 <= b <= 126 ∧ b ≠ 37 ∧ b ≠ 123 ∧ b ≠ 125.
Proof. unfold is_valid_literal_byte. rewrite !orb_true_iff, !andb_true_iff, !Z.eqb_eq, !Z.leb_le. lia. Qed.

Lemma literal_sound n : ∀ l i, (length l ≤ n)%nat → invalid_literal_offset l i = None → literal_text l.
Proof.
  induction n as [|n IH]; intros [|b r] i Hn Hi; [apply literal_nil|simpl in Hn; lia|apply literal_nil|].
  cbn [invalid_literal_offset] in Hi. simpl in Hn. destruct (b <? 128) eqn:Eb; zbool.
  - destruct (Z.eqb_spec b 37) as [->|Hb].
    + destruct r as [|h [|l r]]; try done. destruct (_ && _) eqn:Eh; [|done]. zbool.
      apply literal_triplet; [done..|]. simpl in Hn. by apply (IH r (i + 3)); [lia|].
    + destruct (is_valid_literal_byte b) eqn:Ev; [|done]. pose proof (literal_byte_range b Ev).
      apply literal_byte; [lia|done|]. by apply (IH r (i + 1)); [lia|].
  - destruct (decode_utf8 (b :: r)) as [[c w]|] eqn:Ed; [|done].
    destruct (is_valid_literal_character c) eqn:Ec; [|done].
    apply decode_utf8_sound in Ed as (Hc & -> & rest & Hr).
    assert (Hc128 : 128 <= c).
    { pose proof (encode_utf8_head c b rest r Hc (eq_sym Hr)) as Hh. case_if_in Hh; zbool; lia. }
    rewrite Hr. apply literal_char; [done..|].
    assert (Hrest : rest = drop (len_utf8 c) (b :: r)) by (by rewrite Hr, drop_encode_utf8).
    destruct (len_utf8 c) as [|[|[|[|[|w]]]]]; try done; destruct r as [|? [|? [|? r]]]; try done; simpl in Hrest, Hn;
      rewrite ?drop_0 in Hrest; subst rest; (eapply IH; [|exact Hi]); simpl; lia.
Qed.

Lemma literal_complete l : literal_text l → ∀ i, invalid_literal_offset l i = None.
Proof.
  induction 1 as [|h l r Hh Hl Hr IH|b r Hb Hv Hr IH|c r Hc Hc128 Hv Hr IH]; intros i.
  - done.
  - cbn [invalid_literal_offset]. simpl. rewrite Hh, Hl. apply IH.
  - cbn [invalid_literal_offset]. rewrite (proj2 (Z.ltb_lt _ _)) by lia. pose proof (literal_byte_range b Hv).
    rewrite (proj2 (Z.eqb_neq _ _)) by lia. rewrite Hv. apply IH.
  - pose proof (decode_encode_utf8 c r Hc) as Hd. pose proof (len_encode_utf8 c) as Hlen.
    assert (Hw : (2 ≤ len_utf8 c ≤ 4)%nat).
    { unfold len_utf8. rewrite (proj2 (Z.ltb_ge _ _)) by lia. repeat case_match; lia. }
    destruct (encode_utf8 c) as [|b bs] eqn:Ee; [simpl in Hlen; lia|].
    assert (Hb : 128 <= b).
    { pose proof (encode_utf8_head c b r (bs ++ r) Hc ltac:(by rewrite Ee)) as Hh. case_if_in Hh; zbool; [|lia].
      destruct Hh as (-> & _). lia. }
    cbn [app invalid_literal_offset] in *. rewrite (proj2 (Z.ltb_ge _ _)) by lia. rewrite Hd, Hv.
    destruct (len_utf8 c) as [|[|[|[|[|w]]]]]; try lia; destruct bs as [|? [|? [|? [|? bs]]]]; try done; apply IH.
Qed.

Lemma literal_text_braces l b : literal_text l → b = 123 ∨ b = 125 → b ∉ l.
Proof.
  intros Hl Hb. induction Hl as [|h l r Hh Hl Hr IH|c r Hc Hv Hr IH|c r Hc Hc128 Hv Hr IH].
  - apply not_elem_of_nil.
  - apply hexdigit_alphanumeric in Hh, Hl. rewrite !not_elem_of_cons.
    split_and!; [lia|intros ->; by destruct Hb as [-> | ->]..|done].
  - pose proof (literal_byte_range c Hv). rewrite not_elem_of_cons. split; [lia|done].
  - rewrite not_elem_of_app. split; [|done]. rewrite is_scalar_iff in Hc. unfold encode_utf8.
    rewrite (proj2 (Z.ltb_ge _ _)) by lia.
    repeat case_goal_if; rewrite !not_elem_of_cons; split_and!; try apply not_elem_of_nil; dlia.
Qed.

Lemma push_literal_iff ps l off ps' :
  zlen ps <= MAX_URI_TEMPLATE_PARTS →
  push_literal ps l off = Ok ps' ↔
  ∃ new, ps' = ps ++ new ∧ new = (if decide (l = []) then [] else [Literal l]) ∧ literal_text l ∧
    zlen ps' <= MAX_URI_TEMPLATE_PARTS.
Proof.
  intros Hn. unfold push_literal, push_part. destruct (decide (l = [])) as [->|Hl].
  { rewrite bool_decide_true by done. split.
    - intros [= <-]. exists []. rewrite app_nil_r. split_and!; [done..|constructor|done].
    - intros (? & -> & -> & _). by rewrite app_nil_r. }
  rewrite bool_decide_false by done. destruct (invalid_literal_offset l 0) as [o|] eqn:Ei.
  { split; [done|]. intros (_ & _ & _ & Ht & _). rewrite literal_complete in Ei; done. }
  apply (literal_sound (length l)) in Ei; [|done]. destruct (_ =? _) eqn:En; zbool.
  - split; [done|]. intros (? & -> & -> & _ & Hlen). rewrite zlen_app in Hlen. change (zlen [Literal l]) with 1 in Hlen. lia.
  - split.
    + intros [= <-]. eexists. split_and!; [done..|]. rewrite zlen_app. change (zlen [Literal l]) with 1. lia.
    + by intros (? & -> & -> & _).
Qed.

(** * The loop *)

Lemma lookup_drop_cons (src : list Z) i b : src !! i = Some b → drop i src = b :: drop (S i) src.
Proof. intros Hb. by apply drop_S. Qed.

(** The pending literal, and what follows it. *)
Lemma slice_split (src : list Z) ls i : (ls ≤ i)%nat → drop ls src = take (i - ls) (drop ls src) ++ drop i src.
Proof.
  intros Hle. rewrite <- (take_drop (i - ls) (drop ls src)) at 1. f_equal. rewrite drop_drop. f_equal. lia.
Qed.

Lemma maximal_app_expression l e new :
  maximal new → maximal ((if decide (l = []) then [] else [Literal l]) ++ Expression e :: new).
Proof. intros Hm. destruct (decide (l = [])); simpl; by destruct new. Qed.

Lemma print_app a b : print (a ++ b) = print a ++ print b.
Proof. unfold print. apply bind_app. Qed.

Lemma print_literal l : print (if decide (l = []) then [] else [Literal l]) = l.
Proof. destruct (decide (l = [])) as [->|]; [done|]. unfold print. simpl. by rewrite app_nil_r. Qed.

Lemma expression_count_app a b : expression_count (a ++ b) = expression_count a + expression_count b.
Proof. unfold expression_count. by rewrite filter_app, zlen_app. Qed.

Lemma expression_count_literal l : expression_count (if decide (l = []) then [] else [Literal l]) = 0.
Proof. by destruct (decide (l = [])). Qed.

Lemma literal_part_ok l : literal_text l → Forall part_ok (if decide (l = []) then [] else [Literal l]).
Proof. intros Hl. destruct (decide (l = [])); [constructor|]. by repeat constructor. Qed.

Lemma parse_loop_sound fuel : ∀ src index ls ex ps ps',
  (ls ≤ index)%nat → zlen ps <= MAX_URI_TEMPLATE_PARTS → ex <= MAX_URI_TEMPLATE_EXPRESSIONS →
  parse_loop fuel src index ls ex ps = Ok ps' →
  ∃ new, ps' = ps ++ new ∧ print new = drop ls src ∧ Forall part_ok new ∧ maximal new ∧
    zlen ps' <= MAX_URI_TEMPLATE_PARTS ∧ ex + expression_count new <= MAX_URI_TEMPLATE_EXPRESSIONS.
Proof.
  induction fuel as [|fuel IH]; intros src index ls ex ps ps' Hle Hn Hex Hp; cbn [parse_loop] in Hp;
    destruct (src !! index) as [b|] eqn:Eb; try done.
  1,3: apply push_literal_iff in Hp as (new & -> & -> & Ht & Hlen); [|done];
    eexists; split_and!; [done|apply print_literal|by apply literal_part_ok
      |by destruct (decide (drop ls src = []))|done|rewrite expression_count_literal; lia].
  destruct (Z.eqb_spec b 123) as [->|Hb].
  2:{ destruct (b =? 125); [done|]. eapply IH; [|done..]. lia. }
  set (l := take (index - ls) (drop ls src)) in *.
  destruct (push_literal ps l _) as [ps1| | |] eqn:El; [|done..]. cbn [obind] in Hp.
  apply push_literal_iff in El as (new1 & -> & -> & Ht & Hlen1); [|done].
  destruct (position 125 (drop (S index) src)) as [k|] eqn:Ek; [|done].
  apply position_found in Ek as (r & Hr & Hk & Hkl). set (inner := take k (drop (S index) src)) in *.
  destruct (position 123 inner); [done|]. case_if_in Hp; [done|]. zbool.
  destruct (parse_expression inner _) as [e| | |] eqn:Ee; [|done..]. cbn [obind] in Hp.
  apply parse_expression_sound in Ee as [He Hok]. unfold push_part in Hp. case_if_in Hp; [done|]. zbool.
  cbn [obind] in Hp. apply IH in Hp as (new & -> & Hpr & Hf & Hm & Hlen & Hcnt); [|lia| |lia].
  2:{ rewrite (zlen_app (ps ++ _)). change (zlen [Expression e]) with 1. lia. }
  exists ((if decide (l = []) then [] else [Literal l]) ++ Expression e :: new). split_and!.
  - by rewrite <- !app_assoc.
  - rewrite (slice_split src ls index Hle), print_app, print_literal. fold l. f_equal.
    rewrite (lookup_drop_cons _ _ _ Eb). change (print (Expression e :: new)) with (print_part (Expression e) ++ print new).
    rewrite Hr. simpl. rewrite He, <- app_assoc. do 2 f_equal. simpl. rewrite Hpr. f_equal.
    assert (Hd : drop (S index + k) src = 125 :: r).
    { rewrite <- drop_drop. apply (app_inv_head inner). unfold inner at 1. by rewrite take_drop. }
    rewrite <- Nat.add_1_r, <- drop_drop. by rewrite Hd.
  - apply Forall_app. split; [by apply literal_part_ok|by constructor].
  - by apply maximal_app_expression.
  - by rewrite <- !app_assoc in Hlen |- *.
  - rewrite expression_count_app, expression_count_literal. unfold expression_count in *. rewrite filter_cons_True by done.
    rewrite zlen_cons. lia.
Qed.

(** Bytes that are no braces only move the cursor. *)
Lemma parse_loop_skip l : ∀ fuel src index ls ex ps rest,
  drop index src = l ++ rest → 123 ∉ l → 125 ∉ l →
  parse_loop (length l + fuel) src index ls ex ps = parse_loop fuel src (index + length l) ls ex ps.
Proof.
  induction l as [|b l IH]; intros fuel src index ls ex ps rest Hd H1 H2; [simpl; by rewrite Nat.add_0_r|].
  apply not_elem_of_cons in H1 as [Hb1 H1]. apply not_elem_of_cons in H2 as [Hb2 H2].
  assert (Hi : src !! index = Some b) by (rewrite <- (Nat.add_0_r index), <- lookup_drop, Hd; done).
  cbn [length Nat.add parse_loop]. rewrite Hi.
  rewrite (proj2 (Z.eqb_neq _ _)), (proj2 (Z.eqb_neq _ _)) by done. rewrite (IH fuel src (S index) ls ex ps rest), Nat.add_succ_r; [done| |done..].
  rewrite (lookup_drop_cons _ _ _ Hi) in Hd. by injection Hd.
Qed.

(** A literal and the expression after it are read as such. *)
Lemma parse_loop_expression fuel src ls ex ps l e rest :
  drop ls src = l ++ 123 :: print_expression e ++ 125 :: rest → literal_text l → expression_ok e →
  ex < MAX_URI_TEMPLATE_EXPRESSIONS →
  zlen (ps ++ (if decide (l = []) then [] else [Literal l]) ++ [Expression e]) <= MAX_URI_TEMPLATE_PARTS →
  let next := (ls + length l + length (print_expression e) + 2)%nat in
  drop next src = rest ∧
  parse_loop (S fuel) src (ls + length l) ls ex ps =
  parse_loop fuel src next next (ex + 1) (ps ++ (if decide (l = []) then [] else [Literal l]) ++ [Expression e]).
Proof.
  intros Hd Ht He Hex Hlen next. set (lp := if decide (l = []) then [] else [Literal l]) in *.
  assert (Hi : drop (ls + length l) src = 123 :: print_expression e ++ 125 :: rest)
    by (by rewrite <- drop_drop, Hd, drop_app_length).
  assert (Hl : src !! (ls + length l)%nat = Some 123) by (rewrite <- (Nat.add_0_r (ls + length l)), <- lookup_drop, Hi; done).
  assert (Hs : drop (S (ls + length l)) src = print_expression e ++ 125 :: rest).
  { rewrite (lookup_drop_cons _ _ _ Hl) in Hi. by injection Hi. }
  assert (Hnext : drop (S (S (ls + length l) + length (print_expression e))) src = rest).
  { rewrite <- Nat.add_1_r, <- drop_drop, <- drop_drop, Hs, drop_app_length. done. }
  replace (S (S (ls + length l) + length (print_expression e))) with next in Hnext by (unfold next; lia).
  split; [done|]. cbn [parse_loop]. rewrite Hl. simpl Z.eqb. cbn match.
  replace (take (ls + length l - ls) (drop ls src)) with l
    by (replace (ls + length l - ls)%nat with (length l) by lia; by rewrite Hd, take_app_length).
  rewrite zlen_app, zlen_app in Hlen. change (zlen [Expression e]) with 1 in Hlen. pose proof (zlen_nonneg lp).
  rewrite (proj2 (push_literal_iff ps l _ (ps ++ lp) ltac:(lia))).
  2:{ exists lp. split_and!; [done..|]. rewrite zlen_app. lia. }
  cbn [obind]. rewrite Hs. rewrite position_app by (apply print_expression_braces; auto).
  rewrite take_app_length. rewrite (proj2 (position_absent 123 _)) by (apply print_expression_braces; auto).
  rewrite (proj2 (Z.eqb_neq _ _)) by lia. rewrite parse_expression_complete by done. cbn [obind].
  unfold push_part. rewrite zlen_app. rewrite (proj2 (Z.eqb_neq _ _)) by lia. cbn [obind]. rewrite <- app_assoc.
  by replace (S (S (ls + length l) + length (print_expression e))) with next by (unfold next; lia).
Qed.

Lemma parts_cases new :
  Forall part_ok new → maximal new →
  ∃ l, literal_text l ∧
    (new = (if decide (l = []) then [] else [Literal l]) ∨
     ∃ e new', new = (if decide (l = []) then [] else [Literal l]) ++ Expression e :: new' ∧
       expression_ok e ∧ Forall part_ok new' ∧ maximal new').
Proof.
  intros Hf Hm. destruct new as [|[l|e] new].
  - exists []. split; [constructor|by left].
  - apply Forall_cons in Hf as [[Hne Hl] Hf]. destruct Hm as [Hm1 Hm]. exists l. split; [done|].
    rewrite decide_False by done. destruct new as [|[l'|e] new]; [by left|done|right].
    apply Forall_cons in Hf as [He Hf]. exists e, new. split_and!; try done. apply Hm.
  - apply Forall_cons in Hf as [He Hf]. exists []. split; [constructor|right]. exists e, new. split_and!; try done. apply Hm.
Qed.

Lemma parse_loop_complete n : ∀ new fuel src ls ex ps,
  (length new ≤ n)%nat → (length (drop ls src) ≤ fuel)%nat → drop ls src = print new →
  Forall part_ok new → maximal new → zlen (ps ++ new) <= MAX_URI_TEMPLATE_PARTS →
  ex + expression_count new <= MAX_URI_TEMPLATE_EXPRESSIONS →
  parse_loop fuel src ls ls ex ps = Ok (ps ++ new).
Proof.
  induction n as [|n IH]; intros new fuel src ls ex ps Hn Hfuel Hd Hf Hm Hlen Hcnt;
    destruct (parts_cases new Hf Hm) as (l & Hl & [Hnew|(e & new' & Hnew & He & Hf' & Hm')]).
  1,3: assert (Hdl : drop ls src = l ++ []) by (by rewrite Hd, Hnew, print_literal, app_nil_r);
    rewrite Hdl, length_app in Hfuel; simpl in Hfuel;
    replace fuel with (length l + (fuel - length l))%nat by lia;
    rewrite (parse_loop_skip l _ _ _ _ _ _ [] Hdl) by (apply literal_text_braces; auto);
    assert (Hend : src !! (ls + length l)%nat = None) by (rewrite <- lookup_drop, Hdl, app_nil_r; by apply lookup_ge_None_2);
    assert (Hpush : push_literal ps l (Z.of_nat ls) = Ok (ps ++ new))
      by (apply push_literal_iff; [rewrite zlen_app in Hlen; pose proof (zlen_nonneg new); lia|by exists new]);
    destruct (fuel - length l)%nat; cbn [parse_loop]; rewrite Hend, Hdl, app_nil_r; exact Hpush.
  { rewrite Hnew, length_app in Hn. simpl in Hn. lia. }
  set (lp := if decide (l = []) then [] else [Literal l]) in *.
  assert (Hdl : drop ls src = l ++ 123 :: print_expression e ++ 125 :: print new').
  { rewrite Hd, Hnew, print_app. unfold lp. rewrite print_literal. f_equal.
    change (print (Expression e :: new')) with (print_part (Expression e) ++ print new'). simpl. by rewrite <- app_assoc. }
  rewrite Hdl, length_app in Hfuel. simpl in Hfuel. rewrite length_app in Hfuel. simpl in Hfuel.
  assert (Hcount : expression_count new = 1 + expression_count new').
  { rewrite Hnew, expression_count_app. unfold lp. rewrite expression_count_literal. unfold expression_count.
    rewrite filter_cons_True by done. rewrite zlen_cons. lia. }
  pose proof (zlen_nonneg (filter (λ p, is_expression p = true) new')) as Hnn. fold (expression_count new') in Hnn.
  assert (Heq : ps ++ new = (ps ++ lp ++ [Expression e]) ++ new') by (rewrite Hnew, <- !app_assoc; done).
  rewrite Heq in Hlen |- *.
  destruct (parse_loop_expression (fuel - length l - 1) src ls ex ps l e (print new')) as [Hrest Hstep]; try done; [lia| |].
  { fold lp. rewrite zlen_app in Hlen. pose proof (zlen_nonneg new'). lia. }
  replace fuel with (length l + S (fuel - length l - 1))%nat by lia.
  rewrite (parse_loop_skip l _ _ _ _ _ _ _ Hdl) by (apply literal_text_braces; auto).
  rewrite Hstep. fold lp. apply IH; try done; [|rewrite Hrest; lia|lia].
  rewrite Hnew, length_app in Hn. simpl in Hn. lia.
Qed.

(** * Termination *)

Lemma parse_variable_settled s off : settled (parse_variable s off).
Proof.
  unfold parse_variable. case_goal_if; [done|]. apply settled_obind; [by repeat case_match|].
  intros [n m] _. by repeat case_goal_if.
Qed.

Lemma parse_variables_settled ss : ∀ off vs, settled (parse_variables ss off vs).
Proof.
  induction ss as [|s ss IH]; intros off vs; simpl; [done|]. case_goal_if; [done|].
  apply settled_obind; [apply parse_variable_settled|auto].
Qed.

Lemma parse_expression_settled s off : settled (parse_expression s off).
Proof.
  destruct s as [|b s]; [done|]. cbn [parse_expression]. apply settled_obind; [unfold operator_of; by repeat case_goal_if|].
  intros [o n] _. case_goal_if; [done|]. apply settled_obind; [apply parse_variables_settled|done].
Qed.

Lemma push_literal_settled ps l off : settled (push_literal ps l off).
Proof. unfold push_literal, push_part. by repeat case_match. Qed.

Lemma parse_loop_settled fuel : ∀ src index ls ex ps,
  (length src ≤ index + fuel)%nat → settled (parse_loop fuel src index ls ex ps).
Proof.
  induction fuel as [|fuel IH]; intros src index ls ex ps Hf; cbn [parse_loop]; destruct (src !! index) as [b|] eqn:Eb;
    try apply push_literal_settled.
  { apply lookup_lt_Some in Eb. lia. }
  case_goal_if.
  - apply settled_obind; [apply push_literal_settled|]. intros ps1 _. destruct (position 125 _); [|done].
    destruct (position 123 _); [done|]. case_goal_if; [done|]. apply settled_obind; [apply parse_expression_settled|].
    intros e _. apply settled_obind; [unfold push_part; by case_goal_if|]. intros ps2 _. apply IH. lia.
  - case_goal_if; [done|]. apply IH. lia.
Qed.

(** C30: parsing ends and never panics, and a text parses exactly when it is within
    the byte limit and is the printed form of parts that keep to the grammar of
    RFC 6570 and to the limits on parts, expressions, variables and names; the
    parts are those, so parsing inverts printing. *)
Theorem parse_exact src t :
  settled (parse src) ∧
  (parse src = Ok t ↔
   zlen src <= MAX_URI_TEMPLATE_BYTES ∧ source t = src ∧ print (parts t) = src ∧ parts_ok (parts t)).
Proof.
  unfold parse. destruct (_ <? zlen src) eqn:El; zbool.
  { split; [done|]. split; [done|]. intros [? _]. lia. }
  split.
  - apply settled_obind; [apply parse_loop_settled; lia|done].
  - split.
    + destruct (parse_loop _ _ _ _ _ _) as [ps| | |] eqn:Ep; [|done..]. cbn [obind]. intros [= <-]. simpl.
      apply parse_loop_sound in Ep as (new & -> & Hpr & Hf & Hm & Hn & Hc); [|lia|done|done]. by split_and!.
    + intros (_ & Hs & Hp & [Hf Hm Hn Hc]). rewrite (parse_loop_complete (length (parts t)) (parts t)); try done.
      cbn [obind]. destruct t as [s ps]. simpl in *. by rewrite Hs.
Qed.
End TemplateParse.
