(* ===== verification/UriTemplateExpand.v ===== *)
(** Expansion of URI templates against RFC 6570: the expansion of the RFC (module
    [Rfc6570]), written apart from the code; what the bounded, stateful expansion
    writes and when it succeeds; that its output is made of URI characters; and
    that it is the expansion of the RFC, but for two points on exploded pairs. *)
From stdpp Require Import base list gmap strings.
From Stdlib Require Import ZArith Lia.
From S2P Require Import Prelude Utf8 JsonGrammar RawJson UriTemplate UriTemplateParse.

(** * The reference: RFC 6570, section 3 and appendix A

    Written from the RFC over the data types only.  Where the code departs from
    appendix A, [strict] says which of the two is described. *)
Module Rfc6570.
Import Template TemplateParse.

(** ** Characters: section 1.5 *)

Definition alpha (b : Z) : bool := (65 <=? b) && (b <=? 90) || (97 <=? b) && (b <=? 122).
Definition digit (b : Z) : bool := (48 <=? b) && (b <=? 57).
Definition hexdig (b : Z) : bool := digit b || (65 <=? b) && (b <=? 70) || (97 <=? b) && (b <=? 102).
Definition unreserved (b : Z) : bool := alpha b || digit b || bool_decide (b ∈ chars_of "-._~").
Definition gen_delims : list Z := chars_of ":/?#[]@".
Definition sub_delims : list Z := chars_of "!$&'()*+,;=".
Definition reserved (b : Z) : bool := bool_decide (b ∈ gen_delims ++ sub_delims).
Definition pct_encoded (p h l : Z) : bool := (p =? 37) && hexdig h && hexdig l.

(** ** Encoding: sections 3.1 and 3.2.1

    [U] writes every character that is not unreserved as triplets; [U+R], which is
    also the encoding of literals, keeps reserved characters and triplets. *)
Definition hex_upper (n : Z) : Z := if n <? 10 then 48 + n else 65 + (n - 10).
Fixpoint escape (keep : bool) (s : list Z) : list Z :=
  match s with
  | [] => []
  | b :: r =>
      let next := (if unreserved b || keep && reserved b then [b] else [37; hex_upper (b / 16); hex_upper (b mod 16)]) ++
                  escape keep r in
      match r with
      | h :: l :: r' => if keep && pct_encoded b h l then b :: h :: l :: escape keep r' else next
      | _ => next
      end
  end.

(** ** Operators: the table of appendix A, by row *)

Definition first_of (o : UriTemplateOperator) : list Z :=
  chars_of match o with
           | Simple | Reserved => "" | Label => "." | Path => "/" | PathParameter => ";"
           | Query => "?" | QueryContinuation => "&" | Fragment => "#"
           end.
Definition sep_of (o : UriTemplateOperator) : list Z :=
  chars_of match o with
           | Simple | Reserved | Fragment => "," | Label => "." | Path => "/" | PathParameter => ";"
           | Query | QueryContinuation => "&"
           end.
Definition is_named (o : UriTemplateOperator) : bool :=
  match o with PathParameter | Query | QueryContinuation => true | _ => false end.
Definition ifemp_of (o : UriTemplateOperator) : list Z :=
  match o with Query | QueryContinuation => chars_of "=" | _ => [] end.
Definition keeps_reserved (o : UriTemplateOperator) : bool :=
  match o with Reserved | Fragment => true | _ => false end.

(** ** Prefixes: section 2.4.1

    The length counts characters.  A character is written as itself or, octet by
    octet, as triplets, which are not split; a triplet that is no character of its
    own and begins none counts as one. *)
Definition digit_value (b : Z) : Z := if digit b then b - 48 else if b <=? 70 then b - 65 + 10 else b - 97 + 10.
Fixpoint leading_octets (s : list Z) : list Z :=
  match s with
  | p :: h :: l :: r => if pct_encoded p h l then 16 * digit_value h + digit_value l :: leading_octets r else []
  | _ => []
  end.
Definition width (s : list Z) : nat := match decode_utf8 s with Some (_, n) => n | None => 0 end.
Definition character_length (s : list Z) : nat :=
  match leading_octets s with [] => width s | octets => 3 * Nat.max 1 (width octets) end.
Fixpoint characters (n : nat) (s : list Z) : list Z :=
  match n with
  | O => []
  | S n => take (character_length s) s ++ characters n (drop (character_length s) s)
  end.

(** ** Values: sections 2.3 and 3.2.1 *)

(** Members without a value are ignored. *)
Definition present (vs : list (option (list Z))) : list (list Z) := omap id vs.
Definition present_pairs (kvs : list (list Z * option (list Z))) : list (list Z * list Z) :=
  omap (λ kv, (λ v, (kv.1, v)) <$> kv.2) kvs.

Section expansion.
Context (strict : bool) (o : UriTemplateOperator).

Definition value_text (s : list Z) : list Z := escape (keeps_reserved o) s.
Definition assignment (n s : list Z) : list Z :=
  n ++ if bool_decide (s = []) then ifemp_of o else chars_of "=" ++ value_text s.
Definition member (n s : list Z) : list Z :=
  if is_named o then assignment (escape true n) s else value_text s.

(** A pair of an exploded value.  Appendix A writes the name in a named expansion
    as a literal, and [name=value] in another one also when the value is empty; the
    code encodes the name as a value, and drops the equals sign. *)
Definition pair_text (k s : list Z) : list Z :=
  if is_named o then assignment (if strict then escape true k else value_text k) s
  else value_text k ++ if negb strict && bool_decide (s = []) then [] else chars_of "=" ++ value_text s.

Definition compact (n : list Z) (ms : list (list Z)) : list Z :=
  (if is_named o then escape true n ++ chars_of "=" else []) ++ join 44 ms.

(** What a variable with a value contributes, to stand between separators. *)
Definition contribution (v : UriTemplateVariable) (value : TemplateValue) : list (list Z) :=
  match value with
  | Scalar s => [member (name v) (match modifier v with Some (Prefix n) => characters (Z.to_nat n) s | _ => s end)]
  | List vs =>
      match present vs, modifier v with
      | [], _ => []
      | ss, Some Explode => member (name v) <$> ss
      | ss, _ => [compact (name v) (value_text <$> ss)]
      end
  | Associative kvs =>
      match present_pairs kvs, modifier v with
      | [], _ => []
      | kss, Some Explode => (λ ks, pair_text ks.1 ks.2) <$> kss
      | kss, _ => [compact (name v) (kss ≫= (λ ks, [value_text ks.1; value_text ks.2]))]
      end
  end.

Definition between (its : list (list Z)) : list Z :=
  match its with [] => [] | i :: its => first_of o ++ i ++ (its ≫= (λ i, sep_of o ++ i)) end.
End expansion.

Definition expand (strict : bool) (values : TemplateValues) (ps : list UriTemplatePart) : list Z :=
  ps ≫= λ pt, match pt with
              | Literal l => escape true l
              | Expression e =>
                  between (operator e)
                    (variables e ≫= (λ v, match values !! name v with
                                          | Some value => contribution strict (operator e) v value
                                          | None => []
                                          end))
              end.

(** Exploded pairs on which the code and appendix A agree: names without reserved
    characters and percent signs in named expansions, values that are not empty in
    others. *)
Definition pair_conforms (o : UriTemplateOperator) (ks : list Z * list Z) : Prop :=
  if is_named o then Forall (λ b, reserved b = false ∧ b ≠ 37) ks.1 else ks.2 ≠ [].
Definition conforming (values : TemplateValues) (ps : list UriTemplatePart) : Prop :=
  ∀ e v kvs, Expression e ∈ ps → v ∈ variables e → modifier v = Some Explode →
    values !! name v = Some (Associative kvs) → Forall (pair_conforms (operator e)) (present_pairs kvs).

(** ** Facts *)

Lemma escape_plain s : Forall (λ b, reserved b = false ∧ b ≠ 37) s → escape true s = escape false s.
Proof.
  induction 1 as [|b s [Hb Hp] Hs IH]; [done|]. cbn [escape]. rewrite Hb, IH. cbn [andb].
  destruct s as [|h [|l s]]; [done..|]. unfold pct_encoded. by rewrite (proj2 (Z.eqb_neq b 37) Hp).
Qed.

Lemma bind_ext_elem {A B} (f g : A → list B) l : (∀ a, a ∈ l → f a = g a) → l ≫= f = l ≫= g.
Proof.
  induction l as [|a l IH]; intros H; [done|]. rewrite !bind_cons, (H a) by (by left). f_equal. apply IH. intros b Hb.
  apply H. by right.
Qed.

Lemma fmap_ext_elem {A B} (f g : A → B) (l : list A) : (∀ a, a ∈ l → f a = g a) → f <$> l = g <$> l.
Proof. intros H. apply list_fmap_ext. intros i a Ha. by apply H, (list_elem_of_lookup_2 _ i). Qed.

Lemma pair_conforming o ks : pair_conforms o ks → pair_text false o ks.1 ks.2 = pair_text true o ks.1 ks.2.
Proof.
  destruct ks as [k s]. unfold pair_conforms, pair_text. cbn [fst snd]. destruct (is_named o) eqn:En.
  - intros Hk. unfold value_text. rewrite escape_plain by done. by destruct o.
  - intros Hs. cbn [negb andb]. by rewrite bool_decide_false.
Qed.

Lemma expand_conforming values ps : conforming values ps → expand false values ps = expand true values ps.
Proof.
  intros Hc. unfold expand. apply bind_ext_elem. intros [l|e] Hin; [done|]. f_equal.
  apply bind_ext_elem. intros v Hv. destruct (values !! name v) as [[s|vs|kvs]|] eqn:Ev; [done..| |done].
  specialize (Hc e v kvs Hin Hv). cbn [contribution].
  destruct (present_pairs kvs) as [|ks kss]; [done|]. destruct (modifier v) as [[n|]|]; [done| |done].
  specialize (Hc eq_refl Ev). apply fmap_ext_elem. intros a Ha. rewrite Forall_forall in Hc. by apply pair_conforming, Hc.
Qed.
End Rfc6570.

Module TemplateExpand.
Import Template TemplateParse.

(** * What the code writes *)

Definition triplet (b : Z) : list Z :=
  let digit n := if n <? 10 then 48 + n else 55 + n in [37; digit (b / 16); digit (b mod 16)].

(** Percent-encoding: allowed characters and, if asked, triplets stay. *)
Fixpoint pct_encode (reserved preserve : bool) (s : list Z) : list Z :=
  match s with
  | [] => []
  | b :: r =>
      let next := (if is_unreserved b || reserved && is_reserved b then [b] else triplet b) ++
                  pct_encode reserved preserve r in
      match r with
      | high :: low :: r' =>
          if preserve && is_triplet b high low then b :: high :: low :: pct_encode reserved preserve r' else next
      | _ => next
      end
  end.

Section items.
Context (p : OperatorProperties).

Definition encoded (s : list Z) : list Z := pct_encode (allow_reserved p) (allow_reserved p) s.

(** [name=value], or the value alone. *)
Definition named_item (n s : list Z) : list Z :=
  (if named p then pct_encode false true n ++ (if bool_decide (s = []) then if_empty p else chars_of "=") else []) ++
  encoded s.
Definition pair_item (key s : list Z) : list Z :=
  encoded key ++
  (if named p then if bool_decide (s = []) then if_empty p else chars_of "="
   else if negb (bool_decide (s = [])) || is_form_style p then chars_of "=" else []) ++
  encoded s.
Definition compact_item (n : list Z) (members : list (list Z)) : list Z :=
  (if named p then pct_encode false true n ++ chars_of "=" else []) ++ join 44 members.

(** The items a variable contributes. *)
Definition items (v : UriTemplateVariable) (value : TemplateValue) : list (list Z) :=
  match value with
  | Scalar s =>
      [named_item (name v) (match modifier v with
                            | Some (Prefix length) => take (prefix_end s (Z.to_nat length)) s
                            | _ => s
                            end)]
  | List vs =>
      match defined_items vs with
      | [] => []
      | ds => if bool_decide (modifier v = Some Explode) then named_item (name v) <$> ds
              else [compact_item (name v) (encoded <$> ds)]
      end
  | Associative kvs =>
      match defined_pairs kvs with
      | [] => []
      | ds => if bool_decide (modifier v = Some Explode) then (λ kv, pair_item kv.1 kv.2) <$> ds
              else [compact_item (name v) (ds ≫= (λ kv, [encoded kv.1; encoded kv.2]))]
      end
  end.

(** The items of an expression after its first string, between separators. *)
Definition assemble (its : list (list Z)) : list Z :=
  match its with [] => [] | i :: its => first p ++ i ++ (its ≫= (λ i, separator p ++ i)) end.
End items.

Definition expression_items (values : TemplateValues) (e : UriTemplateExpression) : list (list Z) :=
  variables e ≫= (λ v, match values !! name v with
                       | Some value => items (properties (operator e)) v value
                       | None => []
                       end).

Definition part_expansion (values : TemplateValues) (pt : UriTemplatePart) : list Z :=
  match pt with
  | Literal l => pct_encode true true l
  | Expression e => assemble (properties (operator e)) (expression_items values e)
  end.
Definition expansion (values : TemplateValues) (ps : list UriTemplatePart) : list Z := ps ≫= part_expansion values.

(** What is refused whatever the output's length. *)
Definition short (limits : UriTemplateExpansionLimits) (s : list Z) : Prop := zlen s <= max_value_bytes limits.
Definition no_prefix (v : UriTemplateVariable) : Prop := match modifier v with Some (Prefix _) => False | _ => True end.

Definition value_ok (limits : UriTemplateExpansionLimits) (v : UriTemplateVariable) (value : TemplateValue) : Prop :=
  match value with
  | Scalar s => short limits s
  | List vs => Forall (short limits) (defined_items vs) ∧ (defined_items vs ≠ [] → no_prefix v)
  | Associative kvs =>
      NoDup kvs.*1 ∧ Forall (short limits) kvs.*1 ∧ Forall (short limits) (defined_pairs kvs).*2 ∧
      (defined_pairs kvs ≠ [] → no_prefix v)
  end.

(** The composite members a variable adds to the count. *)
Definition members (value : TemplateValue) : Z :=
  match value with Scalar _ => 0 | List vs => zlen vs | Associative kvs => zlen kvs end.

(** The variables of a template that have a value, in order. *)
Definition bound_variables (values : TemplateValues) (ps : list UriTemplatePart) : list (UriTemplateVariable * TemplateValue) :=
  ps ≫= (λ pt, match pt with
               | Literal _ => []
               | Expression e => omap (λ v, (λ value, (v, value)) <$> values !! name v) (variables e)
               end).

(** * Strings are bytes *)

Definition bytes (s : list Z) : Prop := Forall is_byte s.
Definition value_bytes (value : TemplateValue) : Prop :=
  match value with
  | Scalar s => bytes s
  | List vs => Forall bytes (defined_items vs)
  | Associative kvs => Forall bytes kvs.*1 ∧ Forall bytes (defined_pairs kvs).*2
  end.
Definition part_bytes (pt : UriTemplatePart) : Prop :=
  match pt with Literal l => bytes l | Expression e => Forall (λ v, bytes (name v)) (variables e) end.

Record limits_ok (limits : UriTemplateExpansionLimits) : Prop := {
  ok_output : 0 < max_output_bytes limits <= MAX_URI_TEMPLATE_EXPANSION_OUTPUT_BYTES;
  ok_composite : 0 < max_composite_items limits <= MAX_URI_TEMPLATE_COMPOSITE_ITEMS;
  ok_value : 0 < max_value_bytes limits <= MAX_URI_TEMPLATE_VALUE_BYTES;
}.

(** * What a step of the expansion does

    [runs m ok f]: in a state within the limits, [m] ends in [f] of the state when
    [ok] holds of it and the new output is within the limit, and with an error
    otherwise. *)
Section runs.
Context (limits : UriTemplateExpansionLimits) (Hlimits : limits_ok limits).

Definition fits (x : Expansion) : Prop :=
  zlen (output x) <= max_output_bytes limits ∧ 0 <= composite_items x <= max_composite_items limits.

Definition runs (m : X unit) (ok : Expansion → Prop) (f : Expansion → Expansion) : Prop :=
  ∀ x, fits x →
  match m x with
  | (Ok _, x') => ok x ∧ fits (f x) ∧ x' = f x
  | (Err _, _) => ¬ (ok x ∧ fits (f x))
  | _ => False
  end.

(** Effects only add to the output and to the count. *)
Definition grows (f : Expansion → Expansion) : Prop :=
  ∀ x, zlen (output x) <= zlen (output (f x)) ∧ composite_items x <= composite_items (f x).

Lemma grows_id : grows id.
Proof. by intros x. Qed.

Lemma grows_comp f g : grows f → grows g → grows (g ∘ f).
Proof. intros Hf Hg x. destruct (Hf x), (Hg (f x)). simpl. lia. Qed.

Lemma runs_bind m k ok1 ok2 f g :
  runs m ok1 f → runs k ok2 g → grows f → grows g →
  runs (m ;! k) (λ x, ok1 x ∧ ok2 (f x)) (g ∘ f).
Proof.
  intros Hm Hk Hf Hg x Hx. specialize (Hm x Hx). unfold bind. destruct (m x) as [[a|e| |] x'] eqn:Em; try done.
  - destruct Hm as (Hok & Hfit & ->). specialize (Hk (f x) Hfit). destruct (k (f x)) as [[b|e| |] x'']; try done.
    + destruct Hk as (Hok2 & Hfit2 & ->). done.
    + intros [[_ ?] ?]. by apply Hk.
  - intros [[Hok _] Hfit]. apply Hm. split; [done|]. destruct (Hg (f x)), (Hf x).
    unfold fits, compose in *. lia.
Qed.

Lemma runs_iff m ok ok' f f' :
  runs m ok f → (∀ x, ok x ↔ ok' x) → (∀ x, f x = f' x) → runs m ok' f'.
Proof.
  intros Hm Hok Hf x Hx. specialize (Hm x Hx). rewrite <- !Hf.
  destruct (m x) as [[] ?]; try done; by rewrite <- Hok.
Qed.

Lemma runs_ret ok : (∀ x, ok x) → runs (ret tt) ok id.
Proof. intros Hok x Hx. by split_and!. Qed.

Definition any (_ : Expansion) : Prop := True.

Lemma grows_push s : grows (push_str s).
Proof. intros x. simpl. rewrite zlen_app. pose proof (zlen_nonneg s). lia. Qed.

Lemma push_app s1 s2 x : push_str s2 (push_str s1 x) = push_str (s1 ++ s2) x.
Proof. unfold push_str. simpl. by rewrite <- app_assoc. Qed.

Lemma push_str_nil x : push_str [] x = x.
Proof. destruct x. unfold push_str. simpl. by rewrite app_nil_r. Qed.

(** Appending, with the length counted as [n]. *)
Lemma runs_push s n :
  n = zlen s →
  runs (let! x := get in
        let actual := saturating_add (zlen (output x)) n in
        if max_output_bytes limits <? actual then fail (ExpansionTooLarge actual (max_output_bytes limits))
        else modify (push_str s)) any (push_str s).
Proof.
  intros -> x [Hx Hc]. unfold bind, get. cbn zeta. destruct Hlimits as [Ho _ _].
  pose proof (zlen_nonneg s). pose proof (zlen_nonneg (output x)).
  assert (Hsat : saturating_add (zlen (output x)) (zlen s) <= max_output_bytes limits ↔
                 zlen (output x ++ s) <= max_output_bytes limits).
  { rewrite zlen_app. unfold saturating_add, usize_max, MAX_URI_TEMPLATE_EXPANSION_OUTPUT_BYTES in *. lia. }
  destruct (_ <? _) eqn:E; zbool.
  - unfold fail. intros [_ [Hf _]]. simpl in Hf. apply Hsat in Hf. lia.
  - unfold modify. split_and!; [done| |done]. split; [|done]. simpl. by apply Hsat.
Qed.

Lemma runs_append_output s : runs (append_output limits s) any (push_str s).
Proof. by apply runs_push. Qed.

Lemma runs_append_byte b : runs (append_byte limits b) any (push_str [b]).
Proof. by apply (runs_push [b]). Qed.

Lemma hex_lookup n : 0 <= n < 16 → HEX !! Z.to_nat n = Some (if n <? 10 then 48 + n else 55 + n).
Proof.
  intros Hn. assert (n ∈ seqZ 0 16) as Hin by (apply elem_of_seqZ; lia).
  repeat (apply elem_of_cons in Hin as [->|Hin]; [done|]). by apply elem_of_nil in Hin.
Qed.

Lemma runs_append_triplet b : is_byte b → runs (append_percent_triplet limits b) any (push_str (triplet b)).
Proof.
  intros Hb. unfold append_percent_triplet.
  assert (Hh : Z.shiftr b 4 = b / 16) by (rewrite Z.shiftr_div_pow2 by lia; done).
  assert (Hl : Z.land b 15 = b mod 16) by (change 15 with (Z.ones 4); rewrite Z.land_ones by lia; done).
  rewrite Hh, Hl. unfold is_byte in Hb. rewrite !hex_lookup by dlia. by apply (runs_push (triplet b)).
Qed.

Lemma runs_push2 m k s1 s2 :
  runs m any (push_str s1) → runs k any (push_str s2) → runs (m ;! k) any (push_str (s1 ++ s2)).
Proof.
  intros Hm Hk. eapply runs_iff; [apply (runs_bind _ _ _ _ _ _ Hm Hk); apply grows_push|by split|].
  intros x. apply push_app.
Qed.

Lemma runs_skip : runs (ret tt) any (push_str []).
Proof. eapply runs_iff; [by apply (runs_ret any)|done|]. intros x. by rewrite push_str_nil. Qed.

Lemma runs_encoded n : ∀ s r pre, (length s ≤ n)%nat → bytes s →
  runs (append_percent_encoded limits s r pre) any (push_str (pct_encode r pre s)).
Proof.
  induction n as [|n IH]; intros [|b s] r pre Hn Hb; [apply runs_skip|simpl in Hn; lia|apply runs_skip|].
  simpl in Hn. apply Forall_cons in Hb as [Hb Hs]. cbn [append_percent_encoded pct_encode]. cbn zeta.
  assert (Hnext : runs ((if is_unreserved b || r && is_reserved b then append_byte limits b
      else append_percent_triplet limits b) ;! append_percent_encoded limits s r pre) any
    (push_str ((if is_unreserved b || r && is_reserved b then [b] else triplet b) ++ pct_encode r pre s))).
  { apply runs_push2; [|apply IH; [lia|done]].
    case_goal_if; [apply runs_append_byte|by apply runs_append_triplet]. }
  destruct s as [|h [|l s]]; [exact Hnext..|]. destruct (pre && is_triplet b h l); [|exact Hnext].
  apply (runs_push2 _ _ [b; h; l]); [apply runs_append_output|]. apply IH; [simpl in Hn; lia|].
  apply Forall_cons in Hs as [_ Hs]. by apply Forall_cons in Hs as [_ Hs].
Qed.

Lemma runs_literal l : bytes l → runs (append_encoded_literal limits l) any (push_str (pct_encode true true l)).
Proof. by apply (runs_encoded (length l)). Qed.

Lemma runs_name n : bytes n → runs (append_variable_name limits n) any (push_str (pct_encode false true n)).
Proof. by apply (runs_encoded (length n)). Qed.

Lemma runs_value p s : bytes s → runs (append_encoded_value limits s (allow_reserved p)) any (push_str (encoded p s)).
Proof. by apply (runs_encoded (length s)). Qed.

(** ** Items *)

(** An item is written after the first string or a separator. *)
Definition emit1 (p : OperatorProperties) (s : list Z) (x : Expansion) : Expansion :=
  set_wrote_value true (push_str ((if wrote_value x then separator p else first p) ++ s) x).
Definition emit (p : OperatorProperties) (its : list (list Z)) (x : Expansion) : Expansion :=
  foldl (λ x s, emit1 p s x) x its.

Lemma grows_emit1 p s : grows (emit1 p s).
Proof. intros x. simpl. rewrite zlen_app.  pose proof (zlen_nonneg ((if wrote_value x then separator p else first p) ++ s)). lia. Qed.

Lemma emit_app p a b x : emit p (a ++ b) x = emit p b (emit p a x).
Proof. apply foldl_app. Qed.

Lemma grows_emit p its : grows (emit p its).
Proof.
  induction its as [|s its IH]; [apply grows_id|]. intros x. destruct (grows_emit1 p s x), (IH (emit1 p s x)).
  cbn [emit foldl]. unfold emit in *. lia.
Qed.

Lemma runs_emit1 p m s : runs m any (push_str s) → runs (begin_value limits p ;! m) any (emit1 p s).
Proof.
  intros Hm. assert (Hbegin : runs (begin_value limits p) any
    (λ x, set_wrote_value true (push_str (if wrote_value x then separator p else first p) x))).
  { intros x Hx. unfold begin_value, bind at 1, get. pose proof (runs_append_output (if wrote_value x then separator p else first p) x Hx) as Ha.
    unfold bind. destruct (append_output _ _ x) as [[a|e| |] x']; try done. destruct Ha as (_ & Hf & ->). by split_and!. }
  eapply runs_iff; [eapply (runs_bind _ _ _ _ _ _ Hbegin Hm)|by split|].
  - intros x. simpl. rewrite zlen_app. 
    pose proof (zlen_nonneg (if wrote_value x then separator p else first p)). lia.
  - apply grows_push.
  - intros x. unfold emit1, compose, push_str, set_wrote_value. simpl. by rewrite <- app_assoc.
Qed.

Lemma runs_for_each {A} (f : A → X unit) (okf : A → Prop) (g : A → Expansion → Expansion) l :
  (∀ a, a ∈ l → runs (f a) (λ _, okf a) (g a)) → (∀ a, grows (g a)) →
  runs (for_each f l) (λ _, Forall okf l) (λ x, foldl (λ x a, g a x) x l).
Proof.
  intros Hf Hg. assert (Hgrow : ∀ l, grows (λ x, foldl (λ x a, g a x) x l)).
  { induction l0 as [|a l0 IHl]; [apply grows_id|]. apply (grows_comp (g a) _ (Hg a) IHl). }
  induction l as [|a l IH]; [apply runs_ret; constructor|].
  eapply runs_iff.
  - apply (runs_bind (f a) (for_each f l) (λ _, okf a) (λ _, Forall okf l) (g a) (λ x, foldl (λ x a, g a x) x l)).
    + apply Hf. by left.
    + apply IH. intros b Hb. apply Hf. by right.
    + apply Hg.
    + apply Hgrow.
  - intros x. by rewrite Forall_cons.
  - done.
Qed.

Lemma foldl_emit {A} p (g : A → list Z) l x : foldl (λ x a, emit1 p (g a) x) x l = emit p (g <$> l) x.
Proof. unfold emit. revert x. induction l as [|a l IH]; intros x; [done|]. apply IH. Qed.

(** ** Checks *)

(** A check in front: it refuses or leaves the state alone. *)
Lemma runs_after_check m k (P : Prop) ok f :
  runs m (λ _, P) id → runs k ok f → grows f → runs (m ;! k) (λ x, P ∧ ok x) f.
Proof. intros Hm Hk Hf. apply (runs_bind m k (λ _, P) ok id f Hm Hk grows_id Hf). Qed.

Lemma runs_check_value s : runs (check_value_bound limits s) (λ _, short limits s) id.
Proof.
  intros x Hx. unfold check_value_bound, short. destruct (_ <? _) eqn:E; zbool.
  - intros [? _]. lia.
  - by split_and!.
Qed.

Lemma foldl_id {A} (l : list A) (x : Expansion) : foldl (λ x _, id x) x l = x.
Proof. by induction l. Qed.

Lemma runs_check_values l : runs (for_each (check_value_bound limits) l) (λ _, Forall (short limits) l) id.
Proof.
  eapply runs_iff; [apply (runs_for_each _ (short limits) (λ _, id))|done|].
  - intros a _. apply runs_check_value.
  - intros _. apply grows_id.
  - intros x. apply foldl_id.
Qed.

Lemma runs_reject v : runs (reject_prefix_on_composite v) (λ _, no_prefix v) id.
Proof.
  intros x Hx. unfold reject_prefix_on_composite, no_prefix. destruct (modifier v) as [[l|]|]; [|by split_and!..].
  by intros [? _].
Qed.

Lemma runs_inspect n :
  0 <= n → runs (inspect_composite limits n) any (λ x, set_composite_items (composite_items x + n) x).
Proof.
  intros Hn x [Ho Hc]. unfold inspect_composite, bind, get. cbn zeta. destruct Hlimits as [_ Hm _].
  unfold saturating_add, MAX_URI_TEMPLATE_COMPOSITE_ITEMS, usize_max in *. destruct (_ <? _) eqn:E; zbool.
  - unfold fail. intros [_ [_ Hf]]. simpl in Hf. lia.
  - unfold modify. split_and!; [done| |]; [split; simpl; [done|lia]|]. f_equal. lia.
Qed.

Lemma runs_check_pairs kvs : ∀ seen,
  runs (check_pairs limits kvs seen)
    (λ _, (∀ k, k ∈ kvs.*1 → k ∉ seen) ∧ NoDup kvs.*1 ∧ Forall (short limits) kvs.*1 ∧
          Forall (short limits) (defined_pairs kvs).*2) id.
Proof.
  induction kvs as [|[k o] kvs IH]; intros seen; cbn [check_pairs].
  { apply runs_ret. intros x. split_and!; [|constructor..]. intros k Hk. by apply elem_of_nil in Hk. }
  rewrite fmap_cons. cbn [fst]. destruct (decide (k ∈ seen)) as [Hin|Hin].
  { rewrite bool_decide_true by done. intros x Hx [[Hs _] _]. by apply (Hs k); [left|]. }
  rewrite bool_decide_false by done.
  assert (Hval : runs (match o with Some v => check_value_bound limits v | None => ret tt end)
    (λ _, match o with Some v => short limits v | None => True end) id).
  { destruct o; [apply runs_check_value|by apply runs_ret]. }
  eapply runs_iff; [apply runs_after_check; [apply runs_check_value|apply runs_after_check; [exact Hval|apply IH|apply grows_id]|apply grows_id]| |done].
  intros x. rewrite NoDup_cons, !Forall_cons.
  assert (Hdef : Forall (short limits) (defined_pairs ((k, o) :: kvs)).*2 ↔
    match o with Some v => short limits v | None => True end ∧ Forall (short limits) (defined_pairs kvs).*2).
  { destruct o as [v|]; cbn; [by rewrite Forall_cons|tauto]. }
  rewrite Hdef. set_unfold. split.
  - intros (? & ? & Hs & ? & ? & ?). split_and!; try done.
    + intros k' [->|Hk']; [done|]. intros Hseen. apply (Hs k' Hk'). by right.
    + intros Hk. apply (Hs k Hk). by left.
  - intros (Hs & [? ?] & [? ?] & ? & ?). split_and!; try done. intros k' Hk' [->|Hseen]; [done|]. by apply (Hs k'); [right|].
Qed.

(** ** Variables *)

Lemma runs_write_value p n s :
  bytes n → bytes s → runs (write_value limits p n s (bool_decide (s = []))) any (emit1 p (named_item p n s)).
Proof.
  intros Hn Hs. unfold write_value. apply runs_emit1. unfold named_item. apply runs_push2; [|by apply runs_value].
  destruct (named p); [|apply runs_skip]. apply runs_push2; [by apply runs_name|apply runs_append_output].
Qed.

Lemma runs_write_pair p k s :
  bytes k → bytes s → runs (write_associative_pair limits p k s) any (emit1 p (pair_item p k s)).
Proof.
  intros Hk Hs. unfold write_associative_pair. apply runs_emit1. unfold pair_item. destruct (named p).
  - apply runs_push2; [by apply runs_value|]. apply runs_push2; [apply runs_append_output|by apply runs_value].
  - apply runs_push2; [by apply runs_value|]. apply runs_push2; [|by apply runs_value].
    case_goal_if; [apply runs_append_output|apply runs_skip].
Qed.

Lemma runs_members {A} (w : A → X unit) (g : A → list Z) l is_first :
  (∀ a, a ∈ l → runs (w a) any (push_str (g a))) →
  runs (write_members limits w l is_first) any
    (push_str (if is_first then join 44 (g <$> l) else (g <$> l) ≫= (λ s, 44 :: s))).
Proof.
  revert is_first. induction l as [|a l IH]; intros is_first Hw; cbn [write_members]; [destruct is_first; apply runs_skip|].
  assert (Htail : runs (write_members limits w l false) any (push_str ((g <$> l) ≫= (λ s, 44 :: s)))).
  { apply (IH false). intros b Hb. apply Hw. by right. }
  assert (Hrest : runs (w a ;! write_members limits w l false) any (push_str (g a ++ ((g <$> l) ≫= (λ s, 44 :: s))))).
  { apply runs_push2; [apply Hw; by left|done]. }
  destruct is_first.
  - assert (Hj : join 44 (g <$> a :: l) = g a ++ ((g <$> l) ≫= (λ s, 44 :: s))).
    { clear. revert a. induction l as [|b l IHl]; intros a; [simpl; by rewrite app_nil_r|].
      rewrite fmap_cons, fmap_cons, join_cons by done. f_equal. rewrite <- fmap_cons, IHl. done. }
    rewrite Hj. apply (runs_push2 _ _ [] _ runs_skip Hrest).
  - apply (runs_push2 _ _ [44] _ (runs_append_output _) Hrest).
Qed.

Definition add_members (n : Z) (x : Expansion) : Expansion := set_composite_items (composite_items x + n) x.

Lemma grows_add n : 0 <= n → grows (add_members n).
Proof. intros Hn x. simpl. lia. Qed.

Lemma add_members_0 x : add_members 0 x = x.
Proof. destruct x. unfold add_members, set_composite_items. simpl. by rewrite Z.add_0_r. Qed.

Lemma emit_one p s x : emit p [s] x = emit1 p s x.
Proof. done. Qed.

(** A composite: counted, checked, and written unless no member is defined. *)
Lemma runs_composite p n check write (checked empty : Prop) its v `{Decision empty} :
  0 <= n → runs check (λ _, checked) id → (empty → its = []) →
  (¬ empty → runs write any (emit p its)) →
  runs (inspect_composite limits n ;! check ;!
        if bool_decide empty then ret tt else reject_prefix_on_composite v ;! write)
    (λ _, checked ∧ (¬ empty → no_prefix v)) (λ x, emit p its (add_members n x)).
Proof.
  intros Hn Hcheck Hnone Hwrite.
  assert (Hend : runs (if bool_decide empty then ret tt else reject_prefix_on_composite v ;! write)
    (λ _, ¬ empty → no_prefix v) (emit p its)).
  { destruct (decide empty) as [Hd|Hd].
    - rewrite bool_decide_true by done. rewrite Hnone by done. apply runs_ret. tauto.
    - rewrite bool_decide_false by tauto. eapply runs_iff;
        [apply (runs_after_check _ _ _ any _ (runs_reject v) (Hwrite Hd)); apply grows_emit|unfold any; tauto|done]. }
  eapply runs_iff; [apply (runs_bind _ _ any (λ _, checked ∧ (¬ empty → no_prefix v)) (add_members n) (emit p its))| |].
  - by apply runs_inspect.
  - apply runs_after_check; [done|exact Hend|apply grows_emit].
  - by apply grows_add.
  - apply grows_emit.
  - unfold any. tauto.
  - done.
Qed.

Lemma runs_ext m m' ok f : (∀ x, m x = m' x) → runs m ok f → runs m' ok f.
Proof. intros E Hm x Hx. rewrite <- E. by apply Hm. Qed.

Lemma runs_begin_composite p v m s :
  bytes (name v) → runs m any (push_str s) →
  runs (begin_composite limits p v ;! m) any
    (emit1 p ((if named p then pct_encode false true (name v) ++ chars_of "=" else []) ++ s)).
Proof.
  intros Hn Hm. eapply (runs_ext (begin_value limits p ;!
    (if named p then append_variable_name limits (name v) ;! append_output limits (chars_of "=") else ret tt) ;! m)).
  { intros x. unfold begin_composite, bind. by destruct (begin_value limits p x) as [[] ?]. }
  apply runs_emit1, runs_push2; [|done]. destruct (named p); [|apply runs_skip].
  apply runs_push2; [by apply runs_name|apply runs_append_output].
Qed.

Lemma prefix_bytes s n : bytes s → bytes (take n s).
Proof. intros Hs. by apply Forall_take. Qed.

Lemma join_pairs {A} (f g : A → list Z) l :
  join 44 ((λ a, f a ++ 44 :: g a) <$> l) = join 44 (l ≫= (λ a, [f a; g a])).
Proof.
  induction l as [|a l IH]; [done|]. rewrite fmap_cons. destruct l as [|b l]; [done|].
  rewrite join_cons by done. rewrite IH. cbn. by rewrite <- app_assoc.
Qed.

Lemma defined_pair_bytes kvs k s :
  value_bytes (Associative kvs) → (k, s) ∈ defined_pairs kvs → bytes k ∧ bytes s.
Proof.
  simpl. rewrite !Forall_forall. intros [Hk Hs] Hin. split.
  - apply Hk. unfold defined_pairs in Hin. apply list_elem_of_omap in Hin as ([k' o] & Hin & Ho). simpl in Ho.
    destruct o; [|done]. injection Ho as -> ->. apply list_elem_of_fmap. by exists (k, Some s).
  - apply Hs. apply list_elem_of_fmap. by exists (k, s).
Qed.

Lemma runs_expand_variable p v value :
  bytes (name v) → value_bytes value →
  runs (expand_variable limits p v value) (λ _, value_ok limits v value)
    (λ x, emit p (items p v value) (add_members (members value) x)).
Proof.
  intros Hn Hv. destruct value as [s|vs|kvs]; cbn [expand_variable items members value_ok].
  - set (s' := match modifier v with Some (Prefix _) => _ | _ => _ end).
    assert (Hs' : bytes s') by (unfold s'; destruct (modifier v) as [[l|]|]; [by apply prefix_bytes|done..]).
    eapply (runs_ext (check_value_bound limits s ;! write_value limits p (name v) s' (bool_decide (s' = [])))).
    { intros x. unfold scalar_prefix, bind. by destruct (check_value_bound limits s x) as [[] ?]. }
    eapply runs_iff; [apply (runs_after_check _ _ _ any _ (runs_check_value s) (runs_write_value p _ _ Hn Hs')); apply grows_emit1| |].
    + unfold any. tauto.
    + intros x. by rewrite add_members_0.
  - destruct (decide (vs = [])) as [->|Hne].
    { rewrite bool_decide_true by done. eapply runs_iff; [by apply (runs_ret any)| |].
      - intros x. split; [|done]. intros _. split; [constructor|done].
      - intros x. change (zlen []) with 0. by rewrite add_members_0. }
    rewrite bool_decide_false by done. apply runs_composite; [apply zlen_nonneg|apply runs_check_values|by intros ->|].
    intros Hd. simpl in Hv. rewrite Forall_forall in Hv. destruct (defined_items vs) as [|d ds] eqn:Eds; [done|]. rewrite <- Eds in *.
    case_goal_if.
    + eapply runs_iff; [apply (runs_for_each _ (λ _, True) (λ s, emit1 p (named_item p (name v) s)))| |].
      * intros a Ha. apply runs_write_value; [done|by apply Hv].
      * intros a. apply grows_emit1.
      * intros x. split; [done|]. intros _. by apply Forall_true.
      * intros x. apply foldl_emit.
    + apply runs_begin_composite; [done|]. apply (runs_members _ (encoded p) _ true). intros a Ha. by apply runs_value, Hv.
  - destruct (decide (kvs = [])) as [->|Hne].
    { rewrite bool_decide_true by done. eapply runs_iff; [by apply (runs_ret any)| |].
      - intros x. split; [|done]. intros _. split_and!; [constructor..|done].
      - intros x. change (zlen []) with 0. by rewrite add_members_0. }
    rewrite bool_decide_false by done.
    eapply runs_iff; [apply (runs_composite p _ _ _
      (NoDup kvs.*1 ∧ Forall (short limits) kvs.*1 ∧ Forall (short limits) (defined_pairs kvs).*2)
      (defined_pairs kvs = []) (items p v (Associative kvs)) v)| |done].
    + apply zlen_nonneg.
    + eapply runs_iff; [apply runs_check_pairs| |done]. intros x. split; [tauto|]. intros ?. split; [|done].
      intros k _. apply not_elem_of_empty.
    + simpl. by intros ->.
    + intros Hd. cbn [items]. destruct (defined_pairs kvs) as [|d ds] eqn:Eds; [done|]. rewrite <- Eds in *. case_goal_if.
      * eapply runs_iff; [apply (runs_for_each _ (λ _, True) (λ kv, emit1 p (pair_item p kv.1 kv.2)))| |].
        -- intros [k s] Ha. destruct (defined_pair_bytes kvs k s Hv Ha). by apply runs_write_pair.
        -- intros a. apply grows_emit1.
        -- intros x. split; [done|]. intros _. by apply Forall_true.
        -- intros x. apply foldl_emit.
      * apply runs_begin_composite; [done|]. rewrite <- join_pairs.
        apply (runs_members _ (λ kv, encoded p kv.1 ++ 44 :: encoded p kv.2) _ true). intros [k s] Ha.
        destruct (defined_pair_bytes kvs k s Hv Ha). apply runs_push2; [by apply runs_value|].
        apply (runs_push2 _ _ [44]); [apply runs_append_output|by apply runs_value].
    + intros x. tauto.
Qed.

(** ** Expressions and templates *)

Lemma emit1_add p i n x : emit1 p i (add_members n x) = add_members n (emit1 p i x).
Proof. done. Qed.

Lemma emit_add p its n x : emit p its (add_members n x) = add_members n (emit p its x).
Proof. revert x. induction its as [|i its IH]; intros x; [done|]. apply (IH (emit1 p i x)). Qed.

Lemma add_add n m x : add_members n (add_members m x) = add_members (m + n) x.
Proof. unfold add_members, set_composite_items. simpl. f_equal. lia. Qed.

Definition bound (values : TemplateValues) (e : UriTemplateExpression) : list (UriTemplateVariable * TemplateValue) :=
  omap (λ v, (λ value, (v, value)) <$> values !! name v) (variables e).

Lemma members_nonneg value : 0 <= members value.
Proof. destruct value; simpl; [done|apply zlen_nonneg..]. Qed.

Definition total (vvs : list (UriTemplateVariable * TemplateValue)) : Z := sum ((λ vv, members vv.2) <$> vvs).

Lemma total_nonneg vvs : 0 <= total vvs.
Proof. apply sum_nonneg, Forall_fmap, Forall_true. intros vv. apply members_nonneg. Qed.

(** The effect of one variable. *)
Definition variable_effect (values : TemplateValues) (p : OperatorProperties) (v : UriTemplateVariable) (x : Expansion) : Expansion :=
  match values !! name v with
  | None => x
  | Some value => emit p (items p v value) (add_members (members value) x)
  end.

Lemma variables_effect values p vs x :
  foldl (λ x v, variable_effect values p v x) x vs =
  emit p (vs ≫= (λ v, match values !! name v with Some value => items p v value | None => [] end))
    (add_members (total (omap (λ v, (λ value, (v, value)) <$> values !! name v) vs)) x).
Proof.
  revert x. induction vs as [|v vs IH]; intros x; cbn [foldl]; [by rewrite add_members_0|].
  rewrite IH, bind_cons. unfold variable_effect. set (g := λ v, (λ value, (v, value)) <$> values !! name v).
  change (omap g (v :: vs)) with (match g v with Some y => y :: omap g vs | None => omap g vs end).
  unfold g at 2. destruct (values !! name v) as [value|]; cbn [fmap option_fmap option_map]; [|done].
  rewrite emit_app, <- !emit_add, add_add. done.
Qed.

Lemma emit_output p its x : output (emit p its x) =
  output x ++ (if wrote_value x then its ≫= (λ i, separator p ++ i) else assemble p its).
Proof.
  revert x. induction its as [|i its IH]; intros x; [simpl; destruct (wrote_value x); by rewrite app_nil_r|].
  change (emit p (i :: its) x) with (emit p its (emit1 p i x)). rewrite IH. cbn. rewrite <- !app_assoc. f_equal.
  destruct (wrote_value x); by rewrite <- ?app_assoc.
Qed.

Lemma emit_members p its x : composite_items (emit p its x) = composite_items x.
Proof. revert x. induction its as [|i its IH]; intros x; [done|]. apply (IH (emit1 p i x)). Qed.

Definition part_effect (values : TemplateValues) (pt : UriTemplatePart) (x : Expansion) : Expansion :=
  match pt with
  | Literal l => push_str (pct_encode true true l) x
  | Expression e =>
      emit (properties (operator e)) (expression_items values e)
        (add_members (total (bound values e)) (set_wrote_value false x))
  end.

Lemma grows_part values pt : grows (part_effect values pt).
Proof.
  destruct pt as [l|e]; [apply grows_push|]. intros x.
  destruct (grows_emit (properties (operator e)) (expression_items values e)
    (add_members (total (bound values e)) (set_wrote_value false x))) as [H1 H2].
  destruct (grows_add (total (bound values e)) (total_nonneg _) (set_wrote_value false x)) as [H3 H4]. simpl in *. lia.
Qed.

Definition part_bound (values : TemplateValues) (pt : UriTemplatePart) : list (UriTemplateVariable * TemplateValue) :=
  match pt with Literal _ => [] | Expression e => bound values e end.

Lemma runs_part values pt :
  part_bytes pt → map_Forall (λ _, value_bytes) values →
  runs (expand_part limits values pt) (λ _, Forall (λ vv, value_ok limits vv.1 vv.2) (part_bound values pt)) (part_effect values pt).
Proof.
  intros Hb Hv. destruct pt as [l|e]; cbn [expand_part part_bound part_effect].
  { eapply runs_iff; [by apply runs_literal|by split; [constructor|]|done]. }
  unfold expand_expression. set (p := properties (operator e)). simpl in Hb. rewrite Forall_forall in Hb.
  eapply runs_iff.
  - eapply (runs_bind _ _ any _ (set_wrote_value false) _).
    + intros x Hx. by split_and!.
    + apply (runs_for_each _ (λ v, match values !! name v with Some value => value_ok limits v value | None => True end)
        (variable_effect values p)).
      * intros v Hin. unfold variable_effect. destruct (values !! name v) as [value|] eqn:Ev; [|by apply runs_ret].
        apply runs_expand_variable; [by apply Hb|by apply (Hv (name v))].
      * intros v x. unfold variable_effect. destruct (values !! name v) as [value|]; [|done].
        destruct (grows_emit p (items p v value) (add_members (members value) x)).
        destruct (grows_add (members value) (members_nonneg _) x). lia.
    + intros x. simpl. lia.
    + intros x. rewrite variables_effect. set (its := _ ≫= _). set (n := total _).
      destruct (grows_emit p its (add_members n x)). destruct (grows_add n (total_nonneg _) x). lia.
  - intros x. unfold any, bound. clear. induction (variables e) as [|v vs IH]; [simpl; rewrite !Forall_nil; tauto|].
    cbn [omap list_omap]. rewrite Forall_cons. destruct (values !! name v) as [value|]; cbn [fmap option_fmap option_map];
      rewrite ?Forall_cons; simpl; tauto.
  - intros x. simpl. by rewrite variables_effect.
Qed.

Lemma parts_effect values ps x :
  output (foldl (λ x pt, part_effect values pt x) x ps) = output x ++ expansion values ps ∧
  composite_items (foldl (λ x pt, part_effect values pt x) x ps) = composite_items x + total (bound_variables values ps).
Proof.
  revert x. induction ps as [|pt ps IH]; intros x; cbn [foldl].
  { unfold total. simpl. rewrite app_nil_r. split; [done|lia]. }
  destruct (IH (part_effect values pt x)) as [Ho Hc]. rewrite Ho, Hc. unfold expansion, bound_variables. rewrite !bind_cons.
  unfold total. rewrite fmap_app, sum_app. destruct pt as [l|e]; cbn [part_effect part_expansion].
  - simpl. rewrite <- app_assoc. split; [done|lia].
  - rewrite emit_output, emit_members. cbn. rewrite <- app_assoc. split; [done|]. unfold total, bound. lia.
Qed.

Lemma expand_runs values ps :
  Forall part_bytes ps → map_Forall (λ _, value_bytes) values →
  runs (for_each (expand_part limits values) ps)
    (λ _, Forall (λ vv, value_ok limits vv.1 vv.2) (bound_variables values ps))
    (λ x, foldl (λ x pt, part_effect values pt x) x ps).
Proof.
  intros Hps Hv. rewrite Forall_forall in Hps. eapply runs_iff; [apply (runs_for_each _
    (λ pt, Forall (λ vv, value_ok limits vv.1 vv.2) (part_bound values pt)) (part_effect values))| |done].
  - intros pt Hin. apply runs_part; [by apply Hps|done].
  - intros pt. apply grows_part.
  - intros x. clear. induction ps as [|pt ps IH]; [simpl; split; constructor|].
    unfold bound_variables in *. rewrite bind_cons, Forall_cons, Forall_app, IH. by destruct pt.
Qed.
End runs.

(** * Against the reference *)

(** ** Characters *)

Lemma unreserved_is b : Rfc6570.unreserved b = is_unreserved b.
Proof.
  unfold Rfc6570.unreserved, Rfc6570.alpha, Rfc6570.digit, is_unreserved, is_ascii_alphanumeric, Raw.is_ascii_alphanumeric.
  apply eq_true_iff_eq. rewrite !orb_true_iff, !andb_true_iff, !Z.leb_le, !Z.eqb_eq, bool_decide_eq_true. simpl.
  rewrite !elem_of_cons, elem_of_nil. lia.
Qed.

Lemma reserved_is b : Rfc6570.reserved b = is_reserved b.
Proof.
  unfold Rfc6570.reserved, is_reserved. apply bool_decide_ext.
  unfold Rfc6570.gen_delims, Rfc6570.sub_delims. rewrite elem_of_app. simpl. rewrite !elem_of_cons, !elem_of_nil. lia.
Qed.

Lemma hexdig_is b : Rfc6570.hexdig b = is_ascii_hexdigit b.
Proof.
  unfold Rfc6570.hexdig, Rfc6570.digit, is_ascii_hexdigit, hex_value.
  destruct (_ && _) eqn:E1; cbn [orb]; [by rewrite bool_decide_true by eauto|].
  destruct ((97 <=? b) && _) eqn:E2; cbn [orb]; [rewrite orb_true_r; by rewrite bool_decide_true by eauto|].
  rewrite orb_false_r. destruct ((65 <=? b) && _); [by rewrite bool_decide_true by eauto|]. by rewrite bool_decide_false by (by intros []).
Qed.

Lemma pct_encoded_is p h l : Rfc6570.pct_encoded p h l = is_triplet p h l.
Proof. unfold Rfc6570.pct_encoded, is_triplet. by rewrite !hexdig_is. Qed.

Lemma hex_upper_is n : Rfc6570.hex_upper n = (if n <? 10 then 48 + n else 55 + n).
Proof. unfold Rfc6570.hex_upper. case_goal_if; lia. Qed.

Lemma escape_is keep s : Rfc6570.escape keep s = pct_encode keep keep s.
Proof.
  remember (length s) as n eqn:Hn. assert (Hle : (length s ≤ n)%nat) by lia. clear Hn. revert s Hle.
  induction n as [|n IH]; intros [|b s] Hle; [done|simpl in Hle; lia|done|]. simpl in Hle.
  cbn [Rfc6570.escape pct_encode]. cbn zeta. rewrite IH by lia. rewrite unreserved_is, reserved_is, !hex_upper_is.
  change ([37; if b / 16 <? 10 then 48 + b / 16 else 55 + b / 16; if b mod 16 <? 10 then 48 + b mod 16 else 55 + b mod 16])
    with (triplet b).
  destruct s as [|h [|l s]]; [done..|]. rewrite pct_encoded_is, IH by (simpl in Hle; lia). done.
Qed.

(** Names hold no reserved character. *)
Lemma name_byte_plain b : is_name_byte b = true → is_reserved b = false.
Proof.
  unfold is_name_byte, is_ascii_alphanumeric, Raw.is_ascii_alphanumeric, is_reserved.
  rewrite !orb_true_iff, !andb_true_iff, !Z.leb_le, !Z.eqb_eq. intros H. apply bool_decide_eq_false. simpl.
  rewrite !elem_of_cons, elem_of_nil. lia.
Qed.

Lemma encode_plain r n : Forall (λ b, is_reserved b = false) n → pct_encode r true n = pct_encode false true n.
Proof.
  remember (length n) as k eqn:Hk. assert (Hle : (length n ≤ k)%nat) by lia. clear Hk. revert n Hle.
  induction k as [|k IH]; intros [|b s] Hle Hf; [done|simpl in Hle; lia|done|]. simpl in Hle.
  apply Forall_cons in Hf as [Hb Hs]. cbn [pct_encode]. cbn zeta. rewrite Hb, andb_false_r, (IH s) by (done || lia).
  destruct s as [|h [|l s]]; [done..|]. apply Forall_cons in Hs as [_ Hs]. apply Forall_cons in Hs as [_ Hs].
  by rewrite (IH s) by (done || (simpl in Hle; lia)).
Qed.

Lemma escape_name n : name_ok n → Rfc6570.escape true n = pct_encode false true n.
Proof.
  intros [Hn _]%name_ok_bytes. rewrite escape_is. apply encode_plain. eapply Forall_impl; [exact Hn|]. intros b. apply name_byte_plain.
Qed.

(** ** Prefixes *)

Lemma digit_value_is d : is_ascii_hexdigit d = true → hex_value d = Some (Rfc6570.digit_value d) ∧ 0 <= Rfc6570.digit_value d < 16.
Proof.
  unfold is_ascii_hexdigit, hex_value, Rfc6570.digit_value, Rfc6570.digit. rewrite bool_decide_eq_true. intros [v Hv].
  destruct ((48 <=? d) && (d <=? 57)) eqn:E1; zbool; [split; [done|lia]|].
  destruct ((97 <=? d) && (d <=? 102)) eqn:E2; zbool.
  { rewrite (proj2 (Z.leb_gt d 70)) by lia. split; [done|lia]. }
  destruct ((65 <=? d) && (d <=? 70)) eqn:E3; [|done]. zbool. rewrite (proj2 (Z.leb_le d 70)) by lia. split; [done|lia].
Qed.

Lemma nibbles b : is_byte b → Z.lor (Z.shiftl (b / 16) 4) (b mod 16) = b.
Proof.
  intros Hb. assert (Hin : b ∈ seqZ 0 256) by (apply elem_of_seqZ; unfold is_byte in Hb; lia).
  assert (Hall : forallb (λ b, Z.lor (Z.shiftl (b / 16) 4) (b mod 16) =? b) (seqZ 0 256) = true) by (by vm_compute).
  rewrite forallb_forall in Hall. by apply Z.eqb_eq, Hall, list_elem_of_In.
Qed.

Lemma octet_is p h l r :
  is_triplet p h l = true →
  decode_pct_encoded_octet (p :: h :: l :: r) = Some (16 * Rfc6570.digit_value h + Rfc6570.digit_value l).
Proof.
  intros (-> & Hh & Hl)%is_triplet_iff. destruct (digit_value_is h Hh) as [Eh ?], (digit_value_is l Hl) as [El ?].
  cbn [decode_pct_encoded_octet]. rewrite (Z.eqb_refl 37), Eh, El. cbn [mbind option_bind]. f_equal.
  set (b := 16 * _ + _). rewrite <- (nibbles b) by (unfold is_byte, b; lia).
  by replace (b / 16) with (Rfc6570.digit_value h) by (unfold b; dlia);
    replace (b mod 16) with (Rfc6570.digit_value l) by (unfold b; dlia).
Qed.

Lemma leading_octets_triplet p h l r :
  is_triplet p h l = true →
  ∃ b, decode_pct_encoded_octet (p :: h :: l :: r) = Some b ∧
    Rfc6570.leading_octets (p :: h :: l :: r) = b :: Rfc6570.leading_octets r.
Proof.
  intros Ht. eexists. split; [by apply octet_is|]. cbn [Rfc6570.leading_octets]. by rewrite pct_encoded_is, Ht.
Qed.

Lemma leading_octets_other s :
  (∀ p h l r, s = p :: h :: l :: r → is_triplet p h l = false) → decode_pct_encoded_octet s = None ∧ Rfc6570.leading_octets s = [].
Proof.
  intros H. destruct s as [|p [|h [|l r]]]; [done..|]. specialize (H p h l r eq_refl). cbn [Rfc6570.leading_octets].
  rewrite pct_encoded_is, H. split; [|done]. unfold is_triplet, is_ascii_hexdigit in H. cbn.
  destruct (p =? 37); [|done]. destruct (hex_value h) as [vh|]; [|done]. destruct (hex_value l) as [vl|]; [|done].
  rewrite !bool_decide_true in H by eauto. done.
Qed.

Lemma triplet_or_not s :
  (∃ p h l r, s = p :: h :: l :: r ∧ is_triplet p h l = true) ∨ (∀ p h l r, s = p :: h :: l :: r → is_triplet p h l = false).
Proof.
  destruct s as [|p [|h [|l r]]]; [by right..|]. destruct (is_triplet p h l) eqn:E; [left; by eexists _, _, _, _|right].
  by intros ? ? ? ? [= <- <- <- <-].
Qed.

Lemma decode_octets_leading n s ds :
  decode_octets n s = Some ds ↔ (n ≤ length (Rfc6570.leading_octets s))%nat ∧ ds = take n (Rfc6570.leading_octets s).
Proof.
  revert s ds. induction n as [|n IH]; intros s ds; cbn [decode_octets]; [split; [intros [= <-]; split; [lia|done]|by intros [_ ->]]|].
  destruct (triplet_or_not s) as [(p & h & l & r & -> & Ht)|Hno].
  - destruct (leading_octets_triplet p h l r Ht) as (b & -> & ->). cbn [mbind option_bind drop length take].
    change (drop 0 r) with r. destruct (decode_octets n r) as [ds'|] eqn:E; cbn.
    + apply IH in E as [Hle ->]. split; [intros [= <-]; split; [lia|done]|by intros [_ ->]].
    + split; [done|]. intros [Hle _]. assert (decode_octets n r = Some (take n (Rfc6570.leading_octets r))) by (apply IH; split; [lia|done]).
      congruence.
  - destruct (leading_octets_other s Hno) as [-> ->]. cbn. split; [done|]. intros [? _]. lia.
Qed.

Lemma leading_octets_length n s : (length s ≤ n)%nat → (3 * length (Rfc6570.leading_octets s) ≤ length s)%nat.
Proof.
  revert s. induction n as [|n IH]; intros s Hle; (destruct (triplet_or_not s) as [(p & h & l & r & -> & Ht)|Hno];
    [destruct (leading_octets_triplet p h l r Ht) as (b & _ & ->)|destruct (leading_octets_other s Hno) as [_ ->]; simpl; lia]).
  - simpl in Hle. lia.
  - simpl in *. specialize (IH r ltac:(lia)). lia.
Qed.

(** The first octet of a character tells how many there are. *)
Lemma sequence_width_encode c : is_scalar c → ∃ b r, encode_utf8 c = b :: r ∧ utf8_sequence_width b = len_utf8 c.
Proof.
  intros [Hr _]%is_scalar_iff. unfold encode_utf8, len_utf8, utf8_sequence_width.
  repeat case_goal_if; zbool; eexists _, _; (split; [reflexivity|]); repeat case_goal_if; zbool; try done; dlia.
Qed.

Lemma triplet_character_is s :
  Rfc6570.leading_octets s ≠ [] → pct_encoded_character_width s = Rfc6570.character_length s.
Proof.
  intros Hne. unfold Rfc6570.character_length, pct_encoded_character_width.
  pose proof (leading_octets_length (length s) s ltac:(done)) as Hlen.
  assert (Hfirst : decode_pct_encoded_octet s = head (Rfc6570.leading_octets s)).
  { destruct (triplet_or_not s) as [(p & h & l & r & -> & Ht)|Hno].
    - by destruct (leading_octets_triplet p h l r Ht) as (b & -> & ->).
    - by destruct (leading_octets_other s Hno) as [-> ->]. }
  pose proof (decode_octets_leading (match head (Rfc6570.leading_octets s) with Some b => utf8_sequence_width b | None => 1%nat end) s) as Hoct.
  rewrite Hfirst. set (os := Rfc6570.leading_octets s) in *. cbn zeta.
  transitivity (3 * Nat.max 1 (Rfc6570.width os))%nat; [|by destruct os]. set (w := match head os with Some b => _ | None => _ end) in *.
  unfold Rfc6570.width. destruct (decode_utf8 os) as [[c n]|] eqn:Ed.
  - apply decode_utf8_sound in Ed as (Hc & -> & rest & Hos). destruct (sequence_width_encode c Hc) as (b & r & Hb & Hw).
    assert (Hwl : w = len_utf8 c) by (unfold w; rewrite Hos, Hb; exact Hw). rewrite Hwl in *.
    pose proof (len_utf8_pos c). assert (Hl : (len_utf8 c ≤ length os)%nat) by (rewrite Hos, length_app, len_encode_utf8; lia).
    rewrite (bool_decide_true (len_utf8 c * 3 ≤ length s)%nat) by lia.
    rewrite (proj2 (Hoct (encode_utf8 c))); cycle 1.
    { split; [done|]. rewrite Hos. rewrite take_app_length' by (symmetry; apply len_encode_utf8). done. }
    assert (Hv : from_utf8 (encode_utf8 c) = true).
    { apply from_utf8_spec. exists [c]. split; [by repeat constructor|]. simpl. by rewrite app_nil_r. }
    rewrite Hv. pose proof (decode_encode_utf8 c [] Hc) as Hd. rewrite app_nil_r in Hd. rewrite Hd, len_encode_utf8.
    rewrite (bool_decide_true (_ <$> _ = _)) by done. case_bool_decide; simpl; lia.
  - case_bool_decide as Hw; cbn [andb]; [|done]. case_bool_decide; [|done].
    destruct (decode_octets w s) as [ds|]; [|done]. destruct (proj1 (Hoct ds) eq_refl) as [Hle ->].
    destruct (from_utf8 (take w os)) eqn:Ev; cbn [andb]; [|done]. case_bool_decide as Hd; [|done]. exfalso.
    destruct (decode_utf8 (take w os)) as [[c n]|] eqn:E2; [|done]. apply decode_utf8_sound in E2 as (Hc & _ & rest & Hos).
    rewrite <- (take_drop w os), Hos, <- app_assoc, decode_encode_utf8 in Ed by done. done.
Qed.

(** The width of the first character, as the code takes it. *)
Lemma character_length_is b r :
  match r with
  | h :: l :: _ => if is_triplet b h l then Some (pct_encoded_character_width (b :: r)) else snd <$> decode_utf8 (b :: r)
  | _ => snd <$> decode_utf8 (b :: r)
  end = Some (Rfc6570.character_length (b :: r)) ∨
  match r with
  | h :: l :: _ => if is_triplet b h l then Some (pct_encoded_character_width (b :: r)) else snd <$> decode_utf8 (b :: r)
  | _ => snd <$> decode_utf8 (b :: r)
  end = None ∧ Rfc6570.character_length (b :: r) = 0%nat.
Proof.
  set (m := match r with [] => _ | h :: l => _ end). destruct (triplet_or_not (b :: r)) as [(p & h & l & q & [= <- ->] & Ht)|Hno].
  - left. unfold m. rewrite Ht, triplet_character_is; [done|]. by destruct (leading_octets_triplet b h l q Ht) as (? & _ & ->).
  - assert (Hm : m = snd <$> decode_utf8 (b :: r)).
    { unfold m. destruct r as [|h [|l q]]; [done..|]. by rewrite (Hno b h l q eq_refl). }
    rewrite Hm. unfold Rfc6570.character_length. destruct (leading_octets_other _ Hno) as [_ ->]. unfold Rfc6570.width.
    destruct (decode_utf8 (b :: r)) as [[c n]|]; [by left|by right].
Qed.

Lemma characters_stuck n s : Rfc6570.character_length s = 0%nat → Rfc6570.characters n s = [].
Proof. intros H. induction n as [|n IH]; [done|]. cbn [Rfc6570.characters]. rewrite H. exact IH. Qed.

Lemma characters_is n s : take (prefix_end s n) s = Rfc6570.characters n s.
Proof.
  revert s. induction n as [|n IH]; intros [|b r]; [done..|by rewrite characters_stuck|]. cbn [prefix_end Rfc6570.characters].
  pose proof (character_length_is b r) as Hw. cbn zeta. destruct Hw as [-> | [-> Hz]].
  - by rewrite <- take_take_drop, IH.
  - rewrite Hz. by rewrite characters_stuck.
Qed.

(** ** Items *)

Lemma properties_is o :
  first (properties o) = Rfc6570.first_of o ∧ separator (properties o) = Rfc6570.sep_of o ∧
  named (properties o) = Rfc6570.is_named o ∧ if_empty (properties o) = Rfc6570.ifemp_of o ∧
  allow_reserved (properties o) = Rfc6570.keeps_reserved o.
Proof. by destruct o. Qed.

Lemma encoded_is o s : encoded (properties o) s = Rfc6570.value_text o s.
Proof. unfold encoded, Rfc6570.value_text. rewrite escape_is. by destruct o. Qed.

Lemma assignment_is o n s :
  n ++ (if bool_decide (s = []) then if_empty (properties o) else chars_of "=") ++ encoded (properties o) s =
  Rfc6570.assignment o n s.
Proof.
  unfold Rfc6570.assignment. f_equal. destruct (properties_is o) as (_ & _ & _ & -> & _). rewrite encoded_is.
  case_bool_decide as Hs; [|done]. rewrite Hs. unfold Rfc6570.value_text. simpl. by rewrite app_nil_r.
Qed.

Lemma member_is o n s : name_ok n → named_item (properties o) n s = Rfc6570.member o n s.
Proof.
  intros Hn. unfold named_item, Rfc6570.member. destruct (properties_is o) as (_ & _ & Hnamed & _). rewrite Hnamed.
  destruct (Rfc6570.is_named o); [|apply encoded_is]. rewrite escape_name by done. by rewrite <- assignment_is, <- app_assoc.
Qed.

Lemma pair_is o k s : pair_item (properties o) k s = Rfc6570.pair_text false o k s.
Proof.
  unfold pair_item, Rfc6570.pair_text. destruct (properties_is o) as (Hf & _ & Hnamed & _). rewrite Hnamed.
  destruct (Rfc6570.is_named o) eqn:En; [by rewrite assignment_is, encoded_is|]. rewrite !encoded_is. f_equal. cbn [negb andb].
  assert (Hform : is_form_style (properties o) = false) by (by destruct o). rewrite Hform, orb_false_r.
  case_bool_decide as Hs; [by rewrite Hs|done].
Qed.

Lemma compact_is o n ms : name_ok n → compact_item (properties o) n ms = Rfc6570.compact o n ms.
Proof.
  intros Hn. unfold compact_item, Rfc6570.compact. destruct (properties_is o) as (_ & _ & -> & _).
  by rewrite escape_name.
Qed.

Lemma contribution_is o v value :
  name_ok (name v) → items (properties o) v value = Rfc6570.contribution false o v value.
Proof.
  intros Hn. destruct value as [s|vs|kvs]; cbn [items Rfc6570.contribution].
  - rewrite member_is by done. destruct (modifier v) as [[n|]|]; [by rewrite characters_is|done..].
  - change (Rfc6570.present vs) with (defined_items vs). destruct (defined_items vs) as [|d ds]; [done|].
    case_bool_decide as Hm; [rewrite Hm|].
    + apply Rfc6570.fmap_ext_elem. intros s _. by apply member_is.
    + rewrite compact_is by done. rewrite (Rfc6570.fmap_ext_elem (encoded _) (Rfc6570.value_text o)) by (intros; apply encoded_is).
      by destruct (modifier v) as [[n|]|].
  - change (Rfc6570.present_pairs kvs) with (defined_pairs kvs). destruct (defined_pairs kvs) as [|d ds]; [done|].
    case_bool_decide as Hm; [rewrite Hm|].
    + apply Rfc6570.fmap_ext_elem. intros ks _. apply pair_is.
    + rewrite compact_is by done.
      rewrite (Rfc6570.bind_ext_elem _ (λ ks, [Rfc6570.value_text o ks.1; Rfc6570.value_text o ks.2])) by (intros; by rewrite !encoded_is).
      by destruct (modifier v) as [[n|]|].
Qed.

(** ** Templates *)

Definition part_names (pt : UriTemplatePart) : Prop :=
  match pt with Literal _ => True | Expression e => Forall (λ v, name_ok (name v)) (variables e) end.

Lemma expansion_is values ps : Forall part_names ps → expansion values ps = Rfc6570.expand false values ps.
Proof.
  intros Hps. unfold expansion, Rfc6570.expand. apply Rfc6570.bind_ext_elem. intros [l|e] Hin; cbn [part_expansion].
  { symmetry. apply escape_is. }
  rewrite Forall_forall in Hps. specialize (Hps _ Hin). simpl in Hps. rewrite Forall_forall in Hps.
  unfold assemble, Rfc6570.between, expression_items. destruct (properties_is (operator e)) as (-> & -> & _).
  rewrite (Rfc6570.bind_ext_elem _ (λ v, match values !! name v with
    | Some value => Rfc6570.contribution false (operator e) v value | None => [] end)); [done|].
  intros v Hv. destruct (values !! name v); [|done]. by apply contribution_is, Hps.
Qed.

(** * URI characters *)

(** Unreserved and reserved characters, and percent signs with two digits. *)
Inductive uri_text : list Z → Prop :=
| uri_nil : uri_text []
| uri_byte b r : Rfc6570.unreserved b || Rfc6570.reserved b = true → uri_text r → uri_text (b :: r)
| uri_triplet h l r : Rfc6570.hexdig h = true → Rfc6570.hexdig l = true → uri_text r → uri_text (37 :: h :: l :: r).

Lemma uri_app a b : uri_text a → uri_text b → uri_text (a ++ b).
Proof. induction 1; intros Hb; simpl; [done|apply uri_byte; auto|apply uri_triplet; auto]. Qed.

Lemma uri_bind {A} (f : A → list Z) l : (∀ a, a ∈ l → uri_text (f a)) → uri_text (l ≫= f).
Proof.
  induction l as [|a l IH]; intros Hf; [constructor|]. rewrite bind_cons. apply uri_app; [apply Hf; by left|].
  apply IH. intros b Hb. apply Hf. by right.
Qed.

Lemma triplet_uri b : is_byte b → uri_text (triplet b).
Proof.
  assert (Hd : ∀ n, 0 <= n < 16 → Rfc6570.hexdig (if n <? 10 then 48 + n else 55 + n) = true).
  { intros n Hn. assert (n ∈ seqZ 0 16) as Hin by (apply elem_of_seqZ; lia).
    repeat (apply elem_of_cons in Hin as [->|Hin]; [done|]). by apply elem_of_nil in Hin. }
  unfold is_byte. intros Hb. apply uri_triplet; [apply Hd; dlia|apply Hd; dlia|constructor].
Qed.

Lemma pct_encode_uri n : ∀ s r pre, (length s ≤ n)%nat → bytes s → uri_text (pct_encode r pre s).
Proof.
  induction n as [|n IH]; intros [|b s] r pre Hn Hb; [constructor|simpl in Hn; lia|constructor|].
  simpl in Hn. apply Forall_cons in Hb as [Hb Hs]. cbn [pct_encode]. cbn zeta.
  assert (Hnext : uri_text ((if is_unreserved b || r && is_reserved b then [b] else triplet b) ++ pct_encode r pre s)).
  { apply uri_app; [|apply IH; [lia|done]]. case_goal_if; [|by apply triplet_uri].
    apply uri_byte; [|constructor]. rewrite unreserved_is, reserved_is. destruct (is_unreserved b); [done|].
    by apply andb_true_iff in E as [_ E]. }
  destruct s as [|h [|l s]]; [exact Hnext..|]. destruct (pre && is_triplet b h l) eqn:Et; [|exact Hnext].
  apply andb_true_iff in Et as [_ (-> & Hh & Hl)%is_triplet_iff]. apply uri_triplet; [by rewrite hexdig_is..|]. apply IH; [simpl in Hn; lia|].
  apply Forall_cons in Hs as [_ Hs]. by apply Forall_cons in Hs as [_ Hs].
Qed.

Lemma encode_uri r pre s : bytes s → uri_text (pct_encode r pre s).
Proof. by apply (pct_encode_uri (length s)). Qed.

Lemma properties_uri o :
  uri_text (first (properties o)) ∧ uri_text (separator (properties o)) ∧ uri_text (if_empty (properties o)) ∧
  uri_text (chars_of "=").
Proof. destruct o; split_and!; repeat (apply uri_byte; [done|]); apply uri_nil. Qed.

Lemma join_uri ss : Forall uri_text ss → uri_text (join 44 ss).
Proof.
  induction 1 as [|s ss Hs Hss IH]; [constructor|]. destruct ss as [|s' ss]; [done|]. rewrite join_cons by done.
  apply uri_app; [done|]. by apply uri_byte.
Qed.

Lemma named_item_uri o n s : bytes n → bytes s → uri_text (named_item (properties o) n s).
Proof.
  intros Hn Hs. destruct (properties_uri o) as (_ & _ & He & Heq). unfold named_item.
  apply uri_app; [|by apply encode_uri]. destruct (named (properties o)); [|constructor].
  apply uri_app; [by apply encode_uri|]. by case_goal_if.
Qed.

Lemma items_uri o v value : bytes (name v) → value_bytes value → Forall uri_text (items (properties o) v value).
Proof.
  intros Hn Hv. destruct (properties_uri o) as (_ & _ & He & Heq).
  assert (Hcompact : ∀ ms, Forall uri_text ms → uri_text (compact_item (properties o) (name v) ms)).
  { intros ms Hms. unfold compact_item. apply uri_app; [|by apply join_uri]. destruct (named (properties o)); [|constructor].
    apply uri_app; [by apply encode_uri|done]. }
  destruct value as [s|vs|kvs]; cbn [items].
  - repeat constructor. apply named_item_uri; [done|]. destruct (modifier v) as [[l|]|]; [by apply prefix_bytes|done..].
  - simpl in Hv. destruct (defined_items vs) as [|d ds] eqn:Eds; [constructor|]. case_goal_if.
    + apply Forall_fmap. eapply Forall_impl; [exact Hv|]. intros s Hs. by apply named_item_uri.
    + constructor; [|constructor]. apply Hcompact, Forall_fmap. eapply Forall_impl; [exact Hv|]. intros s Hs. by apply encode_uri.
  - pose proof (defined_pair_bytes kvs) as Hp. destruct (defined_pairs kvs) as [|d ds] eqn:Eds; [constructor|].
    assert (Hall : Forall (λ kv, bytes kv.1 ∧ bytes kv.2) (d :: ds)).
    { apply Forall_forall. intros [k s] Hin. by apply Hp. }
    case_goal_if.
    + apply Forall_fmap. eapply Forall_impl; [exact Hall|]. intros [k s] [Hk Hs]. simpl in *. unfold pair_item.
      apply uri_app; [by apply encode_uri|]. apply uri_app; [|by apply encode_uri].
      repeat case_goal_if; try done; constructor.
    + constructor; [|constructor]. apply Hcompact, Forall_forall. intros m Hm.
      apply list_elem_of_bind in Hm as ([k s] & Hm & Hin).
      destruct (proj1 (Forall_forall _ _) Hall _ Hin) as [Hk Hs]. simpl in *.
      apply elem_of_cons in Hm as [->|Hm]; [by apply encode_uri|]. apply list_elem_of_singleton in Hm as ->. by apply encode_uri.
Qed.

Lemma expansion_uri values ps :
  Forall part_bytes ps → map_Forall (λ _, value_bytes) values → uri_text (expansion values ps).
Proof.
  intros Hps Hv. rewrite Forall_forall in Hps. apply uri_bind. intros [l|e] Hin; specialize (Hps _ Hin); simpl in *.
  - by apply encode_uri.
  - destruct (properties_uri (operator e)) as (Hf & Hs & _).
    assert (Hits : Forall uri_text (expression_items values e)).
    { apply Forall_forall. intros i (v & Hi & Hvin)%list_elem_of_bind. rewrite Forall_forall in Hps. specialize (Hps v Hvin).
      destruct (values !! name v) as [value|] eqn:Ev; [|by apply elem_of_nil in Hi].
      pose proof (items_uri (operator e) v value Hps (Hv _ _ Ev)) as Hall. rewrite Forall_forall in Hall. by apply Hall. }
    unfold assemble. destruct (expression_items values e) as [|i its]; [constructor|]. apply Forall_cons in Hits as [Hi Hits].
    apply uri_app; [done|]. apply uri_app; [done|]. apply uri_bind. intros j Hj. rewrite Forall_forall in Hits.
    apply uri_app; [done|by apply Hits].
Qed.

Lemma run_output_runs limits m ok f out :
  limits_ok limits → runs limits m ok f →
  settled (run_output m) ∧
  (run_output m = Ok out ↔ ok Expansion_new ∧ fits limits (f Expansion_new) ∧ out = output (f Expansion_new)).
Proof.
  intros [Ho Hc _] Hm. assert (Hfit : fits limits Expansion_new) by (split; simpl; rewrite ?zlen_nil; lia).
  specialize (Hm _ Hfit). unfold run_output. destruct (m Expansion_new) as [[a|e| |] x]; try done.
  - destruct Hm as (Hok & Hf & ->). split; [done|]. split; [by intros [= <-]|]. by intros (_ & _ & ->).
  - split; [done|]. split; [done|]. intros (? & ? & _). tauto.
Qed.

(** What is refused whatever the output's length: a value or member or name that is
    too long, a name twice, a prefix of a composite with members, too many members. *)
Definition value_accepted (limits : UriTemplateExpansionLimits) (v : UriTemplateVariable) (value : TemplateValue) : Prop :=
  match value with
  | Scalar s => short limits s
  | List vs => Forall (short limits) (Rfc6570.present vs) ∧ (Rfc6570.present vs ≠ [] → no_prefix v)
  | Associative kvs =>
      NoDup kvs.*1 ∧ Forall (short limits) kvs.*1 ∧ Forall (short limits) (Rfc6570.present_pairs kvs).*2 ∧
      (Rfc6570.present_pairs kvs ≠ [] → no_prefix v)
  end.

Definition acceptable (limits : UriTemplateExpansionLimits) (values : TemplateValues) (ps : list UriTemplatePart) : Prop :=
  Forall (λ vv, value_accepted limits vv.1 vv.2) (bound_variables values ps) ∧
  sum ((λ vv, members vv.2) <$> bound_variables values ps) <= max_composite_items limits.

(** C29: expansion ends and never panics; it succeeds exactly when the values are
    acceptable (short enough, no repeated key, no prefix of a composite, not too
    many members in all) and the expansion is within the output limit, and then it
    is that expansion, which is made of URI characters and percent triplets only.
    The expansion is written from RFC 6570 apart from the code: its character
    classes, its encoding, its table of operators, its count of the characters of
    a prefix.  It is that of appendix A but for two points, where it follows the
    code (the names of exploded pairs of a named operator are encoded as values and
    not as literals, and exploded pairs of other operators drop the equals sign of
    an empty value); it is that of appendix A wherever these do not arise. *)
Theorem expand_exact limits t values out :
  limits_ok limits → Forall part_bytes (parts t) → Forall part_names (parts t) → map_Forall (λ _, value_bytes) values →
  settled (expand_with_limits t values limits) ∧
  (expand_with_limits t values limits = Ok out ↔
   acceptable limits values (parts t) ∧ out = Rfc6570.expand false values (parts t) ∧ zlen out <= max_output_bytes limits) ∧
  uri_text (Rfc6570.expand false values (parts t)) ∧
  (Rfc6570.conforming values (parts t) → Rfc6570.expand false values (parts t) = Rfc6570.expand true values (parts t)).
Proof.
  intros Hl Hp Hnames Hv. pose proof (expand_runs limits Hl values (parts t) Hp Hv) as Hrun.
  destruct (run_output_runs _ _ _ _ out Hl Hrun) as [Hs Hiff]. rewrite <- (expansion_is values _ Hnames) at 1 2.
  split_and!; [exact Hs| |by apply expansion_uri|apply Rfc6570.expand_conforming].
  unfold expand_with_limits. rewrite Hiff. destruct (parts_effect values (parts t) Expansion_new) as [Ho Hc].
  unfold fits, acceptable. rewrite Ho, Hc. simpl. fold (total (bound_variables values (parts t))).
  pose proof (total_nonneg (bound_variables values (parts t))). rewrite Z.add_0_l. split.
  - intros (? & [? ?] & ->). split_and!; [done|lia|done|done].
  - intros ([? ?] & -> & ?). split_and!; [done|done|lia|done|done].
Qed.
End TemplateExpand.
