(* ===== verification/UriTemplateRoundTrip.v ===== *)
(** Reverse matching of URI templates: a match expands back to the URI, and the URI
    that fully given values expand to matches with those values.

    Expanding and matching URI templates are inverse: the URI that given values
    expand to matches with those values, and a match expands back to its URI. *)
From stdpp Require Import base list gmap strings.
From Stdlib Require Import ZArith Lia.
From S2P Require Import Prelude Utf8 JsonGrammar RawJson UriTemplate UriTemplateParse UriTemplateExpand.
Module TemplateMatch.
Import Template TemplateParse TemplateExpand.

(** * Searching text *)

Lemma strip_prefix_app p s : strip_prefix p (p ++ s) = Some s.
Proof. unfold strip_prefix. by rewrite take_app_length, drop_app_length, bool_decide_true. Qed.

Lemma strip_prefix_nil p : p ≠ [] → strip_prefix p [] = None.
Proof. intros Hp. unfold strip_prefix. rewrite take_nil, bool_decide_false; [done|]. by intros <-. Qed.

Lemma strip_prefix_cons c p x s : c ≠ x → strip_prefix (c :: p) (x :: s) = None.
Proof. intros Hne. unfold strip_prefix. rewrite bool_decide_false; [done|]. simpl. by intros [= ? _]. Qed.

Lemma find_here p s : find p (p ++ s) = Some 0%nat.
Proof. pose proof (strip_prefix_app p s) as Hp. destruct (p ++ s); cbn [find]; by rewrite Hp. Qed.

Lemma find_app c p s r : c ∉ s → find (c :: p) (s ++ (c :: p) ++ r) = Some (length s).
Proof.
  induction s as [|x s IH]; intros Hn; [apply (find_here (c :: p) r)|].
  apply not_elem_of_cons in Hn as [Hx Hn]. cbn [app find]. rewrite strip_prefix_cons by done.
  cbn [app] in IH. by rewrite IH.
Qed.

Lemma find_none c p s : c ∉ s → find (c :: p) s = None.
Proof.
  induction s as [|x s IH]; intros Hn; cbn [find]; [by rewrite strip_prefix_nil|].
  apply not_elem_of_cons in Hn as [Hx Hn]. rewrite strip_prefix_cons by done. by rewrite IH.
Qed.

Lemma find_ge c p s r o : c ∉ s → find (c :: p) (s ++ r) = Some o → (length s ≤ o)%nat.
Proof.
  revert o. induction s as [|x s IH]; intros o Hn Hf; [simpl; lia|].
  apply not_elem_of_cons in Hn as [Hx Hn]. cbn [app find] in Hf. rewrite strip_prefix_cons in Hf by done.
  apply fmap_Some in Hf as (o' & Hf & ->). apply IH in Hf; [|done]. simpl. lia.
Qed.

(** * Encoded values *)

(** No byte of an encoded value is reserved, unless reserved bytes are let through. *)
Lemma hexdigit_not_reserved b : is_ascii_hexdigit b = true → is_reserved b = false.
Proof.
  intros Hb%hexdigit_alphanumeric. apply bool_decide_eq_false.
  change (chars_of ":/?#[]@!$&'()*+,;=") with
    [58; 47; 63; 35; 91; 93; 64; 33; 36; 38; 39; 40; 41; 42; 43; 44; 59; 61]. intros Hin.
  repeat (apply elem_of_cons in Hin as [->|Hin]; [by vm_compute in Hb|]). by apply elem_of_nil in Hin.
Qed.

Lemma unreserved_not_reserved b : is_unreserved b = true → is_reserved b = false ∧ b ≠ 37.
Proof.
  intros Hb. split; [|by intros ->]. apply bool_decide_eq_false.
  change (chars_of ":/?#[]@!$&'()*+,;=") with
    [58; 47; 63; 35; 91; 93; 64; 33; 36; 38; 39; 40; 41; 42; 43; 44; 59; 61]. intros Hin.
  repeat (apply elem_of_cons in Hin as [->|Hin]; [by vm_compute in Hb|]). by apply elem_of_nil in Hin.
Qed.

Definition digit16 (n : Z) : Z := if n <? 10 then 48 + n else 55 + n.

Lemma digit16_facts n : 0 <= n < 16 → hex_value (digit16 n) = Some n ∧ is_reserved (digit16 n) = false.
Proof.
  intros Hn. assert (n ∈ seqZ 0 16) as Hin by (apply elem_of_seqZ; lia).
  repeat (apply elem_of_cons in Hin as [->|Hin]; [by vm_compute|]). by apply elem_of_nil in Hin.
Qed.

Definition unreserved_text (s : list Z) : Prop := ∀ c, is_reserved c = true → c ∉ s.

Lemma encoded_unreserved s : bytes s → unreserved_text (pct_encode false false s).
Proof.
  intros Hs c Hc. induction Hs as [|b s Hb Hs IH]; [apply not_elem_of_nil|]. cbn [pct_encode andb].
  assert (Hnext : c ∉ (if is_unreserved b || false then [b] else triplet b) ++ pct_encode false false s).
  { rewrite orb_false_r, not_elem_of_app. split; [|done]. destruct (is_unreserved b) eqn:Eb.
    - rewrite list_elem_of_singleton. intros ->. apply unreserved_not_reserved in Eb as [Eb _]. congruence.
    - unfold triplet. fold (digit16 (b / 16)) (digit16 (b mod 16)). rewrite !not_elem_of_cons.
      unfold is_byte in Hb. destruct (digit16_facts (b / 16)) as [_ H1]; [dlia|].
      destruct (digit16_facts (b mod 16)) as [_ H2]; [dlia|].
      split_and!; [by intros ->|intros ->; congruence..|apply not_elem_of_nil]. }
  destruct s as [|h [|l s]]; exact Hnext.
Qed.

(** Decoding inverts encoding when no triplet is let through. *)
Lemma decode_encoded_triplets r s : bytes s → decode_triplets (pct_encode r false s) = Some s.
Proof.
  intros Hs. induction Hs as [|b s Hb Hs IH]; [done|]. cbn [pct_encode andb].
  assert (Hnext : decode_triplets ((if is_unreserved b || r && is_reserved b then [b] else triplet b) ++ pct_encode r false s) = Some (b :: s)).
  { destruct (is_unreserved b || r && is_reserved b) eqn:Eb.
    - assert (b ≠ 37) by (intros ->; by destruct r). cbn [app decode_triplets].
      rewrite (proj2 (Z.eqb_neq _ _)) by done. by rewrite IH.
    - unfold triplet. fold (digit16 (b / 16)) (digit16 (b mod 16)). cbn [app decode_triplets]. simpl Z.eqb. cbn match.
      unfold is_byte in Hb. destruct (digit16_facts (b / 16)) as [-> _]; [dlia|].
      destruct (digit16_facts (b mod 16)) as [-> _]; [dlia|]. rewrite IH. cbn [mbind option_bind]. by rewrite nibbles. }
  destruct s as [|h [|l s]]; exact Hnext.
Qed.

Lemma no_triplet_encode r s : contains_pct_encoded_triplet s = false → pct_encode r true s = pct_encode r false s.
Proof.
  induction s as [|b s IH]; [done|]. intros Hc. destruct s as [|h [|l s]]; [done|done|].
  change (contains_pct_encoded_triplet (b :: h :: l :: s)) with
    (is_triplet b h l || contains_pct_encoded_triplet (h :: l :: s)) in Hc.
  apply orb_false_iff in Hc as [Ht Hc]. change (pct_encode r true (b :: h :: l :: s)) with
    (if is_triplet b h l then b :: h :: l :: pct_encode r true s
     else (if is_unreserved b || r && is_reserved b then [b] else triplet b) ++ pct_encode r true (h :: l :: s)).
  rewrite Ht, IH by done. done.
Qed.

Lemma decode_value r s : valid_utf8 s → decode_percent_triplets_once (pct_encode r false s) = Some s.
Proof.
  intros Hs. unfold decode_percent_triplets_once. rewrite decode_encoded_triplets by (by apply valid_utf8_bytes).
  cbn [mbind option_bind]. by rewrite (proj2 (from_utf8_spec s)).
Qed.

(** * Captures *)

(** What comes after an expression, by its boundary. *)
Definition follows (b : option ReversibleBoundary) (rest : list Z) : Prop :=
  match b with
  | None => rest = []
  | Some (BLiteral l) => ∃ r, rest = l ++ r
  | Some (ExpressionPrefix m) => rest = [] ∨ ∃ r, rest = m ++ r
  end.
Definition bounded (b : option ReversibleBoundary) : Prop :=
  match b with None => True | Some b => ∃ c r, as_str b = c :: r ∧ is_reserved c = true end.

Lemma capture_exact s rest b :
  unreserved_text s → bounded b → follows b rest → reverse_capture_to_boundary (s ++ rest) b = Some (s, length s).
Proof.
  intros Hs Hb Hf. destruct b as [b|]; simpl in *; [|by rewrite Hf, app_nil_r].
  destruct Hb as (c & p & Hp & Hc). specialize (Hs c Hc). rewrite Hp.
  destruct b as [l|m]; simpl in Hp; subst.
  - destruct Hf as [r ->]. by rewrite find_app, take_app_length.
  - destruct Hf as [->|[r ->]]; [|by rewrite find_app, take_app_length].
    by rewrite app_nil_r, find_none.
Qed.

Lemma named_capture_exact s rest sep b :
  is_reserved sep = true → unreserved_text s → bounded b → (follows b rest ∨ ∃ r, rest = sep :: r) →
  reversible_named_capture_len (s ++ rest) [sep] b = length s.
Proof.
  intros Hsep Hs Hb Hf. unfold reversible_named_capture_len. rewrite length_app.
  assert (Hge : ∀ c p o, is_reserved c = true → find (c :: p) (s ++ rest) = Some o → (length s ≤ o)%nat).
  { intros c p o Hc. apply find_ge. by apply Hs. }
  assert (Hsepge : match find [sep] (s ++ rest) with Some o => (length s ≤ o)%nat | None => True end).
  { destruct (find [sep] (s ++ rest)) eqn:E; [by eapply Hge|done]. }
  assert (Hbge : match b ≫= (λ b, find (as_str b) (s ++ rest)) with Some o => (length s ≤ o)%nat | None => True end).
  { destruct b as [b|]; [|done]. destruct Hb as (c & p & Hp & Hc). simpl. rewrite Hp.
    destruct (find (c :: p) (s ++ rest)) eqn:E; [by eapply Hge|done]. }
  assert (Hone : rest = [] ∨ find [sep] (s ++ rest) = Some (length s) ∨
    b ≫= (λ b, find (as_str b) (s ++ rest)) = Some (length s)).
  { destruct Hf as [Hf|[r ->]]; [|right; left; apply (find_app sep []); by apply Hs].
    destruct b as [b|]; [|by left]. destruct Hb as (c & p & Hp & Hc). simpl in *.
    assert (Hfound : ∀ r, rest = (c :: p) ++ r → find (as_str b) (s ++ rest) = Some (length s)).
    { intros r ->. rewrite Hp. apply find_app. by apply Hs. }
    destruct b as [l|m]; simpl in *; [destruct Hf as [r ->]; right; right; apply (Hfound r); by rewrite Hp|].
    destruct Hf as [->|[r ->]]; [by left|]. right. right. apply (Hfound r). by rewrite Hp. }
  destruct Hone as [->|[Hone|Hone]].
  - rewrite app_nil_r in *. simpl length. rewrite find_none by (by apply Hs).
    assert (b ≫= (λ b, find (as_str b) s) = None) as ->; [|lia].
    destruct b as [b|]; [|done]. destruct Hb as (c & p & Hp & Hc). simpl. rewrite Hp. apply find_none. by apply Hs.
  - rewrite Hone. destruct (b ≫= _); lia.
  - rewrite Hone. destruct (find [sep] _); lia.
Qed.

(** * One expression *)

(** How a variable is compiled. *)
Definition compiled (v : UriTemplateVariable) : ReversibleTemplateVariable :=
  {| rname := name v; encoded_name := pct_encode false true (name v) |}.

Lemma encoded_nil r s : valid_utf8 s → pct_encode r false s = [] → s = [].
Proof. intros Hs He. pose proof (decode_value r s Hs) as Hd. rewrite He in Hd. by injection Hd as <-. Qed.

Lemma unprefixed_exact r s rest b :
  valid_utf8 s → s ≠ [] → reverse_capture_to_boundary (pct_encode r false s ++ rest) b =
    Some (pct_encode r false s, length (pct_encode r false s)) →
  reverse_match_unprefixed (pct_encode r false s ++ rest) b = Some (Some s, length (pct_encode r false s)).
Proof.
  intros Hs Hne Hc. unfold reverse_match_unprefixed. rewrite Hc. cbn [mbind option_bind].
  rewrite bool_decide_false by (intros He; by apply encoded_nil in He). by rewrite decode_value.
Qed.

Lemma prefixed_exact m r s rest b :
  valid_utf8 s → reverse_capture_to_boundary (pct_encode r false s ++ rest) b =
    Some (pct_encode r false s, length (pct_encode r false s)) →
  reverse_match_prefixed (m ++ pct_encode r false s ++ rest) m b =
  Some (Some s, (length m + length (pct_encode r false s))%nat).
Proof.
  intros Hs Hc. unfold reverse_match_prefixed. rewrite strip_prefix_app, Hc. by rewrite decode_value.
Qed.

Lemma named_exact m v req s rest b :
  valid_utf8 s → bounded b → follows b rest →
  let enc := pct_encode false false s in
  reverse_match_named (m ++ pct_encode false true (name v) ++ 61 :: enc ++ rest) m (compiled v) req b =
  Some (Some s, (length m + length (pct_encode false true (name v)) + 1 + length enc)%nat).
Proof.
  intros Hs Hb Hf enc. unfold reverse_match_named. cbn [encoded_name compiled].
  rewrite app_assoc, strip_prefix_app. cbn [mbind option_bind].
  assert (after_equals (61 :: enc ++ rest) req = Some (enc ++ rest, 1%nat)) as -> by done.
  rewrite capture_exact; [|by apply encoded_unreserved, valid_utf8_bytes|done..].
  unfold enc. rewrite decode_value by done. cbn [mbind option_bind]. by rewrite length_app.
Qed.

(** Which values an operator gives back. *)
Definition recoverable (o : UriTemplateOperator) (s : list Z) : Prop :=
  match o with
  | Simple | PathParameter => s ≠ []
  | Reserved => s ≠ [] ∧ contains_pct_encoded_triplet s = false
  | Fragment => contains_pct_encoded_triplet s = false
  | _ => True
  end.

(** What compiling makes sure of a boundary. *)
Definition boundary_ok (o : UriTemplateOperator) (b : option ReversibleBoundary) : Prop :=
  match o with Reserved | Fragment => b = None | _ => bounded b end.

Lemma match_single o v b s rest :
  valid_utf8 s → recoverable o s → boundary_ok o b → follows b rest →
  let text := first (properties o) ++ named_item (properties o) (name v) s in
  reverse_match_expression {| roperator := o; rvariables := [compiled v]; next_boundary := b |} (text ++ rest) =
  Some ([(name v, s)], length text).
Proof.
  intros Hs Hr Hb Hf text. unfold reverse_match_expression. cbn [rvariables roperator next_boundary].
  pose proof (valid_utf8_bytes s Hs) as Hbytes.
  assert (Hcap : bounded b → reverse_capture_to_boundary (pct_encode false false s ++ rest) b =
    Some (pct_encode false false s, length (pct_encode false false s))).
  { intros Hb'. apply capture_exact; [by apply encoded_unreserved|done..]. }
  assert (Hwhole : ∀ r, b = None → reverse_capture_to_boundary (pct_encode r false s ++ rest) b =
    Some (pct_encode r false s, length (pct_encode r false s))).
  { intros r ->. simpl in Hf. subst rest. simpl. by rewrite app_nil_r. }
  assert (Hname : text = first (properties o) ++ pct_encode false true (name v) ++ 61 :: pct_encode false false s →
    named (properties o) = true → ∀ req, bounded b →
    reverse_match_named (text ++ rest) (first (properties o)) (compiled v) req b = Some (Some s, length text)).
  { intros -> Hnamed req Hb'. rewrite <- !app_assoc, <- app_comm_cons. rewrite named_exact by done.
    repeat f_equal. rewrite !length_app. simpl. lia. }
  destruct o; simpl in Hr, Hb.
  - change text with (pct_encode false false s). rewrite unprefixed_exact by auto. done.
  - destruct Hr as [Hne Ht]. change text with (pct_encode true true s). rewrite no_triplet_encode by done.
    subst b. rewrite unprefixed_exact by auto. done.
  - change text with ([35] ++ pct_encode true true s). rewrite no_triplet_encode, <- app_assoc by done.
    rewrite (prefixed_exact (chars_of "#")) by auto. cbn [mbind option_bind]. by rewrite length_app.
  - change text with ([46] ++ pct_encode false false s). rewrite <- app_assoc.
    rewrite (prefixed_exact (chars_of ".")) by auto. cbn [mbind option_bind]. by rewrite length_app.
  - change text with ([47] ++ pct_encode false false s). rewrite <- app_assoc.
    rewrite (prefixed_exact (chars_of "/")) by auto. cbn [mbind option_bind]. by rewrite length_app.
  - rewrite (Hname ltac:(unfold text, named_item; cbn [named properties]; rewrite bool_decide_false by done; by rewrite <- app_assoc)) by done.
    done.
  - rewrite (Hname ltac:(unfold text, named_item; cbn [named properties]; destruct (bool_decide (s = [])); by rewrite <- app_assoc)) by done.
    done.
  - rewrite (Hname ltac:(unfold text, named_item; cbn [named properties]; destruct (bool_decide (s = [])); by rewrite <- app_assoc)) by done.
    done.
Qed.
End TemplateMatch.

Module TemplateRoundTrip.
Import Template TemplateParse TemplateExpand TemplateMatch.

(** * Offsets into URI text *)

Definition ascii_text (s : list Z) : Prop := Forall (λ b, 0 <= b < 128) s.

Lemma allowed_ascii b : is_unreserved b || is_reserved b = true → 0 <= b < 128.
Proof.
  intros [Hb|Hb]%orb_true_iff.
  - unfold is_unreserved, is_ascii_alphanumeric, Raw.is_ascii_alphanumeric in Hb. zbool. lia.
  - apply bool_decide_eq_true in Hb. change (chars_of ":/?#[]@!$&'()*+,;=") with
      [58; 47; 63; 35; 91; 93; 64; 33; 36; 38; 39; 40; 41; 42; 43; 44; 59; 61] in Hb.
    repeat (apply elem_of_cons in Hb as [->|Hb]; [lia|]). by apply elem_of_nil in Hb.
Qed.

Lemma hexdigit_ascii b : is_ascii_hexdigit b = true → 0 <= b < 128.
Proof.
  intros Hb%hexdigit_alphanumeric. apply allowed_ascii. unfold is_unreserved. by rewrite Hb.
Qed.

Lemma uri_ascii s : uri_text s → ascii_text s.
Proof.
  induction 1 as [|b r Hb _ IH|h l r Hh Hl _ IH]; [constructor| |].
  { rewrite unreserved_is, reserved_is in Hb. constructor; [by apply allowed_ascii|done]. }
  rewrite hexdig_is in Hh, Hl. repeat constructor; try done; try lia; by apply hexdigit_ascii.
Qed.

Lemma ascii_boundary s : ascii_text s → starts_on_boundary s = true.
Proof. intros [|b r Hb _]; [done|]. unfold starts_on_boundary. apply negb_true_iff. unfold is_cont. zbool. lia. Qed.

Lemma get_from_app pre s : ascii_text s → get_from (pre ++ s) (length pre) = Some s.
Proof.
  intros Hs. unfold get_from. rewrite drop_app_length, ascii_boundary, bool_decide_true by (rewrite ?length_app; auto; lia).
  done.
Qed.

(** * Several named variables *)

Section named_variables.
Context (o : UriTemplateOperator) (b : option ReversibleBoundary) (rest : list Z) (scalar : list Z → list Z).
Context (Hnamed : named (properties o) = true) (Hb : bounded b) (Hrest : follows b rest).

Definition variable_item (v : UriTemplateVariable) : list Z := named_item (properties o) (name v) (scalar (name v)).
Definition capture_of (v : UriTemplateVariable) : list Z * list Z := (name v, scalar (name v)).

(** What the variables still to come write. *)
Definition wire (wrote : bool) (vs : list UriTemplateVariable) : list Z :=
  if wrote then vs ≫= (λ v, separator (properties o) ++ variable_item v)
  else assemble (properties o) (variable_item <$> vs).

Definition capturable (v : UriTemplateVariable) : Prop :=
  valid_utf8 (scalar (name v)) ∧ (o = PathParameter → scalar (name v) ≠ []).

Lemma wire_cons wrote v vs : wire wrote (v :: vs) =
  (if wrote then separator (properties o) else first (properties o)) ++ variable_item v ++ wire true vs.
Proof.
  unfold wire. destruct wrote; [by rewrite bind_cons, <- app_assoc|]. cbn [fmap list_fmap assemble]. do 2 f_equal.
  induction vs as [|w vs IH]; [done|]. cbn [fmap list_fmap]. by rewrite !bind_cons, <- IH.
Qed.

Lemma item_shape v : capturable v →
  variable_item v = pct_encode false true (name v) ++ 61 :: pct_encode false false (scalar (name v)).
Proof.
  intros [_ Hne]. unfold variable_item, named_item. rewrite Hnamed.
  destruct o; try done; cbn [if_empty properties allow_reserved encoded];
    [rewrite bool_decide_false by auto|destruct (bool_decide _)..]; by rewrite <- app_assoc.
Qed.

Lemma named_separator : ∃ sep, separator (properties o) = [sep] ∧ is_reserved sep = true.
Proof. by destruct o; try done; eexists. Qed.

Lemma strip_equals s : strip_prefix (chars_of "=") (61 :: s) = Some s.
Proof. apply (strip_prefix_app [61]). Qed.

Lemma match_named_variable_exact wrote v vs :
  capturable v → ascii_text (wire wrote (v :: vs) ++ rest) →
  let marker := if wrote then separator (properties o) else first (properties o) in
  match_named_variable (properties o) (is_query o) b marker (wire wrote (v :: vs) ++ rest) (compiled v) =
  Captures (scalar (name v)) (length (marker ++ variable_item v)).
Proof.
  intros Hv Ha marker. unfold match_named_variable. rewrite wire_cons. fold marker. rewrite <- !app_assoc, strip_prefix_app.
  cbn [mbind option_bind encoded_name compiled]. rewrite item_shape by done. rewrite <- app_assoc, strip_prefix_app.
  rewrite <- app_comm_cons. rewrite strip_equals.
  destruct named_separator as (sep & Hsep & Hres). destruct Hv as [Hv _].
  set (enc := pct_encode false false (scalar (name v))).
  assert (Hlen : reversible_named_capture_len (enc ++ wire true vs ++ rest) (separator (properties o)) b = length enc).
  { rewrite Hsep. apply named_capture_exact; [done|by apply encoded_unreserved, valid_utf8_bytes|done|].
    destruct vs as [|w vs]; [by left|]. right. rewrite wire_cons, Hsep. by eexists. }
  rewrite Hlen, drop_app_length, take_app_length. rewrite ascii_boundary.
  - unfold enc. rewrite decode_value by done. cbn [negb]. f_equal. rewrite !length_app. simpl. lia.
  - rewrite wire_cons, <- !app_assoc in Ha. unfold ascii_text in *. rewrite !Forall_app in *. tauto.
Qed.

Lemma match_named_loop_exact vs : ∀ wrote pre,
  Forall capturable vs → ascii_text (wire wrote vs ++ rest) →
  match_named_loop (properties o) (is_query o) b (compiled <$> vs) (pre ++ wire wrote vs ++ rest) (length pre) wrote =
  Some (capture_of <$> vs, (length pre + length (wire wrote vs))%nat).
Proof.
  induction vs as [|v vs IH]; intros wrote pre Hvs Ha.
  { simpl. repeat f_equal. destruct wrote; simpl; lia. }
  apply Forall_cons in Hvs as [Hv Hvs]. cbn [fmap list_fmap match_named_loop]. rewrite get_from_app by done.
  cbn [mbind option_bind]. rewrite match_named_variable_exact by done.
  rewrite wire_cons in *. set (marker := if wrote then _ else _) in *.
  replace (pre ++ (marker ++ variable_item v ++ wire true vs) ++ rest) with
    ((pre ++ marker ++ variable_item v) ++ wire true vs ++ rest) by (by rewrite <- !app_assoc).
  replace (length pre + length (marker ++ variable_item v))%nat with (length (pre ++ marker ++ variable_item v))
    by (by rewrite length_app).
  rewrite IH; [|done|rewrite <- !app_assoc in Ha; unfold ascii_text in *; rewrite !Forall_app in *; tauto].
  cbn [mbind option_bind]. do 2 f_equal. rewrite !length_app. lia.
Qed.
End named_variables.

(** * What compiling keeps *)

Lemma default_limits_ok : limits_ok default_limits.
Proof. by split. Qed.

Lemma encode_literal_ok l s : bytes l → encode_literal l = Ok s → s = pct_encode true true l.
Proof.
  intros Hl H. by destruct (run_output_runs _ _ _ _ s default_limits_ok (runs_literal _ default_limits_ok l Hl)) as
    [_ [(_ & _ & ->)%(λ f, f H) _]].
Qed.

Lemma encode_name_ok n s : bytes n → encode_name n = Ok s → s = pct_encode false true n.
Proof.
  intros Hn H. by destruct (run_output_runs _ _ _ _ s default_limits_ok (runs_name _ default_limits_ok n Hn)) as
    [_ [(_ & _ & ->)%(λ f, f H) _]].
Qed.

Lemma compile_variables_ok vs : ∀ names rvs names',
  Forall (λ v, bytes (name v)) vs → compile_variables vs names = Ok (rvs, names') →
  rvs = compiled <$> vs ∧ Forall no_prefix vs.
Proof.
  induction vs as [|v vs IH]; intros names rvs names' Hb H; cbn [compile_variables] in H.
  { injection H as <- <-. by split; [|constructor]. }
  apply Forall_cons in Hb as [Hv Hb]. unfold no_prefix at 1.
  assert (Hgo : no_prefix v ∧ ∃ rvs', rvs = compiled v :: rvs' ∧
    ∃ names0 names1, compile_variables vs names0 = Ok (rvs', names1)).
  { unfold no_prefix. destruct (modifier v) as [[len|]|]; [done|..];
      (case_if_in H; [done|]; destruct (encode_name (name v)) as [s| | |] eqn:Es; try done;
       apply encode_name_ok in Es as ->; [|done]; cbn [obind] in H;
       destruct (compile_variables vs _) as [[rvs' names1]| | |] eqn:Ec; try done;
       injection H as <- <-; split; [done|]; eexists; split; [done|]; by eexists _, _). }
  destruct Hgo as (Hp & rvs' & -> & names0 & names1 & Hc). apply IH in Hc as [-> Hvs]; [|done].
  split; [done|by constructor].
Qed.

(** What the boundary of an expression is, from the parts after it. *)
Definition boundary_is (ps : list UriTemplatePart) (b : option ReversibleBoundary) : Prop :=
  match ps with
  | [] => b = None
  | Literal l :: _ => b = Some (BLiteral (pct_encode true true l))
  | Expression e :: _ => b = Some (ExpressionPrefix (first (properties (operator e))))
  end.

Inductive compiles : list UriTemplatePart → list ReversibleTemplatePart → Prop :=
| compiles_nil : compiles [] []
| compiles_literal l ps rps :
    compiles ps rps → compiles (Literal l :: ps) (RLiteral (pct_encode true true l) :: rps)
| compiles_expression e ps b rps :
    variables e ≠ [] → (length (variables e) = 1%nat ∨ named (properties (operator e)) = true) →
    Forall no_prefix (variables e) → boundary_ok (operator e) b → boundary_is ps b → compiles ps rps →
    compiles (Expression e :: ps)
      (RExpression {| roperator := operator e; rvariables := compiled <$> variables e; next_boundary := b |} :: rps).

Lemma boundary_of_ok e ps b :
  Forall part_bytes ps → boundary_of e (head ps) = Ok b → boundary_is ps b.
Proof.
  intros Hps H. destruct ps as [|[l|e'] ps]; simpl in *; [by injection H as <-|..].
  - apply Forall_cons in Hps as [Hl _]. destruct (encode_literal l) as [s| | |] eqn:Es; try done.
    apply encode_literal_ok in Es as ->; [|done]. by injection H as <-.
  - unfold reversible_adjacent_expression_boundary in H.
    destruct (operator e'); try done; try (by injection H as <-). case_if_in H; [done|by injection H as <-].
Qed.

Lemma validate_boundary_ok o b : validate_reversible_expression o b = Ok tt → boundary_ok o b.
Proof.
  intros H. destruct b as [b|]; [|by destruct o]. unfold boundary_ok, bounded.
  destruct o; try done; cbn [validate_reversible_expression] in H; (destruct (as_str b) as [|c r]; [done|]; simpl in H; case_if_in H; [|done]; by eexists _, _).
Qed.

Lemma compile_parts_ok ps : ∀ names rps,
  Forall part_bytes ps → compile_parts ps names = Ok rps → compiles ps rps.
Proof.
  induction ps as [|[l|e] ps IH]; intros names rps Hb H; cbn [compile_parts] in H.
  - injection H as <-. constructor.
  - apply Forall_cons in Hb as [Hl Hb]. destruct (encode_literal l) as [s| | |] eqn:Es; try done.
    apply encode_literal_ok in Es as ->; [|done]. cbn [obind] in H.
    destruct (compile_parts ps names) as [rps'| | |] eqn:Ec; try done. injection H as <-. constructor. by eapply IH.
  - apply Forall_cons in Hb as [He Hb]. unfold compile_expression in H. case_if_in H; [done|]. rename E into Emany.
    destruct (compile_variables (variables e) names) as [[rvs names']| | |] eqn:Ev; try done. cbn [obind] in H.
    apply compile_variables_ok in Ev as [-> Hp]; [|done].
    destruct (boundary_of e (head ps)) as [b| | |] eqn:Eb; try done. cbn [obind] in H.
    destruct (validate_reversible_expression (operator e) b) as [[]| | |] eqn:Eok; try done. cbn [obind] in H.
    destruct (compile_parts ps names') as [rps'| | |] eqn:Ec; try done. injection H as <-.
    apply orb_false_iff in Emany as [Hne Hmany]. apply bool_decide_eq_false in Hne.
    constructor; [done| |done|by apply validate_boundary_ok|by apply boundary_of_ok in Eb|by eapply IH].
    apply andb_false_iff in Hmany as [Hone|Hn]; zbool; [left|by right]. unfold zlen in Hone. lia.
Qed.

(** * Values a template gives back *)

Section values.
Context (values : TemplateValues).

Definition scalar_of (n : list Z) : list Z := match values !! n with Some (Scalar s) => s | _ => [] end.

Definition all_given (e : UriTemplateExpression) : Prop := Forall (λ v, is_Some (values !! name v)) (variables e).
Definition absent (pt : UriTemplatePart) : Prop :=
  match pt with Literal _ => False | Expression e => Forall (λ v, values !! name v = None) (variables e) end.

(** Every expression has all its values, but for a tail of expressions with none. *)
Fixpoint given (ps : list UriTemplatePart) : Prop :=
  match ps with
  | [] => True
  | Literal _ :: ps => given ps
  | Expression e :: ps => (all_given e ∧ given ps) ∨ Forall absent (Expression e :: ps)
  end.

Definition scalars : Prop := map_Forall (λ _ value, ∃ s, value = Scalar s ∧ valid_utf8 s) values.

(** What the operator of an expression gives back of its values. *)
Definition readable (pt : UriTemplatePart) : Prop :=
  match pt with
  | Literal _ => True
  | Expression e => Forall (λ v, is_Some (values !! name v) → recoverable (operator e) (scalar_of (name v))) (variables e)
  end.

Context (Hscalars : scalars).

Lemma given_scalar n : is_Some (values !! n) → values !! n = Some (Scalar (scalar_of n)) ∧ valid_utf8 (scalar_of n).
Proof.
  intros [value Hv]. unfold scalar_of. rewrite Hv. by destruct (Hscalars n value Hv) as (s & -> & ?).
Qed.

Lemma items_given o vs :
  Forall no_prefix vs → Forall (λ v, is_Some (values !! name v)) vs →
  vs ≫= (λ v, match values !! name v with Some value => items (properties o) v value | None => [] end) =
  variable_item o scalar_of <$> vs.
Proof.
  induction 1 as [|v vs Hp _ IH]; intros Hg; [done|]. apply Forall_cons in Hg as [Hv Hg].
  rewrite bind_cons, IH by done. apply given_scalar in Hv as [-> _]. unfold no_prefix in Hp. cbn [items].
  by destruct (modifier v) as [[]|].
Qed.

Lemma absent_expansion ps : Forall absent ps → expansion values ps = [].
Proof.
  induction 1 as [|[l|e] ps Ha _ IH]; [done|done|]. unfold expansion in *. rewrite bind_cons, IH, app_nil_r.
  cbn [part_expansion]. assert (expression_items values e = []) as ->; [|done].
  unfold expression_items. simpl in Ha. induction Ha as [|v vs Hv _ IHv]; [done|]. by rewrite bind_cons, Hv, IHv.
Qed.

Lemma follows_next ps rps b :
  compiles ps rps → given ps → boundary_is ps b → follows b (expansion values ps).
Proof.
  intros Hc Hg Hb. destruct Hc as [|l ps rps _|e ps b' rps Hne _ Hp _ _ _]; simpl in Hb; subst b; [done|by eexists|].
  destruct Hg as [[He _]|Ha]; [|left; by apply absent_expansion]. right.
  unfold expansion. rewrite bind_cons. cbn [part_expansion]. unfold expression_items. rewrite items_given by done.
  destruct (variables e) as [|v vs]; [done|]. cbn [fmap list_fmap assemble]. rewrite <- app_assoc. by eexists.
Qed.

Lemma match_given e b rest :
  variables e ≠ [] → (length (variables e) = 1%nat ∨ named (properties (operator e)) = true) →
  Forall no_prefix (variables e) → boundary_ok (operator e) b → follows b rest → all_given e → readable (Expression e) →
  ascii_text (part_expansion values (Expression e) ++ rest) →
  reverse_match_expression {| roperator := operator e; rvariables := compiled <$> variables e; next_boundary := b |}
    (part_expansion values (Expression e) ++ rest) =
  Some (capture_of scalar_of <$> variables e, length (part_expansion values (Expression e))).
Proof.
  intros Hne Hmany Hp Hb Hf Hg Hr Ha. cbn [part_expansion] in *. unfold expression_items in *.
  rewrite items_given in * by done. unfold all_given in Hg. simpl in Hr.
  destruct (variables e) as [|v [|w vs]] eqn:Evs; [done|..].
  - rewrite Forall_singleton in Hg, Hr. specialize (Hr Hg). apply given_scalar in Hg as [_ Hs].
    cbn [fmap list_fmap assemble] in *. cbn [mbind list_bind] in *. rewrite app_nil_r in *. by apply match_single.
  - destruct Hmany as [|Hnamed]; [done|].
    assert (Hbd : bounded b) by (by destruct (operator e)).
    apply (match_named_loop_exact (operator e) b rest scalar_of Hnamed Hbd Hf (v :: w :: vs) false []); [|done].
    rewrite Forall_forall in Hg, Hr |- *. intros u Hu. specialize (Hg u Hu). specialize (Hr u Hu Hg).
    apply given_scalar in Hg as [_ Hs]. split; [done|]. intros Ho. by rewrite Ho in Hr.
Qed.

Lemma match_absent e b :
  variables e ≠ [] → (length (variables e) = 1%nat ∨ named (properties (operator e)) = true) →
  boundary_ok (operator e) b → (match b with Some (BLiteral _) => False | _ => True end) →
  reverse_match_expression {| roperator := operator e; rvariables := compiled <$> variables e; next_boundary := b |} [] =
  Some ([], 0%nat).
Proof.
  intros Hne Hmany Hb Hl. unfold reverse_match_expression. cbn [rvariables roperator next_boundary].
  assert (Hun : ∀ b, match b with Some (BLiteral _) => False | _ => True end → reverse_match_unprefixed [] b = Some (None, 0%nat)).
  { intros [[l|m]|] Hm; [done| |done]. unfold reverse_match_unprefixed, reverse_capture_to_boundary.
    by destruct (find _ []) as [k|]; simpl; rewrite ?take_nil. }
  destruct (variables e) as [|v [|w vs]] eqn:Evs; [done|..].
  - cbn [fmap list_fmap]. assert (Hn : ∀ m req, m ≠ [] → reverse_match_named [] m (compiled v) req b = Some (None, 0%nat)).
    { intros m req Hm. unfold reverse_match_named. rewrite strip_prefix_nil; [done|]. by destruct m. }
    destruct (operator e); rewrite ?Hun, ?Hn by done; done.
  - destruct Hmany as [|Hnamed]; [done|]. change (reverse_match_named_expression
      {| roperator := operator e; rvariables := compiled <$> v :: w :: vs; next_boundary := b |} [] = Some ([], 0%nat)).
    unfold reverse_match_named_expression. cbn [rvariables roperator next_boundary].
    clear Evs Hne. induction (v :: w :: vs) as [|u us IH]; [done|]. cbn [fmap list_fmap match_named_loop].
    assert (get_from [] 0 = Some []) as -> by done. cbn [mbind option_bind].
    unfold match_named_variable. rewrite strip_prefix_nil by (by destruct (operator e)). exact IH.
Qed.

(** ** All parts *)

Definition captures (ps : list UriTemplatePart) : list (list Z * list Z) :=
  ps ≫= (λ pt, match pt with
               | Literal _ => []
               | Expression e => omap (λ v, match values !! name v with
                                            | Some _ => Some (capture_of scalar_of v)
                                            | None => None
                                            end) (variables e)
               end).

Lemma captures_given vs : Forall (λ v, is_Some (values !! name v)) vs →
  omap (λ v, match values !! name v with Some _ => Some (capture_of scalar_of v) | None => None end) vs =
  capture_of scalar_of <$> vs.
Proof. induction 1 as [|v vs [value Hv] _ IH]; [done|]. cbn [omap list_omap fmap list_fmap]. by rewrite Hv, IH. Qed.

Lemma captures_absent ps : Forall absent ps → captures ps = [].
Proof.
  induction 1 as [|[l|e] ps Ha _ IH]; [done|done|]. unfold captures in *. rewrite bind_cons, IH, app_nil_r.
  simpl in Ha. induction Ha as [|v vs Hv _ IHv]; [done|]. cbn [omap list_omap]. by rewrite Hv.
Qed.

Lemma match_absent_parts ps rps : compiles ps rps → Forall absent ps → ∀ uri vals,
  match_parts rps uri (length uri) vals = Some (length uri, vals).
Proof.
  induction 1 as [|l ps rps _ _|e ps b rps Hne Hmany _ Hb Hnext _ IH]; intros Ha uri vals; [done|by inversion Ha|].
  apply Forall_cons in Ha as [_ Ha]. cbn [match_parts].
  rewrite <- (app_nil_r uri) at 1. rewrite get_from_app by constructor. cbn [mbind option_bind].
  rewrite match_absent; [|done..|].
  - cbn [mbind option_bind]. rewrite Nat.add_0_r. by apply IH.
  - destruct Ha as [|[l|e'] ps Ha _]; simpl in Hnext; by subst b.
Qed.

Lemma match_parts_exact ps rps : compiles ps rps → given ps → Forall readable ps → ∀ pre vals,
  ascii_text (expansion values ps) →
  match_parts rps (pre ++ expansion values ps) (length pre) vals =
  Some (length (pre ++ expansion values ps), insert_captures (captures ps) vals).
Proof.
  induction 1 as [|l ps rps Hc IH|e ps b rps Hne Hmany Hp Hb Hnext Hc IH]; intros Hg Hr pre vals Ha.
  - simpl. by rewrite app_nil_r.
  - apply Forall_cons in Hr as [_ Hr]. cbn [match_parts]. rewrite get_from_app by done. cbn [mbind option_bind].
    unfold expansion in *. rewrite !bind_cons in *. cbn [part_expansion] in *. rewrite strip_prefix_app.
    fold (expansion values ps) in *. set (enc := pct_encode true true l) in *. cbn [mbind option_bind].
    rewrite app_assoc. replace (length ((pre ++ enc) ++ expansion values ps) - length (expansion values ps))%nat
      with (length (pre ++ enc)) by (rewrite (length_app (pre ++ enc)); lia).
    apply IH; [done..|]. by apply Forall_app in Ha as [_ Ha].
  - destruct Hg as [[He Hg]|Habs].
    2: { rewrite absent_expansion, app_nil_r, captures_absent by done.
         by apply (match_absent_parts _ _ (compiles_expression e ps b rps Hne Hmany Hp Hb Hnext Hc)). }
    apply Forall_cons in Hr as [Hre Hr]. cbn [match_parts]. rewrite get_from_app by done. cbn [mbind option_bind].
    unfold expansion, captures in *. rewrite !bind_cons in *. fold (expansion values ps) in *. fold (captures ps) in *.
    rewrite match_given; try done; [|by eapply follows_next]. cbn [mbind option_bind].
    rewrite captures_given by done. apply Forall_app in Ha as [_ Ha].
    rewrite app_assoc, <- length_app. rewrite IH by done. unfold insert_captures. by rewrite foldl_app.
Qed.

(** Captures of a value per name make up the values. *)
Lemma insert_captures_lookup cs : ∀ m n,
  (∀ c, c ∈ cs → values !! c.1 = Some (Scalar c.2)) →
  insert_captures cs m !! n = if bool_decide (n ∈ cs.*1) then values !! n else m !! n.
Proof.
  induction cs as [|c cs IH]; intros m n Hc; [by rewrite bool_decide_false by apply not_elem_of_nil|].
  cbn [insert_captures foldl]. fold (insert_captures cs (<[c.1:=Scalar c.2]> m)).
  rewrite IH by (intros d Hd; apply Hc; by right). destruct (decide (n ∈ cs.*1)) as [Hn|Hn].
  - rewrite !bool_decide_true; [done|by right|done].
  - rewrite (bool_decide_false (n ∈ cs.*1)) by done. destruct (decide (n = c.1)) as [->|Hne].
    + rewrite lookup_insert_eq, bool_decide_true by (by left). symmetry. apply Hc. by left.
    + rewrite lookup_insert_ne, bool_decide_false; [done| |done]. by intros [?|?]%elem_of_cons.
Qed.

Definition only_binds (ps : list UriTemplatePart) : Prop :=
  map_Forall (λ n _, ∃ e v, Expression e ∈ ps ∧ v ∈ variables e ∧ name v = n) values.

Lemma captures_values ps : only_binds ps → insert_captures (captures ps) ∅ = values.
Proof.
  intros Ho. apply map_eq. intros n. rewrite insert_captures_lookup.
  - destruct (bool_decide _) eqn:E; [done|]. apply bool_decide_eq_false in E. rewrite lookup_empty.
    destruct (values !! n) as [value|] eqn:Ev; [|done]. destruct E.
    destruct (Ho n value Ev) as (e & v & He & Hv & <-). apply list_elem_of_fmap. exists (capture_of scalar_of v).
    split; [done|]. apply list_elem_of_bind. exists (Expression e). split; [|done]. apply list_elem_of_omap.
    exists v. by rewrite Ev.
  - intros c (pt & Hc & _)%list_elem_of_bind. destruct pt as [l|e]; [by apply elem_of_nil in Hc|].
    apply list_elem_of_omap in Hc as (v & _ & Hc). destruct (values !! name v) eqn:Ev; [|done].
    injection Hc as <-. by apply given_scalar.
Qed.
End values.

(** * The round trip *)

(** Path parameters are given non-empty values. *)
Definition parameters_non_empty (values : TemplateValues) (ps : list UriTemplatePart) : Prop :=
  Forall (λ pt, match pt with
                | Expression e => operator e = PathParameter → Forall (λ v, values !! name v ≠ Some (Scalar [])) (variables e)
                | Literal _ => True
                end) ps.

Lemma check_variables_recoverable values o vs :
  scalars values → check_variables o values (compiled <$> vs) = Ok tt →
  (o = PathParameter → Forall (λ v, values !! name v ≠ Some (Scalar [])) vs) →
  Forall (λ v, is_Some (values !! name v) → recoverable o (scalar_of values (name v))) vs.
Proof.
  intros Hs H Hpath. induction vs as [|v vs IH]; [constructor|]. cbn [fmap list_fmap check_variables] in H.
  destruct (check_variable o values (compiled v)) as [[]| | |] eqn:Ec; try done. cbn [obind] in H. constructor.
  - intros Hv. apply (given_scalar values Hs) in Hv as [Hv _]. unfold check_variable in Ec. cbn [rname compiled] in Ec.
    rewrite Hv in Ec. set (s := scalar_of values (name v)) in *. case_if_in Ec; [done|]. case_if_in Ec; [done|].
    destruct o; simpl in *; try done.
    + rewrite andb_true_r in E. by apply bool_decide_eq_false in E.
    + rewrite andb_true_r in E. apply bool_decide_eq_false in E. done.
    + specialize (Hpath eq_refl). apply Forall_cons in Hpath as [Hpath _]. intros Hnil. by rewrite Hv, Hnil in Hpath.
  - apply IH; [done|]. intros Ho. by apply Forall_cons in Hpath as [_ Hpath].
Qed.

Lemma check_parts_readable values ps rps :
  compiles ps rps → scalars values → parameters_non_empty values ps → check_parts values rps = Ok tt →
  Forall (readable values) ps.
Proof.
  intros Hc Hs. induction Hc as [|l ps rps _ IH|e ps b rps _ _ _ _ _ _ IH]; intros Hpath H; [constructor|..];
    apply Forall_cons in Hpath as [He Hpath]; cbn [check_parts] in H.
  - constructor; [done|by apply IH].
  - cbn [roperator rvariables] in H. destruct (check_variables _ _ _) as [[]| | |] eqn:Ev; try done.
    constructor; [|by apply IH]. by apply check_variables_recoverable.
Qed.

Lemma scalars_bytes values : scalars values → map_Forall (λ _, value_bytes) values.
Proof. intros Hs n value Hv. destruct (Hs n value Hv) as (s & -> & Hu). by apply valid_utf8_bytes. Qed.

Lemma expand_ok t values uri :
  Forall part_bytes (parts t) → map_Forall (λ _, value_bytes) values → UriTemplate_expand t values = Ok uri →
  uri = expansion values (parts t) ∧ zlen uri <= MAX_URI_TEMPLATE_MATCH_INPUT_BYTES.
Proof.
  intros Hp Hv H. pose proof (expand_runs default_limits default_limits_ok values (parts t) Hp Hv) as Hrun.
  apply (run_output_runs _ _ _ _ uri default_limits_ok) in Hrun as [_ [Hok _]].
  destruct (Hok H) as (_ & [Hfit _] & ->). destruct (parts_effect values (parts t) Expansion_new) as [Heff _].
  by rewrite Heff in *.
Qed.

Lemma match_sound rt uri values : match_uri rt uri = Ok (Some values) → Reversible_expand rt values = Ok uri.
Proof.
  unfold match_uri. intros H. case_if_in H; [done|]. destruct (match_parts _ _ _ _) as [[o vs]|]; [|done].
  case_if_in H; [done|]. destruct (Reversible_expand rt vs) as [s| | |] eqn:Es; try done. cbn [obind] in H.
  case_if_in H; [|done]. apply bool_decide_eq_true in E1 as <-. by injection H as <-.
Qed.

(** C28: a template that can be reversed gives back the values it was expanded with:
    when a compiled template expands values, scalars in UTF-8 that bind only its
    variables, to a URI, then matching that URI answers exactly those values,
    provided every expression has all its variables (a tail of expressions may
    have none of theirs) and no path parameter is empty.  Whatever the URI, a
    match only answers values that expand to it. *)
Theorem match_inverts_expand t rt values uri :
  from_template t = Ok rt → Forall part_bytes (parts t) → scalars values → only_binds values (parts t) →
  given values (parts t) → parameters_non_empty values (parts t) →
  Reversible_expand rt values = Ok uri →
  match_uri rt uri = Ok (Some values) ∧
  (∀ uri' values', match_uri rt uri' = Ok (Some values') → Reversible_expand rt values' = Ok uri').
Proof.
  intros Ht Hp Hs Ho Hg Hpath Hexp. split; [|apply match_sound].
  unfold from_template in Ht. destruct (compile_parts (parts t) ∅) as [rps| | |] eqn:Ec; try done.
  injection Ht as <-. apply compile_parts_ok in Ec; [|done]. unfold match_uri. cbn [rparts].
  pose proof Hexp as Hrun. unfold Reversible_expand in Hrun. cbn [rparts template] in Hrun.
  destruct (check_parts values rps) as [[]| | |] eqn:Eck; try done. cbn [obind] in Hrun.
  apply (check_parts_readable _ (parts t)) in Eck; [|done..].
  apply expand_ok in Hrun as [Huri Hlen]; [|done|by apply scalars_bytes].
  assert (Ha : ascii_text (expansion values (parts t))).
  { apply uri_ascii, expansion_uri; [done|by apply scalars_bytes]. }
  rewrite (proj2 (Z.ltb_ge _ _)) by lia.
  pose proof (match_parts_exact values Hs _ _ Ec Hg Eck [] ∅ Ha) as Hm. cbn [app length] in Hm. rewrite Huri, Hm.
  rewrite captures_values, bool_decide_true by done. cbn [negb]. rewrite Hexp, Huri. cbn [obind].
  by rewrite bool_decide_true.
Qed.
End TemplateRoundTrip.
