(* ===== verification/UriTemplateExamples.v ===== *)
(** URI templates on concrete input: the theorems applied, and values that do not
    come back from the URI they expand to. *)
From stdpp Require Import base list gmap strings.
From Stdlib Require Import ZArith Lia.
From S2P Require Import Prelude Utf8 JsonGrammar RawJson UriTemplate UriTemplateParse UriTemplateExpand UriTemplateRoundTrip.

Module TemplateExamples.
Import Template TemplateParse TemplateExpand TemplateMatch TemplateRoundTrip.

(** A template from its text, and what it is compiled to. *)
Definition template_of (text : string) : UriTemplate :=
  match parse (chars_of text) with Ok t => t | _ => {| source := []; parts := [] |} end.
Definition compiled_of (text : string) : ReversibleResourceTemplate :=
  match from_template (template_of text) with Ok rt => rt | _ => {| template := template_of ""; rparts := [] |} end.
Definition scalar_values (l : list (string * string)) : TemplateValues :=
  list_to_map ((λ nv, (chars_of nv.1, Scalar (chars_of nv.2))) <$> l).

Definition text_bytesb (pt : UriTemplatePart) : bool :=
  let ok := forallb (λ b, (0 <=? b) && (b <? 256)) in
  match pt with Literal l => ok l | Expression e => forallb (λ v, ok (name v)) (variables e) end.

Lemma text_bytes ps : forallb text_bytesb ps = true → Forall part_bytes ps.
Proof.
  assert (Hok : ∀ l, forallb (λ b, (0 <=? b) && (b <? 256)) l = true → bytes l).
  { intros l Hl. apply Forall_forall. rewrite forallb_forall in Hl. intros b Hb%list_elem_of_In%Hl. zbool. by split. }
  intros H. apply Forall_forall. rewrite forallb_forall in H. intros pt Hpt%list_elem_of_In%H.
  destruct pt as [l|e]; simpl in *; [by apply Hok|]. apply Forall_forall. rewrite forallb_forall in Hpt.
  intros v Hv%list_elem_of_In%Hpt. by apply Hok.
Qed.

(** The example of the module's documentation. *)
Definition example_values : TemplateValues := scalar_values [("tenant", "a b"); ("id", "42"); ("view", "x/y"); ("lang", "")].

Lemma example_scalars : scalars example_values.
Proof.
  repeat (apply map_Forall_insert_2; [eexists; split; [done|]; by apply from_utf8_spec|]). apply map_Forall_empty.
Qed.

Lemma text_names ps :
  forallb (λ pt, match pt with Literal _ => true | Expression e => forallb (λ v, is_valid_variable_name (name v)) (variables e) end) ps = true →
  Forall part_names ps.
Proof.
  intros H. apply Forall_forall. rewrite forallb_forall in H. intros pt Hpt%list_elem_of_In%H.
  destruct pt as [l|e]; simpl in *; [done|]. apply Forall_forall. rewrite forallb_forall in Hpt.
  intros v Hv%list_elem_of_In%Hpt. by apply is_valid_variable_name_iff.
Qed.

Lemma expand_exact_witness :
  let t := template_of "res://{tenant}/{id}{?view,lang}" in
  let out := chars_of "res://a%20b/42?view=x%2Fy&lang=" in
  settled (expand_with_limits t example_values default_limits) ∧
  (expand_with_limits t example_values default_limits = Ok out ↔
   acceptable default_limits example_values (parts t) ∧ out = Rfc6570.expand false example_values (parts t) ∧
   zlen out <= max_output_bytes default_limits) ∧
  uri_text (Rfc6570.expand false example_values (parts t)) ∧
  (Rfc6570.conforming example_values (parts t) →
   Rfc6570.expand false example_values (parts t) = Rfc6570.expand true example_values (parts t)).
Proof.
  intros t out. apply expand_exact.
  - by split.
  - by apply text_bytes.
  - by apply text_names.
  - apply scalars_bytes, example_scalars.
Defined.

(** Prefixes count characters, whether they are written as such or as triplets; an
    ill-formed triplet counts as one. *)
Example prefix_characters :
  Rfc6570.characters 2 (chars_of "%C3%A9xy") = chars_of "%C3%A9x" ∧ Rfc6570.characters 2 ([195; 169] ++ chars_of "xy") = [195; 169; 120] ∧
  Rfc6570.characters 2 (chars_of "%C3%28x") = chars_of "%C3%28" ∧ Rfc6570.characters 1 (chars_of "%zz") = chars_of "%".
Proof. by vm_compute. Qed.

(** The two points on which the code departs from appendix A of RFC 6570. *)
Definition exploded (k v : string) : TemplateValues :=
  {[ chars_of "p" := Associative [(chars_of k, Some (chars_of v))] ]}.

Example pair_name_encoded_as_value :
  UriTemplate_expand (template_of "{?p*}") (exploded "a/b" "1") = Ok (chars_of "?a%2Fb=1") ∧
  Rfc6570.expand true (exploded "a/b" "1") (parts (template_of "{?p*}")) = chars_of "?a/b=1".
Proof. by vm_compute. Qed.

Example pair_equals_dropped :
  UriTemplate_expand (template_of "{p*}") (exploded "k" "") = Ok (chars_of "k") ∧
  Rfc6570.expand true (exploded "k" "") (parts (template_of "{p*}")) = chars_of "k=".
Proof. by vm_compute. Qed.

Lemma match_inverts_expand_witness :
  let rt := compiled_of "res://{tenant}/{id}{?view,lang}" in
  match_uri rt (chars_of "res://a%20b/42?view=x%2Fy&lang=") = Ok (Some example_values) ∧
  (∀ uri values, match_uri rt uri = Ok (Some values) → Reversible_expand rt values = Ok uri).
Proof.
  intros rt. apply (match_inverts_expand (template_of "res://{tenant}/{id}{?view,lang}")).
  - by vm_compute.
  - by apply text_bytes.
  - apply example_scalars.
  - intros n value Hv. assert (Hn : n ∈ chars_of <$> ["tenant"; "id"; "view"; "lang"]%string).
    { destruct (decide (n ∈ chars_of <$> ["tenant"; "id"; "view"; "lang"]%string)) as [|Hn]; [done|].
      unfold example_values, scalar_values in Hv. rewrite not_elem_of_list_to_map_1 in Hv; [done|].
      by rewrite <- list_fmap_compose. }
    repeat (apply elem_of_cons in Hn as [->|Hn];
      [eexists _, {| name := chars_of _; modifier := None |}; split_and!; [|..|done]; vm_compute; solve [repeat constructor]|]).
    by apply elem_of_nil in Hn.
  - vm_compute. repeat first [left|split|constructor|eexists].
  - vm_compute. repeat constructor; done.
  - by vm_compute.
Defined.

(** * Values that do not come back

    Outside the hypotheses of the round trip, the URI a reversible template
    expands to can match with other values, or with none. *)

Definition trip (text : string) (values : list (string * string)) : option (list Z * option TemplateValues) :=
  match Reversible_expand (compiled_of text) (scalar_values values) with
  | Ok uri => match match_uri (compiled_of text) uri with Ok r => Some (uri, r) | _ => None end
  | _ => None
  end.

(** An absent variable before a literal that looks like its value. *)
Example other_values_come_back :
  trip "{/a}/b{/c}" [("c", "b")] = Some (chars_of "/b/b", Some (scalar_values [("a", "b")])).
Proof. by vm_compute. Qed.

(** An empty path parameter followed by anything but [;]. *)
Example empty_parameter_lost : trip "{;p}/x" [("p", "")] = Some (chars_of ";p/x", None).
Proof. by vm_compute. Qed.

(** A query variable whose name begins with that of an absent one before it. *)
Example name_prefix_lost : trip "{?a,ab}" [("ab", "1")] = Some (chars_of "?ab=1", None).
Proof. by vm_compute. Qed.

(** An absent first expression and an absent one before a literal. *)
Example absent_before_literal_lost : trip "{a}{?q}/x" [] = Some (chars_of "/x", None).
Proof. by vm_compute. Qed.
End TemplateExamples.
