(* ===== verification/SessionState.v ===== *)
(** Session state, [crates/fastmcp-core/src/state.rs]: the key-value store of a
    session, its request-local overrides and its mutation revision.

    Clones of a handle share the map, the overrides and the revision: they are one
    [SessionState] here.  A view with overrides shares the map and the revision
    with the session it was made from; [System] keeps the shared part once and the
    overrides of every view. *)
From stdpp Require Import base list gmap strings.
From Stdlib Require Import ZArith Lia.
From S2P Require Import Prelude Utf8 HttpHeaders.

Module Session.
Import Headers.

Abbreviation Store := (gmap (list Z) Value).

Record SessionState : Type := {
  inner : Store;
  local : option Store;
  state_partition : option (list Z);
  revision : Z;
  ephemeral : bool;
}.

Definition set_inner (m : Store) (s : SessionState) : SessionState :=
  {| inner := m; local := local s; state_partition := state_partition s; revision := revision s; ephemeral := ephemeral s |}.
Definition set_local_store (m : option Store) (s : SessionState) : SessionState :=
  {| inner := inner s; local := m; state_partition := state_partition s; revision := revision s; ephemeral := ephemeral s |}.

(** [drawn] is the outcome of the draw of a fresh identifier. *)
Definition from_map_with_partition_draw (values : Store) (drawn : option (list Z)) : SessionState :=
  {| inner := values; local := None; state_partition := drawn; revision := 0; ephemeral := false |}.

Definition record_mutation (s : SessionState) : SessionState :=
  {| inner := inner s; local := local s; state_partition := state_partition s;
     revision := if revision s + 1 <=? u64_max then revision s + 1 else revision s; ephemeral := ephemeral s |}.

Definition new (drawn : option (list Z)) : SessionState := from_map_with_partition_draw ∅ drawn.

Definition ephemeral_state (drawn : option (list Z)) : SessionState :=
  {| inner := ∅; local := None; state_partition := drawn; revision := 0; ephemeral := true |}.

Definition is_ephemeral (s : SessionState) : bool := ephemeral s.

Definition with_local_overrides (s : SessionState) : SessionState :=
  set_local_store (Some (default ∅ (local s))) s.

(** [HashMap::extend] lets the overrides win. *)
Definition snapshot (s : SessionState) (drawn : option (list Z)) : SessionState :=
  {| inner := default ∅ (local s) ∪ inner s; local := None; state_partition := drawn; revision := 0;
     ephemeral := ephemeral s |}.

Definition get_raw (s : SessionState) (key : list Z) : option Value :=
  match local s ≫= (.!! key) with
  | Some value => Some value
  | None => inner s !! key
  end.

Definition set_raw (key : list Z) (value : Value) (s : SessionState) : bool * SessionState :=
  (true, record_mutation (set_inner (<[key := value]> (inner s)) s)).

Definition set_local_raw (key : list Z) (value : Value) (s : SessionState) : bool * SessionState :=
  match local s with
  | None => (false, s)
  | Some l => (true, record_mutation (set_local_store (Some (<[key := value]> l)) s))
  end.

(** The typed accessors: serialization may fail. *)
Section typed.
Context {T : Type} (to_value : T → option Value) (from_value : Value → option T).

Definition get (s : SessionState) (key : list Z) : option T := get_raw s key ≫= from_value.

Definition set (key : list Z) (value : T) (s : SessionState) : bool * SessionState :=
  match to_value value with
  | None => (false, s)
  | Some json_value => (true, record_mutation (set_inner (<[key := json_value]> (inner s)) s))
  end.

Definition set_local (key : list Z) (value : T) (s : SessionState) : bool * SessionState :=
  match to_value value with
  | None => (false, s)
  | Some json_value => set_local_raw key json_value s
  end.
End typed.

Definition remove_shared (key : list Z) (s : SessionState) : option Value * SessionState :=
  let removed := inner s !! key in
  let s := set_inner (delete key (inner s)) s in
  (removed, match removed with Some _ => record_mutation s | None => s end).

Definition remove (key : list Z) (s : SessionState) : option Value * SessionState :=
  match local s with
  | Some l =>
      match l !! key with
      | Some value => (Some value, record_mutation (set_local_store (Some (delete key l)) s))
      | None => remove_shared key s
      end
  | None => remove_shared key s
  end.

Definition contains (s : SessionState) (key : list Z) : bool := bool_decide (is_Some (get_raw s key)).

Definition len (s : SessionState) : Z :=
  match local s with
  | None => Z.of_nat (size (inner s))
  | Some l => Z.of_nat (size (inner s)) + Z.of_nat (size (filter (λ kv, inner s !! kv.1 = None) l))
  end.

Definition is_empty (s : SessionState) : bool := len s =? 0.

Definition clear (s : SessionState) : SessionState :=
  let changed := negb (bool_decide (inner s = ∅)) || negb (bool_decide (default ∅ (local s) = ∅)) in
  let s := set_local_store ((λ _, ∅) <$> local s) (set_inner ∅ s) in
  if changed then record_mutation s else s.

Definition cache_admission_revision (s : SessionState) : option (list Z * Z) :=
  match local s with
  | Some _ => None
  | None => if revision s =? u64_max then None else (λ p, (p, revision s)) <$> state_partition s
  end.

Definition cache_partition (s : SessionState) : option (list Z * Z) :=
  if ephemeral s || bool_decide (is_Some (local s)) then None else cache_admission_revision s.

Definition retained_continuation_partition (s : SessionState) : option (list Z) := state_partition s.

(** ** Disabled components *)

Definition DISABLED_TOOLS_KEY : list Z := chars_of "fastmcp.disabled_tools".
Definition DISABLED_RESOURCES_KEY : list Z := chars_of "fastmcp.disabled_resources".
Definition DISABLED_PROMPTS_KEY : list Z := chars_of "fastmcp.disabled_prompts".

(** [serde_json::from_value::<HashSet<String>>] *)
Definition string_set (v : Value) : option (gset (list Z)) :=
  match v with
  | VArray vs => list_to_set <$> mapM (λ v, match v with VString s => Some s | _ => None end) vs
  | _ => None
  end.

Definition disabled_set (s : SessionState) (key : list Z) : gset (list Z) := default ∅ (get_raw s key ≫= string_set).
Definition disabled_tools (s : SessionState) : gset (list Z) := disabled_set s DISABLED_TOOLS_KEY.
Definition disabled_resources (s : SessionState) : gset (list Z) := disabled_set s DISABLED_RESOURCES_KEY.
Definition disabled_prompts (s : SessionState) : gset (list Z) := disabled_set s DISABLED_PROMPTS_KEY.

Definition is_in_disabled_set (s : SessionState) (key n : list Z) : bool :=
  match get_raw s key ≫= string_set with Some set => bool_decide (n ∈ set) | None => false end.
Definition is_tool_enabled (s : SessionState) (n : list Z) : bool := negb (is_in_disabled_set s DISABLED_TOOLS_KEY n).
Definition is_resource_enabled (s : SessionState) (uri : list Z) : bool := negb (is_in_disabled_set s DISABLED_RESOURCES_KEY uri).
Definition is_prompt_enabled (s : SessionState) (n : list Z) : bool := negb (is_in_disabled_set s DISABLED_PROMPTS_KEY n).

(** * The handles of one session *)

Inductive mutation : Type :=
| MSet (key : list Z) (value : Value)
| MSetLocal (key : list Z) (value : Value)
| MRemove (key : list Z)
| MClear.

Definition mutate (m : mutation) (s : SessionState) : SessionState :=
  match m with
  | MSet key value => (set_raw key value s).2
  | MSetLocal key value => (set_local_raw key value s).2
  | MRemove key => (remove key s).2
  | MClear => clear s
  end.

(** The session, and the overrides of the views made from it.  A mutation runs on
    the session itself ([None]) or on a view. *)
Record System : Type := { session : SessionState; views : list Store }.

Definition view (sys : System) (i : nat) : SessionState := set_local_store (Some (default ∅ (views sys !! i))) (session sys).

Inductive step : System → System → Prop :=
| step_session m sys : step sys {| session := mutate m (session sys); views := views sys |}
| step_view m sys i :
    step sys {| session := set_local_store (local (session sys)) (mutate m (view sys i));
                views := <[i := default ∅ (local (mutate m (view sys i)))]> (views sys) |}
| step_open sys : step sys {| session := session sys; views := views sys ++ [∅] |}.

(** ** Revisions *)

(** A mutation leaves what is stored as it is, or moves the revision on. *)
Lemma mutate_revision m s :
  state_partition (mutate m s) = state_partition s ∧ ephemeral (mutate m s) = ephemeral s ∧
  (is_Some (local (mutate m s)) ↔ is_Some (local s)) ∧
  ((inner (mutate m s) = inner s ∧ local (mutate m s) = local s ∧ revision (mutate m s) = revision s) ∨
   revision (mutate m s) = if revision s + 1 <=? u64_max then revision s + 1 else revision s).
Proof.
  destruct m as [k v|k v|k|]; simpl.
  - split_and!; [done..|by right].
  - unfold set_local_raw. destruct (local s) eqn:El; [|simpl; rewrite El; split_and!; [done..|by left]].
    split_and!; [done|done|split; intros _; by eexists|by right].
  - assert (Hs : state_partition (remove_shared k s).2 = state_partition s ∧ ephemeral (remove_shared k s).2 = ephemeral s ∧
      (is_Some (local (remove_shared k s).2) ↔ is_Some (local s)) ∧
      ((inner (remove_shared k s).2 = inner s ∧ local (remove_shared k s).2 = local s ∧
        revision (remove_shared k s).2 = revision s) ∨
       revision (remove_shared k s).2 = if revision s + 1 <=? u64_max then revision s + 1 else revision s)).
    { unfold remove_shared. destruct (inner s !! k) eqn:E; split_and!; try done; [by right|].
      left. split_and!; [|done..]. simpl. by apply delete_id. }
    unfold remove. destruct (local s) as [l|] eqn:El; [|exact Hs].
    destruct (l !! k) eqn:E; [|exact Hs]. split_and!; [done|done|split; intros _; by eexists|by right].
  - unfold clear. destruct (negb (bool_decide (inner s = ∅)) || negb (bool_decide (default ∅ (local s) = ∅))) eqn:E; simpl.
    + split_and!; [done..| |by right]. by destruct (local s).
    + apply orb_false_iff in E as [E1%negb_false_iff E2%negb_false_iff]. apply bool_decide_eq_true in E1, E2.
      split_and!; [done..|by destruct (local s)|left]. split_and!; [done| |done].
      destruct (local s); [|done]. simpl in *. by subst.
Qed.

(** What never changes, and what a step does to the revision. *)
Definition follows (s s' : SessionState) : Prop :=
  state_partition s' = state_partition s ∧ ephemeral s' = ephemeral s ∧ local s' = local s ∧
  (revision s <= u64_max → revision s <= revision s' <= u64_max) ∧
  (revision s < u64_max → revision s' = revision s → inner s' = inner s).

Lemma follows_refl s : follows s s.
Proof. split_and!; try done; lia. Qed.

Lemma follows_trans s1 s2 s3 : follows s1 s2 → follows s2 s3 → follows s1 s3.
Proof.
  intros (Hp1 & He1 & Hl1 & H1 & H1') (Hp & He & Hl & H2 & H2'). split_and!; [congruence..|lia|].
  intros Hlt Heq. rewrite H2', H1' by lia. done.
Qed.

Lemma step_follows sys sys' : local (session sys) = None → step sys sys' → follows (session sys) (session sys').
Proof.
  intros Hl Hs. revert Hl. destruct Hs as [m sys0|m sys0 i|sys0]; intros Hl; cbn [session]; [..|apply follows_refl].
  - destruct (mutate_revision m (session sys0)) as (Hp & He & Hloc & Hr). split_and!; [done..| | |].
    + rewrite Hl in Hloc |- *. apply eq_None_not_Some. rewrite Hloc. by intros [? ?].
    + destruct Hr as [(_ & _ & ->)| -> ]; [lia|]. case_goal_if; zbool; lia.
    + intros Hlt Heq. destruct Hr as [(-> & _)|Hr]; [done|]. rewrite Hr in Heq. case_if_in Heq; zbool; lia.
  - pose proof (mutate_revision m (view sys0 i)) as Hm. generalize dependent (mutate m (view sys0 i)).
    intros s' (Hp & He & Hloc & Hr). simpl in *. split_and!; [done..| |]; simpl.
    + destruct Hr as [(_ & _ & ->)| -> ]; [lia|]. case_goal_if; zbool; lia.
    + intros Hlt Heq. destruct Hr as [(-> & _)|Hr]; [done|]. rewrite Hr in Heq. case_if_in Heq; zbool; lia.
Qed.

Lemma steps_follow sys sys' : local (session sys) = None → rtc step sys sys' → follows (session sys) (session sys').
Proof.
  intros Hl Hr. induction Hr as [|sys sys1 sys2 Hs _ IH]; [apply follows_refl|].
  pose proof (step_follows _ _ Hl Hs) as Hf. eapply follows_trans; [exact Hf|]. apply IH.
  by destruct Hf as (_ & _ & -> & _).
Qed.

(** C25: the admission revision of a session identifies its contents: over any
    mutations of the session and of the views with overrides made from it, in any
    order, the partition and the kind of the session stay, its revision never goes
    back, and if the session answers the same admission revision before and after,
    it stores the same. *)
Theorem revision_identifies_contents sys sys' p r :
  local (session sys) = None → 0 <= revision (session sys) <= u64_max → rtc step sys sys' →
  cache_admission_revision (session sys) = Some (p, r) →
  (∀ p' r', cache_admission_revision (session sys') = Some (p', r') → p' = p ∧ r <= r') ∧
  (cache_admission_revision (session sys') = Some (p, r) → ∀ key, get_raw (session sys') key = get_raw (session sys) key).
Proof.
  intros Hl Hr Hs Ha. destruct (steps_follow _ _ Hl Hs) as (Hp & _ & Hloc & Hmon & Hsame).
  unfold cache_admission_revision in *. rewrite Hloc, Hl, Hp in *.
  destruct (revision (session sys) =? u64_max) eqn:E1; [done|]. zbool.
  apply fmap_Some in Ha as (p0 & Hp0 & [= -> ->]). rewrite Hp0. split.
  - intros p' r' Ha. case_if_in Ha; [done|]. injection Ha as <- <-. split; [done|]. apply Hmon. lia.
  - intros Ha key. case_if_in Ha; [done|]. injection Ha as Heq. unfold get_raw. rewrite Hloc, Hl. simpl.
    rewrite Hsame; [done|lia|done].
Qed.
End Session.
