(* ===== verification/ResponseCache.v ===== *)
(** The response cache of the server, [crates/fastmcp-server/src/caching.rs]: the
    bounded least-recently-used store, the keys, the cache policy of results and
    the two handlers of the middleware, with the parts of
    [crates/fastmcp-core/src/context.rs] and of
    [crates/fastmcp-protocol/src/common_types.rs] they call.

    Strings are byte lists, but for the method of a request, which is a list of
    characters; durations and instants are nanoseconds. *)
From stdpp Require Import base list gmap strings.
From Stdlib Require Import ZArith Lia.
From S2P Require Import Prelude Utf8 JsonGrammar RawJson RequestId JsonRpc RateLimit ClientCache HttpHeaders SessionState.

Module RCache.
Import Headers Session.

(** * Constants *)

Definition DEFAULT_LIST_TTL_SECS : Z := 300.
Definition DEFAULT_CALL_TTL_SECS : Z := 3600.
Definition DEFAULT_MAX_ITEM_SIZE : Z := 1024 * 1024.
Definition MAX_CACHE_KEY_INPUT_BYTES : Z := 10 * 1024 * 1024.
Definition MAX_CACHE_JSON_DEPTH : Z := 128.
Definition MAX_CACHE_JSON_NODES : Z := 100000.
Definition CACHE_BYTES_GROWTH_CHUNK : Z := 4 * 1024.
Definition CACHE_ENTRY_METADATA_BYTES : Z := 512.
Definition CACHE_REQUEST_KEY_DOMAIN : list Z := chars_of "fastmcp-response-cache-request-v2" ++ [0].
Definition CACHE_INVALIDATION_KEY_DOMAIN : list Z := chars_of "fastmcp-response-cache-invalidation-v1" ++ [0].
Definition CACHE_PARTITION_KEY_DOMAIN : list Z := chars_of "fastmcp-response-cache-partition-v2" ++ [0].
Definition CACHE_STATELESS_PARTITION_DOMAIN : list Z := chars_of "fastmcp-response-cache-stateless-partition-v1" ++ [0].
Definition SERVER_DISCOVER_METHOD : list Z := chars_of "server/discover".
Definition FINAL_PROTOCOL_VERSION : list Z := chars_of "2026-07-28".
Definition LEGACY_PROTOCOL_VERSION : list Z := chars_of "2024-11-05".
Definition FINAL_PROTOCOL_VERSION_META_KEY : list Z := chars_of "io.modelcontextprotocol/protocolVersion".

Abbreviation Request := (JsonRpcRequest Value).

(** * JSON values *)

(** [Value::get] of a member, [Value::as_str] *)
Definition get_key (key : string) (v : Value) : option Value :=
  ms ← as_object v; get_member (chars_of key) ms.
Definition as_str (v : Value) : option (list Z) := match v with VString s => Some s | _ => None end.
Definition is_object (v : Value) : bool := bool_decide (is_Some (as_object v)).
Definition contains_key (key : string) (ms : list (list Z * Value)) : bool :=
  bool_decide (is_Some (get_member (chars_of key) ms)).

(** A map keeps its keys in the order of their bytes. *)
Fixpoint bytes_lt (a b : list Z) : bool :=
  match a, b with
  | [], [] => false
  | [], _ :: _ => true
  | _ :: _, [] => false
  | x :: a, y :: b => (x <? y) || (x =? y) && bytes_lt a b
  end.
Fixpoint insert_member (key : list Z) (v : Value) (ms : list (list Z * Value)) : list (list Z * Value) :=
  match ms with
  | [] => [(key, v)]
  | (k, w) :: ms =>
      if bool_decide (k = key) then (key, v) :: ms
      else if bytes_lt key k then (key, v) :: (k, w) :: ms
      else (k, w) :: insert_member key v ms
  end.
Definition remove_member (key : string) (ms : list (list Z * Value)) : list (list Z * Value) :=
  filter (λ kv, kv.1 ≠ chars_of key) ms.

(** ** [JsonInteger] *)

Definition MAX_JSON_INTEGER_BYTES : Z := 4 * 1024.
Definition MAX_JSON_INTEGER_EXPONENT_ABS : Z := 10000.

Definition parse_bounded_json_integer_exponent (value : list Z) : option Z :=
  let '(negative, digits) :=
    match value with
    | 45 :: digits => (true, digits)
    | 43 :: digits => (false, digits)
    | _ => (false, value)
    end in
  if bool_decide (digits = []) || negb (forallb is_digit digits) then None
  else if 2 ^ 31 - 1 <? dec_value digits then None
  else if MAX_JSON_INTEGER_EXPONENT_ABS <? dec_value digits then None
  else Some (if negative then - dec_value digits else dec_value digits).

Definition validate_json_integer (value : list Z) : bool :=
  if MAX_JSON_INTEGER_BYTES <? zlen value then false
  else
    match (match split_once is_exponent_mark value with
           | Some (mantissa, exponent) => (λ e, (mantissa, e)) <$> parse_bounded_json_integer_exponent exponent
           | None => Some (value, 0)
           end) with
    | None => false
    | Some (mantissa, exponent) =>
        let mantissa := default mantissa (strip_minus mantissa) in
        let '(whole, fraction) :=
          match split_once (Z.eqb 46) mantissa with
          | Some (whole, fraction) => (whole, Some fraction)
          | None => (mantissa, None)
          end in
        let whole_ok :=
          bool_decide (whole = [48]) ||
          match whole with
          | b :: _ => is_digit b && negb (b =? 48) && forallb is_digit whole
          | [] => false
          end in
        let fraction_ok :=
          match fraction with Some f => negb (bool_decide (f = [])) && forallb is_digit f | None => true end in
        if bool_decide (whole = []) || negb whole_ok || negb fraction_ok then false
        else
          let fraction := default [] fraction in
          let digits := whole ++ fraction in
          if forallb (Z.eqb 48) digits then true
          else
            let scale := zlen fraction - exponent in
            (scale <=? 0) || (scale <=? zlen (take_while (Z.eqb 48) (rev digits)))
    end.

(** [serde_json::from_value::<CacheTtl>] reads the text of the value. *)
Definition CacheTtl_from_value (v : Value) : option CacheTtl :=
  match v with
  | VNumber text =>
      if validate_json_integer text
      then match CacheTtl_try_from text with Ok ttl => Some ttl | _ => None end
      else None
  | _ => None
  end.

(** * Bounded serialization *)

Section serialization.
(** The slices [serde_json::to_writer] writes for a value, and the capacity the
    allocator grants to a reservation, if any. *)
Context (writes : Value → list (list Z)) (reserve : Z → option Z).

Record BoundedCacheBytes : Type := {
  bytes : list Z;
  capacity : Z;
  max_bytes : Z;
}.

Definition BoundedCacheBytes_new (max : Z) : BoundedCacheBytes := {| bytes := []; capacity := 0; max_bytes := max |}.

Definition ensure_capacity_for (next_size : Z) (b : BoundedCacheBytes) : option BoundedCacheBytes :=
  if next_size <=? capacity b then Some b
  else
    let chunk_target := Z.min CACHE_BYTES_GROWTH_CHUNK (max_bytes b) in
    let geometric_target :=
      if capacity b =? 0 then chunk_target
      else Z.min (if capacity b * 2 <=? usize_max then capacity b * 2 else max_bytes b) (max_bytes b) in
    let target_capacity := Z.min (Z.max next_size geometric_target) (max_bytes b) in
    granted ← reserve target_capacity;
    if max_bytes b <? granted then None
    else Some {| bytes := bytes b; capacity := granted; max_bytes := max_bytes b |}.

Definition write (buffer : list Z) (b : BoundedCacheBytes) : option BoundedCacheBytes :=
  next_size ← checked_add (zlen (bytes b)) (zlen buffer);
  if max_bytes b <? next_size then None
  else
    b ← ensure_capacity_for next_size b;
    Some {| bytes := bytes b ++ buffer; capacity := capacity b; max_bytes := max_bytes b |}.

(** [Write::write_all] does not write an empty slice. *)
Definition write_all (buffer : list Z) (b : BoundedCacheBytes) : option BoundedCacheBytes :=
  if bool_decide (buffer = []) then Some b else write buffer b.

Fixpoint write_each (buffers : list (list Z)) (b : BoundedCacheBytes) : option BoundedCacheBytes :=
  match buffers with
  | [] => Some b
  | buffer :: buffers => b ← write_all buffer b; write_each buffers b
  end.
Definition to_writer (v : Value) (b : BoundedCacheBytes) : option BoundedCacheBytes := write_each (writes v) b.

(** The loop of [cache_json_shape_is_bounded]; the top of the stack is its head. *)
Fixpoint shape_loop (fuel : nat) (stack : list (Value * Z)) (admitted_nodes : Z) : outcome unit bool :=
  match stack with
  | [] => Ok true
  | (node, depth) :: stack =>
      match fuel with
      | O => OutOfFuel
      | S fuel =>
          match checked_add depth 1 with
          | None => Ok false
          | Some child_depth =>
              let children vs :=
                if negb (bool_decide (vs = [])) && (MAX_CACHE_JSON_DEPTH <? child_depth) then Ok false
                else
                  match checked_add admitted_nodes (zlen vs) with
                  | None => Ok false
                  | Some nodes =>
                      if MAX_CACHE_JSON_NODES <? nodes then Ok false
                      else match reserve (zlen vs) with
                           | None => Ok false
                           | Some _ => shape_loop fuel (rev ((λ v, (v, child_depth)) <$> vs) ++ stack) nodes
                           end
                  end in
              match node with
              | VArray vs => children vs
              | VObject ms => children (snd <$> ms)
              | _ => shape_loop fuel stack admitted_nodes
              end
          end
      end
  end.

(** Every turn takes one of the admitted nodes. *)
Definition cache_json_shape_is_bounded (v : Value) : bool :=
  match reserve 1 with
  | None => false
  | Some _ => match shape_loop (Z.to_nat MAX_CACHE_JSON_NODES + 1) [(v, 0)] 1 with Ok b => b | _ => false end
  end.

Definition encode_json_bounded (v : Value) (max : Z) : option (list Z) :=
  if negb (cache_json_shape_is_bounded v) then None
  else bytes <$> to_writer v (BoundedCacheBytes_new max).
End serialization.

(** * Keys *)

Inductive ProtocolEra : Type := Modern2026 | Legacy2024.

Record DiscoveryCacheBinding : Type := { era : ProtocolEra; generation : Z }.

Inductive CacheEntryBinding : Type := Ordinary | Discovery (b : DiscoveryCacheBinding).

Record CacheKey : Type := {
  request_digest : Sha256Digest;
  invalidation_digest : Sha256Digest;
  partition_digest : Sha256Digest;
  binding : CacheEntryBinding;
}.

#[export] Instance ProtocolEra_eq_dec : EqDecision ProtocolEra.
Proof. solve_decision. Defined.
#[export] Instance DiscoveryCacheBinding_eq_dec : EqDecision DiscoveryCacheBinding.
Proof. solve_decision. Defined.
#[export] Instance CacheEntryBinding_eq_dec : EqDecision CacheEntryBinding.
Proof. solve_decision. Defined.
#[export] Instance CacheKey_eq_dec : EqDecision CacheKey.
Proof. unfold EqDecision, Sha256Digest in *. intros [] []; unfold Decision; repeat decide equality. Defined.

#[export] Instance CacheKey_countable : Countable CacheKey.
Proof.
  refine (inj_countable'
    (λ k, (request_digest k : list Z, invalidation_digest k : list Z, partition_digest k : list Z,
           match binding k with
           | Ordinary => None
           | Discovery b => Some (bool_decide (era b = Modern2026), generation b)
           end))
    (λ '(r, i, p, b),
       {| request_digest := r; invalidation_digest := i; partition_digest := p;
          binding := match b with
                     | None => Ordinary
                     | Some (m, g) => Discovery {| era := if m : bool then Modern2026 else Legacy2024; generation := g |}
                     end |}) _).
  by intros [r i p [|[[] g]]].
Defined.

Section keys.
Context (writes : Value → list (list Z)) (reserve : Z → option Z) (sha256 : list Z → Sha256Digest).

Definition digest_bounded (b : BoundedCacheBytes) : option Sha256Digest :=
  match sha256_bounded sha256 (bytes b) MAX_CACHE_KEY_INPUT_BYTES with Ok d => Some d | _ => None end.

Definition try_digest (domain : list Z) (m : list Z) (ps : option Value) : option Sha256Digest :=
  if match ps with Some v => negb (cache_json_shape_is_bounded reserve v) | None => false end then None
  else
    let canonical := BoundedCacheBytes_new MAX_CACHE_KEY_INPUT_BYTES in
    canonical ← write_all reserve domain canonical;
    canonical ← write_all reserve (to_be_bytes (zlen (as_bytes m))) canonical;
    canonical ← write_all reserve (as_bytes m) canonical;
    canonical ← match ps with
                | None => write_all reserve [0] canonical
                | Some v => canonical ← write_all reserve [1] canonical; to_writer writes reserve v canonical
                end;
    digest_bounded canonical.

Definition try_request_digest (m : list Z) (ps : option Value) : option Sha256Digest :=
  try_digest CACHE_REQUEST_KEY_DOMAIN m ps.

(** The parameters that name a result set, whatever the page. *)
Definition invalidation_projection (ps : option Value) : option Value :=
  match ps with
  | Some (VObject ms) =>
      let ms := remove_member "cursor" ms in
      if bool_decide (ms = []) then None else Some (VObject ms)
  | _ => ps
  end.
Definition try_invalidation_digest (m : list Z) (ps : option Value) : option Sha256Digest :=
  try_digest CACHE_INVALIDATION_KEY_DOMAIN m (invalidation_projection ps).

Definition try_new_partitioned (m : list Z) (ps : option Value) (partition : Sha256Digest) (b : CacheEntryBinding)
    : option CacheKey :=
  request ← try_request_digest m ps;
  invalidation ← try_invalidation_digest m ps;
  Some {| request_digest := request; invalidation_digest := invalidation; partition_digest := partition; binding := b |}.
End keys.

(** * The store *)

Record CacheEntry : Type := {
  encoded : list Z;
  expires_at : Z;
  size_bytes : Z;
}.

(** [max_instant] is the last instant of the clock. *)
Definition CacheEntry_new_encoded (max_instant now : Z) (enc : list Z) (ttl : Z) : option CacheEntry :=
  if ttl =? 0 then None
  else if max_instant <? now + ttl then None
  else
    size ← checked_add (zlen enc) CACHE_ENTRY_METADATA_BYTES;
    Some {| encoded := enc; expires_at := now + ttl; size_bytes := size |}.

Definition is_expired (now : Z) (e : CacheEntry) : bool := expires_at e <=? now.

Record LruCache : Type := {
  entries : gmap CacheKey CacheEntry;
  order : list CacheKey;
  max_entries : Z;
  max_size_bytes : Z;
  max_item_size : Z;
  current_size_bytes : Z;
}.

Definition LruCache_new (max_entries max_size_bytes max_item_size : Z) : LruCache :=
  {| entries := ∅; order := []; max_entries := max_entries; max_size_bytes := max_size_bytes;
     max_item_size := max_item_size; current_size_bytes := 0 |}.

Definition update (c : LruCache) (es : gmap CacheKey CacheEntry) (o : list CacheKey) (size : Z) : LruCache :=
  {| entries := es; order := o; max_entries := max_entries c; max_size_bytes := max_size_bytes c;
     max_item_size := max_item_size c; current_size_bytes := size |}.

(** [Vec::remove] at the first position of a key *)
Fixpoint remove_first (k : CacheKey) (l : list CacheKey) : list CacheKey :=
  match l with
  | [] => []
  | x :: l => if bool_decide (x = k) then l else x :: remove_first k l
  end.

Definition remove_key (k : CacheKey) (c : LruCache) : LruCache :=
  match entries c !! k with
  | None => c
  | Some e => update c (delete k (entries c)) (remove_first k (order c)) (saturating_sub (current_size_bytes c) (size_bytes e))
  end.

(** Expired entries go; a live one becomes the most recent. *)
Definition get_encoded (now : Z) (k : CacheKey) (c : LruCache) : option (list Z) * LruCache :=
  match entries c !! k with
  | None => (None, c)
  | Some e =>
      if is_expired now e then (None, remove_key k c)
      else
        (Some (encoded e),
         update c (entries c) (if bool_decide (k ∈ order c) then remove_first k (order c) ++ [k] else order c) (current_size_bytes c))
  end.

(** [HashMap::retain] with the sizes of the dropped entries taken off. *)
Definition retain (P : CacheKey * CacheEntry → bool) (c : LruCache) : gmap CacheKey CacheEntry * Z :=
  (filter (λ kv, P kv = true) (entries c),
   map_fold (λ _ e size, saturating_sub size (size_bytes e)) (current_size_bytes c) (filter (λ kv, P kv = false) (entries c))).

Definition remove_invalidation_digest (d : Sha256Digest) (c : LruCache) : LruCache :=
  let r := retain (λ kv, negb (bool_decide ((invalidation_digest kv.1 : list Z) = d))) c in
  update c r.1 (filter (λ k, (invalidation_digest k : list Z) ≠ d) (order c)) r.2.

Definition is_discovery (k : CacheKey) : bool := match binding k with Discovery _ => true | Ordinary => false end.

Definition remove_discovery_entries (c : LruCache) : LruCache :=
  let r := retain (λ kv, negb (is_discovery kv.1)) c in
  update c r.1 (filter (λ k, is_discovery k = false) (order c)) r.2.

Definition evict_expired (now : Z) (c : LruCache) : LruCache :=
  let r := retain (λ kv, negb (is_expired now kv.2)) c in
  update c r.1 (filter (λ k, is_Some (r.1 !! k)) (order c)) r.2.

Definition lru_clear (c : LruCache) : LruCache := update c ∅ [] 0.

(** Whether an entry of a size still has to wait for room. *)
Definition no_room_for (size : Z) (c : LruCache) : bool :=
  (max_entries c <=? Z.of_nat (base.size (entries c))) ||
  match checked_add (current_size_bytes c) size with None => true | Some total => max_size_bytes c <? total end.

(** The eviction loop, over what is left of the order; [None] when it runs out. *)
Fixpoint evict_loop (o : list CacheKey) (size : Z) (c : LruCache) : option LruCache * LruCache :=
  if no_room_for size c then
    match o with
    | [] => (None, c)
    | k :: o =>
        let c := match entries c !! k with
                 | Some e => update c (delete k (entries c)) o (saturating_sub (current_size_bytes c) (size_bytes e))
                 | None => update c (entries c) o (current_size_bytes c)
                 end in
        evict_loop o size c
    end
  else (Some c, c).

Definition insert_entry (now : Z) (k : CacheKey) (e : CacheEntry) (c : LruCache) : LruCache :=
  if (max_entries c =? 0) || (max_size_bytes c =? 0) || (max_item_size c <? zlen (encoded e)) ||
     (max_size_bytes c <? size_bytes e)
  then c
  else
    let c := evict_expired now c in
    let c := if bool_decide (is_Some (entries c !! k)) then remove_key k c else c in
    match evict_loop (order c) (size_bytes e) c with
    | (None, c) => c
    | (Some c, _) =>
        match checked_add (current_size_bytes c) (size_bytes e) with
        | None => c
        | Some new_size =>
            if (max_size_bytes c <? new_size) || (max_entries c <=? Z.of_nat (base.size (entries c))) then c
            else update c (<[k := e]> (entries c)) (order c ++ [k]) new_size
        end
    end.

Definition insert_encoded (max_instant now : Z) (k : CacheKey) (enc : list Z) (ttl : Z) (c : LruCache) : LruCache :=
  if max_item_size c <? zlen enc then c
  else match CacheEntry_new_encoded max_instant now enc ttl with
       | None => c
       | Some e => insert_entry now k e c
       end.

(** [CacheEntry::new] and [LruCache::insert] *)
Definition CacheEntry_new (writes : Value → list (list Z)) (reserve : Z → option Z) (max_instant now : Z) (v : Value)
    (ttl max : Z) : option CacheEntry :=
  enc ← encode_json_bounded writes reserve v max; CacheEntry_new_encoded max_instant now enc ttl.

Definition admission_limit (c : LruCache) : Z :=
  Z.min (max_item_size c) (saturating_sub (max_size_bytes c) CACHE_ENTRY_METADATA_BYTES).

Definition lru_insert (writes : Value → list (list Z)) (reserve : Z → option Z) (max_instant now : Z) (k : CacheKey)
    (v : Value) (ttl : Z) (c : LruCache) : LruCache :=
  match CacheEntry_new writes reserve max_instant now v ttl (admission_limit c) with
  | None => c
  | Some e => insert_entry now k e c
  end.

Definition len (c : LruCache) : Z := Z.of_nat (base.size (entries c)).
End RCache.
