(* ===== verification/ResponseMiddleware.v ===== *)
(** The response caching middleware of [crates/fastmcp-server/src/caching.rs]: cache
    policies of results, partitions of contexts, and the handlers.

    A handler runs among other threads: between any two of its accesses to the
    context, the clock or the shared cache, [others] lets them take steps. *)
From stdpp Require Import base list gmap strings.
From Stdlib Require Import ZArith Lia.
From S2P Require Import Prelude Utf8 JsonGrammar RawJson RequestId JsonRpc RateLimit ClientCache HttpHeaders SessionState ResponseCache.

Module RMiddleware.
Import Headers Session RCache.

(** * Contexts: [crates/fastmcp-core/src/context.rs] *)

Record AuthContext : Type := {
  subject : option (list Z);
  scopes : list (list Z);
  claims : option Value;
  session_owner : option Sha256Digest;
}.

(** What [AuthContext] serializes to. *)
Definition auth_value (a : AuthContext) : Value :=
  VObject (
    (match subject a with Some s => [(chars_of "subject", VString s)] | None => [] end) ++
    (if bool_decide (scopes a = []) then [] else [(chars_of "scopes", VArray (VString <$> scopes a))]) ++
    (match claims a with Some v => [(chars_of "claims", v)] | None => [] end)).

Inductive AuthState : Type := Uncommitted | Anonymous | Authenticated.

(** The parts of [McpContext] a cache reads.  [cancel_requested] is either
    cancellation signal, [past_deadline] the comparison of the effective deadline
    with the clock. *)
Record McpContext : Type := {
  request_closed : bool;
  framework_mask_depth : Z;
  cancel_requested : bool;
  past_deadline : bool;
  deferred_overrun : bool;
  auth_state : AuthState;
  auth : option AuthContext;
  state : option SessionState;
  cache_admission_partition : option (list Z * Z);
  response_cache_hits : list Z;
}.

Definition request_scope_is_active (c : McpContext) : bool := negb (request_closed c).

Definition ensure_live (c : McpContext) : bool :=
  if negb (request_scope_is_active c) then false
  else if 0 <? framework_mask_depth c then true
  else negb (cancel_requested c || past_deadline c || deferred_overrun c).

Definition cache_auth_partition (c : McpContext) : option (option AuthContext) :=
  if negb (request_scope_is_active c) then None
  else match auth_state c with
       | Anonymous => Some None
       | Authenticated => Some <$> auth c
       | Uncommitted => None
       end.

Definition has_session_state (c : McpContext) : bool :=
  request_scope_is_active c && bool_decide (is_Some (state c)).

Definition session_is_ephemeral (c : McpContext) : bool :=
  request_scope_is_active c && match state c with Some s => is_ephemeral s | None => false end.

Definition set_admission (p : list Z * Z) (c : McpContext) : McpContext :=
  {| request_closed := request_closed c; framework_mask_depth := framework_mask_depth c;
     cancel_requested := cancel_requested c; past_deadline := past_deadline c; deferred_overrun := deferred_overrun c;
     auth_state := auth_state c; auth := auth c; state := state c; cache_admission_partition := Some p;
     response_cache_hits := response_cache_hits c |}.
Definition push_hit (id : Z) (c : McpContext) : McpContext :=
  {| request_closed := request_closed c; framework_mask_depth := framework_mask_depth c;
     cancel_requested := cancel_requested c; past_deadline := past_deadline c; deferred_overrun := deferred_overrun c;
     auth_state := auth_state c; auth := auth c; state := state c; cache_admission_partition := cache_admission_partition c;
     response_cache_hits := response_cache_hits c ++ [id] |}.

Definition begin_session_cache_partition (c : McpContext) : option (list Z * Z) * McpContext :=
  if negb (request_scope_is_active c) then (None, c)
  else match state c ≫= cache_admission_revision with
       | None => (None, c)
       | Some current =>
           match cache_admission_partition c with
           | None => (Some current, set_admission current c)
           | Some existing => (if bool_decide (existing = current) then Some existing else None, c)
           end
       end.

Definition complete_session_cache_partition (c : McpContext) : option (list Z * Z) :=
  if negb (request_scope_is_active c) then None
  else
    admitted ← cache_admission_partition c;
    s ← state c;
    if bool_decide (cache_admission_revision s = Some admitted) then Some admitted else None.

Definition MAX_CACHE_MIDDLEWARE_PER_REQUEST : Z := 64.

(** [room] says whether the allocator grants one more element. *)
Definition mark_response_cache_hit (room : bool) (cache_id : Z) (c : McpContext) : bool * McpContext :=
  if negb (request_scope_is_active c) || (cache_id =? 0) then (false, c)
  else if bool_decide (cache_id ∈ response_cache_hits c) then (true, c)
  else if (MAX_CACHE_MIDDLEWARE_PER_REQUEST <=? zlen (response_cache_hits c)) || negb room then (false, c)
  else (true, push_hit cache_id c).

Definition response_was_cache_hit (cache_id : Z) (c : McpContext) : bool :=
  request_scope_is_active c && negb (cache_id =? 0) && bool_decide (cache_id ∈ response_cache_hits c).

(** * Policies *)

Definition request_carries_uncacheable_continuation (ps : option Value) : bool :=
  match ps with
  | Some (VObject ms) => contains_key "inputResponses" ms || contains_key "requestState" ms
  | _ => false
  end.

Definition response_is_cacheable_complete (response : Value) : bool :=
  match as_object response with
  | None => false
  | Some ms =>
      if existsb (λ field, contains_key field ms)
           ["inputResponses"; "requestState"; "task"; "taskId"; "taskStatus"; "requestScopedNotifications";
            "notifications"]%string
      then false
      else match get_member (chars_of "resultType") ms with
           | None => true
           | Some (VString kind) => bool_decide (kind = chars_of "complete")
           | Some _ => false
           end
  end.

Inductive CachePolicy : Type := PrivateFor (ttl : Z) | PublicResult.

Definition is_final_discovery_result (response : Value) : bool :=
  match as_object response with
  | None => false
  | Some ms =>
      match get_member (chars_of "capabilities") ms with Some v => is_object v | None => false end &&
      match get_member (chars_of "supportedVersions") ms with
      | Some (VArray [v]) => bool_decide (as_str v = Some FINAL_PROTOCOL_VERSION)
      | _ => false
      end
  end.

(** [FinalCompleteCachePolicy] and [FinalDiscoveryCachePolicy] *)
Definition final_complete_cache_policy (response : Value) : option CachePolicy :=
  ms ← as_object response;
  ttl ← get_member (chars_of "ttlMs") ms;
  ttl_ms ← CacheTtl_from_value ttl;
  scope ← get_member (chars_of "cacheScope") ms;
  scope ← as_str scope;
  if bool_decide (scope = chars_of "private")
  then match try_as_millis ttl_ms with Ok millis => Some (PrivateFor (millis * 10 ^ 6)) | _ => None end
  else if bool_decide (scope = chars_of "public") then Some PublicResult else None.

Definition final_discovery_cache_policy (response : Value) : option CachePolicy :=
  if negb (is_final_discovery_result response) then None else final_complete_cache_policy response.

Definition wire_valid_cache_hints (ms : list (list Z * Value)) : bool :=
  bool_decide (is_Some (get_member (chars_of "ttlMs") ms ≫= CacheTtl_from_value)) &&
  match get_member (chars_of "cacheScope") ms ≫= as_str with
  | Some scope => bool_decide (scope = chars_of "private") || bool_decide (scope = chars_of "public")
  | None => false
  end.

Definition final_discovery_cache_hints_are_wire_valid (response : Value) : bool :=
  match as_object response with Some ms => wire_valid_cache_hints ms | None => false end.

Definition discovery_request_protocol_era (request : Request) : option ProtocolEra :=
  let version :=
    ps ← params request;
    metadata ← get_key "_meta" ps;
    ms ← as_object metadata;
    v ← get_member FINAL_PROTOCOL_VERSION_META_KEY ms;
    as_str v in
  match version with
  | None => Some Modern2026
  | Some v =>
      if bool_decide (v = FINAL_PROTOCOL_VERSION) then Some Modern2026
      else if bool_decide (v = LEGACY_PROTOCOL_VERSION) then Some Legacy2024 else None
  end.

Definition method_is (m : list Z) (names : list string) : bool := bool_decide (m ∈ chars_of <$> names).

Definition method_requires_protocol_cache_hints (m : list Z) : bool :=
  method_is m ["server/discover"; "tools/list"; "prompts/list"; "resources/list"; "resources/read";
               "resources/templates/list"]%string.

(** * The middleware *)

Record MethodCacheConfig : Type := { enabled : bool; ttl_secs : Z }.
Definition MethodCacheConfig_default : MethodCacheConfig := {| enabled := true; ttl_secs := DEFAULT_CALL_TTL_SECS |}.

Record ToolCallCacheConfig : Type := {
  base_config : MethodCacheConfig;
  included_tools : list (list Z);
  excluded_tools : list (list Z);
}.

Definition should_cache_tool (t : ToolCallCacheConfig) (tool_name : list Z) : bool :=
  if negb (enabled (base_config t)) then false
  else if bool_decide (tool_name ∈ excluded_tools t) then false
  else bool_decide (tool_name ∈ included_tools t).

(** The configuration, which no handler changes. *)
Record Config : Type := {
  instance_id : Z;
  list_ttl : Z;
  call_ttl : Z;
  tools_list_config : MethodCacheConfig;
  resources_list_config : MethodCacheConfig;
  prompts_list_config : MethodCacheConfig;
  tools_call_config : ToolCallCacheConfig;
  resources_read_config : MethodCacheConfig;
  prompts_get_config : MethodCacheConfig;
}.

Record CacheStats : Type := { hits : Z; misses : Z; stat_entries : Z; stat_size_bytes : Z }.

(** The state the threads share. *)
Record Shared : Type := {
  discovery_generation : Z;
  cache : LruCache;
  stats : CacheStats;
}.

Definition Config_new (id : Z) : Config :=
  let listed := {| enabled := true; ttl_secs := DEFAULT_LIST_TTL_SECS |} in
  let called := {| enabled := true; ttl_secs := DEFAULT_CALL_TTL_SECS |} in
  {| instance_id := id; list_ttl := from_secs DEFAULT_LIST_TTL_SECS; call_ttl := from_secs DEFAULT_CALL_TTL_SECS;
     tools_list_config := listed; resources_list_config := listed; prompts_list_config := listed;
     tools_call_config := {| base_config := MethodCacheConfig_default; included_tools := []; excluded_tools := [] |};
     resources_read_config := called; prompts_get_config := called |}.
Definition Shared_new : Shared :=
  {| discovery_generation := 1; cache := LruCache_new 1000 (100 * 1024 * 1024) DEFAULT_MAX_ITEM_SIZE;
     stats := {| hits := 0; misses := 0; stat_entries := 0; stat_size_bytes := 0 |} |}.

Definition set_cache (c : LruCache) (s : Shared) : Shared :=
  {| discovery_generation := discovery_generation s; cache := c; stats := stats s |}.
Definition set_generation (g : Z) (s : Shared) : Shared :=
  {| discovery_generation := g; cache := cache s; stats := stats s |}.
Definition set_stats (st : CacheStats) (s : Shared) : Shared :=
  {| discovery_generation := discovery_generation s; cache := cache s; stats := st |}.

(** [ResponseCachingMiddleware::stats] *)
Definition current_stats (s : Shared) : CacheStats :=
  {| hits := hits (stats s); misses := misses (stats s); stat_entries := RCache.len (cache s);
     stat_size_bytes := current_size_bytes (cache s) |}.

(** ** Building a middleware *)

(** The next instance identifier, and what the counter becomes; 0 when it is used up. *)
Definition next_cache_instance_id (counter : Z) : Z * Z :=
  if counter + 1 <=? u64_max then (counter, counter + 1) else (0, counter).

Definition with_max_entries (max : Z) (s : Shared) : Shared :=
  set_cache (LruCache_new max (max_size_bytes (cache s)) (max_item_size (cache s))) s.
Definition with_max_size_bytes (max : Z) (s : Shared) : Shared :=
  set_cache (LruCache_new (max_entries (cache s)) max (max_item_size (cache s))) s.
Definition with_max_item_size (max : Z) (s : Shared) : Shared :=
  set_cache (LruCache_new (max_entries (cache s)) (max_size_bytes (cache s)) max) s.

Definition with_ttl (secs : Z) (c : MethodCacheConfig) : MethodCacheConfig := {| enabled := enabled c; ttl_secs := secs |}.
Definition disabled (c : MethodCacheConfig) : MethodCacheConfig := {| enabled := false; ttl_secs := ttl_secs c |}.
Definition with_base (f : MethodCacheConfig → MethodCacheConfig) (t : ToolCallCacheConfig) : ToolCallCacheConfig :=
  {| base_config := f (base_config t); included_tools := included_tools t; excluded_tools := excluded_tools t |}.

(** Updates of the six method configurations, in the order of the fields. *)
Definition reconfigure (lttl cttl : Z) (tl rl pl rr pg : MethodCacheConfig → MethodCacheConfig)
    (tc : ToolCallCacheConfig → ToolCallCacheConfig) (c : Config) : Config :=
  {| instance_id := instance_id c; list_ttl := lttl; call_ttl := cttl; tools_list_config := tl (tools_list_config c);
     resources_list_config := rl (resources_list_config c); prompts_list_config := pl (prompts_list_config c);
     tools_call_config := tc (tools_call_config c); resources_read_config := rr (resources_read_config c);
     prompts_get_config := pg (prompts_get_config c) |}.

Definition list_ttl_secs (secs : Z) (c : Config) : Config :=
  reconfigure (from_secs secs) (call_ttl c) (with_ttl secs) (with_ttl secs) (with_ttl secs) id id id c.
Definition call_ttl_secs (secs : Z) (c : Config) : Config :=
  reconfigure (list_ttl c) (from_secs secs) id id id (with_ttl secs) (with_ttl secs) (with_base (with_ttl secs)) c.
Definition disable_tools_list (c : Config) : Config := reconfigure (list_ttl c) (call_ttl c) disabled id id id id id c.
Definition disable_resources_list (c : Config) : Config := reconfigure (list_ttl c) (call_ttl c) id disabled id id id id c.
Definition disable_prompts_list (c : Config) : Config := reconfigure (list_ttl c) (call_ttl c) id id disabled id id id c.
Definition disable_tools_call (c : Config) : Config :=
  reconfigure (list_ttl c) (call_ttl c) id id id id id (with_base disabled) c.
Definition disable_resources_read (c : Config) : Config := reconfigure (list_ttl c) (call_ttl c) id id id disabled id id c.
Definition disable_prompts_get (c : Config) : Config := reconfigure (list_ttl c) (call_ttl c) id id id id disabled id c.
Definition include_tools (tools : list (list Z)) (c : Config) : Config :=
  reconfigure (list_ttl c) (call_ttl c) id id id id id
    (λ t, {| base_config := base_config t; included_tools := tools; excluded_tools := excluded_tools t |}) c.
Definition exclude_tools (tools : list (list Z)) (c : Config) : Config :=
  reconfigure (list_ttl c) (call_ttl c) id id id id id
    (λ t, {| base_config := base_config t; included_tools := included_tools t; excluded_tools := tools |}) c.

Definition advance_discovery_generation (s : Shared) : Shared :=
  let g := discovery_generation s in
  if negb (g =? 0) && (g + 1 <=? u64_max) then set_generation (g + 1) s else set_generation 0 s.

(** Each under the lock of the cache *)
Definition middleware_clear (s : Shared) : Shared :=
  let s := advance_discovery_generation s in set_cache (lru_clear (cache s)) s.
Definition invalidate_discovery (s : Shared) : Shared :=
  let s := advance_discovery_generation s in set_cache (remove_discovery_entries (cache s)) s.

Definition record_hit (s : Shared) : Shared :=
  set_stats {| hits := saturating_add (hits (stats s)) 1; misses := misses (stats s);
               stat_entries := stat_entries (stats s); stat_size_bytes := stat_size_bytes (stats s) |} s.
Definition record_miss (s : Shared) : Shared :=
  set_stats {| hits := hits (stats s); misses := saturating_add (misses (stats s)) 1;
               stat_entries := stat_entries (stats s); stat_size_bytes := stat_size_bytes (stats s) |} s.

Section handlers.
(** Serialization and its inverse, the allocator, SHA-256, the last instant and
    what other threads do. *)
Context (writes : Value → list (list Z)) (from_slice : list Z → option Value).
Context (reserve : Z → option Z) (sha256 : list Z → Sha256Digest) (max_instant : Z).
Context (config : Config).

Definition invalidate (m : list Z) (ps : option Value) (s : Shared) : Shared :=
  if bool_decide (m = SERVER_DISCOVER_METHOD) then invalidate_discovery s
  else match try_invalidation_digest writes reserve sha256 m ps with
       | None => s
       | Some d => set_cache (remove_invalidation_digest d (cache s)) s
       end.

Definition should_cache_method (m : list Z) (ps : option Value) : bool :=
  if method_is m ["server/discover"; "tools/list"]%string then enabled (tools_list_config config)
  else if method_is m ["resources/list"; "resources/templates/list"]%string then enabled (resources_list_config config)
  else if method_is m ["prompts/list"]%string then enabled (prompts_list_config config)
  else if method_is m ["resources/read"]%string then enabled (resources_read_config config)
  else if method_is m ["prompts/get"]%string then enabled (prompts_get_config config)
  else if method_is m ["tools/call"]%string then
    if negb (enabled (base_config (tools_call_config config))) then false
    else match (v ← ps; tool ← get_key "name" v; as_str tool) with
         | Some tool_name => should_cache_tool (tools_call_config config) tool_name
         | None => false
         end
  else false.

Definition get_ttl (m : list Z) : Z :=
  if method_is m ["server/discover"; "tools/list"]%string then from_secs (ttl_secs (tools_list_config config))
  else if method_is m ["resources/list"; "resources/templates/list"]%string then from_secs (ttl_secs (resources_list_config config))
  else if method_is m ["prompts/list"]%string then from_secs (ttl_secs (prompts_list_config config))
  else if method_is m ["tools/call"]%string then from_secs (ttl_secs (base_config (tools_call_config config)))
  else if method_is m ["resources/read"]%string then from_secs (ttl_secs (resources_read_config config))
  else if method_is m ["prompts/get"]%string then from_secs (ttl_secs (prompts_get_config config))
  else call_ttl config.

Definition protocol_cache_ttl (m : list Z) : CacheTtl := Raw.to_string (Z.min (get_ttl m / 10 ^ 6) u64_max).

Definition without_hints (ms : list (list Z * Value)) : Value :=
  VObject (remove_member "cacheScope" (remove_member "ttlMs" ms)).

Definition result_type_complete (ms : list (list Z * Value)) : bool :=
  bool_decide (get_member (chars_of "resultType") ms ≫= as_str = Some (chars_of "complete")).

Definition apply_protocol_cache_hints (m : list Z) (response : Value) : Value :=
  if bool_decide (m = SERVER_DISCOVER_METHOD) && is_final_discovery_result response then
    match as_object response with
    | Some ms => if final_discovery_cache_hints_are_wire_valid response then response else without_hints ms
    | None => response
    end
  else
    match as_object response with
    | None => response
    | Some ms =>
        if negb (method_requires_protocol_cache_hints m) || negb (result_type_complete ms) then without_hints ms
        else if wire_valid_cache_hints ms then response
        else VObject (insert_member (chars_of "cacheScope") (VString (chars_of "private"))
                       (insert_member (chars_of "ttlMs") (VNumber (protocol_cache_ttl m)) ms))
    end.

(** [generation] is the discovery generation read. *)
Definition cache_entry_binding (request : Request) (generation : Z) : option CacheEntryBinding :=
  if negb (bool_decide (method request = SERVER_DISCOVER_METHOD)) then Some Ordinary
  else match discovery_request_protocol_era request with
       | Some Modern2026 =>
           if generation =? 0 then None else Some (Discovery {| era := Modern2026; generation := generation |})
       | _ => None
       end.

Definition cache_entry_binding_is_current (b : CacheEntryBinding) (current : Z) : bool :=
  match b with
  | Ordinary => true
  | Discovery d => bool_decide (era d = Modern2026) && (generation d =? current)
  end.

(** ** Partitions *)

Definition auth_is_bounded (a : AuthContext) : bool :=
  negb (MAX_CACHE_JSON_NODES <? zlen (scopes a)) &&
  match claims a with Some v => cache_json_shape_is_bounded reserve v | None => true end.

(** The bytes of a partition; the session is [None] for the stateless domain. *)
Definition partition_canonical (session : option (list Z * Z)) (a : option AuthContext) : option BoundedCacheBytes :=
  let canonical := BoundedCacheBytes_new MAX_CACHE_KEY_INPUT_BYTES in
  canonical ← write_all reserve CACHE_PARTITION_KEY_DOMAIN canonical;
  canonical ← match session with
              | Some (opaque_session, state_revision) =>
                  canonical ← write_all reserve [1] canonical;
                  canonical ← write_all reserve opaque_session canonical;
                  write_all reserve (to_be_bytes state_revision) canonical
              | None => write_all reserve CACHE_STATELESS_PARTITION_DOMAIN canonical
              end;
  match a with
  | None => write_all reserve [0] canonical
  | Some a =>
      canonical ← write_all reserve [1] canonical;
      canonical ← match session_owner a with
                  | None => write_all reserve [0] canonical
                  | Some owner => canonical ← write_all reserve [1] canonical; write_all reserve owner canonical
                  end;
      to_writer writes reserve (auth_value a) canonical
  end.

Definition partition_digest_of (session : option (list Z * Z)) (a : option AuthContext) : option Sha256Digest :=
  canonical ← partition_canonical session a; digest_bounded sha256 canonical.

(** ** Threads *)

Record World : Type := {
  shared : Shared;
  ctx : McpContext;
  clock : Z;
  turn : nat;
}.
Definition set_shared (s : Shared) (w : World) : World := {| shared := s; ctx := ctx w; clock := clock w; turn := turn w |}.
Definition set_ctx (c : McpContext) (w : World) : World := {| shared := shared w; ctx := c; clock := clock w; turn := turn w |}.

(** What the other threads do at their next turn. *)
Context (env : nat → World → World).
Abbreviation H := (M World McpError).

Definition others : H unit :=
  modify (λ w, let w' := env (turn w) w in {| shared := shared w'; ctx := ctx w'; clock := clock w'; turn := S (turn w) |}).
Definition read {A} (f : World → A) : H A := others ;! gets f.
Definition on_shared (f : Shared → Shared) : H unit := others ;! modify (λ w, set_shared (f (shared w)) w).

Inductive CachePartitionPhase : Type := PhaseRequest | PhaseResponse.

Definition session_partition (phase : CachePartitionPhase) : H (option (list Z * Z)) :=
  match phase with
  | PhaseRequest => others ;! λ w, let r := begin_session_cache_partition (ctx w) in (Ok r.1, set_ctx r.2 w)
  | PhaseResponse => read (λ w, complete_session_cache_partition (ctx w))
  end.

Definition context_cache_partition (phase : CachePartitionPhase) : H (option Sha256Digest) :=
  let! live := read (λ w, ensure_live (ctx w)) in
  if negb live then ret None
  else
    let! auth_partition := read (λ w, cache_auth_partition (ctx w)) in
    match auth_partition with
    | None => ret None
    | Some a =>
        let! session := session_partition phase in
        if match a with Some a => negb (auth_is_bounded a) | None => false end then ret None
        else
          let! is_ephemeral := read (λ w, session_is_ephemeral (ctx w)) in
          if is_ephemeral then ret (partition_digest_of None a)
          else
            match session with
            | Some s => ret (partition_digest_of (Some s) a)
            | None =>
                let! has_state := read (λ w, has_session_state (ctx w)) in
                if has_state then ret None else ret (partition_digest_of None a)
            end
    end.

Definition commit_is_admissible : H bool :=
  let! has_state := read (λ w, has_session_state (ctx w)) in
  let! current := (if has_state then read (λ w, bool_decide (is_Some (complete_session_cache_partition (ctx w)))) else ret true) in
  if negb current then ret false else read (λ w, ensure_live (ctx w)).

(** ** Requests *)

Definition lookup (k : CacheKey) : H (option (list Z)) :=
  others ;! λ w, let r := get_encoded (clock w) k (cache (shared w)) in (Ok r.1, set_shared (set_cache r.2 (shared w)) w).

Definition mark_hit : H bool :=
  others ;! λ w, let r := mark_response_cache_hit (bool_decide (is_Some (reserve 1))) (instance_id config) (ctx w) in
                 (Ok r.1, set_ctx r.2 w).

Definition on_request (request : Request) : H (MiddlewareDecision Value) :=
  if instance_id config =? 0 then ret Continue
  else if negb (should_cache_method (method request) (params request)) then ret Continue
  else if request_carries_uncacheable_continuation (params request) then ret Continue
  else
    let! generation := read (λ w, discovery_generation (shared w)) in
    match cache_entry_binding request generation with
    | None => ret Continue
    | Some b =>
        let! partition := context_cache_partition PhaseRequest in
        match p ← partition; try_new_partitioned writes reserve sha256 (method request) (params request) p b with
        | None => ret Continue
        | Some key =>
            let! found := lookup key in
            match found with
            | None => on_shared record_miss ;! ret Continue
            | Some enc =>
                match from_slice enc with
                | None =>
                    on_shared (λ s, set_cache (remove_key key (cache s)) s) ;!
                    on_shared record_miss ;! ret Continue
                | Some value =>
                    let! current := read (λ w, cache_entry_binding_is_current b (discovery_generation (shared w))) in
                    if negb current then on_shared record_miss ;! ret Continue
                    else
                      let! admissible := commit_is_admissible in
                      if negb admissible then ret Continue
                      else
                        let! marked := mark_hit in
                        if negb marked then on_shared record_miss ;! ret Continue
                        else on_shared record_hit ;! ret (Respond value)
                end
            end
        end
    end.

(** ** Responses *)

(** The policy of a final discovery result and that of a final complete result;
    [None] where such a result has none that the clock can express. *)
Definition discovery_policy (m : list Z) (response : Value) : option (option CachePolicy) :=
  if bool_decide (m = SERVER_DISCOVER_METHOD) && is_final_discovery_result response
  then Some <$> final_discovery_cache_policy response else Some None.

Definition is_final_complete (m : list Z) (response : Value) : bool :=
  method_requires_protocol_cache_hints m &&
  match as_object response with Some ms => result_type_complete ms | None => false end.
Definition complete_policy (m : list Z) (response : Value) : option (option CachePolicy) :=
  if is_final_complete m response then Some <$> final_complete_cache_policy response else Some None.

(** How long a response is kept, if at all. *)
Definition chosen_ttl (m : list Z) (discovery complete : option CachePolicy) : option Z :=
  match discovery with
  | Some (PrivateFor ttl) => Some ttl
  | Some PublicResult => None
  | None =>
      match complete with
      | Some (PrivateFor ttl) => Some ttl
      | Some PublicResult => None
      | None => Some (get_ttl m)
      end
  end.

(** The insertion, under the lock of the cache with the last checks. *)
Definition store (b : CacheEntryBinding) (key : CacheKey) (enc : list Z) (ttl : Z) : H unit :=
  let! admissible := commit_is_admissible in
  if negb admissible then ret tt
  else
    others ;! modify (λ w,
      if cache_entry_binding_is_current b (discovery_generation (shared w))
      then set_shared (set_cache (insert_encoded max_instant (clock w) key enc ttl (cache (shared w))) (shared w)) w
      else w).

Definition on_response (request : Request) (response : Value) : H Value :=
  if instance_id config =? 0 then ret response
  else
    let m := method request in
    let response := apply_protocol_cache_hints m response in
    match discovery_policy m response with
    | None => ret response
    | Some discovery =>
        match complete_policy m response with
        | None => ret response
        | Some complete =>
            if negb (should_cache_method m (params request)) then ret response
            else if request_carries_uncacheable_continuation (params request) || negb (response_is_cacheable_complete response)
            then ret response
            else
              let! served := read (λ w, response_was_cache_hit (instance_id config) (ctx w)) in
              if served then ret response
              else
                let! generation := read (λ w, discovery_generation (shared w)) in
                match cache_entry_binding request generation with
                | None => ret response
                | Some b =>
                    let! partition := context_cache_partition PhaseResponse in
                    match p ← partition; try_new_partitioned writes reserve sha256 m (params request) p b with
                    | None => ret response
                    | Some key =>
                        match chosen_ttl m discovery complete with
                        | None => ret response
                        | Some ttl =>
                            let! limit := read (λ w, admission_limit (cache (shared w))) in
                            match encode_json_bounded writes reserve response limit with
                            | None => ret response
                            | Some enc => store b key enc ttl ;! ret response
                            end
                        end
                    end
                end
        end
    end.

Definition on_error (error : McpError) : McpError := error.
End handlers.
End RMiddleware.
