(* ===== verification/ResponseCacheFacts.v ===== *)
(** The store of the response cache refines a list of entries, the least recently
    used first. *)
From stdpp Require Import base list gmap strings.
From Stdlib Require Import ZArith Lia.
From S2P Require Import Prelude Utf8 HttpHeaders RateLimit SessionState ResponseCache.

Module RCacheFacts.
Import RCache.

Abbreviation items := (list (CacheKey * CacheEntry)).

(** * The specification *)

Definition total (l : items) : Z := sum ((λ kv, size_bytes kv.2) <$> l).

(** The entry of a key. *)
Fixpoint find_item (k : CacheKey) (l : items) : option CacheEntry :=
  match l with
  | [] => None
  | (x, e) :: l => if bool_decide (x = k) then Some e else find_item k l
  end.
Definition others_than (k : CacheKey) (l : items) : items := filter (λ kv, kv.1 ≠ k) l.

Definition spec_get (now : Z) (k : CacheKey) (l : items) : option (list Z) * items :=
  match find_item k l with
  | None => (None, l)
  | Some e => if is_expired now e then (None, others_than k l) else (Some (encoded e), others_than k l ++ [(k, e)])
  end.

(** The least recently used entries go until one of [size] bytes fits. *)
Fixpoint make_room (max_count max_bytes size : Z) (l : items) : items :=
  if (max_count <=? zlen l) || (max_bytes <? total l + size) then
    match l with [] => [] | _ :: l => make_room max_count max_bytes size l end
  else l.

Definition spec_insert (c : LruCache) (now : Z) (k : CacheKey) (e : CacheEntry) (l : items) : items :=
  if (max_entries c =? 0) || (max_size_bytes c =? 0) || (max_item_size c <? zlen (encoded e)) ||
     (max_size_bytes c <? size_bytes e)
  then l
  else
    make_room (max_entries c) (max_size_bytes c) (size_bytes e)
      (others_than k (filter (λ kv, is_expired now kv.2 = false) l)) ++ [(k, e)].

(** * The relation *)

Definition entry_ok (e : CacheEntry) : Prop := size_bytes e = zlen (encoded e) + CACHE_ENTRY_METADATA_BYTES.

Record limits_ok (c : LruCache) : Prop := {
  ok_entries : 0 <= max_entries c <= usize_max;
  ok_size : 0 <= max_size_bytes c <= usize_max;
  ok_item : 0 <= max_item_size c <= usize_max;
}.

(** [l] is what [c] holds, and keeps to the limits. *)
Record rep (c : LruCache) (l : items) : Prop := {
  rep_limits : limits_ok c;
  rep_entries : entries c = list_to_map l;
  rep_order : order c = l.*1;
  rep_nodup : NoDup l.*1;
  rep_size : current_size_bytes c = total l;
  rep_ok : Forall (λ kv, entry_ok kv.2 ∧ zlen (encoded kv.2) <= max_item_size c) l;
  rep_count : zlen l <= max_entries c;
  rep_total : total l <= max_size_bytes c;
}.

(** * Lists and maps *)

Lemma find_item_lookup k (l : items) : (list_to_map l : gmap CacheKey CacheEntry) !! k = find_item k l.
Proof.
  induction l as [|[x e] l IH]; [done|]. simpl. destruct (decide (x = k)) as [->|Hne].
  - by rewrite lookup_insert_eq, bool_decide_true.
  - by rewrite lookup_insert_ne, bool_decide_false.
Qed.

Lemma find_item_elem k e l : find_item k l = Some e → (k, e) ∈ l.
Proof.
  induction l as [|[x y] l IH]; [done|]. simpl. case_bool_decide; [intros [= ->]; subst; by left|].
  intros H1. right. auto.
Qed.

Lemma find_item_none k l : find_item k l = None ↔ k ∉ l.*1.
Proof.
  induction l as [|[x e] l IH]; simpl; [split; [intros _; apply not_elem_of_nil|done]|].
  rewrite not_elem_of_cons. case_bool_decide; [naive_solver|]. rewrite IH. naive_solver.
Qed.

Lemma filter_fst (P : CacheKey → Prop) `{∀ k, Decision (P k)} (l : items) :
  filter P l.*1 = (filter (λ kv, P kv.1) l).*1.
Proof.
  induction l as [|[k e] l IH]; [done|]. cbn [fmap list_fmap]. rewrite !filter_cons. simpl.
  destruct (decide (P k)); simpl; by rewrite IH.
Qed.

Lemma NoDup_filter_fst (P : CacheKey * CacheEntry → Prop) `{∀ kv, Decision (P kv)} (l : items) :
  NoDup l.*1 → NoDup (filter P l).*1.
Proof.
  induction l as [|kv l IH]; [done|]. intros [Hn Hl]%NoDup_cons. rewrite filter_cons.
  destruct (decide (P kv)); [|by apply IH]. apply NoDup_cons. split; [|by apply IH].
  intros (x & Hx & Hin)%list_elem_of_fmap. apply Hn, list_elem_of_fmap. exists x. split; [done|].
  by apply list_elem_of_filter in Hin as [_ Hin].
Qed.

Lemma list_to_map_filter (P : CacheKey * CacheEntry → Prop) `{∀ kv, Decision (P kv)} (l : items) :
  NoDup l.*1 → (list_to_map (filter P l) : gmap CacheKey CacheEntry) = filter P (list_to_map l).
Proof.
  intros Hl. apply map_eq. intros k. apply option_eq. intros e.
  rewrite map_lookup_filter_Some, <- !elem_of_list_to_map by (try done; by apply NoDup_filter_fst).
  rewrite list_elem_of_filter. tauto.
Qed.

Lemma delete_others k (l : items) :
  NoDup l.*1 → delete k (list_to_map l : gmap CacheKey CacheEntry) = list_to_map (others_than k l).
Proof.
  intros Hl. apply map_eq. intros x. apply option_eq. intros e. unfold others_than.
  rewrite lookup_delete_Some, <- !elem_of_list_to_map by (try done; by apply NoDup_filter_fst).
  rewrite list_elem_of_filter. simpl. naive_solver.
Qed.

Lemma remove_first_others k (l : items) : NoDup l.*1 → remove_first k l.*1 = (others_than k l).*1.
Proof.
  unfold others_than. induction l as [|[x e] l IH]; [done|]. intros [Hn Hl]%NoDup_cons. rewrite filter_cons.
  cbn [fmap list_fmap fst remove_first]. destruct (decide (x = k)) as [->|Hne].
  - rewrite bool_decide_true, decide_False by naive_solver. rewrite filter_all; [done|].
    apply Forall_forall. intros [y f] Hin; simpl; intros ->. apply Hn, list_elem_of_fmap. by exists (k, f).
  - rewrite bool_decide_false, decide_True by done. cbn [fmap list_fmap fst]. f_equal. by apply IH.
Qed.

Lemma total_app a b : total (a ++ b) = total a + total b.
Proof. unfold total. by rewrite fmap_app, sum_app. Qed.

Lemma total_cons kv l : total (kv :: l) = size_bytes kv.2 + total l.
Proof. done. Qed.

Lemma total_filter (P : CacheKey * CacheEntry → bool) l :
  total (filter (λ kv, P kv = true) l) + total (filter (λ kv, P kv = false) l) = total l.
Proof.
  induction l as [|kv l IH]; [done|]. rewrite !filter_cons.
  destruct (decide (P kv = true)), (decide (P kv = false)); rewrite ?total_cons; try congruence; try lia.
  exfalso. destruct (P kv); congruence.
Qed.

Definition sizes_ok (l : items) : Prop := Forall (λ kv, 0 <= size_bytes kv.2) l.

Lemma sizes_total_nonneg l : sizes_ok l → 0 <= total l.
Proof. intros Hl. apply sum_nonneg, Forall_fmap. exact Hl. Qed.

Lemma Forall_filtered {A} (Q P : A → Prop) `{∀ x, Decision (P x)} l : Forall Q l → Forall Q (filter P l).
Proof. rewrite !Forall_forall. intros Hl x [_ Hx]%list_elem_of_filter. by apply Hl. Qed.

Lemma sizes_filter (P : CacheKey * CacheEntry → Prop) `{∀ kv, Decision (P kv)} l : sizes_ok l → sizes_ok (filter P l).
Proof. apply Forall_filtered. Qed.

Lemma total_sub (P : CacheKey * CacheEntry → Prop) `{∀ kv, Decision (P kv)} l : sizes_ok l → total (filter P l) <= total l.
Proof.
  induction 1 as [|kv l Hkv Hl IH]; [done|]. rewrite filter_cons, total_cons.
  destruct (decide (P kv)); rewrite ?total_cons; lia.
Qed.

(** Sizes come off one by one, in any order. *)
Lemma fold_sizes (m : gmap CacheKey CacheEntry) (l : items) n :
  m = list_to_map l → NoDup l.*1 → sizes_ok l → total l <= n →
  map_fold (λ _ e size, saturating_sub size (size_bytes e)) n m = n - total l.
Proof.
  intros -> Hnd Hs Hn. rewrite map_fold_foldr. pose proof (map_to_list_to_map l Hnd) as Hp.
  assert (Ht : total (map_to_list (list_to_map l : gmap CacheKey CacheEntry)) = total l).
  { apply sum_perm. by rewrite Hp. }
  rewrite <- Ht in Hn |- *. assert (Hs' : sizes_ok (map_to_list (list_to_map l : gmap CacheKey CacheEntry))).
  { unfold sizes_ok. by rewrite Hp. }
  clear Ht Hp Hs Hnd. revert Hn. induction Hs' as [|[k e] r He Hr IH]; intros Hn; [unfold total, sum; simpl; lia|].
  pose proof (sizes_total_nonneg r Hr). rewrite total_cons in *. cbn [foldr uncurry snd] in *. rewrite IH by lia.
  unfold saturating_sub. lia.
Qed.

(** ** Operations *)

Lemma rep_sizes c l : rep c l → sizes_ok l.
Proof.
  intros Hr. eapply Forall_impl; [apply Hr|]. intros [k e] [He _]. simpl in *. unfold entry_ok in He. rewrite He.
  pose proof (zlen_nonneg (encoded e)). unfold CACHE_ENTRY_METADATA_BYTES. lia.
Qed.

Lemma rep_lookup c l k : rep c l → entries c !! k = find_item k l.
Proof. intros Hr. rewrite (rep_entries _ _ Hr). apply find_item_lookup. Qed.

Lemma rep_len c l : rep c l → Z.of_nat (base.size (entries c)) = zlen l.
Proof.
  intros Hr. rewrite (rep_entries _ _ Hr). unfold zlen. f_equal. rewrite <- length_map_to_list.
  by rewrite (Permutation_length (map_to_list_to_map l (rep_nodup _ _ Hr))).
Qed.

Lemma zlen_filter (P : CacheKey * CacheEntry → Prop) `{∀ kv, Decision (P kv)} (l : items) : zlen (filter P l) <= zlen l.
Proof. unfold zlen. pose proof (length_filter P l). lia. Qed.

(** Leaving entries out keeps to the limits. *)
Lemma rep_filter c l (P : CacheKey * CacheEntry → Prop) `{∀ kv, Decision (P kv)} es o n :
  rep c l → es = list_to_map (filter P l) → o = (filter P l).*1 → n = total (filter P l) →
  rep (update c es o n) (filter P l).
Proof.
  intros Hr -> -> ->. pose proof (rep_sizes c l Hr) as Hs. destruct Hr as [Hlim _ _ Hnd _ Hok Hc Ht].
  split; try done.
  - by destruct Hlim.
  - by apply NoDup_filter_fst.
  - by apply Forall_filtered.
  - simpl. pose proof (zlen_filter P l). lia.
  - simpl. pose proof (total_sub P l Hs). lia.
Qed.

Lemma others_total k l e : NoDup l.*1 → find_item k l = Some e → total l = total (others_than k l) + size_bytes e.
Proof.
  intros Hnd Hf. unfold others_than. induction l as [|[x y] l IH]; [done|]. apply NoDup_cons in Hnd as [Hn Hnd]. simpl in *.
  rewrite filter_cons. simpl. destruct (decide (x = k)) as [->|Hne].
  - rewrite bool_decide_true in Hf by done. injection Hf as ->. rewrite decide_False by naive_solver.
    rewrite filter_all; [rewrite total_cons; cbn [snd]; lia|]. apply Forall_forall. intros [z f] Hin; simpl; intros ->.
    apply Hn, list_elem_of_fmap. by exists (k, f).
  - rewrite bool_decide_false in Hf by done. rewrite decide_True by done. specialize (IH Hnd Hf).
    rewrite !total_cons. lia.
Qed.

Lemma others_id k l : find_item k l = None → others_than k l = l.
Proof.
  intros Hf%find_item_none. apply filter_all, Forall_forall. intros [x e] Hin; simpl; intros ->. apply Hf, list_elem_of_fmap. by exists (k, e).
Qed.

Lemma rep_remove c l k : rep c l → rep (remove_key k c) (others_than k l).
Proof.
  intros Hr. unfold remove_key. rewrite (rep_lookup c l k Hr). destruct (find_item k l) as [e|] eqn:Ef.
  - pose proof (others_total k l e (rep_nodup _ _ Hr) Ef) as Ht. pose proof (rep_sizes c l Hr) as Hs.
    apply rep_filter; [done| | |].
    + rewrite (rep_entries _ _ Hr). apply delete_others, Hr.
    + rewrite (rep_order _ _ Hr). apply remove_first_others, Hr.
    + rewrite (rep_size _ _ Hr), Ht. pose proof (sizes_total_nonneg _ (sizes_filter (λ kv, kv.1 ≠ k) l Hs)) as H0.
      unfold saturating_sub. unfold others_than in *. lia.
  - by rewrite others_id.
Qed.

Lemma rep_retain c l (P : CacheKey * CacheEntry → bool) o :
  rep c l → o = (filter (λ kv, P kv = true) l).*1 →
  rep (update c (retain P c).1 o (retain P c).2) (filter (λ kv, P kv = true) l).
Proof.
  intros Hr ->. pose proof (rep_sizes c l Hr) as Hs. pose proof (rep_nodup _ _ Hr) as Hnd.
  apply rep_filter; [done| |done|]; unfold retain; simpl; rewrite (rep_entries _ _ Hr).
  - symmetry. by apply list_to_map_filter.
  - rewrite (fold_sizes _ (filter (λ kv, P kv = false) l)).
    + rewrite (rep_size _ _ Hr), <- (total_filter P l). lia.
    + symmetry. by apply list_to_map_filter.
    + by apply NoDup_filter_fst.
    + by apply sizes_filter.
    + rewrite (rep_size _ _ Hr). by apply total_sub.
Qed.

Lemma filter_iff (P Q : CacheKey * CacheEntry → Prop) `{∀ kv, Decision (P kv)} `{∀ kv, Decision (Q kv)} (l : items) :
  (∀ kv, kv ∈ l → P kv ↔ Q kv) → filter P l = filter Q l.
Proof.
  induction l as [|kv l IH]; intros HPQ; [done|]. rewrite !filter_cons.
  assert (Hkv : P kv ↔ Q kv) by (apply HPQ; by left). rewrite IH by (intros x Hx; apply HPQ; by right).
  destruct (decide (P kv)), (decide (Q kv)); tauto.
Qed.

Lemma rep_invalidate c l d :
  rep c l → rep (remove_invalidation_digest d c) (filter (λ kv, (invalidation_digest kv.1 : list Z) ≠ d) l).
Proof.
  intros Hr. unfold remove_invalidation_digest. set (P := λ kv : CacheKey * CacheEntry, negb (bool_decide (invalidation_digest kv.1 = d))).
  rewrite (filter_iff _ (λ kv, P kv = true)); [apply rep_retain; [done|]|].
  - rewrite (rep_order _ _ Hr), filter_fst. f_equal. apply filter_iff. intros kv _. unfold P.
    rewrite negb_true_iff, bool_decide_eq_false. done.
  - intros kv _. unfold P. rewrite negb_true_iff, bool_decide_eq_false. done.
Qed.

Lemma rep_discovery c l :
  rep c l → rep (remove_discovery_entries c) (filter (λ kv, is_discovery kv.1 = false) l).
Proof.
  intros Hr. unfold remove_discovery_entries. set (P := λ kv : CacheKey * CacheEntry, negb (is_discovery kv.1)).
  rewrite (filter_iff _ (λ kv, P kv = true)); [apply rep_retain; [done|]|].
  - rewrite (rep_order _ _ Hr), filter_fst. f_equal. apply filter_iff. intros kv _. unfold P. by rewrite negb_true_iff.
  - intros kv _. unfold P. by rewrite negb_true_iff.
Qed.

Lemma rep_evict_expired now c l :
  rep c l → rep (evict_expired now c) (filter (λ kv, is_expired now kv.2 = false) l).
Proof.
  intros Hr. unfold evict_expired. set (P := λ kv : CacheKey * CacheEntry, negb (is_expired now kv.2)).
  pose proof (rep_nodup _ _ Hr) as Hnd.
  rewrite (filter_iff _ (λ kv, P kv = true)); [apply rep_retain; [done|]|].
  - rewrite (rep_order _ _ Hr), filter_fst. f_equal. apply filter_iff. intros [k e] Hin. unfold retain. simpl.
    rewrite (rep_entries _ _ Hr). apply elem_of_list_to_map in Hin; [|done]. split.
    + intros [e' [He' HP]%map_lookup_filter_Some]. congruence.
    + intros HP. exists e. by apply map_lookup_filter_Some.
  - intros kv _. unfold P. by rewrite negb_true_iff.
Qed.

Lemma rep_clear c l : rep c l → rep (lru_clear c) [].
Proof.
  intros [[]]. split; simpl; try done; try apply NoDup_nil_2; unfold zlen, total, sum; simpl; lia.
Qed.

Lemma rep_get now c l k :
  rep c l → (get_encoded now k c).1 = (spec_get now k l).1 ∧ rep (get_encoded now k c).2 (spec_get now k l).2.
Proof.
  intros Hr. unfold get_encoded, spec_get. rewrite (rep_lookup c l k Hr). destruct (find_item k l) as [e|] eqn:Ef; [|done].
  destruct (is_expired now e); [split; [done|by apply rep_remove]|]. split; [done|]. cbn [snd].
  pose proof (rep_nodup _ _ Hr) as Hnd. pose proof (find_item_elem k e l Ef) as Hin.
  assert (Hmem : k ∈ order c). { rewrite (rep_order _ _ Hr). apply list_elem_of_fmap. by exists (k, e). }
  rewrite bool_decide_true by done. assert (Hperm : others_than k l ++ [(k, e)] ≡ₚ l).
  { unfold others_than. clear -Hnd Ef. induction l as [|[x y] l IH]; [done|]. apply NoDup_cons in Hnd as [Hn Hnd]. simpl in *.
    rewrite filter_cons. simpl. destruct (decide (x = k)) as [->|Hne].
    - rewrite bool_decide_true in Ef by done. injection Ef as ->. rewrite decide_False by naive_solver.
      rewrite filter_all; [by rewrite Permutation_app_comm|]. apply Forall_forall. intros [z f] Hz; simpl; intros ->.
      apply Hn, list_elem_of_fmap. by exists (k, f).
    - rewrite bool_decide_false in Ef by done. rewrite decide_True by done. simpl. by rewrite IH. }
  destruct Hr as [Hlim He Ho _ Hs Hok Hc Ht]. split; simpl; try done.
  - by destruct Hlim.
  - rewrite He. apply list_to_map_proper; [|by symmetry]. done.
  - rewrite Ho, remove_first_others, fmap_app by done. done.
  - by rewrite Hperm.
  - rewrite Hs. symmetry. apply sum_perm. by rewrite Hperm.
  - by rewrite Hperm.
  - unfold zlen in *. by rewrite Hperm.
  - rewrite <- Ht. apply Z.eq_le_incl, sum_perm. by rewrite Hperm.
Qed.

(** ** Insertion *)

Lemma no_room_for_spec c l size :
  rep c l → 0 <= size →
  no_room_for size c = (max_entries c <=? zlen l) || (max_size_bytes c <? total l + size).
Proof.
  intros Hr Hs. unfold no_room_for. rewrite (rep_len c l Hr), (rep_size _ _ Hr). f_equal. unfold checked_add.
  destruct (ok_size _ (rep_limits _ _ Hr)). destruct (total l + size <=? usize_max) eqn:E; [done|]. zbool.
  symmetry. apply Z.ltb_lt. lia.
Qed.

(** An entry that fits alone gets its room. *)
Lemma rep_evict_loop l : ∀ c size,
  rep c l → 0 < max_entries c → 0 <= size <= max_size_bytes c →
  ∃ c', evict_loop (order c) size c = (Some c', c') ∧
    rep c' (make_room (max_entries c) (max_size_bytes c) size l) ∧ no_room_for size c' = false ∧
    max_entries c' = max_entries c ∧ max_size_bytes c' = max_size_bytes c ∧ max_item_size c' = max_item_size c.
Proof.
  induction l as [|[k e] l IH]; intros c size Hr Hm Hs; pose proof (no_room_for_spec c _ size Hr ltac:(lia)) as Hroom;
    rewrite (rep_order _ _ Hr).
  - assert (Hno : (max_entries c <=? zlen (A:=CacheKey * CacheEntry) []) || (max_size_bytes c <? total [] + size) = false).
    { unfold total, sum, zlen. simpl. apply orb_false_iff. split; [apply Z.leb_gt|apply Z.ltb_ge]; lia. }
    rewrite Hno in Hroom. simpl. rewrite Hroom. cbn [make_room]. rewrite Hno. by exists c.
  - cbn [fmap list_fmap fst evict_loop make_room]. rewrite Hroom. case_goal_if; [|by exists c].
    rewrite (rep_lookup _ _ k Hr). cbn [find_item]. rewrite bool_decide_true by done.
    set (c1 := update c _ _ _). assert (Hr1 : rep c1 l).
    { pose proof (rep_remove c _ k Hr) as Hrem. unfold others_than in Hrem. rewrite filter_cons in Hrem. cbn [fst] in Hrem.
      pose proof (rep_nodup _ _ Hr) as [Hn Hnd]%NoDup_cons. rewrite decide_False, filter_all in Hrem; [|
        apply Forall_forall; intros [z f] Hz; simpl; intros ->; apply Hn, list_elem_of_fmap; by exists (k, f)|naive_solver].
      unfold remove_key in Hrem. rewrite (rep_lookup _ _ k Hr) in Hrem. cbn [find_item] in Hrem.
      rewrite bool_decide_true, (rep_order _ _ Hr) in Hrem by done. cbn [fmap list_fmap fst remove_first] in Hrem.
      by rewrite bool_decide_true in Hrem. }
    destruct (IH c1 size Hr1 Hm Hs) as (c' & Hev & Hrest). exists c'. split; [|exact Hrest].
    by rewrite <- (rep_order _ _ Hr1).
Qed.

Lemma rep_push c l k e :
  rep c l → entry_ok e → zlen (encoded e) <= max_item_size c → k ∉ l.*1 → no_room_for (size_bytes e) c = false →
  rep (update c (<[k := e]> (entries c)) (order c ++ [k]) (total l + size_bytes e)) (l ++ [(k, e)]).
Proof.
  intros Hr He Hi Hk Hroom. assert (H0 : 0 <= size_bytes e).
  { unfold entry_ok in He. rewrite He. pose proof (zlen_nonneg (encoded e)). unfold CACHE_ENTRY_METADATA_BYTES. lia. }
  rewrite (no_room_for_spec c l _ Hr H0) in Hroom. apply orb_false_iff in Hroom as [Hc Ht]. zbool.
  destruct Hr as [Hlim Hes Ho Hnd Hs Hok _ _]. split; simpl; try done.
  - by destruct Hlim.
  - rewrite Hes, list_to_map_app. simpl. rewrite <- insert_union_r; [by rewrite map_union_empty|].
    by rewrite find_item_lookup, find_item_none.
  - by rewrite Ho, fmap_app.
  - rewrite fmap_app. simpl. apply NoDup_app. split_and!; [done| |apply NoDup_singleton].
    intros x Hx ->%list_elem_of_singleton. done.
  - rewrite total_app. unfold total at 3, sum. simpl. lia.
  - apply Forall_app. split; [done|]. by constructor.
  - rewrite zlen_app, zlen_cons, zlen_nil. lia.
  - rewrite total_app. unfold total at 2, sum. simpl. lia.
Qed.

Lemma make_room_keys n b size l k : k ∉ l.*1 → k ∉ (make_room n b size l).*1.
Proof.
  induction l as [|[x e] l IH]; intros Hk; cbn [make_room]; case_goal_if; try done.
  apply IH. simpl in Hk. by apply not_elem_of_cons in Hk as [_ Hk].
Qed.

Lemma rep_insert now c l k e :
  rep c l → entry_ok e → rep (insert_entry now k e c) (spec_insert c now k e l).
Proof.
  intros Hr He. unfold insert_entry, spec_insert. case_goal_if; [done|]. apply orb_false_iff in E as [E Es].
  apply orb_false_iff in E as [E Ei]. apply orb_false_iff in E as [En Eb]. zbool.
  pose proof (rep_evict_expired now c l Hr) as Hr1. set (l1 := filter _ l) in *. set (c1 := evict_expired now c) in *.
  assert (Hr2 : rep (if bool_decide (is_Some (entries c1 !! k)) then remove_key k c1 else c1) (others_than k l1)).
  { rewrite (rep_lookup _ _ k Hr1). case_bool_decide as Hk; [by apply rep_remove|].
    rewrite others_id; [done|]. by apply eq_None_not_Some. }
  assert (Hlim : ∀ c', c' = (if bool_decide (is_Some (entries c1 !! k)) then remove_key k c1 else c1) →
    max_entries c' = max_entries c ∧ max_size_bytes c' = max_size_bytes c ∧ max_item_size c' = max_item_size c).
  { intros c' ->. case_goal_if; [|done]. unfold remove_key. by destruct (entries c1 !! k). }
  set (c2 := if _ : bool then _ else _) in *. destruct (Hlim c2 eq_refl) as (H1 & H2 & H3).
  assert (H0 : 0 <= size_bytes e).
  { unfold entry_ok in He. rewrite He. pose proof (zlen_nonneg (encoded e)). unfold CACHE_ENTRY_METADATA_BYTES. lia. }
  destruct (ok_entries _ (rep_limits _ _ Hr)) as [Hn0 _].
  destruct (rep_evict_loop _ c2 (size_bytes e) Hr2) as (c3 & -> & Hr3 & Hroom & H4 & H5 & H6); [lia|lia|].
  rewrite H1, H2 in Hr3. pose proof Hroom as Hroom'. rewrite (no_room_for_spec c3 _ _ Hr3 H0) in Hroom'.
  apply orb_false_iff in Hroom' as [Hc Ht]. zbool. set (l3 := make_room _ _ _ _) in *.
  destruct (ok_size _ (rep_limits _ _ Hr3)).
  rewrite (rep_size _ _ Hr3). unfold checked_add. rewrite (proj2 (Z.leb_le _ _)) by lia.
  rewrite (rep_len _ _ Hr3), (proj2 (Z.ltb_ge _ _)), (proj2 (Z.leb_gt _ _)) by lia. cbn [orb].
  apply rep_push; [done|done|lia| |done]. unfold l3. apply make_room_keys. unfold others_than.
  intros ([x f] & -> & [Hx _]%list_elem_of_filter)%list_elem_of_fmap. done.
Qed.

(** C23: the store is a list of entries, the least recently used first, that keeps
    to the limits on entries, bytes and the size of an item and whose sizes add up
    to the recorded total.  A lookup answers the entry of a key unless it has
    expired and makes it the most recent; an insertion drops the expired entries,
    replaces the key, drops least recently used entries only until the new one
    fits, and is refused without any change exactly when the entry cannot fit;
    removing, invalidating and clearing leave the other entries in their order. *)
Theorem lru_refines c l now :
  rep c l →
  (∀ k, (get_encoded now k c).1 = (spec_get now k l).1 ∧ rep (get_encoded now k c).2 (spec_get now k l).2) ∧
  (∀ k e, entry_ok e → rep (insert_entry now k e c) (spec_insert c now k e l)) ∧
  (∀ k, rep (remove_key k c) (others_than k l)) ∧
  (∀ d, rep (remove_invalidation_digest d c) (filter (λ kv, (invalidation_digest kv.1 : list Z) ≠ d) l)) ∧
  rep (remove_discovery_entries c) (filter (λ kv, is_discovery kv.1 = false) l) ∧
  rep (lru_clear c) [] ∧
  (∀ k, entries c !! k = find_item k l) ∧ Z.of_nat (base.size (entries c)) = zlen l.
Proof.
  intros Hr. split_and!.
  - intros k. by apply rep_get.
  - intros k e. by apply rep_insert.
  - intros k. by apply rep_remove.
  - intros d. by apply rep_invalidate.
  - by apply rep_discovery.
  - by eapply rep_clear.
  - intros k. by apply rep_lookup.
  - by apply rep_len.
Qed.
End RCacheFacts.
