(* ===== verification/ResponseIsolation.v ===== *)
(** What the keys of the response cache hash, and what equal keys agree on.

    The response cache keeps contexts apart: what a request is answered from the
    cache was answered before to the same request in the same session, at the same
    revision, for the same identity, whatever other threads do meanwhile. *)
From stdpp Require Import base list gmap strings relations.
From Stdlib Require Import ZArith Lia.
From S2P Require Import Prelude Utf8 JsonGrammar RequestId JsonRpc RateLimit HttpHeaders SessionState ResponseCache ResponseMiddleware ResponseCacheFacts.
Module RKeys.
Import Headers RCache RMiddleware.

(** * Writers *)

Section keys.
Context (writes : Value → list (list Z)) (reserve : Z → option Z) (sha256 : list Z → Sha256Digest).

(** The text a value serializes to. *)
Definition text (v : Value) : list Z := concat (writes v).

Lemma write_bytes buffer b b' :
  write reserve buffer b = Some b' → bytes b' = bytes b ++ buffer ∧ max_bytes b' = max_bytes b ∧ zlen (bytes b') <= max_bytes b.
Proof.
  unfold write. intros H. destruct (checked_add _ _) as [n|] eqn:En; [|done]. simpl in H.
  apply checked_add_Some in En as [-> _]. case_if_in H; [done|]. zbool.
  destruct (ensure_capacity_for reserve _ b) as [b1|] eqn:Eb; [|done]. injection H as <-. simpl.
  assert (bytes b1 = bytes b ∧ max_bytes b1 = max_bytes b) as [-> ->].
  { unfold ensure_capacity_for in Eb. case_if_in Eb; [by injection Eb as <-|].
    destruct (reserve _) as [g|]; [|done]. simpl in Eb. case_if_in Eb; [done|]. by injection Eb as <-. }
  rewrite zlen_app. by split_and!.
Qed.

Lemma write_all_bytes buffer b b' :
  write_all reserve buffer b = Some b' → bytes b' = bytes b ++ buffer ∧ max_bytes b' = max_bytes b.
Proof.
  unfold write_all. case_bool_decide as Hb; [intros [= ->]; by rewrite Hb, app_nil_r|].
  intros (H1 & H2 & _)%write_bytes. done.
Qed.

Lemma write_each_bytes buffers : ∀ b b',
  write_each reserve buffers b = Some b' → bytes b' = bytes b ++ concat buffers ∧ max_bytes b' = max_bytes b.
Proof.
  induction buffers as [|buffer buffers IH]; intros b b' H; cbn [write_each] in H.
  { injection H as <-. by rewrite app_nil_r. }
  destruct (write_all reserve buffer b) as [b1|] eqn:E1; [|done]. simpl in H.
  apply write_all_bytes in E1 as [Hb1 Hm1]. apply IH in H as [-> ->]. by rewrite Hb1, <- app_assoc.
Qed.

(** * Requests *)

Definition request_text (domain m : list Z) (ps : option Value) : list Z :=
  domain ++ to_be_bytes (zlen (as_bytes m)) ++ as_bytes m ++
  match ps with None => [0] | Some v => 1 :: text v end.

Lemma digest_text b d : digest_bounded sha256 b = Some d → d = sha256 (bytes b).
Proof. unfold digest_bounded, sha256_bounded. case_goal_if; [done|]. by intros [= <-]. Qed.

Ltac written H :=
  match type of H with
  | context [write_all reserve ?s ?b] =>
      let E := fresh "W" in destruct (write_all reserve s b) eqn:E; [|done]; simpl in H; apply write_all_bytes in E as [E _]
  end.

Lemma try_digest_text domain m ps d :
  try_digest writes reserve sha256 domain m ps = Some d → d = sha256 (request_text domain m ps).
Proof.
  unfold try_digest. intros H. case_if_in H; [done|]. written H. written H. written H.
  unfold request_text. destruct ps as [v|].
  - written H. destruct (to_writer writes reserve v _) as [b5|] eqn:E5; [|done]. simpl in H.
    apply write_each_bytes in E5 as [E5 _]. apply digest_text in H as ->. f_equal. rewrite E5, W2, W1, W0, W.
    simpl. by rewrite <- !app_assoc.
  - written H. apply digest_text in H as ->. f_equal. rewrite W2, W1, W0, W. simpl. by rewrite <- !app_assoc.
Qed.

Definition params_text (ps : option Value) : option (list Z) := text <$> ps.

(** Methods of a length that a machine can hold. *)
Definition method_fits (m : list Z) : Prop := zlen (as_bytes m) < 2 ^ 64.

Lemma request_text_inj domain m ps m' ps' :
  method_fits m → method_fits m' → request_text domain m ps = request_text domain m' ps' →
  as_bytes m = as_bytes m' ∧ params_text ps = params_text ps'.
Proof.
  unfold method_fits, request_text. intros Hm Hm' H. apply app_inv_head in H.
  apply app_inj_1 in H as [Hlen H]; [|done]. apply to_be_bytes_inj in Hlen; [|pose proof (zlen_nonneg (as_bytes m)); lia|pose proof (zlen_nonneg (as_bytes m')); lia].
  apply app_inj_1 in H as [Hmm H]; [|unfold zlen in Hlen; lia]. split; [done|].
  destruct ps as [v|], ps' as [v'|]; try done. injection H as H. unfold params_text. simpl. by rewrite H.
Qed.

(** * Partitions *)

Definition session_text (s : option (list Z * Z)) : list Z :=
  match s with Some (opaque, rev) => 1 :: opaque ++ to_be_bytes rev | None => CACHE_STATELESS_PARTITION_DOMAIN end.
Definition auth_text (a : option AuthContext) : list Z :=
  match a with
  | None => [0]
  | Some a => 1 :: match session_owner a with None => [0] | Some owner => 1 :: owner end ++ text (auth_value a)
  end.
Definition partition_text (s : option (list Z * Z)) (a : option AuthContext) : list Z :=
  CACHE_PARTITION_KEY_DOMAIN ++ session_text s ++ auth_text a.

Lemma partition_digest_text s a d :
  partition_digest_of writes reserve sha256 s a = Some d → d = sha256 (partition_text s a).
Proof.
  unfold partition_digest_of, partition_canonical. intros H. written H.
  set (m := match s with Some _ => _ | None => _ end) in H. assert (Hm : ∀ b', m = Some b' → bytes b' = bytes b ++ session_text s).
  { intros b' Hb'. unfold m in Hb'. destruct s as [[op rev]|]; [|by apply write_all_bytes in Hb' as [-> _]].
    written Hb'. written Hb'. apply write_all_bytes in Hb' as [-> _]. rewrite W1, W0. simpl. by rewrite <- !app_assoc. }
  destruct m as [b'|]; [|done]. simpl in H. specialize (Hm b' eq_refl). unfold partition_text, auth_text.
  destruct a as [a|].
  - written H. set (n := match session_owner a with Some _ => _ | None => _ end) in H.
    assert (Hn : ∀ b2, n = Some b2 → bytes b2 = bytes b0 ++ match session_owner a with None => [0] | Some owner => 1 :: owner end).
    { intros b2 Hb2. unfold n in Hb2. destruct (session_owner a) as [owner|]; [|by apply write_all_bytes in Hb2 as [-> _]].
      written Hb2. apply write_all_bytes in Hb2 as [-> _]. rewrite W1. by rewrite <- app_assoc. }
    destruct n as [b2|]; [|done]. simpl in H. specialize (Hn b2 eq_refl).
    destruct (to_writer writes reserve (auth_value a) b2) as [b3|] eqn:E3; [|done]. simpl in H.
    apply write_each_bytes in E3 as [E3 _]. apply digest_text in H as ->. f_equal. rewrite E3, Hn, W0, Hm, W.
    simpl. by rewrite <- !app_assoc.
  - destruct (write_all reserve [0] b') as [b3|] eqn:E3; [|done]. simpl in H. apply write_all_bytes in E3 as [E3 _].
    apply digest_text in H as ->. f_equal. rewrite E3, Hm, W. by rewrite <- !app_assoc.
Qed.

(** Identifiers are 32 bytes and revisions 64 bits. *)
Definition session_ok (s : option (list Z * Z)) : Prop :=
  match s with Some (opaque, rev) => length opaque = 32%nat ∧ 0 <= rev < 2 ^ 64 | None => True end.
Definition auth_ok (a : option AuthContext) : Prop :=
  match a with Some a => match session_owner a with Some owner => length owner = 32%nat | None => True end | None => True end.

(** What the key sees of an authenticated context. *)
Definition auth_identity (a : option AuthContext) : option (option Sha256Digest * list Z) :=
  (λ a, (session_owner a, text (auth_value a))) <$> a.

Lemma partition_text_inj s a s' a' :
  session_ok s → session_ok s' → auth_ok a → auth_ok a' → partition_text s a = partition_text s' a' →
  s = s' ∧ auth_identity a = auth_identity a'.
Proof.
  intros Hs Hs' Ha Ha' H. unfold partition_text in H. apply app_inv_head in H.
  assert (Hsess : s = s' ∧ auth_text a = auth_text a').
  { destruct s as [[op rev]|], s' as [[op' rev']|]; cbn [session_text] in H; simpl in Hs, Hs'; try done.
    - destruct Hs as [Hl Hr], Hs' as [Hl' Hr']. injection H as H. rewrite <- !app_assoc in H.
      apply app_inj_1 in H as [<- H]; [|congruence]. apply app_inj_1 in H as [Hrev H]; [|done].
      apply to_be_bytes_inj in Hrev; [|lia..]. by subst.
    - by apply app_inv_head in H. }
  destruct Hsess as [-> Hauth]. split; [done|]. unfold auth_identity.
  destruct a as [a|], a' as [a'|]; simpl in *; try done. injection Hauth as Hauth.
  destruct (session_owner a) as [ow|], (session_owner a') as [ow'|]; simpl in Hauth; try done.
  - injection Hauth as Hauth. apply app_inj_1 in Hauth as [-> ->]; [done|congruence].
  - by injection Hauth as ->.
Qed.

(** * Keys *)

Definition collision : Prop := ∃ x y, x ≠ y ∧ sha256 x = sha256 y.

Definition key_of (m : list Z) (ps : option Value) (s : option (list Z * Z)) (a : option AuthContext) (b : CacheEntryBinding)
    : option CacheKey :=
  p ← partition_digest_of writes reserve sha256 s a; try_new_partitioned writes reserve sha256 m ps p b.

(** Equal keys belong to the same request, session, revision and identity, or two
    texts have the same digest. *)
Lemma key_of_inj m ps s a b m' ps' s' a' b' k :
  method_fits m → method_fits m' → session_ok s → session_ok s' → auth_ok a → auth_ok a' →
  key_of m ps s a b = Some k → key_of m' ps' s' a' b' = Some k →
  b = b' ∧ (collision ∨ as_bytes m = as_bytes m' ∧ params_text ps = params_text ps' ∧ s = s' ∧ auth_identity a = auth_identity a').
Proof.
  intros Hm Hm' Hs Hs' Ha Ha' H H'. unfold key_of, try_new_partitioned, try_request_digest in H, H'.
  destruct (partition_digest_of writes reserve sha256 s a) as [p|] eqn:Ep; [|done].
  destruct (partition_digest_of writes reserve sha256 s' a') as [p'|] eqn:Ep'; [|done]. simpl in H, H'.
  destruct (try_digest _ _ _ _ m ps) as [r|] eqn:Er; [|done]. destruct (try_digest _ _ _ _ m' ps') as [r'|] eqn:Er'; [|done].
  simpl in H, H'. destruct (try_invalidation_digest _ _ _ m ps) as [i|]; [|done].
  destruct (try_invalidation_digest _ _ _ m' ps') as [i'|]; [|done]. simpl in H, H'.
  rewrite <- H in H'. injection H' as Hr _ Hp Hb. split; [done|].
  apply try_digest_text in Er as ->. apply try_digest_text in Er' as ->.
  apply partition_digest_text in Ep as ->. apply partition_digest_text in Ep' as ->.
  destruct (decide (request_text CACHE_REQUEST_KEY_DOMAIN m ps = request_text CACHE_REQUEST_KEY_DOMAIN m' ps')) as [Hrt|Hne];
    [|left; by eexists _, _].
  destruct (decide (partition_text s a = partition_text s' a')) as [Hpt|Hne]; [|left; by eexists _, _].
  right. apply request_text_inj in Hrt as [? ?]; [|done..]. apply partition_text_inj in Hpt as [? ?]; [|done..]. done.
Qed.
End keys.
End RKeys.

Module RIsolation.
Import Headers RCache RMiddleware RCacheFacts RKeys.

(** * Entries only disappear *)

Lemma rep_sub c l c' l' :
  rep c l → rep c' l' → (∀ kv, kv ∈ l' → kv ∈ l) → ∀ k e, entries c' !! k = Some e → entries c !! k = Some e.
Proof.
  intros Hr Hr' Hsub k e. rewrite (rep_lookup _ _ k Hr'). intros Hin%find_item_elem%Hsub.
  rewrite (rep_entries _ _ Hr). apply elem_of_list_to_map; [apply Hr|done].
Qed.

Lemma make_room_sub n b size l kv : kv ∈ make_room n b size l → kv ∈ l.
Proof.
  induction l as [|x l IH]; cbn [make_room]; case_goal_if; try done. intros Hin. right. by apply IH.
Qed.

Lemma insert_sub now c l k e k' e' :
  rep c l → entry_ok e → entries (insert_entry now k e c) !! k' = Some e' →
  (k' = k ∧ e' = e) ∨ entries c !! k' = Some e'.
Proof.
  intros Hr He H. pose proof (rep_insert now c l k e Hr He) as Hr'. rewrite (rep_lookup _ _ k' Hr') in H.
  apply find_item_elem in H. unfold spec_insert in H.
  assert (Hin : (k', e') ∈ l → entries c !! k' = Some e').
  { intros Hin. rewrite (rep_entries _ _ Hr). apply elem_of_list_to_map; [apply Hr|done]. }
  case_if_in H; [by right; apply Hin|]. apply elem_of_app in H as [H|H].
  - right. apply Hin. apply make_room_sub in H. apply list_elem_of_filter in H as [_ H].
    by apply list_elem_of_filter in H as [_ H].
  - apply list_elem_of_singleton in H as [= -> ->]. by left.
Qed.

Section isolation.
Context (writes : Value → list (list Z)) (from_slice : list Z → option Value).
Context (reserve : Z → option Z) (sha256 : list Z → Sha256Digest) (max_instant : Z).
Context (config : Config).

(** [answered request session identity binding v]: in a context of that session
    and identity, at that binding, the request was answered [v]. *)
Context (answered : Request → option (list Z * Z) → option AuthContext → CacheEntryBinding → Value → Prop).

Abbreviation hints := (apply_protocol_cache_hints config).
Abbreviation key := (key_of writes reserve sha256).

(** * What holds at any time *)

(** An entry is the text of an answer under the key of its request. *)
Definition legit (k : CacheKey) (e : CacheEntry) : Prop :=
  ∃ request s a v, answered request s a (binding k) v ∧ method_fits (method request) ∧ session_ok s ∧ auth_ok a ∧
    key (method request) (params request) s a (binding k) = Some k ∧
    encoded e = text writes (hints (method request) v).

Record shared_ok (s : Shared) : Prop := {
  ok_rep : ∃ l, rep (cache s) l;
  ok_legit : ∀ k e, entries (cache s) !! k = Some e → legit k e;
  ok_current : ∀ k e, entries (cache s) !! k = Some e →
    cache_entry_binding_is_current (binding k) (discovery_generation s) = true;
  ok_generation : 0 <= discovery_generation s <= u64_max;
}.

Record ctx_ok (c : McpContext) : Prop := {
  ok_state : match state c with
             | Some s => match Session.state_partition s with Some p => length p = 32%nat | None => True end ∧
                         0 <= Session.revision s <= u64_max
             | None => True
             end;
  ok_auth : auth_ok (auth c);
  ok_admission : session_ok (cache_admission_partition c);
}.

(** What other threads may do to the shared state and to the context. *)
Record rely (w w' : World) : Prop := {
  rely_shared : shared_ok (shared w) → shared_ok (shared w');
  rely_ctx : ctx_ok (ctx w) → ctx_ok (ctx w');
  rely_closed : request_closed (ctx w) = true → request_closed (ctx w') = true;
  rely_auth : auth_state (ctx w) ≠ Uncommitted → auth_state (ctx w') = auth_state (ctx w) ∧ auth (ctx w') = auth (ctx w);
  rely_state : match state (ctx w), state (ctx w') with
               | Some s, Some s' => Session.follows s s'
               | None, None => True
               | _, _ => False
               end;
  rely_admission : ∀ p, cache_admission_partition (ctx w) = Some p → cache_admission_partition (ctx w') = Some p;
  rely_clock : clock w <= clock w';
}.
Abbreviation evolves := (rtc rely).

Lemma rely_same w w' :
  ctx w' = ctx w → clock w' = clock w → (shared_ok (shared w) → shared_ok (shared w')) → rely w w'.
Proof.
  intros Hc Ht Hs. split; rewrite ?Hc; try done; [|lia]. destruct (state (ctx w)); [|done]. apply Session.follows_refl.
Qed.

(** The identity of a context: stable once it is known. *)
Definition auth_is (c : McpContext) (a : option AuthContext) : Prop :=
  auth_state c = Anonymous ∧ a = None ∨ auth_state c = Authenticated ∧ a = auth c ∧ is_Some a.
Definition session_is (c : McpContext) (s : option (list Z * Z)) : Prop :=
  match state c with
  | None => s = None
  | Some st => if Session.ephemeral st then s = None else cache_admission_partition c = s ∧ is_Some s
  end.

Lemma auth_is_stable w w' a : rely w w' → auth_is (ctx w) a → auth_is (ctx w') a.
Proof.
  intros Hr H. destruct (rely_auth _ _ Hr) as [H1 H2]; [by destruct H as [[-> _]|[-> _]]|].
  unfold auth_is. by rewrite H1, H2.
Qed.

Lemma session_is_stable w w' s : rely w w' → session_is (ctx w) s → session_is (ctx w') s.
Proof.
  intros Hr. pose proof (rely_state _ _ Hr) as Hst. unfold session_is.
  destruct (state (ctx w)) as [st|], (state (ctx w')) as [st'|]; try done.
  destruct Hst as (_ & -> & _). destruct (Session.ephemeral st); [done|]. intros [Ha [p ->]].
  by rewrite (rely_admission _ _ Hr p Ha).
Qed.

Lemma evolves_facts w w' :
  evolves w w' → (shared_ok (shared w) → shared_ok (shared w')) ∧ (ctx_ok (ctx w) → ctx_ok (ctx w')) ∧
  (request_closed (ctx w') = false → request_closed (ctx w) = false) ∧
  (∀ a, auth_is (ctx w) a → auth_is (ctx w') a) ∧ (∀ s, session_is (ctx w) s → session_is (ctx w') s).
Proof.
  induction 1 as [|w w1 w2 Hr _ (IH1 & IH2 & IH3 & IH4 & IH5)]; [done|]. split_and!.
  - intros H. by apply IH1, Hr.
  - intros H. by apply IH2, Hr.
  - intros H%IH3. destruct (request_closed (ctx w)) eqn:E; [|done]. apply (rely_closed _ _ Hr) in E. congruence.
  - intros a H. by apply IH4, (auth_is_stable _ _ _ Hr).
  - intros s H. by apply IH5, (session_is_stable _ _ _ Hr).
Qed.

(** * Steps of a handler *)

Context (env : nat → World → World) (Henv : ∀ n w, rely w (env n w)).
Abbreviation H := (M World McpError).

(** [m] ends well from [w] with [Q], and has changed the world as others may. *)
Definition does {A} (m : H A) (w : World) (Q : A → World → Prop) : Prop :=
  wp m (λ a w', evolves w w' ∧ Q a w') (λ _ _, False) w.

Lemma does_ret {A} (x : A) w (Q : A → World → Prop) : Q x w → does (ret x) w Q.
Proof. done. Qed.

Lemma does_bind {A B} (m : H A) (k : A → H B) w Q Q' :
  does m w Q → (∀ a w', evolves w w' → Q a w' → does (k a) w' Q') → does (bind m k) w Q'.
Proof.
  unfold does. intros Hm Hk. rewrite wp_bind. eapply wp_mono; [exact Hm| |done]. intros a w' [Hev HQ].
  eapply wp_mono; [by apply Hk| |done]. intros b w'' [Hev' HQ']. split; [by etrans|done].
Qed.

Lemma does_mono {A} (m : H A) w (Q Q' : A → World → Prop) :
  does m w Q → (∀ a w', evolves w w' → Q a w' → Q' a w') → does m w Q'.
Proof. intros Hm HQ. eapply wp_mono; [exact Hm| |done]. intros a w' [? ?]. split; auto. Qed.

(** Others take their turn, then an atomic step is made. *)
Lemma does_step {A} (m : H A) w (Q : A → World → Prop) :
  (∀ w1, rely w w1 → ∃ a w2, m w1 = (Ok a, w2) ∧ rely w1 w2 ∧ Q a w2) → does (others env ;! m) w Q.
Proof.
  intros Hm. unfold does. rewrite wp_bind. set (w1 := env (turn w) w). pose proof (Henv (turn w) w) as Hr. fold w1 in Hr.
  set (w1' := {| shared := shared w1; ctx := ctx w1; clock := clock w1; turn := S (turn w) |}).
  assert (Hr' : rely w w1') by (by destruct Hr). destruct (Hm w1' Hr') as (a & w2 & Ha & Hr2 & HQ).
  unfold wp. simpl. fold w1. fold w1'. rewrite Ha. split; [|done]. by apply (rtc_l _ _ w1'), rtc_once.
Qed.

Lemma does_read {A} (f : World → A) w (Q : A → World → Prop) :
  (∀ w1, rely w w1 → Q (f w1) w1) → does (read env f) w Q.
Proof.
  intros Hf. apply does_step. intros w1 Hr. exists (f w1), w1. split; [done|]. split; [by apply rely_same|by apply Hf].
Qed.

Lemma does_shared (f : Shared → Shared) w (Q : unit → World → Prop) :
  (∀ s, shared_ok s → shared_ok (f s)) → (∀ w1, Q tt w1) → does (on_shared env f) w Q.
Proof.
  intros Hf HQ. apply does_step. intros w1 Hr. eexists tt, _. split; [done|]. split; [|done]. apply rely_same; [done..|].
  apply Hf.
Qed.

(** ** The identity of a context *)

Lemma active_iff c : request_scope_is_active c = true ↔ request_closed c = false.
Proof. unfold request_scope_is_active. by rewrite negb_true_iff. Qed.

Lemma auth_partition_is c a : cache_auth_partition c = Some a → auth_is c a.
Proof.
  unfold cache_auth_partition, auth_is. intros Ha. case_if_in Ha; [done|]. destruct (auth_state c); [done|by injection Ha as <-; left|].
  right. destruct (auth c) as [x|]; [|done]. simpl in Ha. injection Ha as <-. by split_and!.
Qed.

(** A context that is open at the end of the derivation has the session the
    derivation used. *)
Definition derived (d : option Sha256Digest) (w : World) : Prop :=
  match d with
  | None => True
  | Some d => ∃ s a, partition_digest_of writes reserve sha256 s a = Some d ∧ auth_is (ctx w) a ∧
      (request_closed (ctx w) = false → session_is (ctx w) s)
  end.

Lemma admission_revision_ok c st p :
  ctx_ok c → state c = Some st → Session.cache_admission_revision st = Some p → session_ok (Some p).
Proof.
  intros Hc Hs Hp. pose proof (ok_state _ Hc) as Ho. rewrite Hs in Ho. destruct Ho as [Hlen Hrev].
  unfold Session.cache_admission_revision in Hp. destruct (Session.local st); [done|]. case_if_in Hp; [done|]. zbool.
  apply fmap_Some in Hp as (q & Hq & ->). rewrite Hq in Hlen. split; [done|]. unfold u64_max in *. lia.
Qed.

(** What the session part of a derivation answers. *)
Lemma session_partition_does phase w :
  does (session_partition env phase) w (λ r w', ∀ p, r = Some p →
    cache_admission_partition (ctx w') = Some p ∧ is_Some (state (ctx w'))).
Proof.
  destruct phase; [|apply does_read].
  - apply does_step. intros w1 _. eexists _, _. split; [done|]. cbn [ctx set_ctx].
    unfold begin_session_cache_partition. destruct (negb (request_scope_is_active (ctx w1))); cbn [fst snd];
      [split; [by apply rely_same|done]|].
    destruct (state (ctx w1)) as [st|] eqn:Est; cbn [mbind option_bind]; [|split; [by apply rely_same|done]].
    destruct (Session.cache_admission_revision st) as [cur|] eqn:Ecur; cbn [fst snd]; [|split; [by apply rely_same|done]].
    destruct (cache_admission_partition (ctx w1)) as [ex|] eqn:Eadm; cbn [fst snd].
    + split; [by apply rely_same|]. intros p Hp. case_bool_decide; [|done]. injection Hp as <-. simpl. rewrite Eadm, Est. by split.
    + split.
      * split; simpl; rewrite ?Est, ?Eadm; try done.
        intros Hc. pose proof (admission_revision_ok _ _ _ Hc Est Ecur) as Hok. destruct Hc as [Hs Ha _].
        split; simpl; [done..|]. exact Hok.
      * intros p [= <-]. simpl. by rewrite Est.
  - intros w1 _ p Hp. unfold complete_session_cache_partition in Hp. case_if_in Hp; [done|].
    destruct (cache_admission_partition (ctx w1)) as [ad|]; [|done]. simpl in Hp.
    destruct (state (ctx w1)) as [st|]; [|done]. simpl in Hp. case_bool_decide; [|done]. injection Hp as <-. by split.
Qed.

Lemma context_cache_partition_does phase w :
  does (context_cache_partition writes reserve sha256 env phase) w derived.
Proof.
  unfold context_cache_partition. eapply does_bind; [by apply (does_read _ _ (λ _ _, True))|]. intros live w1 _ _.
  case_goal_if; [by apply does_ret|].
  eapply does_bind; [apply (does_read _ _ (λ o w, ∀ a, o = Some a → auth_is (ctx w) a));
    intros w2 _ a Ha; by apply auth_partition_is|].
  intros [a|] w2 _ Hauth; [|by apply does_ret]. specialize (Hauth a eq_refl).
  eapply does_bind; [apply session_partition_does|]. intros s w3 Hev3 Hs. case_goal_if; [by apply does_ret|].
  assert (Hauth3 : auth_is (ctx w3) a) by (by apply (evolves_facts _ _ Hev3)).
  eapply does_bind; [apply (does_read _ _ (λ b w, rely w3 w ∧ b = session_is_ephemeral (ctx w))); done|].
  intros eph w4 _ [Hr4 Heph]. pose proof (auth_is_stable _ _ _ Hr4 Hauth3) as Hauth4.
  destruct eph.
  { apply does_ret. unfold derived. destruct (partition_digest_of _ _ _ None a) eqn:Ed; [|done].
    exists None, a. split_and!; [done..|]. intros _. unfold session_is_ephemeral in Heph. unfold session_is.
    destruct (state (ctx w4)) as [st|]; [|done]. symmetry in Heph. apply andb_true_iff in Heph as [_ Heph].
    unfold Session.is_ephemeral in Heph. by rewrite Heph. }
  assert (Hdurable : ∀ st, request_closed (ctx w4) = false → state (ctx w4) = Some st → Session.ephemeral st = false).
  { intros st Hc Hst. unfold session_is_ephemeral in Heph. rewrite (proj2 (active_iff _) Hc), Hst in Heph. done. }
  destruct s as [p|].
  - apply does_ret. unfold derived. destruct (partition_digest_of _ _ _ (Some p) a) eqn:Ed; [|done].
    exists (Some p), a. split_and!; [done..|]. intros Hc. destruct (Hs p eq_refl) as [Hadm [st3 Hst3]].
    unfold session_is. pose proof (rely_state _ _ Hr4) as Hst. rewrite Hst3 in Hst.
    destruct (state (ctx w4)) as [st|] eqn:E4; [|done]. rewrite (Hdurable st Hc eq_refl).
    by rewrite (rely_admission _ _ Hr4 p Hadm).
  - eapply does_bind; [apply (does_read _ _ (λ b w, rely w4 w ∧ b = has_session_state (ctx w))); done|].
    intros has w5 _ [Hr5 Hhas]. destruct has; [by apply does_ret|]. apply does_ret. unfold derived.
    destruct (partition_digest_of _ _ _ None a) eqn:Ed; [|done]. exists None, a.
    split_and!; [done|by apply (auth_is_stable _ _ _ Hr5)|]. intros Hc. unfold session_is. unfold has_session_state in Hhas.
    rewrite (proj2 (active_iff _) Hc) in Hhas. symmetry in Hhas. apply bool_decide_eq_false in Hhas.
    destruct (state (ctx w5)); [|done]. destruct Hhas. by eexists.
Qed.

(** The session, if there is one, is at the revision the request was admitted with. *)
Definition at_admitted_revision (c : McpContext) : Prop :=
  match state c with
  | Some st => ∃ p, cache_admission_partition c = Some p ∧ Session.cache_admission_revision st = Some p
  | None => True
  end.

Lemma admitted_complete c : is_Some (complete_session_cache_partition c) → at_admitted_revision c.
Proof.
  intros [p Hp]. unfold complete_session_cache_partition in Hp. unfold at_admitted_revision. case_if_in Hp; [done|].
  destruct (cache_admission_partition c) as [ad|] eqn:Ead; [|done]. simpl in Hp.
  destruct (state c) as [st|]; [|done]. simpl in Hp. case_bool_decide as Hrev; [|done]. by exists ad.
Qed.

Lemma admitted_stateless c : has_session_state c = false → request_closed c = false → at_admitted_revision c.
Proof.
  unfold has_session_state, at_admitted_revision. intros Hhas Hc. rewrite (proj2 (active_iff _) Hc) in Hhas.
  apply bool_decide_eq_false in Hhas. destruct (state c); [|done]. destruct Hhas. by eexists.
Qed.

Lemma ensure_live_open c : ensure_live c = true → request_closed c = false.
Proof. unfold ensure_live. intros H. destruct (request_scope_is_active c) eqn:Ea; [by apply active_iff|done]. Qed.

(** The last checks find the request open, and its session at the admitted
    revision. *)
Definition committed (w0 w : World) : Prop :=
  request_closed (ctx w) = false ∧ ∃ wc, evolves w0 wc ∧ evolves wc w ∧ at_admitted_revision (ctx wc).

Lemma commit_does w : does (commit_is_admissible env) w (λ b w', b = true → committed w w').
Proof.
  unfold commit_is_admissible. eapply does_bind; [apply (does_read _ _ (λ b w', b = has_session_state (ctx w'))); done|].
  intros has w1 Hev1 Hhas. eapply does_bind with (Q := λ b w2, b = true → ∃ wc, evolves w wc ∧ evolves wc w2 ∧
    (request_closed (ctx w2) = false → at_admitted_revision (ctx wc))).
  { destruct has.
    - apply does_read. intros w2 Hr2 Hb. apply bool_decide_eq_true in Hb. exists w2. split_and!;
        [etrans; [exact Hev1|by apply rtc_once]|done|]. intros _. by apply admitted_complete.
    - apply does_ret. intros _. exists w1. split_and!; [done..|]. by apply admitted_stateless. }
  intros cur w2 Hev2 Hcur. destruct cur; [|by apply does_ret]. cbn [negb]. destruct (Hcur eq_refl) as (wc & Hwc & Hwc2 & Hst).
  apply does_read. intros w3 Hr3 Hopen%ensure_live_open.
  split; [done|]. exists wc. split_and!; [done|eapply rtc_r; done|]. apply Hst.
  destruct (evolves_facts w2 w3) as (_ & _ & Hcl & _); [by apply rtc_once|]. by apply Hcl.
Qed.

(** ** The shared state *)

Lemma shared_ok_sub s s' :
  shared_ok s → discovery_generation s' = discovery_generation s → (∃ l, rep (cache s') l) →
  (∀ k e, entries (cache s') !! k = Some e → entries (cache s) !! k = Some e) → shared_ok s'.
Proof.
  intros [Hr Hl Hc Hg] Hgen Hrep Hsub. split; rewrite ?Hgen; try done; intros k e Hk; eauto.
Qed.

Lemma shared_ok_remove k s : shared_ok s → shared_ok (set_cache (remove_key k (cache s)) s).
Proof.
  intros Hok. destruct (ok_rep _ Hok) as [l Hr]. pose proof (rep_remove _ _ k Hr) as Hr'.
  eapply shared_ok_sub; [done|done|by eexists|]. intros k' e'. eapply (rep_sub _ _ _ _ Hr Hr').
  intros kv Hkv. by apply list_elem_of_filter in Hkv as [_ Hkv].
Qed.

Lemma shared_ok_get now k s : shared_ok s → shared_ok (set_cache (get_encoded now k (cache s)).2 s).
Proof.
  intros Hok. destruct (ok_rep _ Hok) as [l Hr]. destruct (rep_get now _ _ k Hr) as [_ Hr'].
  eapply shared_ok_sub; [done|done|by eexists|]. intros k' e'. eapply (rep_sub _ _ _ _ Hr Hr').
  intros kv Hkv. unfold spec_get in Hkv. destruct (find_item k l) as [e|] eqn:Ef; [|done].
  destruct (is_expired now e); simpl in Hkv.
  - by apply list_elem_of_filter in Hkv as [_ Hkv].
  - apply elem_of_app in Hkv as [Hkv|Hkv]; [by apply list_elem_of_filter in Hkv as [_ Hkv]|].
    apply list_elem_of_singleton in Hkv as ->. by apply find_item_elem.
Qed.

Lemma shared_ok_insert now k enc ttl s :
  shared_ok s → cache_entry_binding_is_current (binding k) (discovery_generation s) = true →
  (∀ e, encoded e = enc → legit k e) → shared_ok (set_cache (insert_encoded max_instant now k enc ttl (cache s)) s).
Proof.
  intros Hok Hcur Hleg. destruct (ok_rep _ Hok) as [l Hr]. unfold insert_encoded.
  assert (Hsame : shared_ok (set_cache (cache s) s)) by (by destruct s). case_goal_if; [done|].
  destruct (CacheEntry_new_encoded max_instant now enc ttl) as [e|] eqn:Ee; [|done].
  assert (encoded e = enc ∧ entry_ok e) as [Henc He].
  { unfold CacheEntry_new_encoded in Ee. case_if_in Ee; [done|]. case_if_in Ee; [done|].
    destruct (checked_add _ _) as [n|] eqn:En; [|done]. injection Ee as <-. apply checked_add_Some in En as [-> _]. done. }
  pose proof (rep_insert now _ _ k e Hr He) as Hr'. destruct Hok as [_ Hl Hc Hg]. split; simpl; [by eexists| | |done].
  - intros k' e' Hk. destruct (insert_sub now _ _ k e k' e' Hr He Hk) as [[-> ->]|Hold]; [by apply Hleg|by eapply Hl].
  - intros k' e' Hk. destruct (insert_sub now _ _ k e k' e' Hr He Hk) as [[-> ->]|Hold]; [done|by eapply Hc].
Qed.

Lemma shared_ok_stats st s : shared_ok s → shared_ok (set_stats st s).
Proof. by intros [? ? ? ?]. Qed.

Lemma partitioned_binding m ps p b k :
  try_new_partitioned writes reserve sha256 m ps p b = Some k → binding k = b.
Proof.
  unfold try_new_partitioned. intros Ek. destruct (try_request_digest _ _ _ _ _); [|done]. simpl in Ek.
  destruct (try_invalidation_digest _ _ _ _ _); [|done]. simpl in Ek. by injection Ek as <-.
Qed.

(** ** Requests *)

(** The value was answered to the same request for the same session, revision and
    identity, unless SHA-256 has a collision. *)
Definition same_source (request : Request) (s : option (list Z * Z)) (a : option AuthContext) (b : CacheEntryBinding)
    (v : Value) : Prop :=
  ∃ request' s' a' v', answered request' s' a' b v' ∧
    from_slice (text writes (hints (method request') v')) = Some v ∧
    (collision sha256 ∨
     as_bytes (method request) = as_bytes (method request') ∧ params_text writes (params request) = params_text writes (params request') ∧
     s = s' ∧ auth_identity writes a = auth_identity writes a').

(** What a hit means: the context still has the session and identity of the
    answer, was open with its session at the admitted revision after the lookup,
    and the discovery generation had not moved on. *)
Definition served (request : Request) (w w' : World) (v : Value) : Prop :=
  ∃ s a b, auth_is (ctx w') a ∧ session_is (ctx w') s ∧ same_source request s a b v ∧
    (∃ w1 w2, evolves w w1 ∧ evolves w1 w2 ∧ evolves w2 w' ∧
      cache_entry_binding request (discovery_generation (shared w1)) = Some b ∧
      cache_entry_binding_is_current b (discovery_generation (shared w2)) = true) ∧
    ∃ wl, evolves w wl ∧ evolves wl w' ∧ committed w wl.

Lemma lookup_does k w :
  shared_ok (shared w) → does (lookup env k) w (λ r _, ∀ enc, r = Some enc → ∃ e, legit k e ∧ encoded e = enc).
Proof.
  intros Hok. apply does_step. intros w1 Hr. eexists _, _. split; [done|].
  pose proof (rely_shared _ _ Hr Hok) as Hok1. split; [by apply rely_same; [..|intros _; by apply shared_ok_get]|].
  intros enc Henc. unfold get_encoded in Henc. destruct (entries (cache (shared w1)) !! k) as [e|] eqn:Ee; [|done].
  case_if_in Henc; [done|]. injection Henc as <-. exists e. split; [by eapply ok_legit|done].
Qed.

Lemma mark_hit_does w : does (mark_hit reserve config env) w (λ _ _, True).
Proof.
  apply does_step. intros w1 _. eexists _, _. split; [done|]. split; [|done].
  unfold mark_response_cache_hit. case_goal_if; [by apply rely_same|]. case_goal_if; [by apply rely_same|].
  case_goal_if; [by apply rely_same|]. split; simpl; try done.
  - intros [Hs Ha Hp]. by split.
  - destruct (state (ctx w1)); [|done]. apply Session.follows_refl.
Qed.

Lemma miss_does w (Q : MiddlewareDecision Value → World → Prop) :
  (∀ w', Q Continue w') → does (on_shared env record_miss ;! ret Continue) w Q.
Proof.
  intros HQ. eapply does_bind; [apply (does_shared _ _ (λ _ _, True)); [intros s; apply shared_ok_stats|done]|].
  intros [] w' _ _. by apply does_ret.
Qed.

Lemma on_request_does request w :
  shared_ok (shared w) → ctx_ok (ctx w) → method_fits (method request) →
  does (on_request writes from_slice reserve sha256 config env request) w
    (λ d w', ∀ v, d = Respond v → served request w w' v).
Proof.
  intros Hok Hctx Hm. unfold on_request. case_goal_if; [by apply does_ret|]. case_goal_if; [by apply does_ret|].
  case_goal_if; [by apply does_ret|].
  eapply does_bind; [apply (does_read _ _ (λ g w1, g = discovery_generation (shared w1))); done|]. intros g w1 Hev1 ->.
  destruct (cache_entry_binding request _) as [b|] eqn:Eb; [|by apply does_ret].
  eapply does_bind; [apply context_cache_partition_does|]. intros part w2 Hev2 Hd.
  destruct (part ≫= _) as [k|] eqn:Ek; [|by apply does_ret]. destruct part as [d|]; [|done]. simpl in Ek.
  destruct Hd as (s & a & Hpd & Hauth & Hsess).
  assert (Hkey : key (method request) (params request) s a b = Some k) by (unfold key_of; by rewrite Hpd).
  assert (Hkb : binding k = b) by (by eapply partitioned_binding).
  assert (Hev02 : evolves w w2) by (by etrans). destruct (evolves_facts _ _ Hev02) as (Hsh & _).
  eapply does_bind; [apply lookup_does; by apply Hsh|]. intros found w3 Hev3 Hfound.
  destruct found as [enc|]; [|by apply miss_does]. destruct (Hfound enc eq_refl) as (e & Hleg & Henc).
  destruct (from_slice enc) as [value|] eqn:Edec.
  2:{ eapply does_bind; [apply (does_shared _ _ (λ _ _, True)); [intros s0; apply shared_ok_remove|done]|].
      intros [] w4 _ _. by apply miss_does. }
  eapply does_bind; [apply (does_read _ _ (λ c w4, c = cache_entry_binding_is_current b (discovery_generation (shared w4)))); done|].
  intros cur w4 Hev4 Hcur. destruct cur; cbn [negb]; [|by apply miss_does].
  eapply does_bind; [apply commit_does|]. intros adm w5 Hev5 Hadm. destruct adm; cbn [negb]; [|by apply does_ret].
  specialize (Hadm eq_refl). eapply does_bind; [apply mark_hit_does|]. intros marked w6 Hev6 _.
  destruct marked; cbn [negb]; [|by apply miss_does].
  eapply does_bind; [apply (does_shared _ _ (λ _ _, True)); [intros s0; apply shared_ok_stats|done]|].
  intros [] w7 Hev7 _. apply does_ret. intros v [= <-].
  assert (Hev25 : evolves w2 w5) by (etrans; [exact Hev3|]; by etrans). assert (Hev57 : evolves w5 w7) by (by etrans).
  destruct (evolves_facts _ _ Hev25) as (_ & Hctx25 & Hcl25 & Ha25 & Hs25).
  destruct (evolves_facts _ _ Hev57) as (_ & Hctx57 & _ & Ha57 & Hs57).
  destruct (evolves_facts _ _ Hev02) as (_ & Hctx02 & _).
  assert (Hs7 : session_is (ctx w7) s) by (apply Hs57, Hs25, Hsess, Hcl25, Hadm).
  assert (Ha7 : auth_is (ctx w7) a) by (by apply Ha57, Ha25).
  assert (Hc7 : ctx_ok (ctx w7)) by (by apply Hctx57, Hctx25, Hctx02).
  assert (Hsok : session_ok s).
  { unfold session_is in Hs7. destruct (state (ctx w7)) as [st|]; [|by rewrite Hs7]. destruct (Session.ephemeral st); [by rewrite Hs7|].
    destruct Hs7 as [<- _]. apply Hc7. }
  assert (Haok : auth_ok a).
  { destruct Ha7 as [[_ ->]|(_ & -> & _)]; [done|apply Hc7]. }
  exists s, a, b. split_and!; [done|done| | |].
  - destruct Hleg as (rq' & s' & a' & v' & Hans & Hm' & Hs' & Ha' & Hkey' & Htext). rewrite Hkb in *.
    exists rq', s', a', v'. split_and!; [done|by rewrite <- Htext, Henc|].
    by destruct (key_of_inj _ _ _ _ _ _ _ _ _ _ _ _ _ k Hm Hm' Hsok Hs' Haok Ha' Hkey Hkey') as [_ Hsame].
  - exists w1, w4. split_and!; [done|etrans; [exact Hev2|]; by apply (transitivity Hev3)|by apply (transitivity Hev5)|done|done].
  - exists w5. split_and!; [by etrans|done|]. destruct Hadm as [Hopen (wc & Hwc & Hwc5 & Hst)]. split; [done|].
    exists wc. split_and!; [|done|done]. etrans; [exact Hev02|]. etrans; [exact Hev3|]. by apply (transitivity Hev4).
Qed.

(** ** Responses *)

Lemma store_does b k enc ttl w :
  binding k = b →
  (∀ w', evolves w w' → request_closed (ctx w') = false → ∀ e, encoded e = enc → legit k e) →
  does (store max_instant env b k enc ttl) w (λ _ _, True).
Proof.
  intros Hb Hleg. unfold store. eapply does_bind; [apply commit_does|]. intros adm w1 Hev1 Hadm.
  destruct adm; cbn [negb]; [|by apply does_ret]. destruct (Hadm eq_refl) as [Hopen _].
  apply does_step. intros w2 Hr2. eexists tt, _. split; [done|]. split; [|done].
  case_goal_if; [|by apply rely_same]. apply rely_same; [done..|]. intros Hok. apply shared_ok_insert; [done|by rewrite Hb|].
  by apply (Hleg w1).
Qed.

(** The response answers the request in any session and identity the context can
    turn out to have. *)
Definition answers (request : Request) (response : Value) (w : World) : Prop :=
  ∀ w0 w1 s a b, evolves w w0 → evolves w0 w1 → auth_is (ctx w1) a → session_is (ctx w1) s →
  cache_entry_binding request (discovery_generation (shared w0)) = Some b → answered request s a b response.

Lemma on_response_does request response w :
  shared_ok (shared w) → ctx_ok (ctx w) → method_fits (method request) → answers request response w →
  does (on_response writes reserve sha256 max_instant config env request response) w
    (λ r _, r = if instance_id config =? 0 then response else hints (method request) response).
Proof.
  intros Hok Hctx Hm Hans. unfold on_response. case_goal_if; [by apply does_ret|].
  set (response' := hints (method request) response). destruct (discovery_policy _ response') as [disc|]; [|by apply does_ret].
  destruct (complete_policy _ response') as [comp|]; [|by apply does_ret]. case_goal_if; [by apply does_ret|].
  case_goal_if; [by apply does_ret|].
  eapply does_bind; [by apply (does_read _ _ (λ _ _, True))|]. intros hit w1 Hev1 _. destruct hit; [by apply does_ret|].
  eapply does_bind; [apply (does_read _ _ (λ g w2, g = discovery_generation (shared w2))); done|]. intros g w2 Hev2 ->.
  destruct (cache_entry_binding request _) as [b|] eqn:Eb; [|by apply does_ret].
  eapply does_bind; [apply context_cache_partition_does|]. intros part w3 Hev3 Hd.
  destruct (part ≫= _) as [k|] eqn:Ek; [|by apply does_ret]. destruct part as [d|]; [|done]. simpl in Ek.
  destruct Hd as (s & a & Hpd & Hauth & Hsess).
  assert (Hkb : binding k = b) by (by eapply partitioned_binding).
  assert (Hkey : key (method request) (params request) s a b = Some k) by (unfold key_of; by rewrite Hpd).
  destruct (chosen_ttl _ _ _ _) as [ttl|]; [|by apply does_ret].
  eapply does_bind; [by apply (does_read _ _ (λ _ _, True))|]. intros limit w4 Hev4 _.
  destruct (encode_json_bounded writes reserve response' limit) as [enc|] eqn:Eenc; [|by apply does_ret].
  eapply does_bind; [apply store_does; [done|]|intros [] w5 _ _; by apply does_ret].
  intros w5 Hev5 Hopen e He. assert (Hev35 : evolves w3 w5) by (by apply (transitivity Hev4)).
  assert (Hev05 : evolves w w5).
  { etrans; [exact Hev1|]. etrans; [exact Hev2|]. by apply (transitivity Hev3). }
  destruct (evolves_facts _ _ Hev35) as (_ & _ & Hcl & Ha35 & Hs35).
  assert (Hs5 : session_is (ctx w5) s) by (apply Hs35, Hsess, Hcl, Hopen).
  assert (Ha5 : auth_is (ctx w5) a) by (by apply Ha35).
  assert (Hc5 : ctx_ok (ctx w5)) by (by apply (evolves_facts _ _ Hev05)).
  exists request, s, a, response. rewrite Hkb. split_and!.
  - apply (Hans w2 w5 s a b); [by apply (transitivity Hev1)|by apply (transitivity Hev3)|done..].
  - done.
  - unfold session_is in Hs5. destruct (state (ctx w5)) as [st|]; [|by rewrite Hs5].
    destruct (Session.ephemeral st); [by rewrite Hs5|]. destruct Hs5 as [<- _]. apply Hc5.
  - destruct Ha5 as [[_ ->]|(_ & -> & _)]; [done|apply Hc5].
  - done.
  - rewrite He. unfold encode_json_bounded in Eenc. case_if_in Eenc; [done|].
    apply fmap_Some in Eenc as (bb & Hbb & ->). by apply write_each_bytes in Hbb as [-> _].
Qed.

(** ** What a response changes *)

(** The world after [n] turns of the others, the handler changing nothing. *)
Definition after (n : nat) (w : World) : World := Nat.iter n (λ w, (others env w).2) w.

Lemma after_add n m w : after m (after n w) = after (m + n) w.
Proof. unfold after. by rewrite Nat.iter_add. Qed.

Lemma after_rely n w : rely (after n w) (after (S n) w).
Proof. destruct (Henv (turn (after n w)) (after n w)). split; simpl; done. Qed.

Definition insertion (k : CacheKey) (enc : list Z) (ttl : Z) (w : World) : World :=
  set_shared (set_cache (insert_encoded max_instant (clock w) k enc ttl (cache (shared w))) (shared w)) w.

(** The handler changed nothing, or it inserted one entry.  Then the session was at
    the revision the request was admitted with, at the next turn the request was
    live, and at the turn after that, the one of the insertion, the binding of the
    entry was current. *)
Definition stored (w w' : World) : Prop :=
  (∃ n, w' = after n w) ∨
  ∃ i k enc ttl, w' = insertion k enc ttl (after (2 + i) w) ∧ at_admitted_revision (ctx (after i w)) ∧
    ensure_live (ctx (after (1 + i) w)) = true ∧
    cache_entry_binding_is_current (binding k) (discovery_generation (shared (after (2 + i) w))) = true.

Lemma stored_later n w w' : stored (after n w) w' → stored w w'.
Proof.
  intros [[m ->]|(i & k & enc & ttl & -> & Hc)]; [left; exists (m + n)%nat; apply after_add|]. right.
  exists (i + n)%nat, k, enc, ttl. rewrite !after_add in *. by rewrite <- !Nat.add_assoc in *.
Qed.

(** Reading changes nothing. *)
Definition quiet {A} (m : H A) : Prop := ∀ w, ∃ a n, m w = (Ok a, after n w).

Lemma quiet_ret {A} (a : A) : quiet (ret a).
Proof. intros w. by exists a, 0%nat. Qed.

Lemma quiet_read {A} (f : World → A) : quiet (read env f).
Proof. intros w. by exists (f (after 1 w)), 1%nat. Qed.

Lemma quiet_bind {A B} (m : H A) (k : A → H B) : quiet m → (∀ a, quiet (k a)) → quiet (bind m k).
Proof.
  intros Hm Hk w. destruct (Hm w) as (a & n & Ha). destruct (Hk a (after n w)) as (b & n' & Hb).
  exists b, (n' + n)%nat. by rewrite (bind_ok _ _ _ _ _ Ha), Hb, after_add.
Qed.

Lemma quiet_partition : quiet (context_cache_partition writes reserve sha256 env PhaseResponse).
Proof.
  unfold context_cache_partition, session_partition.
  repeat first [apply quiet_bind; [apply quiet_read|intros ?]|apply quiet_ret|case_match].
Qed.

(** [m] reads, and then inserts at most once. *)
Definition stores {A} (m : H A) : Prop := ∀ w, ∃ a w', m w = (Ok a, w') ∧ stored w w'.

Lemma stores_quiet {A} (m : H A) : quiet m → stores m.
Proof. intros Hm w. destruct (Hm w) as (a & n & Ha). exists a, (after n w). split; [done|]. left. by exists n. Qed.

Lemma stores_bind {A B} (m : H A) (k : A → H B) : quiet m → (∀ a, stores (k a)) → stores (bind m k).
Proof.
  intros Hm Hk w. destruct (Hm w) as (a & n & Ha). destruct (Hk a (after n w)) as (b & w' & Hb & Hw').
  exists b, w'. rewrite (bind_ok _ _ _ _ _ Ha). split; [done|by eapply stored_later].
Qed.

Lemma stores_then {A B} (m : H A) (b : B) : stores m → stores (m ;! ret b).
Proof. intros Hm w. destruct (Hm w) as (a & w' & Ha & Hw'). exists b, w'. by rewrite (bind_ok _ _ _ _ _ Ha). Qed.

(** The last checks, turn by turn. *)
Lemma commit_turns w :
  ∃ ok n, commit_is_admissible env w = (Ok ok, after n w) ∧
    (ok = true → ∃ i, n = S i ∧ at_admitted_revision (ctx (after i w)) ∧ ensure_live (ctx (after (S i) w)) = true).
Proof.
  unfold commit_is_admissible. set (w1 := after 1 w). rewrite (bind_ok _ _ w (has_session_state (ctx w1)) w1) by done.
  destruct (has_session_state (ctx w1)) eqn:Ehas.
  - set (w2 := after 2 w). set (cur := bool_decide (is_Some (complete_session_cache_partition (ctx w2)))).
    rewrite (bind_ok _ _ w1 cur w2) by done. destruct cur eqn:Ecur; [|by exists false, 2%nat].
    exists (ensure_live (ctx (after 3 w))), 3%nat. split; [done|]. intros Hlive. exists 2%nat. split_and!; [done| |done].
    apply admitted_complete. by apply bool_decide_eq_true in Ecur.
  - rewrite (bind_ok _ _ w1 true w1) by done. exists (ensure_live (ctx (after 2 w))), 2%nat. split; [done|].
    intros Hlive. exists 1%nat. split_and!; [done| |done]. apply admitted_stateless; [done|].
    destruct (evolves_facts (after 1 w) (after 2 w)) as (_ & _ & Hcl & _); [apply rtc_once, after_rely|].
    by apply Hcl, ensure_live_open.
Qed.

Lemma store_stores b k enc ttl : binding k = b → stores (store max_instant env b k enc ttl).
Proof.
  intros Hb w. unfold store. destruct (commit_turns w) as (ok & n & Hrun & Hok). rewrite (bind_ok _ _ _ _ _ Hrun).
  destruct ok; [|exists tt, (after n w); split; [done|left; by exists n]]. destruct (Hok eq_refl) as (i & -> & Hadm & Hlive).
  set (v := after (2 + i) w). exists tt, (if cache_entry_binding_is_current b (discovery_generation (shared v))
    then insertion k enc ttl v else v). split; [done|].
  destruct (cache_entry_binding_is_current b _) eqn:Ecur; [|left; by exists (2 + i)%nat].
  right. exists i, k, enc, ttl. by rewrite Hb.
Qed.

Lemma on_response_stores request response :
  stores (on_response writes reserve sha256 max_instant config env request response).
Proof.
  assert (Hret : ∀ v : Value, stores (ret v)) by (intros v; apply stores_quiet, quiet_ret).
  unfold on_response. case_goal_if; [done|]. destruct (discovery_policy _ _) as [disc|]; [|done].
  destruct (complete_policy _ _) as [comp|]; [|done]. case_goal_if; [done|]. case_goal_if; [done|].
  apply stores_bind; [apply quiet_read|]. intros [|]; [done|]. apply stores_bind; [apply quiet_read|]. intros g.
  destruct (cache_entry_binding request g) as [b|]; [|done]. apply stores_bind; [apply quiet_partition|]. intros part.
  destruct (part ≫= _) as [k|] eqn:Ek; [|done]. destruct part as [d|]; [|done]. simpl in Ek.
  destruct (chosen_ttl _ _ _ _) as [ttl|]; [|done]. apply stores_bind; [apply quiet_read|]. intros limit.
  destruct (encode_json_bounded _ _ _ _) as [enc|]; [|done]. apply stores_then, store_stores.
  by eapply partitioned_binding.
Qed.

(** ** The other operations *)

Lemma shared_ok_fresh g c st l :
  rep c l → l = [] → 0 <= g <= u64_max → shared_ok {| discovery_generation := g; cache := c; stats := st |}.
Proof.
  intros Hr -> Hg. assert (Hno : ∀ k, entries c !! k = None) by (intros k; by rewrite (rep_lookup _ _ k Hr)).
  split; simpl; [by eexists|intros k e; by rewrite Hno..|done].
Qed.

Lemma advance_facts s :
  0 <= discovery_generation s <= u64_max →
  cache (advance_discovery_generation s) = cache s ∧ 0 <= discovery_generation (advance_discovery_generation s) <= u64_max ∧
  (discovery_generation s ≠ 0 → discovery_generation (advance_discovery_generation s) ≠ discovery_generation s).
Proof.
  intros Hg. unfold advance_discovery_generation. destruct (_ && _) eqn:E; simpl; [|split_and!; [done|unfold u64_max; lia..|lia]].
  apply andb_true_iff in E as [_ E]. zbool. split_and!; [done|lia..].
Qed.

Lemma shared_ok_clear s : shared_ok s → shared_ok (middleware_clear s).
Proof.
  intros Hok. destruct (ok_rep _ Hok) as [l Hr]. destruct (advance_facts s (ok_generation _ Hok)) as (Hc & Hg & _).
  unfold middleware_clear. eapply shared_ok_fresh; [rewrite Hc; by eapply rep_clear|done|done].
Qed.

Lemma shared_ok_invalidate_discovery s : shared_ok s → shared_ok (invalidate_discovery s).
Proof.
  intros Hok. destruct (ok_rep _ Hok) as [l Hr]. destruct (advance_facts s (ok_generation _ Hok)) as (Hc & Hg & _).
  pose proof (rep_discovery _ _ Hr) as Hr'. unfold invalidate_discovery. set (s1 := advance_discovery_generation s) in *.
  assert (Hsub : ∀ k e, entries (remove_discovery_entries (cache s)) !! k = Some e →
    entries (cache s) !! k = Some e ∧ is_discovery k = false).
  { intros k e Hk. split.
    - eapply (rep_sub _ _ _ _ Hr Hr'); [|done]. intros kv Hkv. by apply list_elem_of_filter in Hkv as [_ Hkv].
    - rewrite (rep_lookup _ _ k Hr') in Hk. apply find_item_elem, list_elem_of_filter in Hk as [Hk _]. done. }
  split; simpl; rewrite ?Hc; [by eexists| | |done].
  - intros k e Hk. apply Hsub in Hk as [Hk _]. by eapply ok_legit.
  - intros k e Hk. apply Hsub in Hk as [_ Hk]. unfold is_discovery in Hk. by destruct (binding k).
Qed.

Lemma shared_ok_invalidate m ps s : shared_ok s → shared_ok (invalidate writes reserve sha256 m ps s).
Proof.
  intros Hok. unfold invalidate. case_goal_if; [by apply shared_ok_invalidate_discovery|].
  destruct (try_invalidation_digest _ _ _ m ps) as [d|]; [|done]. destruct (ok_rep _ Hok) as [l Hr].
  pose proof (rep_invalidate _ _ d Hr) as Hr'. eapply shared_ok_sub; [done|done|by eexists|].
  intros k e. eapply (rep_sub _ _ _ _ Hr Hr'). intros kv Hkv. by apply list_elem_of_filter in Hkv as [_ Hkv].
Qed.
End isolation.

(** * The properties *)

(** C22: the response cache keeps contexts apart, whatever other threads do between
    any two steps of a handler.  A handler always ends well and leaves the cache
    with answers under the keys of their requests.  A request is only answered
    from the cache with what was answered before to a request of the same method
    and parameters, in the same session at the same revision and for the same
    identity (or two texts with one SHA-256 digest exist), while its context is
    open, its session at the revision it was admitted with and the discovery
    generation the one of the answer.  A response is passed on with its cache
    hints normalized, whether it is stored or not; its handler changes nothing
    itself but for at most one insertion, and it inserts only after it has found,
    turn after turn, the session at the revision the request was admitted with (or
    no session), the request live, and, under the lock of the cache, the binding of
    the entry current. *)
Theorem response_cache_isolated writes from_slice reserve sha256 max_instant config answered env request response w :
  (∀ n w, rely writes reserve sha256 config answered w (env n w)) →
  shared_ok writes reserve sha256 config answered (shared w) → ctx_ok (ctx w) → method_fits (method request) →
  wp (on_request writes from_slice reserve sha256 config env request)
    (λ d w', rtc (rely writes reserve sha256 config answered) w w' ∧
             shared_ok writes reserve sha256 config answered (shared w') ∧
             ∀ v, d = Respond v → served writes from_slice reserve sha256 config answered request w w' v)
    (λ _ _, False) w ∧
  (answers writes reserve sha256 config answered request response w →
   wp (on_response writes reserve sha256 max_instant config env request response)
    (λ r w', rtc (rely writes reserve sha256 config answered) w w' ∧
             shared_ok writes reserve sha256 config answered (shared w') ∧
             r = (if instance_id config =? 0 then response else apply_protocol_cache_hints config (method request) response) ∧
             stored max_instant env w w')
    (λ _ _, False) w).
Proof.
  intros Henv Hok Hctx Hm. split; [|intros Hans].
  - eapply wp_mono; [by apply (on_request_does _ _ _ _ _ _ env Henv request w Hok Hctx Hm)| |done].
    intros d w' [Hev Hd]. split_and!; [done| |done]. by apply (evolves_facts _ _ _ _ _ _ _ Hev).
  - pose proof (on_response_does _ _ _ max_instant _ _ env Henv request response w Hok Hctx Hm Hans) as Hdoes.
    destruct (on_response_stores writes reserve sha256 max_instant config answered env Henv request response w)
      as (r & w' & Hrun & Hst). unfold does, wp in *. rewrite Hrun in *. destruct Hdoes as [Hev Hr].
    split_and!; [done| |done..]. by apply (evolves_facts _ _ _ _ _ _ _ Hev).
Qed.

(** The pages of one result set: the parameters agree but for the cursor, and an
    object with nothing else is as good as no parameters. *)
Definition is_cursor (kv : list Z * Value) : Prop := kv.1 = chars_of "cursor".
Inductive same_result_set : option Value → option Value → Prop :=
| same_params ps : same_result_set ps ps
| other_cursor ms ms' :
    filter (λ kv, ¬ is_cursor kv) ms = filter (λ kv, ¬ is_cursor kv) ms' →
    same_result_set (Some (VObject ms)) (Some (VObject ms'))
| only_cursor ms : Forall is_cursor ms → same_result_set None (Some (VObject ms))
| only_cursor' ms : Forall is_cursor ms → same_result_set (Some (VObject ms)) None.

Lemma only_cursor_removed ms : Forall is_cursor ms ↔ remove_member "cursor" ms = [].
Proof.
  unfold remove_member, is_cursor. induction ms as [|kv ms IH]; [split; done|].
  rewrite Forall_cons, IH. destruct (decide (kv.1 = chars_of "cursor")) as [Hk|Hk].
  - rewrite filter_cons_False by naive_solver. naive_solver.
  - rewrite filter_cons_True by done. naive_solver.
Qed.

Lemma same_projection ps ps' :
  same_result_set ps ps' → invalidation_projection ps = invalidation_projection ps'.
Proof.
  intros [q|ms ms' H|ms H%only_cursor_removed|ms H%only_cursor_removed]; simpl; [done| |by rewrite H..].
  change (remove_member "cursor" ms = remove_member "cursor" ms') in H. by rewrite H.
Qed.

Lemma projection_same ps : same_result_set ps (invalidation_projection ps).
Proof.
  destruct ps as [[]|]; simpl; try apply same_params. case_bool_decide as H.
  - by apply only_cursor', only_cursor_removed.
  - apply other_cursor. unfold remove_member, is_cursor. symmetry. rewrite list_filter_filter. apply list_filter_iff. naive_solver.
Qed.

(** An equal invalidation digest means an equal result set, or a collision. *)
Lemma key_of_invalidated writes reserve sha256 m ps m' ps' session a b k :
  method_fits m → method_fits m' → try_invalidation_digest writes reserve sha256 m ps = Some (invalidation_digest k) →
  key_of writes reserve sha256 m' ps' session a b = Some k →
  collision sha256 ∨
  as_bytes m = as_bytes m' ∧ ∃ q q', same_result_set ps q ∧ same_result_set ps' q' ∧ params_text writes q = params_text writes q'.
Proof.
  intros Hm Hm' Hd Hk. unfold key_of in Hk. destruct (partition_digest_of _ _ _ session a) as [p|]; [|done].
  simpl in Hk. unfold try_new_partitioned in Hk. destruct (try_request_digest _ _ _ m' ps') as [r|]; [|done]. simpl in Hk.
  destruct (try_invalidation_digest _ _ _ m' ps') as [i|] eqn:Ei; [|done]. injection Hk as <-. simpl in Hd.
  apply try_digest_text in Hd, Ei. set (q := invalidation_projection ps) in *. set (q' := invalidation_projection ps') in *.
  destruct (decide (request_text writes CACHE_INVALIDATION_KEY_DOMAIN m q = request_text writes CACHE_INVALIDATION_KEY_DOMAIN m' q'))
    as [Heq|Hne]; [right|left; eexists _, _; split; [exact Hne|congruence]].
  apply request_text_inj in Heq as [Hb Ht]; [|done..]. split; [done|]. exists q, q'.
  split_and!; [apply projection_same..|done].
Qed.

(** C24: invalidation reaches every page and every partition: after [invalidate] of
    a method and parameters, no entry is left for a request with the same method
    and the same parameters but for the cursor, whatever its session, identity and
    binding.  Every entry of another request is still there, unless its method is
    the same and its parameters but for the cursor are written the same, or two
    texts have one SHA-256 digest.  After an invalidation of discovery or a clear,
    no discovery entry is left and no binding taken before is current again; the
    cache stays sound. *)
Theorem invalidation_complete writes reserve sha256 config answered m ps s :
  shared_ok writes reserve sha256 config answered s → method_fits m →
  let s' := invalidate writes reserve sha256 m ps s in
  shared_ok writes reserve sha256 config answered s' ∧
  (m ≠ SERVER_DISCOVER_METHOD →
   (∀ ps' session a b k, same_result_set ps' ps →
     key_of writes reserve sha256 m ps' session a b = Some k → entries (cache s') !! k = None) ∧
   (∀ m' ps' session a b k e, method_fits m' → key_of writes reserve sha256 m' ps' session a b = Some k →
     entries (cache s) !! k = Some e → entries (cache s') !! k = Some e ∨ collision sha256 ∨
     as_bytes m = as_bytes m' ∧
     ∃ q q', same_result_set ps q ∧ same_result_set ps' q' ∧ params_text writes q = params_text writes q')) ∧
  (∀ s'', s'' = invalidate_discovery s ∨ s'' = middleware_clear s →
   shared_ok writes reserve sha256 config answered s'' ∧
   (∀ k, is_discovery k = true → entries (cache s'') !! k = None) ∧
   (∀ d, cache_entry_binding_is_current (Discovery d) (discovery_generation s) = true → generation d ≠ 0 →
     cache_entry_binding_is_current (Discovery d) (discovery_generation s'') = false)).
Proof.
  intros Hok Hfits s'. destruct (ok_rep _ _ _ _ _ _ Hok) as [l Hr]. split_and!; [by apply shared_ok_invalidate| |].
  - intros Hm. unfold s', invalidate. rewrite bool_decide_false by done. split.
    + intros ps' session a b k Hps%same_projection Hk. unfold key_of in Hk. destruct (partition_digest_of _ _ _ session a) as [p|]; [|done].
      simpl in Hk. unfold try_new_partitioned in Hk. destruct (try_request_digest _ _ _ m ps') as [r|]; [|done]. simpl in Hk.
      unfold try_invalidation_digest in *. rewrite Hps in Hk. destruct (try_digest _ _ _ _ m _) as [i|]; [|done].
      simpl in Hk. injection Hk as <-. simpl. rewrite (rep_lookup _ _ _ (rep_invalidate _ _ i Hr)). apply find_item_none.
      intros ([k' e] & Heq & [Hne _]%list_elem_of_filter)%list_elem_of_fmap. simpl in *. by subst k'.
    + intros m' ps' session a b k e Hfits' Hkey Hk.
      destruct (try_invalidation_digest _ _ _ m ps) as [d|] eqn:Ed; [|by left].
      destruct (decide ((invalidation_digest k : list Z) = d)) as [Heq|Hne]; [right; subst d; by eapply key_of_invalidated|]. left.
      change (entries (remove_invalidation_digest d (cache s)) !! k = Some e).
      pose proof (rep_invalidate _ _ d Hr) as Hr'. rewrite (rep_entries _ _ Hr').
      apply elem_of_list_to_map; [apply Hr'|]. apply list_elem_of_filter. split; [done|].
      rewrite (rep_lookup _ _ k Hr) in Hk. by apply find_item_elem.
  - intros s'' Hs''. destruct (advance_facts s (ok_generation _ _ _ _ _ _ Hok)) as (Hc & _ & Hg).
    assert (Hcase : shared_ok writes reserve sha256 config answered s'' ∧
      discovery_generation s'' = discovery_generation (advance_discovery_generation s) ∧
      ∀ k, is_discovery k = true → entries (cache s'') !! k = None).
    { destruct Hs'' as [-> | ->].
      - split_and!; [by apply shared_ok_invalidate_discovery|done|]. intros k Hk. unfold invalidate_discovery. simpl. rewrite Hc.
        rewrite (rep_lookup _ _ _ (rep_discovery _ _ Hr)). apply find_item_none.
        intros ([k' e] & Heq & [Hne _]%list_elem_of_filter)%list_elem_of_fmap. simpl in *. subst k'. congruence.
      - split_and!; [by apply shared_ok_clear|done|]. intros k _. done. }
    destruct Hcase as (Hok' & Hgen & Hnone). split_and!; [done..|]. intros d Hcur Hd. rewrite Hgen. simpl in *.
    apply andb_true_iff in Hcur as [-> Hcur]. zbool. simpl. apply Z.eqb_neq. rewrite Hcur in *. intros Heq. by apply Hg.
Qed.
End RIsolation.
