(* ===== verification/ResponseExamples.v ===== *)
(** The response cache and session state on concrete input: runs of the handlers,
    and the properties applied. *)
From stdpp Require Import base list gmap strings relations.
From Stdlib Require Import ZArith Lia.
From S2P Require Import Prelude Utf8 JsonGrammar RawJson RequestId JsonRpc RateLimit HttpHeaders SessionState ResponseCache ResponseMiddleware ResponseCacheFacts ResponseIsolation.

Module RExamples.
Import Headers RCache RMiddleware RCacheFacts RKeys RIsolation.

(** * Session state *)

Definition opaque (n : Z) : list Z := replicate 32 n.
Definition ex_session (n : Z) : Session.SessionState := Session.new (Some (opaque n)).
Definition touched (n : Z) : Session.SessionState :=
  (Session.set_raw (chars_of "fastmcp.disabled_tools") (VArray [VString (chars_of "rm")]) (ex_session n)).2.

Example tool_disabled :
  Session.is_tool_enabled (touched 1) (chars_of "rm") = false ∧ Session.is_tool_enabled (touched 1) (chars_of "ls") = true ∧
  Session.cache_admission_revision (touched 1) = Some (opaque 1, 1).
Proof. by vm_compute. Qed.

Lemma revision_identifies_contents_witness :
  let sys := {| Session.session := ex_session 1; Session.views := [] |} in
  let sys' := {| Session.session := Session.mutate (Session.MRemove (chars_of "absent")) (ex_session 1); Session.views := [] |} in
  (∀ p' r', Session.cache_admission_revision (Session.session sys') = Some (p', r') → p' = opaque 1 ∧ 0 <= r') ∧
  (Session.cache_admission_revision (Session.session sys') = Some (opaque 1, 0) →
   ∀ k, Session.get_raw (Session.session sys') k = Session.get_raw (Session.session sys) k).
Proof.
  intros sys sys'. apply Session.revision_identifies_contents.
  - done.
  - by vm_compute.
  - apply rtc_once, Session.step_session.
  - done.
Defined.

(** * The store *)

Definition ex_key (n : Z) : CacheKey :=
  {| request_digest := [n]; invalidation_digest := [0]; partition_digest := [0]; binding := Ordinary |}.
Definition ex_entry (n : Z) : CacheEntry := {| encoded := [n]; expires_at := 100 + n; size_bytes := 513 |}.
Definition ex_store_1 : LruCache := insert_entry 0 (ex_key 1) (ex_entry 1) (LruCache_new 2 2000 1000).
Definition ex_store : LruCache := insert_entry 0 (ex_key 2) (ex_entry 2) ex_store_1.

(** A lookup makes an entry recent, so the other one is evicted. *)
Example recently_used_stays :
  let c := insert_entry 0 (ex_key 3) (ex_entry 3) (get_encoded 0 (ex_key 1) ex_store).2 in
  order c = [ex_key 1; ex_key 3] ∧ current_size_bytes c = 1026 ∧ (get_encoded 101 (ex_key 1) c).1 = None.
Proof. by vm_compute. Qed.

Lemma rep_new n b i :
  0 <= n <= usize_max → 0 <= b <= usize_max → 0 <= i <= usize_max → rep (LruCache_new n b i) [].
Proof.
  intros. split; simpl; try done; try apply NoDup_nil_2; unfold zlen, total, sum; simpl; lia.
Qed.

Lemma lru_refines_witness :
  let l := [(ex_key 1, ex_entry 1); (ex_key 2, ex_entry 2)] in
  (∀ k, (get_encoded 50 k ex_store).1 = (spec_get 50 k l).1 ∧ rep (get_encoded 50 k ex_store).2 (spec_get 50 k l).2) ∧
  (∀ k e, entry_ok e → rep (insert_entry 50 k e ex_store) (spec_insert ex_store 50 k e l)) ∧
  (∀ k, rep (remove_key k ex_store) (others_than k l)) ∧
  (∀ d, rep (remove_invalidation_digest d ex_store) (filter (λ kv, (invalidation_digest kv.1 : list Z) ≠ d) l)) ∧
  rep (remove_discovery_entries ex_store) (filter (λ kv, is_discovery kv.1 = false) l) ∧
  rep (lru_clear ex_store) [] ∧
  (∀ k, entries ex_store !! k = find_item k l) ∧ Z.of_nat (base.size (entries ex_store)) = zlen l.
Proof.
  intros l. apply (lru_refines ex_store l 50).
  assert (Hl : l = spec_insert ex_store_1 0 (ex_key 2) (ex_entry 2)
    (spec_insert (LruCache_new 2 2000 1000) 0 (ex_key 1) (ex_entry 1) [])) by (by vm_compute).
  rewrite Hl. apply rep_insert; [|done]. apply rep_insert; [|done]. apply rep_new; by vm_compute.
Defined.

(** * The handlers *)

(** Serialization of the values of the example, and its inverse. *)
Fixpoint ex_writes (v : Value) : list (list Z) :=
  match v with
  | VNull => [chars_of "null"]
  | VBool true => [chars_of "true"]
  | VBool false => [chars_of "false"]
  | VNumber t => [t]
  | VString s => [[34]; s; [34]]
  | VArray vs => [chars_of "["] ++ concat ((λ v, ex_writes v ++ [chars_of ","]) <$> vs) ++ [chars_of "]"]
  | VObject ms => [chars_of "{"] ++ concat ((λ kv, [[34]; kv.1; [34]; chars_of ":"] ++ ex_writes kv.2 ++ [chars_of ","]) <$> ms) ++ [chars_of "}"]
  end.

Definition ex_request : Request := JsonRpcRequest_new (chars_of "tools/list") None (Number 1).
Definition ex_response : Value :=
  VObject [(chars_of "resultType", VString (chars_of "complete")); (chars_of "tools", VArray [])].
Definition ex_config : Config := Config_new 7.
Definition ex_hinted : Value := apply_protocol_cache_hints ex_config (chars_of "tools/list") ex_response.
Definition ex_from_slice (bs : list Z) : option Value := if bool_decide (bs = text ex_writes ex_hinted) then Some ex_hinted else None.

Definition ex_ctx (session : Session.SessionState) (a : AuthState) : McpContext :=
  {| request_closed := false; framework_mask_depth := 0; cancel_requested := false; past_deadline := false;
     deferred_overrun := false; auth_state := a; auth := None; state := Some session;
     cache_admission_partition := None; response_cache_hits := [] |}.

(** Nobody else does anything. *)
Definition alone (n : nat) (w : World) : World := w.

Definition ask (w : World) : outcome McpError (MiddlewareDecision Value) * World :=
  on_request ex_writes ex_from_slice Some id ex_config alone ex_request w.
Definition answer (w : World) : outcome McpError Value * World :=
  on_response ex_writes Some id (10 ^ 30) ex_config alone ex_request ex_response w.

Definition ex_world : World :=
  {| shared := Shared_new; ctx := ex_ctx (ex_session 1) Anonymous; clock := 0; turn := 0 |}.
Definition ex_later (session : Session.SessionState) (a : AuthState) (now : Z) : World :=
  let w := (answer (ask ex_world).2).2 in {| shared := shared w; ctx := ex_ctx session a; clock := now; turn := 0 |}.

(** The first request misses and its answer is stored with the hints of the
    server; a later request of the session is served from the cache, but not after
    a mutation of the session, in another session, before authentication is
    settled, or when the five minutes are over. *)
Example hit_and_misses :
  (ask ex_world).1 = Ok Continue ∧ (answer (ask ex_world).2).1 = Ok ex_hinted ∧
  ex_hinted = VObject [(chars_of "cacheScope", VString (chars_of "private")); (chars_of "resultType", VString (chars_of "complete"));
    (chars_of "tools", VArray []); (chars_of "ttlMs", VNumber (chars_of "300000"))] ∧
  (ask (ex_later (ex_session 1) Anonymous 1)).1 = Ok (Respond ex_hinted) ∧
  (ask (ex_later (touched 1) Anonymous 1)).1 = Ok Continue ∧
  (ask (ex_later (ex_session 2) Anonymous 1)).1 = Ok Continue ∧
  (ask (ex_later (ex_session 1) Uncommitted 1)).1 = Ok Continue ∧
  (ask (ex_later (ex_session 1) Anonymous (from_secs 300))).1 = Ok Continue.
Proof. by vm_compute. Qed.

(** ** Among other threads *)

(** What was answered: the example response, to the example request. *)
Definition ex_answered (request : Request) (s : option (list Z * Z)) (a : option AuthContext) (b : CacheEntryBinding) (v : Value) : Prop :=
  request = ex_request ∧ v = ex_response.

(** Another thread clears the cache at every third turn, and time passes. *)
Definition busy (n : nat) (w : World) : World :=
  {| shared := if (n `mod` 3 =? 0)%nat then middleware_clear (shared w) else shared w; ctx := ctx w; clock := clock w + 1; turn := turn w |}.

Abbreviation ex_ok := (shared_ok ex_writes Some id ex_config ex_answered).

Lemma busy_rely n w : rely ex_writes Some id ex_config ex_answered w (busy n w).
Proof.
  split; simpl; try done; try lia.
  - intros Hok. case_goal_if; [by apply shared_ok_clear|done].
  - destruct (state (ctx w)); [|done]. apply Session.follows_refl.
Qed.

Lemma ex_shared_ok : ex_ok Shared_new.
Proof. eapply shared_ok_fresh; [apply rep_new; by vm_compute|done|by vm_compute]. Qed.

Lemma response_cache_isolated_witness :
  let evolves := rtc (rely ex_writes Some id ex_config ex_answered) in
  wp (on_request ex_writes ex_from_slice Some id ex_config busy ex_request)
    (λ d w', evolves ex_world w' ∧ ex_ok (shared w') ∧
             ∀ v, d = Respond v → served ex_writes ex_from_slice Some id ex_config ex_answered ex_request ex_world w' v)
    (λ _ _, False) ex_world ∧
  (answers ex_writes Some id ex_config ex_answered ex_request ex_response ex_world →
   wp (on_response ex_writes Some id (10 ^ 30) ex_config busy ex_request ex_response)
    (λ r w', evolves ex_world w' ∧ ex_ok (shared w') ∧
             r = (if instance_id ex_config =? 0 then ex_response
                  else apply_protocol_cache_hints ex_config (method ex_request) ex_response) ∧
             stored (10 ^ 30) busy ex_world w')
    (λ _ _, False) ex_world) ∧
  answers ex_writes Some id ex_config ex_answered ex_request ex_response ex_world.
Proof.
  intros evolves. apply and_assoc. split; [|by intros w0 w1 s a b _ _ _ _ _].
  apply (response_cache_isolated ex_writes ex_from_slice Some id (10 ^ 30) ex_config ex_answered busy ex_request ex_response ex_world).
  - apply busy_rely.
  - apply ex_shared_ok.
  - split; [|done|done]. split; by vm_compute.
  - by vm_compute.
Defined.

Lemma invalidation_complete_witness :
  let s' := invalidate ex_writes Some id (chars_of "tools/list") None Shared_new in
  ex_ok s' ∧
  (chars_of "tools/list" ≠ SERVER_DISCOVER_METHOD →
   (∀ ps' session a b k, same_result_set ps' None →
     key_of ex_writes Some id (chars_of "tools/list") ps' session a b = Some k → entries (cache s') !! k = None) ∧
   (∀ m' ps' session a b k e, method_fits m' → key_of ex_writes Some id m' ps' session a b = Some k →
     entries (cache Shared_new) !! k = Some e → entries (cache s') !! k = Some e ∨ collision id ∨
     as_bytes (chars_of "tools/list") = as_bytes m' ∧
     ∃ q q', same_result_set None q ∧ same_result_set ps' q' ∧ params_text ex_writes q = params_text ex_writes q')) ∧
  (∀ s'', s'' = invalidate_discovery Shared_new ∨ s'' = middleware_clear Shared_new →
   ex_ok s'' ∧ (∀ k, is_discovery k = true → entries (cache s'') !! k = None) ∧
   (∀ d, cache_entry_binding_is_current (Discovery d) (discovery_generation Shared_new) = true → generation d ≠ 0 →
     cache_entry_binding_is_current (Discovery d) (discovery_generation s'') = false)).
Proof. apply invalidation_complete; [apply ex_shared_ok|by vm_compute]. Defined.
End RExamples.
