(* ===== verification/Duration.v ===== *)
(** Human-readable durations, [crates/fastmcp-core/src/duration.rs].  A string is
    the list of its characters. *)
From stdpp Require Import base list strings.
From Stdlib Require Import ZArith Lia.
From S2P Require Import Prelude Utf8 JsonGrammar JsonLex.

Module Durations.

(** [char::is_whitespace]: the characters with the property [White_Space] *)
Definition is_whitespace (c : Z) : bool :=
  (9 <=? c) && (c <=? 13) || (8192 <=? c) && (c <=? 8202) ||
  bool_decide (c ∈ [32; 133; 160; 5760; 8232; 8233; 8239; 8287; 12288]).
Definition is_ascii_alphabetic (c : Z) : bool := (65 <=? c) && (c <=? 90) || (97 <=? c) && (c <=? 122).

(** [str::trim] *)
Fixpoint trim_start (s : list Z) : list Z :=
  match s with c :: r => if is_whitespace c then trim_start r else s | [] => [] end.
Definition trim (s : list Z) : list Z := rev (trim_start (rev (trim_start s))).

Inductive unit_of_time : Type := Milliseconds | Seconds | Minutes | Hours.

(** The messages of [ParseDurationError]; its input is the trimmed string. *)
Inductive Message : Type :=
| EmptyString
| UnitWithoutNumber (c : Z)
| InvalidNumber (digits : list Z)
| UnknownUnit (c : Z)
| ComponentOverflows (num : Z) (u : unit_of_time)
| CombinedOverflows
| UnexpectedCharacter (c : Z)
| MissingUnit (digits : list Z)
| MustBePositive.
Record ParseDurationError : Type := { input : list Z; message : Message }.

Definition millis_per_unit (u : unit_of_time) : Z :=
  match u with Milliseconds => 1 | Seconds => 1000 | Minutes => 60000 | Hours => 3600000 end.

(** [u64::checked_mul] and [u64::checked_add] *)
Definition checked_mul (a b : Z) : option Z := if a * b <=? u64_max then Some (a * b) else None.
Definition checked_add64 (a b : Z) : option Z := if a + b <=? u64_max then Some (a + b) else None.

(** One component: its unit has been read. *)
Definition add_component (total_millis : Z) (current_num : list Z) (u : unit_of_time) : outcome Message Z :=
  let num := dec_value current_num in
  match checked_mul num (millis_per_unit u) with
  | None => Err (ComponentOverflows num u)
  | Some millis =>
      match checked_add64 total_millis millis with
      | None => Err CombinedOverflows
      | Some total => Ok total
      end
  end.

(** The loop over the characters: the milliseconds in all and the digits left over. *)
Fixpoint parse_loop (chars : list Z) (total_millis : Z) (current_num : list Z) : outcome Message (Z * list Z) :=
  match chars with
  | [] => Ok (total_millis, current_num)
  | c :: r =>
      if is_digit c then parse_loop r total_millis (current_num ++ [c])
      else if is_ascii_alphabetic c then
        if bool_decide (current_num = []) then Err (UnitWithoutNumber c)
        else if u64_max <? dec_value current_num then Err (InvalidNumber current_num)
        else
          match c =? 109, r with
          | true, 115 :: r' => let? total := add_component total_millis current_num Milliseconds in parse_loop r' total []
          | _, _ =>
              if c =? 104 then let? total := add_component total_millis current_num Hours in parse_loop r total []
              else if c =? 109 then let? total := add_component total_millis current_num Minutes in parse_loop r total []
              else if c =? 115 then let? total := add_component total_millis current_num Seconds in parse_loop r total []
              else Err (UnknownUnit c)
          end
      else if is_whitespace c then parse_loop r total_millis current_num
      else Err (UnexpectedCharacter c)
  end.

(** The duration in milliseconds. *)
Definition parse_duration (s : list Z) : outcome ParseDurationError Z :=
  let s := trim s in
  map_err (λ m, {| input := s; message := m |})
    (if bool_decide (s = []) then Err EmptyString
     else
       let? (total_millis, current_num) := parse_loop s 0 [] in
       if negb (bool_decide (current_num = [])) then Err (MissingUnit current_num)
       else if total_millis =? 0 then Err MustBePositive
       else Ok total_millis).

(** * The grammar *)


(** The digits of a component: white space counts nowhere. *)
Definition digits_of (pre : list Z) : list Z := filter (λ c, is_digit c = true) pre.

Abbreviation component := (list Z * unit_of_time)%type.
Definition component_millis (c : component) : Z := dec_value (digits_of c.1) * millis_per_unit c.2.

Definition millis (cs : list component) : Z := sum (component_millis <$> cs).

Abbreviation plain_component := (list Z * list Z * unit_of_time)%type.

(** * Proofs *)

























(** Runs: the formats of the documentation, white space, and what is refused. *)
Example durations_read :
  (parse_duration ∘ chars_of <$> ["500ms"; "1h30m"; " 2m 30s "; "1m5ms"; "1 2s"]%string)
  = [Ok 500; Ok 5400000; Ok 150000; Ok 60005; Ok 12000].
Proof. vm_compute. reflexivity. Qed.

Example durations_refused :
  (parse_duration ∘ chars_of <$> ["  "; "5"; "s"; "0s"; "3d"; "18446744073709551616ms"; "18446744073709551615s"; "-1s"; "5124095576030h1h"]%string)
  = [Err {| input := []; message := EmptyString |}; Err {| input := chars_of "5"; message := MissingUnit (chars_of "5") |};
     Err {| input := chars_of "s"; message := UnitWithoutNumber 115 |}; Err {| input := chars_of "0s"; message := MustBePositive |};
     Err {| input := chars_of "3d"; message := UnknownUnit 100 |};
     Err {| input := chars_of "18446744073709551616ms"; message := InvalidNumber (chars_of "18446744073709551616") |};
     Err {| input := chars_of "18446744073709551615s"; message := ComponentOverflows 18446744073709551615 Seconds |};
     Err {| input := chars_of "-1s"; message := UnexpectedCharacter 45 |};
     Err {| input := chars_of "5124095576030h1h"; message := CombinedOverflows |}].
Proof. vm_compute. reflexivity. Qed.
End Durations.
