(* ===== verification/AbsoluteUri.v ===== *)
(** The text of IPv6 addresses: the parser of the standard library
    ([std::net::Ipv6Addr::from_str]), and that it accepts the addresses of RFC 3986
    and nothing else.

    Absolute URIs, [crates/fastmcp-core/src/uri.rs]: bounded admission of RFC 3986
    URIs with a scheme, byte for byte.

    A string is the list of its bytes.  Slices are taken after the check that the
    input is ASCII, so they fall on character boundaries. *)
From stdpp Require Import base list gmap strings.
From Stdlib Require Import ZArith Lia.
From S2P Require Import Prelude Utf8 JsonGrammar RawJson UriTemplate UriTemplateParse.
Module Ipv6.

(** * The parser *)

(** [char::to_digit] *)
Definition to_digit (radix b : Z) : option Z :=
  match hex_value b with Some v => if v <? radix then Some v else None | None => None end.
Definition is_radix_digit (radix b : Z) : bool := bool_decide (is_Some (to_digit radix b)).
Definition number_value (radix : Z) (ds : list Z) : Z := foldl (λ v d, v * radix + default 0 (to_digit radix d)) 0 ds.

(** [read_number]: a run of digits, at most so many, whose value the type holds. *)
Definition read_number (radix : Z) (max_digits : nat) (allow_zero_prefix : bool) (type_max : Z) (s : list Z)
    : option (list Z) :=
  let ds := take_while (is_radix_digit radix) s in
  if (max_digits <? length ds)%nat then None
  else if bool_decide (ds = []) then None
  else if negb allow_zero_prefix && bool_decide (head ds = Some 48) && (1 <? length ds)%nat then None
  else if type_max <? number_value radix ds then None
  else Some (drop (length ds) s).

(** [read_separator]: a separator in front of every part but the first *)
Definition read_separator (sep : Z) (index : nat) (inner : list Z → option (list Z)) (s : list Z) : option (list Z) :=
  match index, s with
  | O, _ => inner s
  | S _, c :: r => if c =? sep then inner r else None
  | S _, [] => None
  end.

Definition read_octet : list Z → option (list Z) := read_number 10 3 false 255.
Definition read_group : list Z → option (list Z) := read_number 16 4 true 65535.

(** [read_ipv4_addr], from the part of an index on *)
Fixpoint read_octets (todo i : nat) (s : list Z) : option (list Z) :=
  match todo with
  | O => Some s
  | S todo => r ← read_separator 46 i read_octet s; read_octets todo (S i) r
  end.
Definition read_ipv4_addr (s : list Z) : option (list Z) := read_octets 4 0 s.

(** [read_groups], from the group of an index on: how many there are, whether they
    end in an IPv4 address, and what is left. *)
Fixpoint read_groups (todo i limit : nat) (s : list Z) : nat * bool * list Z :=
  match todo with
  | O => (i, false, s)
  | S todo =>
      match (if (i <? limit - 1)%nat then read_separator 58 i read_ipv4_addr s else None) with
      | Some r => ((i + 2)%nat, true, r)
      | None =>
          match read_separator 58 i read_group s with
          | Some r => read_groups todo (S i) limit r
          | None => (i, false, s)
          end
      end
  end.

Definition read_ipv6_addr (s : list Z) : option (list Z) :=
  let '(head_size, head_ipv4, r) := read_groups 8 0 8 s in
  if (head_size =? 8)%nat then Some r
  else if head_ipv4 then None
  else match r with
       | c :: d :: r =>
           if (c =? 58) && (d =? 58) then
             let limit := (8 - (head_size + 1))%nat in
             let '(_, _, r) := read_groups limit 0 limit r in Some r
           else None
       | _ => None
       end.

(** [str::parse::<Ipv6Addr>().is_ok()]: the whole text is read. *)
Definition is_ipv6 (s : list Z) : bool := bool_decide (read_ipv6_addr s = Some []).

(** * The grammar *)

Definition hex_text (t : list Z) : Prop := Forall (λ b, is_radix_digit 16 b = true) t.

(** [dec-octet], [IPv4address] and [h16] *)
Definition octet (t : list Z) : Prop :=
  Forall (λ b, is_radix_digit 10 b = true) t ∧ (1 ≤ length t ≤ 3)%nat ∧ (head t = Some 48 → length t = 1%nat) ∧
  number_value 10 t <= 255.
Definition ipv4 (t : list Z) : Prop :=
  ∃ a b c d, octet a ∧ octet b ∧ octet c ∧ octet d ∧ t = a ++ 46 :: b ++ 46 :: c ++ 46 :: d.
Definition h16 (t : list Z) : Prop := hex_text t ∧ (1 ≤ length t ≤ 4)%nat.

(** Groups of 16 bits with colons between them; the last two may be spelled as an
    IPv4 address. *)
Inductive groups : bool → nat → list Z → Prop :=
| groups_h16 t : h16 t → groups false 1 t
| groups_ipv4 t : ipv4 t → groups true 2 t
| groups_more v n t r : h16 t → groups v n r → groups v (S n) (t ++ 58 :: r).

Inductive some_groups (v : bool) : nat → list Z → Prop :=
| no_groups : some_groups v 0 []
| groups_given n t : groups v n t → some_groups v n t.

(** Eight groups, or at most seven with [::] for what is missing. *)
Inductive ipv6 : list Z → Prop :=
| ipv6_full v t : groups v 8 t → ipv6 t
| ipv6_compressed v m n a b : some_groups false m a → some_groups v n b → (m + n ≤ 7)%nat → ipv6 (a ++ 58 :: 58 :: b).

(** * Numbers *)

Lemma radix_digit_hex radix b : is_radix_digit radix b = true → radix <= 16 → is_radix_digit 16 b = true.
Proof.
  unfold is_radix_digit, to_digit. rewrite !bool_decide_eq_true. intros [v H] Hr. destruct (hex_value b) as [w|]; [|done].
  destruct (w <? radix) eqn:E; [|done]. zbool. exists w. destruct (w <? 16) eqn:E'; [done|lia].
Qed.

Lemma hex_digit_bound b v : to_digit 16 b = Some v → 0 <= v < 16.
Proof.
  unfold to_digit, hex_value. intros H. repeat case_if_in H; try done; zbool; injection H as <-; lia.
Qed.

Lemma hex_number_bound t : hex_text t → 0 <= number_value 16 t < 16 ^ zlen t.
Proof.
  unfold hex_text, number_value. induction t as [|b t IH] using rev_ind; [done|].
  rewrite Forall_app, foldl_app, zlen_app, Z.pow_add_r by (unfold zlen; lia).
  intros [Ht Hb]. inversion_clear Hb as [|? ? Hb' _]. specialize (IH Ht).
  unfold is_radix_digit in Hb'. rewrite bool_decide_eq_true in Hb'. destruct Hb' as [v Hv]. simpl. rewrite Hv. simpl.
  apply hex_digit_bound in Hv. change (zlen [b]) with 1. lia.
Qed.

Lemma read_number_sound radix k z m s r :
  read_number radix k z m s = Some r →
  ∃ t, s = t ++ r ∧ Forall (λ b, is_radix_digit radix b = true) t ∧ (1 ≤ length t ≤ k)%nat ∧
    (z = false → head t = Some 48 → length t = 1%nat) ∧ number_value radix t <= m.
Proof.
  unfold read_number. set (t := take_while _ s). intros H. destruct (k <? length t)%nat eqn:E1; [done|].
  case_bool_decide as E2; [done|]. destruct (_ && _ && _) eqn:E3; [done|]. destruct (m <? _) eqn:E4; [done|].
  injection H as <-. exists t. split_and!; [apply take_while_split|apply take_while_Forall| |by apply Nat.ltb_ge| |by apply Z.ltb_ge].
  - destruct t; [done|]. simpl. lia.
  - intros -> Hh. rewrite bool_decide_true in E3 by done. simpl in E3. apply Nat.ltb_ge in E3.
    clearbody t. destruct t; [done|]. simpl in *. lia.
Qed.

Lemma read_number_complete radix k z m t r :
  Forall (λ b, is_radix_digit radix b = true) t → (1 ≤ length t ≤ k)%nat → (z = false → head t = Some 48 → length t = 1%nat) →
  number_value radix t <= m → head_not (is_radix_digit radix) r → read_number radix k z m (t ++ r) = Some r.
Proof.
  intros Ht Hl Hz Hm Hr. unfold read_number. rewrite (take_while_app _ _ _ Ht Hr), drop_app_length.
  destruct (_ <? _)%nat eqn:E1; [apply Nat.ltb_lt in E1; lia|]. rewrite bool_decide_false by (intros ->; simpl in Hl; lia).
  destruct (_ && _ && _) eqn:E3.
  { apply andb_true_iff in E3 as [E3 E4]. apply andb_true_iff in E3 as [E2 E3]. apply negb_true_iff in E2.
    apply bool_decide_eq_true in E3. specialize (Hz E2 E3). apply Nat.ltb_lt in E4. lia. }
  destruct (m <? _) eqn:E4; [lia|done].
Qed.

Lemma read_number_fails radix k z m r : head_not (is_radix_digit radix) r → read_number radix k z m r = None.
Proof.
  intros Hr. unfold read_number. pose proof (take_while_app _ [] r (Forall_nil_2 _) Hr) as Ht. simpl in Ht. by rewrite Ht.
Qed.

(** * IPv4 addresses *)

Lemma read_octet_iff s r : read_octet s = Some r → ∃ t, s = t ++ r ∧ octet t.
Proof. intros (t & -> & ? & ? & ? & ?)%read_number_sound. exists t. split; [done|]. split_and!; auto; lia. Qed.

Lemma read_octet_complete t r : octet t → head_not (is_radix_digit 10) r → read_octet (t ++ r) = Some r.
Proof. intros (? & ? & ? & ?) Hr. by apply read_number_complete. Qed.

Lemma read_ipv4_sound s r : read_ipv4_addr s = Some r → ∃ t, s = t ++ r ∧ ipv4 t.
Proof.
  unfold read_ipv4_addr. simpl. intros H.
  destruct (read_octet s) as [r1|] eqn:E1; [|done]. simpl in H. apply read_octet_iff in E1 as (a & -> & Ha).
  destruct r1 as [|c1 r1]; [done|]. destruct (Z.eqb_spec c1 46) as [->|]; [|done].
  destruct (read_octet r1) as [r2|] eqn:E2; [|done]. simpl in H. apply read_octet_iff in E2 as (b & -> & Hb).
  destruct r2 as [|c2 r2]; [done|]. destruct (Z.eqb_spec c2 46) as [->|]; [|done].
  destruct (read_octet r2) as [r3|] eqn:E3; [|done]. simpl in H. apply read_octet_iff in E3 as (c & -> & Hc).
  destruct r3 as [|c3 r3]; [done|]. destruct (Z.eqb_spec c3 46) as [->|]; [|done].
  destruct (read_octet r3) as [r4|] eqn:E4; [|done]. simpl in H. apply read_octet_iff in E4 as (d & -> & Hd).
  injection H as ->. exists (a ++ 46 :: b ++ 46 :: c ++ 46 :: d). split; [by rewrite <- !app_assoc; simpl; rewrite <- !app_assoc; simpl; rewrite <- app_assoc|].
  by exists a, b, c, d.
Qed.

Lemma read_ipv4_complete t r : ipv4 t → head_not (is_radix_digit 10) r → read_ipv4_addr (t ++ r) = Some r.
Proof.
  intros (a & b & c & d & Ha & Hb & Hc & Hd & ->) Hr. unfold read_ipv4_addr. simpl.
  rewrite <- app_assoc. simpl. rewrite <- app_assoc. simpl. rewrite <- app_assoc. simpl.
  rewrite (read_octet_complete a) by done. simpl. rewrite (read_octet_complete b) by done. simpl.
  rewrite (read_octet_complete c) by done. simpl. by rewrite (read_octet_complete d).
Qed.

(** What follows a group: nothing or a colon. *)
Definition at_colon (r : list Z) : Prop := match r with [] => True | c :: _ => c = 58 end.

Lemma at_colon_hex r : at_colon r → head_not (is_radix_digit 16) r.
Proof. destruct r; [done|]. by intros ->. Qed.

Lemma ipv4_not_group t r : hex_text t → at_colon r → read_ipv4_addr (t ++ r) = None.
Proof.
  intros Ht Hr. destruct (read_ipv4_addr (t ++ r)) as [r'|] eqn:E; [|done]. exfalso.
  apply read_ipv4_sound in E as (t' & Heq & a & b & c & d & (Ha & _) & _ & _ & _ & ->).
  pose proof (take_while_app _ t r Ht (at_colon_hex _ Hr)) as H1. rewrite Heq, <- app_assoc in H1. simpl in H1.
  rewrite take_while_app in H1; [|eapply Forall_impl; [exact Ha|]; intros x Hx; apply (radix_digit_hex 10); [exact Hx|lia]|done].
  subst a. rewrite <- app_assoc in Heq. apply app_inv_head in Heq as ->. done.
Qed.
(** * Groups *)

Lemma read_group_sound s r : read_group s = Some r → ∃ t, s = t ++ r ∧ h16 t.
Proof. intros (t & -> & ? & ? & _)%read_number_sound. by exists t. Qed.

Lemma read_group_complete t r : h16 t → at_colon r → read_group (t ++ r) = Some r.
Proof.
  intros [Ht Hl] Hr. apply read_number_complete; [done|done|done| |by apply at_colon_hex].
  pose proof (hex_number_bound t Ht) as Hb.
  assert (16 ^ zlen t <= 16 ^ 4) by (apply Z.pow_le_mono_r; unfold zlen; lia). lia.
Qed.

(** The text of groups from an index on *)
Definition sepd (i : nat) (t : list Z) : list Z := match i with O => t | S _ => 58 :: t end.

Lemma read_separator_sound i inner s r :
  read_separator 58 i inner s = Some r → ∃ s', s = sepd i s' ∧ inner s' = Some r.
Proof.
  destruct i; simpl; [by exists s|]. destruct s as [|c s]; [done|]. destruct (Z.eqb_spec c 58) as [->|]; [|done]. by exists s.
Qed.

Lemma read_separator_sepd i inner s : read_separator 58 i inner (sepd i s) = inner s.
Proof. by destruct i. Qed.

Lemma sepd_app i a b : sepd i (a ++ b) = sepd i a ++ b.
Proof. by destruct i. Qed.

Lemma read_groups_sound todo : ∀ i limit s n v r, (i + todo = limit)%nat → read_groups todo i limit s = (n, v, r) →
  n = i ∧ v = false ∧ r = s ∨ ∃ k t, n = (i + k)%nat ∧ (n ≤ limit)%nat ∧ s = sepd i t ++ r ∧ groups v k t.
Proof.
  induction todo as [|todo IH]; intros i limit s n v r Hlim H; simpl in H; [injection H as <- <- <-; by left|].
  destruct (if (i <? limit - 1)%nat then _ else None) as [r4|] eqn:E4.
  { injection H as <- <- <-. right. destruct (i <? limit - 1)%nat eqn:El; [|done]. apply Nat.ltb_lt in El.
    apply read_separator_sound in E4 as (s' & -> & (t & -> & Ht)%read_ipv4_sound). exists 2%nat, t.
    split_and!; [done|lia|by rewrite sepd_app|by constructor]. }
  destruct (read_separator 58 i read_group s) as [r'|] eqn:Eg; [|injection H as <- <- <-; by left].
  apply read_separator_sound in Eg as (s' & -> & (t & -> & Ht)%read_group_sound). right.
  destruct (IH (S i) limit r' n v r ltac:(lia) H) as [(-> & -> & ->)|(k & t' & -> & Hle & -> & Hg)].
  - exists 1%nat, t. split_and!; [lia|lia|by rewrite sepd_app|by constructor].
  - exists (S k), (t ++ 58 :: t'). split_and!; [lia|lia| |by constructor]. rewrite !sepd_app. simpl. by rewrite <- app_assoc.
Qed.

(** Where no group follows. *)
Definition no_group (i : nat) (r : list Z) : Prop :=
  match i, r with _, [] => True | O, c :: _ => c = 58 | S _, c :: r => c = 58 ∧ r ≠ [] ∧ at_colon r end.

Lemma read_groups_stop todo i limit r : no_group i r → read_groups todo i limit r = (i, false, r).
Proof.
  intros Hr. destruct todo as [|todo]; [done|]. simpl.
  assert (Hsep : ∀ inner, (∀ q, at_colon q → inner q = None) → read_separator 58 i inner r = None).
  { intros inner Hin. destruct i, r as [|c r]; simpl in *; [by apply Hin|by apply Hin|done|]. destruct Hr as (-> & _ & Hr).
    simpl. by apply Hin. }
  rewrite (Hsep read_ipv4_addr) by (intros q Hq; apply (ipv4_not_group []); [constructor|done]).
  rewrite (Hsep read_group) by (intros q Hq; by apply read_number_fails, at_colon_hex).
  by destruct (i <? limit - 1)%nat.
Qed.

Lemma no_group_colon i r : no_group (S i) r → at_colon r.
Proof. destruct r; [done|]. by intros [-> _]. Qed.

Lemma read_groups_complete v k t : groups v k t → ∀ todo i limit r,
  (i + todo = limit)%nat → (k ≤ todo)%nat → no_group (S i) r →
  read_groups todo i limit (sepd i t ++ r) = ((i + k)%nat, v, r).
Proof.
  induction 1 as [t Ht|t Ht|v n t t' Ht Hg IH]; intros [|todo] i limit r Hlim Hk Hr; try lia; cbn [read_groups].
  - assert (Hc := no_group_colon _ _ Hr). rewrite <- sepd_app, !read_separator_sepd.
    rewrite ipv4_not_group by (apply Ht || done). rewrite read_group_complete by done.
    assert ((if (i <? limit - 1)%nat then None else None) = @None (list Z)) as -> by by destruct (i <? limit - 1)%nat.
    rewrite read_groups_stop by done. do 2 f_equal. lia.
  - rewrite <- sepd_app, !read_separator_sepd. assert ((i <? limit - 1)%nat = true) as -> by (apply Nat.ltb_lt; lia).
    rewrite read_ipv4_complete; [done..|]. apply no_group_colon, at_colon_hex in Hr. destruct r as [|c r]; [done|].
    simpl in *. destruct (is_radix_digit 10 c) eqn:E; [|done]. apply (radix_digit_hex 10) in E; [congruence|lia].
  - rewrite <- sepd_app, !read_separator_sepd, <- app_assoc. simpl.
    rewrite ipv4_not_group by (apply Ht || done). rewrite read_group_complete by done.
    assert ((if (i <? limit - 1)%nat then None else None) = @None (list Z)) as -> by by destruct (i <? limit - 1)%nat.
    change (58 :: t' ++ r) with (sepd (S i) t' ++ r). rewrite IH; [do 2 f_equal; lia|lia|lia|].
    by destruct r as [|c r].
Qed.

(** * Addresses *)

Lemma groups_pos v k t : groups v k t → (1 ≤ k)%nat.
Proof. destruct 1; lia. Qed.

Lemma is_ipv6_iff s : is_ipv6 s = true ↔ ipv6 s.
Proof.
  unfold is_ipv6, read_ipv6_addr. rewrite bool_decide_eq_true. split.
  - destruct (read_groups 8 0 8 s) as [[n v] r] eqn:E. apply read_groups_sound in E; [|done]. intros H.
    destruct (n =? 8)%nat eqn:En.
    { apply Nat.eqb_eq in En as ->. injection H as ->. destruct E as [(? & _)|(k & t & Hk & _ & -> & Hg)]; [done|].
      simpl in Hk. subst k. rewrite app_nil_r. by apply (ipv6_full v). }
    apply Nat.eqb_neq in En. destruct v; [done|]. destruct r as [|c [|d r]]; [done..|].
    destruct (_ && _) eqn:Ec; [|done]. apply andb_true_iff in Ec as [->%Z.eqb_eq ->%Z.eqb_eq].
    assert (Hhead : ∃ a, s = a ++ 58 :: 58 :: r ∧ some_groups false n a ∧ (n ≤ 8)%nat).
    { destruct E as [(-> & _ & ->)|(k & t & -> & Hle & -> & Hg)]; [exists []; split_and!; [done|constructor|lia]|].
      exists t. split_and!; [done|by constructor|done]. }
    destruct Hhead as (a & -> & Ha & Hn). destruct (read_groups _ 0 _ r) as [[n' v'] r'] eqn:E'. injection H as ->.
    apply read_groups_sound in E'; [|done]. destruct E' as [(_ & _ & <-)|(k & t & -> & Hle & -> & Hg)].
    + apply (ipv6_compressed false n 0); [done|constructor|lia].
    + rewrite app_nil_r. apply (ipv6_compressed v' n k); [done|by constructor|lia].
  - intros [v t Ht|v m n a b Ha Hb Hmn].
    + pose proof (read_groups_complete v 8 t Ht 8 0 8 [] eq_refl (le_n _) I) as H. rewrite app_nil_r in H. cbn [sepd] in H. by rewrite H.
    + assert (Hh : read_groups 8 0 8 (a ++ 58 :: 58 :: b) = (m, false, 58 :: 58 :: b)).
      { destruct Ha as [|m a Ha]; [by apply read_groups_stop|]. by apply (read_groups_complete false m a Ha 8 0 8); [done|lia|]. }
      rewrite Hh. assert ((m =? 8)%nat = false) as -> by (apply Nat.eqb_neq; lia). cbn [andb Z.eqb Pos.eqb].
      assert (Ht : read_groups (8 - (m + 1)) 0 (8 - (m + 1)) b = (n, v, []) ∨ n = 0%nat ∧ b = []).
      { destruct Hb as [|n b Hb]; [by right|left]. rewrite <- (app_nil_r b) at 1. apply (read_groups_complete v n b Hb); [lia|lia|done]. }
      destruct Ht as [->|[-> ->]]; [done|]. by rewrite read_groups_stop.
Qed.
End Ipv6.

Module Uri.

Definition DEFAULT_ABSOLUTE_URI_MAX_BYTES : Z := 16 * 1024.
Definition ABSOLUTE_URI_HARD_MAX_BYTES : Z := 64 * 1024.

Inductive UriComponentState : Type := Absent | EmptyComponent | NonEmpty (value : list Z).

Definition from_optional (component : option (list Z)) : UriComponentState :=
  match component with
  | None => Absent
  | Some [] => EmptyComponent
  | Some value => NonEmpty value
  end.
Definition is_present (c : UriComponentState) : bool := match c with Absent => false | _ => true end.
Definition is_empty (c : UriComponentState) : bool := match c with EmptyComponent => true | _ => false end.

Inductive AbsoluteUriComponent : Type := Scheme | Userinfo | Host | Port | Path | Query | Fragment.

Inductive AuthorityErrorKind : Type :=
| MultipleAtSigns
| MissingIpLiteralBracket
| InvalidIpLiteral
| InvalidIpLiteralSuffix
| UnbracketedColon.

Inductive AbsoluteUriError : Type :=
| LimitExceedsHardCeiling (requested_max_bytes hard_max_bytes : Z)
| TooLong (input_bytes max_bytes : Z)
| Empty
| MissingScheme
| EmptyScheme
| NonAscii (index : nat)
| ControlOrSpace (index : nat) (byte : Z)
| InvalidCharacter (component : AbsoluteUriComponent) (index : nat) (byte : Z)
| InvalidPercentEncoding (index : nat)
| InvalidAuthority (index : nat) (kind : AuthorityErrorKind).

Record AbsoluteUri : Type := {
  original : list Z;
  scheme_end : nat;
  query_delimiter : option nat;
  fragment_delimiter : option nat;
}.

Abbreviation Res := (outcome AbsoluteUriError).
Abbreviation find := Template.position.

(** [&s[a..b]], which panics unless the bounds are in order *)
Definition slice (s : list Z) (a b : nat) : list Z := drop a (take b s).
Definition slice_at (s : list Z) (a b : nat) : Res (list Z) :=
  if (a <=? b)%nat && (b <=? length s)%nat then Ok (slice s a b) else Panic.

(** * Characters *)

Definition is_ascii_alphanumeric (b : Z) : bool := Raw.is_ascii_alphanumeric b.
Definition is_ascii_alphabetic (b : Z) : bool := (65 <=? b) && (b <=? 90) || (97 <=? b) && (b <=? 122).
Definition is_ascii_hexdigit (b : Z) : bool := Template.is_ascii_hexdigit b.
Definition one_of (s : string) (b : Z) : bool := bool_decide (b ∈ chars_of s).

Definition is_sub_delim (b : Z) : bool := one_of "!$&'()*+,;=" b.
Definition is_unreserved (b : Z) : bool := is_ascii_alphanumeric b || one_of "-._~" b.
Definition is_pchar (b : Z) : bool := is_unreserved b || is_sub_delim b || one_of ":@%" b.
Definition is_reg_name_byte (b : Z) : bool := is_unreserved b || is_sub_delim b || (b =? 37).
Definition is_userinfo_byte (b : Z) : bool := is_unreserved b || is_sub_delim b || one_of ":%" b.

(** * Validation *)

Fixpoint validate_component (component : list Z) (offset : nat) (kind : AbsoluteUriComponent) (admitted : Z → bool)
    : Res unit :=
  match component with
  | [] => Ok tt
  | b :: r => if negb (admitted b) then Err (InvalidCharacter kind offset b) else validate_component r (S offset) kind admitted
  end.

(** The bytes of the input, from an index on *)
Fixpoint validate_ascii_wire_bytes (bytes : list Z) (index : nat) : Res unit :=
  match bytes with
  | [] => Ok tt
  | b :: r =>
      if 128 <=? b then Err (NonAscii index)
      else if (b <=? 32) || (b =? 127) then Err (ControlOrSpace index b)
      else validate_ascii_wire_bytes r (S index)
  end.

Definition is_scheme_byte (b : Z) : bool := is_ascii_alphanumeric b || one_of "+-." b.

Definition validate_scheme (input : list Z) (scheme_end : nat) : Res unit :=
  match take scheme_end input with
  | [] => Err EmptyScheme
  | b :: r =>
      if negb (is_ascii_alphabetic b) then Err (InvalidCharacter Scheme 0 b)
      else validate_component r 1 Scheme is_scheme_byte
  end.

(** The bytes of the input, from an index on *)
Fixpoint validate_percent_triplets (bytes : list Z) (index : nat) : Res unit :=
  match bytes with
  | [] => Ok tt
  | b :: r =>
      if negb (b =? 37) then validate_percent_triplets r (S index)
      else match r with
           | high :: low :: r =>
               if negb (is_ascii_hexdigit high) || negb (is_ascii_hexdigit low) then Err (InvalidPercentEncoding index)
               else validate_percent_triplets r (index + 3)
           | _ => Err (InvalidPercentEncoding index)
           end
  end.

Definition is_valid_ipv_future (bytes : list Z) : bool :=
  if (length bytes <? 4)%nat || negb (match bytes with b :: _ => one_of "vV" b | [] => false end) then false
  else match find 46 (drop 1 bytes) with
       | None => false
       | Some dot =>
           let dot := (dot + 1)%nat in
           if (dot =? 1)%nat || (length bytes <=? dot + 1)%nat then false
           else forallb is_ascii_hexdigit (slice bytes 1 dot) &&
                forallb (λ b, is_unreserved b || is_sub_delim b || (b =? 58)) (drop (dot + 1) bytes)
       end.

Definition is_valid_ip_literal (literal : list Z) : bool := Ipv6.is_ipv6 literal || is_valid_ipv_future literal.

(** What follows an IP literal's opening bracket *)
Definition validate_ip_literal (ip_literal : list Z) (host_port_offset : nat) : Res unit :=
  match find 93 ip_literal with
  | None => Err (InvalidAuthority host_port_offset MissingIpLiteralBracket)
  | Some close =>
      if negb (is_valid_ip_literal (take close ip_literal)) then Err (InvalidAuthority (host_port_offset + 1) InvalidIpLiteral)
      else match drop (close + 1) ip_literal with
           | [] => Ok tt
           | c :: port =>
               if negb (c =? 58) then Err (InvalidAuthority (host_port_offset + close + 2) InvalidIpLiteralSuffix)
               else validate_component port (host_port_offset + close + 3) Port is_digit
           end
  end.

Definition validate_host_port (host_port : list Z) (host_port_offset : nat) : Res unit :=
  match Template.split_once 58 host_port with
  | Some (host, port) =>
      match find 58 port with
      | Some second => Err (InvalidAuthority (host_port_offset + length host + 1 + second) UnbracketedColon)
      | None =>
          let? _ := validate_component host host_port_offset Host is_reg_name_byte in
          validate_component port (host_port_offset + length host + 1) Port is_digit
      end
  | None => validate_component host_port host_port_offset Host is_reg_name_byte
  end.

Definition validate_authority (authority : list Z) (offset : nat) : Res unit :=
  let? (host_port, host_port_offset) :=
    match find 64 authority with
    | Some at_ =>
        match find 64 (drop (at_ + 1) authority) with
        | Some second => Err (InvalidAuthority (offset + at_ + 1 + second) MultipleAtSigns)
        | None =>
            let? _ := validate_component (take at_ authority) offset Userinfo is_userinfo_byte in
            Ok (drop (at_ + 1) authority, (offset + at_ + 1)%nat)
        end
    | None => Ok (authority, offset)
    end in
  match Template.strip_prefix [91] host_port with
  | Some ip_literal => validate_ip_literal ip_literal host_port_offset
  | None => validate_host_port host_port host_port_offset
  end.

Definition validate_path (input : list Z) (start end_ : nat) : Res unit :=
  let? path := slice_at input start end_ in validate_component path start Path (λ b, is_pchar b || (b =? 47)).

Definition validate_query_or_fragment (input : list Z) (start end_ : nat) (component : AbsoluteUriComponent) : Res unit :=
  let? text := slice_at input start end_ in validate_component text start component (λ b, is_pchar b || one_of "/?" b).

Definition validate_hier_part (input : list Z) (hier_start hier_end : nat) : Res unit :=
  let? hier := slice_at input hier_start hier_end in
  match Template.strip_prefix [47; 47] hier with
  | Some after_slashes =>
      let authority_len := default (length after_slashes) (find 47 after_slashes) in
      let authority_start := (hier_start + 2)%nat in
      let? _ := validate_authority (take authority_len after_slashes) authority_start in
      validate_path input (authority_start + authority_len) hier_end
  | None => validate_path input hier_start hier_end
  end.

(** * Parsing *)

Definition parse_with_max_bytes (input : list Z) (max_bytes : Z) : Res AbsoluteUri :=
  if ABSOLUTE_URI_HARD_MAX_BYTES <? max_bytes then Err (LimitExceedsHardCeiling max_bytes ABSOLUTE_URI_HARD_MAX_BYTES)
  else if max_bytes <? zlen input then Err (TooLong (zlen input) max_bytes)
  else if bool_decide (input = []) then Err Empty
  else
    let? _ := validate_ascii_wire_bytes input 0 in
    match find 58 input with
    | None => Err MissingScheme
    | Some scheme_end =>
        let? _ := validate_scheme input scheme_end in
        let? _ := validate_percent_triplets (drop (scheme_end + 1) input) (scheme_end + 1) in
        let fragment_delimiter := find 35 input in
        let before_fragment_end := default (length input) fragment_delimiter in
        let query_delimiter := find 63 (take before_fragment_end input) in
        let hier_end := default before_fragment_end query_delimiter in
        let? _ := validate_hier_part input (scheme_end + 1) hier_end in
        let? _ := match query_delimiter with
                  | Some query => validate_query_or_fragment input (query + 1) before_fragment_end Query
                  | None => Ok tt
                  end in
        let? _ := match fragment_delimiter with
                  | Some fragment => validate_query_or_fragment input (fragment + 1) (length input) Fragment
                  | None => Ok tt
                  end in
        Ok {| original := input; scheme_end := scheme_end; query_delimiter := query_delimiter;
              fragment_delimiter := fragment_delimiter |}
    end.

Definition parse (input : list Z) : Res AbsoluteUri := parse_with_max_bytes input DEFAULT_ABSOLUTE_URI_MAX_BYTES.

(** * Views

    The delimiters of an admitted URI are in order, so no slice panics. *)

Definition encoded_bytes (u : AbsoluteUri) : Z := zlen (original u).
Definition scheme (u : AbsoluteUri) : list Z := take (scheme_end u) (original u).

(** [eq_ignore_ascii_case] *)
Definition to_ascii_lowercase (b : Z) : Z := if (65 <=? b) && (b <=? 90) then b + 32 else b.
Definition scheme_is (u : AbsoluteUri) (expected : list Z) : bool :=
  bool_decide (to_ascii_lowercase <$> scheme u = to_ascii_lowercase <$> expected).

Definition hier_part (u : AbsoluteUri) : list Z :=
  let end_ := match query_delimiter u with
              | Some d => d
              | None => default (length (original u)) (fragment_delimiter u)
              end in
  slice (original u) (scheme_end u + 1) end_.

Definition query (u : AbsoluteUri) : option (list Z) :=
  (λ delimiter, slice (original u) (delimiter + 1) (default (length (original u)) (fragment_delimiter u))) <$> query_delimiter u.
Definition query_state (u : AbsoluteUri) : UriComponentState := from_optional (query u).

Definition fragment (u : AbsoluteUri) : option (list Z) :=
  (λ delimiter, drop (delimiter + 1) (original u)) <$> fragment_delimiter u.
Definition fragment_state (u : AbsoluteUri) : UriComponentState := from_optional (fragment u).
End Uri.
