(* ===== verification/AbsoluteUriTheorems.v ===== *)
(** Admission of absolute URIs against the grammar of RFC 3986, and where its
    errors point. *)
From stdpp Require Import base list gmap strings.
From Stdlib Require Import ZArith Lia.
From S2P Require Import Prelude Utf8 JsonGrammar RawJson UriTemplate UriTemplateParse AbsoluteUri.

Module UriTheorems.
Import Uri.

(** * The grammar *)

(** Characters of a class, or percent-encoded bytes *)
Inductive pct (P : Z → bool) : list Z → Prop :=
| pct_nil : pct P []
| pct_char b s : P b = true → pct P s → pct P (b :: s)
| pct_triplet h l s : is_ascii_hexdigit h = true → is_ascii_hexdigit l = true → pct P s → pct P (37 :: h :: l :: s).

(** A delimiter and what it introduces, where present *)
Definition opt (c : Z) (o : option (list Z)) : list Z := match o with Some x => c :: x | None => [] end.
Definition opt_end (c : Z) (o : option (list Z)) : list Z := match o with Some x => x ++ [c] | None => [] end.

Definition reg_char (b : Z) : bool := is_unreserved b || is_sub_delim b.
Definition userinfo_char (b : Z) : bool := reg_char b || (b =? 58).
Definition pchar (b : Z) : bool := reg_char b || (b =? 58) || (b =? 64).
Definition query_char (b : Z) : bool := pchar b || (b =? 47) || (b =? 63).

Definition scheme_text (s : list Z) : Prop :=
  ∃ b r, s = b :: r ∧ is_ascii_alphabetic b = true ∧ Forall (λ b, is_scheme_byte b = true) r.

(** [IPvFuture], [host] (an IPv4 address is a registered name) and [authority] *)
Definition ipv_future (t : list Z) : Prop :=
  ∃ v h r, t = v :: h ++ 46 :: r ∧ (v = 118 ∨ v = 86) ∧ h ≠ [] ∧ Forall (λ b, is_ascii_hexdigit b = true) h ∧
    r ≠ [] ∧ Forall (λ b, userinfo_char b = true) r.
Inductive host_text : list Z → Prop :=
| host_literal t : Ipv6.ipv6 t ∨ ipv_future t → host_text (91 :: t ++ [93])
| host_name t : pct reg_char t → host_text t.
Definition authority (a : list Z) : Prop :=
  ∃ u h p, a = opt_end 64 u ++ h ++ opt 58 p ∧ (∀ x, u = Some x → pct userinfo_char x) ∧ host_text h ∧
    (∀ x, p = Some x → digits x).

(** Paths *)
Abbreviation segment := (pct pchar).
Inductive path_abempty : list Z → Prop :=
| path_end : path_abempty []
| path_more s r : segment s → path_abempty r → path_abempty (47 :: s ++ r).
Definition path_rootless (p : list Z) : Prop := ∃ s r, s ≠ [] ∧ segment s ∧ path_abempty r ∧ p = s ++ r.
Inductive hier_text : list Z → Prop :=
| hier_authority a p : authority a → path_abempty p → hier_text (47 :: 47 :: a ++ p)
| hier_absolute p : p = [] ∨ path_rootless p → hier_text (47 :: p)
| hier_rootless p : path_rootless p → hier_text p
| hier_empty : hier_text [].

(** [URI = scheme ":" hier-part [ "?" query ] [ "#" fragment ]] *)
Record uri (s h : list Z) (q f : option (list Z)) (input : list Z) : Prop := {
  uri_is : input = s ++ 58 :: h ++ opt 63 q ++ opt 35 f;
  uri_scheme : scheme_text s;
  uri_hier : hier_text h;
  uri_query : ∀ x, q = Some x → pct query_char x;
  uri_fragment : ∀ x, f = Some x → pct query_char x;
}.

(** * Characters *)

Lemma hex_reg b : is_ascii_hexdigit b = true → reg_char b = true.
Proof. intros H%TemplateParse.hexdigit_alphanumeric. unfold reg_char, is_unreserved. by rewrite (H : is_ascii_alphanumeric b = true). Qed.

(** Membership in a spelled-out class, by cases *)
Ltac chars H :=
  unfold query_char, pchar, userinfo_char, reg_char, is_unreserved, is_sub_delim, is_scheme_byte, is_pchar, is_reg_name_byte,
    is_userinfo_byte, one_of, is_ascii_alphanumeric, Raw.is_ascii_alphanumeric, is_ascii_alphabetic, is_digit in H;
  rewrite ?orb_true_iff, ?andb_true_iff, ?bool_decide_eq_true, ?Z.eqb_eq, ?Z.leb_le in H;
  cbn in H; rewrite ?elem_of_cons, ?elem_of_nil in H.

Definition printable (b : Z) : Prop := 33 <= b <= 126.

Lemma query_char_printable b : query_char b = true → printable b ∧ b ≠ 35 ∧ b ≠ 37 ∧ b ≠ 91 ∧ b ≠ 93.
Proof. intros H. chars H. unfold printable. lia. Qed.
Lemma pchar_query b : pchar b = true → query_char b = true ∧ b ≠ 47 ∧ b ≠ 63.
Proof. intros H. split; [unfold query_char; by rewrite H|]. chars H. lia. Qed.
Lemma userinfo_pchar b : userinfo_char b = true → pchar b = true ∧ b ≠ 64.
Proof. intros H. split; [unfold pchar; by rewrite (H : reg_char b || (b =? 58) = true)|]. chars H. lia. Qed.
Lemma reg_userinfo b : reg_char b = true → userinfo_char b = true ∧ b ≠ 58.
Proof. intros H. split; [unfold userinfo_char; by rewrite H|]. chars H. lia. Qed.
Lemma scheme_byte_reg b : is_scheme_byte b = true → reg_char b = true.
Proof.
  intros H. unfold reg_char, is_unreserved, is_sub_delim. unfold is_scheme_byte in H. apply orb_true_iff in H as [->|H]; [done|].
  unfold one_of in *. apply bool_decide_eq_true in H. cbn in H. rewrite !elem_of_cons, elem_of_nil in H.
  destruct H as [->|[->|[->|[]]]]; by vm_compute.
Qed.
(** * Percent-encoded text *)

(** Every percent sign starts a triplet. *)
Definition triplets : list Z → Prop := pct (λ b, negb (b =? 37)).

Lemma triplets_iff s : ∀ i, validate_percent_triplets s i = Ok tt ↔ triplets s.
Proof.
  unfold triplets. remember (length s) as n eqn:Hn. revert s Hn. induction (lt_wf n) as [n _ IH]; intros s -> i.
  destruct s as [|b r]; [split; [constructor|done]|]. simpl. destruct (Z.eqb_spec b 37) as [->|Hb]; simpl.
  - destruct r as [|h [|l r]]; [split; [done|intros Hp; by inversion Hp]..|].
    destruct (is_ascii_hexdigit h) eqn:Eh; simpl; [|split; [done|intros Hp; inversion Hp; done || congruence]].
    destruct (is_ascii_hexdigit l) eqn:El; simpl; [|split; [done|intros Hp; inversion Hp; done || congruence]].
    rewrite (IH (length r) ltac:(simpl; lia) r eq_refl). split; [by apply pct_triplet|]. intros Hp. by inversion Hp; subst.
  - rewrite (IH (length r) ltac:(simpl; lia) r eq_refl). split; [intros Hp; constructor; [by apply negb_true_iff, Z.eqb_neq|done]|].
    intros Hp. by inversion Hp; subst.
Qed.

Lemma pct_app P a b : pct P a → pct P b → pct P (a ++ b).
Proof. induction 1; intros Hb; simpl; [done|apply pct_char; auto|apply pct_triplet; auto]. Qed.

Lemma pct_mono (P Q : Z → bool) s : (∀ b, P b = true → Q b = true) → pct P s → pct Q s.
Proof. intros H. induction 1; [apply pct_nil|apply pct_char; auto|apply pct_triplet; auto]. Qed.

(** A class that has the hexadecimal digits *)
Definition hexed (P : Z → bool) : Prop := P 37 = false ∧ ∀ b, is_ascii_hexdigit b = true → P b = true.

Lemma hexed_classes : hexed reg_char ∧ hexed userinfo_char ∧ hexed pchar ∧ hexed query_char.
Proof.
  split_and!; (split; [by vm_compute|]); intros b H%hex_reg; [done|by apply reg_userinfo| |].
  - by apply userinfo_pchar, reg_userinfo.
  - by apply pchar_query, userinfo_pchar, reg_userinfo.
Qed.

Lemma pct_iff P s : hexed P → pct P s ↔ Forall (λ b, P b || (b =? 37) = true) s ∧ triplets s.
Proof.
  intros [H37 Hhex]. split.
  - induction 1 as [|b s Hb _ [IH1 IH2]|h l s Hh Hl _ [IH1 IH2]]; [split; constructor| |].
    + split; [constructor; [by rewrite Hb|done]|]. apply pct_char; [|done].
      destruct (Z.eqb_spec b 37) as [->|]; [congruence|done].
    + split; [|by apply pct_triplet]. constructor; [apply orb_true_r|].
      constructor; [by rewrite Hhex|]. constructor; [by rewrite Hhex|done].
  - intros [Hf Ht]. revert Hf. induction Ht as [|b s Hb _ IH|h l s Hh Hl _ IH]; intros Hf; [constructor| |].
    + inversion_clear Hf as [|? ? H1 H2]. apply pct_char; [|auto]. apply negb_true_iff in Hb. by rewrite Hb, orb_false_r in H1.
    + inversion_clear Hf as [|? ? _ H1]. inversion_clear H1 as [|? ? _ H2]. inversion_clear H2 as [|? ? _ H3].
      apply pct_triplet; auto.
Qed.

Lemma pct_printable P s : hexed P → (∀ b, P b = true → printable b) → pct P s → Forall printable s.
Proof.
  intros HP Hpr [Hs _]%pct_iff; [|done]. eapply Forall_impl; [exact Hs|]. intros b [H|H]%orb_true_iff; [auto|].
  apply Z.eqb_eq in H as ->. by unfold printable.
Qed.

Lemma pct_avoids P s c : hexed P → P c = false → c ≠ 37 → pct P s → c ∉ s.
Proof.
  intros HP Hc Hne [Hs _]%pct_iff Hin; [|done]. rewrite Forall_forall in Hs. specialize (Hs c Hin).
  rewrite Hc in Hs. simpl in Hs. zbool. done.
Qed.

Lemma triplets_split a b : head_not is_ascii_hexdigit b → triplets (a ++ b) ↔ triplets a ∧ triplets b.
Proof.
  intros Hb. split; [|intros [Ha Hb']; by apply pct_app]. unfold triplets.
  remember (length a) as n eqn:Hn. revert a Hn. induction (lt_wf n) as [n _ IH]; intros a ->.
  destruct a as [|x a]; simpl; [split; [constructor|done]|]. intros H. remember (x :: a ++ b) as w eqn:Hw.
  destruct H as [|c s Hc Ht|h l s Hh Hl Ht]; [done| |]; injection Hw as Hx Hs; subst x.
  - subst s. destruct (IH (length a) ltac:(simpl; lia) a eq_refl Ht). split; [by apply pct_char|done].
  - destruct a as [|h' [|l' a]]; simpl in *.
    + subst b. simpl in Hb. congruence.
    + destruct b as [|y b]; [done|]. injection Hs as -> -> ->. simpl in Hb. congruence.
    + injection Hs as -> -> ->. destruct (IH (length a) ltac:(simpl; lia) a eq_refl Ht). split; [by apply pct_triplet|done].
Qed.
Lemma pct_Forall P s : Forall (λ b, P b = true) s → pct P s.
Proof. induction 1; [apply pct_nil|by apply pct_char]. Qed.

Lemma pct_triplets P s : hexed P → pct P s → triplets s.
Proof. intros HP H. by apply pct_iff in H as [_ H]. Qed.

(** * Authorities *)

Lemma component_iff c k P : ∀ off, validate_component c off k P = Ok tt ↔ Forall (λ b, P b = true) c.
Proof.
  induction c as [|b c IH]; intros off; simpl; [split; [constructor|done]|]. rewrite Forall_cons.
  destruct (P b); simpl; [rewrite IH; naive_solver|]. split; [done|naive_solver].
Qed.

(** A component whose class has the percent sign besides [P] *)
Lemma component_pct c k (P Q : Z → bool) off :
  hexed P → (∀ b, Q b = P b || (b =? 37)) → triplets c → validate_component c off k Q = Ok tt ↔ pct P c.
Proof.
  intros HP HQ Hc. rewrite component_iff, (pct_iff P) by done. split.
  - intros H. split; [|done]. eapply Forall_impl; [exact H|]. intros b. simpl. by rewrite HQ.
  - intros [H _]. eapply Forall_impl; [exact H|]. intros b. simpl. by rewrite HQ.
Qed.

Lemma digits_userinfo x : digits x → Forall (λ b, userinfo_char b = true) x ∧ 58 ∉ x.
Proof.
  intros Hx. split.
  - eapply Forall_impl; [exact Hx|]. intros b Hb. simpl in Hb.
    apply reg_userinfo. unfold reg_char, is_unreserved, is_ascii_alphanumeric, Raw.is_ascii_alphanumeric.
    by rewrite (Hb : (48 <=? b) && (b <=? 57) = true).
  - intros Hin. unfold digits in Hx. rewrite Forall_forall in Hx. by specialize (Hx 58 Hin).
Qed.

Lemma radix_hexdigit b : Ipv6.is_radix_digit 16 b = true → is_ascii_hexdigit b = true.
Proof.
  unfold Ipv6.is_radix_digit, Ipv6.to_digit, is_ascii_hexdigit, Template.is_ascii_hexdigit. rewrite !bool_decide_eq_true.
  intros [v Hv]. destruct (hex_value b); [by eexists|done].
Qed.

Lemma hex_userinfo t : Ipv6.hex_text t → Forall (λ b, userinfo_char b = true) t.
Proof.
  intros Ht. eapply Forall_impl; [exact Ht|]. intros b Hb. apply reg_userinfo, hex_reg, radix_hexdigit, Hb.
Qed.

Lemma octet_userinfo t : Ipv6.octet t → Forall (λ b, userinfo_char b = true) t.
Proof.
  intros [Ht _]. apply hex_userinfo. eapply Forall_impl; [exact Ht|]. intros b Hb.
  apply (Ipv6.radix_digit_hex 10); [exact Hb|lia].
Qed.

Lemma groups_userinfo v n t : Ipv6.groups v n t → Forall (λ b, userinfo_char b = true) t.
Proof.
  induction 1 as [t [Ht _]|t (a & b & c & d & Ha & Hb & Hc & Hd & ->)|v n t r [Ht _] _ IH]; [by apply hex_userinfo| |].
  - repeat (apply Forall_app; split; [by apply octet_userinfo|]; constructor; [done|]). by apply octet_userinfo.
  - apply Forall_app. split; [by apply hex_userinfo|]. by constructor.
Qed.

Lemma ipv6_userinfo t : Ipv6.ipv6 t → Forall (λ b, userinfo_char b = true) t.
Proof.
  intros [v t' Ht|v m n a b Ha Hb _]; [by eapply groups_userinfo|].
  assert (Hsome : ∀ v n t, Ipv6.some_groups v n t → Forall (λ b, userinfo_char b = true) t).
  { intros ? ? ? [|? ? Hg]; [constructor|by eapply groups_userinfo]. }
  apply Forall_app. split; [by eapply Hsome|]. repeat (constructor; [done|]). by eapply Hsome.
Qed.

Lemma forallb_iff (P : Z → bool) s : forallb P s = true ↔ Forall (λ b, P b = true) s.
Proof. induction s as [|b s IH]; simpl; [split; [constructor|done]|]. by rewrite andb_true_iff, Forall_cons, IH. Qed.

Lemma ipv_future_iff t : is_valid_ipv_future t = true ↔ ipv_future t.
Proof.
  unfold is_valid_ipv_future, ipv_future. split.
  - destruct t as [|v t]; [done|]. intros H. destruct ((length (v :: t) <? 4)%nat || negb (one_of "vV" v)) eqn:E1; [done|].
    change (drop 1 (v :: t)) with t in H.
    apply orb_false_iff in E1 as [_ Ev]. apply negb_false_iff in Ev. unfold one_of in Ev. apply bool_decide_eq_true in Ev.
    cbn in Ev. rewrite !elem_of_cons, elem_of_nil in Ev. destruct (find 46 t) as [dot|] eqn:Ef; [|done].
    apply TemplateParse.position_found in Ef as (r & Ht & Hn & Hl). destruct ((dot + 1 =? 1)%nat || _) eqn:E2; [done|].
    apply orb_false_iff in E2 as [E2 E3]. apply Nat.eqb_neq in E2. apply Nat.leb_gt in E3.
    set (h := take dot t) in *. clearbody h. subst t. simpl in E3. rewrite length_app in E3. simpl in E3. unfold slice in H.
    subst dot. rewrite Nat.add_1_r in H. cbn [take drop] in H. rewrite take_app_length in H. cbn [drop] in H.
    rewrite Nat.add_1_r in H. cbn [drop] in H.
    assert (Hd : drop (S (length h)) (h ++ 46 :: r) = r) by (rewrite <- Nat.add_1_r, <- drop_drop, drop_app_length; done).
    rewrite Hd in H.
    apply andb_true_iff in H as [H1 H2]. apply forallb_iff in H1. apply forallb_iff in H2.
    exists v, h, r. split_and!; [done|lia| |done| |exact H2].
    + intros ->. simpl in E2. lia.
    + intros ->. simpl in E3. lia.
  - intros (v & h & r & -> & Hv & Hh & Hhex & Hr & Hur). assert (Hdot : 46 ∉ h).
    { intros Hin. rewrite Forall_forall in Hhex. by specialize (Hhex 46 Hin). }
    assert (length h ≠ 0%nat ∧ length r ≠ 0%nat) as [Hlh Hlr] by (split; intros ?%nil_length_inv; done).
    assert (Hlen : length (v :: h ++ 46 :: r) = (length h + length r + 2)%nat) by (simpl; rewrite length_app; simpl; lia).
    rewrite Hlen. assert (one_of "vV" v = true) as -> by (destruct Hv as [-> | ->]; done).
    assert ((length h + length r + 2 <? 4)%nat = false) as -> by (apply Nat.ltb_ge; lia).
    cbn [negb orb drop]. rewrite drop_0, TemplateParse.position_app by done.
    assert ((length h + 1 =? 1)%nat = false) as -> by (apply Nat.eqb_neq; lia).
    assert ((length h + length r + 2 <=? length h + 1 + 1)%nat = false) as -> by (apply Nat.leb_gt; lia).
    cbn [orb]. unfold slice. rewrite !Nat.add_1_r. cbn [take drop]. rewrite take_app_length, drop_0.
    assert (Hd : drop (S (length h)) (h ++ 46 :: r) = r) by (rewrite <- Nat.add_1_r, <- drop_drop, drop_app_length; done).
    rewrite Hd. apply andb_true_iff. split; by apply forallb_iff.
Qed.
Lemma strip_one c s : Template.strip_prefix [c] s = match s with x :: r => if x =? c then Some r else None | [] => None end.
Proof.
  unfold Template.strip_prefix. simpl. destruct s as [|x r]; [done|]. simpl. rewrite take_0.
  destruct (Z.eqb_spec x c) as [->|Hx]; [by rewrite bool_decide_true|]. rewrite bool_decide_false; congruence.
Qed.

(** The host and the port *)
Definition port_ok (p : option (list Z)) : Prop := ∀ x, p = Some x → digits x.

Lemma literal_chars t : Ipv6.ipv6 t ∨ ipv_future t → Forall (λ b, userinfo_char b = true) t.
Proof.
  intros [Ht|(v & h & r & -> & Hv & _ & Hh & _ & Hr)]; [by apply ipv6_userinfo|].
  constructor; [by destruct Hv as [-> | ->]|]. apply Forall_app. split; [|by constructor].
  eapply Forall_impl; [exact Hh|]. intros b Hb. apply reg_userinfo, hex_reg, Hb.
Qed.

Lemma not_in_class (P : Z → bool) s c : Forall (λ b, P b = true) s → P c = false → c ∉ s.
Proof. intros Hs Hc Hin. rewrite Forall_forall in Hs. specialize (Hs c Hin). simpl in Hs. congruence. Qed.

Lemma ip_literal_iff ip off :
  validate_ip_literal ip off = Ok tt ↔ ∃ t p, ip = t ++ 93 :: opt 58 p ∧ (Ipv6.ipv6 t ∨ ipv_future t) ∧ port_ok p.
Proof.
  assert (Hlit : ∀ t, is_valid_ip_literal t = true ↔ Ipv6.ipv6 t ∨ ipv_future t).
  { intros t. unfold is_valid_ip_literal. by rewrite orb_true_iff, Ipv6.is_ipv6_iff, ipv_future_iff. }
  unfold validate_ip_literal. split.
  - destruct (find 93 ip) as [close|] eqn:Ef; [|done]. apply TemplateParse.position_found in Ef as (r & Hip & Hn & Hl).
    destruct (is_valid_ip_literal _) eqn:Ev; [|done]. simpl. apply Hlit in Ev. set (t := take close ip) in *. clearbody t. subst ip close.
    assert (drop (length t + 1) (t ++ 93 :: r) = r) as -> by (rewrite <- drop_drop, drop_app_length; done).
    destruct r as [|c r]; [intros _; by exists t, None|]. destruct (Z.eqb_spec c 58) as [->|]; [|done]. simpl.
    rewrite component_iff. intros Hp. exists t, (Some r). split_and!; [done|done|by intros x [= <-]].
  - intros (t & p & -> & Ht & Hp). assert (H93 : 93 ∉ t) by (eapply not_in_class; [by apply literal_chars|done]).
    rewrite TemplateParse.position_app by done. rewrite take_app_length, (proj2 (Hlit t)) by done. simpl.
    assert (drop (length t + 1) (t ++ 93 :: opt 58 p) = opt 58 p) as -> by (rewrite <- drop_drop, drop_app_length; done).
    destruct p as [x|]; [|done]. simpl. apply component_iff. by apply Hp.
Qed.

Lemma name_port_iff hp off :
  triplets hp → validate_host_port hp off = Ok tt ↔ ∃ t p, hp = t ++ opt 58 p ∧ pct reg_char t ∧ port_ok p.
Proof.
  intros Htr. assert (Hreg : ∀ c off, triplets c → validate_component c off Host is_reg_name_byte = Ok tt ↔ pct reg_char c).
  { intros c o Hc. apply component_pct; [apply hexed_classes|done|done]. }
  assert (H58 : ∀ t, pct reg_char t → 58 ∉ t) by (intros t Ht; apply (pct_avoids reg_char); [apply hexed_classes|done|done|exact Ht]).
  unfold validate_host_port. destruct (Template.split_once 58 hp) as [[h p]|] eqn:Es.
  - apply TemplateParse.split_once_Some in Es as [-> Hh]. apply triplets_split in Htr as [Hth _]; [|done].
    split.
    + destruct (find 58 p) eqn:Ep; [done|]. destruct (validate_component h _ _ _) as [[]| | |] eqn:Eh; [|done..].
      apply Hreg in Eh; [|done]. simpl. rewrite component_iff. intros Hp. exists h, (Some p). split_and!; [done|done|by intros x [= <-]].
    + intros (t & o & Heq & Ht & Hp). destruct o as [x|].
      * simpl in Heq. assert (h = t ∧ p = x) as [-> ->].
        { assert (Template.split_once 58 (h ++ 58 :: p) = Some (t, x)) as Hs by (apply TemplateParse.split_once_Some; auto).
          assert (Template.split_once 58 (h ++ 58 :: p) = Some (h, p)) as Hs' by (by apply TemplateParse.split_once_Some).
          rewrite Hs in Hs'. by injection Hs'. }
        specialize (Hp x eq_refl). rewrite (proj2 (TemplateParse.position_absent 58 x)) by by apply digits_userinfo.
        rewrite (proj2 (Hreg t off Hth) Ht). simpl. by apply component_iff.
      * simpl in Heq. rewrite app_nil_r in Heq. exfalso. apply (H58 t Ht). rewrite <- Heq. apply elem_of_app. right. by left.
  - apply TemplateParse.split_once_None in Es. rewrite Hreg by done. split.
    + intros Ht. exists hp, None. simpl. by rewrite app_nil_r.
    + intros (t & [x|] & -> & Ht & _); [exfalso; apply Es, elem_of_app; right; by left|]. simpl. by rewrite app_nil_r.
Qed.

Lemma host_port_iff hp off :
  triplets hp →
  match Template.strip_prefix [91] hp with
  | Some ip => validate_ip_literal ip off
  | None => validate_host_port hp off
  end = Ok tt ↔ ∃ h p, hp = h ++ opt 58 p ∧ host_text h ∧ port_ok p.
Proof.
  intros Htr. rewrite strip_one. destruct hp as [|c r]; [|destruct (Z.eqb_spec c 91) as [->|Hc]].
  2:{ rewrite ip_literal_iff. split.
    - intros (t & p & -> & Ht & Hp). exists (91 :: t ++ [93]), p. split_and!; [simpl; by rewrite <- app_assoc|by constructor|done].
    - intros (h & p & Heq & Hh & Hp). destruct Hh as [t Ht|t Ht].
      + simpl in Heq. injection Heq as ->. exists t, p. by rewrite <- app_assoc.
      + exfalso. destruct t as [|b t]; [destruct p; done|]. simpl in Heq. injection Heq as <- _.
        assert (91 ∉ 91 :: t) as Hn by (apply (pct_avoids reg_char); [apply hexed_classes|done|done|exact Ht]). apply Hn. by left. }
  all: rewrite (name_port_iff _ off Htr); split; [intros (t & p & Heq & Ht & Hp); exists t, p; split_and!; [done|by constructor|done]|].
  all: intros (h & p & Heq & Hh & Hp); destruct Hh as [t Ht|t Ht]; [|by exists t, p].
  - done.
  - simpl in Heq. congruence.
Qed.
(** The bytes an authority can have: no slash, question mark or hash *)
Definition authority_byte (b : Z) : bool := pchar b || (b =? 37) || (b =? 91) || (b =? 93).
Definition host_byte (b : Z) : bool := userinfo_char b || (b =? 37) || (b =? 91) || (b =? 93).

Lemma Forall_class (P Q : Z → bool) s : (∀ b, P b = true → Q b = true) → Forall (λ b, P b = true) s → Forall (λ b, Q b = true) s.
Proof. intros H Hs. eapply Forall_impl; [exact Hs|]. exact H. Qed.

Lemma host_byte_authority b : host_byte b = true → authority_byte b = true.
Proof.
  unfold host_byte, authority_byte. intros H. rewrite !orb_true_iff in *. destruct H as [[[H%userinfo_pchar|H]|H]|H]; naive_solver.
Qed.

Lemma pct_host P x : hexed P → (∀ b, P b = true → userinfo_char b = true) → pct P x → Forall (λ b, host_byte b = true) x.
Proof.
  intros HP HQ [Hx _]%pct_iff; [|done]. revert Hx. apply Forall_class. intros b [H|H]%orb_true_iff; unfold host_byte.
  - by rewrite (HQ b H).
  - rewrite H. by rewrite !orb_true_r.
Qed.

Lemma userinfo_host b : userinfo_char b = true → host_byte b = true.
Proof. unfold host_byte. by intros ->. Qed.

Lemma host_bytes h : host_text h → Forall (λ b, host_byte b = true) h ∧ triplets h.
Proof.
  intros [t Ht%literal_chars|t Ht].
  - assert (H37 : Forall (λ b, negb (b =? 37) = true) (91 :: t ++ [93])).
    { constructor; [done|]. apply Forall_app. split; [|by repeat constructor]. revert Ht. apply Forall_class.
      intros b Hb. apply negb_true_iff, Z.eqb_neq. intros ->. done. }
    split; [|by apply pct_Forall]. constructor; [done|]. apply Forall_app. split; [|by repeat constructor].
    revert Ht. apply Forall_class, userinfo_host.
  - split; [|by apply (pct_triplets reg_char); [apply hexed_classes|]].
    apply (pct_host reg_char); [apply hexed_classes| |done]. intros b Hb. by apply reg_userinfo.
Qed.

Lemma port_bytes p : port_ok p → Forall (λ b, host_byte b = true) (opt 58 p) ∧ triplets (opt 58 p).
Proof.
  intros Hp. destruct p as [x|]; [|split; [constructor|apply pct_nil]]. specialize (Hp x eq_refl). apply digits_userinfo in Hp as [Hx _].
  assert (Hc : Forall (λ b, userinfo_char b = true) (58 :: x)) by by constructor. simpl. split.
  - revert Hc. apply Forall_class, userinfo_host.
  - apply pct_Forall. revert Hc. apply Forall_class. intros b Hb. apply negb_true_iff, Z.eqb_neq. by intros ->.
Qed.

Lemma authority_facts a : authority a → Forall (λ b, authority_byte b = true) a ∧ triplets a.
Proof.
  intros (u & h & p & -> & Hu & [Hh Hth]%host_bytes & [Hp Htp]%port_bytes).
  assert (Hua : Forall (λ b, authority_byte b = true) (opt_end 64 u) ∧ triplets (opt_end 64 u)).
  { destruct u as [x|]; [|split; [constructor|apply pct_nil]]. specialize (Hu x eq_refl). simpl. split.
    - apply Forall_app. split; [|by repeat constructor]. apply (pct_host userinfo_char) in Hu; [|apply hexed_classes|done].
      revert Hu. apply Forall_class, host_byte_authority.
    - apply pct_app; [by apply (pct_triplets userinfo_char); [apply hexed_classes|]|]. apply pct_char; [done|apply pct_nil]. }
  destruct Hua as [Hua Hta]. split; [|repeat apply pct_app; done].
  repeat (apply Forall_app; split); [done|by eapply Forall_class, Hh; apply host_byte_authority|by eapply Forall_class, Hp; apply host_byte_authority].
Qed.

Lemma authority_iff a off : triplets a → validate_authority a off = Ok tt ↔ authority a.
Proof.
  intros Htr. unfold validate_authority. assert (H64 : ∀ h p, host_text h → port_ok p → 64 ∉ h ++ opt 58 p).
  { intros h p [Hh _]%host_bytes [Hp _]%port_bytes. eapply (not_in_class host_byte); [by apply Forall_app|done]. }
  destruct (find 64 a) as [i|] eqn:Ef.
  - apply TemplateParse.position_found in Ef as (hp & Ha & Hn & Hl). set (x := take i a) in *. clearbody x. subst a i.
    assert (drop (length x + 1) (x ++ 64 :: hp) = hp) as -> by (rewrite <- drop_drop, drop_app_length; done).
    apply triplets_split in Htr as [Htx Htr]; [|done].
    assert (Hthp : triplets hp) by (by inversion Htr; subst).
    assert (Hx : ∀ o, validate_component x o Userinfo is_userinfo_byte = Ok tt ↔ pct userinfo_char x).
    { intros o. apply component_pct; [apply hexed_classes| |done]. intros b. unfold is_userinfo_byte, userinfo_char, reg_char, one_of.
      destruct (is_unreserved b || is_sub_delim b); [done|]. cbn [orb]. destruct (Z.eqb_spec b 58) as [->|]; [done|]. destruct (Z.eqb_spec b 37) as [->|]; [done|].
      apply bool_decide_eq_false. cbn. rewrite !elem_of_cons, elem_of_nil. lia. }
    split.
    + destruct (find 64 hp) eqn:E2; [done|]. destruct (validate_component x _ _ _) as [[]| | |] eqn:Ex; [|done..].
      apply Hx in Ex. cbn [obind]. rewrite (host_port_iff hp _ Hthp). intros (h & p & -> & Hh & Hp). exists (Some x), h, p.
      simpl. rewrite <- app_assoc. split_and!; [done|by intros y [= <-]|done|done].
    + intros (u & h & p & Heq & Hu & Hh & Hp). destruct u as [y|].
      * simpl in Heq. rewrite <- app_assoc in Heq. simpl in Heq. specialize (Hu y eq_refl).
        assert (Hy : 64 ∉ y) by (apply (pct_avoids userinfo_char); [apply hexed_classes|done|done|exact Hu]).
        assert (y = x ∧ h ++ opt 58 p = hp) as [-> Hhp].
        { assert (Template.split_once 64 (x ++ 64 :: hp) = Some (y, h ++ opt 58 p)) as Hs by (apply TemplateParse.split_once_Some; auto).
          assert (Template.split_once 64 (x ++ 64 :: hp) = Some (x, hp)) as Hs' by (by apply TemplateParse.split_once_Some).
          rewrite Hs in Hs'. by injection Hs'. }
        rewrite (proj2 (TemplateParse.position_absent 64 hp)) by (rewrite <- Hhp; by apply H64).
        rewrite (proj2 (Hx off) Hu). cbn [obind]. apply host_port_iff; [done|]. by exists h, p.
      * exfalso. simpl in Heq. apply (H64 h p Hh Hp). rewrite <- Heq. apply elem_of_app. right. by left.
  - apply TemplateParse.position_absent in Ef. cbn [obind]. rewrite (host_port_iff a off Htr). split.
    + intros (h & p & -> & Hh & Hp). by exists None, h, p.
    + intros ([x|] & h & p & -> & _ & Hh & Hp); [|by exists h, p]. exfalso. apply Ef. simpl. rewrite <- app_assoc.
      apply elem_of_app. right. by left.
Qed.
(** * Paths *)

Definition path_char (b : Z) : bool := pchar b || (b =? 47).

Lemma hexed_path : hexed path_char.
Proof. split; [done|]. intros b Hb. unfold path_char. by rewrite (proj2 (proj1 (proj2 (proj2 hexed_classes))) b Hb). Qed.

Lemma abempty_path p : path_abempty p → pct path_char p.
Proof.
  induction 1 as [|s r Hs _ IH]; [apply pct_nil|]. apply pct_char; [done|]. apply pct_app; [|done].
  revert Hs. apply pct_mono. intros b Hb. unfold path_char. by rewrite Hb.
Qed.

Lemma path_segments p : pct path_char p → ∃ s r, segment s ∧ path_abempty r ∧ p = s ++ r.
Proof.
  induction 1 as [|b p Hb _ (s & r & Hs & Hr & ->)|h l p Hh Hl _ (s & r & Hs & Hr & ->)].
  - exists [], []. split_and!; [apply pct_nil|constructor|done].
  - destruct (Z.eqb_spec b 47) as [->|Hne].
    + exists [], (47 :: s ++ r). split_and!; [apply pct_nil|by constructor|done].
    + exists (b :: s), r. split_and!; [|done|done]. apply pct_char; [|done]. unfold path_char in Hb.
      destruct (Z.eqb_spec b 47); [done|]. by rewrite orb_false_r in Hb.
  - exists (37 :: h :: l :: s), r. split_and!; [by apply pct_triplet|done|done].
Qed.

Lemma segment_head s : segment s → head s ≠ Some 47.
Proof. intros Hs Hh. destruct s as [|b s]; [done|]. injection Hh as ->. by inversion Hs. Qed.

Lemma abempty_iff p : path_abempty p ↔ pct path_char p ∧ (p = [] ∨ head p = Some 47).
Proof.
  split.
  - intros Hp. split; [by apply abempty_path|]. destruct Hp; [by left|by right].
  - intros [(s & r & Hs & Hr & ->)%path_segments Hh]. destruct s as [|b s]; [done|]. exfalso.
    destruct Hh as [Hh|Hh]; [done|]. by apply segment_head in Hs.
Qed.

Lemma rootless_iff p : path_rootless p ↔ pct path_char p ∧ p ≠ [] ∧ head p ≠ Some 47.
Proof.
  split.
  - intros (s & r & Hne & Hs & Hr & ->). split_and!.
    + apply pct_app; [|by apply abempty_path]. revert Hs. apply pct_mono. intros b Hb. unfold path_char. by rewrite Hb.
    + by destruct s.
    + apply segment_head in Hs. by destruct s.
  - intros ((s & r & Hs & Hr & ->)%path_segments & Hne & Hh). exists s, r. split_and!; [|done..]. intros ->. simpl in *.
    by destruct Hr.
Qed.

(** [validate_hier_part], on the text of the part *)
Definition check_path (p : list Z) (start : nat) : Res unit := validate_component p start Path (λ b, is_pchar b || (b =? 47)).
Definition check_hier (h : list Z) (start : nat) : Res unit :=
  match Template.strip_prefix [47; 47] h with
  | Some after =>
      let n := default (length after) (find 47 after) in
      let? _ := validate_authority (take n after) (start + 2) in
      check_path (drop n after) (start + 2 + n)
  | None => check_path h start
  end.

Lemma check_path_iff p start : triplets p → check_path p start = Ok tt ↔ pct path_char p.
Proof.
  intros Hp. apply component_pct; [apply hexed_path| |done]. intros b. unfold is_pchar, path_char, pchar, reg_char, one_of.
  destruct (is_unreserved b || is_sub_delim b); [done|]. cbn [orb].
  destruct (Z.eqb_spec b 58) as [->|]; [done|]. destruct (Z.eqb_spec b 64) as [->|]; [done|].
  destruct (Z.eqb_spec b 37) as [->|]; [done|]. rewrite bool_decide_false; [by rewrite orb_false_r|].
  cbn. rewrite !elem_of_cons, elem_of_nil. lia.
Qed.

Lemma find_default c s : ∃ a b, s = a ++ b ∧ default (length s) (find c s) = length a ∧ c ∉ a ∧ (b = [] ∨ head b = Some c).
Proof.
  destruct (find c s) as [i|] eqn:E.
  - apply TemplateParse.position_found in E as (r & Hs & Hn & Hl). exists (take i s), (c :: r). split_and!; [done|done|done|by right].
  - apply TemplateParse.position_absent in E. exists s, []. rewrite app_nil_r. split_and!; [done|done|done|by left].
Qed.

Lemma slashes_cases h :
  (∃ r, h = 47 :: 47 :: r ∧ Template.strip_prefix [47; 47] h = Some r) ∨
  (∀ r, h ≠ 47 :: 47 :: r) ∧ Template.strip_prefix [47; 47] h = None.
Proof.
  unfold Template.strip_prefix. case_bool_decide as H.
  - left. exists (drop 2 h). split; [|done]. rewrite <- (take_drop 2 h) at 1. simpl in H. by rewrite H.
  - right. split; [|done]. intros r ->. simpl in H. by rewrite take_0 in H.
Qed.

Lemma head_slash r : r = [] ∨ head r = Some 47 → head_not is_ascii_hexdigit r.
Proof. intros [->|Hr]; [done|]. destruct r; [done|]. by injection Hr as ->. Qed.

Lemma hier_iff h start : triplets h → check_hier h start = Ok tt ↔ hier_text h.
Proof.
  intros Htr. unfold check_hier. destruct (slashes_cases h) as [(after & -> & ->)|[Hno ->]].
  - assert (Hta : triplets after) by (inversion_clear Htr as [| ? ? _ Ht|]; by inversion Ht).
    destruct (find_default 47 after) as (a & p & -> & -> & H47 & Hp). rewrite take_app_length, drop_app_length.
    apply triplets_split in Hta as [Ha Htp]; [|by apply head_slash]. split.
    + destruct (validate_authority a _) as [[]| | |] eqn:Ea; [|done..]. cbn [obind]. rewrite check_path_iff by done. intros Hpath.
      apply authority_iff in Ea; [|done]. apply hier_authority; [done|]. apply abempty_iff. auto.
    + intros Hh. remember (47 :: 47 :: a ++ p) as w eqn:Hw. destruct Hh as [a' p' Ha' Hp'|p' Hp'|p' Hp'|]; [| | |done].
      * injection Hw as Hw. apply abempty_iff in Hp' as [Hp' Hh']. assert (a = a' ∧ p = p') as [-> ->].
        { assert (H47' : 47 ∉ a') by (eapply not_in_class; [by apply authority_facts|done]). clear -Hw H47 H47' Hh' Hp.
          revert a Hw H47. induction a' as [|x a' IH]; intros [|y a] Hw H1; simpl in *; [done| | |].
          - subst p'. exfalso. destruct Hh' as [?|[= ->]]; [done|]. apply H1. by left.
          - subst p. exfalso. destruct Hp as [?|[= ->]]; [done|]. apply H47'. by left.
          - injection Hw as -> Hw. apply not_elem_of_cons in H1 as [_ H1], H47' as [_ H47'].
            destruct (IH H47' a Hw H1) as [-> ->]. done. }
        rewrite (proj2 (authority_iff a' _ Ha) Ha'). cbn [obind]. by apply check_path_iff.
      * exfalso. injection Hw as ->. destruct Hp' as [?|(_ & _ & Hh)%rootless_iff]; done.
      * exfalso. subst p'. by apply rootless_iff in Hp' as (_ & _ & Hh).
  - rewrite check_path_iff by done. split.
    + intros Hp. destruct h as [|b r]; [apply hier_empty|]. destruct (Z.eqb_spec b 47) as [->|Hb].
      * apply hier_absolute. destruct r as [|c r]; [by left|right]. apply rootless_iff. split_and!; [by inversion Hp|done|].
        intros [= ->]. by apply (Hno r).
      * apply hier_rootless, rootless_iff. split_and!; [done|done|simpl; congruence].
    + intros Hh. destruct Hh as [a p _ _|p Hp|p Hp|]; [by destruct (Hno (a ++ p))| | |apply pct_nil].
      * apply pct_char; [done|]. destruct Hp as [->|Hp]; [apply pct_nil|]. by apply rootless_iff in Hp as [? _].
      * by apply rootless_iff in Hp as [? _].
Qed.
(** * The parts of a URI *)

Lemma find_opt c a o : c ∉ a → find c (a ++ opt c o) = (λ _, length a) <$> o.
Proof.
  intros Hn. destruct o as [x|]; simpl; [by apply TemplateParse.position_app|]. rewrite app_nil_r. by apply TemplateParse.position_absent.
Qed.

Lemma slice_app a b c i j : i = length a → j = (length a + length b)%nat → slice (a ++ b ++ c) i j = b.
Proof.
  intros -> ->. unfold slice. rewrite app_assoc, <- length_app, take_app_length. apply drop_app_length.
Qed.

Lemma slice_at_app a b c i j : i = length a → j = (length a + length b)%nat → slice_at (a ++ b ++ c) i j = Ok b.
Proof.
  intros -> ->. unfold slice_at. rewrite slice_app by done.
  assert ((length a <=? length a + length b)%nat = true) as -> by (apply Nat.leb_le; lia).
  assert ((length a + length b <=? length (a ++ b ++ c))%nat = true) as -> by (apply Nat.leb_le; rewrite !length_app; lia). done.
Qed.

Lemma validate_hier_pieces a h c i j :
  i = length a → j = (length a + length h)%nat → validate_hier_part (a ++ h ++ c) i j = check_hier h i.
Proof.
  intros Hi Hj. unfold validate_hier_part, check_hier, validate_path, check_path. rewrite !slice_at_app by done. cbn [obind].
  destruct (slashes_cases h) as [(after & -> & ->)|[_ ->]]; [|done].
  destruct (find_default 47 after) as (x & p & -> & -> & _ & _). rewrite take_app_length, drop_app_length.
  destruct (validate_authority x _); [|done..]. cbn [obind].
  replace (a ++ (47 :: 47 :: x ++ p) ++ c) with ((a ++ 47 :: 47 :: x) ++ p ++ c) by (rewrite <- !app_assoc; simpl; by rewrite <- !app_assoc).
  rewrite slice_at_app; [done|rewrite length_app; simpl; lia|]. rewrite Hj. simpl. rewrite !length_app. simpl. lia.
Qed.

Definition check_text (o : option (list Z)) (start : nat) (k : AbsoluteUriComponent) : Res unit :=
  match o with Some x => validate_component x start k (λ b, is_pchar b || one_of "/?" b) | None => Ok tt end.

(** What the parser does with an input cut at its delimiters *)
Section pieces.
Context (s h : list Z) (q f : option (list Z)).
Context (H58 : 58 ∉ s) (Hs35 : 35 ∉ s) (Hs63 : 63 ∉ s) (Hh63 : 63 ∉ h) (Hh35 : 35 ∉ h) (Hq35 : 35 ∉ opt 63 q).

Definition assembled : list Z := s ++ 58 :: h ++ opt 63 q ++ opt 35 f.
Definition hier_at : nat := (length s + 1)%nat.
Definition query_at : nat := (length s + 1 + length h)%nat.
Definition fragment_at : nat := (length s + 1 + length h + length (opt 63 q))%nat.
Definition parsed : AbsoluteUri :=
  {| original := assembled; scheme_end := length s; query_delimiter := (λ _, query_at) <$> q;
     fragment_delimiter := (λ _, fragment_at) <$> f |}.

Lemma assembled_fragment : assembled = (s ++ 58 :: h ++ opt 63 q) ++ opt 35 f.
Proof. unfold assembled. rewrite <- !app_assoc. simpl. by rewrite <- !app_assoc. Qed.
Lemma assembled_hier : assembled = (s ++ [58]) ++ h ++ opt 63 q ++ opt 35 f.
Proof. unfold assembled. by rewrite <- !app_assoc. Qed.

Lemma find_colon : find 58 assembled = Some (length s).
Proof. by apply TemplateParse.position_app. Qed.

Lemma length_front : length (s ++ 58 :: h ++ opt 63 q) = fragment_at.
Proof. unfold fragment_at. rewrite length_app. simpl. rewrite length_app. lia. Qed.

Lemma find_hash : find 35 assembled = (λ _, fragment_at) <$> f.
Proof.
  rewrite assembled_fragment, find_opt, length_front; [done|]. rewrite !not_elem_of_app, not_elem_of_cons, not_elem_of_app. done.
Qed.

Lemma front_end : default (length assembled) ((λ _, fragment_at) <$> f) = fragment_at.
Proof.
  destruct f as [x|] eqn:E; [done|]. simpl. rewrite assembled_fragment, E. simpl. by rewrite app_nil_r, length_front.
Qed.

Lemma take_front : take fragment_at assembled = s ++ 58 :: h ++ opt 63 q.
Proof. rewrite assembled_fragment, <- length_front. apply take_app_length. Qed.

Lemma find_question : find 63 (s ++ 58 :: h ++ opt 63 q) = (λ _, query_at) <$> q.
Proof.
  replace (s ++ 58 :: h ++ opt 63 q) with ((s ++ 58 :: h) ++ opt 63 q) by (rewrite <- !app_assoc; done). rewrite find_opt.
  - unfold query_at. rewrite length_app. simpl. destruct q; [|done]. simpl. f_equal. lia.
  - rewrite not_elem_of_app, not_elem_of_cons. done.
Qed.

Lemma hier_end_at : default fragment_at ((λ _, query_at) <$> q) = query_at.
Proof. unfold fragment_at, query_at. destruct q; [done|]. simpl. lia. Qed.

Lemma query_text_at : validate_query_or_fragment assembled (query_at + 1) fragment_at Query = check_text q (query_at + 1) Query ∨ q = None.
Proof.
  destruct q as [x|] eqn:E; [left|by right]. unfold validate_query_or_fragment.
  replace assembled with ((s ++ 58 :: h ++ [63]) ++ x ++ opt 35 f).
  2:{ unfold assembled. rewrite E. rewrite <- !app_assoc. simpl. by rewrite <- !app_assoc. }
  rewrite slice_at_app; [done| |]; unfold query_at, fragment_at; rewrite ?E; rewrite !length_app; simpl; rewrite !length_app; simpl; lia.
Qed.

Lemma fragment_text_at :
  validate_query_or_fragment assembled (fragment_at + 1) (length assembled) Fragment = check_text f (fragment_at + 1) Fragment ∨ f = None.
Proof.
  destruct f as [x|] eqn:E; [left|by right]. unfold validate_query_or_fragment.
  assert (Ha : assembled = ((s ++ 58 :: h ++ opt 63 q) ++ [35]) ++ x ++ []).
  { rewrite assembled_fragment, E, app_nil_r. by rewrite <- !app_assoc. }
  rewrite Ha, slice_at_app; [done|by rewrite length_app, length_front|]. by rewrite (length_app (_ ++ [35])), app_nil_r.
Qed.

Lemma parse_pieces max :
  max <= ABSOLUTE_URI_HARD_MAX_BYTES → zlen assembled <= max →
  parse_with_max_bytes assembled max =
  (let? _ := validate_ascii_wire_bytes assembled 0 in
   let? _ := validate_scheme assembled (length s) in
   let? _ := validate_percent_triplets (h ++ opt 63 q ++ opt 35 f) hier_at in
   let? _ := check_hier h hier_at in
   let? _ := check_text q (query_at + 1) Query in
   let? _ := check_text f (fragment_at + 1) Fragment in
   Ok parsed).
Proof.
  intros Hmax Hlen. unfold parse_with_max_bytes. rewrite (proj2 (Z.ltb_ge _ _) Hmax), (proj2 (Z.ltb_ge _ _) Hlen).
  rewrite bool_decide_false by (unfold assembled; by destruct s). rewrite find_colon, find_hash, front_end, take_front, find_question, hier_end_at.
  fold hier_at. assert (drop hier_at assembled = h ++ opt 63 q ++ opt 35 f) as ->.
  { rewrite assembled_hier. replace hier_at with (length (s ++ [58])) by (by rewrite length_app). apply drop_app_length. }
  assert (validate_hier_part assembled hier_at query_at = check_hier h hier_at) as ->.
  { rewrite assembled_hier. apply validate_hier_pieces; unfold hier_at, query_at; rewrite length_app; simpl; lia. }
  assert (match (λ _, query_at) <$> q with Some query => validate_query_or_fragment assembled (query + 1) fragment_at Query | None => Ok tt end
          = check_text q (query_at + 1) Query) as ->.
  { destruct query_text_at as [Hq| ->]; [|done]. rewrite <- Hq. destruct q; [done|]. by rewrite Hq. }
  assert (match (λ _, fragment_at) <$> f with
          | Some fragment => validate_query_or_fragment assembled (fragment + 1) (length assembled) Fragment | None => Ok tt end
          = check_text f (fragment_at + 1) Fragment) as ->; [|done].
  destruct fragment_text_at as [Hf| ->]; [|done]. rewrite <- Hf. destruct f; [done|]. by rewrite Hf.
Qed.

Lemma parsed_views : scheme parsed = s ∧ hier_part parsed = h ∧ query parsed = q ∧ fragment parsed = f.
Proof.
  unfold scheme, hier_part, query, fragment, parsed. cbn [original scheme_end query_delimiter fragment_delimiter].
  rewrite front_end. split_and!.
  - unfold assembled. apply take_app_length.
  - assert (match (λ _, query_at) <$> q with Some d => d | None => fragment_at end = query_at) as ->.
    { unfold fragment_at, query_at. destruct q; simpl; lia. }
    rewrite assembled_hier. apply slice_app; unfold query_at; rewrite length_app; simpl; lia.
  - destruct q as [x|] eqn:E; [|done]. simpl. f_equal.
    replace assembled with ((s ++ 58 :: h ++ [63]) ++ x ++ opt 35 f).
    2:{ unfold assembled. rewrite E. rewrite <- !app_assoc. simpl. by rewrite <- !app_assoc. }
    apply slice_app; unfold query_at, fragment_at; rewrite ?E; rewrite !length_app; simpl; rewrite !length_app; simpl; lia.
  - destruct f as [x|] eqn:E; [|done]. simpl. f_equal. rewrite assembled_fragment, E. simpl.
    rewrite <- length_front, <- drop_drop, drop_app_length. done.
Qed.
End pieces.
(** * Where errors point *)

Definition authority_points (kind : AuthorityErrorKind) (c : list Z) (k : nat) : Prop :=
  match kind with
  | MultipleAtSigns => c !! k = Some 64
  | MissingIpLiteralBracket => c !! k = Some 91
  | InvalidIpLiteral => ∃ j, k = S j ∧ c !! j = Some 91
  | InvalidIpLiteralSuffix => ∃ j b, k = S j ∧ c !! j = Some 93 ∧ c !! k = Some b ∧ b ≠ 58
  | UnbracketedColon => c !! k = Some 58
  end.

(** The error names a byte of a text that starts at an offset. *)
Definition points (c : list Z) (off : nat) (e : AbsoluteUriError) : Prop :=
  ∃ k, match e with
       | NonAscii i => i = (off + k)%nat ∧ ∃ b, c !! k = Some b ∧ 128 <= b
       | ControlOrSpace i b => i = (off + k)%nat ∧ c !! k = Some b ∧ (b <= 32 ∨ b = 127)
       | InvalidCharacter _ i b => i = (off + k)%nat ∧ c !! k = Some b
       | InvalidPercentEncoding i => i = (off + k)%nat ∧ c !! k = Some 37
       | InvalidAuthority i kind => i = (off + k)%nat ∧ authority_points kind c k
       | _ => False
       end.

Lemma points_app a b c off e : points b (off + length a) e → points (a ++ b ++ c) off e.
Proof.
  intros [k H]. exists (length a + k)%nat.
  assert (Hlk : ∀ j x, b !! j = Some x → (a ++ b ++ c) !! (length a + j)%nat = Some x).
  { intros j x Hj. rewrite lookup_app_r by lia. replace (length a + j - length a)%nat with j by lia. by apply lookup_app_l_Some. }
  destruct e as [| | | | |i|i x|k' i x|i|i kind]; try done; destruct H as [-> H]; (split; [lia|]); auto.
  - destruct H as (x & Hx & ?). exists x. auto.
  - destruct H as [Hx ?]. auto.
  - destruct kind; simpl in *; auto.
    + destruct H as (j & -> & Hj). exists (length a + j)%nat. split; [lia|auto].
    + destruct H as (j & x & -> & Hj & Hx & ?). exists (length a + j)%nat, x. split_and!; [lia|auto..].
Qed.

Lemma points_suffix a b off e : points b (off + length a) e → points (a ++ b) off e.
Proof. intros H. rewrite <- (app_nil_r b). by apply points_app. Qed.
Lemma points_prefix b c off e : points b off e → points (b ++ c) off e.
Proof. intros H. apply (points_app [] b c). by rewrite Nat.add_0_r. Qed.

(** A validator of a text answers, and its errors point into the text. *)
Definition answers_at (c : list Z) (off : nat) (o : Res unit) : Prop :=
  match o with Ok _ => True | Err e => points c off e | _ => False end.

Lemma answers_bind c off (o o' : Res unit) :
  answers_at c off o → (o = Ok tt → answers_at c off o') → answers_at c off (let? _ := o in o').
Proof. destruct o as [[]| | |]; simpl; auto. Qed.
Lemma answers_mono c off c' off' o : (∀ e, points c off e → points c' off' e) → answers_at c off o → answers_at c' off' o.
Proof. destruct o; simpl; auto. Qed.

Lemma component_answers c k P : ∀ off, answers_at c off (validate_component c off k P).
Proof.
  induction c as [|b c IH]; intros off; simpl; [done|]. destruct (P b); simpl.
  - eapply answers_mono, IH. intros e He. apply (points_suffix [b]). simpl. by rewrite Nat.add_1_r.
  - exists 0%nat. split; [lia|done].
Qed.

Lemma ascii_answers c : ∀ off, answers_at c off (validate_ascii_wire_bytes c off).
Proof.
  induction c as [|b c IH]; intros off; simpl; [done|]. destruct (128 <=? b) eqn:E1; [exists 0%nat; split; [lia|]; exists b; split; [done|lia]|].
  destruct (_ || _) eqn:E2; [exists 0%nat; split_and!; [lia|done|lia]|].
  eapply answers_mono, IH. intros e He. apply (points_suffix [b]). simpl. by rewrite Nat.add_1_r.
Qed.

Lemma triplets_answers c : ∀ off, answers_at c off (validate_percent_triplets c off).
Proof.
  remember (length c) as n eqn:Hn. revert c Hn. induction (lt_wf n) as [n _ IH]; intros c -> off.
  destruct c as [|b c]; simpl; [done|]. destruct (Z.eqb_spec b 37) as [->|Hb]; simpl.
  - assert (Herr : ∀ r, answers_at (37 :: r) off (Err (InvalidPercentEncoding off))) by (intros r; exists 0%nat; split; [lia|done]).
    destruct c as [|h [|l c]]; [apply Herr..|]. destruct (_ || _); [apply Herr|].
    eapply answers_mono, (IH (length c) ltac:(simpl; lia) c eq_refl). intros e. apply (points_suffix [37; h; l]).
  - eapply answers_mono, (IH (length c) ltac:(simpl; lia) c eq_refl). intros e He. apply (points_suffix [b]). simpl. by rewrite Nat.add_1_r.
Qed.

Lemma ip_literal_answers ip off : answers_at (91 :: ip) off (validate_ip_literal ip off).
Proof.
  unfold validate_ip_literal. destruct (find 93 ip) as [close|] eqn:Ef; [|exists 0%nat; split; [lia|done]].
  apply TemplateParse.position_found in Ef as (r & Hip & _ & Hl). destruct (is_valid_ip_literal _); [|exists 1%nat; split; [lia|by exists 0%nat]].
  simpl. set (t := take close ip) in *. clearbody t. subst ip close.
  assert (drop (length t + 1) (t ++ 93 :: r) = r) as -> by (rewrite <- drop_drop, drop_app_length; done).
  destruct r as [|c r]; [done|].
  assert (Hlook : ∀ j, (91 :: t ++ 93 :: c :: r) !! (S (length t) + j)%nat = (93 :: c :: r) !! j).
  { intros j. simpl. rewrite lookup_app_r by lia. f_equal. lia. }
  destruct (Z.eqb_spec c 58) as [->|Hc]; simpl.
  - eapply answers_mono, component_answers. intros e He. change (91 :: t ++ 93 :: 58 :: r) with ((91 :: t) ++ [93; 58] ++ r).
    rewrite app_assoc. apply points_suffix. rewrite length_app. simpl. by replace (off + S (length t + 2))%nat with (off + length t + 3)%nat by lia.
  - exists (S (length t) + 1)%nat. split; [lia|]. exists (S (length t) + 0)%nat, c. rewrite !Hlook. split_and!; [lia|done|done|done].
Qed.

Lemma host_port_answers hp off : answers_at hp off (validate_host_port hp off).
Proof.
  unfold validate_host_port. destruct (Template.split_once 58 hp) as [[h p]|] eqn:Es; [|apply component_answers].
  apply TemplateParse.split_once_Some in Es as [-> _]. destruct (find 58 p) as [i|] eqn:Ep.
  - apply TemplateParse.position_found in Ep as (r & Hp & _ & Hl). exists (length h + 1 + i)%nat. split; [lia|]. simpl.
    replace (length h + 1 + i)%nat with (length h + S i)%nat by lia. rewrite lookup_app_r by lia.
    replace (length h + S i - length h)%nat with (S i) by lia. simpl. rewrite Hp, lookup_app_r by lia. by rewrite Hl, Nat.sub_diag.
  - apply answers_bind; [|intros _].
    + eapply answers_mono, component_answers. intros e. apply points_prefix.
    + eapply answers_mono, component_answers. intros e He. replace (h ++ 58 :: p) with ((h ++ [58]) ++ p) by by rewrite <- app_assoc.
      apply points_suffix. rewrite length_app. simpl. by rewrite Nat.add_assoc.
Qed.

Lemma authority_answers a off : answers_at a off (validate_authority a off).
Proof.
  unfold validate_authority.
  assert (Hhp : ∀ hp o, answers_at hp o match Template.strip_prefix [91] hp with
    | Some ip => validate_ip_literal ip o | None => validate_host_port hp o end).
  { intros hp o. rewrite strip_one. destruct hp as [|c r]; [apply host_port_answers|].
    destruct (Z.eqb_spec c 91) as [->|]; [apply ip_literal_answers|apply host_port_answers]. }
  destruct (find 64 a) as [i|] eqn:Ef; [|apply Hhp].
  apply TemplateParse.position_found in Ef as (hp & Ha & _ & Hl). set (x := take i a) in *. clearbody x. subst a i.
  assert (drop (length x + 1) (x ++ 64 :: hp) = hp) as -> by (rewrite <- drop_drop, drop_app_length; done).
  destruct (find 64 hp) as [j|] eqn:E2.
  - apply TemplateParse.position_found in E2 as (r & Hr & _ & Hl2). exists (length x + 1 + j)%nat. split; [lia|]. simpl.
    replace (length x + 1 + j)%nat with (length x + S j)%nat by lia. rewrite lookup_app_r by lia.
    replace (length x + S j - length x)%nat with (S j) by lia. simpl. rewrite Hr, lookup_app_r by lia. by rewrite Hl2, Nat.sub_diag.
  - pose proof (component_answers x Userinfo is_userinfo_byte off) as Hx.
    destruct (validate_component x off Userinfo is_userinfo_byte) as [[]|e| |]; [|by apply points_prefix|done..]. cbn [obind].
    eapply answers_mono, Hhp. intros e He. replace (x ++ 64 :: hp) with ((x ++ [64]) ++ hp) by by rewrite <- app_assoc.
    apply points_suffix. rewrite length_app. simpl. by rewrite Nat.add_assoc.
Qed.

Lemma hier_answers h off : answers_at h off (check_hier h off).
Proof.
  unfold check_hier, check_path. destruct (slashes_cases h) as [(after & -> & ->)|[_ ->]]; [|apply component_answers].
  destruct (find_default 47 after) as (a & p & -> & -> & _ & _). rewrite take_app_length, drop_app_length. apply answers_bind; [|intros _].
  - eapply answers_mono, authority_answers. intros e. apply (points_app [47; 47] a p).
  - eapply answers_mono, component_answers. intros e He. apply (points_suffix (47 :: 47 :: a) p). simpl.
    by replace (off + S (S (length a)))%nat with (off + 2 + length a)%nat by lia.
Qed.
(** * Admission *)

Lemma ascii_iff c : ∀ off, validate_ascii_wire_bytes c off = Ok tt ↔ Forall printable c.
Proof.
  unfold printable. induction c as [|b c IH]; intros off; simpl; [split; [constructor|done]|]. rewrite Forall_cons.
  destruct (128 <=? b) eqn:E1; [split; [done|lia]|]. destruct (_ || _) eqn:E2; [split; [done|lia]|]. rewrite IH.
  split; [intros ?; split; [lia|done]|tauto].
Qed.

Lemma scheme_iff s r : validate_scheme (s ++ r) (length s) = Ok tt ↔ scheme_text s.
Proof.
  unfold validate_scheme, scheme_text. rewrite take_app_length. destruct s as [|b s]; [split; [done|naive_solver]|].
  destruct (is_ascii_alphabetic b) eqn:Eb; simpl.
  - rewrite component_iff. split; [naive_solver|]. by intros (? & ? & [= <- <-] & _ & ?).
  - split; [done|]. intros (? & ? & [= <- <-] & ? & _). congruence.
Qed.

Lemma scheme_answers s r : answers_at s 0 (validate_scheme (s ++ r) (length s)) ∨ s = [] ∧ validate_scheme (s ++ r) (length s) = Err EmptyScheme.
Proof.
  unfold validate_scheme. rewrite take_app_length. destruct s as [|b s]; [by right|left].
  destruct (is_ascii_alphabetic b); simpl; [|by exists 0%nat].
  eapply answers_mono, component_answers. intros e He. by apply (points_suffix [b] s 0).
Qed.

Lemma alpha_reg b : is_ascii_alphabetic b = true → reg_char b = true.
Proof.
  intros H. apply scheme_byte_reg. unfold is_scheme_byte, is_ascii_alphanumeric, Raw.is_ascii_alphanumeric.
  unfold is_ascii_alphabetic in H. apply orb_true_iff in H as [H|H]; rewrite H; by rewrite ?orb_true_r.
Qed.

Lemma scheme_reg s : scheme_text s → Forall (λ b, reg_char b = true) s.
Proof.
  intros (b & r & -> & Hb & Hr). constructor; [by apply alpha_reg|]. revert Hr. apply Forall_class, scheme_byte_reg.
Qed.

Definition hier_byte (b : Z) : bool := authority_byte b || (b =? 47).

Lemma path_hier p : pct path_char p → Forall (λ b, hier_byte b = true) p ∧ triplets p.
Proof.
  intros Hp. split; [|by eapply pct_triplets, Hp; apply hexed_path]. apply pct_iff in Hp as [Hp _]; [|apply hexed_path].
  revert Hp. apply Forall_class. intros b. unfold path_char, hier_byte, authority_byte. rewrite !orb_true_iff. tauto.
Qed.

Lemma hier_facts h : hier_text h → Forall (λ b, hier_byte b = true) h ∧ triplets h.
Proof.
  assert (Hroot : ∀ p, path_rootless p → pct path_char p) by (intros p Hp; by apply rootless_iff in Hp as [? _]).
  intros [a p [Ha Hta]%authority_facts [Hp Htp]%abempty_path%path_hier|p Hp|p Hp|].
  - split; [|apply pct_char; [done|]; apply pct_char; [done|]; by apply pct_app].
    repeat (constructor; [done|]). apply Forall_app. split; [|done]. revert Ha. apply Forall_class. intros b Hb. unfold hier_byte. by rewrite Hb.
  - apply path_hier, pct_char; [done|]. destruct Hp as [->|Hp]; [apply pct_nil|by apply Hroot].
  - apply path_hier. by apply Hroot.
  - split; [constructor|apply pct_nil].
Qed.

Lemma hier_byte_printable b : hier_byte b = true → printable b.
Proof.
  unfold hier_byte, authority_byte. rewrite !orb_true_iff, !Z.eqb_eq. unfold printable.
  intros [[[[H|H]|H]|H]|H]; try lia. apply pchar_query in H as [H _]. by apply query_char_printable in H as [H _].
Qed.

Lemma check_text_iff o start k : triplets (default [] o) → check_text o start k = Ok tt ↔ ∀ x, o = Some x → pct query_char x.
Proof.
  intros Ht. destruct o as [x|]; simpl in *; [|split; [done|done]].
  rewrite (component_pct x k query_char); [| |intros b|done].
  - split; [by intros H y [= <-]|by intros H; apply H].
  - apply hexed_classes.
  - unfold is_pchar, query_char, pchar, reg_char, one_of. destruct (is_unreserved b || is_sub_delim b); [done|]. cbn [orb].
    destruct (Z.eqb_spec b 58) as [->|]; [done|]. destruct (Z.eqb_spec b 64) as [->|]; [done|].
    destruct (Z.eqb_spec b 37) as [->|]; [done|]. destruct (Z.eqb_spec b 47) as [->|]; [done|].
    destruct (Z.eqb_spec b 63) as [->|]; [done|]. rewrite !bool_decide_false; [done|..]; cbn; rewrite !elem_of_cons, elem_of_nil; lia.
Qed.

Lemma query_facts o c : (c = 63 ∨ c = 35) → (∀ x, o = Some x → pct query_char x) →
  Forall printable (opt c o) ∧ triplets (opt c o) ∧ (c = 63 → 35 ∉ opt c o).
Proof.
  intros Hc Ho. destruct o as [x|]; [|split_and!; [constructor|apply pct_nil|intros _; apply not_elem_of_nil]].
  specialize (Ho x eq_refl). simpl. split_and!.
  - constructor; [unfold printable; lia|]. apply (pct_printable query_char); [apply hexed_classes| |done].
    intros b Hb. by apply query_char_printable.
  - apply pct_char; [by destruct Hc as [-> | ->]|]. apply (pct_triplets query_char); [apply hexed_classes|done].
  - intros ->. rewrite not_elem_of_cons. split; [done|]. apply (pct_avoids query_char); [apply hexed_classes|done|done|exact Ho].
Qed.

Lemma opt_nonhex c o r : (c = 63 ∨ c = 35) → head_not is_ascii_hexdigit r → head_not is_ascii_hexdigit (opt c o ++ r).
Proof. intros [-> | ->] Hr; by destruct o. Qed.

Lemma triplets_default c o : (c = 63 ∨ c = 35) → triplets (opt c o) → triplets (default [] o).
Proof. intros Hc. destruct o as [x|]; [|done]. intros H. inversion H; subst; [done|]. by destruct Hc. Qed.

(** All that is checked of an input cut at its delimiters *)
Definition checks (s h : list Z) (q f : option (list Z)) : Res unit :=
  let? _ := validate_ascii_wire_bytes (assembled s h q f) 0 in
  let? _ := validate_scheme (assembled s h q f) (length s) in
  let? _ := validate_percent_triplets (h ++ opt 63 q ++ opt 35 f) (hier_at s) in
  let? _ := check_hier h (hier_at s) in
  let? _ := check_text q (query_at s h + 1) Query in
  check_text f (fragment_at s h q + 1) Fragment.

Lemma checks_iff s h q f : checks s h q f = Ok tt ↔ uri s h q f (assembled s h q f).
Proof.
  assert (Hbind : ∀ o k : Res unit, (let? _ := o in k) = Ok tt ↔ o = Ok tt ∧ k = Ok tt).
  { intros [[]| | |] k; simpl; naive_solver. }
  unfold checks. rewrite !Hbind, ascii_iff, triplets_iff. unfold assembled at 2. rewrite scheme_iff.
  rewrite triplets_split by (apply opt_nonhex; [by left|]; rewrite <- (app_nil_r (opt 35 f)); apply opt_nonhex; [by right|done]).
  rewrite triplets_split by (rewrite <- (app_nil_r (opt 35 f)); apply opt_nonhex; [by right|done]). split.
  - intros (_ & Hs & (Hth & Htq & Htf) & Hh & Hq & Hf). split; [done|done|by apply hier_iff in Hh| |].
    + rewrite check_text_iff in Hq; [done|]. by eapply triplets_default, Htq; left.
    + rewrite check_text_iff in Hf; [done|]. by eapply triplets_default, Htf; right.
  - intros [_ Hs Hh Hq Hf]. destruct (query_facts q 63 (or_introl eq_refl) Hq) as (Hpq & Htq & _).
    destruct (query_facts f 35 (or_intror eq_refl) Hf) as (Hpf & Htf & _). destruct (hier_facts h Hh) as [Hph Hth]. split_and!; try done.
    + unfold assembled. apply Forall_app. split.
      * apply scheme_reg in Hs. eapply Forall_impl; [exact Hs|]. intros b Hb.
        apply reg_userinfo in Hb as [[[Hb _]%pchar_query _]%userinfo_pchar _]. by apply query_char_printable in Hb as [? _].
      * constructor; [by unfold printable|]. repeat (apply Forall_app; split); [|done..]. eapply Forall_impl; [exact Hph|]. apply hier_byte_printable.
    + by apply hier_iff.
    + apply check_text_iff; [by eapply triplets_default, Htq; left|done].
    + apply check_text_iff; [by eapply triplets_default, Htf; right|done].
Qed.

Lemma check_text_answers o c r start k : answers_at (opt c o ++ r) start (check_text o (start + 1) k).
Proof.
  destruct o as [x|]; simpl; [|done]. eapply answers_mono, component_answers. intros e. apply (points_app [c] x r).
Qed.

Lemma checks_answers s h q f : scheme_text s → answers_at (assembled s h q f) 0 (checks s h q f).
Proof.
  intros Hs. unfold checks. repeat (apply answers_bind; [|intros _]).
  - apply ascii_answers.
  - unfold assembled. rewrite (proj2 (scheme_iff s _) Hs). done.
  - rewrite assembled_hier. eapply answers_mono, triplets_answers. intros e He. apply points_suffix.
    unfold hier_at in He. by rewrite length_app.
  - rewrite assembled_hier. eapply answers_mono, hier_answers. intros e He. apply points_app. unfold hier_at in He. by rewrite length_app.
  - replace (assembled s h q f) with ((s ++ 58 :: h) ++ opt 63 q ++ opt 35 f) by (unfold assembled; by rewrite <- !app_assoc).
    eapply answers_mono, (check_text_answers q 63 (opt 35 f)). intros e He. apply points_suffix. rewrite length_app. simpl.
    unfold query_at in He. by replace (length s + S (length h))%nat with (length s + 1 + length h)%nat by lia.
  - rewrite assembled_fragment. eapply answers_mono, (check_text_answers f 35 []). intros e He. rewrite app_nil_r in He.
    apply points_suffix. by rewrite length_front.
Qed.

Lemma cut c s : ∃ a o, s = a ++ opt c o ∧ c ∉ a.
Proof.
  destruct (find_default c s) as (a & b & -> & _ & Hn & [->|Hb]); [by exists a, None|]. destruct b as [|x b]; [done|].
  injection Hb as ->. by exists a, (Some b).
Qed.

(** What an error says of the input *)
Definition error_means (input : list Z) (max : Z) (e : AbsoluteUriError) : Prop :=
  match e with
  | LimitExceedsHardCeiling m hard => m = max ∧ hard = ABSOLUTE_URI_HARD_MAX_BYTES ∧ hard < m
  | TooLong n m => n = zlen input ∧ m = max ∧ m < n
  | Empty => input = []
  | MissingScheme => 58 ∉ input
  | EmptyScheme => head input = Some 58
  | _ => points input 0 e
  end.

Lemma points_means input max e : points input 0 e → error_means input max e.
Proof. intros H. destruct e; try done; by destruct H as [? []]. Qed.

(** A scheme has no delimiter in it. *)
Lemma scheme_avoids s : scheme_text s → 58 ∉ s ∧ 35 ∉ s ∧ 63 ∉ s.
Proof. intros Hs%scheme_reg. split_and!; by eapply not_in_class. Qed.

Lemma hier_avoids h : hier_text h → 63 ∉ h ∧ 35 ∉ h.
Proof. intros [Hh _]%hier_facts. split; by eapply not_in_class. Qed.

Lemma parse_checks s h q f max :
  scheme_text s → 63 ∉ h → 35 ∉ h → 35 ∉ opt 63 q → max <= ABSOLUTE_URI_HARD_MAX_BYTES → zlen (assembled s h q f) <= max →
  parse_with_max_bytes (assembled s h q f) max = (let? _ := checks s h q f in Ok (parsed s h q f)).
Proof.
  intros Hs H63 H35 Hq Hmax Hlen. destruct (scheme_avoids s Hs) as (? & ? & ?). rewrite parse_pieces by done. unfold checks.
  destruct (validate_ascii_wire_bytes _ _); [|done..]. destruct (validate_scheme _ _); [|done..].
  destruct (validate_percent_triplets _ _); [|done..]. destruct (check_hier _ _); [|done..].
  destruct (check_text q _ _); [|done..]. by destruct (check_text f _ _).
Qed.

(** An input is refused, or it is cut at its delimiters. *)
Lemma parse_cases input max :
  (∃ e, parse_with_max_bytes input max = Err e ∧ error_means input max e) ∨
  zlen input <= max <= ABSOLUTE_URI_HARD_MAX_BYTES ∧
  ∃ s h q f, input = assembled s h q f ∧ scheme_text s ∧ 63 ∉ h ∧ 35 ∉ h ∧ 35 ∉ opt 63 q.
Proof.
  unfold parse_with_max_bytes.
  destruct (_ <? max) eqn:E1; [left; eexists; split; [done|]; split_and!; [done|done|lia]|].
  destruct (max <? _) eqn:E2; [left; eexists; split; [done|]; split_and!; [done|done|lia]|].
  case_bool_decide as E3; [left; by eexists|]. pose proof (ascii_answers input 0) as Ha.
  destruct (validate_ascii_wire_bytes input 0) as [[]|e| |]; [|left; exists e; split; [done|by apply points_means]|done..].
  cbn [obind]. destruct (find 58 input) as [i|] eqn:Ef; [|left; eexists; split; [done|by apply TemplateParse.position_absent]].
  apply TemplateParse.position_found in Ef as (r & Hin & _ & Hl). set (s := take i input) in *. clearbody s. subst i input.
  destruct (scheme_answers s (58 :: r)) as [Hs|[-> Hs]]; [|left; rewrite Hs; by eexists].
  destruct (validate_scheme (s ++ 58 :: r) (length s)) as [[]|e| |] eqn:Es; [|..|done|done].
  2:{ left. exists e. split; [done|]. apply points_means. by apply points_prefix. }
  apply scheme_iff in Es. right. split; [lia|]. destruct (cut 35 r) as (front & f & -> & H35).
  destruct (cut 63 front) as (h & q & -> & H63). apply not_elem_of_app in H35 as [Hh35 Hq35].
  exists s, h, q, f. split_and!; try done. unfold assembled. by rewrite <- app_assoc.
Qed.

Lemma parse_outcome input max :
  (∃ u, parse_with_max_bytes input max = Ok u ∧ original u = input ∧ zlen input <= max <= ABSOLUTE_URI_HARD_MAX_BYTES ∧
     uri (scheme u) (hier_part u) (query u) (fragment u) input) ∨
  ∃ e, parse_with_max_bytes input max = Err e ∧ error_means input max e.
Proof.
  destruct (parse_cases input max) as [He|([Hlen Hmax] & s & h & q & f & -> & Hs & H63 & H35 & Hq)]; [by right|].
  rewrite (parse_checks s h q f max) by done. pose proof (checks_answers s h q f Hs) as Hc.
  destruct (checks s h q f) as [[]|e| |] eqn:Ec; [left|right|done|done]; cbn [obind].
  - exists (parsed s h q f). destruct (parsed_views s h q f Hq) as (-> & -> & -> & ->). repeat (split; [done|]). by apply checks_iff.
  - exists e. split; [done|by apply points_means].
Qed.

(** C27: admission of an absolute URI always ends with an answer.  It accepts exactly
    the URIs of RFC 3986 (with a scheme) that are within the limit, and the
    components of the result are those of the one way the grammar has to read the
    input, with an empty query or fragment told from an absent one.  An error says
    what is wrong with the input, and its index is that of the byte it names. *)
Theorem absolute_uri_exact input max :
  (∀ s h q f, uri s h q f input ∧ max <= ABSOLUTE_URI_HARD_MAX_BYTES ∧ zlen input <= max ↔
    ∃ u, parse_with_max_bytes input max = Ok u ∧ original u = input ∧ scheme u = s ∧ hier_part u = h ∧ query u = q ∧ fragment u = f) ∧
  ((∃ u, parse_with_max_bytes input max = Ok u) ∨ ∃ e, parse_with_max_bytes input max = Err e ∧ error_means input max e).
Proof.
  split.
  - intros s h q f. split.
    + intros ([-> Hs Hh Hq Hf] & Hmax & Hlen). fold (assembled s h q f) in *. exists (parsed s h q f).
      destruct (hier_avoids h Hh) as [? ?]. destruct (query_facts q 63 (or_introl eq_refl) Hq) as (_ & _ & Hq35).
      rewrite parse_checks by auto. rewrite (proj2 (checks_iff s h q f)) by done.
      destruct (parsed_views s h q f (Hq35 eq_refl)) as (-> & -> & -> & ->). done.
    + intros (u & Hp & Ho & <- & <- & <- & <-). destruct (parse_outcome input max) as [(u' & Hp' & _ & Hl & Hu)|(e & He & _)]; [|congruence].
      rewrite Hp in Hp'. injection Hp' as <-. split; [done|lia].
  - destruct (parse_outcome input max) as [(u & Hp & _)|He]; [left; by exists u|by right].
Qed.

(** Runs: every kind of component and of error *)
Example uris_read :
  (λ s, match parse (chars_of s) with Ok u => Some (query_state u, fragment_state u, hier_part u) | _ => None end) <$>
    ["urn:isbn:0451450523"; "http://u:p@[::ffff:1.2.3.4]:80/a%20b?q#"; "x:?"; "x://[v7.a:b]"; "x:/"]%string
  = [Some (Absent, Absent, chars_of "isbn:0451450523");
     Some (NonEmpty (chars_of "q"), EmptyComponent, chars_of "//u:p@[::ffff:1.2.3.4]:80/a%20b");
     Some (EmptyComponent, Absent, []); Some (Absent, Absent, chars_of "//[v7.a:b]"); Some (Absent, Absent, chars_of "/")].
Proof. vm_compute. reflexivity. Qed.

Example uris_refused :
  parse ∘ chars_of <$>
    [""; "a b:c"; "abc"; ":x"; "1a:x"; "a:%4g"; "a://b@c@d"; "a://[::1"; "a://[1:2]"; "a://[::1]x"; "a://b:c:d"; "a://b:8x"; "a:[]"]%string
  = [Err Empty; Err (ControlOrSpace 1 32); Err MissingScheme; Err EmptyScheme; Err (InvalidCharacter Scheme 0 49);
     Err (InvalidPercentEncoding 2); Err (InvalidAuthority 7 MultipleAtSigns); Err (InvalidAuthority 4 MissingIpLiteralBracket);
     Err (InvalidAuthority 5 InvalidIpLiteral); Err (InvalidAuthority 9 InvalidIpLiteralSuffix);
     Err (InvalidAuthority 7 UnbracketedColon); Err (InvalidCharacter Port 7 120); Err (InvalidCharacter Path 2 91)].
Proof. vm_compute. reflexivity. Qed.
End UriTheorems.
