(* ===== verification/CoreLimits.v ===== *)
(** Protocol limits, admission accounting and exchange budgets: the module
    [limits] of [crates/fastmcp-core/src/lib.rs].

    Durations and instants are nanoseconds.  A string is the list of its
    characters.  What [McpContext] reports at a check, the time and whether it
    is live, is a [Probe] of the caller.  Each operation on a controller or a
    budget holds its mutex from the first read to the last write, so operations
    on clones are sequences of whole operations. *)
From stdpp Require Import base list gmap strings.
From Stdlib Require Import ZArith Lia.
From S2P Require Import Prelude Utf8 RequestId RateLimit.

Module Limits.

Definition u16_max : Z := 2 ^ 16 - 1.
(** [u16::checked_add]; [checked_add] is that of [usize] and [u64]. *)
Definition checked_add16 (a b : Z) : option Z := if a + b <=? u16_max then Some (a + b) else None.

(** * The catalog of limits *)

Definition NANOS_PER_SECOND : Z := 1000000000.
Definition DEFAULT_LOGICAL_EXCHANGE_MAX_ROUNDS : Z := 8.
Definition HARD_LOGICAL_EXCHANGE_MAX_ROUNDS : Z := 32.
Definition DEFAULT_LOGICAL_EXCHANGE_MAX_INPUTS_PER_ROUND : Z := 32.
Definition HARD_LOGICAL_EXCHANGE_MAX_INPUTS_PER_ROUND : Z := 128.
Definition DEFAULT_LOGICAL_EXCHANGE_MAX_INPUTS : Z := 128.
Definition HARD_LOGICAL_EXCHANGE_MAX_INPUTS : Z := 512.
Definition DEFAULT_LOGICAL_EXCHANGE_MAX_STATE_BYTES : Z := 64 * 1024.
Definition HARD_LOGICAL_EXCHANGE_MAX_STATE_BYTES : Z := 256 * 1024.
Definition DEFAULT_LOGICAL_EXCHANGE_MAX_WALL_CLOCK : Z := 15 * 60 * NANOS_PER_SECOND.
Definition HARD_LOGICAL_EXCHANGE_MAX_WALL_CLOCK : Z := 60 * 60 * NANOS_PER_SECOND.
Definition DEFAULT_JSON_RPC_MAX_BODY_BYTES : Z := 8 * 1024 * 1024.
Definition HARD_JSON_RPC_MAX_BODY_BYTES : Z := 32 * 1024 * 1024.
Definition DEFAULT_METADATA_MAX_ENTRIES : Z := 256.
Definition HARD_METADATA_MAX_ENTRIES : Z := 1024.
Definition DEFAULT_METADATA_MAX_BYTES : Z := 256 * 1024.
Definition HARD_METADATA_MAX_BYTES : Z := 1024 * 1024.
Definition DEFAULT_URI_MAX_BYTES : Z := 16 * 1024.
Definition HARD_URI_MAX_BYTES : Z := 64 * 1024.
Definition DEFAULT_CANCELLATION_REASON_MAX_BYTES : Z := 4 * 1024.
Definition HARD_CANCELLATION_REASON_MAX_BYTES : Z := 64 * 1024.
Definition DEFAULT_CURSOR_MAX_BYTES : Z := 4 * 1024.
Definition HARD_CURSOR_MAX_BYTES : Z := 64 * 1024.
Definition PROTOCOL_LIMITS_INITIAL_GENERATION : Z := 1.

Inductive ProtocolLimit : Type :=
| LogicalExchangeRounds
| LogicalExchangeInputsPerRound
| LogicalExchangeInputs
| LogicalExchangeStateBytes
| LogicalExchangeWallClock
| JsonRpcBodyBytes
| MetadataEntries
| MetadataBytes
| UriBytes
| CancellationReasonBytes
| CursorBytes.

Inductive ProtocolLimitsError : Type :=
| Zero (limit : ProtocolLimit)
| ExceedsHardCeiling (limit : ProtocolLimit)
| InputsPerRoundExceedExchangeTotal (per_round total : Z)
| ChargeExceedsLimit (limit : ProtocolLimit) (requested ceiling : Z)
| ChargeOverflow (limit : ProtocolLimit)
| NotCountable (limit : ProtocolLimit).

Record ProtocolLimits : Type := {
  generation : Z;
  rounds : Z;
  inputs_per_round : Z;
  inputs : Z;
  state_bytes : Z;
  wall_clock : Z;
  json_rpc_body_bytes : Z;
  metadata_entries : Z;
  metadata_bytes : Z;
  uri_bytes : Z;
  cancellation_reason_bytes : Z;
  cursor_bytes : Z }.

Module Builder.

Record ProtocolLimitsBuilder : Type := MkBuilder {
  b_rounds : Z;
  b_inputs_per_round : Z;
  b_inputs : Z;
  b_state_bytes : Z;
  b_wall_clock : Z;
  b_json_rpc_body_bytes : Z;
  b_metadata_entries : Z;
  b_metadata_bytes : Z;
  b_uri_bytes : Z;
  b_cancellation_reason_bytes : Z;
  b_cursor_bytes : Z }.

Definition builder : ProtocolLimitsBuilder :=
  {| b_rounds := DEFAULT_LOGICAL_EXCHANGE_MAX_ROUNDS;
     b_inputs_per_round := DEFAULT_LOGICAL_EXCHANGE_MAX_INPUTS_PER_ROUND;
     b_inputs := DEFAULT_LOGICAL_EXCHANGE_MAX_INPUTS;
     b_state_bytes := DEFAULT_LOGICAL_EXCHANGE_MAX_STATE_BYTES;
     b_wall_clock := DEFAULT_LOGICAL_EXCHANGE_MAX_WALL_CLOCK;
     b_json_rpc_body_bytes := DEFAULT_JSON_RPC_MAX_BODY_BYTES;
     b_metadata_entries := DEFAULT_METADATA_MAX_ENTRIES;
     b_metadata_bytes := DEFAULT_METADATA_MAX_BYTES;
     b_uri_bytes := DEFAULT_URI_MAX_BYTES;
     b_cancellation_reason_bytes := DEFAULT_CANCELLATION_REASON_MAX_BYTES;
     b_cursor_bytes := DEFAULT_CURSOR_MAX_BYTES |}.

Section setters.
Context (v : Z) (b : ProtocolLimitsBuilder).
Local Abbreviation keep f := (f b) (only parsing).

Definition logical_exchange_max_rounds : ProtocolLimitsBuilder :=
  MkBuilder v (keep b_inputs_per_round) (keep b_inputs) (keep b_state_bytes) (keep b_wall_clock)
    (keep b_json_rpc_body_bytes) (keep b_metadata_entries) (keep b_metadata_bytes) (keep b_uri_bytes)
    (keep b_cancellation_reason_bytes) (keep b_cursor_bytes).
Definition logical_exchange_max_inputs_per_round : ProtocolLimitsBuilder :=
  MkBuilder (keep b_rounds) v (keep b_inputs) (keep b_state_bytes) (keep b_wall_clock)
    (keep b_json_rpc_body_bytes) (keep b_metadata_entries) (keep b_metadata_bytes) (keep b_uri_bytes)
    (keep b_cancellation_reason_bytes) (keep b_cursor_bytes).
Definition logical_exchange_max_inputs : ProtocolLimitsBuilder :=
  MkBuilder (keep b_rounds) (keep b_inputs_per_round) v (keep b_state_bytes) (keep b_wall_clock)
    (keep b_json_rpc_body_bytes) (keep b_metadata_entries) (keep b_metadata_bytes) (keep b_uri_bytes)
    (keep b_cancellation_reason_bytes) (keep b_cursor_bytes).
Definition logical_exchange_max_state_bytes : ProtocolLimitsBuilder :=
  MkBuilder (keep b_rounds) (keep b_inputs_per_round) (keep b_inputs) v (keep b_wall_clock)
    (keep b_json_rpc_body_bytes) (keep b_metadata_entries) (keep b_metadata_bytes) (keep b_uri_bytes)
    (keep b_cancellation_reason_bytes) (keep b_cursor_bytes).
Definition logical_exchange_max_wall_clock : ProtocolLimitsBuilder :=
  MkBuilder (keep b_rounds) (keep b_inputs_per_round) (keep b_inputs) (keep b_state_bytes) v
    (keep b_json_rpc_body_bytes) (keep b_metadata_entries) (keep b_metadata_bytes) (keep b_uri_bytes)
    (keep b_cancellation_reason_bytes) (keep b_cursor_bytes).
Definition json_rpc_max_body_bytes : ProtocolLimitsBuilder :=
  MkBuilder (keep b_rounds) (keep b_inputs_per_round) (keep b_inputs) (keep b_state_bytes) (keep b_wall_clock)
    v (keep b_metadata_entries) (keep b_metadata_bytes) (keep b_uri_bytes)
    (keep b_cancellation_reason_bytes) (keep b_cursor_bytes).
Definition metadata_max_entries : ProtocolLimitsBuilder :=
  MkBuilder (keep b_rounds) (keep b_inputs_per_round) (keep b_inputs) (keep b_state_bytes) (keep b_wall_clock)
    (keep b_json_rpc_body_bytes) v (keep b_metadata_bytes) (keep b_uri_bytes)
    (keep b_cancellation_reason_bytes) (keep b_cursor_bytes).
Definition metadata_max_bytes : ProtocolLimitsBuilder :=
  MkBuilder (keep b_rounds) (keep b_inputs_per_round) (keep b_inputs) (keep b_state_bytes) (keep b_wall_clock)
    (keep b_json_rpc_body_bytes) (keep b_metadata_entries) v (keep b_uri_bytes)
    (keep b_cancellation_reason_bytes) (keep b_cursor_bytes).
Definition uri_max_bytes : ProtocolLimitsBuilder :=
  MkBuilder (keep b_rounds) (keep b_inputs_per_round) (keep b_inputs) (keep b_state_bytes) (keep b_wall_clock)
    (keep b_json_rpc_body_bytes) (keep b_metadata_entries) (keep b_metadata_bytes) v
    (keep b_cancellation_reason_bytes) (keep b_cursor_bytes).
Definition cancellation_reason_max_bytes : ProtocolLimitsBuilder :=
  MkBuilder (keep b_rounds) (keep b_inputs_per_round) (keep b_inputs) (keep b_state_bytes) (keep b_wall_clock)
    (keep b_json_rpc_body_bytes) (keep b_metadata_entries) (keep b_metadata_bytes) (keep b_uri_bytes)
    v (keep b_cursor_bytes).
Definition cursor_max_bytes : ProtocolLimitsBuilder :=
  MkBuilder (keep b_rounds) (keep b_inputs_per_round) (keep b_inputs) (keep b_state_bytes) (keep b_wall_clock)
    (keep b_json_rpc_body_bytes) (keep b_metadata_entries) (keep b_metadata_bytes) (keep b_uri_bytes)
    (keep b_cancellation_reason_bytes) v.
End setters.

(** The validations of [u16] and [usize] values are the same on numbers. *)
Definition validate_positive_u16 (value : Z) (limit : ProtocolLimit) : outcome ProtocolLimitsError unit :=
  if value =? 0 then Err (Zero limit) else Ok tt.
Definition validate_u16_ceiling (value hard_ceiling : Z) (limit : ProtocolLimit) : outcome ProtocolLimitsError unit :=
  if hard_ceiling <? value then Err (ExceedsHardCeiling limit) else Ok tt.
Definition validate_positive_usize (value : Z) (limit : ProtocolLimit) : outcome ProtocolLimitsError unit :=
  if value =? 0 then Err (Zero limit) else Ok tt.
Definition validate_usize_ceiling (value hard_ceiling : Z) (limit : ProtocolLimit) : outcome ProtocolLimitsError unit :=
  if hard_ceiling <? value then Err (ExceedsHardCeiling limit) else Ok tt.

Definition build (b : ProtocolLimitsBuilder) : outcome ProtocolLimitsError ProtocolLimits :=
  let? _ := validate_positive_u16 (b_rounds b) LogicalExchangeRounds in
  let? _ := validate_u16_ceiling (b_rounds b) HARD_LOGICAL_EXCHANGE_MAX_ROUNDS LogicalExchangeRounds in
  let? _ := validate_positive_u16 (b_inputs_per_round b) LogicalExchangeInputsPerRound in
  let? _ := validate_u16_ceiling (b_inputs_per_round b) HARD_LOGICAL_EXCHANGE_MAX_INPUTS_PER_ROUND
              LogicalExchangeInputsPerRound in
  let? _ := validate_positive_u16 (b_inputs b) LogicalExchangeInputs in
  let? _ := validate_u16_ceiling (b_inputs b) HARD_LOGICAL_EXCHANGE_MAX_INPUTS LogicalExchangeInputs in
  if b_inputs b <? b_inputs_per_round b then
    Err (InputsPerRoundExceedExchangeTotal (b_inputs_per_round b) (b_inputs b))
  else if b_state_bytes b =? 0 then Err (Zero LogicalExchangeStateBytes)
  else if HARD_LOGICAL_EXCHANGE_MAX_STATE_BYTES <? b_state_bytes b then
    Err (ExceedsHardCeiling LogicalExchangeStateBytes)
  else if b_wall_clock b =? 0 then Err (Zero LogicalExchangeWallClock)
  else if HARD_LOGICAL_EXCHANGE_MAX_WALL_CLOCK <? b_wall_clock b then
    Err (ExceedsHardCeiling LogicalExchangeWallClock)
  else
    let? _ := validate_positive_usize (b_json_rpc_body_bytes b) JsonRpcBodyBytes in
    let? _ := validate_usize_ceiling (b_json_rpc_body_bytes b) HARD_JSON_RPC_MAX_BODY_BYTES JsonRpcBodyBytes in
    let? _ := validate_positive_u16 (b_metadata_entries b) MetadataEntries in
    let? _ := validate_u16_ceiling (b_metadata_entries b) HARD_METADATA_MAX_ENTRIES MetadataEntries in
    let? _ := validate_positive_usize (b_metadata_bytes b) MetadataBytes in
    let? _ := validate_usize_ceiling (b_metadata_bytes b) HARD_METADATA_MAX_BYTES MetadataBytes in
    let? _ := validate_positive_usize (b_uri_bytes b) UriBytes in
    let? _ := validate_usize_ceiling (b_uri_bytes b) HARD_URI_MAX_BYTES UriBytes in
    let? _ := validate_positive_usize (b_cancellation_reason_bytes b) CancellationReasonBytes in
    let? _ := validate_usize_ceiling (b_cancellation_reason_bytes b) HARD_CANCELLATION_REASON_MAX_BYTES
                CancellationReasonBytes in
    let? _ := validate_positive_usize (b_cursor_bytes b) CursorBytes in
    let? _ := validate_usize_ceiling (b_cursor_bytes b) HARD_CURSOR_MAX_BYTES CursorBytes in
    Ok {| generation := PROTOCOL_LIMITS_INITIAL_GENERATION;
          rounds := b_rounds b;
          inputs_per_round := b_inputs_per_round b;
          inputs := b_inputs b;
          state_bytes := b_state_bytes b;
          wall_clock := b_wall_clock b;
          json_rpc_body_bytes := b_json_rpc_body_bytes b;
          metadata_entries := b_metadata_entries b;
          metadata_bytes := b_metadata_bytes b;
          uri_bytes := b_uri_bytes b;
          cancellation_reason_bytes := b_cancellation_reason_bytes b;
          cursor_bytes := b_cursor_bytes b |}.

End Builder.
Import Builder.

Definition try_new (body entries metadata uri reason cursor : Z) : outcome ProtocolLimitsError ProtocolLimits :=
  build (cursor_max_bytes cursor (cancellation_reason_max_bytes reason (uri_max_bytes uri
    (metadata_max_bytes metadata (metadata_max_entries entries (json_rpc_max_body_bytes body builder)))))).

Definition validate (l : ProtocolLimits) : outcome ProtocolLimitsError unit :=
  let? _ :=
    build (cursor_max_bytes (cursor_bytes l) (cancellation_reason_max_bytes (cancellation_reason_bytes l)
      (uri_max_bytes (uri_bytes l) (metadata_max_bytes (metadata_bytes l) (metadata_max_entries (metadata_entries l)
      (json_rpc_max_body_bytes (json_rpc_body_bytes l) (logical_exchange_max_wall_clock (wall_clock l)
      (logical_exchange_max_state_bytes (state_bytes l) (logical_exchange_max_inputs (inputs l)
      (logical_exchange_max_inputs_per_round (inputs_per_round l)
      (logical_exchange_max_rounds (rounds l) builder))))))))))) in
  Ok tt.

Definition hard_ceiling (limit : ProtocolLimit) : outcome ProtocolLimitsError Z :=
  match limit with
  | LogicalExchangeRounds => Ok HARD_LOGICAL_EXCHANGE_MAX_ROUNDS
  | LogicalExchangeInputsPerRound => Ok HARD_LOGICAL_EXCHANGE_MAX_INPUTS_PER_ROUND
  | LogicalExchangeInputs => Ok HARD_LOGICAL_EXCHANGE_MAX_INPUTS
  | LogicalExchangeStateBytes => Ok HARD_LOGICAL_EXCHANGE_MAX_STATE_BYTES
  | LogicalExchangeWallClock => Err (NotCountable limit)
  | JsonRpcBodyBytes => Ok HARD_JSON_RPC_MAX_BODY_BYTES
  | MetadataEntries => Ok HARD_METADATA_MAX_ENTRIES
  | MetadataBytes => Ok HARD_METADATA_MAX_BYTES
  | UriBytes => Ok HARD_URI_MAX_BYTES
  | CancellationReasonBytes => Ok HARD_CANCELLATION_REASON_MAX_BYTES
  | CursorBytes => Ok HARD_CURSOR_MAX_BYTES
  end.

Definition configured_units (l : ProtocolLimits) (limit : ProtocolLimit) : outcome ProtocolLimitsError Z :=
  match limit with
  | LogicalExchangeRounds => Ok (rounds l)
  | LogicalExchangeInputsPerRound => Ok (inputs_per_round l)
  | LogicalExchangeInputs => Ok (inputs l)
  | LogicalExchangeStateBytes => Ok (state_bytes l)
  | LogicalExchangeWallClock => Err (NotCountable limit)
  | JsonRpcBodyBytes => Ok (json_rpc_body_bytes l)
  | MetadataEntries => Ok (metadata_entries l)
  | MetadataBytes => Ok (metadata_bytes l)
  | UriBytes => Ok (uri_bytes l)
  | CancellationReasonBytes => Ok (cancellation_reason_bytes l)
  | CursorBytes => Ok (cursor_bytes l)
  end.

Definition try_charge (l : ProtocolLimits) (limit : ProtocolLimit) (current additional : Z)
    : outcome ProtocolLimitsError Z :=
  let? ceiling := configured_units l limit in
  match checked_add current additional with
  | None => Err (ChargeOverflow limit)
  | Some requested => if ceiling <? requested then Err (ChargeExceedsLimit limit requested ceiling) else Ok requested
  end.

Definition meet (a b : ProtocolLimits) : ProtocolLimits :=
  {| generation := Z.min (generation a) (generation b);
     rounds := Z.min (rounds a) (rounds b);
     inputs_per_round := Z.min (inputs_per_round a) (inputs_per_round b);
     inputs := Z.min (inputs a) (inputs b);
     state_bytes := Z.min (state_bytes a) (state_bytes b);
     wall_clock := Z.min (wall_clock a) (wall_clock b);
     json_rpc_body_bytes := Z.min (json_rpc_body_bytes a) (json_rpc_body_bytes b);
     metadata_entries := Z.min (metadata_entries a) (metadata_entries b);
     metadata_bytes := Z.min (metadata_bytes a) (metadata_bytes b);
     uri_bytes := Z.min (uri_bytes a) (uri_bytes b);
     cancellation_reason_bytes := Z.min (cancellation_reason_bytes a) (cancellation_reason_bytes b);
     cursor_bytes := Z.min (cursor_bytes a) (cursor_bytes b) |}.
Definition tighten (a ceiling : ProtocolLimits) : ProtocolLimits := meet a ceiling.

(** [ProtocolLimits::default] *)
Definition default_limits : ProtocolLimits :=
  {| generation := PROTOCOL_LIMITS_INITIAL_GENERATION;
     rounds := DEFAULT_LOGICAL_EXCHANGE_MAX_ROUNDS;
     inputs_per_round := DEFAULT_LOGICAL_EXCHANGE_MAX_INPUTS_PER_ROUND;
     inputs := DEFAULT_LOGICAL_EXCHANGE_MAX_INPUTS;
     state_bytes := DEFAULT_LOGICAL_EXCHANGE_MAX_STATE_BYTES;
     wall_clock := DEFAULT_LOGICAL_EXCHANGE_MAX_WALL_CLOCK;
     json_rpc_body_bytes := DEFAULT_JSON_RPC_MAX_BODY_BYTES;
     metadata_entries := DEFAULT_METADATA_MAX_ENTRIES;
     metadata_bytes := DEFAULT_METADATA_MAX_BYTES;
     uri_bytes := DEFAULT_URI_MAX_BYTES;
     cancellation_reason_bytes := DEFAULT_CANCELLATION_REASON_MAX_BYTES;
     cursor_bytes := DEFAULT_CURSOR_MAX_BYTES |}.


(** * Sealed admission keys *)
Module SealedKeys.

Definition OPAQUE_ADMISSION_KEY_HASH_LIMIT : Z := 64 * 1024.
Definition MAX_ADMISSION_FIELD_BYTES : Z := 8 * 1024.

Inductive SealedAdmissionKeyError : Type := EmptyField | FieldTooLong | RequestSuppliedIdentifier.

Definition require_admission_field (value : list Z) : outcome SealedAdmissionKeyError (list Z) :=
  if bool_decide (value = []) then Err EmptyField
  else if MAX_ADMISSION_FIELD_BYTES <? zlen (as_bytes value) then Err FieldTooLong
  else Ok (as_bytes value).

(** The parts, each behind its length. *)
Definition encode_parts (parts : list (list Z)) : list Z :=
  parts ≫= λ part, to_be_bytes (zlen part) ++ part.

Section keys.
Context (sha256 : list Z → Sha256Digest).

Definition opaque_admission_digest {E} (parts : list (list Z)) : outcome E Sha256Digest :=
  match sha256_bounded sha256 (encode_parts parts) OPAQUE_ADMISSION_KEY_HASH_LIMIT with
  | Ok digest => Ok digest
  | _ => Panic
  end.

(** The key structs of the source wrap their digest. *)
Definition from_listener_and_source (listener_domain transport_observed_source : list Z)
    : outcome SealedAdmissionKeyError Sha256Digest :=
  let? listener := require_admission_field listener_domain in
  let? source := require_admission_field transport_observed_source in
  opaque_admission_digest [chars_of "pre-auth-source-v1"; listener; source].

Definition from_verified_security_facts (provider : list Z) (configuration_generation : Z)
    (issuer canonical_resource tenant subject : list Z) : outcome SealedAdmissionKeyError Sha256Digest :=
  let? provider := require_admission_field provider in
  let? issuer := require_admission_field issuer in
  let? canonical_resource := require_admission_field canonical_resource in
  let? tenant := require_admission_field tenant in
  let? subject := require_admission_field subject in
  opaque_admission_digest [chars_of "verified-quota-partition-v1"; provider;
    to_be_bytes configuration_generation; issuer; canonical_resource; tenant; subject].

Definition try_from_request_identifier (raw : list Z) : outcome SealedAdmissionKeyError Sha256Digest :=
  Err RequestSuppliedIdentifier.

Definition from_configured_flow
    (issuer canonical_resource client_registration_id redirect_driver_class auth_profile : list Z)
    : outcome SealedAdmissionKeyError Sha256Digest :=
  let? issuer := require_admission_field issuer in
  let? canonical_resource := require_admission_field canonical_resource in
  let? client_registration_id := require_admission_field client_registration_id in
  let? redirect_driver_class := require_admission_field redirect_driver_class in
  let? auth_profile := require_admission_field auth_profile in
  opaque_admission_digest [chars_of "authorization-flow-quota-v1"; issuer; canonical_resource;
    client_registration_id; redirect_driver_class; auth_profile].
End keys.

End SealedKeys.

(** * Admission *)
Module Admission.
Import SealedKeys.

(** The partition a request is charged to, by the digest of its key. *)
Inductive AdmissionPartition : Type :=
| PreAuth (key : Sha256Digest)
| Verified (key : Sha256Digest)
| AuthorizationFlow (key : Sha256Digest).

Inductive OccupancyKey : Type :=
| OccPreAuth (digest : list Z)
| OccVerified (digest : list Z)
| OccAuthorizationFlow (digest : list Z).

Definition occupancy_key (p : AdmissionPartition) : OccupancyKey :=
  match p with
  | PreAuth key => OccPreAuth key
  | Verified key => OccVerified key
  | AuthorizationFlow key => OccAuthorizationFlow key
  end.

#[export] Instance OccupancyKey_eq_dec : EqDecision OccupancyKey.
Proof. solve_decision. Defined.
#[export] Instance OccupancyKey_countable : Countable OccupancyKey.
Proof.
  refine (inj_countable'
    (λ k, match k with OccPreAuth d => (0%nat, d) | OccVerified d => (1%nat, d) | OccAuthorizationFlow d => (2%nat, d) end)
    (λ p, match p.1 with 0%nat => OccPreAuth p.2 | 1%nat => OccVerified p.2 | _ => OccAuthorizationFlow p.2 end) _).
  by intros [].
Defined.

Inductive AdmissionError : Type :=
| ZeroUnits
| ZeroCapacity
| GlobalCapacityExceeded (requested in_use limit : Z)
| PartitionCapacityExceeded (requested in_use limit : Z)
| ReservationNotHeld
| AlreadySettled
| DeadlineExceeded
| ArithmeticOverflow.

Inductive ReservationLifecycle : Type := Held | Committed | Released.
#[export] Instance ReservationLifecycle_eq_dec : EqDecision ReservationLifecycle.
Proof. solve_decision. Defined.

Record ReservationRecord : Type := {
  units : Z;
  key : OccupancyKey;
  lifecycle : ReservationLifecycle;
  deadline : option Z }.

Record AdmissionState : Type := MkState {
  global_in_use : Z;
  partition_in_use : gmap OccupancyKey Z;
  committed_work : Z;
  release_count : Z;
  next_id : Z;
  reservations : gmap Z ReservationRecord;
  admission_count : Z }.

(** The controller without the mutex, which the state stands for. *)
Record AdmissionController : Type := {
  snapshot : ProtocolLimits;
  global_limit : Z;
  partition_limit : Z }.

Definition with_capacities (snapshot : ProtocolLimits) (global_limit partition_limit : Z)
    : outcome AdmissionError (AdmissionController * AdmissionState) :=
  if (global_limit =? 0) || (partition_limit =? 0) then Err ZeroCapacity
  else Ok ({| snapshot := snapshot; global_limit := global_limit; partition_limit := partition_limit |},
           {| global_in_use := 0; partition_in_use := ∅; committed_work := 0; release_count := 0;
              next_id := 1; reservations := ∅; admission_count := 0 |}).

Definition with_capacity (snapshot : ProtocolLimits) (capacity : Z)
    : outcome AdmissionError (AdmissionController * AdmissionState) :=
  with_capacities snapshot capacity capacity.

Definition occupancy (s : AdmissionState) (p : AdmissionPartition) : Z :=
  default 0 (partition_in_use s !! occupancy_key p).
Definition live_reservation_count (s : AdmissionState) : Z := Z.of_nat (size (reservations s)).

(** A handle: [AdmissionReservation]. *)
Record AdmissionReservation : Type := { id : Z; live : bool }.

Definition reserve_until (c : AdmissionController) (p : AdmissionPartition) (u : Z) (d : option Z)
    : M AdmissionState AdmissionError AdmissionReservation :=
  if u =? 0 then fail ZeroUnits
  else
    let k := occupancy_key p in
    let! state := get in
    let in_use := default 0 (partition_in_use state !! k) in
    let! next_global := ok_or (checked_add (global_in_use state) u) ArithmeticOverflow in
    let! next_partition := ok_or (checked_add in_use u) ArithmeticOverflow in
    if partition_limit c <? next_partition then
      fail (PartitionCapacityExceeded u in_use (partition_limit c))
    else if global_limit c <? next_global then
      fail (GlobalCapacityExceeded u (global_in_use state) (global_limit c))
    else
      let! next := ok_or (checked_add (next_id state) 1) ArithmeticOverflow in
      let record := {| units := u; key := k; lifecycle := Held; deadline := d |} in
      modify (λ s, MkState next_global (<[k := next_partition]> (partition_in_use s)) (committed_work s)
        (release_count s) next (<[next_id state := record]> (reservations s)) (saturating_add (admission_count s) 1)) ;!
      ret {| id := next_id state; live := true |}.

Definition reserve (c : AdmissionController) (p : AdmissionPartition) (u : Z) :=
  reserve_until c p u None.
Definition reserve_with_deadline (c : AdmissionController) (p : AdmissionPartition) (u d : Z) :=
  reserve_until c p u (Some d).

(** [commit] with the time [now] that [Instant::now] tells.  The handle does not change. *)
Definition commit (h : AdmissionReservation) (now : Z) : M AdmissionState AdmissionError unit :=
  if negb (live h) then fail AlreadySettled
  else
    let! state := get in
    let! record := ok_or (reservations state !! id h) ReservationNotHeld in
    match lifecycle record with
    | Released | Committed => fail AlreadySettled
    | Held =>
        if (match deadline record with Some d => d <=? now | None => false end) then fail DeadlineExceeded
        else
          let! next_committed := ok_or (checked_add (committed_work state) (units record)) ArithmeticOverflow in
          let committed := {| units := units record; key := key record; lifecycle := Committed; deadline := deadline record |} in
          modify (λ s, MkState (global_in_use s) (partition_in_use s) next_committed (release_count s) (next_id s)
            (<[id h := committed]> (reservations s)) (admission_count s))
    end.

(** [settle]: its result, the handle and the state after it.  The source's
    [target] is not used by it. *)
Definition settle (h : AdmissionReservation) (report_already_settled : bool) (s : AdmissionState)
    : outcome AdmissionError unit * AdmissionReservation * AdmissionState :=
  let dead := {| id := id h; live := false |} in
  if negb (live h) then ((if report_already_settled then Err AlreadySettled else Ok tt), h, s)
  else
    match reservations s !! id h with
    | None => (Err ReservationNotHeld, dead, s)
    | Some record =>
        match lifecycle record with
        | Released => ((if report_already_settled then Err AlreadySettled else Ok tt), dead, s)
        | Held | Committed =>
            let in_use := default 0 (partition_in_use s !! key record) in
            let remaining := saturating_sub in_use (units record) in
            (Ok tt, dead,
             MkState (saturating_sub (global_in_use s) (units record))
               (if remaining =? 0 then delete (key record) (partition_in_use s)
                else <[key record := remaining]> (partition_in_use s))
               (if bool_decide (lifecycle record = Committed)
                then saturating_sub (committed_work s) (units record) else committed_work s)
               (saturating_add (release_count s) 1) (next_id s) (delete (id h) (reservations s)) (admission_count s))
        end
    end.

Definition release (h : AdmissionReservation) := settle h true.
Definition cancel (h : AdmissionReservation) := release h.
Definition drop (h : AdmissionReservation) (s : AdmissionState) : AdmissionReservation * AdmissionState :=
  let '(_, h, s) := settle h false s in (h, s).

(** A controller, its clones and the handles it gave out: operations on any of
    them in any order.  A handle is named by its position. *)
Inductive op : Type :=
| Reserve (p : AdmissionPartition) (u : Z) (d : option Z)
| Commit (i : nat) (now : Z)
| Release (i : nat)
| Cancel (i : nat)
| Drop (i : nat).

Abbreviation World := (list AdmissionReservation * AdmissionState)%type.

Definition on_handle {A} (i : nat) (w : World) (f : AdmissionReservation → A * AdmissionReservation * AdmissionState)
    : option A * World :=
  match w.1 !! i with
  | Some h => let '(r, h', s') := f h in (Some r, (<[i := h']> w.1, s'))
  | None => (None, w)
  end.

(** What the caller sees of an operation; [None] for a handle there is not. *)
Definition step (c : AdmissionController) (o : op) (w : World) : option (outcome AdmissionError unit) * World :=
  match o with
  | Reserve p u d =>
      match reserve_until c p u d w.2 with
      | (Ok h, s) => (Some (Ok tt), (w.1 ++ [h], s))
      | (Err e, s) => (Some (Err e), (w.1, s))
      | (Panic, s) => (Some Panic, (w.1, s))
      | (OutOfFuel, s) => (Some OutOfFuel, (w.1, s))
      end
  | Commit i now => on_handle i w (λ h, let '(r, s) := commit h now w.2 in (r, h, s))
  | Release i => on_handle i w (λ h, release h w.2)
  | Cancel i => on_handle i w (λ h, cancel h w.2)
  | Drop i => on_handle i w (λ h, let '(h, s) := drop h w.2 in (Ok tt, h, s))
  end.

Fixpoint steps (c : AdmissionController) (os : list op) (w : World) : list (option (outcome AdmissionError unit)) * World :=
  match os with
  | [] => ([], w)
  | o :: os => let '(r, w) := step c o w in let '(rs, w) := steps c os w in (r :: rs, w)
  end.

End Admission.

(** * Exchange budgets *)
Module Exchange.

Inductive LogicalExchangeBudgetResource : Type :=
| Rounds | InputsInRound | TotalInputs | StateBytes | WallClockNanos | DeadlineNanos.

Inductive LogicalExchangeBudgetError : Type :=
| Cancelled
| DeadlineExceeded
| InputOutsideRound
| RoundLimitExceeded (limit : Z)
| InputsPerRoundLimitExceeded (limit : Z)
| InputsLimitExceeded (limit : Z)
| StateByteLimitExceeded (limit : Z)
| ArithmeticOverflow (resource : LogicalExchangeBudgetResource).

Record LogicalExchangeCounters : Type := MkCounters {
  rounds_started : Z;
  inputs_in_current_round : Z;
  inputs_admitted : Z;
  state_bytes_admitted : Z }.

Record LogicalExchangeBudget : Type := { limits : ProtocolLimits; deadline : Z }.

(** What the caller's context tells at one check: [cx().now()] and whether
    [ensure_live] succeeds. *)
Record Probe : Type := { now : Z; ensure_live : bool }.

Definition calculate_deadline (l : ProtocolLimits) (started_at : Z) (external_deadline : option Z)
    : outcome LogicalExchangeBudgetError Z :=
  if u64_max <? wall_clock l then Err (ArithmeticOverflow WallClockNanos)
  else
    match checked_add started_at (wall_clock l) with
    | None => Err (ArithmeticOverflow DeadlineNanos)
    | Some configured => Ok (match external_deadline with Some outer => Z.min outer configured | None => configured end)
    end.

(** [context_deadline] is the deadline of the context's budget. *)
Definition with_external_deadline (l : ProtocolLimits) (context : Probe) (context_deadline external_deadline : option Z)
    : outcome LogicalExchangeBudgetError (LogicalExchangeBudget * LogicalExchangeCounters) :=
  if negb (ensure_live context) then Err Cancelled
  else
    let started_at := now context in
    let outer_deadline :=
      match context_deadline, external_deadline with
      | Some a, Some b => Some (Z.min a b)
      | Some a, None => Some a
      | None, Some b => Some b
      | None, None => None
      end in
    let? deadline := calculate_deadline l started_at outer_deadline in
    Ok ({| limits := l; deadline := deadline |}, MkCounters 0 0 0 0).

Definition new (l : ProtocolLimits) (context : Probe) (context_deadline : option Z) :=
  with_external_deadline l context context_deadline None.

(** [check_admission], [check_admission_while_holding_counters] and [check_deadline] *)
Definition check_admission {S} (b : LogicalExchangeBudget) (p : Probe) : M S LogicalExchangeBudgetError unit :=
  if deadline b <=? now p then fail DeadlineExceeded
  else if negb (ensure_live p) then fail Cancelled
  else ret tt.

(** Each mutator checks twice, at its start and before it commits. *)
Definition try_start_round (b : LogicalExchangeBudget) (first second : Probe)
    : M LogicalExchangeCounters LogicalExchangeBudgetError unit :=
  let! counters := get in
  check_admission b first ;!
  let! next_rounds := ok_or (checked_add16 (rounds_started counters) 1) (ArithmeticOverflow Rounds) in
  if rounds (limits b) <? next_rounds then fail (RoundLimitExceeded (rounds (limits b)))
  else
    check_admission b second ;!
    modify (λ _, MkCounters next_rounds 0 (inputs_admitted counters) (state_bytes_admitted counters)).

Definition try_reserve_input (b : LogicalExchangeBudget) (bytes : Z) (first second : Probe)
    : M LogicalExchangeCounters LogicalExchangeBudgetError unit :=
  let! counters := get in
  check_admission b first ;!
  if rounds_started counters =? 0 then fail InputOutsideRound
  else
    let! next_round_inputs := ok_or (checked_add16 (inputs_in_current_round counters) 1) (ArithmeticOverflow InputsInRound) in
    if inputs_per_round (limits b) <? next_round_inputs then
      fail (InputsPerRoundLimitExceeded (inputs_per_round (limits b)))
    else
      let! next_total_inputs := ok_or (checked_add16 (inputs_admitted counters) 1) (ArithmeticOverflow TotalInputs) in
      if inputs (limits b) <? next_total_inputs then fail (InputsLimitExceeded (inputs (limits b)))
      else
        let! next_state_bytes := ok_or (checked_add (state_bytes_admitted counters) bytes) (ArithmeticOverflow StateBytes) in
        if state_bytes (limits b) <? next_state_bytes then fail (StateByteLimitExceeded (state_bytes (limits b)))
        else
          check_admission b second ;!
          modify (λ _, MkCounters (rounds_started counters) next_round_inputs next_total_inputs next_state_bytes).

Definition try_reserve_state_bytes (b : LogicalExchangeBudget) (bytes : Z) (first second : Probe)
    : M LogicalExchangeCounters LogicalExchangeBudgetError unit :=
  let! counters := get in
  check_admission b first ;!
  let! next_state_bytes := ok_or (checked_add (state_bytes_admitted counters) bytes) (ArithmeticOverflow StateBytes) in
  if state_bytes (limits b) <? next_state_bytes then fail (StateByteLimitExceeded (state_bytes (limits b)))
  else
    check_admission b second ;!
    modify (λ _, MkCounters (rounds_started counters) (inputs_in_current_round counters)
      (inputs_admitted counters) next_state_bytes).

(** The operations on a budget and its clones, in the order they take the lock. *)
Inductive op : Type := StartRound | ReserveInput (bytes : Z) | ReserveStateBytes (bytes : Z).

Definition apply (b : LogicalExchangeBudget) (o : op) (first second : Probe)
    : M LogicalExchangeCounters LogicalExchangeBudgetError unit :=
  match o with
  | StartRound => try_start_round b first second
  | ReserveInput n => try_reserve_input b n first second
  | ReserveStateBytes n => try_reserve_state_bytes b n first second
  end.

Fixpoint run (b : LogicalExchangeBudget) (calls : list (op * Probe * Probe)) (c : LogicalExchangeCounters)
    : list (outcome LogicalExchangeBudgetError unit) * LogicalExchangeCounters :=
  match calls with
  | [] => ([], c)
  | (o, first, second) :: calls =>
      let '(r, c) := apply b o first second c in
      let '(rs, c) := run b calls c in (r :: rs, c)
  end.

End Exchange.
End Limits.
