(* ===== verification/CoreLimitsTheorems.v ===== *)
(** What the limits of [fastmcp-core] promise: an admission controller keeps the
    books of a plain ledger of charges, an exchange budget counts what it
    admitted, and limits are met and validated exactly. *)
From stdpp Require Import base list gmap strings.
From Stdlib Require Import ZArith Lia.
From S2P Require Import Prelude CoreLimits.

Module LimitsCorrect.
Import Limits.

(** * The ledger of admissions *)
Module Ledger.
Import Admission.

(** A charge, as the caller knows it.  The ledger has one line for each handle
    given out; the line of a settled handle is empty. *)
Record Charge : Type := { amount : Z; account : OccupancyKey; committed : bool; due : option Z }.
Abbreviation ledger := (list (option Charge)).

Definition weigh (f : Charge → bool) (c : option Charge) : Z :=
  match c with Some ch => if f ch then amount ch else 0 | None => 0 end.
Definition charged (f : Charge → bool) (l : ledger) : Z := sum (weigh f <$> l).
Definition all (_ : Charge) : bool := true.
Definition on (k : OccupancyKey) (ch : Charge) : bool := bool_decide (account ch = k).

Definition open_lines (l : ledger) : Z := sum ((λ c, match c with Some _ => 1 | None => 0 end) <$> l).

(** The promise: a charge is admitted when its account and the whole have room. *)
Definition ledger_step (global partition : Z) (o : op) (l : ledger) : option (outcome AdmissionError unit) * ledger :=
  match o with
  | Reserve p u d =>
      let in_use := charged (on (occupancy_key p)) l in
      if u =? 0 then (Some (Err ZeroUnits), l)
      else if usize_max <? charged all l + u then (Some (Err ArithmeticOverflow), l)
      else if partition <? in_use + u then (Some (Err (PartitionCapacityExceeded u in_use partition)), l)
      else if global <? charged all l + u then (Some (Err (GlobalCapacityExceeded u (charged all l) global)), l)
      else (Some (Ok tt), l ++ [Some {| amount := u; account := occupancy_key p; committed := false; due := d |}])
  | Commit i now =>
      match l !! i with
      | None => (None, l)
      | Some None => (Some (Err AlreadySettled), l)
      | Some (Some ch) =>
          if committed ch then (Some (Err AlreadySettled), l)
          else if (match due ch with Some d => d <=? now | None => false end) then (Some (Err DeadlineExceeded), l)
          else (Some (Ok tt),
                <[i := Some {| amount := amount ch; account := account ch; committed := true; due := due ch |}]> l)
      end
  | Release i | Cancel i =>
      match l !! i with
      | None => (None, l)
      | Some None => (Some (Err AlreadySettled), l)
      | Some (Some _) => (Some (Ok tt), <[i := None]> l)
      end
  | Drop i => match l !! i with None => (None, l) | Some _ => (Some (Ok tt), <[i := None]> l) end
  end.

Fixpoint ledger_steps (global partition : Z) (os : list op) (l : ledger)
    : list (option (outcome AdmissionError unit)) * ledger :=
  match os with
  | [] => ([], l)
  | o :: os =>
      let '(r, l) := ledger_step global partition o l in
      let '(rs, l) := ledger_steps global partition os l in (r :: rs, l)
  end.

(** The controller's books agree with the ledger and stay within its limits. *)
Record agrees (c : AdmissionController) (s : AdmissionState) (l : ledger) : Prop := {
  agrees_global : global_in_use s = charged all l ∧ charged all l <= global_limit c;
  agrees_partition : ∀ p, occupancy s p = charged (on (occupancy_key p)) l ∧ occupancy s p <= partition_limit c;
  agrees_retained : ∀ k, partition_in_use s !! k = None ↔ charged (on k) l = 0;
  agrees_committed : committed_work s = charged committed l;
  agrees_live : live_reservation_count s = open_lines l;
  agrees_admissions : admission_count s = zlen l;
  agrees_releases : release_count s = zlen l - open_lines l }.

(** The arguments are values of [usize]. *)
Definition op_ok (o : op) : Prop := match o with Reserve _ u _ => 0 <= u <= usize_max | _ => True end.

(** ** Sums over the ledger *)

Definition positive (l : ledger) : Prop := ∀ i ch, l !! i = Some (Some ch) → 0 < amount ch.

Lemma charged_insert f (l : ledger) i x y : l !! i = Some x → charged f (<[i := y]> l) = charged f l - weigh f x + weigh f y.
Proof. apply sum_insert. Qed.

Lemma charged_snoc f (l : ledger) c : charged f (l ++ [c]) = charged f l + weigh f c.
Proof. unfold charged. rewrite fmap_app, sum_app. unfold sum. simpl. lia. Qed.

Lemma open_insert (l : ledger) i x y :
  l !! i = Some x → open_lines (<[i := y]> l) =
    open_lines l - match x with Some _ => 1 | None => 0 end + match y with Some _ => 1 | None => 0 end.
Proof. intros H. unfold open_lines. by rewrite (sum_insert _ _ _ x). Qed.

Lemma positive_tail x l : positive (x :: l) → positive l.
Proof. intros H i ch Hi. by apply (H (S i)). Qed.

Lemma charged_all f (l : ledger) : positive l → 0 <= charged f l <= charged all l.
Proof.
  unfold charged. induction l as [|c l IH]; intros Hp; [done|]. rewrite !sum_fmap_cons.
  specialize (IH (positive_tail _ _ Hp)). destruct c as [ch|]; simpl; [|lia].
  specialize (Hp 0%nat ch eq_refl). destruct (f ch); lia.
Qed.

Lemma charged_elem f (l : ledger) i ch : positive l → l !! i = Some (Some ch) → f ch = true → amount ch <= charged f l.
Proof.
  intros Hp Hi Hf. pose proof (charged_insert f l i _ None Hi) as H. simpl in H. rewrite Hf in H.
  assert (Hp' : positive (<[i := None]> l)); [|pose proof (charged_all f _ Hp'); lia].
  intros j c [(_ & ? & _)|[_ ?]]%list_lookup_insert_Some; [done|by eapply Hp].
Qed.

(** ** The simulation *)

Definition record_of (ch : Charge) : ReservationRecord :=
  {| units := amount ch; key := account ch; lifecycle := if committed ch then Committed else Held; deadline := due ch |}.

(** Handle [i] carries identifier [i + 1]. *)
Definition filed (l : ledger) (z : Z) : option ReservationRecord :=
  if z <? 1 then None else record_of <$> mjoin (l !! Z.to_nat (z - 1)).
Definition handle_of (i : nat) (c : option Charge) : AdmissionReservation :=
  {| id := Z.of_nat i + 1; live := match c with Some _ => true | None => false end |}.

Record sim (c : AdmissionController) (w : World) (l : ledger) : Prop := {
  sim_handles : ∀ i, w.1 !! i = handle_of i <$> l !! i;
  sim_next : next_id w.2 = zlen l + 1;
  sim_filed : ∀ z, reservations w.2 !! z = filed l z;
  sim_positive : positive l;
  sim_global : global_in_use w.2 = charged all l ∧ charged all l <= global_limit c;
  sim_partition : ∀ k, default 0 (partition_in_use w.2 !! k) = charged (on k) l ∧ charged (on k) l <= partition_limit c;
  sim_zero : ∀ k, partition_in_use w.2 !! k ≠ Some 0;
  sim_committed : committed_work w.2 = charged committed l;
  sim_live : live_reservation_count w.2 = open_lines l;
  sim_admissions : admission_count w.2 = zlen l;
  sim_releases : release_count w.2 = zlen l - open_lines l }.

Lemma sim_agree c w l : sim c w l → agrees c w.2 l.
Proof.
  intros [Hh Hn Hf Hp Hg Hpart Hz Hc Hl Ha Hr]. split; try done.
  - intros p. unfold occupancy. destruct (Hpart (occupancy_key p)). lia.
  - intros k. destruct (Hpart k) as [Hk _]. rewrite <- Hk. destruct (partition_in_use w.2 !! k) eqn:E; simpl; [|done].
    split; [done|]. intros ->. by destruct (Hz k).
Qed.

Lemma filed_at (l : ledger) i c : l !! i = Some c → filed l (Z.of_nat i + 1) = record_of <$> c.
Proof.
  intros H. unfold filed. case_goal_if; zbool; [lia|]. replace (Z.to_nat _) with i by lia. by rewrite H.
Qed.

Lemma filed_insert (l : ledger) i c z :
  is_Some (l !! i) → filed (<[i := c]> l) z = if bool_decide (z = Z.of_nat i + 1) then record_of <$> c else filed l z.
Proof.
  intros [x Hi]. case_bool_decide as Hz.
  - subst. apply filed_at. rewrite list_lookup_insert_eq; [done|]. by eapply lookup_lt_Some.
  - unfold filed. case_goal_if; zbool; [done|]. rewrite list_lookup_insert_ne; [done|lia].
Qed.

Lemma filed_snoc (l : ledger) c z :
  filed (l ++ [c]) z = if bool_decide (z = zlen l + 1) then record_of <$> c else filed l z.
Proof.
  unfold zlen. case_bool_decide as Hz.
  - subst. apply filed_at. by apply list_lookup_middle.
  - unfold filed. case_goal_if; zbool; [done|]. do 2 f_equal.
    destruct (decide (Z.to_nat (z - 1) < length l)%nat) as [?|?]; [by rewrite lookup_app_l|].
    rewrite (lookup_ge_None_2 (l ++ [c])), (lookup_ge_None_2 l); [done|lia|]. rewrite length_app. simpl. lia.
Qed.

Lemma handles_insert (hs : list AdmissionReservation) (l : ledger) i c :
  (∀ j, hs !! j = handle_of j <$> l !! j) → is_Some (l !! i) →
  ∀ j, <[i := handle_of i c]> hs !! j = handle_of j <$> <[i := c]> l !! j.
Proof.
  intros Hh [x Hi] j. pose proof (lookup_lt_Some _ _ _ Hi). specialize (Hh i) as Hhi. rewrite Hi in Hhi.
  pose proof (lookup_lt_Some _ _ _ Hhi). destruct (decide (j = i)) as [->|].
  - by rewrite !list_lookup_insert_eq.
  - by rewrite !list_lookup_insert_ne.
Qed.

Lemma handles_length (hs : list AdmissionReservation) (l : ledger) :
  (∀ j, hs !! j = handle_of j <$> l !! j) → length hs = length l.
Proof.
  intros Hh. destruct (Nat.lt_total (length hs) (length l)) as [H|[H|H]]; [|done|].
  - apply lookup_lt_is_Some in H as [x Hx]. specialize (Hh (length hs)). rewrite Hx in Hh.
    by rewrite lookup_ge_None_2 in Hh.
  - apply lookup_lt_is_Some in H as [x Hx]. specialize (Hh (length l)). rewrite Hx in Hh.
    by rewrite (lookup_ge_None_2 l) in Hh.
Qed.

Lemma positive_insert (l : ledger) i c : positive l → (∀ ch, c = Some ch → 0 < amount ch) → positive (<[i := c]> l).
Proof. intros Hp Hc j ch [(<- & -> & _)|[_ ?]]%list_lookup_insert_Some; [by apply Hc|by eapply Hp]. Qed.

Lemma open_snoc (l : ledger) ch : open_lines (l ++ [Some ch]) = open_lines l + 1.
Proof. unfold open_lines. rewrite fmap_app, sum_app. done. Qed.

Section sim_steps.
Context (c : AdmissionController).
Hypothesis Hlimits : global_limit c <= usize_max ∧ partition_limit c <= usize_max.

(** A live handle that is settled empties its line. *)
Lemma sim_settle hs s l i ch b :
  sim c (hs, s) l → l !! i = Some (Some ch) → zlen l <= usize_max →
  ∃ s', settle (handle_of i (Some ch)) b s = (Ok tt, handle_of i None, s') ∧
        sim c (<[i := handle_of i None]> hs, s') (<[i := None]> l).
Proof.
  intros [Hh Hn Hf Hp [Hg Hgl] Hpart Hz Hc Hl Ha Hr] Hi Hlen. simpl in *. pose proof (mk_is_Some _ _ Hi) as Hsome.
  pose proof (Hf (Z.of_nat i + 1)) as Hrec. rewrite (filed_at _ _ _ Hi) in Hrec. simpl in Hrec.
  pose proof (charged_elem all l i ch Hp Hi eq_refl) as Hall.
  pose proof (charged_elem (on (account ch)) l i ch Hp Hi ltac:(by apply bool_decide_true)) as Hon.
  pose proof (Hp i ch Hi) as Hpos. pose proof (open_insert l i (Some ch) None Hi) as Hopen. simpl in Hopen.
  unfold settle. cbn [live id handle_of negb]. rewrite Hrec. cbn [lifecycle record_of key units].
  destruct (Hpart (account ch)) as [Hk Hkl]. rewrite Hk.
  set (s' := MkState _ _ _ _ _ _ _). exists s'.
  split. { subst s'. by destruct (committed ch). }
  split; unfold s'; cbn [fst snd global_in_use partition_in_use committed_work release_count next_id reservations admission_count].
  - by apply handles_insert.
  - unfold zlen in *. by rewrite length_insert.
  - intros z. rewrite filed_insert by done. case_bool_decide as Hzi.
    + subst. by rewrite lookup_delete_eq.
    + rewrite lookup_delete_ne by done. apply Hf.
  - by apply positive_insert.
  - rewrite (charged_insert _ _ _ _ _ Hi). simpl. unfold saturating_sub. lia.
  - intros k. rewrite (charged_insert _ _ _ _ _ Hi). cbn [weigh]. change (on k ch) with (bool_decide (account ch = k)). destruct (Hpart k) as [Hk' ?].
    unfold saturating_sub. case_goal_if; zbool.
    + case_bool_decide as Hkk; [subst k; rewrite lookup_delete_eq|rewrite lookup_delete_ne by done]; simpl; lia.
    + case_bool_decide as Hkk; [subst k; rewrite lookup_insert_eq|rewrite lookup_insert_ne by done]; simpl; lia.
  - intros k. unfold saturating_sub. case_goal_if; zbool.
    + destruct (decide (account ch = k)) as [<-|]; [by rewrite lookup_delete_eq|by rewrite lookup_delete_ne].
    + destruct (decide (account ch = k)) as [<-|]; [rewrite lookup_insert_eq; intros [=]; lia|by rewrite lookup_insert_ne].
  - rewrite (charged_insert _ _ _ _ _ Hi), Hc. simpl. destruct (committed ch) eqn:Ec.
    + rewrite bool_decide_true by done. pose proof (charged_elem committed l i ch Hp Hi Ec). unfold saturating_sub. lia.
    + rewrite bool_decide_false by done. lia.
  - rewrite Hopen, <- Hl. unfold live_reservation_count. cbn [reservations].
    rewrite map_size_delete_Some by (by eexists). 
    assert (size (reservations s) ≠ 0%nat). { apply (map_size_ne_0_lookup_2 _ (Z.of_nat i + 1)). by eexists. }
    lia.
  - unfold zlen in *. by rewrite length_insert.
  - rewrite Hopen. unfold zlen in *. rewrite length_insert, Hr. unfold saturating_add.
    pose proof (sum_elem (λ c, match c with Some _ => 1 | None => 0 end) l i (Some ch) ltac:(by intros []) Hi) as Hone.
    unfold open_lines in *. lia.
Qed.

(** A handle whose line is open is committed at most once, in time. *)
Lemma sim_commit hs s l i ch now :
  sim c (hs, s) l → l !! i = Some (Some ch) → committed ch = false →
  (match due ch with Some d => d <=? now | None => false end) = false →
  let line := Some {| amount := amount ch; account := account ch; committed := true; due := due ch |} in
  ∃ s', commit (handle_of i (Some ch)) now s = (Ok tt, s') ∧ sim c (hs, s') (<[i := line]> l).
Proof.
  intros [Hh Hn Hf Hp [Hg Hgl] Hpart Hz Hc Hl Ha Hr] Hi Hcom Hdue line. simpl in *. pose proof (mk_is_Some _ _ Hi) as Hsome.
  pose proof (Hf (Z.of_nat i + 1)) as Hrec. rewrite (filed_at _ _ _ Hi) in Hrec. simpl in Hrec.
  pose proof (charged_insert committed l i _ line Hi) as Hcm. simpl in Hcm. rewrite Hcom in Hcm.
  assert (Hp' : positive (<[i := line]> l)). { apply positive_insert; [done|]. intros ? [= <-]. by apply (Hp i ch). }
  assert (Heq : ∀ f, (∀ b, f {| amount := amount ch; account := account ch; committed := b; due := due ch |} = f ch) →
                charged f (<[i := line]> l) = charged f l).
  { intros f Hfb. rewrite (charged_insert f l i _ line Hi). simpl. rewrite Hfb. lia. }
  pose proof (charged_all committed _ Hp') as Hle. rewrite (Heq all) in Hle by done.
  assert (Hover : checked_add (committed_work s) (amount ch) = Some (charged committed (<[i := line]> l))).
  { apply checked_add_Some. destruct Hlimits. lia. }
  unfold commit. cbn [live id handle_of negb]. unfold bind, get, ok_or. rewrite Hrec. cbn [ret lifecycle record_of units deadline].
  rewrite Hcom, Hdue, Hover. cbn [ret]. eexists. split; [reflexivity|].
  split; cbn [fst snd global_in_use partition_in_use committed_work release_count next_id reservations admission_count].
  - intros j. rewrite Hh. destruct (decide (j = i)) as [->|].
    + rewrite list_lookup_insert_eq, Hi; [done|]. by eapply lookup_lt_Some.
    + by rewrite list_lookup_insert_ne.
  - unfold zlen in *. by rewrite length_insert.
  - intros z. rewrite filed_insert by done. case_bool_decide as Hzi.
    + subst. by rewrite lookup_insert_eq.
    + rewrite lookup_insert_ne by done. apply Hf.
  - done.
  - by rewrite (Heq all).
  - intros k. rewrite (Heq (on k)) by done. apply Hpart.
  - done.
  - done.
  - rewrite (open_insert l i _ line Hi), <- Hl. unfold live_reservation_count. cbn [reservations].
    rewrite map_size_insert_Some by (by eexists). simpl. lia.
  - unfold zlen in *. by rewrite length_insert.
  - rewrite (open_insert l i _ line Hi). unfold zlen in *. rewrite length_insert. simpl. lia.
Qed.

(** An admitted charge opens a line. *)
Lemma sim_reserve hs s l p u d :
  sim c (hs, s) l → 0 < u → zlen l + 2 <= u64_max →
  charged (on (occupancy_key p)) l + u <= partition_limit c → charged all l + u <= global_limit c →
  let line := Some {| amount := u; account := occupancy_key p; committed := false; due := d |} in
  ∃ s', reserve_until c p u d s = (Ok (handle_of (length l) line), s') ∧
        sim c (hs ++ [handle_of (length l) line], s') (l ++ [line]).
Proof.
  intros [Hh Hn Hf Hp [Hg Hgl] Hpart Hz Hc Hl Ha Hr] Hu Hlen Hroom Hroomg line. simpl in *.
  pose proof (handles_length _ _ Hh) as Hlh. destruct (Hpart (occupancy_key p)) as [Hk Hkl]. destruct Hlimits as [Hgm Hpm].
  assert (Hadd1 : checked_add (global_in_use s) u = Some (charged all l + u)). { apply checked_add_Some. lia. }
  assert (Hadd2 : checked_add (charged (on (occupancy_key p)) l) u = Some (charged (on (occupancy_key p)) l + u)).
  { apply checked_add_Some. lia. }
  assert (Hadd3 : checked_add (next_id s) 1 = Some (zlen l + 2)). { apply checked_add_Some. unfold usize_max, u64_max in *. lia. }
  unfold reserve_until. rewrite (proj2 (Z.eqb_neq u 0)) by lia. unfold bind, get, ok_or. rewrite Hk, Hadd1. cbn [ret]. rewrite Hadd2. cbn [ret].
  rewrite (proj2 (Z.ltb_ge _ _) Hroom), (proj2 (Z.ltb_ge _ _) Hroomg), Hadd3. cbn [ret modify]. eexists. split.
  { unfold modify, ret, handle_of. rewrite Hn. reflexivity. }
  assert (Hfree : reservations s !! (zlen l + 1) = None).
  { rewrite Hf. unfold filed. case_goal_if; [done|]. rewrite lookup_ge_None_2; [done|]. unfold zlen. lia. }
  split; cbn [fst snd global_in_use partition_in_use committed_work release_count next_id reservations admission_count].
  - intros j. destruct (decide (j < length l)%nat) as [?|?].
    + rewrite !lookup_app_l by lia. apply Hh.
    + destruct (decide (j = length l)) as [->|].
      * rewrite list_lookup_middle by lia. by rewrite list_lookup_middle.
      * rewrite !lookup_ge_None_2; [done|rewrite length_app; simpl; lia..].
  - rewrite zlen_app. unfold zlen in *. simpl. lia.
  - intros z. rewrite filed_snoc, ?Hn. case_bool_decide as Hzi.
    + subst. by rewrite lookup_insert_eq.
    + rewrite lookup_insert_ne by done. apply Hf.
  - intros j ch. destruct (decide (j < length l)%nat) as [?|?].
    + rewrite lookup_app_l by lia. apply Hp.
    + rewrite lookup_app_r by lia. destruct (j - length l)%nat; [|done]. by intros [= <-].
  - rewrite charged_snoc. simpl. lia.
  - intros k. rewrite charged_snoc. subst line. cbn [weigh].
    change (on k _) with (bool_decide (occupancy_key p = k)). cbn [amount]. specialize (Hpart k).
    case_bool_decide as Hkk; [subst k; rewrite lookup_insert_eq|rewrite lookup_insert_ne by done]; simpl; lia.
  - intros k. pose proof (charged_all (on (occupancy_key p)) l Hp).
    destruct (decide (occupancy_key p = k)) as [<-|]; [rewrite lookup_insert_eq; intros [=]; lia|by rewrite lookup_insert_ne].
  - rewrite charged_snoc, Hc. simpl. lia.
  - unfold line. rewrite open_snoc, <- Hl. unfold live_reservation_count. cbn [reservations].
    rewrite ?Hn, map_size_insert_None by done. lia.
  - rewrite zlen_app. unfold saturating_add, usize_max, u64_max, zlen in *. simpl. lia.
  - unfold line. rewrite open_snoc, zlen_app. unfold zlen in *. simpl. lia.
Qed.

(** What is not admitted is refused with the reason of the ledger, and changes nothing. *)
Lemma sim_refuse hs s l p u d :
  sim c (hs, s) l → 0 <= u →
  let in_use := charged (on (occupancy_key p)) l in
  (u = 0 → reserve_until c p u d s = (Err ZeroUnits, s)) ∧
  (0 < u → usize_max < charged all l + u → reserve_until c p u d s = (Err ArithmeticOverflow, s)) ∧
  (0 < u → charged all l + u <= usize_max → partition_limit c < in_use + u →
   reserve_until c p u d s = (Err (PartitionCapacityExceeded u in_use (partition_limit c)), s)) ∧
  (0 < u → charged all l + u <= usize_max → in_use + u <= partition_limit c → global_limit c < charged all l + u →
   reserve_until c p u d s = (Err (GlobalCapacityExceeded u (charged all l) (global_limit c)), s)).
Proof.
  intros [Hh Hn Hf Hp [Hg Hgl] Hpart Hz Hc Hl Ha Hr] Hu in_use. simpl in *. destruct (Hpart (occupancy_key p)) as [Hk Hkl].
  pose proof (charged_all (on (occupancy_key p)) l Hp) as Hle. fold in_use in Hk, Hle.
  unfold reserve_until, bind, get, ok_or, checked_add.
  split; [by intros ->|]. repeat split; intros ? Hover; [|intros Hpc|intros Hpc Hgc].
  all: rewrite (proj2 (Z.eqb_neq u 0)) by lia; cbv zeta beta; rewrite Hk, Hg; unfold fail.
  - by rewrite (proj2 (Z.leb_gt _ _)) by lia.
  - rewrite !(proj2 (Z.leb_le _ _)) by lia. cbn [ret]. by rewrite (proj2 (Z.ltb_lt _ _)) by lia.
  - rewrite !(proj2 (Z.leb_le _ _)) by lia. cbn [ret].
    rewrite (proj2 (Z.ltb_ge _ _)) by lia. by rewrite (proj2 (Z.ltb_lt _ _)) by lia.
Qed.

Lemma sim_handle w l i : sim c w l → w.1 !! i = handle_of i <$> l !! i.
Proof. by intros []. Qed.

(** A handle that stays as it is. *)
Lemma sim_same hs s l i x : sim c (hs, s) l → l !! i = Some x → <[i := handle_of i x]> hs = hs.
Proof. intros Hs Hi. apply list_insert_id. by rewrite (sim_handle _ _ _ Hs), Hi. Qed.

Lemma sim_record hs s l i ch : sim c (hs, s) l → l !! i = Some (Some ch) → reservations s !! (Z.of_nat i + 1) = Some (record_of ch).
Proof. intros Hs Hi. pose proof (sim_filed _ _ _ Hs) as Hf. simpl in Hf. by rewrite Hf, (filed_at _ _ _ Hi). Qed.

(** Settling a handle whose line is empty. *)
Lemma settle_empty i s b : settle (handle_of i None) b s = ((if b then Err AlreadySettled else Ok tt), handle_of i None, s).
Proof. done. Qed.

Lemma sim_step w l o :
  sim c w l → op_ok o → zlen l + 2 <= u64_max →
  ∃ r w' l', step c o w = (r, w') ∧ ledger_step (global_limit c) (partition_limit c) o l = (r, l') ∧
             sim c w' l' ∧ zlen l' <= zlen l + 1.
Proof.
  destruct w as [hs s]. intros Hs Ho Hlen.
  assert (Hset : ∀ i x, zlen (<[i := x]> l) <= zlen l + 1). { intros i x. unfold zlen. rewrite length_insert. lia. }
  assert (Hlen' : zlen l <= usize_max) by (unfold usize_max, u64_max in *; lia).
  destruct o as [p u d|i now|i|i|i]; cbn [ledger_step step fst snd].
  { simpl in Ho. destruct (sim_refuse _ _ _ p u d Hs) as (H0 & H1 & H2 & H3); [lia|].
    case_goal_if; [zbool; rewrite H0 by lia; eauto 10 with lia|]. zbool.
    case_goal_if; [zbool; rewrite H1 by lia; eauto 10 with lia|]. zbool.
    case_goal_if; [zbool; rewrite H2 by lia; eauto 10 with lia|]. zbool.
    case_goal_if; [zbool; rewrite H3 by lia; eauto 10 with lia|]. zbool.
    destruct (sim_reserve hs s l p u d) as (s' & Hr & Hs'); [done|lia..|]. rewrite Hr.
    do 3 eexists. do 3 (split; [done|]). rewrite zlen_app. unfold zlen. simpl. lia. }
  all: unfold on_handle; rewrite (sim_handle _ _ _ Hs); cbn [fst snd].
  all: destruct (l !! i) as [[ch|]|] eqn:Hi; cbn [fmap option_fmap option_map]; [| |eauto 10 with lia].
  - pose proof (sim_record _ _ _ _ _ Hs Hi) as Hrec. destruct (committed ch) eqn:Hcom; [|case_goal_if].
    + unfold commit, bind, get, ok_or. cbn [handle_of live negb id]. rewrite Hrec. simpl. rewrite Hcom.
      do 3 eexists. do 2 (split; [done|]). split; [by rewrite (sim_same hs s l i (Some ch))|lia].
    + unfold commit, bind, get, ok_or. cbn [handle_of live negb id]. rewrite Hrec. simpl. rewrite Hcom, E.
      do 3 eexists. do 2 (split; [done|]). split; [by rewrite (sim_same hs s l i (Some ch))|lia].
    + destruct (sim_commit hs s l i ch now Hs Hi Hcom E) as (s' & Hr & Hs'). rewrite Hr.
      do 3 eexists. do 2 (split; [done|]). split; [by rewrite (sim_same hs s l i (Some ch))|done].
  - do 3 eexists. do 2 (split; [done|]). split; [by rewrite (sim_same hs s l i None)|lia].
  - destruct (sim_settle hs s l i ch true Hs Hi Hlen') as (s' & Hr & Hs'). unfold release. rewrite Hr. eauto 10.
  - unfold release. rewrite settle_empty, (sim_same hs s l i None) by done. eauto 10 with lia.
  - destruct (sim_settle hs s l i ch true Hs Hi Hlen') as (s' & Hr & Hs'). unfold cancel, release. rewrite Hr. eauto 10.
  - unfold cancel, release. rewrite settle_empty, (sim_same hs s l i None) by done. eauto 10 with lia.
  - destruct (sim_settle hs s l i ch false Hs Hi Hlen') as (s' & Hr & Hs'). unfold drop. rewrite Hr. eauto 10.
  - unfold drop. rewrite settle_empty, (sim_same hs s l i None), list_insert_id by done. eauto 10 with lia.
Qed.

Lemma sim_steps os : ∀ w l,
  sim c w l → Forall op_ok os → zlen l + zlen os < u64_max →
  ∃ rs w' l', steps c os w = (rs, w') ∧ ledger_steps (global_limit c) (partition_limit c) os l = (rs, l') ∧ sim c w' l'.
Proof.
  induction os as [|o os IH]; intros w l Hs Hos Hlen; [by do 3 eexists|]. rewrite zlen_cons in Hlen.
  pose proof (zlen_nonneg os). apply Forall_cons in Hos as [Ho Hos].
  destruct (sim_step w l o Hs Ho) as (r & w1 & l1 & H1 & H2 & Hs1 & Hl1); [lia|].
  destruct (IH w1 l1 Hs1 Hos) as (rs & w2 & l2 & H3 & H4 & Hs2); [lia|].
  exists (r :: rs), w2, l2. simpl. by rewrite H1, H2, H3, H4.
Qed.

End sim_steps.

Lemma sim_init c s0 snap global partition :
  with_capacities snap global partition = Ok (c, s0) → 0 <= global → 0 <= partition → sim c ([], s0) [].
Proof.
  unfold with_capacities. case_goal_if; [done|]. intros [= <- <-] Hg Hp. split; simpl; try done.
  - intros z. unfold filed. by case_goal_if.
Qed.

(** C14: However reserve, commit, release, cancel and drop interleave on a
    controller, its clones and the handles it gave out, every caller sees what a
    plain ledger of charges would tell it: a charge is admitted when its
    partition and the whole have room, and refused with the exact occupancy
    otherwise; a handle is committed once and in time, and settled once.  The
    controller's global, per-partition and committed counters are the sums over
    the charges still held, never beyond the limits, no settled partition is
    remembered, and no sum overflows; for fewer than 2^64 - 1 operations, after
    which identifiers run out. *)
Theorem admission_refines_ledger snap global partition c s0 os :
  with_capacities snap global partition = Ok (c, s0) →
  0 <= global <= usize_max → 0 <= partition <= usize_max → Forall op_ok os → zlen os < u64_max →
  ∃ rs hs s l, steps c os ([], s0) = (rs, (hs, s)) ∧ ledger_steps global partition os [] = (rs, l) ∧
    agrees c s l ∧ global_limit c = global ∧ partition_limit c = partition.
Proof.
  intros Hc Hg Hp Hos Hlen. pose proof (sim_init _ _ _ _ _ Hc ltac:(lia) ltac:(lia)) as Hs.
  assert (global_limit c = global ∧ partition_limit c = partition) as [Hgc Hpc].
  { revert Hc. unfold with_capacities. case_goal_if; [done|]. by intros [= <- _]. }
  destruct (sim_steps c ltac:(lia) os _ _ Hs Hos) as (rs & [hs s] & l & H1 & H2 & H3); [rewrite zlen_nil; lia|].
  rewrite Hgc, Hpc in H2. exists rs, hs, s, l. split_and!; try done. by apply (sim_agree _ _ _ H3).
Qed.

End Ledger.

(** * Exchange budgets *)
Module Tally.
Import Exchange.

(** A history: the operations with what they returned. *)
Abbreviation call := (op * outcome LogicalExchangeBudgetError unit)%type.
Abbreviation history := (list call).

Definition round_of (x : call) : Z := match x with (StartRound, Ok _) => 1 | _ => 0 end.
Definition input_of (x : call) : Z := match x with (ReserveInput _, Ok _) => 1 | _ => 0 end.
Definition bytes_of (x : call) : Z :=
  match x with (ReserveInput n, Ok _) | (ReserveStateBytes n, Ok _) => n | _ => 0 end.
Definition tally (w : call → Z) (h : history) : Z := sum (w <$> h).
(** What came after the last round was started. *)
Definition current_round (h : history) : history := take_while (λ x, round_of x =? 0) (rev h).

(** What the limits leave room for after a history. *)
Definition admits (l : ProtocolLimits) (h : history) (o : op) : Prop :=
  match o with
  | StartRound => tally round_of h < rounds l
  | ReserveInput n =>
      0 < tally round_of h ∧ tally input_of (current_round h) < inputs_per_round l ∧
      tally input_of h < inputs l ∧ tally bytes_of h + n <= state_bytes l
  | ReserveStateBytes n => tally bytes_of h + n <= state_bytes l
  end.

Definition in_time (b : LogicalExchangeBudget) (p : Probe) : Prop := now p < deadline b ∧ ensure_live p = true.

Record tallies (l : ProtocolLimits) (h : history) (c : LogicalExchangeCounters) : Prop := {
  tallies_rounds : rounds_started c = tally round_of h ∧ 0 <= rounds_started c <= rounds l;
  tallies_round : inputs_in_current_round c = tally input_of (current_round h) ∧ inputs_in_current_round c <= inputs_per_round l;
  tallies_inputs : inputs_admitted c = tally input_of h ∧ inputs_admitted c <= inputs l;
  tallies_bytes : state_bytes_admitted c = tally bytes_of h ∧ state_bytes_admitted c <= state_bytes l }.

(** Limits of the widths of the source. *)
Definition limits_fit (l : ProtocolLimits) : Prop :=
  0 <= rounds l <= u16_max ∧ 0 <= inputs_per_round l <= u16_max ∧ 0 <= inputs l <= u16_max ∧ 0 <= state_bytes l <= usize_max.
Definition op_fits (o : op) : Prop :=
  match o with StartRound => True | ReserveInput n | ReserveStateBytes n => 0 <= n <= usize_max end.

Lemma tally_snoc w h x : tally w (h ++ [x]) = tally w h + w x.
Proof. unfold tally. rewrite fmap_app, sum_app. unfold sum. simpl. lia. Qed.

Lemma current_round_snoc h x : current_round (h ++ [x]) = if round_of x =? 0 then x :: current_round h else [].
Proof. unfold current_round. rewrite rev_app_distr. done. Qed.

Lemma checked_add16_spec a : checked_add16 a 1 = if a + 1 <=? u16_max then Some (a + 1) else None.
Proof. done. Qed.

(** The check of a probe. *)
Lemma check_admission_spec b p (c : LogicalExchangeCounters) :
  (in_time b p ∧ check_admission b p c = (Ok tt, c)) ∨ (¬ in_time b p ∧ ∃ e, check_admission b p c = (Err e, c)).
Proof.
  unfold check_admission, in_time, fail, ret. case_goal_if; zbool; [right; split; [lia|eauto]|].
  destruct (ensure_live p); simpl; [left; split; [done|done]|right]. split; [naive_solver|eauto].
Qed.

(** A refusal is an error and leaves the counters as they are. *)
Definition decides (m : M LogicalExchangeCounters LogicalExchangeBudgetError unit) (c c' : LogicalExchangeCounters)
    (P : Prop) : Prop :=
  (P ∧ m c = (Ok tt, c')) ∨ (¬ P ∧ ∃ e, m c = (Err e, c)).

Section budget.
Context (b : LogicalExchangeBudget) (first second : Probe).
Let timely : Prop := in_time b first ∧ in_time b second.

Ltac refused := right; split; [intros ?; unfold u16_max, usize_max in *; lia|by eexists].
Ltac checks p c H :=
  destruct (check_admission_spec b p c) as [[H ->]|[H [? ->]]]; [|right; split; [unfold timely; tauto|by eexists]].

Lemma start_round_decides c :
  limits_fit (limits b) → 
  decides (try_start_round b first second) c
    (MkCounters (rounds_started c + 1) 0 (inputs_admitted c) (state_bytes_admitted c))
    (timely ∧ rounds_started c < rounds (limits b)).
Proof.
  intros Hf. unfold decides, try_start_round, bind, get, limits_fit in *. checks first c H1.
  unfold ok_or. rewrite checked_add16_spec. case_goal_if; zbool; [|refused]. cbn [ret].
  case_goal_if; zbool; [refused|]. checks second c H2. left. split; [|done]. split; [done|lia].
Qed.

Lemma state_bytes_decides c n :
  limits_fit (limits b) → 
  decides (try_reserve_state_bytes b n first second) c
    (MkCounters (rounds_started c) (inputs_in_current_round c) (inputs_admitted c) (state_bytes_admitted c + n))
    (timely ∧ state_bytes_admitted c + n <= state_bytes (limits b)).
Proof.
  intros Hf. unfold decides, try_reserve_state_bytes, bind, get, limits_fit in *. checks first c H1.
  unfold ok_or, checked_add. case_goal_if; zbool; [|refused]. cbn [ret].
  case_goal_if; zbool; [refused|]. checks second c H2. left. split; [|done]. split; [done|lia].
Qed.

Lemma input_decides c n :
  limits_fit (limits b) → 0 <= rounds_started c →
  decides (try_reserve_input b n first second) c
    (MkCounters (rounds_started c) (inputs_in_current_round c + 1) (inputs_admitted c + 1) (state_bytes_admitted c + n))
    (timely ∧ 0 < rounds_started c ∧ inputs_in_current_round c < inputs_per_round (limits b) ∧
     inputs_admitted c < inputs (limits b) ∧ state_bytes_admitted c + n <= state_bytes (limits b)).
Proof.
  intros Hf Hr. unfold decides, try_reserve_input, bind, get, limits_fit in *. checks first c H1.
  case_goal_if; zbool; [refused|]. unfold ok_or. rewrite !checked_add16_spec. unfold checked_add.
  case_goal_if; zbool; [|refused]. cbn [ret]. case_goal_if; zbool; [refused|].
  case_goal_if; zbool; [|refused]. cbn [ret]. case_goal_if; zbool; [refused|].
  case_goal_if; zbool; [|refused]. cbn [ret]. case_goal_if; zbool; [refused|].
  checks second c H2. left. split; [|done]. split; [done|lia].
Qed.

(** One operation: it succeeds when the probes are in time and there is room. *)
Lemma apply_tallies h c o :
  limits_fit (limits b) → op_fits o → tallies (limits b) h c →
  ∃ r c', apply b o first second c = (r, c') ∧ tallies (limits b) (h ++ [(o, r)]) c' ∧ settled r ∧
          (r = Ok tt ↔ timely ∧ admits (limits b) h o).
Proof.
  intros Hf Ho [[H1 H1'] [H2 H2'] [H3 H3'] [H4 H4']].
  assert (Hbad : ∀ e, tallies (limits b) (h ++ [(o, Err e)]) c).
  { intros e. split; rewrite ?current_round_snoc, ?tally_snoc; destruct o; simpl;
      unfold tally in *; rewrite ?sum_fmap_cons; simpl; lia. }
  assert (Hdec : ∀ m c' P, apply b o first second = m → decides m c c' P → (P ↔ timely ∧ admits (limits b) h o) →
            (P → tallies (limits b) (h ++ [(o, Ok tt)]) c') → ∃ r c', m c = (r, c') ∧
            tallies (limits b) (h ++ [(o, r)]) c' ∧ settled r ∧ (r = Ok tt ↔ timely ∧ admits (limits b) h o)).
  { intros m c' P _ [[HP Hm]|[HP [e Hm]]] Hiff Ht.
    - exists (Ok tt), c'. split_and!; [done|by apply Ht|done|]. tauto.
    - exists (Err e), c. split_and!; [done|apply Hbad|done|]. split; [done|tauto]. }
  destruct o as [|n|n].
  - apply (Hdec _ _ _ eq_refl (start_round_decides c Hf)); [by rewrite H1|]. intros [_ Hr].
    split; rewrite ?current_round_snoc, ?tally_snoc; simpl; unfold limits_fit in Hf; [lia|split; [done|lia]|lia..].
  - apply (Hdec _ _ _ eq_refl (input_decides c n Hf ltac:(lia))); [by rewrite H1, H2, H3, H4|]. intros (_ & Hr & Hi & Ht & Hb).
    split; rewrite ?current_round_snoc, ?tally_snoc; simpl; [lia| |lia..].
    unfold tally in *. rewrite sum_fmap_cons. simpl. lia.
  - apply (Hdec _ _ _ eq_refl (state_bytes_decides c n Hf)); [by rewrite H4|]. intros (_ & Hb).
    split; rewrite ?current_round_snoc, ?tally_snoc; simpl; [lia| |lia..].
    unfold tally in *. rewrite sum_fmap_cons. simpl. lia.
Qed.
End budget.

(** A run continues a history: each call is decided by what came before it. *)
Lemma run_tallies b calls : ∀ h c,
  limits_fit (limits b) → Forall (λ x, op_fits x.1.1) calls → tallies (limits b) h c →
  ∃ rs c', run b calls c = (rs, c') ∧ length rs = length calls ∧ Forall settled rs ∧
    tallies (limits b) (h ++ zip (fst ∘ fst <$> calls) rs) c' ∧
    ∀ i o first second, calls !! i = Some (o, first, second) →
      (rs !! i = Some (Ok tt) ↔
       (in_time b first ∧ in_time b second) ∧ admits (limits b) (h ++ take i (zip (fst ∘ fst <$> calls) rs)) o).
Proof.
  induction calls as [|[[o p1] p2] calls IH]; intros h c Hf Hops Ht.
  { exists [], c. rewrite app_nil_r. by split_and!. }
  apply Forall_cons in Hops as [Ho Hops]. simpl in Ho.
  destruct (apply_tallies b p1 p2 h c o Hf Ho Ht) as (r & c1 & H1 & Ht1 & Hr & Hiff).
  destruct (IH _ _ Hf Hops Ht1) as (rs & c2 & H2 & Hl & Hrs & Ht2 & Hall).
  exists (r :: rs), c2. split; [simpl; by rewrite H1, H2|]. split; [simpl; lia|]. split; [by constructor|].
  rewrite <- app_assoc in Ht2. split; [done|]. intros [|i] o' q1 q2 Hi; simpl in Hi.
  - injection Hi as <- <- <-. simpl. rewrite app_nil_r, <- Hiff. naive_solver.
  - rewrite fmap_cons. simpl. rewrite (Hall i o' q1 q2 Hi), <- app_assoc. done.
Qed.

(** C17: However the operations on an exchange budget and its clones interleave,
    an operation succeeds exactly when both of its checks find the context live
    and the time before the deadline, and the rounds, the inputs of the round,
    the inputs and the bytes admitted so far leave room for it; the counters are
    those tallies of the successful operations and never pass the limits, so a
    refusal costs nothing.  The deadline is no later than the configured one, the
    context's and the caller's. *)
Theorem exchange_budget_exact l context context_deadline external b c0 calls :
  with_external_deadline l context context_deadline external = Ok (b, c0) →
  limits_fit l → Forall (λ x, op_fits x.1.1) calls →
  deadline b <= now context + wall_clock l ∧
  (∀ d, context_deadline = Some d ∨ external = Some d → deadline b <= d) ∧
  ∃ rs c, run b calls c0 = (rs, c) ∧ length rs = length calls ∧ Forall settled rs ∧
    tallies l (zip (fst ∘ fst <$> calls) rs) c ∧
    ∀ i o first second, calls !! i = Some (o, first, second) →
      (rs !! i = Some (Ok tt) ↔
       (in_time b first ∧ in_time b second) ∧ admits l (take i (zip (fst ∘ fst <$> calls) rs)) o).
Proof.
  unfold with_external_deadline, calculate_deadline, checked_add. intros H Hf Hops.
  case_if_in H; [done|]. case_if_in H; [done|]. case_if_in H; [|done]. cbn [obind] in H. injection H as <- <-. cbn [deadline].
  split; [destruct context_deadline, external; lia|].
  split. { intros d Hd. destruct context_deadline, external; destruct Hd as [Hd|Hd]; simplify_eq; lia. }
  set (b := {| limits := l; deadline := _ |}).
  assert (Ht : tallies (limits b) [] (MkCounters 0 0 0 0)). { unfold limits_fit in Hf. subst b. split; split; simpl; try done; lia. }
  apply (run_tallies b calls [] _ Hf Hops Ht).
Qed.

End Tally.

(** * The catalog *)
Module Catalog.
Import Builder.

(** The documented bounds of a snapshot. *)
Definition admissible (l : ProtocolLimits) : Prop :=
  1 <= rounds l <= 32 ∧ 1 <= inputs_per_round l <= 128 ∧ 1 <= inputs l <= 512 ∧ inputs_per_round l <= inputs l ∧
  1 <= state_bytes l <= 262144 ∧ 1 <= wall_clock l <= 3600000000000 ∧ 1 <= json_rpc_body_bytes l <= 33554432 ∧
  1 <= metadata_entries l <= 1024 ∧ 1 <= metadata_bytes l <= 1048576 ∧ 1 <= uri_bytes l <= 65536 ∧
  1 <= cancellation_reason_bytes l <= 65536 ∧ 1 <= cursor_bytes l <= 65536.

(** The fields are unsigned. *)
Definition unsigned (l : ProtocolLimits) : Prop :=
  0 <= rounds l ∧ 0 <= inputs_per_round l ∧ 0 <= inputs l ∧ 0 <= state_bytes l ∧ 0 <= wall_clock l ∧
  0 <= json_rpc_body_bytes l ∧ 0 <= metadata_entries l ∧ 0 <= metadata_bytes l ∧ 0 <= uri_bytes l ∧
  0 <= cancellation_reason_bytes l ∧ 0 <= cursor_bytes l.

(** What a builder would build. *)
Definition built (b : ProtocolLimitsBuilder) : ProtocolLimits :=
  Build_ProtocolLimits PROTOCOL_LIMITS_INITIAL_GENERATION (b_rounds b) (b_inputs_per_round b) (b_inputs b)
    (b_state_bytes b) (b_wall_clock b) (b_json_rpc_body_bytes b) (b_metadata_entries b) (b_metadata_bytes b)
    (b_uri_bytes b) (b_cancellation_reason_bytes b) (b_cursor_bytes b).

(** One validation: the value is within its range. *)
Ltac validation :=
  unfold validate_positive_u16, validate_u16_ceiling, validate_positive_usize, validate_usize_ceiling; case_goal_if;
  [right; split; [zbool; unfold admissible, unsigned, built in *; simpl in *; lia|by eexists]|]; cbn [obind].

Lemma build_cases b :
  unsigned (built b) → (admissible (built b) ∧ build b = Ok (built b)) ∨ (¬ admissible (built b) ∧ ∃ e, build b = Err e).
Proof.
  intros Hu. unfold build, HARD_LOGICAL_EXCHANGE_MAX_ROUNDS, HARD_LOGICAL_EXCHANGE_MAX_INPUTS_PER_ROUND,
    HARD_LOGICAL_EXCHANGE_MAX_INPUTS, HARD_LOGICAL_EXCHANGE_MAX_STATE_BYTES, HARD_LOGICAL_EXCHANGE_MAX_WALL_CLOCK,
    NANOS_PER_SECOND, HARD_JSON_RPC_MAX_BODY_BYTES, HARD_METADATA_MAX_ENTRIES, HARD_METADATA_MAX_BYTES, HARD_URI_MAX_BYTES,
    HARD_CANCELLATION_REASON_MAX_BYTES, HARD_CURSOR_MAX_BYTES.
  do 23 validation. left. split; [|done]. zbool. unfold admissible, unsigned, built in *. simpl in *. lia.
Qed.

(** Re-validating a snapshot: [validate] rebuilds it. *)
Lemma validate_cases l : unsigned l → (admissible l ∧ validate l = Ok tt) ∨ (¬ admissible l ∧ ∃ e, validate l = Err e).
Proof.
  intros Hu. unfold validate. set (b := cursor_max_bytes _ _).
  assert (Hl : ∀ P : ProtocolLimits → Prop, (∀ g l, P l ↔ P (Build_ProtocolLimits g (rounds l) (inputs_per_round l) (inputs l)
    (state_bytes l) (wall_clock l) (json_rpc_body_bytes l) (metadata_entries l) (metadata_bytes l) (uri_bytes l)
    (cancellation_reason_bytes l) (cursor_bytes l))) → P l ↔ P (built b)). { intros P HP. apply HP. }
  destruct (build_cases b) as [[Ha ->]|[Ha [e ->]]]; [by apply (Hl unsigned)|left|right]; cbn [obind].
  - split; [by apply (Hl admissible)|done].
  - split; [|by eexists]. by rewrite (Hl admissible).
Qed.

Definition stricter (a b : ProtocolLimits) : Prop :=
  generation a <= generation b ∧ rounds a <= rounds b ∧ inputs_per_round a <= inputs_per_round b ∧ inputs a <= inputs b ∧
  state_bytes a <= state_bytes b ∧ wall_clock a <= wall_clock b ∧ json_rpc_body_bytes a <= json_rpc_body_bytes b ∧
  metadata_entries a <= metadata_entries b ∧ metadata_bytes a <= metadata_bytes b ∧ uri_bytes a <= uri_bytes b ∧
  cancellation_reason_bytes a <= cancellation_reason_bytes b ∧ cursor_bytes a <= cursor_bytes b.

Lemma meet_unsigned a b : unsigned a → unsigned b → unsigned (meet a b).
Proof. unfold unsigned, meet. intros Ha Hb. destruct_and!. simpl. split_and!; by apply Z.min_glb. Qed.

Lemma meet_range lo hi x y : lo <= x <= hi → lo <= y <= hi → lo <= Z.min x y <= hi.
Proof. lia. Qed.

Lemma meet_admissible a b : admissible a → admissible b → admissible (meet a b).
Proof.
  unfold admissible, meet. intros Ha Hb. destruct Ha as (? & ? & ? & Hra & ? & ? & ? & ? & ? & ? & ? & ?).
  destruct Hb as (? & ? & ? & Hrb & ? & ? & ? & ? & ? & ? & ? & ?). simpl.
  do 11 (split; [first [apply meet_range; assumption|clear - Hra Hrb; lia]|]). apply meet_range; assumption.
Qed.

Lemma meet_charge a b row current additional n :
  try_charge (meet a b) row current additional = Ok n ↔
  try_charge a row current additional = Ok n ∧ try_charge b row current additional = Ok n.
Proof.
  unfold try_charge. destruct row; cbn [configured_units obind];
    destruct (checked_add current additional); try (split; [done|by intros []]).
  all: cbn [meet rounds inputs_per_round inputs state_bytes json_rpc_body_bytes metadata_entries metadata_bytes uri_bytes
    cancellation_reason_bytes cursor_bytes]; repeat case_goal_if; zbool; naive_solver lia.
Qed.

(** Validation accepts exactly the snapshots within the documented bounds.
    The meet of two valid snapshots is valid; it is the loosest snapshot that is
    at least as strict as both in every row, and it admits a charge exactly when
    both of them do, at the same count. *)
Theorem limits_meet_exact a b :
  unsigned a → unsigned b →
  (validate a = Ok tt ↔ admissible a) ∧
  (validate a = Ok tt → validate b = Ok tt → validate (tighten a b) = Ok tt) ∧
  (∀ l, stricter l (tighten a b) ↔ stricter l a ∧ stricter l b) ∧
  (∀ row current additional n, try_charge (tighten a b) row current additional = Ok n ↔
     try_charge a row current additional = Ok n ∧ try_charge b row current additional = Ok n).
Proof.
  intros Ha Hb. assert (Hv : ∀ l, unsigned l → validate l = Ok tt ↔ admissible l).
  { intros l Hl. destruct (validate_cases l Hl) as [[? ?]|[? [e ?]]]; [naive_solver|]. split; [congruence|naive_solver]. }
  split; [by apply Hv|]. split; [|split].
  - rewrite !Hv by (try done; by apply meet_unsigned). apply meet_admissible.
  - intros l. unfold stricter, tighten, meet. simpl. rewrite !Z.min_glb_iff. tauto.
  - intros. apply meet_charge.
Qed.

End Catalog.

(** * Concrete runs *)
Module Examples.

Section admission_example.
Import Admission.

Definition ex_partition : AdmissionPartition := Verified (replicate 32 7).
Definition ex_other : AdmissionPartition := PreAuth (replicate 32 7).
(** Two partitions of at most 3 units under 4 in all. *)
Definition ex_ops : list op :=
  [Reserve ex_partition 3 None; Reserve ex_partition 1 None; Reserve ex_other 2 None; Reserve ex_other 1 (Some 50);
   Commit 0 10; Commit 0 11; Commit 1 50; Release 0; Release 0; Drop 1; Reserve ex_partition 3 None; Cancel 7].

Definition ex_controller : AdmissionController :=
  {| snapshot := default_limits; global_limit := 4; partition_limit := 3 |}.
Definition ex_start : AdmissionState := MkState 0 ∅ 0 0 1 ∅ 0.

Example ex_admission_answers :
  (steps ex_controller ex_ops ([], ex_start)).1 =
    [Some (Ok tt); Some (Err (PartitionCapacityExceeded 1 3 3)); Some (Err (GlobalCapacityExceeded 2 3 4)); Some (Ok tt);
     Some (Ok tt); Some (Err AlreadySettled); Some (Err DeadlineExceeded); Some (Ok tt); Some (Err AlreadySettled);
     Some (Ok tt); Some (Ok tt); None].
Proof. vm_compute. reflexivity. Qed.

Lemma admission_refines_ledger_witness :
  ∃ rs hs s l, steps ex_controller ex_ops ([], ex_start) = (rs, (hs, s)) ∧ Ledger.ledger_steps 4 3 ex_ops [] = (rs, l) ∧
    Ledger.agrees ex_controller s l ∧ global_limit ex_controller = 4 ∧ partition_limit ex_controller = 3.
Proof.
  apply (Ledger.admission_refines_ledger default_limits 4 3 ex_controller ex_start ex_ops).
  - reflexivity.
  - unfold usize_max. lia.
  - unfold usize_max. lia.
  - repeat constructor; vm_compute; try done; repeat split; intros [=].
  - reflexivity.
Defined.
End admission_example.

Section exchange_example.
Import Exchange.

Definition ex_probe (t : Z) : Probe := {| now := t; ensure_live := true |}.
Definition ex_calls : list (op * Probe * Probe) :=
  [(ReserveInput 10, ex_probe 1, ex_probe 1); (StartRound, ex_probe 2, ex_probe 3); (ReserveInput 10, ex_probe 4, ex_probe 5);
   (ReserveStateBytes 65530, ex_probe 6, ex_probe 6); (ReserveStateBytes 65526, ex_probe 7, ex_probe 7);
   (StartRound, ex_probe 999, ex_probe 1000)].
Definition ex_budget : LogicalExchangeBudget := {| limits := default_limits; deadline := 1000 |}.

Example ex_budget_answers :
  (run ex_budget ex_calls (MkCounters 0 0 0 0)).1 =
    [Err InputOutsideRound; Ok tt; Ok tt; Err (StateByteLimitExceeded 65536); Ok tt; Err DeadlineExceeded].
Proof. vm_compute. reflexivity. Qed.

Lemma exchange_budget_exact_witness :
  ∃ rs c, run ex_budget ex_calls (MkCounters 0 0 0 0) = (rs, c) ∧
    Tally.tallies default_limits (zip (fst ∘ fst <$> ex_calls) rs) c ∧ state_bytes_admitted c = 65536.
Proof.
  destruct (Tally.exchange_budget_exact default_limits (ex_probe 0) (Some 2000) (Some 1000) ex_budget (MkCounters 0 0 0 0) ex_calls)
    as (_ & _ & rs & c & Hrun & _ & _ & Ht & _).
  - reflexivity.
  - unfold Tally.limits_fit. repeat split; vm_compute; intros [=].
  - repeat constructor; vm_compute; try done; repeat split; intros [=].
  - exists rs, c. split; [exact Hrun|]. split; [exact Ht|]. vm_compute in Hrun. by injection Hrun as _ <-.
Defined.
End exchange_example.

(** A snapshot with a tighter row than the defaults, and one with a looser one. *)
Definition ex_tight : ProtocolLimits := Build_ProtocolLimits 1 4 16 256 1024 1000 65536 8 4096 256 64 64.

Lemma limits_meet_exact_witness :
  validate (tighten default_limits ex_tight) = Ok tt ∧ inputs (tighten default_limits ex_tight) = 128 ∧
  rounds (tighten default_limits ex_tight) = 4.
Proof.
  split; [|done]. apply (Catalog.limits_meet_exact default_limits ex_tight).
  - unfold Catalog.unsigned. vm_compute. repeat split; intros [=].
  - unfold Catalog.unsigned. vm_compute. repeat split; intros [=].
  - reflexivity.
  - reflexivity.
Defined.

End Examples.

End LimitsCorrect.
