(* ===== verification/SecurityPartition.v ===== *)
(** Security partitions: keys derived from verified facts, records reachable only
    under the current authorization, quota and revalidation admission,
    [crates/fastmcp-core/src/partition.rs].

    Strings are lists of characters, digests lists of bytes, instants
    nanoseconds.  The struct around each kind of key is left out: a key is its
    digest.  The controller's mutex is held throughout each operation, so
    operations on clones are sequences of whole operations; [begin_revalidation]
    reads its clock before it takes the mutex, so the instants need not be
    ordered. *)
From stdpp Require Import base list gmap strings.
From Stdlib Require Import ZArith Lia.
From S2P Require Import Prelude Utf8 RequestId RateLimit CoreLimits.

Module Partition.
Import Limits.SealedKeys.

Definition DEFAULT_REVALIDATIONS_PER_PARTITION : Z := 2.
Definition HARD_REVALIDATIONS_PER_PARTITION : Z := 16.
Definition DEFAULT_REVALIDATIONS_PER_PROVIDER : Z := 32.
Definition HARD_REVALIDATIONS_PER_PROVIDER : Z := 256.
Definition DEFAULT_REVALIDATIONS_PER_DEPLOYMENT : Z := 256.
Definition HARD_REVALIDATIONS_PER_DEPLOYMENT : Z := 4096.
Definition DEFAULT_ATTEMPTS_PER_MINUTE_PER_PARTITION : Z := 120.
Definition HARD_ATTEMPTS_PER_MINUTE_PER_PARTITION : Z := 6000.
Definition DEFAULT_ATTEMPTS_PER_MINUTE_PER_PROVIDER : Z := 10000.
Definition HARD_ATTEMPTS_PER_MINUTE_PER_PROVIDER : Z := 100000.
Definition ATTEMPT_RATE_WINDOW : Z := 60 * 1000000000.
Definition AUDIENCE_BINDING_MAX_BYTES : Z := 8 * 1024.

(** * The descriptor and the keys *)

(** The loop of [require_audience_binding] from a running total. *)
Fixpoint check_binding (binding : list (list Z)) (total : Z) : outcome SealedAdmissionKeyError unit :=
  match binding with
  | [] => Ok tt
  | part :: rest =>
      if bool_decide (part = []) then Err EmptyField
      else
        match checked_add total (zlen part) with
        | None => Err FieldTooLong
        | Some total => if AUDIENCE_BINDING_MAX_BYTES <? total then Err FieldTooLong else check_binding rest total
        end
  end.

Definition require_audience_binding (binding : list (list Z)) : outcome SealedAdmissionKeyError (list (list Z)) :=
  if bool_decide (binding = []) then Err EmptyField
  else let? _ := check_binding binding 0 in Ok binding.

Record PartitionDescriptor : Type := {
  provider : list Z;
  configuration_generation : Z;
  issuer : list Z;
  canonical_resource : list Z;
  tenant : list Z;
  subject : list Z;
  client : list Z;
  trust_generation : Z;
  auth_policy_revision : Z;
  identity : Sha256Digest }.

(** The arguments of [from_verified_facts]. *)
Record VerifiedFacts : Type := {
  f_provider : list Z;
  f_configuration_generation : Z;
  f_issuer : list Z;
  f_canonical_resource : list Z;
  f_tenant : list Z;
  f_subject : list Z;
  f_client : list Z;
  f_trust_generation : Z;
  f_auth_policy_revision : Z;
  f_audience_binding : list (list Z) }.

(** [encode_grants]: the number of the grants, and each behind its length. *)
Fixpoint encode_each (grants : list (list Z)) : outcome SealedAdmissionKeyError (list Z) :=
  match grants with
  | [] => Ok []
  | grant :: rest =>
      let? field := require_admission_field grant in
      let? encoded := encode_each rest in
      Ok (to_be_bytes (zlen field) ++ field ++ encoded)
  end.
Definition encode_grants (grants : list (list Z)) : outcome SealedAdmissionKeyError (list Z) :=
  let? encoded := encode_each grants in Ok (to_be_bytes (zlen grants) ++ encoded).

Section keys.
Context (sha256 : list Z → Sha256Digest).
Local Abbreviation derived := (outcome SealedAdmissionKeyError Sha256Digest).

Definition from_verified_facts (f : VerifiedFacts) : outcome SealedAdmissionKeyError PartitionDescriptor :=
  let? binding := require_audience_binding (f_audience_binding f) in
  let? binding_count := (if zlen binding <=? u64_max then Ok (zlen binding) else Err FieldTooLong) in
  let? p := require_admission_field (f_provider f) in
  let? i := require_admission_field (f_issuer f) in
  let? r := require_admission_field (f_canonical_resource f) in
  let? t := require_admission_field (f_tenant f) in
  let? s := require_admission_field (f_subject f) in
  let? c := require_admission_field (f_client f) in
  let? identity := opaque_admission_digest sha256
    ([chars_of "auth-00-partition-descriptor-v2"; p; to_be_bytes (f_configuration_generation f); i; r; t; s; c;
      to_be_bytes (f_trust_generation f); to_be_bytes (f_auth_policy_revision f); to_be_bytes binding_count] ++ binding) in
  Ok {| provider := f_provider f; configuration_generation := f_configuration_generation f; issuer := f_issuer f;
        canonical_resource := f_canonical_resource f; tenant := f_tenant f; subject := f_subject f; client := f_client f;
        trust_generation := f_trust_generation f; auth_policy_revision := f_auth_policy_revision f; identity := identity |}.

Definition cache_key (d : PartitionDescriptor) (effective_grants : list (list Z))
    (token_instance representation_policy cache_domain : list Z) : derived :=
  let? grants := encode_grants effective_grants in
  let? token := require_admission_field token_instance in
  let? policy := require_admission_field representation_policy in
  let? domain := require_admission_field cache_domain in
  opaque_admission_digest sha256 [chars_of "auth-00-cache-partition-v1"; identity d; grants; token; policy; domain].

Definition continuation_key (d : PartitionDescriptor) (grant_snapshot : list (list Z))
    (method_parameter_binding capability_fingerprint continuation_policy domain : list Z) : derived :=
  let? grants := encode_grants grant_snapshot in
  let? binding := require_admission_field method_parameter_binding in
  let? fingerprint := require_admission_field capability_fingerprint in
  let? policy := require_admission_field continuation_policy in
  let? domain := require_admission_field domain in
  opaque_admission_digest sha256
    [chars_of "auth-00-continuation-partition-v1"; identity d; grants; binding; fingerprint; policy; domain].

Definition durable_owner_key (d : PartitionDescriptor) (ownership_epoch : Z) : derived :=
  let? i := require_admission_field (issuer d) in
  let? t := require_admission_field (tenant d) in
  let? s := require_admission_field (subject d) in
  let? c := require_admission_field (client d) in
  let? r := require_admission_field (canonical_resource d) in
  let? p := require_admission_field (provider d) in
  opaque_admission_digest sha256
    [chars_of "auth-00-durable-owner-v1"; i; t; s; c; r; p; to_be_bytes ownership_epoch].

(** [PartitionAuthorization::current] *)
Definition current {E} (d : PartitionDescriptor) (owner : Sha256Digest) : outcome E Sha256Digest :=
  opaque_admission_digest sha256 [chars_of "auth-00-partition-authorization-v1"; identity d; owner].

Definition subscription_key (d : PartitionDescriptor) (effective_grants : list (list Z))
    (token_instance subscription_topic delivery_policy : list Z) : derived :=
  let? grants := encode_grants effective_grants in
  let? token := require_admission_field token_instance in
  let? topic := require_admission_field subscription_topic in
  let? policy := require_admission_field delivery_policy in
  opaque_admission_digest sha256 [chars_of "auth-00-subscription-partition-v1"; identity d; grants; token; topic; policy].

Definition credential_store_key (d : PartitionDescriptor) (store_domain credential_class token_instance : list Z) : derived :=
  let? domain := require_admission_field store_domain in
  let? class := require_admission_field credential_class in
  let? token := require_admission_field token_instance in
  opaque_admission_digest sha256 [chars_of "auth-00-credential-store-v1"; identity d; domain; class; token].

Definition quota_key (d : PartitionDescriptor) (quota_epoch : Z) : derived :=
  let? p := require_admission_field (provider d) in
  let? r := require_admission_field (canonical_resource d) in
  let? t := require_admission_field (tenant d) in
  let? s := require_admission_field (subject d) in
  let? c := require_admission_field (client d) in
  opaque_admission_digest sha256 [chars_of "auth-00-quota-partition-v1"; p; r; t; s; c; to_be_bytes quota_epoch].

Definition revalidation_flight_key (d : PartitionDescriptor) (purpose : list Z) : derived :=
  let? purpose := require_admission_field purpose in
  opaque_admission_digest sha256 [chars_of "auth-00-revalidation-flight-v1"; identity d; purpose].

Definition replay_reservation_key (d : PartitionDescriptor) (replay_alias purpose : list Z) : derived :=
  let? replay := require_admission_field replay_alias in
  let? purpose := require_admission_field purpose in
  opaque_admission_digest sha256 [chars_of "auth-00-replay-reservation-v1"; identity d; replay; purpose].

Definition provider_bucket {E} (d : PartitionDescriptor) : outcome E Sha256Digest :=
  opaque_admission_digest sha256 [chars_of "auth-00-provider-bucket-v1"; as_bytes (provider d)].
End keys.

(** * Slots, limits and errors *)

Inductive LookupPurpose : Type := Cache | Continuation | Subscription | CredentialStore.
#[export] Instance LookupPurpose_eq_dec : EqDecision LookupPurpose.
Proof. solve_decision. Defined.

Inductive PartitionSlot : Type :=
| CacheSlot (key : Sha256Digest)
| ContinuationSlot (key : Sha256Digest)
| SubscriptionSlot (key : Sha256Digest)
| CredentialStoreSlot (key : Sha256Digest).

Definition purpose (s : PartitionSlot) : LookupPurpose :=
  match s with
  | CacheSlot _ => Cache
  | ContinuationSlot _ => Continuation
  | SubscriptionSlot _ => Subscription
  | CredentialStoreSlot _ => CredentialStore
  end.
Definition key_bytes (s : PartitionSlot) : list Z :=
  match s with CacheSlot k | ContinuationSlot k | SubscriptionSlot k | CredentialStoreSlot k => k end.

Inductive LookupOutcome : Type := Present (value : list Z) | Absent.

Inductive RevalidationLimitsError : Type := ZeroConcurrency | ZeroAttemptRate | ExceedsHardCeiling.

Record RevalidationLimits : Type := {
  per_partition : Z;
  per_provider : Z;
  per_deployment : Z;
  partition_attempts_per_minute : Z;
  provider_attempts_per_minute : Z }.

Definition default_revalidation_limits : RevalidationLimits :=
  {| per_partition := DEFAULT_REVALIDATIONS_PER_PARTITION;
     per_provider := DEFAULT_REVALIDATIONS_PER_PROVIDER;
     per_deployment := DEFAULT_REVALIDATIONS_PER_DEPLOYMENT;
     partition_attempts_per_minute := DEFAULT_ATTEMPTS_PER_MINUTE_PER_PARTITION;
     provider_attempts_per_minute := DEFAULT_ATTEMPTS_PER_MINUTE_PER_PROVIDER |}.

(** [RevalidationLimits::new] *)
Definition new_limits (partition provider deployment partition_attempts provider_attempts : Z)
    : outcome RevalidationLimitsError RevalidationLimits :=
  if (partition =? 0) || (provider =? 0) || (deployment =? 0) then Err ZeroConcurrency
  else if (partition_attempts =? 0) || (provider_attempts =? 0) then Err ZeroAttemptRate
  else if (HARD_REVALIDATIONS_PER_PARTITION <? partition) || (HARD_REVALIDATIONS_PER_PROVIDER <? provider) ||
          (HARD_REVALIDATIONS_PER_DEPLOYMENT <? deployment) ||
          (HARD_ATTEMPTS_PER_MINUTE_PER_PARTITION <? partition_attempts) ||
          (HARD_ATTEMPTS_PER_MINUTE_PER_PROVIDER <? provider_attempts) then Err ExceedsHardCeiling
  else Ok {| per_partition := partition; per_provider := provider; per_deployment := deployment;
             partition_attempts_per_minute := partition_attempts; provider_attempts_per_minute := provider_attempts |}.

Inductive PartitionAdmissionError : Type :=
| ZeroUnits
| ZeroCapacity
| QuotaExhausted (requested in_use limit : Z)
| QuotaAlreadySettled
| RevalidationAlreadyInFlight
| PartitionRevalidationLimitExceeded (in_flight limit : Z)
| ProviderRevalidationLimitExceeded (in_flight limit : Z)
| DeploymentRevalidationLimitExceeded (in_flight limit : Z)
| PartitionAttemptRateExceeded (attempts limit : Z)
| ProviderAttemptRateExceeded (attempts limit : Z)
| RevalidationAlreadyFinished
| ReplayAliasAlreadyReserved.

(** * The controller *)

(** [RecordSlot]: purpose, key and authorization. *)
Definition RecordSlot : Type := LookupPurpose * list Z * list Z.
#[export] Instance LookupPurpose_countable : Countable LookupPurpose.
Proof.
  refine (inj_countable'
    (λ p, match p with Cache => 0%nat | Continuation => 1%nat | Subscription => 2%nat | CredentialStore => 3%nat end)
    (λ n, match n with 0%nat => Cache | 1%nat => Continuation | 2%nat => Subscription | _ => CredentialStore end) _).
  by intros [].
Defined.
#[export] Instance RecordSlot_eq_dec : EqDecision RecordSlot.
Proof. unfold RecordSlot. apply _. Defined.
#[export] Instance RecordSlot_countable : Countable RecordSlot.
Proof. unfold RecordSlot. apply _. Defined.

Record AttemptWindow : Type := { started : Z; attempts : Z }.

Abbreviation digest := (list Z).

Record PartitionState : Type := MkState {
  records : gmap RecordSlot (list Z);
  quota_in_use : gmap digest Z;
  quota_live : gmap Z (digest * Z);
  next_quota_id : Z;
  open_flights : gmap digest Z;
  flight_owner : gmap Z (digest * digest * digest);
  next_flight_id : Z;
  partition_flights : gmap digest Z;
  provider_flights : gmap digest Z;
  deployment_flights : Z;
  partition_attempts : gmap digest AttemptWindow;
  provider_attempts : gmap digest AttemptWindow;
  replay_reservations : gmap digest digest;
  denial_count : Z }.

(** [PartitionState::default] *)
Definition default_state : PartitionState := MkState ∅ ∅ ∅ 0 ∅ ∅ 0 ∅ ∅ 0 ∅ ∅ ∅ 0.

Record PartitionAdmissionController : Type := { limits : RevalidationLimits; quota_capacity : Z }.

Definition new (limits : RevalidationLimits) (quota_capacity : Z)
    : outcome PartitionAdmissionError (PartitionAdmissionController * PartitionState) :=
  if quota_capacity =? 0 then Err ZeroCapacity
  else Ok ({| limits := limits; quota_capacity := quota_capacity |}, default_state).

(** ** Changes of single fields *)

Definition set_records (r : gmap RecordSlot (list Z)) (s : PartitionState) : PartitionState :=
  MkState r (quota_in_use s) (quota_live s) (next_quota_id s) (open_flights s) (flight_owner s) (next_flight_id s)
    (partition_flights s) (provider_flights s) (deployment_flights s) (partition_attempts s) (provider_attempts s)
    (replay_reservations s) (denial_count s).
Definition set_quota (u : gmap digest Z) (l : gmap Z (digest * Z)) (n : Z) (s : PartitionState) : PartitionState :=
  MkState (records s) u l n (open_flights s) (flight_owner s) (next_flight_id s)
    (partition_flights s) (provider_flights s) (deployment_flights s) (partition_attempts s) (provider_attempts s)
    (replay_reservations s) (denial_count s).
Definition set_flights (o : gmap digest Z) (w : gmap Z (digest * digest * digest)) (n : Z) (pf vf : gmap digest Z) (df : Z)
    (s : PartitionState) : PartitionState :=
  MkState (records s) (quota_in_use s) (quota_live s) (next_quota_id s) o w n pf vf df (partition_attempts s)
    (provider_attempts s) (replay_reservations s) (denial_count s).
Definition set_attempts (pa va : gmap digest AttemptWindow) (s : PartitionState) : PartitionState :=
  MkState (records s) (quota_in_use s) (quota_live s) (next_quota_id s) (open_flights s) (flight_owner s) (next_flight_id s)
    (partition_flights s) (provider_flights s) (deployment_flights s) pa va (replay_reservations s) (denial_count s).
Definition set_replays (r : gmap digest digest) (s : PartitionState) : PartitionState :=
  MkState (records s) (quota_in_use s) (quota_live s) (next_quota_id s) (open_flights s) (flight_owner s) (next_flight_id s)
    (partition_flights s) (provider_flights s) (deployment_flights s) (partition_attempts s) (provider_attempts s)
    r (denial_count s).
(** [state.denial_count = state.denial_count.saturating_add(1)] *)
Definition count_denial (s : PartitionState) : PartitionState :=
  MkState (records s) (quota_in_use s) (quota_live s) (next_quota_id s) (open_flights s) (flight_owner s) (next_flight_id s)
    (partition_flights s) (provider_flights s) (deployment_flights s) (partition_attempts s) (provider_attempts s)
    (replay_reservations s) (saturating_add (denial_count s) 1).

(** ** Records *)

Definition record_slot (authorization : digest) (slot : PartitionSlot) : RecordSlot :=
  (purpose slot, key_bytes slot, authorization).

(** [store]: the value that was there before, and the state. *)
Definition store (authorization : digest) (slot : PartitionSlot) (value : list Z) (s : PartitionState)
    : option (list Z) * PartitionState :=
  (records s !! record_slot authorization slot, set_records (<[record_slot authorization slot := value]> (records s)) s).

Definition lookup (authorization : digest) (slot : PartitionSlot) (s : PartitionState) : LookupOutcome :=
  match records s !! record_slot authorization slot with Some value => Present value | None => Absent end.

Definition record_count (s : PartitionState) : Z := Z.of_nat (size (records s)).

(** ** Quota *)

(** A handle: [QuotaReservation] or [RevalidationFlight]. *)
Record Handle : Type := { id : Z; live : bool }.
Definition dead (h : Handle) : Handle := {| id := id h; live := false |}.

Definition deny {A} (e : PartitionAdmissionError) : M PartitionState PartitionAdmissionError A :=
  modify count_denial ;! fail e.

Definition reserve_quota (c : PartitionAdmissionController) (bucket : digest) (units : Z)
    : M PartitionState PartitionAdmissionError Handle :=
  if units =? 0 then fail ZeroUnits
  else
    let! s := get in
    let in_use := default 0 (quota_in_use s !! bucket) in
    let! next := ok_or (checked_add in_use units) (QuotaExhausted units in_use (quota_capacity c)) in
    if quota_capacity c <? next then deny (QuotaExhausted units in_use (quota_capacity c))
    else
      modify (λ s, set_quota (<[bucket := next]> (quota_in_use s)) (<[next_quota_id s := (bucket, units)]> (quota_live s))
        (saturating_add (next_quota_id s) 1) s) ;!
      ret {| id := next_quota_id s; live := true |}.

(** [QuotaReservation::release] *)
Definition release_quota (h : Handle) (s : PartitionState) : outcome PartitionAdmissionError unit * Handle * PartitionState :=
  if negb (live h) then (Err QuotaAlreadySettled, h, s)
  else
    match quota_live s !! id h with
    | None => (Err QuotaAlreadySettled, dead h, s)
    | Some (bucket, units) =>
        let remaining := saturating_sub (default 0 (quota_in_use s !! bucket)) units in
        (Ok tt, dead h,
         set_quota (if remaining =? 0 then delete bucket (quota_in_use s) else <[bucket := remaining]> (quota_in_use s))
           (delete (id h) (quota_live s)) (next_quota_id s) s)
    end.

(** [Drop] of a [QuotaReservation] *)
Definition drop_quota (h : Handle) (s : PartitionState) : Handle * PartitionState :=
  if live h then let '(_, h, s) := release_quota h s in (h, s) else (h, s).

(** ** Revalidation *)

(** [Instant::duration_since] saturates. *)
Definition duration_since (now earlier : Z) : Z := Z.max 0 (now - earlier).

Definition window_attempts (windows : gmap digest AttemptWindow) (bucket : digest) (now : Z) : Z :=
  match windows !! bucket with
  | None => 0
  | Some w => if ATTEMPT_RATE_WINDOW <=? duration_since now (started w) then 0 else attempts w
  end.

(** [u32::saturating_add] *)
Definition saturating_add32 (a b : Z) : Z := Z.min (a + b) (2 ^ 32 - 1).

Definition charge_attempt (windows : gmap digest AttemptWindow) (bucket : digest) (now : Z) : gmap digest AttemptWindow :=
  let entry := default {| started := now; attempts := 0 |} (windows !! bucket) in
  let entry := if ATTEMPT_RATE_WINDOW <=? duration_since now (started entry) then {| started := now; attempts := 0 |} else entry in
  <[bucket := {| started := started entry; attempts := saturating_add32 (attempts entry) 1 |}]> windows.

(** [begin_revalidation] after its descriptor's identity and provider bucket are
    known, at the instant [now]. *)
Definition begin_flight (c : PartitionAdmissionController) (partition provider flight_key : digest) (now : Z)
    : M PartitionState PartitionAdmissionError Handle :=
  let! s := get in
  let l := limits c in
  if bool_decide (is_Some (open_flights s !! flight_key)) then deny RevalidationAlreadyInFlight
  else
    let pa := window_attempts (partition_attempts s) partition now in
    if partition_attempts_per_minute l <=? pa then
      deny (PartitionAttemptRateExceeded pa (partition_attempts_per_minute l))
    else
      let va := window_attempts (provider_attempts s) provider now in
      if provider_attempts_per_minute l <=? va then
        deny (ProviderAttemptRateExceeded va (provider_attempts_per_minute l))
      else
        let pf := default 0 (partition_flights s !! partition) in
        if per_partition l <=? pf then deny (PartitionRevalidationLimitExceeded pf (per_partition l))
        else
          let vf := default 0 (provider_flights s !! provider) in
          if per_provider l <=? vf then deny (ProviderRevalidationLimitExceeded vf (per_provider l))
          else if per_deployment l <=? deployment_flights s then
            deny (DeploymentRevalidationLimitExceeded (deployment_flights s) (per_deployment l))
          else
            modify (λ s, set_attempts (charge_attempt (partition_attempts s) partition now)
              (charge_attempt (provider_attempts s) provider now) s) ;!
            modify (λ s, set_flights (<[flight_key := next_flight_id s]> (open_flights s))
              (<[next_flight_id s := (flight_key, partition, provider)]> (flight_owner s))
              (saturating_add (next_flight_id s) 1)
              (<[partition := saturating_add pf 1]> (partition_flights s))
              (<[provider := saturating_add vf 1]> (provider_flights s))
              (saturating_add (deployment_flights s) 1) s) ;!
            ret {| id := next_flight_id s; live := true |}.

Definition begin_revalidation (sha256 : list Z → Sha256Digest) (c : PartitionAdmissionController)
    (d : PartitionDescriptor) (flight : digest) (now : Z) : M PartitionState PartitionAdmissionError Handle :=
  let! provider := lift (provider_bucket sha256 d) in
  begin_flight c (identity d) provider flight now.

(** A counter one less; at zero its entry goes. *)
Definition count_down (m : gmap digest Z) (k : digest) : gmap digest Z :=
  let remaining := saturating_sub (default 0 (m !! k)) 1 in
  if remaining =? 0 then delete k m else <[k := remaining]> m.

(** [RevalidationFlight::finish] *)
Definition finish (h : Handle) (s : PartitionState) : outcome PartitionAdmissionError unit * Handle * PartitionState :=
  if negb (live h) then (Err RevalidationAlreadyFinished, h, s)
  else
    match flight_owner s !! id h with
    | None => (Ok tt, dead h, s)
    | Some (flight_key, partition, provider) =>
        (Ok tt, dead h,
         set_flights (delete flight_key (open_flights s)) (delete (id h) (flight_owner s)) (next_flight_id s)
           (count_down (partition_flights s) partition) (count_down (provider_flights s) provider)
           (saturating_sub (deployment_flights s) 1) s)
    end.

(** [Drop] of a [RevalidationFlight] *)
Definition drop_flight (h : Handle) (s : PartitionState) : Handle * PartitionState :=
  if live h then let '(_, h, s) := finish h s in (h, s) else (h, s).

(** ** Replay *)

Definition reserve_replay (partition alias : digest) : M PartitionState PartitionAdmissionError unit :=
  let! s := get in
  if bool_decide (is_Some (replay_reservations s !! alias)) then deny ReplayAliasAlreadyReserved
  else modify (λ s, set_replays (<[alias := partition]> (replay_reservations s)) s).

Definition replay_reserved (alias : digest) (s : PartitionState) : bool :=
  bool_decide (is_Some (replay_reservations s !! alias)).

(** * All operations, on a controller, its clones and the handles given out *)

(** [Begin] is [begin_revalidation] of a descriptor of that identity and provider
    bucket. *)
Inductive op : Type :=
| Store (authorization : digest) (slot : PartitionSlot) (value : list Z)
| ReserveQuota (bucket : digest) (units : Z)
| ReleaseQuota (i : nat)
| DropQuota (i : nat)
| Begin (partition provider flight_key : digest) (now : Z)
| Finish (i : nat)
| DropFlight (i : nat)
| ReserveReplay (partition alias : digest).

Record World : Type := { quotas : list Handle; flights : list Handle; state : PartitionState }.

(** What the caller sees; [None] for a handle there is not. *)
Abbreviation answer := (option (outcome PartitionAdmissionError unit)).

Definition opened (r : outcome PartitionAdmissionError Handle) : outcome PartitionAdmissionError unit := let? _ := r in Ok tt.
Definition new_handle (r : outcome PartitionAdmissionError Handle) : list Handle := match r with Ok h => [h] | _ => [] end.

Definition step (c : PartitionAdmissionController) (o : op) (w : World) : answer * World :=
  match o with
  | Store a slot v =>
      (Some (Ok tt), {| quotas := quotas w; flights := flights w; state := (store a slot v (state w)).2 |})
  | ReserveQuota b u =>
      let '(r, s) := reserve_quota c b u (state w) in
      (Some (opened r), {| quotas := quotas w ++ new_handle r; flights := flights w; state := s |})
  | ReleaseQuota i =>
      match quotas w !! i with
      | None => (None, w)
      | Some h => let '(r, h, s) := release_quota h (state w) in
                  (Some r, {| quotas := <[i := h]> (quotas w); flights := flights w; state := s |})
      end
  | DropQuota i =>
      match quotas w !! i with
      | None => (None, w)
      | Some h => let '(h, s) := drop_quota h (state w) in
                  (Some (Ok tt), {| quotas := <[i := h]> (quotas w); flights := flights w; state := s |})
      end
  | Begin p v k now =>
      let '(r, s) := begin_flight c p v k now (state w) in
      (Some (opened r), {| quotas := quotas w; flights := flights w ++ new_handle r; state := s |})
  | Finish i =>
      match flights w !! i with
      | None => (None, w)
      | Some h => let '(r, h, s) := finish h (state w) in
                  (Some r, {| quotas := quotas w; flights := <[i := h]> (flights w); state := s |})
      end
  | DropFlight i =>
      match flights w !! i with
      | None => (None, w)
      | Some h => let '(h, s) := drop_flight h (state w) in
                  (Some (Ok tt), {| quotas := quotas w; flights := <[i := h]> (flights w); state := s |})
      end
  | ReserveReplay p a =>
      let '(r, s) := reserve_replay p a (state w) in
      (Some r, {| quotas := quotas w; flights := flights w; state := s |})
  end.

Fixpoint steps (c : PartitionAdmissionController) (os : list op) (w : World) : list answer * World :=
  match os with
  | [] => ([], w)
  | o :: os => let '(r, w) := step c o w in let '(rs, w) := steps c os w in (r :: rs, w)
  end.

Definition initial (s : PartitionState) : World := {| quotas := []; flights := []; state := s |}.

End Partition.
