(* ===== verification/SecurityPartitionTheorems.v ===== *)
(** What security partitions promise: keys tell their facts apart, a record is
    reached only under the facts it was stored under, and the admission counters
    are the books of what is in use. *)
From stdpp Require Import base list gmap strings.
From Stdlib Require Import ZArith Lia.
From S2P Require Import Prelude Utf8 RequestId RateLimit CoreLimits SecurityPartition.

Module PartitionCorrect.
Import Limits.SealedKeys Partition.

(** * Texts that are hashed *)

Lemma as_bytes_cons c s : as_bytes (c :: s) = encode_utf8 c ++ as_bytes s.
Proof. done. Qed.

Lemma as_bytes_inj s t : Forall is_scalar s → Forall is_scalar t → as_bytes s = as_bytes t → s = t.
Proof.
  intros Hs. revert t. induction Hs as [|c s Hc Hs IH]; intros t Ht Heq; destruct Ht as [|d t Hd Ht]; try done.
  - symmetry in Heq. rewrite as_bytes_cons in Heq. apply app_nil in Heq as [Heq _]. by apply encode_utf8_ne in Heq.
  - rewrite as_bytes_cons in Heq. apply app_nil in Heq as [Heq _]. by apply encode_utf8_ne in Heq.
  - rewrite !as_bytes_cons in Heq. assert (c = d) as <-.
    { pose proof (decode_encode_utf8 c (as_bytes s) Hc) as H1. rewrite Heq, decode_encode_utf8 in H1 by done. congruence. }
    apply app_inv_head in Heq. f_equal. by apply IH.
Qed.

Lemma encode_parts_cons p ps : encode_parts (p :: ps) = to_be_bytes (zlen p) ++ p ++ encode_parts ps.
Proof. unfold encode_parts. rewrite bind_cons. by rewrite <- app_assoc. Qed.

Lemma zlen_to_be_bytes n : zlen (to_be_bytes n) = 8.
Proof. done. Qed.

Lemma zlen_encode_parts ps : zlen (encode_parts ps) = sum ((λ p, 8 + zlen p) <$> ps).
Proof.
  induction ps as [|p ps IH]; [done|]. rewrite encode_parts_cons, !zlen_app, IH, sum_fmap_cons, zlen_to_be_bytes. lia.
Qed.

(** Parts behind their lengths can be told apart. *)
Lemma encode_parts_inj ps : ∀ qs,
  zlen (encode_parts ps) < 2 ^ 64 → zlen (encode_parts qs) < 2 ^ 64 → encode_parts ps = encode_parts qs → ps = qs.
Proof.
  assert (Hnil : ∀ p ps, encode_parts (p :: ps) ≠ []).
  { intros p qs H. apply (f_equal zlen) in H. rewrite encode_parts_cons, !zlen_app, zlen_to_be_bytes in H.
    pose proof (zlen_nonneg p). pose proof (zlen_nonneg (encode_parts qs)). change (zlen (@nil Z)) with 0 in H. lia. }
  induction ps as [|p ps IH]; intros [|q qs] Hp Hq H; [done|by destruct (Hnil q qs)|by destruct (Hnil p ps)|].
  rewrite encode_parts_cons, !zlen_app, zlen_to_be_bytes in Hp, Hq. rewrite !encode_parts_cons in H.
  pose proof (zlen_nonneg p). pose proof (zlen_nonneg q).
  pose proof (zlen_nonneg (encode_parts ps)). pose proof (zlen_nonneg (encode_parts qs)).
  apply app_inj_1 in H as [Hlen H]; [|done]. apply to_be_bytes_inj in Hlen; [|lia..].
  apply app_inj_1 in H as [-> H]; [|unfold zlen in Hlen; lia]. f_equal. apply IH; [lia..|done].
Qed.

Section digests.
Context (sha256 : list Z → Sha256Digest).

Definition collision : Prop := ∃ x y, x ≠ y ∧ sha256 x = sha256 y.

(** A digest is made of parts of at most 64 KiB; otherwise the code panics. *)
Lemma digest_cases {E} parts :
  (zlen (encode_parts parts) <= 65536 ∧ opaque_admission_digest (E:=E) sha256 parts = Ok (sha256 (encode_parts parts))) ∨
  (65536 < zlen (encode_parts parts) ∧ opaque_admission_digest (E:=E) sha256 parts = Panic).
Proof.
  unfold opaque_admission_digest, sha256_bounded, OPAQUE_ADMISSION_KEY_HASH_LIMIT. case_goal_if; zbool; [right|left]; split; done || lia.
Qed.

Lemma digest_inj {E F} ps qs d :
  opaque_admission_digest (E:=E) sha256 ps = Ok d → opaque_admission_digest (E:=F) sha256 qs = Ok d → collision ∨ ps = qs.
Proof.
  intros H1 H2. destruct (@digest_cases E ps) as [[Hp Ep]|[_ Ep]]; [|congruence].
  destruct (@digest_cases F qs) as [[Hq Eq]|[_ Eq]]; [|congruence]. rewrite Ep in H1. rewrite Eq in H2.
  destruct (decide (encode_parts ps = encode_parts qs)) as [H|H].
  - right. apply encode_parts_inj; [lia..|done].
  - left. exists (encode_parts ps), (encode_parts qs). split; [done|]. congruence.
Qed.

Lemma field_ok v b : require_admission_field v = Ok b → b = as_bytes v ∧ v ≠ [] ∧ zlen b <= 8192.
Proof.
  unfold require_admission_field, MAX_ADMISSION_FIELD_BYTES. case_bool_decide; [done|]. case_goal_if; [done|].
  intros [= <-]. zbool. done.
Qed.

(** The parts of a descriptor's identity. *)
Definition fact_parts (f : VerifiedFacts) : list (list Z) :=
  [chars_of "auth-00-partition-descriptor-v2"; as_bytes (f_provider f); to_be_bytes (f_configuration_generation f);
   as_bytes (f_issuer f); as_bytes (f_canonical_resource f); as_bytes (f_tenant f); as_bytes (f_subject f);
   as_bytes (f_client f); to_be_bytes (f_trust_generation f); to_be_bytes (f_auth_policy_revision f);
   to_be_bytes (zlen (f_audience_binding f))] ++ f_audience_binding f.

(** Facts of the types of the source: strings of characters, generations of 64 bits. *)
Definition facts_typed (f : VerifiedFacts) : Prop :=
  Forall (Forall is_scalar) [f_provider f; f_issuer f; f_canonical_resource f; f_tenant f; f_subject f; f_client f] ∧
  Forall (λ n, 0 <= n < 2 ^ 64) [f_configuration_generation f; f_trust_generation f; f_auth_policy_revision f].

Lemma cons_inv {A} (x y : A) l k : x :: l = y :: k → x = y ∧ l = k.
Proof. by intros [=]. Qed.

Lemma fact_parts_inj f g : facts_typed f → facts_typed g → fact_parts f = fact_parts g → f = g.
Proof.
  intros [Hs Hn] [Hs' Hn'] H. unfold fact_parts in H. rewrite !Forall_cons in *.
  destruct_and!. cbn [app] in H. do 11 (apply cons_inv in H as [? H]). destruct f, g; cbn in H |- *.
  repeat match goal with
  | H : as_bytes _ = as_bytes _ |- _ => apply as_bytes_inj in H; [|done..]
  | H : to_be_bytes (zlen _) = _ |- _ => clear H
  | H : to_be_bytes _ = to_be_bytes _ |- _ => apply to_be_bytes_inj in H; [|done..]
  end. by f_equal.
Qed.

(** A key derivation succeeds on fields that pass, and on nothing else. *)
Ltac field_step H :=
  match type of H with
  | obind (require_admission_field ?v) _ = _ =>
      let b := fresh "b" in let E := fresh "Hf" in
      destruct (require_admission_field v) as [b| | |] eqn:E; cbn [obind] in H; [|discriminate..];
      apply field_ok in E as (-> & _ & _)
  end.

Lemma facts_identity f d :
  from_verified_facts sha256 f = Ok d →
  opaque_admission_digest (E:=SealedAdmissionKeyError) sha256 (fact_parts f) = Ok (identity d).
Proof.
  unfold from_verified_facts. intros H. destruct (require_audience_binding (f_audience_binding f)) as [b| | |] eqn:Eb; try done.
  assert (b = f_audience_binding f) as ->.
  { revert Eb. unfold require_audience_binding. case_bool_decide; [done|]. destruct (check_binding _ _); simpl; congruence. }
  cbn [obind] in H. case_if_in H; [|done]. cbn [obind] in H. do 6 field_step H.
  match type of H with context [opaque_admission_digest sha256 ?ps] => change ps with (fact_parts f) in H end.
  destruct (opaque_admission_digest sha256 (fact_parts f)) as [i| | |]; try done. cbn [obind] in H. by injection H as <-.
Qed.

(** An authorization tells the facts and the owner it was derived from. *)
Lemma authorization_inj {E F} f g d e o o' a :
  facts_typed f → facts_typed g → from_verified_facts sha256 f = Ok d → from_verified_facts sha256 g = Ok e →
  current (E:=E) sha256 d o = Ok a → current (E:=F) sha256 e o' = Ok a → collision ∨ f = g ∧ o = o'.
Proof.
  intros Hf Hg Hd He Ha Ha'. apply facts_identity in Hd, He. unfold current in *.
  destruct (digest_inj _ _ _ Ha Ha') as [?|H]; [by left|]. injection H as Hi Ho. rewrite Hi in Hd.
  destruct (digest_inj _ _ _ Hd He) as [?|Hp]; [by left|]. right. split; [by apply fact_parts_inj|done].
Qed.

(** * Isolation *)

(** An operation that writes a slot. *)
Definition stores_in (slot : RecordSlot) (o : op) : bool :=
  match o with Store a s _ => bool_decide (record_slot a s = slot) | _ => false end.

Lemma deny_records {A} e s : records (deny (A:=A) e s).2 = records s.
Proof. done. Qed.

Lemma reserve_records c b u s : records (reserve_quota c b u s).2 = records s.
Proof.
  unfold reserve_quota, bind, get, ok_or, fail. case_goal_if; [done|]. destruct (checked_add _ _); [|done]. simpl. by case_goal_if.
Qed.

Lemma begin_records c p v k now s : records (begin_flight c p v k now s).2 = records s.
Proof. unfold begin_flight, bind, get. by repeat case_goal_if. Qed.

Lemma replay_records p a s : records (reserve_replay p a s).2 = records s.
Proof. unfold reserve_replay, bind, get. by repeat case_goal_if. Qed.

Lemma release_records h s : records (release_quota h s).2 = records s.
Proof. unfold release_quota. case_goal_if; [done|]. by destruct (quota_live s !! id h) as [[]|]. Qed.

Lemma finish_records h s : records (finish h s).2 = records s.
Proof. unfold finish. case_goal_if; [done|]. by destruct (flight_owner s !! id h) as [[[] ]|]. Qed.

(** Only [store] changes the records. *)
Lemma step_records c o w :
  records (state (step c o w).2) = match o with Store a slot v => <[record_slot a slot := v]> (records (state w)) | _ => records (state w) end.
Proof.
  destruct o as [a slot v|b u|i|i|p v k now|i|i|p a]; cbn [step]; [done|..].
  - pose proof (reserve_records c b u (state w)) as H. by destruct (reserve_quota c b u (state w)).
  - destruct (quotas w !! i) as [h|]; [|done]. pose proof (release_records h (state w)) as H. by destruct (release_quota h (state w)) as [[] ].
  - destruct (quotas w !! i) as [h|]; [|done]. unfold drop_quota. destruct (live h); [|done].
    pose proof (release_records h (state w)) as H. by destruct (release_quota h (state w)) as [[] ].
  - pose proof (begin_records c p v k now (state w)) as H. by destruct (begin_flight c p v k now (state w)).
  - destruct (flights w !! i) as [h|]; [|done]. pose proof (finish_records h (state w)) as H. by destruct (finish h (state w)) as [[] ].
  - destruct (flights w !! i) as [h|]; [|done]. unfold drop_flight. destruct (live h); [|done].
    pose proof (finish_records h (state w)) as H. by destruct (finish h (state w)) as [[] ].
  - pose proof (replay_records p a (state w)) as H. by destruct (reserve_replay p a (state w)).
Qed.

Lemma steps_snoc c os o : ∀ w, (steps c (os ++ [o]) w).2 = (step c o (steps c os w).2).2.
Proof.
  induction os as [|o' os IH]; intros w; simpl; [by destruct (step c o w)|]. destruct (step c o' w) as [r w1].
  specialize (IH w1). destruct (steps c (os ++ [o]) w1), (steps c os w1). done.
Qed.

(** A record is what was last stored in its slot. *)
Lemma records_history c os slot v :
  records (state (steps c os (initial default_state)).2) !! slot = Some v →
  ∃ pre a s post, os = pre ++ Store a s v :: post ∧ record_slot a s = slot ∧ Forall (λ o, stores_in slot o = false) post.
Proof.
  induction os as [|o os IH] using rev_ind; [done|]. rewrite steps_snoc, step_records. intros H.
  assert (Hother : records (state (steps c os (initial default_state)).2) !! slot = Some v → stores_in slot o = false →
    ∃ pre a s post, os ++ [o] = pre ++ Store a s v :: post ∧ record_slot a s = slot ∧ Forall (λ o, stores_in slot o = false) post).
  { intros Hold Ho. destruct (IH Hold) as (pre & a & s & post & -> & Hs & Hp). exists pre, a, s, (post ++ [o]).
    rewrite <- app_assoc. split; [done|]. split; [done|]. apply Forall_app. by repeat constructor. }
  destruct o as [a s v'|b u|i|i|p v' k now|i|i|p a]; try by apply Hother.
  destruct (decide (record_slot a s = slot)) as [E|E].
  - rewrite E, lookup_insert_eq in H. injection H as ->. by exists os, a, s, [].
  - rewrite lookup_insert_ne in H by done. apply Hother; [done|]. by apply bool_decide_false.
Qed.

Lemma steps_keep c slot os : Forall (λ o, stores_in slot o = false) os →
  ∀ w, records (state (steps c os w).2) !! slot = records (state w) !! slot.
Proof.
  induction 1 as [|o os Ho _ IH]; intros w; [done|]. cbn [steps]. pose proof (step_records c o w) as Hs.
  destruct (step c o w) as [r w1]. specialize (IH w1). destruct (steps c os w1) as [rs w2]. simpl in *. rewrite IH, Hs.
  destruct o; try done. rewrite lookup_insert_ne; [done|]. by apply bool_decide_eq_false in Ho.
Qed.

Lemma steps_app c os1 os2 : ∀ w, (steps c (os1 ++ os2) w).2 = (steps c os2 (steps c os1 w).2).2.
Proof.
  induction os1 as [|o os IH]; intros w; [done|]. simpl. destruct (step c o w) as [r w1].
  specialize (IH w1). destruct (steps c (os ++ os2) w1), (steps c os w1). done.
Qed.

End digests.

(** C15: After any operations, a caller with the facts [g] and the owner key
    [owner] who looks a slot up, be it a slot whose key another principal
    derived, is told exactly what the last store into this slot under his own
    authorization put there, and otherwise that the slot is absent.  Whoever
    stores under that authorization has the same facts (provider, generations,
    issuer, resource, tenant, subject, client, policy revision and audience
    binding) and the same owner key, or two texts with one SHA-256 digest are
    known. *)
Theorem partition_lookup_isolated sha256 c os g e owner a slot :
  facts_typed g → from_verified_facts sha256 g = Ok e → current (E:=unit) sha256 e owner = Ok a →
  let found := lookup a slot (state (steps c os (initial default_state)).2) in
  (∀ v, found = Present v ↔
     ∃ pre s post, os = pre ++ Store a s v :: post ∧ purpose s = purpose slot ∧ key_bytes s = key_bytes slot ∧
       Forall (λ o, stores_in (record_slot a slot) o = false) post) ∧
  (∀ f d owner', facts_typed f → from_verified_facts sha256 f = Ok d → current (E:=unit) sha256 d owner' = Ok a →
     collision sha256 ∨ f = g ∧ owner' = owner).
Proof.
  unfold lookup. intros Hg He Ha. simpl. split; [intros v; split|].
  - destruct (records _ !! _) as [v'|] eqn:E; [|done]. intros [= ->].
    apply records_history in E as (pre & a' & s & post & -> & Hs & Hp). unfold record_slot in Hs. injection Hs as Hpu Hk ->.
    by exists pre, s, post.
  - intros (pre & s & post & -> & Hp & Hk & Hpost). rewrite steps_app. cbn [steps step].
    set (w1 := (steps c pre _).2). set (w2 := {| quotas := _ |}). pose proof (steps_keep c _ post Hpost w2) as H.
    destruct (steps c post w2) as [rs w3]. simpl in *. rewrite H. unfold record_slot. rewrite Hp, Hk, lookup_insert_eq. done.
  - intros f d owner' Hf Hd Ha'. by eapply authorization_inj.
Qed.

(** * Material beyond the hash bound *)

Definition field_fits (v : list Z) : Prop := v ≠ [] ∧ zlen (as_bytes v) <= 8192.

Lemma require_cases v :
  (field_fits v ∧ require_admission_field v = Ok (as_bytes v)) ∨ (¬ field_fits v ∧ ∃ e, require_admission_field v = Err e).
Proof.
  unfold require_admission_field, MAX_ADMISSION_FIELD_BYTES, field_fits.
  case_bool_decide; [right; split; [by intros []|by eexists]|]. case_goal_if; zbool; [right|left; done].
  split; [lia|by eexists].
Qed.

(** Split on a field; a refused field ends the derivation with its error. *)
Ltac field_case :=
  match goal with
  | |- context [require_admission_field ?v] =>
      let F := fresh "F" in let e := fresh "e" in let E := fresh "E" in
      destruct (require_cases v) as [[F E]|[F [e E]]]; rewrite E; cbn [obind]
  end.

Definition binding_fits (b : list (list Z)) : Prop := b ≠ [] ∧ Forall (λ p, p ≠ []) b ∧ sum (zlen <$> b) <= 8192.

Lemma check_binding_cases b : ∀ total, 0 <= total <= 8192 →
  (Forall (λ p, p ≠ []) b ∧ total + sum (zlen <$> b) <= 8192 ∧ check_binding b total = Ok tt) ∨
  (¬ (Forall (λ p, p ≠ []) b ∧ total + sum (zlen <$> b) <= 8192) ∧ ∃ e, check_binding b total = Err e).
Proof.
  induction b as [|p b IH]; intros total Ht; [left; split_and!; [done|change (sum _) with 0; lia|done]|]. cbn [check_binding].
  rewrite Forall_cons, sum_fmap_cons. pose proof (sum_fmap_nonneg (A:=list Z) zlen b zlen_nonneg). pose proof (zlen_nonneg p).
  case_bool_decide; [right; split; [tauto|by eexists]|].
  destruct (checked_add total (zlen p)) as [t|] eqn:Ea.
  - apply checked_add_Some in Ea as [-> _]. unfold AUDIENCE_BINDING_MAX_BYTES. case_goal_if; zbool; [right; split; [lia|by eexists]|].
    destruct (IH (total + zlen p)) as [(Hne & Hle & Hok)|[Hbad Herr]]; [lia|left|right].
    + split_and!; [done|done|lia|done].
    + split; [|done]. intros [[_ ?] ?]. apply Hbad. split; [done|lia].
  - right. split; [|by eexists]. intros [_ ?]. unfold checked_add in Ea. case_if_in Ea; [done|]. zbool. unfold usize_max in *. lia.
Qed.

Lemma binding_cases b :
  (binding_fits b ∧ require_audience_binding b = Ok b) ∨ (¬ binding_fits b ∧ ∃ e, require_audience_binding b = Err e).
Proof.
  unfold require_audience_binding, binding_fits. case_bool_decide; [right; split; [tauto|by eexists]|].
  destruct (check_binding_cases b 0 ltac:(lia)) as [(H1 & H2 & ->)|[H1 [e ->]]]; [left|right]; simpl.
  - split_and!; try done; lia.
  - split; [|by eexists]. intros (_ & ? & ?). by apply H1.
Qed.

(** At most one part for each byte. *)
Lemma binding_count b : binding_fits b → zlen b <= 8192.
Proof.
  intros (_ & Hne & Hs). transitivity (sum (zlen <$> b)); [|done]. clear Hs. induction Hne as [|p b Hp _ IH]; [done|].
  rewrite sum_fmap_cons, zlen_cons. destruct p; [done|]. rewrite zlen_cons. pose proof (zlen_nonneg p). lia.
Qed.

(** The bytes of encoded grants. *)
Definition grants_size (grants : list (list Z)) : Z := 8 + sum ((λ g, 8 + zlen (as_bytes g)) <$> grants).

Lemma grants_cases grants :
  (Forall field_fits grants ∧ ∃ b, encode_grants grants = Ok b ∧ zlen b = grants_size grants) ∨
  (¬ Forall field_fits grants ∧ ∃ e, encode_grants grants = Err e).
Proof.
  unfold encode_grants, grants_size.
  assert (Hall : (Forall field_fits grants ∧ ∃ b, encode_each grants = Ok b ∧ zlen b = sum ((λ g, 8 + zlen (as_bytes g)) <$> grants)) ∨
    (¬ Forall field_fits grants ∧ ∃ e, encode_each grants = Err e)).
  { induction grants as [|g gs IH]; [left; split; [done|by exists []]|]. cbn [encode_each]. rewrite Forall_cons, sum_fmap_cons.
    field_case; [|right; split; [tauto|by eexists]].
    destruct IH as [(H & b & -> & Hb)|(H & e & ->)]; cbn [obind]; [left|right; split; [tauto|by eexists]].
    split; [done|]. eexists. split; [done|]. rewrite !zlen_app, zlen_to_be_bytes. lia. }
  destruct Hall as [(H & b & -> & Hb)|(H & e & ->)]; cbn [obind]; [left|right; split; [done|by eexists]].
  split; [done|]. eexists. split; [done|]. rewrite zlen_app, zlen_to_be_bytes. lia.
Qed.

(** The bytes that are hashed for a cache key. *)
Definition cache_material (d : PartitionDescriptor) (grants : list (list Z)) (token policy domain : list Z) : Z :=
  74 + zlen (identity d) + grants_size grants + zlen (as_bytes token) + zlen (as_bytes policy) + zlen (as_bytes domain).

Lemma cache_key_panics sha256 d grants token policy domain :
  cache_key sha256 d grants token policy domain = Panic ↔
  Forall field_fits (grants ++ [token; policy; domain]) ∧ 65536 < cache_material d grants token policy domain.
Proof.
  unfold cache_key. rewrite Forall_app, !Forall_cons.
  destruct (grants_cases grants) as [(Hg & b & -> & Hb)|(Hg & e & ->)]; cbn [obind]; [|split; [done|tauto]].
  do 3 (field_case; [|split; [done|tauto]]).
  match goal with |- context [opaque_admission_digest sha256 ?ps] => 
    destruct (@digest_cases sha256 SealedAdmissionKeyError ps) as [[H ->]|[H ->]] end;
    rewrite zlen_encode_parts in H; rewrite !fmap_cons in H; unfold sum in H; cbn [foldr list_fmap] in H;
    change (zlen (chars_of "auth-00-cache-partition-v1")) with 26 in H; rewrite Hb in H; unfold cache_material.
  - split; [done|]. intros [_ ?]. simpl in H. lia.
  - split; [|done]. intros _. split; [done|]. simpl in H. lia.
Qed.

Lemma facts_panic sha256 f :
  from_verified_facts sha256 f = Panic ↔
  Forall field_fits [f_provider f; f_issuer f; f_canonical_resource f; f_tenant f; f_subject f; f_client f] ∧
  binding_fits (f_audience_binding f) ∧ 65536 < zlen (encode_parts (fact_parts f)).
Proof.
  unfold from_verified_facts. rewrite !Forall_cons.
  destruct (binding_cases (f_audience_binding f)) as [[Hb ->]|[Hb [e ->]]]; cbn [obind]; [|split; [done|tauto]].
  pose proof (binding_count _ Hb). rewrite (proj2 (Z.leb_le _ _)) by (unfold u64_max; lia). cbn [obind].
  do 6 (field_case; [|split; [done|tauto]]).
  match goal with |- context [opaque_admission_digest sha256 ?ps] => change ps with (fact_parts f) end.
  destruct (@digest_cases sha256 SealedAdmissionKeyError (fact_parts f)) as [[H' ->]|[H' ->]]; cbn [obind].
  - split; [done|]. lia.
  - split; [|done]. intros _. split_and?; (done || by constructor).
Qed.

(** Keys of a bounded number of fields stay inside the hash bound. *)
Lemma fields_no_panic {E} sha256 parts :
  Forall (λ p, zlen p <= 8192) parts → zlen parts <= 7 → opaque_admission_digest (E:=E) sha256 parts ≠ Panic.
Proof.
  intros Hp Hn. destruct (@digest_cases sha256 E parts) as [[_ ->]|[H _]]; [done|]. exfalso. rewrite zlen_encode_parts in H.
  assert (sum ((λ p, 8 + zlen p) <$> parts) <= 8200 * zlen parts); [|lia]. clear H Hn.
  induction Hp as [|p ps Hp _ IH]; [done|]. rewrite sum_fmap_cons, zlen_cons. lia.
Qed.

Lemma field_fits_bytes v : field_fits v → zlen (as_bytes v) <= 8192.
Proof. by intros []. Qed.

Lemma durable_owner_no_panic sha256 d epoch : durable_owner_key sha256 d epoch ≠ Panic.
Proof.
  unfold durable_owner_key. do 6 (field_case; [|done]).
  match goal with |- opaque_admission_digest _ ?ps ≠ _ => destruct (@digest_cases sha256 SealedAdmissionKeyError ps) as [[_ ->]|[H _]] end; [done|].
  rewrite zlen_encode_parts, !fmap_cons in H. unfold sum in H. cbn [foldr] in H.
  repeat match goal with F : field_fits _ |- _ => apply field_fits_bytes in F end.
  change (zlen (chars_of _)) with 24 in H. rewrite zlen_to_be_bytes in H. simpl in H. lia.
Qed.

Lemma quota_key_no_panic sha256 d epoch : quota_key sha256 d epoch ≠ Panic.
Proof.
  unfold quota_key. do 5 (field_case; [|done]).
  apply fields_no_panic; [|done]. repeat constructor; try by apply field_fits_bytes. all: by vm_compute.
Qed.

(** C19: Deriving a key panics on its hash bound exactly when every field passes
    its own bound of 8 KiB but all of them together, behind their lengths, take
    more than 64 KiB: the grants of a cache key and the parts of an audience
    binding are not bounded in number, so both can.  Owner and quota keys, which
    have a fixed number of fields, never panic. *)
Theorem partition_keys_panic_iff sha256 :
  (∀ d grants token policy domain, cache_key sha256 d grants token policy domain = Panic ↔
     Forall field_fits (grants ++ [token; policy; domain]) ∧ 65536 < cache_material d grants token policy domain) ∧
  (∀ f, from_verified_facts sha256 f = Panic ↔
     Forall field_fits [f_provider f; f_issuer f; f_canonical_resource f; f_tenant f; f_subject f; f_client f] ∧
     binding_fits (f_audience_binding f) ∧ 65536 < zlen (encode_parts (fact_parts f))) ∧
  (∀ d epoch, durable_owner_key sha256 d epoch ≠ Panic ∧ quota_key sha256 d epoch ≠ Panic).
Proof.
  split; [apply cache_key_panics|]. split; [apply facts_panic|].
  split; [apply durable_owner_no_panic|apply quota_key_no_panic].
Qed.

(** * Concrete keys *)
Module Examples.

(** A hash without collisions: the text itself. *)
Definition ex_hash (x : list Z) : Sha256Digest := x.

Definition ex_facts (issuer tenant : string) : VerifiedFacts :=
  {| f_provider := chars_of "oidc"; f_configuration_generation := 1; f_issuer := chars_of issuer;
     f_canonical_resource := chars_of "https://mcp.example"; f_tenant := chars_of tenant; f_subject := chars_of "alice";
     f_client := chars_of "cli"; f_trust_generation := 3; f_auth_policy_revision := 5;
     f_audience_binding := [chars_of "exact"; chars_of "mcp"] |}.

Definition ex_descriptor (issuer tenant : string) : PartitionDescriptor :=
  match from_verified_facts ex_hash (ex_facts issuer tenant) with
  | Ok d => d
  | _ => Build_PartitionDescriptor [] 0 [] [] [] [] [] 0 0 []
  end.
Definition value_of (o : outcome SealedAdmissionKeyError Sha256Digest) : Sha256Digest := match o with Ok d => d | _ => [] end.
Definition ex_owner (issuer tenant : string) : Sha256Digest := value_of (durable_owner_key ex_hash (ex_descriptor issuer tenant) 1).
Definition ex_authorization (issuer tenant : string) : Sha256Digest :=
  value_of (current ex_hash (ex_descriptor issuer tenant) (ex_owner issuer tenant)).
Definition ex_slot : PartitionSlot :=
  CacheSlot (value_of (cache_key ex_hash (ex_descriptor "idp" "acme") [chars_of "read"] (chars_of "t1") (chars_of "v1") (chars_of "tools"))).

Definition ex_controller : PartitionAdmissionController := {| limits := default_revalidation_limits; quota_capacity := 8 |}.
Definition ex_ops : list op := [Store (ex_authorization "idp" "acme") ex_slot [42]; ReserveQuota (replicate 32 0) 1].

(** A caller of another tenant who knows the slot finds nothing in it. *)
Example ex_other_tenant :
  lookup (ex_authorization "idp" "evil") ex_slot (state (steps ex_controller ex_ops (initial default_state)).2) = Absent.
Proof. vm_compute. reflexivity. Qed.

(** Issuers are not told apart by quota keys, and are by owner keys. *)
Example ex_quota_no_authority :
  quota_key ex_hash (ex_descriptor "idp" "acme") 1 = quota_key ex_hash (ex_descriptor "other" "acme") 1 ∧
  ex_owner "idp" "acme" ≠ ex_owner "other" "acme".
Proof. split; [vm_compute; reflexivity|]. vm_compute. intros [=]. Qed.

Lemma partition_lookup_isolated_witness :
  lookup (ex_authorization "idp" "acme") ex_slot (state (steps ex_controller ex_ops (initial default_state)).2) = Present [42].
Proof.
  apply (partition_lookup_isolated ex_hash ex_controller ex_ops (ex_facts "idp" "acme") (ex_descriptor "idp" "acme")
    (ex_owner "idp" "acme") (ex_authorization "idp" "acme") ex_slot).
  - split; repeat constructor; vm_compute; done.
  - vm_compute. reflexivity.
  - vm_compute. reflexivity.
  - exists [], ex_slot, [ReserveQuota (replicate 32 0) 1]. split; [reflexivity|]. split; [reflexivity|]. split; [reflexivity|].
    repeat constructor.
Defined.

(** Nine grants of 8 KiB are more than the hash takes. *)
Example ex_grants_panic :
  cache_key ex_hash (ex_descriptor "idp" "acme") (replicate 9 (replicate (Z.to_nat 8192) 97)) (chars_of "t1") (chars_of "v1") (chars_of "tools") = Panic.
Proof. vm_compute. reflexivity. Qed.

(** So are 8192 parts of one byte, which the binding's bound of 8 KiB lets pass. *)
Example ex_binding_panics :
  from_verified_facts ex_hash
    {| f_provider := chars_of "oidc"; f_configuration_generation := 1; f_issuer := chars_of "idp";
       f_canonical_resource := chars_of "r"; f_tenant := chars_of "acme"; f_subject := chars_of "alice"; f_client := chars_of "cli";
       f_trust_generation := 3; f_auth_policy_revision := 5; f_audience_binding := replicate (Z.to_nat 8192) [97] |} = Panic.
Proof. vm_compute. reflexivity. Qed.

End Examples.

End PartitionCorrect.
