(* ===== verification/SecurityPartitionBooks.v ===== *)
(** The admission counters of a partition controller are the books of what its
    callers hold: quota in use, revalidations in flight by partition, provider
    and deployment, attempts in the current window.  The books decide every
    admission, and bound the attempts of any minute. *)
From stdpp Require Import base list gmap strings.
From Stdlib Require Import ZArith Lia.
From S2P Require Import Prelude CoreLimits SecurityPartition.

Module PartitionBooks.
Import Partition.

(** * The books *)

(** A line for each handle given out, empty once it is settled: the bucket and
    units of a reservation, the flight key, partition and provider of a flight.
    [tries] are the partition, provider and instant of the admitted attempts. *)
Record Books : Type := MkBooks {
  kept : gmap RecordSlot (list Z);
  charges : list (option (digest * Z));
  airborne : list (option (digest * digest * digest));
  tries : list (digest * digest * Z);
  replays : gmap digest digest;
  denials : Z }.

Definition weigh {X} (w : X → Z) (x : option X) : Z := match x with Some x => w x | None => 0 end.
Definition total {X} (w : X → Z) (l : list (option X)) : Z := sum (weigh w <$> l).

Definition on_bucket (b : digest) (x : digest * Z) : Z := if bool_decide (x.1 = b) then x.2 else 0.
Definition on_key (k : digest) (x : digest * digest * digest) : Z := if bool_decide (x.1.1 = k) then 1 else 0.
Definition on_partition (p : digest) (x : digest * digest * digest) : Z := if bool_decide (x.1.2 = p) then 1 else 0.
Definition on_provider (v : digest) (x : digest * digest * digest) : Z := if bool_decide (x.2 = v) then 1 else 0.
Definition each {X} (_ : X) : Z := 1.

(** Windows of a minute: the first attempt opens one, and the first attempt
    after its minute opens the next. *)
Definition enter (w : option AttemptWindow) (t : Z) : AttemptWindow :=
  match w with
  | Some w => if ATTEMPT_RATE_WINDOW <=? t - started w then {| started := t; attempts := 1 |}
              else {| started := started w; attempts := attempts w + 1 |}
  | None => {| started := t; attempts := 1 |}
  end.
Definition window (ts : list Z) : option AttemptWindow := foldl (λ w t, Some (enter w t)) None ts.
Definition windowed (ts : list Z) (now : Z) : Z :=
  match window ts with
  | Some w => if ATTEMPT_RATE_WINDOW <=? now - started w then 0 else attempts w
  | None => 0
  end.

Definition partition_times (p : digest) (h : list (digest * digest * Z)) : list Z := snd <$> filter (λ x, x.1.1 = p) h.
Definition provider_times (v : digest) (h : list (digest * digest * Z)) : list Z := snd <$> filter (λ x, x.1.2 = v) h.

Definition put {X} (i : nat) (x : option X) (l : list (option X)) : list (option X) := <[i := x]> l.

Definition set_charges (l : list (option (digest * Z))) (b : Books) : Books :=
  MkBooks (kept b) l (airborne b) (tries b) (replays b) (denials b).
Definition set_airborne (l : list (option (digest * digest * digest))) (b : Books) : Books :=
  MkBooks (kept b) (charges b) l (tries b) (replays b) (denials b).
Definition denied (b : Books) : Books :=
  MkBooks (kept b) (charges b) (airborne b) (tries b) (replays b) (denials b + 1).
Definition refuse (e : PartitionAdmissionError) (b : Books) : answer * Books := (Some (Err e), denied b).

(** What is admitted, and why the rest is refused. *)
Definition book_quota (c : PartitionAdmissionController) (bucket : digest) (u : Z) (b : Books) : answer * Books :=
  let in_use := total (on_bucket bucket) (charges b) in
  let exhausted := QuotaExhausted u in_use (quota_capacity c) in
  if u =? 0 then (Some (Err ZeroUnits), b)
  else if usize_max <? in_use + u then (Some (Err exhausted), b)
  else if quota_capacity c <? in_use + u then refuse exhausted b
  else (Some (Ok tt), set_charges (charges b ++ [Some (bucket, u)]) b).

Definition book_flight (c : PartitionAdmissionController) (p v k : digest) (now : Z) (b : Books) : answer * Books :=
  let l := limits c in
  let pa := windowed (partition_times p (tries b)) now in
  let va := windowed (provider_times v (tries b)) now in
  let pf := total (on_partition p) (airborne b) in
  let vf := total (on_provider v) (airborne b) in
  let df := total each (airborne b) in
  if 0 <? total (on_key k) (airborne b) then refuse RevalidationAlreadyInFlight b
  else if partition_attempts_per_minute l <=? pa then refuse (PartitionAttemptRateExceeded pa (partition_attempts_per_minute l)) b
  else if provider_attempts_per_minute l <=? va then refuse (ProviderAttemptRateExceeded va (provider_attempts_per_minute l)) b
  else if per_partition l <=? pf then refuse (PartitionRevalidationLimitExceeded pf (per_partition l)) b
  else if per_provider l <=? vf then refuse (ProviderRevalidationLimitExceeded vf (per_provider l)) b
  else if per_deployment l <=? df then refuse (DeploymentRevalidationLimitExceeded df (per_deployment l)) b
  else (Some (Ok tt), MkBooks (kept b) (charges b) (airborne b ++ [Some (k, p, v)]) (tries b ++ [(p, v, now)]) (replays b) (denials b)).

Definition book_step (c : PartitionAdmissionController) (o : op) (b : Books) : answer * Books :=
  match o with
  | Store a slot v =>
      (Some (Ok tt), MkBooks (<[record_slot a slot := v]> (kept b)) (charges b) (airborne b) (tries b) (replays b) (denials b))
  | ReserveQuota bucket u => book_quota c bucket u b
  | ReleaseQuota i =>
      match charges b !! i with
      | None => (None, b)
      | Some None => (Some (Err QuotaAlreadySettled), b)
      | Some (Some _) => (Some (Ok tt), set_charges (put i None (charges b)) b)
      end
  | DropQuota i =>
      match charges b !! i with None => (None, b) | Some _ => (Some (Ok tt), set_charges (put i None (charges b)) b) end
  | Begin p v k now => book_flight c p v k now b
  | Finish i =>
      match airborne b !! i with
      | None => (None, b)
      | Some None => (Some (Err RevalidationAlreadyFinished), b)
      | Some (Some _) => (Some (Ok tt), set_airborne (put i None (airborne b)) b)
      end
  | DropFlight i =>
      match airborne b !! i with None => (None, b) | Some _ => (Some (Ok tt), set_airborne (put i None (airborne b)) b) end
  | ReserveReplay p a =>
      match replays b !! a with
      | Some _ => refuse ReplayAliasAlreadyReserved b
      | None => (Some (Ok tt), MkBooks (kept b) (charges b) (airborne b) (tries b) (<[a := p]> (replays b)) (denials b))
      end
  end.

Fixpoint book_steps (c : PartitionAdmissionController) (os : list op) (b : Books) : list answer * Books :=
  match os with
  | [] => ([], b)
  | o :: os => let '(r, b) := book_step c o b in let '(rs, b) := book_steps c os b in (r :: rs, b)
  end.

Definition blank : Books := MkBooks ∅ [] [] [] ∅ 0.

(** The counters are those of the books, and within the limits. *)
Record balanced (c : PartitionAdmissionController) (s : PartitionState) (b : Books) : Prop := {
  balanced_quota : ∀ k, default 0 (quota_in_use s !! k) = total (on_bucket k) (charges b) ∧
                        total (on_bucket k) (charges b) <= quota_capacity c;
  balanced_partition : ∀ p, default 0 (partition_flights s !! p) = total (on_partition p) (airborne b) ∧
                            total (on_partition p) (airborne b) <= per_partition (limits c);
  balanced_provider : ∀ v, default 0 (provider_flights s !! v) = total (on_provider v) (airborne b) ∧
                           total (on_provider v) (airborne b) <= per_provider (limits c);
  balanced_deployment : deployment_flights s = total each (airborne b) ∧ total each (airborne b) <= per_deployment (limits c);
  balanced_single : ∀ k, total (on_key k) (airborne b) <= 1;
  balanced_records : records s = kept b;
  balanced_replays : replay_reservations s = replays b;
  balanced_denials : denial_count s = denials b }.

(** * Counters in maps *)

(** A map of counters: those of [f], without zeroes. *)
Definition counts (m : gmap digest Z) (f : digest → Z) : Prop := ∀ k, default 0 (m !! k) = f k ∧ m !! k ≠ Some 0.

Lemma counts_add m f f' k n :
  counts m f → 0 <= f k → 0 < n → f' k = f k + n → (∀ j, j ≠ k → f' j = f j) → counts (<[k := f k + n]> m) f'.
Proof.
  intros Hm Hk Hn Hf Hj j. destruct (decide (j = k)) as [->|]; [rewrite lookup_insert_eq|rewrite lookup_insert_ne by done].
  - simpl. split; [lia|]. intros [=]. lia.
  - rewrite Hj by done. apply Hm.
Qed.

Lemma counts_sub m f f' k n :
  counts m f → f' k = f k - n → 0 <= f' k → (∀ j, j ≠ k → f' j = f j) →
  let remaining := saturating_sub (default 0 (m !! k)) n in
  counts (if remaining =? 0 then delete k m else <[k := remaining]> m) f'.
Proof.
  intros Hm Hf Hk Hj remaining j. destruct (Hm k) as [Hmk _]. assert (Hr : remaining = f' k) by (unfold remaining, saturating_sub; lia).
  destruct (decide (j = k)) as [->|Hne].
  - case_goal_if; zbool; [rewrite lookup_delete_eq|rewrite lookup_insert_eq]; simpl; [split; [lia|done]|split; [done|congruence]].
  - rewrite Hj by done. case_goal_if; [rewrite lookup_delete_ne by done|rewrite lookup_insert_ne by done]; apply Hm.
Qed.

(** * Lines and handles *)

Section lines.
Context {X : Type}.
Implicit Types (l : list (option X)).

Lemma total_snoc (w : X → Z) l x : total w (l ++ [Some x]) = total w l + w x.
Proof. unfold total. rewrite fmap_app, sum_app. unfold sum. simpl. lia. Qed.

Lemma total_clear (w : X → Z) l i x : l !! i = Some (Some x) → total w (put i None l) = total w l - w x.
Proof. intros Hi. unfold total, put. rewrite (sum_insert _ _ _ _ _ Hi). simpl. lia. Qed.

Lemma total_ge0 (w : X → Z) l : (∀ i x, l !! i = Some (Some x) → 0 <= w x) → 0 <= total w l.
Proof.
  intros Hw. unfold total. apply sum_nonneg, Forall_fmap, Forall_lookup. intros i [x|] Hi; [|done]. by apply (Hw i).
Qed.

(** The lines by their identifiers, which are their positions. *)
Definition filed (l : list (option X)) (z : Z) : option X := if z <? 0 then None else mjoin (l !! Z.to_nat z).
Definition handle_of (i : nat) (x : option X) : Handle :=
  {| id := Z.of_nat i; live := match x with Some _ => true | None => false end |}.
Definition handles (hs : list Handle) l : Prop := ∀ i, hs !! i = handle_of i <$> l !! i.

Lemma line_at l i x : l !! i = Some x → filed l (Z.of_nat i) = x.
Proof. intros H. unfold filed. case_goal_if; zbool; [lia|]. by rewrite Nat2Z.id, H. Qed.

Lemma filed_put l i x z : is_Some (l !! i) → filed (put i x l) z = if bool_decide (z = Z.of_nat i) then x else filed l z.
Proof.
  intros [y Hi]. unfold put. case_bool_decide as Hz.
  - subst. apply line_at. apply list_lookup_insert_eq. by eapply lookup_lt_Some.
  - unfold filed. case_goal_if; zbool; [done|]. rewrite list_lookup_insert_ne; [done|lia].
Qed.

Lemma line_snoc l x z : filed (l ++ [x]) z = if bool_decide (z = zlen l) then x else filed l z.
Proof.
  unfold zlen. case_bool_decide as Hz.
  - subst. apply line_at. by apply list_lookup_middle.
  - unfold filed. case_goal_if; zbool; [done|]. f_equal.
    destruct (decide (Z.to_nat z < length l)%nat) as [?|?]; [by rewrite lookup_app_l|].
    rewrite (lookup_ge_None_2 (l ++ [x])), (lookup_ge_None_2 l); [done|lia|]. rewrite length_app. simpl. lia.
Qed.

Lemma filed_range l z x : filed l z = Some x → 0 <= z < zlen l.
Proof.
  unfold filed. case_goal_if; zbool; [done|]. intros H. destruct (l !! Z.to_nat z) eqn:El; [|done].
  apply lookup_lt_Some in El. unfold zlen. lia.
Qed.

Lemma handles_put hs l i x : handles hs l → is_Some (l !! i) → handles (<[i := handle_of i x]> hs) (put i x l).
Proof.
  intros Hh [y Hi] j. pose proof (lookup_lt_Some _ _ _ Hi). specialize (Hh i) as Hhi. rewrite Hi in Hhi.
  pose proof (lookup_lt_Some _ _ _ Hhi). unfold put. destruct (decide (j = i)) as [->|].
  - by rewrite !list_lookup_insert_eq.
  - by rewrite !list_lookup_insert_ne.
Qed.

Lemma handles_len hs l : handles hs l → length hs = length l.
Proof.
  intros Hh. destruct (Nat.lt_total (length hs) (length l)) as [H|[H|H]]; [|done|].
  - apply lookup_lt_is_Some in H as [x Hx]. specialize (Hh (length hs)). rewrite Hx in Hh. by rewrite lookup_ge_None_2 in Hh.
  - apply lookup_lt_is_Some in H as [x Hx]. specialize (Hh (length l)). rewrite Hx in Hh. by rewrite (lookup_ge_None_2 l) in Hh.
Qed.

Lemma handles_snoc hs l x : handles hs l → handles (hs ++ [{| id := zlen l; live := true |}]) (l ++ [Some x]).
Proof.
  intros Hh j. pose proof (handles_len _ _ Hh) as Hl. destruct (decide (j < length l)%nat) as [?|?].
  - rewrite !lookup_app_l by lia. apply Hh.
  - destruct (decide (j = length l)) as [->|].
    + rewrite list_lookup_middle by lia. by rewrite list_lookup_middle.
    + rewrite !lookup_ge_None_2; [done|rewrite length_app; simpl; lia..].
Qed.

Lemma handles_same hs l i x : handles hs l → l !! i = Some x → <[i := handle_of i x]> hs = hs.
Proof. intros Hh Hi. apply list_insert_id. by rewrite Hh, Hi. Qed.
End lines.

(** * Windows *)

Lemma window_snoc ts t : window (ts ++ [t]) = Some (enter (window ts) t).
Proof. unfold window. by rewrite foldl_app. Qed.

Lemma window_attempts_at m b ts now : m !! b = window ts → window_attempts m b now = windowed ts now.
Proof.
  intros H. unfold window_attempts, windowed. rewrite H. destruct (window ts) as [w|]; [|done]. unfold duration_since.
  destruct (Z.leb_spec ATTEMPT_RATE_WINDOW (Z.max 0 (now - started w))), (Z.leb_spec ATTEMPT_RATE_WINDOW (now - started w));
    unfold ATTEMPT_RATE_WINDOW in *; done || lia.
Qed.

(** Charging an attempt enters its window, when the count stays below 2^32. *)
Lemma charge_attempt_at m b ts now :
  m !! b = window ts → windowed ts now < 2 ^ 32 - 1 → charge_attempt m b now = <[b := enter (window ts) now]> m.
Proof.
  intros H Hw. unfold charge_attempt, windowed, enter in *. rewrite H. destruct (window ts) as [w|]; simpl; f_equal.
  - unfold duration_since. destruct (Z.leb_spec ATTEMPT_RATE_WINDOW (Z.max 0 (now - started w))),
      (Z.leb_spec ATTEMPT_RATE_WINDOW (now - started w)); unfold ATTEMPT_RATE_WINDOW in *; try lia; [done|].
    f_equal. unfold saturating_add32. simpl. lia.
  - unfold duration_since. rewrite Z.sub_diag. done.
Qed.

Definition windows_of (times : digest → list (digest * digest * Z) → list Z) (m : gmap digest AttemptWindow)
    (h : list (digest * digest * Z)) : Prop := ∀ b, m !! b = window (times b h).

Lemma partition_windows_charge m h p v now :
  windows_of partition_times m h → windowed (partition_times p h) now < 2 ^ 32 - 1 →
  windows_of partition_times (charge_attempt m p now) (h ++ [(p, v, now)]).
Proof.
  intros Hm Hw b. rewrite (charge_attempt_at _ _ _ _ (Hm p) Hw). unfold partition_times. rewrite filter_app, fmap_app.
  destruct (decide (p = b)) as [->|Hne].
  - rewrite lookup_insert_eq, filter_cons_True by done. simpl. by rewrite window_snoc.
  - rewrite lookup_insert_ne, filter_cons_False by done. rewrite app_nil_r. apply Hm.
Qed.

Lemma provider_windows_charge m h p v now :
  windows_of provider_times m h → windowed (provider_times v h) now < 2 ^ 32 - 1 →
  windows_of provider_times (charge_attempt m v now) (h ++ [(p, v, now)]).
Proof.
  intros Hm Hw b. rewrite (charge_attempt_at _ _ _ _ (Hm v) Hw). unfold provider_times. rewrite filter_app, fmap_app.
  destruct (decide (v = b)) as [->|Hne].
  - rewrite lookup_insert_eq, filter_cons_True by done. simpl. by rewrite window_snoc.
  - rewrite lookup_insert_ne, filter_cons_False by done. rewrite app_nil_r. apply Hm.
Qed.

(** * The simulation *)

Record quota_sim (c : PartitionAdmissionController) (hs : list Handle) (s : PartitionState) (l : list (option (digest * Z))) : Prop := {
  qs_handles : handles hs l;
  qs_next : next_quota_id s = zlen l;
  qs_live : ∀ z, quota_live s !! z = filed l z;
  qs_counts : counts (quota_in_use s) (λ k, total (on_bucket k) l);
  qs_limit : ∀ k, total (on_bucket k) l <= quota_capacity c;
  qs_units : ∀ i x, l !! i = Some (Some x) → 0 < x.2 }.

Record flight_sim (c : PartitionAdmissionController) (hs : list Handle) (s : PartitionState)
    (l : list (option (digest * digest * digest))) : Prop := {
  fs_handles : handles hs l;
  fs_next : next_flight_id s = zlen l;
  fs_owner : ∀ z, flight_owner s !! z = filed l z;
  fs_open : ∀ k z, open_flights s !! k = Some z ↔ ∃ p v, filed l z = Some (k, p, v);
  fs_partition : counts (partition_flights s) (λ p, total (on_partition p) l);
  fs_provider : counts (provider_flights s) (λ v, total (on_provider v) l);
  fs_deployment : deployment_flights s = total each l;
  fs_single : ∀ k, total (on_key k) l <= 1;
  fs_limits : (∀ p, total (on_partition p) l <= per_partition (limits c)) ∧ (∀ v, total (on_provider v) l <= per_provider (limits c)) ∧
              total each l <= per_deployment (limits c) }.

Record sim (c : PartitionAdmissionController) (w : World) (b : Books) (n : Z) : Prop := {
  sim_quota : quota_sim c (quotas w) (state w) (charges b);
  sim_flight : flight_sim c (flights w) (state w) (airborne b);
  sim_windows : windows_of partition_times (partition_attempts (state w)) (tries b) ∧
                windows_of provider_times (provider_attempts (state w)) (tries b);
  sim_records : records (state w) = kept b;
  sim_replays : replay_reservations (state w) = replays b;
  sim_denials : denial_count (state w) = denials b;
  sim_bounds : zlen (charges b) <= n ∧ zlen (airborne b) <= n ∧ 0 <= denials b <= n }.

(** The configured limits, as values of their types. *)
Definition limits_typed (c : PartitionAdmissionController) : Prop :=
  0 <= quota_capacity c <= usize_max ∧ 0 <= per_partition (limits c) <= usize_max ∧ 0 <= per_provider (limits c) <= usize_max ∧
  0 <= per_deployment (limits c) <= usize_max ∧ 0 <= partition_attempts_per_minute (limits c) < 2 ^ 32 ∧
  0 <= provider_attempts_per_minute (limits c) < 2 ^ 32.

Lemma sim_balanced c w b n : sim c w b n → balanced c (state w) b.
Proof.
  intros [[_ _ _ Hq Hql _] [_ _ _ _ Hp Hv Hd H1 (Hlp & Hlv & Hld)] _ Hr Hre Hde _]. split; try done.
  - intros k. split; [apply Hq|apply Hql].
  - intros p. split; [apply Hp|apply Hlp].
  - intros v. split; [apply Hv|apply Hlv].
Qed.

Lemma on_bucket_same k u : on_bucket k (k, u) = u.
Proof. unfold on_bucket. by rewrite bool_decide_true. Qed.
Lemma on_bucket_other k j u : j ≠ k → on_bucket j (k, u) = 0.
Proof. intros. unfold on_bucket. by rewrite bool_decide_false. Qed.

Lemma used_nonneg (l : list (option (digest * Z))) k : (∀ i x, l !! i = Some (Some x) → 0 < x.2) → 0 <= total (on_bucket k) l.
Proof. intros Hu. apply total_ge0. intros i x Hi. unfold on_bucket. specialize (Hu i x Hi). case_bool_decide; lia. Qed.

Lemma quota_reserved c hs s l k u :
  quota_sim c hs s l → 0 < u → zlen l < u64_max → total (on_bucket k) l + u <= quota_capacity c ->
  quota_sim c (hs ++ [{| id := zlen l; live := true |}])
    (set_quota (<[k := total (on_bucket k) l + u]> (quota_in_use s)) (<[next_quota_id s := (k, u)]> (quota_live s))
       (saturating_add (next_quota_id s) 1) s) (l ++ [Some (k, u)]).
Proof.
  intros [Hh Hn Hl Hc Hlim Hu] Hpos Hlen Hroom. split; cbn [set_quota next_quota_id quota_live quota_in_use].
  - by apply handles_snoc.
  - rewrite Hn, zlen_app. unfold saturating_add, usize_max, u64_max, zlen in *. simpl. lia.
  - intros z. rewrite Hn, line_snoc. case_bool_decide as E; [by rewrite E, lookup_insert_eq|by rewrite lookup_insert_ne].
  - apply (counts_add _ (λ k, total (on_bucket k) l)); [done|by apply used_nonneg|done|..].
    + by rewrite total_snoc, on_bucket_same.
    + intros j Hj. rewrite total_snoc, on_bucket_other by done. lia.
  - intros j. rewrite total_snoc. destruct (decide (j = k)) as [->|]; [by rewrite on_bucket_same|].
    rewrite on_bucket_other by done. specialize (Hlim j). lia.
  - intros i x. destruct (decide (i < length l)%nat) as [?|?].
    + rewrite lookup_app_l by lia. apply Hu.
    + rewrite lookup_app_r by lia. destruct (i - length l)%nat; [|done]. by intros [= <-].
Qed.

Lemma quota_released c hs s l i k u :
  quota_sim c hs s l → l !! i = Some (Some (k, u)) →
  ∃ s', release_quota (handle_of i (Some (k, u))) s = (Ok tt, handle_of i (@None (digest * Z)), s') ∧
    quota_sim c (<[i := handle_of i (@None (digest * Z))]> hs) s' (put i None l) ∧
    ∃ q v, s' = set_quota q v (next_quota_id s) s.
Proof.
  intros [Hh Hn Hl Hc Hlim Hu] Hi. pose proof (mk_is_Some _ _ Hi) as Hsome.
  unfold release_quota. cbn [handle_of live negb id]. rewrite Hl, (line_at _ _ _ Hi).
  assert (Hpos : ∀ j x, put i None l !! j = Some (Some x) → 0 < x.2).
  { unfold put. intros j x [(_ & ? & _)|[_ ?]]%list_lookup_insert_Some; [done|by eapply Hu]. }
  eexists. split; [reflexivity|]. split; [|by do 2 eexists]. split; cbn [set_quota next_quota_id quota_live quota_in_use].
  - by apply handles_put.
  - unfold put, zlen in *. by rewrite length_insert.
  - intros z. rewrite filed_put by done. case_bool_decide as E; [by rewrite E, lookup_delete_eq|by rewrite lookup_delete_ne].
  - apply (counts_sub _ (λ k, total (on_bucket k) l)); [done|..].
    + by rewrite (total_clear _ _ _ _ Hi), on_bucket_same.
    + by apply used_nonneg.
    + intros j Hj. rewrite (total_clear _ _ _ _ Hi), on_bucket_other by done. lia.
  - intros j. rewrite (total_clear _ _ _ _ Hi). specialize (Hlim j). unfold on_bucket at 2.
    specialize (Hu _ _ Hi). simpl in *. case_bool_decide; lia.
  - done.
Qed.

(** ** Flights *)

Lemma total_pos {X} (w : X → Z) (l : list (option X)) : 0 < total w l → ∃ i x, l !! i = Some (Some x) ∧ 0 < w x.
Proof.
  induction l as [|x l IH]; [done|]. unfold total in *. rewrite sum_fmap_cons. intros H.
  destruct (decide (0 < weigh w x)) as [Hx|].
  - destruct x as [x|]; [|done]. by exists 0%nat, x.
  - destruct IH as (i & y & Hi & Hy); [lia|]. by exists (S i), y.
Qed.

Lemma total_elem {X} (w : X → Z) (l : list (option X)) i x : (∀ x, 0 <= w x) → l !! i = Some (Some x) → w x <= total w l.
Proof.
  intros Hw Hi. pose proof (total_clear w l i x Hi) as H. assert (0 <= total w (put i None l)); [|lia].
  apply total_ge0. intros; apply Hw.
Qed.

Lemma flag_nonneg (P : Prop) `{Decision P} : 0 <= (if bool_decide P then 1 else 0).
Proof. case_bool_decide; lia. Qed.

Lemma key_open (l : list (option (digest * digest * digest))) k :
  0 < total (on_key k) l ↔ ∃ z p v, filed l z = Some (k, p, v).
Proof.
  split.
  - intros H. apply total_pos in H as (i & [[k' p] v] & Hi & Hk). unfold on_key in Hk. simpl in Hk. case_bool_decide; [|lia]. subst.
    exists (Z.of_nat i), p, v. by apply line_at.
  - intros (z & p & v & Hz). pose proof (filed_range _ _ _ Hz) as Hr. unfold filed in Hz. case_if_in Hz; [done|].
    destruct (l !! Z.to_nat z) as [x|] eqn:Hi; [|done]. simpl in Hz. subst x.
    pose proof (total_elem (on_key k) l _ _ (λ x, flag_nonneg _) Hi) as He. unfold on_key at 1 in He. simpl in He.
    rewrite bool_decide_true in He by done. lia.
Qed.

Section flight.
Context (c : PartitionAdmissionController) (p v k : digest).

Lemma flight_opened hs s l pa va :
  flight_sim c hs s l → limits_typed c → zlen l < u64_max → total (on_key k) l <= 0 →
  total (on_partition p) l < per_partition (limits c) → total (on_provider v) l < per_provider (limits c) →
  total each l < per_deployment (limits c) →
  let s1 := set_attempts pa va s in
  flight_sim c (hs ++ [{| id := zlen l; live := true |}])
    (set_flights (<[k := next_flight_id s1]> (open_flights s1)) (<[next_flight_id s1 := (k, p, v)]> (flight_owner s1))
       (saturating_add (next_flight_id s1) 1)
       (<[p := saturating_add (total (on_partition p) l) 1]> (partition_flights s1))
       (<[v := saturating_add (total (on_provider v) l) 1]> (provider_flights s1))
       (saturating_add (deployment_flights s1) 1) s1) (l ++ [Some (k, p, v)]).
Proof.
  intros [Hh Hn Ho Hop Hp Hv Hd H1 (Hlp & Hlv & Hld)] Ht Hlen Hk Hpr Hvr Hdr s1. unfold limits_typed in Ht.
  assert (Hsat : ∀ x, x < usize_max → saturating_add x 1 = x + 1) by (intros; unfold saturating_add; lia).
  assert (Hfree : ∀ z p v, filed l z ≠ Some (k, p, v)).
  { intros z p' v' Hz. assert (0 < total (on_key k) l); [|lia]. apply key_open. by exists z, p', v'. }
  rewrite !Hsat by (cbn; unfold usize_max, u64_max in *; lia).
  split; cbn [set_flights set_attempts s1 next_flight_id open_flights flight_owner partition_flights provider_flights deployment_flights].
  - by apply handles_snoc.
  - rewrite Hn, zlen_app. done.
  - intros z. rewrite Hn, line_snoc. case_bool_decide as E; [by rewrite E, lookup_insert_eq|by rewrite lookup_insert_ne].
  - intros k' z. rewrite Hn, line_snoc. destruct (decide (k' = k)) as [->|Hne].
    + rewrite lookup_insert_eq. case_bool_decide as E; [naive_solver|]. split; [congruence|].
      intros (p' & v' & Hz). by apply Hfree in Hz.
    + rewrite lookup_insert_ne, Hop by done. case_bool_decide as E; [|done]. subst. split; [|naive_solver].
      intros (p' & v' & Hz). apply filed_range in Hz. lia.
  - apply (counts_add _ (λ p, total (on_partition p) l)); [done|apply total_ge0; intros; apply flag_nonneg|lia|..].
    + rewrite total_snoc. unfold on_partition at 2. by rewrite bool_decide_true.
    + intros j Hj. rewrite total_snoc. unfold on_partition at 2. rewrite bool_decide_false by done. lia.
  - apply (counts_add _ (λ v, total (on_provider v) l)); [done|apply total_ge0; intros; apply flag_nonneg|lia|..].
    + rewrite total_snoc. unfold on_provider at 2. by rewrite bool_decide_true.
    + intros j Hj. rewrite total_snoc. unfold on_provider at 2. rewrite bool_decide_false by done. lia.
  - rewrite Hd, total_snoc. done.
  - intros j. rewrite total_snoc. unfold on_key at 2. simpl. specialize (H1 j). case_bool_decide; subst; lia.
  - split; [|split].
    + intros j. rewrite total_snoc. unfold on_partition at 2. simpl. specialize (Hlp j). case_bool_decide; subst; lia.
    + intros j. rewrite total_snoc. unfold on_provider at 2. simpl. specialize (Hlv j). case_bool_decide; subst; lia.
    + rewrite total_snoc. unfold each at 2. lia.
Qed.

Lemma flight_finished hs s l i :
  flight_sim c hs s l → l !! i = Some (Some (k, p, v)) →
  ∃ s', finish (handle_of i (Some (k, p, v))) s = (Ok tt, handle_of i (@None (digest * digest * digest)), s') ∧
    flight_sim c (<[i := handle_of i (@None (digest * digest * digest))]> hs) s' (put i None l) ∧
    ∃ o w n pf vf df, s' = set_flights o w n pf vf df s.
Proof.
  intros [Hh Hn Ho Hop Hp Hv Hd H1 (Hlp & Hlv & Hld)] Hi. pose proof (mk_is_Some _ _ Hi) as Hsome.
  assert (Hclear : ∀ w, (∀ x, 0 <= w x) → total w (put i None l) = total w l - w (k, p, v) ∧ 0 <= total w (put i None l) <= total w l).
  { intros w Hw. pose proof (total_clear w l i _ Hi) as H. split; [done|]. split; [apply total_ge0; intros; apply Hw|].
    specialize (Hw (k, p, v)). lia. }
  unfold finish. cbn [handle_of live negb id]. rewrite Ho, (line_at _ _ _ Hi).
  eexists. split; [reflexivity|]. split; [|by do 6 eexists].
  split; cbn [set_flights next_flight_id open_flights flight_owner partition_flights provider_flights deployment_flights].
  - by apply handles_put.
  - unfold put, zlen in *. by rewrite length_insert.
  - intros z. rewrite filed_put by done. case_bool_decide as E; [by rewrite E, lookup_delete_eq|by rewrite lookup_delete_ne].
  - intros k' z. rewrite filed_put by done. destruct (decide (k' = k)) as [->|Hne].
    + rewrite lookup_delete_eq. split; [done|]. intros (p' & v' & Hz). exfalso. case_bool_decide as E; [done|].
      pose proof (proj2 (Hop k z) (ex_intro _ p' (ex_intro _ v' Hz))) as Ha.
      pose proof (proj2 (Hop k (Z.of_nat i)) (ex_intro _ p (ex_intro _ v (line_at _ _ _ Hi)))) as Hb. congruence.
    + rewrite lookup_delete_ne, Hop by done. case_bool_decide as E; [|done]. subst. rewrite (line_at _ _ _ Hi). naive_solver.
  - unfold count_down. apply (counts_sub _ (λ p, total (on_partition p) l)); [done|..].
    + destruct (Hclear (on_partition p)) as [-> _]; [intros; apply flag_nonneg|]. unfold on_partition at 2. by rewrite bool_decide_true.
    + apply Hclear. intros; apply flag_nonneg.
    + intros j Hj. destruct (Hclear (on_partition j)) as [-> _]; [intros; apply flag_nonneg|].
      unfold on_partition at 2. rewrite bool_decide_false by done. lia.
  - unfold count_down. apply (counts_sub _ (λ v, total (on_provider v) l)); [done|..].
    + destruct (Hclear (on_provider v)) as [-> _]; [intros; apply flag_nonneg|]. unfold on_provider at 2. by rewrite bool_decide_true.
    + apply Hclear. intros; apply flag_nonneg.
    + intros j Hj. destruct (Hclear (on_provider j)) as [-> _]; [intros; apply flag_nonneg|].
      unfold on_provider at 2. rewrite bool_decide_false by done. lia.
  - destruct (Hclear each) as [He Hb]; [done|]. change (each (k, p, v)) with 1 in He. rewrite Hd. unfold saturating_sub. lia.
  - intros j. destruct (Hclear (on_key j)) as [_ ?]; [intros; apply flag_nonneg|]. specialize (H1 j). lia.
  - split; [|split].
    + intros j. destruct (Hclear (on_partition j)) as [_ ?]; [intros; apply flag_nonneg|]. specialize (Hlp j). lia.
    + intros j. destruct (Hclear (on_provider j)) as [_ ?]; [intros; apply flag_nonneg|]. specialize (Hlv j). lia.
    + destruct (Hclear each) as [_ ?]; [done|]. lia.
Qed.
End flight.

(** ** One operation *)

Lemma quota_frame c hs s s' l :
  quota_sim c hs s l → next_quota_id s' = next_quota_id s → quota_live s' = quota_live s → quota_in_use s' = quota_in_use s →
  quota_sim c hs s' l.
Proof. intros [] H1 H2 H3. by split; rewrite ?H1, ?H2, ?H3. Qed.

Lemma flight_frame c hs s s' l :
  flight_sim c hs s l → next_flight_id s' = next_flight_id s → flight_owner s' = flight_owner s → open_flights s' = open_flights s →
  partition_flights s' = partition_flights s → provider_flights s' = provider_flights s → deployment_flights s' = deployment_flights s →
  flight_sim c hs s' l.
Proof. intros [] H1 H2 H3 H4 H5 H6. by split; rewrite ?H1, ?H2, ?H3, ?H4, ?H5, ?H6. Qed.

Section step.
Context (c : PartitionAdmissionController).
Hypothesis Hlimits : limits_typed c.

Lemma sim_mono w b n : sim c w b n → sim c w b (n + 1).
Proof. intros [? ? ? ? ? ? (? & ? & ?)]. split; [done..|lia]. Qed.

(** A refusal is counted and changes nothing else. *)
Lemma sim_refused w b n :
  sim c w b n → n < u64_max →
  sim c {| quotas := quotas w; flights := flights w; state := count_denial (state w) |} (denied b) (n + 1).
Proof.
  intros [Hq Hf Hw Hr Hre Hd (? & ? & ?)] Hn. split; cbn [quotas flights state denied charges airborne tries kept replays denials]; try done.
  - by apply (quota_frame _ _ _ _ _ Hq).
  - by apply (flight_frame _ _ _ _ _ Hf).
  - cbn [count_denial denial_count]. rewrite Hd. unfold saturating_add, usize_max, u64_max in *. lia.
  - lia.
Qed.

Definition answers (o : op) (w : World) (b : Books) (n : Z) : Prop :=
  ∃ r w' b', step c o w = (r, w') ∧ book_step c o b = (r, b') ∧ sim c w' b' (n + 1).

Lemma sim_reserve_quota w b n k u : sim c w b n → n < u64_max → 0 <= u → answers (ReserveQuota k u) w b n.
Proof.
  intros Hs Hn Hu. pose proof Hs as [Hq Hf Hw Hr Hre Hd (? & ? & ?)]. pose proof (qs_counts _ _ _ _ Hq k) as [Hk _].
  unfold answers. cbn [step book_step]. unfold reserve_quota, book_quota, bind, get.
  case_goal_if; zbool. { do 3 eexists. do 2 (split; [done|]). cbn. rewrite app_nil_r. destruct w. by apply sim_mono. }
  rewrite Hk. unfold ok_or, checked_add.
  destruct (Z.leb_spec (total (on_bucket k) (charges b) + u) usize_max) as [Hle|Hgt].
  - rewrite (proj2 (Z.ltb_ge _ _)) by done. cbn [ret]. case_goal_if; zbool.
    + do 3 eexists. do 2 (split; [done|]). cbn [new_handle]. rewrite app_nil_r. by apply sim_refused.
    + do 3 eexists. do 2 (split; [done|]). cbn [opened new_handle snd]. rewrite (qs_next _ _ _ _ Hq).
      split; cbn [quotas flights state charges airborne tries kept replays denials set_charges]; try done.
      * rewrite <- (qs_next _ _ _ _ Hq) at 2 3. apply quota_reserved; [done|lia..].
      * by apply (flight_frame _ _ _ _ _ Hf).
      * rewrite zlen_app. unfold zlen at 2. simpl. lia.
  - rewrite (proj2 (Z.ltb_lt _ _)) by done. do 3 eexists. do 2 (split; [done|]). cbn. rewrite app_nil_r. destruct w. by apply sim_mono.
Qed.

(** The branch of a refused flight. *)
Ltac refused := do 3 eexists; do 2 (split; [done|]); cbn [new_handle]; rewrite app_nil_r; by apply sim_refused.

Lemma sim_begin w b n p v k now : sim c w b n → n < u64_max → answers (Begin p v k now) w b n.
Proof.
  intros Hs Hn. pose proof Hs as [Hq Hf [Hwp Hwv] Hr Hre Hd (? & ? & ?)]. pose proof Hlimits as Ht. unfold limits_typed in Ht.
  pose proof (fs_partition _ _ _ _ Hf p) as [Hp _]. pose proof (fs_provider _ _ _ _ Hf v) as [Hv _].
  assert (Hk : bool_decide (is_Some (open_flights (state w) !! k)) = (0 <? total (on_key k) (airborne b))).
  { apply Bool.eq_iff_eq_true. rewrite bool_decide_eq_true, Z.ltb_lt, key_open. split.
    - intros [z Hz]. exists z. by apply (fs_open _ _ _ _ Hf).
    - intros (z & p' & v' & Hz). exists z. apply (fs_open _ _ _ _ Hf). by exists p', v'. }
  unfold answers. cbn [step book_step]. unfold begin_flight, book_flight, bind, get.
  rewrite Hk, (window_attempts_at _ _ _ now (Hwp p)), (window_attempts_at _ _ _ now (Hwv v)), Hp, Hv, (fs_deployment _ _ _ _ Hf).
  case_goal_if; [refused|]. case_goal_if; [refused|]. case_goal_if; [refused|].
  case_goal_if; [refused|]. case_goal_if; [refused|]. case_goal_if; [refused|]. zbool.
  do 3 eexists. do 2 (split; [done|]). cbn [opened new_handle snd]. rewrite (fs_next _ _ _ _ Hf).
  split; cbn [quotas flights state charges airborne tries kept replays denials]; try done.
  - by apply (quota_frame _ _ _ _ _ Hq).
  - apply flight_opened; [done|done|lia..].
  - split; [apply partition_windows_charge|apply provider_windows_charge]; (done || lia).
  - rewrite zlen_app. unfold zlen at 3. simpl. lia.
Qed.

Lemma sim_release_quota w b n i : sim c w b n → answers (ReleaseQuota i) w b n ∧ answers (DropQuota i) w b n.
Proof.
  intros Hs. pose proof Hs as [Hq Hf Hw Hr Hre Hd Hbd]. unfold answers. cbn [step book_step].
  rewrite (qs_handles _ _ _ _ Hq i). destruct (charges b !! i) as [[[k u]|]|] eqn:Hi; cbn [fmap option_fmap option_map].
  - destruct (quota_released c _ _ _ i k u Hq Hi) as (s' & Hrel & Hq' & q & v & ->).
    assert (Hs' : sim c {| quotas := <[i := handle_of i (@None (digest * Z))]> (quotas w); flights := flights w;
      state := set_quota q v (next_quota_id (state w)) (state w) |} (set_charges (put i None (charges b)) b) (n + 1)).
    { split; cbn [quotas flights state charges airborne tries kept replays denials set_charges]; try done.
      - by apply (flight_frame _ _ _ _ _ Hf).
      - unfold put, zlen in *. rewrite length_insert. lia. }
    unfold drop_quota. cbn [handle_of live]. rewrite Hrel. split; by do 3 eexists.
  - unfold drop_quota. cbn [handle_of live release_quota negb]. rewrite (handles_same _ _ _ _ (qs_handles _ _ _ _ Hq) Hi).
    apply sim_mono in Hs. destruct w. split; do 3 eexists; do 2 (split; [done|]); [done|].
    unfold put. rewrite list_insert_id by done. by destruct b.
  - apply sim_mono in Hs. split; by do 3 eexists.
Qed.

Lemma sim_finish w b n i : sim c w b n → answers (Finish i) w b n ∧ answers (DropFlight i) w b n.
Proof.
  intros Hs. pose proof Hs as [Hq Hf Hw Hr Hre Hd Hbd]. unfold answers. cbn [step book_step].
  rewrite (fs_handles _ _ _ _ Hf i). destruct (airborne b !! i) as [[[[k p] v]|]|] eqn:Hi; cbn [fmap option_fmap option_map].
  - destruct (flight_finished c p v k _ _ _ i Hf Hi) as (s' & Hrel & Hf' & o & ow & nx & pf & vf & df & ->).
    assert (Hs' : sim c {| quotas := quotas w; flights := <[i := handle_of i (@None (digest * digest * digest))]> (flights w);
      state := set_flights o ow nx pf vf df (state w) |} (set_airborne (put i None (airborne b)) b) (n + 1)).
    { split; cbn [quotas flights state charges airborne tries kept replays denials set_airborne]; try done.
      - by apply (quota_frame _ _ _ _ _ Hq).
      - unfold put, zlen in *. rewrite length_insert. lia. }
    unfold drop_flight. cbn [handle_of live]. rewrite Hrel. split; by do 3 eexists.
  - unfold drop_flight. cbn [handle_of live finish negb]. rewrite (handles_same _ _ _ _ (fs_handles _ _ _ _ Hf) Hi).
    apply sim_mono in Hs. destruct w. split; do 3 eexists; do 2 (split; [done|]); [done|].
    unfold put. rewrite list_insert_id by done. by destruct b.
  - apply sim_mono in Hs. split; by do 3 eexists.
Qed.

(** The arguments are values of [usize]. *)
Definition op_typed (o : op) : Prop := match o with ReserveQuota _ u => 0 <= u <= usize_max | _ => True end.

Lemma books_step w b n o : sim c w b n → op_typed o → n < u64_max → answers o w b n.
Proof.
  intros Hs Ho Hn. destruct o as [a slot v|k u|i|i|p v k now|i|i|p a].
  - destruct Hs as [Hq Hf Hw Hr Hre Hd Hbd]. do 3 eexists. do 2 (split; [done|]).
    split; cbn [quotas flights state charges airborne tries kept replays denials store snd]; try done.
    + by apply (quota_frame _ _ _ _ _ Hq).
    + by apply (flight_frame _ _ _ _ _ Hf).
    + cbn. by rewrite Hr.
    + lia.
  - apply sim_reserve_quota; [done|done|apply Ho].
  - by apply sim_release_quota.
  - by apply sim_release_quota.
  - by apply sim_begin.
  - by apply sim_finish.
  - by apply sim_finish.
  - pose proof Hs as [Hq Hf Hw Hr Hre Hd Hbd]. unfold answers. cbn [step book_step]. unfold reserve_replay, bind, get.
    rewrite Hre. destruct (replays b !! a) as [q|] eqn:E.
    + rewrite bool_decide_true by done. do 3 eexists. do 2 (split; [done|]). by apply sim_refused.
    + rewrite bool_decide_false by (by intros []). do 3 eexists. do 2 (split; [done|]).
      split; cbn [quotas flights state charges airborne tries kept replays denials]; try done.
      * by apply (quota_frame _ _ _ _ _ Hq).
      * by apply (flight_frame _ _ _ _ _ Hf).
      * cbn. by rewrite Hre.
      * lia.
Qed.

Lemma books_steps os : ∀ w b n,
  sim c w b n → Forall op_typed os → n + zlen os <= u64_max →
  ∃ rs w' b', steps c os w = (rs, w') ∧ book_steps c os b = (rs, b') ∧ sim c w' b' (n + zlen os).
Proof.
  induction os as [|o os IH]; intros w b n Hs Hos Hn.
  { exists [], w, b. rewrite zlen_nil, Z.add_0_r. done. }
  rewrite zlen_cons in *. pose proof (zlen_nonneg os). apply Forall_cons in Hos as [Ho Hos].
  destruct (books_step w b n o Hs Ho) as (r & w1 & b1 & H1 & H2 & Hs1); [lia|].
  destruct (IH w1 b1 (n + 1) Hs1 Hos) as (rs & w2 & b2 & H3 & H4 & Hs2); [lia|].
  exists (r :: rs), w2, b2. simpl. rewrite H1, H2, H3, H4. split_and!; try done. by rewrite Z.add_assoc.
Qed.

Lemma filed_nil {X} z : filed (X:=X) [] z = None.
Proof. unfold filed. by case_goal_if. Qed.

Lemma counts_empty {X} (w : digest → X → Z) : counts ∅ (λ k, total (w k) []).
Proof. done. Qed.

Lemma sim_initial : sim c (initial default_state) blank 0.
Proof.
  pose proof Hlimits as Ht. unfold limits_typed in Ht. split; [split|split|..]; cbn; try done; try apply counts_empty.
  - intros z. by rewrite filed_nil.
  - intros k. change (total _ []) with 0. lia.
  - intros z. by rewrite filed_nil.
  - intros k z. rewrite filed_nil. split; [done|by intros (? & ? & ?)].
  - split_and!; intros; lia.
Qed.
End step.

(** A controller whose limits were validated. *)
Definition configured (capacity pp pv pd pa va : Z) (c : PartitionAdmissionController) (s0 : PartitionState) : Prop :=
  ∃ l, new_limits pp pv pd pa va = Ok l ∧ new l capacity = Ok (c, s0) ∧
       0 <= pp ∧ 0 <= pv ∧ 0 <= pd ∧ 0 <= pa ∧ 0 <= va ∧ 0 <= capacity <= usize_max.

Lemma configured_typed capacity pp pv pd pa va c s0 :
  configured capacity pp pv pd pa va c s0 →
  limits_typed c ∧ s0 = default_state ∧ partition_attempts_per_minute (limits c) = pa ∧ 1 <= pa ∧
  provider_attempts_per_minute (limits c) = va ∧ 1 <= va.
Proof.
  unfold configured, new_limits, new. intros (l & Hl & Hc & ? & ? & ? & ? & ? & Hcap).
  repeat (case_if_in Hl; [done|]). injection Hl as <-. case_if_in Hc; [done|]. injection Hc as <- <-. zbool.
  unfold HARD_REVALIDATIONS_PER_PARTITION, HARD_REVALIDATIONS_PER_PROVIDER, HARD_REVALIDATIONS_PER_DEPLOYMENT,
    HARD_ATTEMPTS_PER_MINUTE_PER_PARTITION, HARD_ATTEMPTS_PER_MINUTE_PER_PROVIDER in *.
  unfold limits_typed, usize_max in *. simpl. split_and!; (done || lia).
Qed.

Lemma steps_balanced c os :
  limits_typed c → Forall op_typed os → zlen os <= u64_max →
  ∃ rs w b, steps c os (initial default_state) = (rs, w) ∧ book_steps c os blank = (rs, b) ∧ balanced c (state w) b.
Proof.
  intros Ht Hos Hlen. destruct (books_steps c Ht os _ _ 0 (sim_initial c Ht) Hos) as (rs & w & b & Hst & Hbk & Hsim); [lia|].
  exists rs, w, b. split_and!; try done. by apply (sim_balanced _ _ _ _ Hsim).
Qed.

(** C16: However store, reserve, release, begin, finish, reserve_replay and drops
    interleave on a controller, its clones and the handles it gave out, every
    caller is answered as the books of what is held decide: quota is admitted
    within the capacity of its bucket, a revalidation when its key has no flight
    open, the windows of its partition and provider have attempts left and the
    partition, the provider and the deployment have flights left, a replay alias
    once; every refusal names the exact occupancy.  The counters are the sums over
    what is held, within the configured limits, and at most one flight is open
    for each key; for up to 2^64 - 1 operations. *)
Theorem partition_refines_books capacity pp pv pd pa va c s0 os :
  configured capacity pp pv pd pa va c s0 → Forall op_typed os → zlen os <= u64_max →
  ∃ rs w b, steps c os (initial s0) = (rs, w) ∧ book_steps c os blank = (rs, b) ∧ balanced c (state w) b.
Proof. intros (Ht & -> & _)%configured_typed. by apply steps_balanced. Qed.

(** * Attempts in a minute *)

(** What is admitted enters a window that has attempts left. *)
Definition admissible (limit : Z) (ts : list Z) : Prop :=
  ∀ pre t post, ts = pre ++ t :: post → windowed pre t < limit.

Lemma admissible_snoc limit ts t : admissible limit ts → windowed ts t < limit → admissible limit (ts ++ [t]).
Proof.
  intros Hts Ht pre t' post H. destruct post as [|q post _] using rev_ind.
  - apply app_inj_tail in H as [<- <-]. done.
  - rewrite app_comm_cons, app_assoc in H. apply app_inj_tail in H as [-> _]. by eapply Hts.
Qed.

(** How many of the instants satisfy [f]. *)
Definition count (f : Z → bool) (ts : list Z) : Z := sum ((λ t, if f t then 1 else 0) <$> ts).
Definition in_minute (t x : Z) : bool := (t <=? x) && (x <? t + ATTEMPT_RATE_WINDOW).

Lemma count_snoc f ts t : count f (ts ++ [t]) = count f ts + (if f t then 1 else 0).
Proof. unfold count. rewrite fmap_app, sum_app. unfold sum. simpl. lia. Qed.

Lemma count_split f g h ts : Forall (λ x, f x = true → g x = true ∨ h x = true) ts → count f ts <= count g ts + count h ts.
Proof.
  unfold count. induction 1 as [|x ts Hx _ IH]; [done|]. rewrite !sum_fmap_cons.
  destruct (f x); [destruct (Hx eq_refl) as [-> | ->]|]; destruct (g x), (h x); lia.
Qed.

Lemma count_le f g ts : Forall (λ x, f x = true → g x = true) ts → count f ts <= count g ts.
Proof.
  unfold count. induction 1 as [|x ts Hx _ IH]; [done|]. rewrite !sum_fmap_cons.
  destruct (f x); [rewrite Hx by done|]; destruct (g x); lia.
Qed.

(** The current window holds the attempts from its start on, and the minute
    before it at most one less than a window. *)
Record window_ok (limit : Z) (ts : list Z) (w : AttemptWindow) : Prop := {
  wo_count : count (λ x, started w <=? x) ts = attempts w ∧ 1 <= attempts w <= limit;
  wo_opener : count (λ x, started w <? x) ts < attempts w;
  wo_before : count (λ x, (started w - ATTEMPT_RATE_WINDOW <? x) && (x <? started w)) ts < limit;
  wo_end : Forall (λ x, x < started w + ATTEMPT_RATE_WINDOW) ts;
  wo_minute : ∀ t, count (in_minute t) ts < 2 * limit }.

(** The instants are in order. *)
Definition ordered (ts : list Z) : Prop := ∀ pre t post, ts = pre ++ t :: post → Forall (λ x, x <= t) pre.

Lemma ordered_snoc ts t : ordered (ts ++ [t]) → ordered ts ∧ Forall (λ x, x <= t) ts.
Proof.
  intros H. split; [|by apply (H ts t [])]. intros pre t' post ->. apply (H pre t' (post ++ [t])). by rewrite <- app_assoc.
Qed.

Lemma window_start_in ts w : window ts = Some w → started w ∈ ts.
Proof.
  revert w. induction ts as [|t ts IH] using rev_ind; [done|]. intros w. rewrite window_snoc. intros [= <-]. unfold enter.
  destruct (window ts) as [w|] eqn:E; [case_goal_if|]; simpl; apply elem_of_app; [right|left|right]; try by apply list_elem_of_singleton.
  by apply IH.
Qed.

Lemma window_ok_first limit t : 1 <= limit → window_ok limit [t] {| started := t; attempts := 1 |}.
Proof.
  intros Hl. split; unfold count, sum; cbn [fmap list_fmap foldr started attempts].
  - rewrite (proj2 (Z.leb_le _ _)) by lia. lia.
  - rewrite (proj2 (Z.ltb_ge _ _)) by lia. lia.
  - rewrite (proj2 (Z.ltb_ge t t)) by lia. rewrite andb_false_r. lia.
  - repeat constructor. unfold ATTEMPT_RATE_WINDOW. lia.
  - intros u. simpl. destruct (in_minute u t); lia.
Qed.

Lemma window_ok_next limit ts w t :
  window_ok limit ts w → ATTEMPT_RATE_WINDOW <= t - started w → 1 <= limit → window_ok limit (ts ++ [t]) {| started := t; attempts := 1 |}.
Proof.
  intros [[Hc Ha] Ho Hb He Hm] Ht Hl. unfold ATTEMPT_RATE_WINDOW in *.
  assert (Hlate : ∀ u, started w <= u - 60000000000 → count (λ x, (u - 60000000000 <? x)) ts < limit).
  { intros u Hu. eapply Z.le_lt_trans; [apply (count_le _ (λ x, started w <? x))|lia].
    apply Forall_true. intros x. rewrite !Z.ltb_lt. lia. }
  assert (Hnone : ∀ f : Z → bool, (∀ x, f x = true → t <= x) → count f ts = 0).
  { intros f Hf. unfold count. clear - Hf He Ht. induction He as [|x ts Hx _ IH]; [done|]. rewrite sum_fmap_cons, IH.
    destruct (f x) eqn:E; [|done]. apply Hf in E. lia. }
  split; rewrite ?count_snoc; cbn [started attempts]; unfold ATTEMPT_RATE_WINDOW.
  - rewrite Hnone by (intros x; rewrite Z.leb_le; lia). rewrite (proj2 (Z.leb_le _ _)) by lia. lia.
  - rewrite Hnone by (intros x; rewrite Z.ltb_lt; lia). rewrite (proj2 (Z.ltb_ge _ _)) by lia. lia.
  - rewrite (proj2 (Z.ltb_ge t t)) by lia. rewrite andb_false_r. specialize (Hlate t ltac:(lia)).
    rewrite Z.add_0_r. eapply Z.le_lt_trans; [apply (count_le _ (λ x, t - 60000000000 <? x))|done].
    apply Forall_true. intros x. by intros [? _]%andb_true_iff.
  - apply Forall_app. split; [|repeat constructor; lia]. apply (Forall_impl _ _ _ He). intros x. simpl. lia.
  - intros u. rewrite count_snoc. destruct (in_minute u t) eqn:E; [|specialize (Hm u); lia].
    unfold in_minute, ATTEMPT_RATE_WINDOW in E. zbool.
    assert (H' : count (in_minute u) ts <= count (λ x, t - 60000000000 <? x) ts);
      [|specialize (Hlate t ltac:(lia)); lia]. apply count_le, Forall_true. intros x. unfold in_minute, ATTEMPT_RATE_WINDOW.
    rewrite andb_true_iff, Z.leb_le, !Z.ltb_lt. lia.
Qed.

Lemma window_ok_same limit ts w t :
  window_ok limit ts w → started w <= t → t - started w < ATTEMPT_RATE_WINDOW → attempts w < limit →
  window_ok limit (ts ++ [t]) {| started := started w; attempts := attempts w + 1 |}.
Proof.
  intros [[Hc Ha] Ho Hb He Hm] Hs Ht Hl. unfold ATTEMPT_RATE_WINDOW in *.
  split; rewrite ?count_snoc; cbn [started attempts]; unfold ATTEMPT_RATE_WINDOW.
  - rewrite (proj2 (Z.leb_le _ _)) by lia. lia.
  - destruct (started w <? t); lia.
  - rewrite (proj2 (Z.ltb_ge t (started w))) by lia. rewrite andb_false_r. lia.
  - apply Forall_app. split; [done|repeat constructor; lia].
  - intros u. rewrite count_snoc. destruct (in_minute u t) eqn:E; [|specialize (Hm u); lia].
    unfold in_minute, ATTEMPT_RATE_WINDOW in E. zbool.
    assert (H' : count (in_minute u) ts <= count (λ x, started w <=? x) ts +
      count (λ x, (started w - 60 * 1000000000 <? x) && (x <? started w)) ts); [|lia].
    apply count_split, Forall_true. intros x. unfold in_minute, ATTEMPT_RATE_WINDOW. rewrite !andb_true_iff, !Z.leb_le, !Z.ltb_lt. lia.
Qed.

(** Less than twice the limit in any minute. *)
Lemma admissible_minute limit ts :
  1 <= limit → admissible limit ts → ordered ts → match window ts with Some w => window_ok limit ts w | None => ts = [] end.
Proof.
  intros Hl. induction ts as [|t ts IH] using rev_ind; [done|]. intros Had Hord. apply ordered_snoc in Hord as [Hord Hle].
  pose proof (Had ts t [] eq_refl) as Ht.
  assert (IH' : match window ts with Some w => window_ok limit ts w | None => ts = [] end).
  { apply IH; [|done]. intros pre x post ->. apply (Had pre x (post ++ [t])). by rewrite <- app_assoc. }
  rewrite window_snoc. unfold enter, windowed in *. destruct (window ts) as [w|] eqn:E.
  - case_goal_if; zbool; [by eapply window_ok_next|]. apply window_ok_same; [done| |done|done].
    apply window_start_in in E. rewrite Forall_forall in Hle. by apply Hle.
  - subst. by apply window_ok_first.
Qed.

(** ** Attempts of a run *)

(** The revalidations that were admitted: partition, provider and instant. *)
Definition admitted (os : list op) (rs : list answer) : list (digest * digest * Z) :=
  omap (λ x, match x with (Begin p v _ now, Some (Ok _)) => Some (p, v, now) | _ => None end) (zip os rs).

Lemma book_step_tries c o b r b' :
  book_step c o b = (r, b') →
  tries b' = tries b ∧ admitted [o] [r] = [] ∨
  ∃ p v now, tries b' = tries b ++ [(p, v, now)] ∧ admitted [o] [r] = [(p, v, now)] ∧
    windowed (partition_times p (tries b)) now < partition_attempts_per_minute (limits c) ∧
    windowed (provider_times v (tries b)) now < provider_attempts_per_minute (limits c).
Proof.
  destruct o as [a slot v|k u|i|i|p v k now|i|i|p a]; cbn [book_step]; intros H.
  - injection H as <- <-. by left.
  - left. unfold book_quota, refuse in H. repeat case_if_in H; by injection H as <- <-.
  - left. destruct (charges b !! i) as [[]|]; by injection H as <- <-.
  - left. destruct (charges b !! i) as [[]|]; by injection H as <- <-.
  - unfold book_flight, refuse in H. do 6 (case_if_in H; [injection H as <- <-; by left|]). injection H as <- <-. zbool.
    right. by exists p, v, now.
  - left. destruct (airborne b !! i) as [[]|]; by injection H as <- <-.
  - left. destruct (airborne b !! i) as [[]|]; by injection H as <- <-.
  - left. unfold refuse in H. destruct (replays b !! a); by injection H as <- <-.
Qed.

Definition tries_ok (c : PartitionAdmissionController) (h : list (digest * digest * Z)) : Prop :=
  (∀ p, admissible (partition_attempts_per_minute (limits c)) (partition_times p h)) ∧
  (∀ v, admissible (provider_attempts_per_minute (limits c)) (provider_times v h)).

Lemma tries_ok_snoc c h p v now :
  tries_ok c h → windowed (partition_times p h) now < partition_attempts_per_minute (limits c) →
  windowed (provider_times v h) now < provider_attempts_per_minute (limits c) → tries_ok c (h ++ [(p, v, now)]).
Proof.
  intros [Hp Hv] Hwp Hwv. split; intros q; [unfold partition_times|unfold provider_times]; rewrite filter_app, fmap_app.
  - destruct (decide (p = q)) as [->|].
    + rewrite filter_cons_True by done. by apply (admissible_snoc _ (partition_times q h) now).
    + rewrite filter_cons_False by done. rewrite app_nil_r. apply Hp.
  - destruct (decide (v = q)) as [->|].
    + rewrite filter_cons_True by done. by apply (admissible_snoc _ (provider_times q h) now).
    + rewrite filter_cons_False by done. rewrite app_nil_r. apply Hv.
Qed.

Lemma book_steps_tries c os : ∀ b rs b',
  book_steps c os b = (rs, b') → tries_ok c (tries b) → tries b' = tries b ++ admitted os rs ∧ tries_ok c (tries b').
Proof.
  induction os as [|o os IH]; intros b rs b' H Hok; simpl in H; [injection H as <- <-; by rewrite app_nil_r|].
  destruct (book_step c o b) as [r b1] eqn:E1. destruct (book_steps c os b1) as [rs1 b2] eqn:E2. injection H as <- <-.
  assert (Hcons : admitted (o :: os) (r :: rs1) = admitted [o] [r] ++ admitted os rs1).
  { unfold admitted. simpl. by destruct o; try done; destruct r as [[]|]. }
  rewrite Hcons. apply book_step_tries in E1 as [[Ht ->]|(p & v & now & Ht & -> & Hp & Hv)].
  - apply IH in E2; rewrite Ht in *; [|done]. done.
  - apply IH in E2; [|rewrite Ht; by apply tries_ok_snoc]. rewrite Ht in E2. by rewrite app_assoc.
Qed.

Lemma ordered_filter {X} (f : X → Z) (P : X → Prop) `{∀ x, Decision (P x)} (h : list X) :
  ordered (f <$> h) → ordered (f <$> filter P h).
Proof.
  induction h as [|x h IH] using rev_ind; [done|]. rewrite filter_app, !fmap_app. intros [Hh Hx]%ordered_snoc.
  destruct (decide (P x)); [rewrite filter_cons_True by done|rewrite filter_cons_False by done; rewrite app_nil_r; by apply IH].
  intros pre t post Heq. destruct post as [|q post _] using rev_ind.
  - apply app_inj_tail in Heq as [<- <-]. rewrite Forall_forall in Hx |- *.
    intros z (y & -> & [_ Hy]%list_elem_of_filter)%list_elem_of_fmap. apply Hx. by apply list_elem_of_fmap_2.
  - rewrite app_comm_cons, app_assoc in Heq. apply app_inj_tail in Heq as [Heq _]. by eapply IH.
Qed.

Lemma minute_bound limit ts t : 1 <= limit → admissible limit ts → ordered ts → count (in_minute t) ts < 2 * limit.
Proof.
  intros Hl Ha Ho. pose proof (admissible_minute limit ts Hl Ha Ho) as H. destruct (window ts) as [w|]; [by apply (wo_minute _ _ w)|subst].
  unfold count. change (sum _) with 0. lia.
Qed.

(** C18: In any minute, fewer than twice the configured attempts of a partition,
    and of a provider, are admitted, whatever operations ran and however long,
    when the clock readings of the admitted attempts are in order.  The windows
    are fixed, so a minute that straddles two of them can hold more than the
    configured attempts, up to one less than twice as many. *)
Theorem partition_attempts_bounded capacity pp pv pd pa va c s0 os rs w :
  configured capacity pp pv pd pa va c s0 → Forall op_typed os → zlen os <= u64_max →
  steps c os (initial s0) = (rs, w) → ordered (snd <$> admitted os rs) →
  ∀ bucket t, count (in_minute t) (partition_times bucket (admitted os rs)) < 2 * pa ∧
              count (in_minute t) (provider_times bucket (admitted os rs)) < 2 * va.
Proof.
  intros (Ht & -> & <- & Hpa & <- & Hva)%configured_typed Hos Hlen Hst Hord bucket t.
  destruct (steps_balanced c os Ht Hos Hlen) as (rs' & w' & b & Hst' & Hbk & _). rewrite Hst in Hst'. injection Hst' as <- <-.
  apply book_steps_tries in Hbk as [Htr [Hp Hv]].
  - simpl in Htr. rewrite Htr in Hp, Hv.
    split; apply minute_bound; [done|apply Hp|by apply ordered_filter|done|apply Hv|by apply ordered_filter].
  - split; intros q pre x post Hnil; by apply app_cons_not_nil in Hnil.
Qed.

(** * Concrete runs *)
Module Examples.

Definition key (n : Z) : digest := replicate 32 n.

(** One flight a partition, two attempts a minute; six units of quota. *)
Definition ex_controller : PartitionAdmissionController :=
  {| limits := {| per_partition := 1; per_provider := 2; per_deployment := 2;
                  partition_attempts_per_minute := 2; provider_attempts_per_minute := 100 |};
     quota_capacity := 6 |}.

Lemma ex_configured : configured 6 1 2 2 2 100 ex_controller default_state.
Proof. eexists. unfold usize_max. split; [reflexivity|]. split; [reflexivity|]. lia. Qed.

Definition ex_ops : list op :=
  [ReserveQuota (key 1) 4; ReserveQuota (key 1) 3; ReleaseQuota 0; ReserveQuota (key 1) 6;
   Begin (key 2) (key 3) (key 4) 0; Begin (key 2) (key 3) (key 4) 1; Begin (key 2) (key 3) (key 5) 2; Finish 0; Finish 0;
   Begin (key 2) (key 3) (key 4) 59000000000; DropFlight 1; Begin (key 2) (key 3) (key 4) 59500000000;
   Begin (key 2) (key 3) (key 4) 60000000000; Finish 2; Begin (key 2) (key 3) (key 4) 60000000001;
   ReserveReplay (key 2) (key 9); ReserveReplay (key 7) (key 9)].

Example ex_partition_answers :
  (steps ex_controller ex_ops (initial default_state)).1 =
    [Some (Ok tt); Some (Err (QuotaExhausted 3 4 6)); Some (Ok tt); Some (Ok tt);
     Some (Ok tt); Some (Err RevalidationAlreadyInFlight); Some (Err (PartitionRevalidationLimitExceeded 1 1)); Some (Ok tt);
     Some (Err RevalidationAlreadyFinished);
     Some (Ok tt); Some (Ok tt); Some (Err (PartitionAttemptRateExceeded 2 2));
     Some (Ok tt); Some (Ok tt); Some (Ok tt); Some (Ok tt); Some (Err ReplayAliasAlreadyReserved)].
Proof. vm_compute. reflexivity. Qed.

Lemma ex_typed : Forall op_typed ex_ops.
Proof. repeat constructor; vm_compute; try done; repeat split; intros [=]. Qed.

Lemma partition_refines_books_witness :
  ∃ rs w b, steps ex_controller ex_ops (initial default_state) = (rs, w) ∧ book_steps ex_controller ex_ops blank = (rs, b) ∧
    balanced ex_controller (state w) b.
Proof.
  apply (partition_refines_books 6 1 2 2 2 100 ex_controller default_state ex_ops).
  - exact ex_configured.
  - exact ex_typed.
  - vm_compute. intros [=].
Defined.

(** Three attempts in the minute from 59 s on, one less than twice the two that
    are configured. *)
Example ex_attempts :
  count (in_minute 59000000000) (partition_times (key 2)
    (admitted ex_ops (steps ex_controller ex_ops (initial default_state)).1)) = 3.
Proof. vm_compute. reflexivity. Qed.

Lemma ex_ordered : ordered (snd <$> admitted ex_ops (steps ex_controller ex_ops (initial default_state)).1).
Proof.
  intros pre t post H. vm_compute in H.
  do 4 (destruct pre as [|? pre]; [injection H as; subst; repeat constructor; by vm_compute|injection H as ? H; subst]).
  by apply app_cons_not_nil in H.
Qed.

Lemma partition_attempts_bounded_witness :
  count (in_minute 59000000000) (partition_times (key 2)
    (admitted ex_ops (steps ex_controller ex_ops (initial default_state)).1)) < 2 * 2.
Proof.
  assert (Hlen : zlen ex_ops <= u64_max) by (vm_compute; intros [=]).
  destruct (partition_attempts_bounded 6 1 2 2 2 100 ex_controller default_state ex_ops
    (steps ex_controller ex_ops (initial default_state)).1 (steps ex_controller ex_ops (initial default_state)).2
    ex_configured ex_typed Hlen (surjective_pairing _) ex_ordered (key 2) 59000000000) as [H _].
  exact H.
Defined.

End Examples.

End PartitionBooks.
