(* ===== verification/Ingress.v ===== *)
(** Verified ingress: the facts a provider verified, secret fingerprints, and the
    freshness of an authorization, [crates/fastmcp-core/src/ingress.rs].

    Strings are lists of characters, durations nanoseconds.  The key of an HMAC
    and the function itself are arguments. *)
From stdpp Require Import base list gmap strings sorting.
From Stdlib Require Import ZArith Lia.
From S2P Require Import Prelude Utf8 RequestId RateLimit CoreLimits SecurityPartition SecurityPartitionTheorems.

Module Ingress.
Import Limits.SealedKeys.

Definition SECRET_FINGERPRINT_KEY_ID_MIN_BYTES : Z := 1.
Definition SECRET_FINGERPRINT_KEY_ID_MAX_BYTES : Z := 128.
Definition SECRET_FINGERPRINT_INPUT_LIMIT_BYTES : Z := 64 * 1024.
Definition SECRET_FINGERPRINT_DOMAIN : list Z := chars_of "auth-00-secret-fingerprint-v1".
Definition DEFAULT_MAXIMUM_STALENESS : Z := 30 * 1000000000.
Definition HARD_MAXIMUM_STALENESS : Z := 300 * 1000000000.
Definition MAX_VERIFIED_IDENTITY_FIELD_BYTES : Z := 8 * 1024.
Definition MAX_VERIFIED_IDENTITY_CLAIMS : Z := 256.
Definition MAX_VERIFIED_IDENTITY_BYTES : Z := 64 * 1024.

Inductive IngressFactsError : Type :=
| KeyIdEmpty
| KeyIdTooLong
| KeyIdNotPrintableAscii
| FingerprintMaterialTooLong
| FingerprintMismatch
| MaximumStalenessAboveCeiling
| MaximumStalenessZero
| IdentityFieldTooLong
| TooManyVerifiedClaims
| IdentityTooLarge
| InvalidVerifiedClaim
| InvalidAudienceBinding.

(** * Secret fingerprints *)

Record SecretFingerprint : Type := { key_id : list Z; generation : Z; tag : list Z }.

(** [u8::is_ascii_graphic] *)
Definition is_ascii_graphic (b : Z) : bool := (33 <=? b) && (b <=? 126).

Definition check_key_id (key_id : list Z) : outcome IngressFactsError unit :=
  if zlen (as_bytes key_id) <? SECRET_FINGERPRINT_KEY_ID_MIN_BYTES then Err KeyIdEmpty
  else if SECRET_FINGERPRINT_KEY_ID_MAX_BYTES <? zlen (as_bytes key_id) then Err KeyIdTooLong
  else if negb (forallb (λ byte, is_ascii_graphic byte || (byte =? 32)) (as_bytes key_id)) then Err KeyIdNotPrintableAscii
  else Ok tt.

(** The same framing as [encode_parts], written out in the source. *)
Definition preimage (key_id : list Z) (generation : Z) (material : list Z) : list Z :=
  [SECRET_FINGERPRINT_DOMAIN; as_bytes key_id; to_be_bytes generation; material] ≫= λ part,
    to_be_bytes (zlen part) ++ part.

(** The errors of [crates/fastmcp-core/src/crypto.rs] *)
Record CryptoInputTooLongError : Type := { input_bytes : Z; max_input_bytes : Z }.
Inductive HmacVerificationError : Type := InputTooLong (e : CryptoInputTooLongError) | TagMismatch.

Definition enforce_input_limit (input : list Z) (limit : Z) : outcome CryptoInputTooLongError unit :=
  if limit <? zlen input then Err {| input_bytes := zlen input; max_input_bytes := limit |} else Ok tt.

Section fingerprints.
Context (hmac : list Z → list Z → list Z).

(** [HmacSha256Key::authenticate_bounded] and [verify_bounded] of the same file;
    a key is its bytes. *)
Definition authenticate_bounded (key input : list Z) (limit : Z) : outcome CryptoInputTooLongError (list Z) :=
  let? _ := enforce_input_limit input limit in Ok (hmac key input).
Definition verify_bounded (key input : list Z) (limit : Z) (tag : list Z) : outcome HmacVerificationError unit :=
  let? _ := map_err InputTooLong (enforce_input_limit input limit) in
  if bool_decide (hmac key input = tag) then Ok tt else Err TagMismatch.

(** [SecretFingerprint::derive] *)
Definition derive (id : list Z) (generation : Z) (key material : list Z) : outcome IngressFactsError SecretFingerprint :=
  let? _ := check_key_id id in
  if SECRET_FINGERPRINT_INPUT_LIMIT_BYTES <? zlen material then Err FingerprintMaterialTooLong
  else
    let? tag := map_err (λ _, FingerprintMaterialTooLong)
      (authenticate_bounded key (preimage id generation material) (SECRET_FINGERPRINT_INPUT_LIMIT_BYTES * 2)) in
    Ok {| key_id := id; generation := generation; tag := tag |}.

Definition verify_material (f : SecretFingerprint) (key material : list Z) : outcome IngressFactsError unit :=
  if SECRET_FINGERPRINT_INPUT_LIMIT_BYTES <? zlen material then Err FingerprintMaterialTooLong
  else
    map_err (λ _, FingerprintMismatch)
      (verify_bounded key (preimage (key_id f) (generation f) material) (SECRET_FINGERPRINT_INPUT_LIMIT_BYTES * 2) (tag f)).

(** [SealedProviderReference] is its fingerprint. *)
Definition seal (id : list Z) (generation : Z) (key reference : list Z) : outcome IngressFactsError SecretFingerprint :=
  derive id generation key reference.
Definition verify_reference (r : SecretFingerprint) (key reference : list Z) : outcome IngressFactsError unit :=
  verify_material r key reference.
End fingerprints.

(** * Replay purposes and staleness *)

Inductive ReplayPurpose : Type := EnterpriseIdentityAssertionReplay | EnterpriseIdJagJtiReplay.
Definition domain (p : ReplayPurpose) : list Z :=
  match p with
  | EnterpriseIdentityAssertionReplay => chars_of "auth-00-replay-enterprise-identity-assertion-v1"
  | EnterpriseIdJagJtiReplay => chars_of "auth-00-replay-enterprise-id-jag-jti-v1"
  end.

Definition as_str (p : ReplayPurpose) : list Z :=
  match p with
  | EnterpriseIdentityAssertionReplay => chars_of "EnterpriseIdentityAssertionReplay"
  | EnterpriseIdJagJtiReplay => chars_of "EnterpriseIdJagJtiReplay"
  end.

Inductive RevalidationDispatch : Type := NotDispatched | Dispatched | Unknown.

(** [MaximumStaleness] is its bound. *)
Definition default_bound : Z := DEFAULT_MAXIMUM_STALENESS.
Definition new_staleness (bound : Z) : outcome IngressFactsError Z :=
  if bound =? 0 then Err MaximumStalenessZero
  else if HARD_MAXIMUM_STALENESS <? bound then Err MaximumStalenessAboveCeiling
  else Ok bound.

(** * Verified facts *)

Inductive VerifiedAudienceBinding : Type :=
| OAuth (canonical_resource validated_audience audience_policy_id : list Z) (audience_policy_revision : Z)
    (provider : list Z) (configuration_generation : Z)
| MutualTlsPeer
| StaticCredential.

Definition is_oauth (b : VerifiedAudienceBinding) : bool :=
  match b with OAuth _ _ _ _ _ _ => true | _ => false end.
Definition binding_policy_id (b : VerifiedAudienceBinding) : option (list Z) :=
  match b with OAuth _ _ policy _ _ _ => Some policy | _ => None end.
Definition binding_policy_revision (b : VerifiedAudienceBinding) : option Z :=
  match b with OAuth _ _ _ revision _ _ => Some revision | _ => None end.

Definition canonical_parts (b : VerifiedAudienceBinding) : list (list Z) :=
  match b with
  | OAuth resource audience policy revision provider generation =>
      [chars_of "oauth"; as_bytes resource; as_bytes audience; as_bytes policy; to_be_bytes revision;
       as_bytes provider; to_be_bytes generation]
  | MutualTlsPeer => [chars_of "mutual-tls-peer"]
  | StaticCredential => [chars_of "static-credential"]
  end.

Abbreviation claim := (list Z * list Z)%type.

(** [VerifiedIdentityFacts], and [VerifiedIngressAuthentication] once admitted. *)
Record Facts : Type := {
  provider : list Z;
  configuration_generation : Z;
  issuer : list Z;
  canonical_resource : list Z;
  verified_audience_binding : VerifiedAudienceBinding;
  tenant : list Z;
  subject_or_principal : list Z;
  authorized_party_or_client : list Z;
  verified_claims : list claim;
  auth_policy_revision : Z;
  trust_generation : Z }.

(** The order of strings is that of their bytes ([bytes_leb]), of pairs the
    lexicographic one. *)
Definition str_le (a b : list Z) : Prop := bytes_leb (as_bytes a) (as_bytes b) = true.
Definition claim_leb (a b : claim) : bool :=
  if bool_decide (as_bytes a.1 = as_bytes b.1) then bytes_leb (as_bytes a.2) (as_bytes b.2)
  else bytes_leb (as_bytes a.1) (as_bytes b.1).
Definition claim_le (a b : claim) : Prop := claim_leb a b = true.
#[export] Instance str_le_dec : RelDecision str_le.
Proof. intros a b. unfold str_le. apply _. Defined.
#[export] Instance claim_le_dec : RelDecision claim_le.
Proof. intros a b. unfold claim_le. apply _. Defined.

(** [Vec::dedup]: runs of equal values become one. *)
Fixpoint dedup {A} `{EqDecision A} (l : list A) : list A :=
  match l with
  | x :: (y :: _) as rest => if decide (x = y) then dedup rest else x :: dedup rest
  | _ => l
  end.

(** [sort] and [dedup] of claims, and of grants. *)
Definition normalize_claims (l : list claim) : list claim := dedup (merge_sort claim_le l).
Definition normalize_grants (l : list (list Z)) : list (list Z) := dedup (merge_sort str_le l).

Definition charge_identity_field (field : list Z) (total : Z) : outcome IngressFactsError Z :=
  if MAX_VERIFIED_IDENTITY_FIELD_BYTES <? zlen (as_bytes field) then Err IdentityFieldTooLong
  else
    match checked_add total (zlen (as_bytes field)) with
    | None => Err IdentityTooLarge
    | Some total => if MAX_VERIFIED_IDENTITY_BYTES <? total then Err IdentityTooLarge else Ok total
    end.

(** The loops over required fields; an empty one is refused with [e]. *)
Fixpoint charge_fields (e : IngressFactsError) (fields : list (list Z)) (total : Z) : outcome IngressFactsError Z :=
  match fields with
  | [] => Ok total
  | field :: rest =>
      if bool_decide (field = []) then Err e
      else let? total := charge_identity_field field total in charge_fields e rest total
  end.

Fixpoint charge_claims (claims : list claim) (total : Z) : outcome IngressFactsError Z :=
  match claims with
  | [] => Ok total
  | (name, value) :: rest =>
      if bool_decide (name = []) then Err InvalidVerifiedClaim
      else
        let? total := charge_identity_field name total in
        let? total := charge_identity_field value total in
        charge_claims rest total
  end.

(** The facts of an OAuth binding, and that they agree with those around them. *)
Definition charge_binding (f : Facts) (total : Z) : outcome IngressFactsError Z :=
  match verified_audience_binding f with
  | OAuth resource audience policy _ p generation =>
      let? total := charge_fields InvalidAudienceBinding [resource; audience; policy; p] total in
      if negb (bool_decide (resource = canonical_resource f)) || negb (bool_decide (p = provider f)) ||
         negb (generation =? configuration_generation f)
      then Err InvalidAudienceBinding else Ok total
  | _ => Ok total
  end.

Definition from_verified_provider_output (f : Facts) : outcome IngressFactsError Facts :=
  if MAX_VERIFIED_IDENTITY_CLAIMS <? zlen (verified_claims f) then Err TooManyVerifiedClaims
  else
    let? total := charge_fields KeyIdEmpty
      [provider f; issuer f; canonical_resource f; tenant f; subject_or_principal f; authorized_party_or_client f] 0 in
    let? total := charge_binding f total in
    let? _ := charge_claims (verified_claims f) total in
    Ok {| provider := provider f; configuration_generation := configuration_generation f; issuer := issuer f;
          canonical_resource := canonical_resource f; verified_audience_binding := verified_audience_binding f;
          tenant := tenant f; subject_or_principal := subject_or_principal f;
          authorized_party_or_client := authorized_party_or_client f;
          verified_claims := normalize_claims (verified_claims f);
          auth_policy_revision := auth_policy_revision f; trust_generation := trust_generation f |}.

(** * The descriptor *)

(** The parts that are hashed for the identity of admitted facts. *)
Definition identity_parts (f : Facts) : list (list Z) :=
  [chars_of "auth-00-security-partition-descriptor-v1"; as_bytes (provider f); to_be_bytes (configuration_generation f);
   as_bytes (issuer f); as_bytes (canonical_resource f); as_bytes (tenant f); as_bytes (subject_or_principal f);
   as_bytes (authorized_party_or_client f); to_be_bytes (auth_policy_revision f); to_be_bytes (trust_generation f)] ++
  canonical_parts (verified_audience_binding f) ++ [to_be_bytes (zlen (verified_claims f))] ++
  (verified_claims f ≫= λ c, [as_bytes c.1; as_bytes c.2]).

Record SecurityPartitionDescriptor : Type := { facts : Facts; identity : Sha256Digest }.

Section descriptor.
Context (sha256 : list Z → Sha256Digest).

Definition from_verified_ingress (f : Facts) : outcome IngressFactsError SecurityPartitionDescriptor :=
  let? identity := opaque_admission_digest sha256 (identity_parts f) in Ok {| facts := f; identity := identity |}.

Definition to_partition_descriptor (d : SecurityPartitionDescriptor)
    : outcome SealedAdmissionKeyError Partition.PartitionDescriptor :=
  let f := facts d in
  Partition.from_verified_facts sha256
    (Partition.Build_VerifiedFacts (provider f) (configuration_generation f) (issuer f) (canonical_resource f) (tenant f)
       (subject_or_principal f) (authorized_party_or_client f) (trust_generation f) (auth_policy_revision f)
       (canonical_parts (verified_audience_binding f))).
End descriptor.

(** * Rotation *)

Record AuthorizationRotationFacts : Type := {
  provider_reference : SecretFingerprint;
  token_instance : SecretFingerprint;
  required_grants : list (list Z);
  rotation_trust_generation : Z;
  expiry : Z;
  maximum_staleness : Z;
  dispatch : RevalidationDispatch }.

Definition new_rotation (reference token : SecretFingerprint) (grants : list (list Z)) (trust expiry staleness : Z)
    (d : RevalidationDispatch) : AuthorizationRotationFacts :=
  {| provider_reference := reference; token_instance := token; required_grants := normalize_grants grants;
     rotation_trust_generation := trust; expiry := expiry; maximum_staleness := staleness; dispatch := d |}.

Definition is_fresh_after (r : AuthorizationRotationFacts) (elapsed : Z) : bool :=
  match dispatch r with
  | Dispatched => (elapsed <? expiry r) && (elapsed <=? maximum_staleness r)
  | NotDispatched | Unknown => false
  end.

End Ingress.
