(* ===== verification/IngressTheorems.v ===== *)
(** What verified ingress promises: an identity tells every fact it was made from,
    and facts are admitted exactly within their bounds. *)
From stdpp Require Import base list gmap strings sorting.
From Stdlib Require Import ZArith Lia.
From S2P Require Import Prelude Utf8 RequestId RateLimit PartitionStoreFacts CoreLimits SecurityPartition SecurityPartitionTheorems Ingress.

(** * Sorting and removing duplicates *)
Module IngressCorrect.
Import Limits.SealedKeys Ingress PartitionCorrect.

Lemma bytes_leb_cons x y a b : bytes_leb (x :: a) (y :: b) = true ↔ x < y ∨ x = y ∧ bytes_leb a b = true.
Proof. simpl. by rewrite orb_true_iff, andb_true_iff, Z.ltb_lt, Z.eqb_eq. Qed.

Lemma bytes_leb_antisym a : ∀ b, bytes_leb a b = true → bytes_leb b a = true → a = b.
Proof.
  induction a as [|x a IH]; intros [|y b]; [done..|]. rewrite !bytes_leb_cons.
  intros [?|[-> Hab]] [?|[? Hba]]; try lia. f_equal. by apply IH.
Qed.

#[export] Instance str_le_trans : Transitive str_le.
Proof. intros a b c. apply bytes_leb_trans. Qed.
#[export] Instance str_le_total : Total str_le.
Proof. intros a b. apply bytes_leb_total. Qed.
#[export] Instance claim_le_total : Total claim_le.
Proof.
  intros a b. unfold claim_le, claim_leb. destruct (decide (as_bytes a.1 = as_bytes b.1)) as [E|E].
  - rewrite !bool_decide_true by done. apply bytes_leb_total.
  - rewrite !bool_decide_false by done. apply bytes_leb_total.
Qed.
#[export] Instance claim_le_trans : Transitive claim_le.
Proof.
  intros a b c. unfold claim_le, claim_leb. intros H1 H2.
  destruct (decide (as_bytes a.1 = as_bytes b.1)) as [E1|E1]; [rewrite bool_decide_true in H1 by done|rewrite bool_decide_false in H1 by done];
  destruct (decide (as_bytes b.1 = as_bytes c.1)) as [E2|E2]; [rewrite bool_decide_true in H2 by done|rewrite bool_decide_false in H2 by done|
    rewrite bool_decide_true in H2 by done|rewrite bool_decide_false in H2 by done].
  - rewrite bool_decide_true by congruence. by eapply bytes_leb_trans.
  - rewrite bool_decide_false by congruence. by rewrite E1.
  - rewrite bool_decide_false by congruence. by rewrite <- E2.
  - case_bool_decide as E3; [|by eapply bytes_leb_trans]. exfalso. apply E1. apply bytes_leb_antisym; [done|]. by rewrite E3.
Qed.

Definition string_ok (s : list Z) : Prop := Forall is_scalar s.
Definition claim_ok (c : claim) : Prop := string_ok c.1 ∧ string_ok c.2.

Lemma claim_le_antisym a b : claim_ok a → claim_ok b → claim_le a b → claim_le b a → a = b.
Proof.
  intros [Ha1 Ha2] [Hb1 Hb2]. unfold claim_le, claim_leb. destruct (decide (as_bytes a.1 = as_bytes b.1)) as [E|E].
  - rewrite !bool_decide_true by done. intros H1 H2. apply bytes_leb_antisym in H1; [|done].
    apply as_bytes_inj in E; [|done..]. apply as_bytes_inj in H1; [|done..]. destruct a, b; simpl in *; congruence.
  - rewrite !bool_decide_false by done. intros H1 H2. by apply bytes_leb_antisym in H1.
Qed.

Section dedup.
Context {A : Type} `{EqDecision A} (R : relation A).

Lemma elem_of_dedup (l : list A) x : x ∈ dedup l ↔ x ∈ l.
Proof.
  induction l as [|y [|z l] IH]; [done..|]. change (dedup (y :: z :: l)) with (if decide (y = z) then dedup (z :: l) else y :: dedup (z :: l)).
  destruct (decide (y = z)) as [->|]; [|by rewrite elem_of_cons, IH, <- elem_of_cons]. rewrite IH, !elem_of_cons. naive_solver.
Qed.

(** Sorted values without their repetitions. *)
Lemma dedup_sorted (l : list A) :
  StronglySorted R l → (∀ x y, x ∈ l → y ∈ l → R x y → R y x → x = y) → StronglySorted R (dedup l) ∧ NoDup (dedup l).
Proof.
  induction l as [|y [|z l] IH]; intros Hs Ha; [split; constructor|by split; [|apply NoDup_singleton]|].
  change (dedup (y :: z :: l)) with (if decide (y = z) then dedup (z :: l) else y :: dedup (z :: l)).
  inversion Hs as [|? ? Hs' Hall]; subst. destruct IH as [IH1 IH2]; [done| |].
  { intros ? ? ? ?. apply Ha; by apply elem_of_cons; right. }
  destruct (decide (y = z)) as [|Hne]; [done|]. rewrite Forall_forall in Hall. split.
  - constructor; [done|]. apply Forall_forall. intros x Hx. by apply Hall, elem_of_dedup.
  - constructor; [|done]. rewrite elem_of_dedup. intros Hy. apply Hne. apply Ha; [by left|by right; left|apply Hall; by left|].
    apply elem_of_cons in Hy as [->|Hy]; [done|]. inversion Hs' as [|? ? _ Hz]; subst. rewrite Forall_forall in Hz. by apply Hz.
Qed.
End dedup.

Lemma normalize_elem l c : c ∈ normalize_claims l ↔ c ∈ l.
Proof. unfold normalize_claims. by rewrite elem_of_dedup, merge_sort_Permutation. Qed.

Lemma normalize_sorted l : Forall claim_ok l → StronglySorted claim_le (normalize_claims l) ∧ NoDup (normalize_claims l).
Proof.
  intros Hl. apply dedup_sorted; [apply StronglySorted_merge_sort; apply _|]. rewrite Forall_forall in Hl.
  intros x y Hx Hy. rewrite merge_sort_Permutation in Hx, Hy. apply claim_le_antisym; by apply Hl.
Qed.

(** The normal form tells the set of claims, and nothing else. *)
Lemma normalize_iff a b : Forall claim_ok a → Forall claim_ok b → normalize_claims a = normalize_claims b ↔ ∀ c, c ∈ a ↔ c ∈ b.
Proof.
  intros Ha Hb. destruct (normalize_sorted a Ha) as [Sa Na], (normalize_sorted b Hb) as [Sb Nb]. split.
  - intros H c. by rewrite <- (normalize_elem a), H, normalize_elem.
  - intros H. assert (Hp : normalize_claims a ≡ₚ normalize_claims b).
    { apply NoDup_Permutation; [done..|]. intros c. by rewrite !normalize_elem. }
    rewrite Forall_forall in Ha, Hb. eapply StronglySorted_unique_strong; [|done..]. intros x y Hx Hy.
    rewrite normalize_elem in Hx, Hy. apply claim_le_antisym; [by apply Ha|by apply Hb].
Qed.

(** * Admission *)

(** Strings of characters and generations of 64 bits. *)
Definition binding_typed (b : VerifiedAudienceBinding) : Prop :=
  match b with
  | OAuth r a p revision v generation => Forall string_ok [r; a; p; v] ∧ Forall (λ n, 0 <= n < 2 ^ 64) [revision; generation]
  | _ => True
  end.
Definition typed (f : Facts) : Prop :=
  Forall string_ok [provider f; issuer f; canonical_resource f; tenant f; subject_or_principal f; authorized_party_or_client f] ∧
  Forall (λ n, 0 <= n < 2 ^ 64) [configuration_generation f; auth_policy_revision f; trust_generation f] ∧
  binding_typed (verified_audience_binding f) ∧ Forall claim_ok (verified_claims f).

Definition with_claims (f : Facts) (claims : list claim) : Facts :=
  {| provider := provider f; configuration_generation := configuration_generation f; issuer := issuer f;
     canonical_resource := canonical_resource f; verified_audience_binding := verified_audience_binding f;
     tenant := tenant f; subject_or_principal := subject_or_principal f;
     authorized_party_or_client := authorized_party_or_client f; verified_claims := claims;
     auth_policy_revision := auth_policy_revision f; trust_generation := trust_generation f |}.

Definition required_fields (f : Facts) : list (list Z) :=
  [provider f; issuer f; canonical_resource f; tenant f; subject_or_principal f; authorized_party_or_client f].
Definition binding_fields (b : VerifiedAudienceBinding) : list (list Z) :=
  match b with OAuth r a p _ v _ => [r; a; p; v] | _ => [] end.

(** A binding names the resource, the provider and the generation around it. *)
Definition binding_agrees (f : Facts) : Prop :=
  match verified_audience_binding f with
  | OAuth r _ _ _ v generation => r = canonical_resource f ∧ v = provider f ∧ generation = configuration_generation f
  | _ => True
  end.

Definition claim_fits (c : claim) : Prop := field_fits c.1 ∧ zlen (as_bytes c.2) <= 8192.
Definition string_bytes (l : list (list Z)) : Z := sum ((λ s, zlen (as_bytes s)) <$> l).
Definition claim_texts (l : list claim) : list (list Z) := l ≫= λ c, [c.1; c.2].

Definition admissible (f : Facts) : Prop :=
  Forall field_fits (required_fields f ++ binding_fields (verified_audience_binding f)) ∧ binding_agrees f ∧
  zlen (verified_claims f) <= 256 ∧ Forall claim_fits (verified_claims f) ∧
  string_bytes (required_fields f ++ binding_fields (verified_audience_binding f) ++ claim_texts (verified_claims f)) <= 65536.

Lemma string_bytes_nonneg l : 0 <= string_bytes l.
Proof. apply sum_fmap_nonneg. intros. apply zlen_nonneg. Qed.
Lemma string_bytes_cons s l : string_bytes (s :: l) = zlen (as_bytes s) + string_bytes l.
Proof. unfold string_bytes. by rewrite sum_fmap_cons. Qed.
Lemma string_bytes_app k l : string_bytes (k ++ l) = string_bytes k + string_bytes l.
Proof. unfold string_bytes. by rewrite fmap_app, sum_app. Qed.

Lemma charge_cases s total : 0 <= total <= 65536 →
  (zlen (as_bytes s) <= 8192 ∧ total + zlen (as_bytes s) <= 65536 ∧ charge_identity_field s total = Ok (total + zlen (as_bytes s))) ∨
  (¬ (zlen (as_bytes s) <= 8192 ∧ total + zlen (as_bytes s) <= 65536) ∧ ∃ e, charge_identity_field s total = Err e).
Proof.
  intros Ht. unfold charge_identity_field, MAX_VERIFIED_IDENTITY_FIELD_BYTES, MAX_VERIFIED_IDENTITY_BYTES, checked_add.
  pose proof (zlen_nonneg (as_bytes s)). case_goal_if; zbool; [right; split; [lia|by eexists]|].
  destruct (total + zlen (as_bytes s) <=? usize_max) eqn:Ec; zbool; [|unfold usize_max in Ec; lia].
  case_goal_if; zbool; [right; split; [lia|by eexists]|left; split_and!; done || lia].
Qed.

Lemma charge_fields_cases e l : ∀ total, 0 <= total <= 65536 →
  (Forall field_fits l ∧ total + string_bytes l <= 65536 ∧ charge_fields e l total = Ok (total + string_bytes l)) ∨
  (¬ (Forall field_fits l ∧ total + string_bytes l <= 65536) ∧ ∃ e', charge_fields e l total = Err e').
Proof.
  induction l as [|s l IH]; intros total Ht.
  { left. change (string_bytes []) with 0. rewrite Z.add_0_r. split_and!; [done|lia|done]. }
  cbn [charge_fields]. rewrite Forall_cons, string_bytes_cons. unfold field_fits at 1 3. pose proof (string_bytes_nonneg l).
  case_bool_decide; [right; split; [tauto|by eexists]|].
  destruct (charge_cases s total Ht) as [(H1 & H2 & ->)|(H1 & e' & ->)]; cbn [obind]; [|right; split; [|by eexists]; intros [[[_ ?] _] ?]; apply H1; lia].
  pose proof (zlen_nonneg (as_bytes s)).
  destruct (IH (total + zlen (as_bytes s))) as [(H5 & H6 & ->)|(H5 & He)]; [lia|left|right].
  - rewrite <- Z.add_assoc in *. done.
  - split; [|done]. intros [[_ ?] ?]. apply H5. split; [done|lia].
Qed.

Lemma charge_claims_cases l : ∀ total, 0 <= total <= 65536 →
  (Forall claim_fits l ∧ total + string_bytes (claim_texts l) <= 65536 ∧ ∃ t, charge_claims l total = Ok t) ∨
  (¬ (Forall claim_fits l ∧ total + string_bytes (claim_texts l) <= 65536) ∧ ∃ e', charge_claims l total = Err e').
Proof.
  induction l as [|[n v] l IH]; intros total Ht.
  { left. change (string_bytes (claim_texts [])) with 0. split_and!; [done|lia|by eexists]. }
  cbn [charge_claims]. change (claim_texts ((n, v) :: l)) with (n :: v :: claim_texts l).
  rewrite Forall_cons, !string_bytes_cons. unfold claim_fits at 1 3, field_fits. cbn [fst snd].
  pose proof (string_bytes_nonneg (claim_texts l)). pose proof (zlen_nonneg (as_bytes v)). pose proof (zlen_nonneg (as_bytes n)).
  case_bool_decide; [right; split; [tauto|by eexists]|].
  destruct (charge_cases n total Ht) as [(H4 & H5 & ->)|(H4 & e' & ->)]; cbn [obind]; [|right; split; [|by eexists]; intros ?; apply H4; lia].
  destruct (charge_cases v (total + zlen (as_bytes n))) as [(H6 & H7 & ->)|(H6 & e' & ->)]; cbn [obind]; [lia| |right; split; [|by eexists]; intros ?; apply H6; lia].
  destruct (IH (total + zlen (as_bytes n) + zlen (as_bytes v))) as [(H8 & H9 & Ht')|(H8 & He)]; [lia|left|right; (split; [|done]); intros [[_ ?] ?]; apply H8; split; [done|lia]].
  split_and!; done || lia.
Qed.

Lemma charge_binding_cases f total : 0 <= total <= 65536 →
  let fields := binding_fields (verified_audience_binding f) in
  (Forall field_fits fields ∧ binding_agrees f ∧ total + string_bytes fields <= 65536 ∧ charge_binding f total = Ok (total + string_bytes fields)) ∨
  (¬ (Forall field_fits fields ∧ binding_agrees f ∧ total + string_bytes fields <= 65536) ∧ ∃ e', charge_binding f total = Err e').
Proof.
  intros Ht fields. subst fields. unfold charge_binding, binding_agrees, binding_fields.
  destruct (verified_audience_binding f) as [r a p revision v generation| |];
    [|left; change (string_bytes []) with 0; rewrite Z.add_0_r; split_and!; done || lia..].
  destruct (charge_fields_cases InvalidAudienceBinding [r; a; p; v] total Ht) as [(H3 & H4 & ->)|(H3 & e & ->)];
    [|right; split; [tauto|by eexists]].
  cbn [obind]. case_goal_if.
  - right. split; [|by eexists]. intros (_ & (-> & -> & ->) & _). rewrite !bool_decide_true, Z.eqb_refl in E by done. done.
  - left. rewrite !orb_false_iff, !negb_false_iff, !bool_decide_eq_true, Z.eqb_eq in E. tauto.
Qed.

(** Facts are admitted, with their claims in normal form, exactly when they fit. *)
Lemma admission_cases f :
  (admissible f ∧ from_verified_provider_output f = Ok (with_claims f (normalize_claims (verified_claims f)))) ∨
  (¬ admissible f ∧ ∃ e, from_verified_provider_output f = Err e).
Proof.
  unfold admissible, from_verified_provider_output, MAX_VERIFIED_IDENTITY_CLAIMS. rewrite !string_bytes_app, Forall_app.
  pose proof (string_bytes_nonneg (binding_fields (verified_audience_binding f))).
  pose proof (string_bytes_nonneg (claim_texts (verified_claims f))). pose proof (string_bytes_nonneg (required_fields f)).
  case_goal_if; zbool; [right; split; [lia|by eexists]|].
  destruct (charge_fields_cases KeyIdEmpty (required_fields f) 0 ltac:(lia)) as [(H2 & H3 & E1)|(H2 & e & E1)];
    unfold required_fields at 1 in E1; rewrite E1; cbn [obind]; [|right; split; [|by eexists]; intros ?; apply H2; split; [tauto|lia]].
  destruct (charge_binding_cases f (0 + string_bytes (required_fields f))) as [(H4 & H5 & H6 & ->)|(H4 & e & ->)]; cbn [obind];
    [lia| |right; split; [|by eexists]; intros ?; apply H4; split_and!; tauto || lia].
  destruct (charge_claims_cases (verified_claims f) (0 + string_bytes (required_fields f) + string_bytes (binding_fields (verified_audience_binding f))))
    as [(H7 & H8 & t & ->)|(H7 & e & ->)]; cbn [obind];
    [lia|left; split_and!; done || lia|right; split; [|by eexists]; intros ?; apply H7; split; tauto || lia].
Qed.

(** * Identities *)

Lemma canonical_app_inj b c l k :
  binding_typed b → binding_typed c → canonical_parts b ++ l = canonical_parts c ++ k → b = c ∧ l = k.
Proof.
  destruct b as [r a p n v m| |], c as [r' a' p' n' v' m'| |]; intros Hb Hc H; try discriminate H; [|by injection H..].
  destruct Hb as [Hb Hn], Hc as [Hc Hn']. rewrite !Forall_cons in *. destruct_and!. cbn [canonical_parts app] in H.
  do 7 (apply cons_inv in H as [? H]). split; [|done].
  repeat match goal with
  | E : as_bytes _ = as_bytes _ |- _ => apply as_bytes_inj in E; [|done..]
  | E : to_be_bytes _ = to_be_bytes _ |- _ => apply to_be_bytes_inj in E; [|done..]
  end. by f_equal.
Qed.

Lemma claims_inj l : Forall claim_ok l → ∀ k, Forall claim_ok k →
  (l ≫= λ c, [as_bytes c.1; as_bytes c.2]) = (k ≫= λ c, [as_bytes c.1; as_bytes c.2]) → l = k.
Proof.
  induction 1 as [|[n v] l [Hn Hv] _ IH]; intros ? [|[n' v'] k [Hn' Hv'] Hk] H; [done|done|done|].
  rewrite !bind_cons in H. cbn [app fst snd] in H. apply cons_inv in H as [H1 H]. apply cons_inv in H as [H2 H].
  apply as_bytes_inj in H1; [|done..]. apply as_bytes_inj in H2; [|done..]. f_equal; [congruence|by apply IH].
Qed.

Lemma identity_parts_inj f g : typed f → typed g → identity_parts f = identity_parts g → f = g.
Proof.
  intros (Hs & Hn & Hb & Hc) (Hs' & Hn' & Hb' & Hc') H. unfold identity_parts in H. rewrite !Forall_cons in *. destruct_and!.
  cbn [app] in H. do 10 (apply cons_inv in H as [? H]). apply canonical_app_inj in H as [? H]; [|done..].
  apply cons_inv in H as [_ H]. apply claims_inj in H; [|done..].
  repeat match goal with
  | E : as_bytes _ = as_bytes _ |- _ => apply as_bytes_inj in E; [|done..]
  | E : to_be_bytes _ = to_be_bytes _ |- _ => apply to_be_bytes_inj in E; [|done..]
  end. destruct f, g; simpl in *. by f_equal.
Qed.

(** The same facts, with the same claims in any order and number. *)
Definition same_identity (f g : Facts) : Prop :=
  with_claims f [] = with_claims g [] ∧ ∀ c, c ∈ verified_claims f ↔ c ∈ verified_claims g.

Lemma with_claims_eq f g l : with_claims f [] = with_claims g [] → with_claims f l = with_claims g l.
Proof. destruct f, g. unfold with_claims. simpl. congruence. Qed.

Lemma with_claims_inv f g l k : with_claims f l = with_claims g k → with_claims f [] = with_claims g [] ∧ l = k.
Proof. destruct f, g. unfold with_claims. simpl. intros [=]. by simplify_eq. Qed.

(** What an admission answers, and that it keeps the types. *)
Lemma admitted_facts f f' : typed f → from_verified_provider_output f = Ok f' →
  f' = with_claims f (normalize_claims (verified_claims f)) ∧ typed f'.
Proof.
  intros (Hs & Hn & Hb & Hc) H. destruct (admission_cases f) as [[_ E]|[_ [e E]]]; rewrite E in H; [|done]. injection H as <-.
  split; [done|]. split_and!; try done. rewrite Forall_forall in *. intros c Hx. by apply Hc, normalize_elem.
Qed.

Lemma ingress_ok sha256 f d : from_verified_ingress sha256 f = Ok d →
  facts d = f ∧ opaque_admission_digest (E:=IngressFactsError) sha256 (identity_parts f) = Ok (identity d).
Proof. unfold from_verified_ingress. destruct (opaque_admission_digest _ _) eqn:E; [|done..]. by intros [= <-]. Qed.

(** The arguments of the admission descriptor. *)
Definition projected (f : Facts) : Partition.VerifiedFacts :=
  Partition.Build_VerifiedFacts (provider f) (configuration_generation f) (issuer f) (canonical_resource f) (tenant f)
    (subject_or_principal f) (authorized_party_or_client f) (trust_generation f) (auth_policy_revision f)
    (canonical_parts (verified_audience_binding f)).

Lemma projected_typed f : typed f → facts_typed (projected f).
Proof. intros (Hs & Hn & _). unfold facts_typed. rewrite !Forall_cons in *. destruct_and!. done. Qed.

Lemma projected_inj f g : typed f → typed g → projected f = projected g → with_claims f [] = with_claims g [].
Proof.
  intros (_ & _ & Hb & _) (_ & _ & Hb' & _) H. unfold projected in H. injection H as ? ? ? ? ? ? ? ? ? H.
  destruct (canonical_app_inj _ _ [] [] Hb Hb') as [? _]; [by rewrite H|]. unfold with_claims. congruence.
Qed.

(** C20: For facts a provider verified and the code admitted, the identity of the
    descriptor is the same whenever the facts are, whatever the order and the
    repetitions of their claims, and two equal identities mean that all twelve
    facts are equal, the claims as sets, or else two texts with one SHA-256
    digest are known.  The admission identity projected from it tells all of
    these facts but the claims, in the same sense. *)
Theorem ingress_identity_exact sha256 f g f' g' d e :
  typed f → typed g → from_verified_provider_output f = Ok f' → from_verified_provider_output g = Ok g' →
  from_verified_ingress sha256 f' = Ok d → from_verified_ingress sha256 g' = Ok e →
  (same_identity f g → d = e) ∧
  (identity d = identity e → collision sha256 ∨ same_identity f g) ∧
  (∀ p q, to_partition_descriptor sha256 d = Ok p → to_partition_descriptor sha256 e = Ok q →
     (with_claims f [] = with_claims g [] → p = q) ∧
     (Partition.identity p = Partition.identity q → collision sha256 ∨ with_claims f [] = with_claims g [])).
Proof.
  intros Hf Hg Ef Eg Ed Ee. destruct (admitted_facts _ _ Hf Ef) as [-> Tf], (admitted_facts _ _ Hg Eg) as [-> Tg].
  pose proof (ingress_ok _ _ _ Ed) as [Fd Id]. pose proof (ingress_ok _ _ _ Ee) as [Fe Ie].
  destruct Hf as (_ & _ & _ & Hcf), Hg as (_ & _ & _ & Hcg). split_and!.
  - intros [Hw Hc]. apply normalize_iff in Hc; [|done..]. rewrite Hc, (with_claims_eq _ _ _ Hw) in Ed. congruence.
  - intros Hi. rewrite Hi in Id. destruct (digest_inj _ _ _ _ Id Ie) as [?|Hp]; [by left|]. right.
    apply identity_parts_inj in Hp as [Hw Hc]%with_claims_inv; [|done..]. split; [done|]. by apply normalize_iff.
  - intros p q Hp Hq. unfold to_partition_descriptor in Hp, Hq. rewrite Fd in Hp. rewrite Fe in Hq. split.
    + intros Hw%(with_claims_eq _ _ (normalize_claims (verified_claims g))).
      change (Partition.from_verified_facts sha256 (projected (with_claims f (normalize_claims (verified_claims g)))) = Ok p) in Hp.
      rewrite Hw in Hp. change (Partition.from_verified_facts sha256 (projected (with_claims g (normalize_claims (verified_claims g)))) = Ok q) in Hq.
      congruence.
    + intros Hi. apply facts_identity in Hp, Hq. rewrite Hi in Hp. destruct (digest_inj _ _ _ _ Hp Hq) as [?|H]; [by left|]. right.
      apply (fact_parts_inj (projected _) (projected _)) in H; [|by apply projected_typed..]. by apply projected_inj, with_claims_inv in H as [H _].
Qed.

(** * The bounds *)

(** Bytes of an identity that no budget counts: labels, numbers and lengths. *)
Definition framing (b : VerifiedAudienceBinding) : Z :=
  match b with OAuth _ _ _ _ _ _ => 77 | MutualTlsPeer => 23 | StaticCredential => 25 end.
Definition texts (f : Facts) : list (list Z) :=
  required_fields f ++ binding_fields (verified_audience_binding f) ++ claim_texts (verified_claims f).

Lemma parts_app ps qs : encode_parts (ps ++ qs) = encode_parts ps ++ encode_parts qs.
Proof. unfold encode_parts. by rewrite bind_app. Qed.

Lemma zlen_part p ps : zlen (encode_parts (p :: ps)) = 8 + zlen p + zlen (encode_parts ps).
Proof. rewrite encode_parts_cons, !zlen_app, zlen_to_be_bytes. lia. Qed.

Lemma zlen_claims l : zlen (encode_parts (l ≫= λ c, [as_bytes c.1; as_bytes c.2])) = string_bytes (claim_texts l) + 16 * zlen l.
Proof.
  induction l as [|[n v] l IH]; [done|]. rewrite bind_cons. cbn [app fst snd].
  change (claim_texts ((n, v) :: l)) with (n :: v :: claim_texts l). rewrite !zlen_part, IH, !string_bytes_cons, zlen_cons. lia.
Qed.

Lemma zlen_canonical b : zlen (encode_parts (canonical_parts b)) = string_bytes (binding_fields b) + framing b.
Proof.
  destruct b as [r a p n v m| |]; [|done..]. cbn [canonical_parts binding_fields framing].
  rewrite !zlen_part, !string_bytes_cons, !zlen_to_be_bytes. change (zlen (chars_of "oauth")) with 5.
  change (zlen (encode_parts [])) with 0. change (string_bytes []) with 0. lia.
Qed.

Lemma identity_size f :
  zlen (encode_parts (identity_parts f)) = string_bytes (texts f) + framing (verified_audience_binding f) + 16 * zlen (verified_claims f) + 160.
Proof.
  unfold identity_parts, texts, required_fields.
  rewrite !parts_app, !zlen_app, zlen_canonical, zlen_claims, !string_bytes_app, !zlen_part, !string_bytes_cons, !zlen_to_be_bytes.
  change (zlen (chars_of _)) with 40. change (zlen (encode_parts [])) with 0. change (string_bytes []) with 0. lia.
Qed.

(** The bytes of a binding, without lengths. *)
Definition binding_bytes (b : VerifiedAudienceBinding) : Z := sum (zlen <$> canonical_parts b).

Lemma canonical_fits b : Forall field_fits (binding_fields b) → binding_fits (canonical_parts b) ↔ binding_bytes b <= 8192.
Proof.
  intros Hf. unfold binding_fits, binding_bytes. split; [by intros (_ & _ & ?)|]. intros Hb.
  assert (Hne : ∀ v, field_fits v → as_bytes v ≠ []).
  { intros [|c v] [? _]; [done|]. rewrite as_bytes_cons. intros Hn. apply app_nil in Hn as [Hn _]. by apply encode_utf8_ne in Hn. }
  split_and!; [by destruct b| |done]. destruct b; [|by repeat constructor..]. cbn [binding_fields] in Hf. rewrite !Forall_cons in Hf. destruct_and!.
  repeat constructor; (done || by apply Hne).
Qed.

(** Six fields of 8 KiB and a binding of 8 KiB stay inside the hash bound. *)
Lemma projected_no_panic sha256 f : Forall field_fits (required_fields f) → Partition.from_verified_facts sha256 (projected f) ≠ Panic.
Proof.
  intros Hf H. apply facts_panic in H as (_ & (_ & _ & Hb) & H). unfold fact_parts in H.
  rewrite parts_app, zlen_app, !zlen_part, !zlen_to_be_bytes in H. unfold required_fields in Hf. rewrite !Forall_cons in Hf.
  destruct_and!. repeat match goal with F : field_fits _ |- _ => apply field_fits_bytes in F end.
  assert (zlen (encode_parts (canonical_parts (verified_audience_binding f))) <= 8192 + 56).
  { rewrite zlen_encode_parts. cbn [projected Partition.f_audience_binding] in Hb. revert Hb. clear.
    destruct (verified_audience_binding f); cbn [canonical_parts]; rewrite !fmap_cons; unfold sum; cbn [foldr fmap list_fmap]; lia. }
  cbn [projected Partition.f_provider Partition.f_issuer Partition.f_canonical_resource Partition.f_tenant Partition.f_subject
    Partition.f_client Partition.f_audience_binding] in *.
  change (zlen (chars_of _)) with 31 in H. change (zlen (encode_parts [])) with 0 in H. lia.
Qed.

Lemma facts_ok_iff sha256 f :
  Forall field_fits [Partition.f_provider f; Partition.f_issuer f; Partition.f_canonical_resource f; Partition.f_tenant f;
    Partition.f_subject f; Partition.f_client f] →
  Partition.from_verified_facts sha256 f ≠ Panic →
  (∃ p, Partition.from_verified_facts sha256 f = Ok p) ↔ binding_fits (Partition.f_audience_binding f).
Proof.
  rewrite !Forall_cons. intros Hf. destruct_and!. unfold Partition.from_verified_facts.
  destruct (binding_cases (Partition.f_audience_binding f)) as [[Hb ->]|[Hb [e ->]]]; cbn [obind]; [|by intros _; split; [intros []|]].
  pose proof (binding_count _ Hb). rewrite (proj2 (Z.leb_le _ _)) by (unfold u64_max; lia). cbn [obind].
  do 6 (field_case; [|done]). intros Hp. split; [done|]. intros _.
  match type of Hp with context [opaque_admission_digest sha256 ?ps] =>
    destruct (@digest_cases sha256 SealedAdmissionKeyError ps) as [[_ Hd]|[_ Hd]]; rewrite Hd in * end; [by eexists|done].
Qed.

(** C21: Verified facts are admitted exactly within their bounds: the six fields
    and those of an OAuth binding are present and at most 8 KiB each, the binding
    agrees with the facts, there are at most 256 claims with names, and all texts
    take at most 64 KiB.  The descriptor of admitted facts hashes 160 bytes, the
    framing of the binding and 16 bytes for each claim beyond these texts, and
    the derivation panics exactly when that exceeds the hash bound of 64 KiB.
    Otherwise the projection to an admission descriptor never panics, and
    succeeds exactly when the parts of the binding together take at most 8 KiB. *)
Theorem ingress_admission_exact sha256 f :
  match from_verified_provider_output f with
  | Ok f' =>
      admissible f ∧ f' = with_claims f (normalize_claims (verified_claims f)) ∧
      (from_verified_ingress sha256 f' = Panic ↔
         65536 < string_bytes (texts f') + framing (verified_audience_binding f) + 16 * zlen (verified_claims f') + 160) ∧
      (∀ d, from_verified_ingress sha256 f' = Ok d →
         to_partition_descriptor sha256 d ≠ Panic ∧
         ((∃ p, to_partition_descriptor sha256 d = Ok p) ↔ binding_bytes (verified_audience_binding f) <= 8192))
  | Err _ => ¬ admissible f
  | _ => False
  end.
Proof.
  destruct (admission_cases f) as [[Ha ->]|[Ha [e ->]]]; [|done]. set (f' := with_claims _ _).
  pose proof Ha as (Hf & _). rewrite Forall_app in Hf. destruct Hf as [Hf Hb]. split_and!; [done|done| |].
  - unfold from_verified_ingress. pose proof (identity_size f') as Hs.
    change (verified_audience_binding f') with (verified_audience_binding f) in Hs. rewrite <- Hs.
    destruct (@digest_cases sha256 IngressFactsError (identity_parts f')) as [[H ->]|[H ->]]; cbn [obind]; (split; [done|lia]) || done.
  - intros d [Hd _]%ingress_ok. unfold to_partition_descriptor. rewrite Hd.
    change (Partition.Build_VerifiedFacts _ _ _ _ _ _ _ _ _ _) with (projected f').
    pose proof (projected_no_panic sha256 f' Hf) as Hp. split; [done|]. rewrite facts_ok_iff by done. by apply canonical_fits.
Qed.

(** * Fingerprints *)

(** What was sealed is verified under the same key, and nothing else is, unless
    the keyed hash has a collision. *)
Theorem fingerprint_exact hmac id n key m r :
  seal hmac id n key m = Ok r →
  verify_reference hmac r key m = Ok tt ∧
  (∀ m', verify_reference hmac r key m' = Ok tt → m' = m ∨ ∃ x y, x ≠ y ∧ hmac key x = hmac key y).
Proof.
  unfold seal, derive, verify_reference, verify_material, authenticate_bounded, verify_bounded, enforce_input_limit, SECRET_FINGERPRINT_INPUT_LIMIT_BYTES.
  intros H. destruct (check_key_id id) as [[]| | |]; try done. cbn [obind] in H. case_if_in H; [done|].
  case_if_in H; [done|]. cbn [map_err obind] in H. injection H as <-. cbn [key_id generation tag].
  rewrite E0, bool_decide_true by done. split; [done|]. intros m'. case_goal_if; [done|]. case_goal_if; [done|].
  case_bool_decide as Hh; [|done]. intros _. zbool.
  destruct (decide (preimage id n m' = preimage id n m)) as [Hp|Hp]; [left|right; by eexists _, _].
  change (encode_parts [SECRET_FINGERPRINT_DOMAIN; as_bytes id; to_be_bytes n; m'] =
    encode_parts [SECRET_FINGERPRINT_DOMAIN; as_bytes id; to_be_bytes n; m]) in Hp.
  apply encode_parts_inj in Hp; [congruence|..]; eapply Z.le_lt_trans; try done.
Qed.

(** Printable identifiers of 1 to 128 bytes and material of at most 64 KiB are
    sealed; the bound of the keyed hash is never met. *)
Lemma seal_ok_iff hmac id n key m :
  (∃ r, seal hmac id n key m = Ok r) ↔ check_key_id id = Ok tt ∧ zlen m <= 65536.
Proof.
  unfold seal, derive, authenticate_bounded, enforce_input_limit, SECRET_FINGERPRINT_INPUT_LIMIT_BYTES.
  destruct (check_key_id id) as [[]| | |] eqn:Ei; cbn [obind]; [|by split; [intros []|intros []]..].
  assert (zlen (as_bytes id) <= 128).
  { revert Ei. unfold check_key_id, SECRET_FINGERPRINT_KEY_ID_MAX_BYTES. do 2 (case_goal_if; [done|]). by zbool. }
  case_goal_if; zbool; [split; [by intros []|lia]|]. case_goal_if; zbool; [|by split; [|intros _; eexists]].
  change (preimage id n m) with (encode_parts [SECRET_FINGERPRINT_DOMAIN; as_bytes id; to_be_bytes n; m]) in E0.
  rewrite !zlen_part, zlen_to_be_bytes in E0. change (zlen SECRET_FINGERPRINT_DOMAIN) with 29 in E0.
  change (zlen (encode_parts [])) with 0 in E0. lia.
Qed.

(** * Concrete facts *)
Module Examples.
Import PartitionCorrect.Examples.

Definition ex_ingress (claims : list claim) : Facts :=
  {| provider := chars_of "p"; configuration_generation := 1; issuer := chars_of "i"; canonical_resource := chars_of "r";
     verified_audience_binding := OAuth (chars_of "r") (chars_of "a") (chars_of "x") 7 (chars_of "p") 1;
     tenant := chars_of "t"; subject_or_principal := chars_of "s"; authorized_party_or_client := chars_of "c";
     verified_claims := claims; auth_policy_revision := 2; trust_generation := 3 |}.

Definition ex_claims : list claim := [(chars_of "b", chars_of "2"); (chars_of "a", chars_of "1"); (chars_of "b", chars_of "2")].
Definition ex_normal : list claim := [(chars_of "a", chars_of "1"); (chars_of "b", chars_of "2")].

Example ex_admitted : from_verified_provider_output (ex_ingress ex_claims) = Ok (ex_ingress ex_normal).
Proof. by vm_compute. Qed.

(** A binding that names another resource is refused, and so is an empty tenant. *)
Example ex_refused :
  from_verified_provider_output
    {| provider := chars_of "p"; configuration_generation := 1; issuer := chars_of "i"; canonical_resource := chars_of "q";
       verified_audience_binding := OAuth (chars_of "r") (chars_of "a") (chars_of "x") 7 (chars_of "p") 1;
       tenant := chars_of "t"; subject_or_principal := chars_of "s"; authorized_party_or_client := chars_of "c";
       verified_claims := []; auth_policy_revision := 2; trust_generation := 3 |} = Err InvalidAudienceBinding ∧
  from_verified_provider_output
    {| provider := chars_of "p"; configuration_generation := 1; issuer := chars_of "i"; canonical_resource := chars_of "r";
       verified_audience_binding := MutualTlsPeer;
       tenant := []; subject_or_principal := chars_of "s"; authorized_party_or_client := chars_of "c";
       verified_claims := []; auth_policy_revision := 2; trust_generation := 3 |} = Err KeyIdEmpty.
Proof. by vm_compute. Qed.

(** Eight claims with values of 8188 bytes pass every bound of the admission,
    65522 bytes in all, and then exceed the bound of the hash. *)
Definition ex_large : list claim := (λ n, ([n], replicate (Z.to_nat 8188) 120)) <$> [97; 98; 99; 100; 101; 102; 103; 104].

Example ex_admitted_panics :
  ∃ f, from_verified_provider_output (ex_ingress ex_large) = Ok f ∧ from_verified_ingress ex_hash f = Panic.
Proof. eexists. split; [vm_compute; reflexivity|vm_compute; reflexivity]. Qed.

Definition ex_sd (claims : list claim) : SecurityPartitionDescriptor :=
  {| facts := ex_ingress claims; identity := encode_parts (identity_parts (ex_ingress claims)) |}.

(** A rotation is fresh until its expiry and its staleness bound, once dispatched. *)
Definition ex_print : SecretFingerprint := {| key_id := chars_of "k1"; generation := 1; tag := [] |}.
Definition ex_rotation (d : RevalidationDispatch) : AuthorizationRotationFacts :=
  new_rotation ex_print ex_print [chars_of "w"; chars_of "r"; chars_of "w"] 3 (60 * 1000000000) default_bound d.
Example ex_fresh :
  required_grants (ex_rotation Dispatched) = [chars_of "r"; chars_of "w"] ∧
  is_fresh_after (ex_rotation Dispatched) (30 * 1000000000) = true ∧
  is_fresh_after (ex_rotation Dispatched) (30 * 1000000000 + 1) = false ∧
  is_fresh_after (ex_rotation Unknown) 0 = false ∧
  new_staleness 0 = Err MaximumStalenessZero ∧ new_staleness HARD_MAXIMUM_STALENESS = Ok HARD_MAXIMUM_STALENESS.
Proof. by vm_compute. Qed.

(** A sealed reference is verified; another one is not. *)
Definition ex_hmac (key input : list Z) : list Z := key ++ input.
Example ex_sealed :
  ∃ r, seal ex_hmac (chars_of "k1") 1 [9] (chars_of "token") = Ok r ∧
    verify_reference ex_hmac r [9] (chars_of "token") = Ok tt ∧
    verify_reference ex_hmac r [9] (chars_of "tokem") = Err FingerprintMismatch.
Proof. eexists. split; [vm_compute; reflexivity|by vm_compute]. Qed.
End Examples.

End IngressCorrect.

Import Limits.SealedKeys Ingress IngressCorrect IngressCorrect.Examples.

Lemma ingress_identity_exact_witness :
  typed (ex_ingress ex_claims) ∧ typed (ex_ingress ex_normal) ∧
  from_verified_provider_output (ex_ingress ex_claims) = Ok (ex_ingress ex_normal) ∧
  from_verified_ingress PartitionCorrect.Examples.ex_hash (ex_ingress ex_normal) = Ok (ex_sd ex_normal) ∧
  (identity (ex_sd ex_normal) = identity (ex_sd ex_normal) →
   PartitionCorrect.collision PartitionCorrect.Examples.ex_hash ∨ same_identity (ex_ingress ex_claims) (ex_ingress ex_normal)).
Proof.
  assert (T : typed (ex_ingress ex_claims) ∧ typed (ex_ingress ex_normal)).
  { split; (split_and!; [..|split|]); repeat constructor; by vm_compute. }
  destruct T as [T1 T2]. split; [done|]. split; [done|]. split; [by vm_compute|]. split; [by vm_compute|].
  apply (ingress_identity_exact PartitionCorrect.Examples.ex_hash (ex_ingress ex_claims) (ex_ingress ex_normal)
    (ex_ingress ex_normal) (ex_ingress ex_normal) (ex_sd ex_normal) (ex_sd ex_normal) T1 T2); by vm_compute.
Defined.
